(* ===== verification/_CoqProject ===== *)
-Q . S2P
Prelude.v
BTree.v
KernelDatum.v
Lattice.v
DataflowGraph.v
Budget.v
Worklist.v
DataflowEngine.v
DataflowBounds.v
Resumable.v
Completion.v
IncrementalSolve.v
QueryEngine.v
QuerySemantics.v
QueryHistory.v
QuerySnapshot.v
DataflowSamples.v
DatumSamples.v
MachineStack.v
MachineShuffle.v
MachineSlots.v
MachineCode.v
MachineAdmission.v
MachineFrame.v
MachineDriver.v
ManagedNode.v
ManagedArena.v
ControlJobs.v
GcCollector.v
GcMarking.v
GcCollect.v
MachineSamples.v
ClassLineage.v
LineageWalk.v
LineagePolicies.v
ClassCache.v
ClassCacheProof.v
PatternIr.v
PatternCompile.v
PatternExecute.v
PatternThompson.v
PatternSearch.v
PatternMatch.v
PatternPriority.v
PatternText.v
PatternDialects.v
PatternRoundTrip.v
PatternTextSearch.v
PatternExtension.v
BindingCells.v
LexicalScopes.v
DynamicScopes.v
CallBinding.v
Namespace.v
ModuleLoader.v
ModuleHistory.v
NamespaceSamples.v
OperationWire.v
OperationData.v
OperationCodec.v
LifecycleRecord.v
LifecycleInvariant.v
LifecycleHistory.v
LifecycleEngine.v
LifecycleOnce.v
OperationService.v
ApprovalGate.v
OperationSamples.v
JvmTypes.v
JvmCode.v
JvmExecute.v
JvmVerify.v
JvmSound.v
JvmRun.v
JvmGraph.v
JvmEnvironment.v
JvmHeap.v
JvmLanes.v
JvmMethod.v
JvmSamples.v
