(* ===== verification/Prelude.v ===== *)
(** * Verification of the sim-runtime libraries

    The repository (crates/ under src/) is the runtime of SIM: small libraries
    ("organs") that language profiles are assembled from.  The ones that carry
    algorithmic state which the others rely on are modelled here:

    - sim-incremental-core, dataflow: lattices and transfer policies admitted by
      sampled laws, canonical graphs, a budgeted worklist solver, resumable
      solves, completion proofs and incremental re-solves;
    - sim-incremental-core, queries: a memoizing engine of callbacks with
      observations, invalidation, budgets, continuations and snapshots;
    - sim-lib-machine: a bounded machine of unit-accounted stacks and slots,
      located code, content-bound admission, frames, managed roots and an
      iterative driver with safepoints, handlers and cleanups;
    - sim-lib-mutation (managed objects), sim-lib-gc-tracing and the job queues
      of sim-lib-control: identity-bearing edges, an arena with roots and
      safepoints, a bounded tracing collector with weak edges, ephemerons and
      finalization jobs;
    - sim-lib-class: class linearization by bounded policies, and a cache of
      derived class views that lives in the managed arena;
    - sim-lib-pattern, the text part: pattern expressions, their compilation to
      an automaton, a bounded search with captures, counted repeats and
      assertions, the Lua and glob dialects, and non-regular extensions;
    - sim-lib-binding and sim-lib-namespace: shared binding cells, lexical and
      dynamic scopes, call binding, namespaces, and a module loader that threads
      use together;
    - sim-lib-operation-gate: operations whose steps are journaled
      as content-addressed data, a projector that reads a journal back into
      records, the engine that leases, dispatches, performs, observes and
      concludes an operation around crashes, the direct service without leases,
      and the approval gate in front of effects;
    - sim-lib-lang-jvm, on top of the machine, the arena and the collector: the
      heap of the JVM profile, its monitors, the initialization of classes, and
      its bytecode: prepared code, the verifier's types, transfers, dataflow
      graph, hierarchy queries and proofs of methods and classes, and the
      execution of instructions by the production driver.

    ** Conventions

    Code that returns [Result] returns [Res E A] of this file: [Ok], [Err],
    [Panic] for an [expect], an index or a subtraction that fails, and [NoFuel]
    for a loop whose fuel does not suffice; so that a theorem that a result is
    [Ok] or [Err] also says that the code neither aborts nor diverges.  A method
    with [&mut self] takes and returns the state.  [usize] counters that are
    charged are in [N] with their saturation written out; positions of vectors
    are [nat], with the check against [usize_max] where the source adds with a
    check.  A [char] is its scalar value in [N], a [str] the list of them.
    [BTreeMap] and [BTreeSet] are finite maps and sets over an ordered key type
    ([BTree]), iterated in key order.  Objects that are shared by reference live
    in a store and are named by their position in it.  Code that several threads
    run is a step relation with one step per locked section; locks that a
    panicking thread has poisoned are not modelled.  Hashing is an uninterpreted
    function; a theorem that needs two fingerprints to differ says so
    ([NoCollision]).  Callbacks (transfer policies, queries, instruction
    policies, visitors, observers, cleanups) are parameters.

    ** Files

    - [Prelude], [BTree]: results, machine integers, automation, ordered maps.
    - [Lattice] (dataflow/lattice.rs): [check_lattice], [check_transfer],
      [admit_transfer].  Admission holds exactly when the sampled laws do, refusals name
      a law that fails, and exhaustive samples establish the laws.
    - [DataflowGraph] (dataflow/graph.rs): [build] with its indices.  Building
      accepts exactly the valid declarations, never aborts, and does not depend
      on the order of declarations.
    - [Budget] (budget.rs); [Worklist]: the abstract specification of a solve,
      a step relation on states and pending nodes whose end states are least
      solutions of the flow equations.
    - [DataflowEngine] (dataflow/engine/contracts.rs, execution.rs, proof.rs):
      [solve], refining [Worklist]; [DataflowBounds]: no aborts, termination,
      budgets, and enough budget implies success.
    - [Resumable]: [start_resumable], [resume]; slices are unobservable.
    - [Completion]: [mint_completion_proof], [present], [solve_incremental];
      [IncrementalSolve]: for a transfer that maps bottom to bottom valid proofs
      stay valid and agree with clean solves, the cone is exact, and the solve is
      total.
    - [DataflowSamples]: runs on small graphs.
    - [QueryEngine] (engine.rs, state.rs, query.rs, observation.rs, error.rs):
      the engine and its evaluation, in a state and error monad.
      [QuerySemantics] gives the from-scratch meaning of queries and the
      invariant that ties memos to it; [QueryHistory] proves that every
      operation keeps the invariant (registering absent keys and removing keys
      that nothing observes as a source), that a verification refines evaluation
      from scratch, and that it ends with a value or a typed error unless a 64-bit
      counter is at its end; [QuerySnapshot] (snapshot.rs):
      export and restore; [DatumSamples] has runs.
    - [MachineStack], [MachineShuffle], [MachineSlots] (stack.rs, shuffle.rs,
      slots.rs): bounded storage; the slot file refines a map of disjoint
      extents.
    - [MachineCode] (code.rs): [freeze] and its tables; [MachineAdmission]
      (admission.rs): permits; [MachineFrame] (frame.rs, managed.rs): frames and
      root scans; [MachineDriver] (driver.rs): the drives; [MachineSamples]:
      runs, also of the collector.
    - [ManagedNode] (managed/handles.rs, edges.rs, object.rs): nodes with strong,
      weak and ephemeron edges; identities are never reused and caps hold.
      [ManagedArena] (managed/arena.rs, arena_model.rs): the arena, with the
      class [ManagedObject] as its interface to objects; over any history roots
      name live objects.
    - [ControlJobs] (sim-lib-control/jobs.rs): queues that run a job at most once
      in admission order, also when jobs use the queues.
    - [GcCollector] (sim-lib-gc-tracing): planning and applying a collection;
      [GcMarking] and [GcCollect]: the plan is the reachable set as the least
      set closed under strong edges and ephemerons with reachable keys, refusals
      change nothing.
    - [ClassLineage] (lineage.rs): the iterative traversal and the policies;
      [LineageWalk]: what a finished or refused traversal has seen;
      [LineagePolicies]: the C3 merge as a relation, which the C3 policy
      implements, and the declared order as a depth-first walk.
    - [ClassCache] (cache.rs): the cache, in a state and error monad over the
      arena; [ClassCacheProof]: the class [PolicySpec] states what a policy
      promises to the cache, a result determined by the declarations it reads, and a
      derived view is current unless a redeclaration stopped half way.
    - [PatternIr] (ir.rs): expressions and [new_pattern], which accepts exactly
      the valid ones; [PatternCompile] (compile.rs): the Thompson construction;
      [PatternExecute] (execute.rs): the search over the automaton, and the
      meaning of an expression as a relation between positions with captures
      ([parse]).
    - [PatternThompson]: the paths of the
      automaton are exactly the parses; [PatternSearch]: skipping entries with
      the same identity loses no match, by an equivalence of threads that have
      the same future; [PatternMatch]: a search of a compiled pattern is exact, by
      the documented meaning when no assertion has an anchor.
      [PatternPriority]: where a backtracking matcher ends, the search gives its
      first match.
    - [PatternText] (text_vm.rs): text programs over characters, with byte
      offsets; [PatternDialects] (lua_dialect.rs, glob_dialect.rs): the parsers
      and projections; [PatternRoundTrip]: a parsed pattern is what its program
      lowers to; [PatternTextSearch]: running compiled Lua patterns and globs;
      [PatternExtension] (extension.rs, domain_execute.rs): the bounded queue of
      extensions and the typed entry points.
    - [BindingCells] (sim-lib-binding/cell.rs): cells with aliases; writes are
      seen by exactly the handles of the same cell.  [LexicalScopes] (lexical.rs):
      frames and the forms [let], [let*], [letrec]; [DynamicScopes] (dynamic.rs):
      the stack of frames implements dynamic scoping; [CallBinding] (call.rs): a
      call is bound exactly when its arguments fit the signature.
    - [Namespace] (sim-lib-namespace/namespace.rs, specifier.rs, module.rs):
      imports and exports, and the identity of a module request, which never
      leaves its root.  [ModuleLoader] (module.rs): loads and reloads of threads
      as a step relation; [ModuleHistory]: a module keeps its cell, its 64-bit
      generations grow until one wraps, which takes 2^64 steps, and the ways in
      which a load never ends;
      [NamespaceSamples]: runs, also of patterns.
    - [KernelDatum]: the interface of the kernel's datums and content identities,
      used by [MachineAdmission] and the operation gate; [DatumSamples]: an
      instance.
    - [OperationWire], [OperationData] (operation_wire.rs, operation_error.rs,
      durable.rs, lifecycle.rs, lifecycle_wire.rs and the files of the kinds of
      data): what an operation journals and its canonical data; [OperationCodec]:
      reading gives back what was written, and only canonical meanings are read.
    - [LifecycleRecord] (lifecycle_record.rs, lifecycle_project.rs,
      lifecycle_project_validate.rs): the transitions of a record, one per
      journaled kind, and the projection of a journal;
      [LifecycleInvariant], [LifecycleHistory]: in any accepted journal attempts
      and outcomes are justified, leases do not overlap, custody is bound to the
      last dispatch, and a longer journal extends a shorter one.
    - [LifecycleEngine] (lifecycle_engine.rs, lifecycle_accepted.rs,
      lifecycle_release.rs, lifecycle_cancellation.rs): the engine as programs
      over the calls it makes; a run is a trace of calls and answers and a crash
      cuts it anywhere.  [LifecycleOnce]: an effect follows its acknowledged
      dispatch, across runs the effects are no more than the dispatches, and which
      conclusions of the engine the projector accepts; [OperationSamples]: runs.
    - [OperationService] (operation_service.rs): the direct service without
      leases; its records only grow, an operation is dispatched once and
      performed at most once across runs, and what an execution returns is in the
      journal.  [ApprovalGate] (lib.rs): guarded effects, performed only
      on a granted approval.
    - [JvmHeap] (sim-lib-lang-jvm/managed.rs): nodes with roles and a table of the
      edges a role may have; no edge dangles and a collection with the roots of a
      machine is exact.  [JvmLanes] (monitor.rs, initialization.rs): monitors
      balance over any history of lanes and frames, in which a frame is unwound
      with the cleanups that its entries registered, and a class is initialized
      once, whatever lanes try and whatever else happens to the heap.
    - [JvmTypes] (verifier/types.rs, frame.rs): verification types and frames,
      whose join is a semilattice of bounded height on the states of a method.
      [JvmCode] (value.rs, code/model.rs, code/prepare.rs): values and the
      lowering of decoded code to frozen code; [JvmExecute] (execution.rs,
      numeric.rs, control.rs): instructions over the machine's stack and slots;
      [JvmVerify] (verifier/frame.rs, stack_map.rs, initialization.rs): their
      transfers on typed frames.  [JvmSound]: an instruction whose transfer is
      accepted runs on a conforming frame and leaves a conforming one; [JvmRun]
      (dispatch.rs, driver.rs): so does every run of code with a typed
      assignment that keeps stack depths, which the verifier's joins alone do not.
    - [JvmGraph] (verifier/graph.rs): code as a graph of the dataflow engine,
      built exactly for code that runs can follow.  [JvmEnvironment]
      (class_space/loader.rs, verifier/environment.rs): defining classes, and
      assignability and joins of reference types over loaded classes, exact within
      their budgets and compared with the rules of the JVM specification.  [JvmMethod]
      (verifier/stack_map.rs, method_proof.rs, class_proof.rs): declared stack
      maps, and what a sealed method, a sealed class and the cache of class
      proofs show.  [JvmSamples]: runs.

    ** Fuel

    Loops of the source that are bounded by data are structural recursions.  The
    others carry fuel: the solver's worklist (bounded by the work budget, which
    every visit charges), the cone closure (one turn per node), the invalidation
    cascade and the snapshot export (one turn per key and edge), evaluation (one
    level per registered key, since a key on the stack is a cycle error), and
    the protected drive (one turn per unit of work), marking (one turn per object
    and edge), ephemeron rounds (one per object), lineage traversals (one turn per
    unit of work), a C3 merge (one turn per pending element), a pattern search
    (every kept entry is charged a transition and pushes at most the fan-out of
    its state), nested searches (two levels, since programs of assertions have
    none themselves), the check for assertion cycles (one level per definition),
    the dialect parsers (one turn per character), extension queues (one item
    of work per turn), alias chains and scope chains (an alias is newer than its
    target, a scope than its parent), walks of the class hierarchy (the budget
    of nodes, which every level charges) and of array components (a descriptor
    gets shorter), and the cursors of a code (one per instruction).  In each case
    a theorem shows that the fuel
    used by the definition is enough.  The engine's [admits] is no fuel of the
    source: it bounds how often a performer uses its admission, which every finite
    run does for some bound, and the theorems hold for every bound.

    ** Not modelled

    Display and Debug implementations, accessors that only return a field, and
    the kernel crate, which is outside the repository: its source origins,
    datums and content identities are type classes whose laws (constructors are
    injective, a content identity names one meaning, which is a datum up to the
    order of its fields) the theorems assume and the samples instantiate.  So are
    the entries and snapshots of the journal crate; what the journal, the clock,
    the performer and the observer answer to the operation engine is arbitrary.
    The class-file codec is outside the repository as well: decoded instructions
    are an argument of the JVM preparation, and what decoding a class file gives
    is one of its definition.  Of the JVM verifier the transfers of fields, arrays
    and invocations are not modelled.  Allocation that fails in the host (a
    [Vec::with_capacity] with a capacity beyond the address space, as in driver.rs)
    is not modelled.  Next in the plan are semantic projections; process execution
    and the surfaces over kernel values are not planned. *)

From stdpp Require Export base tactics numbers option list.

#[global] Set Default Proof Using "Type".

(** ** Results of modelled code

    Rust code returns [Ok] or [Err]; an [expect], an index out of range or an
    [unwrap] on an absent value aborts it ([Panic]); a loop that is modelled
    with fuel reports [NoFuel] when the fuel given is not enough.  The last two
    are outcomes of the model so that their absence is something to prove. *)

Inductive Res (E A : Type) : Type :=
| Ok (a : A)
| Err (e : E)
| Panic
| NoFuel.

Arguments Ok {E A} a.
Arguments Err {E A} e.
Arguments Panic {E A}.
Arguments NoFuel {E A}.

Definition rbind {E A B : Type} (f : A -> Res E B) (r : Res E A) : Res E B :=
  match r with
  | Ok a => f a
  | Err e => Err e
  | Panic => Panic
  | NoFuel => NoFuel
  end.

Definition rmap {E A B : Type} (f : A -> B) (r : Res E A) : Res E B :=
  rbind (fun a => Ok (f a)) r.

Definition map_err {E F A : Type} (f : E -> F) (r : Res E A) : Res F A :=
  match r with
  | Ok a => Ok a
  | Err e => Err (f e)
  | Panic => Panic
  | NoFuel => NoFuel
  end.

(** [ok_or]: an absent value becomes an error. *)
Definition ok_or {E A : Type} (e : E) (o : option A) : Res E A :=
  match o with Some a => Ok a | None => Err e end.

(** [expect]: an absent value aborts. *)
Definition expect {E A : Type} (o : option A) : Res E A :=
  match o with Some a => Ok a | None => Panic end.

Declare Scope res_scope.
Delimit Scope res_scope with res.

Notation "'let?' x := r 'in' k" := (rbind (fun x => k) r)
  (at level 200, x pattern, r at level 100, k at level 200,
   format "'[v' '[' 'let?'  x  :=  r  'in' ']' '/' k ']'") : res_scope.

#[global] Open Scope res_scope.

Section ResLemmas.
Context {E A B : Type}.

Lemma rbind_Ok (f : A -> Res E B) (r : Res E A) (b : B) :
  rbind f r = Ok b <-> exists a, r = Ok a /\ f a = Ok b.
Proof. destruct r; simpl; naive_solver. Qed.

Lemma rbind_Err (f : A -> Res E B) (r : Res E A) (e : E) :
  rbind f r = Err e <-> r = Err e \/ exists a, r = Ok a /\ f a = Err e.
Proof. destruct r; simpl; naive_solver. Qed.

Lemma rbind_Panic (f : A -> Res E B) (r : Res E A) :
  rbind f r = Panic <-> r = Panic \/ exists a, r = Ok a /\ f a = Panic.
Proof. destruct r; simpl; naive_solver. Qed.

Lemma rbind_NoFuel (f : A -> Res E B) (r : Res E A) :
  rbind f r = NoFuel <-> r = NoFuel \/ exists a, r = Ok a /\ f a = NoFuel.
Proof. destruct r; simpl; naive_solver. Qed.

Lemma expect_Ok (o : option A) (a : A) : expect (E:=E) o = Ok a <-> o = Some a.
Proof. destruct o; simpl; naive_solver. Qed.

Lemma ok_or_Ok (e : E) (o : option A) (a : A) : ok_or e o = Ok a <-> o = Some a.
Proof. destruct o; simpl; naive_solver. Qed.

Lemma map_err_Ok {F} (f : E -> F) (r : Res E A) (a : A) : map_err f r = Ok a <-> r = Ok a.
Proof. destruct r; simpl; naive_solver. Qed.
End ResLemmas.

(** [res_inv H] opens every bind in a hypothesis that the whole computation
    returned [Ok]. *)
Ltac res_inv :=
  repeat match goal with
  | H : rbind _ _ = Ok _ |- _ => apply rbind_Ok in H as (? & ? & H)
  | H : expect _ = Ok _ |- _ => apply expect_Ok in H
  | H : ok_or _ _ = Ok _ |- _ => apply ok_or_Ok in H
  | H : Ok _ = Ok _ |- _ => injection H as H
  | H : Err _ = Ok _ |- _ => discriminate H
  | H : Panic = Ok _ |- _ => discriminate H
  | H : NoFuel = Ok _ |- _ => discriminate H
  end.

(** ** Machine-width integers

    [usize] and [u64] are 64-bit; counters are kept in [N] and the wrap is
    written out where the source names it. *)

Definition usize_max : N := 18446744073709551615.
Definition u64_max : N := 18446744073709551615.

Definition saturating_add (a b : N) : N := N.min (a + b) usize_max.
Definition saturating_sub (a b : N) : N := a - b.
Definition saturating_mul (a b : N) : N := N.min (a * b) usize_max.
Definition checked_add (a b : N) : option N :=
  if (usize_max <? a + b)%N then None else Some (a + b)%N.

Definition len {A : Type} (l : list A) : N := N.of_nat (length l).

Lemma len_snoc {A : Type} (l : list A) x : len (l ++ [x]) = (len l + 1)%N.
Proof. unfold len. rewrite length_app. simpl. lia. Qed.

Lemma checked_add_Some (a b c : N) :
  checked_add a b = Some c <-> c = (a + b)%N /\ (a + b <= usize_max)%N.
Proof. unfold checked_add. destruct (N.ltb_spec usize_max (a + b)); naive_solver lia. Qed.

Lemma saturating_add_le (a b m : N) :
  (m < usize_max)%N -> (saturating_add a b <= m)%N -> saturating_add a b = (a + b)%N.
Proof. unfold saturating_add. lia. Qed.

(** ** Text

    A [char] is its scalar value, a [str] the list of its characters; [len] of a
    [str] counts the bytes of its encoding. *)

(** [char::len_utf8]. *)
Definition utf8_len (ch : N) : N :=
  if (ch <? 128)%N then 1 else if (ch <? 2048)%N then 2 else if (ch <? 65536)%N then 3 else 4.

Definition byte_length (subject : list N) : N := foldr (fun ch n => utf8_len ch + n)%N 0%N subject.

(** ** Generic lemmas *)

(** Rewriting the second conjunct under the first. *)
Lemma and_iff_compat_l' (A B C : Prop) : (A -> (B <-> C)) -> (A /\ B <-> A /\ C).
Proof. tauto. Qed.

Lemma list_filter_ext_in {A} (P Q : A -> Prop) `{forall x, Decision (P x)} `{forall x, Decision (Q x)} (l : list A) :
  (forall x, x ∈ l -> (P x <-> Q x)) -> filter P l = filter Q l.
Proof.
  induction l as [|x l IH]; intros Hpq; [done|]. rewrite !filter_cons, (decide_ext (P x) (Q x)) by (apply Hpq; by left).
  rewrite IH by (intros y Hy; apply Hpq; by right). done.
Qed.

Lemma list_filter_all {A} (P : A -> Prop) `{forall x, Decision (P x)} (l : list A) :
  (forall x, x ∈ l -> P x) -> filter P l = l.
Proof.
  induction l as [|x l IH]; intros Hp; [done|]. rewrite filter_cons, decide_True by (apply Hp; by left).
  by rewrite IH by (intros y Hy; apply Hp; by right).
Qed.

(** ** Computations that neither abort nor run out of fuel *)

Definition safe {E A : Type} (r : Res E A) : Prop :=
  match r with Ok _ | Err _ => True | Panic | NoFuel => False end.

Section Safe.
Context {E A B : Type}.

Lemma safe_rbind (f : A -> Res E B) (r : Res E A) :
  safe r -> (forall a, r = Ok a -> safe (f a)) -> safe (rbind f r).
Proof. destruct r; simpl; auto. Qed.

Lemma safe_expect (o : option A) : is_Some o -> safe (expect (E:=E) o).
Proof. intros [a ->]. done. Qed.

Lemma safe_not_panic (r : Res E A) : safe r -> r <> Panic /\ r <> NoFuel.
Proof. destruct r; simpl; naive_solver. Qed.
End Safe.

Create HintDb safe.
#[export] Hint Resolve safe_expect : safe.

(** [safe_auto] descends through binds and conditionals. *)
Ltac safe_auto :=
  repeat first
  [ exact I
  | apply safe_rbind; [eauto with safe|intros ? ?; simpl]
  | match goal with |- safe (if ?c then _ else _) => destruct c eqn:? end
  | match goal with |- safe (match ?p with pair _ _ => _ end) => destruct p end
  | solve [eauto with safe] ].
