(* ===== verification/BTree.v ===== *)
(** * Ordered maps and sets

    [BTreeMap] and [BTreeSet] as stdpp's finite maps and sets over a key type
    with a decidable total order; what the source relies on beyond lookup and
    update is that iteration is in key order and that [pop_first] removes the
    least element. *)

From stdpp Require Export sorting gmap.
From S2P Require Import Prelude.

Class OrdKey (K : Type) := {
  ord_eq_dec :: EqDecision K;
  ord_countable :: Countable K;
  ord_le : relation K;
  ord_le_dec :: RelDecision ord_le;
  ord_le_po :: PartialOrder ord_le;
  ord_le_total :: Total ord_le;
}.

(** The types, with the key order's own equality and enumeration. *)
Abbreviation BTreeMap K V := (@gmap K (@ord_eq_dec K _) (@ord_countable K _) V).
Abbreviation BTreeSet K := (@gset K (@ord_eq_dec K _) (@ord_countable K _)).

Section BTree.
Context `{OrdKey K}.

(** The elements of a [BTreeSet] in iteration order. *)
Definition set_keys (s : gset K) : list K := merge_sort ord_le (elements s).

(** [BTreeMap::keys], [BTreeMap::iter] and [BTreeMap::values]. *)
Definition map_keys {V : Type} (m : gmap K V) : list K := set_keys (dom m).

Definition map_entries {V : Type} (m : gmap K V) : list (K * V) :=
  omap (fun k => pair k <$> m !! k) (map_keys m).

Definition map_values {V : Type} (m : gmap K V) : list V := (map_entries m).*2.

(** [BTreeSet::pop_first]. *)
Definition pop_first (s : gset K) : option (K * gset K) :=
  match set_keys s with
  | [] => None
  | k :: _ => Some (k, s ∖ {[k]})
  end.

Lemma elem_of_set_keys (s : gset K) k : k ∈ set_keys s <-> k ∈ s.
Proof. unfold set_keys. by rewrite merge_sort_Permutation, elem_of_elements. Qed.

Lemma set_keys_sorted (s : gset K) : StronglySorted ord_le (set_keys s).
Proof. unfold set_keys. apply StronglySorted_merge_sort; apply _. Qed.

Lemma set_keys_NoDup (s : gset K) : NoDup (set_keys s).
Proof. unfold set_keys. rewrite merge_sort_Permutation. apply NoDup_elements. Qed.

Lemma length_set_keys (s : gset K) : length (set_keys s) = size s.
Proof. unfold set_keys. by rewrite merge_sort_Permutation. Qed.

Lemma elem_of_map_keys {V} (m : gmap K V) k : k ∈ map_keys m <-> is_Some (m !! k).
Proof. unfold map_keys. by rewrite elem_of_set_keys, elem_of_dom. Qed.

Lemma elem_of_map_entries {V} (m : gmap K V) k v :
  (k, v) ∈ map_entries m <-> m !! k = Some v.
Proof.
  unfold map_entries. rewrite list_elem_of_omap. split.
  - intros (k' & Hk & Hv). destruct (m !! k') eqn:Hm; simplify_eq/=. done.
  - intros Hm. exists k. rewrite elem_of_map_keys, Hm. simpl. eauto.
Qed.

Lemma map_entries_keys {V} (m : gmap K V) : (map_entries m).*1 = map_keys m.
Proof.
  unfold map_entries. assert (Forall (fun k => is_Some (m !! k)) (map_keys m)) as Hk.
  { apply Forall_forall. intros k. apply elem_of_map_keys. }
  induction Hk as [|k ks [v Hv] _ IH]; [done|]. simpl. rewrite Hv. simpl. by f_equal.
Qed.

Lemma pop_first_Some (s s' : gset K) k :
  pop_first s = Some (k, s') <->
  k ∈ s /\ s' = s ∖ {[k]} /\ forall k', k' ∈ s -> ord_le k k'.
Proof.
  unfold pop_first.
  pose proof (set_keys_sorted s) as Hs. pose proof (elem_of_set_keys s) as He.
  destruct (set_keys s) as [|k0 ks].
  - split; [done|]. intros (Hk & _). apply He in Hk. by apply elem_of_nil in Hk.
  - apply StronglySorted_inv in Hs as [_ Hs]. rewrite Forall_forall in Hs.
    assert (forall k', k' ∈ s -> ord_le k0 k') as Hmin.
    { intros k' [->|Hk']%He%elem_of_cons; [reflexivity|]. by apply Hs. }
    split.
    + intros [= <- <-]. split; [|done]. apply He. left.
    + intros (Hk & -> & Hm). assert (k0 = k) as ->; [|done].
      apply (anti_symm ord_le); [by apply Hmin|]. apply Hm, He. left.
Qed.

Lemma pop_first_None (s : gset K) : pop_first s = None <-> s = ∅.
Proof.
  unfold pop_first. pose proof (elem_of_set_keys s) as He.
  destruct (set_keys s) as [|k0 ks]; split; intros Hs; simplify_eq; [|done|].
  - apply set_eq. intros k. rewrite <- He. set_solver.
  - exfalso. assert (k0 ∈ (∅ : gset K)); [apply He; left | set_solver].
Qed.

Lemma pop_first_size (s s' : gset K) k :
  pop_first s = Some (k, s') -> size s = S (size s').
Proof.
  intros (Hk & -> & _)%pop_first_Some.
  rewrite size_difference by set_solver. rewrite size_singleton.
  enough (size s <> 0) by lia. rewrite size_empty_iff. set_solver.
Qed.

Lemma size_insert_le (s : gset K) k : size ({[k]} ∪ s) <= Datatypes.S (size s).
Proof.
  rewrite size_union_alt, size_singleton.
  pose proof (subseteq_size (s ∖ {[k]}) s ltac:(set_solver)). lia.
Qed.

(** Moving the head of an association list into the accumulator map. *)
Lemma list_to_map_shift {V} (l : list (K * V)) k v (acc : gmap K V) :
  k ∉ l.*1 -> list_to_map ((k, v) :: l) ∪ acc = list_to_map l ∪ <[k:=v]> acc.
Proof.
  intros Hk. rewrite list_to_map_cons, <- insert_union_l.
  apply insert_union_r. by apply not_elem_of_list_to_map_1.
Qed.

(** [BTreeMap::insert] never finding an old value, over a whole list: the keys
    are distinct and none was there before. *)
Lemma fresh_cons_iff {V} (l : list (K * V)) k v (acc : gmap K V) :
  acc !! k = None ->
  (NoDup l.*1 /\ (forall kv, kv ∈ l -> <[k:=v]> acc !! kv.1 = None)) <->
  (NoDup ((k, v) :: l).*1 /\ (forall kv, kv ∈ (k, v) :: l -> acc !! kv.1 = None)).
Proof.
  intros Hk. simpl. rewrite NoDup_cons. split.
  - intros (Hnd & Hacc). split_and!; [|done|].
    + intros (kv & Hid & Hin)%list_elem_of_fmap. specialize (Hacc kv Hin).
      by rewrite <- Hid, lookup_insert_eq in Hacc.
    + intros kv [->|Hin]%elem_of_cons; [done|].
      by apply Hacc, lookup_insert_None in Hin as [??].
  - intros ((Hni & Hnd) & Hacc). split; [done|]. intros kv Hin.
    rewrite lookup_insert_ne; [by apply Hacc; right|].
    intros ->. apply Hni, list_elem_of_fmap. eauto.
Qed.

End BTree.

#[export] Instance nat_ord : OrdKey nat := {| ord_le := le |}.

#[export] Instance N_ord : OrdKey N := {| ord_le := N.le |}.

(** Pairs are compared lexicographically, as derived [Ord] does. *)
Section ProdOrd.
Context `{OrdKey A} `{OrdKey B}.

Definition lex_le (x y : A * B) : Prop :=
  (x.1 <> y.1 /\ ord_le x.1 y.1) \/ (x.1 = y.1 /\ ord_le x.2 y.2).

#[global] Instance lex_le_dec : RelDecision lex_le.
Proof. intros x y. unfold lex_le. apply _. Defined.

#[global] Instance lex_le_po : PartialOrder lex_le.
Proof.
  split; [split|].
  - intros x. right. split; [done|reflexivity].
  - intros [a1 b1] [a2 b2] [a3 b3] [[Hn Ha]|[He Hb]] [[Hn' Ha']|[He' Hb']]; simpl in *; subst;
      unfold lex_le; simpl.
    + left. split; [|by etrans]. intros ->. apply Hn. by apply (anti_symm ord_le).
    + left. done.
    + left. done.
    + right. split; [done|]. by etrans.
  - intros [a1 b1] [a2 b2] [[Hn Ha]|[He Hb]] [[Hn' Ha']|[He' Hb']]; simpl in *; subst; try done.
    + destruct Hn. by apply (anti_symm ord_le).
    + f_equal. by apply (anti_symm ord_le).
Qed.

#[global] Instance lex_le_total : Total lex_le.
Proof.
  intros [a1 b1] [a2 b2]. unfold lex_le. simpl. destruct (decide (a1 = a2)) as [->|Hn].
  - destruct (total ord_le b1 b2); [left|right]; right; done.
  - destruct (total ord_le a1 a2); [left|right]; left; split; congruence.
Qed.

#[export] Instance prod_ord : OrdKey (A * B) := {| ord_le := lex_le |}.
End ProdOrd.
