(* ===== verification/KernelDatum.v ===== *)
(** * Kernel datums

    The kernel crate is outside the repository.  What the libraries use of its
    datums, symbols and content identities is an interface: the constructors and
    the ways to look at a datum, its canonical bytes and its content identity.
    The laws are what the repository's documentation says of them: canonical
    bytes carry the meaning of a datum, which does not depend on the order of
    named fields, the parts of a canonical datum are canonical, and a content
    identity names one meaning. *)

From stdpp Require Import strings pretty.
From S2P Require Import Prelude.

(** What matching on a datum sees. *)
Inductive DatumView (Datum Symbol : Type) :=
| VNil
| VString (s : string)
| VSymbol (s : Symbol)
| VNumber (domain : Symbol) (canonical : string)
| VBytes (bytes : list N)
| VNode (tag : Symbol) (fields : list (Symbol * Datum))
| VOther.
Arguments VNil {Datum Symbol}.
Arguments VString {Datum Symbol}.
Arguments VSymbol {Datum Symbol}.
Arguments VNumber {Datum Symbol}.
Arguments VBytes {Datum Symbol}.
Arguments VNode {Datum Symbol}.
Arguments VOther {Datum Symbol}.

Class KernelDatum (Datum Symbol ContentId : Type) := {
  symbol_new : string -> Symbol;
  symbol_qualified : string -> string -> Symbol;
  as_qualified_str : Symbol -> string;
  symbol_eq_dec :: EqDecision Symbol;
  d_nil : Datum;
  d_bool : bool -> Datum;
  d_string : string -> Datum;
  d_symbol : Symbol -> Datum;
  d_number : Symbol -> string -> Datum;
  d_bytes : list N -> Datum;
  d_list : list Datum -> Datum;
  d_node : Symbol -> list (Symbol * Datum) -> Datum;
  d_view : Datum -> DatumView Datum Symbol;
  canonical_bytes : Datum -> Res unit (list N);
  datum_content_id : Datum -> Res unit ContentId;
  content_id_eq_dec :: EqDecision ContentId;
  id_algorithm : ContentId -> Symbol;
  id_bytes : ContentId -> list N;
  id_from_bytes : Symbol -> list N -> ContentId;
}.

(** [same_datum] of crates/sim-lib-operation-gate/src/operation_wire.rs: an
    invalid value is never the same as another, or as itself. *)
Definition same_datum {Datum Symbol ContentId} `{KernelDatum Datum Symbol ContentId} (left right : Datum) : bool :=
  match canonical_bytes left, canonical_bytes right with Ok l, Ok r => bool_decide (l = r) | _, _ => false end.

Abbreviation same d d' := (same_datum d d' = true).

Class KernelDatumLaws Datum Symbol ContentId `{KernelDatum Datum Symbol ContentId} := {
  symbol_new_inj :: Inj (=) (=) symbol_new;
  symbol_qualified_inj :: Inj2 (=) (=) (=) symbol_qualified;
  qualified_str_new : forall name, as_qualified_str (symbol_new name) = name;
  same_bool : forall a b, same (d_bool a) (d_bool b) -> a = b;
  same_string : forall a b, same (d_string a) (d_string b) -> a = b;
  same_symbol : forall a b, same (d_symbol a) (d_symbol b) -> a = b;
  same_number : forall a b n m, same (d_number a n) (d_number b m) -> a = b /\ n = m;
  same_bytes : forall a b, same (d_bytes a) (d_bytes b) -> a = b;
  same_list : forall l l', same (d_list l) (d_list l') -> Forall2 (fun d d' => same d d') l l';
  same_tag : forall t t' f f', same (d_node t f) (d_node t' f') -> t = t';
  same_node : forall t t' f f', same (d_node t f) (d_node t' f') -> f.*1 = f'.*1 -> NoDup f.*1 ->
    t = t' /\ Forall2 (fun d d' => same d d') f.*2 f'.*2;
  node_parts : forall t f l, canonical_bytes (d_node t f) = Ok l -> Forall (fun d => exists l', canonical_bytes d = Ok l') f.*2;
  nil_number : forall s n, same_datum d_nil (d_number s n) = false;
  view_nil : d_view d_nil = VNil;
  view_string : forall s, d_view (d_string s) = VString s;
  view_symbol : forall s, d_view (d_symbol s) = VSymbol s;
  view_number : forall s n, d_view (d_number s n) = VNumber s n;
  view_bytes : forall l, d_view (d_bytes l) = VBytes l;
  view_node : forall t f, d_view (d_node t f) = VNode t f;
  content_id_canonical : forall d, (exists c, datum_content_id d = Ok c) <-> exists l, canonical_bytes d = Ok l;
  content_id_same : forall d d' c, datum_content_id d = Ok c -> datum_content_id d' = Ok c -> same d d';
  same_content_id : forall d d', same d d' -> datum_content_id d = datum_content_id d';
  datum_content_id_safe : forall d, safe (datum_content_id d);
  id_bytes_length : forall c, length (id_bytes c) = 32;
  id_from_parts : forall c, id_from_bytes (id_algorithm c) (id_bytes c) = c;
}.

(** As a relation. *)
Definition datum_equiv {Datum Symbol ContentId} `{KernelDatum Datum Symbol ContentId} : relation Datum := fun d d' => same d d'.

Section Datums.
Context {Datum Symbol ContentId : Type} `{KernelDatum Datum Symbol ContentId} {laws : KernelDatumLaws Datum Symbol ContentId}.
#[local] Set Default Proof Using "Type".
Implicit Types d : Datum.

Lemma same_sym d d' : same d d' -> same d' d.
Proof. unfold same_datum. destruct (canonical_bytes d), (canonical_bytes d'); try done. rewrite !bool_decide_eq_true. congruence. Qed.

Lemma same_trans d1 d2 d3 : same d1 d2 -> same d2 d3 -> same d1 d3.
Proof.
  unfold same_datum. destruct (canonical_bytes d1), (canonical_bytes d2), (canonical_bytes d3); try done.
  rewrite !bool_decide_eq_true. congruence.
Qed.

(** A projection that tells its arguments apart. *)
Lemma same_inj {A} (f : A -> Datum) `{!Inj (=) datum_equiv f} x y : same (f x) (f y) -> x = y.
Proof. exact (inj f x y). Qed.

(** Lists of the same data come from the same list. *)
Lemma same_fmap {A} (f : A -> Datum) `{!Inj (=) datum_equiv f} l l' : Forall2 (fun d d' => same d d') (f <$> l) (f <$> l') -> l = l'.
Proof. rewrite Forall2_fmap. intros Hf. apply list_eq_Forall2. eapply Forall2_impl; [exact Hf|]. intros x y. apply same_inj, _. Qed.

(** Valid data are the same as themselves. *)
Lemma same_refl d c : datum_content_id d = Ok c -> same d d.
Proof using laws.
  intros Hc. destruct (proj1 (content_id_canonical d)) as [l Hl]; [by eexists|]. unfold same_datum. rewrite Hl. by apply bool_decide_eq_true.
Qed.

Lemma symbols_NoDup names : bool_decide (NoDup names) = true -> NoDup (symbol_new <$> names).
Proof using laws. rewrite bool_decide_eq_true. apply NoDup_fmap_2, _. Qed.
End Datums.

(** The names of a literal list of unqualified symbols. *)
Ltac symbol_names l :=
  lazymatch l with
  | symbol_new ?s :: ?r => let r' := symbol_names r in constr:(s :: r')
  | @nil _ => constr:(@nil string)
  end.

(** Opens that two literal nodes are the same. *)
Ltac same_node H :=
  let Hn := fresh "Hn" in
  apply same_node in H; [|reflexivity|
    cbn [fmap list_fmap fst]; match goal with |- NoDup ?l => let names := symbol_names l in apply (symbols_NoDup names); vm_compute; reflexivity end];
  destruct H as [_ H]; cbn [fmap list_fmap snd] in H; repeat (apply Forall2_cons in H as [Hn H]; revert Hn); clear H; intros.

(** The same unsigned number, in its canonical decimal form. *)
Section Numbers.
Context {Datum Symbol ContentId : Type} `{KernelDatum Datum Symbol ContentId} {laws : KernelDatumLaws Datum Symbol ContentId}.
#[local] Set Default Proof Using "Type".

Definition usize_datum (value : nat) : Datum := d_number (symbol_qualified "numbers" "usize") (pretty value).

Definition u64_datum (value : N) : Datum := d_number (symbol_qualified "numbers" "u64") (pretty value).

Lemma usize_datum_inj a b : same (usize_datum a) (usize_datum b) -> a = b.
Proof using laws.
  unfold usize_datum. intros [_ Hp]%same_number. unfold pretty, pretty_nat in Hp. apply (inj pretty) in Hp. lia.
Qed.

Lemma u64_datum_inj a b : same (u64_datum a) (u64_datum b) -> a = b.
Proof using laws. unfold u64_datum. intros [_ Hp]%same_number. by apply (inj pretty) in Hp. Qed.
End Numbers.
