(* ===== verification/Lattice.v ===== *)
(** * Lattice and transfer admission

    crates/sim-incremental-core/src/dataflow/lattice.rs: the [JoinSemilattice]
    and [TransferPolicy] traits, the [LawSuite] that samples their laws, and
    [AdmittedTransfer].  The theorems say what an accepted sample set
    guarantees, that a refusal names a law that really fails at the reported
    sample indices, and that exhaustive samples give the laws outright. *)

From stdpp Require Import finite.
From S2P Require Import Prelude BTree.

(** ** Traits *)

(** Computes the process-local fingerprint ([FingerprintValue], a [u64]). *)
Class FingerprintValue (T : Type) := incremental_fingerprint : T -> N.

Class StateSize (S : Type) := state_size : S -> N.

Class JoinSemilattice (S : Type) := {
  lattice_eq_dec :: EqDecision S;
  lattice_size :: StateSize S;
  bottom : S -> S;
  join : S -> S -> S;
  less_equal : S -> S -> bool;
}.

Record TransferPolicy (S : Type) := {
  policy_fingerprint : N;
  policy_size : N;
  policy_transfer : S -> S;
}.
Arguments policy_fingerprint {S}.
Arguments policy_size {S}.
Arguments policy_transfer {S}.

(** ** Law checking *)

Inductive DataflowLaw :=
| JoinIdempotent
| JoinCommutative
| JoinAssociative
| Bottom
| PartialOrderConsistent
| TransferDeterministic
| TransferMonotone
| TransferProgress.

#[export] Instance DataflowLaw_eq_dec : EqDecision DataflowLaw.
Proof. solve_decision. Defined.

Record LawViolation := {
  law : DataflowLaw;
  witnesses : list nat;
}.

Section LawSuite.
Context {S : Type} `{JoinSemilattice S}.
Implicit Types a b c : S.

(** A [for (index, x) in samples.iter().enumerate()] loop whose body may
    return early. *)
Fixpoint for_each_from (i : nat) (l : list S) (body : nat -> S -> Res LawViolation unit)
    : Res LawViolation unit :=
  match l with
  | [] => Ok tt
  | a :: l' => let? _ := body i a in for_each_from (Datatypes.S i) l' body
  end.

Definition for_each := for_each_from 0.

Definition refuse_if (cond : bool) (l : DataflowLaw) (ws : list nat) : Res LawViolation unit :=
  if cond then Err {| law := l; witnesses := ws |} else Ok tt.

Definition neqb (a b : S) : bool := negb (bool_decide (a = b)).

Definition check_samples (bot : S) (samples : list S) : Res LawViolation unit :=
  for_each samples (fun ai a =>
    let? _ := refuse_if (neqb (join a a) a) JoinIdempotent [ai] in
    let? _ := refuse_if (negb (less_equal bot a) || neqb (join bot a) a || neqb (join a bot) a)
                        Bottom [ai] in
    let? _ := refuse_if (negb (less_equal a a)) PartialOrderConsistent [ai] in
    for_each samples (fun bi b =>
      let? _ := refuse_if (neqb (join a b) (join b a)) JoinCommutative [ai; bi] in
      let join_order := bool_decide (join a b = b) in
      let? _ := refuse_if (negb (eqb (less_equal a b) join_order)
                           || (less_equal a b && less_equal b a && neqb a b))
                          PartialOrderConsistent [ai; bi] in
      for_each samples (fun ci c =>
        refuse_if (neqb (join (join a b) c) (join a (join b c)))
                  JoinAssociative [ai; bi; ci]))).

Definition check_lattice (samples : list S) : Res LawViolation unit :=
  match samples with
  | [] => Err {| law := Bottom; witnesses := [] |}
  | first :: _ => check_samples (bottom first) samples
  end.

Definition check_transfer (p : TransferPolicy S) (samples : list S) : Res LawViolation unit :=
  for_each samples (fun ai a =>
    let output := policy_transfer p a in
    let? _ := refuse_if (neqb output (policy_transfer p a)) TransferDeterministic [ai] in
    let? _ := refuse_if (negb (less_equal a output)) TransferProgress [ai] in
    for_each samples (fun bi b =>
      refuse_if (less_equal a b && negb (less_equal output (policy_transfer p b)))
                TransferMonotone [ai; bi])).

Record AdmittedTransfer := {
  admitted_policy : TransferPolicy S;
  admitted_fingerprint : N;
  admitted_policy_size : N;
}.

Definition admit_transfer (p : TransferPolicy S) (samples : list S) : Res LawViolation AdmittedTransfer :=
  let? _ := check_lattice samples in
  let? _ := check_transfer p samples in
  Ok {| admitted_policy := p;
        admitted_fingerprint := policy_fingerprint p;
        admitted_policy_size := policy_size p |}.

Definition transfer (t : AdmittedTransfer) (s : S) : S := policy_transfer (admitted_policy t) s.

(** ** What the laws are *)

(** The semilattice laws on the states satisfying [P], with the bottom taken
    from [first]. *)
Record LawsOn (P : S -> Prop) (bot : S) : Prop := {
  laws_idem : forall a, P a -> join a a = a;
  laws_bot_le : forall a, P a -> less_equal bot a = true;
  laws_bot_l : forall a, P a -> join bot a = a;
  laws_bot_r : forall a, P a -> join a bot = a;
  laws_refl : forall a, P a -> less_equal a a = true;
  laws_comm : forall a b, P a -> P b -> join a b = join b a;
  laws_order : forall a b, P a -> P b -> less_equal a b = true <-> join a b = b;
  laws_antisym : forall a b, P a -> P b ->
    less_equal a b = true -> less_equal b a = true -> a = b;
  laws_assoc : forall a b c, P a -> P b -> P c -> join (join a b) c = join a (join b c);
}.

Record TransferLawsOn (P : S -> Prop) (f : S -> S) : Prop := {
  transfer_progress : forall a, P a -> less_equal a (f a) = true;
  transfer_monotone : forall a b, P a -> P b ->
    less_equal a b = true -> less_equal (f a) (f b) = true;
}.

(** [law_fails l ss] says that law [l] is false at the states [ss]. *)
Definition law_fails (bot : S) (f : S -> S) (l : DataflowLaw) (ss : list S) : Prop :=
  match l, ss with
  | JoinIdempotent, [a] => join a a <> a
  | Bottom, [a] => less_equal bot a = false \/ join bot a <> a \/ join a bot <> a
  | PartialOrderConsistent, [a] => less_equal a a = false
  | PartialOrderConsistent, [a; b] =>
      ~ (less_equal a b = true <-> join a b = b)
      \/ (less_equal a b = true /\ less_equal b a = true /\ a <> b)
  | JoinCommutative, [a; b] => join a b <> join b a
  | JoinAssociative, [a; b; c] => join (join a b) c <> join a (join b c)
  | TransferDeterministic, [a] => f a <> f a
  | TransferProgress, [a] => less_equal a (f a) = false
  | TransferMonotone, [a; b] => less_equal a b = true /\ less_equal (f a) (f b) = false
  | _, _ => False
  end.

(** ** Lemmas on the loops *)

Lemma refuse_if_Ok cond l ws : refuse_if cond l ws = Ok tt <-> cond = false.
Proof. destruct cond; simpl; naive_solver. Qed.

Lemma for_each_from_Ok i l body :
  for_each_from i l body = Ok tt <->
  forall j a, l !! j = Some a -> body (i + j) a = Ok tt.
Proof.
  revert i. induction l as [|a l IH]; intros i; simpl.
  - split; [intros _ j a Hj; by rewrite lookup_nil in Hj | done].
  - rewrite rbind_Ok. split.
    + intros ([] & Ha & Hl) [|j] b Hj; simplify_eq/=.
      * by rewrite Nat.add_0_r.
      * rewrite <- Nat.add_succ_comm. by apply IH.
    + intros Hall. exists tt. split.
      * rewrite <- (Nat.add_0_r i). by apply Hall.
      * apply IH. intros j b Hj. rewrite Nat.add_succ_comm. by apply Hall.
Qed.

Lemma for_each_Ok l body :
  for_each l body = Ok tt <-> forall i a, l !! i = Some a -> body i a = Ok tt.
Proof. apply for_each_from_Ok. Qed.

Lemma for_each_from_Err i l body e :
  for_each_from i l body = Err e ->
  exists j a, l !! j = Some a /\ body (i + j) a = Err e.
Proof.
  revert i. induction l as [|a l IH]; intros i; simpl; [done|].
  intros [Ha|([] & _ & (j & b & Hj & Hb)%IH)]%rbind_Err.
  - exists 0, a. by rewrite Nat.add_0_r.
  - exists (Datatypes.S j), b. by rewrite <- Nat.add_succ_comm.
Qed.

Lemma for_each_Err l body e :
  for_each l body = Err e -> exists i a, l !! i = Some a /\ body i a = Err e.
Proof. apply for_each_from_Err. Qed.

Lemma neqb_false a b : neqb a b = false <-> a = b.
Proof. unfold neqb. rewrite negb_false_iff. apply bool_decide_eq_true. Qed.

Lemma neqb_true a b : neqb a b = true <-> a <> b.
Proof. unfold neqb. rewrite negb_true_iff. apply bool_decide_eq_false. Qed.

Lemma order_check_false a b :
  negb (eqb (less_equal a b) (bool_decide (join a b = b)))
    || (less_equal a b && less_equal b a && neqb a b) = false <->
  (less_equal a b = true <-> join a b = b) /\
  (less_equal a b = true -> less_equal b a = true -> a = b).
Proof.
  unfold neqb.
  destruct (less_equal a b), (less_equal b a), (decide (join a b = b)), (decide (a = b));
    rewrite ?bool_decide_eq_true_2, ?bool_decide_eq_false_2 by done; simpl; naive_solver.
Qed.

(** When a body's acceptance does not depend on the index, the loop accepts
    exactly when every element does. *)
Lemma for_each_Ok_elem l body (P : S -> Prop) :
  (forall i a, body i a = Ok tt <-> P a) ->
  for_each l body = Ok tt <-> forall a, a ∈ l -> P a.
Proof.
  intros Hb. rewrite for_each_Ok. split.
  - intros Hall a [i Hi]%list_elem_of_lookup. by apply (Hb i), Hall.
  - intros Hall i a Hi. apply Hb, Hall. by eapply list_elem_of_lookup_2.
Qed.

Lemma refuse_then_Ok cond l ws (k : Res LawViolation unit) :
  (let? _ := refuse_if cond l ws in k) = Ok tt <-> cond = false /\ k = Ok tt.
Proof. destruct cond; simpl; naive_solver. Qed.

(** The laws at one state, one pair, one triple. *)
Definition state_laws (bot a : S) : Prop :=
  join a a = a /\
  ((less_equal bot a = true /\ join bot a = a) /\ join a bot = a) /\
  less_equal a a = true.

Definition pair_laws (a b : S) : Prop :=
  join a b = join b a /\ (less_equal a b = true <-> join a b = b) /\
  (less_equal a b = true -> less_equal b a = true -> a = b).

(** Acceptance is exactly the laws over the samples. *)
Lemma check_samples_spec bot samples :
  check_samples bot samples = Ok tt <-> LawsOn (fun s => s ∈ samples) bot.
Proof.
  unfold check_samples.
  rewrite (for_each_Ok_elem _ _ (fun a => state_laws bot a /\ forall b, b ∈ samples ->
    pair_laws a b /\ forall c, c ∈ samples -> join (join a b) c = join a (join b c))); cycle 1.
  { intros ai a. rewrite !refuse_then_Ok, neqb_false, !orb_false_iff, !negb_false_iff, !neqb_false.
    rewrite (for_each_Ok_elem _ _ (fun b => pair_laws a b /\ forall c, c ∈ samples ->
      join (join a b) c = join a (join b c))); [unfold state_laws; tauto|].
    intros bi b. rewrite !refuse_then_Ok, neqb_false, order_check_false.
    rewrite (for_each_Ok_elem _ _ (fun c => join (join a b) c = join a (join b c)));
      [unfold pair_laws; tauto|].
    intros ci c. by rewrite refuse_if_Ok, neqb_false. }
  unfold state_laws, pair_laws. split.
  - intros Hall. split; intros a.
    1-5: by intros Ha; destruct (Hall a Ha) as [(?&[[??]?]&?) _].
    all: intros b.
    1-3: by intros Ha Hb; destruct (Hall a Ha) as [_ Hab]; destruct (Hab b Hb) as [(?&?&?) _].
    intros c Ha Hb Hc. destruct (Hall a Ha) as [_ Hab]. by apply (Hab b Hb).
  - intros HL a Ha. split; [split_and!; by apply HL|].
    intros b Hb. split; [split_and!|].
    + by eapply laws_comm.
    + by eapply laws_order.
    + by eapply laws_antisym.
    + intros c Hc. by eapply laws_assoc.
Qed.

Lemma check_transfer_spec p samples :
  check_transfer p samples = Ok tt <->
  TransferLawsOn (fun s => s ∈ samples) (policy_transfer p).
Proof.
  unfold check_transfer.
  rewrite (for_each_Ok_elem _ _ (fun a => less_equal a (policy_transfer p a) = true /\
    forall b, b ∈ samples -> less_equal a b = true ->
      less_equal (policy_transfer p a) (policy_transfer p b) = true)); cycle 1.
  { intros ai a. rewrite !refuse_then_Ok, neqb_false, negb_false_iff.
    rewrite (for_each_Ok_elem _ _ (fun b => less_equal a b = true ->
      less_equal (policy_transfer p a) (policy_transfer p b) = true)); [tauto|].
    intros bi b. rewrite refuse_if_Ok, andb_false_iff, negb_false_iff.
    destruct (less_equal a b); naive_solver. }
  split.
  - intros Hall. split; [intros a Ha; by apply Hall|].
    intros a b Ha Hb. by apply (Hall a Ha).
  - intros [Hp Hm] a Ha. split; [by apply Hp|]. intros b Hb. by apply Hm.
Qed.

Lemma refuse_if_Err cond l ws e :
  refuse_if cond l ws = Err e <-> cond = true /\ e = {| law := l; witnesses := ws |}.
Proof. destruct cond; simpl; naive_solver. Qed.

Lemma refuse_then_Err cond l ws (k : Res LawViolation unit) e :
  (let? _ := refuse_if cond l ws in k) = Err e <->
  (cond = true /\ e = {| law := l; witnesses := ws |}) \/ (cond = false /\ k = Err e).
Proof. destruct cond; simpl; naive_solver. Qed.

(** ** Refusals are precise *)

(** A refusal of the lattice check names a law and the samples, by index, at
    which that law is false; only an empty sample set is refused without one. *)
Lemma check_samples_refusal f bot samples v :
  check_samples bot samples = Err v ->
  exists ss, mapM (fun i => samples !! i) (witnesses v) = Some ss /\
             law_fails bot f (law v) ss.
Proof.
  unfold check_samples.
  intros (i & a & Hi & Ha)%for_each_Err.
  rewrite !refuse_then_Err in Ha.
  destruct Ha as [[Hc ->]|[_ [[Hc ->]|[_ [[Hc ->]|[_ Ha]]]]]]; simpl.
  - exists [a]. rewrite Hi. split; [done|]. by apply neqb_true.
  - exists [a]. rewrite Hi. split; [done|]. simpl.
    rewrite !orb_true_iff, negb_true_iff, !neqb_true in Hc. tauto.
  - exists [a]. rewrite Hi. split; [done|]. simpl. by apply negb_true_iff.
  - apply for_each_Err in Ha as (j & b & Hj & Hb). rewrite !refuse_then_Err in Hb.
    destruct Hb as [[Hc ->]|[_ [[Hc ->]|[_ Hb]]]]; simpl.
    + exists [a; b]. rewrite Hi; simpl; rewrite Hj. split; [done|]. by apply neqb_true.
    + exists [a; b]. rewrite Hi; simpl; rewrite Hj. split; [done|]. simpl.
      apply not_false_iff_true in Hc. rewrite order_check_false in Hc.
      destruct (less_equal a b), (less_equal b a), (decide (join a b = b)), (decide (a = b));
        intuition congruence.
    + apply for_each_Err in Hb as (k & c & Hk & [Hc ->]%refuse_if_Err). simpl.
      exists [a; b; c]. rewrite Hi; simpl; rewrite Hj; simpl; rewrite Hk.
      split; [done|]. by apply neqb_true.
Qed.

Lemma check_transfer_refusal bot p samples v :
  check_transfer p samples = Err v ->
  exists ss, mapM (fun i => samples !! i) (witnesses v) = Some ss /\
             law_fails bot (policy_transfer p) (law v) ss.
Proof.
  unfold check_transfer. intros (i & a & Hi & Ha)%for_each_Err.
  rewrite !refuse_then_Err in Ha.
  destruct Ha as [[Hc ->]|[_ [[Hc ->]|[_ Ha]]]]; simpl.
  - by apply neqb_true in Hc.
  - exists [a]. rewrite Hi. split; [done|]. simpl. by apply negb_true_iff.
  - apply for_each_Err in Ha as (j & b & Hj & [Hc ->]%refuse_if_Err). simpl.
    exists [a; b]. rewrite Hi; simpl; rewrite Hj. split; [done|]. simpl.
    by rewrite andb_true_iff, negb_true_iff in Hc.
Qed.

End LawSuite.

(** ** Lawful lattices *)

Definition Lawful {S : Type} `{JoinSemilattice S} (bot : S) : Prop := LawsOn (fun _ => True) bot.

Definition LawfulTransfer {S : Type} `{JoinSemilattice S} (f : S -> S) : Prop :=
  TransferLawsOn (fun _ => True) f.

Section Lawful.
Context {S : Type} `{JoinSemilattice S} {bot : S} (HL : Lawful bot).
Implicit Types a b c : S.

Lemma le_refl a : less_equal a a = true.
Proof using HL. by apply (laws_refl _ _ HL). Qed.

Lemma le_join a b : less_equal a b = true <-> join a b = b.
Proof using HL. by apply (laws_order _ _ HL). Qed.

Lemma join_comm a b : join a b = join b a.
Proof using HL. by apply (laws_comm _ _ HL). Qed.

Lemma join_assoc a b c : join (join a b) c = join a (join b c).
Proof using HL. by apply (laws_assoc _ _ HL). Qed.

Lemma join_idem a : join a a = a.
Proof using HL. by apply (laws_idem _ _ HL). Qed.

Lemma bot_le a : less_equal bot a = true.
Proof using HL. by apply (laws_bot_le _ _ HL). Qed.

Lemma join_bot_l a : join bot a = a.
Proof using HL. by apply (laws_bot_l _ _ HL). Qed.

Lemma le_antisym a b : less_equal a b = true -> less_equal b a = true -> a = b.
Proof using HL. by apply (laws_antisym _ _ HL). Qed.

Lemma le_trans a b c : less_equal a b = true -> less_equal b c = true -> less_equal a c = true.
Proof using HL. rewrite !le_join. intros Hab Hbc. by rewrite <- Hbc, <- join_assoc, Hab. Qed.

Lemma join_ub_l a b : less_equal a (join a b) = true.
Proof using HL. by rewrite le_join, <- join_assoc, join_idem. Qed.

Lemma join_ub_r a b : less_equal b (join a b) = true.
Proof using HL. rewrite join_comm. apply join_ub_l. Qed.

Lemma join_lub a b c :
  less_equal a c = true -> less_equal b c = true -> less_equal (join a b) c = true.
Proof using HL. rewrite !le_join. intros Ha Hb. by rewrite join_assoc, Hb. Qed.

Lemma le_bot a : less_equal a bot = true -> a = bot.
Proof using HL. intros Ha. by apply le_antisym, bot_le. Qed.

(** Above a state other than bottom there is no bottom. *)
Lemma le_neq_bot a b : less_equal a b = true -> a <> bot -> b <> bot.
Proof using HL. intros Hab Ha ->. by apply Ha, le_bot. Qed.

Lemma join_unchanged a b : join a b = a <-> less_equal b a = true.
Proof using HL. by rewrite le_join, join_comm. Qed.
End Lawful.

#[export] Hint Resolve le_refl join_ub_l join_ub_r bot_le : lattice.

(** ** Admission *)

Section Admission.
Context {S : Type} `{JoinSemilattice S}.

Lemma LawsOn_mono (P Q : S -> Prop) bot :
  (forall s, P s) -> LawsOn P bot -> LawsOn Q bot.
Proof. intros HPQ [????????]; split; eauto. Qed.

Lemma TransferLawsOn_mono (P Q : S -> Prop) f :
  (forall s, P s) -> TransferLawsOn P f -> TransferLawsOn Q f.
Proof. intros HPQ [??]; split; eauto. Qed.

Lemma admit_inv p (samples : list S) t :
  admit_transfer p samples = Ok t ->
  check_lattice samples = Ok tt /\ check_transfer p samples = Ok tt /\
  t = {| admitted_policy := p; admitted_fingerprint := policy_fingerprint p;
         admitted_policy_size := policy_size p |}.
Proof. unfold admit_transfer. intros Ht. res_inv. repeat match goal with u : () |- _ => destruct u end. naive_solver. Qed.

Lemma admit_Ok p first (rest : list S) t :
  admit_transfer p (first :: rest) = Ok t <->
  LawsOn (fun s => s ∈ first :: rest) (bottom first) /\
  TransferLawsOn (fun s => s ∈ first :: rest) (policy_transfer p) /\
  t = {| admitted_policy := p; admitted_fingerprint := policy_fingerprint p;
         admitted_policy_size := policy_size p |}.
Proof.
  rewrite <- (check_samples_spec (bottom first)), <- check_transfer_spec. split.
  - intros (?&?&?)%admit_inv. done.
  - intros (Hl & Hp & ->). unfold admit_transfer, check_lattice. by rewrite Hl; simpl; rewrite Hp.
Qed.

(** A policy is admitted over a non-empty sample set exactly when every
    semilattice law and every transfer law holds on the samples, and the
    admitted record carries the policy's own identity and size. *)
Theorem admit_spec p first (rest : list S) t :
  admit_transfer p (first :: rest) = Ok t <->
  LawsOn (fun s => s ∈ first :: rest) (bottom first) /\
  TransferLawsOn (fun s => s ∈ first :: rest) (policy_transfer p) /\
  t = {| admitted_policy := p; admitted_fingerprint := policy_fingerprint p;
         admitted_policy_size := policy_size p |}.
Proof. apply admit_Ok. Qed.

(** A refused admission names a law that is really false at the sample
    states whose indices it reports. *)
Theorem admit_refusal_precise p first (rest : list S) v :
  admit_transfer p (first :: rest) = Err v ->
  exists ss, mapM (fun i => (first :: rest) !! i) (witnesses v) = Some ss /\
             law_fails (bottom first) (policy_transfer p) (law v) ss.
Proof.
  unfold admit_transfer. intros [Hl|([] & _ & [Ht|([] & _ & [=])]%rbind_Err)]%rbind_Err.
  - by apply check_samples_refusal.
  - by apply check_transfer_refusal.
Qed.

(** When the samples enumerate the whole state space, admission
    establishes the laws the fixpoint engine relies on for every state. *)
Theorem admit_exhaustive p first (rest : list S) t :
  (forall s, s ∈ first :: rest) ->
  admit_transfer p (first :: rest) = Ok t ->
  Lawful (bottom first) /\ LawfulTransfer (transfer t).
Proof.
  intros Hall (HL & HT & ->)%admit_Ok.
  split; [exact (LawsOn_mono _ _ _ Hall HL)|exact (TransferLawsOn_mono _ _ _ Hall HT)].
Qed.
End Admission.

(** ** The bit-set lattice

    The instance the crate's own tests use (a [u8] under bitwise or), here on
    unbounded bit sets, and the policy that adds fixed facts. *)

#[export] Instance bits_size : StateSize N := fun _ => 1%N.

#[export] Instance bits_lattice : JoinSemilattice N := {|
  bottom _ := 0%N;
  join := N.lor;
  less_equal a b := bool_decide (N.land a b = a);
|}.

Definition add_facts (m : N) : TransferPolicy N := {|
  policy_fingerprint := m;
  policy_size := 1;
  policy_transfer := fun s => N.lor s m;
|}.

Lemma bits_le a b : less_equal a b = true <-> N.land a b = a.
Proof. apply bool_decide_eq_true. Qed.

Lemma bits_le_bits a b :
  less_equal a b = true <-> forall i, N.testbit a i = true -> N.testbit b i = true.
Proof.
  rewrite bits_le. split.
  - intros Hab i. rewrite <- Hab at 1. rewrite N.land_spec, andb_true_iff. tauto.
  - intros Hab. apply N.bits_inj. intros i. rewrite N.land_spec.
    specialize (Hab i). destruct (N.testbit a i), (N.testbit b i); naive_solver.
Qed.

Lemma bits_lawful : Lawful (S:=N) 0%N.
Proof.
  split; intros; rewrite ?bits_le_bits in *; cbn [join bits_lattice].
  - apply N.lor_diag.
  - intros i. by rewrite N.bits_0.
  - done.
  - apply N.lor_0_r.
  - auto.
  - apply N.lor_comm.
  - split.
    + intros Hab. apply N.bits_inj. intros i. rewrite N.lor_spec.
      specialize (Hab i). destruct (N.testbit a i), (N.testbit b i); naive_solver.
    + intros <- i Hi. by rewrite N.lor_spec, Hi.
  - apply N.bits_inj. intros i. apply eq_true_iff_eq. split; auto.
  - symmetry. apply N.lor_assoc.
Qed.

Lemma add_facts_lawful m : LawfulTransfer (policy_transfer (add_facts m)).
Proof.
  split; intros *; rewrite !bits_le_bits; cbn [policy_transfer add_facts].
  - intros _ i Hi. by rewrite N.lor_spec, Hi.
  - intros _ _ Hab i. rewrite !N.lor_spec, !orb_true_iff. naive_solver.
Qed.

(** The non-monotone policy of the crate's tests: it raises only the bottom. *)
Definition non_monotone : TransferPolicy N := {|
  policy_fingerprint := 99;
  policy_size := 0;
  policy_transfer := fun s => if bool_decide (s = 0%N) then 3%N else s;
|}.

Lemma admit_refusal_precise_witness :
  admit_transfer non_monotone [0; 1; 2; 3]%N = Err {| law := TransferMonotone; witnesses := [0; 1] |} /\
  exists ss, mapM (fun i => [0; 1; 2; 3]%N !! i) [0; 1] = Some ss /\
             law_fails 0%N (policy_transfer non_monotone) TransferMonotone ss.
Proof.
  split; [vm_compute; reflexivity|].
  apply (admit_refusal_precise non_monotone 0%N [1; 2; 3]%N
           {| law := TransferMonotone; witnesses := [0; 1] |}).
  vm_compute. reflexivity.
Defined.

(** A two-point lattice, whose samples can be exhaustive. *)
#[export] Instance bool_size : StateSize bool := fun _ => 1%N.

#[export] Instance bool_lattice : JoinSemilattice bool := {|
  bottom _ := false;
  join := orb;
  less_equal := implb;
|}.

Lemma admit_exhaustive_witness :
  exists t, admit_transfer {| policy_fingerprint := 1; policy_size := 0; policy_transfer := fun b : bool => b |}
                  [false; true] = Ok t /\
    Lawful (S:=bool) (bottom false) /\ LawfulTransfer (transfer t).
Proof.
  eexists. split; [vm_compute; reflexivity|].
  apply (admit_exhaustive
    {| policy_fingerprint := 1; policy_size := 0; policy_transfer := fun b : bool => b |}
    false [true]).
  - intros [|]; set_solver.
  - vm_compute. reflexivity.
Defined.
