(* ===== verification/DataflowGraph.v ===== *)
(** * Checked dataflow graphs

    crates/sim-incremental-core/src/dataflow/graph.rs: [DataflowGraph::build]
    validates node and edge declarations and freezes them with their
    predecessor and successor indices.  The theorems characterise acceptance
    exactly, give the frozen graph in closed form, and derive from it that the
    declaration order is irrelevant and that the internal [expect]s never fire. *)

From stdpp Require Import fin_maps.
From S2P Require Import Prelude BTree Lattice.

Inductive EdgeClass (C : Type) :=
| Data
| Control
| Custom (c : C).
Arguments Data {C}.
Arguments Control {C}.
Arguments Custom {C} c.

Inductive GraphDirection := Forward | Reverse.

Inductive Boundary := Internal | Input | Output | InputOutput.

Definition is_input (b : Boundary) : bool :=
  match b with Input | InputOutput => true | _ => false end.

Definition is_output (b : Boundary) : bool :=
  match b with Output | InputOutput => true | _ => false end.

Record NodeSpec (Nd L : Type) := {
  spec_id : Nd;
  spec_location : L;
  spec_boundary : Boundary;
}.
Arguments spec_id {Nd L}.
Arguments spec_location {Nd L}.
Arguments spec_boundary {Nd L}.

Record EdgeSpec (Ed Nd C : Type) := {
  espec_id : Ed;
  espec_source : Nd;
  espec_target : Nd;
  espec_class : EdgeClass C;
  espec_direction : GraphDirection;
}.
Arguments espec_id {Ed Nd C}.
Arguments espec_source {Ed Nd C}.
Arguments espec_target {Ed Nd C}.
Arguments espec_class {Ed Nd C}.
Arguments espec_direction {Ed Nd C}.

Record Node (Nd L : Type) := {
  node_id : Nd;
  node_location : L;
  node_boundary : Boundary;
}.
Arguments node_id {Nd L}.
Arguments node_location {Nd L}.
Arguments node_boundary {Nd L}.

Record Edge (Ed Nd C : Type) := {
  edge_id : Ed;
  edge_source : Nd;
  edge_target : Nd;
  edge_class : EdgeClass C;
  edge_direction : GraphDirection;
}.
Arguments edge_id {Ed Nd C}.
Arguments edge_source {Ed Nd C}.
Arguments edge_target {Ed Nd C}.
Arguments edge_class {Ed Nd C}.
Arguments edge_direction {Ed Nd C}.

Definition predecessor_and_successor {Ed Nd C} (e : Edge Ed Nd C) : Nd * Nd :=
  match edge_direction e with
  | Forward => (edge_source e, edge_target e)
  | Reverse => (edge_target e, edge_source e)
  end.

Abbreviation edge_pred e := (fst (predecessor_and_successor e)).
Abbreviation edge_succ e := (snd (predecessor_and_successor e)).

Inductive GraphBuildError (Nd Ed : Type) :=
| DuplicateNode (n : Nd)
| DuplicateEdge (e : Ed)
| MissingNode (edge : Ed) (node : Nd)
| InputHasPredecessor (n : Nd)
| OutputHasSuccessor (n : Nd)
| EmptyGraph.
Arguments DuplicateNode {Nd Ed} n.
Arguments DuplicateEdge {Nd Ed} e.
Arguments MissingNode {Nd Ed} edge node.
Arguments InputHasPredecessor {Nd Ed} n.
Arguments OutputHasSuccessor {Nd Ed} n.
Arguments EmptyGraph {Nd Ed}.

Record DataflowGraph (Nd Ed L C : Type) `{OrdKey Nd} `{OrdKey Ed} := {
  g_nodes : gmap Nd (Node Nd L);
  g_edges : gmap Ed (Edge Ed Nd C);
  g_predecessors : gmap Nd (list Ed);
  g_successors : gmap Nd (list Ed);
  g_fingerprint : N;
}.
Arguments g_nodes {Nd Ed L C _ _}.
Arguments g_edges {Nd Ed L C _ _}.
Arguments g_predecessors {Nd Ed L C _ _}.
Arguments g_successors {Nd Ed L C _ _}.
Arguments g_fingerprint {Nd Ed L C _ _}.

Section Graph.
Context {Nd Ed L C : Type} `{OrdKey Nd} `{OrdKey Ed}.
Context `{FingerprintValue (gmap Nd (Node Nd L) * gmap Ed (Edge Ed Nd C))}.

Abbreviation build_err := (GraphBuildError Nd Ed).
Abbreviation nodes_t := (gmap Nd (Node Nd L)).
Abbreviation edges_t := (gmap Ed (Edge Ed Nd C)).
Abbreviation index_t := (gmap Nd (gset Ed)).

Definition freeze_node (n : NodeSpec Nd L) : Node Nd L :=
  {| node_id := spec_id n; node_location := spec_location n; node_boundary := spec_boundary n |}.

Definition freeze_edge (e : EdgeSpec Ed Nd C) : Edge Ed Nd C :=
  {| edge_id := espec_id e; edge_source := espec_source e; edge_target := espec_target e;
     edge_class := espec_class e; edge_direction := espec_direction e |}.

Fixpoint freeze_nodes (acc : nodes_t) (nodes : list (NodeSpec Nd L)) : Res build_err nodes_t :=
  match nodes with
  | [] => Ok acc
  | n :: rest =>
    match acc !! spec_id n with
    | Some _ => Err (DuplicateNode (spec_id n))
    | None => freeze_nodes (<[spec_id n := freeze_node n]> acc) rest
    end
  end.

Fixpoint freeze_edges (nodes : nodes_t) (acc : edges_t) (edges : list (EdgeSpec Ed Nd C))
    : Res build_err edges_t :=
  match edges with
  | [] => Ok acc
  | e :: rest =>
    match nodes !! espec_source e, nodes !! espec_target e with
    | None, _ => Err (MissingNode (espec_id e) (espec_source e))
    | _, None => Err (MissingNode (espec_id e) (espec_target e))
    | Some _, Some _ =>
      match acc !! espec_id e with
      | Some _ => Err (DuplicateEdge (espec_id e))
      | None => freeze_edges nodes (<[espec_id e := freeze_edge e]> acc) rest
      end
    end
  end.

(** [index.get_mut(node).expect(..).insert(edge)]. *)
Definition index_insert (index : index_t) (n : Nd) (e : Ed) : Res build_err index_t :=
  let? s := expect (index !! n) in Ok (<[n := {[e]} ∪ s]> index).

Fixpoint index_edges (edges : list (Ed * Edge Ed Nd C)) (preds succs : index_t)
    : Res build_err (index_t * index_t) :=
  match edges with
  | [] => Ok (preds, succs)
  | (id, e) :: rest =>
    let '(predecessor, successor) := predecessor_and_successor e in
    let? succs := index_insert succs predecessor id in
    let? preds := index_insert preds successor id in
    index_edges rest preds succs
  end.

(** [if node.boundary.is_..() && !index[id].is_empty() { return Err(..) }]. *)
Definition check_boundary (applies : bool) (index : index_t) (id : Nd) (refusal : build_err)
    : Res build_err unit :=
  if applies then
    let? s := expect (index !! id) in
    if decide (s = (∅ : gset Ed)) then Ok tt else Err refusal
  else Ok tt.

Fixpoint check_boundaries (nodes : list (Nd * Node Nd L)) (preds succs : index_t)
    : Res build_err unit :=
  match nodes with
  | [] => Ok tt
  | (id, n) :: rest =>
    let? _ := check_boundary (is_input (node_boundary n)) preds id (InputHasPredecessor id) in
    let? _ := check_boundary (is_output (node_boundary n)) succs id (OutputHasSuccessor id) in
    check_boundaries rest preds succs
  end.

Definition freeze_index (index : index_t) : gmap Nd (list Ed) := set_keys <$> index.

Definition build (nodes : list (NodeSpec Nd L)) (edges : list (EdgeSpec Ed Nd C))
    : Res build_err (DataflowGraph Nd Ed L C) :=
  let? frozen_nodes := freeze_nodes ∅ nodes in
  if decide (frozen_nodes = ∅) then Err EmptyGraph else
  let? frozen_edges := freeze_edges frozen_nodes ∅ edges in
  let empty_index : index_t := (fun _ => ∅) <$> frozen_nodes in
  let? (preds, succs) := index_edges (map_entries frozen_edges) empty_index empty_index in
  let? _ := check_boundaries (map_entries frozen_nodes) preds succs in
  Ok {| g_nodes := frozen_nodes;
        g_edges := frozen_edges;
        g_predecessors := freeze_index preds;
        g_successors := freeze_index succs;
        g_fingerprint := incremental_fingerprint (frozen_nodes, frozen_edges) |}.

(** Accessors. *)
Definition graph_node (g : DataflowGraph Nd Ed L C) (id : Nd) := g_nodes g !! id.
Definition graph_edge (g : DataflowGraph Nd Ed L C) (id : Ed) := g_edges g !! id.
Definition graph_nodes (g : DataflowGraph Nd Ed L C) : list (Node Nd L) := map_values (g_nodes g).
Definition graph_predecessors (g : DataflowGraph Nd Ed L C) (n : Nd) := g_predecessors g !! n.
Definition graph_successors (g : DataflowGraph Nd Ed L C) (n : Nd) := g_successors g !! n.

(** A located adapter projects an artifact into declarations. *)
Record LocatedGraphAdapter := {
  adapter_nodes : list (NodeSpec Nd L);
  adapter_edges : list (EdgeSpec Ed Nd C);
}.

Definition build_graph (a : LocatedGraphAdapter) : Res build_err (DataflowGraph Nd Ed L C) :=
  build (adapter_nodes a) (adapter_edges a).

(** ** Specification *)

Definition node_entry (n : NodeSpec Nd L) : Nd * Node Nd L := (spec_id n, freeze_node n).
Definition edge_entry (e : EdgeSpec Ed Nd C) : Ed * Edge Ed Nd C := (espec_id e, freeze_edge e).

Definition declared_nodes (nodes : list (NodeSpec Nd L)) : nodes_t :=
  list_to_map (node_entry <$> nodes).

Definition declared_edges (edges : list (EdgeSpec Ed Nd C)) : edges_t :=
  list_to_map (edge_entry <$> edges).

(** The edges leaving and entering a node, in propagation direction. *)
Definition out_edges (edges : edges_t) (n : Nd) : gset Ed :=
  dom (filter (fun ie => edge_pred ie.2 = n) edges).

Definition in_edges (edges : edges_t) (n : Nd) : gset Ed :=
  dom (filter (fun ie => edge_succ ie.2 = n) edges).

Definition endpoints_declared (nodes : list (NodeSpec Nd L)) (edges : list (EdgeSpec Ed Nd C)) : Prop :=
  forall e, e ∈ edges -> espec_source e ∈ spec_id <$> nodes /\ espec_target e ∈ spec_id <$> nodes.

Record valid_declarations (nodes : list (NodeSpec Nd L)) (edges : list (EdgeSpec Ed Nd C)) : Prop := {
  valid_nonempty : nodes <> [];
  valid_node_ids : NoDup (spec_id <$> nodes);
  valid_endpoints : endpoints_declared nodes edges;
  valid_edge_ids : NoDup (espec_id <$> edges);
  valid_inputs : forall n, n ∈ nodes -> is_input (spec_boundary n) = true ->
    in_edges (declared_edges edges) (spec_id n) = ∅;
  valid_outputs : forall n, n ∈ nodes -> is_output (spec_boundary n) = true ->
    out_edges (declared_edges edges) (spec_id n) = ∅;
}.

Definition frozen_graph (nodes : nodes_t) (edges : edges_t) : DataflowGraph Nd Ed L C :=
  {| g_nodes := nodes;
     g_edges := edges;
     g_predecessors := map_imap (fun n _ => Some (set_keys (in_edges edges n))) nodes;
     g_successors := map_imap (fun n _ => Some (set_keys (out_edges edges n))) nodes;
     g_fingerprint := incremental_fingerprint (nodes, edges) |}.

(** ** Freezing the declarations *)

Lemma freeze_nodes_Ok acc nodes m :
  freeze_nodes acc nodes = Ok m <->
  (NoDup (node_entry <$> nodes).*1 /\ (forall kv, kv ∈ node_entry <$> nodes -> acc !! kv.1 = None)) /\
  m = declared_nodes nodes ∪ acc.
Proof.
  revert acc. induction nodes as [|n nodes IH]; intros acc; cbn [freeze_nodes].
  - unfold declared_nodes. simpl. rewrite (left_id_L ∅ (∪)).
    split; [intros [= <-]; split_and!; [constructor|set_solver|done]|by intros (_&->)].
  - destruct (acc !! spec_id n) eqn:Hn.
    + split; [done|]. intros ((_&Hacc)&_). specialize (Hacc (node_entry n)).
      simpl in Hacc. rewrite Hn in Hacc. discriminate Hacc. left.
    + rewrite IH, (fresh_cons_iff (node_entry <$> nodes)) by done. apply and_iff_compat_l'.
      intros [Hnd _]. unfold declared_nodes. rewrite fmap_cons.
      rewrite (list_to_map_shift _ (spec_id n) (freeze_node n)); [done|]. by apply NoDup_cons_1_1 in Hnd.
Qed.

Lemma freeze_edges_Ok nodes acc edges m :
  freeze_edges nodes acc edges = Ok m <->
  (NoDup (edge_entry <$> edges).*1 /\ (forall kv, kv ∈ edge_entry <$> edges -> acc !! kv.1 = None)) /\
  (forall e, e ∈ edges -> is_Some (nodes !! espec_source e) /\ is_Some (nodes !! espec_target e)) /\
  m = declared_edges edges ∪ acc.
Proof.
  revert acc. induction edges as [|e edges IH]; intros acc; cbn [freeze_edges].
  - unfold declared_edges. simpl. rewrite (left_id_L ∅ (∪)).
    split; [intros [= <-]; split_and!; [constructor|set_solver|set_solver|done]|by intros (_&_&->)].
  - destruct (nodes !! espec_source e) eqn:Hs; cycle 1.
    { split; [done|]. intros (_&He&_). destruct (He e) as [[? ?] _]; [left|congruence]. }
    destruct (nodes !! espec_target e) eqn:Ht; cycle 1.
    { split; [done|]. intros (_&He&_). destruct (He e) as [_ [? ?]]; [left|congruence]. }
    destruct (acc !! espec_id e) eqn:He.
    { split; [done|]. intros ((_&Hacc)&_). specialize (Hacc (edge_entry e)).
      simpl in Hacc. rewrite He in Hacc. discriminate Hacc. left. }
    rewrite IH, (fresh_cons_iff (edge_entry <$> edges)) by done. apply and_iff_compat_l'.
    intros [Hnd _]. unfold declared_edges. rewrite fmap_cons.
    rewrite (list_to_map_shift _ (espec_id e) (freeze_edge e)) by (by apply NoDup_cons_1_1 in Hnd).
    apply and_iff_compat_r. setoid_rewrite elem_of_cons. naive_solver.
Qed.

(** ** The indices *)

Definition ids_with (P : Edge Ed Nd C -> Nd) (n : Nd) (l : list (Ed * Edge Ed Nd C)) : gset Ed :=
  list_to_set (filter (fun ie => P ie.2 = n) l).*1.

Lemma index_edges_Ok l preds succs :
  (forall ie, ie ∈ l -> is_Some (succs !! edge_pred ie.2) /\ is_Some (preds !! edge_succ ie.2)) ->
  exists preds' succs', index_edges l preds succs = Ok (preds', succs') /\
  (forall n, preds' !! n = (fun s => ids_with (fun e => edge_succ e) n l ∪ s) <$> preds !! n) /\
  (forall n, succs' !! n = (fun s => ids_with (fun e => edge_pred e) n l ∪ s) <$> succs !! n).
Proof.
  revert preds succs. induction l as [|[id e] l IH]; intros preds succs Hl; cbn [index_edges].
  - exists preds, succs. split; [done|]. unfold ids_with. simpl.
    split; intros n; destruct (_ !! n); simpl; f_equal; set_solver.
  - destruct (Hl (id, e)) as [[sp Hsp] [ss Hss]]; [left|]. simpl in Hsp, Hss.
    destruct (predecessor_and_successor e) as [p q] eqn:Hpq. simpl in *.
    unfold index_insert. rewrite Hsp; simpl; rewrite Hss; simpl.
    edestruct (IH (<[q := {[id]} ∪ ss]> preds) (<[p := {[id]} ∪ sp]> succs))
      as (preds' & succs' & Hok & Hp' & Hs').
    { intros ie Hie. rewrite !lookup_insert_is_Some'.
      destruct (Hl ie) as [??]; [by right|auto]. }
    exists preds', succs'. split; [done|].
    split; intros n; [rewrite Hp'|rewrite Hs']; unfold ids_with;
      rewrite filter_cons; simpl; rewrite Hpq; simpl; case_decide; subst;
      rewrite ?lookup_insert_eq, ?lookup_insert_ne by done;
      rewrite ?Hss, ?Hsp; simpl; try done; f_equal; set_solver.
Qed.

Lemma ids_with_entries (P : Edge Ed Nd C -> Nd) n (edges : edges_t) :
  ids_with P n (map_entries edges) = dom (filter (fun ie => P ie.2 = n) edges).
Proof.
  apply set_eq. intros id. unfold ids_with.
  rewrite elem_of_list_to_set, list_elem_of_fmap, elem_of_dom. split.
  - intros ([id' e] & -> & [HP Hin]%list_elem_of_filter).
    exists e. apply map_lookup_filter_Some. by rewrite <- elem_of_map_entries.
  - intros [e [He HP]%map_lookup_filter_Some]. exists (id, e).
    rewrite list_elem_of_filter, elem_of_map_entries. done.
Qed.

Lemma check_boundary_cases applies index id refusal :
  is_Some (index !! id) ->
  (check_boundary applies index id refusal = Ok tt /\ (applies = true -> index !! id = Some ∅)) \/
  (check_boundary applies index id refusal = Err refusal /\ applies = true /\ index !! id <> Some ∅).
Proof.
  intros [s Hs]. unfold check_boundary. rewrite Hs. destruct applies; simpl; [|by left].
  case_decide; [left; naive_solver|right; naive_solver].
Qed.

Definition boundaries_respected (l : list (Nd * Node Nd L)) (preds succs : index_t) : Prop :=
  forall kn, kn ∈ l ->
    (is_input (node_boundary kn.2) = true -> preds !! kn.1 = Some ∅) /\
    (is_output (node_boundary kn.2) = true -> succs !! kn.1 = Some ∅).

Lemma check_boundaries_cases l preds succs :
  (forall kn, kn ∈ l -> is_Some (preds !! kn.1) /\ is_Some (succs !! kn.1)) ->
  (check_boundaries l preds succs = Ok tt /\ boundaries_respected l preds succs) \/
  (exists e, check_boundaries l preds succs = Err e /\ ~ boundaries_respected l preds succs).
Proof.
  unfold boundaries_respected.
  induction l as [|[id n] l IH]; intros Hl; cbn [check_boundaries].
  - left. split; [done|]. intros kn Hkn. by apply elem_of_nil in Hkn.
  - destruct (Hl (id, n)) as [Hp Hs]; [left|]. simpl in Hp, Hs.
    destruct (check_boundary_cases (is_input (node_boundary n)) preds id (InputHasPredecessor id) Hp)
      as [[-> Hi]|(-> & Hi & Hne)]; simpl; cycle 1.
    { right. eexists. split; [done|]. intros Hall. by apply Hne, (Hall (id, n)); [left|]. }
    destruct (check_boundary_cases (is_output (node_boundary n)) succs id (OutputHasSuccessor id) Hs)
      as [[-> Ho]|(-> & Ho & Hne)]; simpl; cycle 1.
    { right. eexists. split; [done|]. intros Hall. by apply Hne, (Hall (id, n)); [left|]. }
    destruct IH as [[-> Hall]|(e & -> & Hnot)]; [intros; apply Hl; by right| |].
    + left. split; [done|]. intros kn [->|Hkn]%elem_of_cons; [done|by apply Hall].
    + right. exists e. split; [done|]. intros Hall. apply Hnot. intros kn Hkn. apply Hall. by right.
Qed.

(** ** Building as a whole *)

Lemma freeze_nodes_total acc nodes :
  (exists m, freeze_nodes acc nodes = Ok m) \/ (exists e, freeze_nodes acc nodes = Err e).
Proof. revert acc. induction nodes; intros acc; simpl; [|case_match]; eauto. Qed.

Lemma freeze_edges_total nodes acc edges :
  (exists m, freeze_edges nodes acc edges = Ok m) \/ (exists e, freeze_edges nodes acc edges = Err e).
Proof. revert acc. induction edges; intros acc; simpl; repeat case_match; eauto. Qed.

Lemma node_entry_keys nodes : (node_entry <$> nodes).*1 = spec_id <$> nodes.
Proof. rewrite <- list_fmap_compose. by apply list_fmap_ext. Qed.

Lemma edge_entry_keys edges : (edge_entry <$> edges).*1 = espec_id <$> edges.
Proof. rewrite <- list_fmap_compose. by apply list_fmap_ext. Qed.

Lemma declared_nodes_lookup nodes k :
  is_Some (declared_nodes nodes !! k) <-> k ∈ spec_id <$> nodes.
Proof.
  unfold declared_nodes. rewrite <- node_entry_keys, <- not_eq_None_Some.
  rewrite <- not_elem_of_list_to_map. destruct (decide (k ∈ (node_entry <$> nodes).*1)); tauto.
Qed.

Lemma declared_nodes_entry nodes k n :
  NoDup (spec_id <$> nodes) ->
  declared_nodes nodes !! k = Some n <-> exists sp, sp ∈ nodes /\ k = spec_id sp /\ n = freeze_node sp.
Proof.
  intros Hnd. unfold declared_nodes. rewrite <- elem_of_list_to_map by (by rewrite node_entry_keys).
  rewrite list_elem_of_fmap. unfold node_entry. naive_solver.
Qed.

Lemma declared_edges_entry edges k e :
  NoDup (espec_id <$> edges) ->
  declared_edges edges !! k = Some e <-> exists sp, sp ∈ edges /\ k = espec_id sp /\ e = freeze_edge sp.
Proof.
  intros Hnd. unfold declared_edges. rewrite <- elem_of_list_to_map by (by rewrite edge_entry_keys).
  rewrite list_elem_of_fmap. unfold edge_entry. naive_solver.
Qed.

Lemma declared_nodes_empty nodes : declared_nodes nodes = ∅ <-> nodes = [].
Proof.
  split; [|by intros ->]. intros Hm. destruct nodes as [|n nodes]; [done|].
  assert (is_Some (declared_nodes (n :: nodes) !! spec_id n)) as [x Hx].
  { apply declared_nodes_lookup. left. }
  by rewrite Hm, lookup_empty in Hx.
Qed.

Lemma frozen_endpoints nodes edges id e :
  NoDup (espec_id <$> edges) ->
  endpoints_declared nodes edges ->
  declared_edges edges !! id = Some e ->
  edge_pred e ∈ spec_id <$> nodes /\ edge_succ e ∈ spec_id <$> nodes.
Proof.
  intros Hnd Hend (sp & Hsp & -> & ->)%declared_edges_entry; [|done].
  destruct (Hend sp Hsp). unfold predecessor_and_successor. simpl. by destruct (espec_direction sp).
Qed.

(** The two index maps, in closed form. *)
Lemma index_closed_form nodes edges :
  NoDup (espec_id <$> edges) ->
  endpoints_declared nodes edges ->
  let empty_index := (fun _ => ∅) <$> declared_nodes nodes in
  index_edges (map_entries (declared_edges edges)) empty_index empty_index =
    Ok (map_imap (fun n _ => Some (in_edges (declared_edges edges) n)) (declared_nodes nodes),
        map_imap (fun n _ => Some (out_edges (declared_edges edges) n)) (declared_nodes nodes)).
Proof.
  intros Hnd Hend empty_index.
  edestruct (index_edges_Ok (map_entries (declared_edges edges)) empty_index empty_index)
    as (preds & succs & -> & Hp & Hs).
  { intros [id e] Hie%elem_of_map_entries.
    eapply frozen_endpoints in Hie as [Hq Hr]; [|done|done].
    unfold empty_index. rewrite !lookup_fmap, !fmap_is_Some, !declared_nodes_lookup. auto. }
  do 2 f_equal; apply map_eq; intros n; rewrite map_lookup_imap;
    [rewrite Hp|rewrite Hs]; unfold empty_index; rewrite lookup_fmap, ids_with_entries;
    destruct (declared_nodes nodes !! n); simpl; f_equal; unfold in_edges, out_edges;
    by rewrite (right_id_L ∅ (∪)).
Qed.

Lemma freeze_index_imap (f : Nd -> gset Ed) (nodes : nodes_t) :
  freeze_index (map_imap (fun n _ => Some (f n)) nodes) = map_imap (fun n _ => Some (set_keys (f n))) nodes.
Proof.
  apply map_eq. intros n. unfold freeze_index.
  rewrite lookup_fmap, !map_lookup_imap. by destruct (nodes !! n).
Qed.

Lemma build_cases nodes edges :
  (valid_declarations nodes edges /\
   build nodes edges = Ok (frozen_graph (declared_nodes nodes) (declared_edges edges))) \/
  (~ valid_declarations nodes edges /\ exists e, build nodes edges = Err e).
Proof.
  unfold build.
  destruct (freeze_nodes_total ∅ nodes) as [[m Hm]|[e He]]; cycle 1.
  { rewrite He. right. split; [|by eexists]. intros Hv.
    assert (freeze_nodes ∅ nodes = Ok (declared_nodes nodes ∪ ∅)); [|congruence].
    apply freeze_nodes_Ok. rewrite node_entry_keys. split_and!; [apply Hv|by intros; apply lookup_empty|done]. }
  rewrite Hm. simpl. apply freeze_nodes_Ok in Hm as [[Hnd _] ->].
  rewrite node_entry_keys in Hnd. rewrite (right_id_L ∅ (∪)).
  case_decide as Hempty.
  { right. split; [|by eexists]. intros Hv. apply declared_nodes_empty in Hempty. by apply Hv. }
  rewrite declared_nodes_empty in Hempty.
  destruct (freeze_edges_total (declared_nodes nodes) ∅ edges) as [[m Hm]|[e He]]; cycle 1.
  { rewrite He. right. split; [|by eexists]. intros Hv.
    assert (freeze_edges (declared_nodes nodes) ∅ edges = Ok (declared_edges edges ∪ ∅)); [|congruence].
    apply freeze_edges_Ok. rewrite edge_entry_keys.
    setoid_rewrite declared_nodes_lookup.
    split_and!; [apply Hv|by intros; apply lookup_empty|apply Hv|done]. }
  rewrite Hm. simpl. apply freeze_edges_Ok in Hm as ([Hne _] & Hend & ->).
  rewrite edge_entry_keys in Hne. setoid_rewrite declared_nodes_lookup in Hend.
  rewrite (right_id_L ∅ (∪)), index_closed_form by done. simpl.
  edestruct (check_boundaries_cases (map_entries (declared_nodes nodes))) as [[-> Hb]|(e & -> & Hb)].
  { intros [k n] Hk%elem_of_map_entries. simpl. rewrite !map_lookup_imap, Hk. simpl. eauto. }
  - left. simpl. rewrite !freeze_index_imap. split; [|done].
    split; try done; intros n Hn Hi;
      destruct (Hb (node_entry n)) as [Hin Hout];
      try (apply elem_of_map_entries, declared_nodes_entry; by eauto);
      [specialize (Hin Hi)|specialize (Hout Hi)]; rewrite map_lookup_imap in *;
      destruct (declared_nodes nodes !! _); naive_solver.
  - right. simpl. split; [|by eexists]. intros Hv. apply Hb.
    intros [k n] Hk%elem_of_map_entries. simpl. rewrite !map_lookup_imap, Hk. simpl.
    apply declared_nodes_entry in Hk as (sp & Hsp & -> & ->); [|done].
    split; intros; f_equal; by apply Hv.
Qed.

Lemma build_cases_Ok nodes edges g :
  build nodes edges = Ok g ->
  valid_declarations nodes edges /\ g = frozen_graph (declared_nodes nodes) (declared_edges edges).
Proof. destruct (build_cases nodes edges) as [[Hv ->]|[Hv [e ->]]]; naive_solver. Qed.

(** [build] accepts exactly the valid declarations, and what it freezes is
    the declared nodes and edges with the exact incoming and outgoing edge
    lists, in edge-identity order, of every node. *)
Theorem build_spec nodes edges g :
  build nodes edges = Ok g <->
  valid_declarations nodes edges /\ g = frozen_graph (declared_nodes nodes) (declared_edges edges).
Proof.
  destruct (build_cases nodes edges) as [[Hv ->]|[Hv [e ->]]]; naive_solver.
Qed.

(** Building terminates with a graph or a typed refusal; the internal
    [expect]s on the indices never fire. *)
Theorem build_no_panic nodes edges :
  build nodes edges <> Panic /\ build nodes edges <> NoFuel.
Proof. destruct (build_cases nodes edges) as [[_ ->]|[_ [e ->]]]; done. Qed.

Lemma declared_nodes_perm ns ns' :
  NoDup (spec_id <$> ns) -> ns ≡ₚ ns' -> declared_nodes ns = declared_nodes ns'.
Proof.
  intros Hnd Hp. apply list_to_map_proper; [by rewrite node_entry_keys|by rewrite Hp].
Qed.

Lemma declared_edges_perm es es' :
  NoDup (espec_id <$> es) -> es ≡ₚ es' -> declared_edges es = declared_edges es'.
Proof.
  intros Hnd Hp. apply list_to_map_proper; [by rewrite edge_entry_keys|by rewrite Hp].
Qed.

Lemma valid_declarations_perm ns ns' es es' :
  ns ≡ₚ ns' -> es ≡ₚ es' -> valid_declarations ns es -> valid_declarations ns' es'.
Proof.
  intros Hn He [H1' H2' H3' H4' H5' H6']. split.
  - intros ->. by apply Permutation_nil_r in Hn.
  - by rewrite <- Hn.
  - intros e Hin. rewrite <- Hn. apply H3'. by rewrite He.
  - by rewrite <- He.
  - intros n Hin. rewrite <- (declared_edges_perm es es') by done. apply H5'. by rewrite Hn.
  - intros n Hin. rewrite <- (declared_edges_perm es es') by done. apply H6'. by rewrite Hn.
Qed.

(** Declaration order never changes the frozen graph, its indices or its
    fingerprint. *)
Theorem build_order_irrelevant ns ns' es es' g :
  ns ≡ₚ ns' -> es ≡ₚ es' -> build ns es = Ok g -> build ns' es' = Ok g.
Proof.
  intros Hn He (Hv & ->)%build_cases_Ok.
  destruct (build_cases ns' es') as [[_ ->]|[Hnv _]].
  2: { destruct Hnv. by eapply valid_declarations_perm. }
  - by rewrite (declared_nodes_perm ns ns'), (declared_edges_perm es es') by (done || apply Hv).
Qed.
End Graph.

(** ** What the solver relies on *)

(** The facts about a built graph its clients use. *)
Record graph_wf {Nd Ed L C} `{OrdKey Nd} `{OrdKey Ed} (g : DataflowGraph Nd Ed L C) : Prop := {
  wf_nonempty : g_nodes g <> ∅;
  wf_node_id : forall k n, g_nodes g !! k = Some n -> node_id n = k;
  wf_endpoints : forall id e, g_edges g !! id = Some e ->
    is_Some (g_nodes g !! edge_pred e) /\ is_Some (g_nodes g !! edge_succ e);
  wf_successors : forall n, g_successors g !! n =
    (fun _ => set_keys (out_edges (g_edges g) n)) <$> g_nodes g !! n;
  wf_predecessors : forall n, g_predecessors g !! n =
    (fun _ => set_keys (in_edges (g_edges g) n)) <$> g_nodes g !! n;
}.

Section Wf.
Context {Nd Ed L C : Type} `{OrdKey Nd} `{OrdKey Ed}.
Context `{FingerprintValue (gmap Nd (Node Nd L) * gmap Ed (Edge Ed Nd C))}.

Lemma build_wf nodes edges (g : DataflowGraph Nd Ed L C) : build nodes edges = Ok g -> graph_wf g.
Proof.
  intros (Hv & ->)%build_cases_Ok. split; simpl.
  - rewrite declared_nodes_empty. apply Hv.
  - intros k n (sp & _ & -> & ->)%declared_nodes_entry; [done|apply Hv].
  - intros id e He. rewrite !declared_nodes_lookup. by eapply frozen_endpoints; [apply Hv..|].
  - intros n. rewrite map_lookup_imap. by destruct (declared_nodes nodes !! n).
  - intros n. rewrite map_lookup_imap. by destruct (declared_nodes nodes !! n).
Qed.

Lemma elem_of_out_edges (edges : gmap Ed (Edge Ed Nd C)) n id :
  id ∈ set_keys (out_edges edges n) <-> exists e, edges !! id = Some e /\ edge_pred e = n.
Proof.
  rewrite elem_of_set_keys. unfold out_edges. rewrite elem_of_dom. unfold is_Some.
  setoid_rewrite map_lookup_filter_Some. done.
Qed.

Lemma elem_of_in_edges (edges : gmap Ed (Edge Ed Nd C)) n id :
  id ∈ set_keys (in_edges edges n) <-> exists e, edges !! id = Some e /\ edge_succ e = n.
Proof.
  rewrite elem_of_set_keys. unfold in_edges. rewrite elem_of_dom. unfold is_Some.
  setoid_rewrite map_lookup_filter_Some. done.
Qed.
End Wf.

(** ** A sample graph: the three-node chain of the crate's tests *)

Definition sample_fingerprint {Nd Ed L C} `{OrdKey Nd} `{OrdKey Ed} :
  FingerprintValue (gmap Nd (Node Nd L) * gmap Ed (Edge Ed Nd C)) :=
  fun ne => N.of_nat (size ne.1 + 100 * size ne.2).

#[local] Existing Instance sample_fingerprint.

Definition sample_node (id : nat) (b : Boundary) : NodeSpec nat nat :=
  {| spec_id := id; spec_location := id + 100; spec_boundary := b |}.

Definition sample_edge (id s t : nat) : EdgeSpec nat nat nat :=
  {| espec_id := id; espec_source := s; espec_target := t;
     espec_class := Data; espec_direction := Forward |}.

Definition chain_nodes := [sample_node 1 Input; sample_node 2 Internal; sample_node 3 Output].
Definition chain_edges := [sample_edge 10 1 2; sample_edge 20 2 3].

Lemma build_order_irrelevant_witness :
  exists g, build chain_nodes chain_edges = Ok g /\
            build (rev chain_nodes) (rev chain_edges) = Ok g.
Proof.
  eexists. split; [vm_compute; reflexivity|].
  apply (build_order_irrelevant chain_nodes _ chain_edges).
  - apply Permutation_rev.
  - apply Permutation_rev.
  - vm_compute. reflexivity.
Defined.
