(* ===== verification/Budget.v ===== *)
(** * Budgets

    crates/sim-incremental-core/src/budget.rs and the continuation token of
    error.rs: the limits shared by the query engine and the dataflow solver. *)

From S2P Require Import Prelude.

Inductive BudgetKind := Work | Observations | Depth | OutputUnits.

#[export] Instance BudgetKind_eq_dec : EqDecision BudgetKind.
Proof. solve_decision. Defined.

Record QueryBudgets := {
  max_work : N;
  max_observations : N;
  max_depth : N;
  max_output : N;
  max_explanation_causes : N;
}.

Definition unlimited : QueryBudgets := {|
  max_work := usize_max;
  max_observations := usize_max;
  max_depth := usize_max;
  max_output := usize_max;
  max_explanation_causes := usize_max;
|}.

Definition new_budgets (work observations depth output : N) : QueryBudgets := {|
  max_work := work;
  max_observations := observations;
  max_depth := depth;
  max_output := output;
  max_explanation_causes := usize_max;
|}.

Definition with_explanation_causes (b : QueryBudgets) (causes : N) : QueryBudgets := {|
  max_work := max_work b;
  max_observations := max_observations b;
  max_depth := max_depth b;
  max_output := max_output b;
  max_explanation_causes := causes;
|}.

Record SnapshotBudgets := {
  max_nodes : N;
  max_edges : N;
}.

Definition unlimited_snapshot : SnapshotBudgets := {| max_nodes := usize_max; max_edges := usize_max |}.
