(* ===== verification/Worklist.v ===== *)
(** * The abstract worklist

    The solver of crates/sim-incremental-core/src/dataflow/engine runs three
    loops: a budgeted solve, a resumable solve and an incremental re-solve.
    Each pops the least pending node, applies the transfer and joins the result
    into the successors.  This file is their shared specification: states and
    pending set only, as a step relation, with the proof that a run that ends
    with nothing pending has computed the least solution. *)

From stdpp Require Import relations.
From S2P Require Import Prelude BTree Lattice DataflowGraph.

Section Targets.
Context {Nd Ed L C : Type} `{OrdKey Nd} `{OrdKey Ed} (g : DataflowGraph Nd Ed L C).

(** The successor nodes of a node, in edge-identity order. *)
Definition targets (n : Nd) : list Nd :=
  omap (fun id => (fun e => edge_succ e) <$> g_edges g !! id) (set_keys (out_edges (g_edges g) n)).

Lemma elem_of_targets n t :
  t ∈ targets n <-> exists id e, g_edges g !! id = Some e /\ edge_pred e = n /\ edge_succ e = t.
Proof.
  unfold targets. rewrite list_elem_of_omap. setoid_rewrite elem_of_out_edges. split.
  - intros (id & (e & He & Hp) & Ht). rewrite He in Ht. naive_solver.
  - intros (id & e & He & Hp & Ht). exists id. split; [eauto|]. rewrite He. simpl. by rewrite Ht.
Qed.

End Targets.

Section Worklist.
Context {Nd Ed L C S : Type} `{OrdKey Nd} `{OrdKey Ed} `{JoinSemilattice S}.
Context (g : DataflowGraph Nd Ed L C) (f : S -> S) (bot : S).

Abbreviation states_t := (gmap Nd S).

(** Joining one transferred output into one target. *)
Definition join_into (out : S) (target : Nd) (sp : states_t * gset Nd) : states_t * gset Nd :=
  match sp.1 !! target with
  | None => sp
  | Some cur =>
    let joined := join cur out in
    if decide (joined = cur) then sp else (<[target := joined]> sp.1, {[target]} ∪ sp.2)
  end.

(** Joining into every target, in order. *)
Definition join_all (out : S) (targets : list Nd) (sp : states_t * gset Nd) : states_t * gset Nd :=
  foldl (fun sp t => join_into out t sp) sp targets.

(** One visit. *)
Inductive wstep : states_t * gset Nd -> states_t * gset Nd -> Prop :=
| wstep_visit st pend n rest s :
    pop_first pend = Some (n, rest) ->
    st !! n = Some s ->
    less_equal s (f s) = true ->
    wstep (st, pend) (join_all (f s) (targets g n) (st, rest)).

(** ** Solutions *)

(** [seeds] are the entry facts; a solution is above them and closed under
    every edge that leaves a node other than bottom. *)
Record Solution (seeds : list (Nd * S)) (sol : states_t) : Prop := {
  sol_dom : dom sol = dom (g_nodes g);
  sol_seeds : forall n s, (n, s) ∈ seeds -> exists v, sol !! n = Some v /\ less_equal s v = true;
  sol_edges : forall id e u v, g_edges g !! id = Some e ->
    sol !! edge_pred e = Some u -> sol !! edge_succ e = Some v ->
    u <> bot -> less_equal (f u) v = true;
}.

(** Solutions of a part of the graph that no edge enters from outside. *)
Definition pred_closed (U : Nd -> Prop) : Prop :=
  forall id e, g_edges g !! id = Some e -> U (edge_succ e) -> U (edge_pred e).

Record SolutionOn (U : Nd -> Prop) (seeds : list (Nd * S)) (sol : states_t) : Prop := {
  on_dom : forall n, U n -> is_Some (g_nodes g !! n) -> is_Some (sol !! n);
  on_seeds : forall n s, U n -> (n, s) ∈ seeds -> exists v, sol !! n = Some v /\ less_equal s v = true;
  on_edges : forall id e u v, g_edges g !! id = Some e -> U (edge_succ e) ->
    sol !! edge_pred e = Some u -> sol !! edge_succ e = Some v ->
    u <> bot -> less_equal (f u) v = true;
}.

Definition below (U : Nd -> Prop) (a b : states_t) : Prop :=
  forall n u v, U n -> a !! n = Some u -> b !! n = Some v -> less_equal u v = true.

(** [sol] is below the solutions of every such part, the whole graph included. *)
Definition least_on_parts (seeds : list (Nd * S)) (sol : states_t) : Prop :=
  forall U sol', pred_closed U -> SolutionOn U seeds sol' -> below U sol sol'.

Definition LeastSolution (seeds : list (Nd * S)) (sol : states_t) : Prop :=
  Solution seeds sol /\ least_on_parts seeds sol.

(** The invariant of every loop. *)
Record WInv (seeds : list (Nd * S)) (sp : states_t * gset Nd) : Prop := {
  winv_dom : dom sp.1 = dom (g_nodes g);
  winv_seeds : forall n s, (n, s) ∈ seeds -> exists v, sp.1 !! n = Some v /\ less_equal s v = true;
  winv_pending : forall n, n ∈ sp.2 -> exists s, sp.1 !! n = Some s /\ s <> bot;
  winv_edges : forall id e u v, g_edges g !! id = Some e ->
    sp.1 !! edge_pred e = Some u -> sp.1 !! edge_succ e = Some v ->
    u <> bot -> edge_pred e ∈ sp.2 \/ less_equal (f u) v = true;
  winv_least : least_on_parts seeds sp.1;
}.

Context (HL : Lawful bot).

Lemma solution_whole seeds sol : Solution seeds sol -> SolutionOn (fun _ => True) seeds sol.
Proof.
  intros [Hd Hs He]. split; [|by auto|by eauto].
  intros n _ Hn. apply elem_of_dom. rewrite Hd. by apply elem_of_dom.
Qed.

Lemma below_antisym (a b : states_t) :
  dom a = dom b -> below (fun _ => True) a b -> below (fun _ => True) b a -> a = b.
Proof using HL.
  intros Hd Hab Hba. apply map_eq. intros n.
  destruct (a !! n) as [u|] eqn:Ha, (b !! n) as [v|] eqn:Hb.
  - f_equal. eapply (le_antisym HL); [by eapply Hab|by eapply Hba].
  - assert (n ∈ dom a) as Hn by (by eapply elem_of_dom_2). rewrite Hd in Hn.
    apply elem_of_dom in Hn as [? ?]. congruence.
  - assert (n ∈ dom b) as Hn by (by eapply elem_of_dom_2). rewrite <- Hd in Hn.
    apply elem_of_dom in Hn as [? ?]. congruence.
  - done.
Qed.

(** Least solutions are unique. *)
Lemma least_unique seeds a b : LeastSolution seeds a -> LeastSolution seeds b -> a = b.
Proof using HL.
  intros [Ha Hla] [Hb Hlb]. apply below_antisym.
  - by rewrite (sol_dom _ _ Ha), (sol_dom _ _ Hb).
  - apply Hla; [by intros ?|by apply solution_whole].
  - apply Hlb; [by intros ?|by apply solution_whole].
Qed.

(** An invariant state with nothing pending is the least solution. *)
Lemma winv_done seeds st : WInv seeds (st, ∅) -> LeastSolution seeds st.
Proof.
  intros [Hd Hs Hp He Hl]. split; [|done]. split; try done.
  intros id e u v Hid Hu Hv Hne. destruct (He id e u v); set_solver.
Qed.

(** ** Joining preserves the invariant *)

(** What holds between two joins of one visit of [n], whose output is [out];
    [left] are the targets still to be joined. *)
Record JInv (seeds : list (Nd * S)) (n : Nd) (s : S) (todo : list Nd) (sp : states_t * gset Nd) : Prop := {
  jinv_dom : dom sp.1 = dom (g_nodes g);
  jinv_seeds : forall k x, (k, x) ∈ seeds -> exists v, sp.1 !! k = Some v /\ less_equal x v = true;
  jinv_pending : forall k, k ∈ sp.2 -> exists x, sp.1 !! k = Some x /\ x <> bot;
  jinv_node : n ∈ sp.2 \/ sp.1 !! n = Some s;
  jinv_edges : forall id e u v, g_edges g !! id = Some e ->
    sp.1 !! edge_pred e = Some u -> sp.1 !! edge_succ e = Some v ->
    u <> bot -> edge_pred e ∈ sp.2 \/ less_equal (f u) v = true \/
               (edge_pred e = n /\ edge_succ e ∈ todo);
  jinv_least : least_on_parts seeds sp.1;
}.

Lemma join_into_JInv seeds n s t todo sp :
  less_equal s (f s) = true ->
  (forall U sol, pred_closed U -> SolutionOn U seeds sol -> U t ->
     exists v, sol !! t = Some v /\ less_equal (f s) v = true) ->
  s <> bot ->
  JInv seeds n s (t :: todo) sp -> JInv seeds n s todo (join_into (f s) t sp).
Proof using HL.
  intros Hprog Hsol Hsb [Hd Hs Hp Hn He Hl]. destruct sp as [st pend]. unfold join_into. simpl in *.
  destruct (st !! t) as [cur|] eqn:Ht; cycle 1.
  { split; try done. simpl. intros id e u v Hid Hu Hv Hu'.
    destruct (He id e u v Hid Hu Hv Hu') as [?|[?|[? [Heq|?]%elem_of_cons]]]; auto. congruence. }
  case_decide as Hj.
  - split; try done. simpl. intros id e u v Hid Hu Hv Hu'.
    destruct (He id e u v Hid Hu Hv Hu') as [Hin|[?|[Hpn [Heq|?]%elem_of_cons]]]; auto.
    destruct Hn as [Hn|Hn]; [left; by rewrite Hpn|]. right; left.
    assert (v = cur) as -> by congruence. assert (u = s) as -> by congruence.
    by apply (join_unchanged HL).
  - assert (cur <> join cur (f s)) as Hne by congruence.
    assert (join cur (f s) <> bot) as Hnb.
    { eapply (le_neq_bot HL); [apply (join_ub_r HL)|]. by eapply (le_neq_bot HL). }
    split; simpl.
    + rewrite dom_insert_lookup_L; [done|]. by eexists.
    + intros k x Hk. destruct (Hs k x Hk) as (v & Hv & Hle).
      destruct (decide (t = k)) as [->|Hne'].
      * rewrite lookup_insert_eq. eexists. split; [done|].
        assert (v = cur) as -> by congruence. eapply (le_trans HL); [done|]. apply (join_ub_l HL).
      * rewrite lookup_insert_ne by done. eauto.
    + intros k Hk. destruct (decide (t = k)) as [->|Hne'].
      * rewrite lookup_insert_eq. eauto.
      * rewrite lookup_insert_ne by done. apply Hp. set_solver.
    + destruct (decide (t = n)) as [->|Hne']; [left; set_solver|].
      rewrite lookup_insert_ne by done. destruct Hn; [left; set_solver|by right].
    + intros id e u v Hid Hu Hv Hu'.
      destruct (decide (t = edge_pred e)) as [Heq|Hne']; [left; set_solver|].
      rewrite lookup_insert_ne in Hu by done.
      destruct (decide (t = edge_succ e)) as [Heq'|Hne''].
      * rewrite <- Heq', lookup_insert_eq in Hv. injection Hv as <-.
        assert (st !! edge_succ e = Some cur) as Hcur by (by rewrite <- Heq').
        destruct (He id e u cur Hid Hu Hcur Hu') as [?|[Hle|[Hpn _]]].
        -- left; set_solver.
        -- right; left. eapply (le_trans HL); [done|]. apply (join_ub_l HL).
        -- destruct Hn as [Hn|Hn]; [left; rewrite Hpn; set_solver|].
           right; left. assert (u = s) as -> by congruence. apply (join_ub_r HL).
      * rewrite lookup_insert_ne in Hv by done.
        destruct (He id e u v Hid Hu Hv Hu') as [?|[?|[? [?|?]%elem_of_cons]]];
          [left; set_solver|auto|congruence|auto].
    + intros U sol HU HS k u v Hk Hu Hv. destruct (decide (t = k)) as [->|Hne'].
      * rewrite lookup_insert_eq in Hu. injection Hu as <-.
        destruct (Hsol U sol HU HS Hk) as (v' & Hv' & Hle). assert (v' = v) as -> by congruence.
        apply (join_lub HL); [|done]. by eapply Hl.
      * rewrite lookup_insert_ne in Hu by done. by eapply Hl.
Qed.

Lemma join_all_JInv seeds n s todo sp :
  less_equal s (f s) = true ->
  (forall t, t ∈ todo -> forall U sol, pred_closed U -> SolutionOn U seeds sol -> U t ->
     exists v, sol !! t = Some v /\ less_equal (f s) v = true) ->
  s <> bot ->
  JInv seeds n s todo sp -> JInv seeds n s [] (join_all (f s) todo sp).
Proof using HL.
  intros Hprog. revert sp. induction todo as [|t todo IH]; intros sp Hsol Hsb HJ; [done|].
  simpl. apply IH; [|done|].
  - intros t' Ht' U sol HU HS Hk. eapply Hsol; eauto. by right.
  - apply join_into_JInv; auto. intros U sol HU HS Hk. eapply Hsol; eauto. left.
Qed.

(** ** Seeding *)

(** The state before any seed: every node at bottom, nothing pending. *)
Definition initial_states : states_t := (fun _ => bot) <$> g_nodes g.

(** Joining the seeds one by one. *)
Definition seed_all (seeds : list (Nd * S)) (sp : states_t * gset Nd) : states_t * gset Nd :=
  foldl (fun sp ns => join_into ns.2 ns.1 sp) sp seeds.

(** With no edges to close yet, all that matters is that pending nodes are
    exactly the ones raised above bottom. *)
Record SInv (seeds : list (Nd * S)) (sp : states_t * gset Nd) : Prop := {
  sinv_dom : dom sp.1 = dom (g_nodes g);
  sinv_seeds : forall n s, (n, s) ∈ seeds -> exists v, sp.1 !! n = Some v /\ less_equal s v = true;
  sinv_pending : forall n s, sp.1 !! n = Some s -> n ∈ sp.2 <-> s <> bot;
  sinv_sub : forall n, n ∈ sp.2 -> is_Some (sp.1 !! n);
  sinv_least : least_on_parts seeds sp.1;
}.

Lemma initial_SInv : SInv [] (initial_states, ∅).
Proof using HL.
  unfold initial_states. split; simpl.
  - by rewrite dom_fmap_L.
  - intros n s Hin. by apply elem_of_nil in Hin.
  - intros n s Hs. apply lookup_fmap_Some in Hs as (x & <- & _). set_solver.
  - set_solver.
  - intros U sol HU HS n u v _ Hu _. apply lookup_fmap_Some in Hu as (x & <- & _). apply (bot_le HL).
Qed.

Lemma seed_SInv seeds n s sp :
  is_Some (g_nodes g !! n) -> SInv seeds sp -> SInv (seeds ++ [(n, s)]) (join_into s n sp).
Proof using HL.
  intros Hn [Hd Hs Hp Hsub Hl]. destruct sp as [st pend]. unfold join_into. simpl in *.
  assert (is_Some (st !! n)) as [cur Hcur].
  { apply elem_of_dom. rewrite Hd. by apply elem_of_dom. }
  assert (forall U sol, SolutionOn U (seeds ++ [(n, s)]) sol -> SolutionOn U seeds sol) as Hmono.
  { intros U sol [? Hs' ?]. split; try done. intros; apply Hs'; [done|]. apply elem_of_app. by left. }
  rewrite Hcur. case_decide as Hj.
  - split; simpl; try done; [|intros U sol HU HS; apply Hl; auto].
    intros k x [Hk|[= -> ->]%list_elem_of_singleton]%elem_of_app; [by auto|].
    exists cur. split; [done|]. by apply (join_unchanged HL).
  - assert (join cur s <> bot) as Hjb.
    { intros Hb. apply Hj. assert (cur = bot) as -> by (apply (le_bot HL); rewrite <- Hb; apply (join_ub_l HL)).
      done. }
    split; simpl.
    + rewrite dom_insert_lookup_L; [done|]. by eexists.
    + intros k x [Hk|[= -> ->]%list_elem_of_singleton]%elem_of_app.
      * destruct (Hs k x Hk) as (v & Hv & Hle). destruct (decide (n = k)) as [->|].
        -- rewrite lookup_insert_eq. eexists. split; [done|]. assert (v = cur) as -> by congruence.
           eapply (le_trans HL); [done|]. apply (join_ub_l HL).
        -- rewrite lookup_insert_ne by done. eauto.
      * rewrite lookup_insert_eq. eexists. split; [done|]. apply (join_ub_r HL).
    + intros k x. destruct (decide (n = k)) as [->|].
      * rewrite lookup_insert_eq. intros [= <-]. set_solver.
      * rewrite lookup_insert_ne by done. intros Hx. rewrite <- (Hp k x Hx). set_solver.
    + intros k Hk. destruct (decide (n = k)) as [->|]; [rewrite lookup_insert_eq; eauto|].
      rewrite lookup_insert_ne by done. apply Hsub. set_solver.
    + intros U sol HU HS k u v HUk Hu Hv. destruct (decide (n = k)) as [->|].
      * rewrite lookup_insert_eq in Hu. injection Hu as <-.
        destruct (on_seeds _ _ _ HS k s) as (v' & Hv' & Hle); [done|set_solver|].
        assert (v' = v) as -> by congruence. apply (join_lub HL); [|done].
        eapply Hl; eauto.
      * rewrite lookup_insert_ne in Hu by done. eapply Hl; eauto.
Qed.

Lemma seed_all_SInv seeds done sp :
  (forall ns, ns ∈ seeds -> is_Some (g_nodes g !! ns.1)) ->
  SInv done sp -> SInv (done ++ seeds) (seed_all seeds sp).
Proof using HL.
  revert done sp. induction seeds as [|[n s] seeds IH]; intros done sp Hin HS; simpl.
  - by rewrite app_nil_r.
  - rewrite cons_middle, app_assoc. apply IH; [intros; apply Hin; by right|].
    apply seed_SInv; [|done]. apply (Hin (n, s)). left.
Qed.

Lemma SInv_WInv seeds sp : SInv seeds sp -> WInv seeds sp.
Proof.
  intros [Hd Hs Hp Hsub Hl]. split; try done.
  - intros n Hn. destruct (Hsub n Hn) as [s Hs']. exists s. split; [done|]. by apply (Hp n s).
  - intros id e u v _ Hu _ Hub. left. by apply (Hp _ u).
Qed.

(** Seeding from bottom establishes the invariant. *)
Lemma seeded_WInv seeds :
  (forall ns, ns ∈ seeds -> is_Some (g_nodes g !! ns.1)) ->
  WInv seeds (seed_all seeds (initial_states, ∅)).
Proof using HL.
  intros Hin. apply SInv_WInv. apply (seed_all_SInv seeds []); [done|]. apply initial_SInv.
Qed.

(** ** Runs *)

Context (HG : graph_wf g) (HT : LawfulTransfer f).

(** A solution contains the transferred state of every node below it. *)
Lemma solution_above seeds U sol n s t :
  pred_closed U -> SolutionOn U seeds sol ->
  (forall v, U n -> sol !! n = Some v -> less_equal s v = true) ->
  s <> bot -> t ∈ targets g n -> U t ->
  exists v, sol !! t = Some v /\ less_equal (f s) v = true.
Proof using HG HL HT.
  intros HU HS Hle Hsb (id & e & He & Hp & Ht)%elem_of_targets HUt.
  destruct (wf_endpoints _ HG id e He) as [Hpd Htd].
  assert (U n) as HUn by (rewrite <- Hp; eapply HU; [done|by rewrite Ht]).
  rewrite Hp in Hpd. rewrite Ht in Htd.
  destruct (on_dom _ _ _ HS n HUn Hpd) as [u Hu], (on_dom _ _ _ HS t HUt Htd) as [v Hv].
  exists v. split; [done|]. assert (less_equal s u = true) as Hsu by auto.
  eapply (le_trans HL); [by apply (transfer_monotone _ _ HT)|].
  eapply (on_edges _ _ _ HS id e); [done|by rewrite Ht|by rewrite Hp|by rewrite Ht|].
  by eapply (le_neq_bot HL).
Qed.

Lemma wstep_WInv seeds sp sp' : WInv seeds sp -> wstep sp sp' -> WInv seeds sp'.
Proof using HG HL HT.
  intros [Hd Hs Hp He Hl] Hstep. destruct Hstep as [st pend n rest s Hpop Hn Hprog]. simpl in *.
  apply pop_first_Some in Hpop as (Hin & -> & _).
  destruct (Hp n Hin) as (s' & Hs' & Hsb). assert (s' = s) as -> by congruence.
  assert (JInv seeds n s [] (join_all (f s) (targets g n) (st, pend ∖ {[n]}))) as [Hd' Hseed' Hp' _ He' Hl'].
  { apply join_all_JInv; [done| |done|].
    - intros t Ht U sol HU HS HUt. eapply solution_above; eauto. intros v HUn Hv. by eapply Hl.
    - split; simpl; try done; [intros k Hk; apply Hp; set_solver|by right|].
      intros id e u v Hid Hu Hv Hub. destruct (He id e u v Hid Hu Hv Hub) as [Hpe|]; [|by auto].
      destruct (decide (edge_pred e = n)) as [Heq|]; [|left; set_solver].
      right; right. split; [done|]. apply elem_of_targets. eauto. }
  split; try done. intros id e u v Hid Hu Hv Hub.
  destruct (He' id e u v Hid Hu Hv Hub) as [?|[?|[_ Hnil]]]; auto. by apply elem_of_nil in Hnil.
Qed.

Lemma wsteps_WInv seeds sp sp' : WInv seeds sp -> rtc wstep sp sp' -> WInv seeds sp'.
Proof using HG HL HT. intros HW Hsteps. induction Hsteps; eauto using wstep_WInv. Qed.

(** Any complete run from an invariant state computes the least solution. *)
Lemma wsteps_least seeds sp st :
  WInv seeds sp -> rtc wstep sp (st, ∅) -> LeastSolution seeds st.
Proof using HG HL HT. intros HW Hsteps. eapply winv_done, wsteps_WInv; eauto. Qed.
End Worklist.
