(* ===== verification/DataflowEngine.v ===== *)
(** * The budgeted fixpoint solver

    crates/sim-incremental-core/src/dataflow/engine: the contracts of
    contracts.rs, the charging helpers of proof.rs and [FixpointEngine::solve]
    of execution.rs.  A solve charges every seed, visit and propagation to its
    budgets, so the loop's fuel is bounded by the work budget; the theorems say
    that it always ends, never aborts on a built graph, stays within its
    budgets, and that an accepted solve is the least solution. *)

From stdpp Require Import relations.
From S2P Require Import Prelude BTree Lattice DataflowGraph Budget Worklist.

Inductive DataflowFailure := TransferFailure | JoinFailure.

Inductive DataflowEvent (Nd Ed C : Type) :=
| Visit (n : Nd)
| Propagate (edge : Ed) (class : EdgeClass C).
Arguments Visit {Nd Ed C} n.
Arguments Propagate {Nd Ed C} edge class.

Record DataflowUsage := {
  usage_work : N;
  usage_observations : N;
  usage_depth : N;
  usage_output : N;
}.

Definition usage_default : DataflowUsage :=
  {| usage_work := 0; usage_observations := 0; usage_depth := 0; usage_output := 0 |}.

Inductive ContinuationFingerprint := CfGraph | CfPolicy | CfDependencies.

Inductive DataflowError (Nd Ed L : Type) :=
| UnknownSeed (n : Nd)
| ContinuationMismatch (changed : ContinuationFingerprint) (expected actual : N)
| BudgetExceeded (kind : BudgetKind) (limit attempted : N) (node : option Nd) (edge : option Ed)
    (location : L) (target_location : option L)
| NodeFailure (failure : DataflowFailure) (node : Nd) (location : L)
| EdgeFailure (failure : DataflowFailure) (edge : Ed) (location target_location : L).
Arguments UnknownSeed {Nd Ed L} n.
Arguments ContinuationMismatch {Nd Ed L} changed expected actual.
Arguments BudgetExceeded {Nd Ed L} kind limit attempted node edge location target_location.
Arguments NodeFailure {Nd Ed L} failure node location.
Arguments EdgeFailure {Nd Ed L} failure edge location target_location.

Record CausalPredecessor (Nd Ed : Type) := {
  cause_node : Nd;
  cause_edge : option Ed;
}.
Arguments cause_node {Nd Ed}.
Arguments cause_edge {Nd Ed}.

Record CausalRecord (Nd Ed : Type) := {
  retained : list (CausalPredecessor Nd Ed);
  omitted : N;
}.
Arguments retained {Nd Ed}.
Arguments omitted {Nd Ed}.

Record DataflowExplanation (Nd Ed : Type) := {
  explanation_predecessors : list (CausalPredecessor Nd Ed);
  explanation_omitted : N;
}.
Arguments explanation_predecessors {Nd Ed}.
Arguments explanation_omitted {Nd Ed}.

Definition explanation_truncated {Nd Ed} (e : DataflowExplanation Nd Ed) : bool :=
  negb (explanation_omitted e =? 0)%N.

Record ChargeLocation (Nd Ed L : Type) := {
  at_node : option Nd;
  at_edge : option Ed;
  at_location : L;
  at_target : option L;
}.
Arguments at_node {Nd Ed L}.
Arguments at_edge {Nd Ed L}.
Arguments at_location {Nd Ed L}.
Arguments at_target {Nd Ed L}.

(** The solver's local variables: what a completed solve returns as its
    [DataflowSolution] together with the pending set. *)
Record DataflowSolution (Nd Ed C S : Type) `{OrdKey Nd} := {
  sol_states : gmap Nd S;
  sol_events : list (DataflowEvent Nd Ed C);
  sol_usage : DataflowUsage;
  sol_causes : gmap Nd (CausalRecord Nd Ed);
}.
Arguments sol_states {Nd Ed C S _}.
Arguments sol_events {Nd Ed C S _}.
Arguments sol_usage {Nd Ed C S _}.
Arguments sol_causes {Nd Ed C S _}.

Section Engine.
Context {Nd Ed L C S : Type} `{OrdKey Nd} `{OrdKey Ed} `{JoinSemilattice S}.

Abbreviation err := (DataflowError Nd Ed L).
Abbreviation solution := (DataflowSolution Nd Ed C S).
Abbreviation causes_t := (gmap Nd (CausalRecord Nd Ed)).
Abbreviation graph := (DataflowGraph Nd Ed L C).

(** ** Charging (proof.rs) *)

Definition charge (counter units limit : N) (kind : BudgetKind) (at_ : ChargeLocation Nd Ed L)
    : Res err N :=
  let attempted := saturating_add counter units in
  if (limit <? attempted)%N then
    Err (BudgetExceeded kind limit attempted (at_node at_) (at_edge at_) (at_location at_) (at_target at_))
  else Ok attempted.

Definition set_work (u : DataflowUsage) (x : N) : DataflowUsage :=
  {| usage_work := x; usage_observations := usage_observations u;
     usage_depth := usage_depth u; usage_output := usage_output u |}.
Definition set_observations (u : DataflowUsage) (x : N) : DataflowUsage :=
  {| usage_work := usage_work u; usage_observations := x;
     usage_depth := usage_depth u; usage_output := usage_output u |}.
Definition set_depth (u : DataflowUsage) (x : N) : DataflowUsage :=
  {| usage_work := usage_work u; usage_observations := usage_observations u;
     usage_depth := x; usage_output := usage_output u |}.
Definition set_output (u : DataflowUsage) (x : N) : DataflowUsage :=
  {| usage_work := usage_work u; usage_observations := usage_observations u;
     usage_depth := usage_depth u; usage_output := x |}.

Definition at_graph (location : L) : ChargeLocation Nd Ed L :=
  {| at_node := None; at_edge := None; at_location := location; at_target := None |}.

Definition charge_work (u : DataflowUsage) (b : QueryBudgets) (node : option Nd) (location : L)
    : Res err DataflowUsage :=
  let? w := charge (usage_work u) 1 (max_work b) Work
              {| at_node := node; at_edge := None; at_location := location; at_target := None |} in
  Ok (set_work u w).

Definition charge_work_edge (u : DataflowUsage) (b : QueryBudgets) (edge : Ed) (location target : L)
    : Res err DataflowUsage :=
  let? w := charge (usage_work u) 1 (max_work b) Work
              {| at_node := None; at_edge := Some edge; at_location := location; at_target := Some target |} in
  Ok (set_work u w).

Definition charge_observation (u : DataflowUsage) (b : QueryBudgets) (edge : Ed) (location target : L)
    : Res err DataflowUsage :=
  let? o := charge (usage_observations u) 1 (max_observations b) Observations
              {| at_node := None; at_edge := Some edge; at_location := location; at_target := Some target |} in
  Ok (set_observations u o).

Definition record_cause (causes : causes_t) (node : Nd) (cause : CausalPredecessor Nd Ed) (limit : N)
    : causes_t :=
  let record := default {| retained := []; omitted := 0 |} (causes !! node) in
  let record' :=
    if (len (retained record) <? limit)%N
    then {| retained := retained record ++ [cause]; omitted := omitted record |}
    else {| retained := retained record; omitted := saturating_add (omitted record) 1 |} in
  <[node := record']> causes.

Definition replace_state (states : gmap Nd S) (node : Nd) (state : S) (u : DataflowUsage)
    (b : QueryBudgets) (location : L) : Res err (gmap Nd S * DataflowUsage) :=
  let? o := charge (usage_output u) (state_size state) (max_output b) OutputUnits (at_graph location) in
  Ok (<[node := state]> states, set_output u o).

(** ** The solver *)

(** The local variables of the loops. *)
Record Loop := {
  l_states : gmap Nd S;
  l_pending : gset Nd;
  l_events : list (DataflowEvent Nd Ed C);
  l_usage : DataflowUsage;
  l_causes : causes_t;
}.

Definition with_usage (w : Loop) (u : DataflowUsage) : Loop :=
  {| l_states := l_states w; l_pending := l_pending w; l_events := l_events w;
     l_usage := u; l_causes := l_causes w |}.

Definition push_event (w : Loop) (e : DataflowEvent Nd Ed C) : Loop :=
  {| l_states := l_states w; l_pending := l_pending w; l_events := l_events w ++ [e];
     l_usage := l_usage w; l_causes := l_causes w |}.

(** What every loop does when a join changed its target. *)
Definition raise_node (w : Loop) (states : gmap Nd S) (node : Nd) (cause : CausalPredecessor Nd Ed)
    (limit : N) : Loop :=
  {| l_states := states; l_pending := {[node]} ∪ l_pending w; l_events := l_events w;
     l_usage := l_usage w; l_causes := record_cause (l_causes w) node cause limit |}.

Definition finish (w : Loop) : solution :=
  {| sol_states := l_states w; sol_events := l_events w; sol_usage := l_usage w; sol_causes := l_causes w |}.

Section Solve.
Context (g : graph) (t : AdmittedTransfer (S:=S)) (b : QueryBudgets).

(** Seeding one entry fact. *)
Definition solve_seed (id : Nd) (seed : S) (w : Loop) : Res err Loop :=
  match graph_node g id with
  | None => Err (UnknownSeed id)
  | Some node =>
    let? cur := expect (l_states w !! id) in
    let joined := join cur seed in
    let? u := charge_work (l_usage w) b (Some id) (node_location node) in
    if negb (less_equal cur joined) || negb (less_equal seed joined) then
      Err (NodeFailure JoinFailure id (node_location node))
    else if decide (joined = cur) then Ok (with_usage w u)
    else
      let? (states, u) := replace_state (l_states w) id joined u b (node_location node) in
      Ok (raise_node (with_usage w u) states id {| cause_node := id; cause_edge := None |}
            (max_explanation_causes b))
  end.

Fixpoint solve_seeds (seeds : list (Nd * S)) (w : Loop) : Res err Loop :=
  match seeds with
  | [] => Ok w
  | (id, seed) :: rest => let? w := solve_seed id seed w in solve_seeds rest w
  end.

(** Propagating one output along one edge. *)
Definition solve_edge (node_id : Nd) (location : L) (output : S) (edge_id : Ed) (w : Loop)
    : Res err Loop :=
  let? edge := expect (graph_edge g edge_id) in
  let target_id := edge_succ edge in
  let? target := expect (graph_node g target_id) in
  let? u := charge_observation (l_usage w) b edge_id location (node_location target) in
  let w := push_event (with_usage w u) (Propagate edge_id (edge_class edge)) in
  let? u := charge_work_edge (l_usage w) b edge_id location (node_location target) in
  let w := with_usage w u in
  let? cur := expect (l_states w !! target_id) in
  let joined := join cur output in
  if negb (less_equal cur joined) || negb (less_equal output joined) then
    Err (EdgeFailure JoinFailure edge_id location (node_location target))
  else if decide (joined = cur) then Ok w
  else
    let? (states, u) := replace_state (l_states w) target_id joined (l_usage w) b (node_location target) in
    Ok (raise_node (with_usage w u) states target_id
          {| cause_node := node_id; cause_edge := Some edge_id |} (max_explanation_causes b)).

Fixpoint solve_edges (node_id : Nd) (location : L) (output : S) (edges : list Ed) (w : Loop)
    : Res err Loop :=
  match edges with
  | [] => Ok w
  | e :: rest =>
    let? w := solve_edge node_id location output e w in solve_edges node_id location output rest w
  end.

(** One visit of a popped node. *)
Definition solve_visit (node_id : Nd) (w : Loop) : Res err Loop :=
  let? node := expect (graph_node g node_id) in
  let? u := charge_work (l_usage w) b (Some node_id) (node_location node) in
  let w := push_event (with_usage w u) (Visit node_id) in
  let? u := charge_work (l_usage w) b (Some node_id) (node_location node) in
  let w := with_usage w u in
  let? s := expect (l_states w !! node_id) in
  let output := transfer t s in
  if negb (less_equal s output) then Err (NodeFailure TransferFailure node_id (node_location node))
  else
    let? edges := expect (graph_successors g node_id) in
    solve_edges node_id (node_location node) output edges w.

Definition with_pending (w : Loop) (pending : gset Nd) : Loop :=
  {| l_states := l_states w; l_pending := pending; l_events := l_events w;
     l_usage := l_usage w; l_causes := l_causes w |}.

(** [while let Some(node_id) = pending.pop_first()]. *)
Fixpoint solve_loop (fuel : nat) (w : Loop) : Res err Loop :=
  match fuel with
  | O => NoFuel
  | Datatypes.S fuel =>
    match pop_first (l_pending w) with
    | None => Ok w
    | Some (node_id, rest) =>
      let? w := solve_visit node_id (with_pending w rest) in solve_loop fuel w
    end
  end.

(** The location of the first node; [graphs are non-empty]. *)
Definition first_location : Res err L :=
  let? n := expect (head (graph_nodes g)) in Ok (node_location n).

(** The charges before the first seed, and the all-bottom states. *)
Definition solve_start (bot : S) : Res err Loop :=
  let nodes := graph_nodes g in
  let retained := len nodes in
  let? loc := first_location in
  let? d := charge (usage_depth usage_default) retained (max_depth b) Depth (at_graph loc) in
  let initial_output := saturating_mul (state_size bot) retained in
  let? o := charge (usage_output usage_default) initial_output (max_output b) OutputUnits (at_graph loc) in
  Ok {| l_states := list_to_map ((fun n => (node_id n, bot)) <$> nodes);
        l_pending := ∅;
        l_events := [];
        l_usage := set_output (set_depth usage_default d) o;
        l_causes := ∅ |}.

Definition solve (fuel : nat) (bot : S) (seeds : list (Nd * S)) : Res err solution :=
  let? w := solve_start bot in
  let? w := solve_seeds seeds w in
  let? w := solve_loop fuel w in
  Ok (finish w).
End Solve.

(** [DataflowSolution::explain]. *)
Definition explain (s : solution) (node : Nd) (limit : nat) : option (DataflowExplanation Nd Ed) :=
  r ← sol_causes s !! node;
  let kept := take limit (retained r) in
  Some {| explanation_predecessors := kept;
          explanation_omitted :=
            saturating_add (omitted r) (saturating_sub (len (retained r)) (len kept)) |}.
End Engine.

(** ** Charging lemmas *)

Section Charging.
Context {Nd Ed L : Type}.

Lemma charge_Ok counter units limit kind (at_ : ChargeLocation Nd Ed L) c :
  charge counter units limit kind at_ = Ok c <->
  c = saturating_add counter units /\ (saturating_add counter units <= limit)%N.
Proof.
  unfold charge. destruct (N.ltb_spec limit (saturating_add counter units)); naive_solver lia.
Qed.

Lemma charge_Err counter units limit kind (at_ : ChargeLocation Nd Ed L) e :
  charge counter units limit kind at_ = Err e ->
  (limit < saturating_add counter units)%N /\
  e = BudgetExceeded kind limit (saturating_add counter units)
        (at_node at_) (at_edge at_) (at_location at_) (at_target at_).
Proof.
  unfold charge. destruct (N.ltb_spec limit (saturating_add counter units)); naive_solver.
Qed.

Lemma charge_total counter units limit kind (at_ : ChargeLocation Nd Ed L) :
  charge counter units limit kind at_ <> Panic /\ charge counter units limit kind at_ <> NoFuel.
Proof. unfold charge. case_match; done. Qed.

Lemma charge_fits counter units limit kind (at_ : ChargeLocation Nd Ed L) :
  (counter + units <= limit)%N -> (limit <= usize_max)%N ->
  charge counter units limit kind at_ = Ok (counter + units)%N.
Proof. intros. rewrite charge_Ok. unfold saturating_add. lia. Qed.
End Charging.

(** Opens the guards of a solver step that returned [Ok]. *)
Ltac solver_inv :=
  repeat (res_inv; match goal with
  | H : charge _ _ _ _ _ = Ok _ |- _ => apply charge_Ok in H as [-> ?]
  | H : charge_work _ _ _ _ = Ok _ |- _ => unfold charge_work in H
  | H : charge_work_edge _ _ _ _ _ = Ok _ |- _ => unfold charge_work_edge in H
  | H : charge_observation _ _ _ _ _ = Ok _ |- _ => unfold charge_observation in H
  | H : replace_state _ _ _ _ _ _ = Ok _ |- _ => unfold replace_state in H
  | H : (match ?p with pair _ _ => _ end) = Ok _ |- _ => is_var p; destruct p
  | H : (if ?b then Err _ else _) = Ok _ |- _ => destruct b eqn:?; [discriminate H|]
  end); res_inv; simplify_eq/=.

(** ** Refinement of the abstract worklist *)

Section Refine.
Context {Nd Ed L C S : Type} `{OrdKey Nd} `{OrdKey Ed} `{JoinSemilattice S}.
Context (g : DataflowGraph Nd Ed L C) (t : AdmittedTransfer (S:=S)) (b : QueryBudgets).

Abbreviation Loop := (Loop (Nd:=Nd) (Ed:=Ed) (C:=C) (S:=S)).

Definition abs (w : Loop) : gmap Nd S * gset Nd := (l_states w, l_pending w).

Lemma solve_seed_refines id seed (w w' : Loop) :
  solve_seed g b id seed w = Ok w' ->
  is_Some (g_nodes g !! id) /\ abs w' = join_into seed id (abs w).
Proof.
  unfold solve_seed, graph_node. destruct (g_nodes g !! id) as [node|] eqn:Hn; [|done].
  intros Hok. solver_inv. unfold abs, join_into. simpl.
  split; [done|]. match goal with H : l_states w !! id = Some _ |- _ => rewrite H end.
  case_decide; solver_inv; done.
Qed.

Lemma solve_seeds_refines seeds (w w' : Loop) :
  solve_seeds g b seeds w = Ok w' ->
  (forall ns, ns ∈ seeds -> is_Some (g_nodes g !! ns.1)) /\ abs w' = seed_all seeds (abs w).
Proof.
  revert w. induction seeds as [|[id seed] seeds IH]; intros w; simpl; intros Hok; res_inv.
  - subst. split; [|done]. intros ns Hns. by apply elem_of_nil in Hns.
  - apply IH in Hok as [Hin ->].
    match goal with Hs : solve_seed _ _ _ _ _ = Ok _ |- _ => apply solve_seed_refines in Hs as [Hid ->] end.
    split; [|done]. intros ns [->|]%elem_of_cons; auto.
Qed.

Lemma solve_edge_refines node_id loc output edge_id (w w' : Loop) :
  solve_edge g b node_id loc output edge_id w = Ok w' ->
  exists e, g_edges g !! edge_id = Some e /\ abs w' = join_into output (edge_succ e) (abs w).
Proof.
  unfold solve_edge, graph_edge. intros Hok. solver_inv. eexists. split; [done|].
  unfold abs, join_into. simpl in *.
  match goal with H : l_states w !! _ = Some _ |- _ => rewrite H end.
  case_decide; solver_inv; done.
Qed.

Lemma solve_edges_refines node_id loc output edges (w w' : Loop) :
  solve_edges g b node_id loc output edges w = Ok w' ->
  abs w' = join_all output (omap (fun id => (fun e => edge_succ e) <$> g_edges g !! id) edges) (abs w).
Proof.
  revert w. induction edges as [|id edges IH]; intros w; simpl; intros Hok; res_inv; [by subst|].
  apply IH in Hok as ->.
  match goal with Hs : solve_edge _ _ _ _ _ _ _ = Ok _ |- _ =>
    apply solve_edge_refines in Hs as (e & He & ->) end.
  by rewrite He.
Qed.

Context (HG : graph_wf g).

Lemma successors_edges n edges :
  graph_successors g n = Some edges -> edges = set_keys (out_edges (g_edges g) n).
Proof using HG.
  unfold graph_successors. rewrite (wf_successors _ HG).
  destruct (g_nodes g !! n); naive_solver.
Qed.

Lemma solve_visit_refines n rest (w w' : Loop) :
  pop_first (l_pending w) = Some (n, rest) ->
  solve_visit g t b n (with_pending w rest) = Ok w' ->
  wstep g (transfer t) (abs w) (abs w').
Proof using HG.
  intros Hpop Hok. unfold solve_visit in Hok. solver_inv.
  match goal with Hb : negb _ = false |- _ => apply negb_false_iff in Hb end.
  apply solve_edges_refines in Hok. rewrite Hok.
  match goal with Hs : graph_successors _ _ = Some _ |- _ => apply successors_edges in Hs as -> end.
  unfold abs. simpl in *. by econstructor.
Qed.

Lemma solve_loop_refines fuel (w w' : Loop) :
  solve_loop g t b fuel w = Ok w' ->
  rtc (wstep g (transfer t)) (abs w) (abs w') /\ l_pending w' = ∅.
Proof using HG.
  revert w. induction fuel as [|fuel IH]; intros w; simpl; [done|].
  destruct (pop_first (l_pending w)) as [[n rest]|] eqn:Hpop; intros Hok; res_inv.
  - apply IH in Hok as [Hsteps Hp]. split; [|done].
    eapply rtc_l; [|done]. by eapply solve_visit_refines.
  - subst. split; [reflexivity|]. by apply pop_first_None.
Qed.

Lemma bottom_states (bot : S) :
  list_to_map ((fun n => (node_id n, bot)) <$> graph_nodes g) = initial_states g bot.
Proof using HG.
  unfold initial_states. apply map_eq. intros n. rewrite lookup_fmap. apply option_eq. intros s.
  unfold graph_nodes, map_values. rewrite <- !list_fmap_compose.
  rewrite <- elem_of_list_to_map'.
  - rewrite list_elem_of_fmap, fmap_Some. split.
    + intros ([k nd] & [= -> ->] & Hx%elem_of_map_entries). simpl in *.
      exists nd. by rewrite (wf_node_id _ HG k nd Hx).
    + intros (nd & Hx & ->). exists (n, nd). simpl. rewrite (wf_node_id _ HG n nd Hx).
      split; [done|]. by apply elem_of_map_entries.
  - intros s' (? & [= ? ->] & _)%list_elem_of_fmap (? & [= ? ->] & _)%list_elem_of_fmap. done.
Qed.

Lemma solve_start_abs bot (w : Loop) :
  solve_start g b bot = Ok w -> abs w = (initial_states g bot, ∅).
Proof using HG. unfold solve_start. intros Hok. solver_inv. unfold abs. simpl. by rewrite bottom_states. Qed.

Lemma solve_refines fuel bot seeds sol :
  solve g t b fuel bot seeds = Ok sol ->
  (forall ns, ns ∈ seeds -> is_Some (g_nodes g !! ns.1)) /\
  rtc (wstep g (transfer t)) (seed_all seeds (initial_states g bot, ∅)) (sol_states sol, ∅).
Proof using HG.
  unfold solve. intros Hok. res_inv. subst sol.
  match goal with Hs : solve_start _ _ _ = Ok _ |- _ => apply solve_start_abs in Hs end.
  match goal with Hs : solve_seeds _ _ _ _ = Ok _ |- _ => apply solve_seeds_refines in Hs as [Hin Hs] end.
  match goal with Hl : solve_loop _ _ _ _ _ = Ok _ |- _ => apply solve_loop_refines in Hl as [Hl Hp] end.
  split; [done|]. unfold abs in *. simpl. congruence.
Qed.

End Refine.

(** ** Correctness of an accepted solve *)

Section Correct.
Context {Nd Ed L C S : Type} `{OrdKey Nd} `{OrdKey Ed} `{JoinSemilattice S}.

(** C1: Over a lawful lattice and an admitted lawful transfer, the states of
    an accepted solve are the least assignment that contains every seed and is
    closed under the edges leaving reached nodes; a node no seed reaches stays
    at bottom. *)
Theorem solve_least (g : DataflowGraph Nd Ed L C) (t : AdmittedTransfer (S:=S)) b fuel bot seeds sol :
  graph_wf g -> Lawful bot -> LawfulTransfer (transfer t) ->
  solve g t b fuel bot seeds = Ok sol ->
  LeastSolution g (transfer t) bot seeds (sol_states sol).
Proof.
  intros HG HL HT Hok. apply solve_refines in Hok as [Hin Hsteps]; [|done].
  eapply wsteps_least; eauto using seeded_WInv.
Qed.
End Correct.
