(* ===== verification/DataflowBounds.v ===== *)
(** * Bounds of the budgeted solver

    Safety, termination, budget and progress theorems for the solver of
    DataflowEngine.v. *)

From stdpp Require Import relations.
From S2P Require Import Prelude BTree Lattice DataflowGraph Budget Worklist DataflowEngine.

(** ** Charging never aborts *)

Section ChargeSafe.
Context {Nd Ed L S : Type} `{OrdKey Nd} `{JoinSemilattice S} (b : QueryBudgets).

Lemma charge_safe counter units limit kind (a : ChargeLocation Nd Ed L) :
  safe (charge counter units limit kind a).
Proof. unfold charge. by case_match. Qed.


Lemma charge_work_safe u n (loc : L) : safe (charge_work (Nd:=Nd) (Ed:=Ed) u b n loc).
Proof. unfold charge_work. apply safe_rbind; [apply charge_safe|done]. Qed.

Lemma charge_work_edge_safe u e (loc tl : L) : safe (charge_work_edge (Nd:=Nd) (Ed:=Ed) u b e loc tl).
Proof. unfold charge_work_edge. apply safe_rbind; [apply charge_safe|done]. Qed.

Lemma charge_observation_safe u e (loc tl : L) : safe (charge_observation (Nd:=Nd) (Ed:=Ed) u b e loc tl).
Proof. unfold charge_observation. apply safe_rbind; [apply charge_safe|done]. Qed.

Lemma replace_state_safe st n s u (loc : L) : safe (replace_state (Nd:=Nd) (Ed:=Ed) (S:=S) st n s u b loc).
Proof. unfold replace_state. apply safe_rbind; [apply charge_safe|done]. Qed.
End ChargeSafe.
#[export] Hint Resolve charge_safe charge_work_safe charge_work_edge_safe charge_observation_safe
  replace_state_safe : safe.

Section Bounds.
Context {Nd Ed L C S : Type} `{OrdKey Nd} `{OrdKey Ed} `{JoinSemilattice S}.
Context (g : DataflowGraph Nd Ed L C) (t : AdmittedTransfer (S:=S)) (b : QueryBudgets).

Abbreviation Loop := (Loop (Nd:=Nd) (Ed:=Ed) (C:=C) (S:=S)).

(** ** Usage stays within the budgets *)

Definition within (u : DataflowUsage) : Prop :=
  (usage_work u <= max_work b)%N /\ (usage_observations u <= max_observations b)%N /\
  (usage_depth u <= max_depth b)%N /\ (usage_output u <= max_output b)%N.

Lemma solve_seed_within id seed (w w' : Loop) :
  solve_seed g b id seed w = Ok w' -> within (l_usage w) -> within (l_usage w').
Proof.
  unfold solve_seed, graph_node, within. destruct (g_nodes g !! id); [|done].
  intros Hok. solver_inv. case_decide; solver_inv; tauto.
Qed.

Lemma solve_seeds_within seeds (w w' : Loop) :
  solve_seeds g b seeds w = Ok w' -> within (l_usage w) -> within (l_usage w').
Proof.
  revert w. induction seeds as [|[id seed] seeds IH]; intros w; simpl; intros Hok; res_inv;
    [by subst|eauto using solve_seed_within].
Qed.

Lemma solve_edge_within n loc out e (w w' : Loop) :
  solve_edge g b n loc out e w = Ok w' -> within (l_usage w) -> within (l_usage w').
Proof. unfold solve_edge, within. intros Hok. solver_inv. case_decide; solver_inv; tauto. Qed.

Lemma solve_edges_within n loc out es (w w' : Loop) :
  solve_edges g b n loc out es w = Ok w' -> within (l_usage w) -> within (l_usage w').
Proof.
  revert w. induction es as [|e es IH]; intros w; simpl; intros Hok; res_inv;
    [by subst|eauto using solve_edge_within].
Qed.

Lemma solve_visit_within n (w w' : Loop) :
  solve_visit g t b n w = Ok w' -> within (l_usage w) -> within (l_usage w').
Proof.
  unfold solve_visit. intros Hok Hw. solver_inv. apply solve_edges_within in Hok; [done|].
  unfold within in *. simpl in *. tauto.
Qed.

Lemma solve_loop_within fuel (w w' : Loop) :
  solve_loop g t b fuel w = Ok w' -> within (l_usage w) -> within (l_usage w').
Proof.
  revert w. induction fuel as [|fuel IH]; intros w; simpl; [done|].
  destruct (pop_first (l_pending w)) as [[n rest]|]; intros Hok Hw; res_inv; [|by subst].
  eapply IH; [done|]. match goal with Hv : solve_visit _ _ _ _ _ = Ok _ |- _ =>
    by eapply solve_visit_within in Hv end.
Qed.

Lemma solve_start_within bot (w : Loop) : solve_start g b bot = Ok w -> within (l_usage w).
Proof. unfold solve_start, within. intros Hok. solver_inv. split_and!; (done || lia). Qed.

(** ** Work grows *)

Lemma solve_edge_work n loc out e (w w' : Loop) :
  solve_edge g b n loc out e w = Ok w' -> (max_work b < usize_max)%N ->
  usage_work (l_usage w') = (usage_work (l_usage w) + 1)%N.
Proof.
  unfold solve_edge. intros Hok Hmax. solver_inv.
  case_decide; solver_inv; unfold saturating_add in *; lia.
Qed.

Lemma solve_edges_work n loc out es (w w' : Loop) :
  solve_edges g b n loc out es w = Ok w' -> (max_work b < usize_max)%N ->
  usage_work (l_usage w') = (usage_work (l_usage w) + len es)%N.
Proof.
  revert w. unfold len. induction es as [|e es IH]; intros w; simpl; intros Hok Hmax; res_inv.
  - subst. lia.
  - match goal with He : solve_edge _ _ _ _ _ _ _ = Ok _ |- _ =>
      apply solve_edge_work in He; [|done] end.
    apply IH in Hok; [lia|done].
Qed.

(** A visit is charged twice plus once per outgoing edge. *)
Lemma solve_visit_work n (w w' : Loop) :
  solve_visit g t b n w = Ok w' -> (max_work b < usize_max)%N ->
  exists es, graph_successors g n = Some es /\
  usage_work (l_usage w') = (usage_work (l_usage w) + 2 + len es)%N.
Proof.
  unfold solve_visit. intros Hok Hmax. solver_inv. eexists. split; [done|].
  apply solve_edges_work in Hok; [|done]. simpl in *. unfold saturating_add in *. lia.
Qed.

(** ** No aborts *)

Context (HG : graph_wf g).

(** Every node has a state. *)
Definition covered (w : Loop) : Prop := dom (l_states w) = dom (g_nodes g).

Lemma covered_lookup (w : Loop) n : covered w -> is_Some (g_nodes g !! n) -> is_Some (l_states w !! n).
Proof. intros Hc. rewrite <- !elem_of_dom. by rewrite Hc. Qed.

#[local] Hint Resolve covered_lookup : safe.

Lemma join_into_dom out n (sp : gmap Nd S * gset Nd) : dom (join_into out n sp).1 = dom sp.1.
Proof.
  unfold join_into. destruct (sp.1 !! n) eqn:Hn; [|done].
  case_decide; [done|]. simpl. rewrite dom_insert_lookup_L; eauto.
Qed.

Lemma solve_seed_safe id seed (w : Loop) : covered w -> safe (solve_seed g b id seed w).
Proof.
  intros Hc. unfold solve_seed, graph_node. destruct (g_nodes g !! id) eqn:Hid; [|done].
  safe_auto. 
Qed.

Lemma solve_edge_safe n loc out e (w : Loop) :
  covered w -> is_Some (g_edges g !! e) -> safe (solve_edge g b n loc out e w).
Proof using HG.
  intros Hc He. unfold solve_edge, graph_edge, graph_node. destruct He as [ed He]. rewrite He. simpl.
  destruct (wf_endpoints _ HG _ _ He) as [_ Ht]. safe_auto.
Qed.

(** The states cover the graph and everything pending is a node of it. *)
Definition sound (w : Loop) : Prop :=
  covered w /\ forall n, n ∈ l_pending w -> is_Some (g_nodes g !! n).

Lemma join_into_sound out n (w w' : Loop) :
  is_Some (g_nodes g !! n) -> abs w' = join_into out n (abs w) -> sound w -> sound w'.
Proof.
  intros Hn Habs [Hc Hp]. unfold abs in Habs. split.
  - unfold covered. change (l_states w') with (l_states w', l_pending w').1.
    rewrite Habs, join_into_dom. done.
  - intros k. change (l_pending w') with (l_states w', l_pending w').2. rewrite Habs.
    unfold join_into. simpl. repeat case_match; simpl; try apply Hp.
    intros [->%elem_of_singleton|Hk]%elem_of_union; auto.
Qed.

Lemma solve_seed_sound id seed (w w' : Loop) :
  solve_seed g b id seed w = Ok w' -> sound w -> sound w'.
Proof. intros [Hid Habs]%solve_seed_refines. by eapply join_into_sound. Qed.

Lemma solve_edge_sound n loc out e (w w' : Loop) :
  solve_edge g b n loc out e w = Ok w' -> sound w -> sound w'.
Proof using HG.
  intros (ed & He & Habs)%solve_edge_refines. eapply join_into_sound; [|done].
  by apply (wf_endpoints _ HG e).
Qed.

Lemma solve_seeds_safe seeds (w : Loop) :
  sound w -> safe (solve_seeds g b seeds w) /\ forall w', solve_seeds g b seeds w = Ok w' -> sound w'.
Proof.
  revert w. induction seeds as [|[id seed] seeds IH]; intros w Hw; simpl; [naive_solver|]. split.
  - apply safe_rbind; [apply solve_seed_safe, Hw|]. intros w1 H1'. apply IH. by eapply solve_seed_sound.
  - intros w' Hok. res_inv. eapply IH; [|done]. by eapply solve_seed_sound.
Qed.

Lemma solve_edges_safe n loc out es (w : Loop) :
  sound w -> (forall e, e ∈ es -> is_Some (g_edges g !! e)) ->
  safe (solve_edges g b n loc out es w) /\
  forall w', solve_edges g b n loc out es w = Ok w' -> sound w'.
Proof using HG.
  revert w. induction es as [|e es IH]; intros w Hw Hes; simpl; [naive_solver|].
  assert (forall e, e ∈ es -> is_Some (g_edges g !! e)) as Hes' by (intros; apply Hes; by right).
  split.
  - apply safe_rbind; [apply solve_edge_safe; [apply Hw|apply Hes; left]|].
    intros w1 H1'. apply IH; [by eapply solve_edge_sound|done].
  - intros w' Hok. res_inv. eapply IH; [|done|done]. by eapply solve_edge_sound.
Qed.

Lemma successors_known n es :
  graph_successors g n = Some es -> forall e, e ∈ es -> is_Some (g_edges g !! e).
Proof using HG.
  intros ->%(successors_edges g HG) e (ed & He & _)%elem_of_out_edges. eauto.
Qed.

Lemma successors_some n : is_Some (g_nodes g !! n) -> is_Some (graph_successors g n).
Proof using HG. intros [x Hx]. unfold graph_successors. rewrite (wf_successors _ HG), Hx. eauto. Qed.

Lemma solve_visit_safe n (w : Loop) :
  sound w -> is_Some (g_nodes g !! n) ->
  safe (solve_visit g t b n w) /\ forall w', solve_visit g t b n w = Ok w' -> sound w'.
Proof using HG.
  intros Hw Hn. pose proof (covered_lookup w n (proj1 Hw) Hn) as Hs.
  pose proof (successors_some n Hn) as Hsucc.
  unfold solve_visit, graph_node. split.
  - safe_auto. eapply solve_edges_safe; [exact Hw|].
    match goal with Hx : expect _ = Ok _ |- _ => apply expect_Ok in Hx; by eapply successors_known end.
  - intros w' Hok. solver_inv. eapply solve_edges_safe; [| |exact Hok]; [exact Hw|].
    by eapply successors_known.
Qed.

Lemma sound_pop (w : Loop) n rest :
  sound w -> pop_first (l_pending w) = Some (n, rest) ->
  sound (with_pending w rest) /\ is_Some (g_nodes g !! n).
Proof.
  clear HG. intros [Hc Hp] (Hn & -> & _)%pop_first_Some. split; [|by apply Hp].
  split; [done|]. simpl. intros k Hk. apply Hp. set_solver.
Qed.

Lemma solve_loop_no_panic fuel (w : Loop) : sound w -> solve_loop g t b fuel w <> Panic.
Proof using HG.
  revert w. induction fuel as [|fuel IH]; intros w Hw; simpl; [done|].
  destruct (pop_first (l_pending w)) as [[n rest]|] eqn:Hpop; [|done].
  destruct (sound_pop w n rest Hw Hpop) as [Hw' Hn].
  destruct (solve_visit_safe n _ Hw' Hn) as [Hsafe Hnext].
  rewrite rbind_Panic. intros [Hbad|(w1 & H1' & Hbad)].
  - by rewrite Hbad in Hsafe.
  - eapply IH; [|done]. auto.
Qed.

Lemma solve_loop_fuel fuel (w : Loop) :
  sound w -> within (l_usage w) -> (max_work b < usize_max)%N ->
  N.to_nat (max_work b - usage_work (l_usage w)) < fuel ->
  solve_loop g t b fuel w <> NoFuel.
Proof using HG.
  revert w. induction fuel as [|fuel IH]; intros w Hw Hin Hmax Hfuel; simpl; [lia|].
  destruct (pop_first (l_pending w)) as [[n rest]|] eqn:Hpop; [|done].
  destruct (sound_pop w n rest Hw Hpop) as [Hw' Hn].
  destruct (solve_visit_safe n _ Hw' Hn) as [Hsafe Hnext].
  rewrite rbind_NoFuel. intros [Hbad|(w1 & Hv & Hbad)]; [by rewrite Hbad in Hsafe|].
  pose proof (solve_visit_within _ _ _ Hv Hin) as Hin1.
  destruct (solve_visit_work _ _ _ Hv Hmax) as (es & _ & Hwork). simpl in Hwork.
  eapply IH; [by apply Hnext|done|done| |done]. destruct Hin1 as [Hb _]. lia.
Qed.

Lemma graph_nodes_head : is_Some (head (graph_nodes g)).
Proof using HG.
  destruct (graph_nodes g) as [|x l] eqn:Hg; [|by eexists]. exfalso.
  apply (wf_nonempty _ HG), map_empty. intros k.
  destruct (g_nodes g !! k) as [n|] eqn:Hk; [|done].
  assert (n ∈ graph_nodes g) as Hin; [|rewrite Hg in Hin; by apply elem_of_nil in Hin].
  unfold graph_nodes, map_values. apply list_elem_of_fmap. exists (k, n).
  split; [done|]. by apply elem_of_map_entries.
Qed.

Lemma solve_start_safe bot : safe (solve_start (Ed:=Ed) g b bot).
Proof using HG.
  pose proof graph_nodes_head as Hh. unfold solve_start, first_location. safe_auto.
Qed.

Lemma solve_start_sound bot (w : Loop) : solve_start g b bot = Ok w -> sound w.
Proof using HG.
  intros Habs%solve_start_abs; [|done]. unfold abs in Habs. injection Habs as Hst Hp.
  split; [|rewrite Hp; set_solver]. unfold covered. rewrite Hst. unfold initial_states. apply dom_fmap_L.
Qed.
End Bounds.

Section Theorems.
Context {Nd Ed L C S : Type} `{OrdKey Nd} `{OrdKey Ed} `{JoinSemilattice S}.
Implicit Types (g : DataflowGraph Nd Ed L C) (t : AdmittedTransfer (S:=S)).

(** On a built graph the solver never aborts: every index and [expect] in
    its loops is justified, whatever the lattice, policy, seeds and budgets. *)
Theorem solve_no_panic nodes edges g t b fuel bot seeds
    `{FingerprintValue (gmap Nd (Node Nd L) * gmap Ed (Edge Ed Nd C))} :
  build nodes edges = Ok g -> solve g t b fuel bot seeds <> Panic.
Proof.
  intros HG%build_wf. unfold solve. rewrite !rbind_Panic.
  intros [Hbad|(w & Hw & [Hbad|(w' & Hw' & [Hbad|(w'' & _ & [=])]%rbind_Panic)]%rbind_Panic)].
  - pose proof (solve_start_safe g b HG bot) as Hs. by rewrite Hbad in Hs.
  - apply solve_start_sound in Hw; [|done].
    destruct (solve_seeds_safe g b seeds w Hw) as [Hs _]. by rewrite Hbad in Hs.
  - apply solve_start_sound in Hw; [|done].
    destruct (solve_seeds_safe g b seeds w Hw) as [_ Hs].
    by apply (solve_loop_no_panic g t b HG fuel w'); [apply Hs|].
Qed.

(** The work budget is the termination argument: below the saturation
    point of the counter, as many loop iterations as the budget has units are
    enough, for every graph, lattice and policy, lawful or not. *)
Theorem solve_terminates g t b fuel bot seeds :
  graph_wf g -> (max_work b < usize_max)%N -> N.to_nat (max_work b) < fuel ->
  solve g t b fuel bot seeds <> NoFuel.
Proof.
  intros HG Hmax Hfuel. unfold solve. rewrite !rbind_NoFuel.
  intros [Hbad|(w & Hw & [Hbad|(w' & Hw' & [Hbad|(w'' & _ & [=])]%rbind_NoFuel)]%rbind_NoFuel)].
  - pose proof (solve_start_safe g b HG bot) as Hs. by rewrite Hbad in Hs.
  - apply solve_start_sound in Hw; [|done].
    destruct (solve_seeds_safe g b seeds w Hw) as [Hs _]. by rewrite Hbad in Hs.
  - pose proof (solve_start_within g b bot w Hw) as Hin. apply solve_start_sound in Hw; [|done].
    pose proof (solve_seeds_within g b seeds w w' Hw' Hin) as Hin'.
    destruct (solve_seeds_safe g b seeds w Hw) as [_ Hs].
    eapply (solve_loop_fuel g t b HG fuel w'); [by apply Hs|done|done| |done]. lia.
Qed.

(** An accepted solve has consumed no more of any resource than its
    budget allows. *)
Theorem solve_within_budgets g t b fuel bot seeds sol :
  solve g t b fuel bot seeds = Ok sol -> within b (sol_usage sol).
Proof.
  unfold solve. intros Hok. res_inv. subst sol. simpl.
  eapply solve_loop_within; [done|]. eapply solve_seeds_within; [done|]. by eapply solve_start_within.
Qed.
End Theorems.

(** ** Completeness of the budgeted solver

    Over a lattice of finite height the solver of DataflowEngine.v returns a
    solution whenever its budgets cover an explicit bound: every visit pays for
    a node that was raised, and a node can be raised only as often as the
    lattice is high. *)

(** A lattice whose strict chains are bounded: [height] grows along them. *)
Record FiniteHeight (S : Type) `{JoinSemilattice S} (height : S -> nat) (hmax : nat) : Prop := {
  height_strict : forall a b, less_equal a b = true -> a <> b -> height a < height b;
  height_max : forall a, height a <= hmax;
}.

Section Slack.
Context {Nd S : Type} `{OrdKey Nd} (height : S -> nat) (hmax : nat).

(** How far all states together still are from the top. *)
Definition slack (st : gmap Nd S) : nat := map_fold (fun _ s acc => (hmax - height s) + acc) 0 st.

Lemma slack_insert_fresh (st : gmap Nd S) n s :
  st !! n = None -> slack (<[n := s]> st) = (hmax - height s) + slack st.
Proof. intros Hn. unfold slack. rewrite map_fold_insert_L; [done| |done]. intros; lia. Qed.

Lemma slack_insert (st : gmap Nd S) n cur s :
  st !! n = Some cur -> slack (<[n := s]> st) + (hmax - height cur) = slack st + (hmax - height s).
Proof.
  intros Hn. rewrite <- (insert_delete_id st n cur Hn) at 2.
  rewrite <- insert_delete_eq, !slack_insert_fresh by apply lookup_delete_eq. lia.
Qed.

Lemma slack_le_size (st : gmap Nd S) : slack st <= size st * hmax.
Proof.
  induction st as [|n s st Hn IH] using map_ind.
  - by rewrite map_size_empty.
  - rewrite slack_insert_fresh, map_size_insert_None by done. simpl. lia.
Qed.
End Slack.

Section Progress.
Context {Nd Ed L C S : Type} `{OrdKey Nd} `{OrdKey Ed} `{JoinSemilattice S}.
Context (g : DataflowGraph Nd Ed L C) (t : AdmittedTransfer (S:=S)) (b : QueryBudgets) (bot : S).
Context (height : S -> nat) (hmax : nat) (M : N).
Context (HL : Lawful bot) (HF : FiniteHeight S height hmax) (HM : forall s : S, (state_size s <= M)%N).

Abbreviation Loop := (Loop (Nd:=Nd) (Ed:=Ed) (C:=C) (S:=S)).
Abbreviation slack := (slack height hmax).

(** Visits still to pay for: what is pending and what may yet be raised. *)
Definition debt (w : Loop) : N := N.of_nat (size (l_pending w) + slack (l_states w)).
Definition headroom (w : Loop) : N := N.of_nat (slack (l_states w)).
Definition edge_count : N := N.of_nat (size (g_edges g)).

(** The output budget covers every raise still possible. *)
Definition output_covered (w : Loop) : Prop :=
  (usage_output (l_usage w) + M * headroom w <= max_output b)%N.

(** The budgets, as bounded machine words. *)
Definition machine_budgets : Prop :=
  (max_work b <= usize_max /\ max_observations b <= usize_max /\
   max_depth b <= usize_max /\ max_output b <= usize_max)%N.

Context (HB : machine_budgets).

(** What one raise does to the accounts. *)
Lemma raise_accounts (w : Loop) n cur out cause limit u :
  l_states w !! n = Some cur -> join cur out <> cur ->
  let w' := raise_node (with_usage w u) (<[n := join cur out]> (l_states w)) n cause limit in
  (headroom w' + 1 <= headroom w)%N /\ (debt w' <= debt w)%N.
Proof using HL HF.
  intros Hn Hj w'. unfold headroom, debt, w'. simpl.
  pose proof (slack_insert height hmax (l_states w) n cur (join cur out) Hn) as Hs.
  pose proof (height_strict _ _ _ HF cur (join cur out) (join_ub_l HL _ _)) as Hh.
  pose proof (height_max _ _ _ HF (join cur out)).
  pose proof (size_insert_le (l_pending w) n) as Hsz.
  specialize (Hh (not_eq_sym Hj)). lia.
Qed.

(** One propagation succeeds when its two charges fit. *)
Lemma solve_edge_ok n loc out e ed (w : Loop) :
  graph_wf g -> covered g w -> g_edges g !! e = Some ed ->
  (usage_work (l_usage w) + 1 <= max_work b)%N ->
  (usage_observations (l_usage w) + 1 <= max_observations b)%N ->
  output_covered w ->
  exists w', solve_edge g b n loc out e w = Ok w' /\
    usage_work (l_usage w') = (usage_work (l_usage w) + 1)%N /\
    usage_observations (l_usage w') = (usage_observations (l_usage w) + 1)%N /\
    output_covered w' /\ (debt w' <= debt w)%N.
Proof using HL HF HM HB.
  intros HG Hc He Hwork Hobs Hout. destruct HB as (Hb1 & Hb2 & _ & Hb4).
  destruct (wf_endpoints _ HG _ _ He) as [_ Ht].
  destruct (covered_lookup g w _ Hc Ht) as [cur Hcur]. destruct Ht as [target Ht].
  unfold solve_edge, graph_edge, graph_node. rewrite He; simpl; rewrite Ht; simpl.
  unfold charge_observation. rewrite charge_fits by done. simpl.
  unfold charge_work_edge. rewrite charge_fits by done. simpl. rewrite Hcur. simpl.
  rewrite (join_ub_l HL), (join_ub_r HL). simpl. case_decide as Hj.
  { eexists. split; [done|]. simpl. split_and!; try done. }
  unfold output_covered in Hout.
  pose proof (raise_accounts w (edge_succ ed) cur out {| cause_node := n; cause_edge := Some e |}
                (max_explanation_causes b) (l_usage w) Hcur Hj) as [Hh Hd].
  unfold headroom, debt in *. simpl in *. pose proof (HM (join cur out)).
  unfold replace_state. rewrite charge_fits by (simpl; nia). simpl.
  eexists. split; [done|]. unfold output_covered, headroom. simpl. split_and!; try done. nia.
Qed.

Lemma solve_edges_ok n loc out es (w : Loop) :
  graph_wf g -> sound g w -> (forall e, e ∈ es -> is_Some (g_edges g !! e)) ->
  (usage_work (l_usage w) + len es <= max_work b)%N ->
  (usage_observations (l_usage w) + len es <= max_observations b)%N ->
  output_covered w ->
  exists w', solve_edges g b n loc out es w = Ok w' /\
    usage_work (l_usage w') = (usage_work (l_usage w) + len es)%N /\
    usage_observations (l_usage w') = (usage_observations (l_usage w) + len es)%N /\
    output_covered w' /\ (debt w' <= debt w)%N.
Proof using HL HF HM HB.
  intros HG. unfold len. revert w. induction es as [|e es IH]; intros w Hw Hes Hwork Hobs Hout; simpl in *.
  - exists w. split_and!; try done; lia.
  - destruct (Hes e) as [ed Hed]; [left|].
    edestruct (solve_edge_ok n loc out e ed w) as (w1 & Hok & Hw1 & Ho1 & Hc1 & Hd1);
      [done|apply Hw|done|lia|lia|done|]. rewrite Hok. simpl.
    edestruct (IH w1) as (w2 & Hok2 & Hw2 & Ho2 & Hc2 & Hd2);
      [by eapply solve_edge_sound|intros; apply Hes; by right|lia|lia|done|].
    exists w2. split_and!; [done|lia|lia|done|lia].
Qed.

(** The work and observation budgets cover every visit still owed. *)
Definition visits_covered (w : Loop) : Prop :=
  (usage_work (l_usage w) + (2 + edge_count) * debt w <= max_work b)%N /\
  (usage_observations (l_usage w) + edge_count * debt w <= max_observations b)%N.

Lemma successors_count n es : graph_wf g -> graph_successors g n = Some es -> (len es <= edge_count)%N.
Proof.
  intros HG ->%(successors_edges g HG). unfold len, edge_count. rewrite length_set_keys.
  unfold out_edges. rewrite size_dom. pose proof (map_subseteq_size _ (g_edges g)
    (map_filter_subseteq (fun ie => edge_pred ie.2 = n) (g_edges g))). lia.
Qed.

Lemma debt_pop (w : Loop) n rest :
  pop_first (l_pending w) = Some (n, rest) -> debt w = (debt (with_pending w rest) + 1)%N.
Proof. intros Hs%pop_first_size. unfold debt. simpl. lia. Qed.

Lemma solve_visit_ok n rest (w : Loop) :
  graph_wf g -> LawfulTransfer (transfer t) -> sound g w ->
  pop_first (l_pending w) = Some (n, rest) ->
  visits_covered w -> output_covered w ->
  exists w', solve_visit g t b n (with_pending w rest) = Ok w' /\
    sound g w' /\ visits_covered w' /\ output_covered w' /\ (debt w' < debt w)%N.
Proof using HL HF HM HB.
  intros HG HT Hw Hpop [Hv1 Hv2] Hout. destruct HB as (Hb1 & Hb2 & _ & _).
  destruct (sound_pop g w n rest Hw Hpop) as [Hw' Hn].
  destruct (covered_lookup g (with_pending w rest) n (proj1 Hw') Hn) as [s Hs].
  destruct (successors_some g HG n Hn) as [es Hes]. pose proof (successors_count n es HG Hes) as Hlen.
  rewrite (debt_pop w n rest Hpop) in *.
  destruct Hn as [node Hn]. unfold solve_visit, graph_node. rewrite Hn. simpl.
  unfold charge_work. rewrite charge_fits by (simpl; nia). simpl.
  rewrite charge_fits by (simpl; nia). simpl. simpl in Hs. rewrite Hs. simpl.
  rewrite (transfer_progress _ _ HT) by done. simpl. rewrite Hes. simpl.
  match goal with |- context [solve_edges _ _ _ _ _ _ ?w0] => set (w1 := w0) end.
  edestruct (solve_edges_ok n (node_location node) (transfer t s) es w1)
    as (w' & Hok & Hwork & Hobs & Hc & Hd); [done|exact Hw'|by eapply successors_known| | |exact Hout|].
  { simpl. nia. }
  { simpl. nia. }
  exists w'. rewrite Hok. split; [done|]. change (debt w1) with (debt (with_pending w rest)) in Hd.
  split_and!; [|split|done|lia].
  - eapply (solve_edges_safe g b HG n _ _ es w1); [exact Hw'|by eapply successors_known|done].
  - rewrite Hwork. simpl. nia.
  - rewrite Hobs. simpl. nia.
Qed.

Lemma solve_loop_ok fuel (w : Loop) :
  graph_wf g -> LawfulTransfer (transfer t) -> sound g w ->
  visits_covered w -> output_covered w -> N.to_nat (debt w) < fuel ->
  exists w', solve_loop g t b fuel w = Ok w'.
Proof using HL HF HM HB.
  intros HG HT. revert w. induction fuel as [|fuel IH]; intros w Hw Hv Ho Hfuel; [lia|]. simpl.
  destruct (pop_first (l_pending w)) as [[n rest]|] eqn:Hpop; [|by eexists].
  destruct (solve_visit_ok n rest w HG HT Hw Hpop Hv Ho) as (w' & -> & Hw' & Hv' & Ho' & Hd). simpl.
  apply IH; try done. lia.
Qed.

(** Seeding costs one work unit per seed and never increases the debt. *)
Lemma solve_seed_ok id seed (w : Loop) :
  sound g w -> is_Some (g_nodes g !! id) ->
  (usage_work (l_usage w) + 1 <= max_work b)%N -> output_covered w ->
  exists w', solve_seed g b id seed w = Ok w' /\
    usage_work (l_usage w') = (usage_work (l_usage w) + 1)%N /\
    usage_observations (l_usage w') = usage_observations (l_usage w) /\
    output_covered w' /\ (debt w' <= debt w)%N.
Proof using HL HF HM HB.
  intros Hw Hn Hwork Hout. destruct HB as (Hb1 & _ & _ & Hb4).
  destruct (covered_lookup g w id (proj1 Hw) Hn) as [cur Hcur]. destruct Hn as [node Hn].
  unfold solve_seed, graph_node. rewrite Hn, Hcur. simpl.
  unfold charge_work. rewrite charge_fits by done. simpl.
  rewrite (join_ub_l HL), (join_ub_r HL). simpl. case_decide as Hj.
  { eexists. split; [done|]. simpl. split_and!; done. }
  unfold output_covered in Hout.
  pose proof (raise_accounts w id cur seed {| cause_node := id; cause_edge := None |}
                (max_explanation_causes b) (l_usage w) Hcur Hj) as [Hh Hd].
  unfold headroom, debt in *. simpl in *. pose proof (HM (join cur seed)).
  unfold replace_state. rewrite charge_fits by (simpl; nia). simpl.
  eexists. split; [done|]. unfold output_covered, headroom. simpl. split_and!; try done. nia.
Qed.

Lemma solve_seeds_ok seeds (w : Loop) :
  sound g w -> (forall ns, ns ∈ seeds -> is_Some (g_nodes g !! ns.1)) ->
  (usage_work (l_usage w) + len seeds <= max_work b)%N -> output_covered w ->
  exists w', solve_seeds g b seeds w = Ok w' /\
    usage_work (l_usage w') = (usage_work (l_usage w) + len seeds)%N /\
    usage_observations (l_usage w') = usage_observations (l_usage w) /\
    output_covered w' /\ (debt w' <= debt w)%N.
Proof using HL HF HM HB.
  unfold len. revert w. induction seeds as [|[id seed] seeds IH]; intros w Hw Hs Hwork Hout; simpl in *.
  - exists w. split_and!; (done || lia).
  - edestruct (solve_seed_ok id seed w) as (w1 & Hok & Hw1 & Ho1 & Hc1 & Hd1);
      [done|apply (Hs (id, seed)); left|lia|done|]. rewrite Hok. simpl.
    edestruct (IH w1) as (w2 & Hok2 & Hw2 & Ho2 & Hc2 & Hd2);
      [by eapply solve_seed_sound|intros; apply Hs; by right|lia|done|].
    exists w2. split_and!; [done|lia|congruence|done|lia].
Qed.
End Progress.

Section Completes.
Context {Nd Ed L C S : Type} `{OrdKey Nd} `{OrdKey Ed} `{JoinSemilattice S}.

(** Budgets that cover a graph of [n] nodes and [e] edges, [k] seeds, a lattice
    of height [h] and states of at most [m] bytes. *)
Definition budgets_cover (b : QueryBudgets) (n e k h m size_bot : N) : Prop :=
  (k + (2 + e) * (n * h) <= max_work b /\ e * (n * h) <= max_observations b /\
   n <= max_depth b /\ size_bot * n + m * (n * h) <= max_output b)%N.

Lemma length_graph_nodes (g : DataflowGraph Nd Ed L C) : length (graph_nodes g) = size (g_nodes g).
Proof.
  unfold graph_nodes, map_values, map_entries. rewrite length_fmap.
  rewrite <- size_dom, <- length_set_keys. fold (map_keys (g_nodes g)).
  assert (forall k, k ∈ map_keys (g_nodes g) -> is_Some (g_nodes g !! k)) as Hall
    by (intros k; by rewrite elem_of_map_keys).
  induction (map_keys (g_nodes g)) as [|k ks IH]; [done|]. simpl.
  destruct (Hall k) as [x Hx]; [left|]. rewrite Hx. simpl. f_equal. apply IH.
  intros; apply Hall; by right.
Qed.

(** C40: Over a lattice of finite height, a solve whose seeds name nodes and
    whose budgets cover the stated bound returns a solution; the number of
    loop iterations is at most nodes times height. *)
Theorem solve_completes (g : DataflowGraph Nd Ed L C) (t : AdmittedTransfer (S:=S)) b bot seeds
    (height : S -> nat) hmax M fuel :
  graph_wf g -> Lawful bot -> LawfulTransfer (transfer t) ->
  FiniteHeight S height hmax -> (forall s : S, (state_size s <= M)%N) -> machine_budgets b ->
  (forall ns, ns ∈ seeds -> is_Some (g_nodes g !! ns.1)) ->
  budgets_cover b (N.of_nat (size (g_nodes g))) (N.of_nat (size (g_edges g))) (len seeds)
    (N.of_nat hmax) M (state_size bot) ->
  size (g_nodes g) * hmax < fuel ->
  exists sol, solve g t b fuel bot seeds = Ok sol.
Proof.
  intros HG HL HT HF HM HB Hs (Hc1 & Hc2 & Hc3 & Hc4) Hfuel.
  assert (exists w, solve_start (Ed:=Ed) g b bot = Ok w /\
    usage_work (l_usage w) = 0%N /\ usage_observations (l_usage w) = 0%N /\
    usage_output (l_usage w) = (state_size bot * N.of_nat (size (g_nodes g)))%N /\
    l_pending w = ∅) as (w & Hw & Hwork & Hobs & Hout & Hpend).
  { destruct (graph_nodes_head g HG) as [n0 Hn0]. destruct HB as (_ & _ & Hb3 & Hb4).
    unfold solve_start, first_location. rewrite Hn0. simpl.
    unfold len. rewrite length_graph_nodes.
    assert (saturating_mul (state_size bot) (N.of_nat (size (g_nodes g))) =
            state_size bot * N.of_nat (size (g_nodes g)))%N as -> by (unfold saturating_mul; nia).
    rewrite !charge_fits by (cbn [usage_depth usage_output usage_default]; nia). cbn [rbind].
    eexists. split; [done|]. cbn. done. }
  pose proof (solve_start_sound g b HG bot w Hw) as Hsound.
  assert (size (l_states w) = size (g_nodes g)) as Hsz
    by (rewrite <- !size_dom; f_equal; apply Hsound).
  pose proof (slack_le_size height hmax (l_states w)) as Hslack. rewrite Hsz in Hslack.
  assert (debt height hmax w <= N.of_nat (size (g_nodes g) * hmax))%N as Hdebt.
  { unfold debt. rewrite Hpend, size_empty. lia. }
  edestruct (solve_seeds_ok g b bot height hmax M HL HF HM HB seeds w)
    as (w' & Hw' & Hwork' & Hobs' & Hout' & Hdebt'); [done|done|rewrite Hwork; nia| |].
  { unfold output_covered, headroom. rewrite Hout. nia. }
  edestruct (solve_loop_ok g t b bot height hmax M HL HF HM HB fuel w') as [w'' Hw''];
    [done|done|by eapply (solve_seeds_safe g b)| |done|lia|].
  { unfold visits_covered, edge_count. rewrite Hwork', Hobs', Hwork, Hobs. split; nia. }
  exists (finish w''). unfold solve. rewrite Hw; simpl. rewrite Hw'; simpl. by rewrite Hw''.
Qed.
End Completes.
