(* ===== verification/Resumable.v ===== *)
(** * Resumable solving

    crates/sim-incremental-core/src/dataflow/engine/execution.rs,
    [FixpointEngine::start_resumable], [resume] and [resume_bound]: a solve cut
    into slices of whole node visits, suspended as a content-bound
    continuation.  The theorems say that slicing is unobservable, that a
    completed sequence of slices is the least solution, that it agrees with the
    budgeted solve event for event, and that a continuation is refused as soon
    as one of its bound inputs changed. *)

From stdpp Require Import relations.
From S2P Require Import Prelude BTree Lattice DataflowGraph Budget Worklist DataflowEngine DataflowBounds.

Record DataflowContinuation (Nd Ed C S : Type) `{OrdKey Nd} := {
  cont_token : N;
  cont_graph : N;
  cont_policy : N;
  cont_dependencies : N;
  cont_states : gmap Nd S;
  cont_pending : gset Nd;
  cont_events : list (DataflowEvent Nd Ed C);
  cont_causes : gmap Nd (CausalRecord Nd Ed);
  cont_cause_limit : N;
  cont_usage : DataflowUsage;
}.
Arguments cont_token {Nd Ed C S _}.
Arguments cont_graph {Nd Ed C S _}.
Arguments cont_policy {Nd Ed C S _}.
Arguments cont_dependencies {Nd Ed C S _}.
Arguments cont_states {Nd Ed C S _}.
Arguments cont_pending {Nd Ed C S _}.
Arguments cont_events {Nd Ed C S _}.
Arguments cont_causes {Nd Ed C S _}.
Arguments cont_cause_limit {Nd Ed C S _}.
Arguments cont_usage {Nd Ed C S _}.

Inductive DataflowProgress (Nd Ed C S : Type) `{OrdKey Nd} :=
| Complete (s : DataflowSolution Nd Ed C S)
| Suspended (c : DataflowContinuation Nd Ed C S).
Arguments Complete {Nd Ed C S _} s.
Arguments Suspended {Nd Ed C S _} c.

Record ContinuationIdentity := {
  id_graph : N;
  id_policy : N;
  id_dependencies : N;
}.

Section Resumable.
Context {Nd Ed L C S : Type} `{OrdKey Nd} `{OrdKey Ed} `{JoinSemilattice S}.

(** What a continuation token is hashed from. *)
Abbreviation token_input :=
  (N * N * N * gmap Nd S * gset Nd * list (DataflowEvent Nd Ed C) * gmap Nd (CausalRecord Nd Ed) * N)%type.

Context `{FingerprintValue (S * gmap Nd S)} `{FingerprintValue token_input}.
Context (g : DataflowGraph Nd Ed L C) (t : AdmittedTransfer (S:=S)).

Abbreviation err := (DataflowError Nd Ed L).
Abbreviation Loop := (Loop (Nd:=Nd) (Ed:=Ed) (C:=C) (S:=S)).
Abbreviation progress := (DataflowProgress Nd Ed C S).
Abbreviation continuation := (DataflowContinuation Nd Ed C S).

Definition make_continuation (i : ContinuationIdentity) (w : Loop) (cause_limit : N) : continuation := {|
  cont_token := incremental_fingerprint
    (id_graph i, id_policy i, id_dependencies i, l_states w, l_pending w, l_events w, l_causes w, cause_limit);
  cont_graph := id_graph i;
  cont_policy := id_policy i;
  cont_dependencies := id_dependencies i;
  cont_states := l_states w;
  cont_pending := l_pending w;
  cont_events := l_events w;
  cont_causes := l_causes w;
  cont_cause_limit := cause_limit;
  cont_usage := l_usage w;
|}.

(** The loop's variables out of a continuation. *)
Definition open_continuation (c : continuation) : Loop := {|
  l_states := cont_states c;
  l_pending := cont_pending c;
  l_events := cont_events c;
  l_usage := cont_usage c;
  l_causes := cont_causes c;
|}.

Definition cont_identity (c : continuation) : ContinuationIdentity :=
  {| id_graph := cont_graph c; id_policy := cont_policy c; id_dependencies := cont_dependencies c |}.

Definition resume_edge (limit : N) (node_id : Nd) (output : S) (edge_id : Ed) (w : Loop) : Res err Loop :=
  let? edge := expect (graph_edge g edge_id) in
  let target_id := edge_succ edge in
  let u := l_usage w in
  let u := set_observations u (saturating_add (usage_observations u) 1) in
  let u := set_work u (saturating_add (usage_work u) 1) in
  let w := push_event (with_usage w u) (Propagate edge_id (edge_class edge)) in
  let? cur := expect (l_states w !! target_id) in
  let joined := join cur output in
  if decide (joined = cur) then Ok w
  else
    let u := set_output (l_usage w) (saturating_add (usage_output (l_usage w)) (state_size joined)) in
    Ok (raise_node (with_usage w u) (<[target_id := joined]> (l_states w)) target_id
          {| cause_node := node_id; cause_edge := Some edge_id |} limit).

Fixpoint resume_edges (limit : N) (node_id : Nd) (output : S) (edges : list Ed) (w : Loop) : Res err Loop :=
  match edges with
  | [] => Ok w
  | e :: rest => let? w := resume_edge limit node_id output e w in resume_edges limit node_id output rest w
  end.

Definition resume_visit (limit : N) (node_id : Nd) (w : Loop) : Res err Loop :=
  let u := set_work (l_usage w) (saturating_add (usage_work (l_usage w)) 2) in
  let w := push_event (with_usage w u) (Visit node_id) in
  let? s := expect (l_states w !! node_id) in
  let output := transfer t s in
  let? node := expect (graph_node g node_id) in
  if negb (less_equal s output) then Err (NodeFailure TransferFailure node_id (node_location node))
  else
    let? edges := expect (graph_successors g node_id) in
    resume_edges limit node_id output edges w.

(** [while visits < max_visits]; the remaining visits are the recursion. *)
Fixpoint resume_loop (visits : nat) (i : ContinuationIdentity) (limit : N) (w : Loop) : Res err progress :=
  match visits with
  | O => if decide (l_pending w = ∅) then Ok (Complete (finish w))
         else Ok (Suspended (make_continuation i w limit))
  | Datatypes.S visits =>
    match pop_first (l_pending w) with
    | None => Ok (Complete (finish w))
    | Some (node_id, rest) =>
      let? w := resume_visit limit node_id (with_pending w rest) in resume_loop visits i limit w
    end
  end.

Definition resume_bound (c : continuation) (max_visits : nat) : Res err progress :=
  resume_loop max_visits (cont_identity c) (cont_cause_limit c) (open_continuation c).

Definition start_seed (limit : N) (id : Nd) (seed : S) (w : Loop) : Res err Loop :=
  match graph_node g id with
  | None => Err (UnknownSeed id)
  | Some _ =>
    let? cur := expect (l_states w !! id) in
    let joined := join cur seed in
    if decide (joined = cur) then Ok w
    else Ok (raise_node w (<[id := joined]> (l_states w)) id {| cause_node := id; cause_edge := None |} limit)
  end.

Fixpoint start_seeds (limit : N) (seeds : list (Nd * S)) (w : Loop) : Res err Loop :=
  match seeds with
  | [] => Ok w
  | (id, seed) :: rest => let? w := start_seed limit id seed w in start_seeds limit rest w
  end.

Definition start_loop (bot : S) : Loop := {|
  l_states := list_to_map ((fun n => (node_id n, bot)) <$> graph_nodes g);
  l_pending := ∅;
  l_events := [];
  l_usage := usage_default;
  l_causes := ∅;
|}.

Definition start_resumable (bot : S) (seeds : gmap Nd S) (max_visits : nat) (explanation_limit : N)
    : Res err progress :=
  let dependencies := incremental_fingerprint (bot, seeds) in
  let? w := start_seeds explanation_limit (map_entries seeds) (start_loop bot) in
  resume_bound
    (make_continuation
       {| id_graph := g_fingerprint g; id_policy := admitted_fingerprint t; id_dependencies := dependencies |}
       w explanation_limit)
    max_visits.

Definition check_fingerprint (changed : ContinuationFingerprint) (expected actual : N) : Res err unit :=
  if (expected =? actual)%N then Ok tt else Err (ContinuationMismatch changed expected actual).

Definition resume (bot : S) (seeds : gmap Nd S) (c : continuation) (max_visits : nat) : Res err progress :=
  let? _ := check_fingerprint CfGraph (cont_graph c) (g_fingerprint g) in
  let? _ := check_fingerprint CfPolicy (cont_policy c) (admitted_fingerprint t) in
  let? _ := check_fingerprint CfDependencies (cont_dependencies c) (incremental_fingerprint (bot, seeds)) in
  resume_bound c max_visits.

(** Continues a suspended result; a completed one stays as it is. *)
Definition continue_with (max_visits : nat) (p : progress) : Res err progress :=
  match p with
  | Complete s => Ok (Complete s)
  | Suspended c => resume_bound c max_visits
  end.

(** ** Slicing *)

Lemma open_make i (w : Loop) limit : open_continuation (make_continuation i w limit) = w.
Proof. by destruct w. Qed.

Lemma cont_identity_make i (w : Loop) limit : cont_identity (make_continuation i w limit) = i.
Proof. by destruct i. Qed.

Lemma resume_loop_empty visits i limit (w : Loop) :
  l_pending w = ∅ -> resume_loop visits i limit w = Ok (Complete (finish w)).
Proof.
  intros Hp. destruct visits; simpl; [by rewrite decide_True|].
  apply pop_first_None in Hp. by rewrite Hp.
Qed.

Lemma resume_loop_split n m i limit (w : Loop) :
  resume_loop (n + m) i limit w = rbind (continue_with m) (resume_loop n i limit w).
Proof.
  revert w. induction n as [|n IH]; intros w; simpl.
  - case_decide as Hp; simpl.
    + by apply resume_loop_empty.
    + unfold resume_bound. by rewrite open_make, cont_identity_make.
  - destruct (pop_first (l_pending w)) as [[node rest]|]; [|done].
    destruct (resume_visit limit node (with_pending w rest)); simpl; [apply IH|done..].
Qed.

(** Every suspension keeps the identities it started with. *)
Lemma resume_loop_identity visits i limit (w : Loop) c :
  resume_loop visits i limit w = Ok (Suspended c) -> cont_identity c = i /\ cont_cause_limit c = limit.
Proof.
  revert w. induction visits as [|visits IH]; intros w; simpl.
  - case_decide; intros [= <-]. by rewrite cont_identity_make.
  - destruct (pop_first (l_pending w)) as [[node rest]|]; [|done]. intros Hok. res_inv. by eapply IH.
Qed.

Definition identity_of (bot : S) (seeds : gmap Nd S) : ContinuationIdentity :=
  {| id_graph := g_fingerprint g; id_policy := admitted_fingerprint t;
     id_dependencies := incremental_fingerprint (bot, seeds) |}.

Lemma start_identity bot seeds n limit c :
  start_resumable bot seeds n limit = Ok (Suspended c) -> cont_identity c = identity_of bot seeds.
Proof.
  unfold start_resumable, resume_bound. intros Hok. res_inv.
  apply resume_loop_identity in Hok as [Hi _]. by rewrite cont_identity_make in Hi.
Qed.

Lemma resume_same_identity bot seeds c m :
  cont_identity c = identity_of bot seeds -> resume bot seeds c m = resume_bound c m.
Proof.
  destruct c. unfold cont_identity, identity_of. simpl. intros [= -> -> ->].
  unfold resume, check_fingerprint. simpl. by rewrite !N.eqb_refl.
Qed.

(** Resumes a suspended result with unchanged inputs. *)
Definition then_resume (bot : S) (seeds : gmap Nd S) (m : nat) (p : progress) : Res err progress :=
  match p with
  | Complete s => Ok (Complete s)
  | Suspended c => resume bot seeds c m
  end.

(** Cutting a resumable solve into slices is unobservable: starting for
    [n] visits and resuming, with the same inputs, for [m] more gives exactly
    the result of starting for [n + m] visits, errors included. *)
Theorem resume_slices bot seeds n m limit :
  start_resumable bot seeds (n + m) limit =
  rbind (then_resume bot seeds m) (start_resumable bot seeds n limit).
Proof.
  destruct (start_resumable bot seeds n limit) as [[s|c]| | |] eqn:Hstart; simpl;
    try rewrite (resume_same_identity bot seeds c m) by (by eapply start_identity);
    unfold start_resumable in *; destruct (start_seeds _ _ _); simpl in *; try done;
    unfold resume_bound in *; rewrite resume_loop_split, Hstart; done.
Qed.
End Resumable.

(** A suspended solve is resumed only for the graph, policy, bottom and
    seeds it was started with: as soon as one identity differs the resumption
    is refused with the first changed category, and no visit runs. *)
Theorem resume_refuses_changed_inputs {Nd Ed L C S : Type} `{OrdKey Nd} `{OrdKey Ed} `{JoinSemilattice S}
    `{FingerprintValue (S * gmap Nd S)}
    `{FingerprintValue (N * N * N * gmap Nd S * gset Nd * list (DataflowEvent Nd Ed C) *
                        gmap Nd (CausalRecord Nd Ed) * N)}
    (g g' : DataflowGraph Nd Ed L C) (t t' : AdmittedTransfer (S:=S)) bot bot' seeds seeds' n limit c m :
  start_resumable g t bot seeds n limit = Ok (Suspended c) ->
  identity_of g t bot seeds <> identity_of g' t' bot' seeds' ->
  exists changed expected actual,
    resume g' t' bot' seeds' c m = Err (ContinuationMismatch changed expected actual) /\
    expected <> actual.
Proof.
  intros Hc%start_identity Hne. destruct c. unfold cont_identity, identity_of in *. simpl in *.
  injection Hc as -> -> ->. unfold resume, check_fingerprint. simpl.
  destruct (N.eqb_spec (g_fingerprint g) (g_fingerprint g')) as [Eg|]; simpl; [|by eauto 6].
  destruct (N.eqb_spec (admitted_fingerprint t) (admitted_fingerprint t')) as [Et|]; simpl; [|by eauto 6].
  destruct (N.eqb_spec (incremental_fingerprint (bot, seeds)) (incremental_fingerprint (bot', seeds')))
    as [Ed'|]; simpl; [|by eauto 6].
  destruct Hne. congruence.
Qed.

(** ** Correctness of completed slices *)

Section ResumeCorrect.
Context {Nd Ed L C S : Type} `{OrdKey Nd} `{OrdKey Ed} `{JoinSemilattice S}.
Context `{FingerprintValue (S * gmap Nd S)}.
Context `{FingerprintValue (N * N * N * gmap Nd S * gset Nd * list (DataflowEvent Nd Ed C) *
                            gmap Nd (CausalRecord Nd Ed) * N)}.
Context (g : DataflowGraph Nd Ed L C) (t : AdmittedTransfer (S:=S)).

Abbreviation Loop := (Loop (Nd:=Nd) (Ed:=Ed) (C:=C) (S:=S)).

Lemma start_seed_refines limit id seed (w w' : Loop) :
  start_seed g limit id seed w = Ok w' ->
  is_Some (g_nodes g !! id) /\ abs w' = join_into seed id (abs w).
Proof.
  unfold start_seed, graph_node. destruct (g_nodes g !! id) as [node|] eqn:Hn; [|done].
  intros Hok. res_inv. unfold abs, join_into. simpl.
  split; [done|]. match goal with Hs : l_states w !! id = Some _ |- _ => rewrite Hs end.
  case_decide; simplify_eq/=; done.
Qed.

Lemma start_seeds_refines limit seeds (w w' : Loop) :
  start_seeds g limit seeds w = Ok w' ->
  (forall ns, ns ∈ seeds -> is_Some (g_nodes g !! ns.1)) /\ abs w' = seed_all seeds (abs w).
Proof.
  revert w. induction seeds as [|[id seed] seeds IH]; intros w; simpl; intros Hok; res_inv.
  - subst. split; [|done]. intros ns Hns. by apply elem_of_nil in Hns.
  - apply IH in Hok as [Hin ->].
    match goal with Hs : start_seed _ _ _ _ _ = Ok _ |- _ => apply start_seed_refines in Hs as [Hid ->] end.
    split; [|done]. intros ns [->|]%elem_of_cons; auto.
Qed.

Lemma resume_edge_refines limit n output edge_id (w w' : Loop) :
  resume_edge g limit n output edge_id w = Ok w' ->
  exists e, g_edges g !! edge_id = Some e /\ abs w' = join_into output (edge_succ e) (abs w).
Proof.
  unfold resume_edge, graph_edge. intros Hok. res_inv. eexists. split; [done|].
  unfold abs, join_into. simpl in *.
  match goal with Hs : l_states w !! _ = Some _ |- _ => rewrite Hs end.
  case_decide; simplify_eq/=; done.
Qed.

Lemma resume_edges_refines limit n output edges (w w' : Loop) :
  resume_edges g limit n output edges w = Ok w' ->
  abs w' = join_all output (omap (fun id => (fun e => edge_succ e) <$> g_edges g !! id) edges) (abs w).
Proof.
  revert w. induction edges as [|id edges IH]; intros w; simpl; intros Hok; res_inv; [by subst|].
  apply IH in Hok as ->.
  match goal with Hs : resume_edge _ _ _ _ _ _ = Ok _ |- _ =>
    apply resume_edge_refines in Hs as (e & He & ->) end.
  by rewrite He.
Qed.

Context (HG : graph_wf g).

Lemma resume_visit_refines limit n rest (w w' : Loop) :
  pop_first (l_pending w) = Some (n, rest) ->
  resume_visit g t limit n (with_pending w rest) = Ok w' ->
  wstep g (transfer t) (abs w) (abs w').
Proof using HG.
  intros Hpop Hok. unfold resume_visit in Hok. solver_inv.
  match goal with Hb : negb _ = false |- _ => apply negb_false_iff in Hb end.
  apply resume_edges_refines in Hok. rewrite Hok.
  match goal with Hs : graph_successors _ _ = Some _ |- _ => apply successors_edges in Hs as ->; [|done] end.
  unfold abs. simpl in *. by econstructor.
Qed.

Lemma resume_loop_refines visits i limit (w : Loop) s :
  resume_loop g t visits i limit w = Ok (Complete s) ->
  rtc (wstep g (transfer t)) (abs w) (sol_states s, ∅).
Proof using HG.
  revert w. induction visits as [|visits IH]; intros w; simpl.
  - case_decide as Hp; intros [= <-]. unfold abs. rewrite Hp. reflexivity.
  - destruct (pop_first (l_pending w)) as [[n rest]|] eqn:Hpop; intros Hok; res_inv.
    + eapply rtc_l; [|by apply IH]. by eapply resume_visit_refines.
    + simplify_eq/=. apply pop_first_None in Hpop. unfold abs. rewrite Hpop. reflexivity.
Qed.

Lemma start_loop_abs (bot : S) :
  abs (start_loop (C:=C) (Ed:=Ed) g bot) = (initial_states g bot, ∅).
Proof using HG. unfold abs, start_loop. simpl. by rewrite bottom_states. Qed.

(** ** Agreement with the budgeted solve *)

(** Same variables but for the resources consumed. *)
Definition same (w v : Loop) : Prop :=
  l_states w = l_states v /\ l_pending w = l_pending v /\
  l_events w = l_events v /\ l_causes w = l_causes v.

Definition same_solution (a b : DataflowSolution Nd Ed C S) : Prop :=
  sol_states a = sol_states b /\ sol_events a = sol_events b /\ sol_causes a = sol_causes b.

Context (b : QueryBudgets).
Abbreviation limit := (max_explanation_causes b).

Ltac same_inv Hs :=
  destruct Hs as (Hs1 & Hs2 & Hs3 & Hs4); simpl in Hs1, Hs2, Hs3, Hs4.

Lemma same_seed id seed (w w' v : Loop) :
  solve_seed g b id seed w = Ok w' -> same w v ->
  exists v', start_seed g limit id seed v = Ok v' /\ same w' v'.
Proof.
  unfold solve_seed, start_seed, graph_node. destruct (g_nodes g !! id) as [node|]; [|done].
  intros Hok (Hs1 & Hs2 & Hs3 & Hs4). solver_inv. rewrite <- Hs1.
  match goal with Hx : l_states w !! id = Some _ |- _ => rewrite Hx end. simpl.
  case_decide; solver_inv; eexists; (split; [done|]); unfold same, raise_node; simpl;
    rewrite ?Hs1, ?Hs2, ?Hs3, ?Hs4; done.
Qed.

Lemma same_seeds seeds (w w' v : Loop) :
  solve_seeds g b seeds w = Ok w' -> same w v ->
  exists v', start_seeds g limit seeds v = Ok v' /\ same w' v'.
Proof.
  revert w v. induction seeds as [|[id seed] seeds IH]; intros w v; simpl; intros Hok Hs; res_inv.
  - subst. eauto.
  - match goal with Hx : solve_seed _ _ _ _ _ = Ok _ |- _ =>
      destruct (same_seed _ _ _ _ _ Hx Hs) as (v1 & -> & Hs1) end. simpl. eauto.
Qed.

Lemma same_edge n loc out e (w w' v : Loop) :
  solve_edge g b n loc out e w = Ok w' -> same w v ->
  exists v', resume_edge g limit n out e v = Ok v' /\ same w' v'.
Proof.
  unfold solve_edge, resume_edge. intros Hok (Hs1 & Hs2 & Hs3 & Hs4). solver_inv.
  match goal with Hx : graph_edge g e = Some _ |- _ => rewrite Hx end. simpl. rewrite <- Hs1.
  match goal with Hx : l_states w !! _ = Some _ |- _ => rewrite Hx end. simpl.
  case_decide; solver_inv; eexists; (split; [done|]); unfold same, raise_node; simpl;
    rewrite ?Hs1, ?Hs2, ?Hs3, ?Hs4; done.
Qed.

Lemma same_edges n loc out es (w w' v : Loop) :
  solve_edges g b n loc out es w = Ok w' -> same w v ->
  exists v', resume_edges g limit n out es v = Ok v' /\ same w' v'.
Proof.
  revert w v. induction es as [|e es IH]; intros w v; simpl; intros Hok Hs; res_inv.
  - subst. eauto.
  - match goal with Hx : solve_edge _ _ _ _ _ _ _ = Ok _ |- _ =>
      destruct (same_edge _ _ _ _ _ _ _ Hx Hs) as (v1 & -> & Hs1) end. simpl. eauto.
Qed.

Lemma same_visit n (w w' v : Loop) :
  solve_visit g t b n w = Ok w' -> same w v ->
  exists v', resume_visit g t limit n v = Ok v' /\ same w' v'.
Proof.
  unfold solve_visit, resume_visit. intros Hok (Hs1 & Hs2 & Hs3 & Hs4). solver_inv.
  rewrite <- Hs1. match goal with Hx : l_states w !! n = Some _ |- _ => rewrite Hx end. simpl.
  match goal with Hx : graph_node g n = Some _ |- _ => rewrite Hx end. simpl.
  match goal with Hx : negb _ = false |- _ => rewrite Hx end.
  match goal with Hx : graph_successors g n = Some _ |- _ => rewrite Hx end. simpl.
  eapply same_edges; [done|]. unfold same. simpl. rewrite Hs3. done.
Qed.

Lemma same_loop fuel (w w' v : Loop) :
  solve_loop g t b fuel w = Ok w' -> same w v ->
  exists v', same w' v' /\
  forall visits i, fuel <= visits -> resume_loop g t visits i limit v = Ok (Complete (finish v')).
Proof.
  revert w v. induction fuel as [|fuel IH]; intros w v; simpl; [done|].
  destruct (pop_first (l_pending w)) as [[n rest]|] eqn:Hpop; intros Hok Hs; res_inv.
  - match goal with Hx : solve_visit _ _ _ _ _ = Ok _ |- _ =>
      destruct (same_visit _ _ _ (with_pending v rest) Hx) as (v1 & Hv1 & Hs1) end.
    { destruct Hs as (?&?&?&?). done. }
    destruct (IH _ _ Hok Hs1) as (v' & Hs' & Hrun). exists v'. split; [done|].
    intros [|visits] i Hle; [lia|]. simpl. destruct Hs as (_ & <- & _). rewrite Hpop, Hv1. simpl.
    apply Hrun. lia.
  - subst. exists v. split; [done|]. intros visits i _. apply resume_loop_empty.
    destruct Hs as (_ & <- & _). by apply pop_first_None.
Qed.
End ResumeCorrect.

Section ResumeTheorems.
Context {Nd Ed L C S : Type} `{OrdKey Nd} `{OrdKey Ed} `{JoinSemilattice S}.
Context `{FingerprintValue (S * gmap Nd S)}.
Context `{FingerprintValue (N * N * N * gmap Nd S * gset Nd * list (DataflowEvent Nd Ed C) *
                            gmap Nd (CausalRecord Nd Ed) * N)}.
Implicit Types (g : DataflowGraph Nd Ed L C) (t : AdmittedTransfer (S:=S)).

(** A resumable solve that completes has computed the least solution. *)
Theorem resumable_least g t bot seeds n limit s :
  graph_wf g -> Lawful bot -> LawfulTransfer (transfer t) ->
  start_resumable g t bot seeds n limit = Ok (Complete s) ->
  LeastSolution g (transfer t) bot (map_entries seeds) (sol_states s).
Proof.
  intros HG HL HT. unfold start_resumable, resume_bound. intros Hok. res_inv.
  rewrite open_make, cont_identity_make in Hok.
  apply resume_loop_refines in Hok; [|done].
  match goal with Hs : start_seeds _ _ _ _ = Ok _ |- _ => apply start_seeds_refines in Hs as [Hin Hs] end.
  rewrite start_loop_abs in * by done.
  match goal with Hs : abs _ = seed_all _ _ |- _ => rewrite Hs in Hok end.
  eapply wsteps_least; [done|done|done|by apply seeded_WInv|done].
Qed.

(** Whenever the budgeted solve succeeds, the resumable solve with the
    same explanation bound completes, for every number of visits from the
    solve's own iteration count on, with the same states, the same event
    sequence and the same causal records. *)
Theorem resumable_agrees_with_solve g t b fuel bot seeds sol :
  solve g t b fuel bot (map_entries seeds) = Ok sol ->
  exists s, same_solution sol s /\
  forall visits, fuel <= visits ->
    start_resumable g t bot seeds visits (max_explanation_causes b) = Ok (Complete s).
Proof.
  unfold solve. intros Hok. res_inv. subst sol.
  rename select (solve_start _ _ _ = Ok _) into Hst.
  rename select (solve_seeds _ _ _ _ = Ok _) into Hse.
  rename select (solve_loop _ _ _ _ _ = Ok _) into Hlo.
  destruct (same_seeds g b _ _ _ (start_loop g bot) Hse) as (v & Hv & Hsame).
  { unfold solve_start in Hst. solver_inv. done. }
  destruct (same_loop g t b _ _ _ v Hlo Hsame) as (v' & (?&?&?&?) & Hrun).
  exists (finish v'). split; [done|]. intros visits Hle.
  unfold start_resumable, resume_bound. rewrite Hv. simpl.
  rewrite open_make, cont_identity_make. by apply Hrun.
Qed.
End ResumeTheorems.
