(* ===== verification/IncrementalSolve.v ===== *)
(** * Correctness of incremental solving

    The cone of Completion.v is exactly what the changed seeds reach, the
    states the incremental loop starts from satisfy the worklist invariant, and
    so, for a transfer that maps bottom to bottom, every proof an incremental
    solve mints holds the least solution of the new seeds. *)

From stdpp Require Import relations.
From S2P Require Import Prelude BTree Lattice DataflowGraph Budget Worklist DataflowEngine DataflowBounds Completion.

Section Cone.
Context {Nd Ed L C : Type} `{OrdKey Nd} `{OrdKey Ed} (g : DataflowGraph Nd Ed L C).

(** [m] flows into [n] along one edge. *)
Definition flows (m n : Nd) : Prop := n ∈ targets g m.

Definition edge_targets (edges : list Ed) : gset Nd :=
  list_to_set (omap (fun id => (fun e => edge_succ e) <$> g_edges g !! id) edges).

Lemma close_edges_spec edges affected frontier :
  (forall id, id ∈ edges -> is_Some (g_edges g !! id)) ->
  exists frontier',
    close_edges g edges affected frontier = Ok (affected ∪ edge_targets edges, frontier') /\
    frontier' = frontier ∪ (edge_targets edges ∖ affected).
Proof.
  revert affected frontier. induction edges as [|id edges IH]; intros affected frontier Hin;
    cbn [close_edges].
  - unfold edge_targets. simpl. exists frontier. split; [do 2 f_equal; set_solver|set_solver].
  - destruct (Hin id) as [e He]; [left|]. unfold graph_edge. rewrite He. simpl.
    assert (edge_targets (id :: edges) = {[edge_succ e]} ∪ edge_targets edges) as ->
      by (unfold edge_targets; simpl; by rewrite He).
    case_decide as Ht.
    + destruct (IH affected frontier) as (fr & -> & ->); [intros; apply Hin; by right|].
      eexists. split; [do 2 f_equal; set_solver|set_solver].
    + destruct (IH ({[edge_succ e]} ∪ affected) ({[edge_succ e]} ∪ frontier)) as (fr & -> & ->);
        [intros; apply Hin; by right|].
      eexists. split; [do 2 f_equal; set_solver|].
      apply set_eq. intros x. rewrite !elem_of_union, !elem_of_difference, !elem_of_union, elem_of_singleton.
      destruct (decide (x = edge_succ e)); set_solver.
Qed.

Context (HG : graph_wf g).

Lemma elem_of_edge_targets n t :
  t ∈ edge_targets (set_keys (out_edges (g_edges g) n)) <-> flows n t.
Proof. unfold edge_targets, flows, targets. by rewrite elem_of_list_to_set. Qed.

Lemma flows_node m n : flows m n -> n ∈ dom (g_nodes g).
Proof using HG.
  intros (id & e & He & <- & <-)%elem_of_targets. apply elem_of_dom. by apply (wf_endpoints _ HG id).
Qed.

(** What the closure loop maintains. *)
Record ConeInv (changed affected frontier : gset Nd) : Prop := {
  cone_changed : changed ⊆ affected;
  cone_frontier : frontier ⊆ affected;
  cone_nodes : affected ⊆ dom (g_nodes g);
  cone_closed : forall m n, m ∈ affected -> m ∉ frontier -> flows m n -> n ∈ affected;
  cone_reached : forall n, n ∈ affected -> exists m, m ∈ changed /\ rtc flows m n;
}.

Lemma ConeInv_step changed affected frontier m rest :
  ConeInv changed affected frontier -> pop_first frontier = Some (m, rest) ->
  let new := edge_targets (set_keys (out_edges (g_edges g) m)) in
  ConeInv changed (affected ∪ new) (rest ∪ (new ∖ affected)).
Proof using HG.
  intros [Hc Hf Hn Hcl Hr] (Hm & -> & _)%pop_first_Some new.
  assert (forall t, t ∈ new <-> flows m t) as Hnew by apply elem_of_edge_targets.
  split.
  - set_solver.
  - set_solver.
  - intros t [Ht|Ht%Hnew]%elem_of_union; [by apply Hn|by eapply flows_node].
  - intros k n Hk Hnf Hkn. destruct (decide (k = m)) as [->|Hkm].
    { apply elem_of_union. right. by apply Hnew. }
    assert (k ∈ affected) as Hka by set_solver.
    apply elem_of_union. left. apply (Hcl k); [done| |done]. set_solver.
  - intros n [Ht|Ht%Hnew]%elem_of_union; [by apply Hr|].
    destruct (Hr m) as (m0 & Hm0 & Hp); [set_solver|]. exists m0. split; [done|].
    by eapply rtc_r.
Qed.

Lemma close_cone_spec fuel changed affected frontier :
  ConeInv changed affected frontier ->
  size frontier + size (dom (g_nodes g) ∖ affected) < fuel ->
  exists result, close_cone g fuel affected frontier = Ok result /\ ConeInv changed result ∅.
Proof using HG.
  revert affected frontier. induction fuel as [|fuel IH]; intros affected frontier Hinv Hfuel; [lia|].
  cbn [close_cone]. destruct (pop_first frontier) as [[m rest]|] eqn:Hpop; cycle 1.
  { apply pop_first_None in Hpop as ->. eauto. }
  assert (is_Some (g_nodes g !! m)) as [node Hnode].
  { apply pop_first_Some in Hpop as (Hm & _). apply elem_of_dom.
    by apply (cone_nodes _ _ _ Hinv), (cone_frontier _ _ _ Hinv). }
  unfold graph_successors. rewrite (wf_successors _ HG), Hnode. simpl.
  destruct (close_edges_spec (set_keys (out_edges (g_edges g) m)) affected rest) as (fr & -> & ->).
  { intros id (e & He & _)%elem_of_out_edges. by eexists. }
  simpl. pose proof (ConeInv_step _ _ _ _ _ Hinv Hpop) as Hinv'. simpl in Hinv'.
  apply IH; [done|]. apply pop_first_size in Hpop. rewrite Hpop in Hfuel.
  remember (edge_targets (set_keys (out_edges (g_edges g) m))) as new.
  assert (new ∖ affected ⊆ dom (g_nodes g)) as Hsub.
  { pose proof (cone_nodes _ _ _ Hinv'). set_solver. }
  rewrite size_union_alt.
  pose proof (subseteq_size ((new ∖ affected) ∖ rest) (new ∖ affected) ltac:(set_solver)) as Hle.
  assert (size (dom (g_nodes g) ∖ affected) =
          size (dom (g_nodes g) ∖ (affected ∪ new)) + size (new ∖ affected)) as Hsz; [|lia].
  rewrite <- size_union by set_solver. f_equal. apply set_eq. intros x.
  rewrite elem_of_union, !elem_of_difference, elem_of_union.
  destruct (decide (x ∈ new)); set_solver.
Qed.
End Cone.

Section Enter.
Context {Nd Ed L C S : Type} `{OrdKey Nd} `{OrdKey Ed} `{JoinSemilattice S} `{!ProofFingerprints Nd Ed C S}.
Context (g : DataflowGraph Nd Ed L C) (t : AdmittedTransfer (S:=S)) (bot : S) (b : QueryBudgets)
  (seeds : gmap Nd S).
Implicit Types (previous : DataflowCompletionProof Nd Ed C S) (affected : gset Nd).
Context (HG : graph_wf g).

Lemma node_ids : list_to_set (node_id <$> graph_nodes g) = dom (g_nodes g).
Proof using HG.
  apply set_eq. intros n. rewrite elem_of_list_to_set, list_elem_of_fmap, elem_of_dom.
  unfold graph_nodes, map_values. split.
  - intros (x & -> & ([k y] & -> & Hx%elem_of_map_entries)%list_elem_of_fmap). simpl.
    by rewrite (wf_node_id _ HG k y Hx).
  - intros [x Hx]. exists x. split; [by rewrite (wf_node_id _ HG n x Hx)|].
    apply list_elem_of_fmap. exists (n, x). split; [done|]. by apply elem_of_map_entries.
Qed.

Lemma elem_of_changed previous n :
  n ∈ changed_seeds g bot seeds previous <->
  is_Some (g_nodes g !! n) /\
  proof_seeds previous !! n <> Some (incremental_fingerprint (seed_at bot seeds n)).
Proof using HG.
  unfold changed_seeds. rewrite elem_of_list_to_set, list_elem_of_filter, <- elem_of_dom, <- node_ids.
  rewrite elem_of_list_to_set. tauto.
Qed.

(** The closure loop always ends, within one iteration per node. *)
Lemma affected_cone_total previous :
  exists affected, affected_cone g bot seeds previous = Ok affected /\
    ConeInv g (changed_seeds g bot seeds previous) affected ∅.
Proof using HG.
  unfold affected_cone. set (changed := changed_seeds _ _ _ _).
  assert (changed ⊆ dom (g_nodes g)) as Hsub.
  { intros n Hn%elem_of_changed. apply elem_of_dom. apply Hn. }
  apply close_cone_spec; [done| |].
  - split; try done. intros n Hn. exists n. split; [done|reflexivity].
  - unfold cone_fuel. rewrite size_difference by done. rewrite <- (size_dom (g_nodes g)).
    pose proof (subseteq_size _ _ Hsub). lia.
Qed.

Context (HL : Lawful bot).

(** [v] is above what the unaffected predecessors among [edges] contribute. *)
Definition contains_inflow affected (states : gmap Nd S) (edges : list Ed) (v : S) : Prop :=
  forall id e s, id ∈ edges -> g_edges g !! id = Some e -> edge_pred e ∉ affected ->
    states !! edge_pred e = Some s -> less_equal (transfer t s) v = true.

Lemma enter_edges_spec affected states node edges state causes :
  (forall id, id ∈ edges -> exists e, g_edges g !! id = Some e /\ is_Some (states !! edge_pred e)) ->
  exists state' causes', enter_edges g t b affected states node edges state causes = Ok (state', causes') /\
    less_equal state state' = true /\ contains_inflow affected states edges state' /\
    (forall v, less_equal state v = true -> contains_inflow affected states edges v ->
       less_equal state' v = true).
Proof using HL.
  revert state causes. induction edges as [|id edges IH]; intros state causes Hin; cbn [enter_edges].
  - exists state, causes. split_and!; [done|apply (le_refl HL)| |done].
    intros id e s Hid. by apply elem_of_nil in Hid.
  - destruct (Hin id) as (e & He & [s Hs]); [left|]. unfold graph_edge. rewrite He. simpl.
    assert (forall v, contains_inflow affected states (id :: edges) v <->
      (edge_pred e ∉ affected -> less_equal (transfer t s) v = true) /\
      contains_inflow affected states edges v) as Hcons.
    { intros v. unfold contains_inflow. split.
      - intros Hv. split; [intros Hna; eapply Hv; [left|done..]|].
        intros id' e' s' Hid'. by apply Hv; right.
      - intros [Hh Ht] id' e' s' [->|Hid']%elem_of_cons Hid'' Hna Hs'; [|by eapply Ht].
        simplify_eq. by apply Hh. }
    setoid_rewrite Hcons.
    case_decide as Haff.
    + destruct (IH state causes) as (st & ca & Hok & Hle & Hinf & Hlub); [intros; apply Hin; by right|].
      exists st, ca. split_and!; [done|done|done|done|]. intros v Hv [_ Hv']. by apply Hlub.
    + rewrite Hs. simpl.
      edestruct (IH (join state (transfer t s))) as (st & ca & Hok & Hle & Hinf & Hlub);
        [intros; apply Hin; by right|].
      rewrite Hok. exists st, ca. split_and!; [done| | |done|].
      * eapply (le_trans HL); [apply (join_ub_l HL)|done].
      * intros _. eapply (le_trans HL); [apply (join_ub_r HL)|done].
      * intros v Hv [Hv' Hv'']. apply Hlub; [|done]. apply (join_lub HL); auto.
Qed.

(** The state an affected node restarts from: the join of its seed and its
    unaffected inflow. *)
Definition entered affected (states : gmap Nd S) (n : Nd) (v : S) : Prop :=
  let edges := set_keys (in_edges (g_edges g) n) in
  less_equal (seed_at bot seeds n) v = true /\ contains_inflow affected states edges v /\
  (forall v', less_equal (seed_at bot seeds n) v' = true -> contains_inflow affected states edges v' ->
     less_equal v v' = true).

Lemma entered_ext affected states states' n v :
  (forall k, k ∉ affected -> states !! k = states' !! k) ->
  entered affected states n v <-> entered affected states' n v.
Proof.
  intros Heq.
  assert (forall es v', contains_inflow affected states es v' <-> contains_inflow affected states' es v') as Hi.
  { intros es v'. unfold contains_inflow. split; intros Hv id e s Hid He Hna Hs;
      (eapply Hv; [done..|]); [by rewrite Heq|by rewrite <- Heq]. }
  unfold entered. setoid_rewrite Hi. done.
Qed.

Lemma enter_node_spec affected n states causes :
  dom states = dom (g_nodes g) -> is_Some (g_nodes g !! n) ->
  exists v causes', enter_node g t bot b seeds affected n (states, causes) = Ok (<[n := v]> states, causes') /\
    entered affected states n v.
Proof using HG HL.
  intros Hd [node Hn]. unfold enter_node, graph_predecessors.
  rewrite (wf_predecessors _ HG), Hn. cbn [fmap option_fmap option_map expect rbind].
  edestruct (enter_edges_spec affected states n (set_keys (in_edges (g_edges g) n)) (seed_at bot seeds n))
    as (v & ca & -> & Hspec).
  { intros id (e & He & _)%elem_of_in_edges. exists e. split; [done|].
    apply elem_of_dom. rewrite Hd. apply elem_of_dom. by apply (wf_endpoints _ HG id). }
  simpl. eauto.
Qed.

Lemma enter_nodes_spec affected nodes states causes :
  dom states = dom (g_nodes g) -> NoDup nodes ->
  (forall n, n ∈ nodes -> n ∈ affected /\ is_Some (g_nodes g !! n)) ->
  exists states' causes', enter_nodes g t bot b seeds affected nodes (states, causes) = Ok (states', causes') /\
    dom states' = dom (g_nodes g) /\
    (forall k, k ∉ nodes -> states' !! k = states !! k) /\
    (forall n, n ∈ nodes -> exists v, states' !! n = Some v /\ entered affected states n v).
Proof using HG HL.
  revert states causes. induction nodes as [|n nodes IH]; intros states causes Hd Hnd Hin; cbn [enter_nodes].
  - exists states, causes. split_and!; try done. intros n Hn. by apply elem_of_nil in Hn.
  - apply NoDup_cons in Hnd as [Hni Hnd]. destruct (Hin n) as [Hna Hn]; [left|].
    destruct (enter_node_spec affected n states causes Hd Hn) as (v & ca & -> & Hv). cbn [rbind].
    assert (is_Some (states !! n)) as Hsn by (apply elem_of_dom; rewrite Hd; by apply elem_of_dom).
    destruct (IH (<[n:=v]> states) ca) as (st & ca' & Hok & Hd' & Hout & Hall);
      [by rewrite dom_insert_lookup_L|done|intros; apply Hin; by right|].
    exists st, ca'. split_and!; [done|done| |].
    + intros k [Hk1 Hk2]%not_elem_of_cons. rewrite Hout by done. by rewrite lookup_insert_ne.
    + intros k [->|Hk]%elem_of_cons.
      * exists v. rewrite Hout by done. by rewrite lookup_insert_eq.
      * destruct (Hall k Hk) as (v' & Hv' & He). exists v'. split; [done|].
        eapply entered_ext; [|done]. intros k' Hk'. rewrite lookup_insert_ne; [done|]. congruence.
Qed.
End Enter.

(** ** Valid proofs *)

Section Valid.
Context {Nd Ed L C S : Type} `{OrdKey Nd} `{OrdKey Ed} `{JoinSemilattice S} `{!ProofFingerprints Nd Ed C S}.
Abbreviation graph := (DataflowGraph Nd Ed L C).
Abbreviation proof := (DataflowCompletionProof Nd Ed C S).

Definition inputs_of (p : proof) : ProofInputs := {|
  in_graph := proof_graph p;
  in_lattice := proof_lattice p;
  in_policy := proof_policy p;
  in_boundaries := proof_boundaries p;
  in_limits := proof_limits p;
  in_dependencies := proof_dependencies p;
|}.

(** Every propagation is along an edge of the graph. *)
Definition events_in (g : graph) (events : list (DataflowEvent Nd Ed C)) : Prop :=
  forall id c, Propagate id c ∈ events -> is_Some (g_edges g !! id).

(** The proof says what it is bound to and holds the least solution of it. *)
Record ValidProof (g : graph) (t : AdmittedTransfer (S:=S)) (bot : S) (b : QueryBudgets)
    (seeds : gmap Nd S) (p : proof) : Prop := {
  valid_inputs : inputs_of p = proof_inputs g t bot b seeds;
  valid_seeds : proof_seeds p = seed_fingerprints g bot seeds;
  valid_events : events_in g (sol_events (proof_solution p));
  valid_nodes : proof_nodes p = incremental_fingerprint <$> sol_states (proof_solution p);
  valid_least : LeastSolution g (transfer t) bot (map_entries seeds) (sol_states (proof_solution p));
}.

(** No two of the inputs at hand share a fingerprint. *)
Record NoCollision (g0 : graph) (t0 : AdmittedTransfer (S:=S)) (bot0 : S) (seeds0 : gmap Nd S)
    (g : graph) (t : AdmittedTransfer (S:=S)) (bot : S) (seeds : gmap Nd S) : Prop := {
  distinct_graph : g_fingerprint g0 = g_fingerprint g -> g0 = g;
  distinct_policy : admitted_fingerprint t0 = admitted_fingerprint t -> admitted_policy t0 = admitted_policy t;
  distinct_bottom : incremental_fingerprint bot0 = incremental_fingerprint bot -> bot0 = bot;
  distinct_seeds : incremental_fingerprint seeds0 = incremental_fingerprint seeds -> seeds0 = seeds;
  distinct_seed : forall n,
    incremental_fingerprint (seed_at bot0 seeds0 n) = incremental_fingerprint (seed_at bot seeds n) ->
    seed_at bot0 seeds0 n = seed_at bot seeds n;
}.

Section Fixed.
Context (g : graph) (t : AdmittedTransfer (S:=S)) (bot : S) (b : QueryBudgets) (seeds : gmap Nd S).

Lemma observed_edges_in events l : observed_edges g events = Ok l -> events_in g events.
Proof.
  revert l. induction events as [|[n|id c] events IH]; intros l; cbn [observed_edges].
  - intros _ id c Hin. by apply elem_of_nil in Hin.
  - intros Hok id c [?|Hin]%elem_of_cons; [done|]. by eapply IH.
  - intros Hok. res_inv. intros id' c' [[= -> ->]|Hin]%elem_of_cons; [by eexists|]. by eapply IH.
Qed.

Lemma mint_valid s p :
  mint_completion_proof g t bot b seeds s = Ok p ->
  LeastSolution g (transfer t) bot (map_entries seeds) (sol_states s) ->
  ValidProof g t bot b seeds p /\ proof_solution p = s.
Proof.
  unfold mint_completion_proof. intros Hok Hleast. res_inv. subst p.
  split; [|done]. split; try done. simpl. by eapply observed_edges_in.
Qed.

Context (HG : graph_wf g).

Lemma seed_fingerprints_lookup n :
  is_Some (g_nodes g !! n) ->
  seed_fingerprints g bot seeds !! n = Some (incremental_fingerprint (seed_at bot seeds n)).
Proof using HG.
  intros Hn. unfold seed_fingerprints. apply elem_of_list_to_map_1'.
  - intros x' (nd & [= -> ->] & _)%list_elem_of_fmap. done.
  - assert (n ∈ node_id <$> graph_nodes g) as (x & -> & Hx)%list_elem_of_fmap.
    { apply (elem_of_list_to_set (C:=gset Nd)). rewrite (node_ids g HG). by apply elem_of_dom. }
    apply list_elem_of_fmap. eauto.
Qed.

End Fixed.
End Valid.

(** ** Restarting from a valid proof *)

Section Restart.
Context {Nd Ed L C S : Type} `{OrdKey Nd} `{OrdKey Ed} `{JoinSemilattice S} `{!ProofFingerprints Nd Ed C S}.
Context (g : DataflowGraph Nd Ed L C) (t : AdmittedTransfer (S:=S)) (bot : S) (b : QueryBudgets)
  (seeds seeds0 : gmap Nd S) (previous : DataflowCompletionProof Nd Ed C S) (affected : gset Nd).
Abbreviation old := (sol_states (proof_solution previous)).

Context (HG : graph_wf g) (HL : Lawful bot) (HT : LawfulTransfer (transfer t)).
Context (HS : proof_seeds previous = seed_fingerprints g bot seeds0).
Context (HV : LeastSolution g (transfer t) bot (map_entries seeds0) old).
Context (HI : forall n,
  incremental_fingerprint (seed_at bot seeds0 n) = incremental_fingerprint (seed_at bot seeds n) ->
  seed_at bot seeds0 n = seed_at bot seeds n).
Context (HC : ConeInv g (changed_seeds g bot seeds previous) affected ∅).

(** Outside the cone the new seeds are the old ones. *)
Lemma unaffected_seed n :
  n ∉ affected -> is_Some (g_nodes g !! n) -> seed_at bot seeds0 n = seed_at bot seeds n.
Proof using HG HS HI HC.
  intros Hna Hn. apply HI.
  destruct (decide (proof_seeds previous !! n = Some (incremental_fingerprint (seed_at bot seeds n))))
    as [Heq|Hne].
  - rewrite HS, seed_fingerprints_lookup in Heq by done. by injection Heq.
  - destruct Hna. apply (cone_changed _ _ _ _ HC), elem_of_changed; done.
Qed.

(** No edge leads from the cone back outside. *)
Lemma unaffected_closed : pred_closed g (fun n => n ∉ affected).
Proof using HC.
  intros id e He Hs Hp. apply Hs. apply (cone_closed _ _ _ _ HC (edge_pred e)); [done|apply not_elem_of_empty|].
  apply elem_of_targets. eauto.
Qed.

Lemma old_dom n : is_Some (old !! n) <-> is_Some (g_nodes g !! n).
Proof using HV. destruct HV as [HS' _]. rewrite <- !elem_of_dom. by rewrite (sol_dom _ _ _ _ _ HS'). Qed.

(** The unaffected states are below every solution of the new seeds. *)
Lemma unaffected_below U sol' n u v :
  pred_closed g U -> SolutionOn g (transfer t) bot U (map_entries seeds) sol' ->
  n ∉ affected -> U n -> old !! n = Some u -> sol' !! n = Some v -> less_equal u v = true.
Proof using HG HL HS HV HI HC.
  intros HU [Hd Hseed Hedge] Hna Hn Hu Hv. destruct HV as [_ Hleast].
  apply (Hleast (fun n => U n /\ n ∉ affected) sol') with n; [| |done..].
  - intros id e He [HUs Hns]. split; [by eapply HU|by eapply unaffected_closed].
  - split; [by intros k [? ?]; auto| |by intros id e u' v' He [? ?]; eauto].
    intros k s [HUk Hka] Hin%elem_of_map_entries.
    destruct (decide (is_Some (g_nodes g !! k))) as [Hk|Hk].
    + pose proof (unaffected_seed k Hka Hk) as Heq. unfold seed_at in Heq. rewrite Hin in Heq. simpl in Heq.
      destruct (seeds !! k) as [s'|] eqn:Hs'; simpl in Heq; subst s.
      * apply Hseed; [done|]. by apply elem_of_map_entries.
      * destruct (Hd k HUk Hk) as [w Hw]. exists w. split; [done|]. apply (bot_le HL).
    + destruct HV as [HS' _]. destruct (sol_seeds _ _ _ _ _ HS' k s) as (w & Hw & _);
        [by apply elem_of_map_entries|]. destruct Hk. apply old_dom. eauto.
Qed.

Context (Hstrict : transfer t bot = bot).
Context (states : gmap Nd S) (Hdom : dom states = dom (g_nodes g)).
Context (Hseeds : forall n, is_Some (seeds !! n) -> is_Some (g_nodes g !! n)).
Context (Hout : forall k, k ∉ affected -> states !! k = old !! k).
Context (Hin : forall n, n ∈ affected -> exists v, states !! n = Some v /\ entered g t bot seeds affected old n v).

Lemma restart_seeds n s :
  (n, s) ∈ map_entries seeds -> exists v, states !! n = Some v /\ less_equal s v = true.
Proof using HG HL HS HV HI HC Hseeds Hout Hin.
  intros Hns%elem_of_map_entries. destruct (decide (n ∈ affected)) as [Ha|Ha].
  - destruct (Hin n Ha) as (v & Hv & Hle & _). exists v. split; [done|].
    unfold seed_at in Hle. by rewrite Hns in Hle.
  - assert (is_Some (g_nodes g !! n)) as Hn by (apply Hseeds; eauto).
    pose proof (unaffected_seed n Ha Hn) as Heq. rewrite Hout by done.
    destruct HV as [HS' _]. unfold seed_at in Heq. rewrite Hns in Heq. simpl in Heq.
    destruct (seeds0 !! n) as [s0|] eqn:Hs0; simpl in Heq; subst s.
    + apply (sol_seeds _ _ _ _ _ HS'). by apply elem_of_map_entries.
    + destruct (proj2 (old_dom n) Hn) as [v Hv]. exists v. split; [done|]. apply (bot_le HL).
Qed.

Lemma restart_edges id e u v :
  g_edges g !! id = Some e -> states !! edge_pred e = Some u -> states !! edge_succ e = Some v ->
  u <> bot -> edge_pred e ∈ pending_in bot affected states \/ less_equal (transfer t u) v = true.
Proof using HC HV Hout Hin.
  intros He Hu Hv Hub. destruct (decide (edge_pred e ∈ affected)) as [Ha|Ha].
  - left. unfold pending_in. apply elem_of_filter. split; [|done]. rewrite Hu. congruence.
  - right. rewrite Hout in Hu by done. destruct (decide (edge_succ e ∈ affected)) as [Hs|Hs].
    + destruct (Hin _ Hs) as (v' & Hv' & _ & Hinf & _). assert (v' = v) as -> by congruence.
      eapply Hinf; [|done..]. apply elem_of_in_edges. eauto.
    + rewrite Hout in Hv by done. destruct HV as [HS' _]. by eapply (sol_edges _ _ _ _ _ HS').
Qed.

Lemma restart_least : least_on_parts g (transfer t) bot (map_entries seeds) states.
Proof using HG HL HT HS HV HI HC Hstrict Hseeds Hout Hin.
  intros U sol' HU HS' n u v Hn Hu Hv. destruct (decide (n ∈ affected)) as [Ha|Ha].
  2: { rewrite Hout in Hu by done. by eapply unaffected_below. }
  destruct (Hin n Ha) as (u' & Hu' & _ & _ & Hlub). assert (u' = u) as -> by congruence.
  apply Hlub.
  - unfold seed_at. destruct (seeds !! n) as [s|] eqn:Hs; simpl; [|apply (bot_le HL)].
    destruct (on_seeds _ _ _ _ _ _ HS' n s Hn) as (v' & Hv' & Hle); [by apply elem_of_map_entries|].
    congruence.
  - intros id e s (e' & He' & Hsucc)%elem_of_in_edges He Hpa Hs. assert (e' = e) as -> by congruence. subst n.
    destruct (decide (s = bot)) as [->|Hsb]; [rewrite Hstrict; apply (bot_le HL)|].
    assert (U (edge_pred e)) as HUp by (by eapply HU).
    destruct (on_dom _ _ _ _ _ _ HS' _ HUp) as [w Hw]; [by apply (wf_endpoints _ HG id)|].
    assert (less_equal s w = true) as Hsw by (by eapply unaffected_below).
    eapply (le_trans HL); [by apply (transfer_monotone _ _ HT)|].
    eapply (on_edges _ _ _ _ _ _ HS' id e); [done|done|done|done|]. by eapply (le_neq_bot HL).
Qed.

(** The restart states satisfy the worklist invariant. *)
Lemma restart_WInv : WInv g (transfer t) bot (map_entries seeds) (states, pending_in bot affected states).
Proof using HG HL HT HS HV HI HC Hstrict Hdom Hseeds Hout Hin.
  split; simpl; [done|apply restart_seeds| |apply restart_edges|apply restart_least].
  intros n [Hne Ha]%elem_of_filter. destruct (Hin n Ha) as (v & Hv & _). exists v.
  split; [done|]. congruence.
Qed.
End Restart.

(** ** The loop refines the worklist *)

Section IncrementalLoop.
Context {Nd Ed L C S : Type} `{OrdKey Nd} `{OrdKey Ed} `{JoinSemilattice S} `{!ProofFingerprints Nd Ed C S}.
Context (g : DataflowGraph Nd Ed L C) (t : AdmittedTransfer (S:=S)) (b : QueryBudgets).
Abbreviation Loop := (Loop (Nd:=Nd) (Ed:=Ed) (C:=C) (S:=S)).

Lemma incremental_edge_refines n loc output id (w w' : Loop) :
  incremental_edge g b n loc output id w = Ok w' ->
  exists e, g_edges g !! id = Some e /\ abs w' = join_into output (edge_succ e) (abs w).
Proof.
  unfold incremental_edge, graph_edge. intros Hok. solver_inv. eexists. split; [done|].
  unfold abs, join_into. simpl in *.
  match goal with Hs : l_states w !! _ = Some _ |- _ => rewrite Hs end.
  case_decide; solver_inv; done.
Qed.

Lemma incremental_edges_refines n loc output edges (w w' : Loop) :
  incremental_edges g b n loc output edges w = Ok w' ->
  abs w' = join_all output (omap (fun id => (fun e => edge_succ e) <$> g_edges g !! id) edges) (abs w).
Proof.
  revert w. induction edges as [|id edges IH]; intros w; simpl; intros Hok; res_inv; [by subst|].
  apply IH in Hok as ->.
  match goal with Hs : incremental_edge _ _ _ _ _ _ _ = Ok _ |- _ =>
    apply incremental_edge_refines in Hs as (e & He & ->) end.
  by rewrite He.
Qed.

Context (HG : graph_wf g).

Lemma incremental_visit_refines n rest (w w' : Loop) :
  pop_first (l_pending w) = Some (n, rest) ->
  incremental_visit g t b n (with_pending w rest) = Ok w' ->
  wstep g (transfer t) (abs w) (abs w').
Proof using HG.
  intros Hpop Hok. unfold incremental_visit in Hok. solver_inv.
  match goal with Hb : negb _ = false |- _ => apply negb_false_iff in Hb end.
  apply incremental_edges_refines in Hok. rewrite Hok.
  match goal with Hs : graph_successors _ _ = Some _ |- _ => apply successors_edges in Hs as ->; [|done] end.
  unfold abs. simpl in *. by econstructor.
Qed.

Lemma incremental_loop_refines fuel (w w' : Loop) :
  incremental_loop g t b fuel w = Ok w' ->
  rtc (wstep g (transfer t)) (abs w) (abs w') /\ l_pending w' = ∅.
Proof using HG.
  revert w. induction fuel as [|fuel IH]; intros w; simpl; [done|].
  destruct (pop_first (l_pending w)) as [[n rest]|] eqn:Hpop; intros Hok; res_inv.
  - apply IH in Hok as [Hsteps Hp]. split; [|done].
    eapply rtc_l; [|done]. by eapply incremental_visit_refines.
  - subst. split; [reflexivity|]. by apply pop_first_None.
Qed.

(** ** The start of the loop *)

Context (bot : S) (seeds : gmap Nd S) (previous : DataflowCompletionProof Nd Ed C S) (HL : Lawful bot).
Abbreviation old := (sol_states (proof_solution previous)).
Context (Hold : dom old = dom (g_nodes g)).

Lemma reset_lookup (affected : gset Nd) k :
  k ∉ affected -> (set_to_map (M:=gmap Nd S) (fun n => (n, bot)) affected ∪ old) !! k = old !! k.
Proof.
  intros Hk. apply lookup_union_r. apply eq_None_not_Some. intros [x Hx].
  apply lookup_set_to_map in Hx as (n & Hn & [= -> _]); [done|]. by intros ?? _ _ ?.
Qed.

Lemma reset_dom (affected : gset Nd) :
  affected ⊆ dom (g_nodes g) ->
  dom (set_to_map (M:=gmap Nd S) (fun n => (n, bot)) affected ∪ old) = dom (g_nodes g).
Proof using Hold.
  intros Ha. rewrite dom_union_L, Hold. apply set_eq. intros k. rewrite elem_of_union. split; [|by right].
  intros [Hk|Hk]; [|done]. apply Ha. apply elem_of_dom in Hk as [x Hx].
  apply lookup_set_to_map in Hx as (n & Hn & [= -> _]); [done|]. by intros ?? _ _ ?.
Qed.

Lemma enter_cone_spec changed affected :
  ConeInv g changed affected ∅ ->
  exists states causes, enter_cone g t bot b seeds previous affected = Ok (states, causes) /\
    dom states = dom (g_nodes g) /\
    (forall k, k ∉ affected -> states !! k = old !! k) /\
    (forall n, n ∈ affected -> exists v, states !! n = Some v /\ entered g t bot seeds affected old n v).
Proof using HG HL Hold.
  intros HC. unfold enter_cone.
  edestruct (enter_nodes_spec g t bot b seeds HG HL affected (set_keys affected))
    as (states & causes & Hok & Hd & Hout & Hin).
  - apply (reset_dom affected), (cone_nodes _ _ _ _ HC).
  - apply set_keys_NoDup.
  - intros n Hn%elem_of_set_keys. split; [done|]. apply elem_of_dom. by apply (cone_nodes _ _ _ _ HC).
  - exists states, causes. split_and!; [exact Hok|done| |].
    + intros k Hk. rewrite Hout by (by rewrite elem_of_set_keys). by apply reset_lookup.
    + intros n Hn. destruct (Hin n) as (v & Hv & He); [by apply elem_of_set_keys|].
      exists v. split; [done|]. eapply entered_ext; [|done]. intros k Hk. symmetry. by apply reset_lookup.
Qed.

Lemma incremental_start_spec (w : Loop) :
  incremental_start g t bot b seeds previous = Ok w ->
  exists affected, ConeInv g (changed_seeds g bot seeds previous) affected ∅ /\
    dom (l_states w) = dom (g_nodes g) /\ l_pending w = pending_in bot affected (l_states w) /\
    (forall k, k ∉ affected -> l_states w !! k = old !! k) /\
    (forall n, n ∈ affected -> exists v, l_states w !! n = Some v /\ entered g t bot seeds affected old n v).
Proof using HG HL Hold.
  unfold incremental_start.
  destruct (affected_cone_total g bot seeds HG previous) as (affected & -> & HC). cbn [rbind].
  destruct (enter_cone_spec _ _ HC) as (states & causes & -> & Hd & Hout & Hin). cbn [rbind].
  intros Hok. res_inv. subst w. exists affected. done.
Qed.
End IncrementalLoop.

Section IncrementalTheorems.
Context {Nd Ed L C S : Type} `{OrdKey Nd} `{OrdKey Ed} `{JoinSemilattice S} `{!ProofFingerprints Nd Ed C S}.
Implicit Types (g : DataflowGraph Nd Ed L C) (t : AdmittedTransfer (S:=S)) (seeds : gmap Nd S).
Implicit Types (p previous : DataflowCompletionProof Nd Ed C S).

Lemma solve_proven_correct g t bot b seeds fuel p :
  graph_wf g -> Lawful bot -> LawfulTransfer (transfer t) ->
  solve_proven g t bot b seeds fuel = Ok p -> ValidProof g t bot b seeds p.
Proof.
  intros HG HL HT. unfold solve_proven. intros Hok. res_inv.
  eapply mint_valid; [done|]. eapply wsteps_least; [done|done|done| |].
  - apply seeded_WInv; [done|]. by eapply solve_refines.
  - by eapply solve_refines.
Qed.

Lemma solve_cone_correct g t bot b seeds seeds0 previous fuel p :
  graph_wf g -> Lawful bot -> LawfulTransfer (transfer t) -> transfer t bot = bot ->
  (forall n, is_Some (seeds !! n) -> is_Some (g_nodes g !! n)) ->
  proof_seeds previous = seed_fingerprints g bot seeds0 ->
  LeastSolution g (transfer t) bot (map_entries seeds0) (sol_states (proof_solution previous)) ->
  (forall n, incremental_fingerprint (seed_at bot seeds0 n) = incremental_fingerprint (seed_at bot seeds n) ->
     seed_at bot seeds0 n = seed_at bot seeds n) ->
  solve_cone g t bot b seeds previous fuel = Ok p -> ValidProof g t bot b seeds p.
Proof.
  intros HG HL HT Hstrict Hseeds HS HV HI. unfold solve_cone. intros Hok. res_inv.
  eapply mint_valid; [done|]. simpl.
  match goal with Hs : incremental_start _ _ _ _ _ _ = Ok _ |- _ =>
    apply incremental_start_spec in Hs as (affected & HC & Hd & Hp & Hout & Hin);
      [|done|done|by destruct HV as [[? _ _] _]] end.
  match goal with Hl : incremental_loop _ _ _ _ _ = Ok _ |- _ =>
    apply incremental_loop_refines in Hl as [Hsteps Hpend]; [|done] end.
  unfold abs in Hsteps. rewrite Hpend, Hp in Hsteps.
  eapply wsteps_least; [done|done|done| |done]. by eapply restart_WInv.
Qed.

Lemma check_seeds_Ok g ids u :
  check_seeds g ids = Ok u -> forall id, id ∈ ids -> is_Some (g_nodes g !! id).
Proof.
  induction ids as [|id ids IH]; simpl; [intros _ id Hin; by apply elem_of_nil in Hin|].
  unfold graph_node. destruct (g_nodes g !! id) eqn:Hid; [|done].
  intros Hok id' [->|Hin]%elem_of_cons; eauto.
Qed.

Lemma solve_incremental_correct g0 t0 bot0 b0 seeds0 previous g t bot b seeds fuel p :
  graph_wf g -> Lawful bot -> LawfulTransfer (transfer t) -> transfer t bot = bot ->
  ValidProof g0 t0 bot0 b0 seeds0 previous -> NoCollision g0 t0 bot0 seeds0 g t bot seeds ->
  solve_incremental g t bot b seeds previous fuel = Ok p ->
  ValidProof g t bot b seeds p.
Proof.
  intros HG HL HT Hstrict [Hi Hs He Hn Hleast] [Dg Dt Db Dse Ds]. unfold solve_incremental. intros Hok.
  apply rbind_Ok in Hok as ([] & Hseeds & Hok). cbn zeta in Hok.
  unfold inputs_of, proof_inputs in Hi. injection Hi as Eg El Ep Eb Elim Ed'.
  destruct (_ || _) eqn:Hsame in Hok; [by eapply solve_proven_correct|].
  rewrite !orb_false_iff, !negb_false_iff, !N.eqb_eq in Hsame. simpl in Hsame.
  destruct Hsame as ((((Hg & Hb) & Ht) & Hbd) & Hlim).
  assert (g0 = g) as -> by (apply Dg; congruence). assert (bot0 = bot) as -> by (apply Db; congruence).
  assert (transfer t0 = transfer t) as Htr.
  { unfold transfer. rewrite (Dt ltac:(congruence)). done. }
  rewrite Htr in Hleast.
  destruct (N.eqb_spec (proof_dependencies previous) (in_dependencies (proof_inputs g t bot b seeds))) as [Hd|_].
  - injection Hok as <-. simpl in Hd. assert (seeds0 = seeds) as -> by (apply Dse; congruence).
    split; try done. unfold inputs_of, proof_inputs. congruence.
  - eapply solve_cone_correct; try done.
    intros n Hn'. eapply check_seeds_Ok; [done|]. by apply elem_of_map_keys.
Qed.

(** C2: Over a well-formed graph, a lawful lattice and a lawful transfer that
    maps bottom to bottom, an incremental solve that succeeds from a proof valid
    for earlier inputs, with no fingerprint shared by different earlier and new
    inputs, mints a proof that is valid for the new ones: whichever of the clean,
    reuse and cone branches runs, the states are the least solution of the new
    seeds and the proof is bound to the new inputs.  A transfer that does not map
    bottom to bottom is out of scope: unaffected predecessors at bottom are
    transferred too ([incremental_transfers_unreached]). *)
Theorem solve_incremental_valid g0 t0 bot0 b0 seeds0 previous g t bot b seeds fuel p :
  graph_wf g -> Lawful bot -> LawfulTransfer (transfer t) -> transfer t bot = bot ->
  ValidProof g0 t0 bot0 b0 seeds0 previous -> NoCollision g0 t0 bot0 seeds0 g t bot seeds ->
  solve_incremental g t bot b seeds previous fuel = Ok p ->
  ValidProof g t bot b seeds p.
Proof. apply solve_incremental_correct. Qed.

(** C3: Over a well-formed graph, a lawful lattice and a lawful transfer that
    maps bottom to bottom, an incremental solve from a proof valid for earlier
    inputs, none of which shares a fingerprint with a different new input, and a
    clean solve reach the same states, and so the same node fingerprints, and
    bind them to the same input identities. *)
Theorem incremental_agrees_with_clean g0 t0 bot0 b0 seeds0 previous g t bot b seeds fuel fuel' p q :
  graph_wf g -> Lawful bot -> LawfulTransfer (transfer t) -> transfer t bot = bot ->
  ValidProof g0 t0 bot0 b0 seeds0 previous -> NoCollision g0 t0 bot0 seeds0 g t bot seeds ->
  solve_incremental g t bot b seeds previous fuel = Ok p ->
  solve_proven g t bot b seeds fuel' = Ok q ->
  sol_states (proof_solution p) = sol_states (proof_solution q) /\
  proof_nodes p = proof_nodes q /\ inputs_of p = inputs_of q.
Proof.
  intros HG HL HT Hstrict HV HN Hp Hq.
  eapply solve_incremental_correct in Hp as [Hi _ _ Hn Hl]; [|done..].
  apply solve_proven_correct in Hq as [Hi' _ _ Hn' Hl']; [|done..].
  pose proof (least_unique _ _ _ HL _ _ _ Hl Hl') as Heq. split_and!; congruence.
Qed.
End IncrementalTheorems.

(** ** Totality of incremental solving

    An incremental solve started from a valid proof never aborts and always
    ends: every index and [expect] of its loops is justified and the work
    budget bounds the visits. *)

Section IncrementalSafe.
Context {Nd Ed L C S : Type} `{OrdKey Nd} `{OrdKey Ed} `{JoinSemilattice S} `{!ProofFingerprints Nd Ed C S}.
Context (g : DataflowGraph Nd Ed L C) (t : AdmittedTransfer (S:=S)) (b : QueryBudgets) (HG : graph_wf g).
Abbreviation Loop := (Loop (Nd:=Nd) (Ed:=Ed) (C:=C) (S:=S)).

(** What the incremental loop maintains. *)
Definition steady (w : Loop) : Prop :=
  sound g w /\ events_in g (l_events w) /\ (usage_work (l_usage w) <= max_work b)%N.

Lemma events_in_snoc events id (c : EdgeClass C) :
  is_Some (g_edges g !! id) -> events_in g events -> events_in g (events ++ [Propagate id c]).
Proof. clear HG. intros Hid He id' c' [Hin|[= -> ->]%list_elem_of_singleton]%elem_of_app; eauto. Qed.

Lemma events_in_visit events n : events_in g events -> events_in g (events ++ [Visit n]).
Proof. clear HG. intros He id' c' [Hin|[=]%list_elem_of_singleton]%elem_of_app; eauto. Qed.

Lemma incremental_edge_steady n loc out id (w : Loop) :
  steady w -> is_Some (g_edges g !! id) -> (max_work b < usize_max)%N ->
  safe (incremental_edge g b n loc out id w) /\
  forall w', incremental_edge g b n loc out id w = Ok w' ->
    steady w' /\ (usage_work (l_usage w) <= usage_work (l_usage w'))%N.
Proof using HG.
  intros [Hs [He Hw]] [e Hid] Hmax. destruct (wf_endpoints _ HG _ _ Hid) as [_ Ht].
  pose proof (covered_lookup g w _ (proj1 Hs) Ht) as Hcur.
  split.
  - unfold incremental_edge, graph_edge, graph_node. rewrite Hid. simpl. safe_auto.
  - intros w' Hok. pose proof (incremental_edge_refines g b n loc out id w w' Hok) as (e' & He' & Habs).
    assert (sound g w') as Hs' by (eapply join_into_sound; [|done|done]; congruence).
    unfold incremental_edge in Hok. solver_inv.
    case_decide; solver_inv;
      (split; [split_and!; [done|apply events_in_snoc; eauto|done]|unfold saturating_add in *; lia]).
Qed.

Lemma incremental_edges_steady n loc out ids (w : Loop) :
  steady w -> (forall id, id ∈ ids -> is_Some (g_edges g !! id)) -> (max_work b < usize_max)%N ->
  safe (incremental_edges g b n loc out ids w) /\
  forall w', incremental_edges g b n loc out ids w = Ok w' ->
    steady w' /\ (usage_work (l_usage w) <= usage_work (l_usage w'))%N.
Proof using HG.
  revert w. induction ids as [|id ids IH]; intros w Hw Hids Hmax; simpl.
  { split; [done|]. intros w' [= <-]. done. }
  destruct (incremental_edge_steady n loc out id w Hw) as [Hsafe Hnext]; [apply Hids; left|done|].
  assert (forall id, id ∈ ids -> is_Some (g_edges g !! id)) as Hids' by (intros; apply Hids; by right).
  split.
  - apply safe_rbind; [done|]. intros w1 [H1' _]%Hnext. by apply IH.
  - intros w' Hok. res_inv. match goal with He : incremental_edge _ _ _ _ _ _ _ = Ok _ |- _ =>
      apply Hnext in He as [H1' Hle] end.
    apply IH in Hok as [? ?]; [|done..]. split; [done|lia].
Qed.

Lemma incremental_visit_steady n (w : Loop) :
  steady w -> is_Some (g_nodes g !! n) -> (max_work b < usize_max)%N ->
  safe (incremental_visit g t b n w) /\
  forall w', incremental_visit g t b n w = Ok w' ->
    steady w' /\ (usage_work (l_usage w) < usage_work (l_usage w'))%N.
Proof using HG.
  intros (Hs & He & Hw) Hn Hmax. pose proof (covered_lookup g w n (proj1 Hs) Hn) as Hst.
  pose proof (successors_some g HG n Hn) as Hsucc.
  assert (forall u, (usage_work u <= max_work b)%N ->
    steady (with_usage (push_event w (Visit n)) u)) as Hsteady.
  { intros u Hu. split_and!; [exact Hs|by apply events_in_visit|done]. }
  unfold incremental_visit, graph_node. split.
  - safe_auto. res_inv.
    match goal with Hg : graph_successors _ _ = Some ?es |- _ => pose proof (successors_known g HG n es Hg) end.
    eapply incremental_edges_steady; [|done|done]. apply Hsteady. solver_inv. done.
  - intros w' Hok. solver_inv.
    match goal with Hg : graph_successors _ _ = Some ?es |- _ => pose proof (successors_known g HG n es Hg) end.
    eapply incremental_edges_steady in Hok as [? Hle]; [|by apply Hsteady|done|done].
    split; [done|]. simpl in *. unfold saturating_add in *. lia.
Qed.

Lemma incremental_loop_steady fuel (w : Loop) :
  steady w -> (max_work b < usize_max)%N ->
  N.to_nat (max_work b - usage_work (l_usage w)) < fuel ->
  safe (incremental_loop g t b fuel w) /\
  forall w', incremental_loop g t b fuel w = Ok w' -> steady w'.
Proof using HG.
  revert w. induction fuel as [|fuel IH]; intros w Hw Hmax Hfuel; simpl; [lia|].
  destruct (pop_first (l_pending w)) as [[n rest]|] eqn:Hpop; [|by split; [|intros w' [= <-]]].
  destruct Hw as (Hs & He & Hle). destruct (sound_pop g w n rest Hs Hpop) as [Hs' Hn].
  destruct (incremental_visit_steady n (with_pending w rest)) as [Hsafe Hnext]; [done|done|done|].
  split.
  - apply safe_rbind; [done|]. intros w1 [Hw1 Hlt]%Hnext. simpl in Hlt.
    apply IH; [done|done|]. destruct Hw1 as (_ & _ & ?). lia.
  - intros w' Hok. res_inv. match goal with Hv : incremental_visit _ _ _ _ _ = Ok _ |- _ =>
      apply Hnext in Hv as [Hw1 Hlt] end. simpl in Hlt.
    eapply IH; [exact Hw1|done| |done]. destruct Hw1 as (_ & _ & ?). lia.
Qed.

Lemma retain_events_spec affected events :
  events_in g events ->
  exists kept, retain_events g affected events = Ok kept /\ events_in g kept.
Proof.
  clear HG. induction events as [|ev events IH]; intros Hin; cbn [retain_events]; [by eexists|].
  destruct IH as (kept & Hk & He); [intros id c ?; apply (Hin id c); by right|].
  assert (events_in g (ev :: kept)) as Hcons.
  { intros id c [Heq|?]%elem_of_cons; [apply (Hin id c); rewrite Heq; left|by apply (He id c)]. }
  destruct ev as [n|id c].
  - rewrite Hk. simpl. eexists. split; [done|]. by case_decide.
  - destruct (Hin id c) as [e Hid]; [left|]. unfold graph_edge. rewrite Hid. simpl. rewrite Hk. simpl.
    eexists. split; [done|]. by case_decide.
Qed.

Lemma observed_edges_safe events : events_in g events -> safe (observed_edges g events).
Proof.
  clear HG. induction events as [|[n|id c] events IH]; intros Hin; cbn [observed_edges]; [done| |].
  - apply IH. intros id c ?. apply (Hin id c). by right.
  - destruct (Hin id c) as [e Hid]; [left|]. unfold graph_edge. rewrite Hid. simpl.
    apply safe_rbind; [|done]. apply IH. intros id' c' ?. apply (Hin id' c'). by right.
Qed.

(** A total state size within the machine word. *)
Lemma sum_sizes_safe (M : N) (l : list S) :
  (forall s : S, (state_size s <= M)%N) -> (M * len l <= usize_max)%N ->
  exists n, sum_sizes (Nd:=Nd) (Ed:=Ed) (L:=L) l = Ok n /\ (n <= M * len l)%N.
Proof.
  clear HG. intros HM. unfold len. induction l as [|s l IH]; cbn [sum_sizes length].
  - intros _. exists 0%N. split; [done|lia].
  - intros Hlen. destruct IH as (n & -> & Hn); [lia|]. simpl. specialize (HM s).
    assert (checked_add (state_size s) n = Some (state_size s + n)%N) as ->
      by (apply checked_add_Some; split; lia).
    simpl. eexists. split; [done|]. lia.
Qed.
End IncrementalSafe.

(** ** Events of a clean solve *)

Section SolveEvents.
Context {Nd Ed L C S : Type} `{OrdKey Nd} `{OrdKey Ed} `{JoinSemilattice S}.
Context (g : DataflowGraph Nd Ed L C) (t : AdmittedTransfer (S:=S)) (b : QueryBudgets).
Abbreviation Loop := (Loop (Nd:=Nd) (Ed:=Ed) (C:=C) (S:=S)).

Lemma solve_seeds_events seeds (w w' : Loop) :
  solve_seeds g b seeds w = Ok w' -> l_events w' = l_events w.
Proof.
  revert w. induction seeds as [|[id seed] seeds IH]; intros w; simpl; intros Hok; res_inv; [by subst|].
  apply IH in Hok as ->. match goal with Hs : solve_seed _ _ _ _ _ = Ok _ |- _ => unfold solve_seed in Hs end.
  destruct (graph_node g id); [|done]. solver_inv. case_decide; solver_inv; done.
Qed.

Lemma solve_edges_events n loc out ids (w w' : Loop) :
  solve_edges g b n loc out ids w = Ok w' -> events_in g (l_events w) -> events_in g (l_events w').
Proof.
  revert w. induction ids as [|id ids IH]; intros w; simpl; intros Hok Hw; res_inv; [by subst|].
  eapply IH; [done|]. match goal with He : solve_edge _ _ _ _ _ _ _ = Ok _ |- _ => unfold solve_edge in He end.
  solver_inv. case_decide; solver_inv; apply events_in_snoc; eauto.
Qed.

Lemma solve_loop_events fuel (w w' : Loop) :
  solve_loop g t b fuel w = Ok w' -> events_in g (l_events w) -> events_in g (l_events w').
Proof.
  revert w. induction fuel as [|fuel IH]; intros w; simpl; [done|].
  destruct (pop_first (l_pending w)) as [[n rest]|]; intros Hok Hw; res_inv; [|by subst].
  eapply IH; [done|]. match goal with Hv : solve_visit _ _ _ _ _ = Ok _ |- _ => unfold solve_visit in Hv end.
  solver_inv. eapply solve_edges_events; [done|]. by apply events_in_visit.
Qed.

Lemma solve_events_in fuel bot seeds s :
  solve g t b fuel bot seeds = Ok s -> events_in g (sol_events s).
Proof.
  unfold solve. intros Hok. res_inv. subst s. simpl. eapply solve_loop_events; [done|].
  match goal with Hs : solve_seeds _ _ _ _ = Ok _ |- _ => rewrite (solve_seeds_events _ _ _ Hs) end.
  match goal with Hs : solve_start _ _ _ = Ok _ |- _ => unfold solve_start in Hs end. solver_inv.
  intros id c Hin. by apply elem_of_nil in Hin.
Qed.
End SolveEvents.

Section IncrementalTotal.
Context {Nd Ed L C S : Type} `{OrdKey Nd} `{OrdKey Ed} `{JoinSemilattice S} `{!ProofFingerprints Nd Ed C S}.
Implicit Types (g : DataflowGraph Nd Ed L C) (t : AdmittedTransfer (S:=S)) (seeds : gmap Nd S).
Implicit Types (p previous : DataflowCompletionProof Nd Ed C S).

Lemma mint_safe g t bot b seeds s :
  events_in g (sol_events s) -> safe (mint_completion_proof g t bot b seeds s).
Proof. intros He. unfold mint_completion_proof. apply safe_rbind; [by apply observed_edges_safe|done]. Qed.

Lemma first_location_safe g : graph_wf g -> safe (first_location (Ed:=Ed) g).
Proof. intros HG. pose proof (graph_nodes_head g HG). unfold first_location. safe_auto. Qed.

Lemma solve_proven_safe g t bot b seeds fuel :
  graph_wf g -> (max_work b < usize_max)%N -> N.to_nat (max_work b) < fuel ->
  safe (solve_proven g t bot b seeds fuel).
Proof.
  intros HG Hmax Hfuel. unfold solve_proven. apply safe_rbind.
  - unfold solve. apply safe_rbind; [by apply solve_start_safe|]. intros w Hw.
    pose proof (solve_start_within g b bot w Hw) as Hin. apply solve_start_sound in Hw; [|done].
    destruct (solve_seeds_safe g b (map_entries seeds) w Hw) as [Hs Hsound].
    apply safe_rbind; [done|]. intros w' Hw'. apply safe_rbind; [|done].
    pose proof (solve_loop_no_panic g t b HG fuel w' (Hsound w' Hw')) as Hp.
    assert (solve_loop g t b fuel w' <> NoFuel) as Hf.
    { apply solve_loop_fuel; [done|by apply Hsound|by eapply solve_seeds_within|done|lia]. }
    by destruct (solve_loop g t b fuel w').
  - intros s Hs. apply mint_safe. by eapply solve_events_in.
Qed.

Lemma incremental_start_steady g t bot b seeds previous :
  graph_wf g -> Lawful bot -> dom (sol_states (proof_solution previous)) = dom (g_nodes g) ->
  events_in g (sol_events (proof_solution previous)) ->
  safe (incremental_start g t bot b seeds previous) /\
  forall w, incremental_start g t bot b seeds previous = Ok w -> steady g b w /\ usage_work (l_usage w) = 0%N.
Proof.
  intros HG HL Hd He. unfold incremental_start.
  destruct (affected_cone_total g bot seeds HG previous) as (affected & -> & HC). cbn [rbind].
  destruct (enter_cone_spec g t b HG bot seeds previous HL Hd _ _ HC)
    as (states & causes & -> & Hdom & _ & _). cbn [rbind].
  destruct (retain_events_spec g affected _ He) as (kept & -> & Hkept). cbn [rbind].
  pose proof (first_location_safe g HG). split; [safe_auto|].
  intros w Hok. res_inv. subst w. split; [|done]. split_and!; [|done|simpl; lia].
  split; [done|]. intros n [_ Hn]%elem_of_filter. apply elem_of_dom. by apply (cone_nodes _ _ _ _ HC).
Qed.

Lemma length_map_values {V} (m : gmap Nd V) : length (map_values m) = size m.
Proof.
  unfold map_values, map_entries. rewrite length_fmap, <- size_dom, <- length_set_keys. fold (map_keys m).
  assert (forall k, k ∈ map_keys m -> is_Some (m !! k)) as Hall by (intros k; by rewrite elem_of_map_keys).
  induction (map_keys m) as [|k ks IH]; [done|]. simpl.
  destruct (Hall k) as [x Hx]; [left|]. rewrite Hx. simpl. f_equal. apply IH. intros; apply Hall; by right.
Qed.

Lemma solve_cone_safe g t bot b seeds previous fuel (M : N) :
  graph_wf g -> Lawful bot -> dom (sol_states (proof_solution previous)) = dom (g_nodes g) ->
  events_in g (sol_events (proof_solution previous)) ->
  (forall s : S, (state_size s <= M)%N) -> (M * N.of_nat (size (g_nodes g)) <= usize_max)%N ->
  (max_work b < usize_max)%N -> N.to_nat (max_work b) < fuel ->
  safe (solve_cone g t bot b seeds previous fuel).
Proof.
  intros HG HL Hd He HM Hsize Hmax Hfuel. unfold solve_cone.
  destruct (incremental_start_steady g t bot b seeds previous HG HL Hd He) as [Hsafe Hstart].
  apply safe_rbind; [done|]. intros w [Hw Hwork]%Hstart.
  destruct (incremental_loop_steady g t b HG fuel w Hw Hmax) as [Hl Hend]; [lia|].
  apply safe_rbind; [done|]. intros w' ([Hcov _] & Hev & _)%Hend.
  destruct (sum_sizes_safe (Nd:=Nd) (Ed:=Ed) (L:=L) M (map_values (l_states w'))) as (n & -> & _); [done| |].
  { unfold len. rewrite length_map_values, <- size_dom, Hcov, size_dom. done. }
  cbn [rbind]. apply safe_rbind; [by apply first_location_safe|]. intros loc _.
  apply safe_rbind; [apply charge_safe|]. intros o _. by apply mint_safe.
Qed.

Lemma check_seeds_safe g ids : safe (check_seeds g ids).
Proof. induction ids; simpl; [done|]. by case_match. Qed.

(** An incremental solve from a valid proof always returns, with a proof
    or a typed error: no index or [expect] fires, the cone closes, and the
    work budget bounds the visits.  The total size of the states has to fit
    the machine word the final charge sums into. *)
Theorem solve_incremental_total g0 t0 bot0 b0 seeds0 previous g t bot b seeds fuel (M : N) :
  graph_wf g -> Lawful bot ->
  ValidProof g0 t0 bot0 b0 seeds0 previous -> NoCollision g0 t0 bot0 seeds0 g t bot seeds ->
  (forall s : S, (state_size s <= M)%N) -> (M * N.of_nat (size (g_nodes g)) <= usize_max)%N ->
  (max_work b < usize_max)%N -> N.to_nat (max_work b) < fuel ->
  safe (solve_incremental g t bot b seeds previous fuel).
Proof.
  intros HG HL [Hi _ He _ [[Hd _ _] _]] [Dg _ _ _ _] HM Hsize Hmax Hfuel. unfold solve_incremental.
  apply safe_rbind; [apply check_seeds_safe|]. intros _ _. cbn zeta.
  unfold inputs_of, proof_inputs in Hi. injection Hi as Eg El Ep Eb Elim Ed'.
  destruct (_ || _) eqn:Hsame; [by apply solve_proven_safe|].
  rewrite !orb_false_iff, !negb_false_iff, !N.eqb_eq in Hsame. simpl in Hsame.
  assert (g0 = g) as -> by (apply Dg; naive_solver congruence).
  case_match; [done|]. by eapply solve_cone_safe.
Qed.

(** The cone an incremental solve recomputes is exactly the set of nodes
    the changed seeds reach along the graph's edges. *)
Theorem affected_cone_exact g bot seeds previous :
  graph_wf g ->
  exists affected, affected_cone g bot seeds previous = Ok affected /\
  forall n, n ∈ affected <-> exists m, m ∈ changed_seeds g bot seeds previous /\ rtc (flows g) m n.
Proof.
  intros HG. destruct (affected_cone_total g bot seeds HG previous) as (affected & Hok & HC).
  exists affected. split; [done|]. intros n. split; [apply (cone_reached _ _ _ _ HC)|].
  intros (m & Hm & Hpath). apply (cone_changed _ _ _ _ HC) in Hm.
  induction Hpath as [|m k n Hmk _ IH]; [done|]. apply IH.
  eapply (cone_closed _ _ _ _ HC); [done|apply not_elem_of_empty|done].
Qed.

(** A proof is presented only for inputs whose solution it holds: what
    [present] returns for a valid proof is the least solution of the inputs it
    was asked about. *)
Theorem present_sound g0 t0 bot0 b0 seeds0 p g t bot b seeds s :
  ValidProof g0 t0 bot0 b0 seeds0 p -> NoCollision g0 t0 bot0 seeds0 g t bot seeds ->
  present g t bot b seeds p = Ok s ->
  LeastSolution g (transfer t) bot (map_entries seeds) (sol_states s).
Proof.
  intros [Hi _ _ _ Hl] [Dg Dt Db Ds _]. unfold present. cbn zeta.
  unfold inputs_of, proof_inputs in Hi. injection Hi as Eg El Ep Eb Elim Ed'.
  repeat (destruct (_ || _) eqn:Hc1; [done|]). rewrite !orb_false_iff, !negb_false_iff, !N.eqb_eq in Hc1.
  repeat match goal with |- (if negb ?c then _ else _) = _ -> _ => destruct c eqn:?; simpl; [|done] end.
  rewrite !N.eqb_eq in *. simpl in *. intros [= <-].
  assert (g0 = g) as -> by (apply Dg; naive_solver congruence).
  assert (bot0 = bot) as -> by (apply Db; congruence).
  assert (seeds0 = seeds) as -> by (apply Ds; congruence).
  assert (transfer t0 = transfer t) as <- by (unfold transfer; rewrite (Dt ltac:(congruence)); done).
  done.
Qed.
End IncrementalTotal.
