(* ===== verification/QueryEngine.v ===== *)
(** * The incremental query engine

    crates/sim-incremental-core/src: the memo graph of engine.rs and state.rs,
    the query frames of query.rs, the observations of observation.rs and the
    errors of error.rs.  A query callback is code of the caller: it is a
    program over the frame's operations, so that the model runs any callback.
    The engine's methods mutate the engine and the run even when they fail, so
    a computation returns its result together with both. *)

From stdpp Require Import strings.
From S2P Require Import Prelude BTree Lattice Budget.

Inductive ObservationKind :=
| KRead
| KMissing
| KListing
| KPolicy
| KEpoch
| KCustom (name : string).

#[export] Instance ObservationKind_eq_dec : EqDecision ObservationKind.
Proof. solve_decision. Defined.

Record Observation (K : Type) := {
  obs_key : K;
  obs_kind : ObservationKind;
  obs_revision : N;
  obs_fingerprint : option N;
}.
Arguments obs_key {K}.
Arguments obs_kind {K}.
Arguments obs_revision {K}.
Arguments obs_fingerprint {K}.

Definition observation_read {K} (key : K) (revision fingerprint : N) : Observation K :=
  {| obs_key := key; obs_kind := KRead; obs_revision := revision; obs_fingerprint := Some fingerprint |}.

Inductive IncrementalError (K : Type) :=
| UnknownQuery (key : K)
| Cycle (path : list K)
| QueryBudgetExceeded (kind : BudgetKind) (limit consumed : N) (continuation : option N)
| Cancelled
| UnknownContinuation (token : N).
Arguments UnknownQuery {K} key.
Arguments Cycle {K} path.
Arguments QueryBudgetExceeded {K} kind limit consumed continuation.
Arguments Cancelled {K}.
Arguments UnknownContinuation {K} token.

(** ** Callbacks

    A callback of type [Fn(&K, &mut QueryFrame) -> QueryResult<K, V>] interacts
    with the engine only through its frame.  [Observe] hands the callback the
    external state [X] of the key it has just observed. *)
Inductive Prog (K V X : Type) :=
| Return (v : V)
| Raise (e : IncrementalError K)
| Read (key : K) (cont : IncrementalError K + V -> Prog K V X)
| Observe (kind : ObservationKind) (key : K) (cont : IncrementalError K + X -> Prog K V X)
| ChargeWork (units : N) (cont : IncrementalError K + unit -> Prog K V X)
| ChargeOutput (units : N) (cont : IncrementalError K + unit -> Prog K V X)
| Cancel (cont : Prog K V X)
| CancellationRequested (cont : bool -> Prog K V X).
Arguments Return {K V X} v.
Arguments Raise {K V X} e.
Arguments Read {K V X} key cont.
Arguments Observe {K V X} kind key cont.
Arguments ChargeWork {K V X} units cont.
Arguments ChargeOutput {K V X} units cont.
Arguments Cancel {K V X} cont.
Arguments CancellationRequested {K V X} cont.

Definition Query (K V X : Type) := K -> Prog K V X.

Record QNode (K V : Type) := {
  q_revision : N;
  q_dirty : bool;
  q_value : option V;
  q_fingerprint : option N;
  q_dependencies : list (Observation K);
}.
Arguments q_revision {K V}.
Arguments q_dirty {K V}.
Arguments q_value {K V}.
Arguments q_fingerprint {K V}.
Arguments q_dependencies {K V}.

Definition node_default {K V} : QNode K V := {|
  q_revision := 0;
  q_dirty := true;
  q_value := None;
  q_fingerprint := None;
  q_dependencies := [];
|}.

Definition set_dirty {K V} (d : bool) (n : QNode K V) : QNode K V := {|
  q_revision := q_revision n;
  q_dirty := d;
  q_value := q_value n;
  q_fingerprint := q_fingerprint n;
  q_dependencies := q_dependencies n;
|}.

Record IncrementalEngine (K V X : Type) `{OrdKey K} := {
  queries : gmap K (Query K V X);
  nodes : gmap K (QNode K V);
  reverse : gmap K (gset K);
  source_revisions : gmap K N;
  continuations : gmap N K;
  next_revision : N;
  next_token : N;
}.
Arguments queries {K V X _}.
Arguments nodes {K V X _}.
Arguments reverse {K V X _}.
Arguments source_revisions {K V X _}.
Arguments continuations {K V X _}.
Arguments next_revision {K V X _}.
Arguments next_token {K V X _}.

Record RunState (K : Type) := {
  run_root : K;
  run_budgets : QueryBudgets;
  run_stack : list K;
  run_work : N;
  run_observations : N;
  run_output : N;
  run_cancelled : bool;
}.
Arguments run_root {K}.
Arguments run_budgets {K}.
Arguments run_stack {K}.
Arguments run_work {K}.
Arguments run_observations {K}.
Arguments run_output {K}.
Arguments run_cancelled {K}.

Definition new_run {K} (root : K) (budgets : QueryBudgets) : RunState K := {|
  run_root := root;
  run_budgets := budgets;
  run_stack := [];
  run_work := 0;
  run_observations := 0;
  run_output := 0;
  run_cancelled := false;
|}.

Section Updates.
Context {K V X : Type} `{OrdKey K}.
Abbreviation engine := (IncrementalEngine K V X).

Definition with_nodes (e : engine) (n : gmap K (QNode K V)) : engine := {|
  queries := queries e; nodes := n; reverse := reverse e; source_revisions := source_revisions e;
  continuations := continuations e; next_revision := next_revision e; next_token := next_token e |}.
Definition with_queries (e : engine) (q : gmap K (Query K V X)) : engine := {|
  queries := q; nodes := nodes e; reverse := reverse e; source_revisions := source_revisions e;
  continuations := continuations e; next_revision := next_revision e; next_token := next_token e |}.
Definition with_reverse (e : engine) (r : gmap K (gset K)) : engine := {|
  queries := queries e; nodes := nodes e; reverse := r; source_revisions := source_revisions e;
  continuations := continuations e; next_revision := next_revision e; next_token := next_token e |}.
Definition with_sources (e : engine) (s : gmap K N) : engine := {|
  queries := queries e; nodes := nodes e; reverse := reverse e; source_revisions := s;
  continuations := continuations e; next_revision := next_revision e; next_token := next_token e |}.
Definition with_continuations (e : engine) (c : gmap N K) (t : N) : engine := {|
  queries := queries e; nodes := nodes e; reverse := reverse e; source_revisions := source_revisions e;
  continuations := c; next_revision := next_revision e; next_token := t |}.
Definition with_revision (e : engine) (r : N) : engine := {|
  queries := queries e; nodes := nodes e; reverse := reverse e; source_revisions := source_revisions e;
  continuations := continuations e; next_revision := r; next_token := next_token e |}.
End Updates.

Section RunUpdates.
Context {K : Type}.

Definition with_stack (r : RunState K) (s : list K) : RunState K := {|
  run_root := run_root r; run_budgets := run_budgets r; run_stack := s; run_work := run_work r;
  run_observations := run_observations r; run_output := run_output r; run_cancelled := run_cancelled r |}.
Definition with_work (r : RunState K) (w : N) : RunState K := {|
  run_root := run_root r; run_budgets := run_budgets r; run_stack := run_stack r; run_work := w;
  run_observations := run_observations r; run_output := run_output r; run_cancelled := run_cancelled r |}.
Definition with_observations (r : RunState K) (o : N) : RunState K := {|
  run_root := run_root r; run_budgets := run_budgets r; run_stack := run_stack r; run_work := run_work r;
  run_observations := o; run_output := run_output r; run_cancelled := run_cancelled r |}.
Definition with_output (r : RunState K) (o : N) : RunState K := {|
  run_root := run_root r; run_budgets := run_budgets r; run_stack := run_stack r; run_work := run_work r;
  run_observations := run_observations r; run_output := o; run_cancelled := run_cancelled r |}.
Definition with_cancelled (r : RunState K) : RunState K := {|
  run_root := run_root r; run_budgets := run_budgets r; run_stack := run_stack r; run_work := run_work r;
  run_observations := run_observations r; run_output := run_output r; run_cancelled := true |}.
End RunUpdates.

(** ** Effects *)

Section Monad.
Context {K V X : Type} `{OrdKey K}.
Abbreviation engine := (IncrementalEngine K V X).
Abbreviation err := (IncrementalError K).

Definition QM (A : Type) : Type := engine -> RunState K -> Res err A * engine * RunState K.

Definition qret {A} (a : A) : QM A := fun e r => (Ok a, e, r).
Definition qfail {A} (x : err) : QM A := fun e r => (Err x, e, r).
Definition qlift {A} (x : Res err A) : QM A := fun e r => (x, e, r).

Definition qbind {A B} (m : QM A) (f : A -> QM B) : QM B := fun e r =>
  match m e r with
  | (Ok a, e, r) => f a e r
  | (Err x, e, r) => (Err x, e, r)
  | (Panic, e, r) => (Panic, e, r)
  | (NoFuel, e, r) => (NoFuel, e, r)
  end.

(** The result as a value, for callbacks that inspect it. *)
Definition qcatch {A} (m : QM A) : QM (err + A) := fun e r =>
  match m e r with
  | (Ok a, e, r) => (Ok (inr a), e, r)
  | (Err x, e, r) => (Ok (inl x), e, r)
  | (Panic, e, r) => (Panic, e, r)
  | (NoFuel, e, r) => (NoFuel, e, r)
  end.

Definition get_engine : QM engine := fun e r => (Ok e, e, r).
Definition put_engine (e : engine) : QM unit := fun _ r => (Ok tt, e, r).
Definition get_run : QM (RunState K) := fun e r => (Ok r, e, r).
Definition put_run (r : RunState K) : QM unit := fun e _ => (Ok tt, e, r).
End Monad.

Notation "'let!' x := m 'in' k" := (qbind m (fun x => k))
  (at level 200, x pattern, m at level 100, k at level 200,
   format "'[v' '[' 'let!'  x  :=  m  'in' ']' '/' k ']'") : res_scope.

(** ** Engine operations *)

Section Engine.
Context {K V X : Type} `{OrdKey K} `{EqDecision V} `{FingerprintValue V}.
Abbreviation engine := (IncrementalEngine K V X).
Abbreviation err := (IncrementalError K).
Abbreviation QM := (QM (K:=K) (V:=V) (X:=X)).

Definition new_engine : engine := {|
  queries := ∅;
  nodes := ∅;
  reverse := ∅;
  source_revisions := ∅;
  continuations := ∅;
  next_revision := 1;
  next_token := 1;
|}.

(** Counters are [u64] and abort on overflow. *)
Definition alloc_revision (e : engine) : Res err (N * engine) :=
  let? n := expect (checked_add (next_revision e) 1) in
  Ok (next_revision e, with_revision e n).

Definition alloc_continuation (e : engine) (root : K) : Res err (N * engine) :=
  let token := next_token e in
  let? n := expect (checked_add token 1) in
  Ok (token, with_continuations e (<[token := root]> (continuations e)) n).

Definition source_revision (e : engine) (key : K) : N := default 0%N (source_revisions e !! key).

Definition dirty_keys (e : engine) : list K :=
  (filter (fun kn : K * QNode K V => q_dirty kn.2 = true) (map_entries (nodes e))).*1.

Definition memo_revision (e : engine) (key : K) : option N := q_revision <$> nodes e !! key.

Definition memo_fingerprint (e : engine) (key : K) : option N := nodes e !! key ≫= q_fingerprint.

(** *** Invalidation *)

Fixpoint cascade (fuel : nat) (dependents : gmap K (gset K)) (pending seen : gset K)
    (ns : gmap K (QNode K V)) : Res err (gmap K (QNode K V)) :=
  match fuel with
  | O => NoFuel
  | S fuel =>
    match pop_first pending with
    | None => Ok ns
    | Some (next, pending) =>
      if decide (next ∈ seen) then cascade fuel dependents pending seen ns
      else
        cascade fuel dependents (pending ∪ default ∅ (dependents !! next)) ({[next]} ∪ seen)
          (alter (set_dirty true) next ns)
    end
  end.

(** Every key the cascade can meet. *)
Definition cascade_universe (e : engine) (key : K) : gset K :=
  {[key]} ∪ ⋃ map_values (reverse e).

Definition cascade_fuel (e : engine) (key : K) : nat :=
  let u := size (cascade_universe e key) in S (S u * S u).

Definition mark_dirty_cascade (e : engine) (key : K) : Res err engine :=
  let? ns := cascade (cascade_fuel e key) (reverse e) {[key]} ∅ (nodes e) in
  Ok (with_nodes e ns).

(** Removing [key] from the dependents of every observed key. *)
Definition unlink (key : K) (deps : list (Observation K)) (r : gmap K (gset K)) : gmap K (gset K) :=
  foldl (fun r o => alter (fun s => s ∖ {[key]}) (obs_key o) r) r deps.

(** Adding it, with a fresh entry where there is none. *)
Definition link (key : K) (deps : list (Observation K)) (r : gmap K (gset K)) : gmap K (gset K) :=
  foldl (fun r o => <[obs_key o := {[key]} ∪ default ∅ (r !! obs_key o)]> r) r deps.

Definition detach_node (e : engine) (key : K) : engine :=
  match nodes e !! key with
  | None => e
  | Some n =>
    let e := with_nodes e (delete key (nodes e)) in
    with_reverse e (delete key (unlink key (q_dependencies n) (reverse e)))
  end.

Definition register_query (e : engine) (key : K) (q : Query K V X) : Res err engine :=
  let e := with_queries e (<[key := q]> (queries e)) in
  let n := set_dirty true (default node_default (nodes e !! key)) in
  mark_dirty_cascade (with_nodes e (<[key := n]> (nodes e))) key.

Definition remove_query (e : engine) (key : K) : Res err (bool * engine) :=
  match queries e !! key with
  | None => Ok (false, e)
  | Some _ =>
    let? e := mark_dirty_cascade (with_queries e (delete key (queries e))) key in
    Ok (true, detach_node e key)
  end.

Definition invalidate (e : engine) (key : K) : Res err (N * engine) :=
  let? (revision, e) := alloc_revision e in
  let? e := mark_dirty_cascade (with_sources e (<[key := revision]> (source_revisions e))) key in
  Ok (revision, e).

(** *** Observations *)

Definition observation_is_current (e : engine) (o : Observation K) : bool :=
  match obs_kind o with
  | KRead =>
    match nodes e !! obs_key o with
    | None => false
    | Some n => negb (q_dirty n) && (q_revision n =? obs_revision o)%N
                && bool_decide (q_fingerprint n = obs_fingerprint o)
    end
  | _ => (source_revision e (obs_key o) =? obs_revision o)%N
  end.

Definition memo_observation (key : K) : QM (Observation K) :=
  let! e := get_engine in
  match nodes e !! key with
  | None => qfail (UnknownQuery key)
  | Some n =>
    match q_fingerprint n with
    | None => qfail (UnknownQuery key)
    | Some f => qret (observation_read key (q_revision n) f)
    end
  end.

(** *** Charging *)

Definition check_cancelled : QM unit :=
  let! r := get_run in if run_cancelled r then qfail Cancelled else qret tt.

Definition budget_error {A} (kind : BudgetKind) (limit consumed : N) : QM A :=
  let! e := get_engine in
  let! r := get_run in
  let! (token, e) := qlift (alloc_continuation e (run_root r)) in
  let! _ := put_engine e in
  qfail (QueryBudgetExceeded kind limit consumed (Some token)).

Definition charge_work (units : N) : QM unit :=
  let! _ := check_cancelled in
  let! r := get_run in
  let limit := max_work (run_budgets r) in
  let consumed := saturating_add (run_work r) units in
  if (limit <? consumed)%N then budget_error Work limit consumed
  else let! w := qlift (expect (checked_add (run_work r) units)) in put_run (with_work r w).

Definition charge_output (units : N) : QM unit :=
  let! _ := check_cancelled in
  let! r := get_run in
  let limit := max_output (run_budgets r) in
  let consumed := saturating_add (run_output r) units in
  if (limit <? consumed)%N then budget_error OutputUnits limit consumed
  else let! w := qlift (expect (checked_add (run_output r) units)) in put_run (with_output r w).

Definition charge_depth : QM unit :=
  let! r := get_run in
  let limit := max_depth (run_budgets r) in
  let consumed := saturating_add (len (run_stack r)) 1 in
  if (limit <? consumed)%N then budget_error Depth limit consumed else qret tt.

Definition charge_observation : QM unit :=
  let! r := get_run in
  let limit := max_observations (run_budgets r) in
  let consumed := saturating_add (run_observations r) 1 in
  if (limit <? consumed)%N then budget_error Observations limit consumed
  else let! w := qlift (expect (checked_add (run_observations r) 1)) in put_run (with_observations r w).

(** *** Committing *)

Definition commit_value (e : engine) (key : K) (value : V) (deps : list (Observation K)) : Res err engine :=
  let old := nodes e !! key in
  let old_deps := match old with Some n => q_dependencies n | None => [] end in
  let e := with_reverse e (unlink key old_deps (reverse e)) in
  let? (revision, e) :=
    match old with
    | Some n => if decide (q_value n = Some value) then Ok (q_revision n, e) else alloc_revision e
    | None => alloc_revision e
    end in
  let e := with_reverse e (link key deps (reverse e)) in
  Ok (with_nodes e (<[key := {| q_revision := revision;
                                q_dirty := false;
                                q_value := Some value;
                                q_fingerprint := Some (incremental_fingerprint value);
                                q_dependencies := deps |}]> (nodes e))).

(** *** Evaluation *)

Section Evaluate.
(** The external state callbacks observe, and the evaluation of other queries. *)
Context (ext : K -> X) (ev : K -> QM V).

(** [QueryFrame::read] and [QueryFrame::observe], with the recorded observation. *)
Definition frame_read (key : K) : QM (V * Observation K) :=
  let! v := ev key in
  let! o := memo_observation key in
  let! _ := charge_observation in
  qret (v, o).

Definition frame_observe (kind : ObservationKind) (key : K) : QM (Observation K) :=
  let! e := get_engine in
  let o := {| obs_key := key; obs_kind := kind; obs_revision := source_revision e key;
              obs_fingerprint := None |} in
  let! _ := charge_observation in
  qret o.

(** [Query::run]: one callback, with the observations it records. *)
Fixpoint run_query (p : Prog K V X) (obs : list (Observation K)) : QM (V * list (Observation K)) :=
  match p with
  | Return v => qret (v, obs)
  | Raise x => qfail x
  | Read key cont =>
    let! res := qcatch (frame_read key) in
    match res with
    | inl x => run_query (cont (inl x)) obs
    | inr (v, o) => run_query (cont (inr v)) (obs ++ [o])
    end
  | Observe kind key cont =>
    let! res := qcatch (frame_observe kind key) in
    match res with
    | inl x => run_query (cont (inl x)) obs
    | inr o => run_query (cont (inr (ext key))) (obs ++ [o])
    end
  | ChargeWork units cont => let! res := qcatch (charge_work units) in run_query (cont res) obs
  | ChargeOutput units cont => let! res := qcatch (charge_output units) in run_query (cont res) obs
  | Cancel cont =>
    let! r := get_run in
    let! _ := put_run (with_cancelled r) in
    run_query cont obs
  | CancellationRequested cont => let! r := get_run in run_query (cont (run_cancelled r)) obs
  end.

(** Re-evaluating the recorded reads of a stale memo, in order. *)
Fixpoint refresh (deps : list (Observation K)) : QM unit :=
  match deps with
  | [] => qret tt
  | o :: rest =>
    if decide (obs_kind o = KRead) then let! _ := ev (obs_key o) in refresh rest else refresh rest
  end.

Definition try_reuse_memo (key : K) : QM bool :=
  let! e := get_engine in
  match nodes e !! key with
  | None => qret false
  | Some n =>
    match q_value n with
    | None => qret false
    | Some _ =>
      let deps := q_dependencies n in
      let! _ :=
        if q_dirty n || existsb (fun o => negb (observation_is_current e o)) deps
        then refresh deps else qret tt in
      let! e := get_engine in
      if forallb (observation_is_current e) deps
      then
        let! _ := put_engine (with_nodes e (alter (set_dirty false) key (nodes e))) in
        qret true
      else qret false
    end
  end.

(** The memoized value of a key. *)
Definition memo_value (key : K) : QM V :=
  let! e := get_engine in
  match nodes e !! key ≫= q_value with
  | None => qfail (UnknownQuery key)
  | Some v => qret v
  end.

Definition evaluate_pushed (key : K) : QM V :=
  let! reused := try_reuse_memo key in
  if reused then memo_value key
  else
    let! _ := charge_work 1 in
    let! e := get_engine in
    match queries e !! key with
    | None => qfail (UnknownQuery key)
    | Some query =>
      let! (value, deps) := run_query (query key) [] in
      let! _ := charge_output 1 in
      let! e := get_engine in
      let! e := qlift (commit_value e key value deps) in
      let! _ := put_engine e in
      memo_value key
    end.

(** The position of a key on the stack. *)
Definition stack_position (key : K) (stack : list K) : option nat :=
  fst <$> list_find (fun k => k = key) stack.

Definition evaluate_step (key : K) : QM V :=
  let! _ := check_cancelled in
  let! e := get_engine in
  match queries e !! key with
  | None => qfail (UnknownQuery key)
  | Some _ =>
    let! r := get_run in
    match stack_position key (run_stack r) with
    | Some i => qfail (Cycle (drop i (run_stack r) ++ [key]))
    | None =>
      let! _ := charge_depth in
      let! r := get_run in
      let! _ := put_run (with_stack r (run_stack r ++ [key])) in
      fun e r =>
        let '(result, e, r) := evaluate_pushed key e r in
        (result, e, with_stack r (removelast (run_stack r)))
    end
  end.
End Evaluate.

Fixpoint evaluate (ext : K -> X) (fuel : nat) (key : K) : QM V :=
  match fuel with
  | O => qlift NoFuel
  | S fuel => evaluate_step ext (evaluate ext fuel) key
  end.

(** The stack holds distinct registered keys, so one level per query is enough. *)
Definition eval_fuel (e : engine) : nat := S (S (size (queries e))).

Definition verify_with_budgets (ext : K -> X) (e : engine) (key : K) (b : QueryBudgets) : Res err V * engine :=
  let '(result, e, _) := evaluate ext (eval_fuel e) key e (new_run key b) in (result, e).

Definition verify (ext : K -> X) (e : engine) (key : K) : Res err V * engine :=
  verify_with_budgets ext e key unlimited.

Definition resume (ext : K -> X) (e : engine) (token : N) (b : QueryBudgets) : Res err V * engine :=
  match continuations e !! token with
  | None => (Err (UnknownContinuation token), e)
  | Some root =>
    let '(result, e) := verify_with_budgets ext e root b in
    match result with
    | Ok v => (Ok v, with_continuations e (delete token (continuations e)) (next_token e))
    | failed => (failed, e)
    end
  end.

Fixpoint verify_each (ext : K -> X) (e : engine) (keys : list K) (b : QueryBudgets)
    : Res err (list (K * V)) * engine :=
  match keys with
  | [] => (Ok [], e)
  | key :: rest =>
    match verify_with_budgets ext e key b with
    | (Ok v, e) =>
      let '(out, e) := verify_each ext e rest b in (rmap (cons (key, v)) out, e)
    | (Err x, e) => (Err x, e)
    | (Panic, e) => (Panic, e)
    | (NoFuel, e) => (NoFuel, e)
    end
  end.

Definition verify_many_with_budgets (ext : K -> X) (e : engine) (keys : list K) (b : QueryBudgets)
    : Res err (list (K * V)) * engine :=
  verify_each ext e (set_keys (list_to_set keys)) b.
End Engine.
