(* ===== verification/QuerySemantics.v ===== *)
(** * From-scratch semantics and the memo invariant

    What a query means without memoization, and the invariant that relates the
    memo graph of QueryEngine.v to it: every clean memo holds the from-scratch
    value, every stored memo replays its recorded observations, and every
    recorded observation is reachable through the reverse index. *)

From S2P Require Import Prelude BTree Lattice Budget QueryEngine.

Section Semantics.
Context {K V X : Type} `{OrdKey K}.
Abbreviation prog := (Prog K V X).

(** [runs Q ext p v]: the callback [p] returns [v] when every query it reads is
    run from scratch in the external state [ext]. *)
Inductive runs (Q : gmap K (Query K V X)) (ext : K -> X) : prog -> V -> Prop :=
| runs_return v : runs Q ext (Return v) v
| runs_read key cont q v' v :
    Q !! key = Some q -> runs Q ext (q key) v' -> runs Q ext (cont (inr v')) v ->
    runs Q ext (Read key cont) v
| runs_observe kind key cont v :
    runs Q ext (cont (inr (ext key))) v -> runs Q ext (Observe kind key cont) v
| runs_work units cont v : runs Q ext (cont (inr tt)) v -> runs Q ext (ChargeWork units cont) v
| runs_output units cont v : runs Q ext (cont (inr tt)) v -> runs Q ext (ChargeOutput units cont) v
| runs_requested cont v : runs Q ext (cont false) v -> runs Q ext (CancellationRequested cont) v.

(** The from-scratch value of a key. *)
Definition scratch (Q : gmap K (Query K V X)) (ext : K -> X) (key : K) (v : V) : Prop :=
  exists q, Q !! key = Some q /\ runs Q ext (q key) v.

Lemma runs_deterministic Q ext p v v' : runs Q ext p v -> runs Q ext p v' -> v = v'.
Proof.
  intros H1 H2. revert v' H2. induction H1; intros w Hw; inversion Hw; subst; eauto.
  assert (q = q0) as -> by congruence. assert (v' = v'0) as -> by auto. auto.
Qed.

Lemma runs_mono Q Q' ext p v : Q ⊆ Q' -> runs Q ext p v -> runs Q' ext p v.
Proof. intros Hsub H1. induction H1; econstructor; eauto using lookup_weaken. Qed.

(** A callback that hands every failure of its frame on, as [?] does, and
    observes external state only under the external kinds. *)
Fixpoint disciplined (p : prog) : Prop :=
  match p with
  | Return _ | Raise _ => True
  | Read _ cont => (forall x, cont (inl x) = Raise x) /\ forall v, disciplined (cont (inr v))
  | Observe kind _ cont =>
      kind <> KRead /\ (forall x, cont (inl x) = Raise x) /\ forall x, disciplined (cont (inr x))
  | ChargeWork _ cont | ChargeOutput _ cont =>
      (forall x, cont (inl x) = Raise x) /\ disciplined (cont (inr tt))
  | Cancel cont => disciplined cont
  | CancellationRequested cont => forall b, disciplined (cont b)
  end.

(** ** Histories

    What each key held at each revision: the value of a memo, the external
    state of a source. *)
Record History := {
  value_at : K -> N -> option V;
  source_at : K -> N -> option X;
}.

Definition extends (h h' : History) : Prop :=
  (forall k r v, value_at h k r = Some v -> value_at h' k r = Some v) /\
  (forall k r x, source_at h k r = Some x -> source_at h' k r = Some x).

#[global] Instance extends_po : PreOrder extends.
Proof. split; [done|]. intros h1 h2 h3 [? ?] [? ?]. split; eauto. Qed.

(** [follows h p D p']: answering the operations of [p] from the history at the
    revisions recorded in [D] leads to [p']. *)
Inductive follows (h : History) : prog -> list (Observation K) -> prog -> Prop :=
| follows_nil p : follows h p [] p
| follows_read key cont rev f v D p :
    value_at h key rev = Some v -> follows h (cont (inr v)) D p ->
    follows h (Read key cont) (observation_read key rev f :: D) p
| follows_observe kind key cont rev x D p :
    kind <> KRead -> source_at h key rev = Some x -> follows h (cont (inr x)) D p ->
    follows h (Observe kind key cont)
      ({| obs_key := key; obs_kind := kind; obs_revision := rev; obs_fingerprint := None |} :: D) p
| follows_work units cont D p : follows h (cont (inr tt)) D p -> follows h (ChargeWork units cont) D p
| follows_output units cont D p : follows h (cont (inr tt)) D p -> follows h (ChargeOutput units cont) D p
| follows_requested cont D p : follows h (cont false) D p -> follows h (CancellationRequested cont) D p.

Lemma follows_extends h h' p D p' : extends h h' -> follows h p D p' -> follows h' p D p'.
Proof. intros [Hv Hx] Hf. induction Hf; econstructor; eauto. Qed.

Lemma follows_app h p D p' D' p'' : follows h p D p' -> follows h p' D' p'' -> follows h p (D ++ D') p''.
Proof. intros Hf. induction Hf; intros; simpl; try econstructor; eauto. Qed.

(** Operations that record nothing. *)
Lemma follows_silent h p D p' p'' : follows h p D p' -> follows h p' [] p'' -> follows h p D p''.
Proof. rewrite <- (app_nil_r D) at 2. apply follows_app. Qed.
End Semantics.

Arguments History K V X : clear implicits.

Section Invariant.
Context {K V X : Type} `{OrdKey K} `{EqDecision V} `{FingerprintValue V}.
Abbreviation engine := (IncrementalEngine K V X).
Implicit Types (e : engine) (h : History K V X) (ext : K -> X).

(** A revision a key will never hold again. *)
Definition dead e (key : K) (rev : N) : Prop :=
  (rev < next_revision e)%N /\
  forall n, nodes e !! key = Some n -> q_value n = None \/ q_revision n <> rev.

(** A stored memo: its fingerprint is its value's, the history has it, and the
    callback replays its recorded observations to it. *)
Definition stored e h (key : K) (n : QNode K V) : Prop :=
  match q_value n with
  | None => q_dirty n = true /\ q_dependencies n = []
  | Some v =>
    q_fingerprint n = Some (incremental_fingerprint v) /\
    value_at h key (q_revision n) = Some v /\
    exists q, queries e !! key = Some q /\ follows h (q key) (q_dependencies n) (Return v)
  end.

Definition linked e (key : K) (o : Observation K) : Prop :=
  key ∈ default ∅ (reverse e !! obs_key o) \/
  (obs_kind o = KRead /\ dead e (obs_key o) (obs_revision o)).

(** A clean memo is the from-scratch value and all it observed is current. *)
Definition fresh ext e (key : K) (n : QNode K V) : Prop :=
  (exists v, q_value n = Some v /\ scratch (queries e) ext key v) /\
  forall o, o ∈ q_dependencies n -> observation_is_current e o = true.

Record MemoInv ext h e : Prop := {
  inv_queries : forall k q, queries e !! k = Some q -> disciplined (q k);
  inv_registered : forall k, is_Some (nodes e !! k) -> is_Some (queries e !! k);
  inv_sources : forall k, source_at h k (source_revision e k) = Some (ext k);
  inv_values_old : forall k r v, value_at h k r = Some v -> (r < next_revision e)%N;
  inv_sources_old : forall k r x, source_at h k r = Some x -> (r < next_revision e)%N;
  inv_stored : forall k n, nodes e !! k = Some n -> stored e h k n;
  inv_fresh : forall k n, nodes e !! k = Some n -> q_dirty n = false -> fresh ext e k n;
  inv_linked : forall k n o, nodes e !! k = Some n -> o ∈ q_dependencies n -> linked e k o;
}.

(** Only the continuation table differs. *)
Definition same_memo e e' : Prop :=
  queries e' = queries e /\ nodes e' = nodes e /\ reverse e' = reverse e /\
  source_revisions e' = source_revisions e /\ next_revision e' = next_revision e.

Lemma same_memo_current e e' o : same_memo e e' -> observation_is_current e' o = observation_is_current e o.
Proof. intros (_ & Hn & _ & Hs & _). unfold observation_is_current, source_revision. by rewrite Hn, Hs. Qed.

Lemma same_memo_inv ext h e e' : same_memo e e' -> MemoInv ext h e -> MemoInv ext h e'.
Proof.
  intros Hsame [H1' H2' H3' H4' H5' H6' H7' H8'].
  pose proof (same_memo_current e e') as Hcur.
  destruct Hsame as (Hq & Hn & Hr & Hs & Hrev) eqn:Heq; clear Heq.
  split.
  - by rewrite Hq.
  - by rewrite Hq, Hn.
  - unfold source_revision. by rewrite Hs.
  - by rewrite Hrev.
  - by rewrite Hrev.
  - rewrite Hn. intros k n Hk. specialize (H6' k n Hk). unfold stored in *. by rewrite Hq.
  - rewrite Hn. intros k n Hk Hd. destruct (H7' k n Hk Hd) as [Hv Hc]. split; [by rewrite Hq|].
    intros o Ho. rewrite Hcur by done. auto.
  - rewrite Hn. intros k n o Hk Ho. specialize (H8' k n o Hk Ho). unfold linked, dead in *.
    by rewrite Hr, Hrev, Hn.
Qed.

(** ** Reusing a memo *)

Section Reuse.
Context (ext : K -> X) (h : History K V X) (e : engine) (HI : MemoInv ext h e).

(** A current read names a clean memo whose value is what the history has. *)
Lemma current_read key rev f v :
  observation_is_current e (observation_read key rev f) = true -> value_at h key rev = Some v ->
  scratch (queries e) ext key v.
Proof using HI.
  unfold observation_is_current. simpl. destruct (nodes e !! key) as [n|] eqn:Hn; [|done].
  rewrite !andb_true_iff, negb_true_iff, N.eqb_eq. intros [[Hd <-] _] Hv.
  destruct (inv_fresh _ _ _ HI key n Hn Hd) as [(v' & Hv' & Hs) _].
  pose proof (inv_stored _ _ _ HI key n Hn) as Hst. unfold stored in Hst. rewrite Hv' in Hst.
  destruct Hst as (_ & Hh & _). congruence.
Qed.

(** Replaying current observations runs the callback from scratch. *)
Lemma follows_runs p D p' :
  follows h p D p' -> (forall o, o ∈ D -> observation_is_current e o = true) ->
  forall v, runs (queries e) ext p' v -> runs (queries e) ext p v.
Proof using HI.
  intros Hf. induction Hf as [p|key cont rev f v D p Hv _ IH|kind key cont rev x D p Hk Hx _ IH| | |];
    intros Hc w Hw; try (constructor; eauto; fail); [done| |].
  - destruct (current_read key rev f v) as (q & Hq & Hr); [apply Hc; left|done|].
    econstructor; [done..|]. apply IH; [|done]. intros; apply Hc; by right.
  - constructor. assert (observation_is_current e
      {| obs_key := key; obs_kind := kind; obs_revision := rev; obs_fingerprint := None |} = true) as Hcur
      by (apply Hc; left).
    assert (source_revision e key = rev) as <-.
    { unfold observation_is_current in Hcur. simpl in Hcur. destruct kind; try done; by apply N.eqb_eq. }
    rewrite (inv_sources _ _ _ HI) in Hx. injection Hx as <-. apply IH; [|done]. intros; apply Hc; by right.
Qed.

Lemma stored_fresh key n v :
  nodes e !! key = Some n -> q_value n = Some v ->
  (forall o, o ∈ q_dependencies n -> observation_is_current e o = true) ->
  scratch (queries e) ext key v.
Proof using HI.
  intros Hn Hv Hc. pose proof (inv_stored _ _ _ HI key n Hn) as Hst. unfold stored in Hst. rewrite Hv in Hst.
  destruct Hst as (_ & _ & q & Hq & Hf). exists q. split; [done|].
  eapply follows_runs; [done|done|]. constructor.
Qed.
End Reuse.
End Invariant.

(** ** Evaluation preserves the invariant

    First the two writes an evaluation makes, marking a reused memo clean and
    committing a value with its observations; then evaluation itself. *)

Section Links.
Context {K : Type} `{OrdKey K}.
Implicit Types (r : gmap K (gset K)) (D : list (Observation K)).

Lemma elem_of_unlink key D r k k' :
  k' ∈ default ∅ (unlink key D r !! k) <->
  k' ∈ default ∅ (r !! k) /\ ~ (k' = key /\ exists o, o ∈ D /\ obs_key o = k).
Proof.
  unfold unlink. revert r. induction D as [|o D IH]; intros r; simpl.
  - split; [intros Hk; split; [done|]; intros (_ & o & Ho & _); by apply elem_of_nil in Ho|tauto].
  - rewrite IH. destruct (decide (obs_key o = k)) as [<-|Hne].
    + rewrite lookup_alter_eq. destruct (r !! obs_key o) as [s|]; simpl; [|set_solver].
      rewrite elem_of_difference, elem_of_singleton. split.
      * intros [[Hs Hk] _]. split; [done|]. tauto.
      * intros [Hs Hk]. split; [split; [done|]|].
        -- intros ->. apply Hk. split; [done|]. exists o. split; [left|done].
        -- intros (-> & o' & Ho' & Heq). apply Hk. split; [done|]. exists o'. split; [by right|done].
    + rewrite lookup_alter_ne by done. setoid_rewrite elem_of_cons. naive_solver.
Qed.

Lemma elem_of_link key D r k k' :
  k' ∈ default ∅ (link key D r !! k) <->
  k' ∈ default ∅ (r !! k) \/ (k' = key /\ exists o, o ∈ D /\ obs_key o = k).
Proof.
  unfold link. revert r. induction D as [|o D IH]; intros r; simpl.
  - split; [by left|]. intros [?|(_ & o & Ho & _)]; [done|by apply elem_of_nil in Ho].
  - rewrite IH. setoid_rewrite elem_of_cons. destruct (decide (obs_key o = k)) as [<-|Hne].
    + rewrite lookup_insert_eq. simpl. rewrite elem_of_union, elem_of_singleton.
      split; [|naive_solver]. intros [[->|?]|(-> & o' & Ho' & Heq)]; [right; eauto|by left|right; eauto].
    + rewrite lookup_insert_ne by done. naive_solver.
Qed.
End Links.

Section Memo.
Context {K V X : Type} `{OrdKey K} `{EqDecision V} `{FingerprintValue V}.
Abbreviation engine := (IncrementalEngine K V X).
Context (ext : K -> X) (h : History K V X) (e : engine) (HI : MemoInv ext h e).

(** Whether an observation is current depends on its own key only. *)
Lemma current_same_key (e' : engine) (o : Observation K) :
  nodes e' !! obs_key o = nodes e !! obs_key o -> source_revisions e' = source_revisions e ->
  observation_is_current e' o = observation_is_current e o.
Proof. intros Hn Hs. unfold observation_is_current, source_revision. by rewrite Hn, Hs. Qed.

Definition cleaned (key : K) : engine := with_nodes e (alter (set_dirty false) key (nodes e)).

Lemma cleaned_lookup key k n' :
  nodes (cleaned key) !! k = Some n' ->
  exists n, nodes e !! k = Some n /\ (n' = n /\ k <> key \/ k = key /\ n' = set_dirty false n).
Proof.
  unfold cleaned. simpl. destruct (decide (k = key)) as [->|Hne].
  - rewrite lookup_alter_eq. destruct (nodes e !! key); naive_solver.
  - rewrite lookup_alter_ne by done. naive_solver.
Qed.

Lemma current_cleaned key o :
  observation_is_current e o = true -> observation_is_current (cleaned key) o = true.
Proof.
  unfold cleaned, observation_is_current. simpl. destruct (obs_kind o); try done.
  destruct (decide (obs_key o = key)) as [<-|Hne].
  - rewrite lookup_alter_eq. destruct (nodes e !! obs_key o); [|done]. simpl.
    rewrite !andb_true_iff, !negb_true_iff. tauto.
  - by rewrite lookup_alter_ne by done.
Qed.

Lemma cleaned_inv key n v :
  nodes e !! key = Some n -> q_value n = Some v ->
  (forall o, o ∈ q_dependencies n -> observation_is_current e o = true) ->
  MemoInv ext h (cleaned key).
Proof using HI.
  intros Hn Hv Hc. split; simpl.
  - apply (inv_queries _ _ _ HI).
  - intros k [n' (n0 & Hn0 & _)%cleaned_lookup]. apply (inv_registered _ _ _ HI). eauto.
  - apply (inv_sources _ _ _ HI).
  - apply (inv_values_old _ _ _ HI).
  - apply (inv_sources_old _ _ _ HI).
  - intros k n' (n0 & Hn0 & [[-> Hk]|[-> ->]])%cleaned_lookup;
      pose proof (inv_stored _ _ _ HI _ _ Hn0) as Hst; [done|].
    assert (n0 = n) as -> by congruence. unfold stored in *. simpl. by rewrite Hv in *.
  - intros k n' (n0 & Hn0 & [[-> Hk]|[-> ->]])%cleaned_lookup Hd.
    + destruct (inv_fresh _ _ _ HI _ _ Hn0 Hd) as [Hf Hcur]. split; [done|].
      intros o Ho. apply current_cleaned. auto.
    + assert (n0 = n) as -> by congruence. split; simpl.
      * exists v. split; [done|]. by eapply stored_fresh.
      * intros o Ho. apply current_cleaned. auto.
  - intros k n' o (n0 & Hn0 & Hor)%cleaned_lookup Ho.
    assert (linked e k o) as Hl.
    { destruct Hor as [[-> _]|[-> ->]]; by eapply (inv_linked _ _ _ HI). }
    destruct Hl as [?|[Hk [Hr Hdead]]]; [by left|right]. split; [done|]. split; [done|].
    intros n1 (n2 & Hn2 & Hor')%cleaned_lookup. specialize (Hdead n2 Hn2).
    destruct Hor' as [[-> _]|[_ ->]]; done.
Qed.

(** The history after a commit of a new value. *)
Definition history_commit (key : K) (rev : N) (v : V) : History K V X := {|
  value_at := fun k r => if decide (k = key /\ r = rev) then Some v else value_at h k r;
  source_at := source_at h;
|}.

Lemma extends_commit key v : extends h (history_commit key (next_revision e) v).
Proof using HI.
  split; simpl; [|done]. intros k r w Hw. rewrite decide_False; [done|].
  intros [-> ->]. apply (inv_values_old _ _ _ HI) in Hw. lia.
Qed.

(** The node a commit stores. *)
Definition committed_node (rev : N) (v : V) (D : list (Observation K)) : QNode K V := {|
  q_revision := rev;
  q_dirty := false;
  q_value := Some v;
  q_fingerprint := Some (incremental_fingerprint v);
  q_dependencies := D;
|}.

(** What a commit does to the engine and the history: the revision [rev] is the
    old one when the value did not change and a new one otherwise. *)
Record Committed (key : K) (v : V) (D : list (Observation K)) (rev : N) (h' : History K V X) (e' : engine)
    : Prop := {
  com_extends : extends h h';
  com_value : value_at h' key rev = Some v;
  com_nodes : nodes e' = <[key := committed_node rev v D]> (nodes e);
  com_queries : queries e' = queries e;
  com_sources : source_revisions e' = source_revisions e;
  com_values_old : forall k r w, value_at h' k r = Some w -> (r < next_revision e')%N;
  com_source_at : source_at h' = source_at h;
  com_next : (next_revision e <= next_revision e')%N;
  com_not_dead : forall r, dead e key r -> r <> rev;
  com_reverse : forall k k', k' ∈ default ∅ (reverse e !! k) -> k' <> key -> k' ∈ default ∅ (reverse e' !! k);
  com_linked : forall o, o ∈ D -> key ∈ default ∅ (reverse e' !! obs_key o);
}.

(** The two ways a commit finds its revision. *)
Lemma commit_value_cases key v D e' :
  commit_value e key v D = Ok e' ->
  exists rev D0, nodes e' = <[key := committed_node rev v D]> (nodes e) /\
    queries e' = queries e /\ source_revisions e' = source_revisions e /\
    reverse e' = link key D (unlink key D0 (reverse e)) /\
    ((exists n, nodes e !! key = Some n /\ q_value n = Some v /\ rev = q_revision n /\
        next_revision e' = next_revision e) \/
     (rev = next_revision e /\ next_revision e' = (next_revision e + 1)%N)).
Proof.
  unfold commit_value, alloc_revision. intros Hok. apply rbind_Ok in Hok as ([rev e1] & Hrev & [= <-]).
  exists rev, (match nodes e !! key with Some n => q_dependencies n | None => [] end).
  destruct (nodes e !! key) as [n|] eqn:Hn; [case_decide as Hv|];
    try (destruct (checked_add _ 1) eqn:Hx; [apply checked_add_Some in Hx as [-> _]|]); simplify_eq/=;
    split_and!; try reflexivity; eauto 6.
Qed.

Lemma commit_value_committed key v D e' :
  commit_value e key v D = Ok e' -> exists rev h', Committed key v D rev h' e'.
Proof using HI.
  intros (rev & D0 & Hn & Hq & Hs & Hr & Hrev)%commit_value_cases.
  assert (forall k k', k' ∈ default ∅ (reverse e !! k) -> k' <> key -> k' ∈ default ∅ (reverse e' !! k)) as Hrev1.
  { intros k k' Hk Hne. rewrite Hr, elem_of_link, elem_of_unlink. left. split; [done|]. tauto. }
  assert (forall o, o ∈ D -> key ∈ default ∅ (reverse e' !! obs_key o)) as Hrev2.
  { intros o Ho. rewrite Hr, elem_of_link. right. eauto. }
  exists rev. destruct Hrev as [(n & Hn' & Hv & -> & Hnext)|[-> Hnext]].
  - exists h. pose proof (inv_stored _ _ _ HI key n Hn') as Hst. unfold stored in Hst. rewrite Hv in Hst.
    split; try done; rewrite ?Hnext; try done.
    + by destruct Hst as (_ & ? & _).
    + apply (inv_values_old _ _ _ HI).
    + intros r [_ Hd]. destruct (Hd n Hn'); congruence.
  - exists (history_commit key (next_revision e) v). split; try done; rewrite ?Hnext.
    + by apply extends_commit.
    + simpl. by rewrite decide_True.
    + simpl. intros k r w. case_decide as Hd; [lia|]. intros Hw%(inv_values_old _ _ _ HI). lia.
    + lia.
    + intros r [Hlt _] ->. lia.
Qed.

Section Commit.
Context (key : K) (v : V) (D : list (Observation K)) (rev : N) (h' : History K V X) (e' : engine).
Context (HC : Committed key v D rev h' e').

(** [key] was absent or dirty, so nothing current reads it. *)
Context (Hdirty : forall n, nodes e !! key = Some n -> q_dirty n = true).

Lemma committed_lookup k n :
  nodes e' !! k = Some n -> (k = key /\ n = committed_node rev v D) \/ (k <> key /\ nodes e !! k = Some n).
Proof using HC.
  rewrite (com_nodes _ _ _ _ _ _ HC). destruct (decide (k = key)) as [->|Hne].
  - rewrite lookup_insert_eq. naive_solver.
  - rewrite lookup_insert_ne by done. naive_solver.
Qed.

Lemma committed_current o : observation_is_current e o = true -> observation_is_current e' o = true.
Proof using HC Hdirty.
  intros Ho. unfold observation_is_current, source_revision in *.
  rewrite (com_sources _ _ _ _ _ _ HC), (com_nodes _ _ _ _ _ _ HC). destruct (obs_kind o); try done.
  destruct (decide (obs_key o = key)) as [Heq|Hne]; [|by rewrite lookup_insert_ne].
  rewrite Heq in Ho. destruct (nodes e !! key) as [n|] eqn:Hn; [|done]. by rewrite (Hdirty n) in Ho.
Qed.

Lemma committed_dead k r : dead e k r -> dead e' k r.
Proof using HC.
  intros Hd. split; [destruct Hd; pose proof (com_next _ _ _ _ _ _ HC); lia|].
  intros n [[-> ->]|[Hne Hn]]%committed_lookup; [|by apply Hd].
  right. simpl. by apply not_eq_sym, (com_not_dead _ _ _ _ _ _ HC).
Qed.

Lemma committed_inv q :
  queries e !! key = Some q -> follows h (q key) D (Return v) ->
  (forall o, o ∈ D -> observation_is_current e o = true) ->
  MemoInv ext h' e'.
Proof using HI HC Hdirty.
  intros Hq Hf Hc. pose proof (com_queries _ _ _ _ _ _ HC) as Hq'.
  pose proof (com_extends _ _ _ _ _ _ HC) as Hext. split.
  - rewrite Hq'. apply (inv_queries _ _ _ HI).
  - rewrite Hq'. intros k [n [[-> _]|[_ Hn]]%committed_lookup]; [eauto|]. apply (inv_registered _ _ _ HI). eauto.
  - unfold source_revision. rewrite (com_sources _ _ _ _ _ _ HC), (com_source_at _ _ _ _ _ _ HC).
    apply (inv_sources _ _ _ HI).
  - apply (com_values_old _ _ _ _ _ _ HC).
  - rewrite (com_source_at _ _ _ _ _ _ HC). intros k r x Hx%(inv_sources_old _ _ _ HI).
    pose proof (com_next _ _ _ _ _ _ HC). lia.
  - intros k n [[-> ->]|[_ Hn]]%committed_lookup; unfold stored; rewrite Hq'.
    + simpl. split_and!; [done|apply (com_value _ _ _ _ _ _ HC)|]. exists q. split; [done|].
      by eapply follows_extends.
    + pose proof (inv_stored _ _ _ HI k n Hn) as Hst. unfold stored in Hst. destruct (q_value n); [|done].
      destruct Hst as (? & ? & q' & ? & ?). split_and!; [done|by apply Hext|].
      exists q'. split; [done|]. by eapply follows_extends.
  - intros k n [[-> ->]|[_ Hn]]%committed_lookup Hd; unfold fresh; rewrite Hq'.
    + split; simpl; [|by intros; apply committed_current, Hc]. exists v. split; [done|]. exists q. split; [done|].
      eapply (follows_runs ext h e HI); [done|done|constructor].
    + destruct (inv_fresh _ _ _ HI k n Hn Hd) as [Hv Hcs]. split; [done|]. intros; apply committed_current; auto.
  - intros k n o [[-> ->]|[Hne Hn]]%committed_lookup Ho; unfold linked.
    + left. by apply (com_linked _ _ _ _ _ _ HC).
    + destruct (inv_linked _ _ _ HI k n o Hn Ho) as [Hin|[Hkind Hd]].
      * left. by apply (com_reverse _ _ _ _ _ _ HC).
      * right. split; [done|]. by apply committed_dead.
Qed.
End Commit.
End Memo.

(** ** Evaluation preserves the memo invariant

    A small Hoare logic for the engine's effects: every computation keeps the
    invariant of QuerySemantics.v, leaves the memos under evaluation and the
    clean memos alone, and what it returns satisfies a postcondition.  The
    result is that a successful evaluation returns the from-scratch value. *)

Section Frame.
Context {K V X : Type} `{OrdKey K} `{EqDecision V} `{FingerprintValue V}.
Abbreviation engine := (IncrementalEngine K V X).
Abbreviation QM := (QM (K:=K) (V:=V) (X:=X)).

(** What a computation that protects the memos [ks] leaves alone. *)
Record Frame (ks : list K) (e e' : engine) (r r' : RunState K) : Prop := {
  fr_queries : queries e' = queries e;
  fr_sources : source_revisions e' = source_revisions e;
  fr_stack : run_stack r' = run_stack r;
  fr_cancelled : run_cancelled r' = false -> run_cancelled r = false;
  fr_protected : forall k, k ∈ ks -> nodes e' !! k = nodes e !! k;
  fr_clean : forall k n, nodes e !! k = Some n -> q_dirty n = false -> nodes e' !! k = Some n;
}.

Lemma Frame_refl ks (e : engine) r : Frame ks e e r r.
Proof. by split. Qed.

Lemma Frame_trans ks (e1 e2 e3 : engine) r1 r2 r3 :
  Frame ks e1 e2 r1 r2 -> Frame ks e2 e3 r2 r3 -> Frame ks e1 e3 r1 r3.
Proof.
  intros [Q1 S1 K1 C1 P1 L1] [Q2 S2 K2 C2 P2 L2]. split; try congruence; eauto.
  intros k Hk. by rewrite P2, P1.
Qed.

Lemma Frame_weaken ks ks' (e e' : engine) r r' :
  (forall k, k ∈ ks' -> k ∈ ks) -> Frame ks e e' r r' -> Frame ks' e e' r r'.
Proof. intros Hsub [Q S K' C P L]. split; auto. Qed.

Lemma Frame_current ks (e e' : engine) r r' o :
  Frame ks e e' r r' -> observation_is_current e o = true -> observation_is_current e' o = true.
Proof.
  intros [Q S K' C P L]. unfold observation_is_current, source_revision. rewrite S.
  destruct (obs_kind o); try done. destruct (nodes e !! obs_key o) as [n|] eqn:Hn; [|done].
  intros Hc. rewrite (L _ n Hn); [done|]. rewrite !andb_true_iff, negb_true_iff in Hc. tauto.
Qed.

Lemma same_memo_Frame ks (e e' : engine) r r' :
  same_memo e e' -> run_stack r' = run_stack r -> run_cancelled r' = run_cancelled r -> Frame ks e e' r r'.
Proof. intros (Hq & Hn & Hr & Hs & Hrev) Hst Hc. split; try done; rewrite ?Hn, ?Hc; done. Qed.

(** ** Computations that touch neither memos nor stack *)

Definition quiet {A} (m : QM A) (post : RunState K -> Prop) : Prop :=
  forall e r res e' r', m e r = (res, e', r') ->
    same_memo e e' /\ run_stack r' = run_stack r /\ run_cancelled r' = run_cancelled r /\ res <> NoFuel /\
    (forall a, res = Ok a -> post r').

Lemma same_memo_refl (e : engine) : same_memo e e.
Proof. done. Qed.

Lemma budget_error_quiet {A} kind limit consumed : quiet (A:=A) (budget_error kind limit consumed) (fun _ => True).
Proof.
  intros e r res e' r'. unfold budget_error, alloc_continuation, qbind, get_engine, get_run, qlift, put_engine, qfail.
  destruct (checked_add _ _); intros Hm; simplify_eq/=; done.
Qed.

Lemma check_cancelled_quiet : quiet check_cancelled (fun r => run_cancelled r = false).
Proof.
  intros e r res e' r'. unfold check_cancelled, qbind, get_run, qfail, qret.
  destruct (run_cancelled r) eqn:Hc; intros Hm; simplify_eq/=; done.
Qed.

Lemma charge_observation_quiet : quiet charge_observation (fun _ => True).
Proof.
  intros e r res e' r' Hm. unfold charge_observation, qbind, get_run in Hm.
  case_match; [by eapply budget_error_quiet|].
  unfold qlift, put_run in Hm. destruct (checked_add _ _); simplify_eq/=; done.
Qed.

Lemma charge_depth_quiet : quiet charge_depth (fun _ => True).
Proof.
  intros e r res e' r' Hm. unfold charge_depth, qbind, get_run in Hm.
  case_match; [by eapply budget_error_quiet|]. unfold qret in Hm. simplify_eq/=. done.
Qed.

Lemma charge_work_quiet units : quiet (charge_work units) (fun r => run_cancelled r = false).
Proof.
  intros e r res e' r' Hm. unfold charge_work, qbind at 1 in Hm.
  unfold check_cancelled, qbind, get_run, qfail, qret in Hm.
  destruct (run_cancelled r) eqn:Hc; [simplify_eq/=; done|]. case_match.
  - destruct (budget_error_quiet _ _ _ _ _ _ _ _ Hm) as (? & ? & ? & ? & _). split_and!; try done; congruence.
  - unfold qlift, put_run in Hm. destruct (checked_add _ _); simplify_eq/=; done.
Qed.

Lemma charge_output_quiet units : quiet (charge_output units) (fun r => run_cancelled r = false).
Proof.
  intros e r res e' r' Hm. unfold charge_output, qbind at 1 in Hm.
  unfold check_cancelled, qbind, get_run, qfail, qret in Hm.
  destruct (run_cancelled r) eqn:Hc; [simplify_eq/=; done|]. case_match.
  - destruct (budget_error_quiet _ _ _ _ _ _ _ _ Hm) as (? & ? & ? & ? & _). split_and!; try done; congruence.
  - unfold qlift, put_run in Hm. destruct (checked_add _ _); simplify_eq/=; done.
Qed.
End Frame.

Section Hoare.
Context {K V X : Type} `{OrdKey K} `{EqDecision V} `{FingerprintValue V} (ext : K -> X).
Abbreviation engine := (IncrementalEngine K V X).
Abbreviation QM := (QM (K:=K) (V:=V) (X:=X)).
Implicit Types (h : History K V X) (e : engine) (r : RunState K) (ks : list K).

(** From an invariant state, [m] ends in an invariant state it may have
    extended, and what it returns satisfies [post]. *)
Definition spec {A} ks (m : QM A) h e r (post : A -> History K V X -> engine -> RunState K -> Prop) : Prop :=
  forall res e' r', m e r = (res, e', r') ->
    exists h', extends h h' /\ MemoInv ext h' e' /\ Frame ks e e' r r' /\
      (forall a, res = Ok a -> post a h' e' r').

Lemma spec_same {A} ks h e r (res : Res (IncrementalError K) A) (post : A -> _ -> _ -> _ -> Prop) :
  MemoInv ext h e -> (forall a, res = Ok a -> post a h e r) -> spec ks (fun e r => (res, e, r)) h e r post.
Proof. intros HI Hp res' e' r' [= <- <- <-]. exists h. split_and!; eauto using Frame_refl; reflexivity. Qed.

Lemma spec_bind {A B} ks (m : QM A) (f : A -> QM B) h e r P Q :
  spec ks m h e r P ->
  (forall a h1 e1 r1, extends h h1 -> MemoInv ext h1 e1 -> Frame ks e e1 r r1 -> P a h1 e1 r1 ->
     spec ks (f a) h1 e1 r1 Q) ->
  spec ks (qbind m f) h e r Q.
Proof.
  intros Hm Hf res e' r' Heq. unfold qbind in Heq.
  destruct (m e r) as [[res1 e1] r1] eqn:Hm1. destruct (Hm _ _ _ Hm1) as (h1 & Hx & HI & HF & Hp).
  destruct res1 as [a| | |]; try (simplify_eq/=; exists h1; done).
  destruct (Hf a h1 e1 r1 Hx HI HF (Hp a eq_refl) _ _ _ Heq) as (h2 & Hx2 & HI2 & HF2 & Hq).
  exists h2. split_and!; [by etrans|done|by eapply Frame_trans|done].
Qed.

Lemma spec_catch {A} ks (m : QM A) h e r P :
  spec ks m h e r P -> spec ks (qcatch m) h e r (fun x h' e' r' => forall a, x = inr a -> P a h' e' r').
Proof.
  intros Hm res e' r' Heq. unfold qcatch in Heq.
  destruct (m e r) as [[res1 e1] r1] eqn:Hm1. destruct (Hm _ _ _ Hm1) as (h1 & Hx & HI & HF & Hp).
  destruct res1; simplify_eq/=; exists h1; split_and!; naive_solver.
Qed.

Lemma spec_quiet {A} ks (m : QM A) h e r P :
  quiet m P -> MemoInv ext h e ->
  spec ks m h e r (fun _ h' e' r' => h' = h /\ same_memo e e' /\ run_stack r' = run_stack r /\ P r').
Proof.
  intros Hm HI res e' r' Heq. destruct (Hm _ _ _ _ _ Heq) as (Hs & Hst & Hc & _ & Hp).
  exists h. split_and!; [reflexivity|by eapply same_memo_inv|by apply same_memo_Frame|naive_solver].
Qed.

Lemma spec_weaken {A} ks ks' (m : QM A) h e r (P Q : A -> _ -> _ -> _ -> Prop) :
  (forall k, k ∈ ks' -> k ∈ ks) -> spec ks m h e r P ->
  (forall a h' e' r', extends h h' -> MemoInv ext h' e' -> Frame ks e e' r r' -> P a h' e' r' -> Q a h' e' r') ->
  spec ks' m h e r Q.
Proof.
  intros Hsub Hm HPQ res e' r' Heq. destruct (Hm _ _ _ Heq) as (h1 & Hx & HI & HF & Hp).
  exists h1. split_and!; [done|done|by eapply Frame_weaken|eauto].
Qed.

Lemma spec_get_engine {A} ks (f : engine -> QM A) h e r P :
  spec ks (f e) h e r P -> spec ks (qbind get_engine f) h e r P.
Proof. done. Qed.

Lemma spec_get_run {A} ks (f : RunState K -> QM A) h e r P :
  spec ks (f r) h e r P -> spec ks (qbind get_run f) h e r P.
Proof. done. Qed.

(** The memo of [key] is clean and holds [v]. *)
Definition clean_at e (key : K) (v : V) : Prop :=
  exists n, nodes e !! key = Some n /\ q_dirty n = false /\ q_value n = Some v.

(** What evaluation promises: the memos on the stack stay as they are, and a
    returned value is the clean memo of the key. *)
Definition eval_spec (ev : K -> QM V) : Prop :=
  forall key h e r, MemoInv ext h e ->
    spec (run_stack r) (ev key) h e r (fun v _ e' _ => clean_at e' key v).

Section Step.
Context (ev : K -> QM V) (HE : eval_spec ev).

Lemma frame_read_spec key h e r :
  MemoInv ext h e ->
  spec (run_stack r) (frame_read ev key) h e r (fun vo h' e' _ =>
    exists rev f, vo.2 = observation_read key rev f /\ value_at h' key rev = Some vo.1 /\
      observation_is_current e' vo.2 = true).
Proof using HE.
  intros HI. unfold frame_read. eapply spec_bind; [by apply HE|].
  intros v h1 e1 r1 _ HI1 HF1 (n & Hn & Hd & Hv).
  pose proof (inv_stored _ _ _ HI1 key n Hn) as Hst. unfold stored in Hst. rewrite Hv in Hst.
  destruct Hst as (Hfp & Hval & _).
  eapply spec_bind with (P := fun o h' e' _ => h' = h1 /\ e' = e1 /\
    o = observation_read key (q_revision n) (incremental_fingerprint v)).
  { unfold memo_observation. intros res e' r' Heq. unfold qbind, get_engine in Heq. rewrite Hn, Hfp in Heq.
    unfold qret in Heq. simplify_eq/=. exists h1. split_and!; [reflexivity|done|apply Frame_refl|naive_solver]. }
  intros o h2 e2 r2 _ HI2 _ (-> & -> & ->).
  eapply spec_bind; [by apply (spec_quiet _ _ _ _ _ _ charge_observation_quiet)|].
  intros _ h3 e3 r3 _ HI3 _ (-> & Hsame & _). apply spec_same; [done|]. intros a [= <-]. simpl.
  eexists _, _. split_and!; [done|done|]. rewrite (same_memo_current e1 e3) by done.
  unfold observation_is_current. simpl. rewrite Hn, Hd, Hfp, N.eqb_refl. simpl. by apply bool_decide_eq_true.
Qed.

Lemma frame_observe_spec kind key h e r :
  kind <> KRead -> MemoInv ext h e ->
  spec (run_stack r) (frame_observe kind key) h e r (fun o h' e' _ =>
    exists rev, o = {| obs_key := key; obs_kind := kind; obs_revision := rev; obs_fingerprint := None |} /\
      source_at h' key rev = Some (ext key) /\ observation_is_current e' o = true).
Proof.
  intros Hk HI. unfold frame_observe. apply spec_get_engine.
  eapply spec_bind; [by apply (spec_quiet _ _ _ _ _ _ charge_observation_quiet)|].
  intros _ h1 e1 r1 _ HI1 _ (-> & Hsame & _). apply spec_same; [done|]. intros a [= <-].
  exists (source_revision e key). split_and!; [done|apply (inv_sources _ _ _ HI)|].
  rewrite (same_memo_current e e1) by done. unfold observation_is_current. simpl.
  destruct kind; try done; apply N.eqb_refl.
Qed.

(** Running the rest [p] of the callback [p0] after the observations [D]. *)
Lemma run_query_spec p0 p : forall D h e r,
  MemoInv ext h e -> disciplined p ->
  (run_cancelled r = false -> follows h p0 D p) ->
  (forall o, o ∈ D -> observation_is_current e o = true) ->
  spec (run_stack r) (run_query ext ev p D) h e r (fun vD h' e' r' =>
    run_cancelled r' = false -> follows h' p0 vD.2 (Return vD.1) /\
    forall o, o ∈ vD.2 -> observation_is_current e' o = true).
Proof using HE.
  induction p as [v|x|key cont IH|kind key cont IH|units cont IH|units cont IH|cont IH|cont IH];
    intros D h e r HI Hp Hf Hc; cbn [run_query]; cbn [disciplined] in Hp.
  - apply spec_same; [done|]. intros a [= <-] Hr. simpl. auto.
  - by apply spec_same.
  - destruct Hp as [Hraise Hp]. eapply spec_bind; [by apply spec_catch, frame_read_spec|].
    intros [x|[v o]] h1 e1 r1 Hx HI1 HF Hpost; [rewrite Hraise; by apply spec_same|].
    destruct (Hpost (v, o) eq_refl) as (rev & f & Ho & Hv & Hcur). simpl in *. subst o.
    rewrite <- (fr_stack _ _ _ _ _ HF). apply IH; [done|apply Hp| |].
    + intros Hr%(fr_cancelled _ _ _ _ _ HF). eapply follows_app; [eapply follows_extends; eauto|].
      eapply follows_read; [done|constructor].
    + intros o [Ho|Ho]%elem_of_app; [by eapply Frame_current; eauto|].
      apply list_elem_of_singleton in Ho as ->. done.
  - destruct Hp as (Hk & Hraise & Hp). eapply spec_bind; [by apply spec_catch, frame_observe_spec|].
    intros [x|o] h1 e1 r1 Hx HI1 HF Hpost; [rewrite Hraise; by apply spec_same|].
    destruct (Hpost o eq_refl) as (rev & Ho & Hv & Hcur). subst o.
    rewrite <- (fr_stack _ _ _ _ _ HF). apply IH; [done|apply Hp| |].
    + intros Hr%(fr_cancelled _ _ _ _ _ HF). eapply follows_app; [eapply follows_extends; eauto|].
      eapply follows_observe; [done|done|constructor].
    + intros o [Ho|Ho]%elem_of_app; [by eapply Frame_current; eauto|].
      apply list_elem_of_singleton in Ho as ->. done.
  - destruct Hp as [Hraise Hp].
    eapply spec_bind; [by apply spec_catch, (spec_quiet _ _ _ _ _ _ (charge_work_quiet units))|].
    intros [x|[]] h1 e1 r1 Hx HI1 HF Hpost; [rewrite Hraise; by apply spec_same|].
    rewrite <- (fr_stack _ _ _ _ _ HF). apply IH; [done|done| |by intros; eapply Frame_current; eauto].
    intros Hr%(fr_cancelled _ _ _ _ _ HF).
    eapply follows_silent; [eapply follows_extends; eauto|repeat constructor].
  - destruct Hp as [Hraise Hp].
    eapply spec_bind; [by apply spec_catch, (spec_quiet _ _ _ _ _ _ (charge_output_quiet units))|].
    intros [x|[]] h1 e1 r1 Hx HI1 HF Hpost; [rewrite Hraise; by apply spec_same|].
    rewrite <- (fr_stack _ _ _ _ _ HF). apply IH; [done|done| |by intros; eapply Frame_current; eauto].
    intros Hr%(fr_cancelled _ _ _ _ _ HF).
    eapply follows_silent; [eapply follows_extends; eauto|repeat constructor].
  - apply spec_get_run. eapply spec_bind with (P := fun _ h' e' r' => h' = h /\ e' = e /\ r' = with_cancelled r).
    { intros res e' r' [= <- <- <-]. exists h. split_and!; [reflexivity|done|by split|done]. }
    intros _ h1 e1 r1 _ _ _ (-> & -> & ->).
    change (run_stack r) with (run_stack (with_cancelled r)). by apply IH.
  - apply spec_get_run. apply IH; [done|apply Hp| |done].
    intros Hr. rewrite Hr in *. eapply follows_silent; [by apply Hf|repeat constructor].
Qed.

Lemma refresh_spec D : forall h e r,
  MemoInv ext h e -> spec (run_stack r) (refresh ev D) h e r (fun _ _ _ _ => True).
Proof using HE.
  induction D as [|o D IH]; intros h e r HI; cbn [refresh]; [by apply spec_same|].
  case_decide; [|by apply IH]. eapply spec_bind; [by apply HE|].
  intros v h1 e1 r1 _ HI1 HF _. rewrite <- (fr_stack _ _ _ _ _ HF). by apply IH.
Qed.

(** ** One key on top of the stack *)

Section Pushed.
Context (key : K) (ks : list K) (Hkey : key ∉ ks).

Lemma cleaned_frame e r n :
  nodes e !! key = Some n -> Frame ks e (cleaned e key) r r.
Proof using Hkey.
  intros Hn. split; try done; unfold cleaned; simpl.
  - intros k Hk. rewrite lookup_alter_ne; [done|]. by intros ->.
  - intros k n' Hn' Hd. destruct (decide (k = key)) as [->|Hne]; [|by rewrite lookup_alter_ne].
    rewrite lookup_alter_eq, Hn'. simpl. f_equal. destruct n'. unfold set_dirty. simpl in *. by subst.
Qed.

Lemma try_reuse_spec h e r :
  MemoInv ext h e -> run_stack r = ks ++ [key] ->
  spec ks (try_reuse_memo ev key) h e r (fun reused _ e' _ =>
    if reused then exists v, clean_at e' key v
    else forall n, nodes e' !! key = Some n -> q_dirty n = true).
Proof using HE Hkey.
  intros HI Hst. unfold try_reuse_memo. apply spec_get_engine.
  destruct (nodes e !! key) as [n|] eqn:Hn; cycle 1.
  { apply spec_same; [done|]. intros a [= <-] n' Hn'. congruence. }
  destruct (q_value n) as [v|] eqn:Hv; cycle 1.
  { apply spec_same; [done|]. intros a [= <-] n' Hn'. assert (n' = n) as -> by congruence.
    pose proof (inv_stored _ _ _ HI key n Hn) as Hs. unfold stored in Hs. rewrite Hv in Hs. by destruct Hs. }
  eapply spec_bind with (P := fun _ _ e' _ => nodes e' !! key = Some n).
  { eapply (spec_weaken (run_stack r)); [intros k Hk; rewrite Hst; set_solver| |].
    - instantiate (1 := fun _ _ _ _ => True). case_match; [by apply refresh_spec|by apply spec_same].
    - intros a h' e' r' _ _ HF _. rewrite (fr_protected _ _ _ _ _ HF), Hn; [done|]. rewrite Hst. set_solver. }
  intros _ h1 e1 r1 _ HI1 _ Hn1. apply spec_get_engine.
  destruct (forallb _ _) eqn:Hall.
  - rewrite forallb_forall in Hall.
    assert (forall o, o ∈ q_dependencies n -> observation_is_current e1 o = true) as Hcur.
    { intros o Ho. apply Hall. by apply list_elem_of_In. }
    intros res e' r' Heq. unfold qbind, put_engine, qret in Heq. simplify_eq/=.
    exists h1. split_and!; [reflexivity|by eapply cleaned_inv|by eapply cleaned_frame|].
    intros a [= <-]. exists v, (set_dirty false n). simpl. rewrite lookup_alter_eq, Hn1. done.
  - apply spec_same; [done|]. intros a [= <-] n' Hn'. assert (n' = n) as -> by congruence.
    destruct (q_dirty n) eqn:Hd; [done|]. exfalso. apply not_true_iff_false in Hall. apply Hall.
    apply forallb_forall. intros o Ho%list_elem_of_In. by apply (inv_fresh _ _ _ HI1 key n Hn').
Qed.

Lemma memo_value_spec h e r (v : V) :
  MemoInv ext h e -> clean_at e key v ->
  spec ks (memo_value key) h e r (fun w _ e' _ => clean_at e' key w).
Proof.
  intros HI Hc. destruct Hc as (n & Hn & Hd & Hv). unfold memo_value. apply spec_get_engine.
  rewrite Hn. simpl. rewrite Hv. apply spec_same; [done|]. intros a [= <-]. by exists n.
Qed.

Lemma commit_spec h e r q v D :
  MemoInv ext h e -> queries e !! key = Some q -> follows h (q key) D (Return v) ->
  (forall o, o ∈ D -> observation_is_current e o = true) ->
  (forall n, nodes e !! key = Some n -> q_dirty n = true) ->
  spec ks (let! e := qlift (commit_value e key v D) in let! _ := put_engine e in memo_value key) h e r
    (fun w _ e' _ => clean_at e' key w).
Proof using Hkey.
  intros HI Hq Hf Hc Hdirty. destruct (commit_value e key v D) as [e1| | |] eqn:Hok;
    try (intros res e' r' Heq; unfold qbind, qlift in Heq; simplify_eq/=; exists h;
         split_and!; [reflexivity|done|apply Frame_refl|done]; fail).
  destruct (commit_value_committed ext h e HI key v D e1 Hok) as (rev & h' & HC).
  pose proof (com_nodes _ _ _ _ _ _ _ _ HC) as Hnodes.
  assert (clean_at e1 key v) as Hclean.
  { exists (committed_node rev v D). rewrite Hnodes, lookup_insert_eq. done. }
  assert (MemoInv ext h' e1) as HI' by (by eapply committed_inv).
  intros res e' r' Heq. unfold qbind at 1, qlift, qbind, put_engine in Heq.
  destruct (memo_value_spec h' e1 r v HI' Hclean _ _ _ Heq) as (h2 & Hx & HI2 & HF & Hp).
  exists h2. split_and!; [etrans; [by apply (com_extends _ _ _ _ _ _ _ _ HC)|done]|done| |done].
  eapply Frame_trans; [|done]. split; try done.
  - apply (com_queries _ _ _ _ _ _ _ _ HC).
  - apply (com_sources _ _ _ _ _ _ _ _ HC).
  - intros k Hk. rewrite Hnodes, lookup_insert_ne; [done|]. by intros ->.
  - intros k n Hn Hd. rewrite Hnodes, lookup_insert_ne; [done|]. intros <-. by rewrite (Hdirty n Hn) in Hd.
Qed.

Lemma evaluate_pushed_spec h e r :
  MemoInv ext h e -> run_stack r = ks ++ [key] ->
  spec ks (evaluate_pushed ext ev key) h e r (fun v _ e' _ => clean_at e' key v).
Proof using HE Hkey.
  intros HI Hst. unfold evaluate_pushed. eapply spec_bind; [by apply try_reuse_spec|].
  intros [|] h1 e1 r1 _ HI1 HF1 Hpost; [destruct Hpost as [v Hv]; by eapply memo_value_spec|].
  eapply spec_bind; [by apply (spec_quiet _ _ _ _ _ _ (charge_work_quiet 1))|].
  intros _ h2 e2 r2 _ HI2 HF2 (-> & Hsame & Hst2 & _). apply spec_get_engine.
  destruct (queries e2 !! key) as [q|] eqn:Hq; [|by apply spec_same].
  assert (run_stack r2 = ks ++ [key]) as Hst2' by (rewrite Hst2, (fr_stack _ _ _ _ _ HF1); done).
  eapply spec_bind with (P := fun vD h' e' r' => run_stack r' = ks ++ [key] /\
    queries e' !! key = Some q /\ (forall n, nodes e' !! key = Some n -> q_dirty n = true) /\
    (run_cancelled r' = false -> follows h' (q key) vD.2 (Return vD.1) /\
     forall o, o ∈ vD.2 -> observation_is_current e' o = true)).
  { eapply (spec_weaken (run_stack r2)); [intros k Hk; rewrite Hst2'; set_solver| |].
    - eapply (run_query_spec (q key)); [done|by eapply inv_queries|by constructor|].
      intros o Ho. by apply elem_of_nil in Ho.
    - intros vD h' e' r' _ _ HF Hp. split_and!; [by rewrite (fr_stack _ _ _ _ _ HF)|
        by rewrite (fr_queries _ _ _ _ _ HF)| |done].
      rewrite (fr_protected _ _ _ _ _ HF) by (rewrite Hst2'; set_solver).
      destruct Hsame as (_ & -> & _). done. }
  intros [v D] h3 e3 r3 _ HI3 _ (Hst3 & Hq3 & Hd3 & Hp3). simpl in Hp3.
  eapply spec_bind with (P := fun _ h' e' r' => h' = h3 /\ same_memo e3 e' /\ run_cancelled r3 = false).
  { intros res e' r' Heq. destruct (charge_output_quiet 1 _ _ _ _ _ Heq) as (Hs & Hst' & Hcc & _ & Hp).
    exists h3. split_and!; [reflexivity|by eapply same_memo_inv|by apply same_memo_Frame|].
    intros a Ha. split_and!; [done|done|]. rewrite <- Hcc. eauto. }
  intros _ h4 e4 r4 _ HI4 _ (-> & Hsame4 & Hrun). destruct (Hp3 Hrun) as [Hf Hcur].
  apply spec_get_engine. eapply (commit_spec h3 e4 r4 q); [done| |done| |].
  - destruct Hsame4 as (-> & _). done.
  - intros o Ho. rewrite (same_memo_current e3 e4) by done. auto.
  - destruct Hsame4 as (_ & -> & _). done.
Qed.
End Pushed.

Lemma stack_position_None key stack : stack_position key stack = None <-> key ∉ stack.
Proof.
  unfold stack_position. rewrite fmap_None, list_find_None, Forall_forall. naive_solver.
Qed.

Lemma evaluate_step_spec : eval_spec (evaluate_step ext ev).
Proof using HE.
  intros key h e r HI. unfold evaluate_step.
  eapply spec_bind; [by apply (spec_quiet _ _ _ _ _ _ check_cancelled_quiet)|].
  intros _ h1 e1 r1 _ HI1 _ (-> & _ & Hst1 & _). apply spec_get_engine.
  destruct (queries e1 !! key); [|by apply spec_same]. apply spec_get_run.
  destruct (stack_position key (run_stack r1)) eqn:Hpos; [by apply spec_same|].
  apply stack_position_None in Hpos.
  eapply spec_bind; [by apply (spec_quiet _ _ _ _ _ _ charge_depth_quiet)|].
  intros _ h2 e2 r2 _ HI2 _ (-> & _ & Hst2 & _). rewrite Hst1 in Hpos, Hst2.
  intros res e' r' Heq. unfold qbind, get_run, put_run in Heq. cbn in Heq. rewrite Hst2 in Heq.
  destruct (evaluate_pushed ext ev key e2 _) as [[res3 e3] r3] eqn:Hev. simplify_eq/=.
  destruct (evaluate_pushed_spec key (run_stack r) Hpos h e2 (with_stack r2 (run_stack r ++ [key])) HI2 eq_refl
    _ _ _ Hev) as (h3 & Hx & HI3 & [Hq Hs Hst3 Hcan Hpr Hcl] & Hp).
  exists h3. split_and!; [done|done| |done]. split; try done. simpl in *.
  rewrite Hst3, removelast_last. done.
Qed.
End Step.

Lemma evaluate_spec fuel : eval_spec (evaluate ext fuel).
Proof.
  induction fuel as [|fuel IH]; [|by apply evaluate_step_spec].
  intros key h e r HI. by apply spec_same.
Qed.

(** What a root verification does. *)
Lemma verify_spec h e key b res e' :
  MemoInv ext h e -> verify_with_budgets ext e key b = (res, e') ->
  exists h', extends h h' /\ MemoInv ext h' e' /\ queries e' = queries e /\
    source_revisions e' = source_revisions e /\ (forall v, res = Ok v -> clean_at e' key v).
Proof.
  intros HI Heq. unfold verify_with_budgets in Heq.
  destruct (evaluate _ _ _ _ _) as [[res1 e1] r1] eqn:Hev. injection Heq as -> ->.
  destruct (evaluate_spec _ _ _ _ _ HI _ _ _ Hev) as (h' & Hx & HI' & HF & Hp).
  exists h'. split_and!; [done|done|apply HF|apply HF|done].
Qed.
End Hoare.
