(* ===== verification/QueryHistory.v ===== *)
(** * Engine histories

    Registration of absent keys, removal of keys that nothing observes as a
    source, and invalidation preserve the invariant of QuerySemantics.v, so that
    after any history of these operations and of verifications, successful or not, a verified value is the from-scratch
    value. *)

From stdpp Require Import relations.
From S2P Require Import Prelude BTree Lattice Budget QueryEngine QuerySemantics.

(** ** The dirty cascade *)

Section Cascade.
Context {K V : Type} `{OrdKey K} (dependents : gmap K (gset K)).

Definition depends (k k' : K) : Prop := k' ∈ default ∅ (dependents !! k).

Definition dirty_on (C : gset K) (ns : gmap K (QNode K V)) : gmap K (QNode K V) :=
  map_imap (fun k n => Some (if decide (k ∈ C) then set_dirty true n else n)) ns.

Lemma dirty_on_lookup C ns k :
  dirty_on C ns !! k = (fun n => if decide (k ∈ C) then set_dirty true n else n) <$> ns !! k.
Proof. unfold dirty_on. rewrite map_lookup_imap. by destruct (ns !! k). Qed.

Lemma dirty_on_alter C k ns : alter (set_dirty true) k (dirty_on C ns) = dirty_on ({[k]} ∪ C) ns.
Proof.
  apply map_eq. intros k'. rewrite dirty_on_lookup. destruct (decide (k' = k)) as [->|Hne].
  - rewrite lookup_alter_eq, dirty_on_lookup.
    destruct (ns !! k); simpl; [|done]. rewrite (decide_True (P := k ∈ {[k]} ∪ C)) by set_solver.
    by case_decide.
  - rewrite lookup_alter_ne, dirty_on_lookup by done.
    destruct (ns !! k'); simpl; [|done]. do 2 case_decide; set_solver.
Qed.

Context (U : gset K) (HU : forall k, k ∈ U -> default ∅ (dependents !! k) ⊆ U).

Lemma cascade_spec (start : K) fuel pending seen ns :
  pending ⊆ U -> seen ⊆ U -> start ∈ pending ∪ seen ->
  (forall k, k ∈ pending ∪ seen -> rtc depends start k) ->
  (forall k k', k ∈ seen -> depends k k' -> k' ∈ pending ∪ seen) ->
  size (U ∖ seen) * Datatypes.S (size U) + size pending < fuel ->
  exists C, cascade fuel dependents pending seen (dirty_on seen ns) = Ok (dirty_on C ns) /\
    forall k, k ∈ C <-> rtc depends start k.
Proof using HU.
  revert pending seen. induction fuel as [|fuel IH]; intros pending seen HP HS Hstart Hreach Hclosed Hfuel; [lia|].
  cbn [cascade]. destruct (pop_first pending) as [[k rest]|] eqn:Hpop; cycle 1.
  { apply pop_first_None in Hpop as ->. rewrite (left_id_L ∅ (∪)) in *. exists seen. split; [done|].
    intros k. split; [apply Hreach|]. intros Hp. clear IH Hreach Hfuel.
    induction Hp as [|a b c Hab _ IHp]; [done|]. apply IHp.
    by apply (Hclosed a). }
  pose proof (pop_first_size _ _ _ Hpop) as Hsize. apply pop_first_Some in Hpop as (Hk & -> & _).
  assert (pending = {[k]} ∪ pending ∖ {[k]}) as Hpend
    by (apply union_difference_L; by apply singleton_subseteq_l).
  case_decide as Hseen.
  - assert (pending ∖ {[k]} ∪ seen = pending ∪ seen) as Heq by (rewrite Hpend at 2; clear - Hseen; set_solver).
    apply IH; rewrite ?Heq; try done; [clear - HP; set_solver|lia].
  - rewrite dirty_on_alter. assert (k ∈ U) as HkU by set_solver. pose proof (HU k HkU) as HkD.
    assert (pending ∖ {[k]} ∪ default ∅ (dependents !! k) ∪ ({[k]} ∪ seen) =
            (pending ∪ seen) ∪ default ∅ (dependents !! k)) as Heq.
    { rewrite Hpend at 2. clear. set_solver. }
    apply IH; rewrite ?Heq; [clear - HP HkD; set_solver|clear - HS HkU; set_solver| | | |].
    + apply elem_of_union. by left.
    + intros k' [Hk'|Hk']%elem_of_union; [by apply Hreach|].
      eapply rtc_r; [apply Hreach; apply elem_of_union; by left|done].
    + intros a b [->%elem_of_singleton|Ha]%elem_of_union Hb; apply elem_of_union; [by right|left].
      by apply (Hclosed a).
    + assert (size (U ∖ seen) = Datatypes.S (size (U ∖ ({[k]} ∪ seen)))) as Hsz.
      { assert (U ∖ seen = {[k]} ∪ U ∖ ({[k]} ∪ seen)) as ->.
        { apply set_eq. intros a. clear - HkU Hseen. destruct (decide (a = k)); set_solver. }
        rewrite size_union by (clear; set_solver). by rewrite size_singleton. }
      pose proof (subseteq_size (pending ∖ {[k]} ∪ default ∅ (dependents !! k)) U
        ltac:(clear - HP HkD; set_solver)). lia.
Qed.
End Cascade.

Section MarkDirty.
Context {K V X : Type} `{OrdKey K}.
Implicit Types (e : IncrementalEngine K V X).

Lemma universe_closed e key k :
  k ∈ cascade_universe e key -> default ∅ (reverse e !! k) ⊆ cascade_universe e key.
Proof.
  intros _ k' Hk'. destruct (reverse e !! k) as [s|] eqn:Hs; simpl in Hk'; [|set_solver].
  unfold cascade_universe. apply elem_of_union. right. apply elem_of_union_list. exists s. split; [|done].
  unfold map_values. apply list_elem_of_fmap. exists (k, s). split; [done|]. by apply elem_of_map_entries.
Qed.

Lemma dirty_on_empty (ns : gmap K (QNode K V)) : dirty_on ∅ ns = ns.
Proof. apply map_eq. intros k. rewrite dirty_on_lookup. by destruct (ns !! k). Qed.

Lemma mark_dirty_spec e key :
  exists C, mark_dirty_cascade e key = Ok (with_nodes e (dirty_on C (nodes e))) /\
    forall k, k ∈ C <-> rtc (depends (reverse e)) key k.
Proof.
  unfold mark_dirty_cascade.
  destruct (cascade_spec (reverse e) (cascade_universe e key) (universe_closed e key) key
    (cascade_fuel e key) {[key]} ∅ (nodes e)) as (C & Hok & HC).
  - unfold cascade_universe. set_solver.
  - set_solver.
  - set_solver.
  - intros k Hk. assert (k = key) as -> by set_solver. reflexivity.
  - set_solver.
  - unfold cascade_fuel. rewrite difference_empty_L, size_singleton. lia.
  - rewrite dirty_on_empty in Hok. rewrite Hok. exists C. done.
Qed.

(** Invalidation dirties exactly the transitive dependents of the key in
    the reverse index, changes nothing else, and its loop always ends. *)
Theorem mark_dirty_cascade_exact e key :
  exists e' (C : gset K), mark_dirty_cascade e key = Ok e' /\
    (forall k, k ∈ C <-> rtc (depends (reverse e)) key k) /\
    e' = with_nodes e (nodes e') /\
    forall k, nodes e' !! k = (fun n => if decide (k ∈ C) then set_dirty true n else n) <$> nodes e !! k.
Proof.
  destruct (mark_dirty_spec e key) as (C & Hok & HC). eexists _, C. split; [done|]. split; [done|].
  split; [done|]. intros k. apply dirty_on_lookup.
Qed.
End MarkDirty.

(** ** Invalidation and the invariant *)

Section Invalidated.
Context {K V X : Type} `{OrdKey K} `{EqDecision V} `{FingerprintValue V}.
Abbreviation engine := (IncrementalEngine K V X).
Context (ext ext' : K -> X) (h : History K V X) (e e' : engine) (C : gset K) (HI : MemoInv ext h e).

(** [e'] differs from [e] only on [C], which contains its own dependents and
    is dirty in [e']. *)
Record Invalidated : Prop := {
  iv_closed : forall k k', k ∈ C -> depends (reverse e) k k' -> k' ∈ C;
  iv_nodes : forall k, k ∉ C -> nodes e' !! k = nodes e !! k;
  iv_queries : forall k, k ∉ C -> queries e' !! k = queries e !! k;
  iv_sources : forall k, k ∉ C -> source_revision e' k = source_revision e k;
  iv_ext : forall k, k ∉ C -> ext' k = ext k;
  iv_dirty : forall k n, k ∈ C -> nodes e' !! k = Some n -> q_dirty n = true;
}.

Context (HV : Invalidated).

(** A current observation is linked in the reverse index. *)
Lemma current_linked k n o :
  nodes e !! k = Some n -> o ∈ q_dependencies n -> observation_is_current e o = true ->
  depends (reverse e) (obs_key o) k.
Proof using HI.
  intros Hn Ho Hc. destruct (inv_linked _ _ _ HI k n o Hn Ho) as [Hl|[Hk [_ Hd]]]; [done|].
  exfalso. unfold observation_is_current in Hc. rewrite Hk in Hc.
  destruct (nodes e !! obs_key o) as [n'|] eqn:Hn'; [|done].
  rewrite !andb_true_iff, negb_true_iff, N.eqb_eq in Hc. destruct Hc as [[Hd' Hr] _].
  destruct (inv_fresh _ _ _ HI _ _ Hn' Hd') as [(v & Hv & _) _]. destruct (Hd n' eq_refl); congruence.
Qed.

Lemma clean_outside k n o :
  nodes e !! k = Some n -> q_dirty n = false -> k ∉ C -> o ∈ q_dependencies n ->
  observation_is_current e o = true /\ obs_key o ∉ C.
Proof using HI HV.
  intros Hn Hd Hk Ho. destruct (inv_fresh _ _ _ HI k n Hn Hd) as [_ Hc]. split; [auto|].
  intros HC. apply Hk. eapply (iv_closed HV); [done|]. eapply current_linked; eauto.
Qed.

(** Outside [C] the from-scratch run is the same. *)
Lemma unaffected_runs p v :
  runs (queries e) ext p v -> forall D, follows h p D (Return v) ->
  (forall o, o ∈ D -> observation_is_current e o = true /\ obs_key o ∉ C) ->
  runs (queries e') ext' p v.
Proof using HI HV.
  intros Hr. induction Hr as [v|key cont q v' v Hq Hr1 IH1 Hr2 IH2|kind key cont v Hr IH| | |];
    intros D Hf HD; inversion Hf; subst; try (econstructor; eauto; fail).
  - match goal with Hv : value_at h key ?r = Some ?x |- _ =>
      rename r into rev; rename x into w; rename Hv into Hw end.
    destruct (HD (observation_read key rev f)) as [Hcur Hout]; [left|]. simpl in Hout.
    destruct (current_read ext h e HI key rev f w Hcur Hw) as (q' & Hq' & Hrw).
    assert (q' = q) as -> by congruence. assert (w = v') as -> by (by eapply runs_deterministic).
    unfold observation_is_current in Hcur. simpl in Hcur. destruct (nodes e !! key) as [n|] eqn:Hn; [|done].
    rewrite !andb_true_iff, negb_true_iff, N.eqb_eq in Hcur. destruct Hcur as [[Hd <-] _].
    destruct (inv_fresh _ _ _ HI key n Hn Hd) as [(v2 & Hv2 & _) _].
    pose proof (inv_stored _ _ _ HI key n Hn) as Hst. unfold stored in Hst. rewrite Hv2 in Hst.
    destruct Hst as (_ & Hval & q2 & Hq2 & Hf2). assert (q2 = q) as -> by congruence.
    assert (v2 = v') as -> by congruence.
    econstructor; [by rewrite (iv_queries HV)|eapply IH1; [done|]|eapply IH2; [done|]].
    + intros o Ho. by eapply clean_outside.
    + intros o Ho. apply HD. by right.
  - match goal with Hv : source_at h key ?r = Some _ |- _ => rename r into rev; rename Hv into Hw end.
    destruct (HD {| obs_key := key; obs_kind := kind; obs_revision := rev; obs_fingerprint := None |})
      as [Hcur Hout]; [left|]. simpl in Hout.
    assert (source_revision e key = rev) as <-.
    { unfold observation_is_current in Hcur. simpl in Hcur. destruct kind; try done; by apply N.eqb_eq. }
    rewrite (inv_sources _ _ _ HI) in Hw. injection Hw as <-.
    constructor. rewrite (iv_ext HV) by done. eapply IH; [done|]. intros o Ho. apply HD. by right.
Qed.

(** What is still clean is still the from-scratch value. *)
Lemma invalidated_fresh k n :
  nodes e' !! k = Some n -> q_dirty n = false -> fresh ext' e' k n.
Proof using HI HV.
  intros Hn Hd. destruct (decide (k ∈ C)) as [HC|HC]; [by rewrite (iv_dirty HV k n) in Hd|].
  rewrite (iv_nodes HV) in Hn by done.
  destruct (inv_fresh _ _ _ HI k n Hn Hd) as [(v & Hv & q & Hq & Hr) Hc].
  pose proof (inv_stored _ _ _ HI k n Hn) as Hst. unfold stored in Hst. rewrite Hv in Hst.
  destruct Hst as (_ & _ & q' & Hq' & Hf). assert (q' = q) as -> by congruence.
  assert (forall o, o ∈ q_dependencies n -> observation_is_current e o = true /\ obs_key o ∉ C) as Hout
    by (intros; by eapply clean_outside).
  split.
  - exists v. split; [done|]. exists q. rewrite (iv_queries HV) by done. split; [done|].
    by eapply unaffected_runs.
  - intros o Ho. destruct (Hout o Ho) as [Hcur Hk]. unfold observation_is_current in *.
    rewrite (iv_nodes HV), (iv_sources HV) by done. done.
Qed.
End Invalidated.

(** ** The operations *)

Section Operations.
Context {K V X : Type} `{OrdKey K} `{EqDecision V} `{FingerprintValue V}.
Abbreviation engine := (IncrementalEngine K V X).
Implicit Types (e : engine) (h : History K V X) (ext : K -> X).

(** An external change of one key. *)
Definition update_ext ext (key : K) (x : X) : K -> X := fun k => if decide (k = key) then x else ext k.

Definition history_source h (key : K) (rev : N) (x : X) : History K V X := {|
  value_at := value_at h;
  source_at := fun k r => if decide (k = key /\ r = rev) then Some x else source_at h k r;
|}.

Lemma dirty_on_inv (C : gset K) (ns : gmap K (QNode K V)) k n' :
  dirty_on C ns !! k = Some n' -> exists n, ns !! k = Some n /\
    q_value n' = q_value n /\ q_revision n' = q_revision n /\ q_fingerprint n' = q_fingerprint n /\
    q_dependencies n' = q_dependencies n /\ (q_dirty n' = false -> k ∉ C /\ n' = n) /\
    (q_dirty n = true -> q_dirty n' = true).
Proof.
  rewrite dirty_on_lookup. destruct (ns !! k) as [n|]; [|done]. intros [= <-]. exists n. split; [done|].
  case_decide; simpl; naive_solver.
Qed.

(** A memo that was dirtied is still stored. *)
Lemma stored_dirty e e' h h' k n n' :
  queries e' !! k = queries e !! k -> extends h h' ->
  q_value n' = q_value n -> q_revision n' = q_revision n -> q_fingerprint n' = q_fingerprint n ->
  q_dependencies n' = q_dependencies n -> (q_dirty n = true -> q_dirty n' = true) ->
  stored e h k n -> stored e' h' k n'.
Proof.
  intros Hq Hx Hv Hr Hf Hd Hdirty. unfold stored. rewrite Hv, Hr, Hf, Hd.
  destruct (q_value n); [|naive_solver]. intros (? & ? & q & ? & ?). split_and!; [done|by apply Hx|].
  exists q. split; [by etrans; [exact Hq|]|]. by eapply follows_extends.
Qed.

Lemma closed_depends e key (C : gset K) :
  (forall k, k ∈ C <-> rtc (depends (reverse e)) key k) ->
  forall k k', k ∈ C -> depends (reverse e) k k' -> k' ∈ C.
Proof. intros HC k k' Hk Hd. apply HC. eapply rtc_r; [by apply HC|done]. Qed.

Lemma start_in e key (C : gset K) :
  (forall k, k ∈ C <-> rtc (depends (reverse e)) key k) -> key ∈ C.
Proof. intros HC. apply HC. reflexivity. Qed.

Lemma invalidate_inv ext h e key x rev e' :
  MemoInv ext h e -> invalidate e key = Ok (rev, e') ->
  exists h', MemoInv (update_ext ext key x) h' e'.
Proof.
  intros HI Hok. unfold invalidate, alloc_revision in Hok.
  destruct (checked_add (next_revision e) 1) as [next|] eqn:Hadd; simpl in Hok; [|done].
  apply checked_add_Some in Hadd as [-> _].
  destruct (mark_dirty_spec (with_sources (with_revision e (next_revision e + 1))
    (<[key := next_revision e]> (source_revisions e))) key) as (C & Hmark & HC).
  cbn [with_revision source_revisions] in Hok. rewrite Hmark in Hok. simpl in Hok. injection Hok as <- <-.
  simpl in HC. set (rev := next_revision e).
  exists (history_source h key rev x).
  assert (extends h (history_source h key rev x)) as Hx.
  { split; simpl; [done|]. intros k r y Hy. rewrite decide_False; [done|]. intros [-> ->].
    apply (inv_sources_old _ _ _ HI) in Hy. unfold rev in Hy. lia. }
  assert (key ∈ C) as Hkey by (by eapply start_in).
  split; [simpl..| |simpl].
  - apply (inv_queries _ _ _ HI).
  - intros k [n' (n & Hn & _)%dirty_on_inv]. apply (inv_registered _ _ _ HI). eauto.
  - intros k. unfold source_revision, update_ext. simpl. destruct (decide (k = key)) as [->|Hne].
    + rewrite lookup_insert_eq. simpl. by rewrite decide_True.
    + rewrite lookup_insert_ne by done. rewrite decide_False by naive_solver. apply (inv_sources _ _ _ HI).
  - intros k r v Hv%(inv_values_old _ _ _ HI). lia.
  - intros k r y. case_decide as Hd; [unfold rev in Hd; lia|]. intros Hy%(inv_sources_old _ _ _ HI). lia.
  - intros k n' (n & Hn & Hv & Hr & Hf & Hd & _ & Hdirty)%dirty_on_inv.
    eapply (stored_dirty e); try done. by apply (inv_stored _ _ _ HI).
  - apply (invalidated_fresh ext _ h e _ C HI). split; simpl.
    + by apply closed_depends with key.
    + intros k Hk. rewrite dirty_on_lookup. destruct (nodes e !! k); simpl; [by rewrite decide_False|done].
    + done.
    + intros k Hk. unfold source_revision. simpl. rewrite lookup_insert_ne; [done|]. by intros ->.
    + intros k Hk. unfold update_ext. rewrite decide_False; [done|]. by intros ->.
    + intros k n Hk Hn. rewrite dirty_on_lookup in Hn. destruct (nodes e !! k); [|done].
      simpl in Hn. rewrite decide_True in Hn by done. by injection Hn as <-.
  - intros k n' o (n & Hn & _ & _ & _ & Hd & _)%dirty_on_inv Ho. rewrite Hd in Ho.
    destruct (inv_linked _ _ _ HI k n o Hn Ho) as [?|[? [Hlt Hdead]]]; [by left|right].
    split; [done|]. split; simpl; [lia|]. intros n2 (n1 & Hn1 & Hv1 & Hr1 & _)%dirty_on_inv.
    rewrite Hv1, Hr1. auto.
Qed.

Lemma register_inv ext h e key q e' :
  MemoInv ext h e -> queries e !! key = None -> disciplined (q key) ->
  register_query e key q = Ok e' -> MemoInv ext h e'.
Proof.
  intros HI Hfresh Hq Hok.
  assert (nodes e !! key = None) as Hnone.
  { destruct (nodes e !! key) eqn:Hn; [|done]. destruct (inv_registered _ _ _ HI key) as [? ?]; [eauto|congruence]. }
  unfold register_query in Hok. simpl in Hok. rewrite Hnone in Hok.
  match type of Hok with mark_dirty_cascade ?e0 _ = _ => destruct (mark_dirty_spec e0 key) as (C & Hmark & HC) end.
  rewrite Hmark in Hok. injection Hok as <-. simpl in HC.
  assert (key ∈ C) as Hkey by (by eapply start_in).
  assert (forall k n', dirty_on C (<[key := set_dirty true node_default]> (nodes e)) !! k = Some n' ->
    (k = key /\ q_value n' = None /\ q_dirty n' = true /\ q_dependencies n' = []) \/
    (k <> key /\ dirty_on C (nodes e) !! k = Some n')) as Hcases.
  { intros k n'. rewrite !dirty_on_lookup. destruct (decide (k = key)) as [->|Hne].
    - rewrite lookup_insert_eq. simpl. rewrite decide_True by done. intros [= <-]. left. done.
    - rewrite lookup_insert_ne by done. auto. }
  split; [simpl..| |simpl].
  - intros k q'. destruct (decide (k = key)) as [->|Hne].
    + rewrite lookup_insert_eq. by intros [= <-].
    + rewrite lookup_insert_ne by done. apply (inv_queries _ _ _ HI).
  - intros k [n' [[-> _]|[Hne (n & Hn & _)%dirty_on_inv]]%Hcases]; [rewrite lookup_insert_eq; eauto|].
    rewrite lookup_insert_ne by done. apply (inv_registered _ _ _ HI). eauto.
  - apply (inv_sources _ _ _ HI).
  - apply (inv_values_old _ _ _ HI).
  - apply (inv_sources_old _ _ _ HI).
  - intros k n' [(-> & Hv & Hd & Hdeps)|[Hne (n & Hn & Hv & Hr & Hf & Hd & _ & Hdirty)%dirty_on_inv]]%Hcases.
    + unfold stored. by rewrite Hv.
    + eapply (stored_dirty e); try done; [simpl; by rewrite lookup_insert_ne|]. by apply (inv_stored _ _ _ HI).
  - apply (invalidated_fresh ext _ h e _ C HI). split; simpl.
    + by apply closed_depends with key.
    + intros k Hk. rewrite dirty_on_lookup, lookup_insert_ne by (by intros ->).
      destruct (nodes e !! k); simpl; [by rewrite decide_False|done].
    + intros k Hk. rewrite lookup_insert_ne; [done|]. by intros ->.
    + done.
    + done.
    + intros k n Hk Hn. rewrite dirty_on_lookup in Hn. destruct (_ !! k); [|done].
      simpl in Hn. rewrite decide_True in Hn by done. by injection Hn as <-.
  - intros k n' o [(_ & _ & _ & Hdeps)|[Hne (n & Hn & _ & _ & _ & Hd & _)%dirty_on_inv]]%Hcases Ho.
    { rewrite Hdeps in Ho. by apply elem_of_nil in Ho. }
    rewrite Hd in Ho. destruct (inv_linked _ _ _ HI k n o Hn Ho) as [?|[? [Hlt Hdead]]]; [by left|right].
    split; [done|]. split; simpl; [lia|].
    intros n2 [(_ & Hv & _)|[_ (n1 & Hn1 & Hv1 & Hr1 & _)%dirty_on_inv]]%Hcases; [by left|].
    rewrite Hv1, Hr1. auto.
Qed.

(** No memo observes [key] as an external source. *)
Definition only_read e (key : K) : Prop :=
  forall k n o, nodes e !! k = Some n -> o ∈ q_dependencies n -> obs_key o = key -> obs_kind o = KRead.

Lemma follows_old h p D p' o :
  follows h p D p' -> o ∈ D -> obs_kind o = KRead -> exists v, value_at h (obs_key o) (obs_revision o) = Some v.
Proof.
  intros Hf. induction Hf; intros Ho Hk; try (by apply elem_of_nil in Ho); auto;
    apply elem_of_cons in Ho as [->|Ho]; eauto. done.
Qed.

Lemma detach_lookup e key k :
  nodes (detach_node e key) !! k = if decide (k = key) then None else nodes e !! k.
Proof.
  unfold detach_node. destruct (nodes e !! key) as [n|] eqn:Hn; simpl.
  - destruct (decide (k = key)) as [->|Hne]; [apply lookup_delete_eq|by rewrite lookup_delete_ne].
  - case_decide; congruence.
Qed.

Lemma detach_other e key :
  queries (detach_node e key) = queries e /\ source_revisions (detach_node e key) = source_revisions e /\
  next_revision (detach_node e key) = next_revision e.
Proof. unfold detach_node. by case_match. Qed.

Lemma detach_reverse e key k k' :
  k' ∈ default ∅ (reverse e !! k) -> k <> key -> k' <> key ->
  k' ∈ default ∅ (reverse (detach_node e key) !! k).
Proof.
  intros Hk Hne Hne'. unfold detach_node. destruct (nodes e !! key); [|done]. simpl.
  rewrite lookup_delete_ne by done. rewrite elem_of_unlink. naive_solver.
Qed.

Lemma remove_inv ext h e key removed e' :
  MemoInv ext h e -> only_read e key -> remove_query e key = Ok (removed, e') -> MemoInv ext h e'.
Proof.
  intros HI Honly Hok. unfold remove_query in Hok.
  destruct (queries e !! key) as [q|] eqn:Hq; [|by injection Hok as <- <-].
  match type of Hok with context [mark_dirty_cascade ?e0 _] =>
    destruct (mark_dirty_spec e0 key) as (C & Hmark & HC) end.
  rewrite Hmark in Hok. simpl in Hok, HC. injection Hok as <- <-.
  assert (key ∈ C) as Hkey by (by eapply start_in).
  match goal with |- MemoInv _ _ (detach_node ?e0 _) => set (e1 := e0) end.
  destruct (detach_other e1 key) as (Hq1 & Hs1 & Hn1).
  assert (forall k n', nodes (detach_node e1 key) !! k = Some n' ->
    k <> key /\ dirty_on C (nodes e) !! k = Some n') as Hlook.
  { intros k n'. rewrite detach_lookup. case_decide; [done|]. auto. }
  split.
  - rewrite Hq1. simpl. intros k q' [_ Hk]%lookup_delete_Some. by apply (inv_queries _ _ _ HI).
  - rewrite Hq1. simpl. intros k [n' [Hne (n & Hn & _)%dirty_on_inv]%Hlook]. rewrite lookup_delete_ne by done.
    apply (inv_registered _ _ _ HI). eauto.
  - unfold source_revision. rewrite Hs1. apply (inv_sources _ _ _ HI).
  - rewrite Hn1. apply (inv_values_old _ _ _ HI).
  - rewrite Hn1. apply (inv_sources_old _ _ _ HI).
  - intros k n' [Hne (n & Hn & Hv & Hr & Hf & Hd & _ & Hdirty)%dirty_on_inv]%Hlook.
    eapply (stored_dirty e); try done; [rewrite Hq1; simpl; by rewrite lookup_delete_ne|].
    by apply (inv_stored _ _ _ HI).
  - apply (invalidated_fresh ext _ h e _ C HI). split.
    + by apply closed_depends with key.
    + intros k Hk. rewrite detach_lookup, decide_False by (by intros ->). simpl. rewrite dirty_on_lookup.
      destruct (nodes e !! k); simpl; [by rewrite decide_False|done].
    + intros k Hk. rewrite Hq1. simpl. rewrite lookup_delete_ne; [done|]. by intros ->.
    + intros k Hk. unfold source_revision. by rewrite Hs1.
    + done.
    + intros k n Hk [_ Hn]%Hlook. rewrite dirty_on_lookup in Hn. destruct (_ !! k); [|done].
      simpl in Hn. rewrite decide_True in Hn by done. by injection Hn as <-.
  - intros k n' o [Hne (n & Hn & Hv & _ & _ & Hd & _)%dirty_on_inv]%Hlook Ho. rewrite Hd in Ho.
    destruct (decide (obs_key o = key)) as [Hkey'|Hkey'].
    + right. assert (obs_kind o = KRead) as Hkind by (by eapply Honly). split; [done|]. split.
      * rewrite Hn1. pose proof (inv_stored _ _ _ HI k n Hn) as Hst. unfold stored in Hst.
        destruct (q_value n); [|destruct Hst as [_ Hnil]; rewrite Hnil in Ho; by apply elem_of_nil in Ho].
        destruct Hst as (_ & _ & q' & _ & Hf). destruct (follows_old _ _ _ _ _ Hf Ho Hkind) as [w Hw].
        by apply (inv_values_old _ _ _ HI) in Hw.
      * intros n2 [Hne2 _]%Hlook. congruence.
    + destruct (inv_linked _ _ _ HI k n o Hn Ho) as [?|[? [Hlt Hdead]]].
      * left. apply detach_reverse; done.
      * right. split; [done|]. split; [by rewrite Hn1|].
        intros n2 [_ (n1 & Hn1' & Hv1 & Hr1 & _)%dirty_on_inv]%Hlook. rewrite Hv1, Hr1. auto.
Qed.
End Operations.

(** ** Histories *)

Section History.
Context {K V X : Type} `{OrdKey K} `{EqDecision V} `{FingerprintValue V}.
Abbreviation engine := (IncrementalEngine K V X).

(** One operation of a client, with the external state it leaves.  A new key
    is registered with a disciplined callback; the external state of a key
    changes together with its invalidation; a key is removed as a query only
    while nothing observes it as a source.  A verification is a step whether
    or not it succeeds. *)
Inductive engine_step : engine * (K -> X) -> engine * (K -> X) -> Prop :=
| step_register e ext key q e' :
    queries e !! key = None -> disciplined (q key) -> register_query e key q = Ok e' ->
    engine_step (e, ext) (e', ext)
| step_invalidate e ext key x rev e' :
    invalidate e key = Ok (rev, e') -> engine_step (e, ext) (e', update_ext ext key x)
| step_remove e ext key removed e' :
    only_read e key -> remove_query e key = Ok (removed, e') -> engine_step (e, ext) (e', ext)
| step_verify e ext key b res e' :
    verify_with_budgets ext e key b = (res, e') -> engine_step (e, ext) (e', ext)
| step_resume e ext token b res e' :
    resume ext e token b = (res, e') -> engine_step (e, ext) (e', ext).

Definition reachable (e : engine) (ext : K -> X) : Prop :=
  exists ext0, rtc engine_step (new_engine, ext0) (e, ext).

Definition new_history (ext : K -> X) : History K V X := {|
  value_at := fun _ _ => None;
  source_at := fun k r => if decide (r = 0%N) then Some (ext k) else None;
|}.

Lemma new_engine_inv ext : MemoInv ext (new_history ext) (new_engine (V:=V)).
Proof.
  split; simpl; try done.
  - intros k [n Hn]. by rewrite lookup_empty in Hn.
  - intros k r x. case_decide; [|done]. lia.
Qed.

Lemma resume_spec ext h (e : engine) token b res e' :
  MemoInv ext h e -> resume ext e token b = (res, e') -> exists h', MemoInv ext h' e'.
Proof.
  intros HI. unfold resume. destruct (continuations e !! token) as [root|]; [|intros [= <- <-]; eauto].
  destruct (verify_with_budgets ext e root b) as [res1 e1] eqn:Hv.
  destruct (verify_spec ext h e root b res1 e1 HI Hv) as (h' & _ & HI' & _).
  intros Heq. destruct res1; simplify_eq/=; exists h'; try done.
  eapply same_memo_inv; [|exact HI']. done.
Qed.

Lemma reachable_inv e ext : reachable e ext -> exists h, MemoInv ext h e.
Proof.
  intros [ext0 Hsteps]. remember (new_engine, ext0) as s0 eqn:Hs0. remember (e, ext) as s eqn:Hs.
  assert (exists h, MemoInv s0.2 h s0.1) as Hinit by (subst s0; eexists; apply new_engine_inv).
  clear Hs0. enough (exists h, MemoInv s.2 h s.1) as Hend by (by subst s). clear Hs.
  induction Hsteps as [|s1 s2 s3 Hstep _ IH]; [done|]. apply IH. destruct Hinit as [h HI].
  destruct Hstep; simpl in *.
  - eexists. by eapply register_inv.
  - by eapply invalidate_inv.
  - eexists. by eapply remove_inv.
  - match goal with Hv : verify_with_budgets _ _ _ _ = _ |- _ =>
      destruct (verify_spec _ _ _ _ _ _ _ HI Hv) as (h' & _ & ? & _) end. eauto.
  - by eapply resume_spec.
Qed.

(** C14: After a history in which only absent keys are registered, with
    callbacks that return the errors they meet and observe external state as a
    source, the external state of a key changes with its invalidation, and only
    keys that no memo observes as a source are removed, a verification that
    succeeds returns the value the query
    has from scratch, in the current external state: memoization, invalidation,
    failed runs, budgets and resumption are unobservable in verified values.
    Replacing a registered callback and removing an observed key are out of scope;
    there the claim fails ([replaced_query_keeps_old_value],
    [removal_unlinks_observers]). *)
Theorem verify_from_scratch (e : engine) ext key b v e' :
  reachable e ext -> verify_with_budgets ext e key b = (Ok v, e') -> scratch (queries e) ext key v.
Proof.
  intros [h HI]%reachable_inv Hv. destruct (verify_spec _ _ _ _ _ _ _ HI Hv) as (h' & _ & HI' & Hq & _ & Hc).
  destruct (Hc v eq_refl) as (n & Hn & Hd & Hval).
  destruct (inv_fresh _ _ _ HI' key n Hn Hd) as [(w & Hw & Hs) _]. rewrite Hq in Hs. congruence.
Qed.

Lemma current_forallb (e : engine) D :
  (forall o, o ∈ D -> observation_is_current e o = true) -> forallb (observation_is_current e) D = true.
Proof. intros Hc. apply forallb_forall. intros o Ho%list_elem_of_In. auto. Qed.

Lemma current_existsb (e : engine) D :
  (forall o, o ∈ D -> observation_is_current e o = true) ->
  existsb (fun o => negb (observation_is_current e o)) D = false.
Proof.
  intros Hc. apply not_true_iff_false. rewrite existsb_exists. intros (o & Ho%list_elem_of_In & Hn).
  by rewrite Hc in Hn.
Qed.

Lemma cleaned_clean (e : engine) key n :
  nodes e !! key = Some n -> q_dirty n = false -> with_nodes e (alter (set_dirty false) key (nodes e)) = e.
Proof.
  intros Hn Hd. destruct e. unfold with_nodes. simpl in *. f_equal. apply alter_id.
  intros n' Hn'. assert (n' = n) as -> by congruence. destruct n. unfold set_dirty. simpl in *. by subst.
Qed.

Lemma evaluate_pushed_clean ext ev (e : engine) r key n v :
  nodes e !! key = Some n -> q_dirty n = false -> q_value n = Some v ->
  (forall o, o ∈ q_dependencies n -> observation_is_current e o = true) ->
  evaluate_pushed ext ev key e r = (Ok v, e, r).
Proof.
  intros Hn Hd Hval Hcur.
  unfold evaluate_pushed, try_reuse_memo, memo_value, qbind, get_engine, put_engine, qret.
  rewrite Hn, Hval, Hd. cbn [orb]. rewrite current_existsb, current_forallb by done.
  rewrite (cleaned_clean e key n) by done. rewrite Hn. simpl. by rewrite Hval.
Qed.

(** A value once verified stays verified: verifying the same key again,
    under any budgets that allow one frame, returns the same value without
    running any callback and without changing the engine. *)
Theorem verify_again_is_free (e : engine) ext key b v e' b' :
  reachable e ext -> verify_with_budgets ext e key b = (Ok v, e') -> (1 <= max_depth b')%N ->
  verify_with_budgets ext e' key b' = (Ok v, e').
Proof.
  intros [h HI]%reachable_inv Hv Hdepth.
  destruct (verify_spec _ _ _ _ _ _ _ HI Hv) as (h' & _ & HI' & Hq & _ & Hc).
  destruct (Hc v eq_refl) as (n & Hn & Hd & Hval).
  destruct (inv_fresh _ _ _ HI' key n Hn Hd) as [_ Hcur].
  destruct (inv_registered _ _ _ HI' key) as [q Hreg]; [eauto|].
  assert (saturating_add (len (run_stack (new_run key b'))) 1 <= max_depth b')%N as Hfits by done.
  unfold verify_with_budgets, eval_fuel. cbn [evaluate].
  unfold evaluate_step, qbind, check_cancelled, get_engine, get_run. cbn. rewrite Hreg. cbn.
  unfold charge_depth, qbind, get_run. cbn in Hfits |- *.
  match goal with |- context [(?a <? ?b)%N] => destruct (N.ltb_spec a b) as [Hlt|_]; [lia|] end.
  unfold qret, put_run. cbn. erewrite evaluate_pushed_clean by done. done.
Qed.
End History.

(** ** Evaluation always ends

    The keys under evaluation are distinct and registered, so one level of
    recursion per registered query is enough, whatever the callbacks do. *)

Section Totality.
Context {K V X : Type} `{OrdKey K} `{EqDecision V} `{FingerprintValue V} (ext : K -> X).
Abbreviation engine := (IncrementalEngine K V X).
Abbreviation QM := (QM (K:=K) (V:=V) (X:=X)).

(** A 64-bit counter of the engine is at its end, or a budget is, so that a sum
    of charges may not fit one. *)
Definition ended (e : engine) (b : QueryBudgets) : Prop :=
  (usize_max <= next_revision e \/ usize_max <= next_token e \/
   usize_max <= max_work b \/ usize_max <= max_output b \/ usize_max <= max_observations b)%N.

(** Aborts happen at the end of a counter only. *)
Definition returns {A} (e : engine) (b : QueryBudgets) (res : Res (IncrementalError K) A) : Prop :=
  match res with Ok _ | Err _ => True | Panic => ended e b | NoFuel => False end.

(** With queries [Q], stack [st] and budgets [b], [m] returns, and keeps them. *)
Definition total_on {A} (Q : gmap K (Query K V X)) (st : list K) (b : QueryBudgets) (m : QM A) : Prop :=
  forall e r res e' r', queries e = Q -> run_stack r = st -> run_budgets r = b -> m e r = (res, e', r') ->
    queries e' = Q /\ run_stack r' = st /\ run_budgets r' = b /\ returns e' b res.

Section Fixed.
Context (Q : gmap K (Query K V X)) (st : list K) (b : QueryBudgets).
Abbreviation total := (total_on Q st b).

Lemma total_bind {A B} (m : QM A) (f : A -> QM B) :
  total m -> (forall a, total (f a)) -> total (qbind m f).
Proof.
  intros Hm Hf e r res e' r' HQ Hst Hb Heq. unfold qbind in Heq.
  destruct (m e r) as [[res1 e1] r1] eqn:Hm1. destruct (Hm _ _ _ _ _ HQ Hst Hb Hm1) as (HQ1 & Hst1 & Hb1 & Hn).
  destruct res1; simplify_eq/=; [|done..]. by eapply Hf.
Qed.

Lemma total_catch {A} (m : QM A) : total m -> total (qcatch m).
Proof.
  intros Hm e r res e' r' HQ Hst Hb Heq. unfold qcatch in Heq.
  destruct (m e r) as [[res1 e1] r1] eqn:Hm1. destruct (Hm _ _ _ _ _ HQ Hst Hb Hm1) as (HQ1 & Hst1 & Hb1 & Hn).
  destruct res1; simplify_eq/=; done.
Qed.

Lemma total_get_engine {A} (f : engine -> QM A) :
  (forall e, queries e = Q -> total (f e)) -> total (qbind get_engine f).
Proof. intros Hf e r res e' r' HQ Hst Hb Heq. by eapply (Hf e). Qed.

Lemma total_get_run {A} (f : RunState K -> QM A) :
  (forall r, run_stack r = st -> run_budgets r = b -> total (f r)) -> total (qbind get_run f).
Proof. intros Hf e r res e' r' HQ Hst Hb Heq. by eapply (Hf r). Qed.

Lemma total_put_engine e1 : queries e1 = Q -> total (put_engine e1).
Proof. intros He e r res e' r' ? ? ? Heq. unfold put_engine in Heq. by simplify_eq. Qed.

Lemma total_put_run r1 : run_stack r1 = st -> run_budgets r1 = b -> total (put_run r1).
Proof. intros Hr Hb e r res e' r' ? ? ? Heq. unfold put_run in Heq. by simplify_eq. Qed.

Lemma total_fail {A} x : total (qfail (A:=A) x).
Proof. intros e r res e' r' ? ? ? Heq. unfold qfail in Heq. by simplify_eq. Qed.

Lemma total_value {A} (a : A) : total (qret a).
Proof. intros e r res e' r' ? ? ? Heq. unfold qret in Heq. by simplify_eq. Qed.

(** ** Charges *)

Lemma budget_error_total {A} kind limit consumed : total (budget_error (A:=A) kind limit consumed).
Proof.
  intros e r res e' r' HQ Hst Hb. unfold budget_error, alloc_continuation, qbind, get_engine, get_run, qlift, put_engine, qfail.
  unfold checked_add. destruct (N.ltb_spec usize_max (next_token e + 1)); intros Hm; simplify_eq/=; split_and!; try done. unfold ended. lia.
Qed.

(** A counter of the run within a limit. *)
Lemma counter_total (used units limit : N) kind (put : N -> RunState K) :
  (forall n, run_stack (put n) = st) -> (forall n, run_budgets (put n) = b) ->
  ((usize_max <= limit)%N -> forall e, ended e b) ->
  total (if (limit <? saturating_add used units)%N then budget_error kind limit (saturating_add used units)
         else let! w := qlift (expect (checked_add used units)) in put_run (put w)).
Proof.
  intros Hst Hb Hend. destruct (N.ltb_spec limit (saturating_add used units)) as [|Hle]; [apply budget_error_total|].
  intros e r res e' r' HQ Hst' Hb' Heq. unfold qbind, qlift, put_run in Heq. unfold saturating_add, checked_add in *.
  destruct (N.ltb_spec usize_max (used + units)); simplify_eq/=; split_and!; try done. apply Hend. lia.
Qed.

Lemma check_cancelled_total : total check_cancelled.
Proof. unfold check_cancelled. apply total_get_run. intros r _ _. case_match; auto using total_fail, total_value. Qed.

Lemma charge_work_total units : total (charge_work units).
Proof.
  unfold charge_work. apply total_bind; [apply check_cancelled_total|]. intros _. apply total_get_run. intros r Hr Hb.
  apply counter_total; [done..|]. rewrite Hb. intros Hm e. unfold ended. lia.
Qed.

Lemma charge_output_total units : total (charge_output units).
Proof.
  unfold charge_output. apply total_bind; [apply check_cancelled_total|]. intros _. apply total_get_run. intros r Hr Hb.
  apply counter_total; [done..|]. rewrite Hb. intros Hm e. unfold ended. lia.
Qed.

Lemma charge_observation_total : total charge_observation.
Proof.
  unfold charge_observation. apply total_get_run. intros r Hr Hb. apply counter_total; [done..|]. rewrite Hb. intros Hm e. unfold ended. lia.
Qed.

Lemma charge_depth_total : total charge_depth.
Proof. unfold charge_depth. apply total_get_run. intros r Hr Hb. case_match; auto using budget_error_total, total_value. Qed.

Lemma memo_observation_total key : total (memo_observation key).
Proof.
  unfold memo_observation. apply total_get_engine. intros e _.
  repeat case_match; auto using total_fail, total_value.
Qed.

Lemma memo_value_total key : total (memo_value key).
Proof. unfold memo_value. apply total_get_engine. intros e _. case_match; auto using total_fail, total_value. Qed.

(** ** Everything but the recursive calls *)

Context (ev : K -> QM V) (HE : forall key, total (ev key)).

Lemma frame_read_total key : total (frame_read ev key).
Proof using HE.
  unfold frame_read. apply total_bind; [apply HE|]. intros v. apply total_bind; [apply memo_observation_total|].
  intros o. apply total_bind; [apply charge_observation_total|]. intros _. apply total_value.
Qed.

Lemma frame_observe_total kind key : total (frame_observe kind key).
Proof.
  unfold frame_observe. apply total_get_engine. intros e _.
  apply total_bind; [apply charge_observation_total|]. intros _. apply total_value.
Qed.

Lemma run_query_total p : forall D, total (run_query ext ev p D).
Proof using HE.
  induction p as [v|x|key cont IH|kind key cont IH|units cont IH|units cont IH|cont IH|cont IH];
    intros D; cbn [run_query].
  - apply total_value.
  - apply total_fail.
  - apply total_bind; [apply total_catch, frame_read_total|]. intros [x|[v o]]; apply IH.
  - apply total_bind; [apply total_catch, frame_observe_total|]. intros [x|o]; apply IH.
  - apply total_bind; [apply total_catch, charge_work_total|]. intros res. apply IH.
  - apply total_bind; [apply total_catch, charge_output_total|]. intros res. apply IH.
  - apply total_get_run. intros r Hr Hb. apply total_bind; [by apply total_put_run|]. intros _. apply IH.
  - apply total_get_run. intros r _ _. apply IH.
Qed.

Lemma refresh_total D : total (refresh ev D).
Proof using HE.
  induction D as [|o D IH]; cbn [refresh]; [apply total_value|].
  case_decide; [|done]. apply total_bind; [apply HE|done].
Qed.

Lemma try_reuse_total key : total (try_reuse_memo ev key).
Proof using HE.
  unfold try_reuse_memo. apply total_get_engine. intros e _.
  destruct (nodes e !! key) as [n|]; [|apply total_value]. destruct (q_value n); [|apply total_value].
  apply total_bind; [case_match; [apply refresh_total|apply total_value]|]. intros _.
  apply total_get_engine. intros e1 He1. case_match; [|apply total_value].
  apply total_bind; [by apply total_put_engine|]. intros _. apply total_value.
Qed.

Lemma commit_value_returns (e : engine) key v D : returns e b (commit_value e key v D).
Proof.
  unfold commit_value, alloc_revision, checked_add. cbn.
  destruct (nodes e !! key); [case_decide; [done|]|]; (destruct (N.ltb_spec usize_max (next_revision e + 1)); [left; cbn; lia|done]).
Qed.

Lemma commit_total key v D : total (let! e := get_engine in let! e := qlift (commit_value e key v D) in let! _ := put_engine e in memo_value key).
Proof.
  intros e r res e' r' HQ Hst Hb Heq. unfold qbind at 1 2, get_engine, qlift in Heq. pose proof (commit_value_returns e key v D) as Hr.
  destruct (commit_value e key v D) as [e2|x| |] eqn:Hok; [|by injection Heq as <- <- <-..].
  eapply (total_bind (put_engine e2) (fun _ => memo_value key)); [| |done..|exact Heq]; [|intros _; apply memo_value_total].
  apply commit_value_cases in Hok as (? & ? & _ & Hq & _). apply total_put_engine. by rewrite Hq.
Qed.

Lemma evaluate_pushed_total key : total (evaluate_pushed ext ev key).
Proof using HE.
  unfold evaluate_pushed. apply total_bind; [apply try_reuse_total|]. intros [|]; [apply memo_value_total|].
  apply total_bind; [apply charge_work_total|]. intros _.
  apply total_get_engine. intros e He. destruct (queries e !! key); [|apply total_fail].
  apply total_bind; [apply run_query_total|]. intros [v D].
  apply total_bind; [apply charge_output_total|]. intros _.
  apply commit_total.
Qed.
End Fixed.

Lemma stack_bounded (Q : gmap K (Query K V X)) st :
  NoDup st -> (forall k, k ∈ st -> is_Some (Q !! k)) -> length st <= size Q.
Proof.
  intros Hnd Hin. rewrite <- size_dom, <- (size_list_to_set (C:=gset K) st) by done.
  apply subseteq_size. intros k Hk%elem_of_list_to_set. apply elem_of_dom. auto.
Qed.

Lemma evaluate_total Q b fuel : forall st key,
  NoDup st -> (forall k, k ∈ st -> is_Some (Q !! k)) -> size Q < fuel + length st ->
  total_on Q st b (evaluate ext fuel key).
Proof.
  induction fuel as [|fuel IH]; intros st key Hnd Hin Hfuel.
  { pose proof (stack_bounded Q st Hnd Hin). simpl in Hfuel. lia. }
  cbn [evaluate]. unfold evaluate_step.
  apply total_bind; [apply check_cancelled_total|]. intros _.
  apply total_get_engine. intros e He. destruct (queries e !! key) as [q|] eqn:Hq; [|apply total_fail].
  apply total_get_run. intros r Hr _. destruct (stack_position key (run_stack r)) eqn:Hpos; [apply total_fail|].
  apply stack_position_None in Hpos. rewrite Hr in Hpos.
  apply total_bind; [apply charge_depth_total|]. intros _.
  intros e1 r1 res e' r' HQ Hst Hb Heq. unfold qbind, get_run, put_run in Heq. cbn in Heq.
  destruct (evaluate_pushed _ _ _ _ _) as [[res2 e2] r2] eqn:Hev. injection Heq as <- <- <-.
  destruct (evaluate_pushed_total Q (st ++ [key]) b (evaluate ext fuel)) with
    (key := key) (e := e1) (r := with_stack r1 (run_stack r1 ++ [key])) (res := res2) (e' := e2) (r' := r2)
    as (HQ2 & Hst2 & Hb2 & Hn).
  - intros key'. apply IH; [| |rewrite length_app; simpl; lia].
    + apply NoDup_app. split_and!; [done| |apply NoDup_singleton].
      intros k Hk Heq%list_elem_of_singleton. congruence.
    + intros k [Hk|Heq%list_elem_of_singleton]%elem_of_app; [auto|]. rewrite Heq, <- He. eauto.
  - done.
  - simpl. by rewrite Hst.
  - done.
  - done.
  - split_and!; [done| |done|done]. simpl. by rewrite Hst2, removelast_last.
Qed.

(** C15: A verification always ends, with a value or a typed error; the recursion
    never exceeds the number of registered queries, whatever the callbacks do,
    disciplined or not.  It aborts only when the engine's 64-bit counter of
    revisions or of continuations is at its end, or when a budget is the largest
    integer, so that the sum of the charges of a callback may overflow. *)
Theorem verify_terminates (e : engine) key b :
  match verify_with_budgets ext e key b with
  | (Ok _, _) | (Err _, _) => True
  | (Panic, e') => ended e' b
  | (NoFuel, _) => False
  end.
Proof.
  unfold verify_with_budgets. destruct (evaluate _ _ _ _ _) as [[res e'] r'] eqn:Hev.
  apply (evaluate_total (queries e) b (eval_fuel e) [] key) in Hev as (_ & _ & _ & Hr); try done.
  - apply NoDup_nil_2.
  - intros k Hk. by apply elem_of_nil in Hk.
  - unfold eval_fuel. simpl. lia.
Qed.
End Totality.
