(* ===== verification/QuerySnapshot.v ===== *)
(** * Graph snapshots

    crates/sim-incremental-core/src/snapshot.rs: exporting the memo graph
    reachable from some roots under node and edge budgets, and restoring it
    with every memo dirty and the reverse index rebuilt. *)

From stdpp Require Import relations.
From S2P Require Import Prelude BTree Lattice Budget QueryEngine QuerySemantics.

Record SnapshotObservation (K : Type) := {
  snap_obs_key : K;
  snap_obs_kind : ObservationKind;
  snap_obs_revision : N;
}.
Arguments snap_obs_key {K}.
Arguments snap_obs_kind {K}.
Arguments snap_obs_revision {K}.

Record SnapshotNode (K V : Type) := {
  snap_key : K;
  snap_revision : N;
  snap_dirty : bool;
  snap_value : option V;
  snap_dependencies : list (SnapshotObservation K);
}.
Arguments snap_key {K V}.
Arguments snap_revision {K V}.
Arguments snap_dirty {K V}.
Arguments snap_value {K V}.
Arguments snap_dependencies {K V}.

Inductive SnapshotError (K : Type) :=
| DuplicateSnapshotNode (key : K).
Arguments DuplicateSnapshotNode {K} key.

Record RestoreReport := {
  report_nodes : N;
  report_recovered_dirty : N;
}.

Section Snapshot.
Context {K V X : Type} `{OrdKey K} `{EqDecision V} `{FingerprintValue V}.
Abbreviation engine := (IncrementalEngine K V X).
Abbreviation err := (IncrementalError K).
Abbreviation snode := (SnapshotNode K V).

Definition snapshot_observation (o : Observation K) : SnapshotObservation K :=
  {| snap_obs_key := obs_key o; snap_obs_kind := obs_kind o; snap_obs_revision := obs_revision o |}.

Definition snapshot_node (key : K) (n : QNode K V) : snode := {|
  snap_key := key;
  snap_revision := q_revision n;
  snap_dirty := q_dirty n;
  snap_value := q_value n;
  snap_dependencies := snapshot_observation <$> q_dependencies n;
|}.

(** The keys a memo reads. *)
Definition read_keys (n : QNode K V) : gset K :=
  list_to_set (obs_key <$> filter (fun o => obs_kind o = KRead) (q_dependencies n)).

Definition snapshot_refused (e : engine) (root : K) (limit consumed : N)
    : Res err (list snode) * engine :=
  match alloc_continuation e root with
  | Ok (token, e) => (Err (QueryBudgetExceeded OutputUnits limit consumed (Some token)), e)
  | Err x => (Err x, e)
  | Panic => (Panic, e)
  | NoFuel => (NoFuel, e)
  end.

Fixpoint snapshot_loop (fuel : nat) (e : engine) (b : SnapshotBudgets) (root : K)
    (pending seen : gset K) (out : list snode) (edges : N) : Res err (list snode) * engine :=
  match fuel with
  | O => (NoFuel, e)
  | S fuel =>
    match pop_first pending with
    | None => (Ok out, e)
    | Some (key, pending) =>
      if decide (key ∈ seen) then snapshot_loop fuel e b root pending seen out edges
      else if (max_nodes b <? saturating_add (len out) 1)%N then
        snapshot_refused e root (max_nodes b) (saturating_add (len out) 1)
      else
        match nodes e !! key with
        | None => (Err (UnknownQuery key), e)
        | Some n =>
          let edges := saturating_add edges (len (q_dependencies n)) in
          if (max_edges b <? edges)%N then snapshot_refused e root (max_edges b) edges
          else
            snapshot_loop fuel e b root (pending ∪ read_keys n) ({[key]} ∪ seen)
              (out ++ [snapshot_node key n]) edges
        end
    end
  end.

(** Every key the export can meet. *)
Definition snapshot_universe (e : engine) (roots : gset K) : gset K :=
  roots ∪ ⋃ (read_keys <$> map_values (nodes e)).

Definition snapshot_fuel (e : engine) (roots : gset K) : nat :=
  let u := size (snapshot_universe e roots) in S (S u * S u).

Definition snapshot (e : engine) (roots : list K) (b : SnapshotBudgets) : Res err (list snode) * engine :=
  let pending := list_to_set roots in
  match set_keys pending with
  | [] => (Ok [], e)
  | root :: _ => snapshot_loop (snapshot_fuel e pending) e b root pending ∅ [] 0
  end.

(** ** Restoring *)

Fixpoint find_duplicate (seen : gset K) (l : list snode) : option K :=
  match l with
  | [] => None
  | n :: rest =>
    if decide (snap_key n ∈ seen) then Some (snap_key n) else find_duplicate ({[snap_key n]} ∪ seen) rest
  end.

Definition restored_fingerprints (l : list snode) : gmap K N :=
  foldl (fun m n => match snap_value n with
                    | Some v => <[snap_key n := incremental_fingerprint v]> m
                    | None => m
                    end) ∅ l.

(** One external revision, kept at its maximum. *)
Definition restore_external_revision (m : gmap K N) (o : SnapshotObservation K) : gmap K N :=
  if decide (snap_obs_kind o = KRead) then m
  else <[snap_obs_key o := match m !! snap_obs_key o with
                           | Some r => N.max r (snap_obs_revision o)
                           | None => snap_obs_revision o
                           end]> m.

Definition restore_external_revisions (m : gmap K N) (n : snode) : gmap K N :=
  foldl restore_external_revision m (snap_dependencies n).

Definition restore_observation (fps : gmap K N) (o : SnapshotObservation K) : Observation K :=
  if decide (snap_obs_kind o = KRead)
  then observation_read (snap_obs_key o) (snap_obs_revision o) (default 0%N (fps !! snap_obs_key o))
  else {| obs_key := snap_obs_key o; obs_kind := snap_obs_kind o;
          obs_revision := snap_obs_revision o; obs_fingerprint := None |}.

Definition restore_node (fps : gmap K N) (n : snode) : QNode K V := {|
  q_revision := snap_revision n;
  q_dirty := true;
  q_value := snap_value n;
  q_fingerprint := incremental_fingerprint <$> snap_value n;
  q_dependencies := restore_observation fps <$> snap_dependencies n;
|}.

Definition restored_nodes (s : list snode) : gmap K (QNode K V) :=
  foldl (fun m n => <[snap_key n := restore_node (restored_fingerprints s) n]> m) ∅ s.

Definition rebuild_reverse (ns : gmap K (QNode K V)) : gmap K (gset K) :=
  foldl (fun r kn => link kn.1 (q_dependencies kn.2) r) ∅ (map_entries ns).

Definition restore_snapshot (e : engine) (s : list snode) : Res (SnapshotError K) (RestoreReport * engine) :=
  match find_duplicate ∅ s with
  | Some key => Err (DuplicateSnapshotNode key)
  | None =>
    let ns := restored_nodes s in
    let max_revision := foldl (fun m n => N.max m (snap_revision n)) (saturating_sub (next_revision e) 1) s in
    let sources := foldl restore_external_revisions (source_revisions e) s in
    let recovered := len (filter (fun n : snode => snap_dirty n = false) s) in
    let e := with_nodes (with_sources e sources) ns in
    let e := with_revision e (N.max (next_revision e) (saturating_add max_revision 1)) in
    Ok ({| report_nodes := N.of_nat (size ns); report_recovered_dirty := recovered |},
        with_reverse e (rebuild_reverse ns))
  end.
End Snapshot.

(** ** What an export contains *)

Section Exported.
Context {K V X : Type} `{OrdKey K} `{EqDecision V} `{FingerprintValue V}.
Abbreviation snode := (SnapshotNode K V).
Context (e : IncrementalEngine K V X).

(** [k] has a memo that read [k']. *)
Definition reads (k k' : K) : Prop := exists n, nodes e !! k = Some n /\ k' ∈ read_keys n.

Lemma read_keys_universe roots k n : nodes e !! k = Some n -> read_keys n ⊆ snapshot_universe e roots.
Proof.
  intros Hn k' Hk'. unfold snapshot_universe. apply elem_of_union. right. apply elem_of_union_list.
  exists (read_keys n). split; [|done]. apply list_elem_of_fmap. exists n. split; [done|].
  unfold map_values. apply list_elem_of_fmap. exists (k, n). split; [done|]. by apply elem_of_map_entries.
Qed.

(** What the export loop maintains. *)
Record ExportInv (roots pending seen : gset K) (out : list snode) : Prop := {
  ex_roots : roots ⊆ pending ∪ seen;
  ex_reached : forall k, k ∈ pending ∪ seen -> exists root, root ∈ roots /\ rtc reads root k;
  ex_closed : forall k k', k ∈ seen -> reads k k' -> k' ∈ pending ∪ seen;
  ex_keys : forall k, k ∈ snap_key <$> out <-> k ∈ seen;
  ex_nodup : NoDup (snap_key <$> out);
  ex_nodes : forall s, s ∈ out -> exists n, nodes e !! snap_key s = Some n /\ s = snapshot_node (snap_key s) n;
}.

Lemma ExportInv_skip roots pending seen out k :
  k ∈ pending -> k ∈ seen -> ExportInv roots pending seen out -> ExportInv roots (pending ∖ {[k]}) seen out.
Proof.
  intros Hk Hs [Hr Hre Hc Hke Hn Hno].
  assert (pending ∖ {[k]} ∪ seen = pending ∪ seen) as Heq.
  { apply set_eq. intros x. clear - Hs. destruct (decide (x = k)); set_solver. }
  split; rewrite ?Heq; done.
Qed.

Lemma ExportInv_visit roots pending seen out k n :
  k ∈ pending -> k ∉ seen -> nodes e !! k = Some n -> ExportInv roots pending seen out ->
  ExportInv roots (pending ∖ {[k]} ∪ read_keys n) ({[k]} ∪ seen) (out ++ [snapshot_node k n]).
Proof.
  intros Hk Hs Hn [Hr Hre Hc Hke Hnd Hno].
  assert (pending ∖ {[k]} ∪ read_keys n ∪ ({[k]} ∪ seen) = (pending ∪ seen) ∪ read_keys n) as Heq.
  { apply set_eq. intros x. clear - Hk. destruct (decide (x = k)); set_solver. }
  split; rewrite ?Heq.
  - clear - Hr. set_solver.
  - intros x [Hx|Hx]%elem_of_union; [auto|]. destruct (Hre k) as (root & Hroot & Hp); [clear - Hk; set_solver|].
    exists root. split; [done|]. eapply rtc_r; [done|]. by exists n.
  - intros a b [->%elem_of_singleton|Ha]%elem_of_union Hb; apply elem_of_union.
    + destruct Hb as (n' & Hn' & Hb). right. congruence.
    + left. by eapply Hc.
  - intros x. rewrite fmap_app, elem_of_app, Hke, elem_of_union. simpl.
    rewrite list_elem_of_singleton, elem_of_singleton. tauto.
  - rewrite fmap_app. apply NoDup_app. split_and!; [done| |apply NoDup_singleton].
    intros x Hx Hy. simpl in Hy. apply list_elem_of_singleton in Hy. apply Hs, Hke. congruence.
  - intros s [Hs'|Hs']%elem_of_app; [auto|]. apply list_elem_of_singleton in Hs' as ->. exists n. done.
Qed.

Lemma snapshot_loop_spec roots b root fuel : forall pending seen out edges,
  ExportInv roots pending seen out ->
  pending ⊆ snapshot_universe e roots -> seen ⊆ snapshot_universe e roots ->
  (N.min (len out) usize_max <= max_nodes b)%N ->
  let U := snapshot_universe e roots in
  size (U ∖ seen) * S (size U) + size pending < fuel ->
  (snapshot_loop fuel e b root pending seen out edges).1 <> NoFuel /\
  forall s e', snapshot_loop fuel e b root pending seen out edges = (Ok s, e') ->
    e' = e /\ (N.min (len s) usize_max <= max_nodes b)%N /\ exists seen', ExportInv roots ∅ seen' s.
Proof.
  induction fuel as [|fuel IH]; intros pending seen out edges HI HP HS Hlen U Hfuel; [lia|].
  cbn [snapshot_loop]. destruct (pop_first pending) as [[k rest]|] eqn:Hpop; cycle 1.
  { apply pop_first_None in Hpop as ->. split; [done|]. intros s e' [= <- <-]. eauto. }
  pose proof (pop_first_size _ _ _ Hpop) as Hsize. apply pop_first_Some in Hpop as (Hk & -> & _).
  case_decide as Hseen.
  { apply IH; [by apply ExportInv_skip|clear - HP; set_solver|done|done|fold U; lia]. }
  assert (forall limit consumed, (snapshot_refused e root limit consumed).1 <> NoFuel /\
    forall s e', snapshot_refused e root limit consumed = (Ok s, e') -> False) as Href.
  { intros limit consumed. unfold snapshot_refused, alloc_continuation. by destruct (checked_add _ _). }
  destruct (N.ltb_spec (max_nodes b) (saturating_add (len out) 1)) as [|Hmax].
  { split; [apply Href|]. intros s e' Heq. by apply Href in Heq. }
  destruct (nodes e !! k) as [n|] eqn:Hn; [|done].
  case_match; [split; [apply Href|]; intros s e' Heq; by apply Href in Heq|].
  pose proof (read_keys_universe roots k n Hn) as HU.
  assert (k ∈ U) as HkU by (by apply HP). fold U in HP, HS, HU.
  apply IH; fold U; [by apply ExportInv_visit|clear - HP HU; set_solver|clear - HS HkU; set_solver| |].
  - rewrite len_snoc. exact Hmax.
  - assert (size (U ∖ seen) = S (size (U ∖ ({[k]} ∪ seen)))) as Hsz.
    { assert (U ∖ seen = {[k]} ∪ U ∖ ({[k]} ∪ seen)) as ->.
      { apply set_eq. intros a. clear - HkU Hseen. destruct (decide (a = k)); set_solver. }
      rewrite size_union by (clear; set_solver). by rewrite size_singleton. }
    pose proof (subseteq_size (pending ∖ {[k]} ∪ read_keys n) U ltac:(clear - HP HU; set_solver)). lia.
Qed.
End Exported.

(** ** Restored engines *)

Section Restored.
Context {K V X : Type} `{OrdKey K} `{EqDecision V} `{FingerprintValue V}.
Abbreviation snode := (SnapshotNode K V).

Lemma find_duplicate_None (seen : gset K) (l : list snode) :
  find_duplicate seen l = None <-> NoDup (snap_key <$> l) /\ forall n, n ∈ l -> snap_key n ∉ seen.
Proof.
  revert seen. induction l as [|n l IH]; intros seen; simpl.
  - split; [intros _; split; [constructor|]|done]. intros n Hn. by apply elem_of_nil in Hn.
  - rewrite NoDup_cons. case_decide as Hs.
    + split; [done|]. intros [_ Hall]. destruct (Hall n); [left|done].
    + rewrite IH. split.
      * intros [Hnd Hall]. split_and!; [|done|].
        -- intros (m & Hm & Hin)%list_elem_of_fmap. apply (Hall m Hin). set_solver.
        -- intros m [->|Hm]%elem_of_cons; [done|]. specialize (Hall m Hm). set_solver.
      * intros [[Hni Hnd] Hall]. split; [done|]. intros m Hm. rewrite not_elem_of_union, not_elem_of_singleton.
        split; [|apply Hall; by right]. intros Heq. apply Hni, list_elem_of_fmap. eauto.
Qed.

Lemma restored_lookup fps (l : list snode) (acc : gmap K (QNode K V)) k :
  NoDup (snap_key <$> l) ->
  foldl (fun m n => <[snap_key n := restore_node fps n]> m) acc l !! k =
  match list_find (fun n => snap_key n = k) l with
  | Some (_, n) => Some (restore_node fps n)
  | None => acc !! k
  end.
Proof.
  revert acc. induction l as [|n l IH]; intros acc Hnd; simpl; [done|].
  rewrite fmap_cons, NoDup_cons in Hnd. destruct Hnd as [Hni Hnd]. rewrite IH by done.
  case_decide as Hk; simpl.
  - destruct (list_find (fun n0 => snap_key n0 = k) l) as [[i m]|] eqn:Hf.
    + apply list_find_Some in Hf as (Hi & Hm & _). destruct Hni. apply list_elem_of_fmap. exists m.
      split; [congruence|]. by eapply list_elem_of_lookup_2.
    + rewrite Hk. apply lookup_insert_eq.
  - destruct (list_find (fun n0 => snap_key n0 = k) l) as [[i m]|]; simpl; [done|].
    by rewrite lookup_insert_ne.
Qed.

Lemma restored_nodes_lookup (s : list snode) k n :
  NoDup (snap_key <$> s) ->
  restored_nodes s !! k = Some n <->
  exists sn, sn ∈ s /\ snap_key sn = k /\ n = restore_node (restored_fingerprints s) sn.
Proof.
  intros Hnd. unfold restored_nodes. rewrite restored_lookup by done. split.
  - destruct (list_find _ s) as [[i m]|] eqn:Hf; [|by rewrite lookup_empty].
    apply list_find_Some in Hf as (Hi & Hm & _). intros [= <-]. exists m. split; [|done].
    by eapply list_elem_of_lookup_2.
  - intros (sn & Hsn & Hk & ->). apply list_elem_of_lookup in Hsn as [i Hi].
    rewrite (proj2 (list_find_Some (fun n0 => snap_key n0 = k) s i sn)); [done|]. split_and!; [done|done|].
    intros j y Hj Hlt Hy. apply (NoDup_lookup _ j i (snap_key y)) in Hnd; [lia| |];
      rewrite list_lookup_fmap; [by rewrite Hj|rewrite Hi; simpl; congruence].
Qed.

Lemma link_all_spec (l : list (K * QNode K V)) r k k' :
  k' ∈ default ∅ (foldl (fun r kn => link kn.1 (q_dependencies kn.2) r) r l !! k) <->
  k' ∈ default ∅ (r !! k) \/ exists n o, (k', n) ∈ l /\ o ∈ q_dependencies n /\ obs_key o = k.
Proof.
  revert r. induction l as [|[k0 n0] l IH]; intros r; simpl.
  - split; [by left|]. intros [?|(n & o & Hin & _)]; [done|]. by apply elem_of_nil in Hin.
  - rewrite IH, elem_of_link. simpl. split.
    + intros [[?|(-> & o & Ho & Hk)]|(n & o & Hin & Ho & Hk)]; [by left| |].
      * right. exists n0, o. split; [left|done].
      * right. exists n, o. split; [by right|done].
    + intros [?|(n & o & [[= -> ->]|Hin]%elem_of_cons & Ho & Hk)]; [by left; left|left; right; eauto|right; eauto].
Qed.

Lemma rebuild_reverse_spec (ns : gmap K (QNode K V)) k k' :
  k' ∈ default ∅ (rebuild_reverse ns !! k) <->
  exists n o, ns !! k' = Some n /\ o ∈ q_dependencies n /\ obs_key o = k.
Proof.
  unfold rebuild_reverse. rewrite link_all_spec, lookup_empty. simpl.
  setoid_rewrite elem_of_map_entries. set_solver.
Qed.

Lemma max_revision_spec (l : list snode) acc :
  (acc <= foldl (fun m n => N.max m (snap_revision n)) acc l)%N /\
  forall n, n ∈ l -> (snap_revision n <= foldl (fun m n => N.max m (snap_revision n)) acc l)%N.
Proof.
  revert acc. induction l as [|n l IH]; intros acc; simpl.
  - split; [lia|]. intros n Hn. by apply elem_of_nil in Hn.
  - destruct (IH (N.max acc (snap_revision n))) as [Hle Hall]. split; [lia|].
    intros m [->|Hm]%elem_of_cons; [lia|auto].
Qed.
End Restored.

Section SnapshotTheorems.
Context {K V X : Type} `{OrdKey K} `{EqDecision V} `{FingerprintValue V}.
Implicit Types (e : IncrementalEngine K V X) (s : list (SnapshotNode K V)).

Lemma export_start e (roots : gset K) : ExportInv e roots roots ∅ [].
Proof.
  split; simpl.
  - set_solver.
  - intros k Hk. exists k. split; [set_solver|reflexivity].
  - intros k k' Hk. by apply not_elem_of_empty in Hk.
  - intros k. set_solver.
  - constructor.
  - intros n Hn. by apply elem_of_nil in Hn.
Qed.

Lemma snapshot_cases e roots b :
  (snapshot e roots b).1 <> NoFuel /\
  forall s e', snapshot e roots b = (Ok s, e') ->
    e' = e /\ (N.min (len s) usize_max <= max_nodes b)%N /\ exists seen, ExportInv e (list_to_set roots) ∅ seen s.
Proof.
  unfold snapshot. destruct (set_keys (list_to_set roots)) as [|root rest] eqn:Hk.
  - split; [done|]. intros s e' [= <- <-]. split_and!; [done|unfold len; simpl; lia|]. exists ∅.
    assert (list_to_set roots = (∅ : gset K)) as ->; [|apply export_start].
    apply set_eq. intros k. rewrite <- elem_of_set_keys, Hk. set_solver.
  - apply snapshot_loop_spec; [apply export_start| |set_solver|unfold len; simpl; lia|].
    + unfold snapshot_universe. set_solver.
    + unfold snapshot_fuel. rewrite difference_empty_L.
      pose proof (subseteq_size (list_to_set roots) (snapshot_universe e (list_to_set roots))
        ltac:(unfold snapshot_universe; set_solver)). lia.
Qed.

(** Exporting always ends, and an export that succeeds holds exactly the
    memos reachable from the roots along recorded reads, each once and as the
    engine has it, within the node budget, and leaves the engine unchanged. *)
Theorem snapshot_exact e roots b :
  (snapshot e roots b).1 <> NoFuel /\
  forall s e', snapshot e roots b = (Ok s, e') ->
    e' = e /\ (N.min (len s) usize_max <= max_nodes b)%N /\ NoDup (snap_key <$> s) /\
    (forall k, k ∈ snap_key <$> s <-> exists root, root ∈ roots /\ rtc (reads e) root k) /\
    (forall sn, sn ∈ s -> exists n, nodes e !! snap_key sn = Some n /\ sn = snapshot_node (snap_key sn) n).
Proof.
  destruct (snapshot_cases e roots b) as [Hf Hok]. split; [done|]. intros s e' Hs.
  destruct (Hok s e' Hs) as (-> & Hlen & seen & [Hr Hre Hc Hke Hnd Hno]).
  rewrite (left_id_L ∅ (∪)) in Hr, Hre, Hc. split_and!; try done. intros k. rewrite Hke. split.
  - intros Hk. destruct (Hre k Hk) as (root & Hroot & Hp). exists root. split; [|done].
    by apply elem_of_list_to_set in Hroot.
  - intros (root & Hroot & Hp). assert (root ∈ seen) as Hs' by (apply Hr; by apply elem_of_list_to_set).
    clear Hroot Hre. induction Hp as [|a c d Hac _ IH]; [done|]. apply IH. by eapply Hc.
Qed.

(** A restore is refused exactly for duplicate keys, and otherwise holds
    the snapshot's memos and nothing else, all dirty, with a reverse index that
    has exactly the recorded dependencies and a revision counter beyond every
    restored revision. *)
Theorem restore_snapshot_spec e s :
  (~ NoDup (snap_key <$> s) -> exists key, restore_snapshot e s = Err (DuplicateSnapshotNode key)) /\
  (NoDup (snap_key <$> s) -> exists report e', restore_snapshot e s = Ok (report, e') /\
    (forall k n, nodes e' !! k = Some n <->
       exists sn, sn ∈ s /\ snap_key sn = k /\ n = restore_node (restored_fingerprints s) sn) /\
    (forall k n, nodes e' !! k = Some n -> q_dirty n = true) /\
    (forall k k', k' ∈ default ∅ (reverse e' !! k) <->
       exists n o, nodes e' !! k' = Some n /\ o ∈ q_dependencies n /\ obs_key o = k) /\
    (forall sn, sn ∈ s -> (snap_revision sn < usize_max)%N -> (snap_revision sn < next_revision e')%N) /\
    queries e' = queries e).
Proof.
  unfold restore_snapshot. pose proof (find_duplicate_None ∅ s) as Hfd. split.
  - intros Hd. destruct (find_duplicate ∅ s) as [key|] eqn:Hf; [eauto|]. destruct Hd. by apply Hfd.
  - intros Hnd. assert (find_duplicate ∅ s = None) as -> by (apply Hfd; split; [done|set_solver]).
    pose proof (fun k n => restored_nodes_lookup s k n Hnd) as Hlook.
    eexists _, _. split; [done|]. simpl. split_and!; [done| | | |done].
    + intros k n (sn & _ & _ & ->)%Hlook. done.
    + intros k k'. apply rebuild_reverse_spec.
    + intros sn Hsn Hlt. destruct (max_revision_spec s (saturating_sub (next_revision e) 1)) as [_ Hall].
      specialize (Hall sn Hsn). unfold saturating_add. lia.
Qed.
End SnapshotTheorems.
