(* ===== verification/DataflowSamples.v ===== *)
(** * Solver instances

    A cyclic graph and the lattices of the crate's tests, on which the theorems
    about the solver and its resumable form are instantiated. *)

From stdpp Require Import relations.
From S2P Require Import Prelude BTree Lattice DataflowGraph Budget Worklist DataflowEngine DataflowBounds Resumable Completion IncrementalSolve.

#[local] Existing Instance sample_fingerprint.

(** An input, a two-node loop and an output. *)
Definition loop_nodes :=
  [sample_node 1 Input; sample_node 2 Internal; sample_node 3 Internal; sample_node 4 Output].
Definition loop_edges :=
  [sample_edge 10 1 2; sample_edge 20 2 3; sample_edge 30 3 2; sample_edge 40 3 4].

Definition loop_graph : DataflowGraph nat nat nat nat :=
  frozen_graph (declared_nodes loop_nodes) (declared_edges loop_edges).

Lemma loop_graph_built : build loop_nodes loop_edges = Ok loop_graph.
Proof. vm_compute. reflexivity. Qed.

Lemma loop_graph_wf : graph_wf loop_graph.
Proof. eapply build_wf, loop_graph_built. Qed.

(** The chain of the crate's tests, a graph with another identity. *)
Definition chain_graph : DataflowGraph nat nat nat nat :=
  frozen_graph (declared_nodes chain_nodes) (declared_edges chain_edges).

Definition admitted {S : Type} (p : TransferPolicy S) : AdmittedTransfer (S:=S) :=
  {| admitted_policy := p; admitted_fingerprint := policy_fingerprint p;
     admitted_policy_size := policy_size p |}.

Definition add_four : AdmittedTransfer (S:=N) := admitted (add_facts 4).

Lemma add_four_lawful : LawfulTransfer (transfer add_four).
Proof. apply add_facts_lawful. Qed.

Definition loop_budgets : QueryBudgets := new_budgets 100 100 100 100.

Definition loop_solution := solve loop_graph add_four loop_budgets 101 0%N [(1, 1%N)].

(** The facts an input starts with reach the output through the loop, and the
    transfer's own fact is added on the way. *)
Lemma solve_least_witness :
  exists sol, loop_solution = Ok sol /\ map_entries (sol_states sol) = [(1, 1%N); (2, 5%N); (3, 5%N); (4, 5%N)] /\
    LeastSolution loop_graph (transfer add_four) 0%N [(1, 1%N)] (sol_states sol).
Proof.
  eexists. split; [vm_compute; reflexivity|]. split; [vm_compute; reflexivity|].
  apply (solve_least loop_graph add_four loop_budgets 101 0%N [(1, 1%N)]);
    [apply loop_graph_wf|apply bits_lawful|apply add_four_lawful|vm_compute; reflexivity].
Defined.

Lemma solve_no_panic_witness :
  build loop_nodes loop_edges = Ok loop_graph /\ loop_solution <> Panic.
Proof.
  split; [vm_compute; reflexivity|].
  unfold loop_solution. apply (solve_no_panic loop_nodes loop_edges loop_graph add_four loop_budgets 101 0%N [(1, 1%N)]). vm_compute. reflexivity.
Defined.

Lemma solve_terminates_witness :
  solve loop_graph (admitted non_monotone) loop_budgets 101 0%N [(1, 1%N)] <> NoFuel.
Proof.
  apply solve_terminates; [apply loop_graph_wf|vm_compute; reflexivity|apply Nat.ltb_lt; vm_compute; reflexivity].
Defined.

Lemma solve_within_budgets_witness :
  exists sol, loop_solution = Ok sol /\ within loop_budgets (sol_usage sol).
Proof.
  eexists. split; [vm_compute; reflexivity|].
  apply (solve_within_budgets loop_graph add_four loop_budgets 101 0%N [(1, 1%N)]).
  vm_compute. reflexivity.
Defined.

(** ** A lattice of finite height *)

Definition keep : AdmittedTransfer (S:=bool) :=
  admitted {| policy_fingerprint := 1; policy_size := 0; policy_transfer := fun b : bool => b |}.

Lemma bool_lawful : Lawful (S:=bool) false.
Proof. split; cbn; intros; destruct_and?; repeat match goal with b : bool |- _ => destruct b end; naive_solver. Qed.

Lemma keep_lawful : LawfulTransfer (transfer keep).
Proof. split; cbn; intros; repeat match goal with b : bool |- _ => destruct b end; naive_solver. Qed.

Definition bool_height (b : bool) : nat := if b then 1 else 0.

Lemma bool_finite_height : FiniteHeight bool bool_height 1.
Proof. split; [intros [] []|intros []]; cbn; naive_solver lia. Qed.

Lemma solve_completes_witness :
  exists sol, solve loop_graph keep loop_budgets 5 false [(1, true)] = Ok sol.
Proof.
  apply (solve_completes loop_graph keep loop_budgets false [(1, true)] bool_height 1 1%N 5).
  - apply loop_graph_wf.
  - apply bool_lawful.
  - apply keep_lawful.
  - apply bool_finite_height.
  - intros s. reflexivity.
  - unfold machine_budgets. cbn. unfold usize_max. lia.
  - intros ns ->%list_elem_of_singleton. vm_compute. eauto.
  - unfold budgets_cover. vm_compute. split_and!; congruence.
  - apply Nat.ltb_lt. vm_compute. reflexivity.
Defined.

(** ** Resumable solving *)

#[local] Instance sample_dependencies : FingerprintValue (N * BTreeMap nat N) :=
  fun bs => (bs.1 + 2 * foldr (fun ks acc => N.of_nat ks.1 + 10 * ks.2 + 100 * acc) 0 (map_entries bs.2))%N.

#[local] Instance sample_token {A} : FingerprintValue (A * N) := fun x => x.2.

Definition loop_seeds : BTreeMap nat N := {[1 := 1%N]}.

Definition loop_start (visits : nat) := start_resumable loop_graph add_four 0%N loop_seeds visits 10.

Definition suspended_of {E} (r : Res E (DataflowProgress nat nat nat N))
    : option (DataflowContinuation nat nat nat N) :=
  match r with Ok (Suspended c) => Some c | _ => None end.

Lemma resume_refuses_changed_inputs_witness :
  exists c, loop_start 2 = Ok (Suspended c) /\
  exists changed expected actual,
    resume loop_graph add_four 0%N {[1 := 3%N]} c 10 =
      Err (ContinuationMismatch changed expected actual) /\ expected <> actual.
Proof.
  eexists. split; [vm_compute; reflexivity|].
  apply (resume_refuses_changed_inputs loop_graph loop_graph add_four add_four 0%N 0%N loop_seeds
           {[1 := 3%N]} 2 10%N).
  - vm_compute. reflexivity.
  - vm_compute. congruence.
Defined.

Lemma resumable_least_witness :
  exists s, loop_start 10 = Ok (Complete s) /\
    LeastSolution loop_graph (transfer add_four) 0%N (map_entries loop_seeds) (sol_states s).
Proof.
  eexists. split; [vm_compute; reflexivity|].
  apply (resumable_least loop_graph add_four 0%N loop_seeds 10 10%N);
    [apply loop_graph_wf|apply bits_lawful|apply add_four_lawful|vm_compute; reflexivity].
Defined.

Lemma resumable_agrees_with_solve_witness :
  exists sol, solve loop_graph add_four loop_budgets 10 0%N (map_entries loop_seeds) = Ok sol /\
  exists s, same_solution sol s /\
  forall visits, 10 <= visits ->
    start_resumable loop_graph add_four 0%N loop_seeds visits (max_explanation_causes loop_budgets) =
      Ok (Complete s).
Proof.
  eexists. split; [vm_compute; reflexivity|].
  apply (resumable_agrees_with_solve loop_graph add_four loop_budgets 10).
  vm_compute. reflexivity.
Defined.

(** ** Incremental solving *)

#[local] Instance sample_proof_fingerprints : ProofFingerprints nat nat nat N := {|
  fp_state := fun s => s;
  fp_boundaries := fun l => len l;
  fp_limits := fun l => let '(w, o, d, m, e) := l in (w + o + d + m + e)%N;
  fp_seeds := fun m => incremental_fingerprint (0%N, m);
  fp_identity := fun i => let '(_, g, l, p, _, _, d, obs, _, _) := i in (g + l + p + d + len obs)%N;
|}.

(** Adds a fact, but only to a state that is reached. *)
Definition add_when_reached (m : N) : AdmittedTransfer (S:=N) := admitted {|
  policy_fingerprint := 50 + m;
  policy_size := 1;
  policy_transfer := fun s => if bool_decide (s = 0%N) then 0%N else N.lor s m;
|}.

Lemma add_when_reached_lawful m : LawfulTransfer (transfer (add_when_reached m)).
Proof.
  split; intros *; unfold transfer; cbn [admitted_policy add_when_reached admitted policy_transfer].
  - intros _. case_bool_decide as Ha; [by rewrite Ha|]. by apply (join_ub_l bits_lawful a m).
  - intros _ _ Hab. case_bool_decide as Ha; [apply (bot_le bits_lawful)|].
    rewrite bool_decide_eq_false_2; cycle 1.
    { intros ->. apply Ha. by apply (le_bot bits_lawful). }
    apply (join_lub bits_lawful a m (N.lor b m)).
    + eapply (le_trans bits_lawful); [exact Hab|]. apply (join_ub_l bits_lawful b m).
    + apply (join_ub_r bits_lawful b m).
Qed.

Definition reach := add_when_reached 4.
Definition edited_seeds : BTreeMap nat N := {[1 := 3%N]}.

Definition first_proof := solve_proven loop_graph reach 0%N loop_budgets loop_seeds 101.

Lemma first_proof_valid p : first_proof = Ok p -> ValidProof loop_graph reach 0%N loop_budgets loop_seeds p.
Proof. apply solve_proven_correct; [apply loop_graph_wf|apply bits_lawful|apply add_when_reached_lawful]. Qed.

Lemma edited_no_collision :
  NoCollision loop_graph reach 0%N loop_seeds loop_graph reach 0%N edited_seeds.
Proof.
  split; done.
Qed.

Lemma solve_incremental_valid_witness :
  exists p q, first_proof = Ok p /\
    solve_incremental loop_graph reach 0%N loop_budgets edited_seeds p 101 = Ok q /\
    map_entries (sol_states (proof_solution q)) = [(1, 3%N); (2, 7%N); (3, 7%N); (4, 7%N)] /\
    ValidProof loop_graph reach 0%N loop_budgets edited_seeds q.
Proof.
  eexists _, _. split; [vm_compute; reflexivity|]. split; [vm_compute; reflexivity|].
  split; [vm_compute; reflexivity|].
  eapply (solve_incremental_valid loop_graph reach 0%N loop_budgets loop_seeds _ loop_graph reach 0%N
    loop_budgets edited_seeds 101).
  - apply loop_graph_wf.
  - apply bits_lawful.
  - apply add_when_reached_lawful.
  - reflexivity.
  - apply first_proof_valid. vm_compute. reflexivity.
  - apply edited_no_collision.
  - vm_compute. reflexivity.
Defined.

Lemma incremental_agrees_with_clean_witness :
  exists p q r, first_proof = Ok p /\
    solve_incremental loop_graph reach 0%N loop_budgets edited_seeds p 101 = Ok q /\
    solve_proven loop_graph reach 0%N loop_budgets edited_seeds 101 = Ok r /\
    sol_states (proof_solution q) = sol_states (proof_solution r) /\
    proof_nodes q = proof_nodes r /\ inputs_of q = inputs_of r.
Proof.
  eexists _, _, _. split; [vm_compute; reflexivity|]. split; [vm_compute; reflexivity|].
  split; [vm_compute; reflexivity|].
  eapply (incremental_agrees_with_clean loop_graph reach 0%N loop_budgets loop_seeds _ loop_graph reach 0%N
    loop_budgets edited_seeds 101 101).
  - apply loop_graph_wf.
  - apply bits_lawful.
  - apply add_when_reached_lawful.
  - reflexivity.
  - apply first_proof_valid. vm_compute. reflexivity.
  - apply edited_no_collision.
  - vm_compute. reflexivity.
  - vm_compute. reflexivity.
Defined.

Lemma solve_incremental_total_witness :
  exists p, first_proof = Ok p /\
    safe (solve_incremental loop_graph reach 0%N loop_budgets edited_seeds p 101).
Proof.
  eexists. split; [vm_compute; reflexivity|].
  eapply (solve_incremental_total loop_graph reach 0%N loop_budgets loop_seeds _ loop_graph reach 0%N
    loop_budgets edited_seeds 101 1%N).
  - apply loop_graph_wf.
  - apply bits_lawful.
  - apply first_proof_valid. vm_compute. reflexivity.
  - apply edited_no_collision.
  - intros s. reflexivity.
  - vm_compute. congruence.
  - vm_compute. reflexivity.
  - apply Nat.ltb_lt. vm_compute. reflexivity.
Defined.

Lemma affected_cone_exact_witness :
  exists p, first_proof = Ok p /\
  exists affected, affected_cone loop_graph 0%N {[1 := 1%N; 3 := 8%N]} p = Ok affected /\
  forall n, n ∈ affected <->
    exists m, m ∈ changed_seeds loop_graph 0%N {[1 := 1%N; 3 := 8%N]} p /\ rtc (flows loop_graph) m n.
Proof.
  eexists. split; [vm_compute; reflexivity|].
  apply (affected_cone_exact loop_graph 0%N {[1 := 1%N; 3 := 8%N]}). apply loop_graph_wf.
Defined.

Lemma present_sound_witness :
  exists p s, first_proof = Ok p /\ present loop_graph reach 0%N loop_budgets loop_seeds p = Ok s /\
    LeastSolution loop_graph (transfer reach) 0%N (map_entries loop_seeds) (sol_states s).
Proof.
  eexists _, _. split; [vm_compute; reflexivity|]. split; [vm_compute; reflexivity|].
  eapply (present_sound loop_graph reach 0%N loop_budgets loop_seeds _ loop_graph reach 0%N loop_budgets
            loop_seeds).
  - apply first_proof_valid. vm_compute. reflexivity.
  - split; done.
  - vm_compute. reflexivity.
Defined.

(** ** Unreached predecessors *)

Definition fork_graph : DataflowGraph nat nat nat nat :=
  frozen_graph (declared_nodes [sample_node 1 Internal; sample_node 2 Internal; sample_node 3 Internal])
               (declared_edges [sample_edge 10 1 3; sample_edge 20 2 3]).

(** With a transfer that raises bottom, an incremental solve joins the
    transferred state of a predecessor no seed reaches, which a clean solve
    never visits: after the only seed is withdrawn the two disagree. *)
Theorem incremental_transfers_unreached :
  exists p q r,
    solve_proven fork_graph add_four 0%N loop_budgets {[2 := 1%N]} 101 = Ok p /\
    solve_incremental fork_graph add_four 0%N loop_budgets ∅ p 101 = Ok q /\
    solve_proven fork_graph add_four 0%N loop_budgets ∅ 101 = Ok r /\
    sol_states (proof_solution q) !! 3 = Some 4%N /\
    sol_states (proof_solution r) !! 3 = Some 0%N.
Proof.
  eexists _, _, _. split; [vm_compute; reflexivity|]. split; [vm_compute; reflexivity|].
  split; [vm_compute; reflexivity|]. split; vm_compute; reflexivity.
Qed.
