(* ===== verification/DatumSamples.v ===== *)
(** * Kernel datums as trees, and query runs

    The interface of [KernelDatum] holds of trees of strings, where a tree is its
    own identity.  Then runs of the query engine. *)

From stdpp Require Import strings pretty countable.
From stdpp Require Import relations.
From S2P Require Import Prelude BTree KernelDatum Lattice Budget QueryEngine QuerySemantics QueryHistory QuerySnapshot.

Abbreviation tree := (gen_tree string).

Definition tree_view (t : tree) : DatumView tree tree :=
  match t with
  | GenNode 0 _ => VNil
  | GenNode 2 [GenLeaf s] => VString s
  | GenNode 3 [s] => VSymbol s
  | GenNode 4 [s; GenLeaf n] => VNumber s n
  | GenNode 6 (tag :: fields) => VNode tag (omap (fun t => match t with GenNode 7 [name; v] => Some (name, v) | _ => None end) fields)
  | GenNode 8 l => VBytes (omap (fun t => match t with GenNode n [] => Some (N.of_nat n) | _ => None end) l)
  | _ => VOther
  end.

Definition tree_str (t : tree) : string :=
  match t with GenLeaf s => s | GenNode _ [GenLeaf a; GenLeaf b] => a +:+ "/" +:+ b | _ => "" end.

#[export] Instance sample_datum : KernelDatum tree tree tree := {|
  symbol_new := GenLeaf;
  symbol_qualified := fun ns name => GenNode 0 [GenLeaf ns; GenLeaf name];
  as_qualified_str := tree_str;
  d_nil := GenNode 0 [];
  d_bool := fun b => GenNode 1 [GenLeaf (if b then "t" else "f")];
  d_string := fun s => GenNode 2 [GenLeaf s];
  d_symbol := fun s => GenNode 3 [s];
  d_number := fun d n => GenNode 4 [d; GenLeaf n];
  d_bytes := fun l => GenNode 8 ((fun n => GenNode (N.to_nat n) []) <$> l);
  d_list := GenNode 5;
  d_node := fun tag fields => GenNode 6 (tag :: ((fun f => GenNode 7 [f.1; f.2]) <$> fields));
  d_view := tree_view;
  canonical_bytes := fun t => Ok [N.pos (encode t)];
  datum_content_id := Ok;
  id_algorithm := id;
  id_bytes := fun _ => replicate 32 0%N;
  id_from_bytes := fun algorithm _ => algorithm;
|}.

Lemma tree_same (t t' : tree) : same t t' <-> t = t'.
Proof.
  unfold same_datum. simpl. rewrite bool_decide_eq_true. split; [|by intros ->]. intros [= Heq]. by apply (inj encode) in Heq.
Qed.

Lemma tree_list_same (l : list tree) : Forall2 (fun d d' => same d d') l l.
Proof. apply Forall_Forall2_diag, Forall_forall. intros t _. by apply tree_same. Qed.

#[export] Instance sample_datum_laws : KernelDatumLaws tree tree tree.
Proof.
  split; try done.
  - intros a b [= ?]. done.
  - intros a b a' b' [= ? ?]. done.
  - intros [] [] Heq%tree_same; done.
  - intros a b [= ?]%tree_same. done.
  - intros a b [= ?]%tree_same. done.
  - intros a b n m [= ? ?]%tree_same. done.
  - intros a b [= Heq]%tree_same. revert b Heq. induction a as [|x a IH]; intros [|y b] Heq; try done. injection Heq as Hx Hr. f_equal; [lia|by apply IH].
  - intros l l' [= <-]%tree_same. apply tree_list_same.
  - by intros t t' f f' [= <- _]%tree_same.
  - intros t t' f f' [= <- Hf]%tree_same _ _. split; [done|].
    assert (f = f') as ->; [|apply tree_list_same]. revert f' Hf. induction f as [|[n v] f IH]; intros [|[n' v'] f'] Hf; try done.
    injection Hf as -> -> Hf. by rewrite (IH f').
  - intros t f l _. apply Forall_forall. intros d _. by eexists.
  - intros s n. destruct (same_datum d_nil (d_number s n)) eqn:E; [by apply tree_same in E|done].
  - intros l. cbn [d_view sample_datum d_bytes tree_view]. f_equal. induction l as [|n l IH]; [done|].
    cbn [fmap list_fmap omap list_omap]. rewrite N2Nat.id. f_equal. exact IH.
  - intros t f. cbn [d_view sample_datum d_node tree_view]. f_equal. induction f as [|[n v] f IH]; [done|].
    cbn [fmap list_fmap omap list_omap fst snd]. f_equal. exact IH.
  - intros d. split; intros _; by eexists.
  - intros d d' c [= ->] [= ->]. by apply tree_same.
  - intros d d' ->%tree_same. done.
Qed.

(** ** Query engine instances

    Small engines on which the theorems about verification are instantiated,
    and the histories outside their hypotheses on which memoization becomes
    observable. *)

#[local] Instance number_fingerprint : FingerprintValue N := fun n => n.

Abbreviation sample_engine := (IncrementalEngine nat N N).
Abbreviation sample_query := (Query nat N N).

(** [?] on a frame operation. *)
Definition andthen {A} (k : A -> Prog nat N N) (r : IncrementalError nat + A) : Prog nat N N :=
  match r with inl x => Raise x | inr a => k a end.

(** The external state of a key, a constant, and one more than another query. *)
Definition leaf (source : nat) : sample_query := fun _ => Observe KListing source (andthen (fun x => Return x)).
Definition constant (v : N) : sample_query := fun _ => Return v.
Definition successor (key : nat) : sample_query := fun _ => Read key (andthen (fun v => Return (v + 1)%N)).

(** Runs a sequence of registrations on an engine. *)
Fixpoint register_all (e : sample_engine) (l : list (nat * sample_query))
    : Res (IncrementalError nat) sample_engine :=
  match l with
  | [] => Ok e
  | (k, q) :: rest => let? e := register_query e k q in register_all e rest
  end.

Definition engine_of (r : Res (IncrementalError nat) sample_engine) : sample_engine :=
  match r with Ok e => e | _ => new_engine end.

Definition ext5 : nat -> N := fun _ => 5%N.

Definition leaf_and_root : sample_engine := engine_of (register_all new_engine [(1, leaf 10); (2, successor 1)]).

Lemma leaf_and_root_reachable : reachable leaf_and_root ext5.
Proof.
  exists ext5. eapply rtc_l; [|eapply rtc_l; [|reflexivity]].
  - apply (step_register _ _ 1 (leaf 10)); [reflexivity| |vm_compute; reflexivity]. cbn. auto.
  - apply (step_register _ _ 2 (successor 1)); [reflexivity| |vm_compute; reflexivity]. cbn. auto.
Qed.

Definition verified : sample_engine := (verify ext5 leaf_and_root 2).2.

Lemma verify_from_scratch_witness :
  (verify ext5 leaf_and_root 2).1 = Ok 6%N /\ scratch (queries leaf_and_root) ext5 2 6%N.
Proof.
  split; [vm_compute; reflexivity|].
  apply (verify_from_scratch leaf_and_root ext5 2 unlimited 6%N verified).
  - apply leaf_and_root_reachable.
  - vm_compute. reflexivity.
Defined.

Lemma verify_again_is_free_witness :
  verify_with_budgets ext5 verified 2 (new_budgets 0 0 1 0) = (Ok 6%N, verified).
Proof.
  apply (verify_again_is_free leaf_and_root ext5 2 unlimited 6%N verified).
  - apply leaf_and_root_reachable.
  - vm_compute. reflexivity.
  - vm_compute. congruence.
Defined.

(** ** Where memoization shows *)

(** Replacing the callback of a key keeps the memo of the old callback: a
    memo without dependencies is reused although the registration marked it
    dirty, so the new callback is never run. *)
Theorem replaced_query_keeps_old_value :
  let e1 := engine_of (register_query new_engine 1 (constant 1)) in
  let e2 := (verify ext5 e1 1).2 in
  let e3 := engine_of (register_query e2 1 (constant 2)) in
  (verify ext5 e1 1).1 = Ok 1%N /\ (verify ext5 e3 1).1 = Ok 1%N /\ scratch (queries e3) ext5 1 2%N.
Proof.
  cbn zeta. split_and!; [vm_compute; reflexivity|vm_compute; reflexivity|].
  exists (constant 2). split; [vm_compute; reflexivity|]. constructor.
Qed.

(** Observing a key that is also a query. *)
Definition shared_key : sample_engine :=
  engine_of (register_all new_engine [(1, constant 0); (2, leaf 1); (3, successor 2)]).
Definition shared_verified : sample_engine := (verify ext5 shared_key 3).2.
Definition shared_removed : sample_engine :=
  match remove_query shared_verified 1 with Ok (_, e) => e | _ => new_engine end.
Definition shared_reverified : sample_engine := (verify ext5 shared_removed 3).2.
Definition shared_invalidated : sample_engine :=
  match invalidate shared_reverified 1 with Ok (_, e) => e | _ => new_engine end.
Definition ext_changed : nat -> N := update_ext ext5 1 8%N.

(** Removing a query drops the reverse edges of everything that observes
    its key as an external source, so a later invalidation of that source no
    longer reaches the transitive dependents: they return a stale value. *)
Theorem removal_unlinks_observers :
  (verify ext5 shared_removed 3).1 = Ok 6%N /\
  (verify ext_changed shared_invalidated 3).1 = Ok 6%N /\
  (verify ext_changed shared_invalidated 2).1 = Ok 8%N /\
  scratch (queries shared_invalidated) ext_changed 3 9%N.
Proof.
  split_and!; [vm_compute; reflexivity|vm_compute; reflexivity|vm_compute; reflexivity|].
  exists (successor 2). split; [vm_compute; reflexivity|].
  apply (runs_read _ _ _ _ (leaf 1) 8%N); [vm_compute; reflexivity| |constructor].
  apply runs_observe. vm_compute. constructor.
Qed.

Definition one_snapshot : list (SnapshotNode nat N) :=
  match (snapshot (verify ext5 (engine_of (register_query new_engine 1 (constant 1))) 1).2 [1]
           unlimited_snapshot).1 with Ok s => s | _ => [] end.

(** A restored memo without dependencies is reused without running its
    query, whatever query the restoring engine has registered for the key. *)
Theorem restored_memo_not_rechecked :
  let e := engine_of (register_query new_engine 1 (constant 2)) in
  exists report e', restore_snapshot e one_snapshot = Ok (report, e') /\
    (verify ext5 e' 1).1 = Ok 1%N /\ scratch (queries e') ext5 1 2%N.
Proof.
  cbn zeta. eexists _, _. split; [vm_compute; reflexivity|]. split; [vm_compute; reflexivity|].
  exists (constant 2). split; [vm_compute; reflexivity|]. constructor.
Qed.

(** An export is in visiting order, not in key order: a root is listed
    before the smaller keys it reads. *)
Theorem snapshot_not_in_key_order :
  match (snapshot verified [2] unlimited_snapshot).1 with
  | Ok s => snap_key <$> s = [2; 1]
  | _ => False
  end.
Proof. vm_compute. reflexivity. Qed.
