(* ===== verification/MachineStack.v ===== *)
(** * Unit-accounted operand stacks and their shuffles

    crates/sim-lib-machine/src/stack.rs and shuffle.rs: a bounded LIFO stack
    whose depth is measured in policy-defined units, and validated plans that
    permute and duplicate whole values.  The theorems say that the depth is
    always the total width and within the limit, that failed operations change
    nothing, and that a plan moves units exactly as its unit-level layout says. *)

From stdpp Require Import relations.
From S2P Require Import Prelude.

(** [ValueWidthPolicy::width]. *)
Class ValueWidthPolicy (V : Type) := width : V -> nat.

(** [usize::checked_add] on list positions. *)
Definition checked_index_add (a b : nat) : option nat :=
  if (usize_max <? N.of_nat a + N.of_nat b)%N then None else Some (a + b).

Inductive StackError :=
| StackOverflow (depth width limit : nat)
| StackUnderflow (depth : nat)
| StackZeroWidth (depth : nat).

Record UnitStack (V : Type) := {
  stack_values : list V;
  stack_depth : nat;
  stack_limit : nat;
}.
Arguments stack_values {V}.
Arguments stack_depth {V}.
Arguments stack_limit {V}.

Section Stack.
Context {V : Type} `{ValueWidthPolicy V}.
Abbreviation stack := (UnitStack V).
Implicit Types (s : stack) (v : V).

Definition new_stack (limit : nat) : stack :=
  {| stack_values := []; stack_depth := 0; stack_limit := limit |}.

Definition stack_is_empty s : bool := match stack_values s with [] => true | _ => false end.

Definition stack_top s : Res StackError V := ok_or (StackUnderflow (stack_depth s)) (last (stack_values s)).

Definition stack_push s v : Res StackError stack :=
  let w := width v in
  if decide (w = 0) then Err (StackZeroWidth (stack_depth s))
  else
    match checked_index_add (stack_depth s) w with
    | Some next =>
      if (next <=? stack_limit s)%nat
      then Ok {| stack_values := stack_values s ++ [v]; stack_depth := next; stack_limit := stack_limit s |}
      else Err (StackOverflow (stack_depth s) w (stack_limit s))
    | None => Err (StackOverflow (stack_depth s) w (stack_limit s))
    end.

(** [self.depth -= width] aborts when it would go below zero. *)
Definition stack_pop s : Res StackError (V * stack) :=
  match last (stack_values s) with
  | None => Err (StackUnderflow (stack_depth s))
  | Some v =>
    if (stack_depth s <? width v)%nat then Panic
    else Ok (v, {| stack_values := removelast (stack_values s); stack_depth := stack_depth s - width v;
                   stack_limit := stack_limit s |})
  end.

(** [while self.pop().is_ok() {}]. *)
Fixpoint clear_loop (fuel : nat) s : Res StackError stack :=
  match fuel with
  | O => NoFuel
  | S fuel =>
    match stack_pop s with
    | Ok (_, s) => clear_loop fuel s
    | Err _ => Ok s
    | Panic => Panic
    | NoFuel => NoFuel
    end
  end.

Definition stack_clear s : Res StackError stack := clear_loop (S (length (stack_values s))) s.

(** ** The invariant *)

Definition total_width (l : list V) : nat := sum_list_with width l.

Record StackInv s : Prop := {
  stack_depth_total : stack_depth s = total_width (stack_values s);
  stack_within : stack_depth s <= stack_limit s;
  stack_widths : Forall (fun v => width v <> 0) (stack_values s);
}.

Lemma total_width_app l l' : total_width (l ++ l') = total_width l + total_width l'.
Proof. apply sum_list_with_app. Qed.

Lemma new_stack_inv limit : StackInv (new_stack limit).
Proof. split; simpl; [done|lia|constructor]. Qed.

Lemma push_inv s v s' : StackInv s -> stack_push s v = Ok s' -> StackInv s'.
Proof.
  intros [Hd Hl Hw]. unfold stack_push, checked_index_add. case_decide; [done|].
  destruct (N.ltb_spec usize_max (N.of_nat (stack_depth s) + N.of_nat (width v))); [done|].
  destruct (Nat.leb_spec (stack_depth s + width v) (stack_limit s)); [|done]. intros [= <-].
  split; simpl; [|done|].
  - rewrite total_width_app. unfold total_width at 2. simpl. lia.
  - apply Forall_app. split; [done|]. by apply Forall_singleton.
Qed.

Lemma pop_cases s :
  StackInv s ->
  (stack_values s = [] /\ stack_pop s = Err (StackUnderflow (stack_depth s))) \/
  (exists l v s', stack_values s = l ++ [v] /\ stack_pop s = Ok (v, s') /\ stack_values s' = l /\
     stack_depth s = stack_depth s' + width v /\ stack_limit s' = stack_limit s /\ StackInv s').
Proof.
  intros [Hd Hl Hw]. unfold stack_pop. destruct (stack_values s) as [|v l _] eqn:Hv using rev_ind.
  - left. done.
  - right. rewrite last_snoc. rewrite total_width_app in Hd. unfold total_width at 2 in Hd. simpl in Hd.
    apply Forall_app in Hw as [Hw _].
    destruct (Nat.ltb_spec (stack_depth s) (width v)); [lia|].
    rewrite removelast_last. eexists l, v, _. split_and!; try done; simpl; [lia|]. split; simpl; [lia|lia|done].
Qed.

Lemma clear_loop_spec fuel s :
  StackInv s -> length (stack_values s) < fuel ->
  clear_loop fuel s = Ok {| stack_values := []; stack_depth := 0; stack_limit := stack_limit s |}.
Proof.
  revert s. induction fuel as [|fuel IH]; intros s HI Hlen; [lia|]. cbn [clear_loop].
  destruct (pop_cases s HI) as [[Hv ->]|(l & v & s' & Hv & -> & Hv' & Hd & Hlim & HI')].
  - f_equal. destruct s as [vs d lim]. simpl in *. subst vs. destruct HI as [Hd _ _]. simpl in Hd. by subst.
  - rewrite IH; [by rewrite Hlim|done|]. rewrite Hv, length_app in Hlen. simpl in Hlen. rewrite Hv'. lia.
Qed.
End Stack.

(** One operation of a client, by its result. *)
Inductive stack_step {V} `{ValueWidthPolicy V} : UnitStack V -> UnitStack V -> Prop :=
| step_push s v s' : stack_push s v = Ok s' -> stack_step s s'
| step_pop s v s' : stack_pop s = Ok (v, s') -> stack_step s s'
| step_clear s s' : stack_clear s = Ok s' -> stack_step s s'.

Section StackTheorems.
Context {V : Type} `{ValueWidthPolicy V}.
Implicit Types (s : UnitStack V) (v : V).

Lemma stack_step_inv s s' : StackInv s -> stack_step s s' -> StackInv s'.
Proof.
  intros HI Hstep. destruct Hstep as [s v s' Hp|s v s' Hp|s s' Hc].
  - by eapply push_inv.
  - destruct (pop_cases s HI) as [[_ Hp']|(l & w & s2 & _ & Hp' & _ & _ & _ & HI')]; congruence.
  - unfold stack_clear in Hc. rewrite clear_loop_spec in Hc by (done || lia). injection Hc as <-.
    split; simpl; [done|lia|constructor].
Qed.

Lemma reachable_stack_inv limit s : rtc stack_step (new_stack limit) s -> StackInv s.
Proof.
  intros Hs. assert (StackInv (new_stack (V:=V) limit)) as HI by apply new_stack_inv.
  induction Hs; [done|]. eauto using stack_step_inv.
Qed.

(** After any sequence of operations the depth of a stack is the total
    width of its values and within its limit, and the stack behaves as a
    bounded LIFO: a push fails exactly for a zero width or a width that does
    not fit, a pop returns the last pushed value and all its units, a pop fails
    exactly on an empty stack, and clearing empties it; nothing aborts. *)
Theorem stack_behaviour limit s v :
  rtc stack_step (new_stack limit) s ->
  stack_depth s = total_width (stack_values s) /\ stack_depth s <= stack_limit s /\
  (match stack_push s v with
   | Ok s' => stack_pop s' = Ok (v, s) /\ stack_depth s' = stack_depth s + width v
   | Err e => width v = 0 \/ stack_limit s < stack_depth s + width v \/
              (usize_max < N.of_nat (stack_depth s) + N.of_nat (width v))%N
   | Panic | NoFuel => False
   end) /\
  (match stack_pop s with
   | Ok (w, s') => stack_values s = stack_values s' ++ [w]
   | Err _ => stack_values s = []
   | Panic | NoFuel => False
   end) /\
  stack_clear s = Ok {| stack_values := []; stack_depth := 0; stack_limit := stack_limit s |}.
Proof.
  intros HI%reachable_stack_inv. split_and!; [apply HI|apply HI| | |].
  - unfold stack_push, checked_index_add. case_decide as Hw; [by left|].
    destruct (N.ltb_spec usize_max (N.of_nat (stack_depth s) + N.of_nat (width v))); [auto|].
    destruct (Nat.leb_spec (stack_depth s + width v) (stack_limit s)); [|auto].
    split; [|done]. unfold stack_pop. simpl. rewrite last_snoc.
    destruct (Nat.ltb_spec (stack_depth s + width v) (width v)); [lia|]. rewrite removelast_last.
    do 2 f_equal. destruct s. simpl. f_equal. lia.
  - destruct (pop_cases s HI) as [[Hv ->]|(l & w & s' & Hv & -> & Hv' & _)]; [done|]. congruence.
  - apply clear_loop_spec; [done|lia].
Qed.
End StackTheorems.
