(* ===== verification/MachineShuffle.v ===== *)
(** * Stack shuffles

    crates/sim-lib-machine/src/shuffle.rs: a unit-level layout is validated
    against whole value groups and executed atomically.  The theorems say that
    validation accepts exactly the layouts that keep groups whole, and that an
    executed plan moves the units of the stack exactly as the layout names
    them. *)

From stdpp Require Import relations.
From S2P Require Import Prelude MachineStack.

Inductive ShuffleError :=
| ZeroWidthGroup (group : nat)
| UnknownUnit (unit : nat)
| SplitGroup (group : nat)
| LayoutMismatch (group expected actual : nat)
| ShuffleStack (e : StackError).

Record ShufflePlan := {
  input_widths : list nat;
  output_groups : list nat;
}.

(** The first group without units. *)
Fixpoint zero_group (i : nat) (widths : list nat) : option nat :=
  match widths with
  | [] => None
  | w :: rest => if decide (w = 0) then Some i else zero_group (S i) rest
  end.

(** Which group each unit belongs to, and where each group starts. *)
Fixpoint unit_groups (i : nat) (widths : list nat) : list nat :=
  match widths with
  | [] => []
  | w :: rest => replicate w i ++ unit_groups (S i) rest
  end.

Fixpoint group_starts (at_ : nat) (widths : list nat) : list nat :=
  match widths with
  | [] => []
  | w :: rest => at_ :: group_starts (at_ + w) rest
  end.

(** Reading the output layout group by group from the cursor on. *)
Fixpoint read_groups (fuel : nat) (widths units : list nat) : Res ShuffleError (list nat) :=
  match fuel with
  | O => NoFuel
  | S fuel =>
    match units with
    | [] => Ok []
    | unit :: _ =>
      match unit_groups 0 widths !! unit with
      | None => Err (UnknownUnit unit)
      | Some group =>
        let? start := expect (group_starts 0 widths !! group) in
        let? w := expect (widths !! group) in
        if decide (take w units = seq start w) then
          let? groups := read_groups fuel widths (drop w units) in
          Ok (group :: groups)
        else Err (SplitGroup group)
      end
    end
  end.

Definition new_plan (widths units : list nat) : Res ShuffleError ShufflePlan :=
  match zero_group 0 widths with
  | Some group => Err (ZeroWidthGroup group)
  | None =>
    let? groups := read_groups (S (length units)) widths units in
    Ok {| input_widths := widths; output_groups := groups |}
  end.

Section Execute.
Context {V : Type} `{ValueWidthPolicy V}.
Implicit Types (s : UnitStack V) (l : list V).

(** The first group whose width differs, over the common prefix. *)
Fixpoint first_mismatch (i : nat) (widths : list nat) l : option (nat * nat * nat) :=
  match widths, l with
  | w :: widths, v :: l => if decide (width v = w) then first_mismatch (S i) widths l else Some (i, w, width v)
  | _, _ => None
  end.

Fixpoint stage l (groups : list nat) (staged : UnitStack V) : Res ShuffleError (UnitStack V) :=
  match groups with
  | [] => Ok staged
  | g :: rest =>
    let? v := expect (l !! g) in
    let? staged := map_err ShuffleStack (stack_push staged v) in
    stage l rest staged
  end.

Definition execute (p : ShufflePlan) s : Res ShuffleError (UnitStack V) :=
  let l := stack_values s in
  match first_mismatch 0 (input_widths p) l with
  | Some (group, expected, actual) => Err (LayoutMismatch group expected actual)
  | None =>
    if decide (length (input_widths p) = length l) then stage l (output_groups p) (new_stack (stack_limit s))
    else
      let group := min (length (input_widths p)) (length l) in
      Err (LayoutMismatch group (default 0 (input_widths p !! group)) (default 0 (width <$> l !! group)))
  end.

(** ** Units *)

(** The units a value group occupies, from the bottom of the stack. *)
Definition group_range (widths : list nat) (g : nat) : list nat :=
  seq (sum_list (take g widths)) (default 0 (widths !! g)).

(** The units of a list of values: each value once per unit of its width. *)
Definition value_units (v : V) : list (V * nat) := pair v <$> seq 0 (width v).
Definition units_of l : list (V * nat) := concat (value_units <$> l).

Lemma length_value_units v : length (value_units v) = width v.
Proof. unfold value_units. by rewrite length_fmap, length_seq. Qed.

Lemma units_of_cons v l : units_of (v :: l) = value_units v ++ units_of l.
Proof. done. Qed.

Lemma units_lookup l g v i :
  l !! g = Some v -> i < width v -> units_of l !! (sum_list (take g (width <$> l)) + i) = Some (v, i).
Proof.
  revert g. induction l as [|x l IH]; intros g Hg Hi; [done|]. rewrite units_of_cons.
  destruct g as [|g]; simpl in Hg |- *.
  - injection Hg as ->. rewrite lookup_app_l by (rewrite length_value_units; lia).
    unfold value_units. rewrite list_lookup_fmap, lookup_seq_lt by done. done.
  - rewrite lookup_app_r; rewrite length_value_units; [|lia].
    rewrite <- (IH g) by done.
    f_equal. unfold fmap. lia.
Qed.

Lemma range_units l g v :
  l !! g = Some v ->
  Forall2 (fun u x => units_of l !! u = Some x) (group_range (width <$> l) g) (value_units v).
Proof.
  intros Hg. unfold group_range. rewrite list_lookup_fmap, Hg. simpl.
  apply Forall2_same_length_lookup_2; [by rewrite length_value_units, length_seq|].
  intros i u x Hu Hx. apply lookup_seq in Hu as [-> Hi]. rewrite (units_lookup l g v i) by done.
  unfold value_units in Hx. rewrite list_lookup_fmap, lookup_seq_lt in Hx by done. done.
Qed.

(** ** Execution *)

Lemma first_mismatch_None i widths l :
  first_mismatch i widths l = None /\ length widths = length l <-> widths = width <$> l.
Proof.
  revert i l. induction widths as [|w widths IH]; intros i [|v l]; simpl; try naive_solver.
  case_decide as Hw.
  - specialize (IH (S i) l). split.
    + intros [Hm [= Hlen]]. f_equal; [done|]. by apply IH.
    + intros [= Hw' Hl]. apply IH in Hl as [? ?]. split; [done|lia].
  - split; [naive_solver|]. intros [= -> _]. done.
Qed.

Lemma stage_spec l groups staged s' :
  stage l groups staged = Ok s' ->
  exists vs, Forall2 (fun g v => l !! g = Some v) groups vs /\ stack_values s' = stack_values staged ++ vs /\
    stack_limit s' = stack_limit staged /\ (StackInv staged -> StackInv s').
Proof.
  revert staged. induction groups as [|g groups IH]; intros staged; cbn [stage].
  - intros [= <-]. exists []. rewrite app_nil_r. done.
  - intros Hok. res_inv. rename select (_ !! g = _) into Hg. rename select (map_err _ _ = _) into Hp.
    destruct (stack_push staged x) as [s1| | |] eqn:Hpush; simpl in Hp; simplify_eq.
    destruct (IH _ Hok) as (vs & Hall & Hv & Hlim & Hinv).
    assert (stack_values x0 = stack_values staged ++ [x] /\ stack_limit x0 = stack_limit staged) as [Hv0 Hl0].
    { unfold stack_push in Hpush. repeat case_match; simplify_eq/=; done. }
    exists (x :: vs). split_and!; [by constructor| |congruence|].
    + by rewrite Hv, Hv0, <- app_assoc.
    + intros HI. apply Hinv. by eapply push_inv.
Qed.

Lemma units_of_groups l groups vs :
  Forall2 (fun g v => l !! g = Some v) groups vs ->
  Forall2 (fun u x => units_of l !! u = Some x)
    (concat (group_range (width <$> l) <$> groups)) (units_of vs).
Proof.
  intros Hall. induction Hall as [|g v groups vs Hg _ IH]; simpl; [constructor|].
  rewrite units_of_cons. apply Forall2_app; [by apply range_units|done].
Qed.
End Execute.

(** ** Validation *)

Lemma zero_group_None i widths : zero_group i widths = None <-> Forall (fun w => w <> 0) widths.
Proof.
  revert i. induction widths as [|w widths IH]; intros i; simpl; [naive_solver|].
  rewrite Forall_cons. case_decide; [naive_solver|]. rewrite IH. naive_solver.
Qed.

Lemma unit_groups_lookup i widths unit g :
  unit_groups i widths !! unit = Some g ->
  exists k w, g = i + k /\ widths !! k = Some w /\ group_starts 0 widths !! k = Some (sum_list (take k widths)).
Proof.
  assert (forall widths k w a, widths !! k = Some w ->
    group_starts a widths !! k = Some (a + sum_list (take k widths))) as Hstart.
  { clear. induction widths as [|w0 widths IH]; intros [|k] w a Hk; simpl in *; try done; [f_equal; lia|].
    rewrite (IH k w) by done. f_equal. lia. }
  revert i unit. induction widths as [|w widths IH]; intros i unit; simpl; [done|].
  intros [Hr|[_ Hr]]%lookup_app_Some.
  - apply lookup_replicate in Hr as [-> _]. exists 0, w. split_and!; [lia|done|]. simpl. done.
  - apply IH in Hr as (k & w' & -> & Hk & _). exists (S k), w'. split_and!; [lia|done|].
    apply (Hstart (w :: widths) (S k) w' 0). done.
Qed.

Lemma read_groups_sound fuel widths units groups :
  read_groups fuel widths units = Ok groups ->
  units = concat (group_range widths <$> groups) /\ Forall (fun g => g < length widths) groups.
Proof.
  revert units groups. induction fuel as [|fuel IH]; intros units groups; cbn [read_groups]; [done|].
  destruct units as [|unit units]; [intros [= <-]; by split; [|constructor]|].
  destruct (unit_groups 0 widths !! unit) as [g|] eqn:Hg; [|done].
  apply unit_groups_lookup in Hg as (k & w & -> & Hw & Hs). simpl. rewrite Hs, Hw. simpl.
  case_decide as Ht; [|done]. intros Hok. res_inv. subst groups.
  match goal with Hr : read_groups _ _ _ = Ok _ |- _ => apply IH in Hr as [Hu Hall] end.
  split; [|constructor; [by eapply lookup_lt_Some|done]].
  rewrite fmap_cons. cbn [concat]. rewrite <- Hu. unfold group_range. rewrite Hw. simpl. rewrite <- Ht.
  symmetry. apply (take_drop w (unit :: units)).
Qed.

Lemma unit_groups_range i widths k w j :
  widths !! k = Some w -> j < w -> unit_groups i widths !! (sum_list (take k widths) + j) = Some (i + k).
Proof.
  revert i k. induction widths as [|w0 widths IH]; intros i [|k] Hk Hj; simpl in *; try done.
  - injection Hk as ->. rewrite lookup_app_l by (rewrite length_replicate; lia).
    rewrite lookup_replicate_2 by lia. f_equal. lia.
  - rewrite lookup_app_r; rewrite length_replicate; [|lia].
    replace (w0 + sum_list (take k widths) + j - w0) with (sum_list (take k widths) + j) by lia.
    rewrite (IH (S i) k) by done. f_equal. lia.
Qed.

Lemma read_groups_complete fuel widths groups :
  Forall (fun w => w <> 0) widths -> Forall (fun g => g < length widths) groups ->
  length (concat (group_range widths <$> groups)) < fuel ->
  read_groups fuel widths (concat (group_range widths <$> groups)) = Ok groups.
Proof.
  intros Hw. revert fuel. induction groups as [|g groups IH]; intros [|fuel] Hall Hfuel; try lia; [done|].
  apply Forall_cons in Hall as [Hg Hall]. apply lookup_lt_is_Some in Hg as [w Hgw].
  assert (w <> 0) as Hw0 by (rewrite Forall_forall in Hw; apply Hw; by eapply list_elem_of_lookup_2).
  rewrite fmap_cons in Hfuel |- *. cbn [concat] in Hfuel |- *.
  assert (group_range widths g = seq (sum_list (take g widths)) w) as Hr
    by (unfold group_range; by rewrite Hgw).
  rewrite Hr in Hfuel |- *. rewrite length_app, length_seq in Hfuel.
  destruct w as [|w]; [done|]. cbn [seq app read_groups].
  pose proof (unit_groups_range 0 widths g (S w) 0 Hgw ltac:(lia)) as Hu. rewrite Nat.add_0_r in Hu.
  rewrite Hu. apply unit_groups_lookup in Hu as (k & w' & Hk & _ & Hs). simpl in Hk. subst k.
  simpl. rewrite Hs, Hgw. simpl.
  rewrite decide_True, drop_app_length' by (rewrite ?take_app_length'; rewrite ?length_seq; done).
  rewrite IH; [done|done|lia].
Qed.

(** A layout is accepted exactly when every group has units and the
    layout is a sequence of whole groups in their original unit order; the plan
    then names those groups. *)
Theorem new_plan_spec widths units p :
  new_plan widths units = Ok p <->
  Forall (fun w => w <> 0) widths /\ exists groups,
    Forall (fun g => g < length widths) groups /\ units = concat (group_range widths <$> groups) /\
    p = {| input_widths := widths; output_groups := groups |}.
Proof.
  unfold new_plan. rewrite <- (zero_group_None 0). destruct (zero_group 0 widths) as [g|] eqn:Hz; [naive_solver|].
  split.
  - intros Hok. res_inv. split; [done|].
    match goal with Hr : read_groups _ _ _ = Ok ?gs |- _ => apply read_groups_sound in Hr as [Hu Hall]; exists gs end.
    done.
  - intros (_ & groups & Hall & -> & ->). rewrite read_groups_complete; [done| |done|lia].
    by apply (zero_group_None 0).
Qed.

(** A validated plan moves units exactly as its layout says: when it is
    executed on a stack, unit [i] of the result is the input unit the layout
    names at [i]; no value is split, and the result is again within the limit. *)
Theorem execute_moves_units {V} `{ValueWidthPolicy V} (widths units : list nat) p (s s' : UnitStack V) :
  new_plan widths units = Ok p -> execute p s = Ok s' ->
  Forall2 (fun u x => units_of (stack_values s) !! u = Some x) units (units_of (stack_values s')) /\
  StackInv s' /\ stack_limit s' = stack_limit s.
Proof.
  intros Hp Hex. unfold new_plan in Hp. destruct (zero_group 0 widths); [done|]. res_inv. subst p.
  match goal with Hr : read_groups _ _ _ = Ok _ |- _ => apply read_groups_sound in Hr as [-> _] end.
  unfold execute in Hex. simpl in Hex. destruct (first_mismatch 0 widths (stack_values s)) as [[[]]|] eqn:Hm; [done|].
  case_decide as Hlen; [|done].
  assert (widths = width <$> stack_values s) as -> by (by apply (first_mismatch_None 0)).
  apply stage_spec in Hex as (vs & Hall & Hv & Hlim & Hinv). simpl in Hv. rewrite Hv.
  split_and!; [by apply units_of_groups|apply Hinv, new_stack_inv|done].
Qed.
