(* ===== verification/MachineSlots.v ===== *)
(** * Indexed slot storage

    crates/sim-lib-machine/src/slots.rs: bounded slots in which a value occupies
    as many consecutive units as its width.  The abstract slot file is a map
    from first slots to values with disjoint extents; the theorems say that
    storing and releasing implement it, releasing every overlapped value whole,
    and that no operation aborts. *)

From stdpp Require Import sorting gmap.
From S2P Require Import Prelude MachineStack.

Record Span := {
  span_start : nat;
  span_width : nat;
}.

#[export] Instance Span_eq_dec : EqDecision Span.
Proof. solve_decision. Defined.

Inductive SlotError :=
| SlotOverflow (slot width limit : nat)
| SlotUninitialized (slot : nat)
| SlotZeroWidth (slot : nat).

Record SlotFile (V : Type) := {
  slot_values : list (option V);
  occupancy : list (option Span);
}.
Arguments slot_values {V}.
Arguments occupancy {V}.

(** [slice[start..end].fill(x)]: a range beyond the end aborts. *)
Definition fill {A E} (l : list A) (start n : nat) (x : A) : Res E (list A) :=
  if (start + n <=? length l)%nat then Ok (take start l ++ replicate n x ++ drop (start + n) l) else Panic.

(** [Vec::dedup]: consecutive equal elements are dropped. *)
Fixpoint dedup {A} `{EqDecision A} (l : list A) : list A :=
  match l with
  | [] => []
  | x :: rest =>
    match dedup rest with
    | [] => [x]
    | y :: rest' => if decide (x = y) then y :: rest' else x :: y :: rest'
    end
  end.

Definition span_le (a b : Span) : Prop := span_start a <= span_start b.

#[export] Instance span_le_dec : RelDecision span_le.
Proof. intros a b. unfold span_le. apply _. Defined.

#[export] Instance span_le_trans : Transitive span_le.
Proof. intros a b c. unfold span_le. lia. Qed.

#[export] Instance span_le_total : Total span_le.
Proof. intros a b. unfold span_le. lia. Qed.

(** ** Deduplicating a sorted list *)

Lemma elem_of_dedup {A} `{EqDecision A} (l : list A) x : x ∈ dedup l <-> x ∈ l.
Proof.
  induction l as [|y l IH]; simpl; [done|].
  destruct (dedup l) as [|z l']; [set_solver|]. case_decide; set_solver.
Qed.

Lemma dedup_sorted (l : list Span) : StronglySorted span_le l -> StronglySorted span_le (dedup l).
Proof.
  induction 1 as [|x l Hs IH Hall]; [constructor|]. simpl.
  assert (Forall (span_le x) (dedup l)) as Hd.
  { apply Forall_forall. intros y Hy. rewrite elem_of_dedup in Hy. rewrite Forall_forall in Hall. auto. }
  destruct (dedup l) as [|z l']; [repeat constructor|]. case_decide; [done|]. by constructor.
Qed.

(** A sorted list in which the start determines the span has, once
    deduplicated, pairwise different starts. *)
Lemma dedup_nodup (l : list Span) :
  StronglySorted span_le l ->
  (forall x y, x ∈ l -> y ∈ l -> span_start x = span_start y -> x = y) ->
  NoDup (span_start <$> dedup l).
Proof.
  induction 1 as [|x l Hs IH Hall]; intros Hinj; [constructor|].
  pose proof (dedup_sorted l Hs) as Hd. pose proof (elem_of_dedup l) as Hel.
  assert (NoDup (span_start <$> dedup l)) as HN.
  { apply IH. intros a b Ha Hb. apply Hinj; set_solver. }
  simpl. destruct (dedup l) as [|z l'] eqn:E; [repeat constructor; set_solver|].
  case_decide as Hxz; [done|]. rewrite fmap_cons. constructor; [|done].
  intros (y & Heq & Hy)%list_elem_of_fmap. apply Hxz.
  assert (span_le x z) as Hle by (rewrite Forall_forall in Hall; apply Hall, Hel; left).
  assert (span_le z y) as Hle'.
  { apply elem_of_cons in Hy as [->|Hy]; [unfold span_le; lia|].
    inversion Hd as [|?? _ Hf]. subst. rewrite Forall_forall in Hf. auto. }
  apply Hinj; [left|right; apply Hel; left|]. unfold span_le in *. lia.
Qed.

Section Slots.
Context {V : Type} `{ValueWidthPolicy V}.
Abbreviation slots := (SlotFile V).
Implicit Types (f : slots) (v : V).

Definition new_slots (limit : nat) : slots :=
  {| slot_values := replicate limit None; occupancy := replicate limit None |}.

Definition slot_limit f : nat := length (occupancy f).

Definition slot_load f (slot : nat) : Res SlotError V :=
  ok_or (SlotUninitialized slot) (mjoin (slot_values f !! slot)).

Definition release_span f (span : Span) : Res SlotError (option V * slots) :=
  let? occ := fill (occupancy f) (span_start span) (span_width span) None in
  let? old := expect (slot_values f !! span_start span) in
  Ok (old, {| slot_values := <[span_start span := None]> (slot_values f); occupancy := occ |}).

Fixpoint release_spans f (spans : list Span) : Res SlotError slots :=
  match spans with
  | [] => Ok f
  | span :: rest => let? (_, f) := release_span f span in release_spans f rest
  end.

(** The spans that meet a range, in start order and without repetition. *)
Definition overlapping (occ : list (option Span)) (start n : nat) : list Span :=
  dedup (merge_sort span_le (omap id (take n (drop start occ)))).

Definition slot_store f (slot : nat) v : Res SlotError slots :=
  let w := width v in
  if decide (w = 0) then Err (SlotZeroWidth slot)
  else
    match checked_index_add slot w with
    | Some end_ =>
      if (end_ <=? slot_limit f)%nat then
        let? f := release_spans f (overlapping (occupancy f) slot w) in
        let? occ := fill (occupancy f) slot w (Some {| span_start := slot; span_width := w |}) in
        if (slot <? length (slot_values f))%nat
        then Ok {| slot_values := <[slot := Some v]> (slot_values f); occupancy := occ |}
        else Panic
      else Err (SlotOverflow slot w (slot_limit f))
    | None => Err (SlotOverflow slot w (slot_limit f))
    end.

Definition slot_release f (slot : nat) : Res SlotError (V * slots) :=
  match mjoin (occupancy f !! slot) with
  | None => Err (SlotUninitialized slot)
  | Some span =>
    let? (old, f') := release_span f span in
    match old with
    | Some v => Ok (v, f')
    | None => Err (SlotUninitialized slot)
    end
  end.

Definition is_initialized f (slot : nat) : bool :=
  match occupancy f !! slot with Some (Some _) => true | _ => false end.

(** ** The abstract slot file *)

Definition covers (start w i : nat) : Prop := start <= i < start + w.

#[export] Instance covers_dec start w i : Decision (covers start w i).
Proof. unfold covers. apply _. Defined.

(** [f] implements the map [a]: a unit is occupied exactly by the value whose
    extent covers it. *)
Record Implements (limit : nat) (a : gmap nat V) f : Prop := {
  im_values_len : length (slot_values f) = limit;
  im_occupancy_len : length (occupancy f) = limit;
  im_value : forall i, i < limit -> slot_values f !! i = Some (a !! i);
  im_fits : forall i v, a !! i = Some v -> width v <> 0 /\ i + width v <= limit;
  im_unit : forall i sp, occupancy f !! i = Some (Some sp) <->
    i < limit /\ exists v, a !! span_start sp = Some v /\ span_width sp = width v /\
      covers (span_start sp) (width v) i;
}.

(** At most one value covers a unit. *)
Lemma implements_disjoint limit a f i j v w k :
  Implements limit a f -> a !! i = Some v -> a !! j = Some w ->
  covers i (width v) k -> covers j (width w) k -> i = j.
Proof.
  intros [_ _ _ Hf Hu] Hi Hj Hki Hkj. unfold covers in *.
  pose proof (Hf i v Hi) as [_ Hlim].
  assert (occupancy f !! k = Some (Some {| span_start := i; span_width := width v |})) as H1.
  { apply Hu. simpl. split; [lia|]. eauto. }
  assert (occupancy f !! k = Some (Some {| span_start := j; span_width := width w |})) as H2.
  { apply Hu. simpl. split; [lia|]. eauto. }
  congruence.
Qed.

Lemma new_slots_implements limit : Implements limit ∅ (new_slots limit).
Proof.
  split; simpl; rewrite ?length_replicate; try done.
  - intros i Hi. rewrite lookup_replicate_2 by done. done.
  - intros i sp. split.
    + intros Hs%lookup_replicate. naive_solver.
    + intros (_ & v & Hv & _). done.
Qed.

Lemma fill_lookup {A E} (l l' : list A) start n x :
  fill (E:=E) l start n x = Ok l' ->
  length l' = length l /\
  forall i, l' !! i = if decide (covers start n i) then Some x else l !! i.
Proof.
  unfold fill. destruct (Nat.leb_spec (start + n) (length l)) as [Hle|]; [|done]. intros [= <-].
  split; [rewrite !length_app, length_take, length_replicate, length_drop; lia|].
  intros i. unfold covers. case_decide as Hc.
  - rewrite lookup_app_r; rewrite length_take; [|lia]. rewrite lookup_app_l by (rewrite length_replicate; lia).
    apply lookup_replicate_2. lia.
  - destruct (decide (i < start)).
    + rewrite lookup_app_l by (rewrite length_take; lia). apply lookup_take_lt. lia.
    + rewrite lookup_app_r; rewrite length_take; [|lia].
      rewrite lookup_app_r; rewrite length_replicate; [|lia]. rewrite lookup_drop. f_equal. lia.
Qed.

Lemma fill_fits {A E} (l : list A) start n x :
  start + n <= length l -> exists l', fill (E:=E) l start n x = Ok l'.
Proof. intros Hle. unfold fill. destruct (Nat.leb_spec (start + n) (length l)); [eauto|lia]. Qed.

(** Releasing the span of a value removes that value. *)
Lemma release_span_spec limit a f i v :
  Implements limit a f -> a !! i = Some v ->
  exists f', release_span f {| span_start := i; span_width := width v |} = Ok (Some v, f') /\
    Implements limit (delete i a) f'.
Proof.
  intros HI Hi. pose proof HI as [Hvl Hol Hv Hf Hu]. destruct (Hf i v Hi) as [Hw Hlim].
  unfold release_span. simpl.
  destruct (fill_fits (E:=SlotError) (occupancy f) i (width v) None) as [occ Hocc]; [lia|]. rewrite Hocc.
  rewrite (Hv i), Hi by lia. simpl. eexists. split; [done|].
  apply fill_lookup in Hocc as [Hlen Hlook]. split; simpl.
  - by rewrite length_insert.
  - lia.
  - intros j Hj. destruct (decide (i = j)) as [->|Hne].
    + rewrite list_lookup_insert_eq, lookup_delete_eq by lia. done.
    + rewrite list_lookup_insert_ne, lookup_delete_ne by done. auto.
  - intros j w [_ Hj]%lookup_delete_Some. auto.
  - intros j sp. rewrite Hlook. case_decide as Hc.
    + split; [done|]. intros (_ & w & [Hne Hsp]%lookup_delete_Some & Hwid & Hcov). exfalso. apply Hne.
      by eapply (implements_disjoint limit a f).
    + rewrite Hu. apply and_iff_compat_l. split.
      * intros (w & Hsp & Hwid & Hcov). exists w. split; [|done]. apply lookup_delete_Some. split; [|done].
        intros Heq. rewrite <- Heq in *. assert (w = v) as -> by congruence. done.
      * intros (w & [_ Hsp]%lookup_delete_Some & ?). eauto.
Qed.
(** Releasing spans with different starts, each of a value the file holds,
    removes exactly those values. *)
Lemma release_spans_spec limit spans : forall a f,
  Implements limit a f -> NoDup (span_start <$> spans) ->
  (forall sp, sp ∈ spans -> exists v, a !! span_start sp = Some v /\ span_width sp = width v) ->
  exists f', release_spans f spans = Ok f' /\
    Implements limit (filter (fun kv => kv.1 ∉ (span_start <$> spans)) a) f'.
Proof.
  induction spans as [|sp spans IH]; intros a f HI Hnd Hsp; simpl.
  - exists f. split; [done|]. rewrite map_filter_id; [done|]. set_solver.
  - destruct (Hsp sp) as (v & Hv & Hw); [left|].
    destruct sp as [st w]. simpl in *. subst w.
    destruct (release_span_spec limit a f st v HI Hv) as (f1 & -> & HI1). simpl.
    apply NoDup_cons in Hnd as [Hni Hnd].
    destruct (IH (delete st a) f1 HI1 Hnd) as (f2 & -> & HI2).
    + intros sp Hin. destruct (Hsp sp) as (u & Hu & Hwu); [by right|]. exists u. split; [|done].
      apply lookup_delete_Some. split; [|done]. intros ->. apply Hni. apply list_elem_of_fmap. eauto.
    + exists f2. split; [done|]. eapply (eq_ind _ (fun m => Implements limit m f2)); [exact HI2|].
      apply map_eq. intros i. apply option_eq. intros u. rewrite !map_lookup_filter_Some, lookup_delete_Some.
      simpl. rewrite elem_of_cons. naive_solver.
Qed.

(** The spans found in a range are those of the values whose extents meet it,
    each once. *)
Lemma overlapping_spec limit a f start n :
  Implements limit a f -> start + n <= limit ->
  NoDup (span_start <$> overlapping (occupancy f) start n) /\
  forall sp, sp ∈ overlapping (occupancy f) start n <->
    exists v i, a !! span_start sp = Some v /\ span_width sp = width v /\
      covers start n i /\ covers (span_start sp) (width v) i.
Proof.
  intros HI Hlim. pose proof HI as [_ Hol _ _ Hu]. unfold overlapping.
  set (l := omap id (take n (drop start (occupancy f)))).
  assert (forall sp, sp ∈ l <-> exists v i, a !! span_start sp = Some v /\ span_width sp = width v /\
      covers start n i /\ covers (span_start sp) (width v) i) as Hl.
  { intros sp. unfold l. rewrite list_elem_of_omap. split.
    - intros (o & Ho & Heq). unfold id in Heq. simpl in Heq. subst o.
      apply list_elem_of_lookup in Ho as [k Hk]. apply lookup_take_Some in Hk as [Hk Hlt].
      rewrite lookup_drop in Hk. apply Hu in Hk as (Hk & v & Hv & Hw & Hc).
      exists v, (start + k). repeat split; try done; try (unfold covers in *; lia).
    - intros (v & i & Hv & Hw & Hci & Hc). exists (Some sp). split; [|done].
      unfold covers in Hci. apply list_elem_of_lookup. exists (i - start).
      apply lookup_take_Some. split; [|lia]. rewrite lookup_drop.
      replace (start + (i - start)) with i by lia. apply Hu. split; [lia|]. eauto. }
  pose proof (StronglySorted_merge_sort span_le l) as Hs.
  pose proof (merge_sort_Permutation span_le l) as Hp.
  split.
  - apply dedup_nodup; [done|]. intros x y Hx Hy Heq. rewrite Hp in Hx, Hy.
    apply Hl in Hx as (v & _ & Hv & Hw & _), Hy as (u & _ & Hu' & Hw' & _).
    destruct x, y; simpl in *. subst. naive_solver.
  - intros sp. rewrite elem_of_dedup, Hp. apply Hl.
Qed.

(** Adding a value where no other extent lies. *)
Lemma implements_insert limit a f slot v occ :
  Implements limit a f -> width v <> 0 -> slot + width v <= limit ->
  (forall j u i, a !! j = Some u -> covers j (width u) i -> ~ covers slot (width v) i) ->
  fill (E:=SlotError) (occupancy f) slot (width v) (Some {| span_start := slot; span_width := width v |}) = Ok occ ->
  Implements limit (<[slot := v]> a) {| slot_values := <[slot := Some v]> (slot_values f); occupancy := occ |}.
Proof.
  intros [Hvl Hol Hv Hf Hu] Hw Hlim Hfree [Hlen Hlook]%fill_lookup.
  assert (a !! slot = None) as Hnone.
  { destruct (a !! slot) as [u|] eqn:E; [|done]. destruct (Hf slot u E).
    exfalso. apply (Hfree slot u slot E); unfold covers; lia. }
  split; simpl.
  - by rewrite length_insert.
  - lia.
  - intros i Hi. destruct (decide (slot = i)) as [->|Hne].
    + rewrite list_lookup_insert_eq, lookup_insert_eq by lia. done.
    + rewrite list_lookup_insert_ne, lookup_insert_ne by done. auto.
  - intros i u [[<- <-]|[_ Hi]]%lookup_insert_Some; auto.
  - intros i sp. rewrite Hlook. case_decide as Hc.
    + split.
      * intros [= <-]. simpl. split; [unfold covers in Hc; lia|]. exists v. by rewrite lookup_insert_eq.
      * intros (_ & u & [[Hs Hvu]|[Hne Hsp]]%lookup_insert_Some & Hwid & Hcov).
        -- destruct sp; simpl in *. by subst.
        -- exfalso. by eapply Hfree.
    + rewrite Hu. apply and_iff_compat_l. split.
      * intros (u & Hsp & ?). exists u. split; [|done]. rewrite lookup_insert_ne; [done|]. intros Heq. congruence.
      * intros (u & [[Hs ->]|[Hne Hsp]]%lookup_insert_Some & Hwid & Hcov); [|by eauto].
        rewrite <- Hs in Hcov. done.
Qed.
(** ** Histories of operations *)

(** Whether two extents share a unit. *)
Definition extents_meet (i w j u : nat) : bool := (i <? j + u)%nat && (j <? i + w)%nat.

Inductive SlotOp :=
| OpStore (slot : nat) (v : V)
| OpRelease (slot : nat)
| OpLoad (slot : nat)
| OpIsInitialized (slot : nat).

Inductive SlotAnswer :=
| Done
| Value (v : V)
| Flag (b : bool).

Definition slot_run f (op : SlotOp) : Res SlotError (SlotAnswer * slots) :=
  match op with
  | OpStore slot v => let? f' := slot_store f slot v in Ok (Done, f')
  | OpRelease slot => let? (v, f') := slot_release f slot in Ok (Value v, f')
  | OpLoad slot => let? v := slot_load f slot in Ok (Value v, f)
  | OpIsInitialized slot => Ok (Flag (is_initialized f slot), f)
  end.

(** The value of the abstract file whose extent covers a unit. *)
Definition covering (a : gmap nat V) (slot : nat) : option (nat * V) :=
  head (filter (fun kv => covers kv.1 (width kv.2) slot) (map_to_list a)).

(** The same operations on a map from first slots to values. *)
Definition abstract_run (limit : nat) (a : gmap nat V) (op : SlotOp) : Res SlotError (SlotAnswer * gmap nat V) :=
  match op with
  | OpStore slot v =>
    if decide (width v = 0) then Err (SlotZeroWidth slot)
    else if decide (slot + width v <= limit)
    then Ok (Done, <[slot := v]> (filter (fun kv => extents_meet kv.1 (width kv.2) slot (width v) = false) a))
    else Err (SlotOverflow slot (width v) limit)
  | OpRelease slot =>
    match covering a slot with
    | Some (i, v) => Ok (Value v, delete i a)
    | None => Err (SlotUninitialized slot)
    end
  | OpLoad slot => match a !! slot with Some v => Ok (Value v, a) | None => Err (SlotUninitialized slot) end
  | OpIsInitialized slot => Ok (Flag (if covering a slot then true else false), a)
  end.

(** The answers of a history of operations; a refused operation leaves the
    state alone, an abort ends the history. *)
Fixpoint answers {S} (run : S -> SlotOp -> Res SlotError (SlotAnswer * S)) (s : S) (ops : list SlotOp)
  : list (Res SlotError SlotAnswer) :=
  match ops with
  | [] => []
  | op :: rest =>
    match run s op with
    | Ok (x, s') => Ok x :: answers run s' rest
    | Err e => Err e :: answers run s rest
    | Panic => [Panic]
    | NoFuel => [NoFuel]
    end
  end.

Lemma extents_meet_spec i w j u : extents_meet i w j u = true <-> i < j + u /\ j < i + w.
Proof. unfold extents_meet. by rewrite andb_true_iff, !Nat.ltb_lt. Qed.

Lemma covering_some limit a f slot i v :
  Implements limit a f -> a !! i = Some v -> covers i (width v) slot -> covering a slot = Some (i, v).
Proof.
  intros HI Hi Hc. unfold covering.
  assert ((i, v) ∈ filter (fun kv => covers kv.1 (width kv.2) slot) (map_to_list a)) as Hin.
  { apply list_elem_of_filter. split; [done|]. by apply elem_of_map_to_list. }
  destruct (filter _ _) as [|[j u] rest] eqn:E; [by apply not_elem_of_nil in Hin|]. simpl.
  assert ((j, u) ∈ filter (fun kv => covers kv.1 (width kv.2) slot) (map_to_list a)) as Hj by (rewrite E; left).
  apply list_elem_of_filter in Hj as [Hcj Hj]. apply elem_of_map_to_list in Hj. simpl in Hcj.
  assert (j = i) as -> by by eapply (implements_disjoint limit a f). congruence.
Qed.

Lemma covering_inv a slot i v : covering a slot = Some (i, v) -> a !! i = Some v /\ covers i (width v) slot.
Proof.
  unfold covering. intros Hh%head_Some_elem_of. apply list_elem_of_filter in Hh as [Hc Hh].
  by apply elem_of_map_to_list in Hh.
Qed.

(** A unit of the table carries the span of the covering value. *)
Lemma occupancy_covering limit a f slot :
  Implements limit a f ->
  mjoin (occupancy f !! slot) = (fun iv => {| span_start := iv.1; span_width := width iv.2 |}) <$> covering a slot.
Proof.
  intros HI. pose proof HI as [_ _ _ Hf Hu]. destruct (covering a slot) as [[i v]|] eqn:E; simpl.
  - apply covering_inv in E as [Hi Hc]. destruct (Hf i v Hi) as [_ Hlim].
    rewrite (proj2 (Hu slot {| span_start := i; span_width := width v |})); [done|]. simpl.
    unfold covers in Hc. split; [lia|]. eauto.
  - destruct (occupancy f !! slot) as [[sp|]|] eqn:Eo; [|done|done].
    apply Hu in Eo as (_ & v & Hv & _ & Hc). by rewrite (covering_some limit a f slot (span_start sp) v) in E.
Qed.

(** Storing implements the abstract store. *)
Lemma store_implements limit a f slot v :
  Implements limit a f -> width v <> 0 -> slot + width v <= limit -> (N.of_nat limit <= usize_max)%N ->
  exists f', slot_store f slot v = Ok f' /\
    Implements limit (<[slot := v]> (filter (fun kv => extents_meet kv.1 (width kv.2) slot (width v) = false) a)) f'.
Proof.
  intros HI Hw Hlim Hmax. unfold slot_store, checked_index_add, slot_limit. rewrite decide_False by done.
  destruct (N.ltb_spec usize_max (N.of_nat slot + N.of_nat (width v))) as [Hlt|_]; [lia|].
  rewrite (im_occupancy_len _ _ _ HI). destruct (Nat.leb_spec (slot + width v) limit) as [_|]; [|lia].
  destruct (overlapping_spec limit a f slot (width v) HI Hlim) as [Hnd Hov].
  destruct (release_spans_spec limit _ a f HI Hnd) as (f1 & -> & HI1).
  { intros sp (u & i & Hu & Hwu & _)%Hov. eauto. }
  simpl. destruct (fill_fits (E:=SlotError) (occupancy f1) slot (width v)
    (Some {| span_start := slot; span_width := width v |})) as [occ Hocc].
  { rewrite (im_occupancy_len _ _ _ HI1). done. }
  rewrite Hocc. simpl. rewrite (im_values_len _ _ _ HI1).
  destruct (Nat.ltb_spec slot limit); [|lia]. eexists. split; [done|].
  assert (filter (fun kv => kv.1 ∉ (span_start <$> overlapping (occupancy f) slot (width v))) a =
    filter (fun kv => extents_meet kv.1 (width kv.2) slot (width v) = false) a) as Heq.
  { apply map_eq. intros i. apply option_eq. intros u. rewrite !map_lookup_filter_Some. simpl.
    apply and_iff_compat_l'. intros Hi. destruct (im_fits _ _ _ HI i u Hi) as [Hwu _].
    rewrite <- not_true_iff_false, extents_meet_spec. apply not_iff_compat. rewrite list_elem_of_fmap. split.
    - intros (sp & -> & (u' & k & Hu' & _ & Hk & Hk')%Hov). assert (u' = u) as -> by congruence.
      unfold covers in *. lia.
    - intros Hm. exists {| span_start := i; span_width := width u |}. split; [done|]. apply Hov. simpl.
      exists u, (Nat.max i slot). unfold covers. repeat split; try done; lia. }
  rewrite Heq in HI1. apply implements_insert; try done.
  intros j u i [_ Hm]%map_lookup_filter_Some Hc Hc'. simpl in Hm.
  unfold covers, extents_meet in *. apply andb_false_iff in Hm. rewrite !Nat.ltb_ge in Hm. lia.
Qed.
(** One operation: same answer, implementing states; a refusal is the same
    refusal. *)
Lemma slot_run_refines limit a f op :
  Implements limit a f -> (N.of_nat limit <= usize_max)%N ->
  match slot_run f op, abstract_run limit a op with
  | Ok (x, f'), Ok (y, a') => x = y /\ Implements limit a' f'
  | Err e, Err e' => e = e'
  | _, _ => False
  end.
Proof.
  intros HI Hmax. destruct op as [slot v|slot|slot|slot]; simpl.
  - case_decide as Hw.
    { unfold slot_store. by rewrite decide_True by done. }
    case_decide as Hlim.
    + destruct (store_implements limit a f slot v HI Hw Hlim Hmax) as (f' & -> & HI'). by simpl.
    + unfold slot_store, checked_index_add, slot_limit. rewrite decide_False by done.
      rewrite (im_occupancy_len _ _ _ HI). destruct (_ <? _)%N; [done|].
      destruct (Nat.leb_spec (slot + width v) limit); [lia|done].
  - unfold slot_release. rewrite (occupancy_covering limit a f slot HI).
    destruct (covering a slot) as [[i v]|] eqn:E; simpl; [|done]. apply covering_inv in E as [Hi _].
    destruct (release_span_spec limit a f i v HI Hi) as (f' & -> & HI'). by simpl.
  - unfold slot_load. pose proof HI as [Hvl _ Hv Hf _]. destruct (decide (slot < limit)) as [Hlt|Hge].
    + rewrite (Hv slot Hlt). simpl. by destruct (a !! slot).
    + rewrite (lookup_ge_None_2 (slot_values f)) by lia. simpl.
      destruct (a !! slot) as [v|] eqn:E; [|done]. destruct (Hf slot v E). lia.
  - pose proof (occupancy_covering limit a f slot HI) as Ho. unfold is_initialized. split; [|done]. f_equal.
    destruct (covering a slot) as [[i v]|], (occupancy f !! slot) as [[?|]|]; done.
Qed.

(** C21: A slot file is indistinguishable from the map of its initialized
    values: over any history of stores, releases, loads and queries, from an
    empty file of any representable size, every answer and every refusal is the
    abstract one.  A store releases exactly the values whose extents meet the
    new one, a release returns the value covering the named unit, and since the
    abstract file never aborts no index of the implementation is out of range. *)
Theorem slot_file_refines limit (ops : list SlotOp) :
  (N.of_nat limit <= usize_max)%N ->
  answers slot_run (new_slots limit) ops = answers (abstract_run limit) ∅ ops /\
  forall r, r ∈ answers slot_run (new_slots limit) ops -> r <> Panic.
Proof.
  intros Hmax.
  assert (forall a f, Implements limit a f ->
    answers slot_run f ops = answers (abstract_run limit) a ops /\
    forall r, r ∈ answers slot_run f ops -> r <> Panic) as Hgen.
  { induction ops as [|op ops IH]; intros a f HI; simpl; [split; [done|set_solver]|].
    pose proof (slot_run_refines limit a f op HI Hmax) as Hstep.
    destruct (slot_run f op) as [[x f']| | |], (abstract_run limit a op) as [[y a']| | |]; try done.
    - destruct Hstep as [-> HI']. destruct (IH a' f' HI') as [-> Hp]. split; [done|set_solver].
    - subst. destruct (IH a f HI) as [-> Hp]. split; [done|set_solver]. }
  apply Hgen, new_slots_implements.
Qed.
End Slots.
