(* ===== verification/MachineCode.v ===== *)
(** * Located code

    crates/sim-lib-machine/src/code.rs: decoded instructions with their source
    locations, branch targets and protected regions, validated and frozen before
    anything executes.  Cursors are instruction positions, which only frozen code
    hands out; the theorems say what a frozen code guarantees about its tables
    and what the selection of a protected region chooses. *)

From S2P Require Import Prelude BTree.

(** What the code reads of the kernel's source origins. *)
Class KernelOrigin (Origin SourceId : Type) := {
  source_eq_dec :: EqDecision SourceId;
  origin_source : Origin -> SourceId;
  origin_start : Origin -> nat;
  origin_end : Origin -> nat;
}.

(** [InstructionPolicy::instruction_id]. *)
Class InstructionPolicy (I Id : Type) := instruction_id : I -> Id.

Inductive LocationUnit := Byte | Token.

#[export] Instance LocationUnit_eq_dec : EqDecision LocationUnit.
Proof. solve_decision. Defined.

Inductive SourceLocation (Origin : Type) :=
| Bytes (origin : Origin)
| Tokens (origin : Origin) (start_ end_ : nat).
Arguments Bytes {Origin}.
Arguments Tokens {Origin}.

Record LocatedInstruction (I Id Origin : Type) := {
  li_instruction : I;
  li_id : Id;
  li_location : SourceLocation Origin;
  li_safepoint : bool;
  li_coverage : option N;
}.
Arguments li_instruction {I Id Origin}.
Arguments li_id {I Id Origin}.
Arguments li_location {I Id Origin}.
Arguments li_safepoint {I Id Origin}.
Arguments li_coverage {I Id Origin}.

Inductive TargetLocation (Id SourceId : Type) :=
| ToInstruction (id : Id)
| ToByte (source : SourceId) (offset : nat)
| ToToken (source : SourceId) (index : nat).
Arguments ToInstruction {Id SourceId}.
Arguments ToByte {Id SourceId}.
Arguments ToToken {Id SourceId}.

Record BranchTarget (Id SourceId : Type) := {
  bt_from : Id;
  bt_to : TargetLocation Id SourceId;
}.
Arguments bt_from {Id SourceId}.
Arguments bt_to {Id SourceId}.

Record RegionSpec (Id SourceId : Type) := {
  rs_start : Id;
  rs_end : option Id;
  rs_handler : TargetLocation Id SourceId;
}.
Arguments rs_start {Id SourceId}.
Arguments rs_end {Id SourceId}.
Arguments rs_handler {Id SourceId}.

(** [CodeCursor]: an instruction position. *)
Definition CodeCursor := nat.

Record ProtectedRegion := {
  pr_start : CodeCursor;
  pr_end : nat;
  pr_handler : CodeCursor;
}.

#[export] Instance ProtectedRegion_eq_dec : EqDecision ProtectedRegion.
Proof. unfold CodeCursor. solve_decision. Defined.

Inductive CodeError (Id : Type) :=
| CodeEmpty
| MalformedLocation (instruction : Id) (start_ end_ : nat)
| OverlappingLocations (first_ second : Id)
| IdentityMismatch (supplied derived : Id)
| DuplicateIdentity (instruction : Id)
| UnknownInstruction (instruction : Id)
| InteriorTarget (from : Id) (target : nat) (containing : Id)
| OutOfRangeTarget (from : Id) (target : nat)
| MalformedRegion (start_ : Id) (end_index : nat)
| OverlappingRegions (first_start second_start : Id).
Arguments CodeEmpty {Id}.
Arguments MalformedLocation {Id}.
Arguments OverlappingLocations {Id}.
Arguments IdentityMismatch {Id}.
Arguments DuplicateIdentity {Id}.
Arguments UnknownInstruction {Id}.
Arguments InteriorTarget {Id}.
Arguments OutOfRangeTarget {Id}.
Arguments MalformedRegion {Id}.
Arguments OverlappingRegions {Id}.

(** The order of [sort_by_key(|region| (region.start, usize::MAX - region.end_index))]. *)
Definition region_le {A} (x y : A * ProtectedRegion) : Prop :=
  pr_start x.2 < pr_start y.2 \/
  (pr_start x.2 = pr_start y.2 /\
   (usize_max - N.of_nat (pr_end x.2) <= usize_max - N.of_nat (pr_end y.2))%N).

#[export] Instance region_le_dec {A} : RelDecision (region_le (A:=A)).
Proof. intros x y. unfold region_le, CodeCursor. apply _. Defined.

#[export] Instance region_le_trans {A} : Transitive (region_le (A:=A)).
Proof. intros x y z. unfold region_le. lia. Qed.

#[export] Instance region_le_total {A} : Total (region_le (A:=A)).
Proof. intros x y. unfold region_le. lia. Qed.

Definition region_contains (r : ProtectedRegion) (cursor : nat) : Prop :=
  pr_start r <= cursor < pr_end r.

#[export] Instance region_contains_dec r c : Decision (region_contains r c).
Proof. unfold region_contains. apply _. Defined.

Section Code.
Context {I Id Origin SourceId : Type}.
Context `{OrdKey Id} `{KernelOrigin Origin SourceId} `{InstructionPolicy I Id}.
Abbreviation instr := (LocatedInstruction I Id Origin).
Abbreviation cmap := (BTreeMap Id nat).
Implicit Types (ins : list instr) (cursors : cmap).

Definition location_source (l : SourceLocation Origin) : SourceId :=
  match l with Bytes o | Tokens o _ _ => origin_source o end.

Definition location_range (l : SourceLocation Origin) : LocationUnit * nat * nat :=
  match l with
  | Bytes o => (Byte, origin_start o, origin_end o)
  | Tokens _ s e => (Token, s, e)
  end.

Record LocatedCode := {
  lc_instructions : list instr;
  lc_cursors : cmap;
  lc_targets : BTreeMap Id (list nat);
  lc_regions : list ProtectedRegion;
}.

(** The comparison of one location with an earlier one. *)
Definition location_overlap (previous located : instr) : bool :=
  let '(unit_, start_, end_) := location_range (li_location located) in
  let '(previous_unit, previous_start, previous_end) := location_range (li_location previous) in
  bool_decide (location_source (li_location previous) = location_source (li_location located))
  && bool_decide (previous_unit = unit_)
  && (start_ <? previous_end)%nat && (previous_start <? end_)%nat.

Fixpoint check_previous (previous : list instr) (located : instr) : Res (CodeError Id) unit :=
  match previous with
  | [] => Ok tt
  | p :: rest =>
    if location_overlap p located then Err (OverlappingLocations (li_id p) (li_id located))
    else check_previous rest located
  end.

Definition check_instruction ins (index : nat) (located : instr) cursors : Res (CodeError Id) cmap :=
  let derived := instruction_id (li_instruction located) in
  if decide (derived = li_id located) then
    match cursors !! li_id located with
    | Some _ => Err (DuplicateIdentity (li_id located))
    | None =>
      let '(_, start_, end_) := location_range (li_location located) in
      if (end_ <=? start_)%nat then Err (MalformedLocation (li_id located) start_ end_)
      else
        let? _ := check_previous (take index ins) located in
        Ok (<[li_id located := index]> cursors)
    end
  else Err (IdentityMismatch (li_id located) derived).

(** The first loop of [freeze], over the instructions from [index] on. *)
Fixpoint check_instructions ins (index : nat) (rest : list instr) cursors : Res (CodeError Id) cmap :=
  match rest with
  | [] => Ok cursors
  | located :: rest =>
    let? cursors := check_instruction ins index located cursors in
    check_instructions ins (S index) rest cursors
  end.

(** The scan of [resolve_target] for a raw position. *)
Fixpoint resolve_position (index : nat) (rest : list instr) (source : SourceId) (unit_ : LocationUnit)
    (position : nat) (from : Id) : Res (CodeError Id) nat :=
  match rest with
  | [] => Err (OutOfRangeTarget from position)
  | located :: rest =>
    let '(located_unit, start_, end_) := location_range (li_location located) in
    if decide (location_source (li_location located) = source /\ located_unit = unit_) then
      if decide (position = start_) then Ok index
      else if decide (start_ < position < end_) then Err (InteriorTarget from position (li_id located))
      else resolve_position (S index) rest source unit_ position from
    else resolve_position (S index) rest source unit_ position from
  end.

Definition resolve_target (target : TargetLocation Id SourceId) (from : Id) ins cursors : Res (CodeError Id) nat :=
  match target with
  | ToInstruction id => ok_or (UnknownInstruction id) (cursors !! id)
  | ToByte source offset => resolve_position 0 ins source Byte offset from
  | ToToken source index => resolve_position 0 ins source Token index from
  end.

Fixpoint freeze_targets ins cursors (ts : list (BranchTarget Id SourceId)) (frozen : BTreeMap Id (list nat))
  : Res (CodeError Id) (BTreeMap Id (list nat)) :=
  match ts with
  | [] => Ok frozen
  | t :: rest =>
    match cursors !! bt_from t with
    | None => Err (UnknownInstruction (bt_from t))
    | Some _ =>
      let? cursor := resolve_target (bt_to t) (bt_from t) ins cursors in
      freeze_targets ins cursors rest (<[bt_from t := default [] (frozen !! bt_from t) ++ [cursor]]> frozen)
    end
  end.

Definition freeze_region ins cursors (r : RegionSpec Id SourceId) : Res (CodeError Id) (Id * ProtectedRegion) :=
  let? start_ := ok_or (UnknownInstruction (rs_start r)) (cursors !! rs_start r) in
  let? end_ :=
    match rs_end r with
    | Some e => ok_or (UnknownInstruction e) (cursors !! e)
    | None => Ok (length ins)
    end in
  if (end_ <=? start_)%nat then Err (MalformedRegion (rs_start r) end_)
  else
    let? handler := resolve_target (rs_handler r) (rs_start r) ins cursors in
    Ok (rs_start r, {| pr_start := start_; pr_end := end_; pr_handler := handler |}).

Fixpoint freeze_regions ins cursors (rs : list (RegionSpec Id SourceId)) : Res (CodeError Id) (list (Id * ProtectedRegion)) :=
  match rs with
  | [] => Ok []
  | r :: rest =>
    let? x := freeze_region ins cursors r in
    let? xs := freeze_regions ins cursors rest in
    Ok (x :: xs)
  end.

(** The test on two adjacent regions of the sorted table. *)
Definition regions_conflict (earlier later : ProtectedRegion) : bool :=
  ((pr_start earlier <? pr_start later)%nat && (pr_start later <? pr_end earlier)%nat
    && (pr_end earlier <? pr_end later)%nat)
  || ((pr_start earlier =? pr_start later)%nat && (pr_end earlier =? pr_end later)%nat).

(** [windows(2)]. *)
Fixpoint check_windows (l : list (Id * ProtectedRegion)) : Res (CodeError Id) unit :=
  match l with
  | x :: (y :: _) as rest =>
    if regions_conflict x.2 y.2 then Err (OverlappingRegions x.1 y.1) else check_windows rest
  | _ => Ok tt
  end.

Definition freeze ins (targets : list (BranchTarget Id SourceId)) (regions : list (RegionSpec Id SourceId))
  : Res (CodeError Id) LocatedCode :=
  match ins with
  | [] => Err CodeEmpty
  | _ =>
    let? cursors := check_instructions ins 0 ins ∅ in
    let? frozen_targets := freeze_targets ins cursors targets ∅ in
    let? unsorted := freeze_regions ins cursors regions in
    let frozen_regions := merge_sort region_le unsorted in
    let? _ := check_windows frozen_regions in
    Ok {| lc_instructions := ins; lc_cursors := cursors; lc_targets := frozen_targets;
          lc_regions := frozen_regions.*2 |}
  end.

Implicit Types code : LocatedCode.

Definition code_entry code : CodeCursor := 0.

Definition code_cursor code (id : Id) : option CodeCursor := lc_cursors code !! id.

Definition code_len code : nat := length (lc_instructions code).

(** [instruction]: an index out of range aborts. *)
Definition code_instruction {E} code (cursor : CodeCursor) : Res E instr :=
  expect (lc_instructions code !! cursor).

Definition code_next code (cursor : CodeCursor) : option CodeCursor :=
  if (cursor + 1 <? length (lc_instructions code))%nat then Some (cursor + 1) else None.

Definition branch_targets code (from : Id) : list CodeCursor := default [] (lc_targets code !! from).

(** [max_by_key]: the last of the elements with the greatest key. *)
Fixpoint max_by_start (best : ProtectedRegion) (l : list ProtectedRegion) : ProtectedRegion :=
  match l with
  | [] => best
  | r :: rest => max_by_start (if (pr_start best <=? pr_start r)%nat then r else best) rest
  end.

Definition innermost_protected_region code (cursor : CodeCursor) : option ProtectedRegion :=
  match filter (fun r => region_contains r cursor) (lc_regions code) with
  | [] => None
  | r :: rest => Some (max_by_start r rest)
  end.
(** ** What freezing accepts *)

Definition range_start (x : instr) : nat := (location_range (li_location x)).1.2.
Definition range_end (x : instr) : nat := (location_range (li_location x)).2.
Definition range_unit (x : instr) : LocationUnit := (location_range (li_location x)).1.1.

Definition well_located (x : instr) : Prop :=
  instruction_id (li_instruction x) = li_id x /\ range_start x < range_end x.

(** Two ranges of the same source and unit that share a position. *)
Definition locations_meet (x y : instr) : Prop :=
  location_source (li_location x) = location_source (li_location y) /\ range_unit x = range_unit y /\
  range_start y < range_end x /\ range_start x < range_end y.

Record Located ins : Prop := {
  located_each : Forall well_located ins;
  located_ids : NoDup (li_id <$> ins);
  located_disjoint : forall i j x y, i < j -> ins !! i = Some x -> ins !! j = Some y -> ~ locations_meet x y;
}.

(** The cursor table of a list of instructions. *)
Definition cursor_table ins cursors : Prop :=
  forall id i, cursors !! id = Some i <-> exists x, ins !! i = Some x /\ li_id x = id.

Lemma location_overlap_spec x y : location_overlap x y = true <-> locations_meet x y.
Proof.
  unfold location_overlap, locations_meet, range_start, range_end, range_unit.
  destruct (location_range (li_location x)) as [[??]?], (location_range (li_location y)) as [[??]?]. simpl.
  rewrite !andb_true_iff, !bool_decide_eq_true, !Nat.ltb_lt. tauto.
Qed.

Lemma located_snoc l x :
  Located (l ++ [x]) <->
  Located l /\ well_located x /\ li_id x ∉ li_id <$> l /\ (forall p, p ∈ l -> ~ locations_meet p x).
Proof.
  split.
  - intros [Hf Hn Hd]. apply Forall_app in Hf as [Hf Hx]. rewrite fmap_app in Hn.
    apply NoDup_app in Hn as (Hn & Hni & _). split_and!; [split; [done|done|]| | |].
    + intros i j a b Hij Ha Hb. eapply (Hd i j); [done|by apply lookup_app_l_Some..].
    + by rewrite Forall_singleton in Hx.
    + intros Hin. eapply Hni; [done|]. simpl. set_solver.
    + intros q [i Hi]%list_elem_of_lookup. eapply (Hd i (length l)).
      * by apply lookup_lt_Some in Hi.
      * by apply lookup_app_l_Some.
      * apply lookup_snoc_Some. by right.
  - intros ([Hf Hn Hd] & Hx & Hni & Hp). split.
    + apply Forall_app. by rewrite Forall_singleton.
    + rewrite fmap_app. apply NoDup_app. split_and!; [done| |apply NoDup_singleton]. simpl. set_solver.
    + intros i j a b Hij Ha Hb. apply lookup_snoc_Some in Ha, Hb.
      destruct Ha as [[Hi Ha]|[Hi <-]], Hb as [[Hj Hb]|[Hj <-]]; [by apply (Hd i j)| |lia|lia].
      apply Hp. by eapply list_elem_of_lookup_2.
Qed.

Lemma check_previous_spec l x :
  check_previous l x = Ok tt <-> forall p, p ∈ l -> ~ locations_meet p x.
Proof.
  induction l as [|p l IH]; simpl; [set_solver|].
  destruct (location_overlap p x) eqn:E.
  - apply location_overlap_spec in E. split; [done|]. intros Hp. exfalso. apply (Hp p); [left|done].
  - rewrite IH. assert (~ locations_meet p x) by (rewrite <- location_overlap_spec, E; done). set_solver.
Qed.

Lemma cursor_table_None l cursors id : cursor_table l cursors -> cursors !! id = None <-> id ∉ li_id <$> l.
Proof.
  intros Ht. rewrite list_elem_of_fmap. split.
  - intros Hn (x & -> & [i Hi]%list_elem_of_lookup).
    assert (cursors !! li_id x = Some i) by (apply Ht; eauto). congruence.
  - intros Hni. destruct (cursors !! id) as [i|] eqn:E; [|done]. apply Ht in E as (x & Hx & <-).
    exfalso. apply Hni. exists x. split; [done|]. by eapply list_elem_of_lookup_2.
Qed.

Lemma check_instruction_spec l x rest cursors c :
  cursor_table l cursors ->
  check_instruction (l ++ x :: rest) (length l) x cursors = Ok c <->
  (well_located x /\ li_id x ∉ li_id <$> l /\ (forall p, p ∈ l -> ~ locations_meet p x)) /\
  c = <[li_id x := length l]> cursors.
Proof.
  intros Ht. unfold check_instruction, well_located, range_start, range_end.
  rewrite <- (cursor_table_None l cursors) by done. rewrite take_app_length.
  destruct (location_range (li_location x)) as [[? st] en]. simpl.
  case_decide as Hid; [|naive_solver]. destruct (cursors !! li_id x); [naive_solver|].
  destruct (Nat.leb_spec en st); [split; [done|intros (((? & ?) & _) & _); lia]|].
  rewrite <- check_previous_spec. destruct (check_previous l x) as [[]| | |]; simpl; naive_solver.
Qed.

Lemma check_instruction_safe ins i x cursors : safe (check_instruction ins i x cursors).
Proof.
  unfold check_instruction. case_decide; [|done]. destruct (cursors !! li_id x); [done|].
  destruct (location_range (li_location x)) as [[? st] en]. destruct (en <=? st)%nat; [done|].
  induction (take i ins) as [|q m IHm]; simpl; [done|]. by destruct (location_overlap q x).
Qed.

Lemma cursor_table_snoc l x cursors :
  cursor_table l cursors -> li_id x ∉ li_id <$> l ->
  cursor_table (l ++ [x]) (<[li_id x := length l]> cursors).
Proof.
  intros Ht Hni id i. rewrite lookup_insert_Some. setoid_rewrite lookup_snoc_Some. split.
  - intros [[<- <-]|[Hne Hi]]; [eauto 6|]. apply Ht in Hi as (y & Hy & <-). exists y. split; [|done].
    left. split; [by apply lookup_lt_Some in Hy|done].
  - intros (y & [[Hi Hy]|[-> <-]] & <-); [|by left]. right.
    split; [|apply Ht; eauto]. intros Heq. apply Hni. rewrite Heq. apply list_elem_of_fmap. exists y.
    split; [done|]. by eapply list_elem_of_lookup_2.
Qed.

(** The first loop accepts exactly well-located instructions. *)
Lemma check_instructions_spec rest : forall l cursors,
  Located l -> cursor_table l cursors ->
  match check_instructions (l ++ rest) (length l) rest cursors with
  | Ok c => Located (l ++ rest) /\ cursor_table (l ++ rest) c
  | Err _ => ~ Located (l ++ rest)
  | _ => False
  end.
Proof.
  induction rest as [|x rest IH]; intros l cursors Hl Ht; simpl; [by rewrite app_nil_r|].
  assert (forall l', l ++ x :: l' = (l ++ [x]) ++ l') as Heq by (intros; by rewrite <- app_assoc).
  pose proof (check_instruction_spec l x rest cursors) as Hc.
  destruct (check_instruction (l ++ x :: rest) (length l) x cursors) as [c|e| |] eqn:E; simpl.
  - destruct (proj1 (Hc c Ht) eq_refl) as [(Hw & Hni & Hd) ->].
    specialize (IH (l ++ [x]) (<[li_id x := length l]> cursors)).
    rewrite length_app, Nat.add_1_r in IH. rewrite Heq. apply IH.
    + by apply located_snoc.
    + by apply cursor_table_snoc.
  - rewrite Heq. intros [Hf Hn Hd].
    assert (Located (l ++ [x])) as (_ & Hx)%located_snoc.
    { split.
      - by apply Forall_app in Hf as [? _].
      - rewrite fmap_app in Hn. by apply NoDup_app in Hn as [? _].
      - intros i j a b Hij Ha Hb. eapply Hd; [done|by apply lookup_app_l_Some..]. }
    discriminate (proj2 (Hc (<[li_id x := length l]> cursors) Ht) (conj Hx eq_refl)).
  - pose proof (check_instruction_safe (l ++ x :: rest) (length l) x cursors) as Hs. by rewrite E in Hs.
  - pose proof (check_instruction_safe (l ++ x :: rest) (length l) x cursors) as Hs. by rewrite E in Hs.
Qed.
(** ** Resolving targets *)

(** [x] is an instruction of the given source and unit. *)
Definition addressed (source : SourceId) (unit_ : LocationUnit) (x : instr) : Prop :=
  location_source (li_location x) = source /\ range_unit x = unit_.

(** The destination a target names. *)
Definition denotes (target : TargetLocation Id SourceId) (x : instr) : Prop :=
  match target with
  | ToInstruction id => li_id x = id
  | ToByte source p => addressed source Byte x /\ range_start x = p
  | ToToken source p => addressed source Token x /\ range_start x = p
  end.

Definition points_to ins (target : TargetLocation Id SourceId) (i : nat) : Prop :=
  exists x, ins !! i = Some x /\ denotes target x.

(** A position lies in at most one located instruction. *)
Lemma located_position ins i j x y source unit_ p :
  Located ins -> ins !! i = Some x -> ins !! j = Some y ->
  addressed source unit_ x -> addressed source unit_ y ->
  range_start x <= p < range_end x -> range_start y <= p < range_end y -> i = j.
Proof.
  intros [_ _ Hd] Hi Hj [Hsx Hux] [Hsy Huy] Hpx Hpy.
  destruct (Nat.lt_trichotomy i j) as [Hlt|[Heq|Hlt]]; [|done|]; exfalso.
  - apply (Hd i j x y Hlt Hi Hj). unfold locations_meet. split_and!; [congruence|congruence|lia|lia].
  - apply (Hd j i y x Hlt Hj Hi). unfold locations_meet. split_and!; [congruence|congruence|lia|lia].
Qed.

(** The scan stops at the first instruction that holds the position. *)
Lemma resolve_position_spec source unit_ p from rest : forall index,
  match resolve_position index rest source unit_ p from with
  | Ok i => exists k x, i = index + k /\ rest !! k = Some x /\ addressed source unit_ x /\ range_start x = p
  | Err e => (exists k x, rest !! k = Some x /\ addressed source unit_ x /\ range_start x < p < range_end x /\
                e = InteriorTarget from p (li_id x)) \/
             (e = OutOfRangeTarget from p /\
              forall x, x ∈ rest -> addressed source unit_ x -> ~ range_start x = p /\ ~ range_start x < p < range_end x)
  | _ => False
  end.
Proof.
  induction rest as [|x rest IH]; intros index; simpl.
  { right. split; [done|]. intros x Hx. by apply not_elem_of_nil in Hx. }
  assert ((addressed source unit_ x -> range_start x <> p /\ ~ range_start x < p < range_end x) ->
    match resolve_position (S index) rest source unit_ p from with
    | Ok i => exists k y, i = index + k /\ (x :: rest) !! k = Some y /\ addressed source unit_ y /\ range_start y = p
    | Err e => (exists k y, (x :: rest) !! k = Some y /\ addressed source unit_ y /\ range_start y < p < range_end y /\
                  e = InteriorTarget from p (li_id y)) \/
               (e = OutOfRangeTarget from p /\ forall y, y ∈ x :: rest -> addressed source unit_ y ->
                  ~ range_start y = p /\ ~ range_start y < p < range_end y)
    | _ => False
    end) as Hskip.
  { intros Hx. specialize (IH (S index)). destruct (resolve_position _ _ _ _ _ _) as [i|e| |]; [| |done|done].
    - destruct IH as (k & y & -> & Hk & Hy). exists (S k), y. split; [lia|]. done.
    - destruct IH as [(k & y & Hk & Hy)|[-> Hall]]; [left; by exists (S k), y|right]. split; [done|].
      intros y [->|Hin]%elem_of_cons; auto. }
  unfold addressed, range_unit, range_start, range_end in *.
  destruct (location_range (li_location x)) as [[u st] en] eqn:E. simpl in *.
  case_decide as Ha; [|by apply Hskip]. case_decide as Hp.
  { exists 0, x. rewrite E. simpl. split_and!; [lia|done|naive_solver..]. }
  case_decide as Hin; [|apply Hskip; intros; split; [congruence|done]].
  left. exists 0, x. rewrite E. simpl. naive_solver.
Qed.

(** Resolution finds exactly the instruction a target denotes. *)
Lemma resolve_target_spec ins cursors target from :
  Located ins -> cursor_table ins cursors ->
  match resolve_target target from ins cursors with
  | Ok i => points_to ins target i /\ forall j, points_to ins target j -> j = i
  | Err _ => forall j, ~ points_to ins target j
  | _ => False
  end.
Proof.
  intros Hl Ht.
  assert (forall source unit_ p, 
    (forall x, denotes target x <-> addressed source unit_ x /\ range_start x = p) ->
    match resolve_position 0 ins source unit_ p from with
    | Ok i => points_to ins target i /\ forall j, points_to ins target j -> j = i
    | Err _ => forall j, ~ points_to ins target j
    | _ => False
    end) as Hpos.
  { intros source unit_ p Hden.
    assert (forall i x, ins !! i = Some x -> range_start x < range_end x) as Hne.
    { intros i x Hi. pose proof (located_each _ Hl) as Hf. rewrite Forall_forall in Hf.
      by destruct (Hf x (list_elem_of_lookup_2 _ _ _ Hi)). }
    pose proof (resolve_position_spec source unit_ p from ins 0) as Hr.
    destruct (resolve_position 0 ins source unit_ p from) as [i|e| |]; [| |done|done].
    - destruct Hr as (k & x & -> & Hk & Ha & Hs). simpl. split; [exists x; split; [done|by apply Hden]|].
      intros j (y & Hj & [Hay Hsy]%Hden). pose proof (Hne _ _ Hk). pose proof (Hne _ _ Hj).
      by eapply (located_position ins j k y x source unit_ p); try done; lia.
    - intros j (y & Hj & [Hay Hsy]%Hden). pose proof (Hne _ _ Hj).
      destruct Hr as [(k & x & Hk & Ha & Hin & _)|[_ Hall]].
      + assert (j = k) as -> by (eapply (located_position ins j k y x source unit_ p); try done; lia).
        assert (x = y) as -> by congruence. lia.
      + by destruct (Hall y (list_elem_of_lookup_2 _ _ _ Hj) Hay). }
  destruct target as [id|source p|source p]; simpl; [|by apply Hpos..].
  destruct (cursors !! id) as [i|] eqn:E; simpl.
  - split; [by apply Ht|]. intros j Hj. apply Ht in Hj. congruence.
  - intros j Hj. apply Ht in Hj. congruence.
Qed.
(** ** The frozen tables *)

Definition target_ok ins (t : BranchTarget Id SourceId) (c : nat) : Prop :=
  bt_from t ∈ li_id <$> ins /\ points_to ins (bt_to t) c.

(** A declared region and its validated positions. *)
Definition region_ok ins (r : RegionSpec Id SourceId) (pr : ProtectedRegion) : Prop :=
  points_to ins (ToInstruction (rs_start r)) (pr_start pr) /\
  match rs_end r with
  | Some e => points_to ins (ToInstruction e) (pr_end pr)
  | None => pr_end pr = length ins
  end /\
  pr_start pr < pr_end pr /\ points_to ins (rs_handler r) (pr_handler pr).

(** The cursors declared for one branching instruction, in declaration order. *)
Definition targets_from (from : Id) (ts : list (BranchTarget Id SourceId)) (cs : list nat) : list nat :=
  (filter (fun tc => bt_from tc.1 = from) (zip ts cs)).*2.

Lemma cursor_table_points ins cursors id i :
  cursor_table ins cursors -> cursors !! id = Some i <-> points_to ins (ToInstruction id) i.
Proof. intros Ht. apply Ht. Qed.

Lemma freeze_targets_spec ins cursors ts :
  Located ins -> cursor_table ins cursors -> forall frozen,
  match freeze_targets ins cursors ts frozen with
  | Ok fr => exists cs, Forall2 (target_ok ins) ts cs /\
      forall from, default [] (fr !! from) = default [] (frozen !! from) ++ targets_from from ts cs
  | Err _ => forall cs, ~ Forall2 (target_ok ins) ts cs
  | _ => False
  end.
Proof.
  intros Hl Ht. induction ts as [|t ts IH]; intros frozen; simpl.
  { exists []. split; [constructor|]. intros from. by rewrite app_nil_r. }
  destruct (cursors !! bt_from t) as [c0|] eqn:Ef.
  2:{ intros cs Hall. apply (cursor_table_None ins) in Ef; [|done].
      apply Forall2_cons_inv_l in Hall as (c & cs' & [Hin _] & _). done. }
  assert (bt_from t ∈ li_id <$> ins) as Hin.
  { apply Ht in Ef as (x & Hx & <-). apply list_elem_of_fmap. eauto using list_elem_of_lookup_2. }
  pose proof (resolve_target_spec ins cursors (bt_to t) (bt_from t) Hl Ht) as Hr.
  destruct (resolve_target _ _ _ _) as [c|e| |]; simpl; [| |done|done].
  2:{ intros cs (c & cs' & [_ Hp] & _)%Forall2_cons_inv_l. by apply (Hr c). }
  specialize (IH (<[bt_from t := default [] (frozen !! bt_from t) ++ [c]]> frozen)).
  destruct (freeze_targets _ _ _ _) as [fr|e| |]; [| |done|done].
  - destruct IH as (cs & Hall & Hfr). exists (c :: cs). split; [constructor; [by split; [|apply Hr]|done]|].
    intros from. rewrite Hfr. unfold targets_from. simpl. rewrite filter_cons. simpl. case_decide as Hd.
    + subst from. rewrite lookup_insert_eq. simpl. by rewrite <- app_assoc.
    + by rewrite lookup_insert_ne.
  - intros cs (c' & cs' & _ & Hall & _)%Forall2_cons_inv_l. by apply (IH cs').
Qed.

(** Only instructions of the code have branch targets. *)
Lemma freeze_targets_keys ins cursors ts : forall frozen fr,
  (forall from, is_Some (frozen !! from) -> is_Some (cursors !! from)) ->
  freeze_targets ins cursors ts frozen = Ok fr ->
  forall from, is_Some (fr !! from) -> is_Some (cursors !! from).
Proof.
  induction ts as [|t ts IH]; intros frozen fr Hk; simpl; [by intros [= <-]|].
  destruct (cursors !! bt_from t) as [c0|] eqn:Ef; [|done]. intros (c & _ & Hrest)%rbind_Ok.
  eapply IH; [|done]. intros from [l Hl]. apply lookup_insert_Some in Hl as [[<- _]|[_ Hl]]; eauto.
Qed.

Lemma freeze_region_spec ins cursors r :
  Located ins -> cursor_table ins cursors ->
  match freeze_region ins cursors r with
  | Ok x => x.1 = rs_start r /\ region_ok ins r x.2 /\ forall pr, region_ok ins r pr -> pr = x.2
  | Err _ => forall pr, ~ region_ok ins r pr
  | _ => False
  end.
Proof.
  intros Hl Ht. unfold freeze_region, region_ok.
  assert (forall id i, cursors !! id = Some i <-> points_to ins (ToInstruction id) i) as Hp
    by (intros; by apply cursor_table_points).
  destruct (cursors !! rs_start r) as [st|] eqn:Es; simpl; [|intros pr (Hpr%Hp & _); congruence].
  assert (match (match rs_end r with Some e => ok_or (UnknownInstruction e) (cursors !! e) | None => Ok (length ins) end) with
    | Ok en => forall k, (match rs_end r with Some e => points_to ins (ToInstruction e) k | None => k = length ins end) <-> k = en
    | Err _ => forall k, ~ (match rs_end r with Some e => points_to ins (ToInstruction e) k | None => k = length ins end)
    | _ => False end) as He.
  { destruct (rs_end r) as [e|]; [|done]. destruct (cursors !! e) as [en|] eqn:Ee; simpl.
    - intros k. rewrite <- Hp, Ee. naive_solver.
    - intros k Hk%Hp. congruence. }
  destruct (match rs_end r with Some e => _ | None => _ end) as [en|err| |]; simpl; [| |done|done].
  2:{ intros pr (_ & Hpr & _). by apply (He (pr_end pr)). }
  destruct (Nat.leb_spec en st) as [Hle|Hlt].
  { intros pr (Hs%Hp & Hpr%He & Hlt & _). assert (st = pr_start pr) by congruence. lia. }
  pose proof (resolve_target_spec ins cursors (rs_handler r) (rs_start r) Hl Ht) as Hr.
  destruct (resolve_target _ _ _ _) as [h|e| |]; simpl; [| |done|done].
  2:{ intros pr (_ & _ & _ & Hh). by apply (Hr _ Hh). }
  destruct Hr as [Hh Hu]. split; [done|]. split.
  - split_and!; [by apply Hp|by apply He|done|done].
  - intros [s e h'] (Hs & Hpr & _ & Hph). simpl in *. apply Hp in Hs. apply He in Hpr. apply Hu in Hph.
    f_equal; congruence.
Qed.

Lemma freeze_regions_spec ins cursors rs :
  Located ins -> cursor_table ins cursors ->
  match freeze_regions ins cursors rs with
  | Ok xs => xs.*1 = rs_start <$> rs /\ forall prs, Forall2 (region_ok ins) rs prs <-> prs = xs.*2
  | Err _ => forall prs, ~ Forall2 (region_ok ins) rs prs
  | _ => False
  end.
Proof.
  intros Hl Ht. induction rs as [|r rs IH]; simpl.
  { split; [done|]. intros prs. split; [by intros ->%Forall2_nil_inv_l|intros ->; constructor]. }
  pose proof (freeze_region_spec ins cursors r Hl Ht) as Hr.
  destruct (freeze_region ins cursors r) as [x|e| |]; simpl; [| |done|done].
  2:{ intros prs (pr & prs' & Hpr & _)%Forall2_cons_inv_l. by apply (Hr pr). }
  destruct (freeze_regions ins cursors rs) as [xs|e| |]; simpl; [| |done|done].
  2:{ intros prs (pr & prs' & _ & Hall & _)%Forall2_cons_inv_l. by apply (IH prs'). }
  destruct Hr as (H1x & Hok & Hu), IH as [H1s IH]. split; [simpl; by f_equal|]. intros prs. split.
  - intros (pr & prs' & Hpr%Hu & Hall%IH & ->)%Forall2_cons_inv_l. by subst.
  - intros ->. constructor; [done|by apply IH].
Qed.

(** Adjacent regions of the sorted table do not conflict. *)
Definition windows_ok (l : list ProtectedRegion) : Prop :=
  forall k a b, l !! k = Some a -> l !! S k = Some b -> regions_conflict a b = false.

Lemma check_windows_spec l :
  match check_windows l with Ok _ => windows_ok l.*2 | Err _ => ~ windows_ok l.*2 | _ => False end.
Proof.
  induction l as [|x [|y l] IH]; simpl; [intros k a b Hk; done| |].
  { intros [|k] a b Ha Hb; done. }
  destruct (regions_conflict x.2 y.2) eqn:E.
  { intros Hw. specialize (Hw 0 x.2 y.2 eq_refl eq_refl). congruence. }
  simpl in IH. destruct (match l with [] => _ | _ => _ end) as [[]|e| |]; [| |done|done].
  - intros [|k] a b Ha Hb; [naive_solver|]. by apply (IH k).
  - intros Hw. apply IH. intros k a b Ha Hb. by apply (Hw (S k)).
Qed.
(** Outer regions come before the regions they contain. *)
Definition outer_first (a b : ProtectedRegion) : Prop :=
  pr_start a < pr_start b \/ (pr_start a = pr_start b /\ pr_end b <= pr_end a).

Lemma region_le_outer {A} (x y : A * ProtectedRegion) :
  (N.of_nat (pr_end x.2) <= usize_max)%N -> (N.of_nat (pr_end y.2) <= usize_max)%N ->
  region_le x y -> outer_first x.2 y.2.
Proof. unfold region_le, outer_first. lia. Qed.

Lemma sorted_outer_first {A} (l : list (A * ProtectedRegion)) :
  Forall (fun r => (N.of_nat (pr_end r) <= usize_max)%N) l.*2 ->
  StronglySorted region_le l -> StronglySorted outer_first l.*2.
Proof.
  intros Hb. induction 1 as [|x l Hs IH Hall]; simpl in *; [constructor|].
  apply Forall_cons in Hb as [Hx Hb]. constructor; [by apply IH|].
  rewrite Forall_forall in Hall. rewrite Forall_forall in Hb. apply Forall_forall. intros r Hr. pose proof Hr as (y & -> & Hy)%list_elem_of_fmap.
  apply region_le_outer; [done|by apply Hb|by apply Hall].
Qed.

Lemma region_end_bound ins r pr : region_ok ins r pr -> pr_end pr <= length ins.
Proof.
  intros (_ & He & _). destruct (rs_end r); [|lia]. destruct He as (x & Hx & _).
  apply lookup_lt_Some in Hx. lia.
Qed.

(** What [freeze] asks of its input. *)
Record Acceptable ins (ts : list (BranchTarget Id SourceId)) (rs : list (RegionSpec Id SourceId)) : Prop := {
  acc_nonempty : ins <> [];
  acc_located : Located ins;
  acc_targets : exists cs, Forall2 (target_ok ins) ts cs;
  acc_regions : exists prs, Forall2 (region_ok ins) rs prs /\
    forall l, l ≡ₚ prs -> StronglySorted outer_first l -> windows_ok l;
}.

(** What frozen code guarantees. *)
Record Frozen ins (ts : list (BranchTarget Id SourceId)) (rs : list (RegionSpec Id SourceId)) code : Prop := {
  fz_instructions : lc_instructions code = ins;
  fz_nonempty : ins <> [];
  fz_located : Located ins;
  fz_cursors : cursor_table ins (lc_cursors code);
  fz_target_keys : forall from, is_Some (lc_targets code !! from) -> is_Some (lc_cursors code !! from);
  fz_targets : exists cs, Forall2 (target_ok ins) ts cs /\ forall from, branch_targets code from = targets_from from ts cs;
  fz_regions : exists prs, Forall2 (region_ok ins) rs prs /\ lc_regions code ≡ₚ prs;
  fz_sorted : StronglySorted outer_first (lc_regions code);
  fz_windows : windows_ok (lc_regions code);
}.

Lemma freeze_frozen ins ts rs :
  (len ins <= usize_max)%N ->
  match freeze ins ts rs with
  | Ok code => Frozen ins ts rs code
  | Err _ => ~ Acceptable ins ts rs
  | _ => False
  end.
Proof.
  intros Hmax. unfold freeze. destruct (decide (ins = [])) as [->|Hne]; [by intros []|].
  assert (Located []) as Hnil by (split; [constructor|constructor|done]).
  assert (cursor_table [] ∅) as Hempty by (intros id i; rewrite lookup_empty; naive_solver).
  pose proof (check_instructions_spec ins [] ∅ Hnil Hempty) as Hc. simpl in Hc.
  destruct ins as [|x0 ins0] eqn:Eins; [done|]. rewrite <- Eins in *. clear Eins x0 ins0.
  destruct (check_instructions ins 0 ins ∅) as [cursors|e| |]; simpl; [|by intros []|done|done].
  destruct Hc as [Hl Ht].
  pose proof (freeze_targets_spec ins cursors ts Hl Ht ∅) as Hts.
  pose proof (freeze_targets_keys ins cursors ts ∅) as Hkeys.
  destruct (freeze_targets ins cursors ts ∅) as [frozen|e| |]; simpl; [| |done|done].
  2:{ intros [_ _ [cs Hcs] _]. by apply (Hts cs). }
  pose proof (freeze_regions_spec ins cursors rs Hl Ht) as Hrs.
  destruct (freeze_regions ins cursors rs) as [xs|e| |]; simpl; [| |done|done].
  2:{ intros [_ _ _ (prs & Hprs & _)]. by apply (Hrs prs). }
  destruct Hrs as [_ Hrs]. pose proof (merge_sort_Permutation region_le xs) as Hp.
  assert (StronglySorted outer_first (merge_sort region_le xs).*2) as Hsorted.
  { apply sorted_outer_first; [|by apply StronglySorted_merge_sort; apply _].
    rewrite Hp. pose proof (proj2 (Hrs xs.*2) eq_refl) as Hok. apply Forall_forall.
    intros pr [k Hk]%list_elem_of_lookup. eapply Forall2_lookup_r in Hok as (r & _ & Hr); [|done].
    pose proof (region_end_bound ins r pr Hr). unfold len in Hmax. lia. }
  pose proof (check_windows_spec (merge_sort region_le xs)) as Hw.
  destruct (check_windows _) as [[]|e| |]; simpl; [| |done|done].
  - destruct Hts as (cs & Hcs & Hfrom). split; simpl; try done.
    + intros from. apply (Hkeys frozen); [|done]. intros k [l Hk]. by rewrite lookup_empty in Hk.
    + exists cs. split; [done|]. intros from. unfold branch_targets. simpl. by rewrite Hfrom, lookup_empty.
    + exists xs.*2. split; [by apply Hrs|by rewrite Hp].
  - intros [_ _ _ (prs & ->%Hrs & Hall)]. apply Hw, Hall; [by rewrite Hp|done].
Qed.

(** Freezing accepts exactly the code it should and its tables are exact:
    accepted code has distinct identities derived by the policy and non-empty,
    pairwise disjoint source ranges; its cursor table sends each identity to its
    only instruction; every branch target and handler is the one instruction
    that the declared identity or source position denotes, targets being kept in
    declaration order; every region is a non-empty range of instructions, outer
    regions first.  A refusal means some of this does not hold of the input, and
    no index is out of range. *)
Theorem freeze_spec ins ts rs :
  (len ins <= usize_max)%N ->
  match freeze ins ts rs with
  | Ok code => Frozen ins ts rs code
  | Err _ => ~ Acceptable ins ts rs
  | _ => False
  end.
Proof. apply freeze_frozen. Qed.

(** ** Choosing a protected region *)

#[local] Instance outer_first_trans : Transitive outer_first.
Proof. intros a b c. unfold outer_first. lia. Qed.

Lemma sorted_filter {A} (R : relation A) (P : A -> Prop) `{forall x, Decision (P x)} l :
  StronglySorted R l -> StronglySorted R (filter P l).
Proof.
  induction 1 as [|x l Hs IH Hall]; [constructor|]. rewrite filter_cons. case_decide; [|done].
  constructor; [done|]. rewrite Forall_forall in Hall |- *. intros y [_ Hy]%list_elem_of_filter. auto.
Qed.

(** On an outer-first list the chosen region comes after every other. *)
Lemma max_by_start_spec l : forall r,
  StronglySorted outer_first (r :: l) ->
  max_by_start r l ∈ r :: l /\ forall x, x ∈ r :: l -> outer_first x (max_by_start r l).
Proof.
  induction l as [|y l IH]; intros r Hs; simpl.
  { split; [left|]. intros x ->%list_elem_of_singleton. right. lia. }
  apply StronglySorted_inv in Hs as [Hs Hall]. apply Forall_cons in Hall as [Hry _].
  replace (pr_start r <=? pr_start y)%nat with true by (symmetry; apply Nat.leb_le; unfold outer_first in Hry; lia).
  destruct (IH y Hs) as [Hin Hmax]. split; [by right|]. intros x [->|Hx]%elem_of_cons; [|by apply Hmax].
  transitivity y; [done|]. apply Hmax. left.
Qed.

(** [b] starts inside [a] and ends beyond it. *)
Definition crosses (a b : ProtectedRegion) : Prop :=
  pr_start a < pr_start b < pr_end a /\ pr_end a < pr_end b.

(** The region selected for a cursor of frozen code is an innermost one: it
    covers the cursor, and every other region that covers the cursor contains it
    unless the two cross.  No region is selected only when none covers the
    cursor, and the handler of the selected one is an instruction of the code. *)
Theorem innermost_region_spec ins ts rs code cursor :
  (len ins <= usize_max)%N -> freeze ins ts rs = Ok code ->
  match innermost_protected_region code cursor with
  | Some r => r ∈ lc_regions code /\ region_contains r cursor /\ pr_handler r < code_len code /\
      forall r', r' ∈ lc_regions code -> region_contains r' cursor -> ~ crosses r' r ->
        pr_start r' <= pr_start r /\ pr_end r <= pr_end r'
  | None => forall r, r ∈ lc_regions code -> ~ region_contains r cursor
  end.
Proof.
  intros Hmax Hf. pose proof (freeze_frozen ins ts rs Hmax) as Hz. rewrite Hf in Hz.
  destruct Hz as [Hi _ _ _ _ _ (prs & Hprs & Hperm) Hs _]. unfold innermost_protected_region.
  set (P := fun r => region_contains r cursor).
  pose proof (sorted_filter outer_first P _ Hs) as Hfs.
  pose proof (fun r => list_elem_of_filter P (lc_regions code) r) as Hel.
  destruct (filter P (lc_regions code)) as [|r0 l] eqn:E.
  { intros r Hr Hc. assert (r ∈ @nil ProtectedRegion) as Hn by by apply Hel. by apply not_elem_of_nil in Hn. }
  destruct (max_by_start_spec l r0 Hfs) as [Hin Hord]. pose proof Hin as [Hc Hr]%Hel.
  split_and!; [done|done| |].
  - rewrite Hperm in Hr. apply list_elem_of_lookup in Hr as [k Hk].
    eapply Forall2_lookup_r in Hprs as (spec & _ & (_ & _ & _ & x & Hx & _)); [|done].
    apply lookup_lt_Some in Hx. unfold code_len. by rewrite Hi.
  - intros r' Hr' Hc' Hcross. assert (outer_first r' (max_by_start r0 l)) as Hof by (apply Hord, Hel; done).
    unfold P, region_contains, outer_first, crosses in *. lia.
Qed.
End Code.
Arguments LocatedCode I Id Origin {_}.
