(* ===== verification/MachineAdmission.v ===== *)
(** * Machine admission

    crates/sim-lib-machine/src/admission.rs and the canonical datum of code.rs:
    a permit is minted once a description passes the limits and the consumer's
    checks, and is bound to the content identity of the description.  The kernel's
    datums are an interface; the theorems say what a minted permit certifies and
    that it accepts exactly the descriptions with the same semantic content. *)

From stdpp Require Import strings pretty.
From S2P Require Import Prelude BTree KernelDatum MachineCode.

(** What the code reads of an origin beyond its range. *)
Class OriginText (Origin SourceId : Type) `{KernelOrigin Origin SourceId} := {
  source_text : SourceId -> string;
  origin_codec : Origin -> N;
}.

Record AdmissionLimits := {
  al_instructions : nat;
  al_operand_units : nat;
  al_slots : nat;
  al_frames : nat;
  al_work : nat;
}.

Inductive AdmissionError (R : Type) :=
| ZeroLimit (limit : string)
| InstructionLimit (actual limit : nat)
| PolicyRefusal (r : R)
| NonCanonical.
Arguments ZeroLimit {R}.
Arguments InstructionLimit {R}.
Arguments PolicyRefusal {R}.
Arguments NonCanonical {R}.

(** A fallible step for every element, in order. *)
Fixpoint res_map {E A B} (f : A -> Res E B) (l : list A) : Res E (list B) :=
  match l with
  | [] => Ok []
  | x :: rest => let? y := f x in let? ys := res_map f rest in Ok (y :: ys)
  end.

Lemma res_map_Ok {E A B} (f : A -> Res E B) l ys :
  res_map f l = Ok ys <-> Forall2 (fun x y => f x = Ok y) l ys.
Proof.
  revert ys. induction l as [|x l IH]; intros ys; simpl.
  - split; [by intros [= <-]|by intros ->%Forall2_nil_inv_l].
  - rewrite rbind_Ok. setoid_rewrite rbind_Ok. split.
    + intros (y & Hy & zs & Hzs%IH & [= <-]). by constructor.
    + intros (y & zs & Hy & Hzs & ->)%Forall2_cons_inv_l. exists y. split; [done|]. exists zs. by rewrite IH.
Qed.

Section Admission.
Context {I Id Origin SourceId Datum Symbol ContentId M R : Type}.
Context `{OrdKey Id} `{KernelOrigin Origin SourceId} `{!OriginText Origin SourceId} `{InstructionPolicy I Id}.
Context `{KernelDatum Datum Symbol ContentId}.
Abbreviation instr := (LocatedInstruction I Id Origin).
Abbreviation located_code := (LocatedCode I Id Origin).

Definition source_location_datum (location : SourceLocation Origin) : Datum :=
  let '(origin, unit_, start_, end_) :=
    match location with
    | Bytes origin => (origin, "byte", origin_start origin, origin_end origin)
    | Tokens origin start_ end_ => (origin, "token", start_, end_)
    end in
  d_node (symbol_qualified "machine" "SourceLocationV1")
    [(symbol_new "unit", d_symbol (symbol_new unit_));
     (symbol_new "source", d_string (source_text (origin_source origin)));
     (symbol_new "codec", u64_datum (origin_codec origin));
     (symbol_new "origin-byte-start", usize_datum (origin_start origin));
     (symbol_new "origin-byte-end", usize_datum (origin_end origin));
     (symbol_new "start", usize_datum start_);
     (symbol_new "end", usize_datum end_)].

Definition located_datum (instruction_datum : I -> Datum) (index : nat) (x : instr) : Datum :=
  d_node (symbol_qualified "machine" "LocatedInstructionV1")
    [(symbol_new "index", usize_datum index);
     (symbol_new "instruction", instruction_datum (li_instruction x));
     (symbol_new "location", source_location_datum (li_location x));
     (symbol_new "safepoint", d_bool (li_safepoint x));
     (symbol_new "coverage-counter", match li_coverage x with None => d_nil | Some c => u64_datum c end)].

Definition targets_datum (from : nat) (destinations : list nat) : Datum :=
  d_node (symbol_qualified "machine" "BranchTargetsV1")
    [(symbol_new "from-index", usize_datum from);
     (symbol_new "target-indices", d_list (usize_datum <$> destinations))].

Definition region_datum (r : ProtectedRegion) : Datum :=
  d_node (symbol_qualified "machine" "ProtectedRegionV1")
    [(symbol_new "start-index", usize_datum (pr_start r));
     (symbol_new "end-index", usize_datum (pr_end r));
     (symbol_new "handler-index", usize_datum (pr_handler r))].

Definition index_le {A} (x y : nat * A) : Prop := x.1 <= y.1.

#[global] Instance index_le_dec {A} : RelDecision (index_le (A:=A)).
Proof. intros x y. unfold index_le. apply _. Defined.

(** The branch targets by instruction position; [self.cursors[from]] aborts on
    an unknown identity. *)
Definition indexed_targets (code : located_code) : Res unit (list (nat * list nat)) :=
  let? entries :=
    res_map (fun e => let? index := expect (lc_cursors code !! e.1) in Ok (index, e.2)) (map_entries (lc_targets code)) in
  Ok (merge_sort index_le entries).

Definition semantic_datum (instruction_datum : I -> Datum) (code : located_code) : Res unit Datum :=
  let instructions := imap (located_datum instruction_datum) (lc_instructions code) in
  let? targets := indexed_targets code in
  let regions := region_datum <$> lc_regions code in
  Ok (d_node (symbol_qualified "machine" "LocatedCodeV2")
    [(symbol_new "instructions", d_list instructions);
     (symbol_new "branch-targets", d_list ((fun e => targets_datum e.1 e.2) <$> targets));
     (symbol_new "protected-regions", d_list regions)]).

Record MachineDescription := {
  md_code : located_code;
  md_limits : AdmissionLimits;
  md_metadata : M;
}.
Implicit Types d : MachineDescription.

(** [AdmissionPolicy]: the consumer's pure checks and projections. *)
Class AdmissionPolicy := {
  validate_description : MachineDescription -> Res R unit;
  validate_instruction : I -> M -> Res R unit;
  policy_identity : Symbol;
  policy_version : nat;
  metadata_datum : M -> Datum;
  instruction_datum : I -> Datum;
}.
Context `{AdmissionPolicy}.

Definition limits_datum (l : AdmissionLimits) : Datum :=
  d_node (symbol_qualified "machine" "AdmissionLimitsV1")
    [(symbol_new "instructions", usize_datum (al_instructions l));
     (symbol_new "operand-units", usize_datum (al_operand_units l));
     (symbol_new "slots", usize_datum (al_slots l));
     (symbol_new "frames", usize_datum (al_frames l));
     (symbol_new "work", usize_datum (al_work l))].

Definition content_id d : Res unit ContentId :=
  let? located := semantic_datum instruction_datum (md_code d) in
  datum_content_id
    (d_node (symbol_qualified "machine" "AdmissionIdentityV2")
      [(symbol_new "policy", d_symbol policy_identity);
       (symbol_new "policy-version", usize_datum policy_version);
       (symbol_new "limits", limits_datum (md_limits d));
       (symbol_new "metadata", metadata_datum (md_metadata d));
       (symbol_new "located-code", located)]).

Fixpoint check_limits (l : list (string * nat)) : Res (AdmissionError R) unit :=
  match l with
  | [] => Ok tt
  | (name, value) :: rest => if decide (value = 0) then Err (ZeroLimit name) else check_limits rest
  end.

Definition validate_limits d : Res (AdmissionError R) unit :=
  let l := md_limits d in
  let? _ := check_limits [("instructions", al_instructions l); ("operand_units", al_operand_units l);
    ("slots", al_slots l); ("frames", al_frames l); ("work", al_work l)] in
  if (al_instructions l <? code_len (md_code d))%nat
  then Err (InstructionLimit (code_len (md_code d)) (al_instructions l))
  else Ok tt.

Fixpoint validate_instructions (l : list instr) (metadata : M) : Res (AdmissionError R) unit :=
  match l with
  | [] => Ok tt
  | located :: rest =>
    let? _ := map_err PolicyRefusal (validate_instruction (li_instruction located) metadata) in
    validate_instructions rest metadata
  end.

(** [MachinePermit] is its content identity. *)
Definition admit_machine d : Res (AdmissionError R) ContentId :=
  let? _ := validate_limits d in
  let? _ := map_err PolicyRefusal (validate_description d) in
  let? _ := validate_instructions (lc_instructions (md_code d)) (md_metadata d) in
  map_err (fun _ => NonCanonical) (content_id d).

Definition accepts (permit : ContentId) d : Res unit bool :=
  match content_id d with
  | Ok id => Ok (bool_decide (permit = id))
  | Err _ => Ok false
  | Panic => Panic
  | NoFuel => NoFuel
  end.
(** ** The identity of a description *)

(** What the datum of a location records: everything but the trivia. *)
Definition location_key (l : SourceLocation Origin) : LocationUnit * string * N * (nat * nat) * (nat * nat) :=
  let '(unit_, start_, end_) := location_range l in
  let origin := match l with Bytes o | Tokens o _ _ => o end in
  (unit_, source_text (origin_source origin), origin_codec origin, (origin_start origin, origin_end origin), (start_, end_)).

Definition same_located (x y : instr) : Prop :=
  li_instruction x = li_instruction y /\ li_id x = li_id y /\ location_key (li_location x) = location_key (li_location y) /\
  li_safepoint x = li_safepoint y /\ li_coverage x = li_coverage y.

(** Equal code up to the trivia of its origins. *)
Record SameCode (c c' : located_code) : Prop := {
  sc_instructions : Forall2 same_located (lc_instructions c) (lc_instructions c');
  sc_cursors : lc_cursors c = lc_cursors c';
  sc_targets : lc_targets c = lc_targets c';
  sc_regions : lc_regions c = lc_regions c';
}.

Record SameDescription d d' : Prop := {
  sd_code : SameCode (md_code d) (md_code d');
  sd_limits : md_limits d = md_limits d';
  sd_metadata : md_metadata d = md_metadata d';
}.

(** Code as [freeze] makes it: what identification relies on. *)
Record Identifiable (c : located_code) : Prop := {
  id_derived : Forall (fun x => li_id x = instruction_id (li_instruction x)) (lc_instructions c);
  id_cursors : cursor_table (lc_instructions c) (lc_cursors c);
  id_targets : forall from, is_Some (lc_targets c !! from) -> is_Some (lc_cursors c !! from);
}.

Section Laws.
Context {laws : KernelDatumLaws Datum Symbol ContentId}.
#[local] Set Default Proof Using "Type + laws".

(** [datum_inj] opens that two datums are the same. *)
Ltac datum_inj :=
  repeat match goal with
  | H : same (d_node _ _) (d_node _ _) |- _ => same_node H
  | H : same (usize_datum _) (usize_datum _) |- _ => apply usize_datum_inj in H
  | H : same (u64_datum _) (u64_datum _) |- _ => apply u64_datum_inj in H
  | H : same (d_list _) (d_list _) |- _ => apply same_list in H
  | H : same (d_bool _) (d_bool _) |- _ => apply same_bool in H
  | H : same (d_string _) (d_string _) |- _ => apply same_string in H
  | H : same (d_symbol _) (d_symbol _) |- _ => apply same_symbol in H
  | H : symbol_new _ = symbol_new _ |- _ => apply (inj symbol_new) in H
  end.

Lemma source_location_datum_inj l l' :
  same (source_location_datum l) (source_location_datum l') -> location_key l = location_key l'.
Proof.
  unfold source_location_datum, location_key. destruct l, l'; simpl; intros Heq; datum_inj; try done; congruence.
Qed.

Lemma source_location_datum_key l l' :
  location_key l = location_key l' -> source_location_datum l = source_location_datum l'.
Proof.
  unfold source_location_datum, location_key. destruct l, l'; simpl; intros [=]; congruence.
Qed.

#[local] Instance usize_datum_Inj : Inj (=) datum_equiv usize_datum.
Proof. intros a b. apply usize_datum_inj. Qed.

#[local] Instance region_datum_Inj : Inj (=) datum_equiv region_datum.
Proof. intros r r'. unfold datum_equiv, region_datum. destruct r, r'. simpl. intros Heq. datum_inj. congruence. Qed.

#[local] Instance targets_datum_Inj : Inj (=) datum_equiv (fun e => targets_datum e.1 e.2).
Proof.
  intros [a l] [b l']. unfold datum_equiv, targets_datum. simpl. intros Heq. datum_inj. subst.
  match goal with Hl : Forall2 _ _ _ |- _ => apply same_fmap in Hl; [|apply _] end. congruence.
Qed.

Lemma coverage_datum_inj (o o' : option N) :
  same match o with None => d_nil | Some c => u64_datum c end match o' with None => d_nil | Some c => u64_datum c end -> o = o'.
Proof.
  destruct o, o'; intros Heq; [by apply u64_datum_inj in Heq as ->| | |done].
  - apply same_sym in Heq. unfold u64_datum in Heq. by rewrite nil_number in Heq.
  - unfold u64_datum in Heq. by rewrite nil_number in Heq.
Qed.

Lemma located_list_inj (l l' : list instr) `{!Inj (=) datum_equiv instruction_datum} :
  Forall2 (fun x y => same x y) (imap (located_datum instruction_datum) l) (imap (located_datum instruction_datum) l') ->
  Forall (fun x => li_id x = instruction_id (li_instruction x)) l ->
  Forall (fun x => li_id x = instruction_id (li_instruction x)) l' ->
  Forall2 same_located l l'.
Proof.
  intros Heq Hd Hd'. apply Forall2_same_length_lookup. split.
  { apply Forall2_length in Heq. by rewrite !length_imap in Heq. }
  intros i x y Hx Hy. rewrite Forall_forall in Hd, Hd'.
  assert (same (located_datum instruction_datum i x) (located_datum instruction_datum i y)) as Hi.
  { eapply (Forall2_lookup_lr _ _ _ i _ _ Heq); by rewrite list_lookup_imap, ?Hx, ?Hy. }
  specialize (Hd x (list_elem_of_lookup_2 _ _ _ Hx)). specialize (Hd' y (list_elem_of_lookup_2 _ _ _ Hy)).
  unfold located_datum in Hi. datum_inj.
  match goal with Hf : same (instruction_datum _) _ |- _ => apply same_inj in Hf; [|apply _] end.
  match goal with Hf : same (source_location_datum _) _ |- _ => apply source_location_datum_inj in Hf end.
  match goal with Hf : same match li_coverage x with _ => _ end _ |- _ => apply coverage_datum_inj in Hf end.
  split_and!; congruence.
Qed.

(** The branch targets of frozen code, by position. *)
Lemma indexed_targets_spec c :
  Identifiable c -> exists l, indexed_targets c = Ok l /\ forall i dests,
    (i, dests) ∈ l <-> exists from, lc_targets c !! from = Some dests /\ lc_cursors c !! from = Some i.
Proof.
  intros [_ _ Hk]. unfold indexed_targets.
  set (f := fun e : Id * list nat => _).
  assert (exists l, res_map f (map_entries (lc_targets c)) = Ok l) as [l Hl].
  { assert (forall e, e ∈ map_entries (lc_targets c) -> exists y, f e = Ok y) as Hall.
    { intros [from dests] He%elem_of_map_entries. destruct (Hk from) as [i Hi]; [eauto|].
      exists (i, dests). unfold f. simpl. by rewrite Hi. }
    clear Hk. induction (map_entries (lc_targets c)) as [|e es IH]; simpl; [eauto|].
    destruct (Hall e) as [y ->]; [left|]. simpl. destruct IH as [ys ->]; [|simpl; eauto].
    intros e' He'. apply Hall. by right. }
  rewrite Hl. simpl. eexists. split; [done|]. intros i dests. rewrite merge_sort_Permutation.
  apply res_map_Ok in Hl. split.
  - intros [k Hi]%list_elem_of_lookup. eapply Forall2_lookup_r in Hl as ([from ds] & Hfrom & Hf); [|done].
    unfold f in Hf. simpl in Hf. destruct (lc_cursors c !! from) eqn:E; [|done]. simplify_eq/=.
    exists from. split; [|done]. apply elem_of_map_entries. by eapply list_elem_of_lookup_2.
  - intros (from & Ht & Hc). apply elem_of_map_entries in Ht. apply list_elem_of_lookup in Ht as [k Ht].
    eapply Forall2_lookup_l in Hl as (y & Hy & Hf); [|done]. unfold f in Hf. simpl in Hf. rewrite Hc in Hf.
    simplify_eq/=. by eapply list_elem_of_lookup_2.
Qed.

(** A cursor table is determined by the identities, and positions identify. *)
Lemma cursor_table_same (l l' : list instr) cursors cursors' :
  Forall2 same_located l l' -> cursor_table l cursors -> cursor_table l' cursors' -> cursors = cursors'.
Proof.
  intros Hs Ht Ht'. apply map_eq. intros id. apply option_eq. intros i. rewrite (Ht id i), (Ht' id i). split.
  - intros (x & Hx & <-). eapply Forall2_lookup_l in Hs as (y & Hy & _ & Hid & _); [|done]. eauto.
  - intros (y & Hy & <-). eapply Forall2_lookup_r in Hs as (x & Hx & _ & Hid & _); [|done]. eauto.
Qed.

Lemma cursor_table_inj (l : list instr) cursors id id' i :
  cursor_table l cursors -> cursors !! id = Some i -> cursors !! id' = Some i -> id = id'.
Proof. intros Ht (x & Hx & <-)%Ht (y & Hy & <-)%Ht. congruence. Qed.

Lemma targets_same c c' l :
  Identifiable c -> Identifiable c' -> lc_cursors c = lc_cursors c' ->
  indexed_targets c = Ok l -> indexed_targets c' = Ok l -> lc_targets c = lc_targets c'.
Proof.
  intros Hi Hi' Hc Hl Hl'.
  destruct (indexed_targets_spec c Hi) as (l1 & Hl1 & H1l), (indexed_targets_spec c' Hi') as (l2 & Hl2 & H2l).
  assert (l1 = l) as -> by congruence. assert (l2 = l) as -> by congruence. clear Hl1 Hl2.
  assert (forall a b : located_code, Identifiable a -> lc_cursors a = lc_cursors b ->
    (forall i dests, (i, dests) ∈ l <-> exists from, lc_targets a !! from = Some dests /\ lc_cursors a !! from = Some i) ->
    (forall i dests, (i, dests) ∈ l <-> exists from, lc_targets b !! from = Some dests /\ lc_cursors b !! from = Some i) ->
    forall from dests, lc_targets a !! from = Some dests -> lc_targets b !! from = Some dests) as Hhalf.
  { intros a b [_ Hta Hka] Hab Ha Hb from dests Hf. destruct (Hka from) as [i Hfi]; [eauto|].
    assert ((i, dests) ∈ l) as (from' & Hf' & Hi'')%Hb by (apply Ha; eauto).
    rewrite <- Hab in Hi''. by rewrite (cursor_table_inj _ _ from from' i Hta Hfi Hi''). }
  apply map_eq. intros from. apply option_eq. intros dests. split; [by apply (Hhalf c c')|by apply (Hhalf c' c)].
Qed.

Lemma semantic_datum_inj c c' datum datum' `{!Inj (=) datum_equiv instruction_datum} :
  Identifiable c -> Identifiable c' ->
  semantic_datum instruction_datum c = Ok datum -> semantic_datum instruction_datum c' = Ok datum' -> same datum datum' -> SameCode c c'.
Proof.
  intros Hi Hi' (l & Hl & [= <-])%rbind_Ok (l' & Hl' & Heq)%rbind_Ok Hs. injection Heq as <-. datum_inj.
  match goal with Hf : Forall2 _ (imap _ _) (imap _ _) |- _ =>
    pose proof (located_list_inj _ _ Hf (id_derived _ Hi) (id_derived _ Hi')) as Hins end.
  assert (lc_cursors c = lc_cursors c') as Hc by (eapply cursor_table_same; [done|apply Hi|apply Hi']).
  split; [done|done| |].
  - match goal with Hf : Forall2 _ (_ <$> l) (_ <$> l') |- _ => apply same_fmap in Hf; [subst l'|apply _] end.
    by eapply targets_same.
  - match goal with Hf : Forall2 _ (region_datum <$> _) _ |- _ => apply same_fmap in Hf; [done|apply _] end.
Qed.

Lemma located_list_same (l l' : list instr) :
  Forall2 same_located l l' ->
  imap (located_datum instruction_datum) l = imap (located_datum instruction_datum) l'.
Proof.
  intros Hs. apply list_eq. intros i. rewrite !list_lookup_imap.
  destruct (l !! i) as [x|] eqn:Hx.
  - eapply Forall2_lookup_l in Hs as (y & Hy & Hins & _ & Hloc & Hsafe & Hcov); [|done]. rewrite Hy. simpl.
    unfold located_datum. by rewrite Hins, Hsafe, Hcov, (source_location_datum_key _ _ Hloc).
  - apply lookup_ge_None in Hx. apply Forall2_length in Hs. by rewrite (lookup_ge_None_2 l') by lia.
Qed.

Lemma description_id_same d d' : SameDescription d d' -> content_id d = content_id d'.
Proof.
  intros [[Hins Hcur Htar Hreg] Hlim Hmeta]. unfold content_id, semantic_datum, indexed_targets.
  by rewrite (located_list_same _ _ Hins), Hcur, Htar, Hreg, Hlim, Hmeta.
Qed.

Lemma limits_datum_inj l l' : same (limits_datum l) (limits_datum l') -> l = l'.
Proof. destruct l, l'. unfold limits_datum. simpl. intros Heq. datum_inj. congruence. Qed.

Lemma content_id_inj d d' id `{!Inj (=) datum_equiv instruction_datum} `{!Inj (=) datum_equiv metadata_datum} :
  Identifiable (md_code d) -> Identifiable (md_code d') ->
  content_id d = Ok id -> content_id d' = Ok id -> SameDescription d d'.
Proof.
  intros Hi Hi' (s & Hs & Hd)%rbind_Ok (s' & Hs' & Hd')%rbind_Ok.
  pose proof (KernelDatum.content_id_same _ _ _ Hd Hd') as Heq. datum_inj. split.
  - by eapply semantic_datum_inj.
  - match goal with Hf : same (limits_datum _) _ |- _ => by apply limits_datum_inj in Hf end.
  - match goal with Hf : same (metadata_datum _) _ |- _ => apply same_inj in Hf; [done|apply _] end.
Qed.


Lemma frozen_identifiable (ins : list instr) (ts : list (BranchTarget Id SourceId)) rs code :
  Frozen ins ts rs code -> Identifiable code.
Proof.
  intros [Hi _ Hl Hc Hk _ _ _]. split; rewrite ?Hi; [|done|done].
  eapply Forall_impl; [apply Hl|]. by intros x [? _].
Qed.

Lemma content_id_safe d : Identifiable (md_code d) -> safe (content_id d).
Proof.
  intros (l & Hl & _)%indexed_targets_spec. unfold content_id, semantic_datum. rewrite Hl. apply datum_content_id_safe.
Qed.

Lemma accepts_safe permit d : Identifiable (md_code d) -> safe (accepts permit d).
Proof. intros Hs%content_id_safe. unfold accepts. by destruct (content_id d). Qed.

(** What admission checks. *)
Record Vetted d : Prop := {
  ad_limits : Forall (fun n => n <> 0) [al_instructions (md_limits d); al_operand_units (md_limits d);
    al_slots (md_limits d); al_frames (md_limits d); al_work (md_limits d)];
  ad_length : code_len (md_code d) <= al_instructions (md_limits d);
  ad_description : validate_description d = Ok tt;
  ad_instructions : Forall (fun x => validate_instruction (li_instruction x) (md_metadata d) = Ok tt)
    (lc_instructions (md_code d));
}.

Lemma check_limits_Ok l : check_limits l = Ok tt <-> Forall (fun n => n <> 0) l.*2.
Proof.
  induction l as [|[name value] l IH]; simpl; [by split|]. rewrite Forall_cons. case_decide; naive_solver.
Qed.

Lemma validate_instructions_Ok l metadata :
  validate_instructions l metadata = Ok tt <->
  Forall (fun x => validate_instruction (li_instruction x) metadata = Ok tt) l.
Proof.
  induction l as [|x l IH]; simpl; [by split|]. rewrite Forall_cons, <- IH.
  destruct (validate_instruction (li_instruction x) metadata) as [[]| | |]; simpl; naive_solver.
Qed.

Lemma admit_machine_Ok d permit : admit_machine d = Ok permit <-> Vetted d /\ content_id d = Ok permit.
Proof.
  unfold admit_machine, validate_limits. split.
  - intros ([] & ([] & Hz & Hl)%rbind_Ok & Ha)%rbind_Ok.
    apply rbind_Ok in Ha as ([] & Hd & ([] & Hi & Ha)%rbind_Ok).
    destruct (Nat.ltb_spec (al_instructions (md_limits d)) (code_len (md_code d))); [done|].
    split; [|destruct (content_id d); simpl in Ha; by simplify_eq]. split.
    + by apply check_limits_Ok in Hz.
    + lia.
    + by destruct (validate_description d) as [[]| | |].
    + by apply validate_instructions_Ok.
  - intros [[Hz Hlen Hd Hi] Hc]. rewrite (proj2 (check_limits_Ok _)) by done. simpl.
    destruct (Nat.ltb_spec (al_instructions (md_limits d)) (code_len (md_code d))); [lia|]. simpl.
    rewrite Hd. simpl. rewrite (proj2 (validate_instructions_Ok _ _) Hi). simpl. by rewrite Hc.
Qed.

(** A permit certifies its description and binds it: admission mints one
    exactly when no limit is zero, the code is within its instruction limit, the
    policy accepts the description and every single instruction, and the content
    is canonical; the permit then accepts precisely the frozen descriptions with
    the same code (up to origin trivia), limits and metadata.  The projections
    of the policy must tell instructions and metadata apart. *)
Theorem permit_binds_description d permit
    `{!Inj (=) datum_equiv instruction_datum} `{!Inj (=) datum_equiv metadata_datum}
    (ins : list instr) (ts : list (BranchTarget Id SourceId)) rs :
  Frozen ins ts rs (md_code d) -> 
  (admit_machine d = Ok permit <-> Vetted d /\ content_id d = Ok permit) /\
  (admit_machine d = Ok permit ->
   forall ins' (ts' : list (BranchTarget Id SourceId)) rs' d',
     Frozen ins' ts' rs' (md_code d') ->
     exists b, accepts permit d' = Ok b /\ (b = true <-> SameDescription d d')).
Proof.
  intros Hf. split; [apply admit_machine_Ok|].
  intros [_ Hc]%admit_machine_Ok ins' ts' rs' d' Hf'. unfold accepts.
  apply frozen_identifiable in Hf, Hf'. pose proof (content_id_safe d' Hf') as Hsafe.
  destruct (content_id d') as [id|e| |] eqn:E; [| |done|done]; eexists; (split; [done|]).
  - rewrite bool_decide_eq_true. split; [intros <-; by eapply content_id_inj|].
    intros Hs%description_id_same. congruence.
  - split; [done|]. intros Hs%description_id_same. congruence.
Qed.
End Laws.
End Admission.
