(* ===== verification/MachineFrame.v ===== *)
(** * Frames, transfers and managed roots

    crates/sim-lib-machine/src/frame.rs and managed.rs: activation records made
    of bounded slots and operands, the bounded frame stack, width-checked
    transfers, and the enumeration of the managed roots that suspended machine
    state keeps alive.  Visitors may refuse; a refused visit stops at once. *)

From S2P Require Import Prelude MachineStack MachineSlots MachineCode.

Section Roots.
Context {ManagedId : Type}.

(** A visitor's call: its new state and whether it wants more. *)
Abbreviation visitor St := (St -> ManagedId -> St * bool).

(** [ManagedRootSource]. *)
Class ManagedRootSource (T : Type) := visit_managed_roots : forall {St : Type}, T -> visitor St -> St -> St * bool.

#[export] Instance visit_id : ManagedRootSource ManagedId := fun St id visit s => visit s id.

#[export] Instance visit_option `{ManagedRootSource T} : ManagedRootSource (option T) := fun St o visit s =>
  match o with Some value => visit_managed_roots value visit s | None => (s, true) end.

#[export] Instance visit_vec `{ManagedRootSource T} : ManagedRootSource (list T) := fun St =>
  fix go l visit s :=
    match l with
    | [] => (s, true)
    | value :: rest =>
      let '(s, more) := visit_managed_roots value visit s in
      if more then go rest visit s else (s, false)
    end.

#[export] Instance visit_unit : ManagedRootSource unit := fun St _ visit s => (s, true).

Inductive RootScanError := RootBudgetExhausted (visited limit : nat).

(** The closure of [RootSnapshot::scan]. *)
Definition scan_visitor (budget : nat) (roots : list ManagedId) (root : ManagedId) : list ManagedId * bool :=
  if decide (length roots = budget) then (roots, false) else (roots ++ [root], true).

(** [RootSnapshot::scan]: the snapshot is its list of roots. *)
Definition scan `{ManagedRootSource T} (source : T) (budget : nat) : Res RootScanError (list ManagedId) :=
  let '(roots, complete) := visit_managed_roots source (scan_visitor budget) [] in
  if complete then Ok roots else Err (RootBudgetExhausted budget budget).
End Roots.
Arguments ManagedRootSource ManagedId T : clear implicits.

Record Frame (V K R H : Type) := {
  f_slots : SlotFile V;
  f_operands : UnitStack V;
  f_cursor : CodeCursor;
  f_continuation : option K;
  f_roots : R;
  f_handlers : H;
}.
Arguments f_slots {V K R H}.
Arguments f_operands {V K R H}.
Arguments f_cursor {V K R H}.
Arguments f_continuation {V K R H}.
Arguments f_roots {V K R H}.
Arguments f_handlers {V K R H}.

Section Frames.
Context {ManagedId V K R H : Type}.

Definition frame_new (slot_limit operand_limit : nat) (cursor : CodeCursor) (continuation : option K)
    (roots : R) (handlers : H) : Frame V K R H :=
  {| f_slots := new_slots slot_limit; f_operands := new_stack operand_limit; f_cursor := cursor;
     f_continuation := continuation; f_roots := roots; f_handlers := handlers |}.

Definition frame_set_cursor (f : Frame V K R H) (cursor : CodeCursor) : Frame V K R H :=
  {| f_slots := f_slots f; f_operands := f_operands f; f_cursor := cursor;
     f_continuation := f_continuation f; f_roots := f_roots f; f_handlers := f_handlers f |}.

(** [SlotFile::visit_values] and [UnitStack::visit_values]. *)
Definition slot_file_values (s : SlotFile V) : list V := omap id (slot_values s).

Definition unit_stack_values (s : UnitStack V) : list V := stack_values s.

(** [visit_values(|value| complete = complete && value.visit_managed_roots(visit))]. *)
Fixpoint visit_while `{ManagedRootSource ManagedId V} {St} (values : list V)
    (visit : St -> ManagedId -> St * bool) (s : St) (complete : bool) : St * bool :=
  match values with
  | [] => (s, complete)
  | value :: rest =>
    let '(s, complete) := if complete then visit_managed_roots value visit s else (s, false) in
    visit_while rest visit s complete
  end.

#[export] Instance visit_frame `{ManagedRootSource ManagedId V} `{ManagedRootSource ManagedId K}
    `{ManagedRootSource ManagedId R} `{ManagedRootSource ManagedId H} : ManagedRootSource ManagedId (Frame V K R H) :=
  fun St f visit s =>
    let '(s, complete) := visit_while (slot_file_values (f_slots f)) visit s true in
    if negb complete then (s, false)
    else
      let '(s, complete) := visit_while (unit_stack_values (f_operands f)) visit s true in
      if negb complete then (s, false)
      else
        let '(s, continued) := visit_managed_roots (f_continuation f) visit s in
        if negb continued then (s, false)
        else
          let '(s, more) := visit_managed_roots (f_roots f) visit s in
          if more then visit_managed_roots (f_handlers f) visit s else (s, false).
End Frames.

(** ** The frame stack *)

Inductive FrameStackError := DepthExhausted (depth limit : nat).

Record FrameStack (F : Type) := {
  fs_frames : list F;
  fs_limit : nat;
}.
Arguments fs_frames {F}.
Arguments fs_limit {F}.

Section FrameStack.
Context {F : Type}.
Implicit Types s : FrameStack F.

Definition new_frames (limit : nat) : FrameStack F := {| fs_frames := []; fs_limit := limit |}.

Definition frame_depth s : nat := length (fs_frames s).

Definition frame_push s (f : F) : Res FrameStackError (FrameStack F) :=
  if (fs_limit s <=? length (fs_frames s))%nat
  then Err (DepthExhausted (length (fs_frames s)) (fs_limit s))
  else Ok {| fs_frames := fs_frames s ++ [f]; fs_limit := fs_limit s |}.

Definition frame_pop s : option F * FrameStack F :=
  (last (fs_frames s), {| fs_frames := removelast (fs_frames s); fs_limit := fs_limit s |}).

Definition current s : option F := last (fs_frames s).

(** An assignment through [current_mut]. *)
Definition set_current s (f : F) : FrameStack F :=
  match fs_frames s with
  | [] => s
  | _ => {| fs_frames := removelast (fs_frames s) ++ [f]; fs_limit := fs_limit s |}
  end.

#[export] Instance visit_frames {ManagedId} `{ManagedRootSource ManagedId F} :
  ManagedRootSource ManagedId (FrameStack F) := fun St s visit st => visit_managed_roots (fs_frames s) visit st.
End FrameStack.

(** ** Transfers *)

Inductive TransferError := WidthCountMismatch | TransferZeroWidth.

Definition validate_widths {V} (values : list V) (widths : list nat) : Res TransferError unit :=
  if decide (length values = length widths) then
    if decide (0 ∈ widths) then Err TransferZeroWidth else Ok tt
  else Err WidthCountMismatch.

Record CallTransfer (V C : Type) := {
  ct_values : list V;
  ct_widths : list nat;
  ct_target : C;
}.

Record ReturnTransfer (V : Type) := {
  rt_values : list V;
  rt_widths : list nat;
}.

Definition new_call {V C} (values : list V) (widths : list nat) (target : C) : Res TransferError (CallTransfer V C) :=
  let? _ := validate_widths values widths in
  Ok {| ct_values := values; ct_widths := widths; ct_target := target |}.

Definition new_return {V} (values : list V) (widths : list nat) : Res TransferError (ReturnTransfer V) :=
  let? _ := validate_widths values widths in
  Ok {| rt_values := values; rt_widths := widths |}.

(** ** What a visit does *)

Section RootLaws.
Context {ManagedId : Type}.

(** Visiting a list of identities, stopping at the first refusal. *)
Fixpoint visit_each {St} (ids : list ManagedId) (visit : St -> ManagedId -> St * bool) (s : St) : St * bool :=
  match ids with
  | [] => (s, true)
  | id :: rest => let '(s, more) := visit s id in if more then visit_each rest visit s else (s, false)
  end.

(** The contract of [ManagedRootSource]: the visit runs through the roots in
    order and stops when the visitor refuses. *)
Class RootLaws (T : Type) `{ManagedRootSource ManagedId T} := {
  roots_of : T -> list ManagedId;
  visit_roots_of : forall St (t : T) visit (s : St), visit_managed_roots t visit s = visit_each (roots_of t) visit s;
}.

Lemma visit_each_app {St} l l' visit (s : St) :
  visit_each (l ++ l') visit s = let '(s, more) := visit_each l visit s in if more then visit_each l' visit s else (s, false).
Proof.
  revert s. induction l as [|x l IH]; intros s; simpl; [done|]. destruct (visit s x) as [s' [|]]; [apply IH|done].
Qed.

#[export] Program Instance root_laws_id : RootLaws ManagedId := {| roots_of := fun id => [id] |}.
Next Obligation. intros St t visit s. simpl. unfold visit_managed_roots, visit_id. by destruct (visit s t) as [? [|]]. Qed.

#[export] Program Instance root_laws_unit : RootLaws unit := {| roots_of := fun _ => [] |}.
Next Obligation. done. Qed.

#[export] Program Instance root_laws_option `{RootLaws T} : RootLaws (option T) :=
  {| roots_of := from_option roots_of [] |}.
Next Obligation. intros T ? ? St [t|] visit s; [exact (visit_roots_of St t visit s)|done]. Qed.

#[export] Program Instance root_laws_list `{RootLaws T} : RootLaws (list T) :=
  {| roots_of := fun l => l ≫= roots_of |}.
Next Obligation.
  intros T ? ? St l visit. induction l as [|t l IH]; intros s; [done|]. simpl. rewrite visit_each_app, <- visit_roots_of.
  unfold visit_managed_roots at 1. simpl. destruct (visit_managed_roots t visit s) as [s' [|]]; [apply IH|done].
Qed.

Lemma visit_while_spec `{RootLaws V} {St} (l : list V) visit (s : St) :
  visit_while l visit s true = visit_each (l ≫= roots_of) visit s.
Proof.
  assert (forall s0 : St, visit_while l visit s0 false = (s0, false)) as Hstop by (induction l; simpl; auto).
  revert s Hstop. induction l as [|t l IH]; intros s Hstop; [done|]. simpl.
  rewrite visit_each_app, <- visit_roots_of. destruct (visit_managed_roots t visit s) as [s' [|]].
  - apply IH. intros s0. apply (Hstop s0).
  - apply (Hstop s').
Qed.

(** A frame's roots: slots in order, operands, continuation, declared roots and
    handlers. *)
#[export] Program Instance root_laws_frame `{RootLaws V} `{RootLaws K} `{RootLaws R} `{RootLaws Hd} :
  RootLaws (Frame V K R Hd) :=
  {| roots_of := fun f => (slot_file_values (f_slots f) ≫= roots_of) ++ (unit_stack_values (f_operands f) ≫= roots_of)
       ++ roots_of (f_continuation f) ++ roots_of (f_roots f) ++ roots_of (f_handlers f) |}.
Next Obligation.
  intros V ? ? K ? ? R ? ? Hd ? ? St f visit s. unfold visit_managed_roots at 1, visit_frame.
  rewrite visit_each_app, visit_while_spec. destruct (visit_each _ visit s) as [s1 [|]]; cbn [negb]; [|done].
  rewrite visit_each_app, visit_while_spec. destruct (visit_each _ visit s1) as [s2 [|]]; cbn [negb]; [|done].
  rewrite visit_each_app, <- visit_roots_of.
  destruct (visit_managed_roots (f_continuation f) visit s2) as [s3 [|]]; cbn [negb]; [|done].
  rewrite visit_each_app, <- visit_roots_of. destruct (visit_managed_roots (f_roots f) visit s3) as [s4 [|]]; [|done].
  apply visit_roots_of.
Qed.

(** A stack's roots: frame by frame, from the caller to the current frame. *)
#[export] Program Instance root_laws_frames `{RootLaws F} : RootLaws (FrameStack F) :=
  {| roots_of := fun s => fs_frames s ≫= roots_of |}.
Next Obligation. intros F ? ? St s visit st. exact (visit_roots_of (T:=list F) St (fs_frames s) visit st). Qed.

Lemma visit_each_scan budget ids roots :
  length roots <= budget ->
  visit_each ids (scan_visitor budget) roots =
  if decide (length roots + length ids <= budget) then (roots ++ ids, true)
  else (roots ++ take (budget - length roots) ids, false).
Proof.
  revert roots. induction ids as [|x ids IH]; intros roots Hle; simpl.
  { rewrite decide_True by lia. by rewrite app_nil_r. }
  unfold scan_visitor at 1. case_decide as Hd.
  - rewrite decide_False by lia. by rewrite Hd, Nat.sub_diag, app_nil_r.
  - rewrite IH by (rewrite length_app; simpl; lia). rewrite length_app. simpl.
    destruct (decide (length roots + S (length ids) <= budget)).
    + rewrite decide_True by lia. by rewrite <- app_assoc.
    + rewrite decide_False by lia. rewrite <- app_assoc. simpl.
      replace (budget - length roots) with (S (budget - (length roots + 1))) by lia. done.
Qed.

(** A scan materializes every root in order, or nothing. *)
Lemma scan_roots `{RootLaws T} (source : T) budget :
  scan source budget =
  if decide (length (roots_of source) <= budget) then Ok (roots_of source) else Err (RootBudgetExhausted budget budget).
Proof.
  unfold scan. rewrite visit_roots_of, visit_each_scan by (simpl; lia). simpl. by case_decide.
Qed.
End RootLaws.
