(* ===== verification/MachineDriver.v ===== *)
(** * The iterative driver

    crates/sim-lib-machine/src/driver.rs (with the cleanup stack of
    crates/sim-lib-control/src/unwind.rs): a bounded loop that executes one
    instruction of the current frame at a time through the consumer's policy,
    with variants that publish roots at safepoints, enter handlers and run
    cleanups.  The policy, its fault and transfer types, and the observer are
    parameters; a call of the policy returns its new state and the frame it
    mutated, whether it succeeds or not.  The receipt of a drive is a list; that
    the source reserves room for a step per unit of work beforehand, and aborts
    when the host cannot, is left out. *)

From S2P Require Import Prelude BTree KernelDatum MachineCode MachineAdmission MachineFrame.

(** [MachineFrame]. *)
Class MachineFrame (F : Type) := {
  frame_cursor : F -> CodeCursor;
  set_frame_cursor : F -> CodeCursor -> F;
}.

#[export] Instance frame_machine_frame {V K R H} : MachineFrame (Frame V K R H) :=
  {| frame_cursor := f_cursor; set_frame_cursor := frame_set_cursor |}.

Inductive StepOutcome (F R A Y Int : Type) :=
| StepContinue (next : CodeCursor)
| StepCall (f : F)
| StepReturn (r : R)
| StepRaise (a : A)
| StepYield (y : Y)
| StepInterrupt (i : Int).
Arguments StepContinue {F R A Y Int}.
Arguments StepCall {F R A Y Int}.
Arguments StepReturn {F R A Y Int}.
Arguments StepRaise {F R A Y Int}.
Arguments StepYield {F R A Y Int}.
Arguments StepInterrupt {F R A Y Int}.

Inductive StepKind := KContinue | KCall | KReturn | KRaise | KYield | KInterrupt.

(** [WorkReceipt]: the ordered steps. *)
Definition WorkReceipt (Id : Type) := list (Id * StepKind).

Definition charged {Id} (r : WorkReceipt Id) : nat := length r.

Definition receipt_append {Id} (r later : WorkReceipt Id) : WorkReceipt Id := r ++ later.

Inductive DriveOutcome (Id R A Y Int : Type) :=
| DriveContinue (receipt : WorkReceipt Id)
| DriveReturn (r : R) (receipt : WorkReceipt Id)
| DriveRaise (a : A) (receipt : WorkReceipt Id)
| DriveYield (y : Y) (receipt : WorkReceipt Id)
| DriveInterrupt (i : Int) (receipt : WorkReceipt Id).
Arguments DriveContinue {Id R A Y Int}.
Arguments DriveReturn {Id R A Y Int}.
Arguments DriveRaise {Id R A Y Int}.
Arguments DriveYield {Id R A Y Int}.
Arguments DriveInterrupt {Id R A Y Int}.

Inductive DriveError (Id Origin Fault : Type) :=
| PermitMismatch
| EmptyFrames
| FrameLimit (e : FrameStackError)
| DriveFault (instruction : Id) (location : SourceLocation Origin) (fault : Fault).
Arguments PermitMismatch {Id Origin Fault}.
Arguments EmptyFrames {Id Origin Fault}.
Arguments FrameLimit {Id Origin Fault}.
Arguments DriveFault {Id Origin Fault}.

Inductive SafepointDriveError (E S : Type) :=
| SafepointRootScan (e : RootScanError)
| SafepointRefused (s : S)
| SafepointDrive (e : E).
Arguments SafepointRootScan {E S}.
Arguments SafepointRefused {E S}.
Arguments SafepointDrive {E S}.

Inductive MachineAbrupt (A Int : Type) :=
| AbruptRaise (a : A)
| AbruptInterrupt (i : Int)
| BudgetExhausted
| AbruptFault.
Arguments AbruptRaise {A Int}.
Arguments AbruptInterrupt {A Int}.
Arguments BudgetExhausted {A Int}.
Arguments AbruptFault {A Int}.

Inductive Unwind (R B C E : Type) :=
| UnwindReturn (r : R)
| UnwindBreak (b : B)
| UnwindContinue (c : C)
| UnwindException (e : E)
| UnwindCancelled
| UnwindClosed.
Arguments UnwindReturn {R B C E}.
Arguments UnwindBreak {R B C E}.
Arguments UnwindContinue {R B C E}.
Arguments UnwindException {R B C E}.
Arguments UnwindCancelled {R B C E}.
Arguments UnwindClosed {R B C E}.

Definition MachineUnwind (R A Int : Type) := Unwind R unit unit (MachineAbrupt A Int).

(** [CleanupStack]: callbacks on the world they act on, the last pushed last. *)
Definition CleanupStack (U W : Type) := list (U -> W -> W).

Definition cleanup_push {U W} (s : CleanupStack U W) (c : U -> W -> W) : CleanupStack U W := s ++ [c].

(** [while let Some(cleanup) = self.cleanups.pop()]. *)
Fixpoint unwind_loop {U W} (popped : list (U -> W -> W)) (reason : U) (w : W) : W :=
  match popped with
  | [] => w
  | cleanup :: rest => unwind_loop rest reason (cleanup reason w)
  end.

Definition unwind {U W} (s : CleanupStack U W) (reason : U) (w : W) : W := unwind_loop (rev s) reason w.

Section Driver.
Context {I Id Origin SourceId Datum Symbol ContentId M Rf : Type}.
Context `{OrdKey Id} `{KernelOrigin Origin SourceId} `{!OriginText Origin SourceId} `{InstructionPolicy I Id}.
Context `{KernelDatum Datum Symbol ContentId}.
Context `{pol : !AdmissionPolicy (I:=I) (Id:=Id) (Origin:=Origin) (Datum:=Datum) (Symbol:=Symbol) (M:=M) (R:=Rf)}.
Context {D F R A Y Int Fault : Type} `{MachineFrame F}.

(** [InstructionDriverPolicy::step]. *)
Context (policy_step : D -> I -> F -> D * F * (Fault + StepOutcome F R A Y Int)).

Abbreviation code_t := (LocatedCode I Id Origin).
Abbreviation description := (MachineDescription (I:=I) (Id:=Id) (Origin:=Origin) (M:=M)).
Abbreviation outcome := (DriveOutcome Id R A Y Int).
Abbreviation drive_error := (DriveError Id Origin Fault).

(** The driver's policy and the frames it drives. *)
Record Machine := {
  m_policy : D;
  m_frames : FrameStack F;
}.
Implicit Types m : Machine.

Definition with_frames m (frames : FrameStack F) : Machine := {| m_policy := m_policy m; m_frames := frames |}.

(** One turn of the loop of [drive]: the receipt so far, or what is returned. *)
Definition drive_step (code : code_t) (steps : WorkReceipt Id) m : Res drive_error (outcome + WorkReceipt Id) * Machine :=
  match current (m_frames m) with
  | None => (Err EmptyFrames, m)
  | Some frame =>
    match lc_instructions code !! frame_cursor frame with
    | None => (Panic, m)
    | Some located =>
      let id := li_id located in
      let '(policy, frame, result) := policy_step (m_policy m) (li_instruction located) frame in
      let frames := set_current (m_frames m) frame in
      let m := {| m_policy := policy; m_frames := frames |} in
      match result with
      | inl fault => (Err (DriveFault id (li_location located) fault), m)
      | inr (StepContinue next) =>
        (Ok (inr (steps ++ [(id, KContinue)])), with_frames m (set_current frames (set_frame_cursor frame next)))
      | inr (StepCall callee) =>
        match frame_push frames callee with
        | Ok frames => (Ok (inr (steps ++ [(id, KCall)])), with_frames m frames)
        | Err e => (Err (FrameLimit e), m)
        | Panic => (Panic, m)
        | NoFuel => (NoFuel, m)
        end
      | inr (StepReturn value) =>
        let frames := (frame_pop frames).2 in
        match current frames with
        | None => (Ok (inl (DriveReturn value (steps ++ [(id, KReturn)]))), with_frames m frames)
        | Some _ => (Ok (inr (steps ++ [(id, KReturn)])), with_frames m frames)
        end
      | inr (StepRaise value) => (Ok (inl (DriveRaise value (steps ++ [(id, KRaise)]))), m)
      | inr (StepYield value) => (Ok (inl (DriveYield value (steps ++ [(id, KYield)]))), m)
      | inr (StepInterrupt value) => (Ok (inl (DriveInterrupt value (steps ++ [(id, KInterrupt)]))), m)
      end
    end
  end.

Fixpoint drive_loop (code : code_t) (work : nat) (steps : WorkReceipt Id) m : Res drive_error outcome * Machine :=
  match work with
  | 0 => (Ok (DriveContinue steps), m)
  | S work =>
    match drive_step code steps m with
    | (Ok (inr steps), m) => drive_loop code work steps m
    | (Ok (inl out), m) => (Ok out, m)
    | (Err e, m) => (Err e, m)
    | (Panic, m) => (Panic, m)
    | (NoFuel, m) => (NoFuel, m)
    end
  end.

(** The checks that precede every drive. *)
Definition drive_guard (d : description) (permit : ContentId) m : Res drive_error unit :=
  match accepts permit d with
  | Ok true => match current (m_frames m) with None => Err EmptyFrames | Some _ => Ok tt end
  | Ok false => Err PermitMismatch
  | Err _ => Err PermitMismatch
  | Panic => Panic
  | NoFuel => NoFuel
  end.

Definition drive (d : description) (permit : ContentId) m (work : nat) : Res drive_error outcome * Machine :=
  match drive_guard d permit m with
  | Ok _ => drive_loop (md_code d) work [] m
  | Err e => (Err e, m)
  | Panic => (Panic, m)
  | NoFuel => (NoFuel, m)
  end.

(** The receipt appended to an earlier one. *)
Definition prepend (combined : WorkReceipt Id) (out : outcome) : outcome :=
  match out with
  | DriveContinue r => DriveContinue (receipt_append combined r)
  | DriveReturn v r => DriveReturn v (receipt_append combined r)
  | DriveRaise v r => DriveRaise v (receipt_append combined r)
  | DriveYield v r => DriveYield v (receipt_append combined r)
  | DriveInterrupt v r => DriveInterrupt v (receipt_append combined r)
  end.

(** ** Safepoints *)

Section Safepoints.
Context {ManagedId S O : Type} `{ManagedRootSource ManagedId F}.
Context (observe : O -> list ManagedId -> O * Res S unit).
Abbreviation safepoint_error := (SafepointDriveError drive_error S).

(** Publishing a root view before a safepoint instruction. *)
Definition publish (code : code_t) (root_budget : nat) m (o : O) : Res safepoint_error unit * O :=
  match current (m_frames m) with
  | None => (Err (SafepointDrive EmptyFrames), o)
  | Some frame =>
    match lc_instructions code !! frame_cursor frame with
    | None => (Panic, o)
    | Some located =>
      if li_safepoint located then
        match scan (m_frames m) root_budget with
        | Ok roots => let '(o, r) := observe o roots in (map_err SafepointRefused r, o)
        | Err e => (Err (SafepointRootScan e), o)
        | Panic => (Panic, o)
        | NoFuel => (NoFuel, o)
        end
      else (Ok tt, o)
    end
  end.

Fixpoint safepoint_loop (d : description) (permit : ContentId) (root_budget work : nat)
    (combined : WorkReceipt Id) m (o : O) : Res safepoint_error outcome * Machine * O :=
  match work with
  | 0 => (Ok (DriveContinue combined), m, o)
  | Datatypes.S work =>
    match publish (md_code d) root_budget m o with
    | (Ok _, o) =>
      match drive d permit m 1 with
      | (Ok (DriveContinue receipt), m) => safepoint_loop d permit root_budget work (receipt_append combined receipt) m o
      | (Ok out, m) => (Ok (prepend combined out), m, o)
      | (Err e, m) => (Err (SafepointDrive e), m, o)
      | (Panic, m) => (Panic, m, o)
      | (NoFuel, m) => (NoFuel, m, o)
      end
    | (Err e, o) => (Err e, m, o)
    | (Panic, o) => (Panic, m, o)
    | (NoFuel, o) => (NoFuel, m, o)
    end
  end.

Definition drive_with_safepoints (d : description) (permit : ContentId) m (work root_budget : nat) (o : O)
  : Res safepoint_error outcome * Machine * O :=
  match drive_guard d permit m with
  | Ok _ => safepoint_loop d permit root_budget work [] m o
  | Err e => (Err (SafepointDrive e), m, o)
  | Panic => (Panic, m, o)
  | NoFuel => (NoFuel, m, o)
  end.
End Safepoints.

(** ** Protected regions *)

(** [left] is the work still allowed; [left -= receipt.charged()] aborts below
    zero, and the fuel bounds the [while] loop. *)
Fixpoint protected_loop (fuel : nat) (d : description) (permit : ContentId) (left_ : nat)
    (combined : WorkReceipt Id) m : Res drive_error outcome * Machine :=
  match fuel with
  | 0 => (NoFuel, m)
  | S fuel =>
    if decide (left_ = 0) then (Ok (DriveContinue combined), m)
    else
      match current (m_frames m) with
      | None => (Err EmptyFrames, m)
      | Some frame =>
        let cursor := frame_cursor frame in
        match drive d permit m 1 with
        | (Ok (DriveRaise value receipt), m) =>
          if (left_ <? charged receipt)%nat then (Panic, m)
          else
            let left_ := left_ - charged receipt in
            let combined := receipt_append combined receipt in
            match innermost_protected_region (md_code d) cursor with
            | Some region =>
              match current (m_frames m) with
              | Some raising =>
                protected_loop fuel d permit left_ combined
                  (with_frames m (set_current (m_frames m) (set_frame_cursor raising (pr_handler region))))
              | None => (Panic, m)
              end
            | None => (Ok (DriveRaise value combined), m)
            end
        | (Ok (DriveContinue receipt), m) =>
          if (left_ <? charged receipt)%nat then (Panic, m)
          else
            let left_ := left_ - charged receipt in
            let combined := receipt_append combined receipt in
            if decide (left_ = 0) then (Ok (DriveContinue combined), m)
            else protected_loop fuel d permit left_ combined m
        | (Ok out, m) => (Ok (prepend combined out), m)
        | (Err e, m) => (Err e, m)
        | (Panic, m) => (Panic, m)
        | (NoFuel, m) => (NoFuel, m)
        end
      end
  end.

(** Every turn charges one instruction, so [work + 1] turns are enough. *)
Definition drive_protected (d : description) (permit : ContentId) m (work : nat) : Res drive_error outcome * Machine :=
  protected_loop (S work) d permit work [] m.

(** ** Cleanups *)

(** The reason delivered to the cleanups, if they are run. *)
Definition unwind_reason (out : outcome) : option (MachineUnwind R A Int) :=
  match out with
  | DriveReturn value _ => Some (UnwindReturn value)
  | DriveRaise value _ => Some (UnwindException (AbruptRaise value))
  | DriveInterrupt value _ => Some (UnwindException (AbruptInterrupt value))
  | DriveContinue _ => Some (UnwindException BudgetExhausted)
  | DriveYield _ _ => None
  end.

Definition drive_with_cleanup {W} (d : description) (permit : ContentId) m (work : nat)
    (cleanups : CleanupStack (MachineUnwind R A Int) W) (w : W) : Res drive_error outcome * Machine * W :=
  match drive_protected d permit m work with
  | (Ok out, m) =>
    match unwind_reason out with
    | Some reason => (Ok out, m, unwind cleanups reason w)
    | None => (Ok out, m, w)
    end
  | (Err e, m) => (Err e, m, unwind cleanups (UnwindException AbruptFault) w)
  | (Panic, m) => (Panic, m, w)
  | (NoFuel, m) => (NoFuel, m, w)
  end.

(** ** Checkpoints *)

Record ContinuationEvidence := {
  ev_content_id : ContentId;
  ev_receipt : WorkReceipt Id;
}.

Record MachineCheckpoint := {
  cp_frames : FrameStack F;
  cp_evidence : ContinuationEvidence;
}.

Definition checkpoint_new (frames : FrameStack F) (permit : ContentId) (receipt : WorkReceipt Id) : MachineCheckpoint :=
  {| cp_frames := frames; cp_evidence := {| ev_content_id := permit; ev_receipt := receipt |} |}.

Definition checkpoint_resume (c : MachineCheckpoint) (permit : ContentId) : Res MachineCheckpoint (FrameStack F * WorkReceipt Id) :=
  if decide (ev_content_id (cp_evidence c) = permit)
  then Ok (cp_frames c, ev_receipt (cp_evidence c))
  else Err c.
(** ** Receipts *)

Definition receipt_of (out : outcome) : WorkReceipt Id :=
  match out with
  | DriveContinue r | DriveReturn _ r | DriveRaise _ r | DriveYield _ r | DriveInterrupt _ r => r
  end.

Definition is_continue (out : outcome) : bool := match out with DriveContinue _ => true | _ => false end.

(** A turn's result under an earlier receipt. *)
Definition prepend_turn (pre : WorkReceipt Id) (x : outcome + WorkReceipt Id) : outcome + WorkReceipt Id :=
  match x with inl out => inl (prepend pre out) | inr steps => inr (pre ++ steps) end.

Lemma drive_step_prepend code steps m :
  drive_step code steps m = (rmap (prepend_turn steps) (drive_step code [] m).1, (drive_step code [] m).2).
Proof.
  unfold drive_step. destruct (current (m_frames m)) as [frame|]; [|done].
  destruct (lc_instructions code !! frame_cursor frame) as [located|]; [|done].
  destruct (policy_step (m_policy m) (li_instruction located) frame) as [[policy frame'] [fault|out]]; [done|].
  destruct out; try done.
  - by destruct (frame_push _ _).
  - by destruct (current _).
Qed.

(** One turn charges one step, and keeps a current frame when it goes on. *)
Lemma drive_step_charge code m :
  match (drive_step code [] m).1 with
  | Ok (inr steps) => charged steps = 1 /\ is_Some (current (m_frames (drive_step code [] m).2))
  | Ok (inl out) => charged (receipt_of out) = 1 /\ is_continue out = false
  | _ => True
  end.
Proof.
  unfold drive_step. destruct (current (m_frames m)) as [frame|] eqn:Ec; [|done].
  destruct (lc_instructions code !! frame_cursor frame) as [located|]; [|done].
  destruct (policy_step (m_policy m) (li_instruction located) frame) as [[policy frame'] [fault|out]]; [done|].
  assert (forall f, current (set_current (m_frames m) f) = Some f) as Hset.
  { intros f. unfold current, set_current in *. destruct (fs_frames (m_frames m)); [done|]. simpl. apply last_snoc. }
  destruct out as [next|callee|r|a|y|i]; try done; simpl.
  - split; [done|]. unfold set_current at 1. destruct (fs_frames (set_current (m_frames m) frame')) eqn:E.
    + specialize (Hset frame'). unfold current in Hset. by rewrite E in Hset.
    + unfold current. simpl. rewrite last_snoc. eauto.
  - unfold frame_push. destruct (_ <=? _)%nat; simpl; [done|]. split; [done|]. unfold current. simpl. rewrite last_snoc. eauto.
  - destruct (current {| fs_frames := removelast _; fs_limit := _ |}) eqn:E; simpl; [|done]. rewrite E. eauto.
Qed.

Lemma prepend_nil out : prepend [] out = out.
Proof. by destruct out. Qed.

Lemma prepend_app pre pre' out : prepend (pre ++ pre') out = prepend pre (prepend pre' out).
Proof. destruct out; simpl; unfold receipt_append; by rewrite <- app_assoc. Qed.

(** A raise leaves the raising frame in place. *)
Lemma raise_current d permit m v r m' :
  drive d permit m 1 = (Ok (DriveRaise v r), m') -> is_Some (current (m_frames m')).
Proof.
  unfold drive. destruct (drive_guard d permit m); try done. simpl. unfold drive_step.
  destruct (current (m_frames m)) as [frame|] eqn:Ec; [|done].
  destruct (lc_instructions (md_code d) !! frame_cursor frame) as [located|]; [|done].
  destruct (policy_step (m_policy m) (li_instruction located) frame) as [[policy frame'] [fault|out]]; [done|].
  destruct out; simpl; try done.
  - by destruct (frame_push _ _).
  - by destruct (current {| fs_frames := removelast _; fs_limit := _ |}).
  - intros [= <- <- <-]. unfold current, set_current in *. simpl. destruct (fs_frames (m_frames m)); [done|].
    simpl. rewrite last_snoc. eauto.
Qed.

Lemma drive_loop_prepend code work : forall steps m,
  drive_loop code work steps m = (rmap (prepend steps) (drive_loop code work [] m).1, (drive_loop code work [] m).2).
Proof.
  induction work as [|work IH]; intros steps m; simpl; [unfold receipt_append; by rewrite app_nil_r|].
  rewrite (drive_step_prepend code steps m).
  destruct (drive_step code [] m) as [[[out|steps']| | |] m']; simpl; [done| |done..].
  rewrite (IH (steps ++ steps') m'), (IH steps' m'). simpl.
  destruct (drive_loop code work [] m') as [[out| | |] m'']; simpl; [|done..]. by rewrite prepend_app.
Qed.

(** A loop of [a + b] turns is a loop of [a] turns and, when it goes on, one of
    [b] turns. *)
Lemma drive_loop_add code a b : forall steps m,
  drive_loop code (a + b) steps m =
  match drive_loop code a steps m with
  | (Ok (DriveContinue steps'), m') => drive_loop code b steps' m'
  | r => r
  end.
Proof.
  induction a as [|a IH]; intros steps m; simpl; [done|].
  destruct (drive_step code steps m) as [[[out|steps']| | |] m'] eqn:E; try done.
  pose proof (drive_step_charge code m) as Hc. rewrite drive_step_prepend in E.
  destruct (drive_step code [] m) as [[[out'|?]| | |] m'']; simplify_eq/=. destruct Hc as [_ Hc]. by destruct out'.
Qed.

(** The work charged by a loop: all of it when the loop goes on, at least one
    step and no more than the work otherwise. *)
Lemma drive_loop_charge code work m :
  match (drive_loop code work [] m).1 with
  | Ok (DriveContinue receipt) => charged receipt = work /\
      (is_Some (current (m_frames m)) -> is_Some (current (m_frames (drive_loop code work [] m).2)))
  | Ok out => 1 <= charged (receipt_of out) <= work
  | _ => True
  end.
Proof.
  revert m. induction work as [|work IH]; intros m; simpl; [done|].
  pose proof (drive_step_charge code m) as Hc.
  destruct (drive_step code [] m) as [[[out|steps]| | |] m']; simpl in *; try done.
  { destruct Hc as [Hc Hn]. destruct out; simpl in *; try done; lia. }
  destruct Hc as [Hc Hcur]. rewrite drive_loop_prepend. specialize (IH m').
  destruct (drive_loop code work [] m') as [[out| | |] m'']; simpl in *; try done. unfold charged in *.
  destruct out; simpl in *; unfold receipt_append; rewrite length_app; [split; [lia|by intros _; apply IH]|lia..].
Qed.
(** The guard does not look past the current frame. *)
Lemma drive_guard_frames d permit m m' :
  drive_guard d permit m = Ok tt -> is_Some (current (m_frames m')) -> drive_guard d permit m' = Ok tt.
Proof.
  unfold drive_guard. destruct (accepts permit d) as [[|]| | |]; try done.
  intros _ [f ->]. done.
Qed.

Lemma drive_guard_current d permit m : drive_guard d permit m = Ok tt -> is_Some (current (m_frames m)).
Proof. unfold drive_guard. destruct (accepts permit d) as [[|]| | |]; try done. by destruct (current _). Qed.

Lemma drive_guard_unit d permit m u : drive_guard d permit m = Ok u -> drive_guard d permit m = Ok tt.
Proof. by destruct u. Qed.

(** Driving [a + b] instructions is driving [a] and, when frames are still
    runnable, [b] more under the receipt of the first slice. *)
Lemma drive_add d permit m a b :
  drive d permit m (a + b) =
  match drive d permit m a with
  | (Ok (DriveContinue receipt), m') => (rmap (prepend receipt) (drive d permit m' b).1, (drive d permit m' b).2)
  | r => r
  end.
Proof.
  unfold drive at 1 2. destruct (drive_guard d permit m) as [[]| | |] eqn:Eg; try done.
  rewrite drive_loop_add. pose proof (drive_loop_charge (md_code d) a m) as Hc.
  destruct (drive_loop (md_code d) a [] m) as [[out| | |] m']; try done.
  destruct out as [receipt| | | |]; try done. simpl in Hc. destruct Hc as [_ Hcur].
  unfold drive. rewrite (drive_guard_frames d permit m m' Eg) by eauto using drive_guard_current.
  apply drive_loop_prepend.
Qed.

(** Bounded driving is metered exactly and can be sliced at will: a drive
    that stops for lack of work has charged every unit of it and leaves a frame
    to run; any other outcome has charged at least one and at most the allowed
    work; and driving for [a + b] is driving for [a] and then, if work ran out,
    for [b], with the receipts appended in order and the same final state. *)
Theorem drive_slices d permit m a b :
  drive d permit m (a + b) =
  match drive d permit m a with
  | (Ok (DriveContinue receipt), m') => (rmap (prepend receipt) (drive d permit m' b).1, (drive d permit m' b).2)
  | r => r
  end /\
  match (drive d permit m a).1 with
  | Ok (DriveContinue receipt) => charged receipt = a /\ is_Some (current (m_frames (drive d permit m a).2))
  | Ok out => 1 <= charged (receipt_of out) <= a
  | _ => True
  end.
Proof.
  split; [apply drive_add|]. unfold drive. destruct (drive_guard d permit m) as [[]| | |] eqn:Eg; try done.
  pose proof (drive_loop_charge (md_code d) a m) as Hc.
  destruct (drive_loop (md_code d) a [] m) as [[out| | |] m']; try done. simpl in *.
  destruct out; try done. destruct Hc as [Hc Hcur]. eauto using drive_guard_current.
Qed.

(** ** Safety *)

(** Every frame stands on an instruction, within the depth limit. *)
Definition frames_ok (code : code_t) (s : FrameStack F) : Prop :=
  Forall (fun f => frame_cursor f < code_len code) (fs_frames s) /\ length (fs_frames s) <= fs_limit s.

(** A policy that only hands out cursors of the code it runs. *)
Class PolicyCursors (code : code_t) : Prop := {
  set_cursor_law : forall f c, frame_cursor (set_frame_cursor f c) = c;
  policy_cursors : forall p ins f p' f' res, policy_step p ins f = (p', f', res) ->
    frame_cursor f < code_len code ->
    frame_cursor f' < code_len code /\
    match res with
    | inr (StepContinue next) => next < code_len code
    | inr (StepCall callee) => frame_cursor callee < code_len code
    | _ => True
    end;
}.

Lemma set_current_ok code s f :
  frames_ok code s -> frame_cursor f < code_len code -> frames_ok code (set_current s f).
Proof.
  unfold frames_ok, set_current. destruct s as [frames limit]. simpl. intros [Hall Hlen] Hf.
  destruct frames as [|x l] using rev_ind; [done|]. rewrite removelast_last. rewrite length_app in Hlen.
  apply Forall_app in Hall as [Hl _]. simpl in Hlen.
  replace (match l ++ [x] with [] => _ | _ => _ end) with {| fs_frames := l ++ [f]; fs_limit := limit |} by by destruct l.
  simpl. rewrite length_app. simpl. split; [apply Forall_app; by rewrite Forall_singleton|lia].
Qed.

Lemma frame_pop_ok code s : frames_ok code s -> frames_ok code (frame_pop s).2.
Proof.
  unfold frames_ok, frame_pop. destruct s as [frames limit]. simpl. intros [Hall Hlen].
  destruct frames as [|g gs] using rev_ind; [done|]. rewrite removelast_last. rewrite length_app in Hlen.
  apply Forall_app in Hall as [Hl _]. simpl in Hlen. split; [done|lia].
Qed.

Lemma frame_push_ok code s f s' :
  frames_ok code s -> frame_cursor f < code_len code -> frame_push s f = Ok s' -> frames_ok code s'.
Proof.
  unfold frames_ok, frame_push. intros [Hall Hlen] Hf. destruct (Nat.leb_spec (fs_limit s) (length (fs_frames s))); [done|].
  intros [= <-]. simpl. rewrite length_app. simpl. split; [|lia]. apply Forall_app. by rewrite Forall_singleton.
Qed.

Lemma current_ok code s f : frames_ok code s -> current s = Some f -> frame_cursor f < code_len code.
Proof.
  intros [Hall _] Hc. apply last_Some_elem_of in Hc. rewrite Forall_forall in Hall. auto.
Qed.

Lemma drive_step_ok code m `{!PolicyCursors code} :
  frames_ok code (m_frames m) ->
  safe (drive_step code [] m).1 /\ frames_ok code (m_frames (drive_step code [] m).2).
Proof.
  intros Hok. unfold drive_step. destruct (current (m_frames m)) as [frame|] eqn:Ec; [|done].
  pose proof (current_ok _ _ _ Hok Ec) as Hcur.
  destruct (lc_instructions code !! frame_cursor frame) as [located|] eqn:El.
  2:{ apply lookup_ge_None in El. unfold code_len in Hcur. lia. }
  destruct (policy_step (m_policy m) (li_instruction located) frame) as [[policy frame'] res] eqn:Es.
  destruct (policy_cursors _ _ _ _ _ _ Es Hcur) as [Hf' Hres].
  assert (frames_ok code (set_current (m_frames m) frame')) as Hset by by apply set_current_ok.
  destruct res as [fault|[next|callee|r|a|y|i]]; simpl; try done.
  - split; [done|]. apply set_current_ok; [done|]. by rewrite set_cursor_law.
  - destruct (frame_push _ callee) as [s'| | |] eqn:E; simpl; [split; [done|]; by eapply frame_push_ok|done|..];
      unfold frame_push in E; by destruct (_ <=? _)%nat.
  - pose proof (frame_pop_ok _ _ Hset). by destruct (current {| fs_frames := removelast _; fs_limit := _ |}).
Qed.

Lemma drive_loop_ok code work `{!PolicyCursors code} : forall m,
  frames_ok code (m_frames m) ->
  safe (drive_loop code work [] m).1 /\ frames_ok code (m_frames (drive_loop code work [] m).2).
Proof.
  induction work as [|work IH]; intros m Hok; simpl; [done|].
  pose proof (drive_step_ok code m Hok) as [Hs Hok'].
  destruct (drive_step code [] m) as [[[out|steps]| | |] m']; simpl in *; try done.
  rewrite drive_loop_prepend. simpl. specialize (IH m' Hok'). by destruct (drive_loop code work [] m') as [[| | |] ?].
Qed.
(** ** Protected driving *)

Definition prepend_result (pre : WorkReceipt Id) (r : Res drive_error outcome * Machine) : Res drive_error outcome * Machine :=
  (rmap (prepend pre) r.1, r.2).

Lemma prepend_result_app pre pre' r : prepend_result (pre ++ pre') r = prepend_result pre (prepend_result pre' r).
Proof. destruct r as [[out| | |] m]; try done. unfold prepend_result. simpl. by rewrite prepend_app. Qed.

Lemma prepend_result_nil r : prepend_result [] r = r.
Proof. destruct r as [[out| | |] m]; try done. unfold prepend_result. simpl. by rewrite prepend_nil. Qed.

(** A drive of one instruction charges one. *)
Lemma drive_one_charge d permit m out m' : drive d permit m 1 = (Ok out, m') -> charged (receipt_of out) = 1.
Proof.
  unfold drive. destruct (drive_guard d permit m); try done. simpl. pose proof (drive_step_charge (md_code d) m) as Hc.
  destruct (drive_step (md_code d) [] m) as [[[o|steps]| | |] m1]; intros [= <- <-]; apply Hc.
Qed.

Lemma protected_loop_prepend d permit fuel : forall left_ combined m,
  protected_loop fuel d permit left_ combined m = prepend_result combined (protected_loop fuel d permit left_ [] m).
Proof.
  induction fuel as [|fuel IH]; intros left_ combined m; [done|]. simpl.
  case_decide; [unfold prepend_result; simpl; unfold receipt_append; by rewrite app_nil_r|].
  destruct (current (m_frames m)) as [frame|]; [|done].
  destruct (drive d permit m 1) as [[out| | |] m']; try done.
  destruct out as [r|v r|v r|v r|v r]; try done; destruct (_ <? _)%nat; try done.
  - case_decide; [done|]. unfold receipt_append at 1. rewrite (IH _ (combined ++ r)), (IH _ (receipt_append [] r)).
    apply prepend_result_app.
  - destruct (innermost_protected_region (md_code d) (frame_cursor frame)); [|done].
    destruct (current (m_frames m')); [|done]. unfold receipt_append at 1.
    rewrite (IH _ (combined ++ r)), (IH _ (receipt_append [] r)). apply prepend_result_app.
Qed.

(** Enough fuel is enough. *)
Lemma protected_loop_fuel d permit fuel : forall left_ combined m,
  left_ < fuel -> protected_loop fuel d permit left_ combined m = protected_loop (S left_) d permit left_ combined m.
Proof.
  induction fuel as [|fuel IH]; intros left_ combined m Hlt; [lia|]. simpl.
  case_decide as Hz; [done|]. destruct (current (m_frames m)) as [frame|]; [|done].
  destruct (drive d permit m 1) as [[out| | |] m'] eqn:Ed; try done.
  apply drive_one_charge in Ed. destruct out as [r|v r|v r|v r|v r]; try done; simpl in Ed; rewrite Ed.
  - destruct (_ <? _)%nat; [done|]. case_decide; [done|].
    rewrite (IH (left_ - 1)) by lia. by replace (S (left_ - 1)) with left_ by lia.
  - destruct (_ <? _)%nat; [done|]. destruct (innermost_protected_region _ _); [|done].
    destruct (current (m_frames m')); [|done].
    rewrite (IH (left_ - 1)) by lia. by replace (S (left_ - 1)) with left_ by lia.
Qed.

(** The state in which a handler starts. *)
Definition enter_handler m (raising : F) (region : ProtectedRegion) : Machine :=
  with_frames m (set_current (m_frames m) (set_frame_cursor raising (pr_handler region))).

(** One turn of the protected loop. *)
Lemma drive_protected_S d permit m work :
  drive_protected d permit m (S work) =
  match current (m_frames m) with
  | None => (Err EmptyFrames, m)
  | Some frame =>
    match drive d permit m 1 with
    | (Ok (DriveRaise value receipt), m') =>
      match innermost_protected_region (md_code d) (frame_cursor frame) with
      | Some region =>
        match current (m_frames m') with
        | Some raising => prepend_result receipt (drive_protected d permit (enter_handler m' raising region) work)
        | None => (Panic, m')
        end
      | None => (Ok (DriveRaise value receipt), m')
      end
    | (Ok (DriveContinue receipt), m') => prepend_result receipt (drive_protected d permit m' work)
    | r => r
    end
  end.
Proof.
  unfold drive_protected. remember (S work) as w eqn:Hw. simpl. rewrite decide_False by lia.
  destruct (current (m_frames m)) as [frame|]; [|done].
  destruct (drive d permit m 1) as [[out| | |] m'] eqn:Ed; try done. apply drive_one_charge in Ed.
  destruct out as [r|v r|v r|v r|v r]; try done; simpl in Ed; rewrite Ed;
    (destruct (Nat.ltb_spec w 1) as [|_]; [lia|]); replace (w - 1) with work by lia; subst w.
  - case_decide as Hz; [subst; unfold prepend_result; simpl; unfold receipt_append; by rewrite app_nil_r|].
    rewrite protected_loop_prepend. done.
  - destruct (innermost_protected_region _ _) as [region|]; [|done].
    destruct (current (m_frames m')) as [raising|]; [|done]. rewrite protected_loop_prepend. done.
Qed.
(** Driving one instruction and then the rest. *)
Lemma drive_S d permit m work :
  drive d permit m (S work) =
  match drive d permit m 1 with
  | (Ok (DriveContinue receipt), m') => prepend_result receipt (drive d permit m' work)
  | r => r
  end.
Proof. apply (drive_add d permit m 1 work). Qed.

(** A stretch without raises is driven as usual. *)
Lemma protected_continue d permit n k : forall m receipt m',
  drive d permit m k = (Ok (DriveContinue receipt), m') ->
  drive_protected d permit m (k + n) = prepend_result receipt (drive_protected d permit m' n).
Proof.
  induction k as [|k IH]; intros m receipt m' Hd.
  { unfold drive in Hd. destruct (drive_guard d permit m); try done. simplify_eq/=. by rewrite prepend_result_nil. }
  rewrite drive_S in Hd. simpl. rewrite drive_protected_S.
  destruct (current (m_frames m)) as [frame|] eqn:Ec.
  2:{ unfold drive, drive_guard in Hd. rewrite Ec in Hd. by destruct (accepts permit d) as [[|]| | |]. }
  destruct (drive d permit m 1) as [[[r|?|?|?|?]| | |] m1]; try done.
  destruct (drive d permit m1 k) as [[[r'| | | |]| | |] m2] eqn:E2; try done.
  unfold prepend_result in Hd. simpl in Hd. injection Hd as <- <-.
  rewrite (IH _ _ _ E2). unfold receipt_append. by rewrite prepend_result_app.
Qed.

(** Going on leaves the guard satisfied. *)
Lemma drive_one_guard d permit m r m' :
  drive_guard d permit m = Ok tt -> drive d permit m 1 = (Ok (DriveContinue r), m') -> drive_guard d permit m' = Ok tt.
Proof.
  intros Hg. unfold drive. rewrite Hg. pose proof (drive_loop_charge (md_code d) 1 m) as Hc.
  intros Hd. rewrite Hd in Hc. destruct Hc as [_ Hcur]. eauto using drive_guard_frames, drive_guard_current.
Qed.

Lemma protected_unraised d permit work : forall m,
  0 < work -> (forall v r, (drive d permit m work).1 <> Ok (DriveRaise v r)) ->
  drive_guard d permit m = Ok tt -> drive_protected d permit m work = drive d permit m work.
Proof.
  induction work as [|work IH]; intros m Hpos Hn Hg; [lia|].
  rewrite drive_protected_S, (drive_S _ _ _ work). rewrite (drive_S _ _ _ work) in Hn.
  destruct (drive_guard_current d permit m Hg) as [frame ->].
  destruct (drive d permit m 1) as [[[r|v r|v r|v r|v r]| | |] m'] eqn:Ed; try reflexivity; [|by destruct (Hn v r)].
  f_equal. pose proof (drive_one_guard _ _ _ _ _ Hg Ed) as Hg'. destruct work as [|work].
  - unfold drive_protected, drive. by rewrite Hg'.
  - apply IH; [lia| |done].
    intros v' r' Heq. apply (Hn v' (r ++ r')). unfold prepend_result. simpl. by rewrite Heq.
Qed.

(** C20: Protected driving is ordinary driving that resumes at the innermost
    handler.  A drive without a raise is driven as usual.  When instruction
    [k + 1] raises, the raise stays in the receipt: with no region around the
    raising instruction it is the outcome; otherwise the raising frame moves to
    the handler of the innermost region and the rest of the work is driven from
    there. *)
Theorem drive_protected_spec d permit m :
  drive_guard d permit m = Ok tt ->
  (forall work, 0 < work -> (forall v r, (drive d permit m work).1 <> Ok (DriveRaise v r)) ->
     drive_protected d permit m work = drive d permit m work) /\
  (forall k n receipt m1 frame value raised m2,
     drive d permit m k = (Ok (DriveContinue receipt), m1) -> current (m_frames m1) = Some frame ->
     drive d permit m1 1 = (Ok (DriveRaise value raised), m2) ->
     match innermost_protected_region (md_code d) (frame_cursor frame) with
     | None => drive_protected d permit m (k + S n) = (Ok (DriveRaise value (receipt ++ raised)), m2)
     | Some region => exists raising, current (m_frames m2) = Some raising /\
         drive_protected d permit m (k + S n) =
         prepend_result (receipt ++ raised) (drive_protected d permit (enter_handler m2 raising region) n)
     end).
Proof.
  intros Hg. split; [intros; by apply protected_unraised|].
  intros k n receipt m1 frame value raised m2 Hk Hc Hr.
  rewrite (protected_continue d permit (S n) k m receipt m1 Hk), drive_protected_S, Hc, Hr.
  destruct (innermost_protected_region (md_code d) (frame_cursor frame)) as [region|]; [|done].
  assert (is_Some (current (m_frames m2))) as [raising Hraise] by by eapply raise_current.
  exists raising. split; [done|]. by rewrite Hraise, prepend_result_app.
Qed.
(** ** Safety of the drives *)

Lemma innermost_elem (code : code_t) cursor r : innermost_protected_region code cursor = Some r -> r ∈ lc_regions code.
Proof.
  unfold innermost_protected_region. destruct (filter _ _) as [|r0 l] eqn:E; [done|]. intros [= <-].
  assert (max_by_start r0 l ∈ r0 :: l) as Hin.
  { clear E. revert r0. induction l as [|y l IH]; intros r0; simpl; [left|].
    destruct (_ <=? _)%nat; [right; apply IH|]. specialize (IH r0). set_solver. }
  rewrite <- E in Hin. by apply list_elem_of_filter in Hin as [_ ?].
Qed.

Lemma drive_guard_safe d permit m : safe (accepts permit d) -> safe (drive_guard d permit m).
Proof. unfold drive_guard. destruct (accepts permit d) as [[|]| | |]; try done. by destruct (current _). Qed.

Lemma drive_safe d permit m work `{!PolicyCursors (md_code d)} :
  safe (accepts permit d) -> frames_ok (md_code d) (m_frames m) ->
  safe (drive d permit m work).1 /\ frames_ok (md_code d) (m_frames (drive d permit m work).2).
Proof.
  intros Ha Hok. unfold drive. pose proof (drive_guard_safe d permit m Ha).
  destruct (drive_guard d permit m); try done. by apply drive_loop_ok.
Qed.

Lemma prepend_result_safe pre r : safe r.1 -> safe (prepend_result pre r).1.
Proof. by destruct r as [[| | |] ?]. Qed.

Lemma drive_protected_safe d permit work `{!PolicyCursors (md_code d)} :
  safe (accepts permit d) -> Forall (fun r => pr_handler r < code_len (md_code d)) (lc_regions (md_code d)) ->
  forall m, frames_ok (md_code d) (m_frames m) ->
  safe (drive_protected d permit m work).1 /\ frames_ok (md_code d) (m_frames (drive_protected d permit m work).2) /\
  match (drive_protected d permit m work).1 with Ok out => charged (receipt_of out) <= work | _ => True end.
Proof.
  intros Ha Hh. induction work as [|work IH]; intros m Hok; [split_and!; [done|done|simpl; lia]|]. rewrite drive_protected_S.
  destruct (current (m_frames m)) as [frame|]; [|by split_and!].
  pose proof (drive_safe d permit m 1 Ha Hok) as [Hs Hok']. pose proof (drive_one_charge d permit m) as Hc.
  pose proof (raise_current d permit m) as Hraise.
  assert (forall r m', charged r = 1 -> frames_ok (md_code d) (m_frames m') ->
    let res := prepend_result r (drive_protected d permit m' work) in
    safe res.1 /\ frames_ok (md_code d) (m_frames res.2) /\
    match res.1 with Ok out => charged (receipt_of out) <= S work | _ => True end) as Hrec.
  { intros r m' Hr Hm'. destruct (IH m' Hm') as (Hs' & Hok'' & Hch).
    split; [by apply prepend_result_safe|]. split; [done|].
    destruct (drive_protected d permit m' work) as [[out| | |] ?]; try done. unfold charged in *.
    destruct out; simpl in *; unfold receipt_append; rewrite length_app; lia. }
  destruct (drive d permit m 1) as [[[r|v r|v r|v r|v r]| | |] m']; simpl in *; try done;
    pose proof (Hc _ _ eq_refl) as Hr; simpl in Hr; try (split_and!; [done|done|lia]).
  - by apply Hrec.
  - destruct (innermost_protected_region _ _) as [region|] eqn:E; [|split_and!; [done|done|simpl; lia]].
    destruct (Hraise v r m' eq_refl) as [raising ->]. apply Hrec; [done|]. apply set_current_ok; [done|].
    rewrite set_cursor_law. rewrite Forall_forall in Hh. apply Hh. by eapply innermost_elem.
Qed.

Lemma frozen_handlers (ins : list (LocatedInstruction I Id Origin)) (ts : list (BranchTarget Id SourceId)) rs (code : code_t) :
  Frozen ins ts rs code -> Forall (fun r => pr_handler r < code_len code) (lc_regions code).
Proof.
  intros [Hi _ _ _ _ _ (prs & Hprs & Hperm) _ _]. rewrite Hperm. apply Forall_forall. intros pr [k Hk]%list_elem_of_lookup.
  eapply Forall2_lookup_r in Hprs as (spec & _ & (_ & _ & _ & x & Hx & _)); [|done].
  apply lookup_lt_Some in Hx. unfold code_len. by rewrite Hi.
Qed.

(** No drive of frozen code aborts: with frames that stand on instructions
    and a policy that only hands out cursors of that code, plain and protected
    driving return a value or an error, every frame still stands on an
    instruction, the stack stays within its depth limit, and a protected drive
    charges no more than the allowed work, handlers included. *)
Theorem driver_safe d permit m work
    `{!KernelDatumLaws Datum Symbol ContentId} `{!PolicyCursors (md_code d)}
    (ins : list (LocatedInstruction I Id Origin)) (ts : list (BranchTarget Id SourceId)) rs :
  Frozen ins ts rs (md_code d) -> frames_ok (md_code d) (m_frames m) ->
  (safe (drive d permit m work).1 /\ frames_ok (md_code d) (m_frames (drive d permit m work).2)) /\
  (safe (drive_protected d permit m work).1 /\
   frames_ok (md_code d) (m_frames (drive_protected d permit m work).2) /\
   match (drive_protected d permit m work).1 with Ok out => charged (receipt_of out) <= work | _ => True end).
Proof.
  intros Hf Hok. assert (safe (accepts permit d)) as Ha by by eapply accepts_safe, frozen_identifiable.
  split; [by apply drive_safe|]. apply drive_protected_safe; try done. by eapply frozen_handlers.
Qed.

(** ** Cleanups *)

Lemma unwind_loop_foldl {U W} (l : list (U -> W -> W)) reason w :
  unwind_loop l reason w = foldl (fun w c => c reason w) w l.
Proof. revert w. induction l as [|c l IH]; intros w; simpl; auto. Qed.

Lemma unwind_push {U W} (s : CleanupStack U W) c reason w :
  unwind (cleanup_push s c) reason w = unwind s reason (c reason w).
Proof. unfold unwind, cleanup_push. by rewrite rev_app_distr. Qed.

(** Cleanups run exactly once, last registered first, with the reason of
    the outcome: a return, an unhandled raise, an interrupt, exhausted work or a
    fault.  A yield alone runs none of them. *)
Theorem cleanup_runs_once {W} d permit m work (cleanups : CleanupStack (MachineUnwind R A Int) W) w :
  let '(result, m', w') := drive_with_cleanup d permit m work cleanups w in
  (result, m') = drive_protected d permit m work /\
  match result with
  | Ok (DriveYield _ _) => w' = w
  | Ok (DriveReturn v _) => w' = foldl (fun w c => c (UnwindReturn v) w) w (rev cleanups)
  | Ok (DriveRaise v _) => w' = foldl (fun w c => c (UnwindException (AbruptRaise v)) w) w (rev cleanups)
  | Ok (DriveInterrupt v _) => w' = foldl (fun w c => c (UnwindException (AbruptInterrupt v)) w) w (rev cleanups)
  | Ok (DriveContinue _) => w' = foldl (fun w c => c (UnwindException BudgetExhausted) w) w (rev cleanups)
  | Err _ => w' = foldl (fun w c => c (UnwindException AbruptFault) w) w (rev cleanups)
  | _ => w' = w
  end.
Proof.
  unfold drive_with_cleanup, unwind. destruct (drive_protected d permit m work) as [[[]| | |] m']; simpl;
    rewrite ?unwind_loop_foldl; done.
Qed.
(** ** Safepoints *)

Section SafepointLaws.
Context {ManagedId S O : Type} `{RootLaws ManagedId F}.
Context (observe : O -> list ManagedId -> O * Res S unit).

Definition at_safepoint (code : code_t) m : bool :=
  match current (m_frames m) with
  | Some frame => match lc_instructions code !! frame_cursor frame with Some x => li_safepoint x | None => false end
  | None => false
  end.

(** The complete root views of a drive: one before each safepoint instruction. *)
Fixpoint views (d : description) (permit : ContentId) (work : nat) m : list (list ManagedId) :=
  match work with
  | 0 => []
  | Datatypes.S work =>
    (if at_safepoint (md_code d) m then [roots_of (m_frames m)] else []) ++
    match drive d permit m 1 with (Ok (DriveContinue _), m') => views d permit work m' | _ => [] end
  end.

#[local] Arguments roots_of : simpl never.

Definition observed (o : O) (vs : list (list ManagedId)) : O := foldl (fun o v => (observe o v).1) o vs.

Lemma publish_spec code budget m o :
  is_Some (current (m_frames m)) ->
  match publish observe code budget m o with
  | (Ok _, o') => o' = observed o (if at_safepoint code m then [roots_of (m_frames m)] else [])
  | (Err (SafepointRootScan _), o') => o' = o /\ at_safepoint code m = true /\ budget < length (roots_of (ManagedId:=ManagedId) (m_frames m))
  | (Err (SafepointRefused s), o') => at_safepoint code m = true /\ observe o (roots_of (m_frames m)) = (o', Err s)
  | (Err (SafepointDrive _), _) => False
  | _ => True
  end.
Proof.
  intros [frame Hf]. unfold publish, at_safepoint. rewrite Hf.
  destruct (lc_instructions code !! frame_cursor frame) as [x|]; [|done].
  destruct (li_safepoint x); [|done]. rewrite scan_roots. case_decide as Hd.
  - destruct (observe o (roots_of (m_frames m))) as [o' [[]|e| |]] eqn:E; simpl; try done. exact (f_equal fst (eq_sym E)).
  - split_and!; [done..|lia].
Qed.

(** What a safepoint drive says about the plain drive. *)
Definition safepoint_result (d : description) (permit : ContentId) (budget work : nat) (combined : WorkReceipt Id) m (o : O)
    (r : Res (SafepointDriveError drive_error S) outcome * Machine * O) : Prop :=
  match r with
  | (Ok out, m', o') =>
    prepend_result combined (drive d permit m work) = (Ok out, m') /\ o' = observed o (views d permit work m)
  | (Err (SafepointDrive e), m', _) => drive d permit m work = (Err e, m')
  | (Err (SafepointRootScan _), m', o') => exists k receipt, k < work /\
      drive d permit m k = (Ok (DriveContinue receipt), m') /\ o' = observed o (views d permit k m) /\
      at_safepoint (md_code d) m' = true /\ budget < length (roots_of (ManagedId:=ManagedId) (m_frames m'))
  | (Err (SafepointRefused s), m', o') => exists k receipt, k < work /\
      drive d permit m k = (Ok (DriveContinue receipt), m') /\
      at_safepoint (md_code d) m' = true /\
      observe (observed o (views d permit k m)) (roots_of (m_frames m')) = (o', Err s)
  | _ => True
  end.

Lemma observed_app o vs vs' : observed o (vs ++ vs') = observed (observed o vs) vs'.
Proof. apply foldl_app. Qed.

Lemma drive_0 d permit m : drive_guard d permit m = Ok tt -> drive d permit m 0 = (Ok (DriveContinue []), m).
Proof. intros Hg. unfold drive. by rewrite Hg. Qed.

Lemma safepoint_loop_spec d permit budget work : forall combined m o,
  drive_guard d permit m = Ok tt ->
  safepoint_result d permit budget work combined m o (safepoint_loop observe d permit budget work combined m o).
Proof.
  induction work as [|work IH]; intros combined m o Hg; simpl.
  { rewrite (drive_0 d permit m Hg). unfold prepend_result. simpl. unfold receipt_append. by rewrite app_nil_r. }
  pose proof (publish_spec (md_code d) budget m o (drive_guard_current d permit m Hg)) as Hp.
  destruct (publish observe (md_code d) budget m o) as [[[]|[e|r|e]| |] o1]; simpl; try done.
  2:{ exists 0, []. rewrite (drive_0 d permit m Hg). destruct Hp as (-> & ? & ?). split_and!; try done. lia. }
  2:{ exists 0, []. rewrite (drive_0 d permit m Hg). destruct Hp as (? & ?). split_and!; try done. lia. }
  pose proof (drive_S d permit m work) as HS.
  destruct (drive d permit m 1) as [[out|e| |] m1] eqn:Ed; try done.
  destruct out as [r|v r|v r|v r|v r]; simpl in *;
    try (rewrite Ed, HS; unfold prepend_result; simpl; by rewrite app_nil_r, <- Hp).
  pose proof (drive_one_guard d permit m r m1 Hg Ed) as Hg1.
  specialize (IH (receipt_append combined r) m1 o1 Hg1).
  assert (forall k receipt m', drive d permit m1 k = (Ok (DriveContinue receipt), m') ->
    drive d permit m (Datatypes.S k) = (Ok (DriveContinue (r ++ receipt)), m') /\
    observed o1 (views d permit k m1) = observed o (views d permit (Datatypes.S k) m)) as Hlift.
  { intros k receipt m' Hk. rewrite drive_S, Ed, Hk. split; [done|]. simpl. by rewrite Ed, observed_app, <- Hp. }
  destruct (safepoint_loop observe d permit budget work (receipt_append combined r) m1 o1) as [[[out|[e|s|e]| |] m'] o'];
    unfold safepoint_result in *; try done.
  - destruct IH as [Heq ->]. unfold receipt_append in Heq. rewrite prepend_result_app in Heq.
    rewrite HS, Heq. split; [done|]. simpl. by rewrite Ed, observed_app, <- Hp.
  - destruct IH as (k & rc & Hk & Hd & Ho & Hs). destruct (Hlift k rc m' Hd) as [Hd' Ho'].
    exists (Datatypes.S k), (r ++ rc). rewrite <- Ho'. split_and!; try done; try apply Hs. lia.
  - destruct IH as (k & rc & Hk & Hd & Hs & Ho). destruct (Hlift k rc m' Hd) as [Hd' Ho'].
    exists (Datatypes.S k), (r ++ rc). rewrite <- Ho'. split_and!; try done. lia.
  - by rewrite HS, IH.
Qed.

(** Safepoints observe without disturbing: whenever a safepoint drive
    returns an outcome or a drive error, the plain drive of the same work
    returns the same with the same receipt and final state, and the observer has
    seen exactly the complete root views before each safepoint instruction, in
    order.  A root-budget or observer refusal happens at a safepoint reached by
    a shorter plain drive, before its instruction runs: a budget refusal only
    when the complete view exceeds the budget. *)
Theorem safepoints_agree_with_drive d permit m work budget o :
  safepoint_result d permit budget work [] m o (drive_with_safepoints observe d permit m work budget o).
Proof.
  unfold drive_with_safepoints. destruct (drive_guard d permit m) as [[]|e| |] eqn:Eg; try done.
  - by apply safepoint_loop_spec.
  - simpl. unfold drive. by rewrite Eg.
Qed.
End SafepointLaws.
End Driver.
