(* ===== verification/ManagedNode.v ===== *)
(** * Managed objects and their edges

    crates/sim-lib-mutation/src/managed/handles.rs, edges.rs and object.rs: edge
    identities allocated once per object, hard caps per kind of edge, checked
    mutation of strong, weak and ephemeron edges, and the tracing contract that
    collectors rely on.  The theorems say that identities are never reused or
    shared, that caps hold, and that a node meets the tracing contract. *)

From stdpp Require Import relations.
From S2P Require Import Prelude BTree.

(** Keys keep the instances of their order. *)
#[global] Arguments ord_eq_dec : simpl never.
#[global] Arguments ord_countable : simpl never.

(** [ManagedId], [RootId] and [EdgeId] are allocation ordinals. *)
Abbreviation ManagedId := N.
Abbreviation RootId := N.
Abbreviation EdgeId := N.

Definition u32_max : N := 4294967295.

Inductive EdgeKind := KStrong | KWeak | KEphemeron.

#[export] Instance EdgeKind_eq_dec : EqDecision EdgeKind.
Proof. solve_decision. Defined.

Record EdgeLimits := {
  lim_total : nat;
  lim_strong : nat;
  lim_weak : nat;
  lim_ephemeron : nat;
}.

Definition for_kind (l : EdgeLimits) (kind : EdgeKind) : nat :=
  match kind with KStrong => lim_strong l | KWeak => lim_weak l | KEphemeron => lim_ephemeron l end.

Inductive EdgeSnapshot :=
| Strong (edge : EdgeId) (target : ManagedId)
| Weak (edge : EdgeId) (target : ManagedId)
| Ephemeron (edge : EdgeId) (key value : ManagedId).

#[export] Instance EdgeSnapshot_eq_dec : EqDecision EdgeSnapshot.
Proof. solve_decision. Defined.

Definition edge_snapshot_id (s : EdgeSnapshot) : EdgeId :=
  match s with Strong e _ | Weak e _ | Ephemeron e _ _ => e end.

Inductive EdgeAllocationError :=
| EdgeIdentityExhausted
| EdgeCapacityExceeded (kind : EdgeKind) (cap : nat).

(** [StrongEdgeMutationError] and [WeakEdgeMutationError], which have the same
    cases. *)
Inductive EdgeMutationError :=
| EdgeAllocation (e : EdgeAllocationError)
| UnknownEdge (edge : EdgeId)
| WrongKind (edge : EdgeId) (actual : EdgeKind)
| TargetChanged (expected actual : ManagedId).

Inductive EphemeronMutationError :=
| EntryAllocation (e : EdgeAllocationError)
| UnknownEntry (edge : EdgeId)
| EntryWrongKind (edge : EdgeId) (actual : EdgeKind)
| EntryChanged (expected_key expected_value actual_key actual_value : ManagedId).

(** ** Edge identities *)

(** [EdgeAllocator]: the next identity, or none once the space is used up. *)
Definition EdgeAllocator := option EdgeId.

Definition new_allocator : EdgeAllocator := Some 0%N.

Definition checked_u32_add (a b : N) : option N := if (u32_max <? a + b)%N then None else Some (a + b)%N.

Definition allocate_edge (a : EdgeAllocator) : Res EdgeAllocationError (EdgeId * EdgeAllocator) :=
  let? ordinal := ok_or EdgeIdentityExhausted a in
  Ok (ordinal, checked_u32_add ordinal 1).

Record ManagedNode (R : Type) := {
  n_role : R;
  n_edges : EdgeAllocator;
  n_limits : EdgeLimits;
  n_strong : BTreeMap N ManagedId;
  n_weak : BTreeMap N ManagedId;
  n_ephemerons : BTreeMap N (ManagedId * ManagedId);
}.
Arguments n_role {R}.
Arguments n_edges {R}.
Arguments n_limits {R}.
Arguments n_strong {R}.
Arguments n_weak {R}.
Arguments n_ephemerons {R}.

Definition snapshot_le (a b : EdgeSnapshot) : Prop := (edge_snapshot_id a <= edge_snapshot_id b)%N.

#[export] Instance snapshot_le_dec : RelDecision snapshot_le.
Proof. intros a b. unfold snapshot_le. apply _. Defined.

Section Node.
Context {R : Type}.
Implicit Types n : ManagedNode R.

Definition with_edge_limits (role : R) (limits : EdgeLimits) : ManagedNode R :=
  {| n_role := role; n_edges := new_allocator; n_limits := limits; n_strong := ∅; n_weak := ∅; n_ephemerons := ∅ |}.

Definition with_strong n (edges : EdgeAllocator) (m : BTreeMap N ManagedId) : ManagedNode R :=
  {| n_role := n_role n; n_edges := edges; n_limits := n_limits n;
     n_strong := m; n_weak := n_weak n; n_ephemerons := n_ephemerons n |}.

Definition with_weak n (edges : EdgeAllocator) (m : BTreeMap N ManagedId) : ManagedNode R :=
  {| n_role := n_role n; n_edges := edges; n_limits := n_limits n;
     n_strong := n_strong n; n_weak := m; n_ephemerons := n_ephemerons n |}.

Definition with_ephemerons n (edges : EdgeAllocator) (m : BTreeMap N (ManagedId * ManagedId)) : ManagedNode R :=
  {| n_role := n_role n; n_edges := edges; n_limits := n_limits n;
     n_strong := n_strong n; n_weak := n_weak n; n_ephemerons := m |}.

(** [edge_snapshot] and [trace_edges]: every live edge in identity order. *)
Definition edge_snapshot n : list EdgeSnapshot :=
  merge_sort snapshot_le
    (((fun e => Strong e.1 e.2) <$> map_entries (n_strong n)) ++
     ((fun e => Weak e.1 e.2) <$> map_entries (n_weak n)) ++
     ((fun e => Ephemeron e.1 e.2.1 e.2.2) <$> map_entries (n_ephemerons n))).

Definition edge_kind n (edge : EdgeId) : option EdgeKind :=
  if n_strong n !! edge then Some KStrong
  else if n_weak n !! edge then Some KWeak
  else if n_ephemerons n !! edge then Some KEphemeron
  else None.

(** A live edge of another kind. *)
Definition other_kind n (edge : EdgeId) (kind : EdgeKind) : option EdgeKind :=
  match edge_kind n edge with Some k => if decide (k = kind) then None else Some k | None => None end.

Definition admit_edge n (kind : EdgeKind) : Res EdgeAllocationError unit :=
  let total := size (n_strong n) + size (n_weak n) + size (n_ephemerons n) in
  if (lim_total (n_limits n) <=? total)%nat then Err (EdgeCapacityExceeded kind (lim_total (n_limits n)))
  else
    let count :=
      match kind with KStrong => size (n_strong n) | KWeak => size (n_weak n) | KEphemeron => size (n_ephemerons n) end in
    if (for_kind (n_limits n) kind <=? count)%nat then Err (EdgeCapacityExceeded kind (for_kind (n_limits n) kind))
    else Ok tt.

Definition insert_strong n (target : ManagedId) : Res EdgeMutationError (EdgeId * ManagedNode R) :=
  let? _ := map_err EdgeAllocation (admit_edge n KStrong) in
  let? (edge, edges) := map_err EdgeAllocation (allocate_edge (n_edges n)) in
  Ok (edge, with_strong n edges (<[edge := target]> (n_strong n))).

Definition replace_strong n (edge : EdgeId) (expected replacement : ManagedId) : Res EdgeMutationError (ManagedNode R) :=
  match other_kind n edge KStrong with
  | Some actual => Err (WrongKind edge actual)
  | None =>
    let? target := ok_or (UnknownEdge edge) (n_strong n !! edge) in
    if decide (target = expected) then Ok (with_strong n (n_edges n) (<[edge := replacement]> (n_strong n)))
    else Err (TargetChanged expected target)
  end.

Definition remove_strong n (edge : EdgeId) (expected : ManagedId) : Res EdgeMutationError (ManagedId * ManagedNode R) :=
  match other_kind n edge KStrong with
  | Some actual => Err (WrongKind edge actual)
  | None =>
    let? actual := ok_or (UnknownEdge edge) (n_strong n !! edge) in
    if decide (actual = expected) then Ok (actual, with_strong n (n_edges n) (delete edge (n_strong n)))
    else Err (TargetChanged expected actual)
  end.

Definition insert_weak n (target : ManagedId) : Res EdgeMutationError (EdgeId * ManagedNode R) :=
  let? _ := map_err EdgeAllocation (admit_edge n KWeak) in
  let? (edge, edges) := map_err EdgeAllocation (allocate_edge (n_edges n)) in
  Ok (edge, with_weak n edges (<[edge := target]> (n_weak n))).

Definition replace_weak n (edge : EdgeId) (expected replacement : ManagedId) : Res EdgeMutationError (ManagedNode R) :=
  match other_kind n edge KWeak with
  | Some actual => Err (WrongKind edge actual)
  | None =>
    let? target := ok_or (UnknownEdge edge) (n_weak n !! edge) in
    if decide (target = expected) then Ok (with_weak n (n_edges n) (<[edge := replacement]> (n_weak n)))
    else Err (TargetChanged expected target)
  end.

Definition remove_weak n (edge : EdgeId) (expected : ManagedId) : Res EdgeMutationError (ManagedId * ManagedNode R) :=
  match other_kind n edge KWeak with
  | Some actual => Err (WrongKind edge actual)
  | None =>
    let? actual := ok_or (UnknownEdge edge) (n_weak n !! edge) in
    if decide (actual = expected) then Ok (actual, with_weak n (n_edges n) (delete edge (n_weak n)))
    else Err (TargetChanged expected actual)
  end.

Definition insert_ephemeron n (key value : ManagedId) : Res EphemeronMutationError (EdgeId * ManagedNode R) :=
  let? _ := map_err EntryAllocation (admit_edge n KEphemeron) in
  let? (edge, edges) := map_err EntryAllocation (allocate_edge (n_edges n)) in
  Ok (edge, with_ephemerons n edges (<[edge := (key, value)]> (n_ephemerons n))).

Definition replace_ephemeron n (edge : EdgeId) (expected replacement : ManagedId * ManagedId)
  : Res EphemeronMutationError (ManagedNode R) :=
  match other_kind n edge KEphemeron with
  | Some actual => Err (EntryWrongKind edge actual)
  | None =>
    let? entry := ok_or (UnknownEntry edge) (n_ephemerons n !! edge) in
    if decide (entry.1 = expected.1 /\ entry.2 = expected.2)
    then Ok (with_ephemerons n (n_edges n) (<[edge := replacement]> (n_ephemerons n)))
    else Err (EntryChanged expected.1 expected.2 entry.1 entry.2)
  end.

Definition remove_ephemeron n (edge : EdgeId) (expected : ManagedId * ManagedId)
  : Res EphemeronMutationError ((ManagedId * ManagedId) * ManagedNode R) :=
  match other_kind n edge KEphemeron with
  | Some actual => Err (EntryWrongKind edge actual)
  | None =>
    let? entry := ok_or (UnknownEntry edge) (n_ephemerons n !! edge) in
    if decide (entry.1 = expected.1 /\ entry.2 = expected.2)
    then Ok (entry, with_ephemerons n (n_edges n) (delete edge (n_ephemerons n)))
    else Err (EntryChanged expected.1 expected.2 entry.1 entry.2)
  end.

Definition node_clear_weak n (edge : EdgeId) (expected : ManagedId) : bool * ManagedNode R :=
  match n_weak n !! edge with
  | Some target =>
    if decide (target = expected) then (true, with_weak n (n_edges n) (delete edge (n_weak n))) else (false, n)
  | None => (false, n)
  end.

Definition node_clear_ephemeron n (edge : EdgeId) (expected_key expected_value : ManagedId) : bool * ManagedNode R :=
  match n_ephemerons n !! edge with
  | Some entry =>
    if decide (entry.1 = expected_key /\ entry.2 = expected_value)
    then (true, with_ephemerons n (n_edges n) (delete edge (n_ephemerons n))) else (false, n)
  | None => (false, n)
  end.
End Node.

(** ** The tracing contract *)

(** [ManagedObject]: edges as the visitor receives them, and the two clears. *)
Class ManagedObject (T : Type) := {
  trace_edges : T -> list EdgeSnapshot;
  clear_weak_edge : T -> EdgeId -> ManagedId -> bool * T;
  clear_ephemeron_edge : T -> EdgeId -> ManagedId -> ManagedId -> bool * T;
}.

(** A clear removes the named edge when the object has it, says so, and does
    nothing else. *)
Class ManagedObjectLaws (T : Type) `{ManagedObject T} : Prop := {
  clear_weak_law : forall (o : T) e t s,
    s ∈ trace_edges (clear_weak_edge o e t).2 <-> s ∈ trace_edges o /\ s <> Weak e t;
  clear_weak_flag : forall (o : T) e t, (clear_weak_edge o e t).1 = true <-> Weak e t ∈ trace_edges o;
  clear_ephemeron_law : forall (o : T) e k v s,
    s ∈ trace_edges (clear_ephemeron_edge o e k v).2 <-> s ∈ trace_edges o /\ s <> Ephemeron e k v;
  clear_ephemeron_flag : forall (o : T) e k v,
    (clear_ephemeron_edge o e k v).1 = true <-> Ephemeron e k v ∈ trace_edges o;
}.

#[export] Instance node_object {R} : ManagedObject (ManagedNode R) := {|
  trace_edges := edge_snapshot;
  clear_weak_edge := node_clear_weak;
  clear_ephemeron_edge := node_clear_ephemeron;
|}.

(** Which edges a snapshot lists. *)
Definition has_edge {R} (n : ManagedNode R) (s : EdgeSnapshot) : Prop :=
  match s with
  | Strong e t => n_strong n !! e = Some t
  | Weak e t => n_weak n !! e = Some t
  | Ephemeron e k v => n_ephemerons n !! e = Some (k, v)
  end.

Lemma elem_of_edge_snapshot {R} (n : ManagedNode R) s : s ∈ edge_snapshot n <-> has_edge n s.
Proof.
  unfold edge_snapshot. rewrite merge_sort_Permutation, !elem_of_app, !list_elem_of_fmap.
  split.
  - intros [([e t] & -> & He)|[([e t] & -> & He)|([e [k v]] & -> & He)]]; by apply elem_of_map_entries in He.
  - destruct s as [e t|e t|e k v]; simpl; intros He; apply elem_of_map_entries in He;
      [left|right; left|right; right]; eexists; (split; [|exact He]); done.
Qed.

(** A node meets the tracing contract. *)
#[export] Instance node_object_laws {R} : ManagedObjectLaws (ManagedNode R).
Proof.
  split; simpl.
  - intros n e t s. rewrite !elem_of_edge_snapshot. unfold node_clear_weak.
    destruct (n_weak n !! e) as [t'|] eqn:E; [case_decide as Hd|]; simpl.
    + subst t'. destruct s as [e' t'|e' t'|e' k v]; simpl; [naive_solver| |naive_solver].
      rewrite lookup_delete_Some. split; [naive_solver|]. intros [He Hne]. split; [|done].
      intros <-. apply Hne. congruence.
    + split; [|naive_solver]. intros Hs. split; [done|]. intros ->. simpl in Hs. congruence.
    + split; [|naive_solver]. intros Hs. split; [done|]. intros ->. simpl in Hs. congruence.
  - intros n e t. rewrite elem_of_edge_snapshot. unfold node_clear_weak. simpl.
    destruct (n_weak n !! e) as [t'|]; [case_decide|]; simpl; naive_solver.
  - intros n e k v s. rewrite !elem_of_edge_snapshot. unfold node_clear_ephemeron.
    destruct (n_ephemerons n !! e) as [[k' v']|] eqn:E; [case_decide as Hd|]; simpl in *.
    + destruct Hd as [-> ->]. destruct s as [e' t'|e' t'|e' k' v']; simpl; [naive_solver..|].
      rewrite lookup_delete_Some. split; [naive_solver|]. intros [He Hne]. split; [|done].
      intros <-. apply Hne. congruence.
    + split; [|naive_solver]. intros Hs. split; [done|]. intros ->. simpl in Hs. naive_solver.
    + split; [|naive_solver]. intros Hs. split; [done|]. intros ->. simpl in Hs. congruence.
  - intros n e k v. rewrite elem_of_edge_snapshot. unfold node_clear_ephemeron. simpl.
    destruct (n_ephemerons n !! e) as [[k' v']|]; [case_decide|]; simpl in *; naive_solver.
Qed.

(** ** Identities and caps over histories *)

Section NodeHistory.
Context {R : Type}.
Implicit Types n : ManagedNode R.

Definition live n (e : EdgeId) : Prop :=
  is_Some (n_strong n !! e) \/ is_Some (n_weak n !! e) \/ is_Some (n_ephemerons n !! e).

(** Identities below the allocator's next one have been handed out. *)
Definition allocated_in (a : EdgeAllocator) (e : EdgeId) : Prop :=
  match a with Some next => (e < next)%N | None => True end.

Definition allocated n (e : EdgeId) : Prop := allocated_in (n_edges n) e.

Record NodeInv n : Prop := {
  ni_allocated : forall e, live n e -> allocated n e;
  ni_strong_weak : forall e, is_Some (n_strong n !! e) -> n_weak n !! e = None;
  ni_strong_ephemeron : forall e, is_Some (n_strong n !! e) -> n_ephemerons n !! e = None;
  ni_weak_ephemeron : forall e, is_Some (n_weak n !! e) -> n_ephemerons n !! e = None;
  ni_total : size (n_strong n) + size (n_weak n) + size (n_ephemerons n) <= lim_total (n_limits n);
  ni_kinds : size (n_strong n) <= lim_strong (n_limits n) /\ size (n_weak n) <= lim_weak (n_limits n) /\
    size (n_ephemerons n) <= lim_ephemeron (n_limits n);
}.

(** The operations that change a node. *)
Inductive node_step : ManagedNode R -> ManagedNode R -> Prop :=
| step_insert_strong n t e n' : insert_strong n t = Ok (e, n') -> node_step n n'
| step_replace_strong n e t u n' : replace_strong n e t u = Ok n' -> node_step n n'
| step_remove_strong n e t u n' : remove_strong n e t = Ok (u, n') -> node_step n n'
| step_insert_weak n t e n' : insert_weak n t = Ok (e, n') -> node_step n n'
| step_replace_weak n e t u n' : replace_weak n e t u = Ok n' -> node_step n n'
| step_remove_weak n e t u n' : remove_weak n e t = Ok (u, n') -> node_step n n'
| step_clear_weak n e t : node_step n (node_clear_weak n e t).2
| step_insert_ephemeron n k v e n' : insert_ephemeron n k v = Ok (e, n') -> node_step n n'
| step_replace_ephemeron n e p q n' : replace_ephemeron n e p q = Ok n' -> node_step n n'
| step_remove_ephemeron n e p q n' : remove_ephemeron n e p = Ok (q, n') -> node_step n n'
| step_clear_ephemeron n e k v : node_step n (node_clear_ephemeron n e k v).2.

(** How a step changes the maps: one map gains a fresh edge, keeps its domain,
    or loses an edge. *)
Inductive map_change {A} (n : ManagedNode R) (kind : EdgeKind) (m : BTreeMap N A) : EdgeAllocator -> BTreeMap N A -> Prop :=
| change_insert e next v : allocate_edge (n_edges n) = Ok (e, next) -> admit_edge n kind = Ok tt ->
    map_change n kind m next (<[e := v]> m)
| change_keep m' : dom m' = dom m -> map_change n kind m (n_edges n) m'
| change_delete e : map_change n kind m (n_edges n) (delete e m).

Lemma replace_keeps {A} (m : BTreeMap N A) e v : is_Some (m !! e) -> dom (<[e := v]> m) = dom m.
Proof. intros He%elem_of_dom. rewrite dom_insert_L. set_solver. Qed.

(** Every operation is such a change of one of the three maps. *)
Lemma node_step_change n n' :
  node_step n n' ->
  (exists next m, map_change n KStrong (n_strong n) next m /\ n' = with_strong n next m) \/
  (exists next m, map_change n KWeak (n_weak n) next m /\ n' = with_weak n next m) \/
  (exists next m, map_change n KEphemeron (n_ephemerons n) next m /\ n' = with_ephemerons n next m).
Proof.
  destruct 1 as [n t e n' Hs|n e t u n' Hs|n e t u n' Hs|n t e n' Hs|n e t u n' Hs|n e t u n' Hs|n e t
    |n k v e n' Hs|n e p q n' Hs|n e p q n' Hs|n e k v].
  - left. unfold insert_strong in Hs. apply rbind_Ok in Hs as ([] & Ha%map_err_Ok & Hs).
    apply rbind_Ok in Hs as ([e' next] & He%map_err_Ok & [= <- <-]). eauto using map_change.
  - left. unfold replace_strong in Hs. destruct (other_kind n e KStrong); [done|].
    apply rbind_Ok in Hs as (x & Hx%ok_or_Ok & Hs). case_decide; [|done]. injection Hs as <-.
    do 2 eexists. split; [|done]. apply change_keep. apply replace_keeps. eauto.
  - left. unfold remove_strong in Hs. destruct (other_kind n e KStrong); [done|].
    apply rbind_Ok in Hs as (x & Hx%ok_or_Ok & Hs). case_decide; [|done]. injection Hs as <- <-. eauto using map_change.
  - right. left. unfold insert_weak in Hs. apply rbind_Ok in Hs as ([] & Ha%map_err_Ok & Hs).
    apply rbind_Ok in Hs as ([e' next] & He%map_err_Ok & [= <- <-]). eauto using map_change.
  - right. left. unfold replace_weak in Hs. destruct (other_kind n e KWeak); [done|].
    apply rbind_Ok in Hs as (x & Hx%ok_or_Ok & Hs). case_decide; [|done]. injection Hs as <-.
    do 2 eexists. split; [|done]. apply change_keep. apply replace_keeps. eauto.
  - right. left. unfold remove_weak in Hs. destruct (other_kind n e KWeak); [done|].
    apply rbind_Ok in Hs as (x & Hx%ok_or_Ok & Hs). case_decide; [|done]. injection Hs as <- <-. eauto using map_change.
  - right. left. unfold node_clear_weak. destruct (n_weak n !! e); [case_decide|]; simpl; [eauto using map_change|..];
      exists (n_edges n), (n_weak n); (split; [by apply change_keep|by destruct n]).
  - right. right. unfold insert_ephemeron in Hs. apply rbind_Ok in Hs as ([] & Ha%map_err_Ok & Hs).
    apply rbind_Ok in Hs as ([e' next] & He%map_err_Ok & [= <- <-]). eauto using map_change.
  - right. right. unfold replace_ephemeron in Hs. destruct (other_kind n e KEphemeron); [done|].
    apply rbind_Ok in Hs as (x & Hx%ok_or_Ok & Hs). case_decide; [|done]. injection Hs as <-.
    do 2 eexists. split; [|done]. apply change_keep. apply replace_keeps. eauto.
  - right. right. unfold remove_ephemeron in Hs. destruct (other_kind n e KEphemeron); [done|].
    apply rbind_Ok in Hs as (x & Hx%ok_or_Ok & Hs). case_decide; [|done]. injection Hs as <- <-. eauto using map_change.
  - right. right. unfold node_clear_ephemeron. destruct (n_ephemerons n !! e); [case_decide|]; simpl; [eauto using map_change|..];
      exists (n_edges n), (n_ephemerons n); (split; [by apply change_keep|by destruct n]).
Qed.

(** A change adds at most one edge, under an identity that was not allocated
    before, and only within the caps. *)
Lemma map_change_facts {A} n kind (m m' : BTreeMap N A) next :
  map_change n kind m next m' ->
  (forall k, is_Some (m' !! k) -> is_Some (m !! k) \/ (allocated_in next k /\ ~ allocated n k)) /\
  (forall k, allocated n k -> allocated_in next k) /\
  (size m' <= size m \/ (size m' <= S (size m) /\ admit_edge n kind = Ok tt)).
Proof.
  intros [e nx v Ha Hadm|m1 Hd|e].
  - unfold allocate_edge in Ha. apply rbind_Ok in Ha as (ord & Ho%ok_or_Ok & [= <- <-]).
    unfold allocated, allocated_in. rewrite Ho. split_and!.
    + intros k [w Hk]. apply lookup_insert_Some in Hk as [[<- _]|[_ Hk]]; [right|by left; eauto].
      unfold checked_u32_add. destruct (_ <? _)%N; split; try done; lia.
    + intros k Hk. unfold checked_u32_add. destruct (_ <? _)%N; [done|lia].
    + right. split; [|done]. destruct (m !! ord) eqn:E.
      * rewrite map_size_insert_Some by eauto. lia.
      * rewrite map_size_insert_None by done. lia.
  - split_and!; [|done|].
    + intros k Hk. left. apply elem_of_dom. rewrite <- Hd. by apply elem_of_dom.
    + left. rewrite <- !size_dom, Hd. done.
  - split_and!; [|done|].
    + intros k [w [_ Hk]%lookup_delete_Some]. left. eauto.
    + left. rewrite map_size_delete. by destruct (m !! e); simpl; lia.
Qed.

Lemma admit_edge_room n kind : admit_edge n kind = Ok tt ->
  size (n_strong n) + size (n_weak n) + size (n_ephemerons n) < lim_total (n_limits n) /\
  match kind with
  | KStrong => size (n_strong n) < lim_strong (n_limits n)
  | KWeak => size (n_weak n) < lim_weak (n_limits n)
  | KEphemeron => size (n_ephemerons n) < lim_ephemeron (n_limits n)
  end.
Proof.
  unfold admit_edge. destruct (Nat.leb_spec (lim_total (n_limits n)) (size (n_strong n) + size (n_weak n) + size (n_ephemerons n))); [done|].
  destruct kind; simpl; (destruct (Nat.leb _ _) eqn:E; [done|]); apply Nat.leb_gt in E; done.
Qed.

(** A step keeps the invariant and never revives an allocated identity. *)
Lemma node_step_inv n n' :
  NodeInv n -> node_step n n' ->
  NodeInv n' /\ (forall e, allocated n e -> allocated n' e) /\ (forall e, allocated n e -> live n' e -> live n e).
Proof.
  intros [Hal Hsw Hse Hwe Htot (Hks & Hkw & Hke)] [(next & m & Hc & ->)|[(next & m & Hc & ->)|(next & m & Hc & ->)]]%node_step_change;
    apply map_change_facts in Hc as (Hlive & Hmono & Hsize);
    (assert (forall e, ~ allocated n e -> n_strong n !! e = None /\ n_weak n !! e = None /\ n_ephemerons n !! e = None) as Hdead
      by (intros e He; rewrite !eq_None_not_Some; split_and!; intros Hx; apply He, Hal; unfold live; tauto));
    (split; [|split; [done|]]).
  all: try (intros e He [Hl|[Hl|Hl]]; simpl in Hl; unfold live; try tauto; apply Hlive in Hl; unfold allocated in *; tauto).
  - split; simpl; [| | |done| |].
    + intros e [Hl|[Hl|Hl]]; simpl in Hl; [apply Hlive in Hl as [Hl|[? _]]; [|done]|..]; apply Hmono, Hal; unfold live; tauto.
    + intros e [Hl|[_ He]]%Hlive; [auto|by apply Hdead].
    + intros e [Hl|[_ He]]%Hlive; [auto|by apply Hdead].
    + destruct Hsize as [?|[? [??]%admit_edge_room]]; lia.
    + destruct Hsize as [?|[? [??]%admit_edge_room]]; simpl in *; lia.
  - split; simpl; [| |done| | |].
    + intros e [Hl|[Hl|Hl]]; simpl in Hl; [|apply Hlive in Hl as [Hl|[? _]]; [|done]|]; apply Hmono, Hal; unfold live; tauto.
    + intros e Hs. apply eq_None_not_Some. intros [Hl|[_ He]]%Hlive; [rewrite Hsw in Hl by done; by destruct Hl|].
      apply He, Hal. by left.
    + intros e [Hl|[_ He]]%Hlive; [auto|by apply Hdead].
    + destruct Hsize as [?|[? [??]%admit_edge_room]]; lia.
    + destruct Hsize as [?|[? [??]%admit_edge_room]]; simpl in *; lia.
  - split; simpl; [|done| | | |].
    + intros e [Hl|[Hl|Hl]]; simpl in Hl; [| |apply Hlive in Hl as [Hl|[? _]]; [|done]]; apply Hmono, Hal; unfold live; tauto.
    + intros e Hs. apply eq_None_not_Some. intros [Hl|[_ He]]%Hlive; [rewrite Hse in Hl by done; by destruct Hl|].
      apply He, Hal. by left.
    + intros e Hs. apply eq_None_not_Some. intros [Hl|[_ He]]%Hlive; [rewrite Hwe in Hl by done; by destruct Hl|].
      apply He, Hal. right. by left.
    + destruct Hsize as [?|[? [??]%admit_edge_room]]; lia.
    + destruct Hsize as [?|[? [??]%admit_edge_room]]; simpl in *; lia.
Qed.

Lemma new_node_inv (role : R) limits : NodeInv (with_edge_limits role limits).
Proof.
  split; simpl; try done.
  - intros e [Hl|[Hl|Hl]]; simpl in Hl; rewrite lookup_empty in Hl; by destruct Hl.
  - rewrite !map_size_empty. lia.
  - rewrite !map_size_empty. lia.
Qed.

Lemma node_steps_inv n n' :
  NodeInv n -> rtc node_step n n' ->
  NodeInv n' /\ (forall e, allocated n e -> allocated n' e) /\ (forall e, allocated n e -> live n' e -> live n e).
Proof.
  intros HI Hs. revert HI. induction Hs as [n|n n1 n2 Hstep _ IH]; intros HI; [done|].
  destruct (node_step_inv n n1 HI Hstep) as (HI1 & Ha1 & Hl1). destruct (IH HI1) as (HI2 & Ha2 & Hl2).
  split; [done|]. split; [by auto|]. intros e He Hl. auto.
Qed.

Lemma edge_snapshot_ids n : NodeInv n ->
  NoDup (edge_snapshot_id <$> edge_snapshot n) /\ StronglySorted snapshot_le (edge_snapshot n).
Proof.
  intros [_ Hsw Hse Hwe _ _]. split.
  - unfold edge_snapshot. rewrite merge_sort_Permutation, !fmap_app, <- !list_fmap_compose.
    change (edge_snapshot_id ∘ (fun e : EdgeId * ManagedId => Strong e.1 e.2)) with (fst (A:=EdgeId) (B:=ManagedId)).
    change (edge_snapshot_id ∘ (fun e : EdgeId * ManagedId => Weak e.1 e.2)) with (fst (A:=EdgeId) (B:=ManagedId)).
    change (edge_snapshot_id ∘ (fun e : EdgeId * (ManagedId * ManagedId) => Ephemeron e.1 e.2.1 e.2.2))
      with (fst (A:=EdgeId) (B:=ManagedId * ManagedId)).
    rewrite !map_entries_keys. apply NoDup_app. split_and!; [apply set_keys_NoDup| |apply NoDup_app; split_and!].
    + intros e Hs%elem_of_map_keys He. rewrite elem_of_app, !elem_of_map_keys in He.
      rewrite (Hsw e Hs), (Hse e Hs) in He. destruct He as [[]|[]]; done.
    + apply set_keys_NoDup.
    + intros e Hs%elem_of_map_keys He%elem_of_map_keys. rewrite (Hwe e Hs) in He. by destruct He.
    + apply set_keys_NoDup.
  - unfold edge_snapshot. apply StronglySorted_merge_sort.
    + intros a b c. unfold snapshot_le. lia.
    + intros a b. unfold snapshot_le. lia.
Qed.

(** Over any history of edge operations on a managed node, edge identities
    are unique across the kinds, enumerated in allocation order and never
    reused: an identity that was handed out and is not live never becomes live
    again.  The total and per-kind caps hold throughout. *)
Theorem managed_node_history (role : R) limits n :
  rtc node_step (with_edge_limits role limits) n ->
  NodeInv n /\
  (NoDup (edge_snapshot_id <$> edge_snapshot n) /\ StronglySorted snapshot_le (edge_snapshot n)) /\
  (forall s, s ∈ edge_snapshot n <-> has_edge n s) /\
  (forall n' e, rtc node_step n n' -> allocated n e -> ~ live n e -> ~ live n' e).
Proof.
  intros Hs. destruct (node_steps_inv _ n (new_node_inv role limits) Hs) as (HI & _ & _).
  split_and!; [done|by apply edge_snapshot_ids|by apply edge_snapshot_ids|apply elem_of_edge_snapshot|].
  intros n' e Hs' Ha Hd Hl. apply Hd. by eapply (node_steps_inv n n').
Qed.
End NodeHistory.
