(* ===== verification/ManagedArena.v ===== *)
(** * The managed arena

    crates/sim-lib-mutation/src/managed/arena.rs and arena_model.rs: bounded
    storage of managed objects with registered roots, weak upgrades that keep an
    object for the current epoch, safepoints and the atomic application of a
    collection plan.  The invariant says that roots and current upgrades name
    live objects; the theorems say that every operation keeps it and that
    identities are never reused. *)

From stdpp Require Import relations.
From S2P Require Import Prelude BTree ManagedNode.

Inductive ArenaError :=
| InvalidCap
| CapacityExceeded (cap : nat)
| IdentityExhausted
| StaleHandle (id : ManagedId)
| StaleRoot (root : RootId)
| ObjectRooted (id : ManagedId)
| MutationEpochChanged (expected actual : N).

(** [HardCappedRetainPolicy::new]. *)
Definition new_policy (max_objects : nat) : Res ArenaError nat :=
  if decide (max_objects = 0) then Err InvalidCap else Ok max_objects.

Record ManagedArena (T : Type) := {
  a_cap : nat;
  a_next_id : N;
  a_next_root : N;
  a_next_safepoint : N;
  a_epoch : N;
  a_objects : BTreeMap N T;
  a_roots : BTreeMap N ManagedId;
  a_kept_alive : BTreeMap N N;
}.
Arguments a_cap {T}.
Arguments a_next_id {T}.
Arguments a_next_root {T}.
Arguments a_next_safepoint {T}.
Arguments a_epoch {T}.
Arguments a_objects {T}.
Arguments a_roots {T}.
Arguments a_kept_alive {T}.

(** [RootedHandle]. *)
Record RootedHandle := {
  rh_root : RootId;
  rh_handle : ManagedId;
}.

Record TraceSnapshot (T : Type) := {
  ts_roots : list ManagedId;
  ts_kept_alive : list ManagedId;
  ts_objects : BTreeMap N T;
  ts_epoch : N;
}.
Arguments ts_roots {T}.
Arguments ts_kept_alive {T}.
Arguments ts_objects {T}.
Arguments ts_epoch {T}.

Record SafepointReceipt := {
  sr_sequence : N;
  sr_roots : list ManagedId;
  sr_objects : list ManagedId;
}.

Record TeardownReceipt := {
  tr_objects : list ManagedId;
  tr_roots : list RootId;
}.

Record CollectionMutationReceipt := {
  cm_weak : list (ManagedId * EdgeId);
  cm_ephemerons : list (ManagedId * EdgeId);
  cm_swept : list ManagedId;
}.

Section Arena.
Context {T : Type}.
Implicit Types a : ManagedArena T.

Definition new_arena (cap : nat) : ManagedArena T :=
  {| a_cap := cap; a_next_id := 0; a_next_root := 0; a_next_safepoint := 0; a_epoch := 0;
     a_objects := ∅; a_roots := ∅; a_kept_alive := ∅ |}.

Definition set_epoch a (e : N) : ManagedArena T :=
  {| a_cap := a_cap a; a_next_id := a_next_id a; a_next_root := a_next_root a; a_next_safepoint := a_next_safepoint a;
     a_epoch := e; a_objects := a_objects a; a_roots := a_roots a; a_kept_alive := a_kept_alive a |}.

Definition set_objects a (next : N) (m : BTreeMap N T) : ManagedArena T :=
  {| a_cap := a_cap a; a_next_id := next; a_next_root := a_next_root a; a_next_safepoint := a_next_safepoint a;
     a_epoch := a_epoch a; a_objects := m; a_roots := a_roots a; a_kept_alive := a_kept_alive a |}.

Definition set_roots a (next : N) (m : BTreeMap N ManagedId) : ManagedArena T :=
  {| a_cap := a_cap a; a_next_id := a_next_id a; a_next_root := next; a_next_safepoint := a_next_safepoint a;
     a_epoch := a_epoch a; a_objects := a_objects a; a_roots := m; a_kept_alive := a_kept_alive a |}.

Definition set_kept a (m : BTreeMap N N) : ManagedArena T :=
  {| a_cap := a_cap a; a_next_id := a_next_id a; a_next_root := a_next_root a; a_next_safepoint := a_next_safepoint a;
     a_epoch := a_epoch a; a_objects := a_objects a; a_roots := a_roots a; a_kept_alive := m |}.

Definition set_safepoint a (next : N) : ManagedArena T :=
  {| a_cap := a_cap a; a_next_id := a_next_id a; a_next_root := a_next_root a; a_next_safepoint := next;
     a_epoch := a_epoch a; a_objects := a_objects a; a_roots := a_roots a; a_kept_alive := a_kept_alive a |}.

Definition advance_mutation_epoch a : Res ArenaError (ManagedArena T) :=
  let? e := ok_or IdentityExhausted (checked_add (a_epoch a) 1) in
  Ok (set_epoch a e).

Definition arena_allocate a (object : T) : Res ArenaError (ManagedId * ManagedArena T) :=
  if (a_cap a <=? size (a_objects a))%nat then Err (CapacityExceeded (a_cap a))
  else
    let? next := ok_or IdentityExhausted (checked_add (a_next_id a) 1) in
    let id := a_next_id a in
    let? a := advance_mutation_epoch a in
    Ok (id, set_objects a next (<[id := object]> (a_objects a))).

Definition arena_get a (id : ManagedId) : Res ArenaError T := ok_or (StaleHandle id) (a_objects a !! id).

(** A write through [get_mut]. *)
Definition arena_modify a (id : ManagedId) (f : T -> T) : Res ArenaError (ManagedArena T) :=
  match a_objects a !! id with
  | None => Err (StaleHandle id)
  | Some _ =>
    let? a := advance_mutation_epoch a in
    let? o := expect (a_objects a !! id) in
    Ok (set_objects a (a_next_id a) (<[id := f o]> (a_objects a)))
  end.

Definition arena_upgrade a (id : ManagedId) : Res ArenaError (ManagedId * ManagedArena T) :=
  match a_objects a !! id with
  | None => Err (StaleHandle id)
  | Some _ => Ok (id, set_kept a (<[id := a_epoch a]> (a_kept_alive a)))
  end.

Definition arena_handle a (id : ManagedId) : Res ArenaError ManagedId :=
  match a_objects a !! id with Some _ => Ok id | None => Err (StaleHandle id) end.

Definition arena_root a (id : ManagedId) : Res ArenaError (RootedHandle * ManagedArena T) :=
  let? _ := arena_get a id in
  let? next := ok_or IdentityExhausted (checked_add (a_next_root a) 1) in
  let root := a_next_root a in
  let? a := advance_mutation_epoch a in
  Ok ({| rh_root := root; rh_handle := id |}, set_roots a next (<[root := id]> (a_roots a))).

Definition arena_release_root a (rooted : RootedHandle) : Res ArenaError (ManagedId * ManagedArena T) :=
  match a_roots a !! rh_root rooted with
  | Some id =>
    if decide (id = rh_handle rooted) then
      let? a := advance_mutation_epoch a in
      Ok (rh_handle rooted, set_roots a (a_next_root a) (delete (rh_root rooted) (a_roots a)))
    else Err (StaleRoot (rh_root rooted))
  | None => Err (StaleRoot (rh_root rooted))
  end.

Definition is_rooted a (id : ManagedId) : bool := bool_decide (id ∈ map_values (a_roots a)).

Definition arena_remove a (id : ManagedId) : Res ArenaError (T * ManagedArena T) :=
  if is_rooted a id then Err (ObjectRooted id)
  else
    match a_objects a !! id with
    | None => Err (StaleHandle id)
    | Some _ =>
      let? a := advance_mutation_epoch a in
      let? removed := expect (a_objects a !! id) in
      Ok (removed, set_objects a (a_next_id a) (delete id (a_objects a)))
    end.

(** The checks made for every object before the first one is removed. *)
Fixpoint check_sweep a (ids : list ManagedId) : Res ArenaError unit :=
  match ids with
  | [] => Ok tt
  | id :: rest =>
    match a_objects a !! id with
    | None => Err (StaleHandle id)
    | Some _ => if is_rooted a id then Err (ObjectRooted id) else check_sweep a rest
    end
  end.

Definition sweep_objects (ids : list ManagedId) (m : BTreeMap N T) : BTreeMap N T := foldl (fun m id => delete id m) m ids.

Definition sweep_at_epoch a (expected_epoch : N) (ids : list ManagedId) : Res ArenaError (list ManagedId * ManagedArena T) :=
  if decide (a_epoch a = expected_epoch) then
    let? _ := check_sweep a ids in
    let? a := match ids with [] => Ok a | _ => advance_mutation_epoch a end in
    Ok (ids, set_objects a (a_next_id a) (sweep_objects ids (a_objects a)))
  else Err (MutationEpochChanged expected_epoch (a_epoch a)).

(** Objects kept alive by an upgrade at an epoch, in identity order. *)
Definition kept_at a (epoch : N) : list ManagedId :=
  omap (fun e => if decide (e.2 = epoch) then Some e.1 else None) (map_entries (a_kept_alive a)).

Definition take_snapshot a : TraceSnapshot T :=
  {| ts_roots := map_values (a_roots a); ts_kept_alive := kept_at a (a_epoch a);
     ts_objects := a_objects a; ts_epoch := a_epoch a |}.

(** [safepoint]: the trace only reads; its result is returned with the receipt. *)
Definition safepoint {X} a (trace : TraceSnapshot T -> X) : Res ArenaError (X * SafepointReceipt * ManagedArena T) :=
  let? next := ok_or IdentityExhausted (checked_add (a_next_safepoint a) 1) in
  let result := trace (take_snapshot a) in
  Ok (result,
      {| sr_sequence := a_next_safepoint a; sr_roots := map_values (a_roots a); sr_objects := map_keys (a_objects a) |},
      set_safepoint a next).

Definition teardown a : TeardownReceipt * ManagedArena T :=
  ({| tr_objects := map_keys (a_objects a); tr_roots := map_keys (a_roots a) |},
   {| a_cap := a_cap a; a_next_id := a_next_id a; a_next_root := a_next_root a; a_next_safepoint := a_next_safepoint a;
      a_epoch := if decide (a_objects a = ∅ /\ a_roots a = ∅) then a_epoch a else saturating_add (a_epoch a) 1;
      a_objects := ∅; a_roots := ∅; a_kept_alive := ∅ |}).

Section Objects.
Context `{ManagedObject T}.

Definition arena_clear_weak a (owner : ManagedId) (edge : EdgeId) (expected : ManagedId)
  : Res ArenaError (bool * ManagedArena T) :=
  match a_objects a !! owner with
  | None => Err (StaleHandle owner)
  | Some _ =>
    let? a := advance_mutation_epoch a in
    let? o := expect (a_objects a !! owner) in
    let '(cleared, o) := clear_weak_edge o edge expected in
    Ok (cleared, set_objects a (a_next_id a) (<[owner := o]> (a_objects a)))
  end.

Fixpoint clear_weak_entries (entries : list (ManagedId * EdgeId * ManagedId)) (m : BTreeMap N T)
  : list (ManagedId * EdgeId) * BTreeMap N T :=
  match entries with
  | [] => ([], m)
  | (owner, edge, target) :: rest =>
    match m !! owner with
    | None => clear_weak_entries rest m
    | Some o =>
      let '(done_, o) := clear_weak_edge o edge target in
      let '(cleared, m) := clear_weak_entries rest (<[owner := o]> m) in
      (if done_ then (owner, edge) :: cleared else cleared, m)
    end
  end.

Fixpoint clear_ephemeron_entries (entries : list (ManagedId * EdgeId * ManagedId * ManagedId)) (m : BTreeMap N T)
  : list (ManagedId * EdgeId) * BTreeMap N T :=
  match entries with
  | [] => ([], m)
  | (owner, edge, key, value) :: rest =>
    match m !! owner with
    | None => clear_ephemeron_entries rest m
    | Some o =>
      let '(done_, o) := clear_ephemeron_edge o edge key value in
      let '(cleared, m) := clear_ephemeron_entries rest (<[owner := o]> m) in
      (if done_ then (owner, edge) :: cleared else cleared, m)
    end
  end.

Definition apply_collection_at_epoch a (expected_epoch : N)
    (weak : list (ManagedId * EdgeId * ManagedId))
    (ephemerons : list (ManagedId * EdgeId * ManagedId * ManagedId))
    (swept : list ManagedId) : Res ArenaError (CollectionMutationReceipt * ManagedArena T) :=
  if decide (a_epoch a = expected_epoch) then
    let kept := kept_at a expected_epoch in
    let actual_swept := filter (fun id => id ∉ kept) swept in
    let? _ := check_sweep a actual_swept in
    let? a :=
      match weak, ephemerons, actual_swept with
      | [], [], [] => Ok a
      | _, _, _ => advance_mutation_epoch a
      end in
    let '(cleared_weak, m) := clear_weak_entries weak (a_objects a) in
    let '(cleared_ephemerons, m) := clear_ephemeron_entries ephemerons m in
    let m := sweep_objects actual_swept m in
    let a := set_objects a (a_next_id a) m in
    let a := set_kept a (filter (fun e => is_Some (m !! e.1) /\ e.2 <> expected_epoch) (a_kept_alive a)) in
    Ok ({| cm_weak := cleared_weak; cm_ephemerons := cleared_ephemerons; cm_swept := actual_swept |}, a)
  else Err (MutationEpochChanged expected_epoch (a_epoch a)).
(** ** The invariant *)

Record ArenaInv a : Prop := {
  ai_ids : forall id, is_Some (a_objects a !! id) -> (id < a_next_id a)%N;
  ai_roots : forall r id, a_roots a !! r = Some id -> is_Some (a_objects a !! id);
  ai_root_ids : forall r, is_Some (a_roots a !! r) -> (r < a_next_root a)%N;
  ai_cap : size (a_objects a) <= a_cap a;
  ai_kept : forall id e, a_kept_alive a !! id = Some e ->
    (e <= a_epoch a)%N /\ (e = a_epoch a -> is_Some (a_objects a !! id));
}.

(** The operations that change an arena. *)
Inductive arena_step : ManagedArena T -> ManagedArena T -> Prop :=
| step_allocate a o id a' : arena_allocate a o = Ok (id, a') -> arena_step a a'
| step_modify a id f a' : arena_modify a id f = Ok a' -> arena_step a a'
| step_upgrade a id h a' : arena_upgrade a id = Ok (h, a') -> arena_step a a'
| step_root a id h a' : arena_root a id = Ok (h, a') -> arena_step a a'
| step_release_root a h id a' : arena_release_root a h = Ok (id, a') -> arena_step a a'
| step_remove a id o a' : arena_remove a id = Ok (o, a') -> arena_step a a'
| step_clear_weak_edge a o e t b a' : arena_clear_weak a o e t = Ok (b, a') -> arena_step a a'
| step_sweep a e ids ids' a' : sweep_at_epoch a e ids = Ok (ids', a') -> arena_step a a'
| step_collection a e w ep ids r a' : apply_collection_at_epoch a e w ep ids = Ok (r, a') -> arena_step a a'
| step_safepoint X a (trace : TraceSnapshot T -> X) x r a' : safepoint a trace = Ok (x, r, a') -> arena_step a a'
| step_teardown a : arena_step a (teardown a).2.

Lemma advance_Ok a a' : advance_mutation_epoch a = Ok a' -> a' = set_epoch a (a_epoch a + 1)%N.
Proof. unfold advance_mutation_epoch. intros (e & [-> _]%ok_or_Ok%checked_add_Some & [= <-])%rbind_Ok. done. Qed.

Lemma is_rooted_spec a id : is_rooted a id = true <-> exists r, a_roots a !! r = Some id.
Proof.
  unfold is_rooted, map_values. rewrite bool_decide_eq_true, list_elem_of_fmap. split.
  - intros ([r id'] & -> & Hr%elem_of_map_entries). eauto.
  - intros [r Hr%elem_of_map_entries]. by exists (r, id).
Qed.

Lemma check_sweep_Ok a ids : check_sweep a ids = Ok tt <->
  Forall (fun id => is_Some (a_objects a !! id) /\ is_rooted a id = false) ids.
Proof.
  induction ids as [|id ids IH]; simpl; [by split|]. rewrite Forall_cons, <- IH.
  destruct (a_objects a !! id); [|split; [done|intros [[[? ?] _] _]; done]].
  destruct (is_rooted a id); naive_solver.
Qed.

Lemma sweep_objects_lookup ids : forall (m : BTreeMap N T) id o,
  sweep_objects ids m !! id = Some o <-> m !! id = Some o /\ id ∉ ids.
Proof.
  unfold sweep_objects. induction ids as [|x ids IH]; intros m id o; simpl; [set_solver|].
  rewrite IH, lookup_delete_Some, not_elem_of_cons. naive_solver.
Qed.

Lemma sweep_objects_size ids (m : BTreeMap N T) : size (sweep_objects ids m) <= size m.
Proof.
  revert m. unfold sweep_objects. induction ids as [|x ids IH]; intros m; simpl; [done|].
  etransitivity; [apply IH|]. rewrite map_size_delete. destruct (m !! x); simpl; lia.
Qed.

Lemma clear_weak_entries_dom entries : forall (m : BTreeMap N T) id,
  is_Some ((clear_weak_entries entries m).2 !! id) <-> is_Some (m !! id).
Proof.
  induction entries as [|[[owner edge] target] rest IH]; intros m id; simpl; [done|].
  destruct (m !! owner) as [o|] eqn:E; [|apply IH]. destruct (clear_weak_edge o edge target) as [b o'].
  specialize (IH (<[owner := o']> m) id). destruct (clear_weak_entries rest (<[owner := o']> m)) as [c m']. simpl in *.
  rewrite IH. destruct (decide (owner = id)) as [->|]; [rewrite lookup_insert_eq, E; done|by rewrite lookup_insert_ne].
Qed.

Lemma clear_ephemeron_entries_dom entries : forall (m : BTreeMap N T) id,
  is_Some ((clear_ephemeron_entries entries m).2 !! id) <-> is_Some (m !! id).
Proof.
  induction entries as [|[[[owner edge] key] value] rest IH]; intros m id; simpl; [done|].
  destruct (m !! owner) as [o|] eqn:E; [|apply IH]. destruct (clear_ephemeron_edge o edge key value) as [b o'].
  specialize (IH (<[owner := o']> m) id). destruct (clear_ephemeron_entries rest (<[owner := o']> m)) as [c m']. simpl in *.
  rewrite IH. destruct (decide (owner = id)) as [->|]; [rewrite lookup_insert_eq, E; done|by rewrite lookup_insert_ne].
Qed.

(** Changing stored objects in place or dropping unrooted ones, at a later
    epoch, keeps the invariant. *)
Lemma shrink_inv a m epoch kept :
  ArenaInv a -> (forall id, is_Some (m !! id) -> is_Some (a_objects a !! id)) ->
  (forall r id, a_roots a !! r = Some id -> is_Some (m !! id)) ->
  size m <= size (a_objects a) ->
  (forall id e, kept !! id = Some e -> (e <= epoch)%N /\ (e = epoch -> is_Some (m !! id))) ->
  ArenaInv {| a_cap := a_cap a; a_next_id := a_next_id a; a_next_root := a_next_root a;
    a_next_safepoint := a_next_safepoint a; a_epoch := epoch; a_objects := m; a_roots := a_roots a; a_kept_alive := kept |}.
Proof.
  intros [Hi Hr Hri Hc Hk] Hsub Hroots Hsize Hkept. split; simpl; auto. lia.
Qed.

(** What was kept at an earlier epoch is no longer protected. *)
Lemma kept_older a (P : N -> Prop) : ArenaInv a -> forall id e, a_kept_alive a !! id = Some e ->
  (e <= a_epoch a + 1)%N /\ (e = (a_epoch a + 1)%N -> P id).
Proof. intros HI id e He. apply (ai_kept a HI) in He as [Hle _]. split; [lia|]. intros ->. lia. Qed.

Lemma size_same_dom (m m' : BTreeMap N T) : (forall id, is_Some (m !! id) <-> is_Some (m' !! id)) -> size m = size m'.
Proof. intros Hd. rewrite <- !size_dom. f_equal. apply set_eq. intros id. by rewrite !elem_of_dom. Qed.

(** An identity handed out before and not live stays dead. *)
Definition no_revival a a' : Prop :=
  (a_next_id a <= a_next_id a')%N /\
  forall id, (id < a_next_id a)%N -> is_Some (a_objects a' !! id) -> is_Some (a_objects a !! id).

Lemma update_object_inv a id o o' : ArenaInv a -> a_objects a !! id = Some o ->
  let a' := set_objects (set_epoch a (a_epoch a + 1)%N) (a_next_id a) (<[id := o']> (a_objects a)) in
  ArenaInv a' /\ no_revival a a'.
Proof.
  intros HI Ho a'.
  assert (forall k, is_Some (<[id := o']> (a_objects a) !! k) <-> is_Some (a_objects a !! k)) as Hd.
  { intros k. destruct (decide (id = k)) as [<-|Hne]; [rewrite lookup_insert_eq, Ho; done|by rewrite lookup_insert_ne]. }
  split.
  - apply (shrink_inv a (<[id := o']> (a_objects a)) (a_epoch a + 1)%N (a_kept_alive a)); [done|by intros k ?%Hd| | |by apply kept_older].
    + intros r k Hr. apply Hd. by eapply ai_roots.
    + by rewrite (size_same_dom _ _ Hd).
  - split; [simpl; lia|]. intros k _ Hk. by apply Hd.
Qed.

Lemma allocate_inv a o id a' : ArenaInv a -> arena_allocate a o = Ok (id, a') ->
  ArenaInv a' /\ no_revival a a' /\ a_objects a !! id = None /\ a_objects a' = <[id := o]> (a_objects a).
Proof.
  intros HI. unfold arena_allocate. destruct (Nat.leb_spec (a_cap a) (size (a_objects a))) as [|Hlt]; [done|].
  intros (next & [-> _]%ok_or_Ok%checked_add_Some & (a1 & ->%advance_Ok & [= <- <-])%rbind_Ok)%rbind_Ok.
  assert (a_objects a !! a_next_id a = None) as Hnone.
  { apply eq_None_not_Some. intros Hs%(ai_ids a HI). lia. }
  pose proof HI as [Hi Hr Hri Hc Hk]. split_and!; [| |done|done].
  - split; simpl.
    + intros k [v [[<- _]|[_ Hv]]%lookup_insert_Some]; [lia|]. assert (k < a_next_id a)%N by eauto. lia.
    + intros r k Hrk. apply Hr in Hrk. rewrite lookup_insert_is_Some. destruct (decide (a_next_id a = k)); auto.
    + done.
    + rewrite map_size_insert_None by done. lia.
    + by apply kept_older.
  - split; simpl; [lia|]. intros k Hk' [v [[<- _]|[_ Hv]]%lookup_insert_Some]; [lia|eauto].
Qed.

Lemma roots_inv a next m : ArenaInv a -> (a_next_root a <= next)%N ->
  (forall r id, m !! r = Some id -> is_Some (a_objects a !! id) /\ (r < next)%N) ->
  let a' := set_roots (set_epoch a (a_epoch a + 1)%N) next m in ArenaInv a' /\ no_revival a a'.
Proof.
  intros HI Hle Hm a'. pose proof HI as [Hi Hr Hri Hc Hk]. split; [|by split].
  split; simpl; [done| | |done|by apply kept_older].
  - intros r id ?%Hm. naive_solver.
  - intros r [id ?%Hm]. naive_solver.
Qed.

Lemma sweep_inv a ids m kept epoch : ArenaInv a ->
  (forall id, is_Some (m !! id) <-> is_Some (a_objects a !! id)) ->
  Forall (fun id => is_Some (a_objects a !! id) /\ is_rooted a id = false) ids ->
  (forall id e, kept !! id = Some e -> (e <= epoch)%N /\ (e = epoch -> is_Some (sweep_objects ids m !! id))) ->
  let a' := {| a_cap := a_cap a; a_next_id := a_next_id a; a_next_root := a_next_root a;
    a_next_safepoint := a_next_safepoint a; a_epoch := epoch; a_objects := sweep_objects ids m;
    a_roots := a_roots a; a_kept_alive := kept |} in
  ArenaInv a' /\ no_revival a a'.
Proof.
  intros HI Hd Hall Hkept a'. split.
  - apply shrink_inv; [done| | | |done].
    + intros id [o [Ho _]%sweep_objects_lookup]. apply Hd. eauto.
    + intros r id Hr. destruct (proj2 (Hd id)) as [o Ho]; [by eapply ai_roots|]. exists o.
      apply sweep_objects_lookup. split; [done|]. intros Hin. rewrite Forall_forall in Hall.
      destruct (Hall id Hin) as [_ Hnr]. assert (is_rooted a id = true) by (apply is_rooted_spec; eauto). congruence.
    + etransitivity; [apply sweep_objects_size|]. by rewrite (size_same_dom _ _ Hd).
  - split; [simpl; lia|]. intros id _ [o [Ho _]%sweep_objects_lookup]. apply Hd. eauto.
Qed.

Lemma collection_inv a e w ep ids r a' :
  ArenaInv a -> apply_collection_at_epoch a e w ep ids = Ok (r, a') -> ArenaInv a' /\ no_revival a a'.
Proof.
  intros HI. unfold apply_collection_at_epoch. case_decide as He; [|done]. subst e.
  intros ([] & Hs%check_sweep_Ok & (a1 & Ha1 & Hr)%rbind_Ok)%rbind_Ok.
  set (actual := filter (fun id => id ∉ kept_at a (a_epoch a)) ids) in *.
  assert (exists epoch, a1 = set_epoch a epoch /\ (a_epoch a <= epoch)%N) as (epoch & -> & Hle).
  { assert (a1 = set_epoch a (a_epoch a) \/ advance_mutation_epoch a = Ok a1) as [->| ->%advance_Ok]
      by (destruct w, ep, actual; (right; exact Ha1) || (left; injection Ha1 as <-; by destruct a)).
    - by exists (a_epoch a).
    - exists (a_epoch a + 1)%N. split; [done|lia]. }
  destruct (clear_weak_entries w (a_objects a)) as [cw m1] eqn:Ew. simpl in Hr. rewrite Ew in Hr.
  destruct (clear_ephemeron_entries ep m1) as [ce m2] eqn:Ee. injection Hr as <- <-.
  apply (sweep_inv a actual m2); [done| |done|].
  - intros id. pose proof (clear_weak_entries_dom w (a_objects a) id) as H1. rewrite Ew in H1.
    pose proof (clear_ephemeron_entries_dom ep m1 id) as H2. rewrite Ee in H2. simpl in *. by rewrite H2, H1.
  - simpl. intros id e [Hk [Hs' Hne]]%map_lookup_filter_Some. simpl in Hs', Hne. split; [|done].
    apply (ai_kept a HI) in Hk as [? _]. lia.
Qed.

Lemma arena_step_inv a a' : ArenaInv a -> arena_step a a' -> ArenaInv a' /\ no_revival a a'.
Proof.
  intros HI Hs. destruct Hs as [a o id a' Hs|a id f a' Hs|a id h a' Hs|a id h a' Hs|a h id a' Hs|a id o a' Hs
    |a o e t b a' Hs|a e ids ids' a' Hs|a e w ep ids r a' Hs|X a trace x r a' Hs|a].
  - destruct (allocate_inv a o id a' HI Hs) as (? & ? & _). done.
  - unfold arena_modify in Hs. destruct (a_objects a !! id) as [o|] eqn:Ho; [|done].
    apply rbind_Ok in Hs as (a1 & ->%advance_Ok & (o1 & _ & [= <-])%rbind_Ok). by eapply update_object_inv.
  - unfold arena_upgrade in Hs. destruct (a_objects a !! id) as [o|] eqn:Ho; [|done]. injection Hs as <- <-.
    split; [|by split]. pose proof HI as [Hi Hr Hri Hc Hk]. split; simpl; try done.
    intros k e [[<- <-]|[_ Hke]]%lookup_insert_Some; [split; [lia|eauto]|by apply Hk].
  - unfold arena_root in Hs. apply rbind_Ok in Hs as (o & Ho%ok_or_Ok & Hs).
    apply rbind_Ok in Hs as (next & [-> _]%ok_or_Ok%checked_add_Some & (a1 & ->%advance_Ok & [= <- <-])%rbind_Ok).
    apply roots_inv; [done|lia|]. intros r k [[<- <-]|[_ Hr]]%lookup_insert_Some; [split; [eauto|lia]|].
    split; [by eapply ai_roots|]. assert (r < a_next_root a)%N by (eapply ai_root_ids; eauto). lia.
  - unfold arena_release_root in Hs. destruct (a_roots a !! rh_root h) as [k|] eqn:Hk; [|done]. case_decide; [|done].
    apply rbind_Ok in Hs as (a1 & ->%advance_Ok & [= <- <-]). apply roots_inv; [done|done|].
    intros r k' [_ Hr]%lookup_delete_Some. split; [by eapply ai_roots|]. eapply ai_root_ids; eauto.
  - unfold arena_remove in Hs. destruct (is_rooted a id) eqn:Er; [done|]. destruct (a_objects a !! id) as [o'|] eqn:Ho; [|done].
    apply rbind_Ok in Hs as (a1 & ->%advance_Ok & (o1 & _ & [= <- <-])%rbind_Ok).
    apply (sweep_inv a [id] (a_objects a) (a_kept_alive a) (a_epoch a + 1)%N HI); [done|..|by apply kept_older].
    by repeat constructor; [rewrite Ho|].
  - unfold arena_clear_weak in Hs. destruct (a_objects a !! o) as [obj|] eqn:Ho; [|done].
    apply rbind_Ok in Hs as (a1 & ->%advance_Ok & (o1 & _ & Hr)%rbind_Ok).
    destruct (clear_weak_edge o1 e t) as [c o2]. injection Hr as <- <-. by eapply update_object_inv.
  - unfold sweep_at_epoch in Hs. case_decide as He; [|done].
    apply rbind_Ok in Hs as ([] & Hall%check_sweep_Ok & (a1 & Ha1 & [= <- <-])%rbind_Ok).
    destruct ids as [|id ids]; [injection Ha1 as <-; split; [by destruct a|split; [done|simpl; auto]]|].
    apply advance_Ok in Ha1 as ->.
    apply (sweep_inv a (id :: ids) (a_objects a) (a_kept_alive a) (a_epoch a + 1)%N HI); [done|done|by apply kept_older].
  - by eapply collection_inv.
  - unfold safepoint in Hs. apply rbind_Ok in Hs as (next & _ & [= <- <- <-]).
    split; [|by split]. by destruct HI.
  - split; [|split; [done|]].
    + split; simpl; intros *; rewrite ?lookup_empty, ?map_size_empty; try done; try (by intros []); lia.
    + simpl. intros id _. rewrite lookup_empty. by intros [].
Qed.

Lemma new_arena_inv cap : ArenaInv (new_arena cap).
Proof.
  split; simpl; intros *; rewrite ?lookup_empty, ?map_size_empty; try done; try (by intros []); lia.
Qed.

Lemma arena_steps_inv a a' : ArenaInv a -> rtc arena_step a a' -> ArenaInv a' /\ no_revival a a'.
Proof.
  intros HI Hs. revert HI. induction Hs as [a|a a1 a2 Hst _ IH]; intros HI; [by split|].
  destruct (arena_step_inv a a1 HI Hst) as [HI1 [Hn1 Hr1]]. destruct (IH HI1) as [HI2 [Hn2 Hr2]].
  split; [done|]. split; [lia|]. intros id Hid Hs. apply Hr1; [done|]. apply Hr2; [lia|done].
Qed.

(** C23: Over any history of a managed arena, roots and the upgrades of the
    current epoch name live objects, at most the capped number of objects is
    live, and an identity that was handed out and is dead never names an object
    again. *)
Theorem arena_history cap a :
  rtc arena_step (new_arena cap) a ->
  ArenaInv a /\
  forall a' id, rtc arena_step a a' -> (id < a_next_id a)%N -> a_objects a !! id = None -> a_objects a' !! id = None.
Proof.
  intros Hs. destruct (arena_steps_inv _ a (new_arena_inv cap) Hs) as [HI _]. split; [done|].
  intros a' id Hs' Hid Hn. destruct (arena_steps_inv a a' HI Hs') as [_ [_ Hr]].
  apply eq_None_not_Some. intros Hsome. apply Hr in Hsome; [|done]. rewrite Hn in Hsome. by destruct Hsome.
Qed.
End Objects.
End Arena.

(** ** Roles *)

(** [RoleBearingManagedObject]: a label that tracing does not see. *)
Class RoleBearing (T R : Type) `{ManagedObject T} := {
  managed_role : T -> R;
  replace_managed_role : T -> R -> R * T;
  replace_role_edges : forall o r, trace_edges (replace_managed_role o r).2 = trace_edges o;
}.

Definition node_replace_role {R} (n : ManagedNode R) (role : R) : R * ManagedNode R :=
  (n_role n, {| n_role := role; n_edges := n_edges n; n_limits := n_limits n;
                n_strong := n_strong n; n_weak := n_weak n; n_ephemerons := n_ephemerons n |}).

#[export] Instance node_role {R} : RoleBearing (ManagedNode R) R := {|
  managed_role := n_role;
  replace_managed_role := node_replace_role;
  replace_role_edges := fun _ _ => eq_refl;
|}.

Inductive RoleProjectionError :=
| RoleLimit (limit required : nat)
| RoleArena (e : ArenaError).

Record RoleProjectionReceipt (R : Type) := {
  rp_safepoint : SafepointReceipt;
  rp_epoch : N;
  rp_roles : list (ManagedId * R);
}.
Arguments rp_safepoint {R}.
Arguments rp_epoch {R}.
Arguments rp_roles {R}.

Section Roles.
Context `{RoleBearing T R}.
Implicit Types a : ManagedArena T.

Definition arena_replace_role a (id : ManagedId) (role : R) : Res ArenaError (R * ManagedArena T) :=
  match a_objects a !! id with
  | None => Err (StaleHandle id)
  | Some o =>
    let '(old, o) := replace_managed_role o role in
    Ok (old, set_objects a (a_next_id a) (<[id := o]> (a_objects a)))
  end.

Definition project_roles a (limit : nat) : Res RoleProjectionError (RoleProjectionReceipt R) * ManagedArena T :=
  match safepoint a (fun s =>
    let required := size (ts_objects s) in
    if (limit <? required)%nat then Err (RoleLimit limit required)
    else Ok (ts_epoch s, prod_map id managed_role <$> map_entries (ts_objects s))) with
  | Ok (roles, receipt, a) =>
    (rmap (fun '(epoch, roles) => {| rp_safepoint := receipt; rp_epoch := epoch; rp_roles := roles |}) roles, a)
  | Err e => (Err (RoleArena e), a)
  | Panic => (Panic, a)
  | NoFuel => (NoFuel, a)
  end.

(** Roles are invisible to tracing: replacing one keeps the epoch, the roots and
    the edges of every object. *)
Lemma replace_role_graph a id role old a' :
  arena_replace_role a id role = Ok (old, a') ->
  a_epoch a' = a_epoch a /\ a_roots a' = a_roots a /\
  forall k, trace_edges <$> a_objects a' !! k = trace_edges <$> a_objects a !! k.
Proof.
  unfold arena_replace_role. destruct (a_objects a !! id) as [o|] eqn:Ho; [|done].
  pose proof (replace_role_edges o role) as He. destruct (replace_managed_role o role) as [r o'].
  intros [= <- <-]. split_and!; [done..|]. intros k. simpl. destruct (decide (id = k)) as [<-|Hne].
  - rewrite lookup_insert_eq, Ho. simpl. by rewrite <- He.
  - by rewrite lookup_insert_ne.
Qed.
End Roles.
