(* ===== verification/ControlJobs.v ===== *)
(** * Job queues

    crates/sim-lib-control/src/jobs.rs: typed first-in first-out queues with a
    lifetime admission bound, cancellation by identity and bounded drains that
    may run jobs which use the queues themselves.  A job is a closure over the
    queues, so running one is a parameter; what is known of it is that the
    queues' fields are private and a job can only go through the public
    operations. *)

From stdpp Require Import strings relations.
From S2P Require Import Prelude BTree.

Abbreviation JobId := N.

(** [RuntimeJobClass], ordered by constructor and then by name. *)
Inductive RuntimeJobClass :=
| Finalization
| LanguageMicrotask (name : string).

Definition class_code (c : RuntimeJobClass) : option string :=
  match c with Finalization => None | LanguageMicrotask s => Some s end.

#[export] Instance class_eq_dec : EqDecision RuntimeJobClass.
Proof. solve_decision. Defined.

#[export] Instance class_countable : Countable RuntimeJobClass.
Proof.
  refine (inj_countable' class_code (fun o => match o with None => Finalization | Some s => LanguageMicrotask s end) _).
  by intros [].
Defined.

Definition class_le (a b : RuntimeJobClass) : Prop :=
  match a, b with
  | Finalization, _ => True
  | LanguageMicrotask _, Finalization => False
  | LanguageMicrotask s, LanguageMicrotask t => String.le s t
  end.

#[export] Instance class_le_dec : RelDecision class_le.
Proof. intros [] []; unfold class_le; apply _. Defined.

#[export] Instance class_le_po : PartialOrder class_le.
Proof.
  split; [split|].
  - intros []; simpl; [done|reflexivity].
  - intros [] [] []; simpl; try done. intros ? ?. by etrans.
  - intros [] []; simpl; try done. intros ? ?. f_equal. by apply (anti_symm String.le).
Qed.

#[export] Instance class_le_total : Total class_le.
Proof. intros [] []; simpl; auto. apply (total String.le). Qed.

#[export] Instance class_ord : OrdKey RuntimeJobClass := {| ord_le := class_le |}.

Inductive JobStatus := Queued | Completed | Cancelled.

Record JobReceipt := {
  jr_id : JobId;
  jr_status : JobStatus;
}.

Inductive CheckpointError := AdmissionExhausted | WorkExhausted.

Record DrainReceipt (K : Type) := {
  dr_class : K;
  dr_completed : list JobId;
  dr_pending : bool;
}.
Arguments dr_class {K}.
Arguments dr_completed {K}.
Arguments dr_pending {K}.

Record CheckpointReceipt (K : Type) := {
  cr_class : K;
  cr_completed : list JobId;
}.
Arguments cr_class {K}.
Arguments cr_completed {K}.

(** [JobQueues], with the jobs as values of [J]. *)
Record JobQueues (K J : Type) `{OrdKey K} := {
  q_queues : BTreeMap K (list (JobId * J));
  q_cancelled : BTreeSet N;
  q_next_id : N;
  q_admitted : N;
  q_admission : N;
}.
Arguments q_queues {K J _}.
Arguments q_cancelled {K J _}.
Arguments q_next_id {K J _}.
Arguments q_admitted {K J _}.
Arguments q_admission {K J _}.

Section Jobs.
Context `{OrdKey K} {J : Type}.
Implicit Types q : JobQueues K J.

Definition new_queues (admission : N) : JobQueues K J :=
  {| q_queues := ∅; q_cancelled := ∅; q_next_id := 0; q_admitted := 0; q_admission := admission |}.

Definition remaining_admission q : N := saturating_sub (q_admission q) (q_admitted q).

(** The queue of a class, empty when there is none. *)
Definition queue_of q (class : K) : list (JobId * J) := default [] (q_queues q !! class).

Definition enqueue q (class : K) (job : J) : Res CheckpointError (JobReceipt * JobQueues K J) :=
  if (q_admission q <=? q_admitted q)%N then Err AdmissionExhausted
  else
    let id := q_next_id q in
    Ok ({| jr_id := id; jr_status := Queued |},
        {| q_queues := <[class := queue_of q class ++ [(id, job)]]> (q_queues q);
           q_cancelled := q_cancelled q;
           q_next_id := saturating_add (q_next_id q) 1;
           q_admitted := q_admitted q + 1;
           q_admission := q_admission q |}).

Definition with_cancelled q (s : BTreeSet N) : JobQueues K J :=
  {| q_queues := q_queues q; q_cancelled := s; q_next_id := q_next_id q;
     q_admitted := q_admitted q; q_admission := q_admission q |}.

Definition with_queue q (class : K) (l : list (JobId * J)) : JobQueues K J :=
  {| q_queues := <[class := l]> (q_queues q); q_cancelled := q_cancelled q; q_next_id := q_next_id q;
     q_admitted := q_admitted q; q_admission := q_admission q |}.

Definition cancel_job q (id : JobId) : JobReceipt * JobQueues K J :=
  ({| jr_id := id; jr_status := Cancelled |}, with_cancelled q ({[id]} ∪ q_cancelled q)).

(** [get_mut(class).and_then(VecDeque::pop_front)]. *)
Definition pop_job q (class : K) : option (JobId * J * JobQueues K J) :=
  match q_queues q !! class with
  | Some (e :: rest) => Some (e, with_queue q class rest)
  | _ => None
  end.

Definition class_pending q (class : K) : bool :=
  match q_queues q !! class with Some (_ :: _) => true | _ => false end.

Section Run.
Variable run : J -> JobQueues K J -> JobQueues K J.

Fixpoint run_selected (class : K) (limit : nat) q : list JobId * JobQueues K J :=
  match limit with
  | 0 => ([], q)
  | S limit =>
    match pop_job q class with
    | None => ([], q)
    | Some (id, job, q) =>
      if decide (id ∈ q_cancelled q) then run_selected class limit (with_cancelled q (q_cancelled q ∖ {[id]}))
      else
        let '(completed, q) := run_selected class limit (run job q) in
        (id :: completed, q)
    end
  end.

Definition drain (class : K) (work : nat) q : DrainReceipt K * JobQueues K J :=
  let '(completed, q) := run_selected class work q in
  ({| dr_class := class; dr_completed := completed; dr_pending := class_pending q class |}, q).

Definition checkpoint (class : K) (work : nat) q : Res CheckpointError (CheckpointReceipt K) * JobQueues K J :=
  let '(completed, q) := run_selected class work q in
  (if class_pending q class then Err WorkExhausted else Ok {| cr_class := class; cr_completed := completed |}, q).
End Run.

(** ** What can happen to the queues *)

(** The changes the public operations are made of: a job that runs can cause
    any sequence of them, nested drains included. *)
Inductive queue_step : JobQueues K J -> JobQueues K J -> Prop :=
| step_enqueue q c j r q' : enqueue q c j = Ok (r, q') -> queue_step q q'
| step_cancel q id : queue_step q (cancel_job q id).2
| step_pop q c e q' : pop_job q c = Some (e, q') -> queue_step q q'
| step_uncancel q id : queue_step q (with_cancelled q (q_cancelled q ∖ {[id]})).

Definition queued q (id : JobId) : Prop := exists c j, (id, j) ∈ queue_of q c.

Record QueueInv q : Prop := {
  qi_bound : (q_admitted q <= q_admission q)%N;
  qi_next : q_next_id q = q_admitted q;
  qi_width : (q_admission q <= usize_max)%N;
  qi_sorted : forall c, StronglySorted N.lt (queue_of q c).*1;
  qi_ids : forall id, queued q id -> (id < q_next_id q)%N;
  qi_disjoint : forall c d id j k, (id, j) ∈ queue_of q c -> (id, k) ∈ queue_of q d -> c = d;
}.

(** What holds between the queues before and after: identities are not reused,
    and the queue of a class only loses jobs and gains later ones. *)
Record QueueLater q q' : Prop := {
  ql_next : (q_next_id q <= q_next_id q')%N;
  ql_old : forall c e, e ∈ queue_of q' c -> e ∈ queue_of q c \/ (q_next_id q <= e.1)%N;
  ql_admission : q_admission q' = q_admission q;
}.

Lemma queue_of_insert q c d l :
  default [] (<[c := l]> (q_queues q) !! d) = if decide (c = d) then l else queue_of q d.
Proof. case_decide as Hd; [subst; by rewrite lookup_insert_eq|by rewrite lookup_insert_ne]. Qed.

Lemma pop_job_Some q c e q' :
  pop_job q c = Some (e, q') <-> exists rest, queue_of q c = e :: rest /\ q' = with_queue q c rest.
Proof.
  unfold pop_job, queue_of. destruct (q_queues q !! c) as [[|x l]|]; simpl; naive_solver.
Qed.

Lemma pop_job_None q c : pop_job q c = None <-> queue_of q c = [].
Proof. unfold pop_job, queue_of. destruct (q_queues q !! c) as [[|x l]|]; simpl; naive_solver. Qed.

Lemma class_pending_spec q c : class_pending q c = true <-> queue_of q c <> [].
Proof. unfold class_pending, queue_of. destruct (q_queues q !! c) as [[|x l]|]; simpl; naive_solver. Qed.

Lemma sorted_snoc (l : list N) x : StronglySorted N.lt l -> (forall y, y ∈ l -> (y < x)%N) -> StronglySorted N.lt (l ++ [x]).
Proof.
  induction 1 as [|a l Hs IH Hf]; intros Hlt; simpl; [repeat constructor|]. constructor.
  - apply IH. intros y Hy. apply Hlt. by right.
  - apply Forall_app. split; [done|]. constructor; [|done]. apply Hlt. by left.
Qed.

#[global] Instance QueueLater_preorder : PreOrder QueueLater.
Proof.
  split.
  - intros q. split; [lia|auto|done].
  - intros q1 q2 q3 [Hn1 Ho1 Ha1] [Hn2 Ho2 Ha2]. split; [lia| |congruence].
    intros c e [He|He]%Ho2; [auto|]. right. lia.
Qed.

Lemma queue_step_inv q q' : QueueInv q -> queue_step q q' -> QueueInv q' /\ QueueLater q q'.
Proof.
  intros [Hb Hn Hw Hs Hi Hd] Hst. destruct Hst as [q c j r q' He|q id|q c e q' Hp|q id].
  - unfold enqueue in He. destruct (N.leb_spec (q_admission q) (q_admitted q)) as [|Hlt]; [done|]. injection He as <- <-.
    assert (saturating_add (q_next_id q) 1 = q_next_id q + 1)%N as Hsat by (unfold saturating_add; lia).
    assert (forall d e, e ∈ default [] (<[c := queue_of q c ++ [(q_next_id q, j)]]> (q_queues q) !! d) ->
      e ∈ queue_of q d \/ (e = (q_next_id q, j) /\ c = d)) as Hin.
    { intros d e. rewrite queue_of_insert. case_decide; [subst|auto]. rewrite elem_of_app, list_elem_of_singleton. tauto. }
    split; [split|split]; simpl; rewrite ?Hsat; try lia; try done.
    + intros d. unfold queue_of at 1. simpl. rewrite queue_of_insert. case_decide as Hcd; [|apply Hs]. subst d.
      rewrite fmap_app. apply sorted_snoc; [apply Hs|]. intros y ([y' k] & -> & Hy)%list_elem_of_fmap. apply Hi. by exists c, k.
    + intros id (d & k & [Hk|[[= -> ->] ->]]%Hin); [|lia]. assert (id < q_next_id q)%N by (apply Hi; by exists d, k). lia.
    + intros d1 d2 id k1 k2 [H1|[E1 <-]]%Hin [H2|[E2 <-]]%Hin; simplify_eq; [by eapply Hd| | |done].
      * assert (q_next_id q < q_next_id q)%N by (apply Hi; by exists d1, k1). lia.
      * assert (q_next_id q < q_next_id q)%N by (apply Hi; by exists d2, k2). lia.
    + intros d e [He|[-> _]]%Hin; [by left|right; simpl; lia].
  - by split; split; simpl; try lia; auto.
  - apply pop_job_Some in Hp as (rest & Hq & ->).
    assert (forall d x, x ∈ default [] (<[c := rest]> (q_queues q) !! d) -> x ∈ queue_of q d) as Hin.
    { intros d x. rewrite queue_of_insert. case_decide; [subst; rewrite Hq; by right|done]. }
    split; [split|split]; simpl; try lia; try done.
    + intros d. unfold queue_of. simpl. rewrite queue_of_insert. case_decide as Hcd; [|apply Hs]. subst d.
      specialize (Hs c). rewrite Hq in Hs. by apply StronglySorted_inv in Hs as [? _].
    + intros id (d & k & Hk%Hin). apply Hi. by exists d, k.
    + intros d1 d2 id k1 k2 H1%Hin H2%Hin. by eapply Hd.
    + intros d x He%Hin. by left.
  - by split; split; simpl; try lia; auto.
Qed.

Lemma queue_steps_inv q q' : QueueInv q -> rtc queue_step q q' -> QueueInv q' /\ QueueLater q q'.
Proof.
  intros HI Hs. revert HI. induction Hs as [q|q q1 q2 Hst _ IH]; intros HI; [by split|].
  destruct (queue_step_inv q q1 HI Hst) as [HI1 HL1]. destruct (IH HI1) as [HI2 HL2]. split; [done|by etrans].
Qed.

Lemma new_queues_inv admission : (admission <= usize_max)%N -> QueueInv (new_queues admission).
Proof.
  intros Hw. split; simpl; try lia; try done; unfold queued, queue_of; simpl.
  - intros c. rewrite lookup_empty. constructor.
  - intros id (c & j & Hin). rewrite lookup_empty in Hin. by apply not_elem_of_nil in Hin.
  - intros c d id j k Hin. rewrite lookup_empty in Hin. by apply not_elem_of_nil in Hin.
Qed.

Lemma not_queued_later q q' id : QueueLater q q' -> (id < q_next_id q)%N -> ~ queued q id -> ~ queued q' id.
Proof.
  intros HL Hid Hn (c & j & [Hin|Hle]%(ql_old q q' HL)); [|simpl in Hle; lia]. apply Hn. by exists c, j.
Qed.

(** The job taken from a queue is gone, and what the queue holds is later. *)
Lemma pop_job_fresh q c id j q' :
  QueueInv q -> pop_job q c = Some (id, j, q') ->
  (id < q_next_id q')%N /\ ~ queued q' id /\ (forall e, e ∈ queue_of q' c -> (id < e.1)%N).
Proof.
  intros HI Hp. apply pop_job_Some in Hp as (rest & Hq & ->). destruct HI as [_ _ _ Hs Hi Hd].
  assert (forall e, e ∈ rest -> (id < e.1)%N) as Hgt.
  { specialize (Hs c). rewrite Hq in Hs. apply StronglySorted_inv in Hs as [_ Hf]. rewrite Forall_forall in Hf.
    intros e He. apply Hf. by apply list_elem_of_fmap_2. }
  assert ((id, j) ∈ queue_of q c) as Hin by (rewrite Hq; by left).
  split_and!.
  - apply Hi. by exists c, j.
  - intros (d & k & Hk). unfold queue_of in Hk. simpl in Hk. rewrite queue_of_insert in Hk. case_decide as Hcd.
    + apply Hgt in Hk. simpl in Hk. lia.
    + apply Hcd. by eapply Hd.
  - intros e. unfold queue_of. simpl. rewrite queue_of_insert. rewrite decide_True by done. apply Hgt.
Qed.

Section Drains.
Variable run : J -> JobQueues K J -> JobQueues K J.

(** A job reaches the queues through their public operations only. *)
Definition public_jobs : Prop := forall j q, rtc queue_step q (run j q).

Lemma run_selected_steps (Hrun : public_jobs) class limit : forall q, rtc queue_step q (run_selected run class limit q).2.
Proof.
  induction limit as [|limit IH]; intros q; simpl; [done|]. destruct (pop_job q class) as [[[id j] q1]|] eqn:Hp; [|done].
  eapply rtc_l; [by eapply step_pop|]. case_decide.
  - eapply rtc_l; [apply step_uncancel|apply IH].
  - specialize (IH (run j q1)). destruct (run_selected run class limit (run j q1)) as [cs q2]. simpl in *.
    etrans; [apply Hrun|done].
Qed.

(** Completed jobs come in admission order, after every bound below the queue,
    and are gone for good. *)
Lemma run_selected_order (Hrun : public_jobs) class limit : forall q b,
  QueueInv q -> (forall e, e ∈ queue_of q class -> (b <= e.1)%N) -> (b <= q_next_id q)%N ->
  let r := run_selected run class limit q in
  StronglySorted N.lt r.1 /\ Forall (fun id => (b <= id)%N) r.1 /\ length r.1 <= limit /\
  Forall (fun id => (id < q_next_id r.2)%N /\ ~ queued r.2 id) r.1.
Proof.
  induction limit as [|limit IH]; intros q b HI Hb Hn r; subst r; simpl; [repeat constructor|].
  destruct (pop_job q class) as [[[id j] q1]|] eqn:Hp; [|simpl; split_and!; (done || lia || constructor)].
  destruct (queue_step_inv q q1 HI) as [HI1 HL1]; [by eapply step_pop|].
  destruct (pop_job_fresh q class id j q1 HI Hp) as (Hid & Hgone & Hgt).
  assert (b <= id)%N as Hbid by (apply pop_job_Some in Hp as (rest & Hq & _); apply (Hb (id, j)); rewrite Hq; by left).
  case_decide as Hc.
  - assert (queue_step q1 (with_cancelled q1 (q_cancelled q1 ∖ {[id]}))) as Hst by apply step_uncancel.
    destruct (queue_step_inv _ _ HI1 Hst) as [HI2 _].
    destruct (IH _ b HI2) as (Hs & Hf & Hl & Hg).
    { intros e He. apply Hgt in He. lia. }
    { simpl. lia. }
    split_and!; [exact Hs|exact Hf|exact (Nat.le_trans _ _ _ Hl (Nat.le_succ_diag_r limit))|exact Hg].
  - destruct (queue_steps_inv q1 (run j q1) HI1 (Hrun j q1)) as [HI2 HL2].
    pose proof (run_selected_steps Hrun class limit (run j q1)) as Hsteps.
    destruct (queue_steps_inv _ _ HI2 Hsteps) as [_ HL3].
    destruct (IH (run j q1) (id + 1)%N HI2) as (Hs & Hf & Hl & Hg).
    { intros e [He|He]%(ql_old _ _ HL2); [apply Hgt in He|]; lia. }
    { pose proof (ql_next _ _ HL2). lia. }
    destruct (run_selected run class limit (run j q1)) as [cs q2]. simpl in *. split_and!.
    + constructor; [done|]. eapply Forall_impl; [exact Hf|]. simpl. lia.
    + constructor; [done|]. eapply Forall_impl; [exact Hf|]. simpl. lia.
    + lia.
    + constructor; [|done]. assert (QueueLater q1 q2) as HL by (by etrans). split.
      * pose proof (ql_next _ _ HL). lia.
      * by apply (not_queued_later q1).
Qed.

(** Jobs that leave the queues alone: the oldest ones run, less the cancelled. *)
Lemma run_selected_silent class limit : (forall j q, run j q = q) -> forall q, QueueInv q ->
  let r := run_selected run class limit q in
  r.1 = filter (fun id => id ∉ q_cancelled q) (take limit (queue_of q class).*1) /\
  queue_of r.2 class = drop limit (queue_of q class) /\
  (forall d, d <> class -> queue_of r.2 d = queue_of q d).
Proof.
  intros Hrun. induction limit as [|limit IH]; intros q HI r; subst r; simpl; [done|].
  destruct (pop_job q class) as [[[id j] q1]|] eqn:Hp; [|apply pop_job_None in Hp; by rewrite Hp].
  assert (QueueInv q1) as HI1 by (eapply queue_step_inv; [exact HI|by eapply step_pop]).
  destruct (pop_job_fresh q class id j q1 HI Hp) as (_ & _ & Hgt).
  apply pop_job_Some in Hp as (rest & Hq & ->). rewrite Hq. simpl.
  assert (queue_of (with_queue q class rest) class = rest) as Hrest.
  { unfold queue_of. simpl. rewrite queue_of_insert. by rewrite decide_True. }
  assert (forall d, d <> class -> queue_of (with_queue q class rest) d = queue_of q d) as Hother.
  { intros d Hd. unfold queue_of. simpl. rewrite queue_of_insert. by rewrite decide_False. }
  rewrite Hrest in Hgt. rewrite filter_cons. case_decide as Hc.
  - rewrite decide_False by (simpl in Hc; tauto).
    destruct (IH (with_cancelled (with_queue q class rest) (q_cancelled q ∖ {[id]}))) as (H1 & H2 & H3).
    { exact (proj1 (queue_step_inv _ _ HI1 (step_uncancel (with_queue q class rest) id))). }
    change (queue_of (with_cancelled ?x _)) with (queue_of x) in *. rewrite Hrest in H1, H2.
    split_and!; [|exact H2|intros d Hd; rewrite <- (Hother d Hd); by apply H3].
    etrans; [exact H1|]. simpl. apply list_filter_ext_in. intros x Hx.
    apply elem_of_take in Hx as (i & Hx & _). apply list_elem_of_lookup_2 in Hx. apply list_elem_of_fmap in Hx as (e & -> & He). apply Hgt in He. set_solver by lia.
  - rewrite Hrun. rewrite decide_True by (simpl in Hc; tauto).
    destruct (IH (with_queue q class rest) HI1) as (H1 & H2 & H3). rewrite Hrest in H1, H2.
    destruct (run_selected run class limit (with_queue q class rest)) as [cs q2]. simpl in *.
    split_and!; [by rewrite H1|done|]. intros d Hd. by rewrite H3, Hother.
Qed.

(** Over any history of job queues whose jobs use them only through the
    public operations, nested drains included, at most the admitted number of
    jobs is accepted; a drain runs at most its limit of jobs, in admission order
    and each once, and a job that ran is never queued again.  A drain reports
    pending work, and a checkpoint fails, exactly when jobs of the class are
    left.  Jobs that do not touch the queues are the oldest ones of the class,
    less the cancelled, and other classes are left alone. *)
Theorem jobs_fifo_once admission q class limit :
  (admission <= usize_max)%N -> public_jobs -> rtc queue_step (new_queues admission) q ->
  let '(completed, q') := run_selected run class limit q in
  QueueInv q' /\
  StronglySorted N.lt completed /\ length completed <= limit /\
  (forall id q'', id ∈ completed -> rtc queue_step q' q'' -> ~ queued q'' id) /\
  ((drain run class limit q).1.(dr_pending) = true <-> queue_of q' class <> []) /\
  ((checkpoint run class limit q).1 = Err WorkExhausted <-> queue_of q' class <> []) /\
  ((forall j q, run j q = q) ->
   completed = filter (fun id => id ∉ q_cancelled q) (take limit (queue_of q class).*1) /\
   queue_of q' class = drop limit (queue_of q class) /\
   (forall d, d <> class -> queue_of q' d = queue_of q d)).
Proof.
  intros Hw Hrun Hs.
  destruct (queue_steps_inv _ q (new_queues_inv admission Hw) Hs) as [HI _].
  destruct (queue_steps_inv _ _ HI (run_selected_steps Hrun class limit q)) as [HI' _].
  destruct (run_selected_order Hrun class limit q 0%N HI) as (Hsort & _ & Hl & Hg); [lia..|].
  pose proof (fun Hsilent => run_selected_silent class limit Hsilent q HI) as Hq.
  unfold drain, checkpoint. destruct (run_selected run class limit q) as [cs q'] eqn:E. simpl in *.
  split_and!; [done|done|done| |by rewrite class_pending_spec| |done].
  - intros id q'' Hin Hs'. rewrite Forall_forall in Hg. destruct (Hg id Hin) as [Hid Hn].
    apply (not_queued_later q'); [|done|done]. by apply queue_steps_inv.
  - rewrite <- class_pending_spec. destruct (class_pending q' class); naive_solver.
Qed.
End Drains.
End Jobs.

(** Two jobs of which the first is cancelled. *)
Definition sample_queues : JobQueues RuntimeJobClass nat :=
  let q := new_queues 3%N in
  match enqueue q Finalization 10 with
  | Ok (_, q) => match enqueue q Finalization 11 with Ok (_, q) => (cancel_job q 0%N).2 | _ => q end
  | _ => q
  end.

Lemma sample_queues_steps : rtc queue_step (new_queues 3%N) sample_queues.
Proof.
  unfold sample_queues. destruct (enqueue (new_queues 3%N) Finalization 10) as [[r q]| | |] eqn:E; [|done..].
  eapply rtc_l; [by eapply step_enqueue|].
  destruct (enqueue q Finalization 11) as [[r' q']| | |] eqn:E'; [|done..].
  eapply rtc_l; [by eapply step_enqueue|]. apply rtc_once, step_cancel.
Qed.

Lemma jobs_fifo_once_witness :
  (run_selected (fun _ q => q) Finalization 2 sample_queues).1 = [1%N] /\
  queue_of (run_selected (fun _ q => q) Finalization 2 sample_queues).2 Finalization = [].
Proof.
  pose proof (jobs_fifo_once (fun _ q => q) 3%N sample_queues Finalization 2 ltac:(done)
    (fun _ q => rtc_refl _ q) sample_queues_steps) as Ht.
  destruct (run_selected (fun _ q => q) Finalization 2 sample_queues) as [cs q'].
  destruct Ht as (_ & _ & _ & _ & _ & _ & Hs). destruct (Hs (fun _ _ => eq_refl)) as (H1 & H2 & _).
  split; [etrans; [exact H1|]|etrans; [exact H2|]]; vm_compute; done.
Defined.
