(* ===== verification/GcCollector.v ===== *)
(** * The tracing collector

    crates/sim-lib-gc-tracing/src/collector.rs, finalization.rs, heap.rs and
    lib.rs: a bounded stop-the-world collection that plans on a snapshot of the
    arena (marking from roots and kept objects, then ephemerons to a fixed
    point), applies the plan atomically and admits finalization jobs.  This file
    holds the definitions; GcMarking proves the plan exact and GcCollect the
    collection. *)

From S2P Require Import Prelude BTree ManagedNode ManagedArena ControlJobs.

Record CollectionLimits := {
  l_objects : N;
  l_edges : N;
  l_stack : N;
  l_work : N;
  l_clears : N;
  l_finalizers : N;
}.

Inductive LimitKind := LObjects | LEdges | LStack | LWork | LClears | LFinalizers.

Record FailureReceipt := {
  fr_epoch : N;
  fr_kind : LimitKind;
  fr_limit : N;
  fr_required : N;
}.

Inductive CollectionError :=
| CLimit (r : FailureReceipt)
| CArena (e : ArenaError).

(** ** Finalization registrations *)

Record FinalizationRecord := {
  f_registration : N;
  f_target : ManagedId;
}.

Inductive RegistrationState := Registered | RCancelled | RAdmitted.

#[export] Instance RegistrationState_eq_dec : EqDecision RegistrationState.
Proof. solve_decision. Defined.

Record FinalizationRegistry := {
  g_next : N;
  g_entries : BTreeMap N (ManagedId * RegistrationState);
}.

Definition default_registry : FinalizationRegistry := {| g_next := 0; g_entries := ∅ |}.

Definition register (g : FinalizationRegistry) (target : ManagedId) : N * FinalizationRegistry :=
  let id := g_next g in
  (id, {| g_next := saturating_add (g_next g) 1; g_entries := <[id := (target, Registered)]> (g_entries g) |}).

Definition cancel_registration (g : FinalizationRegistry) (registration : N) : bool * FinalizationRegistry :=
  match g_entries g !! registration with
  | None => (false, g)
  | Some (target, state) =>
    if decide (state = Registered)
    then (true, {| g_next := g_next g; g_entries := <[registration := (target, RCancelled)]> (g_entries g) |})
    else (false, g)
  end.

Definition ready (g : FinalizationRegistry) (swept : BTreeSet N) : list FinalizationRecord :=
  omap (fun '(registration, (target, state)) =>
    if decide (state = Registered /\ target ∈ swept)
    then Some {| f_registration := registration; f_target := target |} else None) (map_entries (g_entries g)).

Definition mark_admitted (g : FinalizationRegistry) (records : list FinalizationRecord) : FinalizationRegistry :=
  {| g_next := g_next g;
     g_entries := foldl (fun m r =>
       match m !! f_registration r with
       | Some (target, _) => <[f_registration r := (target, RAdmitted)]> m
       | None => m
       end) (g_entries g) records |}.

(** ** Marking *)

(** What the visitor [Edges] collects of one object. *)
Definition strong_targets (edges : list EdgeSnapshot) : list ManagedId :=
  omap (fun s => match s with Strong _ t => Some t | _ => None end) edges.

Definition weak_entries (owner : ManagedId) (edges : list EdgeSnapshot) : list (ManagedId * EdgeId * ManagedId) :=
  omap (fun s => match s with Weak e t => Some (owner, e, t) | _ => None end) edges.

Definition ephemeron_entries (owner : ManagedId) (edges : list EdgeSnapshot) : list (ManagedId * EdgeId * ManagedId * ManagedId) :=
  omap (fun s => match s with Ephemeron e k v => Some (owner, e, k, v) | _ => None end) edges.

Definition charge (epoch : N) (kind : LimitKind) (limit required : N) : Res CollectionError unit :=
  if (limit <? required)%N
  then Err (CLimit {| fr_epoch := epoch; fr_kind := kind; fr_limit := limit; fr_required := required |})
  else Ok tt.

(** The variables of the mark phase; the stack's top is the head of the list. *)
Record Marking := {
  k_marked : BTreeSet N;
  k_pending : list ManagedId;
  k_edges : N;
  k_work : N;
  k_ephemerons : list (ManagedId * EdgeId * ManagedId * ManagedId);
  k_weak : list (ManagedId * EdgeId * ManagedId);
}.

Definition with_pending (k : Marking) (work : N) (pending : list ManagedId) : Marking :=
  {| k_marked := k_marked k; k_pending := pending; k_edges := k_edges k; k_work := work;
     k_ephemerons := k_ephemerons k; k_weak := k_weak k |}.

Definition push_unmarked (marked : BTreeSet N) (targets pending : list ManagedId) : list ManagedId :=
  foldl (fun pending target => if decide (target ∈ marked) then pending else target :: pending) pending targets.

(** A plan accepted at a safepoint. *)
Record Plan := {
  p_epoch : N;
  p_all : list ManagedId;
  p_marked : BTreeSet N;
  p_edges : N;
  p_work : N;
  p_weak : list (ManagedId * EdgeId * ManagedId);
  p_ephemerons : list (ManagedId * EdgeId * ManagedId * ManagedId);
}.

Record CollectionReceipt := {
  c_epoch : N;
  c_marked : list ManagedId;
  c_swept : list ManagedId;
  c_edges : N;
  c_work : N;
  c_cleared_weak : list (ManagedId * EdgeId);
  c_cleared_ephemerons : list (ManagedId * EdgeId);
  c_finalization : list FinalizationRecord;
}.

Section Collector.
Context `{ManagedObject T}.

(** [TraceSnapshot::visit_edges]. *)
Definition visit_edges (s : TraceSnapshot T) (owner : ManagedId) : Res ArenaError (list EdgeSnapshot) :=
  rmap trace_edges (ok_or (StaleHandle owner) (ts_objects s !! owner)).

Section Snapshot.
Variable s : TraceSnapshot T.
Variable limits : CollectionLimits.

(** Both [while let Some(id) = pending.pop()] loops. *)
Fixpoint mark_loop (fuel : nat) (k : Marking) : Res CollectionError Marking :=
  match fuel with
  | 0 => NoFuel
  | S fuel =>
    match k_pending k with
    | [] => Ok k
    | id :: pending =>
      if decide (id ∈ k_marked k) then mark_loop fuel (with_pending k (k_work k) pending)
      else
        let marked := {[id]} ∪ k_marked k in
        let? found := map_err CArena (visit_edges s id) in
        let edges := saturating_add (k_edges k) (len found) in
        let? _ := charge (ts_epoch s) LEdges (l_edges limits) edges in
        let work := saturating_add (k_work k) (1 + len found) in
        let? _ := charge (ts_epoch s) LWork (l_work limits) work in
        let pending := push_unmarked marked (strong_targets found) pending in
        let? _ := charge (ts_epoch s) LStack (l_stack limits) (len pending) in
        mark_loop fuel
          {| k_marked := marked; k_pending := pending; k_edges := edges; k_work := work;
             k_ephemerons := k_ephemerons k ++ ephemeron_entries id found;
             k_weak := k_weak k ++ weak_entries id found |}
    end
  end.

(** Fuel for a mark loop: every iteration pops an entry, and an object's strong
    edges are pushed once. *)
Definition edge_total (marked : BTreeSet N) : nat :=
  sum_list_with (fun id => match ts_objects s !! id with Some o => length (trace_edges o) | None => 0 end)
    (filter (fun id => id ∉ marked) (map_keys (ts_objects s))).

Definition mark_fuel (k : Marking) : nat := S (length (k_pending k) + edge_total (k_marked k)).

(** The [for] over the ephemerons known so far. *)
Fixpoint scan_ephemerons (marked : BTreeSet N) (ephemerons : list (ManagedId * EdgeId * ManagedId * ManagedId))
    (work : N) (pending : list ManagedId) (changed : bool) : Res CollectionError (N * list ManagedId * bool) :=
  match ephemerons with
  | [] => Ok (work, pending, changed)
  | (_, _, key, value) :: rest =>
    let work := saturating_add work 1 in
    let? _ := charge (ts_epoch s) LWork (l_work limits) work in
    if decide (key ∈ marked /\ value ∉ marked) then scan_ephemerons marked rest work (value :: pending) true
    else scan_ephemerons marked rest work pending changed
  end.

Fixpoint ephemeron_loop (fuel : nat) (k : Marking) : Res CollectionError Marking :=
  match fuel with
  | 0 => NoFuel
  | S fuel =>
    let? (work, pending, changed) := scan_ephemerons (k_marked k) (k_ephemerons k) (k_work k) (k_pending k) false in
    let k := with_pending k work pending in
    if changed : bool then
      let? k := mark_loop (mark_fuel k) k in
      ephemeron_loop fuel k
    else Ok k
  end.

(** The closure given to [safepoint]. *)
Definition plan_collection : Res CollectionError Plan :=
  let epoch := ts_epoch s in
  let all := map_keys (ts_objects s) in
  let? _ := charge epoch LObjects (l_objects limits) (len all) in
  let pending := rev (ts_roots s ++ ts_kept_alive s) in
  let? _ := charge epoch LStack (l_stack limits) (len pending) in
  let? _ := charge epoch LWork (l_work limits) (len pending) in
  let k := {| k_marked := ∅; k_pending := pending; k_edges := 0; k_work := len pending; k_ephemerons := []; k_weak := [] |} in
  let? k := mark_loop (mark_fuel k) k in
  let? k := ephemeron_loop (S (size (ts_objects s))) k in
  let swept := filter (fun id => id ∉ k_marked k) all in
  let work := saturating_add (k_work k) (len swept) in
  let? _ := charge epoch LWork (l_work limits) work in
  let weak_clear := filter (fun '(_, _, target) => target ∉ k_marked k) (k_weak k) in
  let eph_clear := filter (fun '(_, _, key, _) => key ∉ k_marked k) (k_ephemerons k) in
  let? _ := charge epoch LClears (l_clears limits) (saturating_add (len weak_clear) (len eph_clear)) in
  Ok {| p_epoch := epoch; p_all := all; p_marked := k_marked k; p_edges := k_edges k; p_work := work;
        p_weak := weak_clear; p_ephemerons := eph_clear |}.
End Snapshot.

(** ** Collection *)

Section Collect.
Context {J : Type}.
(** The job stored for a record: the caller's callback applied to it. *)
Variable callback : FinalizationRecord -> J.

(** The state a collection works on. *)
Definition World : Type := ManagedArena T * FinalizationRegistry * JobQueues RuntimeJobClass J.

Fixpoint enqueue_records (epoch : N) (records : list FinalizationRecord) (jobs : JobQueues RuntimeJobClass J)
  : Res CollectionError unit * JobQueues RuntimeJobClass J :=
  match records with
  | [] => (Ok tt, jobs)
  | record :: rest =>
    match enqueue jobs Finalization (callback record) with
    | Ok (_, jobs) => enqueue_records epoch rest jobs
    | Err _ => (Err (CLimit {| fr_epoch := epoch; fr_kind := LFinalizers; fr_limit := 0; fr_required := 1 |}), jobs)
    | Panic => (Panic, jobs)
    | NoFuel => (NoFuel, jobs)
    end
  end.

(** The part after the plan succeeded. *)
Definition apply_plan (p : Plan) (limits : CollectionLimits) (w : World) : Res CollectionError CollectionReceipt * World :=
  let '(arena, registry, jobs) := w in
  let swept := filter (fun id => id ∉ p_marked p) (p_all p) in
  let records := ready registry (list_to_set swept) in
  match
    let? _ := charge (p_epoch p) LFinalizers (l_finalizers limits) (len records) in
    let? _ := charge (p_epoch p) LFinalizers (remaining_admission jobs) (len records) in
    map_err CArena (apply_collection_at_epoch arena (p_epoch p) (p_weak p) (p_ephemerons p) swept)
  with
  | Ok (mutation, arena) =>
    match enqueue_records (p_epoch p) records jobs with
    | (Ok _, jobs) =>
      (Ok {| c_epoch := p_epoch p; c_marked := set_keys (p_marked p); c_swept := cm_swept mutation;
             c_edges := p_edges p; c_work := p_work p; c_cleared_weak := cm_weak mutation;
             c_cleared_ephemerons := cm_ephemerons mutation; c_finalization := records |},
       (arena, mark_admitted registry records, jobs))
    | (Err e, jobs) => (Err e, (arena, registry, jobs))
    | (Panic, jobs) => (Panic, (arena, registry, jobs))
    | (NoFuel, jobs) => (NoFuel, (arena, registry, jobs))
    end
  | Err e => (Err e, (arena, registry, jobs))
  | Panic => (Panic, (arena, registry, jobs))
  | NoFuel => (NoFuel, (arena, registry, jobs))
  end.

Definition collect_with_finalization (limits : CollectionLimits) (w : World) : Res CollectionError CollectionReceipt * World :=
  let '(arena, registry, jobs) := w in
  match safepoint arena (fun snapshot => plan_collection snapshot limits) with
  | Ok (plan, _, arena) =>
    match plan with
    | Ok p => apply_plan p limits (arena, registry, jobs)
    | Err e => (Err e, (arena, registry, jobs))
    | Panic => (Panic, (arena, registry, jobs))
    | NoFuel => (NoFuel, (arena, registry, jobs))
    end
  | Err e => (Err (CArena e), (arena, registry, jobs))
  | Panic => (Panic, (arena, registry, jobs))
  | NoFuel => (NoFuel, (arena, registry, jobs))
  end.
End Collect.

Definition collect (limits : CollectionLimits) (arena : ManagedArena T) : Res CollectionError CollectionReceipt * ManagedArena T :=
  let '(r, (arena, _, _)) :=
    collect_with_finalization (fun _ => tt) limits (arena, default_registry, new_queues 0) in
  (r, arena).
End Collector.

(** ** The managed heap *)

Inductive ManagedHeapPolicy :=
| Tracing (limits : CollectionLimits)
| Retain.

Record ManagedHeap (T : Type) := {
  h_arena : ManagedArena T;
  h_policy : ManagedHeapPolicy;
}.
Arguments h_arena {T}.
Arguments h_policy {T}.

Section Heap.
Context `{ManagedObject T}.
Implicit Types h : ManagedHeap T.

Definition heap_tracing (cap : nat) (limits : CollectionLimits) : Res ArenaError (ManagedHeap T) :=
  let? cap := new_policy cap in
  Ok {| h_arena := new_arena cap; h_policy := Tracing limits |}.

Definition heap_retaining (cap : nat) : Res ArenaError (ManagedHeap T) :=
  let? cap := new_policy cap in
  Ok {| h_arena := new_arena cap; h_policy := Retain |}.

Definition with_arena h (a : ManagedArena T) : ManagedHeap T := {| h_arena := a; h_policy := h_policy h |}.

Definition heap_allocate h (value : T) : Res ArenaError (ManagedId * ManagedHeap T) :=
  let? (id, a) := arena_allocate (h_arena h) value in
  Ok (id, with_arena h a).

Definition heap_root h (handle : ManagedId) : Res ArenaError (RootedHandle * ManagedHeap T) :=
  let? (r, a) := arena_root (h_arena h) handle in
  Ok (r, with_arena h a).

Definition heap_release_root h (rooted : RootedHandle) : Res ArenaError (ManagedId * ManagedHeap T) :=
  let? (id, a) := arena_release_root (h_arena h) rooted in
  Ok (id, with_arena h a).

Definition heap_collect h : Res CollectionError (option CollectionReceipt) * ManagedHeap T :=
  match h_policy h with
  | Tracing limits =>
    let '(r, a) := collect limits (h_arena h) in
    (rmap Some r, with_arena h a)
  | Retain => (Ok None, h)
  end.

Definition heap_teardown h : TeardownReceipt * ManagedHeap T :=
  let '(r, a) := teardown (h_arena h) in
  (r, with_arena h a).
End Heap.
