(* ===== verification/GcMarking.v ===== *)
(** * The plan of a collection is exact

    Marking computes exactly the objects reachable from roots and kept objects
    through strong edges and through ephemerons whose keys are reachable, the
    loops have enough fuel, and a refusal names an exhausted limit or a
    reachable object that is gone. *)

From S2P Require Import Prelude BTree ManagedNode ManagedArena ControlJobs GcCollector.

Section Marking.
Context `{ManagedObject T}.
Variable s : TraceSnapshot T.
Variable limits : CollectionLimits.

(** Strong liveness with ephemerons. *)
Inductive reachable : ManagedId -> Prop :=
| reach_root id : id ∈ ts_roots s \/ id ∈ ts_kept_alive s -> reachable id
| reach_strong id o e t : reachable id -> ts_objects s !! id = Some o -> Strong e t ∈ trace_edges o -> reachable t
| reach_ephemeron id o e key value : reachable id -> ts_objects s !! id = Some o ->
    Ephemeron e key value ∈ trace_edges o -> reachable key -> reachable value.

(** An edge of an object of a set. *)
Definition edge_of (marked : BTreeSet N) (owner : ManagedId) (x : EdgeSnapshot) : Prop :=
  owner ∈ marked /\ exists o, ts_objects s !! owner = Some o /\ x ∈ trace_edges o.

Record MarkInv (k : Marking) : Prop := {
  mi_sound : forall id, id ∈ k_marked k \/ id ∈ k_pending k -> reachable id;
  mi_live : forall id, id ∈ k_marked k -> is_Some (ts_objects s !! id);
  mi_roots : forall id, id ∈ ts_roots s \/ id ∈ ts_kept_alive s -> id ∈ k_marked k \/ id ∈ k_pending k;
  mi_strong : forall id e t, edge_of (k_marked k) id (Strong e t) -> t ∈ k_marked k \/ t ∈ k_pending k;
  mi_ephemerons : forall o e key v, (o, e, key, v) ∈ k_ephemerons k <-> edge_of (k_marked k) o (Ephemeron e key v);
  mi_weak : forall o e t, (o, e, t) ∈ k_weak k <-> edge_of (k_marked k) o (Weak e t);
}.

Lemma elem_of_strong_targets l t : t ∈ strong_targets l <-> exists e, Strong e t ∈ l.
Proof.
  unfold strong_targets. rewrite list_elem_of_omap. split.
  - intros ([]&?&?); naive_solver.
  - intros [e He]. by exists (Strong e t).
Qed.

Lemma elem_of_weak_entries o l o' e t : (o', e, t) ∈ weak_entries o l <-> o' = o /\ Weak e t ∈ l.
Proof.
  unfold weak_entries. rewrite list_elem_of_omap. split.
  - intros ([]&?&?); naive_solver.
  - intros [-> He]. by exists (Weak e t).
Qed.

Lemma elem_of_ephemeron_entries o l o' e key v : (o', e, key, v) ∈ ephemeron_entries o l <-> o' = o /\ Ephemeron e key v ∈ l.
Proof.
  unfold ephemeron_entries. rewrite list_elem_of_omap. split.
  - intros ([]&?&?); naive_solver.
  - intros [-> He]. by exists (Ephemeron e key v).
Qed.

Lemma elem_of_push_unmarked marked targets : forall pending id,
  id ∈ push_unmarked marked targets pending <-> id ∈ pending \/ (id ∈ targets /\ id ∉ marked).
Proof.
  unfold push_unmarked. induction targets as [|t targets IH]; intros pending id; simpl; [set_solver|].
  rewrite IH, elem_of_cons. case_decide; [naive_solver|]. rewrite elem_of_cons. naive_solver.
Qed.

Lemma length_push_unmarked marked targets : forall pending,
  length (push_unmarked marked targets pending) <= length targets + length pending.
Proof.
  unfold push_unmarked. induction targets as [|t targets IH]; intros pending; simpl; [done|].
  case_decide; (etransitivity; [apply IH|]); simpl; lia.
Qed.

Lemma length_strong_targets l : length (strong_targets l) <= length l.
Proof. unfold strong_targets. induction l as [|[] l IH]; csimpl; lia. Qed.

Lemma gc_charge_Ok epoch kind limit required : charge epoch kind limit required = Ok tt <-> (required <= limit)%N.
Proof. unfold charge. destruct (N.ltb_spec limit required); naive_solver lia. Qed.

Lemma visit_edges_Ok id l : visit_edges s id = Ok l <-> exists o, ts_objects s !! id = Some o /\ l = trace_edges o.
Proof. unfold visit_edges, rmap. destruct (ts_objects s !! id); simpl; naive_solver. Qed.

(** ** Sums of edges over the unmarked objects *)

Lemma sum_filter_step {A} `{EqDecision A} `{Countable A} (f : A -> nat) (marked : gset A) x (l : list A) :
  NoDup l -> x ∈ l -> x ∉ marked ->
  sum_list_with f (filter (fun y => y ∉ marked) l) = f x + sum_list_with f (filter (fun y => y ∉ {[x]} ∪ marked) l).
Proof.
  induction 1 as [|y l Hy Hnd IH]; [set_solver|]. intros [->|Hin]%elem_of_cons Hm; rewrite !filter_cons.
  - rewrite decide_True by done. rewrite decide_False by set_solver. simpl. do 2 f_equal.
    apply list_filter_ext_in. set_solver.
  - destruct (decide (y ∉ marked)) as [Hym|Hym].
    + rewrite decide_True by set_solver. simpl. rewrite IH by done. lia.
    + rewrite decide_False by set_solver. by apply IH.
Qed.

Lemma edge_total_visit marked id o : ts_objects s !! id = Some o -> id ∉ marked ->
  edge_total s marked = length (trace_edges o) + edge_total s ({[id]} ∪ marked).
Proof.
  intros Ho Hm. unfold edge_total. rewrite (sum_filter_step _ marked id); [by rewrite Ho| | |done].
  - apply set_keys_NoDup.
  - apply elem_of_map_keys. eauto.
Qed.

(** ** The mark loop *)

(** A visited object joins the marked ones. *)
Lemma visit_inv k id pending o edges work : 
  MarkInv k -> k_pending k = id :: pending -> id ∉ k_marked k -> ts_objects s !! id = Some o ->
  MarkInv {| k_marked := {[id]} ∪ k_marked k;
             k_pending := push_unmarked ({[id]} ∪ k_marked k) (strong_targets (trace_edges o)) pending;
             k_edges := edges; k_work := work;
             k_ephemerons := k_ephemerons k ++ ephemeron_entries id (trace_edges o);
             k_weak := k_weak k ++ weak_entries id (trace_edges o) |}.
Proof.
  intros [Hs Hl Hr He Hep Hw] Hp Hm Ho. rewrite Hp in *.
  assert (reachable id) as Hreach by (apply Hs; right; by left).
  assert (forall x own, edge_of ({[id]} ∪ k_marked k) own x <->
    (own = id /\ x ∈ trace_edges o) \/ edge_of (k_marked k) own x) as Hedge.
  { intros x own. unfold edge_of. rewrite elem_of_union, elem_of_singleton. split.
    - intros [[->|?] (o' & Ho' & Hx)]; [left|right; eauto]. rewrite Ho in Ho'. by simplify_eq.
    - intros [[-> Hx]|[? ?]]; eauto. }
  split; simpl.
  - intros x. rewrite elem_of_union, elem_of_singleton, elem_of_push_unmarked, elem_of_strong_targets.
    intros [[->|Hx]|[Hx|[[e Hx] _]]]; [done|by apply Hs; left|apply Hs; right; by right|by eapply reach_strong].
  - intros x. rewrite elem_of_union, elem_of_singleton. intros [->|Hx]; eauto.
  - intros x Hx. rewrite elem_of_union, elem_of_singleton, elem_of_push_unmarked.
    destruct (Hr x Hx) as [|[->|]%elem_of_cons]; tauto.
  - intros own e t Hx. apply Hedge in Hx. rewrite elem_of_push_unmarked, elem_of_strong_targets.
    destruct (decide (t ∈ {[id]} ∪ k_marked k)) as [|Hn]; [by left|right].
    destruct Hx as [[-> Hx]|[Ht|[->|Ht]%elem_of_cons]%He]; [right; eauto|set_solver|set_solver|by left].
  - intros own e key v. rewrite elem_of_app, elem_of_ephemeron_entries, Hep, Hedge. tauto.
  - intros own e t. rewrite elem_of_app, elem_of_weak_entries, Hw, Hedge. tauto.
Qed.

Lemma skip_inv k id pending : MarkInv k -> k_pending k = id :: pending -> id ∈ k_marked k ->
  MarkInv (with_pending k (k_work k) pending).
Proof.
  intros [Hs Hl Hr He Hep Hw] Hp Hm. rewrite Hp in *. split; simpl; try done.
  - intros x [Hx|Hx]; apply Hs; [by left|right; by right].
  - intros x Hx. destruct (Hr x Hx) as [|[->|]%elem_of_cons]; tauto.
  - intros own e t Hx. destruct (He own e t Hx) as [|[->|]%elem_of_cons]; tauto.
Qed.

(** Marking marks everything pending and keeps what is marked. *)
Lemma mark_loop_Ok fuel : forall k k', MarkInv k -> mark_loop s limits fuel k = Ok k' ->
  MarkInv k' /\ k_pending k' = [] /\ k_marked k ⊆ k_marked k' /\ (forall id, id ∈ k_pending k -> id ∈ k_marked k').
Proof.
  induction fuel as [|fuel IH]; intros k k' HI; simpl; [done|].
  destruct (k_pending k) as [|id pending] eqn:Hp.
  { intros [= <-]. rewrite Hp. split_and!; [done..|]. intros id Hid. by apply not_elem_of_nil in Hid. }
  case_decide as Hm.
  - intros Hk. apply IH in Hk as (HI' & Hp' & Hsub & Hall); [|by eapply skip_inv]. split_and!; [done..|].
    intros x [->|Hx]%elem_of_cons; [by apply Hsub|by apply Hall].
  - intros (l & Hl%map_err_Ok & Hk)%rbind_Ok. apply visit_edges_Ok in Hl as (o & Ho & ->).
    apply rbind_Ok in Hk as ([] & _ & Hk). apply rbind_Ok in Hk as ([] & _ & Hk). apply rbind_Ok in Hk as ([] & _ & Hk).
    apply IH in Hk as (HI' & Hp' & Hsub & Hall); [|by apply visit_inv]. simpl in *. split_and!; [done|done|set_solver|].
    intros x [->|Hx]%elem_of_cons; [set_solver|]. apply Hall. rewrite elem_of_push_unmarked. by left.
Qed.

(** ** Refusals *)

(** What a refused plan says: a limit was passed, or a reachable object is
    gone. *)
Definition refusal (e : CollectionError) : Prop :=
  match e with
  | CLimit r => fr_epoch r = ts_epoch s /\ (fr_limit r < fr_required r)%N
  | CArena a => exists id, a = StaleHandle id /\ reachable id /\ ts_objects s !! id = None
  end.

(** The outcome of a part of the plan: a result or such a refusal. *)
Definition planned {A} (r : Res CollectionError A) : Prop :=
  match r with Ok _ => True | Err e => refusal e | Panic | NoFuel => False end.

Lemma planned_rbind {A B} (f : A -> Res CollectionError B) r :
  planned r -> (forall a, r = Ok a -> planned (f a)) -> planned (rbind f r).
Proof. destruct r; simpl; auto. Qed.

Lemma planned_charge kind limit required : planned (charge (ts_epoch s) kind limit required).
Proof. unfold charge. destruct (N.ltb_spec limit required); simpl; [by split|done]. Qed.

Lemma planned_visit id : reachable id -> planned (map_err CArena (visit_edges s id)).
Proof. intros Hr. unfold visit_edges, rmap. destruct (ts_objects s !! id) eqn:E; simpl; eauto. Qed.

Lemma mark_loop_planned fuel : forall k, MarkInv k -> mark_fuel s k <= fuel -> planned (mark_loop s limits fuel k).
Proof.
  unfold mark_fuel. induction fuel as [|fuel IH]; intros k HI Hf; simpl; [lia|].
  destruct (k_pending k) as [|id pending] eqn:Hp; [done|]. case_decide as Hm.
  - apply IH; [by eapply skip_inv|]. simpl in *. lia.
  - apply planned_rbind; [apply planned_visit, HI; right; rewrite Hp; by left|].
    intros l Hl%map_err_Ok. apply visit_edges_Ok in Hl as (o & Ho & ->).
    do 3 (apply planned_rbind; [apply planned_charge|intros _ _]).
    apply IH; [by apply visit_inv|]. simpl.
    pose proof (length_push_unmarked ({[id]} ∪ k_marked k) (strong_targets (trace_edges o)) pending).
    pose proof (length_strong_targets (trace_edges o)).
    rewrite (edge_total_visit (k_marked k) id o) in Hf by done. simpl in Hf. lia.
Qed.

(** ** Ephemerons *)

#[local] Opaque mark_fuel.

Lemma scan_ephemerons_Ok marked ephs : forall work pending changed w' p' c',
  scan_ephemerons s limits marked ephs work pending changed = Ok (w', p', c') ->
  (forall id, id ∈ p' <-> id ∈ pending \/ exists o e key, (o, e, key, id) ∈ ephs /\ key ∈ marked /\ id ∉ marked) /\
  (c' = true <-> changed = true \/ exists o e key v, (o, e, key, v) ∈ ephs /\ key ∈ marked /\ v ∉ marked).
Proof.
  induction ephs as [|[[[o e] key] v] ephs IH]; intros work pending changed w' p' c'; simpl.
  - intros [= <- <- <-]. split; [intros id|]; (split; [by left|]).
    + intros [?|(? & ? & ? & []%not_elem_of_nil & _)]. done.
    + intros [?|(? & ? & ? & ? & []%not_elem_of_nil & _)]. done.
  - intros ([] & _ & Hs)%rbind_Ok. case_decide as Hd; apply IH in Hs as [Hp Hc].
    + split; [intros id; rewrite Hp, elem_of_cons|rewrite Hc]; split.
      * intros [[->|?]|(o1 & e1 & k1 & ? & ?)]; [right; exists o, e, key; split; [by left|done]|by left|].
        right. exists o1, e1, k1. split; [by right|done].
      * intros [?|(o1 & e1 & k1 & [[= -> -> -> ->]|Hin]%elem_of_cons & ?)]; [tauto|tauto|].
        right. exists o1, e1, k1. done.
      * intros _. right. exists o, e, key, v. split; [by left|done].
      * intros _. by left.
    + split; [intros id; rewrite Hp|rewrite Hc]; split.
      * intros [?|(o1 & e1 & k1 & ? & ?)]; [by left|]. right. exists o1, e1, k1. split; [by right|done].
      * intros [?|(o1 & e1 & k1 & [[= -> -> -> ->]|Hin]%elem_of_cons & ?)]; [by left|done|]. right. exists o1, e1, k1. done.
      * intros [?|(o1 & e1 & k1 & v1 & ? & ?)]; [by left|]. right. exists o1, e1, k1, v1. split; [by right|done].
      * intros [?|(o1 & e1 & k1 & v1 & [[= -> -> -> ->]|Hin]%elem_of_cons & ?)]; [by left|done|]. right. exists o1, e1, k1, v1. done.
Qed.

Lemma scan_ephemerons_planned marked ephs : forall work pending changed,
  planned (scan_ephemerons s limits marked ephs work pending changed).
Proof.
  induction ephs as [|[[[o e] key] v] ephs IH]; intros work pending changed; simpl; [done|].
  apply planned_rbind; [apply planned_charge|]. intros _ _. case_decide; apply IH.
Qed.

(** Values of ephemerons with marked keys may be pushed. *)
Lemma scan_inv k w p c : MarkInv k -> scan_ephemerons s limits (k_marked k) (k_ephemerons k) (k_work k) (k_pending k) false = Ok (w, p, c) ->
  MarkInv (with_pending k w p) /\ (k_pending k = [] -> c = false -> p = []).
Proof.
  intros [Hs Hl Hr He Hep Hw] [Hp Hc]%scan_ephemerons_Ok. split.
  - split; simpl; try done.
    + intros id [Hid|[Hid|(o & e & key & [Ho (ob & Hob & Hin)]%Hep & Hkey & _)]%Hp]; [by apply Hs; left|by apply Hs; right|].
      eapply reach_ephemeron; [|exact Hob|exact Hin|]; apply Hs; by left.
    + intros id Hid. destruct (Hr id Hid); [by left|right; rewrite Hp; by left].
    + intros o e t Hx. destruct (He o e t Hx); [by left|right; rewrite Hp; by left].
  - intros Hn Hf. destruct p as [|x p]; [done|]. destruct (proj1 (Hp x)) as [Hx|(o & e & key & Hx)]; [by left| |].
    + rewrite Hn in Hx. by apply not_elem_of_nil in Hx.
    + destruct c; [done|]. assert (false = true); [|done]. apply Hc. right. exists o, e, key, x. done.
Qed.

Lemma ephemeron_loop_Ok fuel : forall k k', MarkInv k -> k_pending k = [] -> ephemeron_loop s limits fuel k = Ok k' ->
  MarkInv k' /\ k_pending k' = [] /\
  (forall o e key v, edge_of (k_marked k') o (Ephemeron e key v) -> key ∈ k_marked k' -> v ∈ k_marked k').
Proof.
  induction fuel as [|fuel IH]; intros k k' HI Hp; simpl; [done|].
  intros ([[w p] c] & Hscan & Hk)%rbind_Ok. destruct (scan_inv k w p c HI Hscan) as [HI1 Hnone].
  destruct c.
  - apply rbind_Ok in Hk as (k1 & (HI2 & Hp2 & _ & _)%mark_loop_Ok & Hk); [|done]. by apply (IH k1).
  - injection Hk as <-. split_and!; [done|by apply Hnone|]. simpl. intros o e key v He Hkey.
    destruct (decide (v ∈ k_marked k)) as [|Hn]; [done|]. apply scan_ephemerons_Ok in Hscan as [_ Hc].
    assert (false = true); [|done]. apply Hc. right. exists o, e, key, v. split; [by apply mi_ephemerons|done].
Qed.

Lemma ephemeron_loop_planned fuel : forall k, MarkInv k -> k_pending k = [] ->
  size (dom (ts_objects s) ∖ k_marked k) < fuel -> planned (ephemeron_loop s limits fuel k).
Proof.
  induction fuel as [|fuel IH]; intros k HI Hp Hf; simpl; [lia|].
  apply planned_rbind; [apply scan_ephemerons_planned|]. intros [[w p] c] Hscan.
  destruct (scan_inv k w p c HI Hscan) as [HI1 _]. destruct c; [|done].
  apply planned_rbind; [by apply mark_loop_planned|]. intros k1 (HI2 & Hp2 & Hsub & Hall)%mark_loop_Ok; [|done].
  apply IH; [done|done|]. apply scan_ephemerons_Ok in Hscan as [Hin Hc].
  destruct (proj1 Hc eq_refl) as [|(o & e & key & v & Hv & Hkey & Hn)]; [done|].
  assert (v ∈ k_marked k1) as Hv1 by (apply Hall; simpl; rewrite Hin; right; by exists o, e, key).
  assert (v ∈ dom (ts_objects s)) as Hd by (by apply elem_of_dom, (mi_live k1)).
  simpl in Hsub. assert (size (dom (ts_objects s) ∖ k_marked k1) < size (dom (ts_objects s) ∖ k_marked k)); [|lia].
  apply subset_size. set_solver.
Qed.
(** ** The plan *)

Lemma initial_inv pending : pending = rev (ts_roots s ++ ts_kept_alive s) ->
  MarkInv {| k_marked := ∅; k_pending := pending; k_edges := 0; k_work := len pending; k_ephemerons := []; k_weak := [] |}.
Proof.
  intros ->. assert (forall id, id ∈ rev (ts_roots s ++ ts_kept_alive s) <-> id ∈ ts_roots s \/ id ∈ ts_kept_alive s) as Hr.
  { intros id. by rewrite <- elem_of_app, !list_elem_of_In, <- in_rev. }
  assert (forall id x, ~ edge_of ∅ id x) as Hno by (intros id x [[]%not_elem_of_empty _]).
  split; simpl.
  - intros id [[]%not_elem_of_empty|Hid%Hr]. by apply reach_root.
  - intros id []%not_elem_of_empty.
  - intros id Hid. right. by apply Hr.
  - intros id e t []%Hno.
  - intros o e key v. split; [intros []%not_elem_of_nil|intros []%Hno].
  - intros o e t. split; [intros []%not_elem_of_nil|intros []%Hno].
Qed.

(** Marked at the fixed point is reachable. *)
Lemma marked_reachable k : MarkInv k -> k_pending k = [] ->
  (forall o e key v, edge_of (k_marked k) o (Ephemeron e key v) -> key ∈ k_marked k -> v ∈ k_marked k) ->
  forall id, id ∈ k_marked k <-> reachable id.
Proof.
  intros [Hs _ Hr He _ _] Hp Heph id. split; [intros Hid; apply Hs; by left|]. rewrite Hp in *.
  assert (forall x, x ∈ k_marked k \/ x ∈ [] -> x ∈ k_marked k) as Hin by (intros x [?|[]%not_elem_of_nil]; done).
  induction 1 as [id Hid|id o e t _ IH Ho Hx|id o e key v _ IH Ho Hx _ IHkey].
  - by apply Hin, Hr.
  - apply Hin, (He id e t). split; [done|]. by exists o.
  - apply (Heph id e key v); [|done]. split; [done|]. by exists o.
Qed.

(** What a plan says of the snapshot. *)
Record PlanExact (p : Plan) : Prop := {
  pe_epoch : p_epoch p = ts_epoch s;
  pe_all : p_all p = map_keys (ts_objects s);
  pe_marked : forall id, id ∈ p_marked p <-> reachable id;
  pe_live : forall id, reachable id -> is_Some (ts_objects s !! id);
  pe_weak : forall o e t, (o, e, t) ∈ p_weak p <-> edge_of (p_marked p) o (Weak e t) /\ ~ reachable t;
  pe_ephemerons : forall o e key v,
    (o, e, key, v) ∈ p_ephemerons p <-> edge_of (p_marked p) o (Ephemeron e key v) /\ ~ reachable key;
  pe_bounds : (len (p_all p) <= l_objects limits)%N /\ (p_work p <= l_work limits)%N /\
    (saturating_add (len (p_weak p)) (len (p_ephemerons p)) <= l_clears limits)%N;
}.

Lemma plan_exact p : plan_collection s limits = Ok p -> PlanExact p.
Proof.
  unfold plan_collection. intros ([] & Hobj%gc_charge_Ok & Hk)%rbind_Ok.
  apply rbind_Ok in Hk as ([] & _ & Hk). apply rbind_Ok in Hk as ([] & _ & Hk).
  apply rbind_Ok in Hk as (k1 & Hk1 & Hk). apply mark_loop_Ok in Hk1 as (HI1 & Hp1 & _); [|by apply initial_inv].
  apply rbind_Ok in Hk as (k & Hk2 & Hk). apply ephemeron_loop_Ok in Hk2 as (HI & Hp & Heph); [|done|done].
  apply rbind_Ok in Hk as ([] & Hw%gc_charge_Ok & Hk). apply rbind_Ok in Hk as ([] & Hc%gc_charge_Ok & [= <-]).
  pose proof (marked_reachable k HI Hp Heph) as Hm. split; simpl; try done.
  - intros id Hid%Hm. by apply (mi_live k HI).
  - intros o e t. rewrite list_elem_of_filter, (mi_weak k HI), Hm. tauto.
  - intros o e key v. rewrite list_elem_of_filter, (mi_ephemerons k HI), Hm. tauto.
Qed.

Lemma plan_planned : planned (plan_collection s limits).
Proof.
  unfold plan_collection. do 3 (apply planned_rbind; [apply planned_charge|intros _ _]).
  apply planned_rbind; [apply mark_loop_planned; [by apply initial_inv|done]|].
  intros k1 (HI1 & Hp1 & _)%mark_loop_Ok; [|by apply initial_inv].
  apply planned_rbind; [apply ephemeron_loop_planned; [done|done|]|].
  { assert (size (dom (ts_objects s) ∖ k_marked k1) <= size (dom (ts_objects s))) by (apply subseteq_size; set_solver).
    rewrite size_dom in *. lia. }
  intros k2 _. do 2 (apply planned_rbind; [apply planned_charge|intros _ _]). done.
Qed.
End Marking.
