(* ===== verification/GcCollect.v ===== *)
(** * Collections are exact and atomic

    A collection that succeeds keeps exactly the reachable objects, clears
    exactly the weak edges and ephemerons of survivors that died, leaves no
    dangling edge, and admits each ready finalization record once.  One that is
    refused changes nothing but the safepoint counter. *)

From S2P Require Import Prelude BTree ManagedNode ManagedArena ControlJobs GcCollector GcMarking.

Section Clears.
Context `{ManagedObjectLaws T}.

(** How clears change the objects: every object stays, less the listed edges. *)
Definition cleared (m m' : BTreeMap N T) (dropped : ManagedId -> EdgeSnapshot -> Prop) : Prop :=
  forall id, match m !! id, m' !! id with
    | Some o, Some o' => forall x, x ∈ trace_edges o' <-> x ∈ trace_edges o /\ ~ dropped id x
    | None, None => True
    | _, _ => False
    end.

Lemma cleared_refl m : cleared m m (fun _ _ => False).
Proof. intros id. destruct (m !! id); [|done]. tauto. Qed.

Lemma cleared_trans m1 m2 m3 P Q : cleared m1 m2 P -> cleared m2 m3 Q -> cleared m1 m3 (fun id x => P id x \/ Q id x).
Proof.
  intros H12 H23 id. specialize (H12 id). specialize (H23 id).
  destruct (m1 !! id), (m2 !! id), (m3 !! id); try done. intros x. rewrite H23, H12. tauto.
Qed.

Lemma cleared_iff m m' P Q : (forall id x, P id x <-> Q id x) -> cleared m m' P -> cleared m m' Q.
Proof.
  intros Hpq Hc id. specialize (Hc id). destruct (m !! id), (m' !! id); try done. intros x. by rewrite Hc, Hpq.
Qed.

Lemma cleared_insert m id o o' P : m !! id = Some o ->
  (forall x, x ∈ trace_edges o' <-> x ∈ trace_edges o /\ ~ P x) ->
  cleared m (<[id := o']> m) (fun id' x => id' = id /\ P x).
Proof.
  intros Ho Hx id'. destruct (decide (id = id')) as [<-|Hne].
  - rewrite Ho, lookup_insert_eq. intros x. rewrite Hx. tauto.
  - rewrite lookup_insert_ne by done. destruct (m !! id'); [|done]. naive_solver.
Qed.

Lemma clear_weak_entries_spec entries : forall m,
  cleared m (clear_weak_entries entries m).2 (fun id x => exists e t, (id, e, t) ∈ entries /\ x = Weak e t).
Proof using All.
  induction entries as [|[[owner e] t] entries IH]; intros m; simpl.
  - eapply cleared_iff; [|apply cleared_refl]. intros id x. split; [done|]. by intros (? & ? & []%not_elem_of_nil & _).
  - destruct (m !! owner) as [o|] eqn:Ho.
    + pose proof (clear_weak_law o e t) as Hlaw. destruct (clear_weak_edge o e t) as [b o'].
      specialize (IH (<[owner := o']> m)). destruct (clear_weak_entries entries (<[owner := o']> m)) as [c m'].
      eapply cleared_iff; [|eapply cleared_trans; [exact (cleared_insert m owner o o' (fun x => x = Weak e t) Ho Hlaw)|exact IH]].
      intros id x. simpl. setoid_rewrite elem_of_cons. naive_solver.
    + intros id. specialize (IH m id). destruct (m !! id) as [o|] eqn:E; [|exact IH].
      destruct ((clear_weak_entries entries m).2 !! id); [|done]. intros x. rewrite IH. setoid_rewrite elem_of_cons.
      split; intros [Hx Hn]; (split; [done|]); intros (e' & t' & Hin & ->); apply Hn; [|by exists e', t'; auto].
      destruct Hin as [[= -> -> ->]|Hin]; [congruence|by exists e', t'].
Qed.

Lemma clear_ephemeron_entries_spec entries : forall m,
  cleared m (clear_ephemeron_entries entries m).2
    (fun id x => exists e key v, (id, e, key, v) ∈ entries /\ x = Ephemeron e key v).
Proof using All.
  induction entries as [|[[[owner e] key] v] entries IH]; intros m; simpl.
  - eapply cleared_iff; [|apply cleared_refl]. intros id x. split; [done|]. by intros (? & ? & ? & []%not_elem_of_nil & _).
  - destruct (m !! owner) as [o|] eqn:Ho.
    + pose proof (clear_ephemeron_law o e key v) as Hlaw. destruct (clear_ephemeron_edge o e key v) as [b o'].
      specialize (IH (<[owner := o']> m)). destruct (clear_ephemeron_entries entries (<[owner := o']> m)) as [c m'].
      eapply cleared_iff; [|eapply cleared_trans; [exact (cleared_insert m owner o o' (fun x => x = Ephemeron e key v) Ho Hlaw)|exact IH]].
      intros id x. simpl. setoid_rewrite elem_of_cons. naive_solver.
    + intros id. specialize (IH m id). destruct (m !! id) as [o|] eqn:E; [|exact IH].
      destruct ((clear_ephemeron_entries entries m).2 !! id); [|done]. intros x. rewrite IH. setoid_rewrite elem_of_cons.
      split; intros [Hx Hn]; (split; [done|]); intros (e' & k' & v' & Hin & ->); apply Hn; [|by exists e', k', v'; auto].
      destruct Hin as [[= -> -> -> ->]|Hin]; [congruence|by exists e', k', v'].
Qed.
End Clears.

(** ** Finalization *)

Lemma elem_of_ready g swept r :
  r ∈ ready g swept <-> g_entries g !! f_registration r = Some (f_target r, Registered) /\ f_target r ∈ swept.
Proof.
  unfold ready. rewrite list_elem_of_omap. split.
  - intros ([reg [target st]] & Hin%elem_of_map_entries & Hr). case_decide as Hd; [|done]. injection Hr as <-. naive_solver.
  - intros [Hr Hs]. exists (f_registration r, (f_target r, Registered)). split; [by apply elem_of_map_entries|].
    rewrite decide_True by done. by destruct r.
Qed.

(** Marking records admitted changes their states and nothing else. *)
Lemma mark_admitted_lookup records : forall g reg,
  g_entries (mark_admitted g records) !! reg =
    if decide (reg ∈ f_registration <$> records) then (fun e => (e.1, RAdmitted)) <$> g_entries g !! reg
    else g_entries g !! reg.
Proof.
  unfold mark_admitted. simpl. induction records as [|r records IH]; intros g reg; simpl; [done|].
  specialize (IH {| g_next := 0; g_entries := match g_entries g !! f_registration r with
    | Some (target, _) => <[f_registration r := (target, RAdmitted)]> (g_entries g) | None => g_entries g end |} reg).
  simpl in IH. rewrite IH. clear IH. destruct (decide (reg = f_registration r)) as [->|Hne].
  - rewrite (decide_True (P := f_registration r ∈ f_registration r :: _)) by (by left).
    destruct (g_entries g !! f_registration r) as [[t st]|] eqn:E; rewrite ?lookup_insert_eq, ?E; by case_decide.
  - rewrite (decide_ext (reg ∈ f_registration r :: _) (reg ∈ f_registration <$> records)) by (rewrite elem_of_cons; tauto).
    destruct (g_entries g !! f_registration r) as [[t st]|]; [|done]. by rewrite lookup_insert_ne by done.
Qed.

Section Enqueue.
Context {J : Type} (callback : FinalizationRecord -> J).

(** Jobs with consecutive identities. *)
Fixpoint numbered (id : N) (l : list FinalizationRecord) : list (JobId * J) :=
  match l with [] => [] | r :: l => (id, callback r) :: numbered (id + 1) l end.

Lemma enqueue_records_Ok epoch records : forall jobs,
  QueueInv jobs -> (len records <= remaining_admission jobs)%N ->
  exists jobs', enqueue_records callback epoch records jobs = (Ok tt, jobs') /\
    queue_of jobs' Finalization = queue_of jobs Finalization ++ numbered (q_next_id jobs) records /\
    (forall c, c <> Finalization -> queue_of jobs' c = queue_of jobs c) /\ QueueInv jobs'.
Proof.
  induction records as [|r records IH]; intros jobs HI Hle; simpl.
  - exists jobs. by rewrite app_nil_r.
  - assert (len (r :: records) = len records + 1)%N as Hlen by (unfold len; simpl; lia).
    unfold remaining_admission, saturating_sub in Hle.
    destruct (enqueue jobs Finalization (callback r)) as [[x jobs1]|e| |] eqn:E;
      unfold enqueue in E; (destruct (N.leb_spec (q_admission jobs) (q_admitted jobs)); [lia|]); try discriminate E.
    assert (queue_step jobs jobs1) as Hst.
    { apply (step_enqueue jobs Finalization (callback r) x). unfold enqueue.
      by destruct (N.leb_spec (q_admission jobs) (q_admitted jobs)); [lia|]. }
    injection E as <- <-. destruct (queue_step_inv _ _ HI Hst) as [HI1 _].
    destruct (IH _ HI1) as (jobs' & -> & Hq & Hother & HI'); [unfold remaining_admission, saturating_sub; simpl; lia|].
    exists jobs'. split_and!; [done| | |done].
    + rewrite Hq. unfold queue_of at 1. simpl. rewrite queue_of_insert, decide_True by done. rewrite <- app_assoc.
      replace (saturating_add (q_next_id jobs) 1) with (q_next_id jobs + 1)%N; [done|].
      pose proof (qi_next _ HI). pose proof (qi_width _ HI). unfold saturating_add. lia.
    + intros c Hc. rewrite Hother by done. unfold queue_of at 1. simpl. rewrite queue_of_insert. by rewrite decide_False.
Qed.
End Enqueue.

(** ** The collection *)

Section Collect.
Context `{ManagedObjectLaws T} {J : Type} (callback : FinalizationRecord -> J).
Implicit Types a : ManagedArena T.

(** Edges a surviving object keeps. *)
Definition survives (s : TraceSnapshot T) (x : EdgeSnapshot) : Prop :=
  match x with
  | Strong _ _ => True
  | Weak _ target => reachable s target
  | Ephemeron _ key _ => reachable s key
  end.

(** What an edge names. *)
Definition edge_targets (x : EdgeSnapshot) : list ManagedId :=
  match x with Strong _ t | Weak _ t => [t] | Ephemeron _ key v => [key; v] end.

Definition plan_swept (p : Plan) : list ManagedId := filter (fun id => id ∉ p_marked p) (p_all p).

Section Planned.
Variable a : ManagedArena T.
Variable limits : CollectionLimits.
Variable p : Plan.
Hypothesis HI : ArenaInv a.
Hypothesis HP : PlanExact (take_snapshot a) limits p.

#[local] Set Default Proof Using "HI HP".

Lemma elem_of_plan_swept id : id ∈ plan_swept p <-> is_Some (a_objects a !! id) /\ ~ reachable (take_snapshot a) id.
Proof.
  unfold plan_swept. rewrite list_elem_of_filter, (pe_marked _ _ _ HP), (pe_all _ _ _ HP), elem_of_map_keys. simpl. tauto.
Qed.

Lemma kept_reachable id : id ∈ kept_at a (a_epoch a) -> reachable (take_snapshot a) id.
Proof. intros Hid. apply reach_root. by right. Qed.

Lemma rooted_reachable id : is_rooted a id = true -> reachable (take_snapshot a) id.
Proof.
  intros [r Hr]%is_rooted_spec. apply reach_root. left. simpl. unfold map_values. apply list_elem_of_fmap.
  exists (r, id). split; [done|]. by apply elem_of_map_entries.
Qed.

Lemma plan_swept_kept : filter (fun id => id ∉ kept_at a (a_epoch a)) (plan_swept p) = plan_swept p.
Proof.
  apply list_filter_all. intros id [_ Hn]%elem_of_plan_swept Hk. by apply Hn, kept_reachable.
Qed.

Lemma plan_swept_checks : check_sweep a (plan_swept p) = Ok tt.
Proof.
  apply check_sweep_Ok, Forall_forall. intros id [Hl Hn]%elem_of_plan_swept. split; [done|].
  destruct (is_rooted a id) eqn:E; [|done]. by apply rooted_reachable in E.
Qed.

Lemma reachable_dec id : reachable (take_snapshot a) id \/ ~ reachable (take_snapshot a) id.
Proof. rewrite <- (pe_marked _ _ _ HP). destruct (decide (id ∈ p_marked p)); auto. Qed.

(** The objects after the plan is applied. *)
Definition collected_objects : BTreeMap N T :=
  sweep_objects (plan_swept p)
    (clear_ephemeron_entries (p_ephemerons p) (clear_weak_entries (p_weak p) (a_objects a)).2).2.

Lemma collected_cleared : cleared (a_objects a)
  (clear_ephemeron_entries (p_ephemerons p) (clear_weak_entries (p_weak p) (a_objects a)).2).2
  (fun id x => (exists e t, (id, e, t) ∈ p_weak p /\ x = Weak e t) \/
               (exists e key v, (id, e, key, v) ∈ p_ephemerons p /\ x = Ephemeron e key v)).
Proof using H0. eapply cleared_trans; [apply clear_weak_entries_spec|apply clear_ephemeron_entries_spec]. Qed.

Lemma collected_objects_lookup id o' : collected_objects !! id = Some o' ->
  reachable (take_snapshot a) id /\
  exists o, a_objects a !! id = Some o /\
    forall x, x ∈ trace_edges o' <-> x ∈ trace_edges o /\ survives (take_snapshot a) x.
Proof using HI HP H0.
  intros [Hm Hn]%sweep_objects_lookup. pose proof (collected_cleared id) as Hc. rewrite Hm in Hc.
  destruct (a_objects a !! id) as [o|] eqn:Ho; [|done].
  destruct (reachable_dec id) as [Hr|Hr]; [|destruct Hn; by apply elem_of_plan_swept; split; [rewrite Ho; eauto|]].
  split; [done|]. exists o. split; [done|]. intros x. rewrite Hc. apply and_iff_compat_l'. intros Hx.
  assert (edge_of (take_snapshot a) (p_marked p) id x) as Hedge
    by (split; [by apply (pe_marked _ _ _ HP)|by exists o]).
  setoid_rewrite (pe_weak _ _ _ HP). setoid_rewrite (pe_ephemerons _ _ _ HP). split.
  - intros Hd. destruct x as [e t|e t|e key v]; simpl; [done|..].
    + destruct (reachable_dec t) as [|Ht]; [done|]. destruct Hd. left. by exists e, t.
    + destruct (reachable_dec key) as [|Ht]; [done|]. destruct Hd. right. by exists e, key, v.
  - intros Hs [(e & t & [_ Ht] & ->)|(e & key & v & [_ Ht] & ->)]; by apply Ht.
Qed.

Lemma collected_objects_dom id : is_Some (collected_objects !! id) <-> reachable (take_snapshot a) id.
Proof using HI HP H0.
  split; [intros [o' [Hr _]%collected_objects_lookup]; done|]. intros Hr.
  destruct (pe_live _ _ _ HP id Hr) as [o Ho]. simpl in Ho. pose proof (collected_cleared id) as Hc. rewrite Ho in Hc.
  destruct (_ !! id) as [o'|] eqn:E in Hc; [|done]. exists o'. apply sweep_objects_lookup. split; [done|].
  by intros [_ Hn]%elem_of_plan_swept.
Qed.

(** Whatever a survivor's edges name survives too. *)
Lemma collected_no_dangling id o' x t :
  collected_objects !! id = Some o' -> x ∈ trace_edges o' -> t ∈ edge_targets x -> is_Some (collected_objects !! t).
Proof using HI HP H0.
  intros Ho' Hx Ht. apply collected_objects_dom.
  apply collected_objects_lookup in Ho' as (Hr & o & Ho & Hedges). apply Hedges in Hx as [Hx Hs].
  destruct x as [e u|e u|e key v]; simpl in Ht, Hs; rewrite ?elem_of_cons in Ht.
  - destruct Ht as [->|[]%not_elem_of_nil]. by eapply reach_strong.
  - destruct Ht as [->|[]%not_elem_of_nil]. done.
  - destruct Ht as [->|[->|[]%not_elem_of_nil]]; [done|].
    by apply (reach_ephemeron _ id o e key v).
Qed.

(** Applying the plan at its epoch succeeds unless the epochs are used up. *)
Lemma apply_plan_arena :
  (exists mutation a', apply_collection_at_epoch a (p_epoch p) (p_weak p) (p_ephemerons p) (plan_swept p) = Ok (mutation, a') /\
    cm_swept mutation = plan_swept p /\ a_objects a' = collected_objects /\ a_roots a' = a_roots a /\ ArenaInv a') \/
  (apply_collection_at_epoch a (p_epoch p) (p_weak p) (p_ephemerons p) (plan_swept p) = Err IdentityExhausted /\
   (usize_max <= a_epoch a)%N).
Proof.
  assert (forall mutation a', apply_collection_at_epoch a (p_epoch p) (p_weak p) (p_ephemerons p) (plan_swept p) = Ok (mutation, a') ->
    ArenaInv a') as Hinv by (intros mutation a' Happ; exact (proj1 (collection_inv a _ _ _ _ _ _ HI Happ))).
  unfold apply_collection_at_epoch in *. rewrite (pe_epoch _ _ _ HP) in *. simpl (ts_epoch _) in *.
  rewrite decide_True in * by done. rewrite plan_swept_kept, plan_swept_checks in *. simpl in *.
  set (adv := match p_weak p, p_ephemerons p, plan_swept p with [], [], [] => Ok a | _, _, _ => advance_mutation_epoch a end) in *.
  assert ((exists e, adv = Ok (set_epoch a e)) \/ (adv = Err IdentityExhausted /\ (usize_max <= a_epoch a)%N)) as [[e Ha]|[Ha He]].
  { assert (adv = Ok (set_epoch a (a_epoch a)) \/ adv = advance_mutation_epoch a) as [->| ->]
      by (unfold adv; destruct (p_weak p), (p_ephemerons p), (plan_swept p); auto; left; by destruct a).
    - left. by exists (a_epoch a).
    - unfold advance_mutation_epoch, checked_add. destruct (N.ltb_spec usize_max (a_epoch a + 1)); simpl; [right|left; eauto].
      split; [done|lia]. }
  - left. rewrite Ha in *. simpl in *. unfold collected_objects.
    destruct (clear_weak_entries (p_weak p) (a_objects a)) as [cw m1]. simpl.
    destruct (clear_ephemeron_entries (p_ephemerons p) m1) as [ce m2]. do 2 eexists. split; [reflexivity|].
    split_and!; [done..|]. by eapply Hinv.
  - right. by rewrite Ha.
Qed.
End Planned.

(** What a successful collection did. *)
Record CollectExact a (g : FinalizationRegistry) (q : JobQueues RuntimeJobClass J) (r : CollectionReceipt)
    a' (g' : FinalizationRegistry) (q' : JobQueues RuntimeJobClass J) : Prop := {
  ce_marked : forall id, id ∈ c_marked r <-> reachable (take_snapshot a) id;
  ce_swept : forall id, id ∈ c_swept r <-> is_Some (a_objects a !! id) /\ ~ reachable (take_snapshot a) id;
  ce_survivors : forall id, is_Some (a_objects a' !! id) <-> reachable (take_snapshot a) id;
  ce_edges : forall id o', a_objects a' !! id = Some o' -> exists o, a_objects a !! id = Some o /\
    forall x, x ∈ trace_edges o' <-> x ∈ trace_edges o /\ survives (take_snapshot a) x;
  ce_no_dangling : forall id o' x t, a_objects a' !! id = Some o' -> x ∈ trace_edges o' -> t ∈ edge_targets x ->
    is_Some (a_objects a' !! t);
  ce_roots : a_roots a' = a_roots a;
  ce_arena : ArenaInv a';
  ce_records : forall rec, rec ∈ c_finalization r <->
    g_entries g !! f_registration rec = Some (f_target rec, Registered) /\ f_target rec ∈ c_swept r;
  ce_admitted : forall reg, g_entries g' !! reg =
    if decide (reg ∈ f_registration <$> c_finalization r) then (fun e => (e.1, RAdmitted)) <$> g_entries g !! reg
    else g_entries g !! reg;
  ce_jobs : queue_of q' Finalization = queue_of q Finalization ++ numbered callback (q_next_id q) (c_finalization r) /\
    (forall c, c <> Finalization -> queue_of q' c = queue_of q c) /\ QueueInv q';
}.

(** Why a collection was refused. *)
Definition collect_refusal a (e : CollectionError) : Prop :=
  match e with
  | CLimit r => fr_epoch r = a_epoch a /\ (fr_limit r < fr_required r)%N
  | CArena (StaleHandle id) => reachable (take_snapshot a) id /\ a_objects a !! id = None
  | CArena IdentityExhausted => (usize_max <= a_next_safepoint a)%N \/ (usize_max <= a_epoch a)%N
  | CArena _ => False
  end.

Definition apply_refusal a (e : CollectionError) : Prop :=
  match e with
  | CLimit r => fr_epoch r = a_epoch a /\ (fr_limit r < fr_required r)%N
  | CArena e => e = IdentityExhausted /\ (usize_max <= a_epoch a)%N
  end.

Lemma apply_plan_cases a g q limits p :
  ArenaInv a -> QueueInv q -> PlanExact (take_snapshot a) limits p ->
  match apply_plan callback p limits (a, g, q) with
  | (Ok r, (a', g', q')) => CollectExact a g q r a' g' q'
  | (Err e, w) => w = (a, g, q) /\ apply_refusal a e
  | _ => False
  end.
Proof using H0.
  intros HI HQ HP. unfold apply_plan. fold (plan_swept p).
  set (records := ready g (list_to_set (plan_swept p))).
  unfold charge. destruct (N.ltb_spec (l_finalizers limits) (len records)); simpl; [split; [done|]|].
  { split; [apply (pe_epoch _ _ _ HP)|done]. }
  destruct (N.ltb_spec (remaining_admission q) (len records)) as [|Hroom]; simpl; [split; [done|]|].
  { split; [apply (pe_epoch _ _ _ HP)|done]. }
  destruct (apply_plan_arena a limits p HI HP) as [(mutation & a' & -> & Hsw & Hobj & Hroots & HI')|[-> He]]; simpl; [|by auto].
  destruct (enqueue_records_Ok callback (p_epoch p) records q HQ Hroom) as (q' & -> & Hq).
  split; simpl; rewrite ?Hsw, ?Hobj.
  - intros id. by rewrite elem_of_set_keys, (pe_marked _ _ _ HP).
  - intros id. by eapply elem_of_plan_swept.
  - intros id. by eapply collected_objects_dom.
  - intros id o' Ho'. by eapply collected_objects_lookup in Ho' as [_ ?].
  - intros id o' x t. by eapply collected_no_dangling.
  - done.
  - done.
  - intros rec. unfold records. by rewrite elem_of_ready, elem_of_list_to_set.
  - intros reg. apply mark_admitted_lookup.
  - exact Hq.
Qed.

#[local] Opaque apply_plan.

(** A safepoint changes nothing a collection looks at. *)
Lemma CollectExact_safepoint a n g q r a' g' q' :
  CollectExact (set_safepoint a n) g q r a' g' q' -> CollectExact a g q r a' g' q'.
Proof. by intros []. Qed.

Lemma collection_exact a g q limits r a' g' q' :
  ArenaInv a -> QueueInv q ->
  collect_with_finalization callback limits (a, g, q) = (Ok r, (a', g', q')) ->
  CollectExact a g q r a' g' q'.
Proof using H0.
  intros HI HQ. unfold collect_with_finalization, safepoint.
  destruct (ok_or _ _) as [next|e| |]; simpl; [|done..].
  destruct (plan_collection (take_snapshot a) limits) as [p|e| |] eqn:E; [|done..].
  apply plan_exact in E. intros Hap. apply (CollectExact_safepoint a next).
  pose proof (apply_plan_cases (set_safepoint a next) g q limits p) as Hc. rewrite Hap in Hc.
  apply Hc; [by destruct HI|done|exact E].
Qed.

Lemma collection_atomic a g q limits :
  ArenaInv a -> QueueInv q ->
  match collect_with_finalization callback limits (a, g, q) with
  | (Ok _, _) => True
  | (Err e, (a', g', q')) =>
    (a' = a \/ a' = set_safepoint a (a_next_safepoint a + 1)%N) /\ g' = g /\ q' = q /\ collect_refusal a e
  | (Panic, _) | (NoFuel, _) => False
  end.
Proof using H0.
  intros HI HQ. unfold collect_with_finalization, safepoint, checked_add.
  destruct (N.ltb_spec usize_max (a_next_safepoint a + 1)); simpl; [split_and!; auto; left; lia|].
  pose proof (plan_planned (take_snapshot a) limits) as Hp.
  destruct (plan_collection (take_snapshot a) limits) as [p|e| |] eqn:E; [|simpl in Hp|done..].
  - apply plan_exact in E.
    pose proof (apply_plan_cases (set_safepoint a (a_next_safepoint a + 1)%N) g q limits p) as Hc.
    destruct (apply_plan callback p limits _) as [[r|e| |] [[a' g'] q']]; [done| | |].
    + destruct Hc as [[= -> -> ->] He]; [by destruct HI|done|exact E|]. split_and!; [by right|done|done|].
      destruct e as [?|e]; [done|]. destruct He as [-> He]. by right.
    + apply Hc; [by destruct HI|done|exact E].
    + apply Hc; [by destruct HI|done|exact E].
  - split_and!; [by right|done|done|]. destruct e as [r|e]; [done|]. destruct Hp as (id & -> & Hr & Hn). done.
Qed.

(** C4: A collection that succeeds marks exactly the objects reachable from
    roots and kept objects through strong edges and ephemerons with reachable
    keys, and reclaims exactly the others.  Survivors keep all strong edges, the
    weak edges to survivors and the ephemerons whose keys survive, so that no
    edge dangles.  The finalization records are exactly the registered ones
    whose targets were reclaimed; they become admitted, so none is produced
    twice, and are queued in order behind earlier finalization jobs. *)
Theorem collect_exact a g q limits r a' g' q' :
  ArenaInv a -> QueueInv q ->
  collect_with_finalization callback limits (a, g, q) = (Ok r, (a', g', q')) ->
  CollectExact a g q r a' g' q'.
Proof using H0. apply collection_exact. Qed.

End Collect.
