(* ===== verification/MachineSamples.v ===== *)
(** * The machine on concrete programs

    A small instruction set, its kernel datums and policies; each hypothesis of
    the machine theorems is met here by a program that runs.  Also two behaviours
    the source's comments exclude: crossing protected regions that freeze, and
    cleanups lost by a yield.  Then runs of the arena and the collector. *)

From stdpp Require Import strings pretty countable relations.
From stdpp Require Import relations.
From S2P Require Import Prelude BTree KernelDatum DatumSamples MachineStack MachineShuffle MachineSlots MachineCode MachineAdmission MachineFrame MachineDriver ManagedNode ManagedArena ControlJobs GcCollector GcMarking GcCollect.

(** ** Stacks and slots of two-unit values *)

Module Cells.

#[export] Instance cell_width : ValueWidthPolicy nat := fun v => v mod 3.

Definition pushed : UnitStack nat := {| stack_values := [4; 5]; stack_depth := 3; stack_limit := 8 |}.

Lemma pushed_reachable : rtc stack_step (new_stack 8) pushed.
Proof.
  apply rtc_l with {| stack_values := [4]; stack_depth := 1; stack_limit := 8 |}.
  { by apply (step_push _ 4). }
  apply rtc_once. by apply (step_push _ 5).
Qed.

Lemma stack_behaviour_witness :
  stack_depth pushed = total_width (stack_values pushed) /\ stack_pop pushed = Ok (5, {| stack_values := [4]; stack_depth := 1; stack_limit := 8 |}).
Proof. split; [apply (stack_behaviour 8 pushed 7 pushed_reachable)|reflexivity]. Defined.

Lemma execute_moves_units_witness :
  Forall2 (fun u x => units_of (stack_values pushed) !! u = Some x) [1; 2; 0; 1; 2] (units_of [5; 4; 5]).
Proof.
  apply (execute_moves_units [1; 2] [1; 2; 0; 1; 2] {| input_widths := [1; 2]; output_groups := [1; 0; 1] |}
    pushed {| stack_values := [5; 4; 5]; stack_depth := 5; stack_limit := 8 |}); reflexivity.
Defined.

Definition history : list (SlotOp (V:=nat)) :=
  [OpStore 0 5; OpStore 2 4; OpStore 1 8; OpLoad 0; OpLoad 1; OpIsInitialized 2; OpRelease 2; OpStore 3 5; OpRelease 0].

Lemma slot_file_refines_witness :
  answers slot_run (new_slots 4) history =
  [Ok Done; Ok Done; Ok Done; Err (SlotUninitialized 0); Ok (Value 8); Ok (Flag true); Ok (Value 8);
   Err (SlotOverflow 3 2 4); Err (SlotUninitialized 0)].
Proof.
  rewrite (proj1 (slot_file_refines 4 history ltac:(vm_compute; discriminate))). reflexivity.
Defined.
End Cells.

(** ** A small instruction set *)

Module Programs.

Inductive Op :=
| Nop (id : nat)
| Raise (id : nat)
| Yield (id : nat)
| Halt (id : nat).

#[export] Instance op_id : InstructionPolicy Op nat :=
  fun op => match op with Nop id | Raise id | Yield id | Halt id => id end.

Record Origin := {
  o_source : string;
  o_codec : N;
  o_start : nat;
  o_end : nat;
}.

#[export] Instance sample_origin : KernelOrigin Origin string :=
  {| origin_source := o_source; origin_start := o_start; origin_end := o_end |}.

#[export] Instance sample_text : OriginText Origin string := {| source_text := fun s => s; origin_codec := o_codec |}.

Definition at_byte (start_ end_ : nat) : SourceLocation Origin :=
  Bytes {| o_source := "main"; o_codec := 1; o_start := start_; o_end := end_ |}.

Definition ins (op : Op) (safepoint : bool) (i : nat) : LocatedInstruction Op nat Origin :=
  {| li_instruction := op; li_id := op_id op; li_location := at_byte (2 * i) (2 * i + 2);
     li_safepoint := safepoint; li_coverage := None |}.

(** Instruction 1 raises inside a region whose handler is instruction 3. *)
Definition program : list (LocatedInstruction Op nat Origin) :=
  [ins (Nop 10) true 0; ins (Raise 11) false 1; ins (Halt 12) false 2; ins (Yield 13) true 3].

Definition targets : list (BranchTarget nat string) := [{| bt_from := 10; bt_to := ToByte "main" 4 |}].

Definition regions : list (RegionSpec nat string) :=
  [{| rs_start := 11; rs_end := Some 12; rs_handler := ToInstruction 13 |};
   {| rs_start := 10; rs_end := None; rs_handler := ToByte "main" 4 |}].

Definition code : LocatedCode Op nat Origin :=
  {| lc_instructions := program;
     lc_cursors := {[10 := 0; 11 := 1; 12 := 2; 13 := 3]};
     lc_targets := {[10 := [2]]};
     lc_regions := [{| pr_start := 0; pr_end := 4; pr_handler := 2 |}; {| pr_start := 1; pr_end := 2; pr_handler := 3 |}] |}.

Lemma program_freezes : freeze program targets regions = Ok code.
Proof. vm_compute. reflexivity. Qed.

Lemma program_length : (len program <= usize_max)%N.
Proof. vm_compute. discriminate. Qed.

Lemma freeze_spec_witness : Frozen program targets regions code.
Proof.
  pose proof (freeze_spec program targets regions program_length) as Hf.
  rewrite program_freezes in Hf. exact Hf.
Defined.

Lemma innermost_region_spec_witness :
  innermost_protected_region code 1 = Some {| pr_start := 1; pr_end := 2; pr_handler := 3 |} /\
  forall r', r' ∈ lc_regions code -> region_contains r' 1 -> ~ crosses r' {| pr_start := 1; pr_end := 2; pr_handler := 3 |} ->
    pr_start r' <= 1 /\ 2 <= pr_end r'.
Proof.
  pose proof (innermost_region_spec program targets regions code 1 program_length program_freezes) as Hi.
  assert (innermost_protected_region code 1 = Some {| pr_start := 1; pr_end := 2; pr_handler := 3 |}) as He
    by (vm_compute; reflexivity).
  rewrite He in Hi. split; [exact He|]. destruct Hi as (_ & _ & _ & Hr). exact Hr.
Defined.

(** Regions [0, 10), [1, 2) and [5, 15) are frozen although the first and the
    last cross: only neighbours in the sorted table are compared.  At
    instruction 6 the handler of the crossing region is chosen. *)
Definition long_program : list (LocatedInstruction Op nat Origin) := (fun i => ins (Nop i) false i) <$> seq 0 16.

Definition crossing_regions : list (RegionSpec nat string) :=
  [{| rs_start := 0; rs_end := Some 10; rs_handler := ToInstruction 12 |};
   {| rs_start := 1; rs_end := Some 2; rs_handler := ToInstruction 13 |};
   {| rs_start := 5; rs_end := Some 15; rs_handler := ToInstruction 14 |}].

Theorem crossing_regions_freeze : exists frozen a b,
  freeze long_program [] crossing_regions = Ok frozen /\ a ∈ lc_regions frozen /\ b ∈ lc_regions frozen /\ crosses a b /\
  innermost_protected_region frozen 6 = Some b.
Proof.
  destruct (freeze long_program [] crossing_regions) as [frozen| | |] eqn:E; try (vm_compute in E; discriminate E).
  exists frozen, {| pr_start := 0; pr_end := 10; pr_handler := 12 |}, {| pr_start := 5; pr_end := 15; pr_handler := 14 |}.
  vm_compute in E. injection E as <-. split; [done|]. simpl. split_and!; [left|right; right; left| |].
  - unfold crosses. simpl. lia.
  - vm_compute. reflexivity.
Qed.

#[export] Instance sample_policy : AdmissionPolicy (I:=Op) (Id:=nat) (Origin:=Origin) (Datum:=tree) (Symbol:=tree) (M:=nat) (R:=unit) := {|
  validate_description := fun _ => Ok tt;
  validate_instruction := fun _ _ => Ok tt;
  policy_identity := symbol_qualified "sample" "policy";
  policy_version := 1;
  metadata_datum := usize_datum;
  instruction_datum := fun op =>
    d_list (match op with
      | Nop id => [d_bool true; d_bool true; usize_datum id]
      | Raise id => [d_bool true; d_bool false; usize_datum id]
      | Yield id => [d_bool false; d_bool true; usize_datum id]
      | Halt id => [d_bool false; d_bool false; usize_datum id]
      end);
|}.

#[export] Instance sample_metadata_inj : Inj (=) datum_equiv metadata_datum.
Proof. intros a b Hab. by apply usize_datum_inj in Hab. Qed.

#[export] Instance sample_instruction_inj : Inj (=) datum_equiv instruction_datum.
Proof.
  intros [a|a|a|a] [b|b|b|b] Hab%tree_same; try discriminate Hab; injection Hab as Hab; by simplify_eq.
Qed.

Abbreviation description := (MachineDescription (I:=Op) (Id:=nat) (Origin:=Origin) (M:=nat)).

Definition limits : AdmissionLimits :=
  {| al_instructions := 8; al_operand_units := 8; al_slots := 8; al_frames := 2; al_work := 100 |}.

Definition machine : description := {| md_code := code; md_limits := limits; md_metadata := 7 |}.

(** The same program under metadata 8. *)
Definition other_machine : description := {| md_code := code; md_limits := limits; md_metadata := 8 |}.

Definition permit : tree := match admit_machine machine with Ok id => id | _ => GenNode 0 [] end.

Lemma machine_admitted : admit_machine machine = Ok permit.
Proof. vm_compute. reflexivity. Qed.

Lemma program_frozen : Frozen program targets regions code.
Proof. pose proof (freeze_frozen program targets regions program_length) as Hf. by rewrite program_freezes in Hf. Qed.

Lemma permit_binds_description_witness :
  (exists b, accepts permit machine = Ok b /\ (b = true <-> SameDescription machine machine)) /\
  (exists b, accepts permit other_machine = Ok b /\ (b = true <-> SameDescription machine other_machine)).
Proof.
  destruct (permit_binds_description machine permit program targets regions program_frozen) as [_ Hb].
  split; [apply (Hb machine_admitted program targets regions machine program_frozen)
         |apply (Hb machine_admitted program targets regions other_machine program_frozen)].
Defined.

(** ** Running it *)

(** The policy keeps a count of its calls; frames are bare cursors. *)
#[export] Instance cursor_frame : MachineFrame nat := {| frame_cursor := fun f => f; set_frame_cursor := fun _ c => c |}.

Definition step (calls : nat) (op : Op) (frame : nat) : nat * nat * (string + StepOutcome nat nat nat nat nat) :=
  (S calls, frame,
   match op with
   | Nop _ => inr (StepContinue (S frame `min` 3))
   | Raise id => inr (StepRaise id)
   | Yield id => inr (StepYield id)
   | Halt id => inr (StepReturn id)
   end).

Definition start : Machine (D:=nat) (F:=nat) := {| m_policy := 0; m_frames := {| fs_frames := [0]; fs_limit := 2 |} |}.

#[export] Instance step_cursors : PolicyCursors step code.
Proof.
  split; [done|]. intros p op f p' f' res [= <- <- <-] Hf. split; [done|].
  destruct op; try done. change (code_len code) with 4. lia.
Qed.

Lemma start_ok : frames_ok code (m_frames start).
Proof. split; [|simpl; lia]. repeat constructor. Qed.

Lemma driver_safe_witness : safe (drive step machine permit start 50).1 /\ safe (drive_protected step machine permit start 50).1.
Proof.
  destruct (driver_safe step machine permit start 50 program targets regions program_frozen start_ok) as [[Hd _] [Hp _]].
  split; [exact Hd|exact Hp].
Defined.

Lemma start_guard : drive_guard (Fault:=string) machine permit start = Ok tt.
Proof. vm_compute. reflexivity. Qed.

Lemma drive_protected_spec_witness :
  drive_protected step machine permit start 50 =
  (Ok (DriveYield 13 [(10, KContinue); (11, KRaise); (13, KYield)]),
   {| m_policy := 3; m_frames := {| fs_frames := [3]; fs_limit := 2 |} |}).
Proof.
  destruct (drive_protected_spec step machine permit start start_guard) as [_ Hraise].
  destruct (Hraise 1 48 [(10, KContinue)] {| m_policy := 1; m_frames := {| fs_frames := [1]; fs_limit := 2 |} |} 1 11
    [(11, KRaise)] {| m_policy := 2; m_frames := {| fs_frames := [1]; fs_limit := 2 |} |}
    ltac:(vm_compute; reflexivity) ltac:(reflexivity) ltac:(vm_compute; reflexivity)) as (raising & Hc & Heq).
  injection Hc as <-. etransitivity; [exact Heq|]. vm_compute. reflexivity.
Defined.

(** A cleanup registered before this drive never runs: the drive yields, the
    stack of cleanups is consumed, and nothing gives it back. *)
Theorem yield_loses_cleanups :
  let cleanup := fun (_ : MachineUnwind nat nat nat) (runs : nat) => S runs in
  drive_with_cleanup step machine permit start 50 [cleanup] 0 =
  (Ok (DriveYield 13 [(10, KContinue); (11, KRaise); (13, KYield)]),
   {| m_policy := 3; m_frames := {| fs_frames := [3]; fs_limit := 2 |} |}, 0).
Proof. vm_compute. reflexivity. Qed.

(** The work limit a description was admitted with does not bound a drive. *)
Theorem admitted_work_not_enforced :
  let tight := {| md_code := code; md_metadata := 7;
    md_limits := {| al_instructions := 8; al_operand_units := 8; al_slots := 8; al_frames := 2; al_work := 1 |} |} in
  exists permit, admit_machine tight = Ok permit /\
  (drive_protected step tight permit start 50).1 = Ok (DriveYield 13 [(10, KContinue); (11, KRaise); (13, KYield)]).
Proof.
  intros tight. exists (match admit_machine tight with Ok id => id | _ => GenNode 0 [] end).
  split; vm_compute; reflexivity.
Qed.
End Programs.

(** ** Concrete arenas

    Small managed arenas on which the theorems on nodes, arenas and collections
    are instantiated, and a collection that passes its stack limit unnoticed. *)

Abbreviation Node := (ManagedNode unit).

Definition roomy_edges : EdgeLimits := {| lim_total := 8; lim_strong := 8; lim_weak := 8; lim_ephemeron := 8 |}.

Definition empty_node : Node := with_edge_limits () roomy_edges.

Definition add_strong (t : ManagedId) (n : Node) : Node :=
  match insert_strong n t with Ok (_, n) => n | _ => n end.

Definition add_weak (t : ManagedId) (n : Node) : Node :=
  match insert_weak n t with Ok (_, n) => n | _ => n end.

Definition add_ephemeron (key value : ManagedId) (n : Node) : Node :=
  match insert_ephemeron n key value with Ok (_, n) => n | _ => n end.

Lemma add_strong_steps t n : rtc node_step n (add_strong t n).
Proof. unfold add_strong. destruct (insert_strong n t) as [[e n']| | |] eqn:E; [|done..]. by eapply rtc_once, step_insert_strong. Qed.

Lemma add_weak_steps t n : rtc node_step n (add_weak t n).
Proof. unfold add_weak. destruct (insert_weak n t) as [[e n']| | |] eqn:E; [|done..]. by eapply rtc_once, step_insert_weak. Qed.

(** A node whose weak edge was cleared. *)
Definition sample_node : Node := (node_clear_weak (add_weak 7 (add_strong 3 empty_node)) 1 7).2.

Lemma sample_node_steps : rtc node_step (with_edge_limits () roomy_edges) sample_node.
Proof.
  etrans; [apply (add_strong_steps 3)|]. etrans; [apply (add_weak_steps 7)|].
  apply rtc_once, step_clear_weak.
Qed.

(** The cleared identity stays dead. *)
Lemma managed_node_history_witness : edge_snapshot sample_node = [Strong 0 3] /\ ~ live (add_weak 7 sample_node) 1.
Proof.
  destruct (managed_node_history () roomy_edges sample_node sample_node_steps) as (_ & _ & _ & Hd).
  split; [vm_compute; reflexivity|]. apply (Hd (add_weak 7 sample_node) 1%N); [apply add_weak_steps| |].
  - vm_compute. reflexivity.
  - intros [[x Hx]|[[x Hx]|[x Hx]]]; vm_compute in Hx; discriminate.
Defined.

(** ** An arena with survivors, garbage, a weak edge and two ephemerons *)

Definition build_arena (nodes : list Node) (a : ManagedArena Node) : ManagedArena Node :=
  foldl (fun a n => match arena_allocate a n with Ok (_, a) => a | _ => a end) a nodes.

Lemma build_arena_steps nodes : forall a, rtc arena_step a (build_arena nodes a).
Proof.
  induction nodes as [|n nodes IH]; intros a; simpl; [done|].
  destruct (arena_allocate a n) as [[id a']| | |] eqn:E; [|apply IH..].
  eapply rtc_l; [by eapply step_allocate|apply IH].
Qed.

Definition root_first (a : ManagedArena Node) : ManagedArena Node :=
  match arena_root a 0%N with Ok (_, a) => a | _ => a end.

Lemma root_first_steps a : rtc arena_step a (root_first a).
Proof. unfold root_first. destruct (arena_root a 0%N) as [[h a']| | |] eqn:E; [|done..]. by eapply rtc_once, step_root. Qed.

(** Object 0 is rooted and holds 1; its ephemerons map 1 to 2 and 3 to 4; it
    has a weak edge to 3.  Objects 3 and 4 form a cycle of garbage. *)
Definition sample_nodes : list Node :=
  [add_weak 3 (add_ephemeron 3 4 (add_ephemeron 1 2 (add_strong 1 empty_node)));
   empty_node; empty_node; add_strong 4 empty_node; add_strong 3 empty_node].

Definition sample_arena : ManagedArena Node := root_first (build_arena sample_nodes (new_arena 8)).

Lemma sample_arena_steps : rtc arena_step (new_arena 8) sample_arena.
Proof. etrans; [apply build_arena_steps|apply root_first_steps]. Qed.

Definition removed_arena : ManagedArena Node :=
  match arena_remove sample_arena 2%N with Ok (_, a) => a | _ => sample_arena end.

Lemma removed_arena_steps : rtc arena_step (new_arena 8) removed_arena.
Proof.
  unfold removed_arena. destruct (arena_remove sample_arena 2%N) as [[o a]| | |] eqn:E; [|exact sample_arena_steps..].
  eapply rtc_r; [exact sample_arena_steps|by eapply step_remove].
Qed.

Lemma arena_history_witness :
  is_Some (a_objects (build_arena [empty_node] removed_arena) !! 5%N) /\
  a_objects (build_arena [empty_node] removed_arena) !! 2%N = None.
Proof.
  split; [vm_compute; by eexists|]. destruct (arena_history 8 removed_arena removed_arena_steps) as [_ Hd].
  apply (Hd _ 2%N); [apply build_arena_steps|vm_compute; reflexivity|vm_compute; reflexivity].
Defined.

Definition roomy_limits : CollectionLimits :=
  {| l_objects := 8; l_edges := 8; l_stack := 8; l_work := 64; l_clears := 8; l_finalizers := 8 |}.

(** Registrations for a survivor and for garbage. *)
Definition sample_registry : FinalizationRegistry := (register (register default_registry 4).2 1).2.

Definition sample_jobs : JobQueues RuntimeJobClass FinalizationRecord := new_queues 4.

Lemma sample_arena_inv : ArenaInv sample_arena.
Proof. exact (proj1 (arena_steps_inv _ _ (new_arena_inv 8) sample_arena_steps)). Qed.

Lemma sample_jobs_inv : QueueInv sample_jobs.
Proof. by apply new_queues_inv. Qed.

Lemma collect_exact_witness :
  match collect_with_finalization id roomy_limits (sample_arena, sample_registry, sample_jobs) with
  | (Ok r, (a', _, q')) =>
    c_swept r = [3%N; 4%N] /\ is_Some (a_objects a' !! 2%N) /\
    queue_of q' Finalization = [(0%N, {| f_registration := 0; f_target := 4 |})]
  | _ => False
  end.
Proof.
  assert (match (collect_with_finalization id roomy_limits (sample_arena, sample_registry, sample_jobs)).1 with
    | Ok r => c_swept r = [3%N; 4%N] /\ c_finalization r = [{| f_registration := 0; f_target := 4 |}] | _ => False end) as Hs
    by (vm_compute; done).
  destruct (collect_with_finalization id roomy_limits (sample_arena, sample_registry, sample_jobs)) as [[r|e| |] [[a' g'] q']] eqn:E;
    [|done..].
  pose proof (collect_exact id sample_arena sample_registry sample_jobs roomy_limits r a' g' q'
    sample_arena_inv sample_jobs_inv E) as Hx.
  destruct Hs as [Hs Hf]. split_and!; [done| |].
  - apply (ce_survivors _ _ _ _ _ _ _ _ Hx). apply (reach_ephemeron _ 0%N (hd empty_node sample_nodes) 1%N 1%N 2%N).
    + apply reach_root. left. vm_compute. by left.
    + vm_compute. reflexivity.
    + apply elem_of_edge_snapshot. vm_compute. reflexivity.
    + apply (reach_strong _ 0%N (hd empty_node sample_nodes) 0%N); [apply reach_root; left; vm_compute; by left|vm_compute; reflexivity|].
      apply elem_of_edge_snapshot. vm_compute. reflexivity.
  - rewrite (proj1 (ce_jobs _ _ _ _ _ _ _ _ Hx)), Hf. reflexivity.
Defined.


(** The values of two ephemerons are pending together under a stack limit of
    one: the scan pushes them without a charge, and the next charge comes after
    one of them was taken off again. *)
Theorem ephemeron_stack_unchecked :
  let a := root_first (build_arena [add_ephemeron 0 2 (add_ephemeron 0 1 empty_node); empty_node; empty_node] (new_arena 8)) in
  let limits := {| l_objects := 8; l_edges := 8; l_stack := 1; l_work := 64; l_clears := 8; l_finalizers := 8 |} in
  let ephemerons := ephemeron_entries 0 (trace_edges (add_ephemeron 0 2 (add_ephemeron 0 1 empty_node))) in
  scan_ephemerons (take_snapshot a) limits {[0%N]} ephemerons 4 [] false = Ok (6%N, [2%N; 1%N], true) /\
  exists r, (collect limits a).1 = Ok r.
Proof. split; [vm_compute; reflexivity|]. eexists. vm_compute. reflexivity. Qed.
