(* ===== verification/ClassLineage.v ===== *)
(** * Class lineage

    crates/sim-lib-class/src/lineage.rs: linearizations of a class and its
    ancestors under budgets, by declared order or by the C3 merge.  The
    traversal finds a cycle or an order in which parents come first; C3 then
    merges the linearizations of the parents.  This file holds the definitions
    and the traversal; LineagePolicies proves the policies correct. *)

From stdpp Require Import relations.
From S2P Require Import Prelude BTree.

Record LineageBudget := {
  b_nodes : nat;
  b_work : nat;
}.

Record Meter := {
  m_limit : nat;
  m_used : nat;
}.

Record PrecedenceConstraint (K : Type) := {
  pc_before : K;
  pc_after : K;
}.
Arguments pc_before {K}.
Arguments pc_after {K}.

Inductive LineageError (K : Type) :=
| LCycle (path : list K)
| ConflictingPrecedence (parents : K * K) (constraint : PrecedenceConstraint K)
| NodeBudgetExhausted (limit required : nat)
| WorkBudgetExhausted (limit performed : nat).
Arguments LCycle {K}.
Arguments ConflictingPrecedence {K}.
Arguments NodeBudgetExhausted {K}.
Arguments WorkBudgetExhausted {K}.

(** [Meter::charge]. *)
Definition meter_charge {K} (w : Meter) : Res (LineageError K) Meter :=
  if decide (m_used w = m_limit w) then Err (WorkBudgetExhausted (m_limit w) (m_used w))
  else Ok {| m_limit := m_limit w; m_used := m_used w + 1 |}.

(** What is left to charge, with one turn to find out. *)
Definition meter_fuel (w : Meter) : nat := S (m_limit w - m_used w).

Inductive VisitState := Entered | Left_.

Section Lineage.
Context `{OrdKey K}.
(** [LineageGraph::declared_parents]. *)
Variable declared_parents : K -> list K.

(** The variables of [postorder]; the top of the stack is the head of the list. *)
Record Walk := {
  t_parents : BTreeMap K (list K);
  t_state : BTreeMap K VisitState;
  t_path : list K;
  t_order : list K;
  t_stack : list (K * bool);
}.

(** [path.iter().position(..).unwrap_or(0)], then the path from there. *)
Definition cycle_path (path : list K) (node : K) : list K :=
  let start := default 0 (fst <$> list_find (fun x => x = node) path) in
  drop start path ++ [node].

(** [Vec::pop]. *)
Definition pop_last (l : list K) : option (K * list K) :=
  match reverse l with [] => None | x :: r => Some (x, reverse r) end.

Fixpoint postorder_loop (fuel : nat) (nodes : nat) (w : Meter) (t : Walk) : Res (LineageError K) (Walk * Meter) :=
  match fuel with
  | 0 => NoFuel
  | S fuel =>
    match t_stack t with
    | [] => Ok (t, w)
    | (node, leaving) :: stack =>
      let? w := meter_charge w in
      if leaving : bool then
        let? (popped, path) := expect (pop_last (t_path t)) in
        if decide (popped = node) then
          postorder_loop fuel nodes w
            {| t_parents := t_parents t; t_state := <[node := Left_]> (t_state t); t_path := path;
               t_order := t_order t ++ [node]; t_stack := stack |}
        else Panic
      else
        match t_state t !! node with
        | Some Left_ =>
          postorder_loop fuel nodes w
            {| t_parents := t_parents t; t_state := t_state t; t_path := t_path t; t_order := t_order t; t_stack := stack |}
        | Some Entered => Err (LCycle (cycle_path (t_path t) node))
        | None =>
          let required := size (t_state t) + 1 in
          if (nodes <? required)%nat then Err (NodeBudgetExhausted nodes required)
          else
            let direct := declared_parents node in
            postorder_loop fuel nodes w
              {| t_parents := <[node := direct]> (t_parents t); t_state := <[node := Entered]> (t_state t);
                 t_path := t_path t ++ [node]; t_order := t_order t;
                 t_stack := ((fun p => (p, false)) <$> direct) ++ (node, true) :: stack |}
        end
    end
  end.

Definition postorder (root : K) (budget : LineageBudget) (w : Meter)
  : Res (LineageError K) (list K * BTreeMap K (list K) * Meter) :=
  let? (t, w) := postorder_loop (meter_fuel w) (b_nodes budget) w
    {| t_parents := ∅; t_state := ∅; t_path := []; t_order := []; t_stack := [(root, false)] |} in
  Ok (t_order t, t_parents t, w).

(** ** Declared order *)

Fixpoint declared_loop (fuel : nat) (parents : BTreeMap K (list K)) (w : Meter)
    (result : list K) (seen : BTreeSet K) (stack : list K) : Res (LineageError K) (list K) :=
  match fuel with
  | 0 => NoFuel
  | S fuel =>
    match stack with
    | [] => Ok result
    | node :: stack =>
      let? w := meter_charge w in
      if decide (node ∈ seen) then declared_loop fuel parents w result seen stack
      else declared_loop fuel parents w (result ++ [node]) ({[node]} ∪ seen) (default [] (parents !! node) ++ stack)
    end
  end.

Definition declared_linearize (root : K) (budget : LineageBudget) : Res (LineageError K) (list K) :=
  let? (_, parents, w) := postorder root budget {| m_limit := b_work budget; m_used := 0 |} in
  declared_loop (meter_fuel w) parents w [] ∅ [root].

(** ** C3 *)

(** [other[1..].contains(candidate)]. *)
Definition in_tail (candidate : K) (s : list K) : Prop := candidate ∈ tail s.

#[global] Instance in_tail_dec candidate s : Decision (in_tail candidate s).
Proof using H. unfold in_tail. apply _. Defined.

(** The [for sequence in &sequences] that looks for a head in no tail. *)
Fixpoint select_candidate (sequences : list (list K)) (rest : list (list K)) (w : Meter)
  : Res (LineageError K) (option K * Meter) :=
  match rest with
  | [] => Ok (None, w)
  | s :: rest =>
    let? w := meter_charge w in
    let? candidate := expect (head s) in
    if decide (Forall (fun other => ~ in_tail candidate other) sequences) then Ok (Some candidate, w)
    else select_candidate sequences rest w
  end.

Definition drop_head (candidate : K) (s : list K) : list K :=
  match s with [] => [] | x :: r => if decide (x = candidate) then r else s end.

(** The evidence for a merge in which every head is blocked. *)
Definition conflict {A} (sequences : list (list K)) : Res (LineageError K) A :=
  let? first := expect (head sequences) in
  let? before := expect (head first) in
  let? blocker := expect (snd <$> list_find (in_tail before) sequences) in
  let? required_before := expect (head blocker) in
  Err (ConflictingPrecedence (before, required_before) {| pc_before := required_before; pc_after := before |}).

Fixpoint merge_loop (fuel : nat) (w : Meter) (merged : list K) (sequences : list (list K))
  : Res (LineageError K) (list K * Meter) :=
  match fuel with
  | 0 => NoFuel
  | S fuel =>
    let sequences := filter (fun s => s <> []) sequences in
    match sequences with
    | [] => Ok (merged, w)
    | _ =>
      let? (selected, w) := select_candidate sequences sequences w in
      match selected with
      | None => conflict sequences
      | Some candidate => merge_loop fuel w (merged ++ [candidate]) (drop_head candidate <$> sequences)
      end
    end
  end.

Definition merge_fuel (sequences : list (list K)) : nat := S (sum_list_with length sequences).

(** [complete[parent].clone()] for every parent. *)
Fixpoint completed (complete : BTreeMap K (list K)) (direct : list K) : Res (LineageError K) (list (list K)) :=
  match direct with
  | [] => Ok []
  | p :: rest =>
    let? l := expect (complete !! p) in
    let? ls := completed complete rest in
    Ok (l :: ls)
  end.

Fixpoint c3_loop (order : list K) (parents complete : BTreeMap K (list K)) (w : Meter)
  : Res (LineageError K) (BTreeMap K (list K)) :=
  match order with
  | [] => Ok complete
  | node :: order =>
    let? direct := expect (parents !! node) in
    let? sequences := completed complete direct in
    let sequences := sequences ++ [direct] in
    let? (merged, w) := merge_loop (merge_fuel sequences) w [node] sequences in
    c3_loop order parents (<[node := merged]> complete) w
  end.

Definition c3_linearize (root : K) (budget : LineageBudget) : Res (LineageError K) (list K) :=
  let? (order, parents, w) := postorder root budget {| m_limit := b_work budget; m_used := 0 |} in
  let? complete := c3_loop order parents ∅ w in
  expect (complete !! root).
End Lineage.
