(* ===== verification/LineageWalk.v ===== *)
(** * The traversal of ancestors

    A traversal that ends lists exactly the ancestors of the root, each once and
    after its parents; one that is refused has found a real cycle, more
    ancestors than admitted, or the end of its work. *)

From stdpp Require Import relations.
From S2P Require Import Prelude BTree ClassLineage.

Section Walk.
Context `{OrdKey K}.
Variable declared_parents : K -> list K.
Variable root : K.

Definition parent_of (x p : K) : Prop := p ∈ declared_parents x.

(** A class and its ancestors. *)
Abbreviation ancestor := (rtc parent_of).

Fixpoint linked (l : list K) : Prop :=
  match l with
  | x :: ((y :: _) as rest) => parent_of x y /\ linked rest
  | _ => True
  end.

(** A path of declared parents from a class back to itself. *)
Definition is_cycle (l : list K) : Prop :=
  exists n, head l = Some n /\ last l = Some n /\ 2 <= length l /\ linked l.

(** The nodes entered and not left, from the top of the stack. *)
Definition leaving (stack : list (K * bool)) : list K :=
  omap (fun e => if e.2 : bool then Some e.1 else None) stack.

(** Every entry is a parent of the innermost node entered below it. *)
Fixpoint chain_ok (stack : list (K * bool)) : Prop :=
  match stack with
  | [] => True
  | (p, _) :: rest => match head (leaving rest) with Some x => parent_of x p | None => p = root end /\ chain_ok rest
  end.

(** The parents of an entered node are done or above it. *)
Fixpoint pending_ok (order above : list K) (stack : list (K * bool)) : Prop :=
  match stack with
  | [] => True
  | (x, b) :: rest =>
    (b = true -> forall p, parent_of x p -> p ∈ order \/ p ∈ above) /\ pending_ok order (x :: above) rest
  end.

(** Parents come first. *)
Definition parents_first (order : list K) : Prop :=
  forall i x p, order !! i = Some x -> parent_of x p -> p ∈ take i order.

Record WalkInv (t : Walk) : Prop := {
  wi_path : t_path t = reverse (leaving (t_stack t));
  wi_entered : forall x, t_state t !! x = Some Entered <-> x ∈ t_path t;
  wi_left : forall x, t_state t !! x = Some Left_ <-> x ∈ t_order t;
  wi_nodup_path : NoDup (t_path t);
  wi_nodup_order : NoDup (t_order t);
  wi_parents : forall x, t_parents t !! x = (fun _ => declared_parents x) <$> t_state t !! x;
  wi_first : parents_first (t_order t);
  wi_pending : pending_ok (t_order t) [] (t_stack t);
  wi_chain : chain_ok (t_stack t);
  wi_root : root ∈ t_order t \/ root ∈ (t_stack t).*1;
  wi_reach : forall x, x ∈ t_order t \/ x ∈ (t_stack t).*1 -> ancestor root x;
}.

Lemma linked_snoc l y : linked l -> (forall x, last l = Some x -> parent_of x y) -> linked (l ++ [y]).
Proof.
  induction l as [|x [|z l] IH]; intros Hl Hy; simpl; [done| |].
  - split; [by apply Hy|done].
  - destruct Hl as [? Hl]. split; [done|]. by apply IH.
Qed.

Lemma linked_drop n : forall l, linked l -> linked (drop n l).
Proof.
  induction n as [|n IH]; intros l Hl; [done|]. destruct l as [|x l]; [done|]. simpl. apply IH.
  by destruct l; [|destruct Hl].
Qed.

Lemma pending_ok_mono order order' stack : forall above above',
  (forall p, p ∈ order \/ p ∈ above -> p ∈ order' \/ p ∈ above') ->
  pending_ok order above stack -> pending_ok order' above' stack.
Proof.
  induction stack as [|[x b] stack IH]; intros above above' Hm; simpl; [done|]. intros [Hp Hr]. split.
  - intros Hb p Hpx. apply Hm. by apply Hp.
  - eapply IH; [|exact Hr]. intros p. rewrite !elem_of_cons. specialize (Hm p). naive_solver.
Qed.

Lemma pending_ok_push order direct stack : forall above,
  pending_ok order (reverse direct ++ above) stack ->
  pending_ok order above (((fun p => (p, false)) <$> direct) ++ stack).
Proof.
  induction direct as [|p direct IH]; intros above Hs; simpl; [done|]. split; [done|]. apply IH.
  by rewrite reverse_cons, <- app_assoc in Hs.
Qed.

Lemma leaving_push direct stack : leaving (((fun p => (p, false)) <$> direct) ++ stack) = leaving stack.
Proof. unfold leaving. by induction direct as [|p direct IH]. Qed.

Lemma chain_ok_push node direct stack : (forall p, p ∈ direct -> parent_of node p) -> chain_ok ((node, true) :: stack) ->
  chain_ok (((fun p => (p, false)) <$> direct) ++ (node, true) :: stack).
Proof.
  induction direct as [|p direct IH]; intros Hd Hc; [done|]. split.
  - change (head (leaving (((fun p => (p, false)) <$> direct) ++ (node, true) :: stack))) with
      (head (leaving (((fun p => (p, false)) <$> direct) ++ (node, true) :: stack))).
    rewrite leaving_push. simpl. apply Hd. by left.
  - apply IH; [|done]. intros q Hq. apply Hd. by right.
Qed.

(** The nodes entered form a path from the root. *)
Lemma leaving_linked stack : chain_ok stack -> linked (reverse (leaving stack)).
Proof.
  induction stack as [|[p b] stack IH]; simpl; [done|]. intros [Hp Hc]. unfold leaving. simpl.
  destruct b; [|by apply IH]. change (linked (reverse (p :: leaving stack))). rewrite reverse_cons.
  apply linked_snoc; [by apply IH|]. intros x Hx. rewrite last_reverse in Hx. by rewrite Hx in Hp.
Qed.

Lemma leaving_elem stack x : x ∈ leaving stack -> x ∈ stack.*1.
Proof.
  unfold leaving. rewrite list_elem_of_omap, list_elem_of_fmap. intros ([y b] & Hin & Hx). simpl in Hx.
  destruct b; [|done]. injection Hx as ->. by exists (x, true).
Qed.

Lemma parents_first_snoc order x : parents_first order -> (forall p, parent_of x p -> p ∈ order) ->
  parents_first (order ++ [x]).
Proof.
  intros Hf Hx i y p Hi Hp. apply lookup_app_Some in Hi as [Hi|[Hle Hi]].
  - rewrite take_app_le by (apply lookup_lt_Some in Hi; lia). by eapply Hf.
  - apply list_lookup_singleton_Some in Hi as [Hi ->]. rewrite take_app_ge by lia.
    apply elem_of_app. left. by apply Hx.
Qed.

(** ** Steps *)

Lemma walk_leave t node stack : WalkInv t -> t_stack t = (node, true) :: stack ->
  pop_last (t_path t) = Some (node, reverse (leaving stack)) /\
  WalkInv {| t_parents := t_parents t; t_state := <[node := Left_]> (t_state t); t_path := reverse (leaving stack);
             t_order := t_order t ++ [node]; t_stack := stack |}.
Proof.
  intros [Hpath Hen Hle Hnp Hno Hpar Hf Hpend Hch Hroot Hre] Hs. rewrite Hs in *.
  change (leaving ((node, true) :: stack)) with (node :: leaving stack) in Hpath.
  destruct Hch as [_ Hch]. destruct Hpend as [Hp0 Hpend].
  assert (t_state t !! node = Some Entered) as Hent by (apply Hen; rewrite Hpath, elem_of_reverse; by left).
  assert (node ∉ t_order t) as Hnin by (intros Hin%Hle; congruence).
  rewrite Hpath, reverse_cons in Hnp. apply NoDup_app in Hnp as (Hnp & Hdis & _).
  split; [unfold pop_last; by rewrite Hpath, reverse_involutive|]. split; simpl.
  - done.
  - intros x. destruct (decide (node = x)) as [<-|Hne].
    + rewrite lookup_insert_eq. split; [done|]. intros Hin. destruct (Hdis node Hin). by left.
    + rewrite lookup_insert_ne by done. rewrite Hen, Hpath, !elem_of_reverse, elem_of_cons. naive_solver.
  - intros x. rewrite elem_of_app, list_elem_of_singleton. destruct (decide (node = x)) as [<-|Hne].
    + rewrite lookup_insert_eq. naive_solver.
    + rewrite lookup_insert_ne by done. rewrite Hle. naive_solver.
  - done.
  - apply NoDup_app. split_and!; [done| |apply NoDup_singleton]. intros x Hx ->%list_elem_of_singleton. done.
  - intros x. rewrite Hpar. destruct (decide (node = x)) as [<-|Hne]; [by rewrite lookup_insert_eq, Hent|by rewrite lookup_insert_ne].
  - apply parents_first_snoc; [done|]. intros p Hp. destruct (Hp0 eq_refl p Hp) as [|[]%not_elem_of_nil]. done.
  - eapply pending_ok_mono; [|exact Hpend]. intros p. rewrite elem_of_app, !elem_of_cons. naive_solver.
  - done.
  - rewrite elem_of_app, list_elem_of_singleton. simpl in Hroot. rewrite elem_of_cons in Hroot. naive_solver.
  - intros x. rewrite elem_of_app, list_elem_of_singleton. intros Hx. apply Hre. simpl. rewrite elem_of_cons. naive_solver.
Qed.

Lemma walk_skip t node stack : WalkInv t -> t_stack t = (node, false) :: stack -> t_state t !! node = Some Left_ ->
  WalkInv {| t_parents := t_parents t; t_state := t_state t; t_path := t_path t; t_order := t_order t; t_stack := stack |}.
Proof.
  intros [Hpath Hen Hle Hnp Hno Hpar Hf Hpend Hch Hroot Hre] Hs Hl%Hle. rewrite Hs in *.
  destruct Hch as [_ Hch]. destruct Hpend as [_ Hpend]. split; simpl; try done.
  - eapply pending_ok_mono; [|exact Hpend]. intros p. rewrite elem_of_cons. naive_solver.
  - simpl in Hroot. rewrite elem_of_cons in Hroot. naive_solver.
  - intros x Hx. apply Hre. simpl. rewrite elem_of_cons. naive_solver.
Qed.

Lemma walk_enter t node stack : WalkInv t -> t_stack t = (node, false) :: stack -> t_state t !! node = None ->
  WalkInv {| t_parents := <[node := declared_parents node]> (t_parents t); t_state := <[node := Entered]> (t_state t);
             t_path := t_path t ++ [node]; t_order := t_order t;
             t_stack := ((fun p => (p, false)) <$> declared_parents node) ++ (node, true) :: stack |}.
Proof.
  intros [Hpath Hen Hle Hnp Hno Hpar Hf Hpend Hch Hroot Hre] Hs Hn. rewrite Hs in *.
  assert (node ∉ t_path t) as Hnp' by (intros Hin%Hen; congruence).
  assert (node ∉ t_order t) as Hno' by (intros Hin%Hle; congruence).
  assert (ancestor root node) as Hnode by (apply Hre; right; by left).
  destruct Hpend as [_ Hpend]. split; simpl.
  - rewrite leaving_push. change (leaving ((node, true) :: stack)) with (node :: leaving stack).
    rewrite reverse_cons, Hpath. done.
  - intros x. rewrite elem_of_app, list_elem_of_singleton. destruct (decide (node = x)) as [<-|Hne].
    + rewrite lookup_insert_eq. split; [by right|done].
    + rewrite lookup_insert_ne by done. rewrite Hen. split; [by left|intros [?|Heq]; [done|by destruct Hne]].
  - intros x. destruct (decide (node = x)) as [<-|Hne]; [|by rewrite lookup_insert_ne].
    rewrite lookup_insert_eq. by split.
  - apply NoDup_app. split_and!; [done| |apply NoDup_singleton]. intros x Hx ->%list_elem_of_singleton. done.
  - done.
  - intros x. destruct (decide (node = x)) as [<-|Hne]; [by rewrite !lookup_insert_eq|by rewrite !lookup_insert_ne].
  - done.
  - apply pending_ok_push. split.
    + intros _ p Hp. right. rewrite app_nil_r, elem_of_reverse. exact Hp.
    + eapply pending_ok_mono; [|exact Hpend]. intros p. rewrite !elem_of_cons.
      intros [?|[?|[]%not_elem_of_nil]]; tauto.
  - apply chain_ok_push; [done|]. exact Hch.
  - rewrite fmap_app. simpl. simpl in Hroot. rewrite elem_of_cons in Hroot. rewrite elem_of_app, elem_of_cons. tauto.
  - intros x. rewrite fmap_app, <- list_fmap_compose. simpl. rewrite elem_of_app, elem_of_cons.
    intros [Hx|[Hx|[->|Hx]]]; [apply Hre; by left| |done|apply Hre; right; by right].
    apply list_elem_of_fmap in Hx as (p & -> & Hp). eapply rtc_r; [exact Hnode|exact Hp].
Qed.

(** An entered node met again closes a cycle. *)
Lemma walk_cycle t node stack : WalkInv t -> t_stack t = (node, false) :: stack -> t_state t !! node = Some Entered ->
  is_cycle (cycle_path (t_path t) node) /\ forall x, x ∈ cycle_path (t_path t) node -> ancestor root x.
Proof.
  intros [Hpath Hen Hle Hnp Hno Hpar Hf Hpend Hch Hroot Hre] Hs Hn%Hen. rewrite Hs in *.
  change (leaving ((node, false) :: stack)) with (leaving stack) in Hpath. destruct Hch as [Hp Hch].
  assert (linked (t_path t)) as Hlink by (rewrite Hpath; by apply leaving_linked).
  unfold cycle_path. destruct (list_find (fun x => x = node) (t_path t)) as [[i x]|] eqn:E.
  2: { apply list_find_None in E. rewrite Forall_forall in E. by destruct (E node Hn). }
  apply list_find_Some in E as (Hi & -> & _). simpl.
  assert (drop i (t_path t) = node :: drop (S i) (t_path t)) as Hd by (by apply drop_S). split.
  - exists node. split_and!; [by rewrite Hd|by rewrite last_snoc|rewrite length_app, Hd; simpl; lia|].
    apply linked_snoc; [by apply linked_drop|]. intros y Hy.
    assert (last (t_path t) = Some y) as Hlast.
    { rewrite <- (take_drop i (t_path t)), last_app, Hy. done. }
    rewrite Hpath, last_reverse in Hlast. by rewrite Hlast in Hp.
  - intros x. rewrite elem_of_app, list_elem_of_singleton. intros [Hx| ->]; [|apply Hre; right; by left].
    apply Hre. right. right. apply leaving_elem. rewrite <- elem_of_reverse, <- Hpath. by eapply subseteq_drop.
Qed.

(** ** The whole traversal *)

(** What a refused traversal says. *)
Definition walk_refusal (nodes limit : nat) (e : LineageError K) : Prop :=
  match e with
  | LCycle path => is_cycle path /\ forall x, x ∈ path -> ancestor root x
  | NodeBudgetExhausted l required => l = nodes /\ nodes < required /\
    exists X, NoDup X /\ length X = required /\ forall x, x ∈ X -> ancestor root x
  | WorkBudgetExhausted l performed => l = limit /\ performed = limit
  | ConflictingPrecedence _ _ => False
  end.

Lemma walk_nodes t node stack : WalkInv t -> t_stack t = (node, false) :: stack -> t_state t !! node = None ->
  exists X, NoDup X /\ length X = size (t_state t) + 1 /\ forall x, x ∈ X -> ancestor root x.
Proof.
  intros HI Hs Hn. exists (node :: map_keys (t_state t)). split_and!.
  - constructor; [|apply set_keys_NoDup]. rewrite elem_of_map_keys, Hn. by intros [].
  - simpl. unfold map_keys. rewrite length_set_keys, size_dom. lia.
  - intros x [->|Hx]%elem_of_cons; [apply (wi_reach t HI); right; rewrite Hs; by left|].
    apply elem_of_map_keys in Hx as [[] Hx]; apply (wi_reach t HI).
    + right. apply leaving_elem. rewrite <- elem_of_reverse, <- (wi_path t HI). by apply (wi_entered t HI).
    + left. by apply (wi_left t HI).
Qed.

Lemma postorder_loop_spec nodes limit fuel : forall w t,
  WalkInv t -> m_limit w = limit -> m_used w <= limit -> meter_fuel w <= fuel ->
  match postorder_loop declared_parents fuel nodes w t with
  | Ok (t', w') => WalkInv t' /\ t_stack t' = [] /\ m_limit w' = limit /\ m_used w' <= limit
  | Err e => walk_refusal nodes limit e
  | _ => False
  end.
Proof.
  unfold meter_fuel. induction fuel as [|fuel IH]; intros w t HI Hl Hu Hf; [lia|]. simpl.
  destruct (t_stack t) as [|[node b] stack] eqn:Hs; [done|].
  unfold meter_charge. case_decide as Hc; simpl; [split; congruence|].
  assert (m_used w < limit) by lia. destruct b.
  - destruct (walk_leave t node stack HI Hs) as [-> HI']. simpl. rewrite decide_True by done. apply IH; simpl; [done|lia..].
  - destruct (t_state t !! node) as [[]|] eqn:Hn.
    + by apply (walk_cycle t node stack).
    + apply IH; [by eapply walk_skip|simpl; lia..].
    + destruct (Nat.ltb_spec nodes (size (t_state t) + 1)); simpl.
      * split_and!; [done|done|]. by eapply walk_nodes.
      * apply IH; [by apply walk_enter|simpl; lia..].
Qed.

(** What an accepted traversal says: the ancestors of the root, each once and
    after its parents. *)
Record WalkDone (order : list K) (parents : BTreeMap K (list K)) : Prop := {
  wd_nodup : NoDup order;
  wd_first : parents_first order;
  wd_all : forall x, x ∈ order <-> ancestor root x;
  wd_parents : forall x, x ∈ order -> parents !! x = Some (declared_parents x);
}.

Lemma parents_first_closed order x y : parents_first order -> x ∈ order -> ancestor x y -> y ∈ order.
Proof.
  intros Hf Hx Hr. revert Hx. induction Hr as [x|x p y Hp _ IH]; intros Hx; [done|]. apply IH.
  apply list_elem_of_lookup in Hx as [i Hi]. eapply subseteq_take. by eapply Hf.
Qed.

Lemma walk_initial : WalkInv {| t_parents := ∅; t_state := ∅; t_path := []; t_order := []; t_stack := [(root, false)] |}.
Proof.
  split; simpl; try done; try (by constructor).
  - intros x. rewrite lookup_empty. split; [done|]. by intros []%not_elem_of_nil.
  - intros x. rewrite lookup_empty. split; [done|]. by intros []%not_elem_of_nil.
  - right. by left.
  - intros x [[]%not_elem_of_nil|[->|[]%not_elem_of_nil]%elem_of_cons]. done.
Qed.

Lemma postorder_spec budget w : m_used w <= m_limit w ->
  match postorder declared_parents root budget w with
  | Ok (order, parents, w') => WalkDone order parents /\ m_limit w' = m_limit w /\ m_used w' <= m_limit w'
  | Err e => walk_refusal (b_nodes budget) (m_limit w) e
  | _ => False
  end.
Proof.
  intros Hu. unfold postorder.
  pose proof (postorder_loop_spec (b_nodes budget) (m_limit w) (meter_fuel w) w _ walk_initial eq_refl Hu (le_n _)) as Hs.
  destruct (postorder_loop _ _ _ _ _) as [[t w']|e| |]; simpl in *; [|done..].
  destruct Hs as (HI & Hst & Hl & Hw). split_and!; [|done|lia]. pose proof HI as [_ _ Hle _ Hno Hpar Hf _ _ Hroot Hre].
  split; [done|done| |].
  - intros x. split; [intros Hx; apply Hre; by left|]. apply parents_first_closed; [done|].
    destruct Hroot as [|Hroot]; [done|]. rewrite Hst in Hroot. by apply not_elem_of_nil in Hroot.
  - intros x Hx%Hle. by rewrite Hpar, Hx.
Qed.

(** No cycle goes through what was traversed. *)
Lemma parents_first_acyclic order i x y : parents_first order -> NoDup order -> order !! i = Some x ->
  tc parent_of x y -> y ∈ take i order /\ y <> x.
Proof.
  intros Hf Hn Hi Ht. assert (y ∈ take i order) as Hy.
  { revert i Hi. induction Ht as [x y Hp|x p y Hp _ IH]; intros i Hi; [by eapply Hf|].
    assert (p ∈ take i order) as (j & Hj & Hlt)%elem_of_take by (by eapply Hf).
    specialize (IH j Hj). apply elem_of_take in IH as (k & Hk & Hlt'). apply elem_of_take. exists k. split; [done|lia]. }
  split; [done|]. intros ->. apply elem_of_take in Hy as (j & Hj & Hlt).
  assert (i = j) by (eapply NoDup_lookup; eauto). lia.
Qed.
End Walk.
