(* ===== verification/LineagePolicies.v ===== *)
(** * Linearization policies

    The C3 policy of lineage.rs refines the C3 merge as a relation; its result
    is monotone and keeps every local precedence order, and a conflict is
    reported only when no order at all respects the parents' linearizations.
    The declared-order policy lists every ancestor once. *)

From stdpp Require Import relations.
From S2P Require Import Prelude BTree ClassLineage LineageWalk.

Section Merge.
Context `{OrdKey K}.
Implicit Types seqs : list (list K).

(** A head that some tail blocks. *)
Definition blocked seqs (c : K) : Prop := exists u, u ∈ seqs /\ in_tail c u.

(** The C3 merge: take the first head that no tail blocks. *)
Inductive c3_merge : list (list K) -> list K -> Prop :=
| merge_done seqs : filter (fun s => s <> []) seqs = [] -> c3_merge seqs []
| merge_take seqs pre s post c m :
    filter (fun s => s <> []) seqs = pre ++ s :: post -> head s = Some c ->
    ~ blocked (pre ++ s :: post) c ->
    (forall t d, t ∈ pre -> head t = Some d -> blocked (pre ++ s :: post) d) ->
    c3_merge (drop_head c <$> pre ++ s :: post) m -> c3_merge seqs (c :: m).

Lemma sublist_elem (l1 l2 : list K) x : sublist l1 l2 -> x ∈ l1 -> x ∈ l2.
Proof. intros Hs%sublist_submseteq Hx. by eapply elem_of_submseteq. Qed.

Lemma drop_head_sublist c (s : list K) : sublist (drop_head c s) s.
Proof. destruct s as [|x r]; simpl; [done|]. case_decide; [by apply sublist_cons|done]. Qed.

Lemma drop_head_absent c (s : list K) : ~ in_tail c s -> c ∉ drop_head c s.
Proof.
  unfold in_tail. destruct s as [|x r]; simpl; intros Hn; [apply not_elem_of_nil|].
  case_decide as Hd; [done|]. apply not_elem_of_cons. split; [congruence|done].
Qed.

Lemma elem_of_drop_head c (s : list K) x : x ∈ s -> x <> c -> x ∈ drop_head c s.
Proof.
  destruct s as [|y r]; simpl; [done|]. intros Hx Hne. case_decide as Hd; [|done].
  apply elem_of_cons in Hx as [->|]; [congruence|done].
Qed.

Lemma sublist_drop_head c (s m : list K) : sublist (drop_head c s) m -> sublist s (c :: m).
Proof.
  destruct s as [|x r]; simpl; intros Hs; [apply sublist_nil_l|].
  case_decide as Hd; [subst; by apply sublist_skip|by apply sublist_cons].
Qed.

Lemma elem_of_nonempty seqs s : s ∈ filter (fun s => s <> []) seqs <-> s ∈ seqs /\ s <> [].
Proof. rewrite list_elem_of_filter. tauto. Qed.

(** A merge contains what it merges, in order and without repetition. *)
Lemma c3_merge_spec seqs m : c3_merge seqs m ->
  (forall x, x ∈ m <-> exists s, s ∈ seqs /\ x ∈ s) /\ NoDup m /\ (forall s, s ∈ seqs -> sublist s m).
Proof.
  induction 1 as [seqs Hd|seqs pre s post c m Hf Hh Hb _ _ (IHin & IHnd & IHsub)].
  - assert (forall s, s ∈ seqs -> s = []) as He.
    { intros s Hs. destruct s as [|x s]; [done|]. assert (x :: s ∈ filter (fun s => s <> []) seqs) as Hin
        by (by apply elem_of_nonempty). rewrite Hd in Hin. by apply not_elem_of_nil in Hin. }
    split_and!; [|constructor|intros s Hs; by rewrite (He s Hs)].
    intros x. split; [by intros []%not_elem_of_nil|]. intros (s & Hs & Hx). rewrite (He s Hs) in Hx.
    by apply not_elem_of_nil in Hx.
  - set (ne := pre ++ s :: post) in *.
    assert (s ∈ ne) as Hs by (apply elem_of_app; right; by left).
    assert (forall x, x ∈ m <-> exists t, t ∈ ne /\ x ∈ drop_head c t) as Hin.
    { intros x. rewrite IHin. split.
      - intros (t & (u & -> & Hu)%list_elem_of_fmap & Hx). eauto.
      - intros (t & Ht & Hx). exists (drop_head c t). split; [by apply list_elem_of_fmap_2|done]. }
    split_and!.
    + intros x. rewrite elem_of_cons, Hin. split.
      * intros [->|(t & Ht & Hx)].
        -- exists s. rewrite <- Hf in Hs. apply elem_of_nonempty in Hs as [Hs _]. split; [done|].
           destruct s; [done|]. injection Hh as ->. by left.
        -- exists t. rewrite <- Hf in Ht. apply elem_of_nonempty in Ht as [Ht _]. split; [done|].
           eapply sublist_elem; [apply drop_head_sublist|exact Hx].
      * intros (t & Ht & Hx). destruct (decide (x = c)) as [->|Hne]; [by left|]. right. exists t. split.
        -- rewrite <- Hf. apply elem_of_nonempty. split; [done|]. intros ->. by apply not_elem_of_nil in Hx.
        -- by apply elem_of_drop_head.
    + constructor; [|done]. rewrite Hin. intros (t & Ht & Hx). revert Hx. apply drop_head_absent. intros Hc. apply Hb. by exists t.
    + intros t Ht. destruct (decide (t = [])) as [->|Hne]; [apply sublist_nil_l|].
      apply sublist_drop_head, IHsub, list_elem_of_fmap_2. rewrite <- Hf. by apply elem_of_nonempty.
Qed.

(** When every head is blocked, no order contains all sequences. *)
Lemma blocked_no_order seqs : (exists s, s ∈ seqs /\ s <> []) ->
  (forall t d, t ∈ seqs -> head t = Some d -> blocked seqs d) ->
  forall l, NoDup l -> ~ (forall s, s ∈ seqs -> sublist s l).
Proof.
  intros (s0 & Hs0 & Hne) Hb l Hnd. induction Hnd as [|a l Ha Hnd IH]; intros Hsub.
  { specialize (Hsub s0 Hs0). by apply sublist_nil_r in Hsub. }
  assert (forall s, s ∈ seqs -> sublist s l \/ exists r, s = a :: r /\ sublist r l) as Hcase.
  { intros s Hs. specialize (Hsub s Hs). apply sublist_cons_r in Hsub as [|(r & -> & Hr)]; eauto. }
  assert (forall s, s ∈ seqs -> ~ in_tail a s) as Hfree.
  { intros s Hs Ht. destruct (Hcase s Hs) as [Hsl|(r & -> & Hr)]; apply Ha.
    - unfold in_tail in Ht. destruct s as [|x s]; simpl in Ht; [by apply not_elem_of_nil in Ht|].
      eapply sublist_elem; [exact Hsl|by right].
    - by eapply sublist_elem. }
  apply IH. intros s Hs. destruct (Hcase s Hs) as [|(r & -> & _)]; [done|].
  destruct (Hb (a :: r) a Hs eq_refl) as (u & Hu & Ht). by destruct (Hfree u Hu).
Qed.

(** ** The loop *)

Definition meter_ok (limit : nat) (w : Meter) : Prop := m_limit w = limit /\ m_used w <= limit.

Definition work_refusal (limit : nat) (e : LineageError K) : Prop := e = WorkBudgetExhausted limit limit.

Lemma meter_charge_spec limit w : meter_ok limit w ->
  match meter_charge (K := K) w with Ok w' => meter_ok limit w' | Err e => work_refusal limit e | _ => False end.
Proof.
  intros [Hl Hu]. unfold meter_charge. case_decide as Hd; simpl.
  - unfold work_refusal. by rewrite Hd, Hl.
  - split; simpl; lia.
Qed.

Lemma select_candidate_spec limit seqs rest : forall w, meter_ok limit w -> Forall (fun s => s <> []) rest ->
  match select_candidate seqs rest w with
  | Ok (Some c, w') => meter_ok limit w' /\ exists pre s post, rest = pre ++ s :: post /\ head s = Some c /\
      ~ blocked seqs c /\ (forall t d, t ∈ pre -> head t = Some d -> blocked seqs d)
  | Ok (None, w') => meter_ok limit w' /\ (forall t d, t ∈ rest -> head t = Some d -> blocked seqs d)
  | Err e => work_refusal limit e
  | _ => False
  end.
Proof.
  induction rest as [|s rest IH]; intros w Hw Hne; simpl.
  { split; [done|]. by intros t d []%not_elem_of_nil. }
  apply Forall_cons in Hne as [Hs Hne]. pose proof (meter_charge_spec limit w Hw) as Hc.
  destruct (meter_charge w) as [w1|e| |]; simpl; [|done..].
  destruct s as [|c s]; [done|]. simpl. case_decide as Hd.
  - split; [done|]. exists [], (c :: s), rest. split_and!; [done|done| |by intros t d []%not_elem_of_nil].
    intros (u & Hu & Ht). rewrite Forall_forall in Hd. by destruct (Hd u Hu).
  - assert (blocked seqs c) as Hbc.
    { apply not_Forall_Exists in Hd; [|apply _]. apply Exists_exists in Hd as (u & Hu & Ht). exists u.
      split; [done|]. destruct (decide (in_tail c u)); [done|]. by destruct Ht. }
    specialize (IH w1 Hc Hne). destruct (select_candidate seqs rest w1) as [[[c'|] w2]|e| |]; [| |done..].
    + destruct IH as (Hw2 & pre & t & post & -> & Hh & Hb & Hpre). split; [done|].
      exists ((c :: s) :: pre), t, post. split_and!; [done..|].
      intros u d [->|Hu]%elem_of_cons; [by intros [= <-]|by apply Hpre].
    + destruct IH as [Hw2 Hall]. split; [done|]. intros u d [->|Hu]%elem_of_cons; [by intros [= <-]|by apply Hall].
Qed.

(** What a refused merge says: the work is used up, or two classes are in
    opposite orders and no order respects all sequences. *)
Definition merge_refusal (limit : nat) seqs (e : LineageError K) : Prop :=
  match e with
  | WorkBudgetExhausted l p => l = limit /\ p = limit
  | ConflictingPrecedence (x, y) c =>
    pc_before c = y /\ pc_after c = x /\ (exists s, s ∈ seqs /\ sublist [y; x] s) /\
    forall l, NoDup l -> ~ (forall s, s ∈ seqs -> sublist s l)
  | _ => False
  end.

Lemma conflict_spec limit {A} seqs : seqs <> [] -> Forall (fun s => s <> []) seqs ->
  (forall t d, t ∈ seqs -> head t = Some d -> blocked seqs d) ->
  match conflict (A := A) seqs with Err e => merge_refusal limit seqs e | _ => False end.
Proof.
  intros Hn Hne Hb. destruct seqs as [|s0 seqs0] eqn:Es; [done|]. rewrite <- Es in *. unfold conflict.
  assert (s0 ∈ seqs) as Hs0 by (rewrite Es; by left).
  assert (s0 <> []) as Hs0n by (rewrite Forall_forall in Hne; by apply Hne).
  replace (head seqs) with (Some s0) by (by rewrite Es). simpl. destruct s0 as [|x s0]; [done|]. simpl.
  destruct (Hb (x :: s0) x Hs0 eq_refl) as (u & Hu & Hx).
  destruct (list_find (in_tail x) seqs) as [[i b]|] eqn:E.
  2: { apply list_find_None in E. rewrite Forall_forall in E. by destruct (E u Hu). }
  apply list_find_Some in E as (Hi & Ht & _). apply list_elem_of_lookup_2 in Hi. simpl.
  unfold in_tail in Ht. destruct b as [|y b]; simpl in Ht; [by apply not_elem_of_nil in Ht|]. simpl.
  split_and!; [done|done| |].
  - exists (y :: b). split; [done|]. apply sublist_skip. by apply singleton_sublist_l.
  - apply blocked_no_order; [|done]. eauto.
Qed.

Lemma sum_length_filter seqs : sum_list_with length (filter (fun s => s <> []) seqs) = sum_list_with length seqs.
Proof.
  induction seqs as [|s seqs IH]; [done|]. rewrite filter_cons. case_decide as Hd; simpl; [lia|].
  destruct s as [|x s]; simpl; [lia|done].
Qed.

Lemma sum_length_drop c seqs : sum_list_with length (drop_head c <$> seqs) <= sum_list_with length seqs.
Proof.
  induction seqs as [|s seqs IH]; csimpl; [done|]. pose proof (sublist_length _ _ (drop_head_sublist c s)). lia.
Qed.

Lemma merge_loop_spec limit fuel : forall w merged seqs, meter_ok limit w -> merge_fuel seqs <= fuel ->
  match merge_loop fuel w merged seqs with
  | Ok (l, w') => meter_ok limit w' /\ exists m, l = merged ++ m /\ c3_merge seqs m
  | Err e => merge_refusal limit seqs e
  | _ => False
  end.
Proof.
  unfold merge_fuel. induction fuel as [|fuel IH]; intros w merged seqs Hw Hf; [lia|]. simpl.
  destruct (filter (fun s => s <> []) seqs) as [|s0 rest] eqn:E.
  { split; [done|]. exists []. rewrite app_nil_r. split; [done|by apply merge_done]. }
  rewrite <- E. set (ne := filter (fun s => s <> []) seqs) in *.
  assert (Forall (fun s => s <> []) ne) as Hne by (apply Forall_forall; by intros s [_ ?]%elem_of_nonempty).
  assert (forall s, s ∈ ne -> s ∈ seqs) as Hsub by (by intros s [? _]%elem_of_nonempty).
  pose proof (select_candidate_spec limit ne ne w Hw Hne) as Hsel.
  destruct (select_candidate ne ne w) as [[[c|] w1]|e| |]; simpl; [| |by rewrite Hsel|done..].
  - destruct Hsel as (Hw1 & pre & s & post & Hsplit & Hh & Hb & Hpre).
    assert (sum_list_with length (drop_head c <$> ne) < sum_list_with length seqs) as Hlt.
    { rewrite <- (sum_length_filter seqs). fold ne. rewrite Hsplit, fmap_app, !sum_list_with_app. csimpl.
      pose proof (sum_length_drop c pre). pose proof (sum_length_drop c post).
      destruct s as [|x s]; [done|]. injection Hh as ->. unfold drop_head at 2. rewrite decide_True by done. csimpl. lia. }
    specialize (IH w1 (merged ++ [c]) (drop_head c <$> ne) Hw1 ltac:(lia)).
    destruct (merge_loop fuel w1 _ _) as [[l w2]|e| |]; [| |done..].
    + destruct IH as (Hw2 & m & -> & Hm). split; [done|]. exists (c :: m). rewrite <- app_assoc. split; [done|].
      rewrite Hsplit in Hm, Hb, Hpre. by eapply merge_take.
    + destruct e as [?|[x y] k|? ?|? ?]; try done. destruct IH as (Hk1 & Hk2 & (t & Ht & Hord) & Hno).
      split_and!; [done|done| |].
      * apply list_elem_of_fmap in Ht as (u & -> & Hu). exists u. split; [by apply Hsub|].
        etrans; [exact Hord|apply drop_head_sublist].
      * intros l Hl Hsl. apply (Hno l Hl). intros t' (u & -> & Hu)%list_elem_of_fmap.
        etrans; [apply drop_head_sublist|]. by apply Hsl, Hsub.
  - destruct Hsel as [_ Hb]. assert (ne <> []) as Hn by (by rewrite E).
    pose proof (conflict_spec limit (A := list K * Meter) ne Hn Hne Hb) as Hc.
    destruct (conflict ne) as [|e| |]; try done. destruct e as [?|[x y] k|? ?|? ?]; try done.
    destruct Hc as (Hk1 & Hk2 & (t & Ht & Hord) & Hno). split_and!; [done|done|by exists t; auto|].
    intros l Hl Hsl. apply (Hno l Hl). intros t' Ht'. by apply Hsl, Hsub.
Qed.
End Merge.

(** ** The C3 policy *)

Section Policies.
Context `{OrdKey K}.
Variable declared_parents : K -> list K.

Abbreviation parent_of := (LineageWalk.parent_of declared_parents).

(** The C3 linearization of a class: itself, and the merge of the parents'
    linearizations and the parents in declared order. *)
Inductive c3 : K -> list K -> Prop :=
| c3_intro x ls m :
    Forall2 c3 (declared_parents x) ls -> c3_merge (ls ++ [declared_parents x]) m -> c3 x (x :: m).

(** A linearization: the ancestors of the class, each once, in an order that
    keeps the declared order of every ancestor's parents and every ancestor's
    own linearization. *)
Record Linearization (x : K) (l : list K) : Prop := {
  ln_c3 : c3 x l;
  ln_nodup : NoDup l;
  ln_all : forall y, y ∈ l <-> rtc parent_of x y;
  ln_local : forall y, y ∈ l -> sublist (declared_parents y) l;
  ln_monotone : forall y, y ∈ l -> exists ly, c3 y ly /\ sublist ly l;
}.

Lemma completed_spec complete direct : (forall p, p ∈ direct -> exists l, complete !! p = Some l /\ Linearization p l) ->
  exists ls, completed complete direct = Ok ls /\ Forall2 Linearization direct ls.
Proof.
  induction direct as [|p direct IH]; intros Hd; simpl; [by exists []; auto|].
  destruct (Hd p) as (l & -> & Hl); [by left|]. destruct IH as (ls & -> & Hls); [intros q Hq; apply Hd; by right|].
  exists (l :: ls). split; [done|by constructor].
Qed.

(** Merging linearizations of the parents gives one of the class. *)
Lemma merge_linearization x ls m : Forall2 Linearization (declared_parents x) ls ->
  c3_merge (ls ++ [declared_parents x]) m -> (forall y, tc parent_of x y -> y <> x) -> Linearization x (x :: m).
Proof.
  intros Hls Hm Hac. destruct (c3_merge_spec _ _ Hm) as (Hin & Hnd & Hsub).
  assert (forall s, s ∈ ls -> exists p, parent_of x p /\ Linearization p s) as Hfrom.
  { intros s [i Hi]%list_elem_of_lookup. destruct (Forall2_lookup_r _ _ _ _ _ Hls Hi) as (p & Hp & Hl).
    exists p. split; [by eapply list_elem_of_lookup_2|done]. }
  assert (forall p, parent_of x p -> exists s, s ∈ ls /\ Linearization p s) as Hto.
  { intros p [i Hi]%list_elem_of_lookup. destruct (Forall2_lookup_l _ _ _ _ _ Hls Hi) as (s & Hs & Hl).
    exists s. split; [by eapply list_elem_of_lookup_2|done]. }
  assert (forall y, y ∈ m <-> exists p s, parent_of x p /\ s ∈ ls /\ Linearization p s /\ y ∈ s) as Hy.
  { intros y. rewrite Hin. split.
    - intros (s & [Hs| ->%list_elem_of_singleton]%elem_of_app & Hy).
      + destruct (Hfrom s Hs) as (p & Hp & Hl). exists p, s. done.
      + destruct (Hto y Hy) as (s & Hs & Hl). exists y, s. split_and!; [done..|]. by apply (ln_all _ _ Hl).
    - intros (p & s & _ & Hs & _ & Hys). exists s. split; [|done]. apply elem_of_app. by left. }
  assert (forall y, y ∈ m -> tc parent_of x y) as Htc.
  { intros y (p & s & Hp & _ & Hl & Hys)%Hy. apply (ln_all _ _ Hl) in Hys. eapply tc_rtc_r; [by apply tc_once|done]. }
  assert (c3 x (x :: m)) as Hc3.
  { apply (c3_intro x ls m); [|done]. eapply Forall2_impl; [exact Hls|]. intros p s Hl. apply Hl. }
  assert (forall s, s ∈ ls -> sublist s (x :: m)) as Hsl by (intros s Hs; apply sublist_cons, Hsub, elem_of_app; by left).
  split; [done| | | |].
  - constructor; [|done]. intros Hx%Htc%Hac. done.
  - intros y. rewrite elem_of_cons. split.
    + intros [->|Hym]; [done|]. apply tc_rtc. by apply Htc.
    + intros Hr. apply rtc_inv in Hr as [->|(p & Hp & Hr)]; [by left|right]. apply Hy.
      destruct (Hto p Hp) as (s & Hs & Hl). exists p, s. split_and!; [done..|]. by apply (ln_all _ _ Hl).
  - intros y [->|(p & s & Hp & Hs & Hl & Hys)%Hy]%elem_of_cons.
    + apply sublist_cons, Hsub, elem_of_app. right. by left.
    + etrans; [by apply (ln_local _ _ Hl)|by apply Hsl].
  - intros y [->|(p & s & Hp & Hs & Hl & Hys)%Hy]%elem_of_cons; [by exists (x :: m)|].
    destruct (ln_monotone _ _ Hl y Hys) as (ly & Hly & Hsy). exists ly. split; [done|]. etrans; [exact Hsy|by apply Hsl].
Qed.

(** What a refused linearization says beyond a refused traversal: no order
    respects the parents' linearizations and the declared order at some
    ancestor. *)
Definition c3_refusal (root : K) (limit : nat) (e : LineageError K) : Prop :=
  match e with
  | WorkBudgetExhausted l p => l = limit /\ p = limit
  | ConflictingPrecedence (a, b) k => pc_before k = b /\ pc_after k = a /\
    exists x ls, rtc parent_of root x /\ Forall2 c3 (declared_parents x) ls /\
      (exists s, s ∈ ls ++ [declared_parents x] /\ sublist [b; a] s) /\
      forall l, NoDup l -> ~ (forall s, s ∈ ls ++ [declared_parents x] -> sublist s l)
  | _ => False
  end.

#[local] Opaque merge_fuel.

Lemma c3_loop_spec root order parents limit : WalkDone declared_parents root order parents ->
  forall rest done_ complete w, order = done_ ++ rest -> meter_ok limit w ->
  (forall x, x ∈ done_ -> exists l, complete !! x = Some l /\ Linearization x l) ->
  match c3_loop rest parents complete w with
  | Ok complete' => forall x, x ∈ order -> exists l, complete' !! x = Some l /\ Linearization x l
  | Err e => c3_refusal root limit e
  | _ => False
  end.
Proof.
  intros HW. induction rest as [|x rest IH]; intros done_ complete w Ho Hw Hd; simpl.
  { intros y Hy. apply Hd. by rewrite Ho, app_nil_r in Hy. }
  assert (order !! length done_ = Some x) as Hx by (by rewrite Ho, list_lookup_middle).
  assert (x ∈ order) as Hxo by (by eapply list_elem_of_lookup_2).
  assert (take (length done_) order = done_) as Htake by (by rewrite Ho, take_app_length).
  rewrite (wd_parents _ _ _ _ HW x Hxo). simpl.
  destruct (completed_spec complete (declared_parents x)) as (ls & -> & Hls).
  { intros p Hp. apply Hd. rewrite <- Htake. by eapply (wd_first _ _ _ _ HW). }
  simpl. pose proof (merge_loop_spec limit (merge_fuel (ls ++ [declared_parents x])) w [x] (ls ++ [declared_parents x]) Hw (le_n _)) as Hm.
  destruct (merge_loop _ w [x] _) as [[l w1]|e| |]; [| |done..].
  - destruct Hm as (Hw1 & m & -> & Hm). simpl.
    assert (Linearization x (x :: m)) as Hlin.
    { apply merge_linearization with ls; [done..|]. intros z Hz.
      eapply (parents_first_acyclic _ order (length done_) x z); [apply HW|apply HW|done|done]. }
    apply (IH (done_ ++ [x])); [by rewrite <- app_assoc|done|].
    intros y Hy. destruct (decide (x = y)) as [<-|Hne]; [exists (x :: m); by rewrite lookup_insert_eq|].
    rewrite lookup_insert_ne by done. apply Hd. apply elem_of_app in Hy as [|Hy%list_elem_of_singleton]; [done|congruence].
  - destruct e as [?|[a b] k|? ?|? ?]; try done. destruct Hm as (Hb & Ha & Hord & Hno). split_and!; [done|done|].
    exists x, ls. split_and!; [by apply (wd_all _ _ _ _ HW)| |done|done].
    eapply Forall2_impl; [exact Hls|]. intros p s Hl. apply Hl.
Qed.

(** The merge and the linearization are functions of the graph. *)
Lemma first_unblocked_unique (l pre pre' post post' : list (list K)) s s' c c' :
  l = pre ++ s :: post -> l = pre' ++ s' :: post' -> head s = Some c -> head s' = Some c' ->
  ~ blocked l c -> ~ blocked l c' ->
  (forall t d, t ∈ pre -> head t = Some d -> blocked l d) ->
  (forall t d, t ∈ pre' -> head t = Some d -> blocked l d) -> s = s'.
Proof.
  intros H1 H2 Hc Hc' Hb Hb' Hp Hp'. destruct (Nat.lt_trichotomy (length pre) (length pre')) as [Hlt|[Heq|Hlt]].
  - destruct Hb. apply (Hp' s); [|done]. apply (list_elem_of_lookup_2 _ (length pre)).
    rewrite <- (lookup_app_l pre' (s' :: post')) by done. rewrite <- H2, H1. by apply list_lookup_middle.
  - rewrite H1 in H2. apply app_inj_1 in H2 as [_ H2]; [by injection H2|done].
  - destruct Hb'. apply (Hp s'); [|done]. apply (list_elem_of_lookup_2 _ (length pre')).
    rewrite <- (lookup_app_l pre (s :: post)) by done. rewrite <- H1, H2. by apply list_lookup_middle.
Qed.

Lemma c3_merge_fun (seqs : list (list K)) m : c3_merge seqs m -> forall m', c3_merge seqs m' -> m = m'.
Proof.
  induction 1 as [seqs Hd|seqs pre s post c m Hf Hh Hb Hpre _ IH]; intros m' Hm'.
  - destruct Hm' as [seqs Hd'|seqs pre s post c m Hf _ _ _ _]; [done|]. rewrite Hd in Hf. by destruct pre.
  - destruct Hm' as [seqs Hd'|seqs pre' s' post' c' m' Hf' Hh' Hb' Hpre' Hm']; [rewrite Hd' in Hf; by destruct pre|].
    rewrite Hf in Hf'. assert (s = s') as <-.
    { eapply (first_unblocked_unique (pre ++ s :: post) pre pre'); [done|exact Hf'|exact Hh|exact Hh'|done| |done|];
        rewrite Hf'; done. }
    rewrite Hh in Hh'. injection Hh' as <-. f_equal. apply IH. by rewrite Hf'.
Qed.

Lemma c3_fun : forall x l, c3 x l -> forall l', c3 x l' -> l = l'.
Proof.
  fix IH 3. intros x l [x' ls m Hls Hm] l' Hl'. inversion Hl' as [x'' ls' m' Hls' Hm' E1 E2]. f_equal.
  assert (ls = ls') as <-.
  { clear Hm Hm'. revert ls' Hls'. induction Hls as [|p s ps ls Hp _ IHs]; intros ls' Hls'; inversion Hls'; [done|].
    f_equal; [by apply (IH p)|by apply IHs]. }
  by apply (c3_merge_fun _ _ Hm).
Qed.

(** The facts of the C3 policy. *)
Lemma c3_linearize_facts root budget :
  match c3_linearize declared_parents root budget with
  | Ok l => head l = Some root /\ Linearization root l /\ (forall l', c3 root l' -> l' = l)
  | Err e => walk_refusal declared_parents root (b_nodes budget) (b_work budget) e \/ c3_refusal root (b_work budget) e
  | _ => False
  end.
Proof.
  unfold c3_linearize.
  pose proof (postorder_spec declared_parents root budget {| m_limit := b_work budget; m_used := 0 |} ltac:(simpl; lia)) as Hp.
  destruct (postorder _ _ _ _) as [[[order parents] w]|e| |]; simpl in *; [|by left|done..].
  destruct Hp as (HW & Hl & Hu).
  pose proof (c3_loop_spec root order parents (b_work budget) HW order [] ∅ w eq_refl ltac:(split; lia)
    ltac:(by intros x []%not_elem_of_nil)) as Hc.
  destruct (c3_loop order parents ∅ w) as [complete|e| |]; simpl; [|by right|done..].
  destruct (Hc root) as (l & -> & Hlin); [by apply (wd_all _ _ _ _ HW)|]. simpl. split_and!; [|done|].
  - by destruct (ln_c3 _ _ Hlin).
  - intros l' Hl'. eapply c3_fun; [exact Hl'|apply Hlin].
Qed.

(** C17: For every graph of declared parents and every budget, the C3 policy
    returns the C3 linearization of the class or a true refusal.  The
    linearization starts with the class and holds each ancestor once; it keeps
    the declared order of the parents of every ancestor and contains the
    linearization of every ancestor in order.  A refusal names a cycle of
    declared parents, more ancestors than admitted, the end of the work, or a
    conflict, and a conflict means that no order of classes at all respects the
    linearizations and the declared order of some ancestor's parents. *)
Theorem c3_linearize_spec root budget :
  match c3_linearize declared_parents root budget with
  | Ok l => head l = Some root /\ Linearization root l /\ (forall l', c3 root l' -> l' = l)
  | Err e => walk_refusal declared_parents root (b_nodes budget) (b_work budget) e \/ c3_refusal root (b_work budget) e
  | _ => False
  end.
Proof. apply c3_linearize_facts. Qed.

(** ** Declared order *)

(** [walk result stack l]: going depth first through [stack], the parents of a
    class in declared order and each class at its first visit, turns [result]
    into [l]. *)
Inductive walk : list K -> list K -> list K -> Prop :=
| walk_done result : walk result [] result
| walk_seen result x stack l : x ∈ result -> walk result stack l -> walk result (x :: stack) l
| walk_new result x stack l : x ∉ result -> walk (result ++ [x]) (declared_parents x ++ stack) l -> walk result (x :: stack) l.

Lemma walk_fun result stack l : walk result stack l -> forall l', walk result stack l' -> l = l'.
Proof. induction 1 as [|result x stack l Hx _ IH|result x stack l Hx _ IH]; intros l' Hl'; inversion Hl'; subst; auto; done. Qed.

Lemma walk_prefix result stack l : walk result stack l -> result `prefix_of` l.
Proof. induction 1 as [|? ? ? ? ? _ IH|result x stack l Hx _ IH]; [done|done|]. etrans; [|exact IH]. by apply prefix_app_r. Qed.

Record DeclaredInv (root : K) (result : list K) (seen : BTreeSet K) (stack : list K) : Prop := {
  di_seen : forall x, x ∈ result <-> x ∈ seen;
  di_nodup : NoDup result;
  di_closed : forall x p, x ∈ result -> parent_of x p -> p ∈ result \/ p ∈ stack;
  di_root : head (result ++ stack) = Some root;
  di_reach : forall x, x ∈ stack -> x = root \/ exists y, y ∈ result /\ parent_of y x;
  di_all : forall x, x ∈ result \/ x ∈ stack -> rtc parent_of root x;
  di_child : forall i x, result !! i = Some x -> x = root \/ exists y, y ∈ take i result /\ parent_of y x;
}.

Lemma declared_visit root result seen node stack :
  DeclaredInv root result seen (node :: stack) -> node ∉ seen ->
  DeclaredInv root (result ++ [node]) ({[node]} ∪ seen) (declared_parents node ++ stack).
Proof.
  intros [Hs Hn Hc Hr Hre Ha Hch] Hns. assert (node ∉ result) as Hnr by (by rewrite Hs).
  assert (rtc parent_of root node) as Hroot by (apply Ha; right; by left).
  split.
  - intros x. rewrite elem_of_app, list_elem_of_singleton, elem_of_union, elem_of_singleton, Hs. tauto.
  - apply NoDup_app. split_and!; [done| |apply NoDup_singleton]. intros x Hx ->%list_elem_of_singleton. done.
  - intros x p. rewrite !elem_of_app, list_elem_of_singleton. intros [Hx| ->] Hp; [|right; by left].
    destruct (Hc x p Hx Hp) as [|[->|]%elem_of_cons]; [by left; left|left; right; by apply list_elem_of_singleton|by right; right].
  - rewrite <- app_assoc. simpl. by destruct result.
  - intros x [Hx|Hx]%elem_of_app.
    + right. exists node. split; [apply elem_of_app; right; by left|done].
    + destruct (Hre x) as [|(y & Hy & Hp)]; [by right|by left|]. right. exists y. split; [apply elem_of_app; by left|done].
  - intros x. rewrite !elem_of_app, list_elem_of_singleton. intros [[Hx| ->]|[Hx|Hx]]; [apply Ha; by left|done| |apply Ha; right; by right].
    eapply rtc_r; [exact Hroot|exact Hx].
  - intros i x [Hi|[Hle Hi]]%lookup_app_Some.
    + rewrite take_app_le by (apply lookup_lt_Some in Hi; lia). by apply Hch.
    + apply list_lookup_singleton_Some in Hi as [Hi ->]. rewrite take_app_ge by lia.
      destruct (Hre x) as [|(y & Hy & Hp)]; [by left|by left|]. right. exists y. split; [apply elem_of_app; by left|done].
Qed.

Lemma declared_loop_spec root order parents limit : WalkDone declared_parents root order parents ->
  forall fuel w result seen stack, DeclaredInv root result seen stack -> meter_ok limit w -> meter_fuel w <= fuel ->
  match declared_loop fuel parents w result seen stack with
  | Ok l => (exists seen', DeclaredInv root l seen' []) /\ walk result stack l
  | Err e => e = WorkBudgetExhausted limit limit
  | _ => False
  end.
Proof.
  intros HW. unfold meter_fuel. induction fuel as [|fuel IH]; intros w result seen stack HI Hw Hf; [lia|]. simpl.
  destruct stack as [|node stack]; [split; [by exists seen|constructor]|].
  pose proof (meter_charge_spec (K := K) limit w Hw) as Hc. unfold meter_charge in *. case_decide as Hd; simpl in *; [done|].
  destruct Hw as [Hl Hu]. case_decide as Hs.
  - assert (DeclaredInv root result seen stack) as HI'.
    { destruct HI as [Hse Hn Hcl Hr Hre Ha Hch]. apply Hse in Hs. split; try done.
      + intros x p Hx Hp. destruct (Hcl x p Hx Hp) as [|[->|]%elem_of_cons]; auto.
      + destruct result; [by apply not_elem_of_nil in Hs|done].
      + intros x Hx. apply Hre. by right.
      + intros x [Hx|Hx]; apply Ha; [by left|right; by right]. }
    specialize (IH {| m_limit := m_limit w; m_used := m_used w + 1 |} result seen stack HI' ltac:(split; simpl; lia) ltac:(simpl; lia)).
    destruct (declared_loop _ _ _ _ _ _) as [l|e| |]; [|done..]. destruct IH as [H1 H2]. split; [done|]. apply walk_seen; [by apply (di_seen _ _ _ _ HI)|done].
  - rewrite (wd_parents _ _ _ _ HW) by (apply (wd_all _ _ _ _ HW), (di_all _ _ _ _ HI); right; by left). simpl.
    pose proof (declared_visit _ _ _ _ _ HI Hs) as HI'.
    specialize (IH {| m_limit := m_limit w; m_used := m_used w + 1 |} _ _ _ HI' ltac:(split; simpl; lia) ltac:(simpl; lia)).
    destruct (declared_loop _ _ _ _ _ _) as [l|e| |]; [|done..]. destruct IH as [H1 H2]. split; [done|].
    apply walk_new; [by rewrite (di_seen _ _ _ _ HI)|done].
Qed.

#[local] Opaque meter_fuel.

(** The facts of the declared-order policy. *)
Lemma declared_linearize_facts root budget :
  match declared_linearize declared_parents root budget with
  | Ok l => head l = Some root /\ NoDup l /\ (forall y, y ∈ l <-> rtc parent_of root y) /\
      (forall i y, l !! i = Some y -> y = root \/ exists x, x ∈ take i l /\ parent_of x y) /\ walk [] [root] l
  | Err e => walk_refusal declared_parents root (b_nodes budget) (b_work budget) e
  | _ => False
  end.
Proof.
  unfold declared_linearize.
  pose proof (postorder_spec declared_parents root budget {| m_limit := b_work budget; m_used := 0 |} ltac:(simpl; lia)) as Hp.
  destruct (postorder _ _ _ _) as [[[order parents] w]|e| |]; simpl in *; [|done..].
  destruct Hp as (HW & Hl & Hu).
  assert (DeclaredInv root [] ∅ [root]) as HI0.
  { split; simpl; try done; try (by constructor); try (by intros ? ? []%not_elem_of_nil).
    - intros x. split; [by intros []%not_elem_of_nil|by intros []%not_elem_of_empty].
    - intros x ->%list_elem_of_singleton. by left.
    - intros x [[]%not_elem_of_nil| ->%list_elem_of_singleton]. done. }
  pose proof (declared_loop_spec root order parents (b_work budget) HW (meter_fuel w) w [] ∅ [root] HI0 ltac:(split; lia) (le_n _)) as Hd.
  destruct (declared_loop _ _ _ _ _ _) as [l|e| |]; [|subst e; by split|done..].
  destruct Hd as ((seen & [Hse Hn Hcl Hr _ Ha Hch]) & Hwalk). rewrite app_nil_r in Hr. split_and!; [done|done| |done|done].
  intros y. split; [intros Hy; apply Ha; by left|]. intros Hy.
  assert (root ∈ l) as Hroot by (destruct l; [done|injection Hr as ->; by left]). revert Hroot. clear - Hcl Hy.
  induction Hy as [x|x p y Hp _ IH]; intros Hx; [done|]. apply IH.
  destruct (Hcl x p Hx Hp) as [|[]%not_elem_of_nil]. done.
Qed.

(** The declared-order policy returns the class followed by each of its
    ancestors exactly once, at its first visit of a depth-first walk that takes
    parents in declared order, so after some class that declares it as a parent,
    or a true refusal; it never fails on a precedence conflict. *)
Theorem declared_linearize_spec root budget :
  match declared_linearize declared_parents root budget with
  | Ok l => head l = Some root /\ NoDup l /\ (forall y, y ∈ l <-> rtc parent_of root y) /\
      (forall i y, l !! i = Some y -> y = root \/ exists x, x ∈ take i l /\ parent_of x y) /\ walk [] [root] l
  | Err e => walk_refusal declared_parents root (b_nodes budget) (b_work budget) e
  | _ => False
  end.
Proof. apply declared_linearize_facts. Qed.
End Policies.
