(* ===== verification/ClassCache.v ===== *)
(** * The class cache

    crates/sim-lib-class/src/cache.rs: classes with declared parents and members
    in a managed arena, and derived views (linearization and members) held by
    ephemerons of a manager object and validated by revision stamps.  It
    composes the arena, the collector and the lineage policies.  This file holds
    the definitions; ClassCacheProof shows that an access returns the view that
    computing it anew would give. *)

From S2P Require Import Prelude BTree ManagedNode ManagedArena ControlJobs GcCollector ClassLineage.

Record CacheRevisions := {
  v_parents : N;
  v_members : N;
}.

#[export] Instance CacheRevisions_eq_dec : EqDecision CacheRevisions.
Proof. solve_decision. Defined.

Record DerivedClassView (M : Type) := {
  dv_linearization : list ManagedId;
  dv_members : list M;
}.
Arguments dv_linearization {M}.
Arguments dv_members {M}.

Inductive CacheAccessKind := Hit | Recomputed.

Record CacheAccess (M : Type) := {
  ca_kind : CacheAccessKind;
  ca_view : DerivedClassView M;
}.
Arguments ca_kind {M}.
Arguments ca_view {M}.

Record CachedRef := {
  cr_edge : EdgeId;
  cr_value : ManagedId;
}.

Record ClassData (M : Type) := {
  k_parents : list ManagedId;
  k_members : list M;
  k_revisions : CacheRevisions;
  k_cached : option CachedRef;
}.
Arguments k_parents {M}.
Arguments k_members {M}.
Arguments k_revisions {M}.
Arguments k_cached {M}.

(** [Object]: the manager, a class, or a derived view with its stamps. *)
Inductive ClassObject (M : Type) :=
| OManager (edges : ManagedNode unit)
| OClass (edges : ManagedNode unit) (data : ClassData M)
| ODerived (edges : ManagedNode unit) (stamps : list (ManagedId * CacheRevisions)) (view : DerivedClassView M).
Arguments OManager {M}.
Arguments OClass {M}.
Arguments ODerived {M}.

(** [Object::edges] and a write through [Object::edges_mut]. *)
Definition object_edges {M} (o : ClassObject M) : ManagedNode unit :=
  match o with OManager e | OClass e _ | ODerived e _ _ => e end.

Definition with_edges {M} (o : ClassObject M) (e : ManagedNode unit) : ClassObject M :=
  match o with OManager _ => OManager e | OClass _ d => OClass e d | ODerived _ s v => ODerived e s v end.

#[export] Instance class_object {M} : ManagedObject (ClassObject M) := {|
  trace_edges := fun o => trace_edges (object_edges o);
  clear_weak_edge := fun o edge expected =>
    let '(b, e) := clear_weak_edge (object_edges o) edge expected in (b, with_edges o e);
  clear_ephemeron_edge := fun o edge key value =>
    let '(b, e) := clear_ephemeron_edge (object_edges o) edge key value in (b, with_edges o e);
|}.

Inductive CacheError :=
| CacheArena (e : ArenaError)
| CacheStrong (e : EdgeMutationError)
| CacheEphemeron (e : EphemeronMutationError)
| CacheLineage (e : LineageError ManagedId)
| CacheCollection (e : CollectionError)
| WrongObject (id : ManagedId)
| RevisionExhausted (id : ManagedId).

(** [EdgeLimits::DEFAULT] and [ManagedNode::new]. *)
Definition default_limits : EdgeLimits :=
  {| lim_total := N.to_nat 65536; lim_strong := N.to_nat 65536; lim_weak := N.to_nat 65536; lim_ephemeron := N.to_nat 65536 |}.

Definition new_node : ManagedNode unit := with_edge_limits () default_limits.

(** [SnapshotGraph]. *)
Record SnapshotGraph (M : Type) := {
  s_parents : BTreeMap N (list ManagedId);
  s_members : BTreeMap N (list M);
  s_revisions : BTreeMap N CacheRevisions;
}.
Arguments s_parents {M}.
Arguments s_members {M}.
Arguments s_revisions {M}.

Definition graph_parents {M} (g : SnapshotGraph M) (id : ManagedId) : list ManagedId := default [] (s_parents g !! id).

Record ClassCache (M : Type) := {
  cc_arena : ManagedArena (ClassObject M);
  cc_manager : RootedHandle;
}.
Arguments cc_arena {M}.
Arguments cc_manager {M}.

(** ** Operations

    An operation that fails half way keeps what it did: operations pass the
    cache through and return it with the result. *)

Definition Op (M A : Type) : Type := ClassCache M -> Res CacheError A * ClassCache M.

Definition op_ret {M A} (a : A) : Op M A := fun c => (Ok a, c).

Definition op_fail {M A} (e : CacheError) : Op M A := fun c => (Err e, c).

Definition op_bind {M A B} (m : Op M A) (f : A -> Op M B) : Op M B := fun c =>
  match m c with
  | (Ok a, c) => f a c
  | (Err e, c) => (Err e, c)
  | (Panic, c) => (Panic, c)
  | (NoFuel, c) => (NoFuel, c)
  end.

Declare Scope op_scope.
Delimit Scope op_scope with op.
Notation "'let!' x := m 'in' k" := (op_bind m (fun x => k))
  (at level 200, x pattern, m at level 100, k at level 200) : op_scope.
Open Scope op_scope.

(** A result that does not change the cache. *)
Definition op_lift {M A} (r : Res CacheError A) : Op M A := fun c => (r, c).

(** An arena operation, whose errors become cache errors. *)
Definition op_arena {M A} (f : ManagedArena (ClassObject M) -> Res ArenaError (A * ManagedArena (ClassObject M))) : Op M A :=
  fun c =>
    match f (cc_arena c) with
    | Ok (a, arena) => (Ok a, {| cc_arena := arena; cc_manager := cc_manager c |})
    | Err e => (Err (CacheArena e), c)
    | Panic => (Panic, c)
    | NoFuel => (NoFuel, c)
    end.

Definition op_cache {M} : Op M (ClassCache M) := fun c => (Ok c, c).

(** [get_mut]: the epoch advances when the object is borrowed; [op_write] is
    the write through the borrow. *)
Definition arena_get_mut {T} (id : ManagedId) (a : ManagedArena T) : Res ArenaError (T * ManagedArena T) :=
  match a_objects a !! id with
  | None => Err (StaleHandle id)
  | Some _ =>
    let? a := advance_mutation_epoch a in
    let? o := expect (a_objects a !! id) in
    Ok (o, a)
  end.

Definition op_write {M} (id : ManagedId) (o : ClassObject M) : Op M unit := fun c =>
  (Ok tt, {| cc_arena := set_objects (cc_arena c) (a_next_id (cc_arena c)) (<[id := o]> (a_objects (cc_arena c)));
             cc_manager := cc_manager c |}).

Section Cache.
Context {M : Type}.

Definition new_cache (max_objects : nat) : Res CacheError (ClassCache M) :=
  let? cap := map_err CacheArena (new_policy max_objects) in
  let? (manager, arena) := map_err CacheArena (arena_allocate (new_arena cap) (OManager new_node)) in
  let? (rooted, arena) := map_err CacheArena (arena_root arena manager) in
  Ok {| cc_arena := arena; cc_manager := rooted |}.

Fixpoint insert_parents (n : ManagedNode unit) (parents : list ManagedId) : Res EdgeMutationError (ManagedNode unit) :=
  match parents with
  | [] => Ok n
  | p :: rest => let? (_, n) := insert_strong n p in insert_parents n rest
  end.

Definition allocate_class (parents : list RootedHandle) (members : list M) : Op M RootedHandle :=
  let parent_handles := rh_handle <$> parents in
  let! edges := op_lift (map_err CacheStrong (insert_parents new_node parent_handles)) in
  let! handle := op_arena (fun a => arena_allocate a (OClass edges
    {| k_parents := parent_handles; k_members := members; k_revisions := {| v_parents := 0; v_members := 0 |}; k_cached := None |})) in
  op_arena (fun a => arena_root a handle).

Definition get_object (id : ManagedId) : Op M (ClassObject M) :=
  let! c := op_cache in op_lift (map_err CacheArena (arena_get (cc_arena c) id)).

(** [cached]. *)
Definition cached_ref (class : ManagedId) : Op M (option CachedRef) :=
  let! o := get_object class in
  match o with OClass _ d => op_ret (k_cached d) | _ => op_fail (WrongObject class) end.

Definition set_cached (d : ClassData M) (r : option CachedRef) : ClassData M :=
  {| k_parents := k_parents d; k_members := k_members d; k_revisions := k_revisions d; k_cached := r |}.

Definition discard_cached (class : ManagedId) : Op M unit :=
  let! cached := cached_ref class in
  match cached with
  | None => op_ret tt
  | Some cached =>
    let! c := op_cache in
    let manager := rh_handle (cc_manager c) in
    let! m := op_arena (arena_get_mut manager) in
    let! _ := match m with
      | OManager edges =>
        let! r := op_lift (map_err CacheEphemeron (remove_ephemeron edges (cr_edge cached) (class, cr_value cached))) in
        op_write manager (OManager r.2)
      | _ => op_fail (WrongObject manager)
      end in
    let! _ := op_arena (fun a => arena_remove a (cr_value cached)) in
    let! o := op_arena (arena_get_mut class) in
    match o with
    | OClass edges d => op_write class (OClass edges (set_cached d None))
    | _ => op_fail (WrongObject class)
    end
  end.

(** The loop of [replace_parents]: edges and stored parents grow together, and
    stay grown when an insertion fails. *)
Fixpoint store_parents (class : ManagedId) (edges : ManagedNode unit) (d : ClassData M) (parents : list ManagedId)
  : Op M (ManagedNode unit * ClassData M) :=
  match parents with
  | [] => op_ret (edges, d)
  | p :: rest =>
    match insert_strong edges p with
    | Ok (_, edges) =>
      let d := {| k_parents := k_parents d ++ [p]; k_members := k_members d;
                  k_revisions := k_revisions d; k_cached := k_cached d |} in
      let! _ := op_write class (OClass edges d) in
      store_parents class edges d rest
    | Err e => op_fail (CacheStrong e)
    | Panic => op_lift Panic
    | NoFuel => op_lift NoFuel
    end
  end.

Definition replace_parents (class : RootedHandle) (parents : list RootedHandle) : Op M unit :=
  let id := rh_handle class in
  let! _ := discard_cached id in
  let! o := op_arena (arena_get_mut id) in
  match o with
  | OClass _ d =>
    let d := {| k_parents := []; k_members := k_members d; k_revisions := k_revisions d; k_cached := k_cached d |} in
    let! _ := op_write id (OClass new_node d) in
    let! r := store_parents id new_node d (rh_handle <$> parents) in
    let '(edges, d) := r in
    let! next := op_lift (ok_or (RevisionExhausted id) (checked_add (v_parents (k_revisions d)) 1)) in
    op_write id (OClass edges
      {| k_parents := k_parents d; k_members := k_members d;
         k_revisions := {| v_parents := next; v_members := v_members (k_revisions d) |}; k_cached := k_cached d |})
  | _ => op_fail (WrongObject id)
  end.

Definition replace_members (class : RootedHandle) (members : list M) : Op M unit :=
  let id := rh_handle class in
  let! _ := discard_cached id in
  let! o := op_arena (arena_get_mut id) in
  match o with
  | OClass edges d =>
    let d := {| k_parents := k_parents d; k_members := members; k_revisions := k_revisions d; k_cached := k_cached d |} in
    let! _ := op_write id (OClass edges d) in
    let! next := op_lift (ok_or (RevisionExhausted id) (checked_add (v_members (k_revisions d)) 1)) in
    op_write id (OClass edges
      {| k_parents := k_parents d; k_members := k_members d;
         k_revisions := {| v_parents := v_parents (k_revisions d); v_members := next |}; k_cached := k_cached d |})
  | _ => op_fail (WrongObject id)
  end.

(** The loop of [snapshot_graph] over the identities of the safepoint. *)
Fixpoint graph_of (a : ManagedArena (ClassObject M)) (ids : list ManagedId) (g : SnapshotGraph M)
  : Res ArenaError (SnapshotGraph M) :=
  match ids with
  | [] => Ok g
  | id :: rest =>
    let? handle := arena_handle a id in
    let? o := arena_get a handle in
    graph_of a rest
      match o with
      | OClass _ d =>
        {| s_parents := <[id := k_parents d]> (s_parents g);
           s_members := <[id := k_members d]> (s_members g);
           s_revisions := <[id := k_revisions d]> (s_revisions g) |}
      | _ => g
      end
  end.

Definition empty_graph : SnapshotGraph M := {| s_parents := ∅; s_members := ∅; s_revisions := ∅ |}.

Definition snapshot_graph : Op M (SnapshotGraph M) :=
  let! ids := op_arena (fun a =>
    let? (ids, _, a) := safepoint a (fun s => map_keys (ts_objects s)) in Ok (ids, a)) in
  let! c := op_cache in
  op_lift (map_err CacheArena (graph_of (cc_arena c) ids empty_graph)).

(** [graph.revisions[id]] and [graph.members[id]] along the linearization. *)
Fixpoint stamps_of (g : SnapshotGraph M) (l : list ManagedId) : Res CacheError (list (ManagedId * CacheRevisions)) :=
  match l with
  | [] => Ok []
  | id :: rest =>
    let? r := expect (s_revisions g !! id) in
    let? rs := stamps_of g rest in
    Ok ((id, r) :: rs)
  end.

Fixpoint members_of (g : SnapshotGraph M) (l : list ManagedId) : Res CacheError (list M) :=
  match l with
  | [] => Ok []
  | id :: rest =>
    let? ms := expect (s_members g !! id) in
    let? rest := members_of g rest in
    Ok (ms ++ rest)
  end.

(** [stamps.iter().all(..)]. *)
Definition stamps_match (g : SnapshotGraph M) (stamps : list (ManagedId * CacheRevisions)) : bool :=
  forallb (fun '(id, expected) => bool_decide (s_revisions g !! id = Some expected)) stamps.

(** [LineagePolicy::linearize]. *)
Definition Policy : Type := (ManagedId -> list ManagedId) -> ManagedId -> LineageBudget -> Res (LineageError ManagedId) (list ManagedId).

(** The part of [derived] that computes and installs a view. *)
Definition recompute (policy : Policy) (class : ManagedId) (budget : LineageBudget) (g : SnapshotGraph M) : Op M (CacheAccess M) :=
  let! _ := discard_cached class in
  let! linearization := op_lift (map_err CacheLineage (policy (graph_parents g) class budget)) in
  let! stamps := op_lift (stamps_of g linearization) in
  let! members := op_lift (members_of g linearization) in
  let view := {| dv_linearization := linearization; dv_members := members |} in
  let! value := op_arena (fun a => arena_allocate a (ODerived new_node stamps view)) in
  let! c := op_cache in
  let manager := rh_handle (cc_manager c) in
  let! m := op_arena (arena_get_mut manager) in
  let! edge := match m with
    | OManager edges =>
      let! r := op_lift (map_err CacheEphemeron (insert_ephemeron edges class value)) in
      let! _ := op_write manager (OManager r.2) in
      op_ret r.1
    | _ => op_fail (WrongObject manager)
    end in
  let! o := op_arena (arena_get_mut class) in
  match o with
  | OClass edges d =>
    let! _ := op_write class (OClass edges (set_cached d (Some {| cr_edge := edge; cr_value := value |}))) in
    op_ret {| ca_kind := Recomputed; ca_view := view |}
  | _ => op_fail (WrongObject class)
  end.

Definition derived (policy : Policy) (class : RootedHandle) (budget : LineageBudget) : Op M (CacheAccess M) :=
  let id := rh_handle class in
  let! g := snapshot_graph in
  let! cached := cached_ref id in
  match cached with
  | None => recompute policy id budget g
  | Some cached =>
    let! o := get_object (cr_value cached) in
    match o with
    | ODerived _ stamps view =>
      if stamps_match g stamps then op_ret {| ca_kind := Hit; ca_view := view |}
      else recompute policy id budget g
    | _ => op_fail (WrongObject (cr_value cached))
    end
  end.

Definition release_class (class : RootedHandle) : Op M unit :=
  let! _ := op_arena (fun a => arena_release_root a class) in op_ret tt.

Definition cache_collect (limits : CollectionLimits) : Op M CollectionReceipt := fun c =>
  let '(r, a) := collect limits (cc_arena c) in
  (map_err CacheCollection r, {| cc_arena := a; cc_manager := cc_manager c |}).

Definition managed_len (c : ClassCache M) : nat := size (a_objects (cc_arena c)).
End Cache.
