(* ===== verification/ClassCacheProof.v ===== *)
(** * Cached class views are current

    Over any history of a class cache in which no redeclaration stops with the
    class changed under its old revision, an access to a derived view returns the
    linearization and members that the current declarations of the classes give,
    whether it is a hit or recomputed.  The proof is against an interface of
    lineage policies, which both policies of lineage.rs implement. *)

From stdpp Require Import relations.
From S2P Require Import Prelude BTree ManagedNode ManagedArena ControlJobs GcCollector ClassLineage LineageWalk LineagePolicies ClassCache.

(** What the cache needs of a policy: a meaning that determines the result and
    depends only on the parents declared by the classes of the result. *)
Class PolicySpec (policy : Policy) := {
  policy_rel : (ManagedId -> list ManagedId) -> ManagedId -> list ManagedId -> Prop;
  policy_ok : forall gp x b l, policy gp x b = Ok l -> policy_rel gp x l;
  policy_local : forall gp gp' x l, policy_rel gp x l -> (forall y, y ∈ l -> gp y = gp' y) -> policy_rel gp' x l;
  policy_fun : forall gp x l l', policy_rel gp x l -> policy_rel gp x l' -> l = l';
}.

(** ** The policies implement the interface *)

Section Locality.
Context `{OrdKey K}.
Implicit Types gp : K -> list K.

Lemma rtc_local gp gp' (l : list K) x y : (forall z, z ∈ l -> gp z = gp' z) ->
  (forall z p, z ∈ l -> LineageWalk.parent_of gp z p -> p ∈ l) -> x ∈ l ->
  rtc (LineageWalk.parent_of gp) x y -> rtc (LineageWalk.parent_of gp') x y.
Proof.
  intros Heq Hcl Hx Hr. revert Hx. induction Hr as [x|x p y Hp _ IH]; intros Hx; [done|].
  eapply rtc_l; [|apply IH; by eapply Hcl]. unfold LineageWalk.parent_of in *. by rewrite <- Heq.
Qed.

Lemma c3_local gp gp' : forall x l, c3 gp x l -> (forall y, y ∈ l -> gp y = gp' y) -> c3 gp' x l.
Proof.
  fix IH 3. intros x l [x' ls m Hls Hm] Heq.
  assert (forall s, s ∈ ls -> forall y, y ∈ s -> y ∈ x' :: m) as Hsub.
  { intros s Hs y Hy. right. destruct (c3_merge_spec _ _ Hm) as (Hin & _). apply Hin. exists s.
    split; [apply elem_of_app; by left|done]. }
  assert (gp x' = gp' x') as Hx by (apply Heq; by left). rewrite Hx in Hm.
  apply (c3_intro gp' x' ls m); [|done]. rewrite <- Hx.
  clear Hm Hx. induction Hls as [|p s ps ls Hp _ IHs]; constructor.
  - apply (IH p s Hp). intros y Hy. apply Heq. eapply Hsub; [by left|done].
  - apply IHs. intros t Ht. apply Hsub. by right.
Qed.

Lemma Linearization_local gp gp' x l :
  Linearization gp x l -> (forall y, y ∈ l -> gp y = gp' y) -> Linearization gp' x l.
Proof.
  intros [Hc Hn Ha Hl Hm] Heq.
  assert (x ∈ l) as Hx by (by apply Ha).
  assert (forall z p, z ∈ l -> LineageWalk.parent_of gp z p -> p ∈ l) as Hcl.
  { intros z p Hz Hp. eapply sublist_elem; [by apply (Hl z)|done]. }
  split.
  - by apply (c3_local gp).
  - done.
  - intros y. split; [intros Hy%Ha; by eapply rtc_local|].
    intros Hr. apply Ha. eapply (rtc_local gp' gp l); [|..|done|done]; [intros; by rewrite Heq|].
    intros z p Hz Hp. eapply Hcl; [done|]. unfold LineageWalk.parent_of in *. by rewrite Heq.
  - intros y Hy. rewrite <- Heq by done. by apply Hl.
  - intros y Hy. destruct (Hm y Hy) as (ly & Hly & Hsub). exists ly. split; [|done].
    apply (c3_local gp); [done|]. intros z Hz. apply Heq. by eapply sublist_elem.
Qed.
End Locality.

#[export] Instance c3_policy : PolicySpec c3_linearize.
Proof.
  refine {| policy_rel := Linearization |}.
  - intros gp x b l Hl. pose proof (c3_linearize_facts gp x b) as Hs. rewrite Hl in Hs. by destruct Hs as (_ & ? & _).
  - intros gp gp' x l. apply Linearization_local.
  - intros gp x l l' Hl Hl'. eapply c3_fun; [apply Hl|apply Hl'].
Defined.

(** The meaning of the declared-order policy. *)
Definition DeclaredOrder (gp : ManagedId -> list ManagedId) (x : ManagedId) (l : list ManagedId) : Prop :=
  head l = Some x /\ NoDup l /\ (forall y, y ∈ l <-> rtc (LineageWalk.parent_of gp) x y) /\
  (forall i y, l !! i = Some y -> y = x \/ exists z, z ∈ take i l /\ LineageWalk.parent_of gp z y) /\ walk gp [] [x] l.

Lemma walk_local (gp gp' : ManagedId -> list ManagedId) result stack l : walk gp result stack l -> (forall y, y ∈ l -> gp y = gp' y) -> walk gp' result stack l.
Proof.
  induction 1 as [|result x stack l Hx _ IH|result x stack l Hx Hw IH]; intros Heq; [constructor|apply walk_seen; auto|].
  apply walk_new; [done|]. rewrite <- Heq; [auto|]. apply walk_prefix in Hw as [k ->]. set_solver.
Qed.

Lemma DeclaredOrder_local gp gp' x l :
  DeclaredOrder gp x l -> (forall y, y ∈ l -> gp y = gp' y) -> DeclaredOrder gp' x l.
Proof.
  intros (Hh & Hn & Ha & Hc & Hw) Heq. assert (x ∈ l) as Hx by (by apply Ha).
  assert (forall z p, z ∈ l -> LineageWalk.parent_of gp z p -> p ∈ l) as Hcl.
  { intros z p Hz%Ha Hp. apply Ha. by eapply rtc_r. }
  split_and!; [done|done| | |by eapply walk_local].
  - intros y. split; [intros Hy%Ha; by eapply rtc_local|].
    intros Hr. apply Ha. eapply (rtc_local gp' gp l); [|..|done|done]; [intros; by rewrite Heq|].
    intros z p Hz Hp. eapply Hcl; [done|]. unfold LineageWalk.parent_of in *. by rewrite Heq.
  - intros i y Hy. destruct (Hc i y Hy) as [|(z & Hz & Hp)]; [by left|]. right. exists z. split; [done|].
    unfold LineageWalk.parent_of in *. rewrite <- Heq; [done|]. by eapply subseteq_take.
Qed.

#[export] Instance declared_policy : PolicySpec declared_linearize.
Proof.
  refine {| policy_rel := DeclaredOrder |}.
  - intros gp x b l Hl. pose proof (declared_linearize_facts gp x b) as Hs. by rewrite Hl in Hs.
  - apply DeclaredOrder_local.
  - intros gp x l l' (_ & _ & _ & _ & Hl) (_ & _ & _ & _ & Hl'). by eapply walk_fun.
Defined.

(** ** How caches evolve *)

Section Evolve.
Context {M : Type}.
Implicit Types c : ClassCache M.

Abbreviation objects c := (a_objects (cc_arena c)).
Abbreviation next c := (a_next_id (cc_arena c)).

(** A class changes its declarations only with their revisions. *)
Definition data_step (d d' : ClassData M) : Prop :=
  (v_parents (k_revisions d) <= v_parents (k_revisions d'))%N /\
  (v_members (k_revisions d) <= v_members (k_revisions d'))%N /\
  (v_parents (k_revisions d') = v_parents (k_revisions d) -> k_parents d' = k_parents d) /\
  (v_members (k_revisions d') = v_members (k_revisions d) -> k_members d' = k_members d) /\
  (k_cached d' = k_cached d \/ k_cached d' = None).

(** A class keeps its declarations. *)
Definition data_quiet (d d' : ClassData M) : Prop :=
  k_parents d' = k_parents d /\ k_members d' = k_members d /\ k_revisions d' = k_revisions d /\
  (k_cached d' = k_cached d \/ k_cached d' = None).

Definition obj_step (R : ClassData M -> ClassData M -> Prop) (o o' : ClassObject M) : Prop :=
  match o, o' with
  | OManager _, OManager _ => True
  | OClass _ d, OClass _ d' => R d d'
  | ODerived _ s v, ODerived _ s' v' => s' = s /\ v' = v
  | _, _ => False
  end.

Record evolve (R : ClassData M -> ClassData M -> Prop) c c' : Prop := {
  ev_next : (next c <= next c')%N;
  ev_old : forall id o', (id < next c)%N -> objects c' !! id = Some o' ->
    exists o, objects c !! id = Some o /\ obj_step R o o';
  ev_new : forall id o', (next c <= id)%N -> objects c' !! id = Some o' ->
    (id < next c')%N /\ match o' with OClass _ d => k_cached d = None | _ => True end;
}.

Lemma data_step_trans d1 d2 d3 : data_step d1 d2 -> data_step d2 d3 -> data_step d1 d3.
Proof.
  intros (Hp1 & Hm1 & Hpe1 & Hme1 & Hc1) (Hp2 & Hm2 & Hpe2 & Hme2 & Hc2). split_and!; [lia|lia| | |].
  - intros He. rewrite Hpe2, Hpe1 by lia. done.
  - intros He. rewrite Hme2, Hme1 by lia. done.
  - destruct Hc2 as [->| ->]; auto.
Qed.

Lemma data_quiet_trans d1 d2 d3 : data_quiet d1 d2 -> data_quiet d2 d3 -> data_quiet d1 d3.
Proof.
  intros (Hp1 & Hm1 & Hr1 & Hc1) (Hp2 & Hm2 & Hr2 & Hc2). split_and!; [congruence..|].
  destruct Hc2 as [->| ->]; auto.
Qed.

Lemma data_quiet_step d d' : data_quiet d d' -> data_step d d'.
Proof. intros (Hp & Hm & Hr & Hc). unfold data_step. rewrite Hr. split_and!; try done; lia. Qed.

(** The two relations classes change by. *)
Class DataRel (R : ClassData M -> ClassData M -> Prop) : Prop := {
  dr_trans : forall d1 d2 d3, R d1 d2 -> R d2 d3 -> R d1 d3;
  dr_quiet : forall d d', data_quiet d d' -> R d d';
  dr_cached : forall d d', R d d' -> k_cached d' = k_cached d \/ k_cached d' = None;
}.

#[global] Instance data_step_rel : DataRel data_step.
Proof. split; [exact data_step_trans|exact data_quiet_step|]. by intros d d' (_ & _ & _ & _ & ?). Qed.

#[global] Instance data_quiet_rel : DataRel data_quiet.
Proof. split; [exact data_quiet_trans|done|]. by intros d d' (_ & _ & _ & ?). Qed.

Lemma data_quiet_refl d : data_quiet d d.
Proof. split_and!; auto. Qed.

Section Rel.
Context (R : ClassData M -> ClassData M -> Prop) `{DataRel R}.

Lemma obj_step_refl o : obj_step R o o.
Proof using All. destruct o; simpl; [done| |done]. apply (dr_quiet (R := R)), data_quiet_refl. Qed.

Lemma obj_step_trans o1 o2 o3 : obj_step R o1 o2 -> obj_step R o2 o3 -> obj_step R o1 o3.
Proof using All.
  destruct o1, o2, o3; simpl; try done; [apply (dr_trans (R := R))|]. intros [-> ->] [-> ->]. done.
Qed.

Lemma evolve_trans c1 c2 c3 : evolve R c1 c2 -> evolve R c2 c3 -> evolve R c1 c3.
Proof using All.
  intros [Hn1 Ho1 Hf1] [Hn2 Ho2 Hf2]. split; [lia| |].
  - intros id o3 Hid H3. destruct (Ho2 id o3) as (o2 & H2 & S2); [lia|done|].
    destruct (Ho1 id o2 Hid H2) as (o1 & H1 & S1). exists o1. split; [done|by eapply obj_step_trans].
  - intros id o3 Hid H3. destruct (decide (id < next c2)%N) as [Hlt|Hge].
    + destruct (Ho2 id o3 Hlt H3) as (o2 & H2 & S2). destruct (Hf1 id o2 Hid H2) as [_ Hk]. split; [lia|].
      destruct o3 as [| |]; try done. destruct o2; try done. simpl in S2.
      destruct (dr_cached (R := R) _ _ S2) as [->| ->]; done.
    + apply Hf2; [lia|done].
Qed.

(** Objects in place: nothing is added and the objects step. *)
Lemma evolve_in_place c c' : next c' = next c -> (forall id, is_Some (objects c !! id) -> (id < next c)%N) ->
  (forall id o', objects c' !! id = Some o' -> exists o, objects c !! id = Some o /\ obj_step R o o') -> evolve R c c'.
Proof.
  intros Hn Hids Ho. split; [lia|by auto|]. intros id o' Hid Ho'. destruct (Ho id o' Ho') as (o & Hso & _).
  assert (id < next c)%N by eauto. lia.
Qed.

Lemma evolve_same c c' : next c' = next c -> objects c' = objects c ->
  (forall id, is_Some (objects c !! id) -> (id < next c)%N) -> evolve R c c'.
Proof using All.
  intros Hn Ho Hids. apply evolve_in_place; [done|done|]. intros id o'. rewrite Ho. intros Hs.
  exists o'. split; [done|apply obj_step_refl].
Qed.

Lemma evolve_write c id o o' : (forall id, is_Some (objects c !! id) -> (id < next c)%N) ->
  objects c !! id = Some o -> obj_step R o o' -> evolve R c (op_write id o' c).2.
Proof using All.
  intros Hids Ho Hs. apply evolve_in_place; [done|done|]. intros k o''. simpl.
  intros [[<- <-]|[_ Hk]]%lookup_insert_Some; [eauto|]. exists o''. split; [done|apply obj_step_refl].
Qed.
End Rel.

Lemma evolve_weaken c c' : evolve data_quiet c c' -> evolve data_step c c'.
Proof.
  intros [Hn Ho Hf]. split; [done| |done]. intros id o' Hid Ho'. destruct (Ho id o' Hid Ho') as (o & Hso & Hs).
  exists o. split; [done|]. destruct o, o'; simpl in *; try done. by apply data_quiet_step.
Qed.

Definition ids_bounded c : Prop := forall id, is_Some (objects c !! id) -> (id < next c)%N.

Lemma evolve_ids R c c' : ids_bounded c -> evolve R c c' -> ids_bounded c'.
Proof.
  intros Hids [Hn Ho Hf] id [o' Ho']. destruct (decide (id < next c)%N) as [Hlt|Hge]; [lia|].
  apply (Hf id o'); [lia|done].
Qed.
End Evolve.

(** ** Operations evolve caches *)

Section Ops.
Context {M : Type}.
Implicit Types c : ClassCache M.

Abbreviation objects c := (a_objects (cc_arena c)).
Abbreviation next c := (a_next_id (cc_arena c)).
Abbreviation quiet := (evolve data_quiet).

Lemma quiet_refl c : ids_bounded c -> quiet c c.
Proof. by apply (evolve_same data_quiet). Qed.

Lemma bind_quiet {A B} (m : Op M A) (f : A -> Op M B) c : ids_bounded c -> quiet c (m c).2 ->
  (forall a c1, m c = (Ok a, c1) -> quiet c c1 -> ids_bounded c1 -> quiet c1 (f a c1).2) -> quiet c (op_bind m f c).2.
Proof.
  intros Hi Hm Hf. unfold op_bind. destruct (m c) as [[a|e| |] c1] eqn:E; simpl in *; [|done..].
  assert (ids_bounded c1) by (by eapply evolve_ids). eapply (evolve_trans data_quiet); [exact Hm|]. by apply Hf.
Qed.

Lemma lift_quiet {A} (r : Res CacheError A) c : ids_bounded c -> quiet c (op_lift r c).2.
Proof. apply quiet_refl. Qed.

Lemma cache_quiet c : ids_bounded c -> quiet c (op_cache c).2.
Proof. apply quiet_refl. Qed.

Lemma op_arena_Ok {A} f c (a : A) c' : op_arena f c = (Ok a, c') ->
  exists arena, f (cc_arena c) = Ok (a, arena) /\ c' = {| cc_arena := arena; cc_manager := cc_manager c |}.
Proof. unfold op_arena. destruct (f (cc_arena c)) as [[x arena]|e| |]; naive_solver. Qed.

Lemma op_arena_quiet {A} (f : ManagedArena (ClassObject M) -> Res ArenaError (A * ManagedArena (ClassObject M))) c :
  ids_bounded c ->
  (forall a arena, f (cc_arena c) = Ok (a, arena) -> quiet c {| cc_arena := arena; cc_manager := cc_manager c |}) ->
  quiet c (op_arena f c).2.
Proof.
  intros Hi Hf. unfold op_arena. destruct (f (cc_arena c)) as [[x arena]|e| |]; [by eapply Hf|by apply quiet_refl..].
Qed.

(** Arena operations that leave the objects alone. *)
Lemma op_arena_same {A} (f : ManagedArena (ClassObject M) -> Res ArenaError (A * ManagedArena (ClassObject M))) c :
  ids_bounded c ->
  (forall a arena, f (cc_arena c) = Ok (a, arena) -> a_objects arena = objects c /\ a_next_id arena = next c) ->
  quiet c (op_arena f c).2.
Proof.
  intros Hi Hf. apply op_arena_quiet; [done|]. intros a arena Ha. destruct (Hf a arena Ha) as [Ho Hn].
  apply (evolve_same data_quiet); [exact Hn|exact Ho|done].
Qed.

Lemma get_mut_Ok {T} id (a : ManagedArena T) o a' : arena_get_mut id a = Ok (o, a') ->
  a_objects a !! id = Some o /\ a_objects a' = a_objects a /\ a_next_id a' = a_next_id a.
Proof.
  unfold arena_get_mut. destruct (a_objects a !! id) as [o1|] eqn:Ho; [|done].
  intros (a1 & ->%advance_Ok & (o2 & H2%expect_Ok & [= <- <-])%rbind_Ok)%rbind_Ok. simpl in *. split_and!; congruence.
Qed.

Lemma get_mut_quiet id c : ids_bounded c -> quiet c (op_arena (arena_get_mut id) c).2.
Proof. intros Hi. apply op_arena_same; [done|]. intros o a (_ & ? & ?)%get_mut_Ok. done. Qed.

Lemma root_same (a : ManagedArena (ClassObject M)) id h a' : arena_root a id = Ok (h, a') ->
  a_objects a' = a_objects a /\ a_next_id a' = a_next_id a.
Proof. unfold arena_root. intros (o & _ & (n & _ & (a1 & ->%advance_Ok & [= <- <-])%rbind_Ok)%rbind_Ok)%rbind_Ok. done. Qed.

Lemma release_same (a : ManagedArena (ClassObject M)) h id a' : arena_release_root a h = Ok (id, a') ->
  a_objects a' = a_objects a /\ a_next_id a' = a_next_id a.
Proof.
  unfold arena_release_root. destruct (a_roots a !! rh_root h); [|done]. case_decide; [|done].
  by intros (a1 & ->%advance_Ok & [= <- <-])%rbind_Ok.
Qed.

Lemma allocate_Ok (a : ManagedArena (ClassObject M)) o id a' : arena_allocate a o = Ok (id, a') ->
  id = a_next_id a /\ a_objects a' = <[id := o]> (a_objects a) /\ a_next_id a' = (a_next_id a + 1)%N.
Proof.
  unfold arena_allocate. destruct (_ <=? _); [done|].
  intros (n & [-> _]%ok_or_Ok%checked_add_Some & (a1 & ->%advance_Ok & [= <- <-])%rbind_Ok)%rbind_Ok. done.
Qed.

Lemma allocate_quiet o c : ids_bounded c -> match o with OClass _ d => k_cached d = None | _ => True end ->
  quiet c (op_arena (fun a => arena_allocate a o) c).2.
Proof.
  intros Hi Ho. apply op_arena_quiet; [done|]. intros id arena (-> & Hobj & Hn)%allocate_Ok. split; simpl; rewrite ?Hobj, ?Hn; [lia| |].
  - intros id o' Hid [[<- _]|[_ Hs]]%lookup_insert_Some; [lia|]. exists o'. split; [done|apply (obj_step_refl data_quiet)].
  - intros id o' Hid [[<- <-]|[_ Hs]]%lookup_insert_Some; [split; [lia|done]|].
    assert (id < next c)%N by (apply Hi; eauto). lia.
Qed.

Lemma remove_quiet id c : ids_bounded c -> quiet c (op_arena (fun a => arena_remove a id) c).2.
Proof.
  intros Hi. apply op_arena_quiet; [done|]. intros o arena. unfold arena_remove.
  destruct (is_rooted _ id); [done|]. destruct (a_objects _ !! id); [|done].
  intros (a1 & ->%advance_Ok & (o1 & _ & [= <- <-])%rbind_Ok)%rbind_Ok.
  apply (evolve_in_place data_quiet); [done|done|]. intros k o'. simpl. intros [_ Hk]%lookup_delete_Some. exists o'.
  split; [done|apply (obj_step_refl data_quiet)].
Qed.

Lemma get_object_quiet id c : ids_bounded c -> quiet c (get_object id c).2.
Proof. intros Hi. by apply bind_quiet; [|apply cache_quiet|intros; apply lift_quiet]. Qed.

Lemma get_object_Ok id c o c' : get_object id c = (Ok o, c') -> objects c !! id = Some o /\ c' = c.
Proof.
  unfold get_object, op_bind, op_cache, op_lift. intros [= Ho <-]. by apply map_err_Ok, ok_or_Ok in Ho.
Qed.

Lemma cached_ref_state class c : (cached_ref class c).2 = c.
Proof.
  unfold cached_ref, op_bind. destruct (get_object class c) as [[o|e| |] c1] eqn:E;
    try (unfold get_object, op_bind, op_cache, op_lift in E; injection E as _ <-; done).
  apply get_object_Ok in E as [_ ->]. by destruct o.
Qed.

Lemma cached_ref_Ok class c r c' : cached_ref class c = (Ok r, c') ->
  c' = c /\ exists e d, objects c !! class = Some (OClass e d) /\ k_cached d = r.
Proof.
  unfold cached_ref, op_bind. destruct (get_object class c) as [[o|e| |] c1] eqn:E; [|done..].
  apply get_object_Ok in E as [Ho ->]. destruct o as [e|e d|e st v]; unfold op_ret, op_fail; try done.
  intros [= <- <-]. split; [done|]. by exists e, d.
Qed.

Lemma write_quiet id o o' c : ids_bounded c -> objects c !! id = Some o -> obj_step data_quiet o o' ->
  quiet c (op_write id o' c).2.
Proof. apply (evolve_write data_quiet). Qed.

Lemma discard_quiet class c : ids_bounded c -> quiet c (discard_cached class c).2.
Proof.
  intros Hi. unfold discard_cached. apply bind_quiet; [done|rewrite cached_ref_state; by apply quiet_refl|].
  intros [cached|] c0 _ _ Hi0; [|by apply quiet_refl]. apply bind_quiet; [done|by apply cache_quiet|].
  intros c1 c2 [= <- <-] _ _. apply bind_quiet; [done|by apply get_mut_quiet|].
  intros m c3 (a3 & (Hm & Ho3 & Hn3)%get_mut_Ok & ->)%op_arena_Ok _ Hi3. apply bind_quiet; [done| |].
  - destruct m as [edges| |]; [|by apply lift_quiet..]. apply bind_quiet; [done|by apply lift_quiet|].
    intros r c4 [= Hr <-] _ _. apply (write_quiet _ (OManager edges)); [done|simpl; congruence|done].
  - intros _ c4 _ _ Hi4. apply bind_quiet; [done|by apply remove_quiet|]. intros _ c5 _ _ Hi5.
    apply bind_quiet; [done|by apply get_mut_quiet|].
    intros o c6 (a6 & (Ho & Ho6 & Hn6)%get_mut_Ok & ->)%op_arena_Ok _ Hi6. destruct o as [|edges d|]; [by apply lift_quiet| |by apply lift_quiet].
    apply (write_quiet _ (OClass edges d)); [done|simpl; congruence|]. split_and!; auto.
Qed.

Lemma allocate_class_quiet parents members c : ids_bounded c -> quiet c (allocate_class parents members c).2.
Proof.
  intros Hi. unfold allocate_class. apply bind_quiet; [done|by apply lift_quiet|]. intros edges c1 [= _ <-] _ _.
  apply bind_quiet; [done|by apply allocate_quiet|]. intros h c2 _ _ Hi2.
  apply op_arena_same; [done|]. intros x a Ha. by apply root_same in Ha.
Qed.

Lemma release_quiet class c : ids_bounded c -> quiet c (release_class class c).2.
Proof.
  intros Hi. apply bind_quiet; [done| |intros; by apply quiet_refl].
  apply op_arena_same; [done|]. intros x a Ha. by apply release_same in Ha.
Qed.
End Ops.

(** ** Snapshots and views *)

Section Views.
Context {M : Type}.
Implicit Types c : ClassCache M.

Abbreviation objects c := (a_objects (cc_arena c)).
Abbreviation next c := (a_next_id (cc_arena c)).
Abbreviation quiet := (evolve data_quiet).

(** The declarations of a class. *)
Definition class_data (m : BTreeMap N (ClassObject M)) (id : ManagedId) : option (ClassData M) :=
  match m !! id with Some (OClass _ d) => Some d | _ => None end.

Definition current_parents c (id : ManagedId) : list ManagedId := from_option k_parents [] (class_data (objects c) id).

Definition current_members c (id : ManagedId) : list M := from_option k_members [] (class_data (objects c) id).

Definition GraphExact (m : BTreeMap N (ClassObject M)) (g : SnapshotGraph M) : Prop := forall id,
  s_parents g !! id = k_parents <$> class_data m id /\ s_members g !! id = k_members <$> class_data m id /\
  s_revisions g !! id = k_revisions <$> class_data m id.

Lemma graph_of_spec (a : ManagedArena (ClassObject M)) ids : forall g g', graph_of a ids g = Ok g' ->
  (forall id, id ∈ ids -> is_Some (class_data (a_objects a) id) \/ (s_parents g !! id = None /\ s_members g !! id = None /\ s_revisions g !! id = None)) ->
  forall id, (id ∈ ids ->
    s_parents g' !! id = k_parents <$> class_data (a_objects a) id /\
    s_members g' !! id = k_members <$> class_data (a_objects a) id /\
    s_revisions g' !! id = k_revisions <$> class_data (a_objects a) id) /\
  (id ∉ ids -> s_parents g' !! id = s_parents g !! id /\ s_members g' !! id = s_members g !! id /\ s_revisions g' !! id = s_revisions g !! id).
Proof.
  induction ids as [|x ids IH]; intros g g' Hg Hnone id; simpl in Hg.
  - injection Hg as <-. split; [by intros []%not_elem_of_nil|done].
  - apply rbind_Ok in Hg as (h & Hh & Hg). unfold arena_handle in Hh. destruct (a_objects a !! x) as [o|] eqn:Ho; [|done].
    injection Hh as <-. apply rbind_Ok in Hg as (o' & Ho'%ok_or_Ok & Hg). rewrite Ho in Ho'. injection Ho' as <-.
    assert (class_data (a_objects a) x = match o with OClass _ d => Some d | _ => None end) as Hx by (unfold class_data; by rewrite Ho).
    destruct (fun Hn => IH _ _ Hg Hn id) as [Hin Hout].
    { intros y Hy. destruct (Hnone y) as [|Hn]; [by right|by left|]. destruct o as [|e d|]; [by right| |by right].
         destruct (decide (x = y)) as [<-|Hne]; [left; rewrite Hx; eauto|]. right. simpl. by rewrite !lookup_insert_ne. }
    split.
    + intros Hc. destruct (decide (id ∈ ids)) as [Hi|Hi]; [by apply Hin|]. apply elem_of_cons in Hc as [->|]; [|done].
      destruct (Hout Hi) as (-> & -> & ->). rewrite Hx. destruct o as [|e d|]; simpl; rewrite ?lookup_insert_eq; [|done|].
      * destruct (Hnone x) as [Hs|]; [by left| |done]. rewrite Hx in Hs. by destruct Hs.
      * destruct (Hnone x) as [Hs|]; [by left| |done]. rewrite Hx in Hs. by destruct Hs.
    + intros [Hne Hi]%not_elem_of_cons. destruct (Hout Hi) as (-> & -> & ->).
      destruct o as [|e d|]; simpl; [done| |done]. by rewrite !lookup_insert_ne.
Qed.

Lemma snapshot_graph_Ok c g c' : snapshot_graph c = (Ok g, c') ->
  objects c' = objects c /\ next c' = next c /\ GraphExact (objects c) g.
Proof.
  unfold snapshot_graph, op_bind. destruct (op_arena _ c) as [[ids|e| |] c1] eqn:E; [|done..].
  apply op_arena_Ok in E as (a1 & ([[ids' r] a2] & Hs & [= <- <-])%rbind_Ok & ->).
  unfold safepoint in Hs. apply rbind_Ok in Hs as (n & _ & [= <- <- <-]). simpl.
  unfold op_cache, op_lift. intros [= Hg <-]. apply map_err_Ok in Hg. split_and!; [done|done|].
  intros id. simpl in *. destruct (fun Hn => graph_of_spec _ _ _ _ Hg Hn id) as [Hin Hout].
  { intros y _. right. simpl. by rewrite !lookup_empty. }
  destruct (decide (id ∈ map_keys (objects c))) as [Hi|Hi]; [by apply Hin|].
  destruct (Hout Hi) as (-> & -> & ->). simpl. rewrite !lookup_empty.
  assert (class_data (objects c) id = None) as ->; [|done]. unfold class_data.
  rewrite elem_of_map_keys in Hi. destruct (objects c !! id) eqn:Eo; [|done]. destruct Hi. eauto.
Qed.

Lemma snapshot_graph_quiet c : ids_bounded c -> quiet c (snapshot_graph c).2.
Proof.
  intros Hi. apply bind_quiet; [done| |].
  - apply op_arena_same; [done|]. intros ids a ([[ids' r] a2] & Hs & [= <- <-])%rbind_Ok.
    unfold safepoint in Hs. by apply rbind_Ok in Hs as (n & _ & [= <- <- <-]).
  - intros ids c1 _ _ Hi1. apply bind_quiet; [done|by apply cache_quiet|]. intros; by apply lift_quiet.
Qed.

Lemma stamps_of_Ok (g : SnapshotGraph M) l : forall st, stamps_of g l = Ok st ->
  st.*1 = l /\ forall y r, (y, r) ∈ st -> s_revisions g !! y = Some r.
Proof.
  induction l as [|x l IH]; intros st; simpl; [intros [= <-]; split; [done|by intros y r []%not_elem_of_nil]|].
  intros (r & Hr%expect_Ok & (rs & Hrs & [= <-])%rbind_Ok)%rbind_Ok. destruct (IH rs Hrs) as [H1 H2]. split; [simpl; by f_equal|].
  intros y r' [[= -> ->]|Hin]%elem_of_cons; [done|by apply H2].
Qed.

Lemma members_of_Ok (g : SnapshotGraph M) l : forall ms, members_of g l = Ok ms ->
  ms = concat ((fun y => default [] (s_members g !! y)) <$> l).
Proof.
  induction l as [|x l IH]; intros ms; simpl; [by intros [= <-]|].
  intros (m & Hm%expect_Ok & (rest & Hr & [= <-])%rbind_Ok)%rbind_Ok. rewrite Hm. simpl. f_equal. by apply IH.
Qed.

Section Policy.
Context (policy : Policy) `{!PolicySpec policy}.

(** A view that is right for the declarations [gp] and [gm], which are the
    current ones of every class whose stamp is current. *)
Definition ViewValid (m : BTreeMap N (ClassObject M)) (x : ManagedId) (st : list (ManagedId * CacheRevisions))
    (view : DerivedClassView M) : Prop :=
  st.*1 = dv_linearization view /\
  exists gp gm, policy_rel gp x (dv_linearization view) /\
    dv_members view = concat (gm <$> dv_linearization view) /\
    forall y r d, (y, r) ∈ st -> class_data m y = Some d ->
      (v_parents r <= v_parents (k_revisions d))%N /\ (v_members r <= v_members (k_revisions d))%N /\
      (v_parents (k_revisions d) = v_parents r -> k_parents d = gp y) /\
      (v_members (k_revisions d) = v_members r -> k_members d = gm y).

Record CacheInv c : Prop := {
  ci_ids : ids_bounded c;
  ci_views : forall x e d ref, objects c !! x = Some (OClass e d) -> k_cached d = Some ref ->
    (cr_value ref < next c)%N /\
    forall e' st view, objects c !! cr_value ref = Some (ODerived e' st view) ->
      ViewValid (objects c) x st view /\ forall y r, (y, r) ∈ st -> (y < next c)%N;
}.

Lemma evolve_class_data c c' y d' : evolve data_step c c' -> (y < next c)%N -> class_data (objects c') y = Some d' ->
  exists d, class_data (objects c) y = Some d /\ data_step d d'.
Proof.
  intros He Hy. unfold class_data. destruct (objects c' !! y) as [[|e1 d1|]|] eqn:Eo; try done. intros [= ->].
  destruct (ev_old _ _ _ He y _ Hy Eo) as (o & Ho & Hs). destruct o as [|e0 d0|]; try done. exists d0. by rewrite Ho.
Qed.

(** Evolution keeps views valid. *)
Lemma evolve_inv c c' : CacheInv c -> evolve data_step c c' -> CacheInv c'.
Proof.
  intros [Hi Hv] He. pose proof (evolve_ids _ _ _ Hi He) as Hi'. split; [done|].
  intros x e' d' ref Hx Hc. pose proof (ev_next _ _ _ He) as Hn.
  assert (x < next c)%N as Hxn.
  { destruct (decide (x < next c)%N) as [|Hge]; [done|]. destruct (ev_new _ _ _ He x _ ltac:(lia) Hx) as [_ Hk]. simpl in Hk. congruence. }
  destruct (ev_old _ _ _ He x _ Hxn Hx) as (o & Ho & Hs). destruct o as [|e d|]; try done. simpl in Hs.
  assert (k_cached d = Some ref) as Hcd by (destruct Hs as (_ & _ & _ & _ & [?|?]); congruence).
  destruct (Hv x e d ref Ho Hcd) as [Hlt Hder]. split; [lia|]. intros e1 st view Hval.
  destruct (ev_old _ _ _ He _ _ Hlt Hval) as (o2 & Ho2 & Hs2). destruct o2 as [| |e2 st2 v2]; try done. destruct Hs2 as [-> ->].
  destruct (Hder e2 st2 v2 Ho2) as [(Hst & gp & gm & Hrel & Hms & Hall) Hys]. split; [|intros y r Hin; apply Hys in Hin; lia].
  split; [done|]. exists gp, gm. split_and!; [done|done|]. intros y r d1 Hin Hd1.
  destruct (evolve_class_data c c' y d1 He (Hys y r Hin) Hd1) as (d0 & Hd0 & Hst0).
  destruct (Hall y r d0 Hin Hd0) as (Hp & Hm & Hpe & Hme). destruct Hst0 as (Sp & Sm & Spe & Sme & _). split_and!; [lia|lia| |].
  - intros Heq. rewrite Spe by lia. apply Hpe. lia.
  - intros Heq. rewrite Sme by lia. apply Hme. lia.
Qed.

Lemma quiet_inv c c' : CacheInv c -> quiet c c' -> CacheInv c'.
Proof. intros HI Hq. apply (evolve_inv c); [done|by apply evolve_weaken]. Qed.

(** ** Deriving views *)

(** The view that the current declarations give. *)
Definition RightView c (x : ManagedId) (view : DerivedClassView M) : Prop :=
  policy_rel (current_parents c) x (dv_linearization view) /\
  dv_members view = concat (current_members c <$> dv_linearization view).

(** What holds after an operation: its result when it succeeds, and the
    invariant in any case. *)
Definition post {A} (rc : Res CacheError A * ClassCache M) (Q : A -> ClassCache M -> Prop) : Prop :=
  match rc with (Ok a, c') => CacheInv c' /\ Q a c' | (_, c') => CacheInv c' end.

Lemma post_bind {A B} (m : Op M A) (f : A -> Op M B) c Q :
  post (m c) (fun a c1 => post (f a c1) Q) -> post (op_bind m f c) Q.
Proof. unfold post, op_bind. destruct (m c) as [[a|e| |] c1]; try done. by intros [_ ?]. Qed.

Lemma post_quiet {A} (m : Op M A) c c0 (Q : A -> ClassCache M -> Prop) : CacheInv c -> quiet c0 c -> quiet c (m c).2 ->
  (forall a c1, m c = (Ok a, c1) -> quiet c0 c1 -> quiet c c1 -> CacheInv c1 -> Q a c1) -> post (m c) Q.
Proof.
  intros HI Hq0 Hq HQ. unfold post. destruct (m c) as [r c1] eqn:E. simpl in Hq.
  assert (CacheInv c1) as HI1 by (by eapply quiet_inv). destruct r; try done. split; [done|].
  apply HQ; [done| |done|done]. by eapply (evolve_trans data_quiet).
Qed.

Definition same_decl (d d' : ClassData M) : Prop :=
  k_parents d' = k_parents d /\ k_members d' = k_members d /\ k_revisions d' = k_revisions d.

Lemma ViewValid_same m m' x st view :
  (forall y d', class_data m' y = Some d' -> exists d, class_data m y = Some d /\ same_decl d d') ->
  ViewValid m x st view -> ViewValid m' x st view.
Proof.
  intros Hm (Hst & gp & gm & Hrel & Hms & Hall). split; [done|]. exists gp, gm. split_and!; [done|done|].
  intros y r d' Hin Hd'. destruct (Hm y d' Hd') as (d & Hd & Hp & Hme & Hr). rewrite Hp, Hme, Hr. by apply (Hall y r d).
Qed.

Lemma quiet_class_data c c' y d' : quiet c c' -> (y < next c)%N -> class_data (objects c') y = Some d' ->
  exists d, class_data (objects c) y = Some d /\ same_decl d d'.
Proof.
  intros He Hy. unfold class_data. destruct (objects c' !! y) as [[|e1 d1|]|] eqn:Eo; try done. intros [= ->].
  destruct (ev_old _ _ _ He y _ Hy Eo) as (o & Ho & Hs). destruct o as [|e0 d0|]; try done. exists d0. rewrite Ho.
  split; [done|]. by destruct Hs as (? & ? & ? & _).
Qed.

(** Installing a reference to a valid view keeps the invariant. *)
Lemma install_inv c class edges d ref : CacheInv c -> objects c !! class = Some (OClass edges d) ->
  (cr_value ref < next c)%N ->
  (forall e st view, objects c !! cr_value ref = Some (ODerived e st view) ->
    ViewValid (objects c) class st view /\ forall y r, (y, r) ∈ st -> (y < next c)%N) ->
  CacheInv (op_write class (OClass edges (set_cached d (Some ref))) c).2.
Proof.
  intros HI Hc Hlt Hval. pose proof HI as [Hi Hv].
  assert (forall y d', class_data (<[class := OClass edges (set_cached d (Some ref))]> (objects c)) y = Some d' ->
    exists d0, class_data (objects c) y = Some d0 /\ same_decl d0 d') as Hsame.
  { intros y d'. unfold class_data. destruct (decide (class = y)) as [<-|Hne].
    - rewrite lookup_insert_eq, Hc. intros [= <-]. by exists d.
    - rewrite lookup_insert_ne by done. intros Hd'. exists d'. done. }
  assert (forall x ref', (cr_value ref' < next c)%N -> (forall e st view, objects c !! cr_value ref' = Some (ODerived e st view) ->
      ViewValid (objects c) x st view /\ forall y r, (y, r) ∈ st -> (y < next c)%N) ->
    (cr_value ref' < next c)%N /\ forall e st view,
      <[class := OClass edges (set_cached d (Some ref))]> (objects c) !! cr_value ref' = Some (ODerived e st view) ->
      ViewValid (<[class := OClass edges (set_cached d (Some ref))]> (objects c)) x st view /\
      forall y r, (y, r) ∈ st -> (y < next c)%N) as Hkeep.
  { intros x ref' Hlt' Hv'. split; [done|]. intros e st view [[_ ?]|[_ Hs]]%lookup_insert_Some; [done|].
    destruct (Hv' e st view Hs) as [Hview Hys]. split; [|done]. by eapply ViewValid_same. }
  split.
  - intros id Hid. simpl in *. apply Hi. destruct (decide (class = id)) as [<-|Hne]; [rewrite Hc; eauto|].
    by rewrite lookup_insert_ne in Hid.
  - intros x e1 d1 ref1. simpl. intros [[<- [= <- <-]]|[Hne Hx]]%lookup_insert_Some.
    + simpl. intros [= <-]. by apply Hkeep.
    + intros Hk. destruct (Hv x e1 d1 ref1 Hx Hk) as [Hlt1 Hder]. by apply Hkeep.
Qed.

Lemma graph_current c g y : GraphExact (objects c) g ->
  graph_parents g y = current_parents c y /\ default [] (s_members g !! y) = current_members c y.
Proof.
  intros Hg. destruct (Hg y) as (Hp & Hm & _). unfold graph_parents, current_parents, current_members. rewrite Hp, Hm.
  by destruct (class_data (objects c) y).
Qed.

Lemma recompute_spec class budget g c : CacheInv c -> GraphExact (objects c) g ->
  post (recompute policy class budget g c) (fun access _ => RightView c class (ca_view access)).
Proof using All.
  intros HI Hg. unfold recompute. pose proof (ci_ids c HI) as Hi.
  apply post_bind, (post_quiet _ _ c); [done|by apply quiet_refl|by apply discard_quiet|]. intros _ c1 _ Hq1 _ HI1.
  apply post_bind, (post_quiet _ _ c); [done|done|apply lift_quiet, HI1|]. intros l c2 [= Hl <-] _ _ _.
  apply map_err_Ok, policy_ok in Hl.
  apply post_bind, (post_quiet _ _ c); [done|done|apply lift_quiet, HI1|]. intros st c2 [= [Hst Hrev]%stamps_of_Ok <-] _ _ _.
  apply post_bind, (post_quiet _ _ c); [done|done|apply lift_quiet, HI1|]. intros ms c2 [= Hms%members_of_Ok <-] _ _ _.
  set (view := {| dv_linearization := l; dv_members := ms |}) in *.
  apply post_bind, (post_quiet _ _ c); [done|done|apply allocate_quiet; [apply HI1|done]|].
  intros value c2 (a2 & (Hvid & Hobj2 & _)%allocate_Ok & ->)%op_arena_Ok Hq2 _ HI2.
  set (c2 := {| cc_arena := a2; cc_manager := cc_manager c1 |}) in *.
  assert (objects c2 !! value = Some (ODerived new_node st view)) as Hv2 by (simpl; by rewrite Hobj2, lookup_insert_eq).
  apply post_bind, (post_quiet _ _ c); [done|done|apply cache_quiet, HI2|]. intros cx cy [= <- <-] _ _ _.
  apply post_bind, (post_quiet _ _ c); [done|done|apply get_mut_quiet, HI2|].
  intros m c3 (a3 & (Hm & Ho3 & Hn3)%get_mut_Ok & ->)%op_arena_Ok Hq3 Hq23 HI3. set (c3 := {| cc_arena := a3; cc_manager := _ |}) in *.
  apply post_bind, (post_quiet _ _ c); [done|done| |].
  { destruct m as [edges| |]; [|by apply lift_quiet, HI3..]. apply bind_quiet; [apply HI3|apply lift_quiet, HI3|].
    intros r c4 [= _ <-] _ _. apply bind_quiet; [apply HI3| |intros; by apply quiet_refl].
    apply (write_quiet _ (OManager edges)); [apply HI3| |done]. subst c3. simpl. rewrite Ho3. exact Hm. }
  intros edge c4 _ Hq4 Hq34 HI4.
  apply post_bind, (post_quiet _ _ c); [done|done|apply get_mut_quiet, HI4|].
  intros o c5 (a5 & (Ho & Ho5 & Hn5)%get_mut_Ok & ->)%op_arena_Ok Hq5 Hq45 HI5. set (c5 := {| cc_arena := a5; cc_manager := _ |}) in *.
  destruct o as [|edges d|]; [apply HI5| |apply HI5].
  assert (quiet c2 c5) as Hq25.
  { eapply (evolve_trans data_quiet); [exact Hq23|]. eapply (evolve_trans data_quiet); [exact Hq34|exact Hq45]. }
  assert (forall y r, (y, r) ∈ st -> exists d0, class_data (objects c) y = Some d0 /\ k_revisions d0 = r /\ (y < next c)%N) as Hcur.
  { intros y r Hin. apply Hrev in Hin. destruct (Hg y) as (_ & _ & Hr). rewrite Hr in Hin.
    destruct (class_data (objects c) y) as [d0|] eqn:Ed; [|done]. injection Hin as <-. exists d0. split_and!; [done|done|].
    apply Hi. unfold class_data in Ed. destruct (objects c !! y); [eauto|done]. }
  assert (ViewValid (objects c5) class st view) as Hview.
  { split; [done|]. exists (graph_parents g), (fun y => default [] (s_members g !! y)). split_and!; [done|done|].
    intros y r d' Hin Hd'. destruct (Hcur y r Hin) as (d0 & Hd0 & Hr0 & Hyn).
    destruct (quiet_class_data c c5 y d' Hq5 Hyn Hd') as (d1 & Hd1 & Hp & Hmm & Hr). rewrite Hd0 in Hd1. injection Hd1 as <-.
    destruct (Hg y) as (Hgp & Hgm & _). unfold graph_parents. rewrite Hgp, Hgm, Hd0, Hp, Hmm, Hr, Hr0. simpl. split_and!; done || lia. }
  assert (forall y r, (y, r) ∈ st -> (y < next c5)%N) as Hys.
  { intros y r Hin. destruct (Hcur y r Hin) as (_ & _ & _ & Hyn). pose proof (ev_next _ _ _ Hq5). lia. }
  assert (forall w, objects c5 !! value = Some w -> exists e, w = ODerived e st view) as Hval5.
  { intros w Hw. destruct (ev_old _ _ _ Hq25 value w) as (o2 & Ho2 & Hs2); [apply (ci_ids c2 HI2); eauto|done|].
    rewrite Hv2 in Ho2. injection Ho2 as <-. destruct w as [| |e s' v']; try done. destruct Hs2 as [-> ->]. by exists e. }
  assert (objects c5 !! class = Some (OClass edges d)) as Hc5 by (subst c5; simpl; rewrite Ho5; exact Ho).
  assert (CacheInv (op_write class (OClass edges (set_cached d (Some {| cr_edge := edge; cr_value := value |}))) c5).2) as Hfin.
  { apply install_inv; [done|done| |].
    - apply (N.lt_le_trans _ (next c2)); [apply (ci_ids c2 HI2); eauto|exact (ev_next _ _ _ Hq25)].
    - simpl. intros e st' view' (e' & [= -> -> ->])%Hval5. done. }
  split; [exact Hfin|]. split; simpl.
  - apply (policy_local (graph_parents g)); [done|]. intros y _. by apply graph_current.
  - rewrite Hms. f_equal. apply list_fmap_ext. intros i y _. by apply graph_current.
Qed.

Lemma RightView_objects c c' x view : objects c' = objects c -> RightView c' x view -> RightView c x view.
Proof. unfold RightView, current_parents, current_members. by intros ->. Qed.

(** A view whose stamps are all current is right. *)
Lemma hit_right c g x st view : GraphExact (objects c) g -> ViewValid (objects c) x st view ->
  stamps_match g st = true -> RightView c x view.
Proof.
  intros Hg (Hst & gp & gm & Hrel & Hms & Hall) Hmatch. unfold stamps_match in Hmatch. rewrite forallb_forall in Hmatch.
  assert (forall y, y ∈ dv_linearization view -> gp y = current_parents c y /\ gm y = current_members c y) as Heq.
  { intros y Hy. rewrite <- Hst in Hy. apply list_elem_of_fmap in Hy as ([y' r] & -> & Hin).
    specialize (Hmatch (y', r) (proj1 (list_elem_of_In _ _) Hin)). simpl in Hmatch. apply bool_decide_eq_true in Hmatch.
    destruct (Hg y') as (_ & _ & Hr). rewrite Hr in Hmatch. destruct (class_data (objects c) y') as [d|] eqn:Ed; [|done].
    injection Hmatch as Hrd. destruct (Hall y' r d Hin Ed) as (_ & _ & Hp & Hm). simpl.
    unfold current_parents, current_members. rewrite Ed. simpl. rewrite Hp, Hm; [done|by rewrite Hrd..]. }
  split.
  - apply (policy_local gp); [done|]. intros y Hy. by apply Heq.
  - rewrite Hms. f_equal. apply list_fmap_ext. intros i y Hy. apply Heq. by eapply list_elem_of_lookup_2.
Qed.

Lemma derived_spec class budget c : CacheInv c ->
  post (derived policy class budget c) (fun access _ => RightView c (rh_handle class) (ca_view access)).
Proof using All.
  intros HI. unfold derived. pose proof (ci_ids c HI) as Hi.
  apply post_bind, (post_quiet _ _ c); [done|by apply quiet_refl|by apply snapshot_graph_quiet|].
  intros g c1 (Ho & Hn & Hg)%snapshot_graph_Ok Hq1 _ HI1. rewrite <- Ho in Hg.
  apply post_bind, (post_quiet _ _ c); [done|done|rewrite cached_ref_state; apply quiet_refl, HI1|].
  intros cached c2 (-> & e & d & Hx & Hk)%cached_ref_Ok _ _ _.
  assert (post (recompute policy (rh_handle class) budget g c1) (fun access _ => RightView c (rh_handle class) (ca_view access))) as Hrec.
  { pose proof (recompute_spec (rh_handle class) budget g c1 HI1 Hg) as Hp. unfold post in *.
    destruct (recompute _ _ _ _ c1) as [[access|er| |] c3]; try done. destruct Hp as [? Hr]. split; [done|].
    by apply (RightView_objects c c1). }
  destruct cached as [ref|]; [|exact Hrec].
  apply post_bind, (post_quiet _ _ c); [done|done|apply get_object_quiet, HI1|].
  intros o c2 [Hval ->]%get_object_Ok _ _ _. destruct o as [| |e' st view]; [exact HI1|exact HI1|].
  destruct (stamps_match g st) eqn:Hm; [|exact Hrec]. split; [exact HI1|]. simpl.
  apply (RightView_objects c c1); [done|]. destruct (ci_views c1 HI1 _ _ _ _ Hx Hk) as [_ Hv].
  destruct (Hv e' st view Hval) as [Hview _]. by eapply hit_right.
Qed.

(** ** Replacing declarations *)

Lemma op_bind_Ok {A B} (m : Op M A) (f : A -> Op M B) c b c' : op_bind m f c = (Ok b, c') ->
  exists a c1, m c = (Ok a, c1) /\ f a c1 = (Ok b, c').
Proof. unfold op_bind. destruct (m c) as [[a|e| |] c1]; try done. eauto. Qed.

(** A class rewritten under a later revision. *)
Lemma rewrite_evolve c c1 c' id e d e' d' : quiet c c1 -> ids_bounded c1 -> objects c1 !! id = Some (OClass e d) ->
  data_step d d' -> next c' = next c1 -> (forall k, k <> id -> objects c' !! k = objects c1 !! k) ->
  objects c' !! id = Some (OClass e' d') -> evolve data_step c c'.
Proof.
  intros Hq Hi Ho Hs Hn Hk Ho'. eapply (evolve_trans data_step); [apply evolve_weaken; exact Hq|].
  apply (evolve_in_place data_step); [done|done|]. intros k o Hko. destruct (decide (k = id)) as [->|Hne].
  - rewrite Ho' in Hko. injection Hko as <-. by exists (OClass e d).
  - rewrite Hk in Hko by done. exists o. split; [done|apply (obj_step_refl data_step)].
Qed.

Lemma replace_members_evolve class members c c' : ids_bounded c -> replace_members class members c = (Ok tt, c') ->
  evolve data_step c c'.
Proof.
  intros Hi. unfold replace_members. intros (u & c1 & Hd & H1)%op_bind_Ok.
  pose proof (discard_quiet (rh_handle class) c Hi) as Hq. rewrite Hd in Hq. simpl in Hq.
  apply op_bind_Ok in H1 as (o & c2 & (a2 & (Ho & Ho2 & Hn2)%get_mut_Ok & ->)%op_arena_Ok & H2).
  destruct o as [|e d|]; try done. apply op_bind_Ok in H2 as (u2 & c3 & [= <- <-] & H3).
  apply op_bind_Ok in H3 as (n & c4 & [= Hok <-] & [= <-]). apply ok_or_Ok, checked_add_Some in Hok as [-> _].
  eapply (rewrite_evolve c c1); [done|by eapply evolve_ids|exact Ho| |simpl; exact Hn2| |simpl; by rewrite lookup_insert_eq].
  - split_and!; simpl; try lia; auto.
  - intros k Hk. simpl. rewrite !lookup_insert_ne by done. by rewrite Ho2.
Qed.

Lemma store_parents_Ok class ps : forall edges d c e' d' c', store_parents class edges d ps c = (Ok (e', d'), c') ->
  next c' = next c /\ (forall k, k <> class -> objects c' !! k = objects c !! k) /\
  k_members d' = k_members d /\ k_revisions d' = k_revisions d /\ k_cached d' = k_cached d.
Proof.
  induction ps as [|p ps IH]; intros edges d c e' d' c'; simpl; [by intros [= <- <- <-]|].
  destruct (insert_strong edges p) as [[e1 n1]|e| |]; try done.
  intros (u & c1 & [= <- <-] & Hs)%op_bind_Ok. apply IH in Hs as (Hn & Hk & Hm & Hr & Hc). simpl in *.
  split_and!; [done| |done|done|done]. intros k Hne. rewrite Hk by done. by rewrite lookup_insert_ne.
Qed.

Lemma replace_parents_evolve class parents c c' : ids_bounded c -> replace_parents class parents c = (Ok tt, c') ->
  evolve data_step c c'.
Proof.
  intros Hi. unfold replace_parents. intros (u & c1 & Hd & H1)%op_bind_Ok.
  pose proof (discard_quiet (rh_handle class) c Hi) as Hq. rewrite Hd in Hq. simpl in Hq.
  apply op_bind_Ok in H1 as (o & c2 & (a2 & (Ho & Ho2 & Hn2)%get_mut_Ok & ->)%op_arena_Ok & H2).
  destruct o as [|e d|]; try done. apply op_bind_Ok in H2 as (u2 & c3 & [= <- <-] & H3).
  apply op_bind_Ok in H3 as ([e4 d4] & c4 & (Hn4 & Hk4 & Hm4 & Hr4 & Hc4)%store_parents_Ok & H4).
  apply op_bind_Ok in H4 as (n & c5 & [= Hok <-] & [= <-]). apply ok_or_Ok, checked_add_Some in Hok as [-> _]. simpl in *.
  eapply (rewrite_evolve c c1); [done|by eapply evolve_ids|exact Ho| |simpl; by rewrite Hn4| |simpl; by rewrite lookup_insert_eq].
  - unfold data_step. simpl. rewrite Hm4, Hr4, Hc4. split_and!; try lia; auto.
  - intros k Hk. simpl. rewrite lookup_insert_ne, Hk4, lookup_insert_ne by done. by rewrite Ho2.
Qed.

(** The outcomes of a replacement that did not stop between changing the class
    and changing its revision. *)
Definition settled (r : Res CacheError unit) : Prop :=
  match r with Ok _ => True | Err (CacheStrong _) | Err (RevisionExhausted _) | Panic | NoFuel => False | Err _ => True end.

(** Such a refusal changes no declaration. *)
Lemma replace_refused id (f : ClassObject M -> Op M unit) c e c' : ids_bounded c ->
  (let! _ := discard_cached id in let! o := op_arena (arena_get_mut id) in f o) c = (Err e, c') ->
  (forall o c, match o with OClass _ _ => True | _ => f o c = (Err (WrongObject id), c) end) ->
  (forall n d c c', f (OClass n d) c <> (Err e, c')) -> quiet c c'.
Proof.
  intros Hi Hr Hother Hclass. unfold op_bind in Hr. pose proof (discard_quiet id c Hi) as Hq.
  destruct (discard_cached id c) as [[u|e1| |] c1]; simpl in Hq; try done; [|by injection Hr as _ <-].
  assert (ids_bounded c1) as Hi1 by (by eapply evolve_ids). pose proof (get_mut_quiet id c1 Hi1) as Hg.
  destruct (op_arena (arena_get_mut id) c1) as [[o|e2| |] c2]; simpl in Hg; try done.
  - destruct o as [n|n d|n st v]; [pose proof (Hother (OManager n) c2) as Ho| |pose proof (Hother (ODerived n st v) c2) as Ho].
    + simpl in Ho. rewrite Ho in Hr. injection Hr as _ <-. by eapply (evolve_trans data_quiet).
    + by edestruct Hclass.
    + simpl in Ho. rewrite Ho in Hr. injection Hr as _ <-. by eapply (evolve_trans data_quiet).
  - injection Hr as _ <-. by eapply (evolve_trans data_quiet).
Qed.

Lemma store_parents_Err class ps : forall edges d c e c', store_parents class edges d ps c = (Err e, c') -> exists s, e = CacheStrong s.
Proof.
  induction ps as [|p ps IH]; intros edges d c e c'; simpl; [done|]. destruct (insert_strong edges p) as [[e1 n1]|s| |]; try done.
  - unfold op_bind. simpl. apply IH.
  - intros [= <- <-]. by exists s.
Qed.

Lemma replace_members_settled class members c r c' : ids_bounded c -> replace_members class members c = (r, c') -> settled r ->
  evolve data_step c c'.
Proof.
  intros Hi Hr Hs. destruct r as [[]|e| |]; [by eapply replace_members_evolve| |done..].
  apply evolve_weaken. eapply (replace_refused (rh_handle class) _ c e c' Hi Hr); [by intros [] ?|].
  intros n d c1 c2. unfold op_bind, op_lift. simpl. destruct (checked_add _ _); simpl; [done|]. by intros [= <- _].
Qed.

Lemma replace_parents_settled class parents c r c' : ids_bounded c -> replace_parents class parents c = (r, c') -> settled r ->
  evolve data_step c c'.
Proof.
  intros Hi Hr Hs. destruct r as [[]|e| |]; [by eapply replace_parents_evolve| |done..].
  apply evolve_weaken. eapply (replace_refused (rh_handle class) _ c e c' Hi Hr); [by intros [] ?|].
  intros n d c1 c2. unfold op_bind, op_lift. cbn [op_write]. destruct (store_parents _ _ _ _ _) as [[[e4 d4]|e4| |] c4] eqn:Hst; try done.
  - destruct (checked_add _ _); simpl; [done|]. by intros [= <- _].
  - intros [= -> _]. by apply store_parents_Err in Hst as [s ->].
Qed.
End Policy.
End Views.

(** ** Collections keep declarations *)

Section Collections.
Context `{ManagedObject T} (R : T -> T -> Prop) `{!PreOrder R}.
Hypothesis weak_rel : forall o e t, R o (clear_weak_edge o e t).2.
Hypothesis ephemeron_rel : forall o e k v, R o (clear_ephemeron_edge o e k v).2.

#[local] Set Default Proof Using "All".

Lemma clear_weak_entries_rel entries : forall (m : BTreeMap N T) id o',
  (clear_weak_entries entries m).2 !! id = Some o' -> exists o, m !! id = Some o /\ R o o'.
Proof.
  induction entries as [|[[owner e] t] entries IH]; intros m id o'; simpl; [intros Ho; exists o'; by split|].
  destruct (m !! owner) as [o|] eqn:Eo; [|apply IH]. pose proof (weak_rel o e t) as Hr. destruct (clear_weak_edge o e t) as [b o1].
  specialize (IH (<[owner := o1]> m) id o'). destruct (clear_weak_entries entries (<[owner := o1]> m)) as [c m']. simpl in *.
  intros (o2 & [[<- <-]|[_ Hs]]%lookup_insert_Some & Hr2)%IH; [|eauto]. exists o. split; [done|by etrans].
Qed.

Lemma clear_ephemeron_entries_rel entries : forall (m : BTreeMap N T) id o',
  (clear_ephemeron_entries entries m).2 !! id = Some o' -> exists o, m !! id = Some o /\ R o o'.
Proof.
  induction entries as [|[[[owner e] k] v] entries IH]; intros m id o'; simpl; [intros Ho; exists o'; by split|].
  destruct (m !! owner) as [o|] eqn:Eo; [|apply IH]. pose proof (ephemeron_rel o e k v) as Hr. destruct (clear_ephemeron_edge o e k v) as [b o1].
  specialize (IH (<[owner := o1]> m) id o'). destruct (clear_ephemeron_entries entries (<[owner := o1]> m)) as [c m']. simpl in *.
  intros (o2 & [[<- <-]|[_ Hs]]%lookup_insert_Some & Hr2)%IH; [|eauto]. exists o. split; [done|by etrans].
Qed.

(** However a collection ends, an object it leaves stood there before. *)
Definition arena_rel (a a' : ManagedArena T) : Prop :=
  a_next_id a' = a_next_id a /\ forall id o', a_objects a' !! id = Some o' -> exists o, a_objects a !! id = Some o /\ R o o'.

Lemma apply_collection_rel a e w ep ids r a' : apply_collection_at_epoch a e w ep ids = Ok (r, a') -> arena_rel a a'.
Proof.
  unfold apply_collection_at_epoch. case_decide; [|done]. intros ([] & _ & (a1 & Ha1 & Hr)%rbind_Ok)%rbind_Ok.
  set (actual := filter (fun id => id ∉ kept_at a e) ids) in *.
  assert (a_objects a1 = a_objects a /\ a_next_id a1 = a_next_id a) as [Ho1 Hn1].
  { assert (a1 = a \/ advance_mutation_epoch a = Ok a1) as [->| ->%advance_Ok]
      by (destruct w, ep, actual; (right; exact Ha1) || (left; by injection Ha1 as <-)); done. }
  pose proof (clear_weak_entries_rel w (a_objects a1)) as Hw. destruct (clear_weak_entries w (a_objects a1)) as [cw m1].
  pose proof (clear_ephemeron_entries_rel ep m1) as He. destruct (clear_ephemeron_entries ep m1) as [ce m2].
  injection Hr as _ <-. split; [done|]. simpl. intros id o' [Hm2 _]%sweep_objects_lookup.
  destruct (He id o' Hm2) as (o1 & Hm1 & R1). destruct (Hw id o1 Hm1) as (o & Hm & R0). exists o. rewrite <- Ho1. split; [done|by etrans].
Qed.

Lemma arena_rel_safepoint a n : arena_rel a (set_safepoint a n).
Proof. split; [done|]. intros id o' Ho. by exists o'. Qed.

Lemma collect_rel limits a : arena_rel a (collect limits a).2.
Proof.
  unfold collect, collect_with_finalization, safepoint. destruct (ok_or _ _) as [n|e| |]; simpl; [|split; [done|intros id o' Ho; by exists o']..].
  destruct (plan_collection _ _) as [p|e| |]; simpl; try apply arena_rel_safepoint.
  destruct (let? _ := _ in _) as [[r a']|e| |] eqn:E; simpl; try apply arena_rel_safepoint.
  apply rbind_Ok in E as ([] & _ & ([] & _ & Ha%map_err_Ok)%rbind_Ok). apply apply_collection_rel in Ha.
  destruct (enqueue_records _ _ _ _) as [[[]|e| |] q]; exact Ha.
Qed.
End Collections.

(** ** Histories *)

Section History.
Context {M : Type} (policy : Policy) `{!PolicySpec policy}.
Implicit Types c : ClassCache M.

(** The operations of a class cache used with one policy.  A replacement that is
    refused is a step, except when it stops with the class changed under its old
    revision: at more parents than a node has edges, or at the last revision. *)
Inductive cache_step : ClassCache M -> ClassCache M -> Prop :=
| step_allocate_class c parents members : cache_step c (allocate_class parents members c).2
| step_replace_parents c class parents r c' : replace_parents class parents c = (r, c') -> settled r -> cache_step c c'
| step_replace_members c class members r c' : replace_members class members c = (r, c') -> settled r -> cache_step c c'
| step_derived c class budget : cache_step c (derived policy class budget c).2
| step_release_class c class : cache_step c (release_class class c).2
| step_collect c limits : cache_step c (cache_collect limits c).2.

(** Clearing edges keeps what an object declares. *)
Lemma clear_weak_payload (o : ClassObject M) e t : obj_step data_quiet o (clear_weak_edge o e t).2.
Proof. simpl. destruct (node_clear_weak _ e t) as [b n]. destruct o; simpl; try done. apply data_quiet_refl. Qed.

Lemma clear_ephemeron_payload (o : ClassObject M) e k v : obj_step data_quiet o (clear_ephemeron_edge o e k v).2.
Proof. simpl. destruct (node_clear_ephemeron _ e k v) as [b n]. destruct o; simpl; try done. apply data_quiet_refl. Qed.

#[local] Instance obj_quiet_preorder : PreOrder (obj_step (M := M) data_quiet).
Proof. split; [intros o; apply (obj_step_refl data_quiet)|intros o1 o2 o3; apply (obj_step_trans data_quiet)]. Qed.

Lemma collect_quiet limits c : ids_bounded c -> evolve data_quiet c (cache_collect limits c).2.
Proof.
  intros Hi. unfold cache_collect. pose proof (collect_rel _ clear_weak_payload clear_ephemeron_payload limits (cc_arena c)) as [Hn Ho].
  destruct (collect limits (cc_arena c)) as [r a]. simpl in *. by apply (evolve_in_place data_quiet).
Qed.

Lemma cache_step_inv c c' : CacheInv policy c -> cache_step c c' -> CacheInv policy c'.
Proof.
  intros HI Hs. pose proof (ci_ids policy c HI) as Hi. destruct Hs.
  - apply (quiet_inv policy c); [done|by apply allocate_class_quiet].
  - apply (evolve_inv policy c); [done|by eapply replace_parents_settled].
  - apply (evolve_inv policy c); [done|by eapply replace_members_settled].
  - pose proof (derived_spec policy class budget c HI) as Hp. unfold post in Hp.
    destruct (derived policy class budget c) as [[a|e| |] c']; simpl; try done. by destruct Hp.
  - apply (quiet_inv policy c); [done|by apply release_quiet].
  - apply (quiet_inv policy c); [done|by apply collect_quiet].
Qed.

Lemma new_cache_inv cap c : new_cache cap = Ok c -> CacheInv policy c.
Proof.
  unfold new_cache. intros (n & _ & ([id a1] & Ha%map_err_Ok & Hr)%rbind_Ok)%rbind_Ok.
  apply allocate_Ok in Ha as (-> & Ho1 & Hn1). apply rbind_Ok in Hr as ([h a2] & Ha2%map_err_Ok & [= <-]).
  apply root_same in Ha2 as [Ho2 Hn2]. simpl in *. split; simpl.
  - intros id [o Hs]. simpl in *. rewrite Ho2, Ho1 in Hs. rewrite Hn2, Hn1.
    apply lookup_insert_Some in Hs as [[<- _]|[_ Hs]]; [lia|]. by rewrite lookup_empty in Hs.
  - intros x e d ref Hs. rewrite Ho2, Ho1 in Hs. apply lookup_insert_Some in Hs as [[_ ?]|[_ Hs]]; [done|].
    by rewrite lookup_empty in Hs.
Qed.

Lemma cache_steps_inv c c' : CacheInv policy c -> rtc cache_step c c' -> CacheInv policy c'.
Proof. intros HI Hs. revert HI. induction Hs; eauto using cache_step_inv. Qed.

(** C18: Over any history of a class cache with one lineage policy, in which
    classes are declared, redeclared, released and collected and no redeclaration
    stops with the class changed under its old revision (which takes more than
    65536 parents or the last revision), an access that returns a derived view,
    whether it was a hit or was recomputed, returns the one linearization that the
    policy gives the class in the current declarations, with the members of the
    classes as they are now. *)
Theorem derived_is_current cap c0 c class budget access c' :
  new_cache cap = Ok c0 -> rtc cache_step c0 c -> derived policy class budget c = (Ok access, c') ->
  policy_rel (current_parents c) (rh_handle class) (dv_linearization (ca_view access)) /\
  (forall l, policy_rel (current_parents c) (rh_handle class) l -> l = dv_linearization (ca_view access)) /\
  dv_members (ca_view access) = concat (current_members c <$> dv_linearization (ca_view access)).
Proof using All.
  intros Hn Hs Hd. assert (CacheInv policy c) as HI by (eapply cache_steps_inv; [by eapply new_cache_inv|done]).
  pose proof (derived_spec policy class budget c HI) as Hp. rewrite Hd in Hp. destruct Hp as [_ [Hv Hm]].
  split; [done|]. split; [|done]. intros l Hl. by eapply policy_fun.
Qed.
End History.

(** ** Samples *)

Definition rooted (root id : N) : RootedHandle := {| rh_root := root; rh_handle := id |}.

Definition sample_budget : LineageBudget := {| b_nodes := 32; b_work := 512 |}.

Definition gc_limits : CollectionLimits :=
  {| l_objects := 32; l_edges := 32; l_stack := 32; l_work := 512; l_clears := 32; l_finalizers := 0 |}.

(** A parent (object 1, root 1) and a child (object 2, root 2). *)
Definition empty_cache : ClassCache nat :=
  match new_cache 16 with Ok c => c | _ => {| cc_arena := new_arena 16; cc_manager := rooted 0 0 |} end.

Definition two_classes : ClassCache nat :=
  (allocate_class [rooted 1 1] [20] (allocate_class [] [10] empty_cache).2).2.

Definition cached_child : ClassCache nat := (derived c3_linearize (rooted 2 2) sample_budget two_classes).2.

Lemma two_classes_steps policy : rtc (cache_step policy) empty_cache two_classes.
Proof.
  eapply rtc_l; [apply (step_allocate_class policy empty_cache [] [10])|]. apply rtc_once.
  exact (step_allocate_class policy _ [rooted 1 1] [20]).
Qed.

Lemma derived_is_current_witness :
  match derived c3_linearize (rooted 2 2) sample_budget cached_child with
  | (Ok access, _) => ca_kind access = Hit /\ Linearization (current_parents cached_child) 2%N (dv_linearization (ca_view access)) /\
      dv_members (ca_view access) = [20; 10]
  | _ => False
  end.
Proof.
  assert (match (derived c3_linearize (rooted 2 2) sample_budget cached_child).1 with
    | Ok access => ca_kind access = Hit /\ dv_members (ca_view access) = [20; 10] | _ => False end) as Hk by (vm_compute; done).
  destruct (derived c3_linearize (rooted 2 2) sample_budget cached_child) as [[access|e| |] c'] eqn:E; [|done..].
  destruct (derived_is_current c3_linearize 16 empty_cache cached_child (rooted 2 2) sample_budget access c') as [Hl _].
  - reflexivity.
  - eapply rtc_r; [apply two_classes_steps|apply step_derived].
  - exact E.
  - destruct Hk as [Hk Hm]. split; [exact Hk|split; [exact Hl|exact Hm]].
Defined.

(** A view cached under one policy answers an access under another. *)
Definition diamond : ClassCache nat :=
  (allocate_class [rooted 2 2; rooted 3 3] [] (allocate_class [rooted 1 1] []
    (allocate_class [rooted 1 1] [] (allocate_class [] [] empty_cache).2).2).2).2.

Theorem policy_not_in_cache_key :
  match derived declared_linearize (rooted 4 4) sample_budget diamond with
  | (Ok first, c) =>
    match (derived c3_linearize (rooted 4 4) sample_budget c).1, (derived c3_linearize (rooted 4 4) sample_budget diamond).1 with
    | Ok second, Ok fresh =>
      ca_kind second = Hit /\ dv_linearization (ca_view second) = [4%N; 2%N; 1%N; 3%N] /\
      dv_linearization (ca_view fresh) = [4%N; 2%N; 3%N; 1%N]
    | _, _ => False
    end
  | _ => False
  end.
Proof. vm_compute. done. Qed.

(** A class declared with a parent that was released and collected: computing
    its view indexes the snapshot at the missing parent and aborts. *)
Definition stale_parent : ClassCache nat :=
  (allocate_class [rooted 1 1] [] (cache_collect gc_limits (release_class (rooted 1 1) (allocate_class [] [] empty_cache).2).2).2).2.

Theorem stale_parent_aborts : (derived c3_linearize (rooted 2 2) sample_budget stale_parent).1 = Panic.
Proof. vm_compute. reflexivity. Qed.
