(* ===== verification/PatternIr.v ===== *)
(** * Pattern expressions

    crates/sim-lib-pattern/src/ir.rs: pattern expressions, and the checks that
    make them a [PatternIr].  Symbols and dialect extensions are parameters.
    [UnsupportedExtension] carries the extension itself, where the source keeps
    its printed form.

    [new_pattern] accepts exactly the expressions whose captures are unique,
    whose assertions are defined and well-founded, and whose extensions the
    target engine admits. *)

From stdpp Require Import relations.
From S2P Require Import Prelude BTree LineageWalk.

Abbreviation CaptureId := N (only parsing).
Abbreviation AssertionId := N (only parsing).

Inductive AnchorKind := SubjectStart | SubjectEnd.

#[export] Instance AnchorKind_eq_dec : EqDecision AnchorKind.
Proof. solve_decision. Defined.

Record RepeatBounds := {
  rb_min : N;
  rb_max : option N;
}.

#[export] Instance RepeatBounds_eq_dec : EqDecision RepeatBounds.
Proof. solve_decision. Defined.

Inductive IrNode (Sym Ext : Type) :=
| NSymbol (s : Sym)
| NAny
| NConcat (nodes : list (IrNode Sym Ext))
| NAlternation (nodes : list (IrNode Sym Ext))
| NRepeat (node : IrNode Sym Ext) (bounds : RepeatBounds) (greedy : bool)
| NGroup (node : IrNode Sym Ext)
| NCapture (id : CaptureId) (node : IrNode Sym Ext)
| NAnchor (a : AnchorKind)
| NAssertion (id : AssertionId)
| NExtension (e : Ext).

Arguments NSymbol {Sym Ext} s.
Arguments NAny {Sym Ext}.
Arguments NConcat {Sym Ext} nodes.
Arguments NAlternation {Sym Ext} nodes.
Arguments NRepeat {Sym Ext} node bounds greedy.
Arguments NGroup {Sym Ext} node.
Arguments NCapture {Sym Ext} id node.
Arguments NAnchor {Sym Ext} a.
Arguments NAssertion {Sym Ext} id.
Arguments NExtension {Sym Ext} e.

Inductive IrError (Ext : Type) :=
| InvalidRepeatBounds (min max : N)
| DuplicateCapture (id : CaptureId)
| MissingAssertion (id : AssertionId)
| AssertionCycle (path : list AssertionId)
| UnsupportedExtension (e : Ext).

Arguments InvalidRepeatBounds {Ext} min max.
Arguments DuplicateCapture {Ext} id.
Arguments MissingAssertion {Ext} id.
Arguments AssertionCycle {Ext} path.
Arguments UnsupportedExtension {Ext} e.

(** [RepeatBounds::new]. *)
Definition new_bounds {Ext} (min : N) (max : option N) : Res (IrError Ext) RepeatBounds :=
  match max with
  | Some m => if (m <? min)%N then Err (InvalidRepeatBounds min m) else Ok {| rb_min := min; rb_max := max |}
  | None => Ok {| rb_min := min; rb_max := max |}
  end.

(** A [for] loop with [?] over a list, threading a state. *)
Definition rfold {E A X} (f : A -> X -> Res E X) : list A -> X -> Res E X :=
  fix go l x :=
    match l with
    | [] => Ok x
    | a :: l => let? x := f a x in go l x
    end.

(** Structural induction with the children of lists. *)
Section IrInd.
Context {Sym Ext : Type} (P : IrNode Sym Ext -> Prop).
Context (Hsymbol : forall s, P (NSymbol s)) (Hany : P NAny)
  (Hconcat : forall l, Forall P l -> P (NConcat l)) (Halt : forall l, Forall P l -> P (NAlternation l))
  (Hrepeat : forall n b g, P n -> P (NRepeat n b g)) (Hgroup : forall n, P n -> P (NGroup n))
  (Hcapture : forall id n, P n -> P (NCapture id n)) (Hanchor : forall a, P (NAnchor a))
  (Hassertion : forall id, P (NAssertion id)) (Hext : forall e, P (NExtension e)).

Fixpoint ir_ind (n : IrNode Sym Ext) : P n :=
  let all := fix all (l : list (IrNode Sym Ext)) : Forall P l :=
    match l with [] => Forall_nil_2 P | x :: l => Forall_cons_2 P x l (ir_ind x) (all l) end in
  match n with
  | NSymbol s => Hsymbol s
  | NAny => Hany
  | NConcat l => Hconcat l (all l)
  | NAlternation l => Halt l (all l)
  | NRepeat n b g => Hrepeat n b g (ir_ind n)
  | NGroup n => Hgroup n (ir_ind n)
  | NCapture id n => Hcapture id n (ir_ind n)
  | NAnchor a => Hanchor a
  | NAssertion id => Hassertion id
  | NExtension e => Hext e
  end.
End IrInd.

(** [EnginePolicy]: the extensions an engine admits, only ever asked for
    membership. *)
Record EnginePolicy (Ext : Type) := { admitted_extensions : list Ext }.

Arguments admitted_extensions {Ext} _.

Record PatternIr (Sym Ext : Type) := {
  ir_root : IrNode Sym Ext;
  ir_assertions : BTreeMap AssertionId (IrNode Sym Ext);
}.

Arguments ir_root {Sym Ext} _.
Arguments ir_assertions {Sym Ext} _.

Section Validate.
Context {Sym Ext : Type} `{EqDecision Ext}.
Context (assertions : BTreeMap AssertionId (IrNode Sym Ext)).
Implicit Types n : IrNode Sym Ext.

(** [validate_node]: returns the captures seen so far. *)
Fixpoint validate_node (policy : EnginePolicy Ext) n (captures : BTreeSet CaptureId) : Res (IrError Ext) (BTreeSet CaptureId) :=
  match n with
  | NConcat nodes | NAlternation nodes => rfold (validate_node policy) nodes captures
  | NRepeat node _ _ | NGroup node => validate_node policy node captures
  | NCapture id node =>
    if decide (id ∈ captures) then Err (DuplicateCapture id) else validate_node policy node ({[id]} ∪ captures)
  | NAssertion id => let? _ := ok_or (MissingAssertion id) (assertions !! id) in Ok captures
  | NExtension e => if decide (e ∈ admitted_extensions policy) then Ok captures else Err (UnsupportedExtension e)
  | NSymbol _ | NAny | NAnchor _ => Ok captures
  end.

(** [validate_assertion_cycles]: the fuel bounds how often a definition is
    entered; the nodes of one definition are visited structurally. *)
Fixpoint validate_assertion_cycles (fuel : nat) : IrNode Sym Ext -> list AssertionId -> Res (IrError Ext) unit :=
  fix visit n path :=
    match n with
    | NConcat nodes | NAlternation nodes => rfold (fun n _ => visit n path) nodes ()
    | NRepeat node _ _ | NGroup node | NCapture _ node => visit node path
    | NAssertion id =>
      match list_find (fun seen => seen = id) path with
      | Some (start, _) => Err (AssertionCycle (drop start path ++ [id]))
      | None =>
        let? definition := ok_or (MissingAssertion id) (assertions !! id) in
        match fuel with
        | 0 => NoFuel
        | S fuel => validate_assertion_cycles fuel definition (path ++ [id])
        end
      end
    | NSymbol _ | NAny | NAnchor _ | NExtension _ => Ok ()
    end.
End Validate.

Definition new_pattern {Sym Ext} `{EqDecision Ext} (root : IrNode Sym Ext) (assertions : BTreeMap AssertionId (IrNode Sym Ext))
    (policy : EnginePolicy Ext) : Res (IrError Ext) (PatternIr Sym Ext) :=
  let? captures := validate_node assertions policy root ∅ in
  let? _ := rfold (validate_node assertions policy) (map_values assertions) captures in
  let? _ := validate_assertion_cycles assertions (size assertions) root [] in
  let? _ := rfold (fun '(id, definition) _ => validate_assertion_cycles assertions (size assertions) definition [id])
    (map_entries assertions) () in
  Ok {| ir_root := root; ir_assertions := assertions |}.

(** ** What is checked *)

Inductive Item (Ext : Type) :=
| ICapture (id : CaptureId)
| IRef (id : AssertionId)
| IExt (e : Ext).

Arguments ICapture {Ext} id.
Arguments IRef {Ext} id.
Arguments IExt {Ext} e.

#[export] Instance Item_eq_dec {Ext} `{EqDecision Ext} : EqDecision (Item Ext).
Proof. solve_decision. Defined.

Section ValidateSpec.
Context {Sym Ext : Type} `{EqDecision Ext}.
Context (assertions : BTreeMap AssertionId (IrNode Sym Ext)) (policy : EnginePolicy Ext).
Implicit Types (n root : IrNode Sym Ext) (L : list (Item Ext)).

(** The captures, references and extensions of an expression, in order. *)
Fixpoint items n : list (Item Ext) :=
  match n with
  | NConcat nodes | NAlternation nodes => flat_map items nodes
  | NRepeat node _ _ | NGroup node => items node
  | NCapture id node => ICapture id :: items node
  | NAssertion id => [IRef id]
  | NExtension e => [IExt e]
  | NSymbol _ | NAny | NAnchor _ => []
  end.

Definition captures_in L : list CaptureId := omap (fun it => match it with ICapture id => Some id | _ => None end) L.

Definition refs n : list AssertionId := omap (fun it => match it with IRef id => Some id | _ => None end) (items n).

(** The references of an assertion's definition. *)
Definition referenced (id : AssertionId) : list AssertionId :=
  match assertions !! id with Some d => refs d | None => [] end.

(** All items of a pattern: of its root, then of its definitions. *)
Definition all_items root : list (Item Ext) := items root ++ flat_map items (map_values assertions).

Record ValidIr root : Prop := {
  vi_captures : NoDup (captures_in (all_items root));
  vi_refs : forall id, IRef id ∈ all_items root -> is_Some (assertions !! id);
  vi_exts : forall e, IExt e ∈ all_items root -> e ∈ admitted_extensions policy;
  vi_acyclic : forall id, ~ tc (parent_of referenced) id id;
}.

(** What a refusal says. *)
Definition ir_refusal root (e : IrError Ext) : Prop :=
  match e with
  | DuplicateCapture id => exists l1 l2, all_items root = l1 ++ ICapture id :: l2 /\ ICapture id ∈ l1
  | MissingAssertion id => IRef id ∈ all_items root /\ assertions !! id = None
  | UnsupportedExtension x => IExt x ∈ all_items root /\ x ∉ admitted_extensions policy
  | AssertionCycle path => is_cycle referenced path
  | InvalidRepeatBounds _ _ => False
  end.

Lemma rbind_ret {E A} (r : Res E A) : rbind (fun x => Ok x) r = r.
Proof. by destruct r. Qed.

Lemma rfold_app {E A X} (f : A -> X -> Res E X) l1 l2 x : rfold f (l1 ++ l2) x = rbind (rfold f l2) (rfold f l1 x).
Proof. revert x. induction l1 as [|a l1 IH]; intros x; simpl; [done|]. destruct (f a x); simpl; auto. Qed.

Lemma rfold_flat_map {E A B X} (f : A -> X -> Res E X) (g : B -> X -> Res E X) (h : B -> list A) l :
  Forall (fun b => forall x, g b x = rfold f (h b) x) l -> forall x, rfold g l x = rfold f (flat_map h l) x.
Proof.
  induction 1 as [|b l Hb _ IH]; intros x; simpl; [done|]. rewrite rfold_app, Hb.
  destruct (rfold f (h b) x); simpl; auto.
Qed.

Definition check_item (it : Item Ext) (captures : BTreeSet CaptureId) : Res (IrError Ext) (BTreeSet CaptureId) :=
  match it with
  | ICapture id => if decide (id ∈ captures) then Err (DuplicateCapture id) else Ok ({[id]} ∪ captures)
  | IRef id => let? _ := ok_or (MissingAssertion id) (assertions !! id) in Ok captures
  | IExt e => if decide (e ∈ admitted_extensions policy) then Ok captures else Err (UnsupportedExtension e)
  end.

Lemma validate_node_items n : forall c, validate_node assertions policy n c = rfold check_item (items n) c.
Proof.
  induction n as [s| |l Hl|l Hl|n b g IH|n IH|id n IH|a|id|e] using ir_ind; intros c; simpl; try done.
  - by apply rfold_flat_map.
  - by apply rfold_flat_map.
  - case_decide; simpl; auto.
  - by rewrite rbind_ret.
  - by rewrite rbind_ret.
Qed.

Definition item_error (it : Item Ext) : IrError Ext :=
  match it with
  | ICapture id => DuplicateCapture id
  | IRef id => MissingAssertion id
  | IExt e => UnsupportedExtension e
  end.

(** An item that passes, given the captures [seen] before it. *)
Definition item_ok (seen : CaptureId -> Prop) (it : Item Ext) : Prop :=
  match it with
  | ICapture id => ~ seen id
  | IRef id => is_Some (assertions !! id)
  | IExt e => e ∈ admitted_extensions policy
  end.

Lemma check_item_spec it c :
  match check_item it c with
  | Ok c' => item_ok (fun id => id ∈ c) it /\ forall id, id ∈ c' <-> it = ICapture id \/ id ∈ c
  | Err e => e = item_error it /\ ~ item_ok (fun id => id ∈ c) it
  | _ => False
  end.
Proof.
  destruct it as [id|id|e]; unfold check_item, item_ok.
  - case_decide; [by split; [|tauto]|]. split; [done|]. set_solver.
  - destruct (assertions !! id) as [d|] eqn:E; simpl.
    + split; [by eexists|]. intros x. split; [by right|by intros [?|?]].
    + split; [done|]. by intros [? ?].
  - case_decide; [|by split]. split; [done|]. intros x. split; [by right|by intros [?|?]].
Qed.

(** The items of a list that pass, and the first that does not. *)
Lemma check_items_spec L : forall c,
  match rfold check_item L c with
  | Ok _ => forall (l1 : list (Item Ext)) it l2, L = l1 ++ it :: l2 -> item_ok (fun id => id ∈ c \/ ICapture id ∈ l1) it
  | Err e => exists (l1 : list (Item Ext)) it l2, L = l1 ++ it :: l2 /\ e = item_error it /\ ~ item_ok (fun id => id ∈ c \/ ICapture id ∈ l1) it
  | _ => False
  end.
Proof.
  assert (forall it (c c' : BTreeSet CaptureId) (l : list (Item Ext)), (forall id, id ∈ c' <-> it = ICapture id \/ id ∈ c) -> forall it',
    item_ok (fun id => id ∈ c' \/ ICapture id ∈ l) it' <-> item_ok (fun id => id ∈ c \/ ICapture id ∈ it :: l) it') as Hshift.
  { intros it c c' l Hc [id|id|e]; simpl; [|done..]. rewrite Hc, elem_of_cons. naive_solver. }
  induction L as [|it L IH]; intros c; simpl; [by intros [] ? ? ?|].
  pose proof (check_item_spec it c) as Hit. destruct (check_item it c) as [c'|e| |]; simpl; try done.
  - destruct Hit as [Hok Hc]. specialize (IH c'). destruct (rfold _ _ _) as [a|e| |]; try done.
    + intros [|x l1] it' l2 [= -> ->].
      * destruct it' as [id|id|e]; simpl in *; [|done..]. by intros [?|[]%elem_of_nil].
      * apply (Hshift x c c' l1 Hc). by eapply IH.
    + destruct IH as (l1 & it' & l2 & -> & He & Hno). exists (it :: l1), it', l2. split; [done|]. split; [done|].
      by rewrite <- (Hshift it c c' l1 Hc).
  - destruct Hit as [-> Hno]. exists [], it, L. split; [done|]. split; [done|]. intros Hok. apply Hno.
    destruct it as [id|id|e]; simpl in *; [|done..]. intros ?. apply Hok. by left.
Qed.

Lemma elem_of_captures_in L id : id ∈ captures_in L <-> ICapture id ∈ L.
Proof.
  unfold captures_in. rewrite list_elem_of_omap. split; [intros ([x|x|x] & Hx & [=]); by subst|intros Hi; by exists (ICapture id)].
Qed.

(** Captures each of which is new are without duplicates. *)
Lemma NoDup_captures_in L : (forall l1 id l2, L = l1 ++ ICapture id :: l2 -> ICapture id ∉ l1) -> NoDup (captures_in L).
Proof.
  induction L as [|it L IH] using rev_ind; intros Hn; [constructor|]. unfold captures_in. rewrite omap_app.
  apply NoDup_app. split_and!.
  - apply IH. intros l1 id l2 ->. apply (Hn _ _ (l2 ++ [it])). by rewrite <- app_assoc.
  - intros id Hid%elem_of_captures_in Hit. destruct it as [x|x|x]; simpl in Hit; [|by apply elem_of_nil in Hit..].
    apply list_elem_of_singleton in Hit as ->. by apply (Hn L x []).
  - destruct it; simpl; [apply NoDup_singleton|constructor..].
Qed.

(** ** References between definitions *)

Lemma refs_flat_map l : omap (fun it => match it with IRef id => Some id | _ => None end) (flat_map items l) = flat_map refs l.
Proof. induction l as [|n l IH]; simpl; [done|]. by rewrite omap_app, IH. Qed.

Definition check_ref (fuel : nat) (path : list AssertionId) (id : AssertionId) (_ : unit) : Res (IrError Ext) unit :=
  validate_assertion_cycles assertions fuel (NAssertion id) path.

Lemma validate_cycles_refs fuel n : forall path,
  validate_assertion_cycles assertions fuel n path = rfold (check_ref fuel path) (refs n) ().
Proof.
  assert (forall l path, Forall (fun n => forall path, validate_assertion_cycles assertions fuel n path = rfold (check_ref fuel path) (refs n) ()) l ->
    rfold (fun n (_ : unit) => validate_assertion_cycles assertions fuel n path) l () = rfold (check_ref fuel path) (flat_map refs l) ()) as Hall.
  { intros l path Hl. apply rfold_flat_map. eapply Forall_impl; [done|]. intros m Hm []. apply Hm. }
  induction n as [s| |l Hl|l Hl|n b g IH|n IH|id n IH|a|id|e] using ir_ind; intros path.
  all: try (destruct fuel; reflexivity).
  - unfold refs. simpl. rewrite refs_flat_map, <- Hall by done. destruct fuel; reflexivity.
  - unfold refs. simpl. rewrite refs_flat_map, <- Hall by done. destruct fuel; reflexivity.
  - etrans; [|exact (IH path)]. by destruct fuel.
  - etrans; [|exact (IH path)]. by destruct fuel.
  - etrans; [|exact (IH path)]. by destruct fuel.
  - simpl. unfold check_ref. destruct (validate_assertion_cycles _ _ _ _) as [[]| | |]; done.
Qed.

Lemma rfold_unit {E A} (f : A -> unit -> Res E unit) l :
  match rfold f l () with
  | Ok _ => forall a, a ∈ l -> f a () = Ok ()
  | r => exists a, a ∈ l /\ f a () = r
  end.
Proof.
  induction l as [|a l IH]; simpl; [by intros ? ?%elem_of_nil|].
  destruct (f a ()) as [[]|e| |] eqn:Hf; simpl; [|by exists a; split; [left|]..].
  destruct (rfold f l ()) as [[]|e| |]; [by intros x [->|?]%elem_of_cons; auto|..];
    destruct IH as (x & ? & ?); exists x; (split; [by right|done]).
Qed.

Abbreviation uses := (parent_of referenced).

(** The path of definitions entered so far. *)
Record PathOk (path : list AssertionId) (fuel : nat) : Prop := {
  po_nodup : NoDup path;
  po_defined : forall id, id ∈ path -> is_Some (assertions !! id);
  po_fuel : size assertions <= length path + fuel;
}.

Lemma path_full path fuel id : PathOk path fuel -> id ∉ path -> is_Some (assertions !! id) -> 0 < fuel.
Proof.
  intros [Hn Hd Hf] Hi Hs. assert (length (id :: path) <= size assertions); [|simpl in *; lia].
  rewrite <- size_dom, <- (size_list_to_set (C := gset N) (id :: path)) by by constructor.
  apply subseteq_size. intros x. rewrite elem_of_list_to_set, elem_of_cons, elem_of_dom.
  intros [->|Hx]; [done|by apply Hd].
Qed.

Lemma path_push path fuel id : PathOk path (S fuel) -> id ∉ path -> is_Some (assertions !! id) -> PathOk (path ++ [id]) fuel.
Proof.
  intros [Hn Hd Hf] Hi Hs. split.
  - apply NoDup_app. split; [done|]. split; [|apply NoDup_singleton]. by intros x Hx ->%list_elem_of_singleton.
  - intros x [Hx| ->%list_elem_of_singleton]%elem_of_app; auto.
  - rewrite length_app. change (length [id]) with 1. lia.
Qed.

Lemma found_cycle path start id : path !! start = Some id -> linked referenced (path ++ [id]) ->
  is_cycle referenced (drop start path ++ [id]).
Proof.
  intros Hs Hl. pose proof (lookup_lt_Some _ _ _ Hs) as Hlt. exists id. rewrite (drop_S _ _ _ Hs). simpl.
  split; [done|]. split; [by rewrite app_comm_cons, last_snoc|]. rewrite length_app. simpl. split; [lia|].
  change (linked referenced ((id :: drop (S start) path) ++ [id])). rewrite <- (drop_S _ _ _ Hs), <- drop_app_le by lia.
  by apply linked_drop.
Qed.

Lemma check_ref_eq fuel path id : check_ref fuel path id () =
  match list_find (fun seen => seen = id) path with
  | Some (start, _) => Err (AssertionCycle (drop start path ++ [id]))
  | None =>
    let? definition := ok_or (MissingAssertion id) (assertions !! id) in
    match fuel with 0 => NoFuel | S fuel => validate_assertion_cycles assertions fuel definition (path ++ [id]) end
  end.
Proof. by destruct fuel. Qed.

Lemma cycles_spec : (forall id id', id' ∈ referenced id -> is_Some (assertions !! id')) ->
  forall fuel n path, PathOk path fuel -> (forall id, id ∈ refs n -> is_Some (assertions !! id) /\ linked referenced (path ++ [id])) ->
  match validate_assertion_cycles assertions fuel n path with
  | Ok _ => forall id id', id ∈ refs n -> rtc uses id id' -> id' ∉ path
  | Err e => exists p, e = AssertionCycle p /\ is_cycle referenced p
  | _ => False
  end.
Proof.
  intros Hdef. induction fuel as [fuel IHf] using (well_founded_induction lt_wf). intros n path Hp Hr.
  rewrite validate_cycles_refs.
  assert (forall id, id ∈ refs n ->
    match check_ref fuel path id () with
    | Ok _ => forall id', rtc uses id id' -> id' ∉ path
    | Err e => exists p, e = AssertionCycle p /\ is_cycle referenced p
    | _ => False
    end) as Hid.
  { intros id [[d Hd] Hl]%Hr. assert (is_Some (assertions !! id)) as Hsd by by eexists.
    rewrite check_ref_eq. destruct (list_find (fun seen => seen = id) path) as [[start x]|] eqn:Hf.
    { pose proof Hf as [Hx [-> _]]%list_find_Some. eauto using found_cycle. }
    pose proof Hf as Hni%list_find_None. assert (id ∉ path) as Hnp by by rewrite Forall_forall in Hni; intros ?%Hni.
    pose proof (path_full _ _ _ Hp Hnp Hsd) as Hpos. destruct fuel as [|fuel]; [lia|].
    rewrite Hd. cbn [ok_or rbind].
    specialize (IHf fuel ltac:(lia) d (path ++ [id]) (path_push _ _ _ Hp Hnp Hsd)).
    assert (forall id2, id2 ∈ refs d -> id2 ∈ referenced id) as Href by (intros ? ?; unfold referenced; by rewrite Hd).
    destruct (validate_assertion_cycles _ _ _ _) as [[]|e| |].
    2-4: apply IHf; intros id2 H2; split; [by eapply Hdef, Href|apply linked_snoc; [done|]];
      rewrite last_snoc; intros ? [= <-]; by apply Href.
    intros id' Hrt. inversion Hrt as [|? y ? Hy Hyr]; subst; [done|]. unfold parent_of, referenced in Hy. rewrite Hd in Hy.
    intros Hin. eapply IHf; [|exact Hy|exact Hyr|by apply elem_of_app; left].
    intros id2 H2; split; [by eapply Hdef, Href|apply linked_snoc; [done|]].
    rewrite last_snoc; intros ? [= <-]; by apply Href. }
  pose proof (rfold_unit (check_ref fuel path) (refs n)) as Hfold.
  destruct (rfold _ _ _) as [[]|e| |].
  - intros id id' Hi. specialize (Hid id Hi). rewrite (Hfold id Hi) in Hid. apply Hid.
  - destruct Hfold as (id & Hi & He). specialize (Hid id Hi). by rewrite He in Hid.
  - destruct Hfold as (id & Hi & He). specialize (Hid id Hi). by rewrite He in Hid.
  - destruct Hfold as (id & Hi & He). specialize (Hid id Hi). by rewrite He in Hid.
Qed.

Lemma linked_tc l : forall x y z, linked referenced (x :: y :: l) -> last (y :: l) = Some z -> tc uses x z.
Proof.
  induction l as [|w l IH]; intros x y z [Hu Hlk] Hl; [injection Hl as ->; by apply tc_once|].
  eapply tc_l; [exact Hu|]. by apply IH with w.
Qed.

Lemma is_cycle_tc path : is_cycle referenced path -> exists id, tc uses id id.
Proof.
  intros (id & Hh & Hl & Hlen & Hlk). destruct path as [|x [|y path]]; simpl in Hlen; [lia..|].
  injection Hh as ->. eauto using linked_tc.
Qed.

Lemma elem_of_refs n id : id ∈ refs n <-> IRef id ∈ items n.
Proof.
  unfold refs. rewrite list_elem_of_omap. split; [intros ([x|x|x] & Hx & [=]); by subst|intros Hi; by exists (IRef id)].
Qed.

Lemma definition_items root id d it : assertions !! id = Some d -> it ∈ items d -> it ∈ all_items root.
Proof.
  intros Hd Hit. unfold all_items. apply elem_of_app. right. apply list_elem_of_In, in_flat_map. exists d.
  split; [|by apply list_elem_of_In]. apply list_elem_of_In. unfold map_values. apply list_elem_of_fmap.
  exists (id, d). split; [done|]. by apply elem_of_map_entries.
Qed.

(** The checks of all items together. *)
Lemma validate_all root :
  rbind (rfold (validate_node assertions policy) (map_values assertions)) (validate_node assertions policy root ∅) =
  rfold check_item (all_items root) ∅.
Proof.
  unfold all_items. rewrite rfold_app, validate_node_items. destruct (rfold check_item (items root) ∅); simpl; try done.
  apply rfold_flat_map. apply Forall_forall. intros n _. apply validate_node_items.
Qed.

Lemma all_items_spec root :
  match rfold check_item (all_items root) ∅ with
  | Ok _ => NoDup (captures_in (all_items root)) /\ (forall id, IRef id ∈ all_items root -> is_Some (assertions !! id)) /\
      (forall e, IExt e ∈ all_items root -> e ∈ admitted_extensions policy)
  | Err e => ir_refusal root e /\ ~ ValidIr root
  | _ => False
  end.
Proof.
  pose proof (check_items_spec (all_items root) ∅) as Hs. destruct (rfold _ _ _) as [c|e| |]; try done.
  - split_and!.
    + apply NoDup_captures_in. intros l1 id l2 Hl Hin. apply (Hs _ _ _ Hl). by right.
    + intros id (l1 & l2 & Hl)%list_elem_of_split. exact (Hs _ _ _ Hl).
    + intros x (l1 & l2 & Hl)%list_elem_of_split. exact (Hs _ _ _ Hl).
  - destruct Hs as (l1 & it & l2 & Hl & -> & Hno). assert (it ∈ all_items root) as Hin by (rewrite Hl; set_solver).
    destruct it as [id|id|x]; cbn [item_ok item_error ir_refusal] in *.
    + assert (ICapture id ∈ l1) as H1 by (destruct (decide (ICapture id ∈ l1)) as [|Hn]; [done|];
        exfalso; apply Hno; intros [?%elem_of_empty|?]; done).
      split; [by exists l1, l2|]. intros [Hnd _ _ _]. rewrite Hl in Hnd. unfold captures_in in Hnd. rewrite omap_app in Hnd.
      apply NoDup_app in Hnd as (_ & Hd & _). apply (Hd id); [by apply elem_of_captures_in|by left].
    + rewrite <- eq_None_not_Some in Hno. split; [done|]. intros [_ Hr _ _]. apply Hr in Hin as [? ?]. congruence.
    + split; [done|]. intros [_ _ He _]. auto.
Qed.

Lemma path_one id d : assertions !! id = Some d -> PathOk [id] (size assertions).
Proof.
  intros Hd. split; [apply NoDup_singleton| |].
  - intros x ->%list_elem_of_singleton. by eexists.
  - apply Nat.le_add_l.
Qed.

Lemma new_pattern_facts root :
  match new_pattern root assertions policy with
  | Ok ir => ir = {| ir_root := root; ir_assertions := assertions |} /\ ValidIr root
  | Err e => ir_refusal root e /\ ~ ValidIr root
  | _ => False
  end.
Proof.
  pose proof (all_items_spec root) as Hitems. unfold new_pattern. rewrite <- validate_all in Hitems.
  destruct (validate_node assertions policy root ∅) as [c|e| |]; cbn [rbind] in Hitems |- *; try done.
  destruct (rfold (validate_node assertions policy) (map_values assertions) c) as [c'|e| |]; cbn [rbind] in Hitems |- *; try done.
  destruct Hitems as (Hnd & Hrefs & Hexts).
  assert (forall id id', id' ∈ referenced id -> is_Some (assertions !! id')) as Hdef.
  { intros id id'. unfold referenced. destruct (assertions !! id) as [d|] eqn:Hd; [|by intros ?%elem_of_nil].
    intros Hi%elem_of_refs. eapply Hrefs, definition_items; eauto. }
  assert (forall e, (exists p, e = AssertionCycle p /\ is_cycle referenced p) -> ir_refusal root e /\ ~ ValidIr root) as Hcyc.
  { intros e (p & -> & Hp). split; [exact Hp|]. intros [_ _ _ Ha]. apply is_cycle_tc in Hp as [id Hid]. by apply (Ha id). }
  assert (PathOk [] (size assertions)) as Hp0 by (split; [constructor|by intros ? ?%elem_of_nil|done]).
  pose proof (cycles_spec Hdef (size assertions) root [] Hp0) as Hroot. specialize (Hroot ltac:(intros id Hi; split; [|done];
    apply Hrefs; unfold all_items; apply elem_of_app; left; by apply elem_of_refs)).
  destruct (validate_assertion_cycles assertions (size assertions) root []) as [[]|e| |]; cbn [rbind]; auto.
  pose proof (rfold_unit (fun '(id, d) (_ : unit) => validate_assertion_cycles assertions (size assertions) d [id]) (map_entries assertions)) as Hfold.
  assert (forall id d, assertions !! id = Some d ->
    match validate_assertion_cycles assertions (size assertions) d [id] with
    | Ok _ => forall x y, x ∈ refs d -> rtc uses x y -> y ∉ [id]
    | Err e => exists p, e = AssertionCycle p /\ is_cycle referenced p
    | _ => False
    end) as Hent.
  { intros id d Hd. apply (cycles_spec Hdef); [by eapply path_one|]. intros x Hx. split.
    - apply (Hdef id). unfold referenced. by rewrite Hd.
    - simpl. split; [|done]. unfold parent_of, referenced. by rewrite Hd. }
  destruct (rfold _ (map_entries assertions) ()) as [[]|e| |]; cbn [rbind].
  2-4: destruct Hfold as ([id d] & Hd%elem_of_map_entries & Hr); specialize (Hent id d Hd); rewrite Hr in Hent; by auto.
  split; [done|]. split; [done..|]. intros id Hid.
  assert (exists x, uses id x /\ rtc uses x id) as (x & Hx & Hrt) by (inversion Hid; eauto using tc_rtc, rtc_refl).
  unfold parent_of, referenced in Hx. destruct (assertions !! id) as [d|] eqn:Hd; [|by apply elem_of_nil in Hx].
  specialize (Hent id d Hd). rewrite (Hfold (id, d)) in Hent by by apply elem_of_map_entries.
  eapply Hent; [exact Hx|exact Hrt|by left].
Qed.

(** Building a pattern accepts exactly the expressions whose captures are
    all different, whose assertion references are defined and never lead back
    to themselves, and whose extensions the engine admits; a refusal names a
    repeated capture, an undefined reference, a real cycle of references or an
    extension that is not admitted. *)
Theorem new_pattern_spec root :
  match new_pattern root assertions policy with
  | Ok ir => ir = {| ir_root := root; ir_assertions := assertions |} /\ ValidIr root
  | Err e => ir_refusal root e /\ ~ ValidIr root
  | _ => False
  end.
Proof. apply new_pattern_facts. Qed.
End ValidateSpec.
