(* ===== verification/PatternCompile.v ===== *)
(** * Compilation of patterns

    crates/sim-lib-pattern/src/compile.rs: the tagged Thompson construction.
    [Builder::push] aborts when the table outgrows 32-bit identifiers; the
    identifiers are positions of the table otherwise. *)

From S2P Require Import Prelude BTree PatternIr.

Abbreviation StateId := nat (only parsing).

Definition u32_max : N := 4294967295.

Inductive TagBoundary := TagStart | TagEnd.

Inductive Instruction (Sym Ext : Type) :=
| IAccept
| IEpsilon (next : StateId)
| ISymbol (symbol : Sym) (next : StateId)
| IAny (next : StateId)
| IExtension (extension : Ext) (next : StateId)
| ISplit (alternatives : list StateId)
| ITag (capture : CaptureId) (boundary : TagBoundary) (next : StateId)
| IAnchor (anchor : AnchorKind) (next : StateId)
| IAssertion (assertion : AssertionId) (next : StateId)
| IRepeat (body exit : StateId) (min : N) (max : option N) (greedy : bool).

Arguments IAccept {Sym Ext}.
Arguments IEpsilon {Sym Ext} next.
Arguments ISymbol {Sym Ext} symbol next.
Arguments IAny {Sym Ext} next.
Arguments IExtension {Sym Ext} extension next.
Arguments ISplit {Sym Ext} alternatives.
Arguments ITag {Sym Ext} capture boundary next.
Arguments IAnchor {Sym Ext} anchor next.
Arguments IAssertion {Sym Ext} assertion next.
Arguments IRepeat {Sym Ext} body exit min max greedy.

Record State (Sym Ext : Type) := {
  s_id : StateId;
  s_instruction : Instruction Sym Ext;
}.

Arguments s_id {Sym Ext} _.
Arguments s_instruction {Sym Ext} _.

Record CompilationEvidence := {
  ev_state_count : N;
  ev_capture_count : N;
  ev_estimated_work_per_symbol : N;
}.

(** [Automaton] and [AssertionProgram]. *)
Inductive Automaton (Sym Ext : Type) := MkAutomaton {
  a_start : StateId;
  a_states : list (State Sym Ext);
  a_evidence : CompilationEvidence;
  a_assertions : gmap AssertionId (AssertionProgram Sym Ext);
}
with AssertionProgram (Sym Ext : Type) := MkProgram {
  p_automaton : Automaton Sym Ext;
  p_width : N;
}.

Arguments MkAutomaton {Sym Ext}.
Arguments a_start {Sym Ext} _.
Arguments a_states {Sym Ext} _.
Arguments a_evidence {Sym Ext} _.
Arguments a_assertions {Sym Ext} _.
Arguments MkProgram {Sym Ext}.
Arguments p_automaton {Sym Ext} _.
Arguments p_width {Sym Ext} _.

Definition checked_mul (a b : N) : option N :=
  if (usize_max <? a * b)%N then None else Some (a * b)%N.

Section Compile.
Context {Sym Ext : Type}.
Implicit Types (n : IrNode Sym Ext) (states : list (State Sym Ext)) (i : Instruction Sym Ext).

(** [try_fold(0, |sum, node| sum.checked_add(fixed_width(node)?))]. *)
Definition sum_widths (f : IrNode Sym Ext -> option N) : N -> list (IrNode Sym Ext) -> option N :=
  fix go sum l :=
    match l with
    | [] => Some sum
    | n :: l => match f n with Some w => match checked_add sum w with Some sum => go sum l | None => None end | None => None end
    end.

(** [fixed_width]: the number of symbols every match consumes, when that is
    evident and fits. *)
Fixpoint fixed_width n : option N :=
  match n with
  | NSymbol _ | NAny | NExtension _ => Some 1%N
  | NAnchor _ => Some 0%N
  | NAssertion _ => None
  | NConcat nodes => sum_widths fixed_width 0%N nodes
  | NAlternation nodes =>
    match nodes with
    | [] => None
    | n :: rest =>
      match fixed_width n with
      | Some first => if forallb (fun n => bool_decide (fixed_width n = Some first)) rest then Some first else None
      | None => None
      end
    end
  | NRepeat node bounds _ =>
    if decide (rb_max bounds = Some (rb_min bounds)) then
      match fixed_width node with Some w => checked_mul w (rb_min bounds) | None => None end
    else None
  | NGroup node | NCapture _ node => fixed_width node
  end.

(** [Builder::push]. *)
Definition push i states : Res Empty_set (StateId * list (State Sym Ext)) :=
  let id := length states in
  if (u32_max <? N.of_nat id)%N then Panic else Ok (id, states ++ [{| s_id := id; s_instruction := i |}]).

(** Replacing the instruction of a state: [self.states[id].instruction = ..]. *)
Definition set_instruction (id : StateId) i states : Res Empty_set (list (State Sym Ext)) :=
  let? s := expect (states !! id) in
  Ok (<[id := {| s_id := s_id s; s_instruction := i |}]> states).

(** [nodes.iter().rev().fold(next, ..)]. *)
Definition build_concat (f : IrNode Sym Ext -> StateId -> list (State Sym Ext) -> Res Empty_set (StateId * list (State Sym Ext))) :=
  fix go (l : list (IrNode Sym Ext)) (next : StateId) (states : list (State Sym Ext)) : Res Empty_set (StateId * list (State Sym Ext)) :=
    match l with
    | [] => Ok (next, states)
    | n :: l => let? (tail, states) := go l next states in f n tail states
    end.

(** [nodes.iter().map(..).collect()]. *)
Definition build_all (f : IrNode Sym Ext -> StateId -> list (State Sym Ext) -> Res Empty_set (StateId * list (State Sym Ext))) :=
  fix go (l : list (IrNode Sym Ext)) (next : StateId) (states : list (State Sym Ext)) : Res Empty_set (list StateId * list (State Sym Ext)) :=
    match l with
    | [] => Ok ([], states)
    | n :: l =>
      let? (id, states) := f n next states in
      let? (ids, states) := go l next states in
      Ok (id :: ids, states)
    end.

(** [Builder::node]. *)
Fixpoint build_node n (next : StateId) states : Res Empty_set (StateId * list (State Sym Ext)) :=
  match n with
  | NSymbol symbol => push (ISymbol symbol next) states
  | NAny => push (IAny next) states
  | NConcat nodes => build_concat build_node nodes next states
  | NAlternation nodes =>
    let? (alternatives, states) := build_all build_node nodes next states in
    push (ISplit alternatives) states
  | NRepeat node bounds greedy =>
    let? (repeat, states) := push (IEpsilon next) states in
    let? (body, states) := build_node node repeat states in
    let? states := set_instruction repeat (IRepeat body next (rb_min bounds) (rb_max bounds) greedy) states in
    Ok (repeat, states)
  | NGroup node => build_node node next states
  | NCapture id node =>
    let? (end_, states) := push (ITag id TagEnd next) states in
    let? (body, states) := build_node node end_ states in
    push (ITag id TagStart body) states
  | NAnchor anchor => push (IAnchor anchor next) states
  | NAssertion assertion => push (IAssertion assertion next) states
  | NExtension extension => push (IExtension extension next) states
  end.

(** [compile_node]. *)
Definition compile_node n : Res Empty_set (Automaton Sym Ext) :=
  let? (accept, states) := push IAccept [] in
  let? (start, states) := build_node n accept states in
  Ok {| a_start := start; a_states := states;
        a_evidence := {| ev_state_count := len states; ev_capture_count := 0; ev_estimated_work_per_symbol := len states |};
        a_assertions := ∅ |}.

Definition is_tag_start (s : State Sym Ext) : bool :=
  match s_instruction s with ITag _ TagStart _ => true | _ => false end.

(** The [filter_map] over the assertions: those of fixed width are compiled. *)
Fixpoint compile_assertions (l : list (AssertionId * IrNode Sym Ext)) : Res Empty_set (list (AssertionId * AssertionProgram Sym Ext)) :=
  match l with
  | [] => Ok []
  | (id, node) :: l =>
    match fixed_width node with
    | None => compile_assertions l
    | Some width =>
      let? a := compile_node node in
      let? rest := compile_assertions l in
      Ok ((id, {| p_automaton := a; p_width := width |}) :: rest)
    end
  end.

Definition compile (ir : PatternIr Sym Ext) : Res Empty_set (Automaton Sym Ext) :=
  let? (accept, states) := push IAccept [] in
  let? (start, states) := build_node (ir_root ir) accept states in
  let capture_count := len (List.filter is_tag_start states) in
  let? assertions := compile_assertions (map_entries (ir_assertions ir)) in
  let assertion_state_count := foldr N.add 0%N ((fun '(_, p) => ev_state_count (a_evidence (p_automaton p))) <$> assertions) in
  Ok {| a_start := start; a_states := states;
        a_evidence := {| ev_state_count := len states + assertion_state_count; ev_capture_count := capture_count;
                         ev_estimated_work_per_symbol := len states + assertion_state_count |};
        a_assertions := list_to_map assertions |}.
End Compile.
