(* ===== verification/PatternExecute.v ===== *)
(** * Execution of patterns

    crates/sim-lib-pattern/src/execute.rs and the limits of text_vm.rs: the
    iterative search over states, positions and repeat counters.  The worklist
    is a stack whose head is the entry that is popped next.  Offsets are [nat],
    charged quantities and repeat counters are [N].

    The fuel of the loop bounds the entries that can be popped: every entry that
    is not skipped costs a transition and pushes at most as many entries as the
    widest state has successors.  The fuel of the recursion into assertion
    programs bounds their nesting, which is one for compiled patterns. *)

From stdpp Require Import relations.
From S2P Require Import Prelude BTree PatternIr PatternCompile.

Record CaptureSpan := {
  cs_start : nat;
  cs_end : nat;
}.

Record ExecutionMatch := {
  em_start : nat;
  em_end : nat;
  em_captures : BTreeMap CaptureId CaptureSpan;
}.

Inductive ExecutionLimit := LimitStates | LimitTransitions | LimitCaptureHistory | LimitSubject.

Record ExecutionReceipt := {
  r_state_count : N;
  r_state_visits : N;
  r_transitions : N;
  r_capture_history : N;
  r_subject_symbols : N;
}.

(** [UnsupportedFeature] has a single constructor. *)
Inductive UnsupportedFeature := VariableWidthAssertion (id : AssertionId).

Inductive ExecutionOutcome :=
| OMatch (matched : ExecutionMatch) (receipt : ExecutionReceipt)
| ONoMatch (receipt : ExecutionReceipt)
| OLimit (limit : ExecutionLimit) (receipt : ExecutionReceipt)
| OUnsupported (feature : UnsupportedFeature) (receipt : ExecutionReceipt).

Record TextLimits := {
  max_steps : N;
  max_states : N;
  max_capture_history : N;
  max_subject_symbols : N;
}.

(** [TextLimits::default]. *)
Definition default_text_limits : TextLimits :=
  {| max_steps := 10000; max_states := 4096; max_capture_history := 10000; max_subject_symbols := 1000000 |}.

Record History := {
  h_open : BTreeMap CaptureId nat;
  h_closed : BTreeMap CaptureId CaptureSpan;
}.

Definition empty_history : History := {| h_open := ∅; h_closed := ∅ |}.

Record Thread := {
  t_start : nat;
  t_state : StateId;
  t_repeats : BTreeMap StateId N;
  t_history : History;
}.

(** The two boundaries of a capture. *)
Definition open_tag (id : CaptureId) (position : nat) (h : History) : History :=
  {| h_open := <[id := position]> (h_open h); h_closed := h_closed h |}.

Definition close_tag (id : CaptureId) (position : nat) (h : History) : History :=
  match h_open h !! id with
  | Some start => {| h_open := delete id (h_open h); h_closed := <[id := {| cs_start := start; cs_end := position |}]> (h_closed h) |}
  | None => h
  end.

Definition with_history (t : Thread) (h : History) : Thread :=
  {| t_start := t_start t; t_state := t_state t; t_repeats := t_repeats t; t_history := h |}.

Definition with_repeats (t : Thread) (r : BTreeMap StateId N) : Thread :=
  {| t_start := t_start t; t_state := t_state t; t_repeats := r; t_history := t_history t |}.

(** [push_at]: the entry that is pushed. *)
Definition at_state (position : nat) (t : Thread) (state : StateId) : nat * Thread :=
  (position, {| t_start := t_start t; t_state := state; t_repeats := t_repeats t; t_history := t_history t |}).

Definition add_visit (r : ExecutionReceipt) : ExecutionReceipt :=
  {| r_state_count := r_state_count r; r_state_visits := r_state_visits r + 1; r_transitions := r_transitions r;
     r_capture_history := r_capture_history r; r_subject_symbols := r_subject_symbols r |}.

Definition add_transition (r : ExecutionReceipt) : ExecutionReceipt :=
  {| r_state_count := r_state_count r; r_state_visits := r_state_visits r; r_transitions := r_transitions r + 1;
     r_capture_history := r_capture_history r; r_subject_symbols := r_subject_symbols r |}.

Definition add_capture (r : ExecutionReceipt) : ExecutionReceipt :=
  {| r_state_count := r_state_count r; r_state_visits := r_state_visits r; r_transitions := r_transitions r;
     r_capture_history := r_capture_history r + 1; r_subject_symbols := r_subject_symbols r |}.

Definition add_nested (r nested : ExecutionReceipt) : ExecutionReceipt :=
  {| r_state_count := r_state_count r; r_state_visits := r_state_visits r + r_state_visits nested;
     r_transitions := r_transitions r + r_transitions nested;
     r_capture_history := r_capture_history r + r_capture_history nested; r_subject_symbols := r_subject_symbols r |}.

(** What remains of the limits for an assertion. *)
Definition remaining_limits (limits : TextLimits) (r : ExecutionReceipt) : TextLimits :=
  {| max_steps := saturating_sub (max_steps limits) (r_transitions r); max_states := max_states limits;
     max_capture_history := saturating_sub (max_capture_history limits) (r_capture_history r);
     max_subject_symbols := max_subject_symbols limits |}.

(** One turn of the loop: it stops, or pushes entries (the first is on top). *)
Inductive Turn :=
| TStop (o : ExecutionOutcome)
| TPush (entries : list (nat * Thread)) (r : ExecutionReceipt).

Section Execute.
Context {Sym Ext : Type} `{EqDecision Sym}.
Context (extension_match : Ext -> list Sym -> nat -> option nat).
Implicit Types (a : Automaton Sym Ext) (subject : list Sym) (r : ExecutionReceipt).

(** The identity of a repeat counter: exact under a maximum, else up to the
    minimum. *)
Definition collapse (min : N) (max : option N) (count : N) : N :=
  match max with Some _ => count | None => N.min count min end.

Definition repeat_identity a (t : Thread) : list (StateId * N) :=
  omap (fun '(state, count) =>
    match a_states a !! state with
    | Some s => match s_instruction s with IRepeat _ _ min max _ => Some (state, collapse min max count) | _ => None end
    | None => None
    end) (map_entries (t_repeats t)).

Definition holds_at (anchor : AnchorKind) subject (position : nat) : bool :=
  match anchor with SubjectStart => position =? 0 | SubjectEnd => position =? length subject end.

(** [subject.get(position..end)]. *)
Definition window subject (position : nat) (end_ : N) : option (list Sym) :=
  if ((N.of_nat (length subject) <? end_) || (end_ <? N.of_nat position))%N then None else Some (take (N.to_nat end_ - position) (drop position subject)).

Definition turn (execute : Automaton Sym Ext -> list Sym -> TextLimits -> Res Empty_set ExecutionOutcome)
    a subject (limits : TextLimits) r (position : nat) (t : Thread) (i : Instruction Sym Ext) : Res Empty_set Turn :=
  match i with
  | IAccept => Ok (TStop (OMatch {| em_start := t_start t; em_end := position; em_captures := h_closed (t_history t) |} r))
  | ISymbol symbol next =>
    Ok (TPush (if decide (subject !! position = Some symbol) then [at_state (S position) t next] else []) r)
  | IAny next => Ok (TPush (if position <? length subject then [at_state (S position) t next] else []) r)
  | IExtension extension next =>
    Ok (TPush
      match extension_match extension subject position with
      | Some end_ => if (position <=? end_) && (end_ <=? length subject) then [at_state end_ t next] else []
      | None => []
      end r)
  | IEpsilon next => Ok (TPush [at_state position t next] r)
  | ISplit alternatives => Ok (TPush (at_state position t <$> alternatives) r)
  | ITag capture boundary next =>
    if (r_capture_history r =? max_capture_history limits)%N then Ok (TStop (OLimit LimitCaptureHistory r))
    else
      let h := match boundary with
        | TagStart => open_tag capture position (t_history t)
        | TagEnd => close_tag capture position (t_history t)
        end in
      Ok (TPush [at_state position (with_history t h) next] (add_capture r))
  | IAnchor anchor next => Ok (TPush (if holds_at anchor subject position then [at_state position t next] else []) r)
  | IRepeat body exit min max greedy =>
    let count := default 0%N (t_repeats t !! t_state t) in
    let can_repeat := match max with Some m => (count <? m)%N | None => true end in
    let can_exit := (min <=? count)%N in
    let bodies := if can_repeat then [at_state position (with_repeats t (<[t_state t := (count + 1)%N]> (t_repeats t))) body] else [] in
    let exits := if can_exit then [at_state position (with_repeats t (delete (t_state t) (t_repeats t))) exit] else [] in
    Ok (TPush (if greedy : bool then bodies ++ exits else exits ++ bodies) r)
  | IAssertion assertion next =>
    match a_assertions a !! assertion with
    | None => Ok (TStop (OUnsupported (VariableWidthAssertion assertion) r))
    | Some program =>
      match window subject position (saturating_add (N.of_nat position) (p_width program)) with
      | None => Ok (TPush [] r)
      | Some w =>
        let? o := execute (p_automaton program) w (remaining_limits limits r) in
        Ok match o with
        | OMatch matched nested =>
          if em_end matched =? length w then TPush [at_state position t next] (add_nested r nested) else TPush [] r
        | OLimit limit nested => TStop (OLimit limit (add_nested r nested))
        | ONoMatch _ | OUnsupported _ _ => TPush [] r
        end
      end
    end
  end.

(** The keys of the [seen] set. *)
Abbreviation Key := (nat * StateId * list (StateId * N))%type.

Definition key_of a (position : nat) (t : Thread) : Key := (position, t_state t, repeat_identity a t).

Fixpoint exec_loop (fuel : nat) (execute : Automaton Sym Ext -> list Sym -> TextLimits -> Res Empty_set ExecutionOutcome)
    a subject (limits : TextLimits) r (seen : gset Key) (stack : list (nat * Thread)) : Res Empty_set ExecutionOutcome :=
  match fuel with
  | 0 => NoFuel
  | S fuel =>
    match stack with
    | [] => Ok (ONoMatch r)
    | (position, t) :: rest =>
      let r := add_visit r in
      if decide (key_of a position t ∈ seen) then exec_loop fuel execute a subject limits r seen rest
      else
        let seen := {[key_of a position t]} ∪ seen in
        match a_states a !! t_state t with
        | None => exec_loop fuel execute a subject limits r seen rest
        | Some s =>
          let? o := turn execute a subject limits r position t (s_instruction s) in
          match o with
          | TStop o => Ok o
          | TPush entries r =>
            let r := add_transition r in
            if (max_steps limits <=? r_transitions r)%N then Ok (OLimit LimitTransitions r)
            else exec_loop fuel execute a subject limits r seen (entries ++ rest)
          end
        end
    end
  end.

Definition fan_out (s : State Sym Ext) : nat :=
  match s_instruction s with ISplit alternatives => length alternatives | _ => 2 end.

Definition exec_fuel a (starts : nat) (limits : TextLimits) : nat :=
  S (starts + N.to_nat (max_steps limits) * foldr Nat.max 2 (fan_out <$> a_states a)).

Definition start_receipt a subject : ExecutionReceipt :=
  {| r_state_count := ev_state_count (a_evidence a); r_state_visits := 0; r_transitions := 0;
     r_capture_history := 0; r_subject_symbols := len subject |}.

Definition start_thread a (start : nat) : nat * Thread :=
  (start, {| t_start := start; t_state := a_start a; t_repeats := ∅; t_history := empty_history |}).

(** [execute_regular_inner]: [starts] is the range of start offsets in order. *)
Fixpoint execute_inner (depth : nat) a subject (starts : list nat) (limits : TextLimits) : Res Empty_set ExecutionOutcome :=
  match depth with
  | 0 => NoFuel
  | S depth =>
    let r := start_receipt a subject in
    if (max_states limits <? r_state_count r)%N then Ok (OLimit LimitStates r)
    else if (max_subject_symbols limits <? r_subject_symbols r)%N then Ok (OLimit LimitSubject r)
    else exec_loop (exec_fuel a (length starts) limits) (fun a subject limits => execute_inner depth a subject [0] limits)
      a subject limits r ∅ (start_thread a <$> starts)
  end.

(** Programs of assertions have no assertions of their own. *)
Definition exec_depth : nat := 2.

Definition execute_spanning a subject (limits : TextLimits) : Res Empty_set ExecutionOutcome :=
  execute_inner exec_depth a subject [0] limits.

(** [init..=subject.len()]. *)
Definition search_starts (init : nat) subject : list nat := seq init (S (length subject) - init).

Definition search_spanning a subject (init : nat) (limits : TextLimits) : Res Empty_set ExecutionOutcome :=
  execute_inner exec_depth a subject (search_starts init subject) limits.
End Execute.

Section Regular.
Context {Sym Ext : Type} `{EqDecision Sym} (extension_matches : Ext -> Sym -> bool).

(** The extension callback of the regular entry points. *)
Definition single_match (extension : Ext) (subject : list Sym) (position : nat) : option nat :=
  match subject !! position with
  | Some symbol => if extension_matches extension symbol then Some (S position) else None
  | None => None
  end.

Definition execute_regular (a : Automaton Sym Ext) (subject : list Sym) (limits : TextLimits) : Res Empty_set ExecutionOutcome :=
  execute_spanning single_match a subject limits.

Definition search_regular (a : Automaton Sym Ext) (subject : list Sym) (init : nat) (limits : TextLimits) : Res Empty_set ExecutionOutcome :=
  if length subject <? init then Ok (ONoMatch (start_receipt a subject))
  else search_spanning single_match a subject init limits.
End Regular.

(** ** What a pattern matches

    The reference meaning of pattern expressions: [parse subject n (i, c) (j, c')]
    says that [n] matches the symbols of [subject] from offset [i] to offset [j]
    and turns the captures [c] into [c'].  It is defined by recursion on the
    expression, without automata, counters or search.

    [fixed_width_parse] shows that the width computed for assertions is the
    width of every match. *)

Abbreviation Captures := (BTreeMap CaptureId CaptureSpan).

(** An offset of the subject with the captures made so far. *)
Abbreviation Point := (nat * Captures)%type.

Definition seq_rel {A} (R Q : relation A) : relation A := fun x z => exists y, R x y /\ Q y z.

Definition in_bounds (b : RepeatBounds) (k : nat) : Prop :=
  (rb_min b <= N.of_nat k)%N /\ match rb_max b with Some m => (N.of_nat k <= m)%N | None => True end.

Lemma checked_mul_Some (a b c : N) : checked_mul a b = Some c -> c = (a * b)%N.
Proof. unfold checked_mul. destruct (_ <? _)%N; naive_solver. Qed.

Section Semantics.
Context {Sym Ext : Type} (ext : Ext -> list Sym -> nat -> option nat).
Context (asserted : AssertionId -> list Sym -> nat -> Prop).
Implicit Types (n : IrNode Sym Ext) (subject : list Sym).

Fixpoint parse subject n : relation Point :=
  match n with
  | NSymbol s => fun x y => subject !! x.1 = Some s /\ y = (S x.1, x.2)
  | NAny => fun x y => x.1 < length subject /\ y = (S x.1, x.2)
  | NConcat nodes => foldr (fun n R => seq_rel (parse subject n) R) eq nodes
  | NAlternation nodes => fun x y => foldr (fun n P => parse subject n x y \/ P) False nodes
  | NRepeat node bounds _ => fun x y => exists k, in_bounds bounds k /\ nsteps (parse subject node) k x y
  | NGroup node => parse subject node
  | NCapture id node => fun x y => exists c, parse subject node x (y.1, c) /\
      y.2 = <[id := {| cs_start := x.1; cs_end := y.1 |}]> c
  | NAnchor anchor => fun x y => holds_at anchor subject x.1 = true /\ y = x
  | NAssertion id => fun x y => asserted id subject x.1 /\ y = x
  | NExtension e => fun x y => exists j, ext e subject x.1 = Some j /\ x.1 <= j <= length subject /\ y = (j, x.2)
  end.

(** A match never moves back, and stays in the subject. *)
Lemma parse_bounds subject n : forall x y, parse subject n x y -> x.1 <= length subject -> x.1 <= y.1 <= length subject.
Proof.
  induction n as [s| |l Hl|l Hl|n b g IH|n IH|id n IH|a|id|e] using ir_ind; intros x y Hp Hx; simpl in Hp.
  - destruct Hp as [Hs ->]. apply lookup_lt_Some in Hs. simpl. lia.
  - destruct Hp as [Hs ->]. simpl. lia.
  - revert x Hx Hp. induction Hl as [|n l Hn _ IHl]; intros x Hx Hp; simpl in Hp; [subst; lia|].
    destruct Hp as (z & Hz & Hr). pose proof (Hn _ _ Hz Hx) as Hb. specialize (IHl z ltac:(lia) Hr). lia.
  - induction Hl as [|n l Hn _ IHl]; simpl in Hp; [done|]. destruct Hp as [Hp|Hp]; eauto.
  - destruct Hp as (k & _ & Hk). clear b. induction Hk as [|k x z y Hz _ IHk]; [lia|].
    pose proof (IH _ _ Hz Hx). specialize (IHk ltac:(lia)). lia.
  - by apply IH.
  - destruct Hp as (c & Hp & _). by apply IH in Hp.
  - destruct Hp as [_ ->]. lia.
  - destruct Hp as [_ ->]. lia.
  - destruct Hp as (j & _ & Hj & ->). simpl. lia.
Qed.

(** Every match of an expression with a fixed width has that width, when
    extensions consume one symbol. *)
Lemma fixed_width_parse subject n : (forall e i j, ext e subject i = Some j -> j = S i) ->
  forall w x y, fixed_width n = Some w -> parse subject n x y -> N.of_nat y.1 = (N.of_nat x.1 + w)%N.
Proof.
  intros He. induction n as [s| |l Hl|l Hl|n b g IH|n IH|id n IH|a|id|e] using ir_ind; intros w x y Hw Hp; simpl in Hw, Hp.
  - injection Hw as <-. destruct Hp as [_ ->]. simpl. lia.
  - injection Hw as <-. destruct Hp as [_ ->]. simpl. lia.
  - enough (forall sum, sum_widths fixed_width sum l = Some w -> (N.of_nat y.1 + sum = N.of_nat x.1 + w)%N) as Hall
      by (specialize (Hall _ Hw); lia).
    clear Hw. revert x Hp. induction Hl as [|n l Hn _ IHl]; intros x Hp sum Hs; simpl in Hp, Hs; [subst y; injection Hs as ->; lia|].
    destruct Hp as (z & Hz & Hr). destruct (fixed_width n) as [v|] eqn:Hv; [|done].
    destruct (checked_add sum v) as [sum'|] eqn:Ha; [|done]. apply checked_add_Some in Ha as [-> _].
    specialize (IHl z Hr _ Hs). specialize (Hn v x z eq_refl Hz). lia.
  - destruct l as [|n l]; [done|]. destruct (fixed_width n) as [v|] eqn:Hv; [|done].
    destruct (forallb _ l) eqn:Hf; [|done]. injection Hw as <-. apply Forall_cons in Hl as [Hn Hl]. simpl in Hp.
    destruct Hp as [Hp|Hp]; [by apply (Hn v)|]. clear Hn Hv n. induction Hl as [|n l Hn _ IHl]; [done|].
    simpl in Hf, Hp. apply andb_prop in Hf as [Hv%bool_decide_eq_true Hf]. destruct Hp as [Hp|Hp]; [by apply (Hn v)|by apply IHl].
  - case_decide as Hb; [|done]. destruct (fixed_width n) as [v|]; [|done]. apply checked_mul_Some in Hw as ->.
    destruct Hp as (k & [Hk1 Hk2] & Hk). rewrite Hb in Hk2. replace (rb_min b) with (N.of_nat k) by lia. clear Hb Hk1 Hk2.
    induction Hk as [|k x z y Hz _ IHk]; [lia|]. specialize (IH v x z eq_refl Hz). lia.
  - by apply IH.
  - destruct Hp as (c & Hp & _). by apply (IH w x (y.1, c)).
  - injection Hw as <-. destruct Hp as [_ ->]. lia.
  - done.
  - injection Hw as <-. destruct Hp as (j & Hj & _ & ->). apply He in Hj as ->. simpl. lia.
Qed.
End Semantics.
