(* ===== verification/PatternThompson.v ===== *)
(** * The compiled automaton and the meaning of patterns

    [move] is one step of the automaton on entries of the worklist, without the
    search.  A table built for an expression lets an entry pass from the
    expression's entry state to its continuation exactly along the matches of
    the expression ([build_sound], [build_complete]); counters of repeats are
    reset on the way out, and captures are those of the match. *)

From stdpp Require Import relations.
From S2P Require Import Prelude BTree PatternIr PatternCompile PatternExecute.

Section Captures.
Context {Ext : Type}.

(** Captures below a node that are not open. *)
Definition closed_in (l : list (Item Ext)) (o : BTreeMap CaptureId nat) : Prop :=
  forall id, ICapture id ∈ l -> o !! id = None.

Lemma closed_in_app l1 l2 o : closed_in (l1 ++ l2) o <-> closed_in l1 o /\ closed_in l2 o.
Proof. unfold closed_in. setoid_rewrite elem_of_app. naive_solver. Qed.

Lemma captures_app (l1 l2 : list (Item Ext)) : captures_in (l1 ++ l2) = captures_in l1 ++ captures_in l2.
Proof. apply omap_app. Qed.

(** A capture is neither open nor made again inside itself. *)
Lemma closed_in_capture id l o : closed_in (ICapture id :: l) o -> NoDup (captures_in (ICapture id :: l)) ->
  o !! id = None /\ (forall v, closed_in l (<[id := v]> o)) /\ NoDup (captures_in l).
Proof.
  intros Ho [Hni Hnd]%NoDup_cons. split; [by apply Ho; left|]. split; [|done]. intros v id' Hid.
  rewrite lookup_insert_ne; [by apply Ho; right|]. intros <-. by apply Hni, elem_of_captures_in.
Qed.

End Captures.

Section Thompson.
Context {Sym Ext : Type} `{EqDecision Sym} (ext : Ext -> list Sym -> nat -> option nat).
Context (asserted : AssertionId -> list Sym -> nat -> Prop).
Context (subject : list Sym) (table : list (State Sym Ext)).
Implicit Types (n : IrNode Sym Ext) (x y : nat * Thread) (st : list (State Sym Ext)) (ins : Instruction Sym Ext).

(** One step of an entry, by the instruction of its state. *)
Definition move_by (i : Instruction Sym Ext) x y : Prop :=
  let '(position, t) := x in
  match i with
  | IAccept => False
  | ISymbol symbol next => subject !! position = Some symbol /\ y = at_state (S position) t next
  | IAny next => position < length subject /\ y = at_state (S position) t next
  | IExtension e next => exists j, ext e subject position = Some j /\ position <= j <= length subject /\ y = at_state j t next
  | IEpsilon next => y = at_state position t next
  | ISplit alternatives => exists next, next ∈ alternatives /\ y = at_state position t next
  | ITag id boundary next => y = at_state position (with_history t
      match boundary with TagStart => open_tag id position (t_history t) | TagEnd => close_tag id position (t_history t) end) next
  | IAnchor anchor next => holds_at anchor subject position = true /\ y = at_state position t next
  | IAssertion id next => asserted id subject position /\ y = at_state position t next
  | IRepeat body exit min max _ =>
    let count := default 0%N (t_repeats t !! t_state t) in
    match max with Some m => (count < m)%N | None => True end /\
      y = at_state position (with_repeats t (<[t_state t := (count + 1)%N]> (t_repeats t))) body \/
    (min <= count)%N /\ y = at_state position (with_repeats t (delete (t_state t) (t_repeats t))) exit
  end.

Definition move x y : Prop :=
  exists s, table !! t_state x.2 = Some s /\ move_by (s_instruction s) x y.

Definition accepting x : Prop := exists s, table !! t_state x.2 = Some s /\ s_instruction s = IAccept.

(** The entry of a thread that began at [b]. *)
Definition entry_at (b i : nat) (state : StateId) (R : BTreeMap StateId N) (o : BTreeMap CaptureId nat) (c : Captures) : nat * Thread :=
  (i, {| t_start := b; t_state := state; t_repeats := R; t_history := {| h_open := o; h_closed := c |} |}).

(** ** Shape of the built table *)

Definition extends (st st' : list (State Sym Ext)) : Prop := exists l, st' = st ++ l.

Definition agrees (st st' : list (State Sym Ext)) : Prop :=
  forall k, length st <= k < length st' -> table !! k = st' !! k.

Definition unused (st st' : list (State Sym Ext)) (R : BTreeMap StateId N) : Prop :=
  forall k, length st <= k < length st' -> R !! k = None.

Lemma extends_refl st : extends st st.
Proof. exists []. by rewrite app_nil_r. Qed.

Lemma extends_trans st1 st2 st3 : extends st1 st2 -> extends st2 st3 -> extends st1 st3.
Proof. intros [l1 ->] [l2 ->]. exists (l1 ++ l2). by rewrite app_assoc. Qed.

Lemma extends_length st st' : extends st st' -> length st <= length st'.
Proof. intros [l ->]. rewrite length_app. lia. Qed.

Lemma extends_lookup st st' k : extends st st' -> k < length st -> st' !! k = st !! k.
Proof. intros [l ->] Hk. by apply lookup_app_l. Qed.

Lemma push_Ok ins st id st' : push ins st = Ok (id, st') ->
  id = length st /\ st' = st ++ [{| s_id := id; s_instruction := ins |}].
Proof. unfold push. destruct (_ <? _)%N; [done|]. by intros [= <- <-]. Qed.

Lemma set_instruction_Ok id ins st st' : set_instruction id ins st = Ok st' ->
  exists s, st !! id = Some s /\ st' = <[id := {| s_id := s_id s; s_instruction := ins |}]> st.
Proof. unfold set_instruction. destruct (st !! id) as [s|]; simpl; [|done]. intros [= <-]. by exists s. Qed.

Definition builds (f : StateId -> list (State Sym Ext) -> Res Empty_set (StateId * list (State Sym Ext))) : Prop :=
  forall next st entry st', f next st = Ok (entry, st') -> extends st st'.

Lemma push_extends ins st id st' : push ins st = Ok (id, st') -> extends st st'.
Proof. intros [_ ->]%push_Ok. by eexists. Qed.

Lemma build_extends n : builds (build_node n).
Proof.
  induction n as [s| |l Hl|l Hl|n b g IH|n IH|id n IH|a|id|e] using ir_ind; intros next st entry st' Hb; simpl in Hb;
    eauto using push_extends.
  - revert next entry st' Hb. induction Hl as [|n l Hn _ IHl]; intros next entry st' Hb; simpl in Hb.
    + injection Hb as _ <-. apply extends_refl.
    + apply rbind_Ok in Hb as ([tail st1] & H1 & H2). eauto using extends_trans.
  - apply rbind_Ok in Hb as ([ids st1] & H1 & H2%push_extends). eapply extends_trans; [|exact H2]. clear H2.
    revert st ids H1. induction Hl as [|n l Hn _ IHl]; intros st ids Hb; simpl in Hb.
    + injection Hb as _ <-. apply extends_refl.
    + apply rbind_Ok in Hb as ([id0 st2] & H1 & ([ids0 st3] & H2 & [= <- <-])%rbind_Ok). eauto using extends_trans.
  - apply rbind_Ok in Hb as ([rep st1] & [-> ->]%push_Ok & ([body st2] & [l ->]%IH & (st3 & Hs & [= <- <-])%rbind_Ok)%rbind_Ok).
    apply set_instruction_Ok in Hs as (s & _ & ->). rewrite <- app_assoc, insert_app_r_alt, Nat.sub_diag by lia. by eexists.
  - apply rbind_Ok in Hb as ([end_ st1] & H1%push_extends & ([body st2] & H2%IH & H3%push_extends)%rbind_Ok).
    eauto using extends_trans.
Qed.

Lemma build_all_extends l next : forall st ids st', build_all build_node l next st = Ok (ids, st') -> extends st st'.
Proof.
  induction l as [|n l IH]; intros st ids st' Hb; simpl in Hb; [injection Hb as _ <-; apply extends_refl|].
  apply rbind_Ok in Hb as ([x st1] & H1%build_extends & ([xs st2] & H2%IH & [= _ <-])%rbind_Ok). by eapply extends_trans.
Qed.

Lemma agrees_l st st1 st' : agrees st st' -> extends st1 st' -> agrees st st1.
Proof.
  intros Ha He k Hk. pose proof (extends_length _ _ He). rewrite Ha by lia. apply extends_lookup; [done|lia].
Qed.

Lemma agrees_r st st1 st' : agrees st st' -> extends st st1 -> agrees st1 st'.
Proof. intros Ha He k Hk. pose proof (extends_length _ _ He). apply Ha. lia. Qed.

Lemma unused_l st st1 st' R : unused st st' R -> extends st1 st' -> unused st st1 R.
Proof. intros Ha He k Hk. pose proof (extends_length _ _ He). apply Ha. lia. Qed.

Lemma unused_r st st1 st' R : unused st st' R -> extends st st1 -> unused st1 st' R.
Proof. intros Ha He k Hk. pose proof (extends_length _ _ He). apply Ha. lia. Qed.

Lemma agrees_push ins st id st' : agrees st st' -> push ins st = Ok (id, st') ->
  table !! id = Some {| s_id := id; s_instruction := ins |}.
Proof.
  intros Ha [-> ->]%push_Ok. rewrite Ha by (rewrite length_app; simpl; lia).
  by rewrite lookup_app_r, Nat.sub_diag by lia.
Qed.

(** ** From automaton to matches *)

Lemma first_step x s k f : table !! t_state x.2 = Some s -> s_instruction s <> IAccept -> nsteps move k x f -> accepting f ->
  exists k' y, k = S k' /\ move_by (s_instruction s) x y /\ nsteps move k' y f.
Proof.
  intros Hs Hi Hk Hf. inversion Hk as [|k' ? y ? Hm Hr]; subst.
  - destruct Hf as (s' & Hs' & Ha). rewrite Hs in Hs'. naive_solver.
  - destruct Hm as (s' & Hs' & Hm). rewrite Hs in Hs'. injection Hs' as <-. eauto.
Qed.

(** [sound_for n build]: an accepted run that enters at the built entry leaves
    through the continuation, after a match. *)
Definition sound_for (l : list (Item Ext)) (P : relation Point) (build : StateId -> list (State Sym Ext) -> Res Empty_set (StateId * list (State Sym Ext))) : Prop :=
  NoDup (captures_in l) -> forall next st entry st', build next st = Ok (entry, st') -> agrees st st' ->
  forall b k i R o c f, unused st st' R -> closed_in l o -> nsteps move k (entry_at b i entry R o c) f -> accepting f ->
  exists k' j c', k' <= k /\ P (i, c) (j, c') /\ nsteps move k' (entry_at b j next R o c') f.

Lemma sound_push l (P : relation Point) (ins : StateId -> Instruction Sym Ext) :
  (forall next, ins next <> IAccept) ->
  (forall b i state R o c next y, table !! state = Some {| s_id := state; s_instruction := ins next |} ->
    move_by (ins next) (entry_at b i state R o c) y -> exists j, P (i, c) (j, c) /\ y = entry_at b j next R o c) ->
  sound_for l P (fun next st => push (ins next) st).
Proof.
  intros Hi Hm _ next st entry st' Hp Ha b k i R o c f Hu Ho Hk Hf. pose proof (agrees_push _ _ _ _ Ha Hp) as Hs.
  destruct (first_step (entry_at b i entry R o c) _ _ _ Hs (Hi next) Hk Hf) as (k' & y & -> & Hy & Hr). simpl in Hy.
  destruct (Hm _ _ _ _ _ _ _ _ Hs Hy) as (j & HP & ->). exists k', j, c. split; [lia|]. by split.
Qed.

(** The loop of a repeat that has run its body [count] times. *)
Lemma sound_repeat (P : relation Point) rep body next min max greedy R o b f :
  (exists sid, table !! rep = Some {| s_id := sid; s_instruction := IRepeat body next min max greedy |}) -> R !! rep = None ->
  (forall k i c count, nsteps move k (entry_at b i body (<[rep := count]> R) o c) f ->
    exists k' j c', k' <= k /\ P (i, c) (j, c') /\ nsteps move k' (entry_at b j rep (<[rep := count]> R) o c') f) -> accepting f ->
  forall k i c count R', default 0%N (R' !! rep) = count -> delete rep R' = R ->
  nsteps move k (entry_at b i rep R' o c) f ->
  exists k' m j c', k' <= k /\ nsteps P m (i, c) (j, c') /\ (min <= count + N.of_nat m)%N /\
    (match max with Some M => m = 0 \/ (count + N.of_nat m <= M)%N | None => True end) /\
    nsteps move k' (entry_at b j next R o c') f.
Proof.
  intros [sid Hs] HR Hbody Hf. induction k as [k IH] using (well_founded_induction lt_wf). intros i c count R' Hc Hd Hk.
  destruct (first_step (entry_at b i rep R' o c) _ _ _ Hs ltac:(done) Hk Hf) as (k1 & y & -> & Hy & Hr).
  cbn [s_instruction move_by entry_at t_repeats t_state] in Hy. rewrite Hc in Hy.
  destruct Hy as [[Hmax ->]|[Hmin ->]].
  - assert (<[rep := (count + 1)%N]> R' = <[rep := (count + 1)%N]> R) as HR' by (by rewrite <- Hd, insert_delete_eq).
    change (at_state _ _ _) with (entry_at b i body (<[rep := (count + 1)%N]> R') o c) in Hr. rewrite HR' in Hr.
    apply Hbody in Hr as (k2 & j & c2 & Hk2 & HP & Hr).
    destruct (IH k2 ltac:(lia) j c2 (count + 1)%N (<[rep := (count + 1)%N]> R)) as (k3 & m & j' & c3 & Hk3 & Hn & Hmin & Hmx & Hr3);
      [by rewrite lookup_insert_eq|by rewrite delete_insert_id|done|].
    exists k3, (S m), j', c3. split; [lia|]. split; [by econstructor|]. split; [lia|]. split; [|done].
    destruct max as [M|]; [|done]. right. destruct Hmx as [->|?]; lia.
  - exists k1, 0, i, c. split; [lia|]. split; [constructor|]. split; [lia|]. split; [by destruct max; [left|]|].
    change (at_state _ _ _) with (entry_at b i next (delete rep R') o c) in Hr. by rewrite Hd in Hr.
Qed.

Lemma unused_insert st st' R rep v : unused st st' R -> rep < length st -> unused st st' (<[rep := v]> R).
Proof. intros Hu Hr k Hk. rewrite lookup_insert_ne by lia. by apply Hu. Qed.

(** What a built repeat looks like in the table. *)
Lemma build_repeat_inv n next st entry st' rb greedy : build_node (NRepeat n rb greedy) next st = Ok (entry, st') -> agrees st st' ->
  exists st1 st2 body, entry = length st /\ st1 = st ++ [{| s_id := entry; s_instruction := IEpsilon next |}] /\
    build_node n entry st1 = Ok (body, st2) /\ agrees st1 st2 /\ length st2 = length st' /\ length st < length st' /\
    exists sid, table !! entry = Some {| s_id := sid; s_instruction := IRepeat body next (rb_min rb) (rb_max rb) greedy |}.
Proof.
  intros Hb Ha. simpl in Hb. apply rbind_Ok in Hb as ([rep st1] & [-> ->]%push_Ok & ([body st2] & Hn & (st3 & Hs & [= <- <-])%rbind_Ok)%rbind_Ok).
  apply set_instruction_Ok in Hs as (s & Hs & ->). pose proof (build_extends _ _ _ _ _ Hn) as He%extends_length.
  rewrite length_app in He. simpl in He.
  eexists _, st2, body. split_and!; [done|done|exact Hn| |by rewrite length_insert|by rewrite length_insert; lia|].
  - intros k Hk. rewrite length_app in Hk. simpl in Hk. rewrite Ha by (rewrite length_insert; lia). apply list_lookup_insert_ne. lia.
  - exists (s_id s). rewrite Ha by (rewrite length_insert; lia). apply list_lookup_insert_eq. lia.
Qed.

Lemma sound_concat l : Forall (fun n => sound_for (items n) (parse ext asserted subject n) (build_node n)) l ->
  sound_for (items (NConcat l)) (parse ext asserted subject (NConcat l)) (build_node (NConcat l)).
Proof.
  induction 1 as [|n l Hn _ IHl]; intros Hnd next st entry st' Hb Ha b k i R o c f Hu Ho Hk Hf; simpl in Hb.
  - injection Hb as -> ->. exists k, i, c. by split_and!.
  - simpl in Hnd, Ho. rewrite captures_app in Hnd. apply NoDup_app in Hnd as (Hn1 & _ & Hn2). apply closed_in_app in Ho as [Ho1 Ho2].
    apply rbind_Ok in Hb as ([tail st1] & H1 & H2).
    pose proof (build_extends (NConcat l) _ _ _ _ H1) as He1. pose proof (build_extends _ _ _ _ _ H2) as He2.
    destruct (Hn Hn1 _ _ _ _ H2 (agrees_r _ _ _ Ha He1) b k i R o c f (unused_r _ _ _ _ Hu He1) Ho1 Hk Hf) as (k1 & j & c1 & Hk1 & Hp1 & Hr1).
    destruct (IHl Hn2 _ _ _ _ H1 (agrees_l _ _ _ Ha He2) b k1 j R o c1 f (unused_l _ _ _ _ Hu He2) Ho2 Hr1 Hf) as (k2 & j2 & c2 & Hk2 & Hp2 & Hr2).
    exists k2, j2, c2. split; [lia|]. split; [|done]. by exists (j, c1).
Qed.

(** The entry of one alternative. *)
Lemma sound_alternative l next : Forall (fun n => sound_for (items n) (parse ext asserted subject n) (build_node n)) l ->
  forall st ids st', build_all build_node l next st = Ok (ids, st') -> NoDup (captures_in (flat_map items l)) -> agrees st st' ->
  forall b k i R o c f entry, unused st st' R -> closed_in (flat_map items l) o -> entry ∈ ids ->
  nsteps move k (entry_at b i entry R o c) f -> accepting f ->
  exists k' j c', k' <= k /\ foldr (fun n P => parse ext asserted subject n (i, c) (j, c') \/ P) False l /\
    nsteps move k' (entry_at b j next R o c') f.
Proof.
  induction 1 as [|n l Hn _ IHl]; intros st ids st' Hall Hnd Ha b k i R o c f entry Hu Ho Hx Hr Hf; simpl in Hall.
  { injection Hall as <- <-. by apply elem_of_nil in Hx. }
  simpl in Hnd, Ho. rewrite captures_app in Hnd. apply NoDup_app in Hnd as (Hn1 & _ & Hn2). apply closed_in_app in Ho as [Ho1 Ho2].
  apply rbind_Ok in Hall as ([x0 st2] & Hb & ([xs st3] & Hall & [= <- <-])%rbind_Ok).
  pose proof (build_extends _ _ _ _ _ Hb) as Heb. pose proof (build_all_extends _ _ _ _ _ Hall) as Hea.
  apply elem_of_cons in Hx as [->|Hx].
  - destruct (Hn Hn1 _ _ _ _ Hb (agrees_l _ _ _ Ha Hea) b k i R o c f (unused_l _ _ _ _ Hu Hea) Ho1 Hr Hf) as (k' & j & c' & Hk' & Hp & Hr').
    exists k', j, c'. split; [done|]. split; [by left|done].
  - destruct (IHl _ _ _ Hall Hn2 (agrees_r _ _ _ Ha Heb) b k i R o c f entry (unused_r _ _ _ _ Hu Heb) Ho2 Hx Hr Hf) as (k' & j & c' & Hk' & Hp & Hr').
    exists k', j, c'. split; [done|]. split; [by right|done].
Qed.

Lemma sound_alternation l : Forall (fun n => sound_for (items n) (parse ext asserted subject n) (build_node n)) l ->
  sound_for (items (NAlternation l)) (parse ext asserted subject (NAlternation l)) (build_node (NAlternation l)).
Proof.
  intros Hl Hnd next st entry st' Hb Ha b k i R o c f Hu Ho Hk Hf. simpl in Hb.
  apply rbind_Ok in Hb as ([ids st1] & H1 & H2). pose proof (push_extends _ _ _ _ H2) as He2.
  pose proof (build_all_extends _ _ _ _ _ H1) as He1. pose proof (agrees_push _ _ _ _ (agrees_r _ _ _ Ha He1) H2) as Hs.
  destruct (first_step (entry_at b i entry R o c) _ _ _ Hs ltac:(done) Hk Hf) as (k1 & y & -> & (x & Hx & ->) & Hr).
  destruct (sound_alternative l next Hl _ _ _ H1 Hnd (agrees_l _ _ _ Ha He2) b k1 i R o c f x (unused_l _ _ _ _ Hu He2) Ho Hx Hr Hf)
    as (k' & j & c' & ? & ? & ?).
  exists k', j, c'. split; [lia|]. by split.
Qed.

Lemma sound_repeat_node n rb g : sound_for (items n) (parse ext asserted subject n) (build_node n) ->
  sound_for (items n) (parse ext asserted subject (NRepeat n rb g)) (build_node (NRepeat n rb g)).
Proof.
  intros IH Hnd next st entry st' Hb Ha b k i R o c f Hu Ho Hk Hf.
  destruct (build_repeat_inv _ _ _ _ _ _ _ Hb Ha) as (st1 & st2 & body & -> & Hst1 & Hn & Ha2 & Hlen & Hlt & Hs).
  assert (length st1 = S (length st)) as Hl1 by (rewrite Hst1, length_app; simpl; lia).
  destruct (sound_repeat (parse ext asserted subject n) (length st) body next (rb_min rb) (rb_max rb) g R o b f Hs) with k i c 0%N R
    as (k' & m & j & c' & Hk' & Hm & Hmin & Hmax & Hr); [apply Hu; lia| |done|by rewrite Hu by lia|apply delete_id, Hu; lia|done|].
  { intros k0 i0 c0 count Hk0. eapply (IH Hnd _ _ _ _ Hn Ha2 b k0); [|done|exact Hk0|done].
    apply unused_insert; [|lia]. intros q Hq. apply Hu. lia. }
  exists k', j, c'. split; [done|]. split; [|done]. exists m. split; [|done]. split; [lia|]. destruct (rb_max rb) as [M|]; [|done].
  destruct Hmax as [->|?]; lia.
Qed.

(** What a built capture looks like in the table. *)
Lemma build_capture_inv id n next st entry st' : build_node (NCapture id n) next st = Ok (entry, st') -> agrees st st' ->
  exists st1 st2 end_ body, build_node n end_ st1 = Ok (body, st2) /\ extends st st1 /\ extends st2 st' /\
    table !! entry = Some {| s_id := entry; s_instruction := ITag id TagStart body |} /\
    table !! end_ = Some {| s_id := end_; s_instruction := ITag id TagEnd next |}.
Proof.
  intros Hb Ha. simpl in Hb. apply rbind_Ok in Hb as ([end_ st1] & H1 & ([body st2] & H2 & H3)%rbind_Ok).
  pose proof (push_extends _ _ _ _ H1) as He1. pose proof (build_extends _ _ _ _ _ H2) as He2. pose proof (push_extends _ _ _ _ H3) as He3.
  exists st1, st2, end_, body. split_and!; [done..| |].
  - apply (agrees_push _ _ _ _ (agrees_r _ _ _ Ha (extends_trans _ _ _ He1 He2)) H3).
  - apply (agrees_push _ _ _ _ (agrees_l _ _ _ Ha (extends_trans _ _ _ He2 He3)) H1).
Qed.

(** Closing a capture that was opened around a match. *)
Lemma close_opened b i j state R o c id : o !! id = None ->
  at_state j (with_history (entry_at b j state R (<[id := i]> o) c).2 (close_tag id j {| h_open := <[id := i]> o; h_closed := c |})) =
  fun next => entry_at b j next R o (<[id := {| cs_start := i; cs_end := j |}]> c).
Proof.
  intros Ho. unfold close_tag. cbn [h_open h_closed]. rewrite lookup_insert_eq, delete_insert_id by done. done.
Qed.

Lemma sound_capture id n : sound_for (items n) (parse ext asserted subject n) (build_node n) ->
  sound_for (items (NCapture id n)) (parse ext asserted subject (NCapture id n)) (build_node (NCapture id n)).
Proof.
  intros IH Hnd next st entry st' Hb Ha b k i R o c f Hu Ho Hk Hf. simpl in Hnd, Ho.
  destruct (closed_in_capture _ _ _ Ho Hnd) as (Hoi & Hoc & Hnd').
  destruct (build_capture_inv _ _ _ _ _ _ Hb Ha) as (st1 & st2 & end_ & body & Hn & He1 & He3 & Hstart & Hend).
  destruct (first_step (entry_at b i entry R o c) _ _ _ Hstart ltac:(done) Hk Hf) as (k1 & y & -> & -> & Hr).
  change (at_state _ _ _) with (entry_at b i body R (<[id := i]> o) c) in Hr.
  destruct (IH Hnd' _ _ _ _ Hn (agrees_l _ _ _ (agrees_r _ _ _ Ha He1) He3) b k1 i R _ c f
    (unused_l _ _ _ _ (unused_r _ _ _ _ Hu He1) He3) (Hoc i) Hr Hf) as (k2 & j & c2 & Hk2 & Hp & Hr2).
  destruct (first_step (entry_at b j end_ R _ c2) _ _ _ Hend ltac:(done) Hr2 Hf) as (k3 & y & -> & -> & Hr3).
  exists k3, j, (<[id := {| cs_start := i; cs_end := j |}]> c2). split; [lia|]. split; [by exists c2|].
  pose proof (close_opened b i j end_ R o c2 id Hoi) as Hcl. cbn [entry_at snd t_history s_instruction] in Hr3, Hcl. by rewrite Hcl in Hr3.
Qed.

Lemma build_sound n : sound_for (items n) (parse ext asserted subject n) (build_node n).
Proof.
  induction n as [s| |l Hl|l Hl|n rb g IH|n IH|id n IH|a|id|e] using ir_ind.
  - apply (sound_push _ _ (ISymbol s)); [done|]. intros b i state R o c next y _ [Hs ->]. exists (S i). by split.
  - apply (sound_push _ _ IAny); [done|]. intros b i state R o c next y _ [Hs ->]. exists (S i). by split.
  - by apply sound_concat.
  - by apply sound_alternation.
  - exact (sound_repeat_node n rb g IH).
  - exact IH.
  - by apply sound_capture.
  - apply (sound_push _ _ (IAnchor a)); [done|]. intros b i state R o c next y _ [Hs ->]. exists i. by split.
  - apply (sound_push _ _ (IAssertion id)); [done|]. intros b i state R o c next y _ [Hs ->]. exists i. by split.
  - apply (sound_push _ _ (IExtension e)); [done|]. intros b i state R o c next y _ (j & Hj & Hb & ->). exists j. split; [|done]. by exists j.
Qed.

(** ** From matches to the automaton *)

(** [complete_for]: every match is a run from the entry to the continuation. *)
Definition complete_for (l : list (Item Ext)) (P : relation Point) (build : StateId -> list (State Sym Ext) -> Res Empty_set (StateId * list (State Sym Ext))) : Prop :=
  NoDup (captures_in l) -> forall next st entry st', build next st = Ok (entry, st') -> agrees st st' ->
  forall b i R o c j c', unused st st' R -> closed_in l o -> P (i, c) (j, c') ->
  rtc move (entry_at b i entry R o c) (entry_at b j next R o c').

Lemma move_intro b i state R o c s y : table !! state = Some s -> move_by (s_instruction s) (entry_at b i state R o c) y ->
  move (entry_at b i state R o c) y.
Proof. intros Hs Hm. by exists s. Qed.

Lemma complete_push l (P : relation Point) (ins : StateId -> Instruction Sym Ext) :
  (forall b i state R o c next j c', P (i, c) (j, c') -> c' = c /\ move_by (ins next) (entry_at b i state R o c) (entry_at b j next R o c)) ->
  complete_for l P (fun next st => push (ins next) st).
Proof.
  intros Hm _ next st entry st' Hp Ha b i R o c j c' Hu Ho HP. pose proof (agrees_push _ _ _ _ Ha Hp) as Hs.
  destruct (Hm b i entry R o c next j c' HP) as [-> Hy]. apply rtc_once. by eapply move_intro.
Qed.

Lemma complete_concat l : Forall (fun n => complete_for (items n) (parse ext asserted subject n) (build_node n)) l ->
  complete_for (items (NConcat l)) (parse ext asserted subject (NConcat l)) (build_node (NConcat l)).
Proof.
  induction 1 as [|n l Hn _ IHl]; intros Hnd next st entry st' Hb Ha b i R o c j c' Hu Ho Hp; simpl in Hb.
  - injection Hb as -> ->. injection Hp as -> ->. apply rtc_refl.
  - simpl in Hnd, Ho. rewrite captures_app in Hnd. apply NoDup_app in Hnd as (Hn1 & _ & Hn2). apply closed_in_app in Ho as [Ho1 Ho2].
    apply rbind_Ok in Hb as ([tail st1] & H1 & H2). destruct Hp as ([i1 c1] & Hp1 & Hp2).
    pose proof (build_extends (NConcat l) _ _ _ _ H1) as He1. pose proof (build_extends _ _ _ _ _ H2) as He2.
    etrans; [apply (Hn Hn1 _ _ _ _ H2 (agrees_r _ _ _ Ha He1) b i R o c _ _ (unused_r _ _ _ _ Hu He1) Ho1 Hp1)|].
    apply (IHl Hn2 _ _ _ _ H1 (agrees_l _ _ _ Ha He2) b i1 R o c1 _ _ (unused_l _ _ _ _ Hu He2) Ho2 Hp2).
Qed.

Lemma complete_alternative l next : Forall (fun n => complete_for (items n) (parse ext asserted subject n) (build_node n)) l ->
  forall st ids st', build_all build_node l next st = Ok (ids, st') -> NoDup (captures_in (flat_map items l)) -> agrees st st' ->
  forall b i R o c j c', unused st st' R -> closed_in (flat_map items l) o ->
  foldr (fun n P => parse ext asserted subject n (i, c) (j, c') \/ P) False l ->
  exists entry, entry ∈ ids /\ rtc move (entry_at b i entry R o c) (entry_at b j next R o c').
Proof.
  induction 1 as [|n l Hn _ IHl]; intros st ids st' Hall Hnd Ha b i R o c j c' Hu Ho Hp; simpl in Hall; [done|].
  simpl in Hnd, Ho. rewrite captures_app in Hnd. apply NoDup_app in Hnd as (Hn1 & _ & Hn2). apply closed_in_app in Ho as [Ho1 Ho2].
  apply rbind_Ok in Hall as ([x0 st2] & Hb & ([xs st3] & Hall & [= <- <-])%rbind_Ok).
  pose proof (build_extends _ _ _ _ _ Hb) as Heb. pose proof (build_all_extends _ _ _ _ _ Hall) as Hea. destruct Hp as [Hp|Hp].
  - exists x0. split; [by left|]. apply (Hn Hn1 _ _ _ _ Hb (agrees_l _ _ _ Ha Hea) b i R o c j c' (unused_l _ _ _ _ Hu Hea) Ho1 Hp).
  - destruct (IHl _ _ _ Hall Hn2 (agrees_r _ _ _ Ha Heb) b i R o c j c' (unused_r _ _ _ _ Hu Heb) Ho2 Hp) as (x & Hx & Hr).
    exists x. split; [by right|done].
Qed.

Lemma complete_alternation l : Forall (fun n => complete_for (items n) (parse ext asserted subject n) (build_node n)) l ->
  complete_for (items (NAlternation l)) (parse ext asserted subject (NAlternation l)) (build_node (NAlternation l)).
Proof.
  intros Hl Hnd next st entry st' Hb Ha b i R o c j c' Hu Ho Hp. simpl in Hb.
  apply rbind_Ok in Hb as ([ids st1] & H1 & H2). pose proof (push_extends _ _ _ _ H2) as He2.
  pose proof (build_all_extends _ _ _ _ _ H1) as He1. pose proof (agrees_push _ _ _ _ (agrees_r _ _ _ Ha He1) H2) as Hs.
  destruct (complete_alternative l next Hl _ _ _ H1 Hnd (agrees_l _ _ _ Ha He2) b i R o c j c' (unused_l _ _ _ _ Hu He2) Ho Hp) as (x & Hx & Hr).
  eapply rtc_l; [|exact Hr]. eapply move_intro; [exact Hs|]. by exists x.
Qed.

(** The loop of a repeat that has run its body [count] times and runs it [m]
    times more. *)
Lemma complete_repeat (P : relation Point) rep body next min max greedy R o b :
  (exists sid, table !! rep = Some {| s_id := sid; s_instruction := IRepeat body next min max greedy |}) -> R !! rep = None ->
  (forall i c j c' count, P (i, c) (j, c') -> rtc move (entry_at b i body (<[rep := count]> R) o c) (entry_at b j rep (<[rep := count]> R) o c')) ->
  forall m (x y : Point) count R', default 0%N (R' !! rep) = count -> delete rep R' = R -> nsteps P m x y ->
  (min <= count + N.of_nat m)%N -> (match max with Some M => m = 0 \/ (count + N.of_nat m <= M)%N | None => True end) ->
  rtc move (entry_at b x.1 rep R' o x.2) (entry_at b y.1 next R o y.2).
Proof.
  intros [sid Hs] HR Hbody. induction m as [|m IH]; intros [i c] y count R' Hc Hd Hk Hmin Hmax.
  - inversion Hk; subst y. apply rtc_once. eapply move_intro; [exact Hs|]. right.
    cbn [fst snd entry_at t_repeats t_state]. rewrite Hc. split; [lia|]. by rewrite <- Hd.
  - inversion_clear Hk as [|? ? [i1 c1] ? HP Hr].
    assert (<[rep := (count + 1)%N]> R' = <[rep := (count + 1)%N]> R) as HR' by (by rewrite <- Hd, insert_delete_eq).
    eapply rtc_l with (entry_at b i body (<[rep := (count + 1)%N]> R') o c).
    { eapply move_intro; [exact Hs|]. left. cbn [fst snd entry_at t_repeats t_state]. rewrite Hc. split; [|done].
      destruct max as [M|]; [|done]. destruct Hmax; lia. }
    rewrite HR'. etrans; [by apply Hbody|]. apply (IH (i1, c1) y (count + 1)%N); [by rewrite lookup_insert_eq|by rewrite delete_insert_id|done|lia|].
    destruct max as [M|]; [|done]. destruct Hmax; [done|]. right. lia.
Qed.

Lemma complete_repeat_node n rb g : complete_for (items n) (parse ext asserted subject n) (build_node n) ->
  complete_for (items n) (parse ext asserted subject (NRepeat n rb g)) (build_node (NRepeat n rb g)).
Proof.
  intros IH Hnd next st entry st' Hb Ha b i R o c j c' Hu Ho (m & [Hmin Hmax] & Hm).
  destruct (build_repeat_inv _ _ _ _ _ _ _ Hb Ha) as (st1 & st2 & body & -> & Hst1 & Hn & Ha2 & Hlen & Hlt & Hs).
  assert (length st1 = S (length st)) as Hl1 by (rewrite Hst1, length_app; simpl; lia).
  apply (complete_repeat (parse ext asserted subject n) (length st) body next (rb_min rb) (rb_max rb) g R o b Hs)
    with (m := m) (x := (i, c)) (y := (j, c')) (count := 0%N); [apply Hu; lia| |by rewrite Hu by lia|apply delete_id, Hu; lia|done|lia|].
  - intros i0 c0 j0 c1 count Hp. apply (IH Hnd _ _ _ _ Hn Ha2); [|done|done]. apply unused_insert; [|lia]. intros q Hq. apply Hu. lia.
  - destruct (rb_max rb); [right; lia|done].
Qed.

Lemma complete_capture id n : complete_for (items n) (parse ext asserted subject n) (build_node n) ->
  complete_for (items (NCapture id n)) (parse ext asserted subject (NCapture id n)) (build_node (NCapture id n)).
Proof.
  intros IH Hnd next st entry st' Hb Ha b i R o c j c' Hu Ho (c1 & Hp & Hc). simpl in Hnd, Ho, Hc. subst c'.
  destruct (closed_in_capture _ _ _ Ho Hnd) as (Hoi & Hoc & Hnd').
  destruct (build_capture_inv _ _ _ _ _ _ Hb Ha) as (st1 & st2 & end_ & body & Hn & He1 & He3 & Hstart & Hend).
  eapply rtc_l with (entry_at b i body R (<[id := i]> o) c); [by eapply move_intro|].
  eapply rtc_r with (entry_at b j end_ R (<[id := i]> o) c1).
  - apply (IH Hnd' _ _ _ _ Hn (agrees_l _ _ _ (agrees_r _ _ _ Ha He1) He3)); [|exact (Hoc i)|done].
    apply (unused_l _ _ _ _ (unused_r _ _ _ _ Hu He1) He3).
  - eapply move_intro; [exact Hend|]. pose proof (close_opened b i j end_ R o c1 id Hoi) as Hcl.
    cbn [entry_at snd t_history s_instruction move_by] in Hcl |- *. by rewrite Hcl.
Qed.

Lemma build_complete n : complete_for (items n) (parse ext asserted subject n) (build_node n).
Proof.
  induction n as [s| |l Hl|l Hl|n rb g IH|n IH|id n IH|a|id|e] using ir_ind.
  - apply (complete_push _ _ (ISymbol s)). intros b i state R o c next j c' [Hs [= -> ->]]. by split.
  - apply (complete_push _ _ IAny). intros b i state R o c next j c' [Hs [= -> ->]]. by split.
  - by apply complete_concat.
  - by apply complete_alternation.
  - exact (complete_repeat_node n rb g IH).
  - exact IH.
  - by apply complete_capture.
  - apply (complete_push _ _ (IAnchor a)). intros b i state R o c next j c' [Hs [= -> ->]]. by split.
  - apply (complete_push _ _ (IAssertion id)). intros b i state R o c next j c' [Hs [= -> ->]]. by split.
  - apply (complete_push _ _ (IExtension e)). intros b i state R o c next j c' (j0 & Hj & Hb & [= -> ->]). split; [done|]. by exists j0.
Qed.
End Thompson.

(** ** What a table is made of *)

Section Table.
Context {Sym Ext : Type}.
Implicit Types (n : IrNode Sym Ext) (st : list (State Sym Ext)) (ins : Instruction Sym Ext).

(** The instructions at the positions from [k] on. *)
Definition from_on (k : nat) (Q : Instruction Sym Ext -> Prop) st : Prop :=
  forall i s, k <= i -> st !! i = Some s -> Q (s_instruction s).

Lemma from_on_push Q k ins st id st' : push ins st = Ok (id, st') -> from_on k Q st -> Q ins -> from_on k Q st'.
Proof.
  intros [-> ->]%push_Ok Hf Hq i s Hi [Hs|[_ Hs]]%lookup_app_Some; [by eapply Hf|]. by apply list_lookup_singleton_Some in Hs as [_ <-].
Qed.

(** The instructions an expression is compiled to. *)
Definition made_of n ins : Prop :=
  match ins with IAssertion id _ => IRef id ∈ items n | IAccept => False | _ => True end.

Lemma made_of_mono n m ins : (forall it, it ∈ items n -> it ∈ items m) -> made_of n ins -> made_of m ins.
Proof. intros Hi. destruct ins; simpl; auto. Qed.

Lemma from_on_mono k (Q Q' : Instruction Sym Ext -> Prop) st : (forall ins, Q ins -> Q' ins) -> from_on k Q st -> from_on k Q' st.
Proof. intros HQ Hf i s Hi Hs. eauto. Qed.

Lemma build_made_of n : forall (Q : Instruction Sym Ext -> Prop) k next st entry st', (forall ins, made_of n ins -> Q ins) ->
  build_node n next st = Ok (entry, st') -> from_on k Q st -> from_on k Q st'.
Proof.
  induction n as [s| |l Hl|l Hl|n b g IH|n IH|id n IH|a|id|e] using ir_ind; intros Q k next st entry st' HQ Hb Hf; simpl in Hb;
    try (by eapply from_on_push; [exact Hb|exact Hf|apply HQ; simpl; by try left]).
  - revert next entry st' Hb. induction Hl as [|n l Hn _ IHl]; intros next entry st' Hb; simpl in Hb; [by injection Hb as _ <-|].
    apply rbind_Ok in Hb as ([tail st1] & H1 & H2). eapply Hn; [|exact H2|].
    + intros ins Hm. apply HQ. revert Hm. apply made_of_mono. intros it Hit. simpl. apply elem_of_app. by left.
    + eapply IHl; [|exact H1]. intros ins Hm. apply HQ. revert Hm. apply made_of_mono. intros it Hit. simpl. apply elem_of_app. by right.
  - apply rbind_Ok in Hb as ([ids st1] & H1 & H2). eapply from_on_push; [exact H2| |by apply HQ]. clear H2.
    revert st ids Hf H1. induction Hl as [|n l Hn _ IHl]; intros st ids Hf Hb; simpl in Hb; [by injection Hb as _ <-|].
    apply rbind_Ok in Hb as ([x st2] & H1 & ([xs st3] & H2 & [= _ <-])%rbind_Ok). eapply IHl; [|  |exact H2].
    + intros ins Hm. apply HQ. revert Hm. apply made_of_mono. intros it Hit. simpl. apply elem_of_app. by right.
    + eapply Hn; [|exact H1|exact Hf]. intros ins Hm. apply HQ. revert Hm. apply made_of_mono. intros it Hit. simpl. apply elem_of_app. by left.
  - apply rbind_Ok in Hb as ([rep st1] & H1 & ([body st2] & H2 & (st3 & Hs & [= <- <-])%rbind_Ok)%rbind_Ok).
    apply set_instruction_Ok in Hs as (s & _ & ->). intros i s' Hi Hs'.
    apply list_lookup_insert_Some in Hs' as [(-> & <- & _)|[_ Hs']]; [by apply HQ|].
    eapply (IH Q k); [exact HQ|exact H2|by eapply from_on_push; [exact H1|exact Hf|apply HQ]|exact Hi|exact Hs'].
  - by eapply IH.
  - apply rbind_Ok in Hb as ([end_ st1] & H1 & ([body st2] & H2 & H3)%rbind_Ok). eapply from_on_push; [exact H3| |by apply HQ].
    eapply IH; [|exact H2|by eapply from_on_push; [exact H1|exact Hf|apply HQ]]. intros ins Hm. apply HQ. revert Hm.
    apply made_of_mono. intros it Hit. by right.
Qed.

(** An expression of fixed width has no assertions. *)
Lemma fixed_width_refs n w : fixed_width n = Some w -> forall id, IRef id ∉ items n.
Proof.
  revert w. induction n as [s| |l Hl|l Hl|n b g IH|n IH|id n IH|a|id|e] using ir_ind; intros w Hw id'; simpl in Hw |- *.
  1,2,8: by intros ?%elem_of_nil.
  - assert (forall sum, sum_widths fixed_width sum l = Some w -> IRef id' ∉ flat_map items l) as Ha; [|by eapply Ha].
    clear Hw. induction Hl as [|n l Hn _ IHl]; intros sum Hw; [by intros ?%elem_of_nil|]. simpl in Hw |- *.
    destruct (fixed_width n) as [v|] eqn:Hv; [|done]. destruct (checked_add sum v) as [sum'|]; [|done].
    intros [Hi|Hi]%elem_of_app; [by eapply Hn|by eapply IHl].
  - destruct l as [|n l]; [done|]. destruct (fixed_width n) as [v|] eqn:Hv; [|done]. destruct (forallb _ l) eqn:Hf; [|done].
    apply Forall_cons in Hl as [Hn Hl]. simpl. intros [Hi|Hi]%elem_of_app; [by eapply Hn|]. clear Hn Hv n Hw.
    induction Hl as [|n l Hn _ IHl]; [by apply elem_of_nil in Hi|]. simpl in Hf, Hi. apply andb_prop in Hf as [Hv%bool_decide_eq_true Hf].
    apply elem_of_app in Hi as [Hi|Hi]; [by eapply Hn|by apply IHl].
  - case_decide; [|done]. destruct (fixed_width n) as [v|] eqn:Hv; [|done]. by eapply IH.
  - by eapply IH.
  - intros [Hi|Hi]%elem_of_cons; [done|by eapply IH].
  - done.
  - by intros ?%list_elem_of_singleton.
Qed.

(** The number of states of an expression. *)
Fixpoint ir_size n : nat :=
  match n with
  | NSymbol _ | NAny | NAnchor _ | NAssertion _ | NExtension _ => 1
  | NConcat nodes => list_sum (map ir_size nodes)
  | NAlternation nodes => S (list_sum (map ir_size nodes))
  | NRepeat node _ _ => S (ir_size node)
  | NGroup node => ir_size node
  | NCapture _ node => S (S (ir_size node))
  end.

(** [b] states are built, or the identifiers do not suffice. *)
Definition sized {A} (b : nat) st (r : Res Empty_set (A * list (State Sym Ext))) : Prop :=
  match r with
  | Ok (_, st') => length st' = length st + b /\ (b = 0%nat \/ N.of_nat (length st') <= u32_max + 1)%N
  | Panic => (u32_max + 1 < N.of_nat (length st + b))%N
  | _ => False
  end.

Lemma push_sized ins st : sized 1 st (push ins st).
Proof.
  unfold push, sized. destruct (N.ltb_spec u32_max (N.of_nat (length st))); [lia|]. rewrite length_app. simpl. lia.
Qed.

Lemma bind_sized {A B} b1 b2 st (r : Res Empty_set (A * list (State Sym Ext))) (f : A * list (State Sym Ext) -> Res Empty_set (B * list (State Sym Ext))) :
  sized b1 st r -> (forall x st1, r = Ok (x, st1) -> sized b2 st1 (f (x, st1))) -> sized (b1 + b2) st (rbind f r).
Proof.
  intros Hr Hf. destruct r as [[x st1]|e| |]; simpl in *; [|done|lia|done]. specialize (Hf x st1 eq_refl).
  destruct (f (x, st1)) as [[y st2]|e| |]; simpl in *; lia.
Qed.

Lemma build_sized n : forall next st, sized (ir_size n) st (build_node n next st).
Proof.
  induction n as [s| |l Hl|l Hl|n b g IH|n IH|id n IH|a|id|e] using ir_ind; intros next st; simpl; auto using push_sized.
  - induction Hl as [|n l Hn _ IHl]; simpl; [split; [lia|by left]|]. rewrite Nat.add_comm. apply bind_sized; [done|]. intros tail st1 _. apply Hn.
  - replace (S (list_sum (map ir_size l))) with (list_sum (map ir_size l) + 1) by lia. apply bind_sized.
    + revert st. induction Hl as [|n l Hn _ IHl]; intros st; simpl; [split; [lia|by left]|]. apply bind_sized; [done|]. intros x st1 _.
      replace (list_sum (map ir_size l)) with (list_sum (map ir_size l) + 0) by lia. apply bind_sized; [done|]. intros xs st2 _. split; [lia|by left].
    + intros ids st1 _. apply push_sized.
  - change (S (ir_size n)) with (1 + ir_size n). apply bind_sized; [apply push_sized|]. intros rep st1 [-> ->]%push_Ok.
    replace (ir_size n) with (ir_size n + 0) by lia. apply bind_sized; [done|]. intros body st2 Hb.
    destruct (build_extends _ _ _ _ _ Hb) as [l ->]. unfold set_instruction. rewrite <- app_assoc, lookup_app_r, Nat.sub_diag by lia. simpl.
    split; [rewrite length_insert; lia|by left].
  - change (S (S (ir_size n))) with (1 + S (ir_size n)). apply bind_sized; [apply push_sized|]. intros end_ st1 _.
    replace (S (ir_size n)) with (ir_size n + 1) by lia. apply bind_sized; [done|]. intros body st2 _. apply push_sized.
Qed.

(** ** Well-formed tables *)

Definition targets ins : list StateId :=
  match ins with
  | IAccept => []
  | IEpsilon next | ISymbol _ next | IAny next | IExtension _ next | ITag _ _ next | IAnchor _ next | IAssertion _ next => [next]
  | ISplit alternatives => alternatives
  | IRepeat body exit _ _ _ => [body; exit]
  end.

(** States are numbered by their position and lead to states of the table. *)
Definition table_ok st : Prop :=
  forall k s, st !! k = Some s -> s_id s = k /\ Forall (fun t => t < length st) (targets (s_instruction s)).

Definition built_ok (r : Res Empty_set (StateId * list (State Sym Ext))) : Prop :=
  match r with Ok (entry, st) => table_ok st /\ entry < length st | _ => True end.

Lemma push_built ins st : table_ok st -> Forall (fun t => t < length st) (targets ins) -> built_ok (push ins st).
Proof.
  intros Hok Ht. unfold push. destruct (_ <? _)%N; [done|]. simpl. rewrite length_app. simpl. split; [|lia].
  intros k s [Hs|[Hk Hs]]%lookup_app_Some.
  - destruct (Hok k s Hs) as [Hid Hf]. split; [done|]. eapply Forall_impl; [exact Hf|]. intros t. simpl. rewrite length_app. simpl. lia.
  - apply list_lookup_singleton_Some in Hs as [Hk0 <-]. simpl. split; [lia|].
    eapply Forall_impl; [exact Ht|]. intros t. simpl. rewrite length_app. simpl. lia.
Qed.

Lemma set_instruction_built id ins st st' : set_instruction id ins st = Ok st' -> table_ok st ->
  Forall (fun t => t < length st) (targets ins) -> table_ok st' /\ length st' = length st.
Proof.
  intros (s & Hs & ->)%set_instruction_Ok Hok Ht. rewrite length_insert. split; [|done]. intros k s' Hs'. rewrite length_insert.
  apply list_lookup_insert_Some in Hs' as [(-> & <- & _)|[_ Hs']]; [|by apply Hok]. simpl. split; [|done]. by apply (Hok k s Hs).
Qed.

Lemma build_all_ok l : Forall (fun n => forall next st, table_ok st -> next < length st -> built_ok (build_node n next st)) l ->
  forall next st ids st', build_all build_node l next st = Ok (ids, st') -> table_ok st -> next < length st ->
  table_ok st' /\ Forall (fun t => t < length st') ids.
Proof.
  induction 1 as [|n l Hn _ IH]; intros next st ids st' Hb Hok Hl; simpl in Hb; [by injection Hb as <- <-|].
  apply rbind_Ok in Hb as ([x st1] & H1 & ([xs st2] & H2 & [= <- <-])%rbind_Ok).
  specialize (Hn next st Hok Hl). rewrite H1 in Hn. destruct Hn as [Hok1 Hx].
  pose proof (extends_length _ _ (build_extends _ _ _ _ _ H1)). pose proof (extends_length _ _ (build_all_extends _ _ _ _ _ H2)).
  destruct (IH next st1 xs st2 H2 Hok1 ltac:(lia)) as [Hok2 Hxs]. split; [done|]. constructor; [lia|done].
Qed.

Lemma build_ok n : forall next st, table_ok st -> next < length st -> built_ok (build_node n next st).
Proof.
  induction n as [s| |l Hl|l Hl|n b g IH|n IH|id n IH|a|id|e] using ir_ind; intros next st Hok Hlt; simpl;
    try (by apply push_built; [|constructor]); auto.
  - induction Hl as [|n l Hn _ IHl]; simpl; [done|]. destruct (build_concat build_node l next st) as [[tail st1]|e| |]; simpl; try done.
    destruct IHl. by apply Hn.
  - destruct (build_all build_node l next st) as [[ids st1]|e| |] eqn:H1; simpl; try done.
    destruct (build_all_ok l Hl _ _ _ _ H1 Hok Hlt). by apply push_built.
  - pose proof (push_built (IEpsilon next) st Hok ltac:(by constructor)) as Hp.
    destruct (push (IEpsilon next) st) as [[rep st1]|e| |] eqn:Hpush; simpl; try done. destruct Hp as [Hok1 Hrep].
    pose proof (extends_length _ _ (push_extends _ _ _ _ Hpush)).
    specialize (IH rep st1 Hok1 Hrep). destruct (build_node n rep st1) as [[body st2]|e| |] eqn:Hb; simpl; try done. destruct IH as [Hok2 Hbody].
    pose proof (extends_length _ _ (build_extends _ _ _ _ _ Hb)).
    destruct (set_instruction rep _ st2) as [st3|e| |] eqn:Hs; simpl; try done.
    destruct (set_instruction_built _ _ _ _ Hs Hok2) as [Hok3 ->]; [|split; [done|lia]]. repeat constructor; lia.
  - pose proof (push_built (ITag id TagEnd next) st Hok ltac:(by constructor)) as Hp.
    destruct (push _ st) as [[end_ st1]|e| |]; simpl; try done. destruct Hp as [Hok1 Hend].
    specialize (IH end_ st1 Hok1 Hend). destruct (build_node n end_ st1) as [[body st2]|e| |]; simpl; try done. destruct IH as [Hok2 Hbody].
    apply push_built; [done|by constructor].
Qed.
End Table.
