(* ===== verification/PatternSearch.v ===== *)
(** * The search over a compiled pattern

    The loop of [execute_regular_inner] keeps one entry for each position, state
    and identity of repeat counters.  [same] is the equivalence that this
    identity stands for: equivalent entries have equivalent moves, so that an
    entry which is skipped can accept only where the one that was kept can.
    [loop_spec]: the search ends, an answer is the leftmost accepting run, and
    without an answer there is no accepting run or a limit was reached. *)

From stdpp Require Import relations.
From S2P Require Import Prelude BTree PatternIr PatternCompile PatternExecute PatternThompson.

Lemma foldr_max_le l (v : nat) : v ∈ l -> v <= foldr Nat.max 2 l.
Proof. induction l as [|w l IH]; [by intros ?%elem_of_nil|]. intros [->|Hx%IH]%elem_of_cons; simpl; lia. Qed.

Section Search.
Context {Sym Ext : Type} `{EqDecision Sym} (ext : Ext -> list Sym -> nat -> option nat).
Context (asserted : AssertionId -> list Sym -> nat -> Prop).
Context (a : Automaton Sym Ext) (subject : list Sym).
Implicit Types (x y z f : nat * Thread) (r : ExecutionReceipt).

Abbreviation step := (move ext asserted subject (a_states a)).
Abbreviation accepts := (accepting (a_states a)).

(** ** Entries with the same behaviour *)

Record same x y : Prop := {
  sm_position : x.1 = y.1;
  sm_state : t_state x.2 = t_state y.2;
  sm_repeats : forall s i body exit min max greedy, a_states a !! s = Some {| s_id := i; s_instruction := IRepeat body exit min max greedy |} ->
    collapse min max <$> t_repeats x.2 !! s = collapse min max <$> t_repeats y.2 !! s;
}.

#[global] Instance same_equivalence : Equivalence same.
Proof.
  split.
  - intros x. by split.
  - intros x y [H1 H2 H3]. split; [done|done|]. intros. symmetry. by eapply H3.
  - intros x y z [H1 H2 H3] [H1' H2' H3']. split; [congruence..|].
    intros. etrans; [by eapply H3|by eapply H3'].
Qed.

Lemma elem_of_repeat_identity t s v : (s, v) ∈ repeat_identity a t <->
  exists i body exit min max greedy count, a_states a !! s = Some {| s_id := i; s_instruction := IRepeat body exit min max greedy |} /\
    t_repeats t !! s = Some count /\ v = collapse min max count.
Proof.
  unfold repeat_identity. rewrite list_elem_of_omap. split.
  - intros ([s' count] & Hin%elem_of_map_entries & Hs). destruct (a_states a !! s') as [[i ins]|] eqn:Ht; [|done].
    simpl in Hs. destruct ins; try done. injection Hs as <- <-. by repeat eexists.
  - intros (i & body & exit & min & max & greedy & count & Ht & Hr & ->). exists (s, count).
    split; [by apply elem_of_map_entries|]. by rewrite Ht.
Qed.

Lemma key_same x y : key_of a x.1 x.2 = key_of a y.1 y.2 -> same x y.
Proof.
  intros [= Hp Hs Hr]. split; [done|done|]. intros s i body exit min max greedy Ht.
  assert (forall v, collapse min max <$> t_repeats x.2 !! s = Some v <-> collapse min max <$> t_repeats y.2 !! s = Some v) as Hv.
  { intros v. pose proof (elem_of_repeat_identity x.2 s v) as Hx. rewrite Hr, elem_of_repeat_identity in Hx.
    rewrite !fmap_Some. split; intros (count & Hc & Hvc).
    - destruct (proj2 Hx) as (? & ? & ? & ? & ? & ? & count' & Ht' & Hc' & Hv'); [by repeat eexists|].
      rewrite Ht in Ht'. injection Ht' as <- <- <- <- <- <-. eauto.
    - destruct (proj1 Hx) as (? & ? & ? & ? & ? & ? & count' & Ht' & Hc' & Hv'); [by repeat eexists|].
      rewrite Ht in Ht'. injection Ht' as <- <- <- <- <- <-. eauto. }
  destruct (collapse min max <$> t_repeats x.2 !! s) as [v|] eqn:E1; [symmetry; by apply Hv|].
  destruct (collapse min max <$> t_repeats y.2 !! s) as [v|] eqn:E2; [|done]. by apply Hv.
Qed.

Lemma accepts_same x y : same x y -> accepts x -> accepts y.
Proof. intros [_ Hs _] (s & Hl & Ha). exists s. by rewrite <- Hs. Qed.

Lemma move_start x y : step x y -> t_start y.2 = t_start x.2.
Proof.
  destruct x as [i t]. intros (s & _ & Hm). destruct (s_instruction s); simpl in Hm; try naive_solver.
Qed.

Lemma run_start x y : rtc step x y -> t_start y.2 = t_start x.2.
Proof. induction 1 as [|x y z Hm _ IH]; [done|]. by rewrite IH, (move_start _ _ Hm). Qed.

(** What equivalent counters of the current state agree on. *)
Lemma same_count x y i body exit min max greedy : same x y ->
  a_states a !! t_state x.2 = Some {| s_id := i; s_instruction := IRepeat body exit min max greedy |} ->
  let cx := default 0%N (t_repeats x.2 !! t_state x.2) in let cy := default 0%N (t_repeats y.2 !! t_state y.2) in
  ((min <= cx)%N <-> (min <= cy)%N) /\ (match max with Some m => cx = cy | None => True end) /\
  collapse min max (cx + 1) = collapse min max (cy + 1).
Proof.
  intros [_ Hst Hr] Ht cx cy. specialize (Hr _ _ _ _ _ _ _ Ht). subst cx cy. rewrite <- Hst.
  destruct (t_repeats x.2 !! t_state x.2) as [cx|], (t_repeats y.2 !! t_state x.2) as [cy|]; simpl in *; try done.
  - injection Hr as Hc. unfold collapse in *. destruct max; [by subst|]. split; [lia|]. split; [done|]. lia.
  - split; [done|]. by destruct max.
Qed.

Lemma same_at_state x y j state : same x y -> same (at_state j x.2 state) (at_state j y.2 state).
Proof. intros [H1 H2 H3]. by split. Qed.

Lemma same_with_history x y h h' : same x y -> same (x.1, with_history x.2 h) (y.1, with_history y.2 h').
Proof. intros [H1 H2 H3]. by split. Qed.

(** Updating the counter of one state on both sides. *)
Lemma same_with_repeats x y i body exit min max greedy vx vy j state : same x y ->
  a_states a !! t_state x.2 = Some {| s_id := i; s_instruction := IRepeat body exit min max greedy |} ->
  collapse min max <$> vx = collapse min max <$> vy ->
  same (at_state j (with_repeats x.2 (partial_alter (fun _ => vx) (t_state x.2) (t_repeats x.2))) state)
       (at_state j (with_repeats y.2 (partial_alter (fun _ => vy) (t_state y.2) (t_repeats y.2))) state).
Proof.
  intros [H1 H2 H3] Ht Hv. split; [done|done|]. intros s i' body' exit' min' max' greedy' Hs. simpl. rewrite <- H2.
  destruct (decide (s = t_state x.2)) as [->|Hne].
  - rewrite Ht in Hs. injection Hs as <- <- <- <- <- <-. by rewrite !lookup_partial_alter_eq.
  - rewrite !lookup_partial_alter_ne by done. by eapply H3.
Qed.

Lemma move_same x x' y : same x x' -> step x y -> exists y', step x' y' /\ same y y'.
Proof.
  intros Hs (s & Ht & Hm). pose proof Hs as [Hp Hst _]. destruct x as [p t], x' as [p' t']. simpl in Hp, Hst. subst p'.
  enough (exists y', move_by ext asserted subject (s_instruction s) (p, t') y' /\ same y y') as (y' & Hy' & Hsy).
  { exists y'. split; [|done]. exists s. split; [|done]. simpl in Ht |- *. by rewrite <- Hst. }
  destruct s as [i ins]. destruct ins as [|next|sym next|next|e next|alts|id bd next|an next|id next|body exit min max greedy];
    cbn [move_by s_instruction] in Hm |- *.
  - done.
  - subst y. eexists. split; [done|]. by apply (same_at_state (p, t) (p, t')).
  - destruct Hm as [Hm ->]. eexists. split; [by split|]. by apply (same_at_state (p, t) (p, t')).
  - destruct Hm as [Hm ->]. eexists. split; [by split|]. by apply (same_at_state (p, t) (p, t')).
  - destruct Hm as (j & Hj & Hb & ->). exists (at_state j t' next). split; [by exists j|]. by apply (same_at_state (p, t) (p, t')).
  - destruct Hm as (n & Hn & ->). eexists. split; [by exists n|]. by apply (same_at_state (p, t) (p, t')).
  - subst y. eexists. split; [done|]. apply (same_at_state (p, with_history t _) (p, with_history t' _)).
    by apply (same_with_history (p, t) (p, t')).
  - destruct Hm as [Hm ->]. eexists. split; [by split|]. by apply (same_at_state (p, t) (p, t')).
  - destruct Hm as [Hm ->]. eexists. split; [by split|]. by apply (same_at_state (p, t) (p, t')).
  - destruct (same_count _ _ _ _ _ _ _ _ Hs Ht) as (Hmin & Hmax & Hcol). cbn [snd] in *.
    destruct Hm as [[Hlt ->]|[Hle ->]].
    + eexists. split.
      * left. split; [|done]. destruct max; [by rewrite <- Hmax|done].
      * apply (same_with_repeats (p, t) (p, t') _ _ _ _ _ _ (Some _) (Some _) _ _ Hs Ht). exact (f_equal Some Hcol).
    + eexists. split; [right; split; [by apply Hmin|done]|].
      apply (same_with_repeats (p, t) (p, t') _ _ _ _ _ _ None None _ _ Hs Ht). done.
Qed.

(** ** One turn *)

(** Work spent by an execution that goes on, and by one that has ended. *)
Definition spent_on (limits : TextLimits) r : Prop :=
  ((r_transitions r < max_steps limits)%N \/ r_transitions r = 0%N) /\ (r_capture_history r <= max_capture_history limits)%N.

Definition spent (limits : TextLimits) (o : ExecutionOutcome) : Prop :=
  match o with
  | OMatch _ r | ONoMatch r | OUnsupported _ r => spent_on limits r
  | OLimit l r => (r_transitions r <= N.max 1 (max_steps limits))%N /\ (r_capture_history r <= max_capture_history limits)%N /\
      match l with
      | LimitTransitions => (max_steps limits <= r_transitions r)%N
      | LimitCaptureHistory => r_capture_history r = max_capture_history limits
      | LimitStates => (max_states limits < r_state_count r)%N
      | LimitSubject => (max_subject_symbols limits < r_subject_symbols r)%N
      end
  end.

Context (execute : Automaton Sym Ext -> list Sym -> TextLimits -> Res Empty_set ExecutionOutcome) (limits : TextLimits).

(** What the programs of assertions answer. *)
Class NestedOk : Prop := {
  nested_window : forall id p prog, a_assertions a !! id = Some prog ->
    window subject p (saturating_add (N.of_nat p) (p_width prog)) = None -> ~ asserted id subject p;
  nested_run : forall id p prog w lim, a_assertions a !! id = Some prog ->
    window subject p (saturating_add (N.of_nat p) (p_width prog)) = Some w ->
    max_states lim = max_states limits -> max_subject_symbols lim = max_subject_symbols limits ->
    exists o, execute (p_automaton prog) w lim = Ok o /\ spent lim o /\
      match o with
      | OMatch m _ => em_end m = length w /\ asserted id subject p
      | ONoMatch _ => ~ asserted id subject p
      | OLimit l _ => l = LimitTransitions \/ l = LimitCaptureHistory
      | OUnsupported _ _ => False
      end;
}.
Context `{NestedOk}.

Definition max_fan : nat := foldr Nat.max 2 (fan_out <$> a_states a).

Lemma max_fan_two : 2 <= max_fan.
Proof. unfold max_fan. generalize (fan_out <$> a_states a). intros l. induction l; simpl; lia. Qed.

Lemma max_fan_le s k : a_states a !! k = Some s -> fan_out s <= max_fan.
Proof. intros Hs. apply foldr_max_le, list_elem_of_fmap. exists s. split; [done|]. by eapply list_elem_of_lookup_2. Qed.

Definition turn_ok (s : State Sym Ext) x r (o : Turn) : Prop :=
  match o with
  | TPush es r' => (forall y, y ∈ es <-> move_by ext asserted subject (s_instruction s) x y) /\ length es <= max_fan /\
      spent_on limits r' /\ (r_transitions r <= r_transitions r')%N /\ s_instruction s <> IAccept
  | TStop o => spent limits o /\
      match o with
      | OMatch m r' => s_instruction s = IAccept /\ m = {| em_start := t_start x.2; em_end := x.1; em_captures := h_closed (t_history x.2) |} /\ r' = r
      | OLimit l r' => l = LimitTransitions \/ l = LimitCaptureHistory
      | OUnsupported (VariableWidthAssertion id) r' => r' = r /\ a_assertions a !! id = None /\ exists next, s_instruction s = IAssertion id next
      | ONoMatch _ => False
      end
  end.

Lemma elem_of_if_singleton (b : bool) y z (P : Prop) : (b = true <-> P) -> y ∈ (if b then [z] else []) <-> P /\ y = z.
Proof. intros Hb. destruct b; rewrite ?list_elem_of_singleton; [naive_solver|]. split; [by intros ?%elem_of_nil|naive_solver]. Qed.

(** A push of at most one entry that costs nothing but the transition. *)
Lemma push_ok s x r es : s_instruction s <> IAccept -> spent_on limits r -> length es <= 2 ->
  (forall y, y ∈ es <-> move_by ext asserted subject (s_instruction s) x y) -> turn_ok s x r (TPush es r).
Proof. intros Hi Hr Hl Hy. pose proof max_fan_two. split_and!; try done. lia. Qed.

(** Opens the receipts and limits of an arithmetic goal. *)
Ltac receipts := unfold spent_on in *; cbn [add_nested add_capture add_transition add_visit remaining_limits r_transitions r_capture_history
  r_state_count r_subject_symbols max_steps max_capture_history max_states max_subject_symbols] in *; unfold saturating_sub in *.

Lemma turn_assertion s p t r id next : a_states a !! t_state t = Some s -> s_instruction s = IAssertion id next -> spent_on limits r ->
  exists o, turn ext execute a subject limits r p t (IAssertion id next) = Ok o /\ turn_ok s (p, t) r o.
Proof using All.
  intros Hs Hi Hr. cbn [turn]. destruct (a_assertions a !! id) as [prog|] eqn:Hp; [|eexists; split; [done|]; by split; [|eauto]].
  assert (forall es, (es = [] /\ ~ asserted id subject p \/ es = [at_state p t next] /\ asserted id subject p) ->
    length es <= 2 /\ forall y, y ∈ es <-> move_by ext asserted subject (s_instruction s) (p, t) y) as Hes.
  { intros es [[-> Hn]|[-> Ha]]; rewrite Hi; cbn; (split; [lia|]); intros y; rewrite ?list_elem_of_singleton; [|naive_solver].
    split; [by intros ?%elem_of_nil|naive_solver]. }
  destruct (window subject p _) as [w|] eqn:Hw.
  - destruct (nested_run _ _ _ _ (remaining_limits limits r) Hp Hw eq_refl eq_refl) as (o & Ho & Hsp & Hc). rewrite Ho. cbn [rbind].
    eexists. split; [done|]. destruct o as [m nr|nr|l nr|ft nr]; simpl in Hsp.
    + destruct Hc as [-> Ha]. rewrite Nat.eqb_refl. destruct (Hes [at_state p t next]) as [Hl Hy]; [by right|].
      pose proof max_fan_two. destruct Hr as [Hr1 Hr2], Hsp as [Hs1 Hs2].
      split_and!; receipts; [done|simpl; lia|lia|lia|by rewrite Hi].
    + destruct (Hes []) as [Hl Hy]; [by left|]. apply push_ok; [by rewrite Hi|done..].
    + destruct Hr as [Hr1 Hr2], Hsp as (Hs1 & Hs2 & Hs3). split; [|done].
      destruct Hc as [->| ->]; split_and!; receipts; lia.
    + done.
  - eexists. split; [done|]. destruct (Hes []) as [Hl Hy]; [left; split; [done|]; by eapply nested_window|]. apply push_ok; [by rewrite Hi|done..].
Qed.

Lemma turn_spec s p t r : a_states a !! t_state t = Some s -> spent_on limits r ->
  exists o, turn ext execute a subject limits r p t (s_instruction s) = Ok o /\ turn_ok s (p, t) r o.
Proof using All.
  intros Hs Hr. destruct s as [i ins].
  destruct ins as [|next|sym next|next|e next|alts|id bd next|an next|id next|body exit min max greedy] eqn:Hi; cbn [turn s_instruction].
  - eexists. split; [done|]. by split.
  - eexists. split; [done|]. apply push_ok; [done|done|simpl; lia|]. intros y. cbn. by rewrite list_elem_of_singleton.
  - eexists. split; [done|]. apply push_ok; [done|done|case_decide; simpl; lia|]. intros y. cbn.
    case_decide; rewrite ?list_elem_of_singleton; [naive_solver|]. split; [by intros ?%elem_of_nil|naive_solver].
  - eexists. split; [done|]. apply push_ok; [done|done|case_match; simpl; lia|]. intros y. cbn [move_by s_instruction].
    apply elem_of_if_singleton, Nat.ltb_lt.
  - eexists. split; [done|]. apply push_ok; [done|done|repeat case_match; simpl; lia|]. intros y. cbn [move_by s_instruction].
    destruct (ext e subject p) as [j|]; [|split; [by intros ?%elem_of_nil|naive_solver]].
    rewrite (elem_of_if_singleton _ _ _ (p <= j <= length subject)) by (rewrite andb_true_iff, !Nat.leb_le; done). naive_solver.
  - eexists. split; [done|]. split_and!; [|rewrite length_fmap; exact (max_fan_le _ _ Hs)|done..].
    intros y. cbn. rewrite list_elem_of_fmap. naive_solver.
  - destruct (N.eqb_spec (r_capture_history r) (max_capture_history limits)) as [Hc|Hc]; eexists; (split; [done|]).
    + split; [|by right]. destruct Hr as [Hr1 Hr2]. split_and!; [lia|lia|done].
    + pose proof max_fan_two. destruct Hr as [Hr1 Hr2]. split_and!; receipts; [|simpl; lia|lia|lia|done].
      intros y. cbn. by rewrite list_elem_of_singleton.
  - eexists. split; [done|]. apply push_ok; [done|done|case_match; simpl; lia|]. intros y. cbn [move_by s_instruction]. by apply elem_of_if_singleton.
  - by apply turn_assertion.
  - eexists. split; [done|]. apply push_ok; [done|done|repeat case_match; simpl; lia|]. intros y. cbn [move_by s_instruction].
    set (count := default 0%N _). assert (match max with Some m => (count <? m)%N | None => true end = true <->
      match max with Some m => (count < m)%N | None => True end) as Hmax by (destruct max; [apply N.ltb_lt|done]).
    pose proof (N.leb_le min count) as Hmin. rewrite <- Hmax, <- Hmin.
    destruct (match max with Some _ => _ | None => _ end), (min <=? count)%N, greedy; simpl; set_solver.
Qed.

(** ** The loop *)

Context (starts : list nat).

(** [y] is stood for by a kept or pending entry that began no later. *)
Definition covered (V stack : list (nat * Thread)) y : Prop :=
  exists z, z ∈ V ++ stack /\ same z y /\ t_start z.2 <= t_start y.2.

(** The entries [V] kept so far, the pending ones and the keys seen. *)
Record LoopInv (V stack : list (nat * Thread)) (seen : gset (nat * StateId * list (StateId * N))) : Prop := {
  li_seen : forall k, k ∈ seen -> exists x, x ∈ V /\ key_of a x.1 x.2 = k;
  li_dead : forall x, x ∈ V -> ~ accepts x;
  li_moves : forall x y, x ∈ V -> step x y -> covered V stack y;
  li_starts : forall s, s ∈ starts -> covered V stack (start_thread a s);
  li_reach : forall x, x ∈ stack -> t_start x.2 ∈ starts /\ rtc step (start_thread a (t_start x.2)) x;
  li_sorted : StronglySorted (fun x y => t_start x.2 <= t_start y.2) stack;
  li_before : forall x z, x ∈ V -> z ∈ stack -> t_start x.2 <= t_start z.2;
}.

(** No run accepts that begins before every pending entry. *)
Lemma dead_before V stack seen b f : LoopInv V stack seen -> b ∈ starts -> (forall z, z ∈ stack -> b < t_start z.2) ->
  rtc step (start_thread a b) f -> ~ accepts f.
Proof.
  intros HI Hb Hst Hr. pose proof (li_starts _ _ _ HI b Hb) as Hc. assert (t_start (start_thread a b).2 = b) as Ht by done.
  revert Hc Ht. induction Hr as [x|x y f Hm _ IH]; intros (z & Hz & Hs & Hle) Ht Ha.
  all: assert (z ∈ V) as HzV by (apply elem_of_app in Hz as [Hz|Hz]; [done|]; apply Hst in Hz; lia).
  - eapply (li_dead _ _ _ HI); [exact HzV|]. eapply accepts_same; [|exact Ha]. by symmetry.
  - symmetry in Hs. destruct (move_same _ _ _ Hs Hm) as (y' & Hm' & Hsy).
    destruct (li_moves _ _ _ HI z y' HzV Hm') as (z' & Hz' & Hs' & Hle'). apply IH; [| |done].
    + exists z'. split; [done|]. split; [by etrans; [|symmetry]|]. rewrite (move_start _ _ Hm') in Hle'. rewrite (move_start _ _ Hm). lia.
    + by rewrite (move_start _ _ Hm).
Qed.

Lemma covered_mono V stack V' stack' y : (forall z, z ∈ V ++ stack -> exists z', z' ∈ V' ++ stack' /\ same z' z /\ t_start z'.2 <= t_start z.2) ->
  covered V stack y -> covered V' stack' y.
Proof. intros Hm (z & Hz & Hs & Hl). destruct (Hm z Hz) as (z' & Hz' & Hs' & Hl'). exists z'. split; [done|]. split; [by etrans|lia]. Qed.

(** An entry whose key was seen is dropped. *)
Lemma inv_skip V e rest seen : LoopInv V (e :: rest) seen -> key_of a e.1 e.2 ∈ seen -> LoopInv V rest seen.
Proof.
  intros [Hseen Hdead Hmoves Hstarts Hreach Hsort Hbefore] Hk. destruct (Hseen _ Hk) as (x & Hx & Hxk%key_same).
  assert (forall y, covered V (e :: rest) y -> covered V rest y) as Hc.
  { intros y. apply covered_mono. intros z [Hz|[->|Hz]%elem_of_cons]%elem_of_app.
    - exists z. split; [by apply elem_of_app; left|]. by split.
    - exists x. split; [by apply elem_of_app; left|]. split; [done|]. apply Hbefore; [done|by left].
    - exists z. split; [by apply elem_of_app; right|]. by split. }
  split; [done|done|eauto|eauto|..].
  - intros z Hz. apply Hreach. by right.
  - by inversion Hsort.
  - intros z w Hz Hw. apply Hbefore; [done|by right].
Qed.

(** A new entry is kept and its moves become pending. *)
Lemma inv_push V e rest seen es : LoopInv V (e :: rest) seen -> ~ accepts e -> (forall y, y ∈ es <-> step e y) ->
  LoopInv (e :: V) (es ++ rest) ({[key_of a e.1 e.2]} ∪ seen).
Proof using All.
  intros [Hseen Hdead Hmoves Hstarts Hreach Hsort Hbefore] Ha Hes. apply StronglySorted_inv in Hsort as [Hsort Hhd].
  rewrite Forall_forall in Hhd. destruct (Hreach e ltac:(by left)) as [Hes1 Her].
  assert (forall y, y ∈ es -> t_start y.2 = t_start e.2) as Hst by by intros y Hy%Hes; apply move_start.
  assert (forall y, covered V (e :: rest) y -> covered (e :: V) (es ++ rest) y) as Hc.
  { intros y. apply covered_mono. intros z Hz. exists z. split; [|by split]. set_solver. }
  split.
  - intros k [->%elem_of_singleton|Hk]%elem_of_union; [exists e; split; [by left|done]|].
    destruct (Hseen k Hk) as (x & Hx & Hxk). exists x. split; [by right|done].
  - intros x [->|Hx]%elem_of_cons; auto.
  - intros x y [->|Hx]%elem_of_cons Hm; [|by eapply Hc, Hmoves]. exists y. split; [|by split]. apply Hes in Hm. set_solver.
  - auto.
  - intros x [Hx|Hx]%elem_of_app; [|apply Hreach; by right]. rewrite (Hst x Hx). split; [done|]. eapply rtc_r; [exact Her|by apply Hes].
  - clear -Hsort Hst Hhd. induction es as [|y es IH]; [done|]. simpl. constructor.
    + apply IH. intros z Hz. apply Hst. by right.
    + apply Forall_forall. intros z Hz. rewrite (Hst y) by (by left).
      apply elem_of_app in Hz as [Hz|Hz]; [rewrite (Hst z) by (by right); done|by apply Hhd].
  - intros x z [->|Hx]%elem_of_cons [Hz|Hz]%elem_of_app.
    + by rewrite (Hst z Hz).
    + by apply Hhd.
    + rewrite (Hst z Hz). apply Hbefore; [done|by left].
    + apply Hbefore; [done|by right].
Qed.

(** What the outcome of a search says. *)
Definition search_ok (o : ExecutionOutcome) : Prop :=
  match o with
  | OMatch m _ => em_start m ∈ starts /\
      (exists f, rtc step (start_thread a (em_start m)) f /\ accepts f /\ f.1 = em_end m /\ h_closed (t_history f.2) = em_captures m) /\
      forall s f, s ∈ starts -> s < em_start m -> rtc step (start_thread a s) f -> ~ accepts f
  | ONoMatch _ => forall s f, s ∈ starts -> rtc step (start_thread a s) f -> ~ accepts f
  | OLimit _ _ => True
  | OUnsupported (VariableWidthAssertion id) _ => a_assertions a !! id = None /\
      exists k next, s_instruction <$> a_states a !! k = Some (IAssertion id next)
  end.

Definition in_loop (o : ExecutionOutcome) : Prop :=
  match o with OLimit l _ => l = LimitTransitions \/ l = LimitCaptureHistory | _ => True end.

Lemma loop_spec fuel : forall V r seen stack, LoopInv V stack seen -> spent_on limits r ->
  length stack + (N.to_nat (max_steps limits) - N.to_nat (r_transitions r)) * max_fan < fuel ->
  exists o, exec_loop ext fuel execute a subject limits r seen stack = Ok o /\ spent limits o /\ in_loop o /\ search_ok o.
Proof using All.
  induction fuel as [|fuel IH]; intros V r seen stack HI Hr Hf; [by apply Nat.nlt_0_r in Hf|]. destruct stack as [|[p t] rest]; cbn [exec_loop].
  { eexists. split; [done|]. split; [done|]. split; [done|]. intros s f Hs Hrun. eapply dead_before; eauto. by intros ? ?%elem_of_nil. }
  cbn [length] in Hf. assert (spent_on limits (add_visit r)) as Hr' by done.
  case_decide as Hk.
  { eapply IH; [exact (inv_skip V (p, t) rest seen HI Hk)|done|receipts; lia]. }
  destruct (a_states a !! t_state t) as [s|] eqn:Hs; cycle 1.
  { eapply (IH (_ :: V) (add_visit r) _ ([] ++ rest)); [apply (inv_push V (p, t) rest seen [] HI)|done|simpl; receipts; lia].
    - intros (s & Hs' & _). simpl in Hs'. congruence.
    - intros y. split; [by intros ?%elem_of_nil|]. intros (s & Hs' & _). simpl in Hs'. congruence. }
  destruct (turn_spec s p t (add_visit r) Hs Hr') as (o & -> & Ho). cbn [rbind]. destruct o as [o|es r1].
  - exists o. destruct Ho as [Hsp Ho]. split; [done|]. split; [done|]. destruct o as [m r1|r1|l r1|[id] r1]; [|done|done|].
    + destruct Ho as (Hi & -> & ->). split; [done|]. destruct (li_reach _ _ _ HI (p, t) ltac:(by left)) as [Hts Hrun]. cbn in *.
      split; [done|]. split; [exists (p, t); split_and!; [done|by exists s|done|done]|].
      intros s0 f Hs0 Hlt Hf0. eapply dead_before; [exact HI|exact Hs0| |exact Hf0].
      pose proof (li_sorted _ _ _ HI) as [_ Hhd]%StronglySorted_inv. rewrite Forall_forall in Hhd.
      intros z [->|Hz]%elem_of_cons; [done|]. apply Hhd in Hz. simpl in Hz. lia.
    + destruct Ho as (-> & Hn & next & Hi). split; [done|]. split; [done|]. exists (t_state t), next. rewrite Hs. simpl. by rewrite Hi.
  - destruct Ho as (Hes & Hlen & Hr1 & Hmono & Hi). destruct (N.leb_spec (max_steps limits) (r_transitions (add_transition r1))) as [Hle|Hlt].
    { eexists. split; [done|]. split; [|split; [by left|done]]. destruct Hr1 as [Hr1 Hc1]. split_and!; receipts; lia. }
    eapply (IH ((p, t) :: V)); [apply (inv_push V (p, t) rest seen es HI)| |].
    + intros (s' & Hs' & Hi'). simpl in Hs'. rewrite Hs in Hs'. by injection Hs' as <-.
    + intros y. rewrite Hes. split; [intros Hm; by exists s|]. intros (s' & Hs' & Hm). simpl in Hs'. rewrite Hs in Hs'. by injection Hs' as <-.
    + destruct Hr1. split; receipts; [by left|done].
    + rewrite length_app. receipts. nia.
Qed.
End Search.
