(* ===== verification/PatternMatch.v ===== *)
(** * Searching with a compiled pattern

    Compilation and search together: for a valid pattern [search_regular]
    answers with the leftmost match of the reference meaning, with its captures,
    or there is none.  In that meaning assertions look at their windows
    ([matches]); without anchors in them this is to look at the subject ([means]).
    Otherwise a limit was really reached or the pattern uses
    an assertion without a fixed width.  The search always ends. *)

From stdpp Require Import relations.
From S2P Require Import Prelude BTree PatternIr PatternCompile PatternExecute PatternThompson PatternSearch.

(** Assertions do not refer to assertions. *)
Abbreviation no_assertions := (fun (_ : AssertionId) _ (_ : nat) => False).

Section Meaning.
Context {Sym Ext : Type} (ext : Ext -> list Sym -> nat -> option nat).

(** An assertion holds at [i] when its definition matches the next symbols, as
    many as its width, taken as a subject of their own. *)
Definition asserts (assertions : BTreeMap AssertionId (IrNode Sym Ext)) (id : AssertionId) (subject : list Sym) (i : nat) : Prop :=
  exists d w c, assertions !! id = Some d /\ fixed_width d = Some w /\ (N.of_nat i + w <= len subject)%N /\
    parse ext no_assertions (take (N.to_nat w) (drop i subject)) d (0, ∅) (N.to_nat w, c).

(** [ir] matches [subject] from [i] to [j] with captures [c]. *)
Definition matches (ir : PatternIr Sym Ext) (subject : list Sym) (i j : nat) (c : Captures) : Prop :=
  parse ext (asserts (ir_assertions ir)) subject (ir_root ir) (i, ∅) (j, c).

(** An assertion of fixed width holds at [i] of the subject when its definition
    matches the subject there. *)
Definition holds_here (assertions : BTreeMap AssertionId (IrNode Sym Ext)) (id : AssertionId) (subject : list Sym) (i : nat) : Prop :=
  exists d w j c, assertions !! id = Some d /\ fixed_width d = Some w /\ i <= length subject /\ parse ext no_assertions subject d (i, ∅) (j, c).

(** The documented meaning: the assertions of [ir] look at the subject itself. *)
Definition means (ir : PatternIr Sym Ext) (subject : list Sym) (i j : nat) (c : Captures) : Prop :=
  parse ext (holds_here (ir_assertions ir)) subject (ir_root ir) (i, ∅) (j, c).
End Meaning.

(** No anchor occurs in the expression. *)
Fixpoint anchor_free {Sym Ext : Type} (n : IrNode Sym Ext) : bool :=
  match n with
  | NConcat nodes | NAlternation nodes => forallb anchor_free nodes
  | NRepeat node _ _ | NGroup node | NCapture _ node => anchor_free node
  | NAnchor _ => false
  | NSymbol _ | NAny | NAssertion _ | NExtension _ => true
  end.

Lemma single_match_Some {Sym Ext : Type} (f : Ext -> Sym -> bool) e subject i j :
  single_match f e subject i = Some j <-> exists s, subject !! i = Some s /\ f e s = true /\ j = S i.
Proof.
  unfold single_match. split.
  - destruct (subject !! i) as [s|]; [|done]. destruct (f e s) eqn:He; [|done]. intros [= <-]. by exists s.
  - by intros (s & -> & -> & ->).
Qed.

(** ** Assertions without anchors

    An expression without anchors matches a window of the subject exactly when it
    matches the subject there. *)

Section Window.
Context {Sym Ext : Type} (extension_matches : Ext -> Sym -> bool) (subject : list Sym) (p w : nat) (Hw : p + w <= length subject).
Abbreviation win := (take w (drop p subject)).
Abbreviation parse_in s := (parse (single_match extension_matches) no_assertions s).

Lemma window_lookup i : i < w -> win !! i = subject !! (p + i).
Proof. intros Hi. rewrite lookup_take_lt by done. by rewrite lookup_drop. Qed.

Lemma window_length : length win = w.
Proof using Hw. rewrite length_take, length_drop. lia. Qed.

Lemma window_lookup_Some i s : win !! i = Some s -> subject !! (p + i) = Some s.
Proof using Hw. intros Hi. pose proof (lookup_lt_Some _ _ _ Hi) as Hlt. rewrite window_length in Hlt. by rewrite <- window_lookup. Qed.

Lemma parse_from_window (n : IrNode Sym Ext) : anchor_free n = true -> forall x y, parse_in win n x y -> forall d, exists d',
  parse_in subject n (p + x.1, d) (p + y.1, d').
Proof using Hw.
  induction n as [s| |l Hl|l Hl|n b g IH|n IH|id n IH|a|id|e] using ir_ind; intros Ha x y Hp d; cbn [anchor_free parse] in Ha, Hp; try done.
  - destruct Hp as [Hs ->]. exists d. cbn [fst snd parse]. split; [by apply window_lookup_Some|]. f_equal. lia.
  - destruct Hp as [Hs ->]. rewrite window_length in Hs. exists d. cbn [fst snd parse]. split; [lia|]. f_equal. lia.
  - revert x d Hp Ha. induction Hl as [|n l Hn _ IHl]; intros x d Hp Ha; cbn [forallb foldr] in *; [subst; by exists d|].
    apply andb_prop in Ha as [Ha1 Ha2]. destruct Hp as (z & Hz & Hr). destruct (Hn Ha1 _ _ Hz d) as [d1 H1].
    destruct (IHl z d1 Hr Ha2) as [d2 H2]. exists d2. by eexists.
  - revert Hp Ha. induction Hl as [|n l Hn _ IHl]; intros Hp Ha; cbn [forallb foldr] in *; [done|]. apply andb_prop in Ha as [Ha1 Ha2].
    destruct Hp as [Hp|Hp]; [destruct (Hn Ha1 _ _ Hp d) as [d' H']; exists d'; by left|].
    destruct (IHl Hp Ha2) as [d' H']. exists d'. by right.
  - destruct Hp as (k & Hk & Hs). enough (exists d', nsteps (parse_in subject n) k (p + x.1, d) (p + y.1, d')) as [d' Hd'] by (exists d'; by exists k).
    clear Hk. revert d. induction Hs as [x|k x z y Hz _ IHk]; intros d; [exists d; constructor|].
    destruct (IH Ha _ _ Hz d) as [d1 H1]. destruct (IHk d1) as [d2 H2]. exists d2. by econstructor.
  - by apply IH.
  - destruct Hp as (c & Hp & _). destruct (IH Ha _ _ Hp d) as [d' H']. eexists. simpl. eexists. split; [exact H'|reflexivity].
  - by destruct Hp as [[] _].
  - destruct x as [x cx]. destruct Hp as (j & Hj & Hb & ->). apply single_match_Some in Hj as (s & Hs%window_lookup_Some & He & ->).
    apply lookup_lt_Some in Hs as Hlt. exists d, (S (p + x)). cbn [fst snd] in *. rewrite single_match_Some. split; [by exists s|]. split; [lia|]. f_equal. lia.
Qed.

(** The end of a sequence of matches is not before its beginning. *)
Lemma concat_bounds (l : list (IrNode Sym Ext)) x y : foldr (fun n R => seq_rel (parse_in subject n) R) eq l x y -> x.1 <= length subject -> x.1 <= y.1.
Proof. intros Hp Hx. eapply (parse_bounds _ _ subject (NConcat l) x y); [exact Hp|done]. Qed.

Lemma nsteps_bounds (n : IrNode Sym Ext) k x y : nsteps (parse_in subject n) k x y -> x.1 <= length subject -> x.1 <= y.1.
Proof.
  intros Hp Hx. eapply (parse_bounds _ _ subject (NRepeat n {| rb_min := 0; rb_max := None |} true) x y); [|done].
  exists k. split; [|done]. split; [apply N.le_0_l|done].
Qed.

Lemma parse_to_window (n : IrNode Sym Ext) : anchor_free n = true -> forall x y i d, parse_in subject n x y -> x.1 = p + i ->
  y.1 <= p + w -> x.1 <= length subject -> exists j d', y.1 = p + j /\ parse_in win n (i, d) (j, d').
Proof using Hw.
  induction n as [s| |l Hl|l Hl|n b g IH|n IH|id n IH|a|id|e] using ir_ind; intros Ha x y i d Hp Hx Hy Hle; cbn [anchor_free parse] in Ha, Hp; try done.
  - destruct Hp as [Hs ->]. cbn [fst snd] in Hy. exists (S i), d. cbn [fst snd parse]. split; [lia|]. split; [|done]. rewrite window_lookup by lia. by rewrite <- Hx.
  - destruct Hp as [Hs ->]. cbn [fst snd] in Hy. exists (S i), d. cbn [fst snd parse]. split; [lia|]. split; [|done]. rewrite window_length. lia.
  - revert x i d Hp Ha Hx Hle. induction Hl as [|n l Hn _ IHl]; intros x i d Hp Ha Hx Hle; cbn [forallb foldr] in *; [subst; by exists i, d|].
    apply andb_prop in Ha as [Ha1 Ha2]. destruct Hp as (z & Hz & Hr).
    pose proof (parse_bounds _ _ _ _ _ _ Hz Hle) as Hzb. pose proof (concat_bounds _ _ _ Hr ltac:(lia)) as Hzy.
    destruct (Hn Ha1 x z i d Hz Hx ltac:(lia) Hle) as (j & d1 & Hj & H1).
    destruct (IHl z j d1 Hr Ha2 Hj ltac:(lia)) as (j2 & d2 & Hj2 & H2). exists j2, d2. split; [done|]. by eexists.
  - revert Hp Ha. induction Hl as [|n l Hn _ IHl]; intros Hp Ha; cbn [forallb foldr] in *; [done|]. apply andb_prop in Ha as [Ha1 Ha2].
    destruct Hp as [Hp|Hp]; [destruct (Hn Ha1 x y i d Hp Hx Hy Hle) as (j & d' & Hj & H'); exists j, d'; split; [done|by left]|].
    destruct (IHl Hp Ha2) as (j & d' & Hj & H'). exists j, d'. split; [done|by right].
  - destruct Hp as (k & Hk & Hs). enough (exists j d', y.1 = p + j /\ nsteps (parse_in win n) k (i, d) (j, d')) as (j & d' & Hj & Hd')
      by (exists j, d'; split; [done|]; by exists k).
    clear Hk. revert i d Hx Hle. induction Hs as [x|k x z y Hz Hzy IHk]; intros i d Hx Hle; [exists i, d; split; [done|constructor]|].
    pose proof (parse_bounds _ _ _ _ _ _ Hz Hle) as Hzb. pose proof (nsteps_bounds _ _ _ _ Hzy ltac:(lia)) as Hb.
    destruct (IH Ha x z i d Hz Hx ltac:(lia) Hle) as (j & d1 & Hj & H1).
    destruct (IHk Hy j d1 Hj ltac:(lia)) as (j2 & d2 & Hj2 & H2). exists j2, d2. split; [done|]. by econstructor.
  - by eapply IH.
  - destruct Hp as (c & Hp & _). destruct (IH Ha x (y.1, c) i d Hp Hx Hy Hle) as (j & d' & Hj & H'). exists j. eexists. split; [exact Hj|].
    simpl. eexists. split; [exact H'|reflexivity].
  - by destruct Hp as [[] _].
  - destruct x as [x cx]. destruct Hp as (j & Hj & Hb & ->). cbn [fst snd] in Hx, Hy, Hj, Hb. apply single_match_Some in Hj as (s & Hs & He & ->). exists (S i), d. cbn [fst snd parse].
    split; [lia|]. exists (S i). rewrite single_match_Some, window_length, window_lookup by lia. rewrite <- Hx. split; [by exists s|]. split; [lia|done].
Qed.
End Window.

(** The meaning depends on the assertions only through where they hold. *)
Lemma parse_asserted {Sym Ext : Type} (ext : Ext -> list Sym -> nat -> option nat) (A B : AssertionId -> list Sym -> nat -> Prop) subject (n : IrNode Sym Ext) :
  (forall id i, A id subject i <-> B id subject i) -> forall x y, parse ext A subject n x y <-> parse ext B subject n x y.
Proof.
  intros Hab. induction n as [s| |l Hl|l Hl|n b g IH|n IH|id n IH|a|id|e] using ir_ind; intros x y; simpl; try done.
  - revert x. induction Hl as [|n l Hn _ IHl]; intros x; simpl; [done|]. unfold seq_rel. split; intros (z & Hz & Hr); exists z; split;
      by try apply Hn; try apply IHl.
  - induction Hl as [|n l Hn _ IHl]; simpl; [done|]. by rewrite Hn, IHl.
  - split; intros (k & Hk & Hs); exists k; (split; [done|]); clear Hk; induction Hs as [|k x z y Hz _ IHk]; econstructor; try done; by apply IH.
  - split; intros (c & Hp & Hc); exists c; (split; [by apply IH|done]).
  - by rewrite Hab.
Qed.

(** Assertions without anchors hold in their window when they hold in the subject. *)
Lemma asserts_here {Sym Ext : Type} (f : Ext -> Sym -> bool) assertions id subject i : (forall id d, assertions !! id = Some d -> anchor_free d = true) ->
  asserts (single_match f) assertions id subject i <-> holds_here (single_match f) assertions id subject i.
Proof.
  intros Hfree. unfold asserts, holds_here, len. split.
  - intros (d & w & c & Hd & Hw & Hle & Hp). destruct (parse_from_window f subject i (N.to_nat w) ltac:(lia) d (Hfree _ _ Hd) _ _ Hp ∅) as [c' Hc'].
    simpl in Hc'. rewrite Nat.add_0_r in Hc'. exists d, w. do 2 eexists. split_and!; [done..|lia|exact Hc'].
  - intros (d & w & j & c & Hd & Hw & Hle & Hp).
    assert (N.of_nat j = N.of_nat i + w)%N as Hj.
    { refine (fixed_width_parse _ _ subject d _ w (i, ∅) (j, c) Hw Hp). intros e k k'. unfold single_match. repeat case_match; naive_solver. }
    pose proof (parse_bounds _ _ _ _ _ _ Hp Hle) as Hb. simpl in Hb.
    destruct (parse_to_window f subject i (N.to_nat w) ltac:(lia) d (Hfree _ _ Hd) (i, ∅) (j, c) 0 ∅ Hp) as (j' & c' & Hj' & Hc'); simpl in *; [lia..|].
    exists d, w, c'. split_and!; [done..|lia|]. assert (j' = N.to_nat w) as -> by lia. exact Hc'.
Qed.

Section Compiled.
Context {Sym Ext : Type} `{EqDecision Sym} (ext : Ext -> list Sym -> nat -> option nat).
Implicit Types (n : IrNode Sym Ext) (a : Automaton Sym Ext).

(** An automaton whose table was built for [n]. *)
Definition built_for n a : Prop :=
  exists acc st, push IAccept [] = Ok (acc, st) /\ build_node n acc st = Ok (a_start a, a_states a).

Lemma built_accept n a : built_for n a -> a_states a !! 0 = Some {| s_id := 0; s_instruction := IAccept |}.
Proof.
  intros (acc & st & [-> ->]%push_Ok & Hb). destruct (build_extends _ _ _ _ _ Hb) as [l ->]. done.
Qed.

Lemma built_refs n a k s id next : built_for n a -> a_states a !! k = Some s -> s_instruction s = IAssertion id next -> IRef id ∈ items n.
Proof.
  intros (acc & st & [-> ->]%push_Ok & Hb) Hs Hi. change (made_of n (IAssertion id next) ). rewrite <- Hi.
  assert (from_on 0 (fun ins => ins = IAccept \/ made_of n ins) (a_states a)) as Hf.
  { eapply (build_made_of n); [by right|exact Hb|]. intros i s' _ Hs'. apply list_lookup_singleton_Some in Hs' as [_ <-]. by left. }
  destruct (Hf k s ltac:(lia) Hs) as [Ha|Hm]; [congruence|done].
Qed.

Lemma built_runs asserted subject n a s f : built_for n a -> NoDup (captures_in (items n)) ->
  rtc (move ext asserted subject (a_states a)) (start_thread a s) f -> accepting (a_states a) f ->
  parse ext asserted subject n (s, ∅) (f.1, h_closed (t_history f.2)).
Proof.
  intros Hbuilt Hnd [k Hk]%rtc_nsteps Hf. pose proof (built_accept _ _ Hbuilt) as H0.
  destruct Hbuilt as (acc & st & [-> ->]%push_Ok & Hb).
  destruct (build_sound ext asserted subject (a_states a) n Hnd _ _ _ _ Hb ltac:(by intros ? ?) s k s ∅ ∅ ∅ f) as (k' & j & c & _ & Hp & Hr);
    [by intros ? ?|by intros ? ?|exact Hk|done|].
  inversion Hr as [|? ? y ? Hm]; subst; [done|]. destruct Hm as (s' & Hs' & Hm). cbn in Hs'. rewrite H0 in Hs'. by injection Hs' as <-.
Qed.

Lemma parse_runs asserted subject n a s j c : built_for n a -> NoDup (captures_in (items n)) ->
  parse ext asserted subject n (s, ∅) (j, c) ->
  exists f, rtc (move ext asserted subject (a_states a)) (start_thread a s) f /\ accepting (a_states a) f.
Proof.
  intros Hbuilt Hnd Hp. pose proof (built_accept _ _ Hbuilt) as H0. destruct Hbuilt as (acc & st & [-> ->]%push_Ok & Hb).
  exists (entry_at s j 0 ∅ ∅ c). split; [|by exists {| s_id := 0; s_instruction := IAccept |}].
  apply (build_complete ext asserted subject (a_states a) n Hnd _ _ _ _ Hb); [by intros ? ?|by intros ? ?|by intros ? ?|done].
Qed.

(** What an execution over [starts] says about the meaning of [n]. *)
Definition answer_ok asserted subject n (starts : list nat) (o : ExecutionOutcome) : Prop :=
  match o with
  | OMatch m _ => em_start m ∈ starts /\ parse ext asserted subject n (em_start m, ∅) (em_end m, em_captures m) /\
      forall s j c, s ∈ starts -> s < em_start m -> ~ parse ext asserted subject n (s, ∅) (j, c)
  | ONoMatch _ => forall s j c, s ∈ starts -> ~ parse ext asserted subject n (s, ∅) (j, c)
  | OLimit _ _ | OUnsupported _ _ => True
  end.

Lemma search_answer asserted subject n a starts o : built_for n a -> NoDup (captures_in (items n)) ->
  search_ok ext asserted a subject starts o -> answer_ok asserted subject n starts o.
Proof.
  intros Hb Hnd. destruct o as [m r|r|l r|[id] r]; simpl; [|..|done|done].
  - intros (Hs & (f & Hf & Ha & <- & <-) & Hleft). split; [done|]. split; [by eapply built_runs|].
    intros s j c Hin Hlt Hp. destruct (parse_runs _ _ _ _ _ _ _ Hb Hnd Hp) as (f' & Hf' & Ha'). by eapply Hleft.
  - intros Hno s j c Hin Hp. destruct (parse_runs _ _ _ _ _ _ _ Hb Hnd Hp) as (f' & Hf' & Ha'). by eapply Hno.
Qed.

(** The limits that are checked before the loop. *)
Definition admitted (limits : TextLimits) a (subject : list Sym) : Prop :=
  (ev_state_count (a_evidence a) <= max_states limits)%N /\ (len subject <= max_subject_symbols limits)%N.

Lemma start_inv asserted a subject starts : StronglySorted le starts ->
  LoopInv ext asserted a subject starts [] (start_thread a <$> starts) ∅.
Proof.
  intros Hs. split; try (by intros ? ?%elem_of_empty); try (by intros ? ?%elem_of_nil); try (by intros ? ? ?%elem_of_nil).
  - intros s Hin. exists (start_thread a s). split; [by apply list_elem_of_fmap_2|]. by split.
  - intros x (s & -> & Hin)%list_elem_of_fmap. by split.
  - induction Hs as [|s l _ IH Hl]; simpl; constructor; [done|]. apply Forall_forall.
    intros x (s' & -> & Hin)%list_elem_of_fmap. exact (proj1 (Forall_forall _ _) Hl s' Hin).
Qed.

Lemma execute_inner_spec asserted depth a subject starts limits n : built_for n a -> NoDup (captures_in (items n)) ->
  StronglySorted le starts ->
  (admitted limits a subject -> NestedOk asserted a subject (fun a subject limits => execute_inner ext depth a subject [0] limits) limits) ->
  exists o, execute_inner ext (S depth) a subject starts limits = Ok o /\ spent limits o /\ answer_ok asserted subject n starts o /\
    (admitted limits a subject -> in_loop o) /\
    match o with OUnsupported (VariableWidthAssertion id) _ => a_assertions a !! id = None /\
      exists k next, s_instruction <$> a_states a !! k = Some (IAssertion id next) | _ => True end.
Proof.
  intros Hb Hnd Hsort Hnest. cbn [execute_inner]. unfold admitted in *.
  destruct (N.ltb_spec (max_states limits) (r_state_count (start_receipt a subject))) as [Hlt|Hst].
  { eexists. split; [done|]. split; [|split; [done|split; [|done]]]; [split_and!; [apply N.le_0_l..|exact Hlt]|cbn [start_receipt r_state_count r_subject_symbols] in Hlt; lia]. }
  destruct (N.ltb_spec (max_subject_symbols limits) (r_subject_symbols (start_receipt a subject))) as [Hlt|Hsub].
  { eexists. split; [done|]. split; [|split; [done|split; [|done]]]; [split_and!; [apply N.le_0_l..|exact Hlt]|cbn [start_receipt r_state_count r_subject_symbols] in Hlt; lia]. }
  specialize (Hnest (conj Hst Hsub)).
  destruct (loop_spec ext asserted a subject _ limits starts (exec_fuel a (length starts) limits) [] (start_receipt a subject) ∅
    (start_thread a <$> starts) (start_inv _ _ _ _ Hsort)) as (o & Ho & Hsp & Hin & Hok).
  - split; [by right|apply N.le_0_l].
  - rewrite length_fmap. unfold exec_fuel, max_fan. cbn [start_receipt r_transitions]. lia.
  - exists o. split; [exact Ho|]. split; [done|]. split; [by eapply search_answer|]. split; [done|]. by destruct o as [| | |[]].
Qed.
End Compiled.

(** ** Compiled patterns *)

Section CompileSpec.
Context {Sym Ext : Type}.
Implicit Types (n d : IrNode Sym Ext) (a : Automaton Sym Ext) (ir : PatternIr Sym Ext).

Definition program_for d (p : AssertionProgram Sym Ext) : Prop :=
  fixed_width d = Some (p_width p) /\ built_for d (p_automaton p) /\ a_assertions (p_automaton p) = ∅.

Lemma compile_node_Ok d a : compile_node d = Ok a -> built_for d a /\ a_assertions a = ∅.
Proof.
  unfold compile_node. intros ([acc st] & H1 & ([start states] & H2 & [= <-])%rbind_Ok)%rbind_Ok. split; [|done].
  by exists acc, st.
Qed.

Lemma compile_assertions_Ok l : forall out, compile_assertions l = Ok out ->
  (forall id p, (id, p) ∈ out -> exists d, (id, d) ∈ l /\ program_for d p) /\
  (forall id d w, (id, d) ∈ l -> fixed_width d = Some w -> exists p, (id, p) ∈ out) /\ out.*1 `sublist_of` l.*1.
Proof.
  induction l as [|[id d] l IH]; intros out Ho; cbn [compile_assertions] in Ho.
  { injection Ho as <-. split_and!; [by intros ? ? ?%elem_of_nil|by intros ? ? ? ?%elem_of_nil|constructor]. }
  destruct (fixed_width d) as [w|] eqn:Hw.
  - apply rbind_Ok in Ho as (a & [Hb Hn]%compile_node_Ok & (rest & Hr & [= <-])%rbind_Ok).
    destruct (IH _ Hr) as (H1 & H2 & H3). split_and!; [| |by constructor].
    + intros id' p [[= -> ->]|Hp]%elem_of_cons; [exists d; split; [by left|by split]|].
      destruct (H1 id' p Hp) as (d' & ? & ?). exists d'. split; [by right|done].
    + intros id' d' w' [[= -> ->]|Hd]%elem_of_cons Hw'; [eexists; by left|]. destruct (H2 _ _ _ Hd Hw') as [p Hp]. exists p. by right.
  - destruct (IH _ Ho) as (H1 & H2 & H3). split_and!; [| |by constructor].
    + intros id' p Hp. destruct (H1 id' p Hp) as (d' & ? & ?). exists d'. split; [by right|done].
    + intros id' d' w' [[= -> ->]|Hd]%elem_of_cons Hw'; [congruence|eauto].
Qed.

Record CompiledFor ir a : Prop := {
  cf_built : built_for (ir_root ir) a;
  cf_program : forall id p, a_assertions a !! id = Some p -> exists d, ir_assertions ir !! id = Some d /\ program_for d p /\
    (ev_state_count (a_evidence (p_automaton p)) <= ev_state_count (a_evidence a))%N;
  cf_refused : forall id d, a_assertions a !! id = None -> ir_assertions ir !! id = Some d -> fixed_width d = None;
}.

Lemma sum_le (l : list N) x : x ∈ l -> (x <= foldr N.add 0 l)%N.
Proof. induction l as [|y l IH]; [by intros ?%elem_of_nil|]. intros [->|Hx%IH]%elem_of_cons; simpl; lia. Qed.

Lemma compile_Ok ir a : compile ir = Ok a -> CompiledFor ir a.
Proof.
  unfold compile. intros ([acc st] & H1 & ([start states] & H2 & (out & Ho & [= <-])%rbind_Ok)%rbind_Ok)%rbind_Ok.
  destruct (compile_assertions_Ok _ _ Ho) as (Hp & Hw & Hsub).
  assert (NoDup out.*1) as Hnd. { eapply sublist_NoDup; [|exact Hsub]. rewrite map_entries_keys. apply set_keys_NoDup. }
  split; cbn [a_assertions a_evidence ev_state_count].
  - by exists acc, st.
  - intros id p Hl%elem_of_list_to_map_2. destruct (Hp id p Hl) as (d & Hd%elem_of_map_entries & Hprog).
    exists d. split; [done|]. split; [done|]. etrans; [|apply N.le_add_l]. apply sum_le, list_elem_of_fmap. by exists (id, p).
  - intros id d Hl%not_elem_of_list_to_map Hd. destruct (fixed_width d) as [w|] eqn:Hfw; [|done]. exfalso. apply Hl.
    destruct (Hw id d w) as [p Hp']; [by apply elem_of_map_entries|done|]. by apply (list_elem_of_fmap_2 fst _ (id, p)).
Qed.

Lemma push_accept : push (Sym := Sym) (Ext := Ext) IAccept [] = Ok (0, [{| s_id := 0; s_instruction := IAccept |}]).
Proof. done. Qed.

Lemma compile_node_sized d :
  match compile_node d with
  | Ok a => ev_state_count (a_evidence a) = N.of_nat (S (ir_size d)) /\ (N.of_nat (S (ir_size d)) <= u32_max + 1)%N
  | Panic => (u32_max + 1 < N.of_nat (S (ir_size d)))%N
  | _ => False
  end.
Proof.
  unfold compile_node. rewrite push_accept. cbn [rbind]. pose proof (build_sized d 0 [{| s_id := 0; s_instruction := IAccept |}]) as Hs.
  destruct (build_node d 0 _) as [[start st]|e| |]; cbn [rbind]; [|done|exact Hs|done]. destruct Hs as [Hlen Hs].
  cbn [a_evidence ev_state_count]. unfold len. rewrite Hlen in *. split; [done|]. destruct Hs as [->|Hs]; [done|exact Hs].
Qed.

(** The states of the compiled assertions. *)
Definition program_states (l : list (AssertionId * IrNode Sym Ext)) : N :=
  foldr N.add 0%N ((fun '(_, d) => match fixed_width d with Some _ => N.of_nat (S (ir_size d)) | None => 0%N end) <$> l).

Lemma compile_assertions_sized l :
  match compile_assertions l with
  | Ok out => foldr N.add 0%N ((fun '(_, p) => ev_state_count (a_evidence (p_automaton p))) <$> out) = program_states l /\
      (forall id d, (id, d) ∈ l -> fixed_width d <> None -> (N.of_nat (S (ir_size d)) <= u32_max + 1)%N)
  | Panic => exists id d, (id, d) ∈ l /\ fixed_width d <> None /\ (u32_max + 1 < N.of_nat (S (ir_size d)))%N
  | _ => False
  end.
Proof.
  induction l as [|[id d] l IH]; [split; [done|by intros ? ? ?%elem_of_nil]|]. unfold program_states. cbn [compile_assertions fmap list_fmap foldr].
  fold (program_states l). destruct (fixed_width d) as [w|] eqn:Hw.
  - pose proof (compile_node_sized d) as Hd. destruct (compile_node d) as [a|e| |]; cbn [rbind]; [|done| |done].
    + destruct Hd as [Hc Hd]. destruct (compile_assertions l) as [out|e| |]; cbn [rbind]; [|done| |done].
      * destruct IH as [IH1 IH2]. split; [rewrite <- IH1, <- Hc; done|]. intros id' d' [[= -> ->]|Hin]%elem_of_cons; [done|by eapply IH2].
      * destruct IH as (id' & d' & ? & ? & ?). exists id', d'. split; [by right|done].
    + exists id, d. split; [by left|]. split; [by rewrite Hw|done].
  - rewrite N.add_0_l. destruct (compile_assertions l) as [out|e| |]; [|done| |done].
    + destruct IH as [IH1 IH2]. split; [done|]. intros id' d' [[= -> ->]|Hin]%elem_of_cons; [by rewrite Hw|by eapply IH2].
    + destruct IH as (id' & d' & ? & ? & ?). exists id', d'. split; [by right|done].
Qed.

Lemma compile_total_facts ir :
  match compile ir with
  | Ok a => len (a_states a) = N.of_nat (S (ir_size (ir_root ir))) /\
      ev_state_count (a_evidence a) = (N.of_nat (S (ir_size (ir_root ir))) + program_states (map_entries (ir_assertions ir)))%N
  | Panic => exists d, (d = ir_root ir \/ exists id, ir_assertions ir !! id = Some d /\ fixed_width d <> None) /\ (u32_max + 1 < N.of_nat (S (ir_size d)))%N
  | _ => False
  end.
Proof.
  unfold compile. rewrite push_accept. cbn [rbind]. pose proof (build_sized (ir_root ir) 0 [{| s_id := 0; s_instruction := IAccept |}]) as Hs.
  destruct (build_node (ir_root ir) 0 _) as [[start st]|e| |]; cbn [rbind]; [|done|exists (ir_root ir); split; [by left|exact Hs]|done].
  destruct Hs as [Hlen _]. pose proof (compile_assertions_sized (map_entries (ir_assertions ir))) as Ha.
  destruct (compile_assertions _) as [out|e| |]; cbn [rbind]; [|done| |done].
  - destruct Ha as [Ha _]. cbn [a_states a_evidence ev_state_count]. unfold len. rewrite Hlen. split; [done|]. by rewrite Ha.
  - destruct Ha as (id & d & Hd%elem_of_map_entries & Hw & Hsz). exists d. split; [right; by exists id|done].
Qed.

(** Compilation fails only by aborting on an expression, the root or an
    assertion of fixed width, with more states than 32-bit identifiers; the
    evidence of a compiled pattern counts exactly its states: one for every
    symbol, any, anchor, assertion, extension, alternation and repeat, two for a
    capture, and an accepting one for every program. *)
Theorem compile_total ir :
  match compile ir with
  | Ok a => len (a_states a) = N.of_nat (S (ir_size (ir_root ir))) /\
      ev_state_count (a_evidence a) = (N.of_nat (S (ir_size (ir_root ir))) + program_states (map_entries (ir_assertions ir)))%N
  | Panic => exists d, (d = ir_root ir \/ exists id, ir_assertions ir !! id = Some d /\ fixed_width d <> None) /\ (u32_max + 1 < N.of_nat (S (ir_size d)))%N
  | _ => False
  end.
Proof. apply compile_total_facts. Qed.

Lemma built_table_ok n a : built_for n a -> table_ok (a_states a) /\ a_start a < length (a_states a).
Proof.
  intros (acc & st & Hp & Hb). pose proof Hp as [-> ->]%push_Ok. pose proof (build_ok n 0 [{| s_id := 0; s_instruction := IAccept |}]) as Hok.
  simpl in Hb. rewrite Hb in Hok. apply Hok; [|simpl; lia]. intros k s [-> <-]%list_lookup_singleton_Some. by split; [|constructor].
Qed.

(** Every compiled pattern, and every program of its assertions, is a
    well-formed automaton: states are numbered by their positions, the start
    and every successor is a state of the table, and the programs have no
    assertions of their own and a width that is that of their definition. *)
Theorem compile_well_formed ir a : compile ir = Ok a ->
  (table_ok (a_states a) /\ a_start a < length (a_states a)) /\
  forall id p, a_assertions a !! id = Some p ->
    table_ok (a_states (p_automaton p)) /\ a_start (p_automaton p) < length (a_states (p_automaton p)) /\ a_assertions (p_automaton p) = ∅ /\
    exists d, ir_assertions ir !! id = Some d /\ fixed_width d = Some (p_width p).
Proof.
  intros Hc%compile_Ok. split; [exact (built_table_ok _ _ (cf_built _ _ Hc))|]. intros id p Hp.
  destruct (cf_program _ _ Hc id p Hp) as (d & Hd & (Hw & Hb & Ha) & _). destruct (built_table_ok _ _ Hb). split_and!; [done..|]. by exists d.
Qed.
End CompileSpec.

Section CompiledSearch.
Context {Sym Ext : Type} `{EqDecision Sym} (ext : Ext -> list Sym -> nat -> option nat).
Implicit Types (n d : IrNode Sym Ext) (a : Automaton Sym Ext) (ir : PatternIr Sym Ext) (subject : list Sym).

(** Extensions that consume one symbol. *)
Definition single_symbol : Prop := forall e subject i j, ext e subject i = Some j -> j = S i.

Lemma nested_leaf asserted a subject execute limits : a_assertions a = ∅ -> NestedOk asserted a subject execute limits.
Proof. intros Ha. split; intros; rewrite Ha, lookup_empty in *; done. Qed.

(** The window of an assertion that fits. *)
Lemma window_fits subject p (w : N) : (len subject <= usize_max)%N -> (N.of_nat p + w <= len subject)%N ->
  window subject p (saturating_add (N.of_nat p) w) = Some (take (N.to_nat w) (drop p subject)).
Proof.
  unfold window, saturating_add, len. intros Hm Hf. rewrite N.min_l by lia.
  destruct (N.ltb_spec (N.of_nat (length subject)) (N.of_nat p + w)), (N.ltb_spec (N.of_nat p + w) (N.of_nat p)); [lia..|].
  simpl. do 2 f_equal. lia.
Qed.

Lemma window_short subject p (w : N) win : (len subject < N.of_nat p + w)%N ->
  window subject p (saturating_add (N.of_nat p) w) = Some win -> (N.of_nat (length win) < w)%N.
Proof.
  unfold window, saturating_add, len. intros Hf.
  destruct (N.ltb_spec (N.of_nat (length subject)) (N.min (N.of_nat p + w) usize_max)); [done|].
  destruct (N.ltb_spec (N.min (N.of_nat p + w) usize_max) (N.of_nat p)); [done|]. intros [= <-]. rewrite length_take, length_drop. lia.
Qed.

Lemma captures_definition ir id d : NoDup (captures_in (all_items (ir_assertions ir) (ir_root ir))) -> ir_assertions ir !! id = Some d ->
  NoDup (captures_in (items d)).
Proof.
  unfold all_items. rewrite captures_app. intros (_ & _ & Hnd)%NoDup_app Hd.
  assert (d ∈ map_values (ir_assertions ir)) as Hin by (apply list_elem_of_fmap; exists (id, d); split; [done|by apply elem_of_map_entries]).
  revert Hnd Hin. generalize (map_values (ir_assertions ir)). induction l as [|n l IH]; [by intros _ ?%elem_of_nil|].
  simpl. rewrite captures_app. intros (Hn & _ & Hl)%NoDup_app [->|Hin]%elem_of_cons; auto.
Qed.

Lemma nested_compiled ir a subject limits : CompiledFor ir a -> NoDup (captures_in (all_items (ir_assertions ir) (ir_root ir))) ->
  single_symbol -> (len subject <= usize_max)%N -> admitted limits a subject ->
  NestedOk (asserts ext (ir_assertions ir)) a subject (fun a subject limits => execute_inner ext 1 a subject [0] limits) limits.
Proof.
  intros Hc Hnd He Hlen [Hst Hsub]. split.
  - intros id p prog Hp Hw (d & w & c & Hd & Hfw & Hle & _). destruct (cf_program _ _ Hc id prog Hp) as (d' & Hd' & (Hfw' & _) & _).
    rewrite Hd in Hd'. injection Hd' as <-. rewrite Hfw in Hfw'. injection Hfw' as ->. by rewrite window_fits in Hw.
  - intros id p prog win lim Hp Hw Hl1 Hl2. destruct (cf_program _ _ Hc id prog Hp) as (d & Hd & (Hfw & Hb & Hna) & Hcount).
    pose proof (captures_definition _ _ _ Hnd Hd) as Hndd.
    destruct (execute_inner_spec ext no_assertions 0 (p_automaton prog) win [0] lim d Hb Hndd) as (o & Ho & Hsp & Hok & Hin & Hun).
    { repeat constructor. }
    { intros _. by apply nested_leaf. }
    exists o. split; [exact Ho|]. split; [done|].
    assert (length win <= length subject) as Hwl.
    { unfold window in Hw. destruct (_ || _)%N; [done|]. injection Hw as <-. rewrite length_take, length_drop. lia. }
    assert (forall c j, parse ext no_assertions win d (0, ∅) (j, c) -> N.of_nat j = p_width prog /\ j <= length win) as Hfix.
    { intros c j Hp'. pose proof (fixed_width_parse ext no_assertions win d (fun e i j => He e win i j) _ _ _ Hfw Hp') as Hj.
      apply parse_bounds in Hp' as [_ Hp']; [|simpl; lia]. simpl in *. split; [lia|done]. }
    assert (forall c j, parse ext no_assertions win d (0, ∅) (j, c) -> j = length win /\ asserts ext (ir_assertions ir) id subject p) as Hyes.
    { intros c j Hp'. destruct (Hfix c j Hp') as [Hj Hjl]. destruct (N.leb_spec (N.of_nat p + p_width prog) (len subject)) as [Hfit|Hfit].
      - rewrite window_fits in Hw by done. injection Hw as <-. unfold len in Hfit. rewrite length_take, length_drop. split; [lia|].
        exists d, (p_width prog), c. split_and!; [done..|]. replace (N.to_nat (p_width prog)) with j at 2 by lia. exact Hp'.
      - pose proof (window_short _ _ _ _ Hfit Hw). lia. }
    destruct o as [m r|r|l r|[id'] r]; simpl in Hok.
    + destruct Hok as (->%list_elem_of_singleton & Hp' & _). by apply Hyes in Hp'.
    + intros (d' & w & c & Hd' & Hfw' & Hle & Hp'). rewrite Hd in Hd'. injection Hd' as <-. rewrite Hfw in Hfw'. injection Hfw' as <-.
      rewrite window_fits in Hw by done. injection Hw as <-. eapply Hok; [by left|exact Hp'].
    + apply Hin. split; [lia|]. unfold len in *. lia.
    + destruct Hun as (_ & k & next & Hk). destruct (a_states (p_automaton prog) !! k) as [s|] eqn:Hs; [|done]. injection Hk as Hi.
      pose proof (built_refs _ _ _ _ _ _ Hb Hs Hi). by eapply fixed_width_refs.
Qed.
End CompiledSearch.

Section Claims.
Context {Sym Ext : Type} `{EqDecision Sym} `{EqDecision Ext}.
Implicit Types (root : IrNode Sym Ext) (a : Automaton Sym Ext) (ir : PatternIr Sym Ext) (subject : list Sym).

(** A compiled pattern executed over some starts. *)
Lemma compiled_execute ext ir a subject starts limits : CompiledFor ir a ->
  NoDup (captures_in (all_items (ir_assertions ir) (ir_root ir))) ->
  a_assertions a = ∅ \/ single_symbol ext /\ (len subject <= usize_max)%N -> StronglySorted le starts ->
  exists o, execute_inner ext exec_depth a subject starts limits = Ok o /\ spent limits o /\
    answer_ok ext (asserts ext (ir_assertions ir)) subject (ir_root ir) starts o /\
    match o with
    | OUnsupported (VariableWidthAssertion id) _ => IRef id ∈ items (ir_root ir) /\ forall d, ir_assertions ir !! id = Some d -> fixed_width d = None
    | _ => True
    end.
Proof.
  intros Hc Hnd Hext Hsort. assert (NoDup (captures_in (items (ir_root ir)))) as Hroot.
  { unfold all_items in Hnd. rewrite captures_app in Hnd. by apply NoDup_app in Hnd as [? _]. }
  destruct (execute_inner_spec ext (asserts ext (ir_assertions ir)) 1 a subject starts limits (ir_root ir) (cf_built _ _ Hc) Hroot Hsort)
    as (o & Ho & Hsp & Hok & _ & Hun).
  { intros Hadm. destruct Hext as [Hna|[He Hlen]]; [by apply nested_leaf|by apply nested_compiled]. }
  exists o. split; [exact Ho|]. split; [done|]. split; [done|]. destruct o as [| | |[id] r]; try done.
  destruct Hun as (Hn & k & next & Hk). destruct (a_states a !! k) as [s|] eqn:Hs; [|done]. injection Hk as Hi. split.
  - exact (built_refs _ _ _ _ _ _ (cf_built _ _ Hc) Hs Hi).
  - intros d. by apply (cf_refused _ _ Hc).
Qed.

Lemma single_match_single (f : Ext -> Sym -> bool) : single_symbol (single_match f).
Proof. intros e subject i j. unfold single_match. repeat case_match; naive_solver. Qed.

Lemma new_pattern_captures root assertions policy ir : new_pattern root assertions policy = Ok ir ->
  ir = {| ir_root := root; ir_assertions := assertions |} /\ NoDup (captures_in (all_items assertions root)).
Proof.
  intros Hn. pose proof (new_pattern_facts assertions policy root) as Hf. rewrite Hn in Hf. destruct Hf as [-> [Hnd _ _ _]]. by split.
Qed.

(** What the outcome of a search from [init] on says when [M] are the matches. *)
Definition answers (M : nat -> nat -> Captures -> Prop) ir subject (init : nat) (limits : TextLimits) (o : ExecutionOutcome) : Prop :=
  spent limits o /\
  match o with
  | OMatch m _ => init <= em_start m <= length subject /\ M (em_start m) (em_end m) (em_captures m) /\
      forall s j c, init <= s < em_start m -> ~ M s j c
  | ONoMatch _ => forall s j c, init <= s <= length subject -> ~ M s j c
  | OLimit _ _ => True
  | OUnsupported (VariableWidthAssertion id) _ => IRef id ∈ items (ir_root ir) /\
      forall d, ir_assertions ir !! id = Some d -> fixed_width d = None
  end.

Lemma answers_iff (M M' : nat -> nat -> Captures -> Prop) ir subject init limits o : (forall i j c, M i j c <-> M' i j c) ->
  answers M ir subject init limits o -> answers M' ir subject init limits o.
Proof.
  intros HM [Hs Ho]. split; [done|]. destruct o as [m r|r| |]; [|..|done|done].
  - destruct Ho as (H1 & H2 & H3). split_and!; [lia|lia|by apply HM|]. intros s j c Hlt Hm. eapply H3; [done|by apply HM].
  - intros s j c Hlt Hm. eapply Ho; [done|by apply HM].
Qed.

(** The same with the meaning in which assertions look at their windows. *)
Definition search_answer_ok ext ir subject := answers (matches ext ir subject) ir subject.

Lemma compiled_search ext ir a subject init limits : CompiledFor ir a -> NoDup (captures_in (all_items (ir_assertions ir) (ir_root ir))) ->
  a_assertions a = ∅ \/ single_symbol ext /\ (len subject <= usize_max)%N ->
  exists o, search_spanning ext a subject init limits = Ok o /\ search_answer_ok ext ir subject init limits o.
Proof.
  intros Hc Hnd Hext. assert (StronglySorted le (search_starts init subject)) as Hsort.
  { unfold search_starts. generalize (S (length subject) - init). intros k. revert init. induction k as [|k IH]; intros init; simpl; constructor; [done|].
    apply Forall_forall. intros x Hx%elem_of_seq. lia. }
  destruct (compiled_execute ext ir a subject _ limits Hc Hnd Hext Hsort) as (o & Ho & Hsp & Hok & Hun).
  exists o. split; [exact Ho|]. split; [done|].
  assert (forall s, s ∈ search_starts init subject <-> init <= s <= length subject) as Hst.
  { intros s. unfold search_starts. rewrite elem_of_seq. lia. }
  destruct o as [m r|r|l r|[id] r]; simpl in Hok; [|..|done|exact Hun].
  - destruct Hok as (Hs%Hst & Hp & Hl). split; [done|]. split; [exact Hp|]. intros s j c [H1 H2]. apply Hl; [apply Hst; lia|done].
  - intros s j c Hs. apply Hok. by apply Hst.
Qed.

(** C5: For every pattern that validates and compiles and has no anchors inside
    its assertions, searching a subject ends; a match is a match of the pattern's
    meaning with its captures and the leftmost one from the start offset on; no
    match means that the pattern matches nowhere from there on; a limit is
    reported only when the counted work reached it, and the counted work, which
    leaves out that of failed assertions ([failed_assertion_is_free]), is within
    the limits; and only a reference to an assertion without a fixed width is
    refused as unsupported.  Inside an assertion the code tests anchors against
    the assertion's window ([assertion_anchor_is_local]). *)
Theorem search_regular_spec (extension_matches : Ext -> Sym -> bool) root assertions policy ir a subject init limits :
  new_pattern root assertions policy = Ok ir -> compile ir = Ok a -> (len subject <= usize_max)%N ->
  (forall id d, assertions !! id = Some d -> anchor_free d = true) ->
  exists o, search_regular extension_matches a subject init limits = Ok o /\
    answers (means (single_match extension_matches) ir subject) ir subject init limits o.
Proof.
  intros Hn%new_pattern_captures Ha%compile_Ok Hlen Hfree. destruct Hn as [-> Hnd]. unfold search_regular.
  destruct (Nat.ltb_spec (length subject) init) as [Hlt|Hle].
  - eexists. split; [done|]. split; [split; [by right|apply N.le_0_l]|]. intros s j c Hs. lia.
  - edestruct (compiled_search (single_match extension_matches)) as (o & Ho & Hok); [exact Ha|exact Hnd| |].
    { right. split; [apply single_match_single|done]. }
    exists o. split; [exact Ho|]. eapply answers_iff; [|exact Hok]. intros i j c. apply parse_asserted. intros id k. by apply asserts_here.
Qed.
End Claims.
