(* ===== verification/PatternPriority.v ===== *)
(** * Priority of matches

    The search prefers longer or shorter repeats as the pattern says, and earlier
    alternatives.  [results] lists the matches of an expression in order of
    preference, the way a backtracking matcher tries them; [bt] is backtracking
    over the automaton, without remembering entries.  Where backtracking ends,
    the search answers with its first match, although it skips entries that it
    has seen ([loop_first]), and that is the first of [results]
    ([search_first]). *)

From stdpp Require Import relations.
From S2P Require Import Prelude BTree PatternIr PatternCompile PatternExecute PatternThompson PatternSearch PatternMatch.

Lemma bind_single {A B} (f : A -> B) (l : list A) : l ≫= (fun x => [f x]) = f <$> l.
Proof. induction l as [|x l IH]; [done|]. cbn [mbind list_bind]. by rewrite IH. Qed.

(** ** Backtracking over the automaton *)

Section Backtracking.
Context {Sym Ext : Type} `{EqDecision Sym} (ext : Ext -> list Sym -> nat -> option nat).
Context (a : Automaton Sym Ext) (subject : list Sym).
Implicit Types (x y z e v : nat * Thread).

Abbreviation same := (same a).

(** The moves of a repeat that has run its body [count] times. *)
Definition repeat_moves (position : nat) (t : Thread) (body exit : StateId) (min : N) (max : option N) (greedy : bool) (count : N) : list (nat * Thread) :=
  let bodies := if match max with Some m => (count <? m)%N | None => true end
    then [at_state position (with_repeats t (<[t_state t := (count + 1)%N]> (t_repeats t))) body] else [] in
  let exits := if (min <=? count)%N then [at_state position (with_repeats t (delete (t_state t) (t_repeats t))) exit] else [] in
  if greedy then bodies ++ exits else exits ++ bodies.

(** The moves of an entry in order of preference. *)
Definition moves_by (i : Instruction Sym Ext) x : list (nat * Thread) :=
  let '(position, t) := x in
  match i with
  | IAccept | IAssertion _ _ => []
  | ISymbol symbol next => if decide (subject !! position = Some symbol) then [at_state (S position) t next] else []
  | IAny next => if position <? length subject then [at_state (S position) t next] else []
  | IExtension e next =>
    match ext e subject position with
    | Some j => if (position <=? j) && (j <=? length subject) then [at_state j t next] else []
    | None => []
    end
  | IEpsilon next => [at_state position t next]
  | ISplit alternatives => at_state position t <$> alternatives
  | ITag id boundary next => [at_state position (with_history t
      match boundary with TagStart => open_tag id position (t_history t) | TagEnd => close_tag id position (t_history t) end) next]
  | IAnchor anchor next => if holds_at anchor subject position then [at_state position t next] else []
  | IRepeat body exit min max greedy => repeat_moves position t body exit min max greedy (default 0%N (t_repeats t !! t_state t))
  end.

(** The first success of a list; [None] when a try does not end. *)
Definition first_some (f : nat * Thread -> option (option (nat * Thread))) : list (nat * Thread) -> option (option (nat * Thread)) :=
  fix go l := match l with [] => Some None | x :: l => match f x with Some None => go l | r => r end end.

(** Backtracking to depth [h] from the state of an entry.  It does not go
    through assertions. *)
Fixpoint bt (h : nat) x : option (option (nat * Thread)) :=
  match h with
  | 0 => None
  | S h =>
    match s_instruction <$> a_states a !! t_state x.2 with
    | None => Some None
    | Some IAccept => Some (Some x)
    | Some (IAssertion _ _) => None
    | Some i => first_some (bt h) (moves_by i x)
    end
  end.

(** The entries have the result [r]. *)
Definition evals (l : list (nat * Thread)) (r : option (nat * Thread)) : Prop := exists h, first_some (bt h) l = Some r.

Lemma first_some_mono (f g : nat * Thread -> option (option (nat * Thread))) l r :
  (forall x r, f x = Some r -> g x = Some r) -> first_some f l = Some r -> first_some g l = Some r.
Proof.
  intros Hfg. induction l as [|x l IH]; [done|]. simpl. destruct (f x) as [[y|]|] eqn:Hf; [| |done].
  - apply Hfg in Hf as ->. done.
  - apply Hfg in Hf as ->. apply IH.
Qed.

Lemma bt_mono h : forall h' x r, h <= h' -> bt h x = Some r -> bt h' x = Some r.
Proof.
  induction h as [|h IH]; intros h' x r Hle Hb; [done|]. destruct h' as [|h']; [lia|]. cbn [bt] in *.
  destruct (s_instruction <$> _) as [i|]; [|done].
  destruct i; try done; (eapply first_some_mono; [|exact Hb]; intros y r' Hy; eapply IH; [lia|done]).
Qed.

Lemma bt_list_mono h h' l r : h <= h' -> first_some (bt h) l = Some r -> first_some (bt h') l = Some r.
Proof. intros Hle. apply first_some_mono. intros x r'. by apply bt_mono. Qed.

Lemma first_some_app f l1 l2 r : first_some f (l1 ++ l2) = Some r <->
  (exists v, r = Some v /\ first_some f l1 = Some (Some v)) \/ first_some f l1 = Some None /\ first_some f l2 = Some r.
Proof.
  induction l1 as [|x l1 IH]; simpl; [naive_solver|]. destruct (f x) as [[y|]|]; [|exact IH|naive_solver]. naive_solver.
Qed.

Lemma evals_app l1 l2 r : evals (l1 ++ l2) r <-> (exists v, r = Some v /\ evals l1 (Some v)) \/ evals l1 None /\ evals l2 r.
Proof.
  unfold evals. setoid_rewrite first_some_app. split; [naive_solver|]. intros [(v & -> & h & Hh)|[[h1 H1] [h2 H2]]].
  - exists h. left. eauto.
  - exists (Nat.max h1 h2). right. split; (eapply bt_list_mono; [|done]; lia).
Qed.

Lemma evals_nil r : evals [] r <-> r = None.
Proof. split; [by intros [h [= <-]]|]. intros ->. by exists 0. Qed.

Lemma evals_one x r : evals [x] r <-> exists h, bt h x = Some r.
Proof.
  unfold evals. simpl. split; intros [h Hh]; exists h.
  - destruct (bt h x) as [[?|]|]; naive_solver.
  - rewrite Hh. by destruct r.
Qed.

Lemma evals_fun l r1 r2 : evals l r1 -> evals l r2 -> r1 = r2.
Proof.
  intros [h1 H1] [h2 H2]. apply (bt_list_mono h1 (Nat.max h1 h2)) in H1; [|lia]. apply (bt_list_mono h2 (Nat.max h1 h2)) in H2; [|lia].
  congruence.
Qed.

(** An entry has the result of its moves. *)
Lemma evals_step x i r : s_instruction <$> a_states a !! t_state x.2 = Some i -> i <> IAccept -> (forall id next, i <> IAssertion id next) ->
  evals (moves_by i x) r <-> evals [x] r.
Proof.
  intros Hi Ha Hn. rewrite evals_one. split.
  - intros [h Hh]. exists (S h). cbn [bt]. rewrite Hi. destruct i; try exact Hh; [done|by destruct (Hn _ _ eq_refl)].
  - intros [[|h] Hh]; [done|]. exists h. cbn [bt] in Hh. rewrite Hi in Hh. by destruct i.
Qed.

(** Replacing every entry by entries with the same result. *)
Lemma evals_bind {A} (F : A -> list (nat * Thread)) (g : A -> nat * Thread) (l : list A) r :
  (forall (u : A) r, u ∈ l -> evals (F u) r -> evals [g u] r) -> evals (l ≫= F) r -> evals (g <$> l) r.
Proof.
  revert r. induction l as [|y l IH]; intros r Hg; [done|]. cbn [mbind list_bind]. rewrite fmap_cons.
  rewrite evals_app. change (g y :: (g <$> l)) with ([g y] ++ (g <$> l)). rewrite evals_app.
  intros [(v & -> & Hv)|[Hn Hl]].
  - left. exists v. split; [done|]. apply Hg; [by left|done].
  - right. split; [apply Hg; [by left|done]|]. apply IH; [|done]. intros z r' Hz. apply Hg. by right.
Qed.

(** ** Entries with the same behaviour *)

(** Closes a pointwise goal on short lists with [H] or [H']. *)
Ltac pointwise H H' := repeat (apply List.Forall2_cons; [first [apply H|apply H']|]); apply List.Forall2_nil.

Lemma repeat_moves_same p t t' i body exit min max greedy cx cy : same (p, t) (p, t') ->
  a_states a !! t_state t = Some {| s_id := i; s_instruction := IRepeat body exit min max greedy |} ->
  ((min <= cx)%N <-> (min <= cy)%N) -> (match max with Some m => cx = cy | None => True end) -> collapse min max (cx + 1) = collapse min max (cy + 1) ->
  Forall2 same (repeat_moves p t body exit min max greedy cx) (repeat_moves p t' body exit min max greedy cy).
Proof.
  intros Hs Ht Hmin Hmax Hcol. unfold repeat_moves.
  assert ((min <=? cx)%N = (min <=? cy)%N) as -> by (apply eq_true_iff_eq; by rewrite !N.leb_le).
  assert (match max with Some m => (cx <? m)%N | None => true end = match max with Some m => (cy <? m)%N | None => true end) as ->
    by (destruct max; [by rewrite Hmax|done]).
  pose proof (same_with_repeats a (p, t) (p, t') _ _ _ _ _ _ (Some _) (Some _) p body Hs Ht (f_equal Some Hcol)) as Hbody.
  pose proof (same_with_repeats a (p, t) (p, t') _ _ _ _ _ _ None None p exit Hs Ht eq_refl) as Hexit.
  destruct (match max with Some _ => _ | None => _ end), (min <=? cy)%N, greedy; simpl; pointwise Hbody Hexit.
Qed.

Lemma moves_same x x' i ins : same x x' -> a_states a !! t_state x.2 = Some {| s_id := i; s_instruction := ins |} ->
  Forall2 same (moves_by ins x) (moves_by ins x').
Proof.
  intros Hs Ht. pose proof Hs as [Hp Hst _]. destruct x as [p t], x' as [p' t']. simpl in Hp, Hst, Ht. subst p'.
  assert (forall j s, same (at_state j t s) (at_state j t' s)) as Hat by (intros j s; by apply (same_at_state a (p, t) (p, t'))).
  destruct ins as [|next|sym next|next|ex next|alts|id bd next|an next|id next|body exit min max greedy]; cbn [moves_by].
  - constructor.
  - pointwise Hat Hat.
  - case_decide; pointwise Hat Hat.
  - case_match; pointwise Hat Hat.
  - repeat case_match; pointwise Hat Hat.
  - clear Ht. induction alts as [|s alts IH]; simpl; [apply List.Forall2_nil|apply List.Forall2_cons; [apply Hat|exact IH]].
  - constructor; [|constructor]. apply (same_at_state a (p, with_history t _) (p, with_history t' _)).
    by apply (same_with_history a (p, t) (p, t')).
  - case_match; pointwise Hat Hat.
  - constructor.
  - destruct (same_count a _ _ _ _ _ _ _ _ Hs Ht) as (Hmin & Hmax & Hcol). cbn [snd] in *. by eapply repeat_moves_same.
Qed.

(** Whether a try ends, and whether it succeeds. *)
Definition shape (r : option (option (nat * Thread))) : option bool := (fun o => match o with Some _ => true | None => false end) <$> r.

Lemma bt_same h : forall x y, same x y -> shape (bt h x) = shape (bt h y).
Proof.
  induction h as [|h IH]; intros x y Hs; [done|]. cbn [bt]. rewrite <- (sm_state _ _ _ Hs).
  destruct (a_states a !! t_state x.2) as [[i ins]|] eqn:Ht; cbn [fmap option_fmap option_map s_instruction]; [|done].
  assert (shape (first_some (bt h) (moves_by ins x)) = shape (first_some (bt h) (moves_by ins y))) as Hm.
  { induction (moves_same x y i ins Hs Ht) as [|x' y' l l' Hxy _ IHl]; [done|]. simpl. specialize (IH _ _ Hxy).
    destruct (bt h x') as [[?|]|], (bt h y') as [[?|]|]; simpl in *; try done. }
  by destruct ins.
Qed.

(** ** The search answers as backtracking does *)

(** The pending entries [top] are what is left to try of [v]. *)
Definition left_of v (top : list (nat * Thread)) : Prop := forall h r, bt (S h) v = Some r -> first_some (bt h) top = Some r.

(** Every kept entry has an end, and what is left of it is on top of the stack. *)
Record TryInv (V stack : list (nat * Thread)) (seen : gset (nat * StateId * list (StateId * N))) : Prop := {
  ti_seen : forall k, k ∈ seen -> exists v, v ∈ V /\ key_of a v.1 v.2 = k;
  ti_ends : forall v, v ∈ V -> exists h r, bt h v = Some r;
  ti_left : forall v, v ∈ V -> exists top bottom, stack = top ++ bottom /\ left_of v top;
}.

Lemma left_skip v e top : evals [e] None -> left_of v (e :: top) -> left_of v top.
Proof.
  intros [h0 H0]%evals_one Hl h r Hb. specialize (Hl h r Hb). simpl in Hl. destruct (bt h e) as [re|] eqn:He; [|done].
  apply (bt_mono h (Nat.max h h0)) in He; [|lia]. apply (bt_mono h0 (Nat.max h h0)) in H0; [|lia]. rewrite H0 in He. by injection He as <-.
Qed.

Lemma left_push v e i top : s_instruction <$> a_states a !! t_state e.2 = Some i -> i <> IAccept -> (forall id next, i <> IAssertion id next) ->
  left_of v (e :: top) -> left_of v (moves_by i e ++ top).
Proof.
  intros Hi Ha Hn Hl h r Hb. specialize (Hl h r Hb). simpl in Hl. destruct h as [|h]; [done|]. rewrite first_some_app.
  destruct (bt (S h) e) as [re|] eqn:He; [|done]. cbn [bt] in He. rewrite Hi in He.
  assert (first_some (bt (S h)) (moves_by i e) = Some re) as Hm.
  { apply (bt_list_mono h); [lia|]. destruct i; try exact He; [done|by destruct (Hn _ _ eq_refl)]. }
  destruct re as [w|]; [left|right; by split]. exists w. split; [congruence|done].
Qed.

(** An entry whose key was seen has no success. *)
Lemma seen_dead V e rest seen r : TryInv V (e :: rest) seen -> key_of a e.1 e.2 ∈ seen -> evals [e] r -> evals [e] None.
Proof.
  intros [Hseen Hends Hleft] (v & Hv & Hk%key_same)%Hseen He. destruct (Hends v Hv) as (h & rv & Hb).
  destruct (Hleft v Hv) as ([|e' top] & bottom & Heq & Hl).
  - destruct h as [|h]; [done|]. pose proof (Hl h rv Hb) as [= <-].
    apply evals_one. exists (S h). pose proof (bt_same (S h) v e Hk) as Hsh. rewrite Hb in Hsh.
    destruct (bt (S h) e) as [[?|]|]; [done..|]. done.
  - injection Heq as <- Heq. exfalso. clear -Hb Hl Hk. revert rv Hb. induction h as [|h IH]; intros rv Hb; [done|].
    specialize (Hl h rv Hb). simpl in Hl. pose proof (bt_same h v e Hk) as Hsh.
    destruct (bt h e) as [re|] eqn:He; [|done]. destruct (bt h v) as [rv'|] eqn:Hv; [|done]. by eapply IH.
Qed.

Lemma try_skip V e rest seen : TryInv V (e :: rest) seen -> evals [e] None -> TryInv V rest seen.
Proof.
  intros [Hseen Hends Hleft] He. split; [done|done|]. intros v Hv. destruct (Hleft v Hv) as ([|e' top] & bottom & Heq & Hl).
  - exists [], rest. by split.
  - injection Heq as <- ->. exists top, bottom. split; [done|]. by eapply left_skip.
Qed.

Lemma try_push V e rest seen i r : TryInv V (e :: rest) seen -> s_instruction <$> a_states a !! t_state e.2 = Some i -> i <> IAccept ->
  (forall id next, i <> IAssertion id next) -> evals [e] r -> TryInv (e :: V) (moves_by i e ++ rest) ({[key_of a e.1 e.2]} ∪ seen).
Proof.
  intros [Hseen Hends Hleft] Hi Ha Hn He. split.
  - intros k [->%elem_of_singleton|Hk]%elem_of_union; [exists e; split; [by left|done]|].
    destruct (Hseen k Hk) as (x & Hx & Hxk). exists x. split; [by right|done].
  - intros v [->|Hv]%elem_of_cons; [|by apply Hends]. apply evals_one in He as [h Hh]. eauto.
  - intros v [->|Hv]%elem_of_cons.
    + exists (moves_by i e), rest. split; [done|]. intros h r' Hb. cbn [bt] in Hb. rewrite Hi in Hb.
      destruct i; try exact Hb; [done|by destruct (Hn _ _ eq_refl)].
    + destruct (Hleft v Hv) as ([|e' top] & bottom & Heq & Hl).
      * exists [], (moves_by i e ++ rest). by split.
      * injection Heq as <- ->. exists (moves_by i e ++ top), bottom. rewrite <- app_assoc. split; [done|]. by apply left_push.
Qed.

(** An entry without a state. *)
Lemma try_lost V e rest seen : TryInv V (e :: rest) seen -> a_states a !! t_state e.2 = None ->
  evals [e] None /\ TryInv (e :: V) rest ({[key_of a e.1 e.2]} ∪ seen).
Proof.
  intros HI Hn. assert (forall h, bt (S h) e = Some None) as Hb by (intros h; cbn [bt]; by rewrite Hn).
  assert (evals [e] None) as He by (apply evals_one; exists 1; apply Hb). split; [done|].
  destruct (try_skip _ _ _ _ HI He) as [Hseen Hends Hleft]. split.
  - intros k [->%elem_of_singleton|Hk]%elem_of_union; [exists e; split; [by left|done]|].
    destruct (Hseen k Hk) as (x & Hx & Hxk). exists x. split; [by right|done].
  - intros v [->|Hv]%elem_of_cons; [|by apply Hends]. exists 1, None. apply Hb.
  - intros v [->|Hv]%elem_of_cons; [|by apply Hleft]. exists [], rest. split; [done|]. intros h r Hr. by rewrite Hb in Hr.
Qed.

(** What a turn pushes. *)
Lemma turn_moves execute limits r p t i o : (forall id next, i <> IAssertion id next) -> turn ext execute a subject limits r p t i = Ok o ->
  match o with
  | TPush es _ => es = moves_by i (p, t) /\ i <> IAccept
  | TStop (OMatch m _) => i = IAccept /\ m = {| em_start := t_start t; em_end := p; em_captures := h_closed (t_history t) |}
  | TStop (OLimit _ _) => True
  | TStop _ => False
  end.
Proof.
  intros Hn. destruct i as [|next|sym next|next|ex next|alts|id bd next|an next|id next|body exit min max greedy]; cbn [turn moves_by].
  all: try (intros [= <-]; done).
  - case_match; by intros [= <-].
  - by destruct (Hn id next).
Qed.

(** The outcome of a search for which backtracking has the result [res]. *)
Definition first_ok (res : option (nat * Thread)) (o : ExecutionOutcome) : Prop :=
  match o with
  | OMatch m _ => exists p t, res = Some (p, t) /\ m = {| em_start := t_start t; em_end := p; em_captures := h_closed (t_history t) |}
  | ONoMatch _ => res = None
  | OLimit _ _ => True
  | OUnsupported _ _ => False
  end.

Lemma loop_first execute limits fuel res o : forall V r seen stack, TryInv V stack seen -> evals stack res ->
  exec_loop ext fuel execute a subject limits r seen stack = Ok o -> first_ok res o.
Proof.
  induction fuel as [|fuel IH]; intros V r seen stack HI Hev Hx; [done|]. destruct stack as [|[p t] rest]; cbn [exec_loop] in Hx.
  { injection Hx as <-. by apply evals_nil in Hev. }
  change ((p, t) :: rest) with ([(p, t)] ++ rest) in Hev. apply evals_app in Hev.
  assert (exists re, evals [(p, t)] re) as [re He] by naive_solver.
  assert (evals [(p, t)] None -> evals rest res) as Hrest.
  { intros Hd. destruct Hev as [(w & _ & Hw)|[_ ?]]; [|done]. by pose proof (evals_fun _ _ _ Hd Hw). }
  case_decide as Hk.
  { pose proof (seen_dead _ _ _ _ _ HI Hk He) as Hd. eapply IH; [by eapply try_skip|by apply Hrest|exact Hx]. }
  destruct (a_states a !! t_state t) as [s|] eqn:Hs.
  - assert (s_instruction <$> a_states a !! t_state (p, t).2 = Some (s_instruction s)) as Hi by (simpl; by rewrite Hs).
    assert (forall id next, s_instruction s <> IAssertion id next) as Hn.
    { intros id next Hid. rewrite Hid in Hi. apply evals_one in He as [[|h] Hh]; [done|]. cbn [bt] in Hh. by rewrite Hi in Hh. }
    apply rbind_Ok in Hx as (tr & Ht%turn_moves & Hx); [|done]. destruct tr as [o'|es r'].
    + injection Hx as ->. destruct o as [m r1|r1|l r1|f r1]; [|done..]. destruct Ht as [Ha ->]. rewrite Ha in Hi.
      assert (evals [(p, t)] (Some (p, t))) as Hme by (apply evals_one; exists 1; cbn [bt]; by rewrite Hi).
      exists p, t. split; [|done]. destruct Hev as [(w & -> & Hw)|[Hd _]]; [exact (evals_fun _ _ _ Hw Hme)|].
      by pose proof (evals_fun _ _ _ Hd Hme).
    + destruct Ht as [-> Ha]. case_match; [by injection Hx as <-|]. eapply IH; [by eapply try_push| |exact Hx].
      apply evals_app. setoid_rewrite (evals_step (p, t) _ _ Hi Ha Hn). exact Hev.
  - destruct (try_lost _ _ _ _ HI Hs) as [Hd HI']. eapply IH; [exact HI'|by apply Hrest|exact Hx].
Qed.
End Backtracking.

(** ** A backtracking matcher *)

Section Results.
Context {Sym Ext : Type} `{EqDecision Sym} (ext : Ext -> list Sym -> nat -> option nat) (subject : list Sym).
Implicit Types (x y : Point) (n : IrNode Sym Ext).

(** The results of [k] at all points of a list, in order. *)
Fixpoint tries (k : Point -> option (list Point)) (l : list Point) : option (list Point) :=
  match l with
  | [] => Some []
  | x :: l => ys ← k x; zs ← tries k l; Some (ys ++ zs)
  end.

(** Running a body again after [count] times, as often as the bounds allow. *)
Fixpoint again (body : Point -> option (list Point)) (bounds : RepeatBounds) (greedy : bool) (fuel : nat) (count : N) x : option (list Point) :=
  match fuel with
  | 0 => None
  | S fuel =>
    bodies ← if match rb_max bounds with Some m => (count <? m)%N | None => true end
      then body x ≫= tries (again body bounds greedy fuel (count + 1)) else Some [];
    let exits := if (rb_min bounds <=? count)%N then [x] else [] in
    Some (if greedy then bodies ++ exits else exits ++ bodies)
  end.

(** The matches of [n] from a point in order of preference; [None] when a repeat
    runs more than [fuel] times or an assertion is met. *)
Fixpoint results (fuel : nat) n x : option (list Point) :=
  match n with
  | NSymbol s => Some (if decide (subject !! x.1 = Some s) then [(S x.1, x.2)] else [])
  | NAny => Some (if x.1 <? length subject then [(S x.1, x.2)] else [])
  | NConcat nodes => foldr (fun n k x => results fuel n x ≫= tries k) (fun x => Some [x]) nodes x
  | NAlternation nodes => foldr (fun n k => ys ← results fuel n x; zs ← k; Some (ys ++ zs)) (Some []) nodes
  | NRepeat node bounds greedy => again (results fuel node) bounds greedy fuel 0 x
  | NGroup node => results fuel node x
  | NCapture id node => ys ← results fuel node x; Some (map (fun y => (y.1, <[id := {| cs_start := x.1; cs_end := y.1 |}]> y.2)) ys)
  | NAnchor anchor => Some (if holds_at anchor subject x.1 then [x] else [])
  | NAssertion _ => None
  | NExtension e => Some
    match ext e subject x.1 with
    | Some j => if (x.1 <=? j) && (j <=? length subject) then [(j, x.2)] else []
    | None => []
    end
  end.

Lemma tries_Some k l zs : tries k l = Some zs -> exists F, zs = l ≫= F /\ forall x, x ∈ l -> k x = Some (F x).
Proof.
  intros H. exists (fun x => default [] (k x)). revert zs H. induction l as [|x l IH]; intros zs; simpl.
  - intros [= <-]. split; [done|]. by intros ? ?%elem_of_nil.
  - intros (ys & Hk & (zs' & Ht & [= <-])%bind_Some)%bind_Some. destruct (IH zs' Ht) as [-> HF]. rewrite Hk. split; [done|].
    intros y [->|Hy]%elem_of_cons; [by rewrite Hk|by apply HF].
Qed.

(** The results are exactly the matches. *)
Lemma elem_of_tries k l zs z : tries k l = Some zs -> z ∈ zs <-> exists y ys, y ∈ l /\ k y = Some ys /\ z ∈ ys.
Proof.
  intros (F & -> & HF)%tries_Some. rewrite list_elem_of_bind. split.
  - intros (y & Hz & Hy). exists y, (F y). auto.
  - intros (y & ys & Hy & Hk & Hz). exists y. rewrite (HF y Hy) in Hk. injection Hk as <-. by split.
Qed.

Abbreviation parse := (parse ext no_assertions subject).

Lemma elem_of_again (P : relation Point) body bounds greedy :
  (forall x ys y, body x = Some ys -> y ∈ ys <-> P x y) ->
  forall fuel count x ys y, again body bounds greedy fuel count x = Some ys ->
  y ∈ ys <-> exists k, (rb_min bounds <= count + N.of_nat k)%N /\ (match rb_max bounds with Some M => k = 0 \/ (count + N.of_nat k <= M)%N | None => True end) /\
    nsteps P k x y.
Proof.
  intros Hb. induction fuel as [|fuel IH]; intros count x ys y Hr; [done|]. cbn [again] in Hr. apply bind_Some in Hr as (bodies & Hbs & [= <-]).
  assert (y ∈ bodies <-> exists k, (rb_min bounds <= count + N.of_nat (S k))%N /\
    (match rb_max bounds with Some M => (count + N.of_nat (S k) <= M)%N | None => True end) /\ nsteps P (S k) x y) as Hbodies.
  { destruct (match rb_max bounds with Some _ => _ | None => _ end) eqn:Hm.
    - apply bind_Some in Hbs as (ms & Hms & Ht). rewrite (elem_of_tries _ _ _ _ Ht). split.
      + intros (z & zs & Hz & Ha & Hy). apply (IH _ _ _ _ Ha) in Hy as (k & H1 & H2 & H3). apply (Hb _ _ _ Hms) in Hz.
        exists k. split; [lia|]. split; [|by econstructor]. destruct (rb_max bounds); [|done]. apply N.ltb_lt in Hm. destruct H2; subst; lia.
      + intros (k & H1 & H2 & H3). inversion_clear H3 as [|? ? z ? HP Hk]. apply (Hb _ _ _ Hms) in HP as Hz.
        destruct (tries_Some _ _ _ Ht) as (F & _ & HF). specialize (HF z Hz). exists z, (F z). split; [done|]. split; [done|].
        apply (IH _ _ _ _ HF). exists k. split; [lia|]. split; [|done]. destruct (rb_max bounds); [right; lia|done].
    - injection Hbs as <-. split; [by intros ?%elem_of_nil|]. intros (k & _ & H2 & _). destruct (rb_max bounds); [|done]. apply N.ltb_ge in Hm. lia. }
  assert (y ∈ (if (rb_min bounds <=? count)%N then [x] else []) <-> (rb_min bounds <= count)%N /\ y = x) as Hexits.
  { destruct (N.leb_spec (rb_min bounds) count); rewrite ?list_elem_of_singleton; [naive_solver|]. split; [by intros ?%elem_of_nil|lia]. }
  transitivity (y ∈ bodies \/ y ∈ (if (rb_min bounds <=? count)%N then [x] else [])); [destruct greedy; rewrite elem_of_app; tauto|].
  rewrite Hbodies, Hexits. split.
  - intros [(k & H1 & H2 & H3)|[Hle ->]]; [exists (S k)|exists 0].
    + split; [done|]. split; [|done]. destruct (rb_max bounds); auto.
    + split; [lia|]. split; [|constructor]. destruct (rb_max bounds); auto.
  - intros ([|k] & H1 & H2 & H3); [right|left; exists k].
    + inversion H3. split; [lia|done].
    + split; [done|]. split; [|done]. destruct (rb_max bounds); [|done]. by destruct H2.
Qed.

Lemma elem_of_results fuel n : forall x ys y, results fuel n x = Some ys -> y ∈ ys <-> parse n x y.
Proof.
  induction n as [s| |l Hl|l Hl|n b g IH|n IH|id n IH|an|id|e] using ir_ind; intros x ys y Hr; cbn [results] in Hr.
  - injection Hr as <-. simpl. case_decide; rewrite ?list_elem_of_singleton; [naive_solver|]. split; [by intros ?%elem_of_nil|naive_solver].
  - injection Hr as <-. destruct x as [i c]. cbn [PatternExecute.parse fst snd]. destruct (Nat.ltb_spec i (length subject)); rewrite ?list_elem_of_singleton; [by split; [intros ->|intros [_ ->]]|].
    split; [by intros ?%elem_of_nil|lia].
  - revert x ys y Hr. induction Hl as [|n l Hn _ IHl]; intros x ys y Hr; cbn [foldr] in Hr.
    + injection Hr as <-. rewrite list_elem_of_singleton. simpl. naive_solver.
    + apply bind_Some in Hr as (ms & Hm & Ht). rewrite (elem_of_tries _ _ _ _ Ht). simpl. split.
      * intros (z & zs & Hz & Hzs & Hy). exists z. split; [by apply (Hn _ _ _ Hm)|by apply (IHl _ _ _ Hzs)].
      * intros (z & Hz & Hy). apply (Hn _ _ _ Hm) in Hz. destruct (tries_Some _ _ _ Ht) as (F & _ & HF).
        exists z, (F z). split; [done|]. split; [by apply HF|]. by apply (IHl _ _ _ (HF z Hz)).
  - revert ys Hr. induction Hl as [|n l Hn _ IHl]; intros ys Hr; cbn [foldr] in Hr.
    + injection Hr as <-. simpl. split; [by intros ?%elem_of_nil|done].
    + apply bind_Some in Hr as (ys1 & H1 & (ys2 & H2 & [= <-])%bind_Some). rewrite elem_of_app. simpl. rewrite (Hn _ _ _ H1), (IHl _ H2). done.
  - rewrite (elem_of_again (parse n) _ _ _ IH _ _ _ _ _ Hr). cbn [PatternExecute.parse]. unfold in_bounds.
    split; intros (k & H1 & H2).
    + exists k. destruct H2 as [H2 H3]. split; [|done]. split; [lia|]. destruct (rb_max b); [destruct H2; subst; lia|done].
    + exists k. destruct H1 as [H1 H3]. split; [lia|]. split; [|done]. destruct (rb_max b); [right; lia|done].
  - by apply IH.
  - apply bind_Some in Hr as (ms & Hm & [= <-]). rewrite (list_elem_of_fmap _ ms). cbn [PatternExecute.parse]. split.
    + intros ([j c] & -> & Hz). exists c. split; [by apply (IH _ _ _ Hm)|done].
    + intros (c & Hp & Hc). exists (y.1, c). split; [destruct y; simpl in *; by subst|by apply (IH _ _ _ Hm)].
  - injection Hr as <-. simpl. destruct (holds_at _ _ _); rewrite ?list_elem_of_singleton; [naive_solver|]. split; [by intros ?%elem_of_nil|naive_solver].
  - done.
  - injection Hr as <-. destruct x as [i c]. cbn [PatternExecute.parse fst snd].
    destruct (ext e subject i) as [j|]; [|split; [by intros ?%elem_of_nil|naive_solver]].
    destruct (Nat.leb_spec i j), (Nat.leb_spec j (length subject)); cbn [andb]; rewrite ?list_elem_of_singleton;
      (split; [first [by intros ?%elem_of_nil|intros ->; by exists j]|intros (j' & [= <-] & Hj & ->); first [done|lia]]).
Qed.
End Results.

(** ** The automaton tries the results in order *)

Section Ordered.
Context {Sym Ext : Type} `{EqDecision Sym} (ext : Ext -> list Sym -> nat -> option nat).
Context (a : Automaton Sym Ext) (subject : list Sym) (fuel : nat).
Implicit Types (n : IrNode Sym Ext) (x y : Point) (st : list (State Sym Ext)).

Abbreviation evals := (evals ext a subject).
Abbreviation moves_by := (moves_by ext subject).
Abbreviation agrees := (agrees (a_states a)).

(** The entries at a state for some points. *)
Definition entries (b : nat) (state : StateId) R o (ys : list Point) : list (nat * Thread) := (fun y => entry_at b y.1 state R o y.2) <$> ys.

(** [ordered_for]: an entry has the result of the entries at the continuation for
    the results of the expression. *)
Definition ordered_for (l : list (Item Ext)) (P : Point -> option (list Point))
    (build : StateId -> list (State Sym Ext) -> Res Empty_set (StateId * list (State Sym Ext))) : Prop :=
  NoDup (captures_in l) -> forall next st entry st', build next st = Ok (entry, st') -> agrees st st' ->
  forall b i R o c ys r, unused st st' R -> closed_in l o -> P (i, c) = Some ys ->
  evals (entries b next R o ys) r -> evals [entry_at b i entry R o c] r.

Lemma entries_app b state R o l1 l2 : entries b state R o (l1 ++ l2) = entries b state R o l1 ++ entries b state R o l2.
Proof. apply fmap_app. Qed.

Lemma entries_bind b state R o (F : Point -> list Point) l : entries b state R o (l ≫= F) = l ≫= (fun y => entries b state R o (F y)).
Proof. induction l as [|y l IH]; [done|]. cbn [mbind list_bind]. rewrite entries_app. by f_equal. Qed.

(** Trying a continuation at the results of an expression. *)
Lemma entries_tries b s1 s2 R1 R2 o k l zs r : tries k l = Some zs ->
  (forall y ys r, y ∈ l -> k y = Some ys -> evals (entries b s2 R2 o ys) r -> evals [entry_at b y.1 s1 R1 o y.2] r) ->
  evals (entries b s2 R2 o zs) r -> evals (entries b s1 R1 o l) r.
Proof.
  intros (F & -> & HF)%tries_Some Hk. rewrite entries_bind. apply evals_bind. intros y r' Hy. apply Hk; [done|by apply HF].
Qed.

Lemma ordered_push l (P : Point -> option (list Point)) (ins : StateId -> Instruction Sym Ext) :
  (forall next, ins next <> IAccept) -> (forall next id next', ins next <> IAssertion id next') ->
  (forall b i state R o c next ys, P (i, c) = Some ys -> moves_by (ins next) (entry_at b i state R o c) = entries b next R o ys) ->
  ordered_for l P (fun next st => push (ins next) st).
Proof.
  intros Ha Hn Hm _ next st entry st' Hp Hag b i R o c ys r Hu Ho HP. pose proof (agrees_push _ _ _ _ _ Hag Hp) as Hs.
  rewrite <- (evals_step ext a subject (entry_at b i entry R o c) (ins next)); [|by simpl; rewrite Hs|done|done].
  by rewrite (Hm b i entry R o c next ys HP).
Qed.

Lemma ordered_concat l : Forall (fun n => ordered_for (items n) (results ext subject fuel n) (build_node n)) l ->
  ordered_for (items (NConcat l)) (results ext subject fuel (NConcat l)) (build_node (NConcat l)).
Proof.
  induction 1 as [|n l Hn _ IHl]; intros Hnd next st entry st' Hb Ha b i R o c ys r Hu Ho Hp He; simpl in Hb.
  - injection Hb as -> ->. by injection Hp as <-.
  - simpl in Hnd, Ho. rewrite captures_app in Hnd. apply NoDup_app in Hnd as (Hn1 & _ & Hn2). apply closed_in_app in Ho as [Ho1 Ho2].
    apply rbind_Ok in Hb as ([tail st1] & H1 & H2). cbn [results foldr] in Hp. apply bind_Some in Hp as (ms & Hp1 & Hp2).
    pose proof (build_extends (NConcat l) _ _ _ _ H1) as He1. pose proof (build_extends _ _ _ _ _ H2) as He2.
    apply (Hn Hn1 _ _ _ _ H2 (agrees_r _ _ _ _ Ha He1) b i R o c ms r (unused_r _ _ _ _ Hu He1) Ho1 Hp1).
    eapply entries_tries; [exact Hp2| |exact He]. intros [j c'] ys' r' _ Hk.
    apply (IHl Hn2 _ _ _ _ H1 (agrees_l _ _ _ _ Ha He2) b j R o c' ys' r' (unused_l _ _ _ _ Hu He2) Ho2 Hk).
Qed.

Lemma ordered_alternatives l next : Forall (fun n => ordered_for (items n) (results ext subject fuel n) (build_node n)) l ->
  forall st ids st', build_all build_node l next st = Ok (ids, st') -> NoDup (captures_in (flat_map items l)) -> agrees st st' ->
  forall b i R o c ys r, unused st st' R -> closed_in (flat_map items l) o -> results ext subject fuel (NAlternation l) (i, c) = Some ys ->
  evals (entries b next R o ys) r -> evals ((fun s => entry_at b i s R o c) <$> ids) r.
Proof.
  induction 1 as [|n l Hn _ IHl]; intros st ids st' Hall Hnd Ha b i R o c ys r Hu Ho Hp He; simpl in Hall.
  { injection Hall as <- <-. by injection Hp as <-. }
  simpl in Hnd, Ho. rewrite captures_app in Hnd. apply NoDup_app in Hnd as (Hn1 & _ & Hn2). apply closed_in_app in Ho as [Ho1 Ho2].
  apply rbind_Ok in Hall as ([x0 st2] & Hb & ([xs st3] & Hall & [= <- <-])%rbind_Ok).
  pose proof (build_extends _ _ _ _ _ Hb) as Heb. pose proof (build_all_extends _ _ _ _ _ Hall) as Hea.
  cbn [results foldr] in Hp. apply bind_Some in Hp as (ys1 & Hp1 & (ys2 & Hp2 & [= <-])%bind_Some).
  pose proof (Hn Hn1 _ _ _ _ Hb (agrees_l _ _ _ _ Ha Hea) b i R o c ys1) as H1.
  pose proof (IHl _ _ _ Hall Hn2 (agrees_r _ _ _ _ Ha Heb) b i R o c ys2) as H2.
  rewrite entries_app, evals_app in He. rewrite fmap_cons. change (entry_at b i x0 R o c :: ((fun s => entry_at b i s R o c) <$> xs))
    with ([entry_at b i x0 R o c] ++ ((fun s => entry_at b i s R o c) <$> xs)). rewrite evals_app.
  pose proof (unused_l _ _ _ _ Hu Hea). pose proof (unused_r _ _ _ _ Hu Heb).
  destruct He as [(v & -> & Hv)|[Hd He]]; [left; exists v; split; [done|]; by apply H1|right; split; [by apply H1|by apply H2]].
Qed.

Lemma ordered_alternation l : Forall (fun n => ordered_for (items n) (results ext subject fuel n) (build_node n)) l ->
  ordered_for (items (NAlternation l)) (results ext subject fuel (NAlternation l)) (build_node (NAlternation l)).
Proof.
  intros Hl Hnd next st entry st' Hb Ha b i R o c ys r Hu Ho Hp He. simpl in Hb.
  apply rbind_Ok in Hb as ([ids st1] & H1 & H2). pose proof (push_extends _ _ _ _ H2) as He2.
  pose proof (build_all_extends _ _ _ _ _ H1) as He1. pose proof (agrees_push _ _ _ _ _ (agrees_r _ _ _ _ Ha He1) H2) as Hs.
  rewrite <- (evals_step ext a subject (entry_at b i entry R o c) (ISplit ids)); [|by simpl; rewrite Hs|done|done].
  exact (ordered_alternatives l next Hl _ _ _ H1 Hnd (agrees_l _ _ _ _ Ha He2) b i R o c ys r (unused_l _ _ _ _ Hu He2) Ho Hp He).
Qed.

(** The loop of a repeat that has run its body [count] times. *)
Lemma ordered_again (P : Point -> option (list Point)) rep body next bounds greedy R o b :
  s_instruction <$> a_states a !! rep = Some (IRepeat body next (rb_min bounds) (rb_max bounds) greedy) -> R !! rep = None ->
  (forall i c ys count r, P (i, c) = Some ys -> evals (entries b rep (<[rep := count]> R) o ys) r ->
    evals [entry_at b i body (<[rep := count]> R) o c] r) ->
  forall k count i c R' ys r, default 0%N (R' !! rep) = count -> delete rep R' = R -> again P bounds greedy k count (i, c) = Some ys ->
  evals (entries b next R o ys) r -> evals [entry_at b i rep R' o c] r.
Proof.
  intros Hs HR Hbody. induction k as [|k IH]; intros count i c R' ys r Hc Hd Hp He; [done|]. cbn [again] in Hp.
  apply bind_Some in Hp as (bodies & Hbs & [= <-]).
  rewrite <- (evals_step ext a subject (entry_at b i rep R' o c) _ r Hs); [|done|done]. unfold PatternPriority.moves_by, entry_at at 1, repeat_moves.
  cbn [t_repeats t_state with_repeats]. rewrite Hc, Hd.
  assert (<[rep := (count + 1)%N]> R' = <[rep := (count + 1)%N]> R) as HR' by (by rewrite <- Hd, insert_delete_eq). rewrite HR'.
  set (bs := if match rb_max bounds with Some m => (count <? m)%N | None => true end then _ else _).
  set (es := if (rb_min bounds <=? count)%N then [at_state _ _ _] else []).
  assert (es = entries b next R o (if (rb_min bounds <=? count)%N then [(i, c)] else [])) as -> by (subst es; by destruct (_ <=? _)%N).
  assert (forall r, evals (entries b next R o bodies) r -> evals bs r) as Hb'.
  { subst bs. intros r'. destruct (match rb_max bounds with Some _ => _ | None => _ end); [|by injection Hbs as <-].
    apply bind_Some in Hbs as (ms & Hm & Ht). intros Hr. eapply Hbody; [exact Hm|].
    eapply entries_tries; [exact Ht| |exact Hr]. intros [j c'] ys' r1 _ Hk.
    apply (IH (count + 1)%N); [by rewrite lookup_insert_eq|by rewrite delete_insert_id|done]. }
  destruct greedy; rewrite entries_app, evals_app in He; rewrite evals_app; naive_solver.
Qed.

Lemma ordered_repeat_node n rb g : ordered_for (items n) (results ext subject fuel n) (build_node n) ->
  ordered_for (items n) (results ext subject fuel (NRepeat n rb g)) (build_node (NRepeat n rb g)).
Proof.
  intros IH Hnd next st entry st' Hb Ha b i R o c ys r Hu Ho Hp He.
  destruct (build_repeat_inv _ _ _ _ _ _ _ _ Hb Ha) as (st1 & st2 & body & -> & Hst1 & Hn & Ha2 & Hlen & Hlt & sid & Hs).
  assert (length st1 = S (length st)) as Hl1 by (rewrite Hst1, length_app; simpl; lia).
  eapply (ordered_again (results ext subject fuel n) (length st) body next rb g R o b);
    [by rewrite Hs|apply Hu; lia| |by rewrite Hu by lia|apply delete_id, Hu; lia|exact Hp|exact He].
  intros i0 c0 ys0 count r0 Hp0. apply (IH Hnd _ _ _ _ Hn Ha2); [|done|done]. apply unused_insert; [|lia]. intros q Hq. apply Hu. lia.
Qed.

Lemma ordered_capture id n : ordered_for (items n) (results ext subject fuel n) (build_node n) ->
  ordered_for (items (NCapture id n)) (results ext subject fuel (NCapture id n)) (build_node (NCapture id n)).
Proof.
  intros IH Hnd next st entry st' Hb Ha b i R o c ys r Hu Ho Hp He. simpl in Hnd, Ho.
  cbn [results] in Hp. apply bind_Some in Hp as (ms & Hm & [= <-]).
  destruct (closed_in_capture _ _ _ Ho Hnd) as (Hoi & Hoc & Hnd').
  destruct (build_capture_inv _ _ _ _ _ _ _ Hb Ha) as (st1 & st2 & end_ & body & Hn & He1 & He3 & Hstart & Hend).
  rewrite <- (evals_step ext a subject (entry_at b i entry R o c) (ITag id TagStart body)); [|by simpl; rewrite Hstart|done|done].
  apply (IH Hnd' _ _ _ _ Hn (agrees_l _ _ _ _ (agrees_r _ _ _ _ Ha He1) He3) b i R (<[id := i]> o) c ms r); [|exact (Hoc i)|exact Hm|].
  - apply (unused_l _ _ _ _ (unused_r _ _ _ _ Hu He1) He3).
  - unfold entries in He. rewrite <- list_fmap_compose in He. apply (evals_bind ext a subject (fun y => [entry_at b y.1 next R o (<[id := {| cs_start := i; cs_end := y.1 |}]> y.2)])).
    + intros [j c'] r' _ Hr. rewrite <- (evals_step ext a subject _ (ITag id TagEnd next)); [|by simpl; rewrite Hend|done|done].
      pose proof (close_opened b i j end_ R o c' id Hoi) as Hcl. cbn [entry_at fst snd t_history PatternPriority.moves_by] in Hcl |- *. by rewrite Hcl.
    + rewrite (bind_single (fun y => entry_at b y.1 next R o (<[id := {| cs_start := i; cs_end := y.1 |}]> y.2)) ms). exact He.
Qed.

Lemma build_ordered n : ordered_for (items n) (results ext subject fuel n) (build_node n).
Proof.
  induction n as [s| |l Hl|l Hl|n rb g IH|n IH|id n IH|an|id|e] using ir_ind.
  - apply (ordered_push _ _ (ISymbol s)); [done|done|]. intros b i state R o c next ys [= <-]. cbn. by case_decide.
  - apply (ordered_push _ _ IAny); [done|done|]. intros b i state R o c next ys [= <-]. cbn. by case_match.
  - by apply ordered_concat.
  - by apply ordered_alternation.
  - exact (ordered_repeat_node n rb g IH).
  - exact IH.
  - by apply ordered_capture.
  - apply (ordered_push _ _ (IAnchor an)); [done|done|]. intros b i state R o c next ys [= <-]. cbn. by case_match.
  - done.
  - apply (ordered_push _ _ (IExtension e)); [done|done|]. intros b i state R o c next ys [= <-]. cbn. by repeat case_match.
Qed.
End Ordered.

(** ** The first match *)

Section First.
Context {Sym Ext : Type} `{EqDecision Sym} (ext : Ext -> list Sym -> nat -> option nat).
Implicit Types (n : IrNode Sym Ext) (a : Automaton Sym Ext) (ir : PatternIr Sym Ext) (subject : list Sym).

(** A match is the first of the results at its start, and there are none at an
    earlier start; without a match there are none at all. *)
Definition first_match fuel ir subject (starts : list nat) (o : ExecutionOutcome) : Prop :=
  match o with
  | OMatch m _ => exists before after rest, starts = before ++ em_start m :: after /\
      (forall s, s ∈ before -> results ext subject fuel (ir_root ir) (s, ∅) = Some []) /\
      results ext subject fuel (ir_root ir) (em_start m, ∅) = Some ((em_end m, em_captures m) :: rest)
  | ONoMatch _ => forall s, s ∈ starts -> results ext subject fuel (ir_root ir) (s, ∅) = Some []
  | OLimit _ _ => True
  | OUnsupported _ _ => False
  end.

(** The result of one start. *)
Lemma start_evals fuel n a subject s ys : built_for n a -> NoDup (captures_in (items n)) -> results ext subject fuel n (s, ∅) = Some ys ->
  evals ext a subject [start_thread a s] ((fun y => entry_at s y.1 0 ∅ ∅ y.2) <$> head ys).
Proof.
  intros Hbuilt Hnd Hr. pose proof (built_accept _ _ Hbuilt) as H0. destruct Hbuilt as (acc & st & [-> ->]%push_Ok & Hb).
  apply (build_ordered ext a subject fuel n Hnd _ _ _ _ Hb ltac:(by intros ? ?) s s ∅ ∅ ∅ ys); [by intros ? ?|by intros ? ?|done|].
  exists 1. destruct ys as [|y ys]; [done|]. simpl. by rewrite H0.
Qed.

Lemma starts_first fuel ir a subject starts : built_for (ir_root ir) a -> NoDup (captures_in (items (ir_root ir))) ->
  (forall s, s ∈ starts -> results ext subject fuel (ir_root ir) (s, ∅) <> None) ->
  exists res, evals ext a subject (start_thread a <$> starts) res /\ forall o, first_ok res o -> first_match fuel ir subject starts o.
Proof.
  intros Hb Hnd. induction starts as [|s starts IH]; intros Hr.
  - exists None. split; [by apply evals_nil|]. intros [m ?| | |] Ho; simpl in *; try done; [naive_solver|]. by intros ? ?%elem_of_nil.
  - destruct (results ext subject fuel (ir_root ir) (s, ∅)) as [ys|] eqn:Hs; [|by destruct (Hr s ltac:(by left))].
    pose proof (start_evals _ _ _ _ _ _ Hb Hnd Hs) as He. rewrite fmap_cons.
    change (start_thread a s :: (start_thread a <$> starts)) with ([start_thread a s] ++ (start_thread a <$> starts)).
    destruct ys as [|[j c] ys]; cbn [head fmap option_fmap option_map] in He.
    + destruct IH as (res & Hres & Ho); [intros s' Hs'; apply Hr; by right|]. exists res. split; [apply evals_app; by right|].
      intros o Hok%Ho. destruct o as [m ?|?|? ?|? ?]; simpl in *; [|intros s' [->|Hs']%elem_of_cons; auto|done..].
      destruct Hok as (before & after & rest & -> & Hbefore & Hm). exists (s :: before), after, rest. split; [done|]. split; [|done].
      intros s' [->|Hs']%elem_of_cons; auto.
    + eexists. split; [apply evals_app; left; by eexists|]. intros o Ho.
      destruct o as [m ?|?|? ?|? ?]; simpl in *; try done. destruct Ho as (p & t & [= <- <-] & ->). cbn.
      exists [], starts, ys. split; [done|]. split; [by intros ? ?%elem_of_nil|done].
Qed.

Lemma execute_first fuel ir a subject starts limits o : CompiledFor ir a -> NoDup (captures_in (all_items (ir_assertions ir) (ir_root ir))) ->
  (forall s, s ∈ starts -> results ext subject fuel (ir_root ir) (s, ∅) <> None) ->
  execute_inner ext exec_depth a subject starts limits = Ok o -> first_match fuel ir subject starts o.
Proof.
  intros Hc Hnd Hr. unfold all_items in Hnd. rewrite captures_app in Hnd. apply NoDup_app in Hnd as [Hnd _].
  destruct (starts_first fuel ir a subject starts (cf_built _ _ Hc) Hnd Hr) as (res & Hres & Ho). cbn [execute_inner exec_depth].
  repeat case_match; [by intros [= <-]..|]. intros Hx. apply Ho. eapply loop_first; [|exact Hres|exact Hx].
  split; [by intros ? ?%elem_of_empty|by intros ? ?%elem_of_nil..].
Qed.
End First.

(** ** Expressions for which backtracking ends *)

Section Ends.
Context {Sym Ext : Type} `{EqDecision Sym} (ext : Ext -> list Sym -> nat -> option nat) (subject : list Sym) (consumes : Ext -> bool).
Implicit Types (n : IrNode Sym Ext) (x y : Point).

(** Nodes whose matches are not empty. *)
Definition atom n : bool := match n with NSymbol _ | NAny => true | NExtension e => consumes e | _ => false end.

(** Only atoms are repeated, and there are no assertions. *)
Fixpoint ends n : bool :=
  match n with
  | NConcat nodes | NAlternation nodes => forallb ends nodes
  | NRepeat node _ _ => atom node
  | NGroup node | NCapture _ node => ends node
  | NAssertion _ => false
  | NSymbol _ | NAny | NAnchor _ | NExtension _ => true
  end.

Lemma tries_ends k l : (forall y, y ∈ l -> k y <> None) -> tries k l <> None.
Proof.
  induction l as [|x l IH]; intros Hk; [done|]. simpl. destruct (k x) eqn:Hx; [|by destruct (Hk x ltac:(by left))]. simpl.
  destruct (tries k l); [done|]. exfalso. apply IH; [|done]. intros y Hy. apply Hk. by right.
Qed.

Lemma again_ends body bounds greedy :
  (forall x, x.1 <= length subject -> exists ys, body x = Some ys /\ forall y, y ∈ ys -> x.1 < y.1 <= length subject) ->
  forall k count x, x.1 <= length subject -> length subject - x.1 < k -> again body bounds greedy k count x <> None.
Proof.
  intros Hb. induction k as [|k IH]; intros count x Hx Hk; [lia|]. destruct (Hb x Hx) as (ys & Hys & Hy). cbn [again].
  assert (tries (again body bounds greedy k (count + 1)) ys <> None) as Ht.
  { apply tries_ends. intros y Hin. specialize (Hy y Hin). apply IH; lia. }
  rewrite Hys. destruct (match rb_max bounds with Some _ => _ | None => _ end); [|done]. cbn [mbind option_bind]. by destruct (tries _ _).
Qed.

Context (Hconsumes : forall e i j, consumes e = true -> ext e subject i = Some j -> i < j).

Lemma results_end n : forall x, ends n = true -> x.1 <= length subject -> results ext subject (S (length subject)) n x <> None.
Proof using All.
  assert (forall n x ys y, results ext subject (S (length subject)) n x = Some ys -> x.1 <= length subject -> y ∈ ys -> x.1 <= y.1 <= length subject) as Hbd.
  { intros n' x ys y Hr Hx Hy. apply (elem_of_results _ _ _ _ _ _ _ Hr) in Hy. by eapply parse_bounds. }
  induction n as [s| |l Hl|l Hl|n b g IH|n IH|id n IH|an|id|e] using ir_ind; intros x He Hx; cbn [results]; try done.
  - simpl in He. revert x Hx. induction Hl as [|n l Hn _ IHl]; intros x Hx; [done|]. simpl in He. apply andb_prop in He as [He1 He2]. simpl.
    destruct (results _ _ _ n x) as [ms|] eqn:Hm; [|by destruct (Hn x)]. simpl. apply tries_ends. intros y Hy. apply IHl; [done|]. by apply (Hbd _ _ _ _ Hm).
  - simpl in He. induction Hl as [|n l Hn _ IHl]; [done|]. simpl in He. apply andb_prop in He as [He1 He2]. simpl.
    destruct (results _ _ _ n x) as [ms|] eqn:Hm; [|by destruct (Hn x)]. simpl. specialize (IHl He2). by destruct (foldr _ _ l).
  - apply again_ends; [|done|lia]. intros z Hz. assert (ends n = true) as Hn by by destruct n.
    destruct (results _ _ _ n z) as [ys|] eqn:Hys; [|by destruct (IH z)]. exists ys. split; [done|]. intros y Hy.
    pose proof (Hbd _ _ _ _ Hys Hz Hy). apply (elem_of_results _ _ _ _ _ _ _ Hys) in Hy. split; [|lia].
    destruct n; try done; simpl in Hy; [destruct Hy as [_ ->]; simpl; lia..|]. destruct Hy as (j & Hj & _ & ->). by eapply Hconsumes.
  - by apply IH.
  - destruct (results _ _ _ n x) as [ms|] eqn:Hm; [done|]. by destruct (IH x).
Qed.
End Ends.

(** ** Searches *)

Section FirstClaims.
Context {Sym Ext : Type} `{EqDecision Sym} `{EqDecision Ext}.
Implicit Types (root : IrNode Sym Ext) (a : Automaton Sym Ext) (ir : PatternIr Sym Ext) (subject : list Sym).

(** A search from [init] on answers with the first match of the matcher [R] at
    the first offset where it has one. *)
Definition first_from (R : nat -> option (list Point)) (len : nat) (init : nat) (o : ExecutionOutcome) : Prop :=
  match o with
  | OMatch m _ => init <= em_start m <= len /\ (forall s, init <= s < em_start m -> R s = Some []) /\
      exists rest, R (em_start m) = Some ((em_end m, em_captures m) :: rest)
  | ONoMatch _ => forall s, init <= s <= len -> R s = Some []
  | OLimit _ _ => True
  | OUnsupported _ _ => False
  end.

Lemma seq_split init k before s after : seq init k = before ++ s :: after -> init <= s < init + k /\ forall s', s' ∈ before <-> init <= s' < s.
Proof.
  revert init k. induction before as [|s0 before IH]; intros init [|k] Heq; simpl in Heq; try done.
  - injection Heq as <- _. split; [lia|]. intros s'. split; [by intros ?%elem_of_nil|lia].
  - injection Heq as <- Heq. destruct (IH _ _ Heq) as [Hs Hb]. split; [lia|]. intros s'. rewrite elem_of_cons, Hb. lia.
Qed.

Lemma spanning_first ext fuel ir a subject init limits o : CompiledFor ir a -> NoDup (captures_in (all_items (ir_assertions ir) (ir_root ir))) ->
  (forall s, init <= s <= length subject -> results ext subject fuel (ir_root ir) (s, ∅) <> None) ->
  search_spanning ext a subject init limits = Ok o ->
  first_from (fun s => results ext subject fuel (ir_root ir) (s, ∅)) (length subject) init o.
Proof.
  intros Hc Hnd Hr Ho. unfold search_spanning, search_starts in Ho.
  apply (execute_first ext fuel ir a subject _ limits o Hc Hnd) in Ho; [|intros s Hs%elem_of_seq; apply Hr; lia].
  destruct o as [m r|r|l r|f r]; simpl in *; [|intros s Hs; apply Ho, elem_of_seq; lia|done..].
  destruct Ho as (before & after & rest & [Hm Hb]%seq_split & Hbefore & Hrest). split; [lia|]. split; [|eauto].
  intros s Hs. by apply Hbefore, Hb.
Qed.

(** C6: Where a backtracking matcher ends, the search gives its answer: a match
    is the matcher's first match, in the order of alternatives and of greedy and
    lazy repeats, at the first offset from the start on where it has one, with
    its captures; without a match the matcher finds none.  The matcher's results
    are exactly the matches of the expression. *)
Theorem search_first (extension_matches : Ext -> Sym -> bool) root assertions policy ir a subject init limits fuel :
  let matcher s := results (single_match extension_matches) subject fuel root (s, ∅) in
  new_pattern root assertions policy = Ok ir -> compile ir = Ok a -> (len subject <= usize_max)%N ->
  (forall s, init <= s <= length subject -> matcher s <> None) ->
  (exists o, search_regular extension_matches a subject init limits = Ok o /\ first_from matcher (length subject) init o) /\
  forall s ys y, matcher s = Some ys -> y ∈ ys <-> parse (single_match extension_matches) no_assertions subject root (s, ∅) y.
Proof.
  intros matcher Hn%new_pattern_captures Ha%compile_Ok Hlen Hr. destruct Hn as [-> Hnd]. split.
  - unfold search_regular. destruct (Nat.ltb_spec (length subject) init) as [Hlt|Hle].
    + eexists. split; [done|]. intros s Hs. lia.
    + destruct (compiled_search (single_match extension_matches) _ _ subject init limits Ha Hnd) as (o & Ho & _);
        [right; split; [apply single_match_single|done]|].
      exists o. split; [exact Ho|]. by eapply (spanning_first _ fuel _ _ _ _ _ _ Ha Hnd).
  - intros s ys y. apply elem_of_results.
Qed.
End FirstClaims.
