(* ===== verification/PatternText.v ===== *)
(** * Text patterns

    crates/sim-lib-pattern/src/text_vm.rs: character classes, the operations of
    text programs, their lowering into pattern expressions, and the search over
    text with byte offsets.  A [char] is its scalar value in [N]; a [str] is the
    list of its characters, of which UTF-8 determines the offsets. *)

From S2P Require Import Prelude BTree PatternIr PatternCompile PatternExecute.

Inductive TextClass :=
| Alpha | Digit | Lower | Upper | Alnum | Space | Punct | Hex | Zero
| ClassSet (chars : list N) (ranges : list (N * N)) (classes : list TextClass) (negated : bool)
| ClassNot (class : TextClass).

#[export] Instance TextClass_eq_dec : EqDecision TextClass.
Proof.
  refine (fix go (x y : TextClass) : Decision (x = y) :=
    match x, y with
    | Alpha, Alpha | Digit, Digit | Lower, Lower | Upper, Upper | Alnum, Alnum
    | Space, Space | Punct, Punct | Hex, Hex | Zero, Zero => left _
    | ClassSet c r cs n, ClassSet c' r' cs' n' =>
      cast_if_and4 (decide (c = c')) (decide (r = r')) (@decide (cs = cs') (@list_eq_dec _ go cs cs')) (decide (n = n'))
    | ClassNot c, ClassNot c' => cast_if (go c c')
    | _, _ => right _
    end); clear go; abstract congruence.
Defined.

Definition between (lo hi ch : N) : bool := ((lo <=? ch) && (ch <=? hi))%N.

(** [char::is_ascii_*]. *)
Definition is_ascii_lowercase := between 97 122.

Definition is_ascii_uppercase := between 65 90.

Definition is_ascii_digit := between 48 57.

Definition is_ascii_alphabetic (ch : N) : bool := is_ascii_lowercase ch || is_ascii_uppercase ch.

Definition is_ascii_alphanumeric (ch : N) : bool := is_ascii_alphabetic ch || is_ascii_digit ch.

Definition is_ascii_whitespace (ch : N) : bool := existsb (N.eqb ch) [9; 10; 12; 13; 32]%N.

Definition is_ascii_punctuation (ch : N) : bool := between 33 47 ch || between 58 64 ch || between 91 96 ch || between 123 126 ch.

Definition is_ascii_hexdigit (ch : N) : bool := is_ascii_digit ch || between 65 70 ch || between 97 102 ch.

(** [TextClass::matches]. *)
Fixpoint class_matches (c : TextClass) (ch : N) : bool :=
  match c with
  | Alpha => is_ascii_alphabetic ch
  | Digit => is_ascii_digit ch
  | Lower => is_ascii_lowercase ch
  | Upper => is_ascii_uppercase ch
  | Alnum => is_ascii_alphanumeric ch
  | Space => is_ascii_whitespace ch
  | Punct => is_ascii_punctuation ch
  | Hex => is_ascii_hexdigit ch
  | Zero => (ch =? 0)%N
  | ClassSet chars ranges classes negated =>
    let found := existsb (N.eqb ch) chars || existsb (fun '(lo, hi) => between lo hi ch) ranges
      || existsb (fun c => class_matches c ch) classes in
    if negated then negb found else found
  | ClassNot class => negb (class_matches class ch)
  end.

(** [Instruction::matches] of compile.rs. *)
Definition instruction_matches (i : Instruction N TextClass) (symbol : N) : bool :=
  match i with
  | ISymbol expected _ => (expected =? symbol)%N
  | IAny _ => true
  | IExtension extension _ => class_matches extension symbol
  | _ => false
  end.

Inductive TextOp :=
| OpClass (class : TextClass)
| OpLiteral (ch : N)
| OpAny
| OpCaptureStart
| OpCaptureEnd
| OpRepeat (min : N) (max : option N) (greedy : bool)
| OpBalanced (open close : N)
| OpFrontier (class : TextClass)
| OpAnchorStart
| OpAnchorEnd.

Inductive TextExtension :=
| XClass (class : TextClass)
| XBalanced (open close : N)
| XFrontier (class : TextClass).

#[export] Instance TextExtension_eq_dec : EqDecision TextExtension.
Proof. solve_decision. Defined.

Record TextMatch := {
  tm_start : N;
  tm_end : N;
  tm_captures : list (N * N);
}.

Inductive PatternSearchOutcome :=
| PMatch (matched : TextMatch) (receipt : ExecutionReceipt)
| PNoMatch (receipt : ExecutionReceipt)
| PLimit (limit : ExecutionLimit) (receipt : ExecutionReceipt)
| PUnsupported (feature : UnsupportedFeature) (receipt : ExecutionReceipt).

(** [PatternSearchOutcome::into_match]. *)
Definition into_match (o : PatternSearchOutcome) : option TextMatch :=
  match o with PMatch m _ => Some m | _ => None end.

Definition empty_receipt : ExecutionReceipt :=
  {| r_state_count := 0; r_state_visits := 0; r_transitions := 0; r_capture_history := 0; r_subject_symbols := 0 |}.

(** ** Offsets *)

Record CursorText := {
  ct_chars : list N;
  ct_offsets : list N;
  ct_len_bytes : N;
}.

(** [subject.char_indices()]. *)
Fixpoint char_offsets (offset : N) (subject : list N) : list N :=
  match subject with
  | [] => []
  | ch :: rest => offset :: char_offsets (offset + utf8_len ch) rest
  end.

Definition new_cursor_text (subject : list N) : CursorText :=
  {| ct_chars := subject; ct_offsets := char_offsets 0 subject; ct_len_bytes := byte_length subject |}.

Definition cursor_for_byte (t : CursorText) (byte : N) : option nat :=
  if (byte =? ct_len_bytes t)%N then Some (length (ct_chars t))
  else fst <$> list_find (fun offset => offset = byte) (ct_offsets t).

Definition byte_for_cursor (t : CursorText) (cursor : nat) : N := default (ct_len_bytes t) (ct_offsets t !! cursor).

(** ** Lowering *)

(** [next_capture += 1] on [u32]. *)
Definition next_u32 (n : N) : N := ((n + 1) mod 4294967296)%N.

Abbreviation TextNode := (IrNode N TextExtension).

(** The loop over the operations; the frame on top is the last one. *)
Fixpoint lower_loop (ops : list TextOp) (frames : list (list TextNode)) (next_capture : N) : option (list (list TextNode)) :=
  match ops with
  | [] => Some frames
  | op :: ops =>
    match frames with
    | [] => None
    | nodes :: outer =>
      let add node := lower_loop ops ((nodes ++ [node]) :: outer) next_capture in
      match op with
      | OpClass class => add (NExtension (XClass class))
      | OpLiteral ch => add (NSymbol ch)
      | OpAny => add NAny
      | OpBalanced open close => add (NExtension (XBalanced open close))
      | OpRepeat min max greedy =>
        match last nodes with
        | None => None
        | Some node =>
          match new_bounds (Ext := TextExtension) min max with
          | Ok bounds => lower_loop ops ((removelast nodes ++ [NRepeat node bounds greedy]) :: outer) next_capture
          | _ => None
          end
        end
      | OpCaptureStart => lower_loop ops ([] :: frames) next_capture
      | OpCaptureEnd =>
        match outer with
        | [] => None
        | parent :: outer =>
          lower_loop ops ((parent ++ [NCapture next_capture (NConcat nodes)]) :: outer) (next_u32 next_capture)
        end
      | OpFrontier class => add (NExtension (XFrontier class))
      | OpAnchorStart => add (NAnchor SubjectStart)
      | OpAnchorEnd => add (NAnchor SubjectEnd)
      end
    end
  end.

Definition op_extension (op : TextOp) : option TextExtension :=
  match op with
  | OpClass class => Some (XClass class)
  | OpBalanced open close => Some (XBalanced open close)
  | OpFrontier class => Some (XFrontier class)
  | _ => None
  end.

Definition lower_text_program (ops : list TextOp) : option (PatternIr N TextExtension) :=
  match lower_loop ops [[]] 0 with
  | Some [nodes] =>
    match new_pattern (NConcat nodes) ∅ {| admitted_extensions := omap op_extension ops |} with
    | Ok ir => Some ir
    | _ => None
    end
  | _ => None
  end.

(** ** Search *)

(** The loop of [match_balanced] from [index] on. *)
Fixpoint balanced_loop (open close : N) (text : list N) (index : nat) (depth : N) : option nat :=
  match text with
  | [] => None
  | ch :: rest =>
    let depth := if (ch =? open)%N then (depth + 1)%N else depth in
    if (ch =? close)%N then
      let depth := saturating_sub depth 1 in
      if (depth =? 0)%N then Some (S index) else balanced_loop open close rest (S index) depth
    else balanced_loop open close rest (S index) depth
  end.

Definition match_balanced (text : list N) (cursor : nat) (open close : N) : option nat :=
  if decide (text !! cursor = Some open) then balanced_loop open close (drop cursor text) cursor 0 else None.

Definition class_at (class : TextClass) (text : list N) (i : nat) : bool :=
  match text !! i with Some ch => class_matches class ch | None => false end.

(** The callback of [run_text_pattern]. *)
Definition text_extension_match (extension : TextExtension) (subject : list N) (position : nat) : option nat :=
  match extension with
  | XClass class => if class_at class subject position then Some (S position) else None
  | XBalanced open close => match_balanced subject position open close
  | XFrontier class =>
    let previous := match position with 0 => false | S i => class_at class subject i end in
    if negb previous && class_at class subject position then Some position else None
  end.

Definition to_bytes (t : CursorText) (m : ExecutionMatch) : TextMatch :=
  {| tm_start := byte_for_cursor t (em_start m); tm_end := byte_for_cursor t (em_end m);
     tm_captures := (fun span => (byte_for_cursor t (cs_start span), byte_for_cursor t (cs_end span))) <$> map_values (em_captures m) |}.

(** The outcome of the search in byte offsets. *)
Definition text_outcome (t : CursorText) (o : ExecutionOutcome) : PatternSearchOutcome :=
  match o with
  | OMatch m r => PMatch (to_bytes t m) r
  | ONoMatch r => PNoMatch r
  | OLimit l r => PLimit l r
  | OUnsupported f r => PUnsupported f r
  end.

Definition run_text_pattern (ops : list TextOp) (subject : list N) (init : N) (limits : TextLimits) : Res Empty_set PatternSearchOutcome :=
  match lower_text_program ops with
  | None => Ok (PNoMatch empty_receipt)
  | Some ir =>
    let? automaton := compile ir in
    let text := new_cursor_text subject in
    match cursor_for_byte text init with
    | None => Ok (PNoMatch empty_receipt)
    | Some init_cursor =>
      let? o := search_spanning text_extension_match automaton (ct_chars text) init_cursor limits in
      Ok (text_outcome text o)
    end
  end.

(** ** Offsets are exact *)

Lemma utf8_len_pos c : (0 < utf8_len c)%N.
Proof. unfold utf8_len. repeat case_match; lia. Qed.

Lemma char_offsets_lookup subject : forall offset i, i < length subject ->
  char_offsets offset subject !! i = Some (offset + byte_length (take i subject))%N.
Proof.
  induction subject as [|c rest IH]; intros offset i Hi; simpl in Hi; [lia|]. destruct i as [|i]; simpl; [f_equal; lia|].
  rewrite IH by lia. f_equal. unfold byte_length. simpl. lia.
Qed.

Lemma length_char_offsets subject : forall offset, length (char_offsets offset subject) = length subject.
Proof. induction subject as [|c rest IH]; intros offset; simpl; [done|]. by rewrite IH. Qed.

Lemma byte_length_app l1 l2 : byte_length (l1 ++ l2) = (byte_length l1 + byte_length l2)%N.
Proof. unfold byte_length. induction l1 as [|c l1 IH]; simpl; [lia|]. rewrite IH. lia. Qed.

Lemma byte_length_take_lt subject i j : i < j <= length subject -> (byte_length (take i subject) < byte_length (take j subject))%N.
Proof.
  intros Hij. replace (take j subject) with (take i subject ++ take (j - i) (drop i subject)) by (rewrite take_take_drop; f_equal; lia).
  rewrite byte_length_app. destruct (drop i subject) as [|c rest] eqn:Hd.
  - apply (f_equal length) in Hd. rewrite length_drop in Hd. simpl in Hd. lia.
  - destruct (j - i) as [|k] eqn:Hk; [lia|]. unfold byte_length. simpl. pose proof (utf8_len_pos c). lia.
Qed.

Lemma byte_for_cursor_eq subject i : i <= length subject -> byte_for_cursor (new_cursor_text subject) i = byte_length (take i subject).
Proof.
  intros Hi. unfold byte_for_cursor. cbn [new_cursor_text ct_offsets ct_len_bytes].
  destruct (decide (i = length subject)) as [->|Hne].
  - rewrite lookup_ge_None_2 by (by rewrite length_char_offsets). by rewrite take_ge by done.
  - rewrite char_offsets_lookup by lia. done.
Qed.

Lemma cursor_round_trip_facts subject :
  (forall i, i <= length subject -> byte_for_cursor (new_cursor_text subject) i = byte_length (take i subject) /\
    cursor_for_byte (new_cursor_text subject) (byte_for_cursor (new_cursor_text subject) i) = Some i) /\
  (forall byte i, cursor_for_byte (new_cursor_text subject) byte = Some i ->
    i <= length subject /\ byte_for_cursor (new_cursor_text subject) i = byte).
Proof.
  split.
  - intros i Hi. split; [by apply byte_for_cursor_eq|]. rewrite byte_for_cursor_eq by done. unfold cursor_for_byte.
    cbn [new_cursor_text ct_offsets ct_len_bytes ct_chars]. destruct (decide (i = length subject)) as [->|Hne].
    + by rewrite take_ge, N.eqb_refl by done.
    + pose proof (byte_length_take_lt subject i (length subject) ltac:(lia)) as Hlt. rewrite (take_ge subject (length subject)) in Hlt by done.
      destruct (N.eqb_spec (byte_length (take i subject)) (byte_length subject)); [lia|].
      destruct (list_find _ _) as [[k o]|] eqn:Hf.
      * apply list_find_Some in Hf as (Hk & -> & _). pose proof (lookup_lt_Some _ _ _ Hk) as Hkl. rewrite length_char_offsets in Hkl.
        rewrite char_offsets_lookup in Hk by lia. injection Hk as Hk. destruct (lt_eq_lt_dec k i) as [[Hlt'| ->]|Hlt']; [|done|].
        -- pose proof (byte_length_take_lt subject k i ltac:(lia)). lia.
        -- pose proof (byte_length_take_lt subject i k ltac:(lia)). lia.
      * apply list_find_None in Hf. rewrite Forall_forall in Hf. exfalso. apply (Hf (byte_length (take i subject))); [|done].
        apply list_elem_of_lookup. exists i. by rewrite char_offsets_lookup by lia.
  - intros byte i. unfold cursor_for_byte. cbn [new_cursor_text ct_offsets ct_len_bytes ct_chars].
    destruct (N.eqb_spec byte (byte_length subject)) as [->|Hne].
    + intros [= <-]. split; [done|]. rewrite byte_for_cursor_eq by done. by rewrite take_ge.
    + intros ([k o] & (Hk & -> & _)%list_find_Some & ->)%fmap_Some. cbn [fst]. pose proof (lookup_lt_Some _ _ _ Hk) as Hkl.
      rewrite length_char_offsets in Hkl. split; [lia|]. rewrite byte_for_cursor_eq by lia. rewrite char_offsets_lookup in Hk by lia.
      by injection Hk as Hk.
Qed.

(** The byte offsets of a text are exact: the offset of the [i]-th character
    is the encoded length of the characters before it, an offset is mapped back
    to its character, and every byte that is mapped to a character is its
    offset. *)
Theorem cursor_round_trip subject :
  (forall i, i <= length subject -> byte_for_cursor (new_cursor_text subject) i = byte_length (take i subject) /\
    cursor_for_byte (new_cursor_text subject) (byte_for_cursor (new_cursor_text subject) i) = Some i) /\
  (forall byte i, cursor_for_byte (new_cursor_text subject) byte = Some i ->
    i <= length subject /\ byte_for_cursor (new_cursor_text subject) i = byte).
Proof. apply cursor_round_trip_facts. Qed.
