(* ===== verification/PatternDialects.v ===== *)
(** * Lua and glob patterns

    crates/sim-lib-pattern/src/lua_dialect.rs and glob_dialect.rs: the two
    surface syntaxes, parsed into pattern expressions and projected to text
    programs.  The parsers keep the characters that are not read yet instead of
    an index into all of them.  A loop that reads characters has as fuel one
    more than the characters it is given. *)

From Stdlib Require Import String Ascii.
From S2P Require Import Prelude BTree PatternIr PatternText.

(** A character literal. *)
Definition ch (s : string) : N := match s with String c _ => N_of_ascii c | EmptyString => 0%N end.

#[local] Open Scope string_scope.
#[local] Open Scope list_scope.

Inductive LuaExtension :=
| LClass (class : TextClass)
| LBalanced (open close : N)
| LFrontier (class : TextClass).

#[export] Instance LuaExtension_eq_dec : EqDecision LuaExtension.
Proof. solve_decision. Defined.

Inductive GlobExtension := GClass (class : TextClass).

#[export] Instance GlobExtension_eq_dec : EqDecision GlobExtension.
Proof. solve_decision. Defined.

(** [malformed(..)]: the message, or the pattern error that is printed in it. *)
Inductive PatternError (Ext : Type) :=
| Malformed (message : string)
| MalformedIr (e : IrError Ext).

Arguments Malformed {Ext} message.
Arguments MalformedIr {Ext} e.

(** ** Character sets *)

Inductive SetItem := SLiteral (c : N) | SClass (class : TextClass).

Definition set_escape (c : N) : SetItem :=
  if (c =? ch "a")%N then SClass Alpha
  else if (c =? ch "d")%N then SClass Digit
  else if (c =? ch "l")%N then SClass Lower
  else if (c =? ch "u")%N then SClass Upper
  else if (c =? ch "w")%N then SClass Alnum
  else if (c =? ch "s")%N then SClass Space
  else if (c =? ch "p")%N then SClass Punct
  else if (c =? ch "x")%N then SClass Hex
  else if (c =? ch "z")%N then SClass Zero
  else SLiteral c.

Section Sets.
Context {Ext : Type}.

(** The loop of [parse_set_body]; [acc] holds the literals, ranges and classes
    read so far. *)
Fixpoint parse_set_loop (fuel : nat) (negated : bool) (unterminated : string) (first : bool)
    (acc : list N * list (N * N) * list TextClass) (chars : list N) : Res (PatternError Ext) (TextClass * list N) :=
  match fuel with
  | 0 => NoFuel
  | S fuel =>
    match chars with
    | [] => Err (Malformed unterminated)
    | c :: rest =>
      let '(literals, ranges, classes) := acc in
      if (c =? ch "]")%N && negb first then Ok (ClassSet literals ranges classes negated, rest)
      else
        let? (item, rest) :=
          if (c =? ch "%")%N then
            match rest with
            | [] => Err (Malformed "dangling set escape")
            | escaped :: rest => Ok (set_escape escaped, rest)
            end
          else Ok (SLiteral c, rest) in
        match item with
        | SLiteral start =>
          match rest with
          | dash :: end_ :: after =>
            if (dash =? ch "-")%N && negb (end_ =? ch "]")%N
            then parse_set_loop fuel negated unterminated false (literals, ranges ++ [(start, end_)], classes) after
            else parse_set_loop fuel negated unterminated false (literals ++ [start], ranges, classes) rest
          | _ => parse_set_loop fuel negated unterminated false (literals ++ [start], ranges, classes) rest
          end
        | SClass class => parse_set_loop fuel negated unterminated false (literals, ranges, classes ++ [class]) rest
        end
    end
  end.

Definition parse_set_body (chars : list N) (negated : bool) (unterminated : string) : Res (PatternError Ext) (TextClass * list N) :=
  parse_set_loop (S (length chars)) negated unterminated true ([], [], []) chars.
End Sets.

(** ** Lua *)

Abbreviation LuaNode := (IrNode N LuaExtension).

Inductive Escaped := EAtom (node : LuaNode) | EZeroWidth (node : LuaNode).

Definition class_atom (class : TextClass) : Escaped := EAtom (NExtension (LClass class)).

Definition parse_set (chars : list N) : Res (PatternError LuaExtension) (TextClass * list N) :=
  match chars with
  | c :: rest => if (c =? ch "^")%N then parse_set_body rest true "unterminated character set"
    else parse_set_body chars false "unterminated character set"
  | [] => parse_set_body chars false "unterminated character set"
  end.

Definition parse_percent (chars : list N) : Res (PatternError LuaExtension) (Escaped * list N) :=
  match chars with
  | [] => Err (Malformed "dangling percent escape")
  | c :: rest =>
    if (c =? ch "a")%N then Ok (class_atom Alpha, rest)
    else if (c =? ch "A")%N then Ok (class_atom (ClassNot Alpha), rest)
    else if (c =? ch "d")%N then Ok (class_atom Digit, rest)
    else if (c =? ch "D")%N then Ok (class_atom (ClassNot Digit), rest)
    else if (c =? ch "l")%N then Ok (class_atom Lower, rest)
    else if (c =? ch "L")%N then Ok (class_atom (ClassNot Lower), rest)
    else if (c =? ch "u")%N then Ok (class_atom Upper, rest)
    else if (c =? ch "U")%N then Ok (class_atom (ClassNot Upper), rest)
    else if (c =? ch "w")%N then Ok (class_atom Alnum, rest)
    else if (c =? ch "W")%N then Ok (class_atom (ClassNot Alnum), rest)
    else if (c =? ch "s")%N then Ok (class_atom Space, rest)
    else if (c =? ch "S")%N then Ok (class_atom (ClassNot Space), rest)
    else if (c =? ch "p")%N then Ok (class_atom Punct, rest)
    else if (c =? ch "P")%N then Ok (class_atom (ClassNot Punct), rest)
    else if (c =? ch "x")%N then Ok (class_atom Hex, rest)
    else if (c =? ch "X")%N then Ok (class_atom (ClassNot Hex), rest)
    else if (c =? ch "z")%N then Ok (class_atom Zero, rest)
    else if (c =? ch "b")%N then
      match rest with
      | [] => Err (Malformed "balanced pattern missing open delimiter")
      | [_] => Err (Malformed "balanced pattern missing close delimiter")
      | open :: close :: rest => Ok (EAtom (NExtension (LBalanced open close)), rest)
      end
    else if (c =? ch "f")%N then
      match rest with
      | b :: rest =>
        if (b =? ch "[")%N then
          let? (set, rest) := parse_set rest in Ok (EZeroWidth (NExtension (LFrontier set)), rest)
        else Err (Malformed "frontier pattern requires a character set")
      | [] => Err (Malformed "frontier pattern requires a character set")
      end
    else Ok (EAtom (NSymbol c), rest)
  end.

Definition lua_quantifier (c : N) : option (N * option N * bool) :=
  if (c =? ch "*")%N then Some (0%N, None, true)
  else if (c =? ch "+")%N then Some (1%N, None, true)
  else if (c =? ch "-")%N then Some (0%N, None, false)
  else if (c =? ch "?")%N then Some (0%N, Some 1%N, true)
  else None.

(** [frames.last_mut().expect(..).push(node)]. *)
Definition push_node {N E} (node : N) (frames : list (list N)) : Res E (list (list N)) :=
  match frames with
  | [] => Panic
  | nodes :: outer => Ok ((nodes ++ [node]) :: outer)
  end.

Definition push_atom (node : LuaNode) (frames : list (list LuaNode)) (chars : list N)
    : Res (PatternError LuaExtension) (list (list LuaNode) * list N) :=
  let? (node, chars) :=
    match chars with
    | c :: rest =>
      match lua_quantifier c with
      | Some (min, max, greedy) =>
        match new_bounds (Ext := LuaExtension) min max with
        | Ok bounds => Ok (NRepeat node bounds greedy, rest)
        | _ => Panic
        end
      | None => Ok (node, chars)
      end
    | [] => Ok (node, chars)
    end in
  let? frames := push_node node frames in
  Ok (frames, chars).

(** One turn of the loop of [LuaCompiler::compile], after [c] was read. *)
Definition lua_turn (c : N) (frames : list (list LuaNode)) (next_capture : N) (chars : list N)
    : Res (PatternError LuaExtension) (list (list LuaNode) * N * list N) :=
  let atom node chars := let? (frames, chars) := push_atom node frames chars in Ok (frames, next_capture, chars) in
  let zero_width node chars := let? frames := push_node node frames in Ok (frames, next_capture, chars) in
  if (c =? ch "^")%N && match frames with [[]] => true | _ => false end then zero_width (NAnchor SubjectStart) chars
  else if (c =? ch "^")%N then atom (NSymbol c) chars
  else if (c =? ch "$")%N && match chars with [] => true | _ => false end then zero_width (NAnchor SubjectEnd) chars
  else if (c =? ch "$")%N then atom (NSymbol c) chars
  else if (c =? ch ".")%N then atom NAny chars
  else if (c =? ch "(")%N then Ok ([] :: frames, next_capture, chars)
  else if (c =? ch ")")%N then
    match frames with
    | body :: parent :: outer =>
      Ok ((parent ++ [NCapture next_capture (NConcat body)]) :: outer, next_u32 next_capture, chars)
    | _ => Err (Malformed "capture close without open")
    end
  else if (c =? ch "[")%N then let? (set, chars) := parse_set chars in atom (NExtension (LClass set)) chars
  else if (c =? ch "%")%N then
    let? (escaped, chars) := parse_percent chars in
    match escaped with EAtom node => atom node chars | EZeroWidth node => zero_width node chars end
  else if existsb (N.eqb c) [ch "*"; ch "+"; ch "-"; ch "?"] then Err (Malformed "quantifier without atom")
  else atom (NSymbol c) chars.

Fixpoint lua_loop (fuel : nat) (frames : list (list LuaNode)) (next_capture : N) (chars : list N)
    : Res (PatternError LuaExtension) (list (list LuaNode)) :=
  match fuel with
  | 0 => NoFuel
  | S fuel =>
    match chars with
    | [] => Ok frames
    | c :: chars =>
      let? (frames, next_capture, chars) := lua_turn c frames next_capture chars in
      lua_loop fuel frames next_capture chars
    end
  end.

(** [visit] with [extensions.push], and [collect_extensions]. *)
Fixpoint collect_extensions {Sym Ext} (n : IrNode Sym Ext) : list Ext :=
  match n with
  | NConcat nodes | NAlternation nodes => flat_map collect_extensions nodes
  | NRepeat node _ _ | NGroup node | NCapture _ node => collect_extensions node
  | NExtension e => [e]
  | NSymbol _ | NAny | NAnchor _ | NAssertion _ => []
  end.

(** [LuaPatternDialect::compile_ir]. *)
Definition lua_compile_ir (pattern : list N) : Res (PatternError LuaExtension) (PatternIr N LuaExtension) :=
  let? frames := lua_loop (S (length pattern)) [[]] 0 pattern in
  match frames with
  | [nodes] =>
    let root := NConcat nodes in
    map_err MalformedIr (new_pattern root ∅ {| admitted_extensions := collect_extensions root |})
  | _ => Err (Malformed "unterminated capture")
  end.

(** Appending the projections of the children. *)
Definition project_all {A X E} (f : A -> Res E (list X)) : list A -> Res E (list X) :=
  fix go l :=
    match l with
    | [] => Ok []
    | a :: l => let? x := f a in let? y := go l in Ok (x ++ y)
    end.

Definition anchor_op (a : AnchorKind) : TextOp := match a with SubjectStart => OpAnchorStart | SubjectEnd => OpAnchorEnd end.

(** [project] of lua_dialect.rs: the operations that are pushed. *)
Fixpoint lua_project (n : LuaNode) : Res Empty_set (list TextOp) :=
  match n with
  | NSymbol c => Ok [OpLiteral c]
  | NAny => Ok [OpAny]
  | NConcat nodes | NAlternation nodes => project_all lua_project nodes
  | NRepeat node bounds greedy => let? ops := lua_project node in Ok (ops ++ [OpRepeat (rb_min bounds) (rb_max bounds) greedy])
  | NGroup node => lua_project node
  | NCapture _ node => let? ops := lua_project node in Ok (OpCaptureStart :: ops ++ [OpCaptureEnd])
  | NAnchor a => Ok [anchor_op a]
  | NExtension (LClass class) => Ok [OpClass class]
  | NExtension (LBalanced open close) => Ok [OpBalanced open close]
  | NExtension (LFrontier class) => Ok [OpFrontier class]
  | NAssertion _ => Panic
  end.

(** An abort stays an abort under another error type. *)
Definition absurd_err {E A} (r : Res Empty_set A) : Res E A := map_err (fun e : Empty_set => match e with end) r.

Definition compile_lua_pattern (pattern : list N) : Res (PatternError LuaExtension) (list TextOp) :=
  let? ir := lua_compile_ir pattern in
  absurd_err (lua_project (ir_root ir)).

(** ** Globs *)

Abbreviation GlobNode := (IrNode N GlobExtension).

Definition glob_turn (c : N) (chars : list N) : Res (PatternError GlobExtension) (GlobNode * list N) :=
  if (c =? ch "*")%N then
    match new_bounds (Ext := GlobExtension) 0 None with
    | Ok bounds => Ok (NRepeat NAny bounds true, chars)
    | _ => Panic
    end
  else if (c =? ch "?")%N then Ok (NAny, chars)
  else if (c =? ch "[")%N then
    let negated := match chars with c :: _ => (c =? ch "!")%N || (c =? ch "^")%N | [] => false end in
    let chars := if negated then tail chars else chars in
    let? (set, chars) := parse_set_body chars negated "unterminated glob character set" in
    Ok (NExtension (GClass set), chars)
  else if (c =? ch "\")%N then
    match chars with
    | literal :: chars => Ok (NSymbol literal, chars)
    | [] => Err (Malformed "dangling escape")
    end
  else Ok (NSymbol c, chars).

Fixpoint glob_loop (fuel : nat) (nodes : list GlobNode) (chars : list N) : Res (PatternError GlobExtension) (list GlobNode) :=
  match fuel with
  | 0 => NoFuel
  | S fuel =>
    match chars with
    | [] => Ok nodes
    | c :: chars => let? (node, chars) := glob_turn c chars in glob_loop fuel (nodes ++ [node]) chars
    end
  end.

Definition glob_compile_ir (pattern : list N) : Res (PatternError GlobExtension) (PatternIr N GlobExtension) :=
  let? nodes := glob_loop (S (length pattern)) [NAnchor SubjectStart] pattern in
  let root := NConcat (nodes ++ [NAnchor SubjectEnd]) in
  map_err MalformedIr (new_pattern root ∅ {| admitted_extensions := collect_extensions root |}).

(** [project] of glob_dialect.rs. *)
Fixpoint glob_project (n : GlobNode) : Res Empty_set (list TextOp) :=
  match n with
  | NSymbol c => Ok [OpLiteral c]
  | NAny => Ok [OpAny]
  | NConcat nodes | NAlternation nodes => project_all glob_project nodes
  | NRepeat node bounds greedy => let? ops := glob_project node in Ok (ops ++ [OpRepeat (rb_min bounds) (rb_max bounds) greedy])
  | NGroup node | NCapture _ node => glob_project node
  | NAnchor a => Ok [anchor_op a]
  | NExtension (GClass class) => Ok [OpClass class]
  | NAssertion _ => Panic
  end.

Definition compile_glob_pattern (pattern : list N) : Res (PatternError GlobExtension) (list TextOp) :=
  let? ir := glob_compile_ir pattern in
  absurd_err (glob_project (ir_root ir)).
