(* ===== verification/PatternRoundTrip.v ===== *)
(** * Dialects, text programs and expressions

    Projecting a parsed pattern to a text program and lowering the program again
    gives back the parsed expression ([lua_round_trip], [glob_round_trip]), so
    that running the program searches for the expression.  The parsers end on
    every input and never abort. *)

From Stdlib Require Import String.
From S2P Require Import Prelude BTree PatternIr PatternText PatternDialects.

#[local] Open Scope string_scope.
#[local] Open Scope list_scope.

(** An expression over other extensions. *)
Fixpoint map_node {Sym Ext Ext'} (f : Ext -> Ext') (n : IrNode Sym Ext) : IrNode Sym Ext' :=
  match n with
  | NSymbol s => NSymbol s
  | NAny => NAny
  | NConcat nodes => NConcat (map (map_node f) nodes)
  | NAlternation nodes => NAlternation (map (map_node f) nodes)
  | NRepeat node bounds greedy => NRepeat (map_node f node) bounds greedy
  | NGroup node => NGroup (map_node f node)
  | NCapture id node => NCapture id (map_node f node)
  | NAnchor a => NAnchor a
  | NAssertion id => NAssertion id
  | NExtension e => NExtension (f e)
  end.

Definition map_item {Ext Ext'} (f : Ext -> Ext') (it : Item Ext) : Item Ext' :=
  match it with ICapture id => ICapture id | IRef id => IRef id | IExt e => IExt (f e) end.

Lemma items_map_node {Sym Ext Ext'} (f : Ext -> Ext') (n : IrNode Sym Ext) : items (map_node f n) = map (map_item f) (items n).
Proof.
  assert (forall l : list (IrNode Sym Ext), Forall (fun n => items (map_node f n) = map (map_item f) (items n)) l ->
    flat_map items (map (map_node f) l) = map (map_item f) (flat_map items l)) as Hall.
  { induction 1 as [|m l Hm _ IH]; simpl; [done|]. by rewrite map_app, Hm, IH. }
  induction n using ir_ind; simpl; auto. by f_equal.
Qed.

Lemma captures_map_item {Ext Ext'} (f : Ext -> Ext') l : captures_in (map (map_item f) l) = captures_in l.
Proof. induction l as [|[x|x|x] l IH]; [done|..]; [exact (f_equal (cons x) IH)|exact IH..]. Qed.

(** The operation that is lowered to an extension. *)
Definition extension_op (e : TextExtension) : TextOp :=
  match e with
  | XClass class => OpClass class
  | XBalanced open close => OpBalanced open close
  | XFrontier class => OpFrontier class
  end.

(** Extensions whose matches are not empty. *)
Definition text_consumes (e : TextExtension) : bool := match e with XFrontier _ => false | XClass _ | XBalanced _ _ => true end.

(** What a dialect's projection does on the expressions its parser makes;
    [caps] says whether it keeps captures. *)
Class Projection {Ext : Type} (caps : bool) (to_text : Ext -> TextExtension) (project : IrNode N Ext -> Res Empty_set (list TextOp)) : Prop := {
  pj_symbol c : project (NSymbol c) = Ok [OpLiteral c];
  pj_any : project NAny = Ok [OpAny];
  pj_anchor a : project (NAnchor a) = Ok [anchor_op a];
  pj_extension e : project (NExtension e) = Ok [extension_op (to_text e)];
  pj_concat l : project (NConcat l) = project_all project l;
  pj_repeat n b g : project (NRepeat n b g) = let? ops := project n in Ok (ops ++ [OpRepeat (rb_min b) (rb_max b) g]);
  pj_capture id n : caps = true -> project (NCapture id n) = let? ops := project n in Ok (OpCaptureStart :: ops ++ [OpCaptureEnd]);
}.

Definition lua_to_text (e : LuaExtension) : TextExtension :=
  match e with LClass c => XClass c | LBalanced o c => XBalanced o c | LFrontier c => XFrontier c end.

Definition glob_to_text (e : GlobExtension) : TextExtension := match e with GClass c => XClass c end.

#[export] Instance lua_projection : Projection true lua_to_text lua_project.
Proof. split; intros; try done. by destruct e. Qed.

#[export] Instance glob_projection : Projection false glob_to_text glob_project.
Proof. split; intros; try done. by destruct e. Qed.

(** Numbers threaded through a list. *)
Definition chain {A} (f : A -> N -> N -> Prop) : list A -> N -> N -> Prop :=
  fix go l a b := match l with [] => b = a | x :: l => exists m, f x a m /\ go l m b end.

Lemma chain_app {A} (f : A -> N -> N -> Prop) l1 l2 a b : chain f (l1 ++ l2) a b <-> exists m, chain f l1 a m /\ chain f l2 m b.
Proof.
  revert a. induction l1 as [|x l1 IH]; intros a; simpl; [naive_solver|]. setoid_rewrite IH. naive_solver.
Qed.

Section RoundTrip.
Context {Ext : Type} (caps : bool) (to_text : Ext -> TextExtension) (project : IrNode N Ext -> Res Empty_set (list TextOp)).
Context `{!Projection caps to_text project}.
Implicit Types (n : IrNode N Ext) (l : list (IrNode N Ext)).

(** Nodes that may be repeated: their matches are not empty. *)
Definition is_atom n : Prop := match n with NSymbol _ | NAny => True | NExtension e => text_consumes (to_text e) = true | _ => False end.

(** Nodes that are projected to one operation. *)
Definition is_leaf n : Prop := match n with NSymbol _ | NAny | NAnchor _ | NExtension _ => True | _ => False end.

Lemma atom_leaf n : is_atom n -> is_leaf n.
Proof. by destruct n. Qed.

(** The expressions of the parsers: captures are numbered when they close. *)
Fixpoint numbered n (a b : N) : Prop :=
  match n with
  | NSymbol _ | NAny | NAnchor _ | NExtension _ => b = a
  | NRepeat node bounds _ => is_atom node /\ new_bounds (Ext := TextExtension) (rb_min bounds) (rb_max bounds) = Ok bounds /\ b = a
  | NCapture id (NConcat l) => caps = true /\ chain numbered l a id /\ b = next_u32 id
  | _ => False
  end.

(** Projecting and lowering one expression appends it to the open frame. *)
Definition lowers n : Prop := forall a b, numbered n a b ->
  exists ops, project n = Ok ops /\
    (forall e, IExt e ∈ items n -> to_text e ∈ omap op_extension ops) /\
    forall rest f fs, lower_loop (ops ++ rest) (f :: fs) a = lower_loop rest ((f ++ [map_node to_text n]) :: fs) b.

Lemma op_extension_op e : op_extension (extension_op e) = Some e.
Proof. by destruct e. Qed.

Lemma lowers_all l : Forall lowers l -> forall a b, chain numbered l a b ->
  exists ops, project_all project l = Ok ops /\
    (forall e, IExt e ∈ flat_map items l -> to_text e ∈ omap op_extension ops) /\
    forall rest f fs, lower_loop (ops ++ rest) (f :: fs) a = lower_loop rest ((f ++ map (map_node to_text) l) :: fs) b.
Proof.
  induction 1 as [|n l Hn _ IH]; intros a b Hc; simpl in Hc.
  - subst. exists []. split; [done|]. split; [by intros ? ?%elem_of_nil|]. intros. simpl. by rewrite app_nil_r.
  - destruct Hc as (m & Hnum & Hc). destruct (Hn _ _ Hnum) as (o1 & H1 & He1 & Hl1). destruct (IH _ _ Hc) as (o2 & H2 & He2 & Hl2).
    exists (o1 ++ o2). simpl. rewrite H1, H2. split; [done|]. split.
    + intros e. rewrite omap_app. rewrite !elem_of_app. intros [He|He]; [left; auto|right; auto].
    + intros rest f fs. by rewrite <- app_assoc, Hl1, Hl2, <- app_assoc.
Qed.

(** The single operation of an atom. *)
Lemma lowers_leaf n : is_leaf n -> exists op, project n = Ok [op] /\
  (forall e, IExt e ∈ items n -> to_text e ∈ omap op_extension [op]) /\
  forall a rest f fs, lower_loop (op :: rest) (f :: fs) a = lower_loop rest ((f ++ [map_node to_text n]) :: fs) a.
Proof using All.
  intros Hn. destruct n as [s| |l|l|n b g|n|id n|k|id|e]; try done.
  - exists (OpLiteral s). split; [apply pj_symbol|]. split; [by intros ? ?%elem_of_nil|done].
  - exists OpAny. split; [apply pj_any|]. split; [by intros ? ?%elem_of_nil|done].
  - exists (anchor_op k). split; [apply pj_anchor|]. split; [by intros ? ?%elem_of_nil|]. by destruct k.
  - exists (extension_op (to_text e)). split; [apply pj_extension|]. split.
    + intros e' [= ->]%list_elem_of_singleton. simpl. rewrite op_extension_op. by left.
    + intros. simpl. by destruct (to_text e).
Qed.

Lemma lowers_capture id l : Forall lowers l -> lowers (NCapture id (NConcat l)).
Proof using All.
  intros Hl a b (Hcaps & Hc & ->). destruct (lowers_all l Hl a id Hc) as (ops & Ho & He & Hlow).
  exists (OpCaptureStart :: ops ++ [OpCaptureEnd]). rewrite (pj_capture _ _ Hcaps), pj_concat, Ho. split; [done|]. split.
  - intros e [?|Hi]%elem_of_cons; [done|]. simpl. rewrite omap_app. apply elem_of_app. left. auto.
  - intros rest f fs. cbn [lower_loop app]. by rewrite <- app_assoc, Hlow.
Qed.

Lemma numbered_lowers n : lowers n /\ match n with NConcat l => Forall lowers l | _ => True end.
Proof using All.
  assert (forall n, is_leaf n -> (forall a b, numbered n a b -> b = a) -> lowers n) as Hleaf.
  { intros m Hm Hab a b ->%Hab. destruct (lowers_leaf m Hm) as (op & H1 & H2 & H3). exists [op]. split; [done|]. split; [done|].
    intros. apply H3. }
  induction n as [s| |l Hl|l Hl|n b g IH|n IH|id n IH|k|id|e] using ir_ind; (split; [|try done]);
    try (by apply Hleaf); try (by intros a b Hf; destruct Hf).
  - eapply Forall_impl; [exact Hl|]. by intros m [? _].
  - intros a c (Ha & Hb & ->). destruct (lowers_leaf n (atom_leaf n Ha)) as (op & H1 & H2 & H3).
    exists [op; OpRepeat (rb_min b) (rb_max b) g]. rewrite pj_repeat, H1. split; [done|]. split.
    + intros e He. apply H2 in He. simpl in He |- *. by destruct (op_extension op).
    + intros rest f fs. change ([op; OpRepeat (rb_min b) (rb_max b) g] ++ rest) with (op :: OpRepeat (rb_min b) (rb_max b) g :: rest).
      rewrite H3. cbn [lower_loop]. by rewrite last_snoc, Hb, removelast_last.
  - intros a b Hn. destruct n as [| |l| | | | | | |]; try done. by apply (lowers_capture id l (proj2 IH)).
Qed.

Lemma all_items_root {Sym X} (root : IrNode Sym X) : all_items ∅ root = items root.
Proof. unfold all_items. replace (map_values _) with (@nil (IrNode Sym X)) by done. apply app_nil_r. Qed.

Context `{EqDecision Ext}.

(** The translated expression is valid for the extensions of its program. *)
Lemma translated_valid n policy ops : ValidIr ∅ policy n -> (forall e, IExt e ∈ items n -> to_text e ∈ omap op_extension ops) ->
  ValidIr ∅ {| admitted_extensions := omap op_extension ops |} (map_node to_text n).
Proof.
  intros [Hnd Hr He _] Hops. rewrite all_items_root in *. split; rewrite ?all_items_root, ?items_map_node.
  - by rewrite captures_map_item.
  - intros id (it & Hit & Hin)%list_elem_of_fmap. destruct it as [x|x|x]; try done. apply Hr in Hin as [? Hx]. by rewrite lookup_empty in Hx.
  - intros e (it & Hit & Hin)%list_elem_of_fmap. destruct it as [x|x|x]; try done. injection Hit as ->. by apply Hops.
  - intros id Hid. inversion Hid as [? ? Hu|? ? ? Hu]; subst; by apply elem_of_nil in Hu.
Qed.

(** Lowering the program of a parsed expression gives the expression back. *)
Lemma lower_projected l b policy ir : chain numbered l 0%N b -> new_pattern (NConcat l) ∅ policy = Ok ir ->
  exists ops, project (ir_root ir) = Ok ops /\
    lower_text_program ops = Some {| ir_root := map_node to_text (ir_root ir); ir_assertions := ∅ |}.
Proof using All.
  intros Hc Hnew. pose proof (new_pattern_facts ∅ policy (NConcat l)) as Hf. rewrite Hnew in Hf. destruct Hf as [-> Hv].
  destruct (lowers_all l (proj2 (numbered_lowers (NConcat l))) 0%N b Hc) as (ops & Ho & He & Hlow).
  exists ops. cbn [ir_root]. rewrite pj_concat, Ho. split; [done|]. unfold lower_text_program.
  specialize (Hlow [] [] []). rewrite app_nil_r in Hlow. rewrite Hlow. cbn [lower_loop app].
  pose proof (new_pattern_facts ∅ {| admitted_extensions := omap op_extension ops |} (map_node to_text (NConcat l))) as Hn.
  cbn [map_node] in Hn. match goal with |- context [new_pattern ?r ?m ?p] => change (new_pattern r m p) with
    (new_pattern (NConcat (map (map_node to_text) l)) ∅ {| admitted_extensions := omap op_extension ops |}) end.
  destruct (new_pattern (NConcat (map (map_node to_text) l)) ∅ _) as [ir'|e| |]; [by destruct Hn as [-> _]| |done|done].
  destruct Hn as [_ []]. exact (translated_valid (NConcat l) policy ops Hv He).
Qed.
End RoundTrip.

(** ** The parsers *)

(** A parser step that ends and reads at least [k] of the characters. *)
Definition reads {E A} (k : nat) (chars : list N) (r : Res E (A * list N)) : Prop :=
  match r with Ok (_, rest) => length rest + k <= length chars | Err _ => True | _ => False end.

Lemma set_loop_reads {Ext} fuel : forall negated unterminated first acc chars, length chars < fuel ->
  reads 1 chars (parse_set_loop (Ext := Ext) fuel negated unterminated first acc chars).
Proof.
  induction fuel as [|fuel IH]; intros negated unterminated first [[ls rs] cs] chars Hf; [lia|]. cbn [parse_set_loop].
  destruct chars as [|c rest]; [done|]. cbn [length] in Hf. destruct (_ && negb first); [simpl; lia|].
  assert (forall acc rest', length rest' <= length rest -> reads 1 (c :: rest) (parse_set_loop (Ext := Ext) fuel negated unterminated false acc rest')) as Hrec.
  { intros acc rest' Hl. specialize (IH negated unterminated false acc rest' ltac:(lia)). unfold reads in *.
    destruct (parse_set_loop _ _ _ _ _ _) as [[? r]| | |]; [simpl; lia|done..]. }
  assert (forall item rest', length rest' <= length rest ->
    reads 1 (c :: rest) match item with
      | SLiteral start => match rest' with
        | dash :: end_ :: after => if (dash =? ch "-")%N && negb (end_ =? ch "]")%N
          then parse_set_loop (Ext := Ext) fuel negated unterminated false (ls, rs ++ [(start, end_)], cs) after
          else parse_set_loop fuel negated unterminated false (ls ++ [start], rs, cs) rest'
        | _ => parse_set_loop fuel negated unterminated false (ls ++ [start], rs, cs) rest'
        end
      | SClass class => parse_set_loop fuel negated unterminated false (ls, rs, cs ++ [class]) rest'
      end) as Hitem.
  { intros item rest' Hl. destruct item as [start|class]; [|by apply Hrec].
    destruct rest' as [|dash [|end_ after]]; [by apply Hrec..|]. destruct (_ && _); apply Hrec; simpl in *; lia. }
  destruct (c =? ch "%")%N; [|exact (Hitem (SLiteral c) rest (le_n _))]. destruct rest as [|escaped rest]; [done|].
  exact (Hitem (set_escape escaped) rest (Nat.le_succ_diag_r _)).
Qed.

Lemma set_body_reads {Ext} chars negated unterminated : reads 1 chars (parse_set_body (Ext := Ext) chars negated unterminated).
Proof. apply set_loop_reads. lia. Qed.

Lemma parse_set_reads chars : reads 1 chars (parse_set chars).
Proof.
  unfold parse_set. destruct chars as [|c rest]; [apply set_body_reads|]. destruct (c =? _)%N; [|apply set_body_reads].
  pose proof (set_body_reads (Ext := LuaExtension) rest true "unterminated character set") as Hr. unfold reads in *.
  destruct (parse_set_body _ _ _) as [[? r]| | |]; [simpl; lia|done..].
Qed.

(** The frames of the Lua parser, the last on top, with their captures numbered
    below [b]. *)
Fixpoint frames_from (frames : list (list LuaNode)) (b : N) : Prop :=
  match frames with
  | [] => False
  | [f] => chain (numbered true lua_to_text) f 0%N b
  | f :: outer => exists a, frames_from outer a /\ chain (numbered true lua_to_text) f a b
  end.

Lemma frames_push node f outer a b : frames_from (f :: outer) a -> numbered true lua_to_text node a b -> frames_from ((f ++ [node]) :: outer) b.
Proof.
  intros Hf Hn. destruct outer as [|g outer]; simpl in *.
  - apply chain_app. exists a. split; [done|]. by exists b.
  - destruct Hf as (m & Ho & Hf). exists m. split; [done|]. apply chain_app. exists a. split; [done|]. by exists b.
Qed.

Lemma frames_open frames b : frames_from frames b -> frames_from ([] :: frames) b.
Proof. intros Hf. destruct frames as [|f outer]; [done|]. by exists b. Qed.

Lemma frames_close body parent outer b : frames_from (body :: parent :: outer) b ->
  frames_from ((parent ++ [NCapture b (NConcat body)]) :: outer) (next_u32 b).
Proof. intros (a & Ho & Hb). eapply frames_push; [exact Ho|]. by split. Qed.

(** The result of a turn. *)
Definition turn_reads (chars : list N) (r : Res (PatternError LuaExtension) (list (list LuaNode) * N * list N)) : Prop :=
  match r with
  | Ok (frames, next, rest) => frames_from frames next /\ length rest <= length chars
  | Err _ => True
  | _ => False
  end.

Lemma push_atom_spec node frames next chars : frames_from frames next -> is_atom lua_to_text node ->
  turn_reads chars (let? (frames, chars) := push_atom node frames chars in Ok (frames, next, chars)).
Proof.
  intros Hf Ha. destruct frames as [|f outer]; [done|]. unfold push_atom. assert (numbered true lua_to_text node next next) as Hn by by destruct node.
  assert (forall n rest, numbered true lua_to_text n next next -> length rest <= length chars ->
    turn_reads chars (let? (frames, chars) := (let? (node, chars) := Ok (n, rest) in let? frames := push_node node (f :: outer) in Ok (frames, chars))
      in Ok (frames, next, chars))) as Hpush.
  { intros n rest Hm Hl. simpl. split; [|done]. by eapply frames_push. }
  destruct chars as [|c rest]; [by apply Hpush|]. unfold lua_quantifier.
  repeat (destruct (c =? _)%N; [apply Hpush; [by split|simpl; lia]|]). by apply Hpush.
Qed.

Lemma push_node_spec node frames next chars rest : frames_from frames next -> numbered true lua_to_text node next next -> length rest <= length chars ->
  turn_reads chars (let? frames := push_node node frames in Ok (frames, next, rest)).
Proof. intros Hf Hn Hl. destruct frames as [|f outer]; [done|]. simpl. split; [|done]. by eapply frames_push. Qed.

Lemma turn_reads_weaken chars chars' r : length chars' <= length chars -> turn_reads chars' r -> turn_reads chars r.
Proof. intros Hl. destruct r as [[[frames next] rest]|e| |]; simpl; [|done..]. intros [? ?]. split; [done|lia]. Qed.

Lemma parse_percent_spec chars :
  match parse_percent chars with
  | Ok (EAtom node, rest) => is_atom lua_to_text node /\ length rest <= length chars
  | Ok (EZeroWidth node, rest) => (forall b, numbered true lua_to_text node b b) /\ length rest <= length chars
  | Err _ => True
  | _ => False
  end.
Proof.
  destruct chars as [|c rest]; [done|]. cbn [parse_percent]. do 17 (destruct (c =? _)%N; [by split; [|simpl; lia]|]).
  destruct (c =? ch "b")%N; [destruct rest as [|o [|d rest]]; [done..|split; [done|simpl; lia]]|].
  destruct (c =? ch "f")%N; [|by split; [|simpl; lia]]. destruct rest as [|d rest]; [done|]. destruct (d =? _)%N; [|done].
  pose proof (parse_set_reads rest) as Hr. unfold reads in Hr. destruct (parse_set rest) as [[set rest']| | |]; try done.
  split; [done|]. simpl. lia.
Qed.

Lemma lua_turn_spec c frames next chars : frames_from frames next -> turn_reads chars (lua_turn c frames next chars).
Proof.
  intros Hf. unfold lua_turn. destruct (_ && _); [by apply push_node_spec|].
  destruct (c =? _)%N; [by apply push_atom_spec|]. destruct (_ && _); [by apply push_node_spec|].
  destruct (c =? _)%N; [by apply push_atom_spec|]. destruct (c =? _)%N; [by apply push_atom_spec|].
  destruct (c =? _)%N; [split; [by apply frames_open|done]|].
  destruct (c =? _)%N; [destruct frames as [|body [|parent outer]]; [done..|split; [by apply frames_close|done]]|].
  destruct (c =? _)%N.
  { pose proof (parse_set_reads chars) as Hr. unfold reads in Hr. destruct (parse_set chars) as [[set rest]| | |]; try done.
    eapply turn_reads_weaken, push_atom_spec; [simpl; lia|done|done]. }
  destruct (c =? _)%N.
  { pose proof (parse_percent_spec chars) as Hp. destruct (parse_percent chars) as [[[node|node] rest]| | |]; try done; destruct Hp as [Hn Hl].
    - eapply turn_reads_weaken, push_atom_spec; done.
    - by apply push_node_spec. }
  destruct (existsb _ _); [done|by apply push_atom_spec].
Qed.

Lemma lua_loop_spec fuel : forall frames next chars, frames_from frames next -> length chars < fuel ->
  match lua_loop fuel frames next chars with
  | Ok frames' => exists next', frames_from frames' next'
  | Err _ => True
  | _ => False
  end.
Proof.
  induction fuel as [|fuel IH]; intros frames next chars Hf Hl; [lia|]. cbn [lua_loop]. destruct chars as [|c chars]; [by exists next|].
  pose proof (lua_turn_spec c frames next chars Hf) as Ht. destruct (lua_turn c frames next chars) as [[[frames' next'] rest]|e| |]; try done.
  destruct Ht as [Hf' Hr]. apply IH; [done|simpl in *; lia].
Qed.

(** The expression that a parsed Lua pattern is run as. *)
Definition lua_text_ir (ir : PatternIr N LuaExtension) : PatternIr N TextExtension :=
  {| ir_root := map_node lua_to_text (ir_root ir); ir_assertions := ∅ |}.

Lemma lua_round_trip_facts pattern :
  match compile_lua_pattern pattern with
  | Ok ops => exists ir, lua_compile_ir pattern = Ok ir /\ lower_text_program ops = Some (lua_text_ir ir)
  | Err e => lua_compile_ir pattern = Err e
  | _ => False
  end.
Proof.
  unfold compile_lua_pattern, lua_compile_ir. pose proof (lua_loop_spec (S (length pattern)) [[]] 0%N pattern eq_refl ltac:(lia)) as Hl.
  destruct (lua_loop _ _ _ _) as [frames|e| |]; cbn [rbind]; try done. destruct Hl as [next Hf]. destruct frames as [|nodes [|]]; [done| |done].
  pose proof (new_pattern_facts ∅ {| admitted_extensions := collect_extensions (NConcat nodes) |} (NConcat nodes)) as Hn.
  destruct (new_pattern (NConcat nodes) _ _) as [ir|e| |] eqn:Hnew; cbn [map_err rbind]; try done.
  destruct (lower_projected true lua_to_text lua_project nodes next _ ir Hf Hnew) as (ops & -> & Hlow). by exists ir.
Qed.

(** C16: Compiling a Lua pattern always ends and never aborts.  A pattern that is
    accepted has a text program, and lowering that program gives back exactly
    the parsed expression, with the same captures. *)
Theorem lua_round_trip pattern :
  match compile_lua_pattern pattern with
  | Ok ops => exists ir, lua_compile_ir pattern = Ok ir /\ lower_text_program ops = Some (lua_text_ir ir)
  | Err e => lua_compile_ir pattern = Err e
  | _ => False
  end.
Proof. apply lua_round_trip_facts. Qed.

Lemma glob_turn_spec c chars :
  match glob_turn c chars with
  | Ok (node, rest) => (forall b, numbered false glob_to_text node b b) /\ length rest <= length chars
  | Err _ => True
  | _ => False
  end.
Proof.
  unfold glob_turn. destruct (c =? _)%N; [by split|]. destruct (c =? _)%N; [by split|]. destruct (c =? _)%N.
  - set (negated := match chars with c :: _ => (c =? ch "!")%N || (c =? ch "^")%N | [] => false end).
    set (chars' := if negated then tail chars else chars).
    assert (length chars' <= length chars) as Hl by (subst chars'; destruct negated, chars; simpl; lia).
    pose proof (set_body_reads (Ext := GlobExtension) chars' negated "unterminated glob character set") as Hr.
    unfold reads in Hr. destruct (parse_set_body _ _ _) as [[set rest]| | |]; try done. split; [done|lia].
  - destruct (c =? _)%N; [|by split]. destruct chars as [|literal chars]; [done|]. split; [done|simpl; lia].
Qed.

Lemma glob_loop_spec fuel : forall nodes chars, chain (numbered false glob_to_text) nodes 0%N 0%N -> length chars < fuel ->
  match glob_loop fuel nodes chars with
  | Ok nodes' => chain (numbered false glob_to_text) nodes' 0%N 0%N
  | Err _ => True
  | _ => False
  end.
Proof.
  induction fuel as [|fuel IH]; intros nodes chars Hc Hl; [lia|]. cbn [glob_loop]. destruct chars as [|c chars]; [done|].
  pose proof (glob_turn_spec c chars) as Ht. destruct (glob_turn c chars) as [[node rest]|e| |]; try done. destruct Ht as [Hn Hr].
  apply IH; [|simpl in *; lia]. apply chain_app. exists 0%N. split; [done|]. by exists 0%N.
Qed.

Definition glob_text_ir (ir : PatternIr N GlobExtension) : PatternIr N TextExtension :=
  {| ir_root := map_node glob_to_text (ir_root ir); ir_assertions := ∅ |}.

Lemma glob_round_trip_facts pattern :
  match compile_glob_pattern pattern with
  | Ok ops => exists ir, glob_compile_ir pattern = Ok ir /\ lower_text_program ops = Some (glob_text_ir ir)
  | Err e => glob_compile_ir pattern = Err e
  | _ => False
  end.
Proof.
  unfold compile_glob_pattern, glob_compile_ir.
  pose proof (glob_loop_spec (S (length pattern)) [NAnchor SubjectStart] pattern ltac:(by exists 0%N) ltac:(lia)) as Hl.
  destruct (glob_loop _ _ _) as [nodes|e| |]; cbn [rbind]; try done.
  set (root := NConcat (nodes ++ [NAnchor SubjectEnd])).
  pose proof (new_pattern_facts ∅ {| admitted_extensions := collect_extensions root |} root) as Hn.
  destruct (new_pattern root _ _) as [ir|e| |] eqn:Hnew; cbn [map_err rbind]; try done.
  assert (chain (numbered false glob_to_text) (nodes ++ [NAnchor SubjectEnd]) 0%N 0%N) as Hc.
  { apply chain_app. exists 0%N. split; [done|]. by exists 0%N. }
  destruct (lower_projected false glob_to_text glob_project _ 0%N _ ir Hc Hnew) as (ops & -> & Hlow). by exists ir.
Qed.

(** Compiling a glob always ends and never aborts, and lowering the text
    program of an accepted glob gives back the parsed expression. *)
Theorem glob_round_trip pattern :
  match compile_glob_pattern pattern with
  | Ok ops => exists ir, glob_compile_ir pattern = Ok ir /\ lower_text_program ops = Some (glob_text_ir ir)
  | Err e => glob_compile_ir pattern = Err e
  | _ => False
  end.
Proof. apply glob_round_trip_facts. Qed.
