(* ===== verification/PatternTextSearch.v ===== *)
(** * Running text patterns

    A text program that lowers, and in particular one compiled from a Lua
    pattern or a glob, is searched for with the exact meaning of its expression,
    and matches are reported in byte offsets.  Samples run the whole path from
    the pattern's characters. *)

From Stdlib Require Import String Ascii.
From S2P Require Import Prelude BTree PatternIr PatternCompile PatternExecute PatternThompson PatternSearch PatternMatch PatternPriority PatternText PatternDialects PatternRoundTrip.

#[local] Open Scope string_scope.
#[local] Open Scope list_scope.

Lemma lowered_pattern ops ir : lower_text_program ops = Some ir ->
  ir_assertions ir = ∅ /\ NoDup (captures_in (all_items (ir_assertions ir) (ir_root ir))).
Proof.
  unfold lower_text_program. destruct (lower_loop ops [[]] 0%N) as [[|nodes [|]]|]; try done.
  destruct (new_pattern _ _ _) as [ir'|e| |] eqn:Hn; try done. intros [= <-]. by apply new_pattern_captures in Hn as [-> ?].
Qed.

Lemma compile_no_assertions (ir : PatternIr N TextExtension) a : compile ir = Ok a -> ir_assertions ir = ∅ -> a_assertions a = ∅.
Proof.
  intros Hc%compile_Ok He. apply map_eq. intros id. rewrite lookup_empty. destruct (a_assertions a !! id) as [p|] eqn:Hp; [|done].
  destruct (cf_program _ _ Hc id p Hp) as (d & Hd & _). by rewrite He, lookup_empty in Hd.
Qed.

(** The expression fits the 32-bit state identifiers. *)
Definition fits (ir : PatternIr N TextExtension) : Prop := (N.of_nat (S (ir_size (ir_root ir))) <= u32_max + 1)%N.

Lemma fits_compile ir : fits ir -> ir_assertions ir = ∅ -> exists a, compile ir = Ok a.
Proof.
  intros Hf He. pose proof (compile_total_facts ir) as Hc. destruct (compile ir) as [a|e| |]; [by exists a|done| |done].
  destruct Hc as (d & [->|(id & Hd & _)] & Hlt); [unfold fits in Hf; lia|]. by rewrite He, lookup_empty in Hd.
Qed.

(** ** Backtracking ends on parsed patterns *)

Lemma balanced_advances open close text : forall index depth j, balanced_loop open close text index depth = Some j -> index < j.
Proof.
  induction text as [|c text IH]; intros index depth j; [done|]. cbn [balanced_loop].
  destruct (c =? close)%N; [|intros Hj%IH; lia]. destruct (_ =? 0)%N; [intros [= <-]; lia|]. intros Hj%IH. lia.
Qed.

Lemma text_extension_advances e subject i j : text_consumes e = true -> text_extension_match e subject i = Some j -> i < j.
Proof.
  intros Hc. destruct e as [class|open close|class]; [| |done]; simpl.
  - case_match; [|done]. intros [= <-]. lia.
  - unfold match_balanced. case_decide; [|done]. apply balanced_advances.
Qed.

Lemma numbered_ends {Ext} caps (to_text : Ext -> TextExtension) n : forall a b, numbered caps to_text n a b -> ends text_consumes (map_node to_text n) = true.
Proof.
  enough ((forall a b, numbered caps to_text n a b -> ends text_consumes (map_node to_text n) = true) /\
    match n with NConcat l => forall a b, chain (numbered caps to_text) l a b -> ends text_consumes (map_node to_text n) = true | _ => True end) as [? _] by done.
  induction n as [s| |l Hl|l Hl|n b g IH|n IH|id n IH|k|id|e] using ir_ind; (split; [|try done]); try done.
  - induction Hl as [|n l [Hn _] _ IHl]; [done|]. intros a b (m & H1 & H2). simpl. rewrite (Hn _ _ H1). by eapply IHl.
  - intros a c (Ha & _). by destruct n.
  - intros a b Hn. destruct n as [| |l| | | | | | |]; try done. destruct Hn as (_ & Hc & _). by eapply (proj2 IH).
Qed.

Lemma lua_compile_ends pattern ir : lua_compile_ir pattern = Ok ir -> ends text_consumes (ir_root (lua_text_ir ir)) = true.
Proof.
  unfold lua_compile_ir. pose proof (lua_loop_spec (S (length pattern)) [[]] 0%N pattern eq_refl ltac:(lia)) as Hl.
  destruct (lua_loop _ _ _ _) as [frames|e| |]; cbn [rbind]; try done. destruct Hl as [next Hf]. destruct frames as [|nodes [|]]; [done| |done].
  destruct (new_pattern (NConcat nodes) _ _) as [ir'|e| |] eqn:Hnew; cbn [map_err rbind]; try done. intros [= <-].
  apply new_pattern_captures in Hnew as [-> _]. cbn [lua_text_ir ir_root]. cbn [frames_from] in Hf. clear -Hf.
  simpl. revert Hf. generalize 0%N. induction nodes as [|n nodes IH]; [done|]. intros a (m & H1 & H2). simpl. rewrite (numbered_ends _ _ _ _ _ H1). by eapply IH.
Qed.

(** A backtracking matcher for the expression of a text pattern. *)
Definition text_matcher (ir : PatternIr N TextExtension) (subject : list N) (s : nat) : option (list Point) :=
  results text_extension_match subject (S (length subject)) (ir_root ir) (s, ∅).

(** What running a text program says. *)
Lemma run_lowered ops ir subject init cursor limits : lower_text_program ops = Some ir -> fits ir ->
  cursor_for_byte (new_cursor_text subject) init = Some cursor ->
  exists o, run_text_pattern ops subject init limits = Ok (text_outcome (new_cursor_text subject) o) /\
    search_answer_ok text_extension_match ir subject cursor limits o /\
    (ends text_consumes (ir_root ir) = true -> first_from (text_matcher ir subject) (length subject) cursor o).
Proof.
  intros Hl Hf Hcur. destruct (lowered_pattern _ _ Hl) as [He Hnd]. destruct (fits_compile ir Hf He) as [a Ha].
  destruct (compiled_search text_extension_match ir a subject cursor limits (compile_Ok _ _ Ha) Hnd) as (o & Ho & Hok);
    [left; by eapply compile_no_assertions|].
  exists o. split; [|split; [done|]].
  - unfold run_text_pattern. rewrite Hl, Ha. cbn [rbind]. rewrite Hcur. cbn [new_cursor_text ct_chars]. by rewrite Ho.
  - intros Hends. apply (spanning_first text_extension_match (S (length subject)) ir a subject cursor limits o (compile_Ok _ _ Ha) Hnd); [|exact Ho]. intros s Hs.
    apply (results_end _ _ text_consumes); [intros; by eapply text_extension_advances|done|simpl; lia].
Qed.

(** Running a compiled Lua pattern from a character boundary always ends; a
    match is the first match of a backtracking matcher for the parsed pattern,
    with greedy and lazy repeats as the pattern says, at the first character
    from there on where it has one, with its captures, in byte offsets; no match
    means that the pattern matches nowhere from there on; and a limit is
    reported only when it was reached. *)
Theorem lua_run_spec pattern ops ir subject init cursor limits :
  compile_lua_pattern pattern = Ok ops -> lua_compile_ir pattern = Ok ir -> fits (lua_text_ir ir) ->
  cursor_for_byte (new_cursor_text subject) init = Some cursor ->
  exists o, run_text_pattern ops subject init limits = Ok (text_outcome (new_cursor_text subject) o) /\
    search_answer_ok text_extension_match (lua_text_ir ir) subject cursor limits o /\
    first_from (text_matcher (lua_text_ir ir) subject) (length subject) cursor o.
Proof.
  intros Hc Hir Hf Hcur. pose proof (lua_round_trip_facts pattern) as Hr. rewrite Hc, Hir in Hr. destruct Hr as (ir' & [= <-] & Hl).
  destruct (run_lowered ops _ subject init cursor limits Hl Hf Hcur) as (o & Ho & Hok & Hfirst). exists o. split; [done|]. split; [done|].
  by apply Hfirst, (lua_compile_ends pattern).
Qed.

(** ** Globs match whole subjects *)

(** What a single node of a glob matches: the symbols from [i] to [j]. *)
Definition glob_node_matches (subject : list N) (n : GlobNode) (i j : nat) : Prop :=
  match n with
  | NSymbol c => subject !! i = Some c /\ j = S i
  | NAny => i < length subject /\ j = S i
  | NRepeat _ _ _ => i <= j <= length subject
  | NExtension (GClass class) => class_at class subject i = true /\ j = S i
  | NAnchor SubjectStart => i = 0 /\ j = i
  | NAnchor SubjectEnd => i = length subject /\ j = i
  | _ => False
  end.

Fixpoint glob_matches (subject : list N) (nodes : list GlobNode) (i j : nat) : Prop :=
  match nodes with
  | [] => i = j
  | n :: nodes => exists k, glob_node_matches subject n i k /\ glob_matches subject nodes k j
  end.

(** The nodes of a parsed glob. *)
Definition is_glob_node (n : GlobNode) : Prop :=
  match n with
  | NSymbol _ | NAny | NExtension _ | NAnchor _ => True
  | NRepeat NAny b _ => b = {| rb_min := 0; rb_max := None |}
  | _ => False
  end.

Lemma glob_turn_node c chars node rest : glob_turn c chars = Ok (node, rest) -> is_glob_node node.
Proof.
  unfold glob_turn. intros Ht. repeat (destruct (c =? _)%N; [|]); simpl in Ht; try (by injection Ht as <- <-).
  - apply rbind_Ok in Ht as ([set chars'] & _ & [= <- <-]). done.
  - destruct chars as [|l chars]; [done|]. by injection Ht as <- <-.
Qed.

Lemma glob_loop_nodes fuel : forall nodes chars nodes', Forall is_glob_node nodes -> glob_loop fuel nodes chars = Ok nodes' ->
  Forall is_glob_node nodes' /\ exists l, nodes' = nodes ++ l.
Proof.
  induction fuel as [|fuel IH]; intros nodes chars nodes' Hn Hl; [done|]. cbn [glob_loop] in Hl. destruct chars as [|c chars].
  - injection Hl as <-. split; [done|]. exists []. by rewrite app_nil_r.
  - apply rbind_Ok in Hl as ([node rest] & Ht%glob_turn_node & Hl). apply IH in Hl as [Hf [l ->]].
    + split; [done|]. exists (node :: l). by rewrite <- app_assoc.
    + apply Forall_app. split; [done|]. by constructor.
Qed.

Definition glob_nodes (ir : PatternIr N GlobExtension) : list GlobNode :=
  match ir_root ir with NConcat nodes => nodes | _ => [] end.

Lemma glob_ir_nodes pattern ir : glob_compile_ir pattern = Ok ir -> ir_root ir = NConcat (glob_nodes ir) /\
  Forall is_glob_node (glob_nodes ir) /\ exists body, glob_nodes ir = NAnchor SubjectStart :: body ++ [NAnchor SubjectEnd].
Proof.
  unfold glob_compile_ir. intros (nodes & Hl & Hn%map_err_Ok)%rbind_Ok. apply new_pattern_captures in Hn as [-> _].
  apply glob_loop_nodes in Hl as [Hf [l ->]]; [|by repeat constructor]. unfold glob_nodes. cbn [ir_root]. split; [done|]. split.
  - apply Forall_app. split; [done|]. by repeat constructor.
  - by exists l.
Qed.

Section GlobMeaning.
Context (asserted : AssertionId -> list N -> nat -> Prop) (subject : list N).
Abbreviation glob_parse n := (parse text_extension_match asserted subject (map_node glob_to_text n)).

Lemma any_steps c k : forall x y, nsteps (glob_parse NAny) k x y -> x.2 = c -> x.1 <= length subject ->
  y = (x.1 + k, c) /\ x.1 + k <= length subject.
Proof.
  induction k as [|k IH]; intros x y Hk Hc Hl; inversion Hk as [|? ? z ? Hz Hr]; subst.
  - destruct y. simpl in *. by rewrite Nat.add_0_r.
  - destruct Hz as [Hlt ->]. destruct (IH _ _ Hr) as [-> ?]; simpl in *; [done|lia|]. split; [f_equal; lia|lia].
Qed.

Lemma steps_any c k : forall i, i + k <= length subject -> nsteps (glob_parse NAny) k (i, c) (i + k, c).
Proof.
  induction k as [|k IH]; intros i Hl; [rewrite Nat.add_0_r; constructor|]. econstructor; [split; [simpl; lia|done]|].
  simpl. replace (i + S k) with (S i + k) by lia. apply IH. lia.
Qed.

Lemma glob_node_parse n i c j c' : is_glob_node n -> i <= length subject ->
  glob_parse n (i, c) (j, c') <-> c' = c /\ glob_node_matches subject n i j.
Proof.
  intros Hn Hi. destruct n as [s| |l|l|n b g|n|id n|k|id|[class]]; try done; simpl.
  - naive_solver.
  - naive_solver.
  - destruct n; try done. simpl in Hn. subst b. split.
    + intros (k & _ & Hk). apply (any_steps c) in Hk as [[= -> ->] ?]; simpl in *; [|done|done]. split; [done|lia].
    + intros [-> Hj]. exists (j - i). split; [by split; [apply N.le_0_l|]|]. replace j with (i + (j - i)) at 2 by lia. apply steps_any. lia.
  - destruct k; simpl; rewrite ?Nat.eqb_eq; naive_solver.
  - assert (class_at class subject i = true -> i < length subject) as Hlt.
    { unfold class_at. destruct (subject !! i) eqn:Hs; [|done]. intros _. by eapply lookup_lt_Some. }
    destruct (class_at class subject i) eqn:Hc; [specialize (Hlt eq_refl)|].
    + split; [intros (k & [= <-] & _ & [= -> ->]); done|]. intros [-> [_ ->]]. exists (S i). split; [done|]. split; [lia|done].
    + split; [naive_solver|]. intros [_ [? _]]. done.
Qed.

Lemma glob_node_bounds n i j : is_glob_node n -> i <= length subject -> glob_node_matches subject n i j -> j <= length subject.
Proof.
  intros Hn Hi. destruct n as [s| |l|l|n b g|n|id n|[]|id|[class]]; try done; simpl.
  - intros [Hs ->]. by apply lookup_lt_Some in Hs.
  - lia.
  - lia.
  - lia.
  - lia.
  - unfold class_at. destruct (subject !! i) eqn:Hs; [|naive_solver]. intros [_ ->]. by eapply lookup_lt_Some.
Qed.

Lemma glob_list_parse nodes : Forall is_glob_node nodes -> forall i c j c', i <= length subject ->
  parse text_extension_match asserted subject (NConcat (map (map_node glob_to_text) nodes)) (i, c) (j, c') <->
  c' = c /\ glob_matches subject nodes i j.
Proof.
  induction 1 as [|n nodes Hn _ IH]; intros i c j c' Hi; simpl; [naive_solver|]. split.
  - intros ([k ck] & Hp & Hr). apply glob_node_parse in Hp as [-> Hm]; [|done|done].
    apply IH in Hr as [-> Hr]; [|by eapply glob_node_bounds]. split; [done|]. by exists k.
  - intros [-> (k & Hm & Hr)]. exists (k, c). split; [by apply glob_node_parse|]. apply IH; [by eapply glob_node_bounds|done].
Qed.
End GlobMeaning.

Lemma glob_matches_app subject l1 l2 i j : glob_matches subject (l1 ++ l2) i j <->
  exists k, glob_matches subject l1 i k /\ glob_matches subject l2 k j.
Proof. revert i. induction l1 as [|n l1 IH]; intros i; simpl; [naive_solver|]. setoid_rewrite IH. naive_solver. Qed.

(** Running a compiled glob over a text always ends; it reports a match
    exactly when the glob matches the whole text, then with the whole text as
    its span, and without captures, unless a limit was reached. *)
Theorem glob_run_spec pattern ops ir subject limits :
  compile_glob_pattern pattern = Ok ops -> glob_compile_ir pattern = Ok ir -> fits (glob_text_ir ir) ->
  exists o, run_text_pattern ops subject 0 limits = Ok o /\
    match o with
    | PMatch m _ => m = {| tm_start := 0; tm_end := byte_length subject; tm_captures := [] |} /\
        glob_matches subject (glob_nodes ir) 0 (length subject)
    | PNoMatch _ => forall i j, i <= length subject -> ~ glob_matches subject (glob_nodes ir) i j
    | PLimit l r => spent limits (OLimit l r)
    | PUnsupported _ _ => False
    end.
Proof.
  intros Hc Hir Hf. pose proof (glob_round_trip_facts pattern) as Hr. rewrite Hc, Hir in Hr. destruct Hr as (ir' & [= <-] & Hl).
  destruct (cursor_round_trip_facts subject) as [Hcur _]. destruct (Hcur 0 ltac:(lia)) as [Hb0 Hc0]. rewrite Hb0 in Hc0.
  destruct (run_lowered ops _ subject 0%N 0 limits Hl Hf Hc0) as (o & Ho & [Hsp Hok] & _). exists (text_outcome (new_cursor_text subject) o).
  split; [exact Ho|]. destruct (glob_ir_nodes _ _ Hir) as (Hroot & Hnodes & body & Hbody).
  assert (forall i j c, i <= length subject -> matches text_extension_match (glob_text_ir ir) subject i j c <->
    c = ∅ /\ glob_matches subject (glob_nodes ir) i j) as Hm.
  { intros i j c Hi. unfold matches, glob_text_ir. cbn [ir_root ir_assertions]. rewrite Hroot. cbn [map_node].
    by apply glob_list_parse. }
  destruct o as [m r|r|l r|[id] r]; cbn [text_outcome].
  - destruct Hok as (Hs & Hmt%Hm & _); [|lia]. destruct Hmt as [Hcap Hg].
    assert (em_start m = 0 /\ em_end m = length subject) as [Hs0 He0].
    { rewrite Hbody in Hg. destruct Hg as (k & [Hk1 _] & Hg). apply glob_matches_app in Hg as (k2 & _ & (k3 & [Hk3 ->] & <-)). by subst. }
    rewrite Hs0, He0 in *. split; [|done]. unfold to_bytes. rewrite Hs0, He0, Hcap. rewrite Hb0.
    destruct (Hcur (length subject) (le_n _)) as [-> _]. by rewrite (take_ge subject (length subject)) by done.
  - intros i j Hi Hg. apply (Hok i j ∅ ltac:(lia)). by apply Hm.
  - exact Hsp.
  - destruct Hok as [Hin _]. destruct (lowered_pattern _ _ Hl) as [_ _]. cbn [glob_text_ir ir_root] in Hin.
    rewrite items_map_node, Hroot in Hin. apply list_elem_of_fmap in Hin as ([x|x|x] & [= ->] & Hin). cbn [items] in Hin.
    apply list_elem_of_In, in_flat_map in Hin as (n & Hn%list_elem_of_In & Hi%list_elem_of_In).
    rewrite Forall_forall in Hnodes. specialize (Hnodes n Hn). destruct n as [| |?|?|[] ? ?|?|? ?|?|?|?]; try done; simpl in Hi;
      (by apply elem_of_nil in Hi) || (by apply list_elem_of_singleton in Hi).
Qed.
