(* ===== verification/PatternExtension.v ===== *)
(** * Non-regular extensions and typed domains

    crates/sim-lib-pattern/src/extension.rs: the separately metered queue for
    constructs outside the regular engine.  What an extension starts with and
    what one item of work leads to are parameters; the source's trait
    [BoundedExtension] is the class of that name here.

    domain_execute.rs: the entry points whose outcomes carry offsets of one
    domain. *)

From S2P Require Import Prelude BTree PatternIr PatternCompile PatternExecute.

Inductive ExtensionKind :=
| Backreference (id : CaptureId)
| VariableWidth (id : AssertionId).

Record ExtensionLimits := {
  max_capture_units : N;
  max_work_items : N;
}.

Record ExtensionReceipt := {
  er_capture_units : N;
  er_work_items : N;
}.

Inductive ExtensionRefusal := RUnsupported (kind : ExtensionKind) | RCaptureUnits | RWorkItems.

Record ExtensionWork (T : Type) := {
  w_payload : T;
  w_capture_units : N;
}.

Arguments w_payload {T} _.
Arguments w_capture_units {T} _.

Inductive ExtensionOutcome :=
| EMatch (r : ExtensionReceipt)
| ENoMatch (r : ExtensionReceipt)
| ERefused (reason : ExtensionRefusal) (r : ExtensionReceipt).

Inductive ExtensionStep (T : Type) :=
| StepMatch
| StepNoMatch
| StepContinue (work : list (ExtensionWork T)).

Arguments StepMatch {T}.
Arguments StepNoMatch {T}.
Arguments StepContinue {T} work.

Class BoundedExtension (T : Type) := {
  ext_start : ExtensionKind -> option (list (ExtensionWork T));
  ext_step : T -> ExtensionStep T;
}.

Definition no_work : ExtensionReceipt := {| er_capture_units := 0; er_work_items := 0 |}.

Section Extension.
Context `{BoundedExtension T}.
Implicit Types (queue : list (ExtensionWork T)) (r : ExtensionReceipt).

Fixpoint extension_loop (fuel : nat) (limits : ExtensionLimits) r queue : Res Empty_set ExtensionOutcome :=
  match fuel with
  | 0 => NoFuel
  | S fuel =>
    match queue with
    | [] => Ok (ENoMatch r)
    | work :: queue =>
      if (er_work_items r =? max_work_items limits)%N then Ok (ERefused RWorkItems r)
      else if (saturating_sub (max_capture_units limits) (er_capture_units r) <? w_capture_units work)%N then Ok (ERefused RCaptureUnits r)
      else
        let r := {| er_capture_units := er_capture_units r + w_capture_units work; er_work_items := er_work_items r + 1 |} in
        match ext_step (w_payload work) with
        | StepMatch => Ok (EMatch r)
        | StepNoMatch => extension_loop fuel limits r queue
        | StepContinue next => extension_loop fuel limits r (queue ++ next)
        end
    end
  end.

(** Every turn but the last is charged one item of work. *)
Definition extension_fuel (limits : ExtensionLimits) : nat := S (N.to_nat (max_work_items limits)).

Definition execute_extension (kind : ExtensionKind) (limits : ExtensionLimits) : Res Empty_set ExtensionOutcome :=
  match ext_start kind with
  | None => Ok (ERefused (RUnsupported kind) no_work)
  | Some initial => extension_loop (extension_fuel limits) limits no_work initial
  end.

(** ** What an execution explores *)

Inductive explored (initial : list (ExtensionWork T)) : ExtensionWork T -> Prop :=
| explored_start w : w ∈ initial -> explored initial w
| explored_next w next w' : explored initial w -> ext_step (w_payload w) = StepContinue next -> w' ∈ next -> explored initial w'.

Definition next_of (w : ExtensionWork T) : list (ExtensionWork T) :=
  match ext_step (w_payload w) with StepContinue next => next | _ => [] end.

Record QueueInv (initial done_ queue : list (ExtensionWork T)) : Prop := {
  qi_queue : forall w, w ∈ queue -> explored initial w;
  qi_done : forall w, w ∈ done_ -> ext_step (w_payload w) <> StepMatch;
  qi_next : forall w w', w ∈ done_ -> w' ∈ next_of w -> w' ∈ done_ ++ queue;
  qi_start : forall w, w ∈ initial -> w ∈ done_ ++ queue;
}.

Lemma queue_done initial done_ w : QueueInv initial done_ [] -> explored initial w -> w ∈ done_.
Proof.
  intros HI. induction 1 as [w Hw|w next w' _ IH Hs Hw].
  - apply (qi_start _ _ _ HI) in Hw. by rewrite app_nil_r in Hw.
  - assert (w' ∈ done_ ++ []) as Hd by (eapply (qi_next _ _ _ HI); [exact IH|]; unfold next_of; by rewrite Hs). by rewrite app_nil_r in Hd.
Qed.

Lemma queue_step initial done_ w queue : QueueInv initial done_ (w :: queue) -> ext_step (w_payload w) <> StepMatch ->
  QueueInv initial (w :: done_) (queue ++ next_of w).
Proof.
  intros [Hq Hd Hn Hs] Hw.
  assert (forall v, v ∈ done_ ++ w :: queue -> v ∈ (w :: done_) ++ queue ++ next_of w) as Hsub by (intros v; set_solver).
  split.
  - intros v [Hv|Hv]%elem_of_app; [apply Hq; by right|]. unfold next_of in Hv. destruct (ext_step (w_payload w)) as [| |next] eqn:Hst;
      [by apply elem_of_nil in Hv..|]. eapply explored_next; [apply Hq; by left|exact Hst|done].
  - intros v [->|Hv]%elem_of_cons; auto.
  - intros v v' [->|Hv]%elem_of_cons Hv'; [set_solver|eauto].
  - eauto.
Qed.

Definition within (limits : ExtensionLimits) r : Prop :=
  (er_work_items r <= max_work_items limits)%N /\ (er_capture_units r <= max_capture_units limits)%N.

Definition extension_ok (initial : list (ExtensionWork T)) (limits : ExtensionLimits) (o : ExtensionOutcome) : Prop :=
  match o with
  | EMatch r => within limits r /\ exists w, explored initial w /\ ext_step (w_payload w) = StepMatch
  | ENoMatch r => within limits r /\ forall w, explored initial w -> ext_step (w_payload w) <> StepMatch
  | ERefused reason r => within limits r /\
      match reason with
      | RWorkItems => er_work_items r = max_work_items limits
      | RCaptureUnits => exists w, explored initial w /\ (max_capture_units limits < er_capture_units r + w_capture_units w)%N
      | RUnsupported _ => False
      end
  end.

Lemma extension_loop_spec initial limits fuel : forall done_ r queue, QueueInv initial done_ queue -> within limits r ->
  N.to_nat (max_work_items limits) - N.to_nat (er_work_items r) < fuel ->
  exists o, extension_loop fuel limits r queue = Ok o /\ extension_ok initial limits o.
Proof.
  induction fuel as [|fuel IH]; intros done_ r queue HI [Hw Hc] Hf; [lia|]. cbn [extension_loop]. destruct queue as [|work queue].
  { eexists. split; [done|]. split; [done|]. intros w Hx. eapply (qi_done _ _ _ HI), queue_done; [exact HI|done]. }
  destruct (N.eqb_spec (er_work_items r) (max_work_items limits)) as [He|He]; [eexists; split; [done|]; by split|].
  pose proof (qi_queue _ _ _ HI work ltac:(by left)) as Hwx. unfold saturating_sub.
  destruct (N.ltb_spec (max_capture_units limits - er_capture_units r) (w_capture_units work)) as [Hlt|Hle].
  { eexists. split; [done|]. split; [done|]. exists work. split; [done|lia]. }
  set (r' := {| er_capture_units := er_capture_units r + w_capture_units work; er_work_items := er_work_items r + 1 |}).
  assert (within limits r') as Hw' by (split; unfold r'; cbn [er_work_items er_capture_units]; lia).
  pose proof (queue_step initial done_ work queue HI) as Hstep. unfold next_of in Hstep.
  destruct (ext_step (w_payload work)) as [| |next] eqn:Hs.
  - eexists. split; [done|]. split; [done|]. by exists work.
  - rewrite app_nil_r in Hstep. eapply IH; [by apply Hstep|done|unfold r'; cbn [er_work_items]; lia].
  - eapply IH; [by apply Hstep|done|unfold r'; cbn [er_work_items]; lia].
Qed.

(** Executing a non-regular extension always ends within its own limits: it
    is refused as unsupported exactly when the extension does not start; a match
    means that some item of work reachable from the start matches, no match that
    none does, and another refusal that the next item would pass a limit. *)
Theorem execute_extension_spec kind limits :
  exists o, execute_extension kind limits = Ok o /\
    match ext_start kind with
    | None => o = ERefused (RUnsupported kind) no_work
    | Some initial => extension_ok initial limits o
    end.
Proof.
  unfold execute_extension. destruct (ext_start kind) as [initial|]; [|by eexists].
  apply (extension_loop_spec initial limits _ []).
  - split; [by constructor|by intros ? ?%elem_of_nil|by intros ? ? ?%elem_of_nil|done].
  - split; apply N.le_0_l.
  - unfold extension_fuel. simpl. lia.
Qed.
End Extension.

(** ** Typed domains *)

(** [SymbolDomain] with [IndexedDomain]: the offsets of a domain. *)
Class IndexedDomain (Offset : Type) := { domain_offset : nat -> Offset }.

Record ByteOffset := { byte_offset : nat }.

#[export] Instance byte_domain : IndexedDomain ByteOffset := {| domain_offset i := {| byte_offset := i |} |}.

Section Domain.
Context `{IndexedDomain Offset}.

Record DomainMatch := {
  dm_start : Offset;
  dm_end : Offset;
  dm_captures : BTreeMap CaptureId (Offset * Offset);
}.

Inductive DomainExecutionOutcome :=
| DMatch (matched : DomainMatch) (receipt : ExecutionReceipt)
| DNoMatch (receipt : ExecutionReceipt)
| DLimit (limit : ExecutionLimit) (receipt : ExecutionReceipt)
| DUnsupported (feature : UnsupportedFeature) (receipt : ExecutionReceipt).

Definition typed (o : ExecutionOutcome) : DomainExecutionOutcome :=
  match o with
  | OMatch m r => DMatch {| dm_start := domain_offset (em_start m); dm_end := domain_offset (em_end m);
      dm_captures := (fun s => (domain_offset (cs_start s), domain_offset (cs_end s))) <$> em_captures m |} r
  | ONoMatch r => DNoMatch r
  | OLimit l r => DLimit l r
  | OUnsupported f r => DUnsupported f r
  end.

(** [execute_bytes], [execute_scalars] and [execute_code_units]. *)
Definition execute_domain {Sym Ext} `{EqDecision Sym} (extension_matches : Ext -> Sym -> bool) (a : Automaton Sym Ext)
    (subject : list Sym) (limits : TextLimits) : Res Empty_set DomainExecutionOutcome :=
  rmap typed (execute_regular extension_matches a subject limits).

(** [search_code_units]. *)
Definition search_domain {Sym Ext} `{EqDecision Sym} (extension_matches : Ext -> Sym -> bool) (a : Automaton Sym Ext)
    (subject : list Sym) (init : nat) (limits : TextLimits) : Res Empty_set DomainExecutionOutcome :=
  rmap typed (search_regular extension_matches a subject init limits).
End Domain.
