(* ===== verification/BindingCells.v ===== *)
(** * Binding cells

    crates/sim-lib-binding/src/cell.rs: shared mutable binding slots.  A cell is
    a name with a reference to a slot, and clones of it share the slot; a slot
    may forward to another cell.  The slots are a store, a cell names one of
    them.  A lock that a panicking thread has poisoned is not modelled.

    Aliases are made for existing cells, so forwarding ends ([CellsOk],
    [final]); reads and writes through any handle act on the cell at the end of
    its chain ([cell_get_final], [cell_set_final]). *)

From stdpp Require Import relations.
From S2P Require Import Prelude.

Section Cells.
Context {Name V : Type}.

(** A handle: [BindingCell]. *)
Record BindingCell := {
  bc_name : Name;
  bc_slot : nat;
}.

Inductive BindingCellState :=
| Uninitialized
| Initialized (v : V)
| Deleted
| Immutable (v : V)
| LiveAlias (target : BindingCell).

Inductive CellError :=
| CellUninitialized (name : Name)
| CellDeleted (name : Name)
| CellImmutable (name : Name).

Abbreviation Slots := (list BindingCellState).
Implicit Types (cells : Slots) (c d : BindingCell) (v : V).

(** [from_slot] over a new slot. *)
Definition new_cell (name : Name) (state : BindingCellState) cells : BindingCell * Slots :=
  ({| bc_name := name; bc_slot := length cells |}, cells ++ [state]).

Definition uninitialized (name : Name) cells := new_cell name Uninitialized cells.

Definition initialized (name : Name) v cells := new_cell name (Initialized v) cells.

Definition immutable (name : Name) v cells := new_cell name (Immutable v) cells.

Definition live_alias (name : Name) (target : BindingCell) cells := new_cell name (LiveAlias target) cells.

(** [get]: follows aliases. *)
Fixpoint get_loop (fuel : nat) cells c : Res CellError V :=
  match fuel with
  | 0 => NoFuel
  | S fuel =>
    let? state := expect (cells !! bc_slot c) in
    match state with
    | Initialized v | Immutable v => Ok v
    | LiveAlias target => get_loop fuel cells target
    | Uninitialized => Err (CellUninitialized (bc_name c))
    | Deleted => Err (CellDeleted (bc_name c))
    end
  end.

(** [set]: follows aliases. *)
Fixpoint set_loop (fuel : nat) cells c v : Res CellError Slots :=
  match fuel with
  | 0 => NoFuel
  | S fuel =>
    let? state := expect (cells !! bc_slot c) in
    match state with
    | LiveAlias target => set_loop fuel cells target v
    | Immutable _ => Err (CellImmutable (bc_name c))
    | Deleted => Err (CellDeleted (bc_name c))
    | Uninitialized | Initialized _ => Ok (<[bc_slot c := Initialized v]> cells)
    end
  end.

(** An alias is newer than the cell it forwards to. *)
Definition chain_fuel c : nat := S (bc_slot c).

Definition cell_get cells c : Res CellError V := get_loop (chain_fuel c) cells c.

Definition cell_set cells c v : Res CellError Slots := set_loop (chain_fuel c) cells c v.

(** [delete]: of the cell itself, also when it is an alias. *)
Definition cell_delete cells c : Res CellError Slots :=
  let? state := expect (cells !! bc_slot c) in
  match state with
  | Immutable _ => Err (CellImmutable (bc_name c))
  | _ => Ok (<[bc_slot c := Deleted]> cells)
  end.

(** ** Forwarding ends *)

Definition CellsOk cells : Prop := forall i target, cells !! i = Some (LiveAlias target) -> bc_slot target < i.

Definition valid_cell cells c : Prop := bc_slot c < length cells.

(** The cell at the end of a chain. *)
Fixpoint final_loop (fuel : nat) cells c : BindingCell :=
  match fuel with
  | 0 => c
  | S fuel => match cells !! bc_slot c with Some (LiveAlias target) => final_loop fuel cells target | _ => c end
  end.

Definition final cells c : BindingCell := final_loop (chain_fuel c) cells c.

(** What a cell that is not an alias answers. *)
Definition read_state c (state : BindingCellState) : Res CellError V :=
  match state with
  | Initialized v | Immutable v => Ok v
  | Uninitialized => Err (CellUninitialized (bc_name c))
  | Deleted | LiveAlias _ => Err (CellDeleted (bc_name c))
  end.

Definition writable (state : BindingCellState) : bool := match state with Uninitialized | Initialized _ => true | _ => false end.

Lemma final_loop_spec cells fuel : forall c, CellsOk cells -> valid_cell cells c -> bc_slot c < fuel ->
  bc_slot (final_loop fuel cells c) <= bc_slot c /\
  exists state, cells !! bc_slot (final_loop fuel cells c) = Some state /\ (forall target, state <> LiveAlias target) /\
    get_loop fuel cells c = read_state (final_loop fuel cells c) state /\
    forall v, set_loop fuel cells c v =
      if writable state then Ok (<[bc_slot (final_loop fuel cells c) := Initialized v]> cells)
      else Err match state with Immutable _ => CellImmutable (bc_name (final_loop fuel cells c)) | _ => CellDeleted (bc_name (final_loop fuel cells c)) end.
Proof.
  induction fuel as [|fuel IH]; intros c Hok Hv Hf; [lia|]. cbn [final_loop get_loop set_loop].
  destruct (lookup_lt_is_Some_2 cells (bc_slot c) Hv) as [state Hs]. rewrite Hs. cbn [expect rbind].
  destruct state as [|v| |v|target].
  1-4: split; [lia|]; eexists; split_and!; done.
  pose proof (Hok _ _ Hs) as Hlt. destruct (IH target Hok ltac:(unfold valid_cell in *; lia) ltac:(lia)) as [Hle Hst].
  split; [lia|exact Hst].
Qed.

Lemma final_spec cells c : CellsOk cells -> valid_cell cells c ->
  bc_slot (final cells c) <= bc_slot c /\
  exists state, cells !! bc_slot (final cells c) = Some state /\ (forall target, state <> LiveAlias target) /\
    cell_get cells c = read_state (final cells c) state /\
    forall v, cell_set cells c v =
      if writable state then Ok (<[bc_slot (final cells c) := Initialized v]> cells)
      else Err match state with Immutable _ => CellImmutable (bc_name (final cells c)) | _ => CellDeleted (bc_name (final cells c)) end.
Proof. intros Hok Hv. apply final_loop_spec; [done|done|unfold chain_fuel; lia]. Qed.

(** Writing a slot that is not an alias changes no chain. *)
Lemma final_loop_insert cells i state state' fuel : cells !! i = Some state -> (forall target, state <> LiveAlias target) ->
  (forall target, state' <> LiveAlias target) -> forall c, final_loop fuel (<[i := state']> cells) c = final_loop fuel cells c.
Proof.
  intros Hi Hs Hs'. induction fuel as [|fuel IH]; intros c; [done|]. cbn [final_loop].
  destruct (decide (bc_slot c = i)) as [->|Hne].
  - rewrite list_lookup_insert_eq by (by eapply lookup_lt_Some). rewrite Hi. destruct state, state'; naive_solver.
  - rewrite list_lookup_insert_ne by done. destruct (cells !! bc_slot c) as [[]|]; [done..|apply IH|done].
Qed.

Lemma CellsOk_insert cells i state : CellsOk cells -> (forall target, state <> LiveAlias target) -> CellsOk (<[i := state]> cells).
Proof.
  intros Hok Hs j target. destruct (decide (j = i)) as [->|Hne]; [|rewrite list_lookup_insert_ne by done; apply Hok].
  destruct (decide (i < length cells)) as [Hlt|Hge]; [rewrite list_lookup_insert_eq by done; naive_solver|].
  rewrite list_insert_ge by lia. apply Hok.
Qed.

Lemma CellsOk_new cells state : CellsOk cells -> (forall target, state = LiveAlias target -> valid_cell cells target) -> CellsOk (cells ++ [state]).
Proof.
  intros Hok Hs i target Hi. apply lookup_snoc_Some in Hi as [[_ Hi]|[-> ->]]; [by apply Hok|]. by apply Hs.
Qed.

Lemma valid_insert cells i state c : valid_cell (<[i := state]> cells) c <-> valid_cell cells c.
Proof. unfold valid_cell. by rewrite length_insert. Qed.

(** A write through one handle, seen from all handles. *)
Lemma cell_set_get cells c v cells' : CellsOk cells -> valid_cell cells c -> cell_set cells c v = Ok cells' ->
  CellsOk cells' /\ length cells' = length cells /\ (forall d, final cells' d = final cells d) /\
  (forall d, valid_cell cells d -> bc_slot (final cells d) = bc_slot (final cells c) -> cell_get cells' d = Ok v) /\
  (forall d, valid_cell cells d -> bc_slot (final cells d) <> bc_slot (final cells c) -> cell_get cells' d = cell_get cells d).
Proof.
  intros Hok Hv Hset. destruct (final_spec cells c Hok Hv) as (_ & state & Hs & Hna & _ & Hsw). rewrite Hsw in Hset.
  destruct (writable state); [|done]. injection Hset as <-.
  assert (CellsOk (<[bc_slot (final cells c) := Initialized v]> cells)) as Hok' by by apply CellsOk_insert.
  assert (forall d, final (<[bc_slot (final cells c) := Initialized v]> cells) d = final cells d) as Hfin
    by (intros d; by eapply final_loop_insert).
  split; [done|]. split; [by rewrite length_insert|]. split; [done|].
  split; intros d Hd Heq; destruct (final_spec _ d Hok' (proj2 (valid_insert _ _ _ _) Hd)) as (_ & sd & Hsd & _ & -> & _);
    rewrite Hfin in Hsd |- *; destruct (final_spec cells d Hok Hd) as (Hle & sd0 & Hsd0 & _ & Hget & _).
  - rewrite Heq, list_lookup_insert_eq in Hsd by (by eapply lookup_lt_Some). by injection Hsd as <-.
  - rewrite list_lookup_insert_ne in Hsd by done. rewrite Hsd in Hsd0. injection Hsd0 as <-. by rewrite Hget.
Qed.

(** ** Histories *)

(** One operation on some cell. *)
Inductive cell_step cells : Slots -> Prop :=
| step_new name state : (forall target, state = LiveAlias target -> valid_cell cells target) -> cell_step cells (new_cell name state cells).2
| step_set c v cells' : valid_cell cells c -> cell_set cells c v = Ok cells' -> cell_step cells cells'
| step_delete c cells' : valid_cell cells c -> cell_delete cells c = Ok cells' -> cell_step cells cells'.

(** What an operation keeps: forwarding ends, immutable and deleted slots never
    change again, an alias keeps its target until it is deleted, and no slot
    disappears. *)
Record CellsKept cells cells' : Prop := {
  ck_ok : CellsOk cells';
  ck_length : length cells <= length cells';
  ck_immutable : forall i v, cells !! i = Some (Immutable v) -> cells' !! i = Some (Immutable v);
  ck_deleted : forall i, cells !! i = Some Deleted -> cells' !! i = Some Deleted;
  ck_alias : forall i target, cells !! i = Some (LiveAlias target) -> cells' !! i = Some (LiveAlias target) \/ cells' !! i = Some Deleted;
}.

Lemma kept_insert cells i state : CellsOk cells -> (forall target, state <> LiveAlias target) ->
  (forall s, cells !! i = Some s -> state = Deleted /\ (forall v, s <> Immutable v) \/ writable s = true) -> CellsKept cells (<[i := state]> cells).
Proof.
  intros Hok Hs Hi. split.
  - by apply CellsOk_insert.
  - by rewrite length_insert.
  - intros j v Hj. rewrite list_lookup_insert_ne; [done|]. intros ->. destruct (Hi _ Hj) as [[_ Hn]|]; [by destruct (Hn v)|done].
  - intros j Hj. destruct (decide (j = i)) as [->|Hne]; [|by rewrite list_lookup_insert_ne].
    destruct (Hi _ Hj) as [[-> _]|]; [|done]. by rewrite list_lookup_insert_eq by (by eapply lookup_lt_Some).
  - intros j target Hj. destruct (decide (j = i)) as [->|Hne]; [|left; by rewrite list_lookup_insert_ne].
    destruct (Hi _ Hj) as [[-> _]|]; [|done]. right. by rewrite list_lookup_insert_eq by (by eapply lookup_lt_Some).
Qed.

Lemma cell_step_kept cells cells' : CellsOk cells -> cell_step cells cells' -> CellsKept cells cells'.
Proof.
  intros Hok Hst. destruct Hst as [name state Hs|c v cells' Hv Hset|c cells' Hv Hdel].
  - assert (forall i s, cells !! i = Some s -> (new_cell name state cells).2 !! i = Some s) as Hold
      by (intros i s Hi; simpl; rewrite lookup_app_l by (by eapply lookup_lt_Some); done).
    split; [by apply CellsOk_new|simpl; rewrite length_app; lia|auto..].
  - destruct (final_spec cells c Hok Hv) as (_ & state & Hs & Hna & _ & Hsw). rewrite Hsw in Hset.
    destruct (writable state) eqn:Hw; [|done]. injection Hset as <-. apply kept_insert; [done|done|].
    intros s Hs'. rewrite Hs in Hs'. injection Hs' as <-. by right.
  - unfold cell_delete in Hdel. destruct (cells !! bc_slot c) as [s|] eqn:Hs; [|done]. cbn [expect rbind] in Hdel.
    assert (cells' = <[bc_slot c := Deleted]> cells /\ forall v, s <> Immutable v) as [-> Hni] by (destruct s; naive_solver).
    apply kept_insert; [done|done|]. intros s' Hs'. rewrite Hs in Hs'. injection Hs' as <-. left. by split.
Qed.

#[export] Instance cells_kept_trans : Transitive CellsKept.
Proof.
  intros c1 c2 c3 [H1 H2 H3 H4 H5] [H1' H2' H3' H4' H5']. split; [done|lia|auto..].
  intros i target Hi. destruct (H5 _ _ Hi) as [Ha|Hd]; [by apply H5'|right; by apply H4'].
Qed.

Lemma cell_steps_kept cells cells' : CellsOk cells -> rtc cell_step cells cells' -> CellsKept cells cells'.
Proof.
  intros Hok Hr. induction Hr as [cells|c1 c2 c3 Hst _ IH]; [by split; auto|].
  pose proof (cell_step_kept _ _ Hok Hst) as Hk. etrans; [exact Hk|]. apply IH, (ck_ok _ _ Hk).
Qed.

(** Over any history of cells, a read ends with a value or a typed error; a
    write succeeds exactly when the cell at the end of the chain is neither
    immutable nor deleted, and then every handle with the same end reads the new
    value and every other handle what it read before; immutable and deleted
    cells never change again, and an alias keeps its target until it is
    deleted. *)
Theorem cell_history cells c v : rtc cell_step [] cells -> valid_cell cells c ->
  safe (cell_get cells c) /\
  match cell_set cells c v with
  | Ok cells' => (forall d, valid_cell cells d -> bc_slot (final cells d) = bc_slot (final cells c) -> cell_get cells' d = Ok v) /\
      (forall d, valid_cell cells d -> bc_slot (final cells d) <> bc_slot (final cells c) -> cell_get cells' d = cell_get cells d)
  | Err (CellImmutable _) => exists w, cells !! bc_slot (final cells c) = Some (Immutable w)
  | Err (CellDeleted _) => cells !! bc_slot (final cells c) = Some Deleted
  | _ => False
  end /\
  forall cells', rtc cell_step cells cells' -> CellsKept cells cells'.
Proof.
  intros Hr Hv. assert (CellsOk cells) as Hok by (apply (ck_ok [] cells), cell_steps_kept; [by intros i|done]).
  destruct (final_spec cells c Hok Hv) as (_ & state & Hs & Hna & Hget & Hset). split; [rewrite Hget; by destruct state|].
  split; [|intros; by apply cell_steps_kept]. destruct (cell_set cells c v) as [cells'|e| |] eqn:Hc.
  - by destruct (cell_set_get _ _ _ _ Hok Hv Hc) as (_ & _ & _ & ?).
  - rewrite Hset in Hc. destruct state; try done; injection Hc as <-; [done|by eexists|by edestruct Hna].
  - rewrite Hset in Hc. by destruct (writable state).
  - rewrite Hset in Hc. by destruct (writable state).
Qed.
End Cells.
Arguments BindingCell : clear implicits.
Arguments BindingCellState : clear implicits.
Arguments CellError : clear implicits.
