(* ===== verification/LexicalScopes.v ===== *)
(** * Lexical scopes

    crates/sim-lib-binding/src/lexical.rs: frames of slots chained to a parent,
    and the forms [let], [let*] and [letrec] over them.  Frames and slots are
    shared, so they are kept in a store and an environment is the number of its
    frame; slots are binding cells.  Initializers and bodies are arbitrary code
    that may use any environment and any cell.

    The source recognizes the error of an uninitialized cell by its text; the
    model has it as a constructor. *)

From stdpp Require Import relations.
From S2P Require Import Prelude BTree BindingCells.

Section Lexical.
Context {Name V Msg : Type} `{OrdKey Name}.

Abbreviation Cell := (BindingCell Name).
Abbreviation Cells := (list (BindingCellState Name V)).

Record LexicalFrame := {
  lf_parent : option nat;
  lf_slots : BTreeMap Name nat;
}.

(** The frames and slots that exist. *)
Record Scopes := {
  sc_frames : list LexicalFrame;
  sc_cells : Cells;
}.

(** A [LexicalEnv] is its frame. *)
Abbreviation LexicalEnv := nat.

Inductive LexError :=
| NotDefined (name : Name)
| AlreadyDefined (name : Name)
| NotInitialized (name : Name)
| LexCell (e : CellError Name)
| LexOther (message : Msg).

Implicit Types (s : Scopes) (e : LexicalEnv) (name : Name) (v : V).

Definition push_frame s (f : LexicalFrame) : LexicalEnv * Scopes :=
  (length (sc_frames s), {| sc_frames := sc_frames s ++ [f]; sc_cells := sc_cells s |}).

Definition new_env s : LexicalEnv * Scopes := push_frame s {| lf_parent := None; lf_slots := ∅ |}.

Definition child s e : LexicalEnv * Scopes := push_frame s {| lf_parent := Some e; lf_slots := ∅ |}.

Definition define_slot s e name (value : option V) : Res LexError Scopes :=
  let? f := expect (sc_frames s !! e) in
  match lf_slots f !! name with
  | Some _ => Err (AlreadyDefined name)
  | None =>
    let state := match value with None => Uninitialized | Some v => Initialized v end in
    Ok {| sc_frames := <[e := {| lf_parent := lf_parent f; lf_slots := <[name := length (sc_cells s)]> (lf_slots f) |}]> (sc_frames s);
          sc_cells := sc_cells s ++ [state] |}
  end.

Definition lex_define s e name v : Res LexError Scopes := define_slot s e name (Some v).

Definition predefine s e name : Res LexError Scopes := define_slot s e name None.

(** [lookup_slot] follows the parents; a parent is an older frame. *)
Fixpoint lookup_loop (fuel : nat) s e name : Res LexError (option nat) :=
  match fuel with
  | 0 => NoFuel
  | S fuel =>
    let? f := expect (sc_frames s !! e) in
    match lf_slots f !! name with
    | Some slot => Ok (Some slot)
    | None => match lf_parent f with Some parent => lookup_loop fuel s parent name | None => Ok None end
    end
  end.

Definition lookup_slot s e name : Res LexError (option nat) := lookup_loop (S e) s e name.

Definition capture_cell s e name : Res LexError Cell :=
  let? slot := lookup_slot s e name in
  match slot with None => Err (NotDefined name) | Some slot => Ok {| bc_name := name; bc_slot := slot |} end.

Definition lex_lookup s e name : Res LexError V :=
  let? cell := capture_cell s e name in
  map_err (fun er => match er with CellUninitialized _ => NotInitialized name | _ => LexCell er end) (cell_get (sc_cells s) cell).

Definition lex_set s e name v : Res LexError Scopes :=
  let? cell := capture_cell s e name in
  rmap (fun cells => {| sc_frames := sc_frames s; sc_cells := cells |}) (map_err LexCell (cell_set (sc_cells s) cell v)).

(** ** The forms *)

(** Initializers and bodies: a result with the store they leave. *)
Abbreviation Run := (Scopes -> LexicalEnv -> Res LexError V * Scopes).

(** Goes on with a store, or stops with the store as it was. *)
Definition next s (r : Res LexError Scopes) (k : Scopes -> Res LexError V * Scopes) : Res LexError V * Scopes :=
  match r with Ok s => k s | Err er => (Err er, s) | Panic => (Panic, s) | NoFuel => (NoFuel, s) end.

(** Goes on with the value of an initializer. *)
Definition run_init (init : Run) s e (k : V -> Scopes -> Res LexError V * Scopes) : Res LexError V * Scopes :=
  match init s e with (Ok v, s) => k v s | other => other end.

Fixpoint define_all (bindings : list (Name * V)) (body : Run) s e : Res LexError V * Scopes :=
  match bindings with
  | [] => body s e
  | (name, v) :: bindings => next s (lex_define s e name v) (fun s => define_all bindings body s e)
  end.

Definition eval_let s (outer : LexicalEnv) (bindings : list (Name * V)) (body : Run) : Res LexError V * Scopes :=
  let '(env, s) := child s outer in define_all bindings body s env.

Fixpoint define_each (bindings : list (Name * Run)) (body : Run) s e : Res LexError V * Scopes :=
  match bindings with
  | [] => body s e
  | (name, init) :: bindings =>
    run_init init s e (fun v s => next s (lex_define s e name v) (fun s => define_each bindings body s e))
  end.

Definition eval_let_star s (outer : LexicalEnv) (bindings : list (Name * Run)) (body : Run) : Res LexError V * Scopes :=
  let '(env, s) := child s outer in define_each bindings body s env.

Fixpoint predefine_all (names : list Name) s e (k : Scopes -> Res LexError V * Scopes) : Res LexError V * Scopes :=
  match names with
  | [] => k s
  | name :: names => next s (predefine s e name) (fun s => predefine_all names s e k)
  end.

Fixpoint set_each (bindings : list (Name * Run)) (body : Run) s e : Res LexError V * Scopes :=
  match bindings with
  | [] => body s e
  | (name, init) :: bindings => run_init init s e (fun v s => next s (lex_set s e name v) (fun s => set_each bindings body s e))
  end.

Definition eval_letrec s (outer : LexicalEnv) (bindings : list (Name * Run)) (body : Run) : Res LexError V * Scopes :=
  let '(env, s) := child s outer in predefine_all bindings.*1 s env (fun s => set_each bindings body s env).

(** ** Stores *)

(** A slot of a frame is never immutable and does not forward. *)
Definition plain (state : BindingCellState Name V) : bool := match state with Uninitialized | Initialized _ | Deleted => true | _ => false end.

(** Parents are older; a slot of a frame exists and belongs to one name of one
    frame. *)
Record ScopesOk s : Prop := {
  so_cells : CellsOk (sc_cells s);
  so_parents : forall e f p, sc_frames s !! e = Some f -> lf_parent f = Some p -> p < e;
  so_slots : forall e f name slot, sc_frames s !! e = Some f -> lf_slots f !! name = Some slot ->
    exists state, sc_cells s !! slot = Some state /\ plain state = true;
  so_owned : forall e f name e' f' name' slot, sc_frames s !! e = Some f -> sc_frames s !! e' = Some f' ->
    lf_slots f !! name = Some slot -> lf_slots f' !! name' = Some slot -> e = e' /\ name = name';
}.

Definition valid_env s e : Prop := e < length (sc_frames s).

Inductive lex_step s : Scopes -> Prop :=
| step_env parent : (forall p, parent = Some p -> valid_env s p) -> lex_step s (push_frame s {| lf_parent := parent; lf_slots := ∅ |}).2
| step_slot e name value s' : define_slot s e name value = Ok s' -> lex_step s s'
| step_cell cells : cell_step (sc_cells s) cells -> lex_step s {| sc_frames := sc_frames s; sc_cells := cells |}.

(** What a step keeps: frames keep their parents and the slots they have. *)
Record ScopesKept s s' : Prop := {
  sk_ok : ScopesOk s';
  sk_frames : forall e f, sc_frames s !! e = Some f -> exists f', sc_frames s' !! e = Some f' /\ lf_parent f' = lf_parent f /\ lf_slots f ⊆ lf_slots f';
  sk_cells : CellsKept (sc_cells s) (sc_cells s');
}.

Lemma plain_insert (cells : Cells) i state j st : plain state = true -> cells !! j = Some st ->
  plain st = true -> exists st', <[i := state]> cells !! j = Some st' /\ plain st' = true.
Proof.
  intros Hs Hj Hst. destruct (decide (i = j)) as [->|Hne]; [|exists st; by rewrite list_lookup_insert_ne].
  exists state. by rewrite list_lookup_insert_eq by (by eapply lookup_lt_Some).
Qed.

(** A plain cell stays plain. *)
Lemma cell_step_plain (cells cells' : Cells) i st : CellsOk cells -> cell_step cells cells' -> cells !! i = Some st ->
  plain st = true -> exists st', cells' !! i = Some st' /\ plain st' = true.
Proof.
  intros Hok Hst Hi Hp. destruct Hst as [name state Hs|c v cells' Hv Hset|c cells' Hv Hdel].
  - exists st. simpl. by rewrite lookup_app_l by (by eapply lookup_lt_Some).
  - destruct (final_spec cells c Hok Hv) as (_ & state & _ & _ & _ & Hsw). rewrite Hsw in Hset.
    destruct (writable state); [|done]. injection Hset as <-. by eapply plain_insert.
  - unfold cell_delete in Hdel. destruct (cells !! bc_slot c) as [x|] eqn:Hx; [|done]. cbn [expect rbind] in Hdel.
    assert (cells' = <[bc_slot c := Deleted]> cells) as -> by (destruct x; naive_solver). by eapply plain_insert.
Qed.

Lemma push_frame_kept s parent : ScopesOk s -> (forall p, parent = Some p -> valid_env s p) ->
  ScopesKept s (push_frame s {| lf_parent := parent; lf_slots := ∅ |}).2.
Proof.
  intros [H1 H2 H3 H4] Hp. simpl. split; simpl; [split; simpl| |].
  - done.
  - intros e f p Hf Hpa. apply lookup_snoc_Some in Hf as [[_ Hf]|[-> <-]]; [by eapply H2|by apply Hp].
  - intros e f name slot Hf Hs. apply lookup_snoc_Some in Hf as [[_ Hf]|[_ <-]]; [by eapply H3|]. by destruct (lookup_empty_Some _ _ Hs).
  - intros e f name e' f' name' slot Hf Hf' Hs Hs'. apply lookup_snoc_Some in Hf as [[_ Hf]|[_ <-]], Hf' as [[_ Hf']|[_ <-]].
    + by eapply H4.
    + by destruct (lookup_empty_Some _ _ Hs').
    + by destruct (lookup_empty_Some _ _ Hs).
    + by destruct (lookup_empty_Some _ _ Hs).
  - intros e f Hf. exists f. by rewrite lookup_app_l by (by eapply lookup_lt_Some).
  - split; auto.
Qed.

Lemma define_slot_kept s e name value s' : ScopesOk s -> define_slot s e name value = Ok s' -> ScopesKept s s'.
Proof.
  intros [H1 H2 H3 H4] Hd. unfold define_slot in Hd. destruct (sc_frames s !! e) as [f|] eqn:Hf; [|done]. cbn [expect rbind] in Hd.
  destruct (lf_slots f !! name) eqn:Hn; [done|]. injection Hd as <-.
  set (f1 := {| lf_parent := lf_parent f; lf_slots := <[name := length (sc_cells s)]> (lf_slots f) |}).
  assert (forall e' g, <[e := f1]> (sc_frames s) !! e' = Some g -> (e' = e /\ g = f1) \/ (e' <> e /\ sc_frames s !! e' = Some g)) as Hget.
  { intros e' g Hg. destruct (decide (e' = e)) as [->|Hne].
    - rewrite list_lookup_insert_eq in Hg by (by eapply lookup_lt_Some). injection Hg as <-. by left.
    - rewrite list_lookup_insert_ne in Hg by done. by right. }
  (** A slot of the new frame is the new one or an old one. *)
  assert (forall e' g name' slot, <[e := f1]> (sc_frames s) !! e' = Some g -> lf_slots g !! name' = Some slot ->
    (e' = e /\ name' = name /\ slot = length (sc_cells s)) \/
    (slot < length (sc_cells s) /\ exists g0, sc_frames s !! e' = Some g0 /\ lf_slots g0 !! name' = Some slot)) as Hslot.
  { intros e' g name' slot [[-> ->]|[Hne Hg]]%Hget Hs.
    - simpl in Hs. apply lookup_insert_Some in Hs as [[<- <-]|[_ Hs]]; [by left|]. right. destruct (H3 _ _ _ _ Hf Hs) as (st & Hst & _).
      split; [by eapply lookup_lt_Some|by eauto].
    - right. destruct (H3 _ _ _ _ Hg Hs) as (st & Hst & _). split; [by eapply lookup_lt_Some|by eauto]. }
  split; [split|..]; cbn [sc_frames sc_cells].
  - apply CellsOk_new; [done|]. by destruct value.
  - intros e' g p [[-> ->]|[_ Hg]]%Hget; [by apply (H2 e f p Hf)|by apply (H2 e' g p Hg)].
  - intros e' g name' slot Hg Hs. destruct (Hslot _ _ _ _ Hg Hs) as [(_ & _ & ->)|(Hlt & g0 & Hg0 & Hs0)].
    + eexists. split; [apply list_lookup_middle; done|]. by destruct value.
    + destruct (H3 _ _ _ _ Hg0 Hs0) as (st & Hst & Hp). exists st. by rewrite lookup_app_l.
  - intros e1 g1 n1 e2 g2 n2 slot Hg1 Hg2 Hs1 Hs2.
    destruct (Hslot _ _ _ _ Hg1 Hs1) as [(-> & -> & ->)|(Hlt1 & h1 & Hh1 & Hi1)], (Hslot _ _ _ _ Hg2 Hs2) as [(-> & -> & ?)|(Hlt2 & h2 & Hh2 & Hi2)];
      [done|lia|lia|by eapply H4].
  - intros e' g Hg. destruct (decide (e' = e)) as [->|Hne]; [|exists g; by rewrite list_lookup_insert_ne].
    rewrite Hf in Hg. injection Hg as <-. exists f1. rewrite list_lookup_insert_eq by (by eapply lookup_lt_Some). split_and!; [done..|].
    simpl. by apply insert_subseteq.
  - apply (cell_step_kept _ _ H1). apply (step_new _ name match value with None => Uninitialized | Some v => Initialized v end). by destruct value.
Qed.

Lemma lex_step_kept s s' : ScopesOk s -> lex_step s s' -> ScopesKept s s'.
Proof.
  intros Hok Hst. destruct Hst as [parent Hp|e name value s' Hd|cells Hc]; [by apply push_frame_kept|by eapply define_slot_kept|].
  pose proof (cell_step_kept _ _ (so_cells _ Hok) Hc) as Hk. split; [split|..]; simpl; [apply Hk|apply Hok| |apply Hok|by eauto|done].
  intros e f name slot Hf Hs. destruct (so_slots _ Hok _ _ _ _ Hf Hs) as (st & Hst & Hp). by eapply cell_step_plain; [apply Hok|..].
Qed.

Lemma scopes_kept_trans s1 s2 s3 : ScopesKept s1 s2 -> ScopesKept s2 s3 -> ScopesKept s1 s3.
Proof.
  intros [_ H2 H3] [H1' H2' H3']. split; [done| |by etrans]. intros e f Hf. destruct (H2 e f Hf) as (f2 & Hf2 & Hp & Hs).
  destruct (H2' e f2 Hf2) as (f3 & Hf3 & Hp' & Hs'). exists f3. split_and!; [done|congruence|by etrans].
Qed.

Lemma lex_steps_kept s s' : ScopesOk s -> rtc lex_step s s' -> ScopesKept s s'.
Proof.
  intros Hok Hr. induction Hr as [s|s1 s2 s3 Hst _ IH].
  - split; [done|by eauto|]. split; [apply Hok|auto..].
  - pose proof (lex_step_kept _ _ Hok Hst) as Hk. eapply scopes_kept_trans; [exact Hk|]. apply IH, Hk.
Qed.

Definition no_scopes : Scopes := {| sc_frames := []; sc_cells := [] |}.

Lemma reachable_ok s : rtc lex_step no_scopes s -> ScopesOk s.
Proof. intros Hr. apply (sk_ok no_scopes s), lex_steps_kept; [by split|done]. Qed.

(** ** Lookups *)

Lemma lookup_loop_fuel s fuel1 : forall fuel2 e name, ScopesOk s -> e < fuel1 -> e < fuel2 -> lookup_loop fuel1 s e name = lookup_loop fuel2 s e name.
Proof.
  induction fuel1 as [|fuel1 IH]; intros [|fuel2] e name Hok H1 H2; [lia..|]. cbn [lookup_loop].
  destruct (sc_frames s !! e) as [f|] eqn:Hf; [|done]. cbn [expect rbind]. destruct (lf_slots f !! name); [done|].
  destruct (lf_parent f) as [p|] eqn:Hp; [|done]. pose proof (so_parents _ Hok _ _ _ Hf Hp). apply IH; [done|lia|lia].
Qed.

(** The innermost frame that has the name. *)
Lemma lookup_slot_eq s e f name : ScopesOk s -> sc_frames s !! e = Some f ->
  lookup_slot s e name = match lf_slots f !! name with Some slot => Ok (Some slot) | None =>
    match lf_parent f with Some parent => lookup_slot s parent name | None => Ok None end end.
Proof.
  intros Hok Hf. unfold lookup_slot at 1. cbn [lookup_loop]. rewrite Hf. cbn [expect rbind]. destruct (lf_slots f !! name); [done|].
  destruct (lf_parent f) as [p|] eqn:Hp; [|done]. pose proof (so_parents _ Hok _ _ _ Hf Hp). apply lookup_loop_fuel; [done|lia|lia].
Qed.

(** A lookup ends, with a slot of some frame. *)
Lemma lookup_slot_total s e name : ScopesOk s -> valid_env s e ->
  exists o, lookup_slot s e name = Ok o /\ forall slot, o = Some slot -> exists e' f, e' <= e /\ sc_frames s !! e' = Some f /\ lf_slots f !! name = Some slot.
Proof.
  intros Hok. induction (lt_wf e) as [e _ IH]. intros Hv. destruct (lookup_lt_is_Some_2 _ _ Hv) as [f Hf]. rewrite (lookup_slot_eq s e f name Hok Hf).
  destruct (lf_slots f !! name) as [slot|] eqn:Hs; [eexists; split; [done|]; intros ? [= <-]; by exists e, f|].
  destruct (lf_parent f) as [p|] eqn:Hp; [|by eexists]. pose proof (so_parents _ Hok _ _ _ Hf Hp) as Hlt.
  destruct (IH p Hlt) as (o & Ho & Hsl); [unfold valid_env in *; lia|]. exists o. split; [done|]. intros slot Heq.
  destruct (Hsl slot Heq) as (e' & f' & Hle & ?). exists e', f'. split; [lia|done].
Qed.

(** Lookups depend on the frames up to the environment only. *)
Lemma lookup_slot_ext s s' e name : ScopesOk s -> ScopesOk s' -> valid_env s e -> (forall e', e' <= e -> sc_frames s' !! e' = sc_frames s !! e') ->
  lookup_slot s' e name = lookup_slot s e name.
Proof.
  intros Hok Hok'. induction (lt_wf e) as [e _ IH]. intros Hv Hext. destruct (lookup_lt_is_Some_2 _ _ Hv) as [f Hf].
  rewrite (lookup_slot_eq s e f name Hok Hf), (lookup_slot_eq s' e f name Hok') by (rewrite Hext; [done|lia]).
  destruct (lf_slots f !! name); [done|]. destruct (lf_parent f) as [p|] eqn:Hp; [|done]. pose proof (so_parents _ Hok _ _ _ Hf Hp).
  apply IH; [done|unfold valid_env in *; lia|intros e' ?; apply Hext; lia].
Qed.

Lemma plain_cell (cells : Cells) c st : cells !! bc_slot c = Some st -> plain st = true ->
  cell_get cells c = read_state c st /\
  forall v, cell_set cells c v = if writable st then Ok (<[bc_slot c := Initialized v]> cells) else Err (CellDeleted (bc_name c)).
Proof.
  intros Hs Hp. unfold cell_get, cell_set, chain_fuel. cbn [get_loop set_loop]. rewrite Hs. cbn [expect rbind].
  by destruct st.
Qed.

(** Lookups see the same when the frames up to the environment and the slots
    they name are the same. *)
Lemma lex_lookup_ext s s' e name : ScopesOk s -> ScopesOk s' -> valid_env s e -> (forall e', e' <= e -> sc_frames s' !! e' = sc_frames s !! e') ->
  sc_cells s `prefix_of` sc_cells s' -> lex_lookup s' e name = lex_lookup s e name.
Proof.
  intros Hok Hok' Hv Hext [new Hc]. unfold lex_lookup, capture_cell. rewrite (lookup_slot_ext s s' e name) by done.
  destruct (lookup_slot_total s e name Hok Hv) as (o & -> & Hsl). cbn [rbind]. destruct o as [slot|]; [|done]. cbn [rbind].
  destruct (Hsl slot eq_refl) as (e' & f & _ & Hf & Hs). destruct (so_slots _ Hok _ _ _ _ Hf Hs) as (st & Hst & Hp).
  destruct (plain_cell (sc_cells s) {| bc_name := name; bc_slot := slot |} st Hst Hp) as [-> _].
  assert (sc_cells s' !! slot = Some st) as Hst' by (rewrite Hc, lookup_app_l by (by eapply lookup_lt_Some); done).
  by destruct (plain_cell (sc_cells s') {| bc_name := name; bc_slot := slot |} st Hst' Hp) as [-> _].
Qed.

(** ** The frame of a form *)

(** [s1] is [s] with a child frame of [outer] that has the slots [done]. *)
Record Opened s outer s1 (done_ : list (Name * option V)) : Prop := {
  op_ok : ScopesOk s1;
  op_frames : exists slots, sc_frames s1 = sc_frames s ++ [{| lf_parent := Some outer; lf_slots := slots |}] /\
    (forall name, is_Some (slots !! name) <-> name ∈ done_.*1) /\
    (forall name value, (name, value) ∈ done_ -> exists slot, slots !! name = Some slot /\
      sc_cells s1 !! slot = Some match value with None => Uninitialized | Some v => Initialized v end);
  op_cells : sc_cells s `prefix_of` sc_cells s1;
}.

Lemma child_opened s outer : ScopesOk s -> valid_env s outer -> child s outer = (length (sc_frames s), (child s outer).2) /\ Opened s outer (child s outer).2 [].
Proof.
  intros Hok Hv. split; [done|]. split; [|exists ∅|done].
  - eapply sk_ok. apply (push_frame_kept s (Some outer)); [done|]. by intros p [= <-].
  - split; [done|]. split; [|intros name value Hin; by apply elem_of_nil in Hin].
    intros name. rewrite lookup_empty. split; [by intros []|]. intros Hin. by apply elem_of_nil in Hin.
Qed.

Lemma define_opened s outer s1 done_ name value : Opened s outer s1 done_ ->
  (name ∈ done_.*1 /\ define_slot s1 (length (sc_frames s)) name value = Err (AlreadyDefined name)) \/
  (name ∉ done_.*1 /\ exists s2, define_slot s1 (length (sc_frames s)) name value = Ok s2 /\ Opened s outer s2 (done_ ++ [(name, value)])).
Proof.
  intros [Hok (slots & Hf & Hdom & Hval) Hc]. assert (sc_frames s1 !! length (sc_frames s) = Some {| lf_parent := Some outer; lf_slots := slots |}) as Hget
    by (rewrite Hf; by apply list_lookup_middle).
  destruct (slots !! name) as [x|] eqn:Hn.
  { left. split; [apply Hdom; by eexists|]. unfold define_slot. rewrite Hget. cbn [expect rbind lf_slots]. by rewrite Hn. }
  right. assert (name ∉ done_.*1) as Hnin by (rewrite <- Hdom, Hn; by intros []). split; [done|]. eexists.
  assert (define_slot s1 (length (sc_frames s)) name value = Ok _) as Hd
    by (unfold define_slot; rewrite Hget; cbn [expect rbind lf_slots lf_parent]; rewrite Hn; reflexivity).
  split; [exact Hd|]. split; [by eapply sk_ok, define_slot_kept| |simpl; by apply prefix_app_r].
  exists (<[name := length (sc_cells s1)]> slots). split; [simpl; rewrite Hf; by rewrite insert_app_r_alt, Nat.sub_diag by done|]. split.
  - intros n. rewrite fmap_app, elem_of_app, <- Hdom. simpl. rewrite list_elem_of_singleton.
    destruct (decide (n = name)) as [->|Hne]; [rewrite lookup_insert_eq; split; [by right|by eexists]|]. rewrite lookup_insert_ne by done. naive_solver.
  - intros n v [Hin|[= -> ->]%list_elem_of_singleton]%elem_of_app.
    + destruct (Hval n v Hin) as (slot & Hs & Hcs). exists slot. simpl. rewrite lookup_app_l by (by eapply lookup_lt_Some). split; [|done].
      rewrite lookup_insert_ne; [done|]. intros <-. by rewrite Hs in Hn.
    + exists (length (sc_cells s1)). split; [apply lookup_insert_eq|]. simpl. by apply list_lookup_middle.
Qed.

(** What is read in an opened frame. *)
Lemma opened_lookup s outer s1 done_ : ScopesOk s -> valid_env s outer -> Opened s outer s1 done_ ->
  (forall name value, (name, value) ∈ done_ ->
    lex_lookup s1 (length (sc_frames s)) name = match value with Some v => Ok v | None => Err (NotInitialized name) end) /\
  (forall name, name ∉ done_.*1 -> lex_lookup s1 (length (sc_frames s)) name = lex_lookup s outer name) /\
  (forall e name, valid_env s e -> lex_lookup s1 e name = lex_lookup s e name).
Proof.
  intros Hok Hv [Hok1 (slots & Hf & Hdom & Hval) Hc]. assert (sc_frames s1 !! length (sc_frames s) = Some {| lf_parent := Some outer; lf_slots := slots |}) as Hget
    by (rewrite Hf; by apply list_lookup_middle).
  assert (forall e name, valid_env s e -> lex_lookup s1 e name = lex_lookup s e name) as Hold.
  { intros e name He. apply lex_lookup_ext; try done. intros e' Hle. rewrite Hf, lookup_app_l by (unfold valid_env in He; lia). done. }
  split_and!; [| |done].
  - intros name value Hin. destruct (Hval name value Hin) as (slot & Hs & Hcs). unfold lex_lookup, capture_cell.
    rewrite (lookup_slot_eq _ _ _ _ Hok1 Hget). cbn [lf_slots]. rewrite Hs. cbn [rbind].
    edestruct (plain_cell (sc_cells s1) {| bc_name := name; bc_slot := slot |}) as [-> _]; [exact Hcs|by destruct value|]. by destruct value.
  - intros name Hn. rewrite <- (Hold outer name Hv). unfold lex_lookup, capture_cell. rewrite (lookup_slot_eq _ _ _ _ Hok1 Hget). cbn [lf_slots lf_parent].
    destruct (slots !! name) eqn:Hs; [|done]. destruct Hn. apply Hdom. by eexists.
Qed.

(** The loops that fill the frame of a form. *)
Fixpoint define_slots (l : list (Name * option V)) s e (k : Scopes -> Res LexError V * Scopes) : Res LexError V * Scopes :=
  match l with [] => k s | (name, value) :: l => next s (define_slot s e name value) (fun s => define_slots l s e k) end.

Lemma define_all_slots bindings body e : forall s, define_all bindings body s e = define_slots (prod_map id Some <$> bindings) s e (fun s => body s e).
Proof.
  induction bindings as [|[name v] bindings IH]; intros s; [done|]. simpl. unfold lex_define.
  destruct (define_slot s e name (Some v)); simpl; [apply IH|done..].
Qed.

Lemma predefine_all_slots names e k : forall s, predefine_all names s e k = define_slots ((fun name => (name, None)) <$> names) s e k.
Proof.
  induction names as [|name names IH]; intros s; [done|]. simpl. unfold predefine. destruct (define_slot s e name None); simpl; [apply IH|done..].
Qed.

Lemma define_slots_opened s outer k l : forall s1 done_, Opened s outer s1 done_ ->
  (NoDup (done_.*1 ++ l.*1) -> exists s2, Opened s outer s2 (done_ ++ l) /\ define_slots l s1 (length (sc_frames s)) k = k s2) /\
  (NoDup done_.*1 -> ~ NoDup (done_.*1 ++ l.*1) -> exists name s2, define_slots l s1 (length (sc_frames s)) k = (Err (AlreadyDefined name), s2)).
Proof.
  induction l as [|[name v] l IH]; intros s1 done_ Hop; simpl.
  - split; [intros _; exists s1; by rewrite app_nil_r|]. intros Hnd Hn. by rewrite app_nil_r in Hn.
  - destruct (define_opened _ _ _ _ name v Hop) as [[Hin Hd]|(Hnin & s2 & Hd & Hop2)]; rewrite Hd; cbn [next].
    + split; [|by eauto]. intros Hnd. apply NoDup_app in Hnd as (_ & Hdis & _). destruct (Hdis name Hin). apply list_elem_of_here.
    + destruct (IH _ _ Hop2) as [IH1 IH2]. rewrite fmap_app in IH1, IH2. simpl in IH1, IH2. rewrite <- !app_assoc in IH1. rewrite <- app_assoc in IH2. simpl in IH1, IH2.
      split; [exact IH1|]. intros Hnd Hn. apply IH2; [|done]. apply NoDup_app. split; [done|]. split; [|apply NoDup_singleton].
      intros x Hx ->%list_elem_of_singleton. done.
Qed.

(** A form with distinct names goes on in a fresh child scope where the names
    have their values and every other name means what it means outside, and the
    scopes that existed see no change; a repeated name is refused. *)
Lemma form_facts s outer l k : ScopesOk s -> valid_env s outer ->
  (NoDup l.*1 -> exists s1, Opened s outer s1 l /\ define_slots l (child s outer).2 (length (sc_frames s)) k = k s1 /\
    (forall name value, (name, value) ∈ l ->
      lex_lookup s1 (length (sc_frames s)) name = match value with Some v => Ok v | None => Err (NotInitialized name) end) /\
    (forall name, name ∉ l.*1 -> lex_lookup s1 (length (sc_frames s)) name = lex_lookup s outer name) /\
    (forall e name, valid_env s e -> lex_lookup s1 e name = lex_lookup s e name)) /\
  (~ NoDup l.*1 -> exists name s2, define_slots l (child s outer).2 (length (sc_frames s)) k = (Err (AlreadyDefined name), s2)).
Proof.
  intros Hok Hv. destruct (child_opened s outer Hok Hv) as [_ Hop].
  destruct (define_slots_opened s outer k l _ _ Hop) as [H1 H2]. simpl in H1, H2. split; [|intros Hn; apply H2; [constructor|done]].
  intros (s1 & Hop1 & Heq)%H1. exists s1. split; [done|]. split; [exact Heq|]. by apply opened_lookup.
Qed.

(** The cells of an opened frame stay with their names, and a write to one is
    read back and seen through no other. *)
Lemma opened_cells s outer s1 l s' name : Opened s outer s1 l -> rtc lex_step s1 s' -> name ∈ l.*1 ->
  capture_cell s' (length (sc_frames s)) name = capture_cell s1 (length (sc_frames s)) name /\
  forall v, match lex_set s' (length (sc_frames s)) name v with
    | Ok s2 => lex_lookup s2 (length (sc_frames s)) name = Ok v /\
        (forall other, other ∈ l.*1 -> other <> name -> lex_lookup s2 (length (sc_frames s)) other = lex_lookup s' (length (sc_frames s)) other)
    | Err er => er = LexCell (CellDeleted name) /\ lex_lookup s' (length (sc_frames s)) name = Err er
    | _ => False
    end.
Proof.
  intros [Hok1 (slots & Hf & Hdom & _) _] Hr Hin. destruct (lex_steps_kept _ _ Hok1 Hr) as [Hok' Hfr _].
  destruct (Hfr (length (sc_frames s)) {| lf_parent := Some outer; lf_slots := slots |}) as (f' & Hf' & _ & Hsub); [rewrite Hf; by apply list_lookup_middle|].
  assert (forall n, n ∈ l.*1 -> exists slot st, slots !! n = Some slot /\ lf_slots f' !! n = Some slot /\ sc_cells s' !! slot = Some st /\ plain st = true /\
    lookup_slot s' (length (sc_frames s)) n = Ok (Some slot)) as Hslot.
  { intros n [slot Hs]%Hdom. assert (lf_slots f' !! n = Some slot) as Hs' by by eapply lookup_weaken.
    destruct (so_slots _ Hok' _ _ _ _ Hf' Hs') as (st & Hst & Hp). exists slot, st. split_and!; [done..|]. by rewrite (lookup_slot_eq _ _ _ _ Hok' Hf'), Hs'. }
  destruct (Hslot name Hin) as (slot & st & Hs & Hs' & Hst & Hp & Hlk). split.
  { unfold capture_cell. rewrite Hlk, (lookup_slot_eq s1 _ {| lf_parent := Some outer; lf_slots := slots |} name Hok1) by (rewrite Hf; by apply list_lookup_middle).
    cbn [lf_slots]. by rewrite Hs. }
  intros v. unfold lex_set, lex_lookup, capture_cell. rewrite Hlk. cbn [rbind].
  destruct (plain_cell (sc_cells s') {| bc_name := name; bc_slot := slot |} st Hst Hp) as [Hg ->].
  destruct (writable st) eqn:Hw; [|rewrite Hg; by destruct st]. cbn [map_err rmap rbind].
  set (s2 := {| sc_frames := sc_frames s'; sc_cells := _ |}). assert (forall n, lookup_slot s2 (length (sc_frames s)) n = lookup_slot s' (length (sc_frames s)) n) as Hsame.
  { intros n. apply lookup_slot_ext; [done| |by eapply lookup_lt_Some|done]. eapply (sk_ok s'), lex_step_kept; [done|].
    apply step_cell, (step_set _ {| bc_name := name; bc_slot := slot |} v); [by eapply lookup_lt_Some|].
    destruct (plain_cell (sc_cells s') {| bc_name := name; bc_slot := slot |} st Hst Hp) as [_ ->]. by rewrite Hw. }
  split.
  - rewrite Hsame, Hlk. cbn [rbind]. edestruct (plain_cell (sc_cells s2) {| bc_name := name; bc_slot := slot |}) as [-> _];
      [simpl; apply list_lookup_insert_eq; by eapply lookup_lt_Some|done|done].
  - intros other Ho Hne. destruct (Hslot other Ho) as (slot' & st' & _ & Hs2 & Hst' & Hp' & Hlk'). rewrite Hsame, Hlk'. cbn [rbind].
    destruct (plain_cell (sc_cells s') {| bc_name := other; bc_slot := slot' |} st' Hst' Hp') as [-> _].
    edestruct (plain_cell (sc_cells s2) {| bc_name := other; bc_slot := slot' |}) as [-> _]; [|exact Hp'|done].
    simpl. rewrite list_lookup_insert_ne; [done|]. intros ->. by destruct (so_owned _ Hok' _ _ _ _ _ _ _ Hf' Hf' Hs' Hs2).
Qed.

Lemma lex_set_step s e name v s' : ScopesOk s -> valid_env s e -> lex_set s e name v = Ok s' -> lex_step s s'.
Proof.
  intros Hok Hv Hs. unfold lex_set, capture_cell in Hs. destruct (lookup_slot_total s e name Hok Hv) as (o & Ho & Hsl). rewrite Ho in Hs.
  cbn [rbind] in Hs. destruct o as [slot|]; [|done]. cbn [rbind] in Hs.
  destruct (cell_set (sc_cells s) _ v) as [cs|e0| |] eqn:Hcs; [|done..]. injection Hs as <-. apply step_cell.
  eapply (step_set _ {| bc_name := name; bc_slot := slot |}); [|exact Hcs]. destruct (Hsl slot eq_refl) as (e' & f & _ & Hf & Hfs).
  destruct (so_slots _ Hok _ _ _ _ Hf Hfs) as (st & Hst & _). by eapply lookup_lt_Some.
Qed.

(** Initializers that give a value without touching the store, as closures do. *)
Lemma set_each_values s outer s1 l val body bindings : Opened s outer s1 l -> forall s', rtc lex_step s1 s' -> NoDup bindings.*1 ->
  (forall name, name ∈ bindings.*1 -> name ∈ l.*1 /\ lex_lookup s' (length (sc_frames s)) name = Err (NotInitialized name)) ->
  (forall name init, (name, init) ∈ bindings -> forall s', init s' (length (sc_frames s)) = (Ok (val name), s')) ->
  exists s2, rtc lex_step s1 s2 /\ set_each bindings body s' (length (sc_frames s)) = body s2 (length (sc_frames s)) /\
    forall name, name ∈ l.*1 ->
      lex_lookup s2 (length (sc_frames s)) name = if decide (name ∈ bindings.*1) then Ok (val name) else lex_lookup s' (length (sc_frames s)) name.
Proof.
  intros Hop. induction bindings as [|[name init] bindings IH]; intros s' Hr Hnd Hun Hinit; [by exists s'|].
  cbn [set_each]. unfold run_init. rewrite (Hinit name init (list_elem_of_here _ _)). simpl in Hnd. apply NoDup_cons in Hnd as [Hnin Hnd].
  destruct (Hun name (list_elem_of_here _ _)) as [Hl Hlk]. destruct (opened_cells _ _ _ _ _ _ Hop Hr Hl) as [_ Hset]. specialize (Hset (val name)).
  destruct (lex_set s' (length (sc_frames s)) name (val name)) as [s2|er| |] eqn:Hs; [|destruct Hset as [-> Hc]; by rewrite Hlk in Hc|done..].
  cbn [next]. destruct Hset as [Hval Hoth]. destruct (lex_steps_kept _ _ (op_ok _ _ _ _ Hop) Hr) as [Hok' Hfr' _].
  assert (rtc lex_step s1 s2) as Hr2.
  { eapply rtc_r; [exact Hr|]. eapply lex_set_step; [done| |exact Hs]. destruct (op_frames _ _ _ _ Hop) as (slots & Hf & _).
    edestruct Hfr' as (f' & Hf' & _); [rewrite Hf; by apply list_lookup_middle|]. by eapply lookup_lt_Some. }
  destruct (IH s2 Hr2 Hnd) as (s3 & Hr3 & Heq & Hread).
  - intros n Hn. destruct (Hun n (list_elem_of_further _ _ _ Hn)) as [Hnl Hnu]. split; [done|]. rewrite Hoth; [done|done|]. by intros ->.
  - intros n i Hi. apply Hinit. by apply list_elem_of_further.
  - exists s3. split_and!; [done..|]. intros n Hn. rewrite (Hread n Hn). destruct (decide (n = name)) as [->|Hne].
    + rewrite decide_False, decide_True by (done || apply list_elem_of_here). done.
    + destruct (decide (n ∈ bindings.*1)); [rewrite decide_True; [done|by apply list_elem_of_further]|].
      rewrite decide_False; [by apply Hoth|]. by intros [?|?]%elem_of_cons.
Qed.

(** A [let] with distinct names runs its body in a fresh child scope where the
    names have their values, every other name means what it means outside, and no
    scope that existed sees a change; a repeated name is refused before the body
    runs. *)
Theorem eval_let_spec s outer bindings body : rtc lex_step no_scopes s -> valid_env s outer ->
  (NoDup bindings.*1 -> exists s2, eval_let s outer bindings body = body s2 (length (sc_frames s)) /\
    (forall name v, (name, v) ∈ bindings -> lex_lookup s2 (length (sc_frames s)) name = Ok v) /\
    (forall name, name ∉ bindings.*1 -> lex_lookup s2 (length (sc_frames s)) name = lex_lookup s outer name) /\
    (forall e name, valid_env s e -> lex_lookup s2 e name = lex_lookup s e name)) /\
  (~ NoDup bindings.*1 -> exists name s2, eval_let s outer bindings body = (Err (AlreadyDefined name), s2)).
Proof.
  intros Hr%reachable_ok Hv. unfold eval_let. cbn [child push_frame]. rewrite define_all_slots.
  assert ((prod_map id Some <$> bindings).*1 = bindings.*1) as Hnames by by rewrite <- list_fmap_compose.
  destruct (form_facts s outer (prod_map id Some <$> bindings) (fun s0 => body s0 (length (sc_frames s))) Hr Hv) as [H1 H2]. rewrite Hnames in H1, H2.
  split; [|exact H2]. intros (s1 & _ & Heq & Ha & Hb & Hc)%H1. exists s1. split; [exact Heq|]. split_and!; [|done|done].
  intros name v Hin. apply (Ha name (Some v)), list_elem_of_fmap. by exists (name, v).
Qed.

(** A [letrec] with distinct names runs its initializers in a fresh child
    scope where all names exist uninitialized.  Whatever the initializers and the
    body do, each name keeps its own cell, and a write to it is read back and seen
    through no other name; initializers that only give values, as closures do,
    leave every name bound to its value when the body runs. *)
Theorem eval_letrec_spec s outer bindings body : rtc lex_step no_scopes s -> valid_env s outer -> NoDup bindings.*1 ->
  let env := length (sc_frames s) in
  exists s1, eval_letrec s outer bindings body = set_each bindings body s1 env /\
    (forall name, name ∈ bindings.*1 -> lex_lookup s1 env name = Err (NotInitialized name)) /\
    (forall name, name ∉ bindings.*1 -> lex_lookup s1 env name = lex_lookup s outer name) /\
    (forall s' name, rtc lex_step s1 s' -> name ∈ bindings.*1 ->
      capture_cell s' env name = capture_cell s1 env name /\
      forall v, match lex_set s' env name v with
        | Ok s2 => lex_lookup s2 env name = Ok v /\
            (forall other, other ∈ bindings.*1 -> other <> name -> lex_lookup s2 env other = lex_lookup s' env other)
        | Err er => er = LexCell (CellDeleted name) /\ lex_lookup s' env name = Err er
        | _ => False
        end) /\
    forall val, (forall name init, (name, init) ∈ bindings -> forall s', init s' env = (Ok (val name), s')) ->
      exists s2, eval_letrec s outer bindings body = body s2 env /\ forall name, name ∈ bindings.*1 -> lex_lookup s2 env name = Ok (val name).
Proof.
  intros Hr%reachable_ok Hv Hnd env. unfold eval_letrec. cbn [child push_frame]. rewrite predefine_all_slots.
  assert (((fun name => (name, @None V)) <$> bindings.*1).*1 = bindings.*1) as Hnames by (rewrite <- list_fmap_compose; apply list_fmap_id).
  destruct (form_facts s outer ((fun name => (name, None)) <$> bindings.*1) (fun s0 => set_each bindings body s0 env) Hr Hv) as [H1 _].
  rewrite Hnames in H1. destruct (H1 Hnd) as (s1 & Hop & Heq & Ha & Hb & _).
  assert (forall name, name ∈ bindings.*1 -> lex_lookup s1 env name = Err (NotInitialized name)) as Hun
    by (intros name Hin; apply (Ha name None), list_elem_of_fmap; by eauto).
  exists s1. split; [exact Heq|]. split; [done|]. split; [done|]. split.
  - intros s' name Hs Hin. pose proof (opened_cells _ _ _ _ _ name Hop Hs) as Hc. rewrite Hnames in Hc. by apply Hc.
  - intros val Hval. destruct (set_each_values _ _ _ _ val body bindings Hop s1 (rtc_refl _ _) Hnd) as (s2 & _ & Heq2 & Hread); [|exact Hval|].
    { intros name Hin. by rewrite Hnames, Hun. }
    rewrite Hnames in Hread. exists s2. split; [etrans; [exact Heq|exact Heq2]|]. intros name Hin. etrans; [exact (Hread name Hin)|]. by rewrite decide_True.
Qed.
End Lexical.
