(* ===== verification/DynamicScopes.v ===== *)
(** * Dynamic scopes

    crates/sim-lib-binding/src/dynamic.rs: a shared stack of frames, pushed for
    the extent of a body and popped by a guard when the body returns or unwinds,
    and parameters over it.

    [dynamic_extent]: for code that uses the environment from one thread, the
    stack is dynamic scoping by passing environments, and every extent leaves the
    stack as it found it.  [overlapping_extents]: two threads that share one
    environment pop each other's frames. *)

From S2P Require Import Prelude BTree.

Section Dynamic.
Context {Name V E : Type} `{OrdKey Name}.

Abbreviation DynamicFrame := (BTreeMap Name V).
Implicit Types (frames : list DynamicFrame) (bindings : list (Name * V)) (name : Name) (v : V).

(** [collect]: a later binding of a name replaces an earlier one. *)
Definition frame_of bindings : DynamicFrame := foldl (fun m kv => <[kv.1 := kv.2]> m) ∅ bindings.

(** [lookup]: the innermost frame is the last one. *)
Fixpoint find_frame (l : list DynamicFrame) name : option V :=
  match l with
  | [] => None
  | frame :: l => match frame !! name with Some v => Some v | None => find_frame l name end
  end.

Definition dyn_lookup frames name : option V := find_frame (reverse frames) name.

Definition push_bindings frames bindings : list DynamicFrame := frames ++ [frame_of bindings].

(** The guard: pops the last frame, if there is one. *)
Definition drop_guard frames : list DynamicFrame := removelast frames.

Definition with_bindings {T} frames bindings (body : list DynamicFrame -> Res E T * list DynamicFrame) : Res E T * list DynamicFrame :=
  let '(r, frames) := body (push_bindings frames bindings) in (r, drop_guard frames).

Record Parameter_ := {
  pa_name : Name;
  pa_default : V;
}.

Definition param_get frames (p : Parameter_) : V := default (pa_default p) (dyn_lookup frames (pa_name p)).

Definition with_value {T} frames (p : Parameter_) v (body : list DynamicFrame -> Res E T * list DynamicFrame) : Res E T * list DynamicFrame :=
  with_bindings frames [(pa_name p, v)] body.

(** ** Code that uses the environment *)

(** Code of one thread: it ends with a result (an error or an abort included),
    reads a name or a parameter, or runs code with bindings or with a value of a
    parameter and goes on with its result. *)
Inductive Code :=
| Done (r : Res E V)
| ReadName name (k : option V -> Code)
| ReadParameter (p : Parameter_) (k : V -> Code)
| Bind bindings (body : Code) (k : Res E V -> Code)
| BindParameter (p : Parameter_) v (body : Code) (k : Res E V -> Code).

Fixpoint run_code (c : Code) frames : Res E V * list DynamicFrame :=
  match c with
  | Done r => (r, frames)
  | ReadName name k => run_code (k (dyn_lookup frames name)) frames
  | ReadParameter p k => run_code (k (param_get frames p)) frames
  | Bind bindings body k => let '(r, frames) := with_bindings frames bindings (run_code body) in run_code (k r) frames
  | BindParameter p v body k => let '(r, frames) := with_value frames p v (run_code body) in run_code (k r) frames
  end.

(** Dynamic scoping: code runs in an environment, which bindings extend for
    their body only. *)
Abbreviation Env := (Name -> option V).

Definition extend (env : Env) bindings : Env := fun name => match last (filter (fun kv => kv.1 = name) bindings) with Some kv => Some kv.2 | None => env name end.

Fixpoint scoped (c : Code) (env : Env) : Res E V :=
  match c with
  | Done r => r
  | ReadName name k => scoped (k (env name)) env
  | ReadParameter p k => scoped (k (default (pa_default p) (env (pa_name p)))) env
  | Bind bindings body k => scoped (k (scoped body (extend env bindings))) env
  | BindParameter p v body k => scoped (k (scoped body (extend env [(pa_name p, v)]))) env
  end.

Lemma frame_of_lookup bindings name : frame_of bindings !! name = snd <$> last (filter (fun kv => kv.1 = name) bindings).
Proof.
  unfold frame_of. induction bindings as [|[n v] bindings IH] using rev_ind; [cbn [foldl]; by rewrite lookup_empty|].
  rewrite foldl_snoc, filter_app. cbn [fst snd]. destruct (decide (n = name)) as [->|Hne].
  - rewrite lookup_insert_eq, filter_cons_True, filter_nil by done. by rewrite last_snoc.
  - rewrite lookup_insert_ne, filter_cons_False, filter_nil, app_nil_r by done. done.
Qed.

Lemma lookup_push frames bindings name : dyn_lookup (push_bindings frames bindings) name = extend (dyn_lookup frames) bindings name.
Proof.
  unfold dyn_lookup, push_bindings, extend. rewrite reverse_snoc. cbn [find_frame]. rewrite frame_of_lookup.
  by destruct (last _).
Qed.

Lemma scoped_ext c : forall env env', (forall name, env name = env' name) -> scoped c env = scoped c env'.
Proof.
  assert (forall env env' bindings, (forall name, env name = env' name) -> forall name, extend env bindings name = extend env' bindings name) as Hext
    by (intros env env' bindings Heq name; unfold extend; by destruct (last _)).
  induction c as [r|name k IH|p k IH|bindings body IHb k IH|p v body IHb k IH]; intros env env' Heq; cbn [scoped]; [done| | | |].
  - rewrite Heq. by apply IH.
  - rewrite Heq. by apply IH.
  - rewrite (IHb _ (extend env' bindings)) by by apply Hext. by apply IH.
  - rewrite (IHb _ (extend env' [(pa_name p, v)])) by by apply Hext. by apply IH.
Qed.

Lemma with_bindings_scoped frames bindings body : (forall fs, run_code body fs = (scoped body (dyn_lookup fs), fs)) ->
  with_bindings frames bindings (run_code body) = (scoped body (extend (dyn_lookup frames) bindings), frames).
Proof.
  intros Hb. unfold with_bindings. rewrite Hb. f_equal; [apply scoped_ext, lookup_push|]. unfold drop_guard, push_bindings. apply removelast_last.
Qed.

(** C39: Code of one thread, while no other thread uses the environment, gives
    over the shared stack of frames what dynamic scoping gives in the environment
    of the stack, however it ends, and leaves the stack as it found it.  Threads
    whose extents overlap are out of scope ([overlapping_extents]). *)
Theorem dynamic_extent c frames : run_code c frames = (scoped c (dyn_lookup frames), frames).
Proof.
  revert frames. induction c as [r|name k IH|p k IH|bindings body IHb k IH|p v body IHb k IH]; intros frames; cbn [run_code scoped]; [done| | | |].
  - apply IH.
  - apply IH.
  - rewrite with_bindings_scoped by done. apply IH.
  - unfold with_value. rewrite with_bindings_scoped by done. apply IH.
Qed.

(** Two threads with overlapping extents over one environment: the first pushes
    [a], the second pushes [b], the first ends.  Its guard has popped the frame of
    the second, which now sees the binding of the first. *)
Theorem overlapping_extents frames name a b :
  let both := push_bindings (push_bindings frames [(name, a)]) [(name, b)] in
  dyn_lookup both name = Some b /\ dyn_lookup (drop_guard both) name = Some a.
Proof.
  intros both. unfold both. split; [rewrite lookup_push; unfold extend; by rewrite filter_cons_True|].
  unfold drop_guard, push_bindings at 1. rewrite removelast_last, lookup_push. unfold extend. by rewrite filter_cons_True.
Qed.
End Dynamic.
