(* ===== verification/CallBinding.v ===== *)
(** * Binding of call arguments

    crates/sim-lib-binding/src/call.rs: a signature with positional and named
    parameters and two remainders is checked and binds the arguments of a call.

    [bind_spec]: a call is bound exactly when the declaration is well formed, the
    arguments come in order and without repetition, every parameter gets its
    value from one place and nothing is left over that may not be; the bindings
    are then what the declaration says, and a refusal names a true fault. *)

From S2P Require Import Prelude BTree.

Section Call.
Context {Name V : Type} `{OrdKey Name}.

Inductive CallArgument :=
| Positional (v : V)
| Named (name : Name) (v : V).

Inductive Remainder := Prohibited | Variadic (name : Name).

Record CallParameter := {
  p_name : Name;
  p_default : option V;
}.

Record CallSignature := {
  sg_positional : list CallParameter;
  sg_named : list CallParameter;
  sg_positional_remainder : Remainder;
  sg_named_remainder : Remainder;
}.

Record BoundCall := {
  b_bindings : BTreeMap Name V;
  b_positional : list V;
  b_named : BTreeMap Name V;
}.

Inductive CallError :=
| Ordering
| DuplicateArgument (name : Name)
| DuplicateSupplied (name : Name)
| MissingPositional (name : Name)
| MissingNamed (name : Name)
| UnexpectedPositional (count : nat)
| UnexpectedNamed (names : list Name)
| DuplicateParameter (name : Name)
| DuplicateVariadic (name : Name).

Implicit Types (sig : CallSignature) (args : list CallArgument).

(** The declarations of [validate]. *)
Fixpoint validate_parameters (l : list CallParameter) (names : BTreeSet Name) : Res CallError (BTreeSet Name) :=
  match l with
  | [] => Ok names
  | p :: l => if decide (p_name p ∈ names) then Err (DuplicateParameter (p_name p)) else validate_parameters l ({[p_name p]} ∪ names)
  end.

Fixpoint validate_remainders (l : list Remainder) (names : BTreeSet Name) : Res CallError unit :=
  match l with
  | [] => Ok ()
  | Prohibited :: l => validate_remainders l names
  | Variadic name :: l => if decide (name ∈ names) then Err (DuplicateVariadic name) else validate_remainders l ({[name]} ∪ names)
  end.

Definition validate sig : Res CallError unit :=
  let? names := validate_parameters (sg_positional sig ++ sg_named sig) ∅ in
  validate_remainders [sg_positional_remainder sig; sg_named_remainder sig] names.

(** The partition of the arguments. *)
Fixpoint partition_arguments args (positional : list V) (named : BTreeMap Name V) (saw_named : bool) : Res CallError (list V * BTreeMap Name V) :=
  match args with
  | [] => Ok (positional, named)
  | Positional v :: args => if saw_named then Err Ordering else partition_arguments args (positional ++ [v]) named saw_named
  | Named name v :: args =>
    match named !! name with
    | Some _ => Err (DuplicateArgument name)
    | None => partition_arguments args positional (<[name := v]> named) true
    end
  end.

Fixpoint bind_positional (l : list CallParameter) (index : nat) (positional : list V) (named bindings : BTreeMap Name V)
    : Res CallError (BTreeMap Name V * BTreeMap Name V) :=
  match l with
  | [] => Ok (named, bindings)
  | p :: l =>
    let? v := match positional !! index, named !! p_name p, p_default p with
      | Some _, Some _, _ => Err (DuplicateSupplied (p_name p))
      | Some v, None, _ | None, Some v, _ => Ok v
      | None, None, Some v => Ok v
      | None, None, None => Err (MissingPositional (p_name p))
      end in
    bind_positional l (S index) positional (delete (p_name p) named) (<[p_name p := v]> bindings)
  end.

Fixpoint bind_named (l : list CallParameter) (named bindings : BTreeMap Name V) : Res CallError (BTreeMap Name V * BTreeMap Name V) :=
  match l with
  | [] => Ok (named, bindings)
  | p :: l =>
    let? v := match named !! p_name p with Some v => Ok v | None => ok_or (MissingNamed (p_name p)) (p_default p) end in
    bind_named l (delete (p_name p) named) (<[p_name p := v]> bindings)
  end.

Definition is_prohibited (r : Remainder) : bool := match r with Prohibited => true | Variadic _ => false end.

Definition bind sig args : Res CallError BoundCall :=
  let? _ := validate sig in
  let? (positional, supplied) := partition_arguments args [] ∅ false in
  let? (supplied, bindings) := bind_positional (sg_positional sig) 0 positional supplied ∅ in
  let? (supplied, bindings) := bind_named (sg_named sig) supplied bindings in
  let extra := drop (length (sg_positional sig)) positional in
  if negb (length extra =? 0) && is_prohibited (sg_positional_remainder sig) then Err (UnexpectedPositional (length extra))
  else if negb (length (map_keys supplied) =? 0) && is_prohibited (sg_named_remainder sig) then Err (UnexpectedNamed (map_keys supplied))
  else Ok {| b_bindings := bindings; b_positional := extra; b_named := supplied |}.

(** ** What a bound call is *)

Definition names_of (l : list CallParameter) : list Name := p_name <$> l.

Definition variadic_names (r : Remainder) : list Name := match r with Prohibited => [] | Variadic name => [name] end.

Definition declared sig : list Name := names_of (sg_positional sig ++ sg_named sig).

(** The value of the positional parameter [p] at index [i]: by position, by name
    or by default, but not both of the first two. *)
Definition positional_value (pos : list V) (nam : BTreeMap Name V) (i : nat) (p : CallParameter) : option V :=
  match pos !! i, nam !! p_name p with
  | Some _, Some _ => None
  | Some v, None | None, Some v => Some v
  | None, None => p_default p
  end.

Definition named_value (nam : BTreeMap Name V) (p : CallParameter) : option V :=
  match nam !! p_name p with Some v => Some v | None => p_default p end.

(** The arguments are the positional values [pos] and then the named ones [nam]. *)
Record Arguments_are args (pos : list V) (nam : list (Name * V)) : Prop := {
  ar_args : args = (Positional <$> pos) ++ ((fun '(n, v) => Named n v) <$> nam);
  ar_once : NoDup nam.*1;
}.

Definition left_over sig (nam : BTreeMap Name V) : BTreeMap Name V := filter (fun kv => kv.1 ∉ declared sig) nam.

Record Bound sig args (b : BoundCall) (pos : list V) (nam : list (Name * V)) : Prop := {
  bo_declared : NoDup (declared sig ++ variadic_names (sg_positional_remainder sig) ++ variadic_names (sg_named_remainder sig));
  bo_args : Arguments_are args pos nam;
  bo_positional : forall i p, sg_positional sig !! i = Some p ->
    exists v, positional_value pos (list_to_map nam) i p = Some v /\ b_bindings b !! p_name p = Some v;
  bo_named : forall p, p ∈ sg_named sig -> exists v, named_value (list_to_map nam) p = Some v /\ b_bindings b !! p_name p = Some v;
  bo_only : forall n, n ∉ declared sig -> b_bindings b !! n = None;
  bo_rest : b_positional b = drop (length (sg_positional sig)) pos /\ (is_prohibited (sg_positional_remainder sig) = true -> b_positional b = []);
  bo_rest_named : b_named b = left_over sig (list_to_map nam) /\ (is_prohibited (sg_named_remainder sig) = true -> b_named b = ∅);
}.

(** What a refusal says. *)
Definition call_refusal sig args (e : CallError) : Prop :=
  match e with
  | Ordering => exists l1 n v l2 w l3, args = l1 ++ Named n v :: l2 ++ Positional w :: l3
  | DuplicateArgument n => exists l1 v l2 w l3, args = l1 ++ Named n v :: l2 ++ Named n w :: l3
  | DuplicateSupplied n => exists pos nam i p, Arguments_are args pos nam /\ sg_positional sig !! i = Some p /\ p_name p = n /\ i < length pos /\ n ∈ nam.*1
  | MissingPositional n => exists pos nam i p, Arguments_are args pos nam /\ sg_positional sig !! i = Some p /\ p_name p = n /\
      length pos <= i /\ n ∉ nam.*1 /\ p_default p = None
  | MissingNamed n => exists pos nam p, Arguments_are args pos nam /\ p ∈ sg_named sig /\ p_name p = n /\ n ∉ nam.*1 /\ p_default p = None
  | UnexpectedPositional k => sg_positional_remainder sig = Prohibited /\ 0 < k /\
      exists pos nam, Arguments_are args pos nam /\ length pos = length (sg_positional sig) + k
  | UnexpectedNamed names => sg_named_remainder sig = Prohibited /\ names <> [] /\ StronglySorted ord_le names /\
      exists pos nam, Arguments_are args pos nam /\ forall n, n ∈ names <-> n ∈ nam.*1 /\ n ∉ declared sig
  | DuplicateParameter n => exists l1 l2 l3, declared sig = l1 ++ n :: l2 ++ n :: l3
  | DuplicateVariadic n => n ∈ declared sig /\ n ∈ variadic_names (sg_positional_remainder sig) ++ variadic_names (sg_named_remainder sig) \/
      sg_positional_remainder sig = Variadic n /\ sg_named_remainder sig = Variadic n
  end.

(** ** The loops *)

Lemma validate_parameters_spec l : forall l0 names, (forall n, n ∈ names <-> n ∈ names_of l0) -> NoDup (names_of l0) ->
  match validate_parameters l names with
  | Ok names' => NoDup (names_of (l0 ++ l)) /\ forall n, n ∈ names' <-> n ∈ names_of (l0 ++ l)
  | Err e => exists n l1 l2 l3, e = DuplicateParameter n /\ names_of (l0 ++ l) = l1 ++ n :: l2 ++ n :: l3
  | _ => False
  end.
Proof.
  induction l as [|p l IH]; intros l0 names Hn Hnd; cbn [validate_parameters]; [by rewrite app_nil_r|].
  case_decide as Hp.
  - apply Hn in Hp. apply list_elem_of_split in Hp as (l1 & l2 & Hs). exists (p_name p), l1, l2, (names_of l). split; [done|].
    unfold names_of in *. rewrite fmap_app, Hs, fmap_cons. by rewrite <- app_assoc.
  - specialize (IH (l0 ++ [p]) ({[p_name p]} ∪ names)). rewrite <- app_assoc in IH. apply IH.
    + intros n. rewrite elem_of_union, elem_of_singleton, Hn. unfold names_of. rewrite fmap_app, elem_of_app. simpl. rewrite list_elem_of_singleton. tauto.
    + unfold names_of. rewrite fmap_app. apply NoDup_app. split; [done|]. split; [|apply NoDup_singleton].
      intros n Hin Hq%list_elem_of_singleton. subst n. by apply Hp, Hn.
Qed.

Lemma validate_spec sig :
  match validate sig with
  | Ok _ => NoDup (declared sig ++ variadic_names (sg_positional_remainder sig) ++ variadic_names (sg_named_remainder sig))
  | Err e => call_refusal sig [] e /\ match e with DuplicateParameter _ | DuplicateVariadic _ => True | _ => False end
  | _ => False
  end.
Proof.
  unfold validate. pose proof (validate_parameters_spec (sg_positional sig ++ sg_named sig) [] ∅) as Hp.
  specialize (Hp ltac:(intros n; split; [by intros ?%elem_of_empty|by intros ?%elem_of_nil]) ltac:(constructor)).
  destruct (validate_parameters _ ∅) as [names|e| |]; [|destruct Hp as (n & l1 & l2 & l3 & -> & Heq); split; [by exists l1, l2, l3|done]|done..].
  destruct Hp as [Hnd Hn]. cbn [rbind app] in *. fold (declared sig) in Hnd, Hn.
  unfold call_refusal.
  destruct (sg_positional_remainder sig) as [|m1] eqn:E1, (sg_named_remainder sig) as [|m2] eqn:E2; cbn [validate_remainders variadic_names app].
  - by rewrite app_nil_r.
  - case_decide as H2; [split; [left; split; [by apply Hn|set_solver]|done]|]. apply NoDup_app. split; [done|]. split; [|apply NoDup_singleton].
    intros n Hin Hq%list_elem_of_singleton. subst n. by apply H2, Hn.
  - case_decide as H1; [split; [left; split; [by apply Hn|set_solver]|done]|]. apply NoDup_app. split; [done|]. split; [|apply NoDup_singleton].
    intros n Hin Hq%list_elem_of_singleton. subst n. by apply H1, Hn.
  - case_decide as H1; [split; [left; split; [by apply Hn|set_solver]|done]|]. case_decide as H2.
    + split; [|done]. apply elem_of_union in H2 as [->%elem_of_singleton|H2]; [by right|left; split; [by apply Hn|set_solver]].
    + apply not_elem_of_union in H2 as [Hne%not_elem_of_singleton H2]. apply NoDup_app. split; [done|]. split.
      * intros n Hin [->|Hq%list_elem_of_singleton]%elem_of_cons; [by apply H1, Hn|]. subst n. by apply H2, Hn.
      * apply NoDup_cons. split; [|apply NoDup_singleton]. intros Hq%list_elem_of_singleton. congruence.
Qed.

(** The arguments read so far. *)
Record Read (done_ : list CallArgument) (pos : list V) (nam : list (Name * V)) (named : BTreeMap Name V) (saw : bool) : Prop := {
  rd_args : Arguments_are done_ pos nam;
  rd_named : forall n v, named !! n = Some v <-> (n, v) ∈ nam;
  rd_saw : saw = false <-> nam = [];
}.

Lemma partition_spec args : forall done_ pos nam named saw, Read done_ pos nam named saw ->
  match partition_arguments args pos named saw with
  | Ok (pos', named') => exists nam', Arguments_are (done_ ++ args) pos' nam' /\ forall n v, named' !! n = Some v <-> (n, v) ∈ nam'
  | Err e => forall sig, call_refusal sig (done_ ++ args) e /\ match e with Ordering | DuplicateArgument _ => True | _ => False end
  | _ => False
  end.
Proof.
  induction args as [|x args IH]; intros done_ pos nam named saw [[Hargs Honce] Hnamed Hsaw]; cbn [partition_arguments].
  { rewrite app_nil_r. by exists nam. }
  destruct x as [v|n v].
  - destruct saw.
    + intros sig. split; [|done]. destruct nam as [|[n w] nam]; [by destruct Hsaw as [_ Hs]; specialize (Hs eq_refl)|].
      exists (Positional <$> pos), n, w, ((fun '(n, v) => Named n v) <$> nam), v, args. rewrite Hargs, <- app_assoc. done.
    + assert (nam = []) as -> by by apply Hsaw. specialize (IH (done_ ++ [Positional v]) (pos ++ [v]) [] named false).
      rewrite <- app_assoc in IH. apply IH. split; [|done|done]. split; [|constructor]. rewrite Hargs, fmap_app. simpl. by rewrite !app_nil_r.
  - destruct (named !! n) as [w|] eqn:Hn.
    + intros sig. split; [|done]. apply Hnamed, list_elem_of_split in Hn as (l1 & l2 & ->).
      exists ((Positional <$> pos) ++ ((fun '(n, v) => Named n v) <$> l1)), w, ((fun '(n, v) => Named n v) <$> l2), v, args.
      rewrite Hargs, !fmap_app, fmap_cons, <- !app_assoc. done.
    + specialize (IH (done_ ++ [Named n v]) pos (nam ++ [(n, v)]) (<[n := v]> named) true). rewrite <- app_assoc in IH. apply IH. split.
      * split; [rewrite Hargs, fmap_app, <- app_assoc; done|]. rewrite fmap_app. apply NoDup_app. split; [done|]. split; [|apply NoDup_singleton].
        intros m Hm Hq%list_elem_of_singleton. simpl in Hq. subst m. apply list_elem_of_fmap in Hm as ([m w] & Hm1 & Hm2). simpl in Hm1. subst m.
        apply Hnamed in Hm2. congruence.
      * intros m w. rewrite elem_of_app, list_elem_of_singleton, lookup_insert_Some, Hnamed. split.
        -- intros [[-> ->]|[_ ?]]; [by right|by left].
        -- intros [Hin|[= -> ->]]; [|by left]. right. split; [|done]. intros ->. apply Hnamed in Hin. congruence.
      * split; [done|]. by destruct nam.
Qed.

(** The parameters [l0] have their values of [val], and their names are used up. *)
Record Assigned (val : nat -> CallParameter -> option V) (l0 : list CallParameter) (base named bindings : BTreeMap Name V) : Prop := {
  as_named : forall n, named !! n = if decide (n ∈ names_of l0) then None else base !! n;
  as_value : forall i p, l0 !! i = Some p -> exists v, val i p = Some v /\ bindings !! p_name p = Some v;
  as_only : forall n, n ∉ names_of l0 -> bindings !! n = None;
}.

Lemma assigned_step val l0 base named bindings p v : Assigned val l0 base named bindings -> p_name p ∉ names_of l0 -> val (length l0) p = Some v ->
  Assigned val (l0 ++ [p]) base (delete (p_name p) named) (<[p_name p := v]> bindings).
Proof.
  intros [Hn Hv Ho] Hp Hval. split; unfold names_of in *.
  - intros n. rewrite fmap_app. change (p_name <$> [p]) with [p_name p]. destruct (decide (n = p_name p)) as [->|Hne].
    + rewrite lookup_delete_eq, decide_True; [done|]. apply elem_of_app. right. by left.
    + rewrite lookup_delete_ne, Hn by done. apply decide_ext. rewrite elem_of_app, list_elem_of_singleton. tauto.
  - intros i q Hq. apply lookup_snoc_Some in Hq as [[Hi Hq]|[-> <-]]; [|exists v; by rewrite lookup_insert_eq].
    destruct (Hv i q Hq) as (w & Hw & Hb). exists w. split; [done|]. rewrite lookup_insert_ne; [done|]. intros Heq. apply Hp. rewrite Heq.
    apply list_elem_of_fmap_2. by eapply list_elem_of_lookup_2.
  - intros n. rewrite fmap_app. change (p_name <$> [p]) with [p_name p]. rewrite elem_of_app, list_elem_of_singleton. intros Hnn. rewrite lookup_insert_ne by naive_solver. apply Ho. naive_solver.
Qed.

Lemma NoDup_next l0 p l : NoDup (names_of (l0 ++ p :: l)) -> p_name p ∉ names_of l0.
Proof. unfold names_of. rewrite fmap_app, fmap_cons. intros (_ & Hd & _)%NoDup_app Hin. apply (Hd _ Hin). by left. Qed.

Lemma bind_positional_spec val pos base l : forall l0 named bindings, NoDup (names_of (l0 ++ l)) -> Assigned val l0 base named bindings ->
  (forall i p, (l0 ++ l) !! i = Some p -> val i p = positional_value pos base i p) ->
  match bind_positional l (length l0) pos named bindings with
  | Ok (named', bindings') => Assigned val (l0 ++ l) base named' bindings'
  | Err (DuplicateSupplied n) => exists i p, (l0 ++ l) !! i = Some p /\ p_name p = n /\ i < length pos /\ is_Some (base !! n)
  | Err (MissingPositional n) => exists i p, (l0 ++ l) !! i = Some p /\ p_name p = n /\ length pos <= i /\ base !! n = None /\ p_default p = None
  | _ => False
  end.
Proof.
  induction l as [|p l IH]; intros l0 named bindings Hnd Ha Hval; cbn [bind_positional]; [by rewrite app_nil_r|].
  pose proof (NoDup_next _ _ _ Hnd) as Hp. assert (named !! p_name p = base !! p_name p) as -> by (rewrite (as_named _ _ _ _ _ Ha); by rewrite decide_False).
  assert ((l0 ++ p :: l) !! length l0 = Some p) as Hl by by apply list_lookup_middle.
  assert (forall v, positional_value pos base (length l0) p = Some v ->
    match bind_positional l (S (length l0)) pos (delete (p_name p) named) (<[p_name p := v]> bindings) with
    | Ok (named', bindings') => Assigned val (l0 ++ p :: l) base named' bindings'
    | Err (DuplicateSupplied n) => exists i p', (l0 ++ p :: l) !! i = Some p' /\ p_name p' = n /\ i < length pos /\ is_Some (base !! n)
    | Err (MissingPositional n) => exists i p', (l0 ++ p :: l) !! i = Some p' /\ p_name p' = n /\ length pos <= i /\ base !! n = None /\ p_default p' = None
    | _ => False
    end) as Hgo.
  { intros v Hv. specialize (IH (l0 ++ [p]) (delete (p_name p) named) (<[p_name p := v]> bindings)).
    rewrite length_app, Nat.add_1_r, <- app_assoc in IH. apply IH; [done| |done]. apply assigned_step; [done|done|]. by rewrite (Hval _ _ Hl). }
  unfold positional_value in Hgo.
  destruct (pos !! length l0) as [v|] eqn:Hpos, (base !! p_name p) as [w|] eqn:Hb; cbn [rbind]; try (by apply Hgo).
  - exists (length l0), p. split_and!; [done|done|by eapply lookup_lt_Some|by eexists].
  - destruct (p_default p) as [d|] eqn:Hd; cbn [rbind]; [by apply Hgo|]. exists (length l0), p. split_and!; [done|done| |done|done]. by apply lookup_ge_None.
Qed.

Lemma bind_named_spec val base l : forall l0 named bindings, NoDup (names_of (l0 ++ l)) -> Assigned val l0 base named bindings ->
  (forall i p, (l0 ++ l) !! i = Some p -> length l0 <= i -> val i p = named_value base p) ->
  match bind_named l named bindings with
  | Ok (named', bindings') => Assigned val (l0 ++ l) base named' bindings'
  | Err (MissingNamed n) => exists p, p ∈ l /\ p_name p = n /\ base !! n = None /\ p_default p = None
  | _ => False
  end.
Proof.
  induction l as [|p l IH]; intros l0 named bindings Hnd Ha Hval; cbn [bind_named]; [by rewrite app_nil_r|].
  pose proof (NoDup_next _ _ _ Hnd) as Hp. assert (named !! p_name p = base !! p_name p) as -> by (rewrite (as_named _ _ _ _ _ Ha); by rewrite decide_False).
  assert ((l0 ++ p :: l) !! length l0 = Some p) as Hl by by apply list_lookup_middle.
  assert (forall v, named_value base p = Some v ->
    match bind_named l (delete (p_name p) named) (<[p_name p := v]> bindings) with
    | Ok (named', bindings') => Assigned val (l0 ++ p :: l) base named' bindings'
    | Err (MissingNamed n) => exists p', p' ∈ p :: l /\ p_name p' = n /\ base !! n = None /\ p_default p' = None
    | _ => False
    end) as Hgo.
  { intros v Hv. specialize (IH (l0 ++ [p]) (delete (p_name p) named) (<[p_name p := v]> bindings)). rewrite <- app_assoc in IH.
    assert (Assigned val (l0 ++ [p]) base (delete (p_name p) named) (<[p_name p := v]> bindings)) as Ha'
      by (apply assigned_step; [done|done|]; by rewrite (Hval _ _ Hl)).
    specialize (IH Hnd Ha' ltac:(intros i q Hq Hi; rewrite length_app in Hi; apply Hval; [done|lia])).
    destruct (bind_named l _ _) as [[? ?]|[]| |]; try done. destruct IH as (p' & Hin & ?). exists p'. split; [by right|done]. }
  unfold named_value in Hgo.
  destruct (base !! p_name p) as [w|] eqn:Hb; cbn [rbind]; [by apply Hgo|].
  destruct (p_default p) as [d|] eqn:Hd; cbn [ok_or rbind]; [by apply Hgo|]. exists p. split; [by left|done].
Qed.

(** ** Refusals are exact *)

Lemma arguments_lookup args pos nam k x : Arguments_are args pos nam -> args !! k = Some x ->
  match x with Positional v => pos !! k = Some v | Named n v => length pos <= k /\ nam !! (k - length pos) = Some (n, v) end.
Proof.
  intros [-> _] Hk. apply lookup_app_Some in Hk as [Hk|[Hge Hk]]; rewrite ?length_fmap in *; apply list_lookup_fmap_Some in Hk as (y & Hx & Hy).
  - by subst x.
  - destruct y as [n v]. by subst x.
Qed.

Lemma arguments_fun args pos nam pos' nam' : Arguments_are args pos nam -> Arguments_are args pos' nam' -> pos' = pos /\ nam' = nam.
Proof.
  intros [-> _] [Heq _]. revert pos' Heq. induction pos as [|v pos IH]; intros [|v' pos'] Heq; simpl in Heq.
  - split; [done|]. revert nam Heq. induction nam' as [|[n v] nam' IH]; intros [|[m w] nam] Heq; try done. simpl in Heq. injection Heq as -> -> Heq. by rewrite (IH nam).
  - by destruct nam as [|[]].
  - by destruct nam' as [|[]].
  - injection Heq as -> Heq. by destruct (IH pos' Heq) as [-> ->].
Qed.

Lemma lookup_split {A} (l1 l2 l3 : list A) x y : (l1 ++ x :: l2 ++ y :: l3) !! length l1 = Some x /\ (l1 ++ x :: l2 ++ y :: l3) !! (length l1 + S (length l2)) = Some y.
Proof.
  split; [by apply list_lookup_middle|]. rewrite lookup_app_r by lia. replace (length l1 + S (length l2) - length l1) with (S (length l2)) by lia.
  simpl. by apply list_lookup_middle.
Qed.

Lemma names_to_map (nam : list (Name * V)) n : (list_to_map nam : BTreeMap Name V) !! n = None <-> n ∉ nam.*1.
Proof. symmetry. apply not_elem_of_list_to_map. Qed.

Lemma refusal_not_bound sig args e b pos nam : call_refusal sig args e -> Bound sig args b pos nam -> False.
Proof.
  intros He [Hdecl Hargs Hpos Hnamed _ [Hrest Hp] [Hrestn Hpn]]. destruct e as [|n|n|n|n|k|names|n|n]; simpl in He.
  - destruct He as (l1 & n & v & l2 & w & l3 & ->). destruct (lookup_split l1 l2 l3 (Named n v) (Positional w)) as [H1 H2].
    pose proof (arguments_lookup _ _ _ _ _ Hargs H1) as [Hle _]. pose proof (arguments_lookup _ _ _ _ _ Hargs H2) as Hlt%lookup_lt_Some. lia.
  - destruct He as (l1 & v & l2 & w & l3 & ->). destruct (lookup_split l1 l2 l3 (Named n v) (Named n w)) as [H1 H2].
    pose proof (arguments_lookup _ _ _ _ _ Hargs H1) as [Hle1 Hn1]. pose proof (arguments_lookup _ _ _ _ _ Hargs H2) as [Hle2 Hn2].
    pose proof (ar_once _ _ _ Hargs) as Hnd. assert (length l1 - length pos = length l1 + S (length l2) - length pos); [|lia].
    eapply (NoDup_lookup _ _ _ n Hnd); rewrite list_lookup_fmap; [by rewrite Hn1|by rewrite Hn2].
  - destruct He as (pos' & nam' & i & p & Ha & Hi & <- & Hlt & Hin). destruct (arguments_fun _ _ _ _ _ Hargs Ha) as [-> ->].
    destruct (Hpos i p Hi) as (v & Hv & _). unfold positional_value in Hv. destruct (lookup_lt_is_Some_2 pos i Hlt) as [w Hw]. rewrite Hw in Hv.
    destruct ((list_to_map nam : BTreeMap Name V) !! p_name p) eqn:Hl; [done|]. by apply names_to_map in Hl.
  - destruct He as (pos' & nam' & i & p & Ha & Hi & <- & Hge & Hin & Hd). destruct (arguments_fun _ _ _ _ _ Hargs Ha) as [-> ->].
    destruct (Hpos i p Hi) as (v & Hv & _). unfold positional_value in Hv. rewrite (lookup_ge_None_2 pos i Hge), (proj2 (names_to_map _ _) Hin) in Hv. congruence.
  - destruct He as (pos' & nam' & p & Ha & Hi & <- & Hin & Hd). destruct (arguments_fun _ _ _ _ _ Hargs Ha) as [-> ->].
    destruct (Hnamed p Hi) as (v & Hv & _). unfold named_value in Hv. rewrite (proj2 (names_to_map _ _) Hin) in Hv. congruence.
  - destruct He as (Hr & Hk & pos' & nam' & Ha & Hl). destruct (arguments_fun _ _ _ _ _ Hargs Ha) as [-> ->].
    rewrite Hr in Hp. specialize (Hp eq_refl). rewrite Hrest in Hp. apply (f_equal length) in Hp. rewrite length_drop in Hp. simpl in Hp. lia.
  - destruct He as (Hr & Hne & _ & pos' & nam' & Ha & Hn). destruct (arguments_fun _ _ _ _ _ Hargs Ha) as [-> ->].
    rewrite Hr in Hpn. specialize (Hpn eq_refl). rewrite Hrestn in Hpn. destruct names as [|n names]; [done|]. destruct (proj1 (Hn n) ltac:(by left)) as [Hin Hnd].
    destruct ((list_to_map nam : BTreeMap Name V) !! n) as [v|] eqn:Hl; [|by apply names_to_map in Hl].
    assert (left_over sig (list_to_map nam) !! n = Some v) as Hlo by (by apply map_lookup_filter_Some). by rewrite Hpn, lookup_empty in Hlo.
  - destruct He as (l1 & l2 & l3 & Heq). rewrite Heq in Hdecl. apply NoDup_app in Hdecl as [Hdecl _]. apply NoDup_app in Hdecl as (_ & _ & [Hn _]%NoDup_cons).
    apply Hn, elem_of_app. right. by left.
  - apply NoDup_app in Hdecl as (_ & Hd & Hv). destruct He as [[Hin Hvn]|[H1 H2]].
    + exact (Hd n Hin Hvn).
    + rewrite H1, H2 in Hv. simpl in Hv. apply NoDup_cons in Hv as [Hv _]. apply Hv. by left.
Qed.

(** The remainders. *)
Lemma bind_rest sig args pos nam bindings :
  let val i p := if decide (i < length (sg_positional sig)) then positional_value pos (list_to_map nam) i p else named_value (list_to_map nam) p in
  NoDup (declared sig ++ variadic_names (sg_positional_remainder sig) ++ variadic_names (sg_named_remainder sig)) -> Arguments_are args pos nam ->
  Assigned val (sg_positional sig ++ sg_named sig) (list_to_map nam) (left_over sig (list_to_map nam)) bindings ->
  let extra := drop (length (sg_positional sig)) pos in let supplied := left_over sig (list_to_map nam) in
  match (if negb (length extra =? 0) && is_prohibited (sg_positional_remainder sig) then Err (UnexpectedPositional (length extra))
    else if negb (length (map_keys supplied) =? 0) && is_prohibited (sg_named_remainder sig) then Err (UnexpectedNamed (map_keys supplied))
    else Ok {| b_bindings := bindings; b_positional := extra; b_named := supplied |}) with
  | Ok b => exists pos nam, Bound sig args b pos nam
  | Err e => call_refusal sig args e
  | _ => False
  end.
Proof.
  intros val Hv Hargs Ha extra supplied.
  destruct (negb (length extra =? 0) && is_prohibited (sg_positional_remainder sig)) eqn:H1.
  { apply andb_prop in H1 as [Hz%negb_true_iff%Nat.eqb_neq Hpr]. split; [by destruct (sg_positional_remainder sig)|]. split; [lia|].
    exists pos, nam. split; [done|]. subst extra. rewrite length_drop in *. lia. }
  destruct (negb (length (map_keys supplied) =? 0) && is_prohibited (sg_named_remainder sig)) eqn:H2.
  { apply andb_prop in H2 as [Hz%negb_true_iff%Nat.eqb_neq Hpr]. split; [by destruct (sg_named_remainder sig)|]. split; [by destruct (map_keys supplied)|].
    split; [apply set_keys_sorted|]. exists pos, nam. split; [done|]. intros n. rewrite elem_of_map_keys. split.
    - intros [v [Hl Hn]%map_lookup_filter_Some]. split; [|done]. apply elem_of_list_to_map_2 in Hl. by apply (list_elem_of_fmap_2 fst) in Hl.
    - intros [Hin Hn]. destruct ((list_to_map nam : BTreeMap Name V) !! n) as [v|] eqn:Hl; [|by apply names_to_map in Hl].
      exists v. by apply map_lookup_filter_Some. }
  exists pos, nam. apply andb_false_iff in H1, H2. split; [done|done|..]; cbn [b_bindings b_positional b_named].
  - intros i p Hi. destruct (as_value _ _ _ _ _ Ha i p) as (v & Hval & Hb); [by apply lookup_app_l_Some|]. exists v. split; [|done].
    subst val. simpl in Hval. by rewrite decide_True in Hval by (by eapply lookup_lt_Some).
  - intros p [i Hi]%list_elem_of_lookup. destruct (as_value _ _ _ _ _ Ha (length (sg_positional sig) + i) p) as (v & Hval & Hb).
    { rewrite lookup_app_r by lia. by replace (length (sg_positional sig) + i - length (sg_positional sig)) with i by lia. }
    exists v. split; [|done]. subst val. simpl in Hval. by rewrite decide_False in Hval by lia.
  - apply (as_only _ _ _ _ _ Ha).
  - split; [done|]. intros Hpr. destruct H1 as [Hz%negb_false_iff%Nat.eqb_eq|Hf]; [by apply nil_length_inv|congruence].
  - split; [done|]. intros Hpr. destruct H2 as [Hz%negb_false_iff%Nat.eqb_eq|Hf]; [|congruence].
    apply map_eq. intros n. rewrite lookup_empty. destruct (supplied !! n) as [v|] eqn:Hl; [|done].
    assert (n ∈ map_keys supplied) as Hin by (apply elem_of_map_keys; by exists v). apply nil_length_inv in Hz. rewrite Hz in Hin. by apply elem_of_nil in Hin.
Qed.

Lemma bind_facts sig args :
  match bind sig args with
  | Ok b => exists pos nam, Bound sig args b pos nam
  | Err e => call_refusal sig args e
  | _ => False
  end.
Proof.
  unfold bind. pose proof (validate_spec sig) as Hv. destruct (validate sig) as [[]|e| |]; cbn [rbind]; [| |done..]; cycle 1.
  { destruct Hv as [Hr He]. by destruct e. }
  pose proof (partition_spec args [] [] [] ∅ false) as Hp. specialize (Hp ltac:(split; [split; [done|constructor]| |done]; intros n v; split; [by intros ?%lookup_empty_Some|by intros ?%elem_of_nil])).
  cbn [app] in Hp. destruct (partition_arguments args [] ∅ false) as [[pos base]|e| |]; cbn [rbind]; [|by apply Hp|done..].
  destruct Hp as (nam & Hargs & Hbase).
  assert (base = list_to_map nam) as ->.
  { apply map_eq. intros n. apply option_eq. intros v. rewrite Hbase. apply elem_of_list_to_map, (ar_once _ _ _ Hargs). }
  set (val := fun i p => if decide (i < length (sg_positional sig)) then positional_value pos (list_to_map nam) i p else named_value (list_to_map nam) p).
  pose proof Hv as [Hnd _]%NoDup_app. unfold declared in Hnd.
  assert (NoDup (names_of (sg_positional sig))) as Hnd1 by (unfold names_of in *; rewrite fmap_app in Hnd; by apply NoDup_app in Hnd as [? _]).
  pose proof (bind_positional_spec val pos (list_to_map nam) (sg_positional sig) [] (list_to_map nam) ∅) as H1. cbn [app length] in H1.
  specialize (H1 Hnd1 ltac:(by split) ltac:(intros i p Hi; unfold val; by rewrite decide_True by (by eapply lookup_lt_Some))).
  assert (forall n, (list_to_map nam : BTreeMap Name V) !! n = None -> n ∉ nam.*1) as Hnot by (intros n; apply names_to_map).
  destruct (bind_positional _ _ _ _ _) as [[named1 bindings1]|e| |]; cbn [rbind]; [| |done..]; cycle 1.
  { destruct e as [|n|n|n|n|k|l|n|n]; try done.
    - destruct H1 as (i & p & Hi & Hn & Hlt & [v Hs]). exists pos, nam, i, p. split_and!; [done..|].
      apply elem_of_list_to_map_2 in Hs. by apply (list_elem_of_fmap_2 fst) in Hs.
    - destruct H1 as (i & p & Hi & Hn & Hge & Hs & Hd). exists pos, nam, i, p. split_and!; auto. }
  pose proof (bind_named_spec val (list_to_map nam) (sg_named sig) (sg_positional sig) named1 bindings1 Hnd H1) as H2.
  specialize (H2 ltac:(intros i p _ Hi; unfold val; by rewrite decide_False by lia)).
  destruct (bind_named _ _ _) as [[supplied bindings]|e| |]; cbn [rbind]; [| |done..]; cycle 1.
  { destruct e as [|n|n|n|n|k|l|n|n]; try done. destruct H2 as (p & Hp & Hn & Hs & Hd). exists pos, nam, p. split_and!; auto. }
  assert (supplied = left_over sig (list_to_map nam)) as ->.
  { apply map_eq. intros n. rewrite (as_named _ _ _ _ _ H2). unfold left_over. fold (declared sig). apply option_eq. intros v.
    rewrite map_lookup_filter_Some. simpl. case_decide; naive_solver. }
  by apply (bind_rest sig args pos nam bindings).
Qed.

(** A call is bound exactly when the parameters and remainders have different
    names, the positional arguments come before the named ones, no name is given
    twice, every positional parameter has its value by position, by name or by
    default but not by both, every named one by name or by default, and only
    variadic remainders take what is left over; the bindings, and what is left
    over, are then exactly these.  A refusal names a fault that the call has. *)
Theorem bind_spec sig args :
  match bind sig args with
  | Ok b => exists pos nam, Bound sig args b pos nam
  | Err e => call_refusal sig args e /\ forall b pos nam, ~ Bound sig args b pos nam
  | _ => False
  end.
Proof.
  pose proof (bind_facts sig args) as Hf. destruct (bind sig args) as [b|e| |]; [done| |done..].
  split; [done|]. intros b pos nam Hb. exact (refusal_not_bound _ _ _ _ _ _ Hf Hb).
Qed.

(** What a variadic remainder collects is not bound under its declared name. *)
Theorem variadic_not_bound sig args b n : bind sig args = Ok b ->
  n ∈ variadic_names (sg_positional_remainder sig) ++ variadic_names (sg_named_remainder sig) -> b_bindings b !! n = None.
Proof.
  intros Hb Hn. pose proof (bind_facts sig args) as Hf. rewrite Hb in Hf. destruct Hf as (pos & nam & Hbound).
  apply (bo_only _ _ _ _ _ Hbound). intros Hin. pose proof (bo_declared _ _ _ _ _ Hbound) as (_ & Hd & _)%NoDup_app. exact (Hd n Hin Hn).
Qed.
End Call.
