(* ===== verification/Namespace.v ===== *)
(** * Namespaces and module identities

    crates/sim-lib-namespace/src/namespace.rs and specifier.rs, and the
    resolution of specifiers of module.rs.  A namespace holds bindings, exported
    names and diagnostics; a module request is resolved to an identity, a root
    with a normalized path.

    [namespace_history]: exports are always bound, and a name is rebound only by
    an import that allows shadowing.  [canonical_identity_spec]: an identity
    never leaves its root, its path is normalized, and a refusal says why. *)

From stdpp Require Import relations.
From S2P Require Import Prelude BTree.

(** ** Namespaces *)

Section Namespaces.
Context {Sym : Type} `{OrdKey Sym}.

Inductive NamespaceKind := Package | Module_.

Inductive NamespaceBindingSource :=
| Local_
| Import_ (namespace exported : Sym).

Record NamespaceEntry := {
  ne_name : Sym;
  ne_target : Sym;
  ne_source : NamespaceBindingSource;
}.

Definition imported_as (e : NamespaceEntry) (alias namespace exported : Sym) : NamespaceEntry :=
  {| ne_name := alias; ne_target := ne_target e; ne_source := Import_ namespace exported |}.

Record ImportOptions := {
  io_rename : option Sym;
  io_allow_shadow : bool;
}.

(** A diagnostic: the namespace and the name in conflict. *)
Record Namespace := {
  ns_symbol : Sym;
  ns_kind : NamespaceKind;
  ns_bindings : BTreeMap Sym NamespaceEntry;
  ns_exports : BTreeSet Sym;
  ns_diagnostics : list (Sym * Sym);
}.

Inductive NamespaceError :=
| UnknownSymbol (name : Sym)
| ShadowConflict (namespace name : Sym).

Implicit Types (ns src : Namespace) (name target : Sym).

Definition new_namespace (symbol : Sym) (kind : NamespaceKind) : Namespace :=
  {| ns_symbol := symbol; ns_kind := kind; ns_bindings := ∅; ns_exports := ∅; ns_diagnostics := [] |}.

Definition insert_binding ns name (entry : NamespaceEntry) (allow_shadow : bool) : Res NamespaceError unit * Namespace :=
  match ns_bindings ns !! name, allow_shadow with
  | Some _, false => (Err (ShadowConflict (ns_symbol ns) name),
      {| ns_symbol := ns_symbol ns; ns_kind := ns_kind ns; ns_bindings := ns_bindings ns; ns_exports := ns_exports ns;
         ns_diagnostics := ns_diagnostics ns ++ [(ns_symbol ns, name)] |})
  | _, _ => (Ok (),
      {| ns_symbol := ns_symbol ns; ns_kind := ns_kind ns; ns_bindings := <[name := entry]> (ns_bindings ns); ns_exports := ns_exports ns;
         ns_diagnostics := ns_diagnostics ns |})
  end.

Definition define ns name target : Res NamespaceError unit * Namespace :=
  insert_binding ns name {| ne_name := name; ne_target := target; ne_source := Local_ |} false.

Definition export ns name : Res NamespaceError unit * Namespace :=
  match ns_bindings ns !! name with
  | None => (Err (UnknownSymbol name), ns)
  | Some _ => (Ok (),
      {| ns_symbol := ns_symbol ns; ns_kind := ns_kind ns; ns_bindings := ns_bindings ns; ns_exports := {[name]} ∪ ns_exports ns;
         ns_diagnostics := ns_diagnostics ns |})
  end.

Definition resolve ns name : option NamespaceEntry := ns_bindings ns !! name.

Definition exported_entry ns name : Res NamespaceError NamespaceEntry :=
  if decide (name ∈ ns_exports ns) then ok_or (UnknownSymbol name) (ns_bindings ns !! name) else Err (UnknownSymbol name).

Definition import_from ns src (exported : Sym) (options : ImportOptions) : Res NamespaceError unit * Namespace :=
  match exported_entry src exported with
  | Ok entry =>
    let alias := default exported (io_rename options) in
    insert_binding ns alias (imported_as entry alias (ns_symbol src) exported) (io_allow_shadow options)
  | Err e => (Err e, ns)
  | Panic => (Panic, ns)
  | NoFuel => (NoFuel, ns)
  end.

(** *** Histories *)

(** One operation on a namespace; imports come from any namespace of the same
    kind of history. *)
Inductive ns_step : Namespace -> Namespace -> Prop :=
| step_define ns name target : ns_step ns (define ns name target).2
| step_export ns name : ns_step ns (export ns name).2
| step_import ns src exported options : ns_step ns (import_from ns src exported options).2.

Record NamespaceOk ns : Prop := {
  no_exports : forall name, name ∈ ns_exports ns -> is_Some (ns_bindings ns !! name);
  no_names : forall name e, ns_bindings ns !! name = Some e -> ne_name e = name;
}.

(** What an operation keeps. *)
Record NamespaceKept ns ns' : Prop := {
  nk_symbol : ns_symbol ns' = ns_symbol ns;
  nk_bound : forall name, is_Some (ns_bindings ns !! name) -> is_Some (ns_bindings ns' !! name);
  nk_exports : ns_exports ns ⊆ ns_exports ns';
  nk_diagnostics : exists l, ns_diagnostics ns' = ns_diagnostics ns ++ l;
}.

Lemma insert_binding_facts ns name entry shadow :
  match insert_binding ns name entry shadow with
  | (Ok _, ns') => ns_bindings ns' = <[name := entry]> (ns_bindings ns) /\ ns_exports ns' = ns_exports ns /\ ns_diagnostics ns' = ns_diagnostics ns /\
      ns_symbol ns' = ns_symbol ns /\ (shadow = true \/ ns_bindings ns !! name = None)
  | (Err e, ns') => e = ShadowConflict (ns_symbol ns) name /\ shadow = false /\ is_Some (ns_bindings ns !! name) /\
      ns_bindings ns' = ns_bindings ns /\ ns_exports ns' = ns_exports ns /\ ns_diagnostics ns' = ns_diagnostics ns ++ [(ns_symbol ns, name)] /\ ns_symbol ns' = ns_symbol ns
  | _ => False
  end.
Proof. unfold insert_binding. destruct (ns_bindings ns !! name) eqn:Hb, shadow; simpl; naive_solver. Qed.

Lemma insert_binding_ok ns name entry shadow : ne_name entry = name -> NamespaceOk ns ->
  NamespaceOk (insert_binding ns name entry shadow).2 /\ NamespaceKept ns (insert_binding ns name entry shadow).2.
Proof.
  intros Hn [He Hm]. pose proof (insert_binding_facts ns name entry shadow) as Hf.
  destruct (insert_binding ns name entry shadow) as [[[]|e| |] ns']; [| |done..]; simpl.
  - destruct Hf as (Hb & Hx & Hd & Hs & _). split; split.
    + intros x. rewrite Hx, Hb. intros Hin%He. rewrite lookup_insert_is_Some'. by right.
    + intros x e. rewrite Hb. intros [[-> ->]|[_ ?]]%lookup_insert_Some; auto.
    + done.
    + intros x Hin. rewrite Hb, lookup_insert_is_Some'. by right.
    + by rewrite Hx.
    + exists []. by rewrite Hd, app_nil_r.
  - destruct Hf as (_ & _ & _ & Hb & Hx & Hd & Hs). split; split; rewrite ?Hb, ?Hx; try done; auto. by eexists.
Qed.

Lemma ns_step_ok ns ns' : ns_step ns ns' -> NamespaceOk ns -> NamespaceOk ns' /\ NamespaceKept ns ns'.
Proof.
  intros [n name target|n name|n src exported options] Hok.
  - by apply insert_binding_ok.
  - unfold export. destruct (ns_bindings n !! name) eqn:Hb; simpl; (split; [|split; [done|done|set_solver|exists []; by rewrite app_nil_r]]); [|done].
    split; simpl; [|apply Hok]. intros x [->%elem_of_singleton|Hx]%elem_of_union; [by rewrite Hb|by apply Hok].
  - unfold import_from. destruct (exported_entry src exported) as [e|e| |]; simpl;
      try (split; [done|]; split; [done|done|done|exists []; by rewrite app_nil_r]). by apply insert_binding_ok.
Qed.

Lemma ns_steps_ok ns ns' : rtc ns_step ns ns' -> NamespaceOk ns -> NamespaceOk ns' /\ NamespaceKept ns ns'.
Proof.
  induction 1 as [n|n1 n2 n3 Hst _ IH]; intros Hok; [split; [done|]; split; [done|done|done|exists []; by rewrite app_nil_r]|].
  destruct (ns_step_ok _ _ Hst Hok) as [Hok2 [K1 K2 K3 [l1 K4]]]. destruct (IH Hok2) as [Hok3 [L1 L2 L3 [l2 L4]]]. split; [done|].
  split; [congruence|auto|set_solver|]. exists (l1 ++ l2). by rewrite L4, K4, app_assoc.
Qed.

(** Over any history of namespaces, exported names are bound.  An import
    succeeds exactly for an exported name whose alias is free or may be shadowed;
    it then binds the alias, and only it, to the target of the source with its
    origin; a refused import changes no binding. *)
Theorem namespace_history symbol kind symbol' kind' ns src exported options :
  rtc ns_step (new_namespace symbol kind) ns -> rtc ns_step (new_namespace symbol' kind') src ->
  (forall name, name ∈ ns_exports ns -> is_Some (resolve ns name)) /\
  let alias := default exported (io_rename options) in
  match import_from ns src exported options with
  | (Ok _, ns') => exists e, exported ∈ ns_exports src /\ resolve src exported = Some e /\
      resolve ns' alias = Some {| ne_name := alias; ne_target := ne_target e; ne_source := Import_ (ns_symbol src) exported |} /\
      (forall name, name <> alias -> resolve ns' name = resolve ns name) /\ (io_allow_shadow options = true \/ resolve ns alias = None)
  | (Err (UnknownSymbol name), ns') => name = exported /\ exported ∉ ns_exports src /\ ns' = ns
  | (Err (ShadowConflict _ name), ns') => name = alias /\ io_allow_shadow options = false /\ is_Some (resolve ns alias) /\
      (forall name, resolve ns' name = resolve ns name) /\ ns_diagnostics ns' = ns_diagnostics ns ++ [(ns_symbol ns, alias)]
  | _ => False
  end.
Proof.
  assert (forall s k, NamespaceOk (new_namespace s k)) as H0 by (intros s k; split; [by intros ? ?%elem_of_empty|intros ? ? Hl; by destruct (lookup_empty_Some _ _ Hl)]).
  intros Hns Hsrc. destruct (ns_steps_ok _ _ Hns (H0 _ _)) as [Hok _]. destruct (ns_steps_ok _ _ Hsrc (H0 _ _)) as [Hoks _].
  split; [apply Hok|]. intros alias. unfold import_from, exported_entry. case_decide as He; [|done].
  destruct (no_exports _ Hoks _ He) as [e Hb]. rewrite Hb. cbn [ok_or]. fold alias.
  pose proof (insert_binding_facts ns alias (imported_as e alias (ns_symbol src) exported) (io_allow_shadow options)) as Hf.
  destruct (insert_binding _ _ _ _) as [[[]|err| |] ns']; [| |done..]; unfold resolve.
  - destruct Hf as (Hb' & _ & _ & _ & Hsh). exists e. split_and!; [done|done|by rewrite Hb', lookup_insert_eq| |done].
    intros name Hne. by rewrite Hb', lookup_insert_ne.
  - destruct Hf as (-> & Hsh & Hbound & Hb' & _ & Hd & _). split_and!; [done|done|done|by rewrite Hb'|done].
Qed.
End Namespaces.

(** ** Specifiers *)

Abbreviation Str := (list N).

Definition slash : N := 47.
Definition dot : N := 46.
Definition backslash : N := 92.

Definition max_specifier_candidates : nat := 16.
Definition max_specifier_bytes : N := 4096.

Inductive SpecifierRefusalCode := NoCandidates | TooManyCandidates | CandidateTooLong | IdentityRequiresOneCandidate | PolicyRefused.

Record ModuleIdentity (Sym : Type) := {
  mi_root : Sym;
  mi_path : Str;
}.
Arguments mi_root {Sym}.
Arguments mi_path {Sym}.

#[export] Instance ModuleIdentity_eq_dec {Sym} `{EqDecision Sym} : EqDecision (ModuleIdentity Sym).
Proof. solve_decision. Defined.

#[export] Instance ModuleIdentity_countable {Sym} `{Countable Sym} : Countable (ModuleIdentity Sym).
Proof.
  apply (inj_countable' (fun i => (mi_root i, mi_path i)) (fun '(r, p) => {| mi_root := r; mi_path := p |})). by intros [].
Defined.

Section Specifiers.
Context {Sym : Type} `{EqDecision Sym}.

Record SpecifierPolicyRequest := {
  sp_importer : option (ModuleIdentity Sym);
  sp_candidates : list Str;
}.

Definition new_policy_request (importer : option (ModuleIdentity Sym)) (candidates : list Str) : Res SpecifierRefusalCode SpecifierPolicyRequest :=
  if length candidates =? 0 then Err NoCandidates
  else if max_specifier_candidates <? length candidates then Err TooManyCandidates
  else if existsb (fun c => max_specifier_bytes <? byte_length c)%N candidates then Err CandidateTooLong
  else Ok {| sp_importer := importer; sp_candidates := candidates |}.

Definition new_normalized (text : Str) : Res SpecifierRefusalCode Str :=
  if (max_specifier_bytes <? byte_length text)%N then Err CandidateTooLong else Ok text.

(** [ModuleSpecifierPolicy]. *)
Class ModuleSpecifierPolicy := { policy_resolve : SpecifierPolicyRequest -> Res SpecifierRefusalCode Str }.

(** [IdentitySpecifierPolicy]. *)
Definition identity_policy : ModuleSpecifierPolicy := {|
  policy_resolve r :=
    match sp_candidates r with
    | [c] => new_normalized c
    | _ => Err IdentityRequiresOneCandidate
    end
|}.

(** [str::split] and [join]. *)
Fixpoint split (sep : N) (s : Str) : list Str :=
  match s with
  | [] => [[]]
  | c :: s =>
    if (c =? sep)%N then [] :: split sep s
    else match split sep s with
      | [] => [[c]]
      | part :: parts => (c :: part) :: parts
      end
  end.

Fixpoint join (sep : N) (parts : list Str) : Str :=
  match parts with
  | [] => []
  | [part] => part
  | part :: parts => part ++ sep :: join sep parts
  end.

Inductive IdentityError :=
| RefusedByPolicy (code : SpecifierRefusalCode)
| AbsoluteSpecifier
| NoImporter
| CrossesRoots
| EscapesRoot
| ForeignSeparator
| EmptyPath.

(** The loop over the components; the path so far is kept last component first. *)
Fixpoint resolve_parts (components : list Str) (parts : list Str) : Res IdentityError (list Str) :=
  match components with
  | [] => Ok parts
  | part :: components =>
    if decide (part = [] \/ part = [dot]) then resolve_parts components parts
    else if decide (part = [dot; dot]) then
      match parts with [] => Err EscapesRoot | _ :: parts => resolve_parts components parts end
    else if decide (backslash ∈ part) then Err ForeignSeparator
    else resolve_parts components (part :: parts)
  end.

Definition starts_with (c : N) (s : Str) : bool := match s with d :: _ => (d =? c)%N | [] => false end.

(** The directory that a relative request starts in, last component first. *)
Definition base_of (root_id : Sym) (importer : option (ModuleIdentity Sym)) (specifier : Str) : Res IdentityError (list Str) :=
  if starts_with dot specifier then
    let? i := ok_or NoImporter importer in
    if decide (mi_root i = root_id) then Ok (tail (reverse (split slash (mi_path i)))) else Err CrossesRoots
  else Ok [].

Definition canonical_identity (policy : ModuleSpecifierPolicy) (root_id : Sym) (importer : option (ModuleIdentity Sym)) (specifier : Str)
    : Res IdentityError (ModuleIdentity Sym) :=
  let? request := map_err RefusedByPolicy (new_policy_request importer [specifier]) in
  let? specifier := map_err RefusedByPolicy (policy_resolve request) in
  if starts_with slash specifier then Err AbsoluteSpecifier
  else
    let? base := base_of root_id importer specifier in
    let? parts := resolve_parts (split slash specifier) base in
    match parts with
    | [] => Err EmptyPath
    | _ => Ok {| mi_root := root_id; mi_path := join slash (reverse parts) |}
    end.

(** ** Normalized paths *)

(** A component of a normalized path. *)
Definition clean (part : Str) : Prop := part <> [] /\ part <> [dot] /\ part <> [dot; dot] /\ slash ∉ part /\ backslash ∉ part.

(** A normalized path, by its components. *)
Definition normalized (path : Str) (parts : list Str) : Prop := parts <> [] /\ Forall clean parts /\ path = join slash parts.

Lemma split_not_nil s : split slash s <> [].
Proof. destruct s as [|c s]; simpl; [done|]. destruct (_ =? _)%N; [done|]. by destruct (split slash s). Qed.

Lemma split_no_slash part : slash ∉ part -> split slash part = [part].
Proof.
  induction part as [|c part IH]; intros Hn; [done|]. simpl. apply not_elem_of_cons in Hn as [Hc Hn].
  destruct (N.eqb_spec c slash) as [->|_]; [done|]. by rewrite IH.
Qed.

Lemma split_app part s : slash ∉ part -> split slash (part ++ slash :: s) = part :: split slash s.
Proof.
  induction part as [|c part IH]; intros Hn; [done|]. simpl. apply not_elem_of_cons in Hn as [Hc Hn].
  destruct (N.eqb_spec c slash) as [->|_]; [done|]. by rewrite IH.
Qed.

(** Splitting gives back joined components. *)
Lemma split_join parts : parts <> [] -> Forall (fun part => slash ∉ part) parts -> split slash (join slash parts) = parts.
Proof.
  intros Hne Hf. induction Hf as [|part parts Hp Hf IH]; [done|]. destruct parts as [|part' parts]; [by apply split_no_slash|].
  change (join slash (part :: part' :: parts)) with (part ++ slash :: join slash (part' :: parts)). rewrite split_app by done. by rewrite IH.
Qed.

Lemma split_parts_no_slash s : Forall (fun part => slash ∉ part) (split slash s).
Proof.
  induction s as [|c s IH]; simpl; [repeat constructor; by intros ?%elem_of_nil|].
  destruct (N.eqb_spec c slash) as [->|Hc]; [constructor; [by intros ?%elem_of_nil|done]|].
  destruct (split slash s) as [|part parts]; [constructor; [|done]; intros Hin%list_elem_of_singleton; congruence|].
  inversion IH as [|? ? Hp Hps]; subst. constructor; [|done]. by apply not_elem_of_cons.
Qed.

(** ** What resolving does *)

Definition is_name (part : Str) : bool := bool_decide (part <> [] /\ part <> [dot] /\ part <> [dot; dot]).

(** How far the components go down, and how far up. *)
Definition downs (components : list Str) : nat := length (filter (fun part => is_name part = true) components).

Definition ups (components : list Str) : nat := length (filter (fun part => part = [dot; dot]) components).

(** The components leave the directory [depth] levels down. *)
Definition leaves (depth : nat) (components : list Str) : Prop := exists k, depth + downs (take k components) < ups (take k components).

Lemma downs_cons part components : downs (part :: components) = (if is_name part then 1 else 0) + downs components.
Proof. unfold downs. rewrite filter_cons. by destruct (is_name part). Qed.

Lemma ups_cons part components : ups (part :: components) = (if decide (part = [dot; dot]) then 1 else 0) + ups components.
Proof. unfold ups. rewrite filter_cons. by case_decide. Qed.

Lemma leaves_cons depth part components : leaves depth (part :: components) <->
  exists k, depth + (if is_name part then 1 else 0) + downs (take k components) < (if decide (part = [dot; dot]) then 1 else 0) + ups (take k components).
Proof.
  split.
  - intros [[|k] Hk]; [unfold downs, ups in Hk; simpl in Hk; lia|]. cbn [take] in Hk. rewrite downs_cons, ups_cons in Hk. exists k. lia.
  - intros [k Hk]. exists (S k). cbn [take]. rewrite downs_cons, ups_cons. lia.
Qed.

Lemma resolve_parts_spec components : forall parts, Forall (fun part => slash ∉ part) components ->
  match resolve_parts components parts with
  | Ok parts' => (Forall clean parts -> Forall clean parts') /\ ~ leaves (length parts) components /\
      length parts' + ups components = length parts + downs components
  | Err EscapesRoot => leaves (length parts) components
  | Err ForeignSeparator => exists part, part ∈ components /\ backslash ∈ part
  | _ => False
  end.
Proof.
  induction components as [|part components IH]; intros parts Hs; cbn [resolve_parts].
  { split; [done|]. split; [|done]. intros [k Hk]. rewrite take_nil in Hk. unfold downs, ups in Hk. simpl in Hk. lia. }
  apply Forall_cons in Hs as [Hp Hs]. rewrite downs_cons, ups_cons. pose proof (leaves_cons (length parts) part components) as Hlc.
  destruct (decide (part = [] \/ part = [dot])) as [Hskip|Hskip].
  { assert (is_name part = false) as Hn by (apply bool_decide_eq_false; naive_solver). rewrite Hn in *.
    destruct (decide (part = [dot; dot])) as [->|_]; [naive_solver|].
    specialize (IH parts Hs). destruct (resolve_parts components parts) as [parts'|[]| |]; try done.
    - destruct IH as (H1 & H2 & H3). split; [done|]. split; [|lia]. rewrite Hlc. intros [k Hk]. apply H2. exists k. lia.
    - destruct IH as [k Hk]. apply Hlc. exists k. lia.
    - destruct IH as (q & Hq & ?). exists q. split; [by right|done]. }
  destruct (decide (part = [dot; dot])) as [Hup|Hup].
  { subst part. change (is_name [dot; dot]) with false in *. destruct parts as [|p parts]; [apply Hlc; exists 0; unfold downs, ups; simpl; lia|].
    specialize (IH parts Hs). destruct (resolve_parts components parts) as [parts'|[]| |]; try done; cbn [length] in *.
    - destruct IH as (H1 & H2 & H3). split; [intros [_ ?]%Forall_cons; auto|]. split; [|lia]. rewrite Hlc. intros [k Hk]. apply H2. exists k. lia.
    - destruct IH as [k Hk]. apply Hlc. exists k. lia.
    - destruct IH as (q & Hq & ?). exists q. split; [by right|done]. }
  destruct (decide (backslash ∈ part)) as [Hback|Hback]; [exists part; split; [by left|done]|].
  assert (is_name part = true) as Hn by (apply bool_decide_eq_true; naive_solver). rewrite Hn in *.
  specialize (IH (part :: parts) Hs). destruct (resolve_parts components (part :: parts)) as [parts'|[]| |]; try done; cbn [length] in IH.
  - destruct IH as (H1 & H2 & H3). split; [intros Hc; apply H1; constructor; [|done]; unfold clean; naive_solver|]. split; [|lia].
    rewrite Hlc. intros [k Hk]. apply H2. exists k. lia.
  - destruct IH as [k Hk]. apply Hlc. exists k. lia.
  - destruct IH as (q & Hq & ?). exists q. split; [by right|done].
Qed.

(** The text that is resolved. *)
Definition requested (policy : ModuleSpecifierPolicy) (importer : option (ModuleIdentity Sym)) (specifier : Str) : Res SpecifierRefusalCode Str :=
  let? request := new_policy_request importer [specifier] in policy_resolve request.

(** How deep in its root a request starts. *)
Definition start_depth (importer : option (ModuleIdentity Sym)) (text : Str) : nat :=
  if starts_with dot text then match importer with Some i => pred (length (split slash (mi_path i))) | None => 0 end else 0.

Definition is_canonical (i : ModuleIdentity Sym) : Prop := exists parts, normalized (mi_path i) parts.

Lemma clean_no_slash parts : Forall clean parts -> Forall (fun part => slash ∉ part) parts.
Proof. intros Hf. eapply Forall_impl; [exact Hf|]. by intros part (_ & _ & _ & ? & _). Qed.

Lemma base_of_spec root importer text : (forall i, importer = Some i -> is_canonical i) ->
  match base_of root importer text with
  | Ok base => Forall clean base /\ length base = start_depth importer text
  | Err NoImporter => starts_with dot text = true /\ importer = None
  | Err CrossesRoots => starts_with dot text = true /\ exists i, importer = Some i /\ mi_root i <> root
  | _ => False
  end.
Proof.
  intros Hi. unfold base_of, start_depth. destruct (starts_with dot text); [|done]. destruct importer as [i|]; cbn [ok_or rbind]; [|done].
  case_decide; [|by split; [|exists i]]. destruct (Hi i eq_refl) as (parts & Hne & Hc & ->). rewrite split_join by eauto using clean_no_slash. split.
  - assert (Forall clean (reverse parts)) as Hr by by apply Forall_reverse. by destruct Hr.
  - rewrite <- (length_reverse parts). by destruct (reverse parts).
Qed.

(** Resolving clean components appends them. *)
Lemma resolve_clean parts : forall acc, Forall clean parts -> resolve_parts parts acc = Ok (reverse parts ++ acc).
Proof.
  induction parts as [|part parts IH]; intros acc Hc; [done|]. apply Forall_cons in Hc as [(H1 & H2 & H3 & _ & H5) Hc]. cbn [resolve_parts].
  rewrite decide_False by naive_solver. rewrite decide_False by done. rewrite decide_False by done. rewrite IH by done.
  by rewrite reverse_cons, <- app_assoc.
Qed.

Lemma canonical_facts policy root importer specifier text : (forall i, importer = Some i -> is_canonical i) ->
  requested policy importer specifier = Ok text ->
  match canonical_identity policy root importer specifier with
  | Ok id => mi_root id = root /\ is_canonical id /\ ~ leaves (start_depth importer text) (split slash text) /\
      length (split slash (mi_path id)) + ups (split slash text) = start_depth importer text + downs (split slash text)
  | Err AbsoluteSpecifier => starts_with slash text = true
  | Err NoImporter => starts_with dot text = true /\ importer = None
  | Err CrossesRoots => starts_with dot text = true /\ exists i, importer = Some i /\ mi_root i <> root
  | Err EscapesRoot => leaves (start_depth importer text) (split slash text)
  | Err ForeignSeparator => backslash ∈ text
  | Err EmptyPath => ups (split slash text) = start_depth importer text + downs (split slash text)
  | _ => False
  end.
Proof.
  intros Hi Hreq. unfold requested in Hreq. unfold canonical_identity. destruct (new_policy_request importer [specifier]) as [r| | |]; [|done..].
  cbn [rbind map_err] in *. rewrite Hreq. cbn [map_err rbind]. destruct (starts_with slash text); [done|].
  pose proof (base_of_spec root importer text Hi) as Hb. destruct (base_of root importer text) as [base|[]| |]; try done. cbn [rbind].
  destruct Hb as [Hcb Hlb]. pose proof (resolve_parts_spec (split slash text) base (split_parts_no_slash text)) as Hr. rewrite Hlb in Hr.
  destruct (resolve_parts (split slash text) base) as [parts|e| |]; cbn [rbind]; [| |done..].
  - destruct Hr as (Hc & Hl & Hlen). specialize (Hc Hcb). destruct parts as [|part parts]; [simpl in Hlen; lia|].
    assert (Forall clean (reverse (part :: parts))) as Hcr by by apply Forall_reverse.
    assert (reverse (part :: parts) <> []) as Hne by (rewrite reverse_cons; by destruct (reverse parts)).
    split; [done|]. split; [by exists (reverse (part :: parts))|]. split; [done|]. cbn [mi_path].
    rewrite split_join by eauto using clean_no_slash. by rewrite length_reverse.
  - destruct e; try done. destruct Hr as (part & Hin & Hb).
    clear -Hin Hb. revert part Hin Hb. induction text as [|c text IH]; intros part Hin Hb; simpl in Hin.
    + apply list_elem_of_singleton in Hin as ->. by apply elem_of_nil in Hb.
    + destruct (c =? slash)%N.
      * apply elem_of_cons in Hin as [->|Hin]; [by apply elem_of_nil in Hb|]. right. by eapply IH.
      * destruct (split slash text) as [|p ps].
        -- apply list_elem_of_singleton in Hin as ->. apply list_elem_of_singleton in Hb as ->. by left.
        -- apply elem_of_cons in Hin as [->|Hin]; [|right; eapply IH; [by right|done]].
           apply elem_of_cons in Hb as [->|Hb]; [by left|]. right. eapply IH; [by left|done].
Qed.

(** A module request from a canonical importer is resolved to an identity in
    the requested root, never above it, with a normalized path whose depth is
    that of the start and the steps down less the steps up; the path of an
    identity resolves to the same identity again when it is not taken for a
    relative one; and a refusal says truly why. *)
Theorem canonical_identity_spec policy root importer specifier text : (forall i, importer = Some i -> is_canonical i) ->
  requested policy importer specifier = Ok text ->
  match canonical_identity policy root importer specifier with
  | Ok id => mi_root id = root /\ is_canonical id /\ ~ leaves (start_depth importer text) (split slash text) /\
      length (split slash (mi_path id)) + ups (split slash text) = start_depth importer text + downs (split slash text) /\
      forall importer', starts_with dot (mi_path id) = false -> (byte_length (mi_path id) <= max_specifier_bytes)%N ->
        canonical_identity identity_policy root importer' (mi_path id) = Ok id
  | Err AbsoluteSpecifier => starts_with slash text = true
  | Err NoImporter => starts_with dot text = true /\ importer = None
  | Err CrossesRoots => starts_with dot text = true /\ exists i, importer = Some i /\ mi_root i <> root
  | Err EscapesRoot => leaves (start_depth importer text) (split slash text)
  | Err ForeignSeparator => backslash ∈ text
  | Err EmptyPath => ups (split slash text) = start_depth importer text + downs (split slash text)
  | _ => False
  end.
Proof.
  intros Hi Hreq. pose proof (canonical_facts policy root importer specifier text Hi Hreq) as Hf.
  destruct (canonical_identity policy root importer specifier) as [id|e| |]; [|done..].
  destruct Hf as (Hr & Hc & Hl & Hlen). split_and!; [done..|]. intros importer' Hdot Hbytes.
  destruct Hc as (parts & Hne & Hcl & Hp). destruct id as [r path]. cbn [mi_root mi_path] in *. subst r path.
  apply N.ltb_ge in Hbytes. unfold canonical_identity, new_policy_request. cbn [length Nat.eqb existsb max_specifier_candidates Nat.ltb Nat.leb].
  rewrite Hbytes. cbn [orb map_err rbind policy_resolve identity_policy sp_candidates]. unfold new_normalized. rewrite Hbytes. cbn [map_err rbind].
  assert (starts_with slash (join slash parts) = false) as ->.
  { destruct parts as [|[|c part] parts]; [done| |]; apply Forall_cons in Hcl as [(H1 & _ & _ & H4 & _) _]; [done|].
    apply not_elem_of_cons in H4 as [H4 _]. destruct parts; apply N.eqb_neq; congruence. }
  unfold base_of. rewrite Hdot. cbn [rbind]. rewrite split_join by eauto using clean_no_slash. rewrite resolve_clean, app_nil_r by done. cbn [rbind].
  destruct (reverse parts) as [|part rest] eqn:Hrev; [by apply (f_equal reverse) in Hrev; rewrite reverse_involutive in Hrev|].
  rewrite <- Hrev, reverse_involutive. done.
Qed.
End Specifiers.
