(* ===== verification/ModuleLoader.v ===== *)
(** * The module loader

    crates/sim-lib-namespace/src/module.rs: a cache of modules that several
    threads load and reload.  The loader's state (the cache, the receipts and
    the binding cells of the modules) changes only under its lock, one section
    at a time, so a section is one step; between the sections that begin and
    finish a load the thread reads and evaluates the source, which may use the
    loader again.  A thread that waits on the condition variable looks at the
    cache again whenever it is woken.

    What reading and evaluating a source gives, and what evaluated code does with
    binding cells, is arbitrary. *)

From stdpp Require Import gmap relations.
From S2P Require Import Prelude BindingCells Namespace.

Inductive ModuleResolutionOutcome := Linked_ | CacheHit | ReadRefused | DecodeFailed | EvalFailed | Cycle_.

(** [ReadEvalOutcome] of the broker, as far as the loader looks at it. *)
Inductive ReadEvalOutcome := BrokerAdmitted | BrokerDecodeFailed | BrokerOther.

Section Loader.
Context {Sym Tid V Event Msg : Type} `{Countable Sym} `{Countable Tid}.

Abbreviation Identity := (ModuleIdentity Sym).
Abbreviation Cell := (BindingCell Str).
Abbreviation Cells := (list (BindingCellState Str V)).

Record ModuleInstance := {
  in_identity : Identity;
  in_generation : N;
  in_export : Cell;
}.

Record ModuleResolutionReceipt := {
  rc_identity : Identity;
  rc_generation : N;
  rc_outcome : ModuleResolutionOutcome;
  rc_detail : option Msg;
  rc_event : option Event;
}.

Inductive CacheState :=
| CInitializing (owner : Tid) (generation : N)
| CLinked (instance : ModuleInstance)
| CFailed (generation : N) (message : Msg) (binding : Cell) (outcome : ModuleResolutionOutcome).

Record Loader := {
  lo_cache : gmap Identity CacheState;
  lo_receipts : list ModuleResolutionReceipt;
  lo_cells : Cells;
}.

Inductive LoadError :=
| LoadFailed (message : Msg)
| LoadCycle (id : Identity)
| LoadReplacing (id : Identity)
| LoadBroker (message : Msg)
| LoadCell (e : CellError Str).

Implicit Types (s : Loader) (id : Identity) (t : Tid).

Context (cycle_message : Identity -> Msg).

Definition push_receipt s id (generation : N) (outcome : ModuleResolutionOutcome) (detail : option Msg) (event : option Event) : Loader :=
  {| lo_cache := lo_cache s; lo_cells := lo_cells s;
     lo_receipts := lo_receipts s ++ [{| rc_identity := id; rc_generation := generation; rc_outcome := outcome; rc_detail := detail; rc_event := event |}] |}.

Definition set_cache s id (c : CacheState) : Loader :=
  {| lo_cache := <[id := c]> (lo_cache s); lo_receipts := lo_receipts s; lo_cells := lo_cells s |}.

Definition set_cells s (cells : Cells) : Loader :=
  {| lo_cache := lo_cache s; lo_receipts := lo_receipts s; lo_cells := cells |}.

(** What the first section of a load does: it returns, waits, or begins to
    initialize a generation with its binding. *)
Inductive Begin :=
| BReturn (r : Res LoadError ModuleInstance)
| BWait
| BBegin (generation : N) (binding : Cell).

(** The loop body of [load]. *)
Definition begin_load s t id : Begin * Loader :=
  match lo_cache s !! id with
  | Some (CLinked i) => (BReturn (Ok i), push_receipt s id (in_generation i) CacheHit None None)
  | Some (CFailed generation message _ outcome) => (BReturn (Err (LoadFailed message)), push_receipt s id generation outcome (Some message) None)
  | Some (CInitializing active generation) =>
    if decide (active = t)
    then (BReturn (Err (LoadCycle id)), push_receipt s id generation Cycle_ (Some (cycle_message id)) None)
    else (BWait, s)
  | None =>
    let '(binding, cells) := uninitialized (mi_path id) (lo_cells s) in
    (BBegin 1 binding, set_cache (set_cells s cells) id (CInitializing t 1))
  end.

(** The generation after [g]: [g + 1] at 64 bits.  A build with overflow checks
    aborts instead of wrapping. *)
Definition next_generation (g : N) : N := if decide (g = u64_max) then 0%N else (g + 1)%N.

(** The locked section of [reload]. *)
Definition begin_reload s t id : Begin * Loader :=
  match lo_cache s !! id with
  | Some (CLinked i) =>
    let generation := next_generation (in_generation i) in
    (BBegin generation (in_export i), set_cache s id (CInitializing t generation))
  | Some (CFailed generation _ binding _) =>
    let generation := next_generation generation in
    (BBegin generation binding, set_cache s id (CInitializing t generation))
  | Some (CInitializing _ _) => (BReturn (Err (LoadReplacing id)), s)
  | None =>
    let '(binding, cells) := uninitialized (mi_path id) (lo_cells s) in
    (BBegin 1 binding, set_cache (set_cells s cells) id (CInitializing t 1))
  end.

(** What reading and evaluating the source gave: an unreadable source, an error
    of the broker itself, or an admission with its outcome, event and result. *)
Inductive Sourced :=
| SReadError (message : Msg)
| SBrokerError (message : Msg)
| SAdmission (outcome : ReadEvalOutcome) (event : Event) (result : V + Msg).

Definition resolution_outcome (o : ReadEvalOutcome) : ModuleResolutionOutcome :=
  match o with BrokerDecodeFailed => DecodeFailed | BrokerAdmitted => Linked_ | BrokerOther => EvalFailed end.

(** [finish_refused]. *)
Definition finish_refused s id (generation : N) (binding : Cell) (message : Msg) : Res LoadError ModuleInstance * Loader :=
  (Err (LoadFailed message),
   push_receipt (set_cache s id (CFailed generation message binding ReadRefused)) id generation ReadRefused (Some message) None).

(** [finish_load] after the source was read and evaluated. *)
Definition finish_load s id (generation : N) (binding : Cell) (source : Sourced) : Res LoadError ModuleInstance * Loader :=
  match source with
  | SReadError message => finish_refused s id generation binding message
  | SBrokerError message => (Err (LoadBroker message), s)
  | SAdmission outcome event (inl v) =>
    match cell_set (lo_cells s) binding v with
    | Ok cells =>
      let i := {| in_identity := id; in_generation := generation; in_export := binding |} in
      (Ok i, push_receipt (set_cache (set_cells s cells) id (CLinked i)) id generation Linked_ None (Some event))
    | Err e => (Err (LoadCell e), s)
    | Panic => (Panic, s)
    | NoFuel => (NoFuel, s)
    end
  | SAdmission outcome event (inr message) =>
    (Err (LoadFailed message),
     push_receipt (set_cache s id (CFailed generation message binding (resolution_outcome outcome))) id generation
       (resolution_outcome outcome) (Some message) (Some event))
  end.

(** ** Threads *)

(** A load that has begun and not finished. *)
Record Frame := {
  fr_identity : Identity;
  fr_generation : N;
  fr_binding : Cell;
}.

(** The loads a thread has begun, the innermost first, and the module it waits
    for, if any. *)
Record ThreadState := {
  th_frames : list Frame;
  th_waits : option Identity;
}.

Record System := {
  sy_loader : Loader;
  sy_threads : gmap Tid ThreadState;
}.

Definition idle : ThreadState := {| th_frames := []; th_waits := None |}.

Definition thread_of (y : System) t : ThreadState := default idle (sy_threads y !! t).

(** The thread after the first section of a load of [id]. *)
Definition after_begin (h : ThreadState) id (b : Begin) : ThreadState :=
  match b with
  | BReturn _ => {| th_frames := th_frames h; th_waits := None |}
  | BWait => {| th_frames := th_frames h; th_waits := Some id |}
  | BBegin generation binding =>
    {| th_frames := {| fr_identity := id; fr_generation := generation; fr_binding := binding |} :: th_frames h; th_waits := None |}
  end.

Definition update (y : System) t (h : ThreadState) s : System := {| sy_loader := s; sy_threads := <[t := h]> (sy_threads y) |}.

(** The broker (read_eval.rs) reports an admission exactly with a value. *)
Definition honest (source : Sourced) : Prop :=
  match source with SAdmission outcome _ result => outcome = BrokerAdmitted <-> exists v, result = inl v | _ => True end.

(** The steps of a thread: it begins a load or a reload, looks again after it
    was woken, finishes its innermost load, or uses binding cells. *)
Inductive sys_step (y : System) t : System -> Prop :=
| step_load id : th_waits (thread_of y t) = None ->
    sys_step y t (let '(b, s) := begin_load (sy_loader y) t id in update y t (after_begin (thread_of y t) id b) s)
| step_wake id : th_waits (thread_of y t) = Some id ->
    sys_step y t (let '(b, s) := begin_load (sy_loader y) t id in update y t (after_begin (thread_of y t) id b) s)
| step_reload id : th_waits (thread_of y t) = None ->
    sys_step y t (let '(b, s) := begin_reload (sy_loader y) t id in update y t (after_begin (thread_of y t) id b) s)
| step_finish f rest source : honest source -> th_waits (thread_of y t) = None -> th_frames (thread_of y t) = f :: rest ->
    sys_step y t (update y t {| th_frames := rest; th_waits := None |}
      (finish_load (sy_loader y) (fr_identity f) (fr_generation f) (fr_binding f) source).2)
| step_cells cells : th_waits (thread_of y t) = None -> cell_step (lo_cells (sy_loader y)) cells ->
    sys_step y t (update y t (thread_of y t) (set_cells (sy_loader y) cells)).

Definition some_step (y y' : System) : Prop := exists t, sys_step y t y'.

Definition new_system : System :=
  {| sy_loader := {| lo_cache := ∅; lo_receipts := []; lo_cells := [] |}; sy_threads := ∅ |}.
End Loader.
#[global] Arguments ModuleInstance : clear implicits.
#[global] Arguments ModuleResolutionReceipt : clear implicits.
#[global] Arguments CacheState : clear implicits.
#[global] Arguments System Sym Tid V Event Msg {_ _ _ _} : assert.
