(* ===== verification/ModuleHistory.v ===== *)
(** * Histories of the module loader

    Over any interleaving of threads: a module is initialized by one thread at a
    time, keeps its binding cell across replacements and failures, and its
    64-bit generations only grow as long as none wraps ([module_history]); finishing a reload is seen through
    every instance handed out before ([reload_updates_importers]).  Two ways in
    which a load never ends are shown at the end. *)

From stdpp Require Import gmap relations.
From S2P Require Import Prelude BindingCells Namespace ModuleLoader.

Section History.
Context {Sym Tid V Event Msg : Type} `{Countable Sym} `{Countable Tid} (cycle_message : ModuleIdentity Sym -> Msg).
Abbreviation System := (System Sym Tid V Event Msg).
Abbreviation Loader := (Loader (Sym := Sym) (Tid := Tid) (V := V) (Event := Event) (Msg := Msg)).
Implicit Types (y : System) (id : ModuleIdentity Sym) (t : Tid).
Abbreviation sys_step := (sys_step cycle_message).
Abbreviation some_step := (some_step cycle_message).
Abbreviation cache y := (lo_cache (sy_loader y)).
Abbreviation cells y := (lo_cells (sy_loader y)).
Abbreviation frames y t := (th_frames (thread_of y t)).

Definition generation (c : CacheState Sym Tid Msg) : N :=
  match c with CInitializing _ g | CFailed g _ _ _ => g | CLinked i => in_generation i end.

(** The binding an entry holds while no load is active. *)
Definition binding_of (c : CacheState Sym Tid Msg) : option (BindingCell Str) :=
  match c with CLinked i => Some (in_export i) | CFailed _ _ b _ => Some b | CInitializing _ _ => None end.

Definition is_linked (r : ModuleResolutionReceipt Sym Event Msg) : bool := match rc_outcome r with Linked_ => true | _ => false end.

(** The identity and generation of a receipt of a finished link. *)
Definition linked_key (r : ModuleResolutionReceipt Sym Event Msg) : option (ModuleIdentity Sym * N) :=
  if is_linked r then Some (rc_identity r, rc_generation r) else None.

Record SysInv y : Prop := {
  si_cells : CellsOk (cells y);
  si_frames : forall t f, f ∈ frames y t -> cache y !! fr_identity f = Some (CInitializing t (fr_generation f)) /\ valid_cell (cells y) (fr_binding f);
  si_distinct : forall t, NoDup (fr_identity <$> frames y t);
  si_linked : forall id i, cache y !! id = Some (CLinked i) -> in_identity i = id /\ valid_cell (cells y) (in_export i);
  si_failed : forall id g m b o, cache y !! id = Some (CFailed g m b o) -> valid_cell (cells y) b /\ o <> Linked_;
}.

Lemma new_inv : SysInv new_system.
Proof.
  split; simpl; try done.
  - intros t f Hf. unfold thread_of in Hf. simpl in Hf. rewrite lookup_empty in Hf. simpl in Hf. by apply elem_of_nil in Hf.
  - intros t. unfold thread_of. simpl. rewrite lookup_empty. constructor.
Qed.

Lemma thread_of_update y t h s t' : thread_of (update y t h s) t' = if decide (t' = t) then h else thread_of y t'.
Proof.
  unfold thread_of, update. simpl. destruct (decide (t' = t)) as [->|Hne]; [by rewrite lookup_insert_eq|by rewrite lookup_insert_ne].
Qed.

(** A frame of another thread is not about a module that this thread initializes. *)
Lemma other_frames y t id g t' f : SysInv y -> cache y !! id = Some (CInitializing t g) -> t' <> t -> f ∈ frames y t' -> fr_identity f <> id.
Proof. intros HI Hc Hne Hf <-. destruct (si_frames _ HI t' f Hf) as [Hc' _]. rewrite Hc in Hc'. by injection Hc' as <-. Qed.

(** A frame is about a module that is being initialized. *)
Lemma no_frames y id t f : SysInv y -> (forall o g, cache y !! id <> Some (CInitializing o g)) -> f ∈ frames y t -> fr_identity f <> id.
Proof. intros HI Hc Hf <-. destruct (si_frames _ HI t f Hf) as [Hc' _]. by eapply Hc. Qed.

(** A step of [t] that touches at most the entry of [id]. *)
Lemma inv_update y t h s id : SysInv y -> CellsOk (lo_cells s) -> length (cells y) <= length (lo_cells s) ->
  (forall id', id' <> id -> lo_cache s !! id' = cache y !! id') ->
  (forall t' f, t' <> t -> f ∈ frames y t' -> fr_identity f <> id \/ lo_cache s !! id = cache y !! id) ->
  (forall f, f ∈ th_frames h -> f ∈ frames y t /\ (fr_identity f <> id \/ lo_cache s !! id = cache y !! id) \/
    lo_cache s !! fr_identity f = Some (CInitializing t (fr_generation f)) /\ valid_cell (lo_cells s) (fr_binding f)) ->
  NoDup (fr_identity <$> th_frames h) ->
  (forall i, lo_cache s !! id = Some (CLinked i) -> in_identity i = id /\ valid_cell (lo_cells s) (in_export i)) ->
  (forall g m b o, lo_cache s !! id = Some (CFailed g m b o) -> valid_cell (lo_cells s) b /\ o <> Linked_) -> SysInv (update y t h s).
Proof.
  intros HI Hok Hlen Hother Hothers Hh Hnd Hlk Hfl.
  assert (forall c, valid_cell (cells y) c -> valid_cell (lo_cells s) c) as Hvalid by (unfold valid_cell; intros; lia).
  split; cbn [sy_loader update]; [done| | | |].
  - intros t' f Hf. rewrite thread_of_update in Hf. destruct (decide (t' = t)) as [->|Hne].
    + destruct (Hh f Hf) as [[Hin Hid]|Hnew]; [|done]. destruct (si_frames _ HI t f Hin) as [Hc Hv]. split; [|auto].
      destruct (decide (fr_identity f = id)) as [<-|Hneq]; [|by rewrite Hother]. destruct Hid as [?|Heq]; [done|by rewrite Heq].
    + destruct (si_frames _ HI t' f Hf) as [Hc Hv]. split; [|auto]. destruct (decide (fr_identity f = id)) as [<-|Hneq]; [|by rewrite Hother].
      destruct (Hothers t' f Hne Hf) as [?|Heq]; [done|by rewrite Heq].
  - intros t'. rewrite thread_of_update. destruct (decide (t' = t)); [done|apply HI].
  - intros id' i Hi. destruct (decide (id' = id)) as [->|Hne]; [by apply Hlk|]. rewrite Hother in Hi by done.
    destruct (si_linked _ HI id' i Hi). auto.
  - intros id' g m b o Hi. destruct (decide (id' = id)) as [->|Hne]; [by eapply Hfl|]. rewrite Hother in Hi by done.
    destruct (si_failed _ HI id' g m b o Hi). auto.
Qed.

(** A step that does not change the cache. *)
Lemma inv_quiet y t h s : SysInv y -> CellsOk (lo_cells s) -> length (cells y) <= length (lo_cells s) -> lo_cache s = cache y ->
  (forall f, f ∈ th_frames h -> f ∈ frames y t) -> NoDup (fr_identity <$> th_frames h) -> SysInv (update y t h s).
Proof.
  intros HI Hok Hlen Hc Hh Hnd. assert (forall id, lo_cache s !! id = cache y !! id) as Hcid by (intros id; by rewrite Hc).
  assert (forall c, valid_cell (cells y) c -> valid_cell (lo_cells s) c) as Hvalid by (unfold valid_cell; intros; lia).
  split; cbn [sy_loader update]; rewrite ?Hc; [done| | | |].
  - intros t' f Hf. rewrite thread_of_update in Hf. assert (f ∈ frames y t') as Hf' by (destruct (decide (t' = t)) as [->|]; auto).
    destruct (si_frames _ HI t' f Hf'). auto.
  - intros t'. rewrite thread_of_update. destruct (decide (t' = t)); [done|apply HI].
  - intros id' i Hi. destruct (si_linked _ HI id' i Hi). auto.
  - intros id' g m b o Hi. destruct (si_failed _ HI id' g m b o Hi). auto.
Qed.

Lemma linked_push (s : Loader) id g o d e : omap linked_key (lo_receipts (push_receipt s id g o d e)) =
  omap linked_key (lo_receipts s) ++ match o with Linked_ => [(id, g)] | _ => [] end.
Proof. simpl. rewrite omap_app. by destruct o. Qed.

(** Opening an entry for initialization. *)
Lemma inv_open y t id g b s : SysInv y -> CellsOk (lo_cells s) -> length (cells y) <= length (lo_cells s) ->
  (forall o g', cache y !! id <> Some (CInitializing o g')) -> valid_cell (lo_cells s) b ->
  lo_cache s = <[id := CInitializing t g]> (cache y) ->
  SysInv (update y t (after_begin (thread_of y t) id (BBegin (Msg := Msg) g b)) s).
Proof.
  intros HI Hok Hlen Hni Hv Hc. assert (lo_cache s !! id = Some (CInitializing t g)) as Hid by (rewrite Hc; apply lookup_insert_eq).
  apply (inv_update _ _ _ _ id); try done.
  - intros id' Hne. rewrite Hc. by apply lookup_insert_ne.
  - intros t' f _ Hf. left. by eapply no_frames.
  - intros f [->|Hf]%elem_of_cons; [right; by split|]. left. split; [done|]. left. by eapply no_frames.
  - simpl. apply NoDup_cons. split; [|apply HI]. intros (f & Hf & Hin)%list_elem_of_fmap. by eapply no_frames.
  - intros i Hi. by rewrite Hid in Hi.
  - intros g' m b' o Hi. by rewrite Hid in Hi.
Qed.

Lemma inv_return y t (s : Loader) r id : SysInv y -> lo_cells s = cells y -> lo_cache s = cache y ->
  SysInv (update y t (after_begin (thread_of y t) id (BReturn (Msg := Msg) r)) s) /\ SysInv (update y t (after_begin (thread_of y t) id (BWait (Msg := Msg))) s).
Proof. intros HI Hcs Hc. split; apply inv_quiet; try done; rewrite ?Hcs; try done; apply HI. Qed.

Lemma inv_first y t id (s : Loader) b : SysInv y -> cache y !! id = None -> uninitialized (mi_path id) (cells y) = (b, lo_cells s) ->
  lo_cache s = <[id := CInitializing t 1]> (cache y) ->
  SysInv (update y t (after_begin (thread_of y t) id (BBegin (Msg := Msg) 1 b)) s).
Proof.
  intros HI Hc [= <- Hcs] Hs. apply inv_open; try done; rewrite <- ?Hcs.
  - apply CellsOk_new; [apply HI|done].
  - rewrite length_app. lia.
  - intros o g. by rewrite Hc.
  - unfold valid_cell. simpl. rewrite length_app. simpl. lia.
Qed.

Lemma begin_load_inv y t id : SysInv y ->
  SysInv (let '(b, s) := begin_load cycle_message (sy_loader y) t id in update y t (after_begin (thread_of y t) id b) s).
Proof.
  intros HI. unfold begin_load. destruct (cache y !! id) as [[o g|i|g m b o]|] eqn:Hc.
  - destruct (decide (o = t)); [by apply inv_return|by apply (inv_return y t _ (Err (LoadCycle id)))].
  - by apply inv_return.
  - by apply inv_return.
  - by apply inv_first.
Qed.

Lemma begin_reload_inv y t id : SysInv y ->
  SysInv (let '(b, s) := begin_reload (sy_loader y) t id in update y t (after_begin (thread_of y t) id b) s).
Proof.
  intros HI. unfold begin_reload. destruct (cache y !! id) as [[o g|i|g m b o]|] eqn:Hc.
  - by apply inv_return.
  - apply inv_open; try done; simpl; [apply HI|intros o g; by rewrite Hc|by eapply si_linked].
  - apply inv_open; try done; simpl; [apply HI|intros o' g'; by rewrite Hc|by eapply si_failed].
  - by apply inv_first.
Qed.

(** Closing the entry of the innermost frame. *)
Lemma inv_close y t f rest c (s : Loader) : SysInv y -> frames y t = f :: rest ->
  CellsOk (lo_cells s) -> length (cells y) <= length (lo_cells s) ->
  lo_cache s = <[fr_identity f := c]> (cache y) -> (forall o g, c <> CInitializing o g) ->
  (forall i, c = CLinked i -> in_identity i = fr_identity f /\ valid_cell (lo_cells s) (in_export i)) ->
  (forall g m b o, c = CFailed g m b o -> valid_cell (lo_cells s) b /\ o <> Linked_) ->
  SysInv (update y t {| th_frames := rest; th_waits := None |} s).
Proof.
  intros HI Hfr Hok Hlen Hc Hni Hlk Hfl.
  assert (f ∈ frames y t) as Hf by (rewrite Hfr; apply list_elem_of_here). destruct (si_frames _ HI t f Hf) as [Hcf _].
  assert (lo_cache s !! fr_identity f = Some c) as Hid by (rewrite Hc; apply lookup_insert_eq).
  pose proof (si_distinct _ HI t) as Hnd. rewrite Hfr in Hnd. simpl in Hnd. apply NoDup_cons in Hnd as [Hnin Hnd].
  apply (inv_update _ _ _ _ (fr_identity f)); try done.
  - intros id' Hne. rewrite Hc. by apply lookup_insert_ne.
  - intros t' f' Hne Hf'. left. by eapply other_frames.
  - intros f' Hf'. left. split; [rewrite Hfr; by apply list_elem_of_further|]. left. intros Heq. apply Hnin. rewrite <- Heq. by apply list_elem_of_fmap_2.
  - intros i Hi. rewrite Hid in Hi. injection Hi as ->. by apply Hlk.
  - intros g m b o Hi. rewrite Hid in Hi. injection Hi as ->. by eapply Hfl.
Qed.

(** A thread that drops its innermost frame and changes nothing else. *)
Lemma inv_drop y t f rest : SysInv y -> frames y t = f :: rest -> SysInv (update y t {| th_frames := rest; th_waits := None |} (sy_loader y)).
Proof.
  intros HI Hfr. apply inv_quiet; try done; [apply HI| |].
  - intros f' Hf'. rewrite Hfr. by apply list_elem_of_further.
  - pose proof (si_distinct _ HI t) as Hnd. rewrite Hfr in Hnd. by apply NoDup_cons in Hnd as [_ Hnd].
Qed.

Lemma finish_load_inv y t f rest source : SysInv y -> frames y t = f :: rest -> honest source ->
  SysInv (update y t {| th_frames := rest; th_waits := None |}
    (finish_load (sy_loader y) (fr_identity f) (fr_generation f) (fr_binding f) source).2).
Proof.
  intros HI Hfr Hh. assert (f ∈ frames y t) as Hf by (rewrite Hfr; apply list_elem_of_here).
  destruct (si_frames _ HI t f Hf) as [Hcf Hv]. destruct source as [m|m|o e [v|m]]; cbn [finish_load].
  - eapply (inv_close _ _ f); try done; simpl; [apply HI|by intros ? ? ? ? [= <- <- <- <-]].
  - by eapply inv_drop.
  - destruct (cell_set (cells y) (fr_binding f) v) as [cs|er| |] eqn:Hset; [|by eapply inv_drop..].
    destruct (cell_set_get _ _ _ _ (si_cells _ HI) Hv Hset) as (Hok & Hlen & _).
    eapply (inv_close _ _ f); try done; simpl; [by rewrite Hlen|].
    intros i [= <-]. split; [done|]. unfold valid_cell in *. simpl. by rewrite Hlen.
  - assert (resolution_outcome o <> Linked_) as Hno. { destruct o; [|done..]. by destruct (proj1 Hh eq_refl). }
    eapply (inv_close _ _ f); try done; simpl; [apply HI|by intros ? ? ? ? [= <- <- <- <-]].
Qed.

Lemma sys_step_inv y t y' : SysInv y -> sys_step y t y' -> SysInv y'.
Proof.
  intros HI Hst. destruct Hst as [id _|id _|id _|f rest source Hh _ Hfr|cs _ Hc];
    [by apply begin_load_inv|by apply begin_load_inv|by apply begin_reload_inv|by apply finish_load_inv|].
  destruct (cell_step_kept _ _ (si_cells _ HI) Hc) as [Hok Hlen _ _ _]. apply inv_quiet; try done. apply HI.
Qed.

Lemma history_inv y : rtc some_step new_system y -> SysInv y.
Proof. intros Hr. eapply (rtc_ind_r SysInv); [exact new_inv| |exact Hr]. intros y1 y2 _ [t Hst] HI. by eapply sys_step_inv. Qed.

(** ** What a step does to the entries *)

(** The links a loader has recorded. *)
Abbreviation links s := (omap linked_key (lo_receipts s)).

(** A step leaves the entries and the links alone, opens an entry with a new
    frame, or closes the entry of its innermost frame with that frame's binding,
    recording a link exactly when it links. *)
Inductive entries_step y t (h : ThreadState) (s : Loader) : Prop :=
| quiet : lo_cache s = cache y -> links s = links (sy_loader y) -> (forall f, f ∈ th_frames h -> f ∈ frames y t) -> entries_step y t h s
| opens id g b : (forall o g', cache y !! id <> Some (CInitializing o g')) ->
    (cache y !! id = None /\ g = 1%N \/ exists c, cache y !! id = Some c /\ g = next_generation (generation c) /\ binding_of c = Some b) ->
    lo_cache s = <[id := CInitializing t g]> (cache y) -> links s = links (sy_loader y) ->
    th_frames h = {| fr_identity := id; fr_generation := g; fr_binding := b |} :: frames y t -> entries_step y t h s
| closes f rest c : th_waits (thread_of y t) = None -> frames y t = f :: rest -> th_frames h = rest ->
    generation c = fr_generation f -> binding_of c = Some (fr_binding f) ->
    lo_cache s = <[fr_identity f := c]> (cache y) ->
    links s = links (sy_loader y) ++ match c with CLinked _ => [(fr_identity f, fr_generation f)] | _ => [] end -> entries_step y t h s.

Lemma begin_load_entries y t id b s : SysInv y -> begin_load cycle_message (sy_loader y) t id = (b, s) ->
  entries_step y t (after_begin (thread_of y t) id b) s /\ lo_receipts (sy_loader y) `prefix_of` lo_receipts s.
Proof.
  intros HI. unfold begin_load. destruct (cache y !! id) as [[o g|i|g m d o]|] eqn:Hc; [destruct (decide (o = t))|..]; intros [= <- <-].
  1,3,4: split; [|by apply prefix_app_r]; apply quiet; [done|rewrite linked_push|done].
  - by rewrite app_nil_r.
  - by rewrite app_nil_r.
  - destruct (si_failed _ HI id g m d o Hc) as [_ Hno]. destruct o; by rewrite ?app_nil_r.
  - split; [by apply quiet|done].
  - split; [|done]. eapply (opens _ _ _ _ id); [by rewrite Hc|by left|done..].
Qed.

Lemma begin_reload_entries y t id b s : begin_reload (sy_loader y) t id = (b, s) ->
  entries_step y t (after_begin (thread_of y t) id b) s /\ lo_receipts (sy_loader y) `prefix_of` lo_receipts s.
Proof.
  unfold begin_reload. destruct (cache y !! id) as [[o g|i|g m d o]|] eqn:Hc; intros [= <- <-]; split; try done; [by apply quiet|..].
  1,2: eapply (opens _ _ _ _ id); [by rewrite Hc|right; by eexists|done..].
  eapply (opens _ _ _ _ id); [by rewrite Hc|by left|done..].
Qed.

Lemma finish_load_entries y t f rest source : frames y t = f :: rest -> th_waits (thread_of y t) = None -> honest source ->
  entries_step y t {| th_frames := rest; th_waits := None |} (finish_load (sy_loader y) (fr_identity f) (fr_generation f) (fr_binding f) source).2 /\
  lo_receipts (sy_loader y) `prefix_of` lo_receipts (finish_load (sy_loader y) (fr_identity f) (fr_generation f) (fr_binding f) source).2.
Proof.
  intros Hfr Hw Hh. assert (entries_step y t {| th_frames := rest; th_waits := None |} (sy_loader y)) as Hdrop
    by (apply quiet; [done..|]; intros f' Hf'; rewrite Hfr; by apply list_elem_of_further).
  destruct source as [m|m|o e [v|m]]; cbn [finish_load finish_refused snd]; [|done| |].
  - split; [|by apply prefix_app_r]. eapply (closes _ _ _ _ f rest (CFailed (fr_generation f) m (fr_binding f) _)); try done. by rewrite linked_push.
  - destruct (cell_set (cells y) (fr_binding f) v) as [cs|er| |]; [|done..].
    split; [|by apply prefix_app_r]. eapply
      (closes _ _ _ _ f rest (CLinked {| in_identity := fr_identity f; in_generation := fr_generation f; in_export := fr_binding f |})); try done. cbn [snd]. by rewrite linked_push.
  - split; [|by apply prefix_app_r]. eapply (closes _ _ _ _ f rest (CFailed (fr_generation f) m (fr_binding f) _)); try done. rewrite linked_push.
    destruct o; [|done..]. by destruct (proj1 Hh eq_refl).
Qed.

Lemma sys_step_entries y t y' : SysInv y -> sys_step y t y' -> exists h s, y' = update y t h s /\ entries_step y t h s /\
  lo_receipts (sy_loader y) `prefix_of` lo_receipts s.
Proof.
  intros HI Hst. destruct Hst as [id _|id _|id _|f rest source Hh Hw Hfr|cs _ Hc].
  - destruct (begin_load _ _ t id) as [b s] eqn:Hb. do 2 eexists. split; [done|]. by eapply begin_load_entries.
  - destruct (begin_load _ _ t id) as [b s] eqn:Hb. do 2 eexists. split; [done|]. by eapply begin_load_entries.
  - destruct (begin_reload _ t id) as [b s] eqn:Hb. do 2 eexists. split; [done|]. by eapply begin_reload_entries.
  - do 2 eexists. split; [done|]. by apply finish_load_entries.
  - do 2 eexists. split; [done|]. split; [by apply quiet|done].
Qed.

(** ** Histories *)

(** The binding of a module: its entry's, or that of the load under way. *)
Definition holds y id (b : BindingCell Str) : Prop :=
  match cache y !! id with
  | Some (CInitializing t _) => forall f, f ∈ frames y t -> fr_identity f = id -> fr_binding f = b
  | Some c => binding_of c = Some b
  | None => False
  end.

Record Later y y' : Prop := {
  lt_holds : forall id b, holds y id b -> holds y' id b;
  lt_receipts : lo_receipts (sy_loader y) `prefix_of` lo_receipts (sy_loader y');
}.

#[export] Instance later_preorder : PreOrder Later.
Proof. split; [by intros y|]. intros y1 y2 y3 [H1 H2] [H1' H2']. split; [auto|by etrans]. Qed.

Lemma later_entries y t h (s : Loader) : SysInv y -> entries_step y t h s ->
  lo_receipts (sy_loader y) `prefix_of` lo_receipts s -> Later y (update y t h s).
Proof.
  intros HI Hen Hr. destruct Hen as [Hc _ Hsub|id0 g b0 Hni Hg Hc _ Hfr|f rest c _ Hfr Hh Hg Hb Hc _].
  - split; [|done]. intros id b. unfold holds. cbn [sy_loader update]. rewrite Hc.
    destruct (cache y !! id) as [[t' g|i|]|]; try done. rewrite thread_of_update. destruct (decide (t' = t)) as [->|]; auto.
  - split; [|done].
    intros id b. unfold holds. cbn [sy_loader update]. rewrite Hc. destruct (decide (id = id0)) as [->|Hne].
    + rewrite lookup_insert_eq, thread_of_update, decide_True by done. rewrite Hfr. intros Hb f [->|Hf]%elem_of_cons Hid.
      { destruct Hg as [[Hn _]|(c & Hc0 & _ & Hbo)]; [by rewrite Hn in Hb|]. rewrite Hc0 in Hb.
        destruct c; [by edestruct Hni|by rewrite Hbo in Hb; injection Hb|by rewrite Hbo in Hb; injection Hb]. }
      by destruct (no_frames y id0 t f HI Hni Hf).
    + rewrite lookup_insert_ne by done. destruct (cache y !! id) as [[t' g'|i|]|]; try done. rewrite thread_of_update.
      destruct (decide (t' = t)) as [->|]; [|auto]. rewrite Hfr. intros Hb f [->|Hf]%elem_of_cons; [by intros <-|auto].
  - assert (f ∈ frames y t) as Hf by (rewrite Hfr; apply list_elem_of_here). destruct (si_frames _ HI t f Hf) as [Hcf _].
    split; [|done].
    intros id b. unfold holds. cbn [sy_loader update]. rewrite Hc. destruct (decide (id = fr_identity f)) as [->|Hne].
    + rewrite lookup_insert_eq, Hcf. intros Hall. rewrite <- (Hall f Hf eq_refl). by destruct c.
    + rewrite lookup_insert_ne by done. destruct (cache y !! id) as [[t' g'|i|]|]; try done. rewrite thread_of_update.
      destruct (decide (t' = t)) as [->|]; [|auto]. rewrite Hh. intros Hall f' Hf'. apply Hall. rewrite Hfr. by apply list_elem_of_further.
Qed.

Lemma sys_step_later y t y' : SysInv y -> sys_step y t y' -> Later y y'.
Proof. intros HI (h & s & -> & Hen & Hr)%sys_step_entries; [by apply later_entries|done]. Qed.

Lemma history_later y y' : SysInv y -> rtc some_step y y' -> SysInv y' /\ Later y y'.
Proof.
  intros HI Hr. induction Hr as [y|y1 y2 y3 [t Hst] _ IH]; [by split|].
  pose proof (sys_step_inv _ _ _ HI Hst) as HI2. destruct (IH HI2) as [HI3 Hl]. split; [done|]. etrans; [by eapply sys_step_later|done].
Qed.

(** ** Generations

    A reload of an entry whose generation is the largest wraps.  A generation is
    at most the number of steps so far, so none wraps in a history of fewer than
    2^64 steps. *)

Record LinksInv (n : nat) y : Prop := {
  ln_bound : forall id c, cache y !! id = Some c -> (generation c <= N.of_nat n)%N;
  ln_receipts : forall id g, (id, g) ∈ links (sy_loader y) ->
    exists c, cache y !! id = Some c /\ (g <= generation c)%N /\ ((forall i, c <> CLinked i) -> g < generation c)%N;
  ln_once : NoDup (links (sy_loader y));
}.

Definition Grown y y' : Prop :=
  forall id c, cache y !! id = Some c -> exists c', cache y' !! id = Some c' /\ (generation c <= generation c')%N.

#[export] Instance grown_preorder : PreOrder Grown.
Proof.
  split; [intros y id c Hc; by eauto|]. intros y1 y2 y3 H2 H2' id c Hc.
  destruct (H2 id c Hc) as (c' & Hc' & Hle). destruct (H2' id c' Hc') as (c3 & ? & ?). exists c3. split; [done|lia].
Qed.

Lemma next_generation_grows g : (g < u64_max -> next_generation g = g + 1)%N.
Proof. unfold next_generation. intros Hg. rewrite decide_False; [done|lia]. Qed.

(** The step does not wrap a generation: the entry of one module gets a larger
    generation, or a link is recorded of the generation under way. *)
Lemma links_open n y t h (s : Loader) id g : LinksInv n y -> (1 <= g <= N.of_nat (S n))%N ->
  (forall c, cache y !! id = Some c -> generation c < g)%N ->
  lo_cache s = <[id := CInitializing t g]> (cache y) -> links s = links (sy_loader y) ->
  LinksInv (S n) (update y t h s) /\ Grown y (update y t h s).
Proof.
  intros HL Hle Hlt Hc Hl. split; [split; cbn [sy_loader update]; rewrite ?Hl|].
  - intros id' c. rewrite Hc. intros [[<- <-]|[_ Hc']]%lookup_insert_Some; [simpl; lia|]. pose proof (ln_bound _ _ HL _ _ Hc'). lia.
  - intros id' g' Hin. destruct (ln_receipts _ _ HL _ _ Hin) as (c & Hc' & Hg & Hg'). rewrite Hc. destruct (decide (id' = id)) as [->|Hne].
    + rewrite lookup_insert_eq. eexists. split; [done|]. specialize (Hlt c Hc'). simpl. split; [|intros _]; lia.
    + rewrite lookup_insert_ne by done. by exists c.
  - apply HL.
  - intros id' c Hc'. cbn [sy_loader update]. rewrite Hc. destruct (decide (id' = id)) as [->|Hne].
    + rewrite lookup_insert_eq. eexists. split; [done|]. specialize (Hlt c Hc'). simpl. lia.
    + rewrite lookup_insert_ne by done. by exists c.
Qed.

Lemma links_close n y t h (s : Loader) f c : SysInv y -> LinksInv n y -> f ∈ frames y t -> generation c = fr_generation f ->
  lo_cache s = <[fr_identity f := c]> (cache y) ->
  links s = links (sy_loader y) ++ match c with CLinked _ => [(fr_identity f, fr_generation f)] | _ => [] end ->
  LinksInv (S n) (update y t h s) /\ Grown y (update y t h s).
Proof.
  intros HI HL Hf Hg Hc Hl. destruct (si_frames _ HI t f Hf) as [Hcf _].
  assert (forall g, (fr_identity f, g) ∈ links (sy_loader y) -> (g < fr_generation f)%N) as Hlt.
  { intros g Hin. destruct (ln_receipts _ _ HL _ g Hin) as (c' & Hc' & _ & Hlt). rewrite Hcf in Hc'. injection Hc' as <-. by apply Hlt. }
  split; [split; cbn [sy_loader update]; rewrite ?Hl|].
  - intros id' c'. rewrite Hc. intros [[<- <-]|[_ Hc']]%lookup_insert_Some.
    + pose proof (ln_bound _ _ HL _ _ Hcf) as Hb. simpl in Hb. lia.
    + pose proof (ln_bound _ _ HL _ _ Hc'). lia.
  - intros id' g [Hin|Hin]%elem_of_app; rewrite Hc.
    + destruct (decide (id' = fr_identity f)) as [->|Hne]; [|rewrite lookup_insert_ne by done; by apply HL].
      rewrite lookup_insert_eq. eexists. split; [done|]. apply Hlt in Hin. split; [|intros _]; lia.
    + destruct c as [| i|]; try by apply elem_of_nil in Hin. apply list_elem_of_singleton in Hin as [= -> ->].
      rewrite lookup_insert_eq. eexists. split; [done|]. split; [lia|]. intros Hn. by destruct (Hn i).
  - apply NoDup_app. split; [apply HL|]. destruct c as [| i|]; try (split; [intros x _; apply not_elem_of_nil|constructor]).
    split; [|apply NoDup_singleton]. intros [id' g] Hin [= -> ->]%list_elem_of_singleton. apply Hlt in Hin. lia.
  - intros id' c' Hc'. cbn [sy_loader update]. rewrite Hc. destruct (decide (id' = fr_identity f)) as [->|Hne];
      [|rewrite lookup_insert_ne by done; by eauto].
    rewrite lookup_insert_eq. eexists. split; [done|]. rewrite Hcf in Hc'. injection Hc' as <-. simpl. lia.
Qed.

Lemma sys_step_links n y t y' : SysInv y -> LinksInv n y -> (N.of_nat n < u64_max)%N -> sys_step y t y' -> LinksInv (S n) y' /\ Grown y y'.
Proof.
  intros HI HL Hn (h & s & -> & Hen & _)%sys_step_entries; [|done].
  destruct Hen as [Hc Hl _|id g b _ Hg Hc Hl _|f rest c _ Hfr _ Hg _ Hc Hl].
  - split; [split; cbn [sy_loader update]; rewrite ?Hc, ?Hl|]; [|apply HL..|intros id c; cbn [sy_loader update]; rewrite Hc; by eauto].
    intros id c Hid. pose proof (ln_bound _ _ HL _ _ Hid). lia.
  - eapply links_open; [done| | |done..].
    + destruct Hg as [[_ ->]|(c & Hid & -> & _)]; [lia|]. pose proof (ln_bound _ _ HL _ _ Hid). rewrite next_generation_grows; lia.
    + intros c Hid. destruct Hg as [[Hno _]|(c' & Hid' & -> & _)]; [by rewrite Hno in Hid|]. rewrite Hid in Hid'. injection Hid' as <-.
      pose proof (ln_bound _ _ HL _ _ Hid). rewrite next_generation_grows; lia.
  - eapply links_close; [done|done| |done..]. rewrite Hfr. apply list_elem_of_here.
Qed.

Lemma history_links n m y y' : SysInv y -> LinksInv n y -> (N.of_nat (n + m) <= u64_max)%N -> nsteps some_step m y y' ->
  LinksInv (n + m) y' /\ Grown y y'.
Proof.
  intros HI HL Hb Hr. revert n HL Hb. induction Hr as [y|m y1 y2 y3 [t Hst] _ IH]; intros n HL Hb; [rewrite Nat.add_0_r; by split|].
  destruct (sys_step_links n y1 t y2) as [HL2 Hg2]; [done|done|lia|done|]. rewrite <- Nat.add_succ_comm in *.
  destruct (IH (sys_step_inv _ _ _ HI Hst) (S n) HL2 Hb) as [HL3 Hg3]. split; [done|by etrans].
Qed.

Lemma new_links : LinksInv 0 new_system.
Proof.
  split; [|intros id g Hin; by apply elem_of_nil in Hin|constructor]. intros id c. cbn [new_system sy_loader lo_cache]. by rewrite lookup_empty.
Qed.

(** A frame's binding is the one every earlier instance exports. *)
Lemma frame_holds y t f id b : SysInv y -> f ∈ frames y t -> fr_identity f = id -> holds y id b -> fr_binding f = b.
Proof. intros HI Hf <-. unfold holds. destruct (si_frames _ HI t f Hf) as [-> _]. auto. Qed.

(** ** Loads that never end *)

(** Only the finish of its own load takes an entry out of initialization. *)
Lemma initializing_kept y t y' id o g : SysInv y -> sys_step y t y' -> cache y !! id = Some (CInitializing o g) ->
  (forall f, th_waits (thread_of y o) = None -> f ∈ frames y o -> fr_identity f <> id) -> cache y' !! id = Some (CInitializing o g).
Proof.
  intros HI (h & s & -> & Hen & _)%sys_step_entries Hc Hno; [|done]. cbn [sy_loader update].
  destruct Hen as [-> _ _|id0 g0 b0 Hni _ -> _ _|f rest c Hw Hfr _ _ _ -> _]; [done| |].
  - rewrite lookup_insert_ne; [done|]. intros ->. by edestruct Hni.
  - rewrite lookup_insert_ne; [done|]. intros Heq. assert (f ∈ frames y t) as Hf by (rewrite Hfr; apply list_elem_of_here).
    destruct (si_frames _ HI t f Hf) as [Hcf _]. rewrite Heq, Hc in Hcf. injection Hcf as -> _. by apply (Hno f).
Qed.

(** A thread that waits for a module another thread initializes goes on waiting. *)
Lemma waiting_kept y t y' t1 id o g : SysInv y -> sys_step y t y' -> cache y !! id = Some (CInitializing o g) -> o <> t1 ->
  th_waits (thread_of y t1) = Some id -> th_waits (thread_of y' t1) = Some id.
Proof.
  intros HI Hst Hc Hne Hw. destruct (decide (t1 = t)) as [->|Hn].
  - destruct Hst as [id' Hw'|id' Hw'|id' Hw'|f rest source _ Hw'|cs Hw']; rewrite Hw in Hw'; try done.
    injection Hw' as <-. unfold begin_load. rewrite Hc, decide_False by done. rewrite thread_of_update, decide_True by done. done.
  - apply sys_step_entries in Hst as (h & s & -> & _); [|done]. by rewrite thread_of_update, decide_False.
Qed.

(** [t1] initializes [a] and waits for [b], which [t2] initializes while it waits
    for [a]. *)
Definition deadlocked y t1 t2 (a b : ModuleIdentity Sym) : Prop :=
  t1 <> t2 /\ th_waits (thread_of y t1) = Some b /\ th_waits (thread_of y t2) = Some a /\
  (exists g, cache y !! a = Some (CInitializing t1 g)) /\ (exists g, cache y !! b = Some (CInitializing t2 g)).

Lemma deadlocked_step y t y' t1 t2 a b : SysInv y -> sys_step y t y' -> deadlocked y t1 t2 a b -> deadlocked y' t1 t2 a b.
Proof.
  intros HI Hst (Hne & Hw1 & Hw2 & [ga Ha] & [gb Hb]). split_and!; [done| | | |].
  - by eapply waiting_kept.
  - by eapply waiting_kept.
  - exists ga. eapply initializing_kept; [done..|]. intros f Hw. by rewrite Hw1 in Hw.
  - exists gb. eapply initializing_kept; [done..|]. intros f Hw. by rewrite Hw2 in Hw.
Qed.

(** Two threads that import each other's module wait forever: the cycle check
    looks at the requesting thread only. *)
Theorem import_cycle_waits y y' t1 t2 a b : rtc some_step new_system y -> deadlocked y t1 t2 a b -> rtc some_step y y' ->
  deadlocked y' t1 t2 a b.
Proof.
  intros Hy%history_inv Hd Hr. induction Hr as [y|y1 y2 y3 [t Hst] _ IH]; [done|]. apply IH; [by eapply sys_step_inv|by eapply deadlocked_step].
Qed.

(** An entry that is initializing though no load of it is under way. *)
Definition abandoned y id : Prop :=
  (exists o g, cache y !! id = Some (CInitializing o g)) /\ forall t f, f ∈ frames y t -> fr_identity f <> id.

(** A load that ends in an error of the broker, or whose binding refuses the
    value, abandons its entry. *)
Lemma finish_abandons y t f rest source e : SysInv y -> frames y t = f :: rest ->
  finish_load (sy_loader y) (fr_identity f) (fr_generation f) (fr_binding f) source = (Err e, sy_loader y) ->
  abandoned (update y t {| th_frames := rest; th_waits := None |} (sy_loader y)) (fr_identity f).
Proof.
  intros HI Hfr _. assert (f ∈ frames y t) as Hf by (rewrite Hfr; apply list_elem_of_here). destruct (si_frames _ HI t f Hf) as [Hc _].
  split; [by do 2 eexists|]. intros t' f'. rewrite thread_of_update. destruct (decide (t' = t)) as [->|Hne]; [|by eapply other_frames].
  simpl. intros Hin Heq. pose proof (si_distinct _ HI t) as Hnd. rewrite Hfr in Hnd. simpl in Hnd. apply NoDup_cons in Hnd as [Hnin _].
  apply Hnin. rewrite <- Heq. by apply list_elem_of_fmap_2.
Qed.

(** An abandoned entry stays so: no thread ever links or fails the module, every
    reload is refused and a load by another thread waits forever. *)
Theorem abandoned_forever y y' id : rtc some_step new_system y -> abandoned y id -> rtc some_step y y' ->
  abandoned y' id /\ forall t, exists b, begin_reload (sy_loader y') t id = (BReturn (Err (LoadReplacing id)), sy_loader y') /\
    (begin_load cycle_message (sy_loader y') t id).1 = b /\ (b = BWait \/ b = BReturn (Err (LoadCycle id))).
Proof.
  intros Hy%history_inv Ha Hr. assert (abandoned y' id) as Ha'.
  - induction Hr as [y|y1 y2 y3 [t Hst] _ IH]; [done|]. apply IH; [by eapply sys_step_inv|]. destruct Ha as [(o & g & Hc) Hno]. split.
    + exists o, g. eapply initializing_kept; [done..|]. intros f _. apply Hno.
    + apply sys_step_entries in Hst as (h & s & -> & Hen & _); [|done]. intros t' f. rewrite thread_of_update.
      destruct (decide (t' = t)) as [->|]; [|apply Hno]. intros Hf.
      destruct Hen as [_ _ Hsub|id0 g0 b0 Hni _ _ _ Hfr|f0 rest c _ Hfr Hh _ _ _ _].
      * by eapply Hno, Hsub.
      * rewrite Hfr in Hf. apply elem_of_cons in Hf as [->|Hf]; [|by eapply Hno]. simpl. intros ->. by edestruct Hni.
      * apply (Hno t). rewrite Hfr. apply list_elem_of_further. by rewrite <- Hh.
  - split; [done|]. destruct Ha' as [(o & g & Hc) _]. intros t. eexists. unfold begin_reload, begin_load. rewrite Hc. split; [done|].
    split; [done|]. destruct (decide (o = t)); [by right|by left].
Qed.

(** C19: However threads interleave, at most one load initializes a module, two
    instances of a module have the same identity and export the same cell, and
    receipts are only appended.  In a history of fewer than 2^64 steps, in which no
    64-bit generation can wrap, the later of two instances has no smaller
    generation, with the same generation they are the same instance, and a
    generation is linked at most once. *)
Theorem module_history n m y y' : nsteps some_step n new_system y -> nsteps some_step m y y' ->
  (forall t1 f1 t2 f2, f1 ∈ frames y t1 -> f2 ∈ frames y t2 -> fr_identity f1 = fr_identity f2 -> t1 = t2 /\ f1 = f2) /\
  (forall id i i', cache y !! id = Some (CLinked i) -> cache y' !! id = Some (CLinked i') ->
    in_identity i = id /\ in_identity i' = id /\ in_export i' = in_export i /\
    ((N.of_nat (n + m) <= u64_max)%N -> (in_generation i <= in_generation i')%N /\ (in_generation i = in_generation i' -> i = i'))) /\
  lo_receipts (sy_loader y) `prefix_of` lo_receipts (sy_loader y') /\
  ((N.of_nat n <= u64_max)%N -> NoDup (omap linked_key (lo_receipts (sy_loader y)))).
Proof.
  intros Hn Hm. pose proof (history_inv y (rtc_nsteps_2 _ _ _ Hn)) as Hy.
  destruct (history_later y y' Hy (rtc_nsteps_2 _ _ _ Hm)) as [Hy' [Hh Hrc]]. split_and!; [| |done|].
  - intros t1 f1 t2 f2 Hf1 Hf2 Heq. destruct (si_frames _ Hy t1 f1 Hf1) as [Hc1 _]. destruct (si_frames _ Hy t2 f2 Hf2) as [Hc2 _].
    rewrite Heq, Hc2 in Hc1. injection Hc1 as <- _. split; [done|].
    apply list_elem_of_lookup in Hf1 as [n1 H1], Hf2 as [n2 H2].
    assert (n1 = n2) as ->; [|by rewrite H1 in H2; injection H2].
    eapply (NoDup_lookup _ _ _ (fr_identity f1) (si_distinct _ Hy t2)); rewrite list_lookup_fmap_Some; by eauto.
  - intros id i i' Hi Hi'. destruct (si_linked _ Hy _ _ Hi) as [Hid _]. destruct (si_linked _ Hy' _ _ Hi') as [Hid' _].
    assert (holds y id (in_export i)) as Hb by (unfold holds; by rewrite Hi). apply Hh in Hb. unfold holds in Hb. rewrite Hi' in Hb. injection Hb as Hb.
    split_and!; [done..|]. intros Hlt. destruct (history_links 0 n _ y new_inv new_links) as [HL _]; [lia|done|].
    destruct (history_links n m y y' Hy HL Hlt Hm) as [_ Hg].
    destruct (Hg _ _ Hi) as (c' & Hc' & Hle). rewrite Hi' in Hc'. injection Hc' as <-. split; [done|].
    intros Heq. destruct i, i'. simpl in *. congruence.
  - intros Hlt. by apply (history_links 0 n _ y new_inv new_links Hlt Hn).
Qed.

(** When a load or a reload of a module finishes with a value, every instance
    of that module handed out earlier reads the new value through its export. *)
Theorem reload_updates_importers y y' id i t f rest outcome event v i' s : rtc some_step new_system y -> rtc some_step y y' ->
  cache y !! id = Some (CLinked i) -> frames y' t = f :: rest -> fr_identity f = id ->
  finish_load (sy_loader y') (fr_identity f) (fr_generation f) (fr_binding f) (SAdmission outcome event (inl v)) = (Ok i', s) ->
  in_export i' = in_export i /\ cell_get (lo_cells s) (in_export i) = Ok v.
Proof.
  intros Hy%history_inv Hr Hi Hfr Hid Hfin. destruct (history_later y y' Hy Hr) as [Hy' Hl].
  assert (f ∈ frames y' t) as Hf by (rewrite Hfr; apply list_elem_of_here). destruct (si_frames _ Hy' t f Hf) as [_ Hv].
  assert (fr_binding f = in_export i) as Hb. { eapply frame_holds; [done..|]. apply (lt_holds _ _ Hl). unfold holds. by rewrite Hi. }
  cbn [finish_load] in Hfin. destruct (cell_set (cells y') (fr_binding f) v) as [cs|er| |] eqn:Hset; [|done..]. injection Hfin as <- <-.
  destruct (cell_set_get _ _ _ _ (si_cells _ Hy') Hv Hset) as (_ & _ & _ & Hget & _). simpl. split; [done|]. rewrite <- Hb. by apply Hget.
Qed.
End History.
