(* ===== verification/NamespaceSamples.v ===== *)
(** * Namespace and pattern samples

    Runs of binding cells, namespaces and the module loader on small inputs: the
    instances of the theorems with hypotheses, and runs in which a load never
    ends.  Then searches of small patterns. *)

From stdpp Require Import gmap relations.
From Stdlib Require Import String Ascii.
From S2P Require Import Prelude BTree PatternIr PatternCompile PatternExecute PatternThompson PatternSearch PatternMatch PatternPriority PatternText PatternDialects PatternRoundTrip PatternTextSearch PatternExtension BindingCells LexicalScopes CallBinding Namespace ModuleLoader ModuleHistory.

(** ** Cells *)

(** A cell and an alias of it, then a write through the alias. *)
Definition sample_cells : list (BindingCellState nat nat) :=
  (live_alias 1 {| bc_name := 0; bc_slot := 0 |} (uninitialized 0 []).2).2.

Lemma sample_cells_steps : rtc cell_step [] sample_cells.
Proof.
  eapply rtc_l; [apply (step_new [] 0 Uninitialized); done|]. eapply rtc_l; [|reflexivity].
  apply (step_new _ 1 (LiveAlias {| bc_name := 0; bc_slot := 0 |})). intros target [= <-]. unfold valid_cell. simpl. lia.
Qed.

(** A write through the alias is read through the cell. *)
Lemma cell_history_witness : exists cells, cell_set sample_cells {| bc_name := 1; bc_slot := 1 |} 7 = Ok cells /\
  cell_get cells {| bc_name := 0; bc_slot := 0 |} = Ok 7.
Proof.
  destruct (cell_history sample_cells {| bc_name := 1; bc_slot := 1 |} 7 sample_cells_steps ltac:(unfold valid_cell; simpl; lia)) as (_ & Hset & _).
  eexists. split; [reflexivity|]. apply Hset; [unfold valid_cell; simpl; lia|reflexivity].
Defined.

(** ** Lexical scopes *)

Abbreviation SampleScopes := (Scopes (Name := nat) (V := nat)).

Definition sample_scopes : SampleScopes := (new_env no_scopes).2.

Lemma sample_scopes_steps : rtc (lex_step (Msg := unit)) no_scopes sample_scopes.
Proof. eapply rtc_l; [by apply (step_env (Msg := unit) _ None)|reflexivity]. Qed.

(** The body of a [let] reads the second of two names. *)
Lemma eval_let_spec_witness : exists s2,
  (eval_let (Msg := unit) sample_scopes 0 [(1, 10); (2, 20)] (fun s e => (lex_lookup s e 2, s))) = (Ok 20, s2).
Proof.
  destruct (eval_let_spec sample_scopes 0 [(1, 10); (2, 20)] (fun s e => (lex_lookup (Msg := unit) s e 2, s)) sample_scopes_steps) as [Hl _];
    [unfold valid_env; simpl; lia|].
  destruct Hl as (s2 & -> & Hv & _); [apply NoDup_cons; split; [by intros Hc%list_elem_of_singleton|apply NoDup_singleton]|].
  exists s2. rewrite (Hv 2 20); [done|]. apply list_elem_of_further, list_elem_of_here.
Defined.

(** Two names that are bound recursively. *)
Definition sample_recursive : list (nat * (SampleScopes -> nat -> Res (LexError (Name := nat) (Msg := unit)) nat * SampleScopes)) :=
  [(1, fun s _ => (Ok 11, s)); (2, fun s _ => (Ok 12, s))].

Lemma eval_letrec_spec_witness : exists s2, eval_letrec sample_scopes 0 sample_recursive (fun s e => (lex_lookup s e 1, s)) = (Ok 11, s2).
Proof.
  destruct (eval_letrec_spec sample_scopes 0 sample_recursive (fun s e => (lex_lookup s e 1, s)) sample_scopes_steps) as (s1 & _ & _ & _ & _ & Hval).
  - unfold valid_env. simpl. lia.
  - apply NoDup_cons. split; [by intros Hc%list_elem_of_singleton|apply NoDup_singleton].
  - destruct (Hval (fun name => 10 + name)) as (s2 & -> & Hread).
    + intros name init Hin s'. unfold sample_recursive in Hin. apply elem_of_cons in Hin as [[= -> ->]|Hin]; [done|].
      by apply list_elem_of_singleton in Hin as [= -> ->].
    + exists s2. rewrite (Hread 1); [done|]. apply list_elem_of_here.
Defined.

(** ** Namespaces *)

Definition sample_namespace : Namespace (Sym := nat) := (export (define (new_namespace 10 Package) 1 100).2 1).2.

Lemma sample_namespace_steps : rtc ns_step (new_namespace 10 Package) sample_namespace.
Proof. eapply rtc_l; [apply (step_define _ 1 100)|]. eapply rtc_l; [apply (step_export _ 1)|reflexivity]. Qed.

(** An import of an exported name under a new name. *)
Lemma namespace_history_witness :
  is_Some (resolve (import_from (new_namespace 20 Module_) sample_namespace 1 {| io_rename := Some 2; io_allow_shadow := false |}).2 2).
Proof.
  pose proof (namespace_history 20 Module_ 10 Package (new_namespace 20 Module_) sample_namespace 1
    {| io_rename := Some 2; io_allow_shadow := false |} (rtc_refl _ _) sample_namespace_steps) as [_ Hi]. vm_compute in Hi.
  destruct Hi as (e & _ & Hr & Hr' & _). vm_compute. by eexists.
Defined.

(** ** Identities *)

(** The module a/b. *)
Definition sample_importer : ModuleIdentity nat := {| mi_root := 1; mi_path := [97; slash; 98]%N |}.

(** From a/b, ../c is the module c; the request leaves no root. *)
Lemma canonical_identity_spec_witness : exists id,
  canonical_identity identity_policy 1 (Some sample_importer) [dot; dot; slash; 99]%N = Ok id /\ is_canonical id.
Proof.
  assert (forall i, Some sample_importer = Some i -> is_canonical i) as Hi.
  { intros i [= <-]. exists [[97]; [98]]%N. split; [done|]. split; [|done]. apply Forall_forall.
    intros part [->|[->|[]%elem_of_nil]%elem_of_cons]%elem_of_cons; (split_and!; [done..|by intros Hc%list_elem_of_singleton|by intros Hc%list_elem_of_singleton]). }
  pose proof (canonical_identity_spec identity_policy 1 (Some sample_importer) [dot; dot; slash; 99]%N _ Hi eq_refl) as Hs.
  destruct (canonical_identity identity_policy 1 (Some sample_importer) [dot; dot; slash; 99]%N) as [id|e| |] eqn:He; [|discriminate He..].
  exists id. split; [done|]. apply Hs.
Defined.

(** A name that begins with a dot is resolved against the importer, though it is
    neither ./ nor ../ . *)
Example hidden_name_is_relative :
  canonical_identity identity_policy 1 (Some sample_importer) [dot; 99]%N = Ok {| mi_root := 1; mi_path := [97; slash; dot; 99]%N |} /\
  canonical_identity (Sym := nat) identity_policy 1 None [dot; 99]%N = Err NoImporter.
Proof. by vm_compute. Qed.

(** ** The loader *)

Abbreviation SampleSystem := (System nat nat nat unit nat).

Definition sample_cycle (id : ModuleIdentity nat) : nat := 0.

Definition sample_id : ModuleIdentity nat := {| mi_root := 1; mi_path := [97]%N |}.

Definition other_id : ModuleIdentity nat := {| mi_root := 1; mi_path := [98]%N |}.

(** One step of a thread. *)
Definition loads (t : nat) id (y : SampleSystem) : SampleSystem :=
  let '(b, s) := begin_load sample_cycle (sy_loader y) t id in update y t (after_begin (thread_of y t) id b) s.

Definition reloads (t : nat) id (y : SampleSystem) : SampleSystem :=
  let '(b, s) := begin_reload (sy_loader y) t id in update y t (after_begin (thread_of y t) id b) s.

Definition finishes (t : nat) source (y : SampleSystem) : SampleSystem :=
  match th_frames (thread_of y t) with
  | f :: rest => update y t {| th_frames := rest; th_waits := None |} (finish_load (sy_loader y) (fr_identity f) (fr_generation f) (fr_binding f) source).2
  | [] => y
  end.

(** Thread 1 loads the module; then thread 2 begins to reload it. *)
Definition sample_loaded : SampleSystem := finishes 1 (SAdmission BrokerAdmitted () (inl 10)) (loads 1 sample_id new_system).

Definition sample_reloading : SampleSystem := reloads 2 sample_id sample_loaded.

Definition sample_frame : Frame := {| fr_identity := sample_id; fr_generation := 2; fr_binding := {| bc_name := [97]%N; bc_slot := 0 |} |}.

Lemma sample_loaded_nsteps : nsteps (some_step sample_cycle) 2 new_system sample_loaded.
Proof.
  eapply nsteps_l; [exists 1; by apply (step_load _ _ 1 sample_id)|]. apply nsteps_once. exists 1.
  refine (step_finish _ _ 1 {| fr_identity := sample_id; fr_generation := 1; fr_binding := {| bc_name := [97]%N; bc_slot := 0 |} |} []
    (SAdmission BrokerAdmitted () (inl 10)) _ _ _); [|reflexivity..]. split; [by eexists|done].
Qed.

Lemma sample_reloading_nsteps : nsteps (some_step sample_cycle) 1 sample_loaded sample_reloading.
Proof. apply nsteps_once. exists 2. by apply (step_reload _ _ 2 sample_id). Qed.

Definition sample_instance : ModuleInstance nat :=
  {| in_identity := sample_id; in_generation := 1; in_export := {| bc_name := [97]%N; bc_slot := 0 |} |}.

(** While the module is reloaded the receipts of the first load are kept, and its
    generation is linked once. *)
Lemma module_history_witness : lo_receipts (sy_loader sample_loaded) `prefix_of` lo_receipts (sy_loader sample_reloading) /\
  NoDup (omap linked_key (lo_receipts (sy_loader sample_loaded))).
Proof.
  destruct (module_history sample_cycle 2 1 sample_loaded sample_reloading sample_loaded_nsteps sample_reloading_nsteps) as (_ & _ & Hr & Hl).
  split; [exact Hr|apply Hl; vm_compute; discriminate].
Defined.

(** A reload of a module at the last generation begins at generation zero. *)
Example reload_wraps : (begin_reload (set_cache (sy_loader (new_system : SampleSystem)) sample_id
    (CLinked {| in_identity := sample_id; in_generation := u64_max; in_export := in_export sample_instance |})) 1 sample_id).1 =
  BBegin 0 (in_export sample_instance).
Proof. vm_compute. reflexivity. Qed.

(** The instance of the first load reads the value of the second. *)
Lemma reload_updates_importers_witness :
  cell_get (lo_cells (sy_loader (finishes 2 (SAdmission BrokerAdmitted () (inl 20)) sample_reloading))) (in_export sample_instance) = Ok 20.
Proof.
  refine (proj2 (reload_updates_importers sample_cycle sample_loaded sample_reloading sample_id sample_instance 2 sample_frame []
    BrokerAdmitted () 20 _ _ (rtc_nsteps_2 _ _ _ sample_loaded_nsteps) (rtc_nsteps_2 _ _ _ sample_reloading_nsteps) _ _ _ _)); reflexivity.
Defined.

(** Threads 1 and 2 load two modules that import each other. *)
Definition sample_deadlock : SampleSystem := loads 2 sample_id (loads 1 other_id (loads 2 other_id (loads 1 sample_id new_system))).

Example sample_deadlock_reached : rtc (some_step sample_cycle) new_system sample_deadlock /\ deadlocked sample_deadlock 1 2 sample_id other_id.
Proof.
  split; [|split_and!; [done|reflexivity|reflexivity|by exists 1%N|by exists 1%N]].
  eapply rtc_l; [exists 1; by apply (step_load _ _ 1 sample_id)|]. eapply rtc_l; [exists 2; by apply (step_load _ _ 2 other_id)|].
  eapply rtc_l; [exists 1; by apply (step_load _ _ 1 other_id)|]. eapply rtc_l; [exists 2; by apply (step_load _ _ 2 sample_id)|reflexivity].
Qed.

(** ** Pattern samples

    Runs of the pattern engine on small inputs: the instances of the theorems
    with hypotheses, and inputs on which the code does something other than its
    documentation says. *)

#[local] Open Scope string_scope.
#[local] Open Scope list_scope.

(** The characters of an ASCII string. *)
Fixpoint chars_of (s : string) : list N :=
  match s with EmptyString => [] | String c s => N_of_ascii c :: chars_of s end.

(** The span of a match in bytes. *)
Definition span_of (r : Res Empty_set PatternSearchOutcome) : option (N * N * list (N * N)) :=
  match r with Ok (PMatch m _) => Some (tm_start m, tm_end m, tm_captures m) | _ => None end.

Definition run_lua (pattern subject : string) : option (N * N * list (N * N)) :=
  match compile_lua_pattern (chars_of pattern) with
  | Ok ops => span_of (run_text_pattern ops (chars_of subject) 0 default_text_limits)
  | _ => None
  end.

Definition run_glob (pattern subject : string) : option (N * N * list (N * N)) :=
  match compile_glob_pattern (chars_of pattern) with
  | Ok ops => span_of (run_text_pattern ops (chars_of subject) 0 default_text_limits)
  | _ => None
  end.

Example lua_samples :
  run_lua "%b()" "x(a(b)c)y" = Some (1, 8, [])%N /\
  run_lua "(%a+)%s+(%d+)" "id 42" = Some (0, 5, [(0, 2); (3, 5)])%N /\
  run_lua "^a-$" "aab" = None /\
  run_lua "%f[%a]%a+" "12ab" = Some (2, 4, [])%N.
Proof. vm_compute. done. Qed.

Example glob_samples :
  run_glob "*.rs" "lib.rs" = Some (0, 6, [])%N /\ run_glob "f[!0-9].t?t" "fa.txt" = Some (0, 6, [])%N /\ run_glob "a*b" "acbd" = None.
Proof. vm_compute. done. Qed.

(** ** Instances *)

Definition ab_pattern : IrNode N unit := NConcat [NCapture 1 (NRepeat (NSymbol 97%N) {| rb_min := 1; rb_max := None |} true); NSymbol 98%N].

Definition ab_ir : PatternIr N unit := {| ir_root := ab_pattern; ir_assertions := ∅ |}.

Definition no_extensions : EnginePolicy unit := {| admitted_extensions := [] |}.

(** A pattern with an assertion: a symbol, and after it an [a] and a [b]. *)
Definition ahead_root : IrNode N unit := NConcat [NCapture 1 NAny; NAssertion 1].

Definition ahead_assertions : BTree.BTreeMap AssertionId (IrNode N unit) := {[1%N := NConcat [NSymbol 97%N; NSymbol 98%N]]}.

Definition ahead_ir : PatternIr N unit := {| ir_root := ahead_root; ir_assertions := ahead_assertions |}.

Lemma search_regular_spec_witness :
  match compile ahead_ir with
  | Ok a => exists o, search_regular (fun _ _ => false) a [120; 97; 97; 98]%N 0 default_text_limits = Ok o /\
      answers (means (single_match (fun _ _ => false)) ahead_ir [120; 97; 97; 98]%N) ahead_ir [120; 97; 97; 98]%N 0 default_text_limits o
  | _ => False
  end.
Proof.
  assert (match compile ahead_ir with Ok _ => True | _ => False end) as Hc by (vm_compute; done).
  destruct (compile ahead_ir) as [a|e| |] eqn:Ha; [|done..].
  apply (search_regular_spec (fun _ _ => false) ahead_root ahead_assertions no_extensions ahead_ir a [120; 97; 97; 98]%N 0 default_text_limits).
  - vm_compute. reflexivity.
  - exact Ha.
  - vm_compute. discriminate.
  - intros id d Hd. unfold ahead_assertions in Hd. apply lookup_singleton_Some in Hd as [_ <-]. reflexivity.
Defined.

(** A [b], or one or two symbols, preferably one, captured; then all others. *)
Definition lazy_pattern : IrNode N unit :=
  NConcat [NAlternation [NSymbol 98%N; NCapture 1 (NRepeat NAny {| rb_min := 1; rb_max := Some 2%N |} false)]; NRepeat NAny {| rb_min := 0; rb_max := None |} true].

Definition lazy_ir : PatternIr N unit := {| ir_root := lazy_pattern; ir_assertions := ∅ |}.

Definition lazy_matcher (s : nat) : option (list Point) := results (single_match (fun _ _ => false)) [97; 98; 99]%N 4 lazy_pattern (s, ∅).

Lemma search_first_witness :
  match compile lazy_ir with
  | Ok a => (exists o, search_regular (fun _ _ => false) a [97; 98; 99]%N 0 default_text_limits = Ok o /\ first_from lazy_matcher 3 0 o) /\
      forall s ys y, lazy_matcher s = Some ys -> y ∈ ys <-> parse (single_match (fun _ _ => false)) no_assertions [97; 98; 99]%N lazy_pattern (s, ∅) y
  | _ => False
  end.
Proof.
  assert (match compile lazy_ir with Ok _ => True | _ => False end) as Hc by (vm_compute; done).
  destruct (compile lazy_ir) as [a|e| |] eqn:Ha; [|done..].
  apply (search_first (fun _ _ => false) lazy_pattern ∅ no_extensions lazy_ir a [97; 98; 99]%N 0 default_text_limits 4).
  - vm_compute. reflexivity.
  - exact Ha.
  - vm_compute. discriminate.
  - intros s Hs. simpl in Hs. do 4 (destruct s as [|s]; [by vm_compute|]). lia.
Defined.

Lemma compile_well_formed_witness :
  match compile ab_ir with Ok a => table_ok (a_states a) /\ a_start a < length (a_states a) | _ => False end.
Proof.
  assert (match compile ab_ir with Ok _ => True | _ => False end) as Hc by (vm_compute; done).
  destruct (compile ab_ir) as [a|e| |] eqn:Ha; [|done..].
  exact (proj1 (compile_well_formed ab_ir a Ha)).
Defined.

Definition lua_sample : list N := chars_of "(a+)b".

Definition lua_sample_ir : PatternIr N LuaExtension :=
  match lua_compile_ir lua_sample with Ok ir => ir | _ => {| ir_root := NAny; ir_assertions := ∅ |} end.

Definition lua_sample_ops : list TextOp := match compile_lua_pattern lua_sample with Ok ops => ops | _ => [] end.

Lemma lua_run_spec_witness :
  exists o, run_text_pattern lua_sample_ops (chars_of "xaab") 1 default_text_limits = Ok (text_outcome (new_cursor_text (chars_of "xaab")) o) /\
    search_answer_ok text_extension_match (lua_text_ir lua_sample_ir) (chars_of "xaab") 1 default_text_limits o /\
    first_from (text_matcher (lua_text_ir lua_sample_ir) (chars_of "xaab")) (length (chars_of "xaab")) 1 o.
Proof.
  apply (lua_run_spec lua_sample lua_sample_ops lua_sample_ir (chars_of "xaab") 1%N 1 default_text_limits).
  - vm_compute. reflexivity.
  - vm_compute. reflexivity.
  - vm_compute. discriminate.
  - vm_compute. reflexivity.
Defined.

Definition glob_sample : list N := chars_of "*.rs".

Definition glob_sample_ir : PatternIr N GlobExtension :=
  match glob_compile_ir glob_sample with Ok ir => ir | _ => {| ir_root := NAny; ir_assertions := ∅ |} end.

Definition glob_sample_ops : list TextOp := match compile_glob_pattern glob_sample with Ok ops => ops | _ => [] end.

Lemma glob_run_spec_witness :
  exists o, run_text_pattern glob_sample_ops (chars_of "a.rs") 0 default_text_limits = Ok o /\
    match o with
    | PMatch m _ => m = {| tm_start := 0; tm_end := byte_length (chars_of "a.rs"); tm_captures := [] |} /\
        glob_matches (chars_of "a.rs") (glob_nodes glob_sample_ir) 0 (length (chars_of "a.rs"))
    | PNoMatch _ => forall i j, i <= length (chars_of "a.rs") -> ~ glob_matches (chars_of "a.rs") (glob_nodes glob_sample_ir) i j
    | PLimit l r => spent default_text_limits (OLimit l r)
    | PUnsupported _ _ => False
    end.
Proof.
  apply (glob_run_spec glob_sample glob_sample_ops glob_sample_ir (chars_of "a.rs") default_text_limits).
  - vm_compute. reflexivity.
  - vm_compute. reflexivity.
  - vm_compute. discriminate.
Defined.

(** ** Divergences *)

Definition span_of_run (r : Res Empty_set ExecutionOutcome) : option (nat * nat) :=
  match r with Ok (OMatch m _) => Some (em_start m, em_end m) | _ => None end.

(** Any symbol, then an assertion that the subject starts here, then a symbol. *)
Definition anchored_inside : PatternIr N unit :=
  {| ir_root := NConcat [NAny; NAssertion 1; NAny]; ir_assertions := {[1%N := NAnchor SubjectStart]} |}.

(** An anchor inside an assertion is tested against the assertion's window and
    not against the subject: the subject start is found at offset 1. *)
Theorem assertion_anchor_is_local :
  match compile anchored_inside with
  | Ok a => span_of_run (search_regular (fun _ _ => false) a [97; 98]%N 0 default_text_limits) = Some (0, 2)
  | _ => False
  end.
Proof. vm_compute. done. Qed.

Definition failing_assertion : PatternIr N unit :=
  {| ir_root := NAssertion 1; ir_assertions := {[1%N := NConcat [NSymbol 97%N; NSymbol 98%N]]} |}.

(** The work of an assertion that fails is not in the receipt: the assertion's
    program takes two transitions on the window, the whole execution reports one. *)
Theorem failed_assertion_is_free :
  match compile failing_assertion, compile_node (NConcat [NSymbol 97%N; NSymbol 98%N] : IrNode N unit) with
  | Ok a, Ok p =>
    match execute_regular (fun _ _ => false) a [97; 99]%N default_text_limits, execute_regular (fun _ _ => false) p [97; 99]%N default_text_limits with
    | Ok (ONoMatch r), Ok (ONoMatch rp) => r_transitions rp = 2%N /\ r_transitions r = 1%N
    | _, _ => False
    end
  | _, _ => False
  end.
Proof. vm_compute. done. Qed.

(** Balanced text with equal delimiters ends at its first character. *)
Theorem balanced_equal_delimiters : forall text i q, text !! i = Some q -> match_balanced text i q q = Some (S i).
Proof.
  intros text i q Hi. unfold match_balanced. rewrite decide_True by done. rewrite (drop_S _ _ _ Hi). simpl. by rewrite N.eqb_refl.
Qed.
