(* ===== verification/OperationWire.v ===== *)
(** * The wire form of operations

    crates/sim-lib-operation-gate/src/operation_wire.rs, operation_error.rs and
    the common parts of lifecycle_wire.rs: tagged nodes with named fields, content
    identities and unsigned numbers as datums, and the checks that reading one
    makes.  What is written is read back ([id_round_trip], [u64_field_node]). *)

From Stdlib Require Import Ascii.
From stdpp Require Import strings pretty.
From S2P Require Import Prelude KernelDatum.

(** ** Errors *)

Section Errors.
Context {Datum JournalError : Type}.

Inductive OperationError :=
| AcceptanceConsumed
| Cancelled
| PreparationUnavailable (d : Datum)
| PreparationDisposition (cause disposition : OperationError)
| EmptyOperation
| NonCanonical (what : string)
| ContradictoryIntent
| GrantMismatch
| AttemptMismatch
| InvalidLease
| ObserverNotIndependent
| ObserverMismatch
| PerformerMismatch
| DuplicateIntent
| InvalidTransition (what : string)
| NotResumed
| SequenceExhausted
| Journal_ (e : JournalError).
End Errors.
#[global] Arguments OperationError : clear implicits.

(** ** Numbers *)

(** [u64::from_str] over the digits. *)
Definition digit_value (c : ascii) : option N :=
  let n := N_of_ascii c in if (48 <=? n)%N && (n <=? 57)%N then Some (n - 48)%N else None.

Fixpoint parse_digits (s : string) (acc : N) : option N :=
  match s with
  | EmptyString => Some acc
  | String c s =>
    match digit_value c with
    | Some d => let acc := (acc * 10 + d)%N in if (acc <=? u64_max)%N then parse_digits s acc else None
    | None => None
    end
  end.

Definition parse_u64 (s : string) : option N :=
  let body := match s with String c rest => if ascii_dec c "+" then rest else s | EmptyString => s end in
  match body with EmptyString => None | _ => parse_digits body 0 end.

(** Numbers are read back. *)
Lemma digit_pretty n : (n < 10)%N -> digit_value (pretty_N_char n) = Some n.
Proof.
  intros Hn. assert (Forall (fun n => digit_value (pretty_N_char n) = Some n) (N.of_nat <$> seq 0 10)) as Hf by repeat constructor.
  eapply Forall_forall in Hf; [exact Hf|]. apply list_elem_of_fmap. exists (N.to_nat n). rewrite elem_of_seq. lia.
Qed.

Lemma parse_pretty_go n : forall s, (n <= u64_max)%N -> parse_digits (pretty_N_go n s) 0 = parse_digits s n.
Proof.
  induction (N.lt_wf_0 n) as [n _ IH]. intros s Hn. destruct (decide (0 < n)%N) as [Hp|Hz].
  - assert (n / 10 < n)%N as Hlt by (apply N.div_lt; lia). rewrite pretty_N_go_step, IH by (done || lia).
    cbn [parse_digits]. rewrite digit_pretty by (by apply N.mod_lt).
    pose proof (N.div_mod n 10 ltac:(done)) as Hdm. replace (n / 10 * 10 + n `mod` 10)%N with n by lia.
    by rewrite (proj2 (N.leb_le _ _)).
  - assert (n = 0%N) as -> by lia. by rewrite pretty_N_go_0.
Qed.

Lemma parse_u64_pretty (n : N) : (n <= u64_max)%N -> parse_u64 (pretty n) = Some n.
Proof.
  intros Hn. unfold pretty, pretty_N. destruct (decide (n = 0)%N) as [->|Hne]; [done|].
  pose proof (parse_pretty_go n "" Hn) as Hp. cbn [parse_digits] in Hp. unfold parse_u64.
  destruct (pretty_N_go n "") as [|c rest]; [cbn [parse_digits] in Hp; congruence|].
  destruct (ascii_dec c "+") as [->|_]; [done|exact Hp].
Qed.

Section Wire.
Context {Datum Symbol ContentId JournalError : Type} `{KernelDatum Datum Symbol ContentId}.
Abbreviation OperationError := (OperationError Datum JournalError).
Abbreviation Fields := (list (Symbol * Datum)).
Implicit Types (d : Datum) (id : ContentId) (fields : Fields).

Definition content_id d : Res OperationError ContentId := map_err (fun _ => NonCanonical "semantic datum") (datum_content_id d).

Definition same_optional_datum (left right : option Datum) : bool :=
  match left, right with Some l, Some r => same_datum l r | None, None => true | _, _ => false end.

Definition node (tag : string) (fields : list (string * Datum)) : Datum :=
  d_node (symbol_qualified "operation" tag) ((fun f => (symbol_new f.1, f.2)) <$> fields).

Definition has_tag d (tag : string) : bool :=
  match d_view d with VNode observed _ => bool_decide (observed = symbol_qualified "operation" tag) | _ => false end.

Definition node_fields d (tag : string) (count : nat) : Res OperationError Fields :=
  match d_view d with
  | VNode observed fields =>
    if decide (observed <> symbol_qualified "operation" tag \/ length fields <> count) then Err (NonCanonical tag) else Ok fields
  | _ => Err (NonCanonical tag)
  end.

Definition field fields (name : string) : Res OperationError Datum :=
  match filter (fun f => as_qualified_str f.1 = name) fields with
  | [] => Err (NonCanonical "missing field")
  | [f] => Ok f.2
  | _ => Err (NonCanonical "duplicate field")
  end.

Definition string_field fields (name : string) : Res OperationError string :=
  let? d := field fields name in
  match d_view d with VString s => Ok s | _ => Err (NonCanonical "string field") end.

Definition u64_field fields (name : string) : Res OperationError N :=
  let? d := field fields name in
  match d_view d with
  | VNumber domain canonical =>
    if decide (domain = symbol_qualified "numbers" "u64") then ok_or (NonCanonical "u64 field") (parse_u64 canonical)
    else Err (NonCanonical "u64 field")
  | _ => Err (NonCanonical "u64 field")
  end.

Definition id_datum id : Datum := node "content-id-v1" [("algorithm", d_symbol (id_algorithm id)); ("digest", d_bytes (id_bytes id))].

Definition id_from_datum d : Res OperationError ContentId :=
  let? fields := node_fields d "content-id-v1" 2 in
  let? a := field fields "algorithm" in
  match d_view a with
  | VSymbol algorithm =>
    let? g := field fields "digest" in
    match d_view g with
    | VBytes bytes =>
      if decide (length bytes = 32) then
        let id := id_from_bytes algorithm bytes in
        if same_datum (id_datum id) d then Ok id else Err (NonCanonical "content id")
      else Err (NonCanonical "content id width")
    | _ => Err (NonCanonical "content id digest")
    end
  | _ => Err (NonCanonical "content id algorithm")
  end.

Definition optional_id_datum (o : option ContentId) : Datum := match o with None => d_nil | Some id => id_datum id end.

(** [*datum == Datum::Nil]. *)
Definition is_nil d : bool := match d_view d with VNil => true | _ => false end.

Definition optional_id d : Res OperationError (option ContentId) :=
  if is_nil d then Ok None else let? id := id_from_datum d in Ok (Some id).

(** Reading is reading the canonical form. *)
Definition check_canonical {A} (what : string) (canonical : Datum) d (value : A) : Res OperationError A :=
  if same_datum canonical d then Ok value else Err (NonCanonical what).

(** ** What is written is read back *)

Section Laws.
Context {laws : KernelDatumLaws Datum Symbol ContentId}.
#[local] Set Default Proof Using "Type".

Lemma node_fields_node tag (l : list (string * Datum)) count : length l = count -> node_fields (node tag l) tag count = Ok ((fun f => (symbol_new f.1, f.2)) <$> l).
Proof using laws.
  intros <-. unfold node_fields, node. rewrite view_node, decide_False; [done|]. rewrite length_fmap. naive_solver.
Qed.

Lemma has_tag_node tag tag' (l : list (string * Datum)) : has_tag (node tag l) tag' = bool_decide (tag = tag').
Proof using laws.
  unfold has_tag, node. rewrite view_node. apply bool_decide_ext. split; [by intros [_ ?]%(inj2 symbol_qualified)|by intros ->].
Qed.

(** Looking up a field by its name. *)
Definition named (l : list (string * Datum)) (name : string) : Res OperationError Datum :=
  match filter (fun f => f.1 = name) l with
  | [] => Err (NonCanonical "missing field")
  | [f] => Ok f.2
  | _ => Err (NonCanonical "duplicate field")
  end.

Lemma field_node (l : list (string * Datum)) name : field ((fun f => (symbol_new f.1, f.2)) <$> l) name = named l name.
Proof using laws.
  unfold field, named.
  assert (filter (fun f => as_qualified_str f.1 = name) ((fun f => (symbol_new f.1, f.2)) <$> l) =
    (fun f => (symbol_new f.1, f.2)) <$> filter (fun f => f.1 = name) l) as ->.
  { induction l as [|[n v] l IH]; [done|]. cbn [fmap list_fmap fst snd]. rewrite !filter_cons. cbn [fst snd]. rewrite qualified_str_new.
    cbn [fmap list_fmap] in IH. rewrite IH. by destruct (decide (n = name)). }
  destruct (filter _ l) as [|f [|g l']]; done.
Qed.

Definition canonical d : Prop := exists l, canonical_bytes d = Ok l.

Lemma canonical_content_id d : canonical d <-> exists c, content_id d = Ok c.
Proof using laws.
  unfold canonical. rewrite <- content_id_canonical. unfold content_id. split; intros [c Hc]; exists c; [by rewrite Hc|].
  by destruct (datum_content_id d); simplify_eq/=.
Qed.

Lemma canonical_refl d : canonical d -> same d d.
Proof using laws. intros [l Hl]. unfold same_datum. rewrite Hl. by apply bool_decide_eq_true. Qed.

Lemma canonical_parts tag (l : list (string * Datum)) : canonical (node tag l) -> Forall canonical l.*2.
Proof using laws. intros [b Hb]. apply node_parts in Hb. by rewrite <- list_fmap_compose in Hb. Qed.

Lemma id_round_trip id : canonical (id_datum id) -> id_from_datum (id_datum id) = Ok id.
Proof using laws.
  intros Hc. unfold id_from_datum. 
  assert (node_fields (id_datum id) "content-id-v1" 2 = Ok _) as -> by by apply node_fields_node. cbn [rbind].
  rewrite !field_node. cbn [named filter list_filter fst]. simpl. rewrite view_symbol, view_bytes, decide_True by apply id_bytes_length.
  rewrite id_from_parts. by rewrite canonical_refl.
Qed.

Lemma id_datum_same id id' : same (id_datum id) (id_datum id') -> id = id'.
Proof using laws.
  intros Hs. unfold id_datum, node in Hs. cbn [fmap list_fmap fst snd] in Hs. same_node Hs. 
  match goal with Hx : same (d_symbol _) (d_symbol _) |- _ => apply same_symbol in Hx as Ha end.
  match goal with Hx : same (d_bytes _) (d_bytes _) |- _ => apply same_bytes in Hx as Hb end.
  by rewrite <- (id_from_parts id), <- (id_from_parts id'), Ha, Hb.
Qed.

Lemma optional_id_round_trip o : canonical (optional_id_datum o) -> optional_id (optional_id_datum o) = Ok o.
Proof using laws.
  unfold optional_id, is_nil. destruct o as [id|]; cbn [optional_id_datum]; [|by rewrite view_nil].
  intros Hc. unfold id_datum at 1, node. rewrite view_node, id_round_trip by done. done.
Qed.

Lemma u64_field_node (l : list (string * Datum)) name n : (n <= u64_max)%N -> named l name = Ok (u64_datum n) ->
  u64_field ((fun f => (symbol_new f.1, f.2)) <$> l) name = Ok n.
Proof using laws.
  intros Hn Hl. unfold u64_field. rewrite field_node, Hl. cbn [rbind]. unfold u64_datum. rewrite view_number, decide_True by done.
  by rewrite parse_u64_pretty.
Qed.
End Laws.
End Wire.

