(* ===== verification/OperationData.v ===== *)
(** * The data of operations

    crates/sim-lib-operation-gate/src/durable.rs, lifecycle.rs,
    lifecycle_wire.rs, lifecycle_observation.rs, lifecycle_reservation.rs,
    lifecycle_preparation.rs, lifecycle_release.rs, lifecycle_cancellation.rs and
    the outcomes of lifecycle_record.rs: what a durable operation is made of, its
    canonical datums, its identities and the reading of datums.  The identity
    newtypes are content identities, a capability name is its string.

    [with_preparation] and [with_release] change the tag and push a field of the
    node they are given; they are given one each time, and here its tag and
    fields. *)

From stdpp Require Import strings.
From S2P Require Import Prelude KernelDatum OperationWire.

Inductive ReplayPolicy := Idempotent | ExactlyOnce.

#[global] Instance replay_policy_eq_dec : EqDecision ReplayPolicy.
Proof. solve_decision. Defined.

Inductive OperationStep :=
| IntentPersisted | LeaseAcquired | DispatchPersisted | PreparationPersisted | ReservationIntentPersisted
| ReleaseIntentPersisted | ReceiptPersisted | ObservationPersisted | OutcomePersisted.

#[global] Instance operation_step_eq_dec : EqDecision OperationStep.
Proof. solve_decision. Defined.

Section Records.
Context {Datum ContentId : Type}.

Record OperationIntent := { intent_id : ContentId; intent_operation : string; target : Datum; intended_result : Datum; replay_policy : ReplayPolicy }.

Record OperationGrant := { grant_id : ContentId; grant_operation : ContentId; capability : string; authority : Datum }.

Record OperationAttempt := { attempt_id : ContentId; attempt_operation : ContentId; ordinal : N }.

Record OperationDispatch := { od_id : ContentId; od_operation : ContentId; od_grant : ContentId; od_attempt : ContentId }.

Record PerformerReceipt := { pr_id : ContentId; pr_dispatch : ContentId; pr_raw : Datum }.

Record LeaseWindow := { w_holder : Datum; w_clock : option Datum; w_acquired_at : N; w_expires_at : N }.

Record OperationLease := {
  lease_id : ContentId;
  lease_operation : ContentId;
  holder : Datum;
  lease_clock : option Datum;
  fence : N;
  acquired_at : N;
  expires_at : N;
}.

Record FencedDispatch := {
  dispatch_id : ContentId;
  dispatch_operation : ContentId;
  dispatch_grant : ContentId;
  dispatch_attempt : ContentId;
  dispatch_lease : ContentId;
  performer : Datum;
}.

Record LifecycleReceipt := { receipt_id : ContentId; receipt_dispatch : ContentId; raw : Datum; receipt_release : option ContentId }.

Record LifecycleReservation := { reservation_id : ContentId; reservation_dispatch : ContentId; destination : Datum }.

Record LifecyclePreparation := {
  preparation_id : ContentId;
  preparation_dispatch : ContentId;
  binding : Datum;
  preparation_reservation : option ContentId;
}.

Record LifecycleRelease := { release_id : ContentId; release_dispatch : ContentId; release_preparation : ContentId; release_lease : ContentId }.

Record LifecycleCancellation := { cancellation_id : ContentId; cancellation_operation : ContentId; cancellation_grant : ContentId; reason : Datum }.

Inductive PostconditionResponse :=
| Satisfied (observed evidence : Datum)
| NotSatisfied (observed evidence : Datum)
| Unavailable (reason : Datum)
| Disputed (first second : Datum).

Record PostconditionRequest := {
  rq_operation : ContentId;
  rq_target : Datum;
  rq_expected : Datum;
  rq_dispatch : option ContentId;
  rq_receipt : option ContentId;
  rq_preparation : option LifecyclePreparation;
  rq_reservation : option LifecycleReservation;
  rq_release : option LifecycleRelease;
  rq_clock : option Datum;
  rq_last_durable_step : OperationStep;
  rq_observed_at : N;
}.

Record OperationObservation := {
  observation_id : ContentId;
  observation_operation : ContentId;
  observer : Datum;
  response : PostconditionResponse;
  observation_dispatch : option ContentId;
  observation_receipt : option ContentId;
  observation_preparation : option ContentId;
  observation_release : option ContentId;
  observation_clock : option Datum;
  observation_reservation : option ContentId;
  last_durable_step : OperationStep;
  observed_at : N;
  evidence : ContentId;
}.

Inductive OperationOutcome :=
| AlreadyTrue (evidence : ContentId)
| Verified (evidence : ContentId)
| Diverged (observed expected : Datum)
| Uncertain (last_durable_step : OperationStep).

Record IdentifiedOutcome := { outcome_id : ContentId; outcome_operation : ContentId; outcome_observation : ContentId; outcome_value : OperationOutcome }.

(** ** Leases in time *)

Definition is_live_at (l : OperationLease) (now : N) : bool := (acquired_at l <=? now)%N && (now <? expires_at l)%N.

End Records.
#[global] Arguments OperationIntent : clear implicits.
#[global] Arguments OperationGrant : clear implicits.
#[global] Arguments OperationAttempt : clear implicits.
#[global] Arguments OperationDispatch : clear implicits.
#[global] Arguments PerformerReceipt : clear implicits.
#[global] Arguments LeaseWindow : clear implicits.
#[global] Arguments OperationLease : clear implicits.
#[global] Arguments FencedDispatch : clear implicits.
#[global] Arguments LifecycleReceipt : clear implicits.
#[global] Arguments LifecycleReservation : clear implicits.
#[global] Arguments LifecyclePreparation : clear implicits.
#[global] Arguments LifecycleRelease : clear implicits.
#[global] Arguments LifecycleCancellation : clear implicits.
#[global] Arguments PostconditionResponse : clear implicits.
#[global] Arguments PostconditionRequest : clear implicits.
#[global] Arguments OperationObservation : clear implicits.
#[global] Arguments OperationOutcome : clear implicits.
#[global] Arguments IdentifiedOutcome : clear implicits.

Section Data.
Context {Datum Symbol ContentId JournalError : Type} `{KernelDatum Datum Symbol ContentId}.
Abbreviation Result A := (Res (OperationError Datum JournalError) A).
Implicit Types (d : Datum) (id operation dispatch : ContentId).

Definition expired_as_of (l : OperationLease Datum ContentId) (clock : option Datum) (observed_at : N) : bool :=
  same_optional_datum (lease_clock l) clock && (expires_at l <=? observed_at)%N.

(** ** Intents, grants and attempts *)

Definition policy_datum (p : ReplayPolicy) : Datum :=
  d_symbol (symbol_qualified "operation" (match p with Idempotent => "idempotent" | ExactlyOnce => "exactly-once" end)).

Definition policy_from_datum d : Result ReplayPolicy :=
  match d_view d with
  | VSymbol value =>
    if decide (value = symbol_qualified "operation" "idempotent") then Ok Idempotent
    else if decide (value = symbol_qualified "operation" "exactly-once") then Ok ExactlyOnce
    else Err (NonCanonical "replay policy")
  | _ => Err (NonCanonical "replay policy")
  end.

Definition intent_fields_datum (op : string) (target intended_result : Datum) (p : ReplayPolicy) : Datum :=
  node "intent-v1" [("operation", d_string op); ("target", target); ("intended-result", intended_result); ("replay-policy", policy_datum p)].

Definition new_intent (op : string) (target intended_result : Datum) (p : ReplayPolicy) : Result (OperationIntent Datum ContentId) :=
  match op with
  | EmptyString => Err EmptyOperation
  | _ =>
    let? id := content_id (intent_fields_datum op target intended_result p) in
    Ok {| intent_id := id; intent_operation := op; target := target; intended_result := intended_result; replay_policy := p |}
  end.

Definition intent_datum (i : OperationIntent Datum ContentId) : Datum :=
  intent_fields_datum (intent_operation i) (target i) (intended_result i) (replay_policy i).

Definition intent_verify (i : OperationIntent Datum ContentId) : Result unit :=
  let? id := content_id (intent_datum i) in if decide (id = intent_id i) then Ok tt else Err ContradictoryIntent.

Definition intent_from_datum d : Result (OperationIntent Datum ContentId) :=
  let? fields := node_fields d "intent-v1" 4 in
  let? op := string_field fields "operation" in
  let? target := field fields "target" in
  let? intended_result := field fields "intended-result" in
  let? p := field fields "replay-policy" in
  let? p := policy_from_datum p in
  let? value := new_intent op target intended_result p in
  check_canonical "operation intent" (intent_datum value) d value.

Definition grant_fields_datum operation (capability : string) (authority : Datum) : Datum :=
  node "grant-v1" [("operation", id_datum operation); ("capability", d_string capability); ("authority", authority)].

Definition new_grant operation (capability : string) (authority : Datum) : Result (OperationGrant Datum ContentId) :=
  let? id := content_id (grant_fields_datum operation capability authority) in
  Ok {| grant_id := id; grant_operation := operation; capability := capability; authority := authority |}.

Definition grant_datum (g : OperationGrant Datum ContentId) : Datum := grant_fields_datum (grant_operation g) (capability g) (authority g).

Definition grant_verify (g : OperationGrant Datum ContentId) : Result unit :=
  let? id := content_id (grant_datum g) in if decide (id = grant_id g) then Ok tt else Err (NonCanonical "operation grant").

Definition grant_from_datum d : Result (OperationGrant Datum ContentId) :=
  let? fields := node_fields d "grant-v1" 3 in
  let? o := field fields "operation" in
  let? operation := id_from_datum o in
  let? capability := string_field fields "capability" in
  let? authority := field fields "authority" in
  let? value := new_grant operation capability authority in
  check_canonical "operation grant" (grant_datum value) d value.

Definition attempt_fields_datum operation (ordinal : N) : Datum := node "attempt-v1" [("operation", id_datum operation); ("ordinal", u64_datum ordinal)].

Definition new_attempt operation (ordinal : N) : Result (OperationAttempt ContentId) :=
  let? id := content_id (attempt_fields_datum operation ordinal) in
  Ok {| attempt_id := id; attempt_operation := operation; ordinal := ordinal |}.

Definition attempt_datum (a : OperationAttempt ContentId) : Datum := attempt_fields_datum (attempt_operation a) (ordinal a).

Definition attempt_verify (a : OperationAttempt ContentId) : Result unit :=
  let? id := content_id (attempt_datum a) in if decide (id = attempt_id a) then Ok tt else Err (NonCanonical "operation attempt").

Definition attempt_from_datum d : Result (OperationAttempt ContentId) :=
  let? fields := node_fields d "attempt-v1" 2 in
  let? o := field fields "operation" in
  let? operation := id_from_datum o in
  let? ordinal := u64_field fields "ordinal" in
  let? value := new_attempt operation ordinal in
  check_canonical "operation attempt" (attempt_datum value) d value.

(** ** Direct dispatches and receipts *)

Definition direct_dispatch_fields_datum operation grant attempt : Datum :=
  node "dispatch-v1" [("operation", id_datum operation); ("grant", id_datum grant); ("attempt", id_datum attempt)].

Definition new_direct_dispatch operation grant attempt : Result (OperationDispatch ContentId) :=
  let? id := content_id (direct_dispatch_fields_datum operation grant attempt) in
  Ok {| od_id := id; od_operation := operation; od_grant := grant; od_attempt := attempt |}.

Definition direct_dispatch_datum (x : OperationDispatch ContentId) : Datum :=
  direct_dispatch_fields_datum (od_operation x) (od_grant x) (od_attempt x).

Definition direct_dispatch_from_datum d : Result (OperationDispatch ContentId) :=
  let? fields := node_fields d "dispatch-v1" 3 in
  let? o := field fields "operation" in
  let? operation := id_from_datum o in
  let? g := field fields "grant" in
  let? grant := id_from_datum g in
  let? a := field fields "attempt" in
  let? attempt := id_from_datum a in
  let? value := new_direct_dispatch operation grant attempt in
  check_canonical "operation dispatch" (direct_dispatch_datum value) d value.

Definition performer_receipt_fields_datum dispatch (raw : Datum) : Datum := node "performer-receipt-v1" [("dispatch", id_datum dispatch); ("raw", raw)].

Definition new_performer_receipt dispatch (raw : Datum) : Result (PerformerReceipt Datum ContentId) :=
  let? id := content_id (performer_receipt_fields_datum dispatch raw) in Ok {| pr_id := id; pr_dispatch := dispatch; pr_raw := raw |}.

Definition performer_receipt_datum (x : PerformerReceipt Datum ContentId) : Datum := performer_receipt_fields_datum (pr_dispatch x) (pr_raw x).

Definition performer_receipt_from_datum d : Result (PerformerReceipt Datum ContentId) :=
  let? fields := node_fields d "performer-receipt-v1" 2 in
  let? x := field fields "dispatch" in
  let? dispatch := id_from_datum x in
  let? raw := field fields "raw" in
  let? value := new_performer_receipt dispatch raw in
  check_canonical "performer receipt" (performer_receipt_datum value) d value.

(** ** Leases *)

Definition new_window (holder : Datum) (acquired_at expires_at : N) : Result (LeaseWindow Datum) :=
  if (expires_at <=? acquired_at)%N then Err InvalidLease
  else Ok {| w_holder := holder; w_clock := None; w_acquired_at := acquired_at; w_expires_at := expires_at |}.

Definition window_in_clock (w : LeaseWindow Datum) (domain : Datum) : Result (LeaseWindow Datum) :=
  if is_nil domain then Err InvalidLease
  else let? _ := content_id domain in
    Ok {| w_holder := w_holder w; w_clock := Some domain; w_acquired_at := w_acquired_at w; w_expires_at := w_expires_at w |}.

Definition lease_fields_datum operation (holder : Datum) (fence acquired_at expires_at : N) (clock : option Datum) : Datum :=
  let fields := [("operation", id_datum operation); ("holder", holder); ("fence", u64_datum fence);
    ("acquired-at", u64_datum acquired_at); ("expires-at", u64_datum expires_at)] in
  match clock with
  | Some clock => node "bounded-clock-lease-v1" (fields ++ [("clock", clock)])
  | None => node "bounded-lease-v1" fields
  end.

Definition new_lease operation (holder : Datum) (fence acquired_at expires_at : N) : Result (OperationLease Datum ContentId) :=
  if (expires_at <=? acquired_at)%N then Err InvalidLease
  else let? id := content_id (lease_fields_datum operation holder fence acquired_at expires_at None) in
    Ok {| lease_id := id; lease_operation := operation; holder := holder; lease_clock := None; fence := fence;
          acquired_at := acquired_at; expires_at := expires_at |}.

Definition lease_datum (l : OperationLease Datum ContentId) : Datum :=
  lease_fields_datum (lease_operation l) (holder l) (fence l) (acquired_at l) (expires_at l) (lease_clock l).

Definition lease_in_clock (l : OperationLease Datum ContentId) (domain : option Datum) : Result (OperationLease Datum ContentId) :=
  if match domain with Some d => is_nil d | None => false end then Err InvalidLease
  else
    let? id := content_id (lease_fields_datum (lease_operation l) (holder l) (fence l) (acquired_at l) (expires_at l) domain) in
    Ok {| lease_id := id; lease_operation := lease_operation l; holder := holder l; lease_clock := domain; fence := fence l;
          acquired_at := acquired_at l; expires_at := expires_at l |}.

Definition lease_from_datum d : Result (OperationLease Datum ContentId) :=
  let scoped := has_tag d "bounded-clock-lease-v1" in
  let? fields := if scoped then node_fields d "bounded-clock-lease-v1" 6 else node_fields d "bounded-lease-v1" 5 in
  let? o := field fields "operation" in
  let? operation := id_from_datum o in
  let? holder := field fields "holder" in
  let? fence := u64_field fields "fence" in
  let? acquired_at := u64_field fields "acquired-at" in
  let? expires_at := u64_field fields "expires-at" in
  let? value := new_lease operation holder fence acquired_at expires_at in
  let? clock := if scoped then (let? clock := field fields "clock" in Ok (Some clock)) else Ok None in
  let? value := lease_in_clock value clock in
  check_canonical "operation lease" (lease_datum value) d value.

(** ** Fenced dispatches *)

Definition fenced_dispatch_datum operation grant attempt lease (performer : Datum) : Datum :=
  node "fenced-dispatch-v1" [("operation", id_datum operation); ("grant", id_datum grant); ("attempt", id_datum attempt);
    ("lease", id_datum lease); ("performer", performer)].

Definition new_dispatch operation grant attempt lease (performer : Datum) : Result (FencedDispatch Datum ContentId) :=
  let? id := content_id (fenced_dispatch_datum operation grant attempt lease performer) in
  Ok {| dispatch_id := id; dispatch_operation := operation; dispatch_grant := grant; dispatch_attempt := attempt;
        dispatch_lease := lease; performer := performer |}.

Definition dispatch_datum (x : FencedDispatch Datum ContentId) : Datum :=
  fenced_dispatch_datum (dispatch_operation x) (dispatch_grant x) (dispatch_attempt x) (dispatch_lease x) (performer x).

Definition dispatch_from_datum d : Result (FencedDispatch Datum ContentId) :=
  let? fields := node_fields d "fenced-dispatch-v1" 5 in
  let? o := field fields "operation" in
  let? operation := id_from_datum o in
  let? g := field fields "grant" in
  let? grant := id_from_datum g in
  let? a := field fields "attempt" in
  let? attempt := id_from_datum a in
  let? l := field fields "lease" in
  let? lease := id_from_datum l in
  let? performer := field fields "performer" in
  let? value := new_dispatch operation grant attempt lease performer in
  check_canonical "fenced dispatch" (dispatch_datum value) d value.

(** ** Tags and fields of optional bindings *)

Definition with_release (n : string * list (string * Datum)) (release : option ContentId) (tag : string) : string * list (string * Datum) :=
  match release with Some release => (tag, n.2 ++ [("release", id_datum release)]) | None => n end.

Definition with_preparation (n : string * list (string * Datum)) (preparation : option ContentId) (tag : string) : string * list (string * Datum) :=
  match preparation with Some preparation => (tag, n.2 ++ [("preparation", id_datum preparation)]) | None => n end.

Definition node_of (n : string * list (string * Datum)) : Datum := node n.1 n.2.

Definition with_observation_clock (d : Datum) (clock : option Datum) (reservation : option ContentId) : Datum :=
  let d := match clock with Some clock => node "clocked-observation-v1" [("clock", clock); ("observation", d)] | None => d end in
  match reservation with
  | Some reservation => node "reserved-observation-v1" [("reservation", id_datum reservation); ("observation", d)]
  | None => d
  end.

(** ** Receipts *)

Definition lifecycle_receipt_datum dispatch (raw : Datum) (release : option ContentId) : Datum :=
  node_of (with_release ("lifecycle-receipt-v1", [("dispatch", id_datum dispatch); ("raw", raw)]) release "lifecycle-release-receipt-v1").

Definition new_receipt dispatch (raw : Datum) (release : option ContentId) : Result (LifecycleReceipt Datum ContentId) :=
  let? id := content_id (lifecycle_receipt_datum dispatch raw release) in
  Ok {| receipt_id := id; receipt_dispatch := dispatch; raw := raw; receipt_release := release |}.

Definition receipt_datum (x : LifecycleReceipt Datum ContentId) : Datum := lifecycle_receipt_datum (receipt_dispatch x) (raw x) (receipt_release x).

Definition receipt_from_datum d : Result (LifecycleReceipt Datum ContentId) :=
  let released := has_tag d "lifecycle-release-receipt-v1" in
  let? fields := if released then node_fields d "lifecycle-release-receipt-v1" 3 else node_fields d "lifecycle-receipt-v1" 2 in
  let? x := field fields "dispatch" in
  let? dispatch := id_from_datum x in
  let? raw := field fields "raw" in
  let? release := if released then (let? r := field fields "release" in let? r := id_from_datum r in Ok (Some r)) else Ok None in
  let? value := new_receipt dispatch raw release in
  check_canonical "lifecycle receipt" (receipt_datum value) d value.

(** ** Custody: reservations, preparations, releases, cancellations *)

Definition reservation_fields_datum dispatch (destination : Datum) : Datum :=
  node "lifecycle-reservation-intent-v1" [("dispatch", id_datum dispatch); ("destination", destination)].

Definition new_reservation dispatch (destination : Datum) : Result (LifecycleReservation Datum ContentId) :=
  if is_nil destination then Err (NonCanonical "empty reservation destination")
  else let? id := content_id (reservation_fields_datum dispatch destination) in
    Ok {| reservation_id := id; reservation_dispatch := dispatch; destination := destination |}.

Definition reservation_datum (x : LifecycleReservation Datum ContentId) : Datum := reservation_fields_datum (reservation_dispatch x) (destination x).

Definition reservation_from_datum d : Result (LifecycleReservation Datum ContentId) :=
  let? fields := node_fields d "lifecycle-reservation-intent-v1" 2 in
  let? x := field fields "dispatch" in
  let? dispatch := id_from_datum x in
  let? destination := field fields "destination" in
  let? value := new_reservation dispatch destination in
  check_canonical "reservation intent" (reservation_datum value) d value.

Definition preparation_fields_datum dispatch (binding : Datum) (reservation : option ContentId) : Datum :=
  match reservation with
  | None => node "lifecycle-preparation-v1" [("dispatch", id_datum dispatch); ("binding", binding)]
  | Some reservation =>
    node "lifecycle-reserved-preparation-v1" [("dispatch", id_datum dispatch); ("reservation", id_datum reservation); ("binding", binding)]
  end.

Definition new_preparation dispatch (binding : Datum) : Result (LifecyclePreparation Datum ContentId) :=
  let? id := content_id (preparation_fields_datum dispatch binding None) in
  Ok {| preparation_id := id; preparation_dispatch := dispatch; binding := binding; preparation_reservation := None |}.

(** Setting the reservation, and the identity again. *)
Definition preparation_reserved (x : LifecyclePreparation Datum ContentId) (reservation : ContentId) : Result (LifecyclePreparation Datum ContentId) :=
  let? id := content_id (preparation_fields_datum (preparation_dispatch x) (binding x) (Some reservation)) in
  Ok {| preparation_id := id; preparation_dispatch := preparation_dispatch x; binding := binding x; preparation_reservation := Some reservation |}.

Definition in_reservation (x : LifecyclePreparation Datum ContentId) (reservation : option (LifecycleReservation Datum ContentId)) : Result (LifecyclePreparation Datum ContentId) :=
  match reservation with
  | Some r =>
    if decide (reservation_dispatch r <> preparation_dispatch x) then Err (InvalidTransition "preparation reservation dispatch differs")
    else preparation_reserved x (reservation_id r)
  | None => Ok x
  end.

Definition preparation_datum (x : LifecyclePreparation Datum ContentId) : Datum :=
  preparation_fields_datum (preparation_dispatch x) (binding x) (preparation_reservation x).

Definition preparation_from_datum d : Result (LifecyclePreparation Datum ContentId) :=
  let reserved := has_tag d "lifecycle-reserved-preparation-v1" in
  let? fields := if reserved then node_fields d "lifecycle-reserved-preparation-v1" 3 else node_fields d "lifecycle-preparation-v1" 2 in
  let? x := field fields "dispatch" in
  let? dispatch := id_from_datum x in
  let? binding := field fields "binding" in
  let? value := new_preparation dispatch binding in
  let? value := if reserved then (let? r := field fields "reservation" in let? r := id_from_datum r in preparation_reserved value r) else Ok value in
  check_canonical "lifecycle preparation" (preparation_datum value) d value.

Definition release_fields_datum dispatch preparation lease : Datum :=
  node "lifecycle-release-intent-v1" [("dispatch", id_datum dispatch); ("preparation", id_datum preparation); ("lease", id_datum lease)].

Definition new_release dispatch preparation lease : Result (LifecycleRelease ContentId) :=
  let? id := content_id (release_fields_datum dispatch preparation lease) in
  Ok {| release_id := id; release_dispatch := dispatch; release_preparation := preparation; release_lease := lease |}.

Definition release_datum (x : LifecycleRelease ContentId) : Datum := release_fields_datum (release_dispatch x) (release_preparation x) (release_lease x).

Definition release_from_datum d : Result (LifecycleRelease ContentId) :=
  let? fields := node_fields d "lifecycle-release-intent-v1" 3 in
  let? x := field fields "dispatch" in
  let? dispatch := id_from_datum x in
  let? p := field fields "preparation" in
  let? preparation := id_from_datum p in
  let? l := field fields "lease" in
  let? lease := id_from_datum l in
  let? value := new_release dispatch preparation lease in
  check_canonical "release intent" (release_datum value) d value.

Definition cancellation_fields_datum operation grant (reason : Datum) : Datum :=
  node "lifecycle-cancellation-intent-v1" [("operation", id_datum operation); ("grant", id_datum grant); ("reason", reason)].

Definition new_cancellation operation grant (reason : Datum) : Result (LifecycleCancellation Datum ContentId) :=
  if is_nil reason then Err (NonCanonical "empty cancellation reason")
  else let? id := content_id (cancellation_fields_datum operation grant reason) in
    Ok {| cancellation_id := id; cancellation_operation := operation; cancellation_grant := grant; reason := reason |}.

Definition cancellation_datum (x : LifecycleCancellation Datum ContentId) : Datum :=
  cancellation_fields_datum (cancellation_operation x) (cancellation_grant x) (reason x).

Definition cancellation_from_datum d : Result (LifecycleCancellation Datum ContentId) :=
  let? fields := node_fields d "lifecycle-cancellation-intent-v1" 3 in
  let? o := field fields "operation" in
  let? operation := id_from_datum o in
  let? g := field fields "grant" in
  let? grant := id_from_datum g in
  let? reason := field fields "reason" in
  let? value := new_cancellation operation grant reason in
  check_canonical "cancellation intent" (cancellation_datum value) d value.

(** ** Steps, responses, observations *)

Definition step_symbol (s : OperationStep) : Symbol :=
  symbol_qualified "operation-step"
    (match s with
     | IntentPersisted => "intent-persisted"
     | LeaseAcquired => "lease-acquired"
     | DispatchPersisted => "dispatch-persisted"
     | PreparationPersisted => "preparation-persisted"
     | ReservationIntentPersisted => "reservation-intent-persisted"
     | ReleaseIntentPersisted => "release-intent-persisted"
     | ReceiptPersisted => "receipt-persisted"
     | ObservationPersisted => "observation-persisted"
     | OutcomePersisted => "outcome-persisted"
     end).

Definition step_datum (s : OperationStep) : Datum := d_symbol (step_symbol s).

Definition all_steps : list OperationStep :=
  [IntentPersisted; LeaseAcquired; DispatchPersisted; PreparationPersisted; ReservationIntentPersisted; ReleaseIntentPersisted;
   ReceiptPersisted; ObservationPersisted; OutcomePersisted].

Definition step_from_datum d : Result OperationStep :=
  match d_view d with
  | VSymbol value => ok_or (NonCanonical "operation step") (List.find (fun s => bool_decide (step_symbol s = value)) all_steps)
  | _ => Err (NonCanonical "operation step")
  end.

Definition response_datum (r : PostconditionResponse Datum) : Datum :=
  match r with
  | Satisfied observed evidence => node "observation-satisfied-v1" [("observed", observed); ("evidence", evidence)]
  | NotSatisfied observed evidence => node "observation-not-satisfied-v1" [("observed", observed); ("evidence", evidence)]
  | Unavailable reason => node "observation-unavailable-v1" [("reason", reason)]
  | Disputed first second => node "observation-disputed-v1" [("first", first); ("second", second)]
  end.

Definition response_from_datum d : Result (PostconditionResponse Datum) :=
  match (node_fields d "observation-satisfied-v1" 2 : Result _) with
  | Ok fields => let? observed := field fields "observed" in let? evidence := field fields "evidence" in Ok (Satisfied observed evidence)
  | _ =>
  match (node_fields d "observation-not-satisfied-v1" 2 : Result _) with
  | Ok fields => let? observed := field fields "observed" in let? evidence := field fields "evidence" in Ok (NotSatisfied observed evidence)
  | _ =>
  match (node_fields d "observation-unavailable-v1" 1 : Result _) with
  | Ok fields => let? reason := field fields "reason" in Ok (Unavailable reason)
  | _ =>
  match (node_fields d "observation-disputed-v1" 2 : Result _) with
  | Ok fields => let? first := field fields "first" in let? second := field fields "second" in Ok (Disputed first second)
  | _ => Err (NonCanonical "postcondition response")
  end end end end.

(** The fields an observation and its evidence share. *)
Definition observation_fields operation (observer : Datum) (r : PostconditionResponse Datum) (dispatch receipt : option ContentId)
    (step : OperationStep) (observed_at : N) : list (string * Datum) :=
  [("operation", id_datum operation); ("observer", observer); ("response", response_datum r); ("dispatch", optional_id_datum dispatch);
   ("receipt", optional_id_datum receipt); ("last-durable-step", step_datum step); ("observed-at", u64_datum observed_at)].

Definition evidence_datum operation (observer : Datum) (r : PostconditionResponse Datum) (dispatch receipt : option ContentId)
    (step : OperationStep) (observed_at : N) (preparation release : option ContentId) (clock : option Datum) (reservation : option ContentId) : Datum :=
  with_observation_clock
    (node_of (with_release (with_preparation ("observation-evidence-v1", observation_fields operation observer r dispatch receipt step observed_at)
      preparation "observation-prepared-evidence-v1") release "observation-release-evidence-v1"))
    clock reservation.

Definition observation_fields_datum operation (observer : Datum) (r : PostconditionResponse Datum) (dispatch receipt : option ContentId)
    (step : OperationStep) (observed_at : N) (preparation release : option ContentId) (clock : option Datum) (reservation : option ContentId) evidence : Datum :=
  with_observation_clock
    (node_of (with_release (with_preparation ("postcondition-observation-v1",
      observation_fields operation observer r dispatch receipt step observed_at ++ [("evidence", id_datum evidence)])
      preparation "postcondition-prepared-observation-v1") release "postcondition-release-observation-v1"))
    clock reservation.

Definition evidence_set_id (base : Datum) : Result ContentId := content_id (node "evidence-set-v1" [("observation", base)]).

Definition observation_base_datum (rq : PostconditionRequest Datum ContentId) (observer : Datum) (r : PostconditionResponse Datum) : Datum :=
  evidence_datum (rq_operation rq) observer r (rq_dispatch rq) (rq_receipt rq) (rq_last_durable_step rq) (rq_observed_at rq)
    (preparation_id <$> rq_preparation rq) (release_id <$> rq_release rq) (rq_clock rq) (reservation_id <$> rq_reservation rq).

Definition observation_datum (rq : PostconditionRequest Datum ContentId) (observer : Datum) (r : PostconditionResponse Datum) evidence : Datum :=
  observation_fields_datum (rq_operation rq) observer r (rq_dispatch rq) (rq_receipt rq) (rq_last_durable_step rq) (rq_observed_at rq)
    (preparation_id <$> rq_preparation rq) (release_id <$> rq_release rq) (rq_clock rq) (reservation_id <$> rq_reservation rq) evidence.

Definition new_observation (rq : PostconditionRequest Datum ContentId) (observer : Datum) (r : PostconditionResponse Datum) :
    Result (OperationObservation Datum ContentId) :=
  let? evidence := evidence_set_id (observation_base_datum rq observer r) in
  let? id := content_id (observation_datum rq observer r evidence) in
  Ok {| observation_id := id; observation_operation := rq_operation rq; observer := observer; response := r;
        observation_dispatch := rq_dispatch rq; observation_receipt := rq_receipt rq;
        observation_preparation := preparation_id <$> rq_preparation rq; observation_release := release_id <$> rq_release rq;
        observation_clock := rq_clock rq; observation_reservation := reservation_id <$> rq_reservation rq;
        last_durable_step := rq_last_durable_step rq; observed_at := rq_observed_at rq; evidence := evidence |}.

Definition stored_datum (o : OperationObservation Datum ContentId) : Datum :=
  observation_fields_datum (observation_operation o) (observer o) (response o) (observation_dispatch o) (observation_receipt o)
    (last_durable_step o) (observed_at o) (observation_preparation o) (observation_release o) (observation_clock o)
    (observation_reservation o) (evidence o).

(** The wrappers around an observation. *)
Definition unwrap_reservation d : Result (option ContentId * Datum) :=
  if has_tag d "reserved-observation-v1" then
    let? fields := node_fields d "reserved-observation-v1" 2 in
    let? r := field fields "reservation" in
    let? reservation := id_from_datum r in
    let? inner := field fields "observation" in
    Ok (Some reservation, inner)
  else Ok (None, d).

Definition unwrap_clock d : Result (option Datum * Datum) :=
  if has_tag d "clocked-observation-v1" then
    let? fields := node_fields d "clocked-observation-v1" 2 in
    let? clock := field fields "clock" in
    if is_nil clock then Err InvalidLease
    else let? inner := field fields "observation" in Ok (Some clock, inner)
  else Ok (None, d).

Definition observation_from_datum d : Result (OperationObservation Datum ContentId) :=
  let? w := unwrap_reservation d in
  let '(reservation, unreserved) := w in
  let? w := unwrap_clock unreserved in
  let '(clock, inner) := w in
  let released := has_tag inner "postcondition-release-observation-v1" in
  let prepared := released || has_tag inner "postcondition-prepared-observation-v1" in
  let? fields := if released then node_fields inner "postcondition-release-observation-v1" 10
    else if prepared then node_fields inner "postcondition-prepared-observation-v1" 9
    else node_fields inner "postcondition-observation-v1" 8 in
  let? release := if released then (let? x := field fields "release" in let? x := id_from_datum x in Ok (Some x)) else Ok None in
  let? preparation := if prepared then (let? x := field fields "preparation" in let? x := id_from_datum x in Ok (Some x)) else Ok None in
  let? o := field fields "operation" in
  let? operation := id_from_datum o in
  let? observer := field fields "observer" in
  let? r := field fields "response" in
  let? r := response_from_datum r in
  let? x := field fields "dispatch" in
  let? dispatched := optional_id x in
  let? s := field fields "last-durable-step" in
  let? step := step_from_datum s in
  let? observed_at := u64_field fields "observed-at" in
  let? x := field fields "receipt" in
  let? receipt := optional_id x in
  let? e := field fields "evidence" in
  let? evidence := id_from_datum e in
  let? expected := evidence_set_id (evidence_datum operation observer r dispatched receipt step observed_at preparation release clock reservation) in
  if decide (evidence <> expected) then Err (NonCanonical "observation evidence set")
  else
    let? id := content_id d in
    let value := {| observation_id := id; observation_operation := operation; observer := observer; response := r;
      observation_dispatch := dispatched; observation_receipt := receipt; observation_preparation := preparation;
      observation_release := release; observation_clock := clock; observation_reservation := reservation;
      last_durable_step := step; observed_at := observed_at; evidence := evidence |} in
    check_canonical "operation observation" (stored_datum value) d value.

(** ** Outcomes *)

Definition outcome_value_datum (o : OperationOutcome Datum ContentId) : Datum :=
  match o with
  | AlreadyTrue evidence => node "already-true-v1" [("evidence", id_datum evidence)]
  | Verified evidence => node "verified-v1" [("evidence", id_datum evidence)]
  | Diverged observed expected => node "diverged-v1" [("observed", observed); ("expected", expected)]
  | Uncertain step => node "uncertain-v1" [("last-durable-step", step_datum step)]
  end.

Definition outcome_from_datum d : Result (OperationOutcome Datum ContentId) :=
  match (node_fields d "already-true-v1" 1 : Result _) with
  | Ok fields => let? e := field fields "evidence" in let? evidence := id_from_datum e in Ok (AlreadyTrue evidence)
  | _ =>
  match (node_fields d "verified-v1" 1 : Result _) with
  | Ok fields => let? e := field fields "evidence" in let? evidence := id_from_datum e in Ok (Verified evidence)
  | _ =>
  match (node_fields d "diverged-v1" 2 : Result _) with
  | Ok fields => let? observed := field fields "observed" in let? expected := field fields "expected" in Ok (Diverged observed expected)
  | _ =>
  match (node_fields d "uncertain-v1" 1 : Result _) with
  | Ok fields => let? s := field fields "last-durable-step" in let? step := step_from_datum s in Ok (Uncertain step)
  | _ => Err (NonCanonical "operation outcome value")
  end end end end.

Definition outcome_fields_datum operation observation (o : OperationOutcome Datum ContentId) : Datum :=
  node "outcome-v2" [("operation", id_datum operation); ("observation", id_datum observation); ("value", outcome_value_datum o);
    ("schema", d_string "operation/outcome-v2")].

Definition new_outcome operation observation (o : OperationOutcome Datum ContentId) : Result (IdentifiedOutcome Datum ContentId) :=
  let? id := content_id (outcome_fields_datum operation observation o) in
  Ok {| outcome_id := id; outcome_operation := operation; outcome_observation := observation; outcome_value := o |}.

Definition outcome_datum (o : IdentifiedOutcome Datum ContentId) : Datum :=
  outcome_fields_datum (outcome_operation o) (outcome_observation o) (outcome_value o).

Definition identified_outcome_from_datum d : Result (IdentifiedOutcome Datum ContentId) :=
  let? fields := node_fields d "outcome-v2" 4 in
  let? o := field fields "operation" in
  let? operation := id_from_datum o in
  let? o := field fields "observation" in
  let? observation := id_from_datum o in
  let? v := field fields "value" in
  let? outcome := outcome_from_datum v in
  let? value := new_outcome operation observation outcome in
  check_canonical "operation outcome" (outcome_datum value) d value.
End Data.
