(* ===== verification/OperationCodec.v ===== *)
(** * Reading operations back

    Everything an operation writes to its journal is read back, only canonical
    data are read, and what is read carries the identity of the data it was read
    from ([codec], one per kind of record). *)

From stdpp Require Import strings pretty.
From S2P Require Import Prelude KernelDatum OperationWire OperationData.

Section Codec.
Context {Datum Symbol ContentId JournalError : Type} `{KernelDatum Datum Symbol ContentId} {laws : KernelDatumLaws Datum Symbol ContentId}.
#[local] Set Default Proof Using "Type".
Abbreviation Result A := (Res (OperationError Datum JournalError) A).
Abbreviation fields_of l := ((fun f : string * Datum => (symbol_new f.1, f.2)) <$> l).
Implicit Types (d : Datum) (id : ContentId).

(** What is written is read back; what is read is well-formed, has the meaning
    of the datum it was read from, and its identity. *)
Record codec {A} (valid : A -> Prop) (enc : A -> Datum) (dec : Datum -> Result A) (ident : A -> ContentId) : Prop := {
  codec_round_trip : forall x, valid x -> dec (enc x) = Ok x;
  codec_sound : forall d x, dec d = Ok x -> valid x /\ same (enc x) d /\ datum_content_id d = Ok (ident x);
  codec_identity : forall x, valid x -> datum_content_id (enc x) = Ok (ident x);
}.

(** ** Steps of reading *)

Lemma node_fields_other tag tag' (l : list (string * Datum)) n : tag <> tag' -> node_fields (node tag l) tag' n = (Err (NonCanonical tag') : Result _).
Proof using laws.
  intros Ht. unfold node_fields, node. rewrite view_node, decide_True; [done|]. left. by intros [_ ?]%(inj2 symbol_qualified).
Qed.

Lemma bind_field {B} (l : list (string * Datum)) name x (k : Datum -> Result B) : named (JournalError := JournalError) l name = Ok x -> rbind k (field (fields_of l) name) = k x.
Proof using laws. intros Hn. by rewrite field_node, Hn. Qed.

Lemma bind_node {B} tag (l : list (string * Datum)) n (k : list (Symbol * Datum) -> Result B) : length l = n ->
  rbind k (node_fields (node tag l) tag n) = k (fields_of l).
Proof using laws. intros Hl. by rewrite node_fields_node. Qed.

Lemma bind_string {B} (l : list (string * Datum)) name s (k : string -> Result B) : named (JournalError := JournalError) l name = Ok (d_string s) ->
  rbind k (string_field (fields_of l) name) = k s.
Proof using laws. intros Hn. unfold string_field. rewrite field_node, Hn. cbn [rbind]. by rewrite view_string. Qed.

Lemma bind_u64 {B} (l : list (string * Datum)) name n (k : N -> Result B) : named (JournalError := JournalError) l name = Ok (u64_datum n) -> (n <= u64_max)%N ->
  rbind k (u64_field (fields_of l) name) = k n.
Proof using laws. intros Hl Hn. by erewrite u64_field_node by done. Qed.

Lemma bind_id {B} id (k : ContentId -> Result B) : canonical (id_datum id) -> rbind k (id_from_datum (id_datum id)) = k id.
Proof using laws. intros Hc. by rewrite id_round_trip. Qed.

Lemma bind_optional_id {B} o (k : option ContentId -> Result B) : canonical (optional_id_datum o) -> rbind k (optional_id (optional_id_datum o)) = k o.
Proof using laws. intros Hc. by rewrite optional_id_round_trip. Qed.

Lemma bind_policy {B} p (k : ReplayPolicy -> Result B) : rbind k (policy_from_datum (policy_datum p)) = k p.
Proof using laws.
  unfold policy_from_datum, policy_datum. rewrite view_symbol. destruct p; [by rewrite decide_True|].
  rewrite decide_False by (intros [_ ?]%(inj2 symbol_qualified); done). by rewrite decide_True.
Qed.

Lemma step_symbol_inj s s' : step_symbol s = step_symbol s' -> s = s'.
Proof using laws. intros [_ Hn]%(inj2 symbol_qualified). by destruct s, s'. Qed.

Lemma bind_step {B} s (k : OperationStep -> Result B) : rbind k (step_from_datum (step_datum s)) = k s.
Proof using laws.
  unfold step_from_datum, step_datum. rewrite view_symbol.
  assert (List.find (fun s' => bool_decide (step_symbol s' = step_symbol s)) all_steps = List.find (fun s' => bool_decide (s' = s)) all_steps) as ->.
  { generalize all_steps. induction l as [|s' l IH]; [done|]. cbn [List.find]. rewrite IH.
    erewrite (bool_decide_ext (step_symbol s' = _)); [done|]. split; [apply step_symbol_inj|by intros ->]. }
  by destruct s.
Qed.

Lemma check_self {A} what d (x : A) : canonical d -> check_canonical what d d x = (Ok x : Result A).
Proof using laws. intros Hc. unfold check_canonical. by rewrite canonical_refl. Qed.

Lemma check_Ok {A} what c d (x y : A) : check_canonical what c d x = (Ok y : Result A) -> x = y /\ same c d.
Proof. unfold check_canonical. destruct (same_datum c d); [|done]. by intros [= ->]. Qed.

Lemma content_id_Ok d c : content_id d = (Ok c : Result ContentId) <-> datum_content_id d = Ok c.
Proof. unfold content_id. rewrite map_err_Ok. done. Qed.

Lemma content_id_canonical_Ok d c : datum_content_id d = Ok c -> canonical d.
Proof using laws. intros Hc. apply content_id_canonical. by eexists. Qed.

Lemma parse_digits_bound s : forall acc n, (acc <= u64_max)%N -> parse_digits s acc = Some n -> (n <= u64_max)%N.
Proof.
  induction s as [|c s IH]; cbn [parse_digits]; intros acc n Ha Hp; [by simplify_eq|].
  destruct (digit_value c); [|done]. destruct (N.leb_spec (acc * 10 + n0) u64_max); [|done]. by eapply IH.
Qed.

Lemma u64_field_bound (l : list (Symbol * Datum)) name n : u64_field l name = (Ok n : Result N) -> (n <= u64_max)%N.
Proof.
  unfold u64_field. intros (x & Hx & Hu)%rbind_Ok. destruct (d_view x); try done. case_decide; [|done]. apply ok_or_Ok in Hu.
  unfold parse_u64 in Hu. repeat case_match; try done; eapply parse_digits_bound; try exact Hu; done.
Qed.

Lemma codec_intro {A} (valid : A -> Prop) enc dec (ident : A -> ContentId) :
  (forall x, valid x -> datum_content_id (enc x) = Ok (ident x)) ->
  (forall x, valid x -> canonical (enc x) -> dec (enc x) = (Ok x : Result A)) ->
  (forall d x, dec d = (Ok x : Result A) -> valid x /\ same (enc x) d) ->
  codec valid enc dec ident.
Proof using laws.
  intros Hi Hr Hs. split.
  - intros x Hx. by eapply Hr, content_id_canonical_Ok, Hi.
  - intros d x Hd. destruct (Hs d x Hd) as [Hx Hsame]. split_and!; [done..|]. rewrite <- (Hi x Hx). symmetry. by apply same_content_id.
  - done.
Qed.

(** ** Well-formed values: what the constructors build *)

Definition intent_valid (i : OperationIntent Datum ContentId) : Prop :=
  new_intent (intent_operation i) (target i) (intended_result i) (replay_policy i) = (Ok i : Result _).

Definition grant_valid (g : OperationGrant Datum ContentId) : Prop := new_grant (grant_operation g) (capability g) (authority g) = (Ok g : Result _).

Definition attempt_valid (a : OperationAttempt ContentId) : Prop := new_attempt (attempt_operation a) (ordinal a) = (Ok a : Result _) /\ (ordinal a <= u64_max)%N.

Definition direct_dispatch_valid (x : OperationDispatch ContentId) : Prop :=
  new_direct_dispatch (od_operation x) (od_grant x) (od_attempt x) = (Ok x : Result _).

Definition performer_receipt_valid (x : PerformerReceipt Datum ContentId) : Prop := new_performer_receipt (pr_dispatch x) (pr_raw x) = (Ok x : Result _).

Definition lease_valid (l : OperationLease Datum ContentId) : Prop :=
  (let? l0 := new_lease (lease_operation l) (holder l) (fence l) (acquired_at l) (expires_at l) in lease_in_clock l0 (lease_clock l)) = (Ok l : Result _) /\
  (fence l <= u64_max)%N /\ (acquired_at l <= u64_max)%N /\ (expires_at l <= u64_max)%N.

Definition dispatch_valid (x : FencedDispatch Datum ContentId) : Prop :=
  new_dispatch (dispatch_operation x) (dispatch_grant x) (dispatch_attempt x) (dispatch_lease x) (performer x) = (Ok x : Result _).

Definition receipt_valid (x : LifecycleReceipt Datum ContentId) : Prop := new_receipt (receipt_dispatch x) (raw x) (receipt_release x) = (Ok x : Result _).

Definition reservation_valid (x : LifecycleReservation Datum ContentId) : Prop := new_reservation (reservation_dispatch x) (destination x) = (Ok x : Result _).

Definition preparation_valid (x : LifecyclePreparation Datum ContentId) : Prop :=
  (let? x0 := new_preparation (preparation_dispatch x) (binding x) in
   match preparation_reservation x with Some r => preparation_reserved x0 r | None => Ok x0 end) = (Ok x : Result _).

Definition release_valid (x : LifecycleRelease ContentId) : Prop := new_release (release_dispatch x) (release_preparation x) (release_lease x) = (Ok x : Result _).

Definition cancellation_valid (x : LifecycleCancellation Datum ContentId) : Prop :=
  new_cancellation (cancellation_operation x) (cancellation_grant x) (reason x) = (Ok x : Result _).

Definition outcome_valid (x : IdentifiedOutcome Datum ContentId) : Prop :=
  new_outcome (outcome_operation x) (outcome_observation x) (outcome_value x) = (Ok x : Result _).

(** An observation carries its evidence and identity, a clock that is not nil,
    and no release without the preparation it releases. *)
Definition observation_valid (o : OperationObservation Datum ContentId) : Prop :=
  evidence_set_id (evidence_datum (observation_operation o) (observer o) (response o) (observation_dispatch o) (observation_receipt o)
    (last_durable_step o) (observed_at o) (observation_preparation o) (observation_release o) (observation_clock o) (observation_reservation o))
    = (Ok (evidence o) : Result _) /\
  content_id (stored_datum o) = (Ok (observation_id o) : Result _) /\
  (observed_at o <= u64_max)%N /\
  (forall c, observation_clock o = Some c -> is_nil c = false) /\
  (is_Some (observation_release o) -> is_Some (observation_preparation o)).
End Codec.

(** Opens the parts of a canonical node. *)
Ltac canonical_node H :=
  apply canonical_parts in H; cbn [fmap list_fmap fst snd app] in H; rewrite ?Forall_cons in H; destruct_and? H.

(** Reads the fields of a node that is there. *)
Ltac read_field :=
  first [erewrite bind_node by reflexivity | erewrite bind_string by reflexivity | erewrite bind_u64 by first [reflexivity|eassumption]
    | erewrite bind_field by reflexivity | rewrite bind_id by assumption | rewrite bind_optional_id by assumption | rewrite bind_policy
    | rewrite bind_step]; cbn [fst snd].

(** What a successful construction is. *)
Ltac built H := cbv beta zeta in H; repeat (apply rbind_Ok in H as (? & ? & H)); cbn [rbind] in H.

(** The identity a construction gives. *)
Ltac identified H := built H; injection H as; subst; eapply content_id_Ok; eassumption.

(** A reading ends in the check of the canonical form. *)
Ltac read_checked H := built H; apply check_Ok in H as [-> H]; split; [|exact H].

(** The codec of a record whose constructor identifies its fields: [v] its
    well-formed values, [n] the constructor, [e] and [f] its datum, [r] its
    reading. *)
Tactic Notation "record_codec" reference(v) reference(n) reference(e) reference(f) reference(r) :=
  apply codec_intro;
  [intros [] Hv; unfold v, n in Hv; cbn in Hv; repeat case_match; try done; identified Hv
  |intros x Hv Hc; pose proof Hc as Hp; unfold e, f in Hp; canonical_node Hp; unfold r, e, f; repeat read_field;
   unfold v in Hv; rewrite Hv; cbn [rbind]; by apply check_self
  |intros d x Hd; unfold r in Hd; read_checked Hd; unfold v;
   match goal with Hn : _ = Ok ?x |- _ = Ok ?x => pose proof Hn as Hnew; unfold n in Hn; repeat case_match; try done; built Hn; by simplify_eq end].

Section Codecs.
Context {Datum Symbol ContentId JournalError : Type} `{KernelDatum Datum Symbol ContentId} {laws : KernelDatumLaws Datum Symbol ContentId}.
#[local] Set Default Proof Using "Type".
Abbreviation Result A := (Res (OperationError Datum JournalError) A).
Abbreviation codec := (codec (JournalError := JournalError)).

Lemma intent_codec : codec (intent_valid (JournalError := JournalError)) intent_datum intent_from_datum intent_id.
Proof using laws. record_codec intent_valid new_intent intent_datum intent_fields_datum intent_from_datum. Qed.

Lemma grant_codec : codec (grant_valid (JournalError := JournalError)) grant_datum grant_from_datum grant_id.
Proof using laws. record_codec grant_valid new_grant grant_datum grant_fields_datum grant_from_datum. Qed.

Lemma direct_dispatch_codec : codec (direct_dispatch_valid (JournalError := JournalError)) direct_dispatch_datum direct_dispatch_from_datum od_id.
Proof using laws. record_codec direct_dispatch_valid new_direct_dispatch direct_dispatch_datum direct_dispatch_fields_datum direct_dispatch_from_datum. Qed.

Lemma performer_receipt_codec : codec (performer_receipt_valid (JournalError := JournalError)) performer_receipt_datum performer_receipt_from_datum pr_id.
Proof using laws. record_codec performer_receipt_valid new_performer_receipt performer_receipt_datum performer_receipt_fields_datum performer_receipt_from_datum. Qed.

Lemma dispatch_codec : codec (dispatch_valid (JournalError := JournalError)) dispatch_datum dispatch_from_datum dispatch_id.
Proof using laws. record_codec dispatch_valid new_dispatch dispatch_datum fenced_dispatch_datum dispatch_from_datum. Qed.

Lemma reservation_codec : codec (reservation_valid (JournalError := JournalError)) reservation_datum reservation_from_datum reservation_id.
Proof using laws. record_codec reservation_valid new_reservation reservation_datum reservation_fields_datum reservation_from_datum. Qed.

Lemma release_codec : codec (release_valid (JournalError := JournalError)) release_datum release_from_datum release_id.
Proof using laws. record_codec release_valid new_release release_datum release_fields_datum release_from_datum. Qed.

Lemma cancellation_codec : codec (cancellation_valid (JournalError := JournalError)) cancellation_datum cancellation_from_datum cancellation_id.
Proof using laws. record_codec cancellation_valid new_cancellation cancellation_datum cancellation_fields_datum cancellation_from_datum. Qed.

Lemma attempt_codec : codec (attempt_valid (JournalError := JournalError)) attempt_datum attempt_from_datum attempt_id.
Proof using laws.
  apply codec_intro.
  - intros [id o n] [Hv _]. unfold new_attempt in Hv. cbn in Hv. identified Hv.
  - intros a [Hv Hn] Hc. pose proof Hc as Hp. unfold attempt_datum, attempt_fields_datum in Hp. canonical_node Hp.
    unfold attempt_from_datum, attempt_datum, attempt_fields_datum. repeat read_field. rewrite Hv. cbn [rbind]. by apply check_self.
  - intros d a Hd. unfold attempt_from_datum in Hd. read_checked Hd. unfold attempt_valid.
    match goal with Hu : u64_field _ _ = Ok _ |- _ => apply u64_field_bound in Hu end.
    match goal with Hn : new_attempt _ _ = Ok _ |- _ => pose proof Hn as Hnew; unfold new_attempt in Hn; built Hn end. by simplify_eq.
Qed.

Lemma new_lease_fields o h f a e l : new_lease o h f a e = (Ok l : Result _) ->
  lease_operation l = o /\ holder l = h /\ fence l = f /\ acquired_at l = a /\ expires_at l = e /\ (a < e)%N.
Proof. unfold new_lease. destruct (N.leb_spec e a); [done|]. intros Hn. built Hn. by simplify_eq. Qed.

Lemma lease_in_clock_fields l c l' : lease_in_clock l c = (Ok l' : Result _) ->
  lease_operation l' = lease_operation l /\ holder l' = holder l /\ fence l' = fence l /\ acquired_at l' = acquired_at l /\
  expires_at l' = expires_at l /\ lease_clock l' = c.
Proof. unfold lease_in_clock. case_match; [done|]. intros Hn. built Hn. by simplify_eq. Qed.

Lemma lease_codec : codec (lease_valid (JournalError := JournalError)) lease_datum lease_from_datum lease_id.
Proof using laws.
  apply codec_intro.
  - intros [id o h c f a e] [Hv _]. unfold new_lease in Hv. cbn in Hv. case_match; [done|]. built Hv. simplify_eq. unfold lease_in_clock in Hv.
    cbn in Hv. case_match; [done|]. identified Hv.
  - intros l (Hv & Hf & Ha & He) Hc. apply rbind_Ok in Hv as (l0 & Hl0 & Hv).
    destruct (lease_clock l) as [c|] eqn:Hk; (eassert (lease_datum l = node _ _) as Hd by (unfold lease_datum; rewrite Hk; reflexivity));
      pose proof Hc as Hp; rewrite Hd in Hp |- *; canonical_node Hp; unfold lease_from_datum; rewrite has_tag_node; simpl (bool_decide _);
      cbv beta zeta iota; repeat read_field; rewrite Hl0; repeat read_field; cbn [rbind]; repeat read_field; cbn [rbind]; rewrite Hv; cbn [rbind]; rewrite <- Hd; by apply check_self.
  - intros d l Hd. unfold lease_from_datum in Hd. read_checked Hd. unfold lease_valid.
    repeat match goal with Hu : u64_field _ _ = Ok _ |- _ => apply u64_field_bound in Hu end.
    match goal with Hn : new_lease _ _ _ _ _ = Ok _, Hk : lease_in_clock _ _ = Ok _ |- _ =>
      pose proof (new_lease_fields _ _ _ _ _ _ Hn) as (? & ? & ? & ? & ? & _); pose proof (lease_in_clock_fields _ _ _ Hk) as (? & ? & ? & ? & ? & ?) end.
    simplify_eq. repeat match goal with Hf : _ l = _ |- _ => rewrite Hf end.
    match goal with Hn : new_lease _ _ _ _ _ = Ok _ |- _ => by rewrite Hn end.
Qed.

Lemma receipt_codec : codec (receipt_valid (JournalError := JournalError)) receipt_datum receipt_from_datum receipt_id.
Proof using laws.
  apply codec_intro.
  - intros [id x r rel] Hv. unfold receipt_valid, new_receipt in Hv. cbn in Hv. identified Hv.
  - intros x Hv Hc. unfold receipt_valid in Hv.
    destruct (receipt_release x) as [c|] eqn:Hk; (eassert (receipt_datum x = node _ _) as Hd by (unfold receipt_datum; rewrite Hk; reflexivity));
      cbn [with_release fst snd app] in Hd;
      pose proof Hc as Hp; rewrite Hd in Hp |- *; canonical_node Hp; unfold receipt_from_datum; rewrite has_tag_node; simpl (bool_decide _);
      cbv beta zeta iota; repeat read_field; cbn [rbind]; rewrite Hv; cbn [rbind]; rewrite <- Hd; by apply check_self.
  - intros d x Hd. unfold receipt_from_datum in Hd. read_checked Hd. unfold receipt_valid.
    match goal with Hn : _ = Ok ?x |- _ = Ok ?x => pose proof Hn as Hnew; unfold new_receipt in Hn; built Hn; by simplify_eq end.
Qed.

Lemma preparation_codec : codec (preparation_valid (JournalError := JournalError)) preparation_datum preparation_from_datum preparation_id.
Proof using laws.
  apply codec_intro.
  - intros [id x b [r|]] Hv; unfold preparation_valid, new_preparation, preparation_reserved in Hv; cbn in Hv; res_inv; simplify_eq/=;
      eapply content_id_Ok; eassumption.
  - intros x Hv Hc. unfold preparation_valid in Hv. apply rbind_Ok in Hv as (x0 & Hx0 & Hv).
    destruct (preparation_reservation x) as [c|] eqn:Hk; (eassert (preparation_datum x = node _ _) as Hd by (unfold preparation_datum; rewrite Hk; reflexivity));
      pose proof Hc as Hp; rewrite Hd in Hp |- *; canonical_node Hp; unfold preparation_from_datum; rewrite has_tag_node; simpl (bool_decide _);
      cbv beta zeta iota; repeat read_field; rewrite Hx0; cbn [rbind]; repeat read_field; try rewrite Hv; cbn [rbind]; rewrite <- Hd; simplify_eq; by apply check_self.
  - intros d x Hd. unfold preparation_from_datum in Hd. read_checked Hd. unfold preparation_valid.
    match goal with Hn : new_preparation _ _ = Ok _ |- _ => pose proof Hn as Hnew; unfold new_preparation in Hn; built Hn; simplify_eq end.
    destruct (has_tag d _) eqn:Ht; [|simplify_eq; cbn [preparation_dispatch binding preparation_reservation]; by rewrite Hnew].
    match goal with Hn : rbind _ (field _ "reservation") = Ok _ |- _ => built Hn; pose proof Hn as Hres; unfold preparation_reserved in Hn; built Hn end.
    simplify_eq. cbn [preparation_dispatch binding preparation_reservation] in *. rewrite Hnew. cbn [rbind]. unfold preparation_reserved.
    cbn [preparation_dispatch binding]. match goal with Hc : content_id (preparation_fields_datum _ _ (Some _)) = Ok _ |- _ => by rewrite Hc end.
Qed.

Lemma bind_outcome_value {B} o (k : OperationOutcome Datum ContentId -> Result B) : canonical (outcome_value_datum o) ->
  rbind k (outcome_from_datum (outcome_value_datum o)) = k o.
Proof using laws.
  intros Hc. destruct o; cbn [outcome_value_datum] in Hc |- *; canonical_node Hc; unfold outcome_from_datum;
    rewrite ?node_fields_other by done; rewrite node_fields_node by done; repeat read_field; done.
Qed.

Lemma bind_response {B} r (k : PostconditionResponse Datum -> Result B) : rbind k (response_from_datum (response_datum r)) = k r.
Proof using laws.
  destruct r; cbn [response_datum]; unfold response_from_datum;
    rewrite ?node_fields_other by done; rewrite node_fields_node by done; repeat read_field; done.
Qed.

Lemma outcome_codec : codec (outcome_valid (JournalError := JournalError)) outcome_datum identified_outcome_from_datum outcome_id.
Proof using laws.
  apply codec_intro.
  - intros [id o b v] Hv. unfold outcome_valid, new_outcome in Hv. cbn in Hv. identified Hv.
  - intros x Hv Hc. pose proof Hc as Hp. unfold outcome_datum, outcome_fields_datum in Hp. canonical_node Hp.
    unfold identified_outcome_from_datum, outcome_datum, outcome_fields_datum. repeat read_field. rewrite bind_outcome_value by done.
    unfold outcome_valid in Hv. rewrite Hv. cbn [rbind]. by apply check_self.
  - intros d x Hd. unfold identified_outcome_from_datum in Hd. read_checked Hd. unfold outcome_valid.
    match goal with Hn : _ = Ok ?x |- _ = Ok ?x => pose proof Hn as Hnew; unfold new_outcome in Hn; built Hn; by simplify_eq end.
Qed.

Lemma unwrap_reservation_wrap tag l c r : tag <> "reserved-observation-v1" -> canonical (with_observation_clock (node tag l) c r) ->
  unwrap_reservation (with_observation_clock (node tag l) c r) = (Ok (r, with_observation_clock (node tag l) c None) : Result _) /\
  canonical (with_observation_clock (node tag l) c None).
Proof using laws.
  intros Ht Hc. unfold unwrap_reservation. destruct r as [r|].
  - change (with_observation_clock (node tag l) c (Some r)) with
      (node "reserved-observation-v1" [("reservation", id_datum r); ("observation", with_observation_clock (node tag l) c None)]) in Hc |- *.
    rewrite has_tag_node. canonical_node Hc. rewrite bool_decide_true by done. repeat read_field. done.
  - split; [|done]. destruct c; unfold with_observation_clock; rewrite has_tag_node, bool_decide_false by done; done.
Qed.

Lemma unwrap_clock_wrap tag l c : tag <> "clocked-observation-v1" -> (forall c', c = Some c' -> is_nil c' = false) ->
  canonical (with_observation_clock (node tag l) c None) ->
  unwrap_clock (with_observation_clock (node tag l) c None) = (Ok (c, node tag l) : Result _) /\ canonical (node tag l).
Proof using laws.
  intros Ht Hn Hc. unfold unwrap_clock. destruct c as [c|]; unfold with_observation_clock in Hc |- *; rewrite has_tag_node.
  - canonical_node Hc. rewrite bool_decide_true by done. repeat read_field. rewrite Hn by done. repeat read_field. done.
  - by rewrite bool_decide_false by done.
Qed.

Lemma unwrap_clock_not_nil d c inner : unwrap_clock d = (Ok (Some c, inner) : Result _) -> is_nil c = false.
Proof.
  unfold unwrap_clock. destruct (has_tag _ _); [|done]. intros Hu. built Hu. destruct (is_nil _) eqn:Hn; [done|]. built Hu. by simplify_eq.
Qed.

(** The node of an observation, by what it binds. *)
Definition observation_tag (preparation release : option ContentId) : string :=
  match release, preparation with
  | Some _, _ => "postcondition-release-observation-v1"
  | None, Some _ => "postcondition-prepared-observation-v1"
  | None, None => "postcondition-observation-v1"
  end.

Definition observation_node_fields (o : OperationObservation Datum ContentId) : list (string * Datum) :=
  (observation_fields (observation_operation o) (observer o) (response o) (observation_dispatch o) (observation_receipt o)
    (last_durable_step o) (observed_at o) ++ [("evidence", id_datum (evidence o))]) ++
  match observation_preparation o with Some p => [("preparation", id_datum p)] | None => [] end ++
  match observation_release o with Some r => [("release", id_datum r)] | None => [] end.

Lemma stored_datum_shape o : stored_datum o =
  with_observation_clock (node (observation_tag (observation_preparation o) (observation_release o)) (observation_node_fields o))
    (observation_clock o) (observation_reservation o).
Proof. unfold stored_datum, observation_node_fields. by destruct (observation_preparation o), (observation_release o). Qed.

Lemma observation_round_trip o : observation_valid (JournalError := JournalError) o -> canonical (stored_datum o) ->
  observation_from_datum (stored_datum o) = (Ok o : Result _).
Proof using laws.
  intros (He & Hi & Ho & Hn & Hr) Hc. pose proof Hc as Hp. rewrite stored_datum_shape in Hp.
  assert (observation_tag (observation_preparation o) (observation_release o) <> "reserved-observation-v1") as Ht1 by (by destruct (observation_release o), (observation_preparation o)).
  assert (observation_tag (observation_preparation o) (observation_release o) <> "clocked-observation-v1") as Ht2 by (by destruct (observation_release o), (observation_preparation o)).
  destruct (unwrap_reservation_wrap _ _ _ _ Ht1 Hp) as [Hu1 Hc1]. destruct (unwrap_clock_wrap _ _ _ Ht2 Hn Hc1) as [Hu2 Hc2].
  rewrite <- stored_datum_shape in Hu1. unfold observation_from_datum. rewrite Hu1. cbn [rbind]. rewrite Hu2. cbn [rbind].
  rewrite !has_tag_node. unfold observation_node_fields, observation_fields in Hc2 |- *.
  destruct (observation_release o) as [rel|] eqn:Hrel; [destruct (observation_preparation o) as [pr|] eqn:Hpr; [|by destruct Hr]|
    destruct (observation_preparation o) as [pr|] eqn:Hpr]; cbn [observation_tag app] in Hc2 |- *; canonical_node Hc2; simpl (bool_decide _); cbn [orb];
    cbv beta zeta iota; repeat read_field; cbn [rbind]; repeat (read_field || cbn [rbind]); rewrite bind_response; repeat read_field;
    rewrite He; cbn [rbind]; rewrite decide_False by (by intros []); rewrite Hi; cbn [rbind];
    (match goal with |- check_canonical _ (stored_datum ?v) _ _ = _ => assert (v = o) as -> by (destruct o; cbn in *; congruence) end); by apply check_self.
Qed.

Lemma observation_codec : codec (observation_valid (JournalError := JournalError)) stored_datum observation_from_datum observation_id.
Proof using laws.
  apply codec_intro.
  - intros o (_ & Hi & _). by apply content_id_Ok in Hi.
  - intros o Hv Hc. by apply observation_round_trip.
  - intros d o Hd. unfold observation_from_datum in Hd. apply rbind_Ok in Hd as ([r un] & Hu1 & Hd). apply rbind_Ok in Hd as ([c inner] & Hu2 & Hd).
    built Hd. case_decide as Hev; [done|]. built Hd. apply check_Ok in Hd as [<- Hd]. split; [|exact Hd].
    match goal with Hu : u64_field _ _ = Ok _ |- _ => apply u64_field_bound in Hu end. unfold observation_valid.
    split_and!; cbn -[stored_datum evidence_set_id evidence_datum u64_max]; [by subst| |done| |].
    + match goal with Hi : content_id d = Ok _ |- _ => rewrite <- Hi end. unfold content_id. by rewrite (same_content_id _ _ Hd).
    + intros c' ->. by apply unwrap_clock_not_nil in Hu2.
    + intros [rel ->]. destruct (has_tag inner "postcondition-release-observation-v1") eqn:Ht; [|done].
      match goal with Hp : (if true || _ then _ else _) = Ok _ |- _ => cbn [orb] in Hp; built Hp; simplify_eq end. by eexists.
Qed.

(** C11: Everything an operation journals is read back as it was written; only
    data with the meaning of a canonical form are read, into well-formed values;
    and the identity of what is read is the content identity of the data. *)
Theorem operation_data_round_trip :
  (codec (intent_valid (JournalError := JournalError)) intent_datum intent_from_datum intent_id /\
   codec (grant_valid (JournalError := JournalError)) grant_datum grant_from_datum grant_id /\
   codec (attempt_valid (JournalError := JournalError)) attempt_datum attempt_from_datum attempt_id) /\
  (codec (direct_dispatch_valid (JournalError := JournalError)) direct_dispatch_datum direct_dispatch_from_datum od_id /\
   codec (performer_receipt_valid (JournalError := JournalError)) performer_receipt_datum performer_receipt_from_datum pr_id) /\
  (codec (lease_valid (JournalError := JournalError)) lease_datum lease_from_datum lease_id /\
   codec (dispatch_valid (JournalError := JournalError)) dispatch_datum dispatch_from_datum dispatch_id /\
   codec (receipt_valid (JournalError := JournalError)) receipt_datum receipt_from_datum receipt_id) /\
  (codec (reservation_valid (JournalError := JournalError)) reservation_datum reservation_from_datum reservation_id /\
   codec (preparation_valid (JournalError := JournalError)) preparation_datum preparation_from_datum preparation_id /\
   codec (release_valid (JournalError := JournalError)) release_datum release_from_datum release_id /\
   codec (cancellation_valid (JournalError := JournalError)) cancellation_datum cancellation_from_datum cancellation_id) /\
  (codec (observation_valid (JournalError := JournalError)) stored_datum observation_from_datum observation_id /\
   codec (outcome_valid (JournalError := JournalError)) outcome_datum identified_outcome_from_datum outcome_id).
Proof using laws.
  split_and!; [apply intent_codec|apply grant_codec|apply attempt_codec|apply direct_dispatch_codec|apply performer_receipt_codec|apply lease_codec
    |apply dispatch_codec|apply receipt_codec|apply reservation_codec|apply preparation_codec|apply release_codec|apply cancellation_codec
    |apply observation_codec|apply outcome_codec].
Qed.
End Codecs.
