(* ===== verification/LifecycleRecord.v ===== *)
(** * The record of an operation and its transitions

    crates/sim-lib-operation-gate/src/lifecycle_record.rs and the transitions of
    lifecycle_project.rs: what one journal entry does to the record of one
    operation, and when it is refused.  [apply_*] are the branches of
    [project_entries] once the payloads are read and the record is found. *)

From stdpp Require Import strings.
From S2P Require Import Prelude BTree KernelDatum OperationWire OperationData.

Section Record_.
Context {Datum ContentId : Type}.

Record OperationLifecycleRecord := MkRecord {
  r_intent : OperationIntent Datum ContentId;
  r_grant : OperationGrant Datum ContentId;
  leases : list (OperationLease Datum ContentId);
  attempts : list (OperationAttempt ContentId);
  dispatches : list (FencedDispatch Datum ContentId);
  preparations : list (LifecyclePreparation Datum ContentId);
  reservations : list (LifecycleReservation Datum ContentId);
  releases : list (LifecycleRelease ContentId);
  cancellation : option (LifecycleCancellation Datum ContentId);
  receipts : list (LifecycleReceipt Datum ContentId);
  observations : list (OperationObservation Datum ContentId);
  r_outcome : option (IdentifiedOutcome Datum ContentId);
  last_step : OperationStep;
  generation : N;
  observation_generation : option N;
}.
End Record_.
#[global] Arguments OperationLifecycleRecord : clear implicits.

Section Transitions.
Context {Datum Symbol ContentId JournalError : Type} `{KernelDatum Datum Symbol ContentId}.
Abbreviation Result A := (Res (OperationError Datum JournalError) A).
Abbreviation OpRecord := (OperationLifecycleRecord Datum ContentId).
Implicit Types (r : OpRecord) (sequence : N).

(** [is_some_and] on the last element. *)
Definition last_is {A} (p : A -> bool) (l : list A) : bool := match last l with Some x => p x | None => false end.

Definition is_empty {A} (l : list A) : bool := match l with [] => true | _ => false end.

Definition is_satisfied (p : PostconditionResponse Datum) : bool := match p with Satisfied _ _ => true | _ => false end.

Definition is_not_satisfied (p : PostconditionResponse Datum) : bool := match p with NotSatisfied _ _ => true | _ => false end.

Definition new_record (i : OperationIntent Datum ContentId) (g : OperationGrant Datum ContentId) sequence : OpRecord :=
  MkRecord i g [] [] [] [] [] [] None [] [] None IntentPersisted sequence None.

Definition require_unfinished r : Result unit :=
  match r_outcome r with Some _ => Err (InvalidTransition "lifecycle transition after outcome") | None => Ok tt end.

Definition require_not_cancelled r : Result unit := match cancellation r with Some _ => Err Cancelled | None => Ok tt end.

Definition refuse_if (refused : bool) (what : string) : Result unit := if refused then Err (InvalidTransition what) else Ok tt.

Definition apply_cancellation r sequence (c : LifecycleCancellation Datum ContentId) : Result OpRecord :=
  let? _ := require_unfinished r in
  let? _ := refuse_if (match cancellation r with Some _ => true | None => false end || bool_decide (grant_id (r_grant r) <> cancellation_grant c))
    "duplicate or unbound cancellation" in
  Ok (MkRecord (r_intent r) (r_grant r) (leases r) (attempts r) (dispatches r) (preparations r) (reservations r) (releases r) (Some c)
    (receipts r) (observations r) (r_outcome r) (last_step r) sequence (observation_generation r)).

(** A second lease over an existing dispatch is a retry. *)
Definition retry_allowed r : Result unit :=
  match dispatches r with
  | [] => Ok tt
  | _ =>
    let? _ := refuse_if (bool_decide (replay_policy (r_intent r) <> Idempotent)) "replay policy forbids a retry lease" in
    let? o := ok_or (InvalidTransition "retry lease requires a prior observation") (last (observations r)) in
    refuse_if (bool_decide (observation_generation r <> Some (generation r)) ||
      negb (is_not_satisfied (response o)) ||
      negb (last_is (fun old => expired_as_of old (observation_clock o) (observed_at o)) (leases r)))
      "retry lease requires a fresh confirmed negative observation proving the prior lease expired"
  end.

Definition apply_lease r sequence (l : OperationLease Datum ContentId) : Result OpRecord :=
  let? _ := require_unfinished r in
  let? _ := require_not_cancelled r in
  let? _ := refuse_if (negb (is_empty (reservations r)) || negb (is_empty (preparations r)))
    "new attempt lease before reserved resource disposition" in
  let? _ := refuse_if (last_is (fun old => negb (same_optional_datum (lease_clock old) (lease_clock l)) || (fence l <=? fence old)%N ||
      (acquired_at l <? expires_at old)%N) (leases r)) "overlapping or stale operation lease" in
  let? _ := retry_allowed r in
  Ok (MkRecord (r_intent r) (r_grant r) (leases r ++ [l]) (attempts r) (dispatches r) (preparations r) (reservations r) (releases r) (cancellation r)
    (receipts r) (observations r) (r_outcome r) LeaseAcquired sequence (observation_generation r)).

Definition attempt_ordinal r : Result N :=
  let n := N.of_nat (length (attempts r)) in if (n <=? u64_max)%N then Ok n else Err SequenceExhausted.

Definition apply_dispatch r sequence (d : FencedDispatch Datum ContentId) (a : OperationAttempt ContentId) : Result OpRecord :=
  let? _ := require_unfinished r in
  let? _ := require_not_cancelled r in
  let? _ := refuse_if (bool_decide (last_step r <> LeaseAcquired) || existsb (fun old => bool_decide (dispatch_lease old = dispatch_lease d)) (dispatches r))
    "dispatch requires a fresh unused attempt lease" in
  let? l := ok_or (InvalidTransition "dispatch before lease") (last (leases r)) in
  let? _ := refuse_if (bool_decide (dispatch_grant d <> grant_id (r_grant r)) || bool_decide (dispatch_lease d <> lease_id l) ||
      bool_decide (dispatch_attempt d <> attempt_id a) || bool_decide (attempt_operation a <> intent_id (r_intent r))) "conflicting fenced dispatch" in
  let? _ := refuse_if (match dispatches r with old :: _ => negb (same_datum (performer old) (performer d)) | [] => false end)
    "performer identity changed across recovery" in
  let? n := attempt_ordinal r in
  let? _ := refuse_if (bool_decide (ordinal a <> n)) "non-contiguous attempt ordinal" in
  Ok (MkRecord (r_intent r) (r_grant r) (leases r) (attempts r ++ [a]) (dispatches r ++ [d]) (preparations r) (reservations r) (releases r) (cancellation r)
    (receipts r) (observations r) (r_outcome r) DispatchPersisted sequence (observation_generation r)).

Definition apply_reservation r sequence (x : LifecycleReservation Datum ContentId) : Result OpRecord :=
  let? _ := require_unfinished r in
  let? _ := require_not_cancelled r in
  let? _ := refuse_if (bool_decide (last_step r <> DispatchPersisted) ||
      existsb (fun old => bool_decide (reservation_dispatch old = reservation_dispatch x)) (reservations r)) "duplicate or late reservation intent" in
  Ok (MkRecord (r_intent r) (r_grant r) (leases r) (attempts r) (dispatches r) (preparations r) (reservations r ++ [x]) (releases r) (cancellation r)
    (receipts r) (observations r) (r_outcome r) ReservationIntentPersisted sequence (observation_generation r)).

(** What is bound to a dispatch. *)
Definition reservation_of r (id : ContentId) : option (LifecycleReservation Datum ContentId) :=
  List.find (fun x => bool_decide (reservation_dispatch x = id)) (reservations r).

Definition preparation_of r (id : ContentId) : option (LifecyclePreparation Datum ContentId) :=
  List.find (fun x => bool_decide (preparation_dispatch x = id)) (preparations r).

Definition release_of r (id : ContentId) : option (LifecycleRelease ContentId) :=
  List.find (fun x => bool_decide (release_dispatch x = id)) (releases r).

Definition receipt_of r (id : ContentId) : option (LifecycleReceipt Datum ContentId) :=
  List.find (fun x => bool_decide (receipt_dispatch x = id)) (reverse (receipts r)).

Definition apply_preparation r sequence (x : LifecyclePreparation Datum ContentId) : Result OpRecord :=
  let? _ := require_unfinished r in
  let? _ := refuse_if (negb (match last_step r with DispatchPersisted | ReservationIntentPersisted => true | _ => false end) ||
      existsb (fun old => bool_decide (preparation_dispatch old = preparation_dispatch x)) (preparations r)) "duplicate or late preparation" in
  let? _ := refuse_if (bool_decide (preparation_reservation x <> reservation_id <$> reservation_of r (preparation_dispatch x)))
    "preparation reservation mismatch" in
  Ok (MkRecord (r_intent r) (r_grant r) (leases r) (attempts r) (dispatches r) (preparations r ++ [x]) (reservations r) (releases r) (cancellation r)
    (receipts r) (observations r) (r_outcome r) PreparationPersisted sequence (observation_generation r)).

Definition apply_release r sequence (x : LifecycleRelease ContentId) : Result OpRecord :=
  let? _ := require_unfinished r in
  let? _ := require_not_cancelled r in
  let? _ := refuse_if (bool_decide (last_step r <> PreparationPersisted) ||
      match last (preparations r) with None => true | Some p => bool_decide (preparation_id p <> release_preparation x) end ||
      match last (leases r) with None => true | Some l => bool_decide (lease_id l <> release_lease x) || bool_decide (lease_clock l = None) end ||
      existsb (fun old => bool_decide (release_dispatch old = release_dispatch x)) (releases r)) "duplicate, late or unbound release intent" in
  Ok (MkRecord (r_intent r) (r_grant r) (leases r) (attempts r) (dispatches r) (preparations r) (reservations r) (releases r ++ [x]) (cancellation r)
    (receipts r) (observations r) (r_outcome r) ReleaseIntentPersisted sequence (observation_generation r)).

Definition apply_receipt r sequence (x : LifecycleReceipt Datum ContentId) : Result OpRecord :=
  let? _ := require_unfinished r in
  let? _ := refuse_if (existsb (fun old => bool_decide (receipt_dispatch old = receipt_dispatch x)) (receipts r)) "duplicate lifecycle receipt" in
  let? _ := refuse_if (bool_decide (receipt_release x <> release_id <$> release_of r (receipt_dispatch x))) "receipt release mismatch" in
  Ok (MkRecord (r_intent r) (r_grant r) (leases r) (attempts r) (dispatches r) (preparations r) (reservations r) (releases r) (cancellation r)
    (receipts r ++ [x]) (observations r) (r_outcome r) ReceiptPersisted sequence (observation_generation r)).

Definition current_receipt r : option (LifecycleReceipt Datum ContentId) := last (dispatches r) ≫= fun d => receipt_of r (dispatch_id d).

Definition current_reservation r : option (LifecycleReservation Datum ContentId) := last (dispatches r) ≫= fun d => reservation_of r (dispatch_id d).

Definition current_preparation r : option (LifecyclePreparation Datum ContentId) := last (dispatches r) ≫= fun d => preparation_of r (dispatch_id d).

Definition current_release r : option (LifecycleRelease ContentId) := last (dispatches r) ≫= fun d => release_of r (dispatch_id d).

Definition is_some {A} (o : option A) : bool := match o with Some _ => true | None => false end.

(** The clock of an observation made after a release. *)
Definition released_clock r (o : OperationObservation Datum ContentId) : Result unit :=
  match current_release r with
  | None => Ok tt
  | Some x =>
    let? _ := refuse_if (negb (is_some (observation_clock o))) "released observation lacks clock domain" in
    let? l := ok_or (InvalidTransition "release lease missing") (List.find (fun l => bool_decide (lease_id l = release_lease x)) (leases r)) in
    refuse_if (negb (same_optional_datum (observation_clock o) (lease_clock l)) || (observed_at o <? acquired_at l)%N)
      "released observation clock differs or precedes acquisition"
  end.

Definition apply_observation r sequence (o : OperationObservation Datum ContentId) : Result OpRecord :=
  let? _ := require_unfinished r in
  let? _ := refuse_if (existsb (fun old => bool_decide (observation_id old = observation_id o)) (observations r)) "duplicate observation replay" in
  let? _ := refuse_if (bool_decide (observation_dispatch o <> dispatch_id <$> last (dispatches r))) "observation dispatch mismatch" in
  let? _ := refuse_if (last_is (fun d => same_datum (performer d) (observer o)) (dispatches r)) "performer authored its own postcondition observation" in
  let? _ := refuse_if (bool_decide (observation_receipt o <> receipt_id <$> current_receipt r)) "observation receipt mismatch" in
  let? _ := refuse_if (bool_decide (observation_reservation o <> reservation_id <$> current_reservation r)) "observation reservation mismatch" in
  let? _ := refuse_if (bool_decide (observation_preparation o <> preparation_id <$> current_preparation r)) "observation preparation mismatch" in
  let? _ := refuse_if (bool_decide (observation_release o <> release_id <$> current_release r)) "observation release mismatch" in
  let? _ := released_clock r o in
  let? _ := refuse_if ((is_some (current_reservation r) || is_some (current_preparation r)) && negb (is_some (current_release r)) &&
      is_satisfied (response o)) "reserved or prepared success without release intent" in
  Ok (MkRecord (r_intent r) (r_grant r) (leases r) (attempts r) (dispatches r) (preparations r) (reservations r) (releases r) (cancellation r)
    (receipts r) (observations r ++ [o]) (r_outcome r) ObservationPersisted sequence (Some sequence)).

(** When an outcome follows from the last observation. *)
Definition outcome_justified r (o : OperationObservation Datum ContentId) (v : OperationOutcome Datum ContentId) : Result unit :=
  match v with
  | AlreadyTrue e =>
    refuse_if (negb (is_satisfied (response o)) || negb (is_empty (dispatches r)) || bool_decide (e <> evidence o)) "invalid already-true outcome"
  | Verified e =>
    refuse_if (negb (is_satisfied (response o)) || is_empty (dispatches r) || bool_decide (e <> evidence o)) "invalid verified outcome"
  | Diverged observed expected =>
    refuse_if (negb (same_datum expected (intended_result (r_intent r))) ||
      negb (match response o with NotSatisfied value _ => same_datum value observed | _ => false end) ||
      is_some (cancellation r) || negb (is_empty (reservations r)) || negb (is_empty (preparations r)) || is_empty (dispatches r) ||
      negb (last_is (fun l => expired_as_of l (observation_clock o) (observed_at o)) (leases r))) "diverged expected value mismatch"
  | Uncertain step =>
    let? _ := refuse_if (bool_decide (step <> last_step r) ||
      negb (match response o with Unavailable _ | Disputed _ _ => true | _ => false end) && negb (is_not_satisfied (response o))) "uncertain step mismatch" in
    refuse_if (is_not_satisfied (response o) && is_empty (reservations r) && is_empty (preparations r) && negb (is_some (cancellation r)) &&
      (bool_decide (replay_policy (r_intent r) <> Idempotent) ||
       negb (last_is (fun l => same_optional_datum (lease_clock l) (observation_clock o) && is_live_at l (observed_at o)) (leases r))))
      "uncertain outcome lacks a live idempotent lease"
  end.

Definition apply_outcome r sequence (x : IdentifiedOutcome Datum ContentId) : Result OpRecord :=
  let? _ := require_unfinished r in
  let? o := ok_or (InvalidTransition "outcome before observation") (last (observations r)) in
  let? _ := refuse_if (bool_decide (outcome_observation x <> observation_id o)) "outcome observation mismatch" in
  let? _ := refuse_if (bool_decide (observation_generation r <> Some (generation r)))
    "outcome observation is stale: a later transition has since been admitted" in
  let? _ := outcome_justified r o (outcome_value x) in
  Ok (MkRecord (r_intent r) (r_grant r) (leases r) (attempts r) (dispatches r) (preparations r) (reservations r) (releases r) (cancellation r)
    (receipts r) (observations r) (Some x) OutcomePersisted sequence (observation_generation r)).

(** ** The retained contract of a record *)

Definition validate_retained_contract r (perf obs : Datum) : Result unit :=
  if existsb (fun d => negb (same_datum (performer d) perf)) (dispatches r) then Err PerformerMismatch
  else
    match r_outcome r with
    | Some x =>
      match outcome_value x with
      | AlreadyTrue _ | Verified _ =>
        match List.find (fun o => bool_decide (observation_id o = outcome_observation x)) (observations r) with
        | Some bound => if same_datum (observer bound) obs then Ok tt else Err ObserverMismatch
        | None => Err ObserverMismatch
        end
      | _ => Ok tt
      end
    | None => Ok tt
    end.

Definition validate_contract_identities (perf obs : Datum) : Result unit :=
  let? _ := content_id perf in
  let? _ := content_id obs in
  if same_datum perf obs then Err ObserverNotIndependent else Ok tt.
End Transitions.

(** ** Projecting a journal

    crates/sim-lib-operation-gate/src/lifecycle_project.rs and
    lifecycle_project_validate.rs: the records of every operation, rebuilt from
    the entries of a journal.  The journal crate is outside the repository; its
    entries and verified snapshots are used through their accessors. *)

(** Entries, snapshots and stored objects of the journal. *)
Class JournalData (Entry Snapshot Object Datum Symbol ContentId JournalError : Type) := {
  entry_sequence : Entry -> N;
  entry_previous : Entry -> option ContentId;
  entry_kind : Entry -> Symbol;
  entry_payloads : Entry -> list ContentId;
  entry_id : Entry -> ContentId;
  entries : Snapshot -> list Entry;
  head_sequence_entry : Snapshot -> option (N * ContentId);
  datums : Snapshot -> list (ContentId * Datum);
  object_id : Object -> ContentId;
  object_datum : Object -> Datum;
  object_verify : Object -> Res JournalError unit;
}.

Section Project.
Context {Datum Symbol ContentId JournalError Entry Snapshot Object : Type}.
Context `{KernelDatum Datum Symbol ContentId} `{OrdKey ContentId} `{JournalData Entry Snapshot Object Datum Symbol ContentId JournalError}.
Abbreviation Result A := (Res (OperationError Datum JournalError) A).
Abbreviation OpRecord := (OperationLifecycleRecord Datum ContentId).
Abbreviation Operations := (BTreeMap ContentId OpRecord).
Implicit Types (s : Snapshot) (e : Entry) (m : Operations).

(** ** Events *)

Inductive LifecycleEvent :=
| EIntent (i : OperationIntent Datum ContentId) (g : OperationGrant Datum ContentId)
| ECancellation (c : LifecycleCancellation Datum ContentId)
| ELease (l : OperationLease Datum ContentId)
| EDispatch (d : FencedDispatch Datum ContentId) (a : OperationAttempt ContentId)
| EReservation (x : LifecycleReservation Datum ContentId)
| EPreparation (x : LifecyclePreparation Datum ContentId)
| ERelease (x : LifecycleRelease ContentId)
| EReceipt (x : LifecycleReceipt Datum ContentId)
| EObservation (o : OperationObservation Datum ContentId)
| EOutcome (o : IdentifiedOutcome Datum ContentId).

Definition require_payloads e (count : nat) : Result unit :=
  if decide (length (entry_payloads e) = count) then Ok tt else Err (NonCanonical "lifecycle event payloads").

Definition read1 {A} (datum : ContentId -> Result Datum) e (dec : Datum -> Result A) : Result A :=
  let? _ := require_payloads e 1 in
  match entry_payloads e with
  | p :: _ => let? d := datum p in dec d
  | [] => Panic
  end.

Definition read2 {A B} (datum : ContentId -> Result Datum) e (dec1 : Datum -> Result A) (dec2 : Datum -> Result B) : Result (A * B) :=
  let? _ := require_payloads e 2 in
  match entry_payloads e with
  | p :: q :: _ => let? d := datum p in let? a := dec1 d in let? d' := datum q in let? b := dec2 d' in Ok (a, b)
  | _ => Panic
  end.

Definition is_kind e (name : string) : bool := bool_decide (entry_kind e = symbol_qualified "operation" name).

(** The event of an entry; entries of other kinds are passed over. *)
Definition decode_entry (datum : ContentId -> Result Datum) e : Result (option LifecycleEvent) :=
  if is_kind e "lifecycle-intent-persisted" then let? x := read2 datum e intent_from_datum grant_from_datum in Ok (Some (EIntent x.1 x.2))
  else if is_kind e "lifecycle-cancellation-intent-persisted" then let? x := read1 datum e cancellation_from_datum in Ok (Some (ECancellation x))
  else if is_kind e "lifecycle-lease-acquired" then let? x := read1 datum e lease_from_datum in Ok (Some (ELease x))
  else if is_kind e "lifecycle-dispatch-persisted" then let? x := read2 datum e dispatch_from_datum attempt_from_datum in Ok (Some (EDispatch x.1 x.2))
  else if is_kind e "lifecycle-reservation-intent-persisted" then let? x := read1 datum e reservation_from_datum in Ok (Some (EReservation x))
  else if is_kind e "lifecycle-preparation-persisted" then let? x := read1 datum e preparation_from_datum in Ok (Some (EPreparation x))
  else if is_kind e "lifecycle-release-intent-persisted" then let? x := read1 datum e release_from_datum in Ok (Some (ERelease x))
  else if is_kind e "lifecycle-receipt-persisted" then let? x := read1 datum e receipt_from_datum in Ok (Some (EReceipt x))
  else if is_kind e "lifecycle-observation-persisted" then let? x := read1 datum e observation_from_datum in Ok (Some (EObservation x))
  else if is_kind e "lifecycle-outcome-persisted" then let? x := read1 datum e identified_outcome_from_datum in Ok (Some (EOutcome x))
  else Ok None.

(** ** Transitions of the operations *)

(** [get_mut]: the record of an operation, changed in place. *)
Definition with_record m (operation : ContentId) (what : string) (f : OpRecord -> Result OpRecord) : Result Operations :=
  let? r := ok_or (InvalidTransition what) (m !! operation) in
  let? r' := f r in
  Ok (<[operation := r']> m).

(** [values_mut().find]: the first record whose last dispatch is [dispatch]. *)
Definition find_dispatch m (dispatch : ContentId) : option (ContentId * OpRecord) :=
  List.find (fun kr => last_is (fun d => bool_decide (dispatch_id d = dispatch)) (dispatches kr.2)) (map_entries m).

Definition with_dispatch m (dispatch : ContentId) (what : string) (f : OpRecord -> Result OpRecord) : Result Operations :=
  let? kr := ok_or (InvalidTransition what) (find_dispatch m dispatch) in
  let? r' := f kr.2 in
  Ok (<[kr.1 := r']> m).

Definition apply_event m (sequence : N) (ev : LifecycleEvent) : Result Operations :=
  match ev with
  | EIntent i g =>
    if decide (grant_operation g <> intent_id i) then Err GrantMismatch
    else match m !! intent_id i with
      | Some _ => Err DuplicateIntent
      | None => Ok (<[intent_id i := new_record i g sequence]> m)
      end
  | ECancellation c => with_record m (cancellation_operation c) "cancellation before intent" (fun r => apply_cancellation r sequence c)
  | ELease l => with_record m (lease_operation l) "lease before intent" (fun r => apply_lease r sequence l)
  | EDispatch d a => with_record m (dispatch_operation d) "dispatch before intent" (fun r => apply_dispatch r sequence d a)
  | EReservation x => with_dispatch m (reservation_dispatch x) "reservation before matching dispatch" (fun r => apply_reservation r sequence x)
  | EPreparation x => with_dispatch m (preparation_dispatch x) "preparation before matching dispatch" (fun r => apply_preparation r sequence x)
  | ERelease x => with_dispatch m (release_dispatch x) "release before matching dispatch" (fun r => apply_release r sequence x)
  | EReceipt x => with_dispatch m (receipt_dispatch x) "receipt before matching dispatch" (fun r => apply_receipt r sequence x)
  | EObservation o => with_record m (observation_operation o) "observation before intent" (fun r => apply_observation r sequence o)
  | EOutcome x => with_record m (outcome_operation x) "outcome before intent" (fun r => apply_outcome r sequence x)
  end.

Definition project_entry (datum : ContentId -> Result Datum) m e : Result Operations :=
  let? ev := decode_entry datum e in
  match ev with Some ev => apply_event m (entry_sequence e) ev | None => Ok m end.

Fixpoint project_from (datum : ContentId -> Result Datum) m (l : list Entry) : Result Operations :=
  match l with
  | [] => Ok m
  | e :: l => let? m := project_entry datum m e in project_from datum m l
  end.

Definition project_entries (l : list Entry) (datum : ContentId -> Result Datum) : Result Operations := project_from datum ∅ l.

(** ** Snapshots

    The two sets of identities are only counted and searched: a set is its list
    of distinct members. *)

Definition snapshot_lookup s (id : ContentId) : option Datum := snd <$> List.find (fun kd => bool_decide (kd.1 = id)) (datums s).

Definition snapshot_datum s (id : ContentId) : Result Datum := ok_or (NonCanonical "missing lifecycle payload") (snapshot_lookup s id).

Definition project s : Result Operations := project_entries (entries s) (snapshot_datum s).

Definition lifecycle_kind (kind : Symbol) : bool :=
  bool_decide (as_qualified_str kind ∈
    ["operation/lifecycle-intent-persisted"; "operation/lifecycle-cancellation-intent-persisted"; "operation/lifecycle-lease-acquired";
     "operation/lifecycle-dispatch-persisted"; "operation/lifecycle-reservation-intent-persisted"; "operation/lifecycle-preparation-persisted";
     "operation/lifecycle-release-intent-persisted"; "operation/lifecycle-receipt-persisted"; "operation/lifecycle-observation-persisted";
     "operation/lifecycle-outcome-persisted"]).

Definition validate_closed_snapshot s : Result unit :=
  if existsb (fun e => negb (lifecycle_kind (entry_kind e))) (entries s) then
    Err (InvalidTransition "non-lifecycle entry in exact lifecycle snapshot")
  else
    let referenced := remove_dups (entries s ≫= entry_payloads) in
    if decide (length referenced <> length (datums s)) then Err (InvalidTransition "unreferenced object in exact lifecycle snapshot")
    else if existsb (fun kd => negb (bool_decide (kd.1 ∈ referenced))) (datums s) then
      Err (InvalidTransition "unreferenced object in exact lifecycle snapshot")
    else Ok tt.

(** The sequence number after the head. *)
Definition next_sequence (head : option (N * ContentId)) : Result N :=
  match head with
  | Some (sequence, _) => if (sequence <? u64_max)%N then Ok (sequence + 1)%N else Err SequenceExhausted
  | None => Ok 0%N
  end.

Fixpoint verify_objects (objects : list Object) : Result unit :=
  match objects with
  | [] => Ok tt
  | o :: objects => let? _ := map_err Journal_ (object_verify o) in verify_objects objects
  end.

Definition validate_next_entry s e (objects : list Object) : Result unit :=
  let? sequence := next_sequence (head_sequence_entry s) in
  if bool_decide (entry_sequence e <> sequence) || bool_decide (entry_previous e <> snd <$> head_sequence_entry s) || negb (lifecycle_kind (entry_kind e)) then
    Err (InvalidTransition "prospective lifecycle entry is not the exact next entry")
  else
    let supplied := remove_dups (object_id <$> objects) in
    if bool_decide (length supplied <> length objects) ||
       existsb (fun id => negb (bool_decide (id ∈ entry_payloads e))) supplied ||
       existsb (fun id => negb (bool_decide (id ∈ supplied)) && negb (is_some (snapshot_lookup s id))) (entry_payloads e) then
      Err (InvalidTransition "prospective lifecycle objects do not match its payloads")
    else verify_objects objects.

Definition project_verified_lifecycle_records s : Result Operations :=
  let? _ := validate_closed_snapshot s in project s.

Definition extension_datum s (objects : list Object) (id : ContentId) : Result Datum :=
  match List.find (fun o => bool_decide (object_id o = id)) objects with
  | Some o => Ok (object_datum o)
  | None => snapshot_datum s id
  end.

Definition project_verified_lifecycle_extension s e (objects : list Object) : Result Operations :=
  let? _ := validate_closed_snapshot s in
  let? _ := validate_next_entry s e objects in
  project_entries (entries s ++ [e]) (extension_datum s objects).

Definition validate_extension s e (objects : list Object) : Result unit :=
  let? _ := project_verified_lifecycle_extension s e objects in Ok tt.
End Project.
