(* ===== verification/LifecycleInvariant.v ===== *)
(** * What an accepted journal says of an operation

    Whatever journal the projector of lifecycle_project.rs accepts, written by
    this engine or by any other writer: leases of one operation never overlap,
    attempts are contiguous, an operation that must run once is dispatched at most
    once, a retry follows an independent negative observation of the attempt
    before it made after that attempt's lease expired, custody is bound to the
    last dispatch, and an outcome is justified by the last fact of its record
    ([lifecycle_inv]).  [record_step] is a transition of one record. *)

From stdpp Require Import strings.
From S2P Require Import Prelude BTree KernelDatum OperationWire OperationData OperationCodec LifecycleRecord.

(** ** Guards *)

Section Guards.
Context {Datum Symbol ContentId JournalError : Type} `{KernelDatum Datum Symbol ContentId}.
Abbreviation Result A := (Res (OperationError Datum JournalError) A).

Lemma transition_allowed b what u : refuse_if b what = (Ok u : Result unit) -> b = false.
Proof. by destruct b. Qed.

Lemma require_unfinished_Ok (r : OperationLifecycleRecord Datum ContentId) u : require_unfinished r = (Ok u : Result unit) -> r_outcome r = None.
Proof. unfold require_unfinished. by destruct (r_outcome r). Qed.

Lemma require_not_cancelled_Ok (r : OperationLifecycleRecord Datum ContentId) u : require_not_cancelled r = (Ok u : Result unit) -> cancellation r = None.
Proof. unfold require_not_cancelled. by destruct (cancellation r). Qed.
End Guards.

Lemma is_empty_true {A} (l : list A) : is_empty l = true <-> l = [].
Proof. by destruct l. Qed.

Lemma is_empty_false {A} (l : list A) : is_empty l = false <-> l <> [].
Proof. by destruct l. Qed.

Lemma is_some_true {A} (o : option A) : is_some o = true <-> is_Some o.
Proof. destruct o; split; intros Hs; try done; by destruct Hs. Qed.

Lemma is_some_false {A} (o : option A) : is_some o = false <-> o = None.
Proof. by destruct o. Qed.

Lemma existsb_false {A} (p : A -> bool) l : existsb p l = false <-> Forall (fun x => p x = false) l.
Proof.
  induction l as [|x l IH]; cbn [existsb]; [split; [by constructor|done]|]. rewrite orb_false_iff, IH, Forall_cons. done.
Qed.

(** Opens the guards of a transition that was accepted. *)
Ltac guards :=
  repeat match goal with
  | H : rbind _ _ = Ok _ |- _ => apply rbind_Ok in H as (? & ? & H)
  | H : require_unfinished _ = Ok _ |- _ => apply require_unfinished_Ok in H
  | H : require_not_cancelled _ = Ok _ |- _ => apply require_not_cancelled_Ok in H
  | H : refuse_if _ _ = Ok _ |- _ => apply transition_allowed in H
  | H : ok_or _ _ = Ok _ |- _ => apply ok_or_Ok in H
  | H : _ || _ = false |- _ => apply orb_false_iff in H as [? ?]
  | H : negb _ = false |- _ => apply negb_false_iff in H
  | H : bool_decide _ = false |- _ => apply bool_decide_eq_false in H
  | H : bool_decide _ = true |- _ => apply bool_decide_eq_true in H
  | H : ~ (_ <> _) |- _ => apply dec_stable in H
  | H : is_empty _ = true |- _ => apply is_empty_true in H
  | H : is_empty _ = false |- _ => apply is_empty_false in H
  | H : is_some _ = false |- _ => apply is_some_false in H
  | H : existsb _ _ = false |- _ => apply existsb_false in H
  | H : (_ <=? _)%N = false |- _ => apply N.leb_gt in H
  | H : (_ <? _)%N = false |- _ => apply N.ltb_ge in H
  | H : Ok _ = Ok _ |- _ => injection H as H
  end.

(** The transitions of a record, and what an accepted one is. *)
Ltac step_cases Hs :=
  destruct Hs as [c r' Hk Ha|l r' Hk Ha|d a r' Hk Ha|x r' Hk Ha|x r' Hk Ha|x r' Hk Ha|x r' Hk Ha|o r' Hk Ha|x r' Hk Ha].

Ltac accepted Ha :=
  unfold apply_cancellation, apply_lease, apply_dispatch, apply_reservation, apply_preparation, apply_release, apply_receipt, apply_observation,
    apply_outcome in Ha; guards; match type of Ha with _ = ?r' => subst r' end.

Lemma StronglySorted_snoc {A} (R : relation A) l x : StronglySorted R l -> Forall (fun y => R y x) l -> StronglySorted R (l ++ [x]).
Proof.
  induction 1 as [|y l Hs IH Hy]; intros Hf; [by repeat constructor|]. apply Forall_cons in Hf as [Hyx Hf]. cbn [app]. constructor; [by apply IH|].
  apply Forall_app. by split; [|constructor].
Qed.

Lemma last_snoc_Some {A} (l : list A) x : last l = Some x -> exists l', l = l' ++ [x].
Proof. intros Hl. destruct (exists_last (l := l)) as (l' & y & ->); [by intros ->|]. rewrite last_snoc in Hl. simplify_eq. by eexists. Qed.

Section Invariant.
Context {Datum Symbol ContentId JournalError : Type} `{KernelDatum Datum Symbol ContentId} {laws : KernelDatumLaws Datum Symbol ContentId} {ord : OrdKey ContentId}.
#[local] Set Default Proof Using "All".
Abbreviation Result A := (Res (OperationError Datum JournalError) A).
Abbreviation OpRecord := (OperationLifecycleRecord Datum ContentId).
Abbreviation Event := (LifecycleEvent (Datum := Datum) (ContentId := ContentId)).
Implicit Types (k : ContentId) (r : OpRecord) (seq : N).

(** ** Events made of well-formed data *)

Definition event_valid (ev : Event) : Prop :=
  match ev with
  | EIntent i g => intent_valid (JournalError := JournalError) i /\ grant_valid (JournalError := JournalError) g
  | ECancellation c => cancellation_valid (JournalError := JournalError) c
  | ELease l => lease_valid (JournalError := JournalError) l
  | EDispatch d a => dispatch_valid (JournalError := JournalError) d /\ attempt_valid (JournalError := JournalError) a
  | EReservation x => reservation_valid (JournalError := JournalError) x
  | EPreparation x => preparation_valid (JournalError := JournalError) x
  | ERelease x => release_valid (JournalError := JournalError) x
  | EReceipt x => receipt_valid (JournalError := JournalError) x
  | EObservation o => observation_valid (JournalError := JournalError) o
  | EOutcome o => outcome_valid (JournalError := JournalError) o
  end.

(** ** Transitions of one record *)

Abbreviation last_dispatch r := (dispatch_id <$> last (dispatches r)).

Inductive record_step k seq r : Event -> OpRecord -> Prop :=
| step_cancellation c r' : cancellation_operation c = k -> apply_cancellation r seq c = (Ok r' : Result _) -> record_step k seq r (ECancellation c) r'
| step_lease l r' : lease_operation l = k -> apply_lease r seq l = (Ok r' : Result _) -> record_step k seq r (ELease l) r'
| step_dispatch d a r' : dispatch_operation d = k -> apply_dispatch r seq d a = (Ok r' : Result _) -> record_step k seq r (EDispatch d a) r'
| step_reservation x r' : last_dispatch r = Some (reservation_dispatch x) -> apply_reservation r seq x = (Ok r' : Result _) ->
    record_step k seq r (EReservation x) r'
| step_preparation x r' : last_dispatch r = Some (preparation_dispatch x) -> apply_preparation r seq x = (Ok r' : Result _) ->
    record_step k seq r (EPreparation x) r'
| step_release x r' : last_dispatch r = Some (release_dispatch x) -> apply_release r seq x = (Ok r' : Result _) -> record_step k seq r (ERelease x) r'
| step_receipt x r' : last_dispatch r = Some (receipt_dispatch x) -> apply_receipt r seq x = (Ok r' : Result _) -> record_step k seq r (EReceipt x) r'
| step_observation o r' : observation_operation o = k -> apply_observation r seq o = (Ok r' : Result _) -> record_step k seq r (EObservation o) r'
| step_outcome x r' : outcome_operation x = k -> apply_outcome r seq x = (Ok r' : Result _) -> record_step k seq r (EOutcome x) r'.

Lemma find_dispatch_Some (m : BTreeMap ContentId OpRecord) x k r : find_dispatch m x = Some (k, r) -> m !! k = Some r /\ last_dispatch r = Some x.
Proof using ord.
  unfold find_dispatch. intros Hf. apply find_some in Hf as [Hin Hl]. cbn [fst snd] in Hl. split.
  - apply elem_of_map_entries. by apply list_elem_of_In.
  - unfold last_is in Hl. destruct (last (dispatches r)); [|done]. apply bool_decide_eq_true in Hl. cbn. by f_equal.
Qed.

(** A transition starts one record or changes one. *)
Lemma apply_event_step (m m' : BTreeMap ContentId OpRecord) seq ev : apply_event m seq ev = (Ok m' : Result _) ->
  (exists i g, ev = EIntent i g /\ grant_operation g = intent_id i /\ m !! intent_id i = None /\ m' = <[intent_id i := new_record i g seq]> m) \/
  (exists k r r', m !! k = Some r /\ record_step k seq r ev r' /\ m' = <[k := r']> m).
Proof.
  destruct ev as [i g|c|l|d a|x|x|x|x|o|x]; cbn [apply_event]; intros Ha;
    [left|right; unfold with_record, with_dispatch in Ha..].
  { exists i, g. case_decide as Hg; [done|]. destruct (m !! intent_id i) eqn:E; [done|]. by simplify_eq. }
  all: guards; subst; repeat match goal with
    | kr : ContentId * OpRecord |- _ => destruct kr as [k r]; cbn [fst snd] in *
    | Hf : find_dispatch _ _ = Some _ |- _ => apply find_dispatch_Some in Hf as [? ?]
    end; eauto 10 using record_step.
Qed.

(** ** The invariant *)

Definition lease_after (old l : OperationLease Datum ContentId) : Prop :=
  same_optional_datum (lease_clock old) (lease_clock l) = true /\ (fence old < fence l)%N /\ (expires_at old <= acquired_at l)%N.

(** The record is its operation's, its leases bounded, disjoint and fenced. *)
Record leases_inv k r : Prop := {
  owned : intent_id (r_intent r) = k /\ grant_operation (r_grant r) = k;
  leases_owned : Forall (fun l => lease_operation l = k /\ (acquired_at l < expires_at l)%N) (leases r);
  leases_ordered : StronglySorted lease_after (leases r);
}.

(** One attempt for each dispatch, numbered from zero, each under a lease of its
    own, all handed to one performer. *)
Record attempts_inv k r : Prop := {
  attempts_match : Forall2 (fun d a => dispatch_operation d = k /\ dispatch_grant d = grant_id (r_grant r) /\ dispatch_attempt d = attempt_id a /\
    attempt_operation a = k /\ dispatch_valid (JournalError := JournalError) d) (dispatches r) (attempts r);
  attempts_contiguous : ordinal <$> attempts r = N.of_nat <$> seq 0 (length (attempts r));
  dispatches_leased : Forall (fun d => dispatch_lease d ∈ lease_id <$> leases r) (dispatches r);
  dispatch_leases_NoDup : NoDup (dispatch_lease <$> dispatches r);
  one_performer : match dispatches r with d :: l => Forall (fun d' => same (performer d) (performer d')) l | [] => True end;
}.

(** The attempt was observed to have failed after its lease expired. *)
Definition negative_evidence r (d : FencedDispatch Datum ContentId) : Prop :=
  exists o l, o ∈ observations r /\ is_not_satisfied (response o) = true /\ observation_dispatch o = Some (dispatch_id d) /\
    l ∈ leases r /\ lease_id l = dispatch_lease d /\ expired_as_of l (observation_clock o) (observed_at o) = true.

Record retry_inv r : Prop := {
  retried : forall i d d', dispatches r !! i = Some d -> dispatches r !! Datatypes.S i = Some d' -> negative_evidence r d;
  retrying : last_step r = LeaseAcquired -> forall d, last (dispatches r) = Some d -> negative_evidence r d /\ replay_policy (r_intent r) = Idempotent;
  exactly_once : replay_policy (r_intent r) = ExactlyOnce -> length (dispatches r) <= 1;
}.

(** Custody is of the last dispatch and is not reopened. *)
Record custody_inv r : Prop := {
  bound_lease : last_step r = DispatchPersisted \/ last_step r = ReservationIntentPersisted \/ last_step r = PreparationPersisted ->
    lease_id <$> last (leases r) = dispatch_lease <$> last (dispatches r);
  custody_closed : reservations r <> [] \/ preparations r <> [] -> last_step r <> LeaseAcquired /\ last_step r <> DispatchPersisted;
  one_reservation : length (reservations r) <= 1 /\ Forall (fun x => last_dispatch r = Some (reservation_dispatch x)) (reservations r);
  one_preparation : length (preparations r) <= 1 /\ Forall (fun x => last_dispatch r = Some (preparation_dispatch x) /\
    preparation_reservation x = reservation_id <$> reservation_of r (preparation_dispatch x)) (preparations r);
  one_release : length (releases r) <= 1 /\ Forall (fun x => last_dispatch r = Some (release_dispatch x) /\
    release_preparation x ∈ preparation_id <$> preparations r /\ dispatch_lease <$> last (dispatches r) = Some (release_lease x) /\
    exists l, l ∈ leases r /\ lease_id l = release_lease x /\ is_Some (lease_clock l)) (releases r);
  one_receipt_each : NoDup (receipt_dispatch <$> receipts r);
}.

(** An observation of the record as it stands. *)
Definition observed_now r (o : OperationObservation Datum ContentId) : Prop :=
  observation_dispatch o = last_dispatch r /\
  observation_receipt o = receipt_id <$> current_receipt r /\
  observation_reservation o = reservation_id <$> current_reservation r /\
  observation_preparation o = preparation_id <$> current_preparation r /\
  observation_release o = release_id <$> current_release r /\
  last_is (fun d => same_datum (performer d) (observer o)) (dispatches r) = false /\
  (is_satisfied (response o) = true -> is_Some (current_reservation r) \/ is_Some (current_preparation r) -> is_Some (current_release r)).

(** What an outcome says. *)
Definition outcome_meaning r (o : OperationObservation Datum ContentId) (v : OperationOutcome Datum ContentId) : Prop :=
  match v with
  | AlreadyTrue e => is_satisfied (response o) = true /\ dispatches r = [] /\ e = evidence o
  | Verified e => is_satisfied (response o) = true /\ dispatches r <> [] /\ e = evidence o
  | Diverged observed expected =>
    same expected (intended_result (r_intent r)) /\ (exists value e, response o = NotSatisfied value e /\ same value observed) /\
    cancellation r = None /\ reservations r = [] /\ preparations r = [] /\ dispatches r <> [] /\
    exists l, last (leases r) = Some l /\ expired_as_of l (observation_clock o) (observed_at o) = true
  | Uncertain step =>
    step = ObservationPersisted /\ is_satisfied (response o) = false /\
    (is_not_satisfied (response o) = true -> reservations r = [] -> preparations r = [] -> cancellation r = None ->
     replay_policy (r_intent r) = Idempotent /\
     exists l, last (leases r) = Some l /\ same_optional_datum (lease_clock l) (observation_clock o) = true /\ is_live_at l (observed_at o) = true)
  end.

Record outcome_inv r : Prop := {
  generations : match observation_generation r with Some g => (g <= generation r)%N | None => True end;
  fresh : observation_generation r = Some (generation r) -> last_step r = ObservationPersisted /\
    exists o, last (observations r) = Some o /\ observed_now r o;
  concluded : forall x, r_outcome r = Some x -> exists o, last (observations r) = Some o /\ outcome_observation x = observation_id o /\
    observed_now r o /\ outcome_meaning r o (outcome_value x);
}.

Record lifecycle_inv k r : Prop := {
  inv_leases : leases_inv k r;
  inv_attempts : attempts_inv k r;
  inv_retry : retry_inv r;
  inv_custody : custody_inv r;
  inv_outcome : outcome_inv r;
}.

Lemma new_record_inv i g seq : grant_operation g = intent_id i -> lifecycle_inv (intent_id i) (new_record i g seq).
Proof.
  intros Hg. repeat split; cbn; try done; try by constructor.
Qed.

Lemma lease_valid_bounds l : lease_valid (JournalError := JournalError) l -> (acquired_at l < expires_at l)%N.
Proof.
  intros [Hl _]. apply rbind_Ok in Hl as (l0 & Hn & Hc). apply new_lease_fields in Hn. apply lease_in_clock_fields in Hc. destruct_and!. congruence.
Qed.

Lemma same_optional_trans (a b c : option Datum) : same_optional_datum a b = true -> same_optional_datum b c = true -> same_optional_datum a c = true.
Proof. destruct a, b, c; try done. apply same_trans. Qed.

Lemma same_optional_sym (a b : option Datum) : same_optional_datum a b = true -> same_optional_datum b a = true.
Proof. destruct a, b; try done. apply same_sym. Qed.

Lemma lease_after_trans l1 l2 l3 : (acquired_at l2 < expires_at l2)%N -> lease_after l1 l2 -> lease_after l2 l3 -> lease_after l1 l3.
Proof. intros ? (? & ? & ?) (? & ? & ?). split_and!; [by eapply same_optional_trans|lia|lia]. Qed.

(** A lease over every lease when over the last. *)
Lemma leases_extend k r l : leases_inv k r -> (forall old, last (leases r) = Some old -> lease_after old l) -> Forall (fun old => lease_after old l) (leases r).
Proof.
  intros [_ Ho Hs] Hl. destruct (last (leases r)) as [old|] eqn:E; [|by apply last_None in E as ->].
  specialize (Hl old eq_refl). apply last_snoc_Some in E as [init E]. rewrite E in Ho, Hs |- *. apply Forall_app. split; [|by constructor].
  apply Forall_app in Ho as [_ Ho]. apply Forall_cons in Ho as [[_ Hb] _]. clear E.
  assert (Hf : Forall (fun y => lease_after y old) init).
  { clear -Hs. induction init as [|y init IH]; [done|]. cbn [app] in Hs. apply StronglySorted_inv in Hs as [Hs Hy]. constructor; [|by apply IH].
    apply Forall_app in Hy as [_ Hy]. by apply Forall_cons in Hy as [? _]. }
  eapply Forall_impl; [exact Hf|]. cbn. intros y Hy. eapply lease_after_trans; [exact Hb|exact Hy|]. done.
Qed.

Lemma leases_inv_step k seq r ev r' : event_valid ev -> leases_inv k r -> record_step k seq r ev r' -> leases_inv k r'.
Proof.
  intros Hv Hi Hs. step_cases Hs.
  2: { accepted Ha. cbn in Hv. apply lease_valid_bounds in Hv. pose proof Hi as [Ho Hl Hs]. split; cbn; [done| |].
    - apply Forall_app. by repeat constructor.
    - apply StronglySorted_snoc; [done|]. apply (leases_extend k); [done|]. intros old Hold.
      match goal with Hl : last_is _ _ = false |- _ => unfold last_is in Hl; rewrite Hold in Hl; guards end. by split_and!. }
  all: accepted Ha; destruct Hi; by split.
Qed.

Lemma negative_evidence_mono r r' d : (forall o, o ∈ observations r -> o ∈ observations r') -> (forall l, l ∈ leases r -> l ∈ leases r') ->
  negative_evidence r d -> negative_evidence r' d.
Proof. intros Ho Hl (o & l & ? & ? & ? & ? & ? & ?). exists o, l. split_and!; eauto. Qed.

Lemma attempts_inv_step k seq r ev r' : event_valid ev -> leases_inv k r -> attempts_inv k r -> record_step k seq r ev r' -> attempts_inv k r'.
Proof.
  intros Hv Hl Hi Hs. step_cases Hs.
  2: { accepted Ha. destruct Hi as [Hm Hc Hd Hn Hp]. split; cbn; try done.
    eapply Forall_impl; [exact Hd|]. cbn. intros d Hd'. rewrite fmap_app, elem_of_app. by left. }
  2: { unfold apply_dispatch, attempt_ordinal in Ha. guards. destruct (N.leb_spec (N.of_nat (length (attempts r))) u64_max); [|done]. guards. subst r'.
    destruct Hi as [Hm Hc Hd Hn Hp], Hl as [[Hik _] _ _], Hv as [Hvd _]. split; cbn.
    - apply Forall2_app; [done|]. constructor; [|done]. split_and!; congruence || done.
    - rewrite fmap_app, Hc, length_app, Nat.add_1_r, seq_S, fmap_app. cbn. congruence.
    - apply Forall_app. split; [done|]. constructor; [|done]. apply list_elem_of_fmap. 
      match goal with Hlast : last (leases r) = Some ?l |- _ => exists l; split; [congruence|]; apply last_snoc_Some in Hlast as [? ->] end. set_solver.
    - rewrite fmap_app. apply NoDup_app. split_and!; [done| |by apply NoDup_singleton]. intros y Hy ->%list_elem_of_singleton.
      apply list_elem_of_fmap in Hy as (old & Heq & Hold). match goal with Hf : Forall _ (dispatches r) |- _ => eapply Forall_forall in Hf; [|exact Hold]; cbn in Hf; guards end. congruence.
    - destruct (dispatches r) as [|d0 l]; cbn; [done|]. apply Forall_app. split; [done|]. constructor; [|done]. cbv beta iota in *. by guards. }
  all: accepted Ha; destruct Hi; by split.
Qed.
Lemma leases_before_last k r old l : leases_inv k r -> last (leases r) = Some old -> l ∈ leases r -> l = old \/ lease_after l old.
Proof.
  intros [_ _ Hs] [init E]%last_snoc_Some Hin. rewrite E in Hs, Hin. apply elem_of_app in Hin as [Hin| ->%list_elem_of_singleton]; [right|by left].
  clear E. induction init as [|y init IH]; [by apply elem_of_nil in Hin|]. cbn [app] in Hs. apply StronglySorted_inv in Hs as [Hs Hy].
  apply elem_of_cons in Hin as [->|Hin]; [|by apply IH]. apply Forall_app in Hy as [_ Hy]. by apply Forall_cons in Hy as [? _].
Qed.

(** The expiry of the last lease is the expiry of every lease. *)
Lemma expired_before k r old l clock at_ : leases_inv k r -> last (leases r) = Some old -> l ∈ leases r -> expired_as_of old clock at_ = true ->
  expired_as_of l clock at_ = true.
Proof.
  intros Hi Hold Hin He. destruct (leases_before_last k r old l Hi Hold Hin) as [->|(Hc & _ & Hx)]; [done|]. unfold expired_as_of in *.
  apply andb_true_iff in He as [Hco Hle]. apply N.leb_le in Hle. apply andb_true_iff. split; [by eapply same_optional_trans|]. apply N.leb_le.
  assert (old ∈ leases r) as Hio by (apply last_snoc_Some in Hold as [? ->]; set_solver). destruct Hi as [_ Hb _].
  eapply Forall_forall in Hb as [_ Hb]; [|exact Hio]. lia.
Qed.

(** A retry lease follows negative evidence. *)
Lemma retry_allowed_evidence k r d u : leases_inv k r -> attempts_inv k r -> outcome_inv r -> last (dispatches r) = Some d ->
  retry_allowed r = (Ok u : Result _) -> negative_evidence r d /\ replay_policy (r_intent r) = Idempotent.
Proof.
  intros Hl Ha Ho Hd Hr. unfold retry_allowed in Hr. destruct (dispatches r) as [|d0 ds] eqn:E; [done|]. rewrite <- E in Hd. guards.
  split; [|done]. destruct Ho as [_ Hf _]. destruct Hf as (_ & o & Hlo & Hnow & _); [congruence|].
  match goal with Hx : last (observations r) = Some ?y |- _ => assert (y = o) as -> by congruence end. 
  unfold last_is in *. destruct (last (leases r)) as [old|] eqn:Eold; [|done].
  destruct Ha as [_ _ Hle _ _]. assert (Hin : d ∈ dispatches r) by (apply last_snoc_Some in Hd as [? ->]; set_solver).
  eapply Forall_forall in Hle; [|exact Hin]. cbn in Hle. apply list_elem_of_fmap in Hle as (l & Hll & Hlin).
  exists o, l. split_and!; [|done| |done|done|by eapply expired_before].
  - apply last_snoc_Some in Hlo as [? ->]. set_solver.
  - rewrite Hnow, Hd. done.
Qed.

Lemma retry_inv_step k seq r ev r' : leases_inv k r -> attempts_inv k r -> outcome_inv r -> retry_inv r -> record_step k seq r ev r' -> retry_inv r'.
Proof.
  intros Hl Hat Ho Hi Hs. step_cases Hs.
  - accepted Ha. destruct Hi. by split.
  - accepted Ha. pose proof Hi as [Hr _ He]. split; cbn.
    + intros i d d' Hd Hd'. apply (negative_evidence_mono r); [done| |exact (Hr i d d' Hd Hd')]. cbn. set_solver.
    + intros _ d Hd. destruct (retry_allowed_evidence k r d x3) as [Hn Hp]; [done..|]. split; [|done].
      apply (negative_evidence_mono r); [done| |exact Hn]. cbn. set_solver.
    + done.
  - accepted Ha. pose proof Hi as [Hr Hy He]. specialize (Hy ltac:(done)). split; cbn; [|done|].
    + intros i d1 d2 Hd1 Hd2. apply lookup_app_Some in Hd2 as [Hd2|[Hlen Hd2]].
      * rewrite lookup_app_l in Hd1 by (apply lookup_lt_Some in Hd2; lia). apply (negative_evidence_mono r); [done|done|exact (Hr i d1 d2 Hd1 Hd2)].
      * apply list_lookup_singleton_Some in Hd2 as [Hlen' _]. rewrite lookup_app_l in Hd1 by lia.
        apply (negative_evidence_mono r); [done|done|apply Hy]. rewrite last_lookup. by replace (pred (length (dispatches r))) with i by lia.
    + intros Hx. destruct (dispatches r) as [|d0 ds] eqn:E; [done|]. destruct (last (dispatches r)) as [d1|] eqn:E1.
      * rewrite E in E1. destruct (Hy d1 E1). congruence.
      * apply last_None in E1. congruence.
  - accepted Ha. destruct Hi. by split.
  - accepted Ha. destruct Hi. by split.
  - accepted Ha. destruct Hi. by split.
  - accepted Ha. destruct Hi. by split.
  - accepted Ha. pose proof Hi as [Hr _ He]. split; cbn; [|done|done].
    intros i d d' Hd Hd'. apply (negative_evidence_mono r); [|done|exact (Hr i d d' Hd Hd')]. cbn. set_solver.
  - accepted Ha. destruct Hi. by split.
Qed.

(** Without a preparation nothing was released. *)
Lemma no_release r : custody_inv r -> preparations r = [] -> releases r = [].
Proof.
  intros [_ _ _ _ [_ Hf] _] Hp. destruct (releases r) as [|x l]; [done|]. apply Forall_cons in Hf as [(_ & Hin & _) _]. rewrite Hp in Hin. by apply elem_of_nil in Hin.
Qed.

(** No custody is held while the last step could still start some. *)
Lemma no_custody r : custody_inv r -> last_step r = LeaseAcquired \/ last_step r = DispatchPersisted -> reservations r = [] /\ preparations r = [].
Proof.
  intros [_ Hc _ _ _ _] Hs. destruct (reservations r) eqn:E1, (preparations r) eqn:E2; try done; destruct Hc; (by destruct Hs) || (try (by left); by right).
Qed.

(** Nothing with the last dispatch means nothing at all. *)
Lemma none_of_last {A} (f : A -> ContentId) (p : A -> bool) (l : list A) r id : (forall x, p x = false -> f x <> id) -> last_dispatch r = Some id ->
  Forall (fun x => last_dispatch r = Some (f x)) l -> Forall (fun x => p x = false) l -> l = [].
Proof.
  intros Hp Hid H1 H2. destruct l as [|x l]; [done|]. apply Forall_cons in H1 as [H1 _], H2 as [H2 _]. apply Hp in H2. congruence.
Qed.

Lemma custody_inv_step k seq r ev r' : custody_inv r -> record_step k seq r ev r' -> custody_inv r'.
Proof.
  intros Hi Hs. step_cases Hs.
  - accepted Ha. destruct Hi. by split.
  - accepted Ha. pose proof (no_release r Hi ltac:(done)) as Hrel. destruct Hi as [Hb Hc Hr Hp Hx Hn]. split; cbn.
    + by intros [?|[?|?]].
    + by intros [?|?].
    + done.
    + match goal with Hp : preparations r = [] |- _ => rewrite Hp end. cbn. split; [lia|done].
    + rewrite Hrel. cbn. split; [lia|done].
    + done.
  - accepted Ha. destruct (no_custody r Hi ltac:(by left)) as [Hr0 Hp0]. pose proof (no_release r Hi Hp0) as Hx0. destruct Hi as [_ _ _ _ _ Hn].
    split; cbn; rewrite ?Hr0, ?Hp0, ?Hx0; cbn; try (split; [lia|done]); [| |done].
    + intros _. rewrite last_snoc. cbn. match goal with Hl : last (leases r) = Some _ |- _ => rewrite Hl end. cbn. congruence.
    + by intros [?|?].
  - accepted Ha. destruct (no_custody r Hi ltac:(by right)) as [Hr0 Hp0]. pose proof (no_release r Hi Hp0) as Hx0. destruct Hi as [Hb _ _ _ _ Hn].
    split; cbn; rewrite ?Hr0, ?Hp0, ?Hx0; cbn; try (split; [lia|done]); try done.
    + intros _. apply Hb. by left.
    + split; [lia|]. by constructor.
  - accepted Ha. destruct Hi as [Hb Hc Hr [_ Hp] Hx Hn].
    assert (preparations r = []) as Hp0 
      by (eapply (none_of_last preparation_dispatch (fun y => bool_decide (preparation_dispatch y = preparation_dispatch x)));
        [intros y Hy; by apply bool_decide_eq_false in Hy|exact Hk|eapply Forall_impl; [exact Hp|by intros ? [? _]]|];
        match goal with Hf : Forall _ (preparations r) |- Forall _ (preparations r) => eapply Forall_impl; [exact Hf|]; cbn; intros y Hy; guards; by apply bool_decide_eq_false end).
    assert (last_step r = DispatchPersisted \/ last_step r = ReservationIntentPersisted) as Hls by (destruct (last_step r); try done; auto).
    split; cbn; rewrite ?Hp0; cbn; try done.
    + intros _. apply Hb. tauto.
    + split; [lia|]. constructor; [|done]. split; done.
    + rewrite Hp0 in Hx. destruct Hx as [Hx1 Hx2]. split; [done|]. eapply Forall_impl; [exact Hx2|]. cbn. intros y (_ & Hy & _). by apply elem_of_nil in Hy.
  - accepted Ha. destruct Hi as [Hb Hc Hr Hp [_ Hx] Hn].
    assert (releases r = []) as Hx0 
      by (eapply (none_of_last release_dispatch (fun y => bool_decide (release_dispatch y = release_dispatch x)));
        [intros y Hy; by apply bool_decide_eq_false in Hy|exact Hk|eapply Forall_impl; [exact Hx|by intros ? [? _]]|];
        match goal with Hf : Forall _ (releases r) |- Forall _ (releases r) => eapply Forall_impl; [exact Hf|]; cbn; intros y Hy; guards; by apply bool_decide_eq_false end).
    destruct (last (preparations r)) as [p|] eqn:Ep; [|done]. destruct (last (leases r)) as [l|] eqn:El; [|done]. guards.
    split; cbn; rewrite ?Hx0; cbn; try done.
    + by intros [?|[?|?]].
    + split; [lia|]. constructor; [|done]. split_and!; [done| | |].
      * apply list_elem_of_fmap. exists p. split; [done|]. apply last_snoc_Some in Ep as [? ->]. set_solver.
      * rewrite <- Hb by tauto. cbn. congruence.
      * exists l. split_and!; [apply last_snoc_Some in El as [? ->]; set_solver|done|]. by destruct (lease_clock l).
  - accepted Ha. destruct Hi as [Hb Hc Hr Hp Hx Hn]. split; cbn; try done.
    + by intros [?|[?|?]].
    + rewrite fmap_app. apply NoDup_app. split_and!; [done| |by apply NoDup_singleton]. intros y Hy ->%list_elem_of_singleton.
      apply list_elem_of_fmap in Hy as (old & Heq & Hold). match goal with Hf : Forall _ (receipts r) |- _ => eapply Forall_forall in Hf; [|exact Hold]; cbn in Hf; guards end. congruence.
  - accepted Ha. destruct Hi. split; cbn; try done. by intros [?|[?|?]].
  - accepted Ha. destruct Hi. split; cbn; try done. by intros [?|[?|?]].
Qed.

Lemma outcome_justified_meaning r o v u : last_step r = ObservationPersisted -> outcome_justified r o v = (Ok u : Result _) -> outcome_meaning r o v.
Proof.
  intros Hs Hj. destruct v as [e|e|observed expected|step]; cbn [outcome_justified outcome_meaning] in *; guards; try done.
  - split_and!; try done.
    + destruct (response o); try done. eauto.
    + unfold last_is in *. destruct (last (leases r)) as [l|]; [|done]. by exists l.
  - split_and!; [congruence| |].
    + destruct (response o); try done.
    + intros Hn Hr Hp Hc. rewrite Hn, Hr, Hp, Hc in Hj. cbn in Hj. guards. split; [done|]. unfold last_is in *.
      destruct (last (leases r)) as [l|]; [|done]. exists l. split; [done|]. by apply andb_true_iff.
Qed.

Lemma apply_observation_now r seq o r' : apply_observation r seq o = (Ok r' : Result _) -> observed_now r o.
Proof.
  intros Ha. unfold apply_observation in Ha. guards. split_and!; try done. intros Hsat Hcust. 
  match goal with Hg : _ && is_satisfied _ = false |- _ => rewrite Hsat, andb_true_r in Hg; apply andb_false_iff in Hg as [Hg|Hg] end; guards.
  - destruct Hcust as [[? Hx]|[? Hx]]; congruence.
  - by apply is_some_true.
Qed.

Lemma outcome_inv_step k seq r ev r' : (generation r < seq)%N -> outcome_inv r -> record_step k seq r ev r' -> outcome_inv r'.
Proof.
  intros Hg Hi Hs.
  assert (stale : forall g, observation_generation r = Some g -> (g < seq)%N) by (intros g Hog; destruct Hi as [Hgen _ _]; rewrite Hog in Hgen; lia).
  assert (gens : match observation_generation r with Some g => (g <= seq)%N | None => True end).
  { destruct (observation_generation r) as [g|]; [|done]. specialize (stale g eq_refl). lia. }
  assert (notfresh : observation_generation r <> Some seq) by (intros Hog; specialize (stale _ Hog); lia).
  step_cases Hs.
  8: { pose proof (apply_observation_now r seq o r' Ha) as Hnow. accepted Ha. split; cbn; [done| |congruence].
    intros _. split; [done|]. exists o. by rewrite last_snoc. }
  8: { accepted Ha. destruct Hi as [_ Hf _]. destruct Hf as (Hst & o' & Hlo & Hnow); [done|]. split; cbn; [done|done|].
    intros y [= <-]. simplify_eq. eexists.
    split_and!; [done|done|done|refine (outcome_justified_meaning r _ _ _ Hst _); eassumption]. }
  all: accepted Ha; split; cbn; [done|done|congruence].
Qed.

(** ** Every transition keeps it *)

Lemma lifecycle_inv_step k seq r ev r' : event_valid ev -> (generation r < seq)%N -> lifecycle_inv k r -> record_step k seq r ev r' -> lifecycle_inv k r'.
Proof.
  intros Hv Hg [Hl Ha Hr Hc Ho] Hs.
  split; eauto using leases_inv_step, attempts_inv_step, retry_inv_step, custody_inv_step, outcome_inv_step.
Qed.

Lemma record_step_generation k seq r ev r' : record_step k seq r ev r' -> generation r' = seq.
Proof. intros Hs. step_cases Hs; by accepted Ha. Qed.
End Invariant.
