(* ===== verification/LifecycleHistory.v ===== *)
(** * The history of operations in a journal

    The projector over whole journals: every record it returns keeps
    [lifecycle_inv], a longer journal only extends the records of a shorter one,
    a cancellation stops every later lease, dispatch, reservation and release,
    and an outcome is final. *)

From stdpp Require Import strings.
From S2P Require Import Prelude BTree KernelDatum OperationWire OperationData OperationCodec LifecycleRecord LifecycleInvariant.

Section History.
Context {Datum Symbol ContentId JournalError Entry Snapshot Object : Type}.
Context `{KernelDatum Datum Symbol ContentId} {laws : KernelDatumLaws Datum Symbol ContentId} {ord : OrdKey ContentId}.
Context {journal : JournalData Entry Snapshot Object Datum Symbol ContentId JournalError}.
#[local] Set Default Proof Using "All".
Abbreviation Result A := (Res (OperationError Datum JournalError) A).
Abbreviation OpRecord := (OperationLifecycleRecord Datum ContentId).
Abbreviation Operations := (BTreeMap ContentId OpRecord).
Abbreviation lifecycle_inv := (lifecycle_inv (JournalError := JournalError)).
Abbreviation record_step := (record_step (JournalError := JournalError)).
Implicit Types (k : ContentId) (r : OpRecord) (m : Operations) (l : list Entry) (datum : ContentId -> Result Datum).

(** ** Records only grow *)

Record extends r r' : Prop := {
  ext_intent : r_intent r' = r_intent r;
  ext_grant : r_grant r' = r_grant r;
  ext_leases : leases r `prefix_of` leases r';
  ext_attempts : attempts r `prefix_of` attempts r';
  ext_dispatches : dispatches r `prefix_of` dispatches r';
  ext_preparations : preparations r `prefix_of` preparations r';
  ext_reservations : reservations r `prefix_of` reservations r';
  ext_releases : releases r `prefix_of` releases r';
  ext_receipts : receipts r `prefix_of` receipts r';
  ext_observations : observations r `prefix_of` observations r';
  ext_cancellation : forall c, cancellation r = Some c -> cancellation r' = Some c /\ leases r' = leases r /\ attempts r' = attempts r /\
    dispatches r' = dispatches r /\ reservations r' = reservations r /\ releases r' = releases r;
  ext_outcome : is_Some (r_outcome r) -> r' = r;
}.

#[global] Instance extends_refl : Reflexive extends.
Proof. intros r. by split. Qed.

#[global] Instance extends_trans : Transitive extends.
Proof.
  intros r1 r2 r3 E1 E2. split.
  1-2: etrans; [apply E2|apply E1].
  1-8: etrans; [apply E1|apply E2].
  - intros c Hc. destruct (ext_cancellation _ _ E1 c Hc) as (Hc2 & ? & ? & ? & ? & ?). destruct (ext_cancellation _ _ E2 c Hc2) as (? & ? & ? & ? & ? & ?).
    split_and!; congruence.
  - intros Ho. pose proof (ext_outcome _ _ E1 Ho) as ->. by apply E2.
Qed.

Lemma record_step_extends k seq r ev r' : record_step k seq r ev r' -> extends r r'.
Proof.
  intros Hs. step_cases Hs; accepted Ha; split; cbn; try done; try (by apply prefix_app_r);
    (intros c' Hc'; congruence) || (intros [? Ho]; congruence) || idtac.
  intros c' Hc'. by rewrite Hc' in *.
Qed.

(** ** Decoded events are well-formed *)

Lemma read1_Ok {A} datum (e : Entry) (dec : Datum -> Result A) x : read1 datum e dec = Ok x -> exists d, dec d = Ok x.
Proof. unfold read1. intros (_ & _ & Hr)%rbind_Ok. destruct (entry_payloads e); [done|]. apply rbind_Ok in Hr as (d & _ & Hd). by eexists. Qed.

Lemma read2_Ok {A B} datum (e : Entry) (dec1 : Datum -> Result A) (dec2 : Datum -> Result B) x : read2 datum e dec1 dec2 = Ok x ->
  (exists d, dec1 d = Ok x.1) /\ (exists d, dec2 d = Ok x.2).
Proof.
  unfold read2. intros (_ & _ & Hr)%rbind_Ok. destruct (entry_payloads e) as [|p [|q ps]]; [done..|].
  apply rbind_Ok in Hr as (d & _ & (a & Ha & (d' & _ & (b & Hb & Heq)%rbind_Ok)%rbind_Ok)%rbind_Ok). injection Heq as <-. eauto.
Qed.

Lemma decode_entry_valid datum (e : Entry) ev : decode_entry datum e = Ok (Some ev) -> event_valid (JournalError := JournalError) ev.
Proof.
  unfold decode_entry. repeat (destruct (is_kind e _)); try done; intros (x & Hx & Heq)%rbind_Ok; injection Heq as <-; cbn [event_valid];
    first [apply read1_Ok in Hx as [d Hx]|apply read2_Ok in Hx as [[d Hx] [d' Hy]]].
  - split; [by eapply intent_codec|by eapply grant_codec].
  - by eapply cancellation_codec.
  - by eapply lease_codec.
  - split; [by eapply dispatch_codec|by eapply attempt_codec].
  - by eapply reservation_codec.
  - by eapply preparation_codec.
  - by eapply release_codec.
  - by eapply receipt_codec.
  - by eapply observation_codec.
  - by eapply outcome_codec.
Qed.

(** ** Whole journals *)

(** The sequence numbers of a verified journal grow. *)
Abbreviation ascending l := (StronglySorted N.lt (entry_sequence <$> l)).

Definition behind l r : Prop := Forall (fun e => (generation r < entry_sequence e)%N) l.

Lemma project_entry_inv datum m (e : Entry) m' : (forall k r, m !! k = Some r -> lifecycle_inv k r /\ (generation r < entry_sequence e)%N) ->
  project_entry datum m e = Ok m' ->
  (forall k r', m' !! k = Some r' -> lifecycle_inv k r' /\ (m !! k = Some r' \/ generation r' = entry_sequence e)) /\
  (forall k r, m !! k = Some r -> exists r', m' !! k = Some r' /\ extends r r').
Proof.
  intros Hm Hp. unfold project_entry in Hp. apply rbind_Ok in Hp as ([ev|] & Hd & Hp); [|injection Hp as <-].
  2: { split; [intros k r Hr; split; [by apply Hm|by left]|]. intros k r Hr. by exists r. }
  apply decode_entry_valid in Hd. apply apply_event_step in Hp as [(i & g & -> & Hg & Hn & ->)|(k0 & r0 & r1 & H0 & Hs & ->)].
  - split.
    + intros k r' Hk. apply lookup_insert_Some in Hk as [[<- <-]|[Hne Hk]]; [split; [by apply new_record_inv|by right]|].
      split; [by apply Hm|by left].
    + intros k r Hk. exists r. split; [|done]. rewrite lookup_insert_ne; [done|]. congruence.
  - destruct (Hm k0 r0 H0) as [Hi Hg]. split.
    + intros k r' Hk. apply lookup_insert_Some in Hk as [[<- <-]|[Hne Hk]].
      * split; [by eapply lifecycle_inv_step|right; by eapply record_step_generation].
      * split; [by apply Hm|by left].
    + intros k r Hk. destruct (decide (k = k0)) as [->|Hne].
      * exists r1. rewrite lookup_insert_eq. split; [done|]. simplify_eq. by eapply record_step_extends.
      * exists r. by rewrite lookup_insert_ne.
Qed.

Lemma project_from_inv datum l : forall m m', (forall k r, m !! k = Some r -> lifecycle_inv k r /\ behind l r) -> ascending l ->
  project_from datum m l = Ok m' ->
  (forall k r', m' !! k = Some r' -> lifecycle_inv k r') /\ (forall k r, m !! k = Some r -> exists r', m' !! k = Some r' /\ extends r r').
Proof.
  induction l as [|e l IH]; intros m m' Hm Hasc Hp; cbn [project_from] in Hp.
  - injection Hp as <-. split; [intros k r Hr; by apply Hm|]. intros k r Hr. by exists r.
  - apply rbind_Ok in Hp as (m1 & H1 & Hp). cbn [fmap list_fmap] in Hasc. apply StronglySorted_inv in Hasc as [Hasc Hlt].
    destruct (project_entry_inv datum m e m1) as [Hi1 Hx1]; [|done|].
    { intros k r Hr. destruct (Hm k r Hr) as [Hi Hb]. by apply Forall_cons in Hb as [Hb _]. }
    destruct (IH m1 m') as [Hi2 Hx2]; [|done|done|].
    { intros k r Hr. destruct (Hi1 k r Hr) as [Hi Hor]. split; [done|]. destruct Hor as [Hk|Hg].
      - destruct (Hm k r Hk) as [_ Hb]. by apply Forall_cons in Hb as [_ Hb].
      - unfold behind. rewrite Hg. exact (proj1 (Forall_fmap _ _ _) Hlt). }
    split; [done|]. intros k r Hr. destruct (Hx1 k r Hr) as (r1 & Hr1 & E1). destruct (Hx2 k r1 Hr1) as (r2 & Hr2 & E2).
    exists r2. split; [done|by etrans].
Qed.

Lemma project_from_app datum l1 l2 : forall m m', project_from datum m (l1 ++ l2) = Ok m' <-> exists m1, project_from datum m l1 = Ok m1 /\ project_from datum m1 l2 = Ok m'.
Proof.
  induction l1 as [|e l1 IH]; intros m m'; cbn [app project_from]; [split; [by exists m|by intros (? & [= <-] & ?)]|].
  rewrite rbind_Ok. setoid_rewrite IH. split.
  - intros (m1 & H1 & m2 & H2 & H3). exists m2. split; [|done]. apply rbind_Ok. by exists m1.
  - intros (m2 & (m1 & H1 & H2)%rbind_Ok & H3). eauto.
Qed.

(** After a generation that the remaining entries exceed. *)
Lemma project_from_behind datum l : forall m m' l2, (forall k r, m !! k = Some r -> behind (l ++ l2) r) -> ascending (l ++ l2) -> project_from datum m l = Ok m' ->
  forall k r, m' !! k = Some r -> behind l2 r.
Proof.
  induction l as [|e l IH]; intros m m' l2 Hm Hasc Hp k r Hr; cbn [project_from] in Hp.
  - injection Hp as <-. by eapply Hm.
  - apply rbind_Ok in Hp as (m1 & H1 & Hp). cbn [fmap list_fmap app] in Hasc. apply StronglySorted_inv in Hasc as [Hasc Hlt].
    eapply (IH m1 m'); [|done|done|done]. clear k r Hr. intros k r Hr. unfold project_entry in H1. apply rbind_Ok in H1 as ([ev|] & _ & H1); [|injection H1 as <-].
    2: { apply Hm in Hr. by apply Forall_cons in Hr as [_ Hr]. }
    pose proof (proj1 (Forall_fmap _ _ _) Hlt) as Hlt'. apply apply_event_step in H1 as [(i & g & -> & Hg & Hn & ->)|(k0 & r0 & r1 & H0 & Hs & ->)];
      apply lookup_insert_Some in Hr as [[<- <-]|[Hne Hr]].
    + done.
    + apply Hm in Hr. by apply Forall_cons in Hr as [_ Hr].
    + unfold behind. rewrite (record_step_generation _ _ _ _ _ Hs). done.
    + apply Hm in Hr. by apply Forall_cons in Hr as [_ Hr].
Qed.

Lemma projected_inv l datum m k r : ascending l -> project_entries l datum = Ok m -> m !! k = Some r -> lifecycle_inv k r.
Proof.
  intros Hasc Hp Hr. destruct (project_from_inv datum l ∅ m) as [Hi _]; [|done|done|by apply Hi]. intros k' r' Hk. by rewrite lookup_empty in Hk.
Qed.

Lemma projected_extends l1 l2 datum m1 m2 k r : ascending (l1 ++ l2) -> project_entries l1 datum = Ok m1 -> project_entries (l1 ++ l2) datum = Ok m2 ->
  m1 !! k = Some r -> exists r', m2 !! k = Some r' /\ extends r r'.
Proof.
  intros Hasc H1 H2 Hr. unfold project_entries in *. apply project_from_app in H2 as (m1' & H1' & H2). rewrite H1 in H1'. injection H1' as <-.
  assert (ascending l1 /\ ascending l2) as [Ha1 Ha2] by (rewrite fmap_app in Hasc; by apply StronglySorted_app in Hasc as (_ & ? & ?)).
  destruct (project_from_inv datum l2 m1 m2) as [_ Hx]; [|done|done|by apply Hx].
  intros k' r' Hk. split; [by eapply (projected_inv l1 datum m1)|]. eapply (project_from_behind datum l1); [|done|done|done].
  intros k0 r0 H0. by rewrite lookup_empty in H0.
Qed.

(** ** Dispatches name their operation *)

Lemma dispatch_id_inj (d d' : FencedDispatch Datum ContentId) : dispatch_valid (JournalError := JournalError) d -> dispatch_valid (JournalError := JournalError) d' ->
  dispatch_id d = dispatch_id d' -> dispatch_operation d = dispatch_operation d' /\ dispatch_lease d = dispatch_lease d'.
Proof.
  intros Hd Hd' Heq. pose proof (codec_identity _ _ _ _ dispatch_codec d Hd) as H1. pose proof (codec_identity _ _ _ _ dispatch_codec d' Hd') as H2.
  rewrite <- Heq in H2. pose proof (content_id_same _ _ _ H1 H2) as Hs. unfold dispatch_datum, fenced_dispatch_datum, node in Hs.
  cbn [fmap list_fmap fst snd] in Hs. same_node Hs. split; by apply id_datum_same.
Qed.

Lemma inv_dispatch_valid k r d : lifecycle_inv k r -> d ∈ dispatches r -> dispatch_valid (JournalError := JournalError) d /\ dispatch_operation d = k.
Proof.
  intros [_ [Hm _ _ _ _] _ _ _] [i Hi]%list_elem_of_lookup. destruct (Forall2_lookup_l _ _ _ _ _ Hm Hi) as (a & _ & ? & _ & _ & _ & ?). done.
Qed.

Lemma dispatch_found l datum m k r k' r' (d : FencedDispatch Datum ContentId) : ascending l -> project_entries l datum = Ok m -> m !! k = Some r -> d ∈ dispatches r ->
  find_dispatch m (dispatch_id d) = Some (k', r') -> k' = k /\ r' = r /\ last (dispatches r) = Some d.
Proof.
  intros Hasc Hp Hr Hin Hf. apply find_dispatch_Some in Hf as [Hk' Hl]. apply fmap_Some in Hl as (d' & Hl & Heq).
  destruct (inv_dispatch_valid k r d) as [Hv Ho]; [by eapply projected_inv|done|].
  assert (d' ∈ dispatches r') as Hin' by (apply last_snoc_Some in Hl as [? ->]; set_solver).
  destruct (inv_dispatch_valid k' r' d') as [Hv' Ho']; [by eapply projected_inv|done|].
  destruct (dispatch_id_inj d d' Hv Hv' Heq) as [Hop Hle]. assert (k' = k) as -> by congruence. assert (r' = r) as -> by congruence.
  split_and!; [done|done|]. rewrite Hl. f_equal.
  destruct (projected_inv l datum m k r Hasc Hp Hr) as [_ [_ _ _ Hn _] _ _ _].
  apply list_elem_of_lookup in Hin as [i Hi], Hin' as [j Hj]. assert (i = j) as ->; [|congruence].
  eapply (NoDup_lookup (dispatch_lease <$> dispatches r)); [done| |]; rewrite list_lookup_fmap; [by rewrite Hi|rewrite Hj; cbn; congruence].
Qed.

(** An accepted dispatch entry is a dispatch of the record. *)
Lemma projected_dispatch l datum m (e : Entry) id ids : ascending l -> (forall id d, datum id = Ok d -> datum_content_id d = Ok id) ->
  project_entries l datum = Ok m -> e ∈ l -> is_kind e "lifecycle-dispatch-persisted" = true -> entry_payloads e = id :: ids ->
  exists k r d, m !! k = Some r /\ d ∈ dispatches r /\ dispatch_id d = id.
Proof.
  intros Hasc Hdat Hp Hin Hk Hids. apply list_elem_of_split in Hin as (l1 & l2 & ->).
  assert (l1 ++ e :: l2 = (l1 ++ [e]) ++ l2) as Hl by by rewrite <- app_assoc.
  pose proof Hp as Hp'. unfold project_entries in Hp'. apply project_from_app in Hp' as (m1 & H1 & Hp'). cbn [project_from] in Hp'. apply rbind_Ok in Hp' as (m2 & H2 & _).
  assert (project_entries (l1 ++ [e]) datum = Ok m2) as Hp2.
  { unfold project_entries. apply project_from_app. exists m1. split; [done|]. cbn [project_from]. by rewrite H2. }
  assert (exists k r d, m2 !! k = Some r /\ d ∈ dispatches r /\ dispatch_id d = id) as (k & r & d & Hk2 & Hd & Hid).
  { unfold project_entry in H2. apply rbind_Ok in H2 as (ev & Hev & H2). unfold decode_entry in Hev.
    unfold is_kind in *. apply bool_decide_eq_true in Hk.
    rewrite (bool_decide_false (entry_kind e = symbol_qualified "operation" "lifecycle-intent-persisted")) in Hev
      by (rewrite Hk; by intros [_ ?]%(inj2 symbol_qualified)).
    rewrite (bool_decide_false (entry_kind e = symbol_qualified "operation" "lifecycle-cancellation-intent-persisted")) in Hev
      by (rewrite Hk; by intros [_ ?]%(inj2 symbol_qualified)).
    rewrite (bool_decide_false (entry_kind e = symbol_qualified "operation" "lifecycle-lease-acquired")) in Hev
      by (rewrite Hk; by intros [_ ?]%(inj2 symbol_qualified)).
    rewrite (bool_decide_true (entry_kind e = symbol_qualified "operation" "lifecycle-dispatch-persisted")) in Hev by done.
    apply rbind_Ok in Hev as ([d a] & Hr & Hev). injection Hev as <-. unfold read2 in Hr. apply rbind_Ok in Hr as (_ & _ & Hr). rewrite Hids in Hr.
    destruct ids as [|q ps]; [done|]. apply rbind_Ok in Hr as (dat & Hdt & (d' & Hd & (dat' & _ & (a' & _ & Heq)%rbind_Ok)%rbind_Ok)%rbind_Ok).
    injection Heq as -> ->. apply (codec_sound _ _ _ _ dispatch_codec) in Hd as (_ & _ & Hcid). apply Hdat in Hdt.
    cbn [apply_event] in H2. unfold with_record in H2. apply rbind_Ok in H2 as (r & Hr & (r' & Ha & Heq)%rbind_Ok). injection Heq as <-. accepted Ha.
    eexists _, _, d. rewrite lookup_insert_eq. split; [done|]. cbn. split; [set_solver|]. cbn [fst snd] in *. congruence. }
  rewrite Hl in Hasc, Hp. destruct (projected_extends (l1 ++ [e]) l2 datum m2 m k r Hasc Hp2 Hp Hk2) as (r' & Hr' & He).
  exists k, r', d. split_and!; [done| |done]. destruct (ext_dispatches _ _ He) as [more ->]. set_solver.
Qed.

(** ** What accepted journals show *)

(** C8: In any journal the projector accepts, an operation that must run
    exactly once has at most one dispatch; attempts are numbered from zero in the
    order of the dispatches, each under a lease of its own and for one performer;
    and between two dispatches there is an observation of the earlier one, made
    after its lease expired on the lease's clock, that it did not succeed. *)
Theorem attempts_justified l datum m k r : ascending l -> project_entries l datum = Ok m -> m !! k = Some r ->
  (replay_policy (r_intent r) = ExactlyOnce -> length (dispatches r) <= 1) /\
  ordinal <$> attempts r = N.of_nat <$> seq 0 (length (dispatches r)) /\
  NoDup (dispatch_lease <$> dispatches r) /\
  (forall i d d', dispatches r !! i = Some d -> dispatches r !! Datatypes.S i = Some d' -> negative_evidence r d).
Proof.
  intros Hasc Hp Hr. destruct (projected_inv l datum m k r Hasc Hp Hr) as [_ [Hm Hc _ Hn _] [Hr1 _ He] _ _].
  split_and!; [done| |done|done]. by rewrite (Forall2_length _ _ _ Hm).
Qed.

(** C10: The leases of one operation carry growing fences and one clock, and no
    two of them are live at the same tick. *)
Theorem leases_never_overlap l datum m k r i j a b t : ascending l -> project_entries l datum = Ok m -> m !! k = Some r ->
  leases r !! i = Some a -> leases r !! j = Some b -> i < j ->
  (fence a < fence b)%N /\ same_optional_datum (lease_clock a) (lease_clock b) = true /\ (is_live_at a t = true -> is_live_at b t = false).
Proof.
  intros Hasc Hp Hr Ha Hb Hij. destruct (projected_inv l datum m k r Hasc Hp Hr) as [[_ Ho Hs] _ _ _ _].
  assert (lease_after a b) as (Hc & Hf & He).
  { rewrite <- (take_drop j (leases r)) in Hs. apply StronglySorted_app in Hs as (Hx & _ & _). apply Hx.
    - apply list_elem_of_lookup. exists i. by rewrite lookup_take_lt.
    - apply list_elem_of_lookup. exists 0. by rewrite lookup_drop, Nat.add_0_r. }
  split_and!; [done..|]. unfold is_live_at. intros [_ Hlt%N.ltb_lt]%andb_true_iff. apply andb_false_iff. left. apply N.leb_gt. lia.
Qed.

(** An outcome follows from the last observation of the operation, made by
    an observer that is not the performer, of the record as it is: the effect was
    seen before any dispatch, or after the last one (and released, when it was
    reserved or prepared), or not seen after the last lease expired with nothing
    in custody, or could not be told. *)
Theorem outcomes_justified l datum m k r x : ascending l -> project_entries l datum = Ok m -> m !! k = Some r -> r_outcome r = Some x ->
  exists o, last (observations r) = Some o /\ outcome_observation x = observation_id o /\ observed_now r o /\ outcome_meaning r o (outcome_value x).
Proof. intros Hasc Hp Hr Hx. destruct (projected_inv l datum m k r Hasc Hp Hr) as [_ _ _ _ [_ _ Hc]]. by apply Hc. Qed.

(** Reservation, preparation and release are at most one each and of the
    last dispatch; what is released was prepared under that dispatch's lease,
    which names a clock; every dispatch is acknowledged at most once. *)
Theorem custody_bound l datum m k r : ascending l -> project_entries l datum = Ok m -> m !! k = Some r -> custody_inv r.
Proof. intros Hasc Hp Hr. by destruct (projected_inv l datum m k r Hasc Hp Hr). Qed.

(** C9: A longer journal extends the records of a shorter one: nothing is
    rewritten, an outcome is final, and after a cancellation there is no lease,
    attempt, dispatch, reservation or release. *)
Theorem journal_extends l1 l2 datum m1 m2 k r : ascending (l1 ++ l2) -> project_entries l1 datum = Ok m1 -> project_entries (l1 ++ l2) datum = Ok m2 ->
  m1 !! k = Some r -> exists r', m2 !! k = Some r' /\ extends r r'.
Proof. apply projected_extends. Qed.

(** The record that a reservation, preparation, release or receipt finds by
    its dispatch is the one of the operation that was dispatched, and the dispatch
    is its last: dispatch identities are unique across operations. *)
Theorem dispatch_names_operation l datum m k r k' r' d : ascending l -> project_entries l datum = Ok m -> m !! k = Some r -> d ∈ dispatches r ->
  find_dispatch m (dispatch_id d) = Some (k', r') -> k' = k /\ r' = r /\ last (dispatches r) = Some d.
Proof. apply dispatch_found. Qed.
End History.
