(* ===== verification/LifecycleEngine.v ===== *)
(** * The operation engine

    crates/sim-lib-operation-gate/src/lifecycle_engine.rs,
    lifecycle_accepted.rs, lifecycle_release.rs and lifecycle_cancellation.rs: the
    programs that accept, run, release and cancel an operation.  What they call
    outside (the journal, the clock, the performer, the observer) is a [Call]
    whose answer is arbitrary, so a program is a tree of calls; a crash leaves it
    anywhere.

    A guarded publication invokes its gate after the commit and before it
    returns: [CPublishThen] answers whether it was invoked, the gate's calls
    follow, and [CPublishEnd] answers what the publication returned.  A performer
    of prepared work holds an admission it may use any number of times: after each
    use it moves again ([PerformerMove]), and [admits] bounds how often, which any
    finite run does. *)

From stdpp Require Import strings.
From S2P Require Import Prelude BTree KernelDatum OperationWire OperationData LifecycleRecord.

(** ** Programs *)

Section Programs.
Context {Call : Type} {Answer : Call -> Type}.

Inductive Prog (A : Type) :=
| Ret (a : A)
| Ask (c : Call) (k : Answer c -> Prog A).
Arguments Ret {A}.
Arguments Ask {A}.

Fixpoint pbind {A B} (p : Prog A) (f : A -> Prog B) : Prog B :=
  match p with Ret a => f a | Ask c k => Ask c (fun x => pbind (k x) f) end.

Definition ask (c : Call) : Prog (Answer c) := Ask c Ret.

(** [?] inside a program. *)
Definition ptry {E A B} (p : Prog (Res E A)) (f : A -> Prog (Res E B)) : Prog (Res E B) :=
  pbind p (fun r => match r with Ok a => f a | Err e => Ret (Err e) | Panic => Ret Panic | NoFuel => Ret NoFuel end).

(** Runs: the calls made and the answers given; a run may stop anywhere. *)
Fixpoint runs {A} (p : Prog A) (tr : list {c : Call & Answer c}) : Prop :=
  match p with
  | Ret _ => tr = []
  | Ask c k => tr = [] \/ exists x tr', tr = existT c x :: tr' /\ runs (k x) tr'
  end.
End Programs.
Arguments Prog {Call} Answer A.
Arguments Ret {Call Answer A} a.
Arguments Ask {Call Answer A} c k.

Declare Scope engine_scope.
Delimit Scope engine_scope with engine.
Notation "'do?' x := p 'in' k" := (ptry p (fun x => k)) (at level 200, x name, p at level 100, k at level 200) : engine_scope.
Notation "'do' x := p 'in' k" := (pbind p (fun x => k)) (at level 200, x name, p at level 100, k at level 200) : engine_scope.

(** What the engine uses to write to the journal. *)
Class JournalWriter (Entry Object Datum Symbol ContentId JournalError : Type) := {
  object_from_datum : Datum -> Res JournalError Object;
  entry_new : N -> option ContentId -> Symbol -> list ContentId -> Entry;
}.

(** [AdmissionDisposition]. *)
Inductive Disposition := ActionInvoked | AlreadyCommittedActionNotInvoked.

Section Engine.
Context {Datum Symbol ContentId JournalError Entry Snapshot Object : Type}.
Context `{KernelDatum Datum Symbol ContentId} {ord : OrdKey ContentId}.
Context {journal : JournalData Entry Snapshot Object Datum Symbol ContentId JournalError} {writer : JournalWriter Entry Object Datum Symbol ContentId JournalError}.
#[local] Open Scope engine_scope.
Abbreviation Result A := (Res (OperationError Datum JournalError) A).
Abbreviation OpRecord := (OperationLifecycleRecord Datum ContentId).
Abbreviation Dispatch := (FencedDispatch Datum ContentId).
Abbreviation Lease := (OperationLease Datum ContentId).

(** ** Calls *)

(** [LifecyclePerformerResponse]: a raw receipt, or none. *)
Abbreviation PerformerResponse := (option Datum).

Inductive PerformerMove := Admit | Done (r : Result PerformerResponse).

Inductive Call :=
| CAcquire
| CSnapshot
| CPublish (head : option (N * ContentId)) (objects : list Object) (e : Entry)
| CPublishThen (head : option (N * ContentId)) (objects : list Object) (e : Entry)
| CPublishEnd
| CClock
| CPerformerIdentity
| CObserverIdentity
| CObserve (rq : PostconditionRequest Datum ContentId)
| CPlanReservation (d : Dispatch)
| CPrepareReserved (d : Dispatch) (r : LifecycleReservation Datum ContentId)
| CPrepare (d : Dispatch)
| CAcknowledgementFailed (d : Dispatch) (cause : OperationError Datum JournalError)
| CPerform (d : Dispatch)
| CPerformPrepared (d : Dispatch) (p : LifecyclePreparation Datum ContentId)
| CAdmitted (r : Result Disposition)
| CAction (r : LifecycleRelease ContentId)
| CRequestStop.

Definition Answer (c : Call) : Type :=
  match c with
  | CAcquire => Res JournalError N
  | CSnapshot => Res JournalError Snapshot
  | CPublish _ _ _ => Res JournalError unit
  | CPublishThen _ _ _ => bool
  | CPublishEnd => Res JournalError Disposition
  | CClock => Result (Datum * N)
  | CPerformerIdentity | CObserverIdentity => Datum
  | CObserve _ => PostconditionResponse Datum
  | CPlanReservation _ | CPrepare _ => Result (option Datum)
  | CPrepareReserved _ _ => Result Datum
  | CAcknowledgementFailed _ _ => Result unit
  | CPerform _ => PerformerResponse
  | CPerformPrepared _ _ | CAdmitted _ => PerformerMove
  | CAction _ | CRequestStop => unit
  end.

Abbreviation M A := (Prog Answer (Result A)).

Definition call (c : Call) : Prog Answer (Answer c) := ask c.

Definition lift {A} (r : Result A) : M A := Ret r.

Definition journal_call {A} (p : Prog Answer (Res JournalError A)) : M A := pbind p (fun r => Ret (map_err Journal_ r)).

(** [OperationLifecycle]: the fence of the writer lease, and whether a clock was
    selected. *)
Record OperationLifecycle := { lc_fence : option N; lc_clock : bool }.

Implicit Types (lc : OperationLifecycle) (w : LeaseWindow Datum).

(** ** Appending *)

Fixpoint objects_of (datums : list Datum) : Result (list Object) :=
  match datums with
  | [] => Ok []
  | d :: datums => let? o := map_err Journal_ (object_from_datum d) in let? l := objects_of datums in Ok (o :: l)
  end.

Definition next_entry (s : Snapshot) (kind : string) (payloads : list ContentId) : Result Entry :=
  let? sequence := next_sequence (head_sequence_entry s) in
  Ok (entry_new sequence (snd <$> head_sequence_entry s) (symbol_qualified "operation" kind) payloads).

Definition append lc (kind : string) (datums : list Datum) : M unit :=
  do? _ := lift (ok_or NotResumed (lc_fence lc)) in
  do? objects := lift (objects_of datums) in
  do? s := journal_call (call CSnapshot) in
  do? e := lift (next_entry s kind (object_id <$> objects)) in
  do? _ := lift (validate_extension s e objects) in
  do? _ := journal_call (call (CPublish (head_sequence_entry s) objects e)) in
  lift (Ok tt).

(** The gate of a guarded publication: the clock must be in the lease's domain,
    and the lease live. *)
Definition gate_open (l : Lease) (domain : option Datum) (reading : Result (Datum * N)) : Result unit :=
  let? dt := reading in
  if same_optional_datum (Some dt.1) domain && is_live_at l dt.2 then Ok tt else Err InvalidLease.

Definition append_gated lc (kind : string) (datums : list Datum) (l : Lease) : M unit :=
  if lc_clock lc then
    do? _ := lift (ok_or NotResumed (lc_fence lc)) in
    do? objects := lift (objects_of datums) in
    do? s := journal_call (call CSnapshot) in
    do? e := lift (next_entry s kind (object_id <$> objects)) in
    do? _ := lift (validate_extension s e objects) in
    do invoked := call (CPublishThen (head_sequence_entry s) objects e) in
    do refusal := (if invoked then (do reading := call CClock in Ret (gate_open l (lease_clock l) reading)) else Ret (Ok tt)) in
    do? _ := journal_call (call CPublishEnd) in
    lift refusal
  else append lc kind datums.

Definition record_from_verified_snapshot (s : Snapshot) (operation : ContentId) : Result (option OpRecord) :=
  let? m := project_verified_lifecycle_records s in Ok (m !! operation).

Definition record_ (operation : ContentId) : M (option OpRecord) :=
  do? s := journal_call (call CSnapshot) in lift (record_from_verified_snapshot s operation).

(** [record(..)?.expect("lifecycle remains present")]. *)
Definition present_record (operation : ContentId) : M OpRecord :=
  do? r := record_ operation in match r with Some r => lift (Ok r) | None => Ret Panic end.

(** ** Observing *)

Definition request_of (r : OpRecord) (clock : option Datum) (at_ : N) : PostconditionRequest Datum ContentId :=
  {| rq_operation := intent_id (r_intent r); rq_target := target (r_intent r); rq_expected := intended_result (r_intent r);
     rq_dispatch := dispatch_id <$> last (dispatches r); rq_receipt := receipt_id <$> current_receipt r;
     rq_preparation := current_preparation r; rq_reservation := current_reservation r; rq_release := current_release r;
     rq_clock := clock; rq_last_durable_step := last_step r; rq_observed_at := at_ |}.

Definition observation_time lc w : M (option Datum * N) :=
  if lc_clock lc then
    do? reading := call CClock in
    if negb (same_optional_datum (Some reading.1) (w_clock w)) || (reading.2 <? w_acquired_at w)%N then lift (Err InvalidLease)
    else lift (Ok (Some reading.1, reading.2))
  else lift (Ok (None, w_acquired_at w)).

(** Success in custody without a release intent is a dispute. *)
Definition disputed_success (rq : PostconditionRequest Datum ContentId) (x : PostconditionResponse Datum) : PostconditionResponse Datum :=
  if (is_some (rq_reservation rq) || is_some (rq_preparation rq)) && negb (is_some (rq_release rq)) && is_satisfied x then
    Disputed (response_datum x) (d_string "reserved or prepared success lacks durable release intent")
  else x.

Definition observe lc (r : OpRecord) (perf : Datum) w : M (OperationObservation Datum ContentId) :=
  do? t := observation_time lc w in
  let rq := request_of r t.1 t.2 in
  do identity := call CObserverIdentity in
  do? _ := lift (content_id identity) in
  if same_datum identity perf then lift (Err ObserverNotIndependent)
  else
    do x := call (CObserve rq) in
    do? o := lift (new_observation rq identity (disputed_success rq x)) in
    do? _ := append lc "lifecycle-observation-persisted" [stored_datum o] in
    lift (Ok o).

Definition persist_outcome lc (operation observation : ContentId) (v : OperationOutcome Datum ContentId) : M (OperationOutcome Datum ContentId) :=
  do? x := lift (new_outcome operation observation v) in
  do? _ := append lc "lifecycle-outcome-persisted" [outcome_datum x] in
  lift (Ok v).

(** ** Releasing prepared work *)

(** [PreparedAdmission::admit], the [attempted] flag apart. *)
Definition admit_once lc (l : Lease) (d : Dispatch) (p : LifecyclePreparation Datum ContentId) : M Disposition :=
  if negb (lc_clock lc) then lift (Err InvalidLease)
  else
    do? domain := lift (ok_or InvalidLease (lease_clock l)) in
    do? s := journal_call (call CSnapshot) in
    do? m := lift (project s) in
    do? r := lift (ok_or NotResumed (m !! dispatch_operation d)) in
    if bool_decide (dispatch_id <$> last (dispatches r) <> Some (dispatch_id d)) ||
       bool_decide (preparation_id <$> last (preparations r) <> Some (preparation_id p)) ||
       bool_decide (lease_id <$> last (leases r) <> Some (lease_id l)) || bool_decide (Some (fence l) <> lc_fence lc) ||
       bool_decide (last_step r <> PreparationPersisted) || existsb (fun x => bool_decide (release_dispatch x = dispatch_id d)) (releases r)
    then lift (Err (InvalidTransition "release binding is not current"))
    else
      do? release := lift (new_release (dispatch_id d) (preparation_id p) (lease_id l)) in
      do? o := lift (map_err Journal_ (object_from_datum (release_datum release))) in
      do? e := lift (next_entry s "lifecycle-release-intent-persisted" [object_id o]) in
      do? _ := lift (validate_extension s e [o]) in
      do invoked := call (CPublishThen (head_sequence_entry s) [o] e) in
      do refusal := (if invoked then
          do reading := call CClock in
          match gate_open l (Some domain) reading with
          | Ok _ => do _ := call (CAction release) in Ret (Ok tt)
          | refused => Ret refused
          end
        else Ret (Ok tt)) in
      do? disposition := journal_call (call CPublishEnd) in
      do? _ := lift refusal in
      lift (Ok disposition).

Definition admit_release (attempted : bool) lc (l : Lease) (d : Dispatch) (p : LifecyclePreparation Datum ContentId) : M Disposition :=
  if attempted then lift (Err (InvalidTransition "release admission requires reconciliation")) else admit_once lc l d p.

(** The performer of prepared work, with at most [admits] uses of the admission. *)
Fixpoint performer_moves (admits : nat) (attempted : bool) lc (l : Lease) (d : Dispatch) (p : LifecyclePreparation Datum ContentId) (move : PerformerMove) : M PerformerResponse :=
  match move, admits with
  | Done r, _ => lift r
  | Admit, 0 => Ret NoFuel
  | Admit, Datatypes.S admits =>
    do r := admit_release attempted lc l d p in
    do move := call (CAdmitted r) in
    performer_moves admits true lc l d p move
  end.

Definition perform_prepared (admits : nat) lc (l : Lease) (d : Dispatch) (p : LifecyclePreparation Datum ContentId) : M PerformerResponse :=
  do move := call (CPerformPrepared d p) in performer_moves admits false lc l d p move.

(** ** Admission of an operation *)

Definition validate_clock lc w : M unit :=
  match lc_clock lc, w_clock w with
  | true, Some domain =>
    do? reading := call CClock in
    if negb (same_datum reading.1 domain) || (reading.2 <? w_acquired_at w)%N || (w_expires_at w <=? reading.2)%N then lift (Err InvalidLease) else lift (Ok tt)
  | false, None => lift (Ok tt)
  | _, _ => lift (Err InvalidLease)
  end.

Definition revalidate (i : OperationIntent Datum ContentId) (g : OperationGrant Datum ContentId) : M (option OpRecord) :=
  do? r := record_ (intent_id i) in
  match r with
  | Some x =>
    if decide (intent_id (r_intent x) <> intent_id i) then lift (Err ContradictoryIntent)
    else if decide (grant_id (r_grant x) <> grant_id g) then lift (Err GrantMismatch) else lift (Ok r)
  | None => lift (Ok None)
  end.

(** [accept_retaining] and [into_error]: the lifecycle with its writer lease. *)
Definition accept (has_clock : bool) (i : OperationIntent Datum ContentId) (g : OperationGrant Datum ContentId) w : M OperationLifecycle :=
  do? _ := lift (intent_verify i) in
  do? _ := lift (grant_verify g) in
  if decide (grant_operation g <> intent_id i) then lift (Err GrantMismatch)
  else
    do? _ := validate_clock {| lc_fence := None; lc_clock := has_clock |} w in
    do? f := journal_call (call CAcquire) in
    let lc := {| lc_fence := Some f; lc_clock := has_clock |} in
    do? existing := revalidate i g in
    do? _ := (match existing with None => append lc "lifecycle-intent-persisted" [intent_datum i; grant_datum g] | Some _ => lift (Ok tt) end) in
    lift (Ok lc).

(** ** Running *)

(** What an existing record allows: its outcome, or that the run goes on. *)
Definition existing_record (m : BTreeMap ContentId OpRecord) (i : OperationIntent Datum ContentId) (g : OperationGrant Datum ContentId) w (perf obs : Datum) :
    Result (OperationOutcome Datum ContentId + OpRecord) :=
  match m !! intent_id i with
  | None => Err NotResumed
  | Some x =>
    if decide (intent_id (r_intent x) <> intent_id i) then Err ContradictoryIntent
    else if decide (grant_id (r_grant x) <> grant_id g) then Err GrantMismatch
    else if existsb (fun d => negb (same_datum (performer d) perf)) (dispatches x) then Err PerformerMismatch
    else
      match r_outcome x with
      | Some o =>
        match outcome_value o with
        | AlreadyTrue _ | Verified _ => let? _ := validate_retained_contract x perf obs in Ok (inl (outcome_value o))
        | v => Ok (inl v)
        end
      | None =>
        if last_is (fun l => negb (same_optional_datum (lease_clock l) (w_clock w)) || (w_acquired_at w <? acquired_at l)%N) (leases x) then Err InvalidLease
        else Ok (inr x)
      end
  end.

(** What the first observation concludes, or that an attempt is due. *)
Definition recovery (i : OperationIntent Datum ContentId) w (r : OpRecord) (o : OperationObservation Datum ContentId) : Result (option (OperationOutcome Datum ContentId)) :=
  match response o with
  | Satisfied _ _ => Ok (Some (if is_empty (dispatches r) then AlreadyTrue (evidence o) else Verified (evidence o)))
  | Unavailable _ | Disputed _ _ => Ok (Some (Uncertain ObservationPersisted))
  | NotSatisfied observed _ =>
    if is_some (cancellation r) then Ok (Some (Uncertain ObservationPersisted))
    else if is_empty (dispatches r) then Ok None
    else if negb (is_empty (reservations r)) || negb (is_empty (preparations r)) then Ok (Some (Uncertain ObservationPersisted))
    else if negb (last_is (fun l => expired_as_of l (observation_clock o) (observed_at o)) (leases r)) then Ok (Some (Uncertain ObservationPersisted))
    else if decide (replay_policy i = ExactlyOnce) then Ok (Some (Diverged observed (intended_result i)))
    else if last_is (fun l => (w_acquired_at w <? expires_at l)%N) (leases r) then Err InvalidLease
    else Ok None
  end.

(** What the observation after an attempt concludes. *)
Definition conclusion (i : OperationIntent Datum ContentId) (current : OpRecord) (o : OperationObservation Datum ContentId) : OperationOutcome Datum ContentId :=
  match response o with
  | Satisfied _ _ => Verified (evidence o)
  | NotSatisfied observed _ =>
    if is_some (cancellation current) || negb (is_empty (reservations current)) || negb (is_empty (preparations current)) then Uncertain ObservationPersisted
    else if negb (last_is (fun l => expired_as_of l (observation_clock o) (observed_at o)) (leases current)) then Uncertain ObservationPersisted
    else Diverged observed (intended_result i)
  | Unavailable _ | Disputed _ _ => Uncertain ObservationPersisted
  end.

(** The lease and the dispatch of an attempt, made durable. *)
Definition dispatch_attempt_ lc (i : OperationIntent Datum ContentId) (g : OperationGrant Datum ContentId) w (r : OpRecord) (perf : Datum) : M (Lease * Dispatch) :=
  match lc_fence lc with
  | None => Ret Panic
  | Some f =>
    do? l := lift (let? l := new_lease (intent_id i) (w_holder w) f (w_acquired_at w) (w_expires_at w) in lease_in_clock l (w_clock w)) in
    do? _ := append lc "lifecycle-lease-acquired" [lease_datum l] in
    do? n := lift (attempt_ordinal r) in
    do? a := lift (new_attempt (intent_id i) n) in
    do? d := lift (new_dispatch (intent_id i) (grant_id g) (attempt_id a) (lease_id l) perf) in
    do? _ := append lc "lifecycle-dispatch-persisted" [dispatch_datum d; attempt_datum a] in
    lift (Ok (l, d))
  end.

Definition reserve lc (d : Dispatch) : M (option (LifecycleReservation Datum ContentId)) :=
  do? destination := call (CPlanReservation d) in
  match destination with
  | Some x =>
    do? r := lift (new_reservation (dispatch_id d) x) in
    do? _ := append lc "lifecycle-reservation-intent-persisted" [reservation_datum r] in
    lift (Ok (Some r))
  | None => lift (Ok None)
  end.

Definition bind_resources (d : Dispatch) (r : option (LifecycleReservation Datum ContentId)) : M (option Datum) :=
  match r with
  | Some r => do? b := call (CPrepareReserved d r) in lift (Ok (Some b))
  | None => call (CPrepare d)
  end.

(** The binding made durable; a failure is told to the owner. *)
Definition acknowledge lc (d : Dispatch) (r : option (LifecycleReservation Datum ContentId)) (b : Datum) : M (LifecyclePreparation Datum ContentId) :=
  do acknowledged := (
    do? p := lift (let? p := new_preparation (dispatch_id d) b in in_reservation p r) in
    do? _ := append lc "lifecycle-preparation-persisted" [preparation_datum p] in
    lift (Ok p)) in
  match acknowledged with
  | Err cause =>
    do answer := call (CAcknowledgementFailed d cause) in
    match answer with
    | Err disposition => lift (Err (PreparationDisposition cause disposition))
    | Ok _ => lift (Err cause)
    | Panic => Ret Panic
    | NoFuel => Ret NoFuel
    end
  | x => Ret x
  end.

(** The effect, direct or prepared. *)
Definition perform_attempt (admits : nat) lc (l : Lease) (d : Dispatch) (r : option (LifecycleReservation Datum ContentId)) (b : option Datum) : M PerformerResponse :=
  match b with
  | Some b => do? p := acknowledge lc d r b in perform_prepared admits lc l d p
  | None => do x := call (CPerform d) in lift (Ok x)
  end.

(** A receipt made durable; the direct path checks that the lease is still live. *)
Definition receive lc (i : OperationIntent Datum ContentId) (l : Lease) (d : Dispatch) (direct : bool) (raw : Datum) : M unit :=
  do? r := present_record (intent_id i) in
  do? x := lift (new_receipt (dispatch_id d) raw (release_id <$> release_of r (dispatch_id d))) in
  if direct then append_gated lc "lifecycle-receipt-persisted" [receipt_datum x] l else append lc "lifecycle-receipt-persisted" [receipt_datum x].

(** An attempt, from its lease to its outcome. *)
Definition attempt (admits : nat) lc (i : OperationIntent Datum ContentId) (g : OperationGrant Datum ContentId) w (r : OpRecord) (perf : Datum) : M (OperationOutcome Datum ContentId) :=
  do? ld := dispatch_attempt_ lc i g w r perf in
  do? reserved := reserve lc ld.2 in
  do? b := bind_resources ld.2 reserved in
  do? x := perform_attempt admits lc ld.1 ld.2 reserved b in
  do? _ := (match x with Some raw => receive lc i ld.1 ld.2 (negb (is_some b)) raw | None => lift (Ok tt) end) in
  do? updated := present_record (intent_id i) in
  do? o := observe lc updated perf w in
  do? current := present_record (intent_id i) in
  persist_outcome lc (intent_id i) (observation_id o) (conclusion i current o).

Definition run_accepted (admits : nat) lc (i : OperationIntent Datum ContentId) (g : OperationGrant Datum ContentId) w : M (OperationOutcome Datum ContentId) :=
  do? _ := validate_clock lc w in
  do perf := call CPerformerIdentity in
  do obs := call CObserverIdentity in
  do? _ := lift (content_id perf) in
  do? _ := lift (content_id obs) in
  if same_datum perf obs then lift (Err ObserverNotIndependent)
  else
    do? s := journal_call (call CSnapshot) in
    do? m := lift (project s) in
    do? x := lift (existing_record m i g w perf obs) in
    match x with
    | inl outcome => lift (Ok outcome)
    | inr r =>
      do? o := observe lc r perf w in
      do? v := lift (recovery i w r o) in
      match v with
      | Some v => persist_outcome lc (intent_id i) (observation_id o) v
      | None => attempt admits lc i g w r perf
      end
    end.

(** [AcceptedOperation::run_retaining] with its [entered] flag. *)
Definition run_retaining (entered : bool) (admits : nat) lc (i : OperationIntent Datum ContentId) (g : OperationGrant Datum ContentId) w : bool * M (OperationOutcome Datum ContentId) :=
  if entered then (true, lift (Err AcceptanceConsumed)) else (true, run_accepted admits lc i g w).

(** [OperationLifecycle::run]. *)
Definition run (admits : nat) (has_clock : bool) (i : OperationIntent Datum ContentId) (g : OperationGrant Datum ContentId) w : M (OperationOutcome Datum ContentId) :=
  do? lc := accept has_clock i g w in (run_retaining false admits lc i g w).2.

(** ** Cancelling *)

(** The entry of a cancellation that is already durable, and the head before it. *)
Definition redelivery (s : Snapshot) (c : LifecycleCancellation Datum ContentId) : Result (option (N * ContentId) * Entry) :=
  let? e := ok_or (NonCanonical "missing cancellation entry")
    (List.find (fun e => is_kind e "lifecycle-cancellation-intent-persisted" && bool_decide (entry_payloads e = [cancellation_id c])) (entries s)) in
  if decide (entry_sequence e = 0%N) then Ok (None, e)
  else
    let sequence := (entry_sequence e - 1)%N in
    let? previous := ok_or (NonCanonical "missing cancellation predecessor") (List.find (fun e => bool_decide (entry_sequence e = sequence)) (entries s)) in
    Ok (Some (sequence, entry_id previous), e).

Definition cancellation_entry (s : Snapshot) (operation grant : ContentId) (reason : Datum) :
    Result (LifecycleCancellation Datum ContentId * (option (N * ContentId) * list Object * Entry)) :=
  let? c := new_cancellation operation grant reason in
  let? o := map_err Journal_ (object_from_datum (cancellation_datum c)) in
  let? e := next_entry s "lifecycle-cancellation-intent-persisted" [object_id o] in
  let? _ := validate_extension s e [o] in
  Ok (c, (head_sequence_entry s, [o], e)).

(** [CancellationHandle::request]. *)
Definition request (operation grant : ContentId) (reason : Datum) : M (LifecycleCancellation Datum ContentId) :=
  do? s := journal_call (call CSnapshot) in
  do? m := lift (project s) in
  do? r := lift (ok_or NotResumed (m !! operation)) in
  if decide (grant_id (r_grant r) <> grant) then lift (Err GrantMismatch)
  else
    do? x := lift (match cancellation r with
      | Some c => let? he := redelivery s c in Ok (c, (he.1, [], he.2))
      | None => cancellation_entry s operation grant reason
      end) in
    do invoked := call (CPublishThen x.2.1.1 x.2.1.2 x.2.2) in
    do _ := (if invoked then call CRequestStop else Ret tt) in
    do? disposition := journal_call (call CPublishEnd) in
    do _ := (match disposition with AlreadyCommittedActionNotInvoked => call CRequestStop | ActionInvoked => Ret tt end) in
    lift (Ok x.1).

(** [restore_cancellation]: a durable request is signalled again. *)
Definition restore_cancellation (operation grant : ContentId) : M unit :=
  do? r := record_ operation in
  match r ≫= cancellation with
  | Some c => do? _ := request operation grant (reason c) in lift (Ok tt)
  | None => lift (Ok tt)
  end.
End Engine.
