(* ===== verification/LifecycleOnce.v ===== *)
(** * The effect of an operation happens at most once per dispatch

    A run of the engine makes the effect of its operation happen at most once,
    and only after the dispatch it belongs to was acknowledged by the journal
    ([attempt_wp]).  Runs under different writer fences make different dispatches.
    So across any number of runs, crashed or not, the effects of an operation are
    no more than the dispatches of its record, and one for an operation that must
    run exactly once. *)

From stdpp Require Import strings.
From S2P Require Import Prelude BTree KernelDatum OperationWire OperationData OperationCodec LifecycleRecord LifecycleInvariant LifecycleHistory LifecycleEngine.

(** What the journal documents of the objects and entries it makes, and of the
    snapshots it verifies. *)
Class JournalLaws Entry Snapshot Object Datum Symbol ContentId JournalError `{KernelDatum Datum Symbol ContentId}
    `{JournalData Entry Snapshot Object Datum Symbol ContentId JournalError} `{JournalWriter Entry Object Datum Symbol ContentId JournalError} := {
  object_from_datum_id : forall d o, object_from_datum d = Ok o -> datum_content_id d = Ok (object_id o);
  entry_new_kind : forall n p k l, entry_kind (entry_new n p k l) = k;
  entry_new_payloads : forall n p k l, entry_payloads (entry_new n p k l) = l;
  snapshot_content : forall s id d, (id, d) ∈ datums s -> datum_content_id d = Ok id;
  snapshot_ascending : forall s, StronglySorted N.lt (entry_sequence <$> entries s);
}.

(** ** Conditions on the calls of a program *)

Section Wp.
Context {Call : Type} {Answer : Call -> Type}.
Abbreviation event := {c : Call & Answer c}.
Context (pre : list event -> Call -> Prop).

Fixpoint wp {A} (p : Prog Answer A) (Q : A -> list event -> Prop) (h : list event) : Prop :=
  match p with
  | Ret a => Q a h
  | Ask c k => pre h c /\ forall x, wp (k x) Q (h ++ [existT c x])
  end.

Lemma wp_bind {A B} (p : Prog Answer A) (f : A -> Prog Answer B) Q : forall h, wp p (fun a h' => wp (f a) Q h') h -> wp (pbind p f) Q h.
Proof. induction p as [a|c k IH]; intros h; cbn; [done|]. intros [Hp Hk]. split; [done|]. intros x. by apply IH. Qed.

Lemma wp_mono {A} (p : Prog Answer A) (Q Q' : A -> list event -> Prop) : forall h, (forall a h', h `prefix_of` h' -> Q a h' -> Q' a h') -> wp p Q h -> wp p Q' h.
Proof.
  induction p as [a|c k IH]; intros h Hq; cbn; [by apply Hq|]. intros [Hp Hk]. split; [done|]. intros x. apply (IH x _); [|done].
  intros a h' Hpre. apply Hq. etrans; [|exact Hpre]. by apply prefix_app_r.
Qed.

Lemma wp_try {E A B} (p : Prog Answer (Res E A)) (f : A -> Prog Answer (Res E B)) (Q : Res E B -> list event -> Prop) h :
  wp p (fun r h' => match r with Ok a => wp (f a) Q h' | Err e => Q (Err e) h' | Panic => Q Panic h' | NoFuel => Q NoFuel h' end) h -> wp (ptry p f) Q h.
Proof. intros Hw. apply wp_bind. eapply wp_mono; [|exact Hw]. intros [] h' _; done. Qed.

(** Every call of every run meets its condition. *)
Lemma wp_runs {A} (p : Prog Answer A) Q : forall h tr, wp p Q h -> runs p tr -> forall tr1 c x tr2, tr = tr1 ++ existT c x :: tr2 -> pre (h ++ tr1) c.
Proof.
  induction p as [a|c k IH]; intros h tr Hw Hr tr1 c' x' tr2 ->; cbn in Hr; [by destruct tr1|].
  destruct Hw as [Hp Hk]. destruct Hr as [Hr|(x & tr & Heq & Hr)]; [by destruct tr1|].
  destruct tr1 as [|ev tr1]; cbn in Heq; [injection Heq as [= ->]; by rewrite app_nil_r|].
  injection Heq as -> <-. rewrite cons_middle, app_assoc. by eapply (IH x); [apply Hk|exact Hr|].
Qed.
End Wp.

(** Programs that only make calls of a kind. *)
Section Quiet.
Context {Call : Type} {Answer : Call -> Type} (ok : Call -> bool).

Fixpoint quiet {A} (p : Prog Answer A) : Prop := match p with Ret _ => True | Ask c k => ok c = true /\ forall x, quiet (k x) end.

Lemma quiet_bind {A B} (p : Prog Answer A) (f : A -> Prog Answer B) : quiet p -> (forall a, quiet (f a)) -> quiet (pbind p f).
Proof. induction p as [a|c k IH]; cbn; [by intros _|]. intros [Hc Hk] Hf. split; [done|]. intros x. by apply IH. Qed.

Lemma quiet_try {E A B} (p : Prog Answer (Res E A)) (f : A -> Prog Answer (Res E B)) : quiet p -> (forall a, quiet (f a)) -> quiet (ptry p f).
Proof. intros Hp Hf. apply quiet_bind; [done|]. by intros []. Qed.

Lemma wp_quiet {A} (pre : list {c : Call & Answer c} -> Call -> Prop) (p : Prog Answer A) (Q : A -> list {c : Call & Answer c} -> Prop) :
  (forall h c, ok c = true -> pre h c) -> forall h, quiet p ->
  (forall a more, Forall (fun ev => ok (projT1 ev) = true) more -> Q a (h ++ more)) -> wp pre p Q h.
Proof.
  intros Hpre. induction p as [a|c k IH]; intros h Hq HQ; cbn.
  - specialize (HQ a []). rewrite app_nil_r in HQ. by apply HQ.
  - destruct Hq as [Hc Hk]. split; [by apply Hpre|]. intros x. apply IH; [done|]. intros a more Hm. rewrite <- app_assoc. apply HQ. by constructor.
Qed.
End Quiet.

Section Once.
Context {Datum Symbol ContentId JournalError Entry Snapshot Object : Type}.
Context `{KernelDatum Datum Symbol ContentId} {laws : KernelDatumLaws Datum Symbol ContentId} {ord : OrdKey ContentId}.
Context {journal : JournalData Entry Snapshot Object Datum Symbol ContentId JournalError} {writer : JournalWriter Entry Object Datum Symbol ContentId JournalError}.
Context {jlaws : JournalLaws Entry Snapshot Object Datum Symbol ContentId JournalError}.
#[local] Set Default Proof Using "All".
Abbreviation Result A := (Res (OperationError Datum JournalError) A).
Abbreviation Call := (Call (Datum := Datum) (ContentId := ContentId) (JournalError := JournalError) (Entry := Entry) (Object := Object)).
Abbreviation Answer := (Answer (Datum := Datum) (ContentId := ContentId) (JournalError := JournalError) (Entry := Entry) (Object := Object) (Snapshot := Snapshot)).
Abbreviation event := {c : Call & Answer c}.
Abbreviation M A := (Prog Answer (Result A)).
Implicit Types (h : list event) (d : FencedDispatch Datum ContentId) (lc : OperationLifecycle).

(** ** Effects *)

(** The dispatch whose effect a call makes happen: direct performance, or the
    release of what was prepared. *)
Definition effect (c : Call) : option ContentId :=
  match c with CPerform d => Some (dispatch_id d) | CAction r => Some (release_dispatch r) | _ => None end.

Definition effects h : list ContentId := omap (fun ev => effect (projT1 ev)) h.

Definition no_effect (c : Call) : bool := negb (is_some (effect c)).

Lemma effects_app h h' : effects (h ++ h') = effects h ++ effects h'.
Proof using Type. apply omap_app. Qed.

Lemma effects_quiet h : Forall (fun ev => no_effect (projT1 ev) = true) h -> effects h = [].
Proof using Type.
  unfold effects, no_effect. induction 1 as [|[c x] h Hc _ IH]; [done|]. cbn in *. destruct (effect c); [done|exact IH].
Qed.

(** The journal acknowledged an entry of some kind with these payloads. *)
Definition published h (kind : string) (ids : list ContentId) : Prop :=
  exists head objects e, existT (CPublish head objects e) (Ok tt) ∈ h /\ entry_kind e = symbol_qualified "operation" kind /\ entry_payloads e = ids.

Lemma published_mono h h' kind ids : published h kind ids -> published (h ++ h') kind ids.
Proof using Type. intros (head & objects & e & Hin & Hk & Hp). exists head, objects, e. split_and!; [|done..]. apply elem_of_app. by left. Qed.

(** The dispatch is one of a lease with the fence, and was acknowledged. *)
Definition dispatched (f : N) (k : ContentId) h (id : ContentId) : Prop :=
  exists d l ids, dispatch_id d = id /\ dispatch_valid (JournalError := JournalError) d /\ dispatch_operation d = k /\ dispatch_lease d = lease_id l /\
    fence l = f /\ datum_content_id (lease_datum l) = Ok (lease_id l) /\ published h "lifecycle-dispatch-persisted" (id :: ids).

Lemma dispatched_mono f k h h' id : dispatched f k h id -> dispatched f k (h ++ h') id.
Proof using Type.
  intros (d & l & ids & ? & ? & ? & ? & ? & ? & Hp). exists d, l, ids. split_and!; try done. by apply published_mono.
Qed.

(** An effect is the first, and its dispatch is durable. *)
Definition once f k h (c : Call) : Prop := match effect c with Some id => effects h = [] /\ dispatched f k h id | None => True end.

Lemma once_quiet f k h c : no_effect c = true -> once f k h c.
Proof using Type. unfold once, no_effect. by destruct (effect c). Qed.

Lemma wp_no_effect {A} f k (p : Prog Answer A) (Q : A -> list event -> Prop) h : quiet no_effect p ->
  (forall a more, effects more = [] -> Q a (h ++ more)) -> wp (once f k) p Q h.
Proof using Type.
  intros Hq HQ. eapply wp_quiet; [apply once_quiet|exact Hq|]. intros a more Hm. apply HQ. by apply effects_quiet.
Qed.

(** ** Programs without effects *)

Lemma quiet_lift {A} (r : Result A) : quiet no_effect (lift r : M A).
Proof using Type. done. Qed.

Lemma quiet_call (c : Call) : no_effect c = true -> quiet no_effect (call c : Prog Answer _).
Proof using Type. by split. Qed.

Lemma quiet_journal {A} (p : Prog Answer (Res JournalError A)) : quiet no_effect p -> quiet no_effect (journal_call p : M A).
Proof using Type. intros Hp. by apply quiet_bind. Qed.
End Once.

Create HintDb quiet.
#[export] Hint Resolve quiet_lift quiet_call quiet_journal : quiet.

(** Shows that a program makes no effect happen. *)
Ltac quiet_step :=
  match goal with
  | |- quiet _ (ptry _ _) => apply quiet_try; [|intros ?]
  | |- quiet _ (pbind _ _) => apply quiet_bind; [|intros ?]
  | |- quiet _ (journal_call _) => apply quiet_journal
  | |- quiet _ (call _) => apply quiet_call; reflexivity
  | |- quiet _ (lift _) => apply quiet_lift
  | |- quiet _ (Ret _) => exact I
  | |- quiet _ (if ?b then _ else _) => destruct b
  | |- quiet _ (match ?x with _ => _ end) => destruct x
  end.
Ltac quiet := repeat (quiet_step || (eauto with quiet; fail)); eauto with quiet.

(** Steps over a pure computation, and over a call to the journal. *)
Ltac wp_lift := apply wp_try; unfold lift at 1; cbn [wp].
Ltac wp_ask := apply wp_try; unfold journal_call at 1, call at 1, ask at 1; cbn [pbind wp]; split.

Section EngineOnce.
Context {Datum Symbol ContentId JournalError Entry Snapshot Object : Type}.
Context `{KernelDatum Datum Symbol ContentId} {laws : KernelDatumLaws Datum Symbol ContentId} {ord : OrdKey ContentId}.
Context {journal : JournalData Entry Snapshot Object Datum Symbol ContentId JournalError} {writer : JournalWriter Entry Object Datum Symbol ContentId JournalError}.
Context {jlaws : JournalLaws Entry Snapshot Object Datum Symbol ContentId JournalError}.
#[local] Set Default Proof Using "Type".
Abbreviation Result A := (Res (OperationError Datum JournalError) A).
Abbreviation Call := (Call (Datum := Datum) (ContentId := ContentId) (JournalError := JournalError) (Entry := Entry) (Object := Object)).
Abbreviation Answer := (Answer (Datum := Datum) (ContentId := ContentId) (JournalError := JournalError) (Entry := Entry) (Object := Object) (Snapshot := Snapshot)).
Abbreviation event := {c : Call & Answer c}.
Abbreviation M A := (Prog Answer (Result A)).
Abbreviation calm p := (quiet (Answer := Answer) no_effect p).
Implicit Types (h : list event) (d : FencedDispatch Datum ContentId) (lc : OperationLifecycle) (w : LeaseWindow Datum).

Lemma quiet_append lc kind (datums : list Datum) : calm (append lc kind datums).
Proof. unfold append. quiet. Qed.
#[local] Hint Resolve quiet_append : quiet.

Lemma quiet_append_gated lc kind (datums : list Datum) (l : OperationLease Datum ContentId) : calm (append_gated lc kind datums l).
Proof. unfold append_gated. quiet. Qed.
#[local] Hint Resolve quiet_append_gated : quiet.

Lemma quiet_present_record (operation : ContentId) : calm (present_record operation).
Proof. unfold present_record, record_. quiet. Qed.
#[local] Hint Resolve quiet_present_record : quiet.

Lemma quiet_observe lc (r : OperationLifecycleRecord Datum ContentId) (perf : Datum) w : calm (observe lc r perf w).
Proof. unfold observe, observation_time. quiet. Qed.
#[local] Hint Resolve quiet_observe : quiet.

Lemma quiet_persist_outcome lc operation observation (v : OperationOutcome Datum ContentId) : calm (persist_outcome lc operation observation v).
Proof. unfold persist_outcome. quiet. Qed.
#[local] Hint Resolve quiet_persist_outcome : quiet.

Lemma quiet_validate_clock lc w : calm (validate_clock lc w).
Proof. unfold validate_clock. quiet. Qed.
#[local] Hint Resolve quiet_validate_clock : quiet.

Lemma quiet_reserve lc d : calm (reserve lc d).
Proof. unfold reserve. quiet. Qed.
#[local] Hint Resolve quiet_reserve : quiet.

Lemma quiet_bind_resources d (r : option (LifecycleReservation Datum ContentId)) : calm (bind_resources d r).
Proof. unfold bind_resources. quiet. Qed.
#[local] Hint Resolve quiet_bind_resources : quiet.

Lemma quiet_acknowledge lc d (r : option (LifecycleReservation Datum ContentId)) (b : Datum) : calm (acknowledge lc d r b).
Proof. unfold acknowledge. quiet. Qed.
#[local] Hint Resolve quiet_acknowledge : quiet.

Lemma quiet_receive lc (i : OperationIntent Datum ContentId) (l : OperationLease Datum ContentId) d direct (raw : Datum) : calm (receive lc i l d direct raw).
Proof. unfold receive. quiet. Qed.
#[local] Hint Resolve quiet_receive : quiet.

Lemma quiet_accept has_clock (i : OperationIntent Datum ContentId) (g : OperationGrant Datum ContentId) w : calm (accept has_clock i g w).
Proof. unfold accept, revalidate, record_. quiet. Qed.

Lemma quiet_request operation grant (reason : Datum) : calm (request operation grant reason).
Proof. unfold request. quiet. Qed.

(** Once the admission was used, the performer can only be refused. *)
Lemma quiet_performer_moves admits lc (l : OperationLease Datum ContentId) d (p : LifecyclePreparation Datum ContentId) : forall move,
  calm (performer_moves admits true lc l d p move).
Proof. induction admits as [|n IH]; intros [|r]; cbn [performer_moves admit_release]; quiet. Qed.

(** ** Appending acknowledges its entry *)

Lemma objects_of_ids (l : list Datum) (objects : list Object) : objects_of l = (Ok objects : Result _) ->
  Forall2 (fun x id => datum_content_id x = Ok id) l (object_id <$> objects).
Proof using jlaws.
  revert objects. induction l as [|x l IH]; intros objects Ho; cbn [objects_of] in Ho; [by injection Ho as <-|].
  apply rbind_Ok in Ho as (o & Ho & (os & Hos & Heq)%rbind_Ok). injection Heq as <-. apply map_err_Ok in Ho. cbn. constructor; [|by apply IH].
  by apply object_from_datum_id.
Qed.

Definition appended h (kind : string) (l : list Datum) : Prop :=
  exists ids, Forall2 (fun x id => datum_content_id x = Ok id) l ids /\ published h kind ids.

Lemma wp_append f k lc kind (l : list Datum) (Q : Result unit -> list event -> Prop) h :
  (forall r more, effects more = [] -> (forall u, r = Ok u -> appended (h ++ more) kind l) -> Q r (h ++ more)) -> wp (once f k) (append lc kind l) Q h.
Proof using jlaws.
  intros HQ. assert (Hno : forall r more, effects more = [] -> (forall u, r <> Ok u) -> Q r (h ++ more)).
  { intros r more Hm Hr. apply HQ; [done|]. intros u Hu. by destruct (Hr u). }
  assert (Hnow : forall r, (forall u, r <> Ok u) -> Q r h) by (intros r Hr; specialize (Hno r [] eq_refl Hr); by rewrite app_nil_r in Hno).
  unfold append. wp_lift. destruct (lc_fence lc) as [fe|]; cbn [ok_or]; [|by apply Hnow].
  wp_lift. destruct (objects_of l) as [objects| | |] eqn:Eo; try by apply Hnow. apply objects_of_ids in Eo.
  wp_ask; [done|]. intros s. destruct s as [s| | |]; cbn [map_err]; try by apply Hno.
  wp_lift. destruct (next_entry s kind (object_id <$> objects)) as [e| | |] eqn:Ee; try by apply Hno.
  wp_lift. destruct (validate_extension s e objects) as [u| | |] eqn:Ev; try by apply Hno.
  wp_ask; [done|]. intros x. destruct x as [u'| | |]; cbn [map_err]; rewrite <- app_assoc; try by apply Hno.
  apply HQ; [done|]. intros _ _. exists (object_id <$> objects). split; [done|].
  unfold next_entry in Ee. apply rbind_Ok in Ee as (n & _ & Ee). injection Ee as <-. destruct u'.
  eexists _, _, _. split_and!; [|apply entry_new_kind|apply entry_new_payloads].
  apply elem_of_app. right. apply elem_of_cons. right. by apply list_elem_of_singleton.
Qed.

(** ** The dispatch of an attempt *)

Lemma lease_built_id o hd fe a e c (l0 l : OperationLease Datum ContentId) : new_lease o hd fe a e = (Ok l0 : Result _) -> lease_in_clock l0 c = (Ok l : Result _) ->
  fence l = fe /\ datum_content_id (lease_datum l) = Ok (lease_id l).
Proof.
  intros Hn Hc. pose proof (new_lease_fields _ _ _ _ _ _ Hn) as (? & ? & ? & ? & ? & _). pose proof (lease_in_clock_fields _ _ _ Hc) as (? & ? & ? & ? & ? & ?).
  split; [congruence|]. unfold lease_in_clock in Hc. destruct (match c with Some _ => _ | None => _ end); [done|]. apply rbind_Ok in Hc as (id & Hid & Heq). injection Heq as <-.
  by apply content_id_Ok in Hid.
Qed.

Lemma new_dispatch_valid o g a l (p : Datum) d : new_dispatch o g a l p = (Ok d : Result _) ->
  dispatch_valid (JournalError := JournalError) d /\ dispatch_operation d = o /\ dispatch_lease d = l.
Proof. intros Hn. pose proof Hn as Hd. unfold new_dispatch in Hn. apply rbind_Ok in Hn as (id & _ & Heq). by injection Heq as <-. Qed.

Lemma wp_dispatch_attempt f k lc (i : OperationIntent Datum ContentId) (g : OperationGrant Datum ContentId) w (r : OperationLifecycleRecord Datum ContentId)
    (perf : Datum) (Q : Result (OperationLease Datum ContentId * FencedDispatch Datum ContentId) -> list event -> Prop) h :
  lc_fence lc = Some f -> intent_id i = k ->
  (forall x more, effects more = [] -> (forall l d, x = Ok (l, d) -> dispatched f k (h ++ more) (dispatch_id d)) -> Q x (h ++ more)) ->
  wp (once f k) (dispatch_attempt_ lc i g w r perf) Q h.
Proof using jlaws laws.
  intros Hf <- HQ. assert (Hno : forall x more, effects more = [] -> (forall y, x <> Ok y) -> Q x (h ++ more)).
  { intros x more Hm Hx. apply HQ; [done|]. intros l d Heq. by destruct (Hx (l, d)). }
  assert (Hnow : forall x, (forall u, x <> Ok u) -> Q x h) by (intros x Hx; specialize (Hno x [] eq_refl Hx); by rewrite app_nil_r in Hno).
  unfold dispatch_attempt_. rewrite Hf. wp_lift.
  destruct (let? l := new_lease _ _ _ _ _ in lease_in_clock l (w_clock w)) as [l| | |] eqn:El; try by apply Hnow.
  apply rbind_Ok in El as (l0 & Hn & Hc). destruct (lease_built_id _ _ _ _ _ _ _ _ Hn Hc) as [Hfe Hid].
  apply wp_try. apply wp_append. intros [u| | |] more Hm _; try by apply Hno.
  wp_lift. destruct (attempt_ordinal r) as [n| | |]; try by apply Hno.
  wp_lift. destruct (new_attempt (intent_id i) n) as [a| | |] eqn:Ea; try by apply Hno.
  wp_lift. destruct (new_dispatch _ _ _ _ _) as [d| | |] eqn:Ed; try by apply Hno.
  destruct (new_dispatch_valid _ _ _ _ _ _ Ed) as (Hv & Hop & Hle).
  apply wp_try. apply wp_append. intros x more' Hm' Hx. rewrite <- app_assoc in *.
  assert (effects (more ++ more') = []) as Hmm by (by rewrite effects_app, Hm, Hm'). destruct x as [u'| | |]; try by apply Hno.
  apply HQ; [done|]. intros l' d' [= <- <-]. destruct (Hx u' eq_refl) as (ids & Hids & Hpub).
  apply Forall2_cons_inv_l in Hids as (id & ids' & Hdid & _ & ->).
  assert (id = dispatch_id d) as -> by (pose proof (codec_identity _ _ _ _ (dispatch_codec (JournalError := JournalError)) d Hv); congruence).
  exists d, l, ids'. split_and!; done.
Qed.

(** ** Before the effect *)

Definition ready f k h (id : ContentId) : Prop := effects h = [] /\ dispatched f k h id.

Lemma ready_app f k h more id : effects more = [] -> ready f k h id -> ready f k (h ++ more) id.
Proof. intros Hm [He Hd]. split; [by rewrite effects_app, He, Hm|by apply dispatched_mono]. Qed.

Lemma wp_admit_once f k lc (l : OperationLease Datum ContentId) d (p : LifecyclePreparation Datum ContentId) (Q : Result Disposition -> list event -> Prop) h :
  ready f k h (dispatch_id d) -> (forall x h', Q x h') -> wp (once f k) (admit_once lc l d p) Q h.
Proof.
  intros Hr HQ. unfold admit_once. destruct (negb _); [by apply HQ|]. wp_lift. destruct (ok_or InvalidLease (lease_clock l)) as [dom| | |]; try by apply HQ.
  wp_ask; [done|]. intros s. destruct s as [s| | |]; cbn [map_err]; try by apply HQ. apply (ready_app f k _ [existT CSnapshot (Ok s)]) in Hr; [|done].
  wp_lift. destruct (project s) as [m| | |]; try by apply HQ. wp_lift. destruct (ok_or NotResumed _) as [r| | |]; try by apply HQ.
  match goal with |- wp _ (if ?b then _ else _) _ _ => destruct b end; [by apply HQ|].
  wp_lift. destruct (new_release _ _ _) as [release| | |] eqn:Er; try by apply HQ. wp_lift. destruct (map_err _ _) as [o| | |]; try by apply HQ.
  wp_lift. destruct (next_entry _ _ _) as [e| | |]; try by apply HQ. wp_lift. destruct (validate_extension _ _ _); try by apply HQ.
  assert (release_dispatch release = dispatch_id d) as Hrd by (unfold new_release in Er; apply rbind_Ok in Er as (? & _ & Heq); by injection Heq as <-).
  apply wp_bind. unfold call at 1, ask at 1. cbn [wp]. split; [done|]. intros invoked.
  apply (ready_app f k _ [existT (CPublishThen (head_sequence_entry s) [o] e) invoked]) in Hr; [|done].
  apply wp_bind. destruct invoked; [|cbn [wp]; apply wp_no_effect; [quiet|by intros; apply HQ]].
  apply wp_bind. unfold call at 1, ask at 1. cbn [wp]. split; [done|]. intros reading.
  apply (ready_app f k _ [existT CClock reading]) in Hr; [|done].
  destruct (gate_open l (Some dom) reading); cbn [wp]; try (apply wp_no_effect; [quiet|by intros; apply HQ]).
  apply wp_bind. unfold call at 1, ask at 1. cbn [wp]. split; [|intros ?; apply wp_no_effect; [quiet|by intros; apply HQ]].
  unfold once. cbn [effect]. rewrite Hrd. exact Hr.
Qed.

Lemma wp_performer_moves f k admits lc (l : OperationLease Datum ContentId) d (p : LifecyclePreparation Datum ContentId) move
    (Q : Result (option Datum) -> list event -> Prop) h :
  ready f k h (dispatch_id d) -> (forall x h', Q x h') -> wp (once f k) (performer_moves admits false lc l d p move) Q h.
Proof.
  intros Hr HQ. destruct move as [|x]; [|by destruct admits; apply HQ]. destruct admits as [|n]; [by apply HQ|]. cbn [performer_moves]. unfold admit_release.
  apply wp_bind. apply wp_admit_once; [done|]. intros x h'. apply wp_no_effect; [|by intros; apply HQ].
  apply quiet_bind; [by apply quiet_call|]. intros move. apply quiet_performer_moves.
Qed.

Lemma wp_perform_attempt f k admits lc (l : OperationLease Datum ContentId) d (r : option (LifecycleReservation Datum ContentId)) (b : option Datum)
    (Q : Result (option Datum) -> list event -> Prop) h :
  ready f k h (dispatch_id d) -> (forall x h', Q x h') -> wp (once f k) (perform_attempt admits lc l d r b) Q h.
Proof.
  intros Hr HQ. unfold perform_attempt. destruct b as [b|].
  - apply wp_try. apply wp_no_effect; [apply quiet_acknowledge|]. intros [p| | |] more Hm; try by apply HQ.
    unfold perform_prepared. apply wp_bind. unfold call at 1, ask at 1. cbn [wp]. split; [done|]. intros move. rewrite <- app_assoc.
    apply wp_performer_moves; [|done]. apply ready_app; [|done]. by rewrite effects_app, Hm.
  - apply wp_bind. unfold call at 1, ask at 1. cbn [wp]. split; [exact Hr|]. intros x. by apply HQ.
Qed.

#[local] Hint Resolve quiet_append quiet_append_gated quiet_present_record quiet_observe quiet_persist_outcome quiet_validate_clock quiet_reserve
  quiet_bind_resources quiet_receive : quiet.

(** ** An attempt, and a run *)

Lemma attempt_wp f k admits lc (i : OperationIntent Datum ContentId) (g : OperationGrant Datum ContentId) w (r : OperationLifecycleRecord Datum ContentId)
    (perf : Datum) h :
  lc_fence lc = Some f -> intent_id i = k -> effects h = [] -> wp (once f k) (attempt admits lc i g w r perf) (fun _ _ => True) h.
Proof using jlaws laws.
  intros Hf Hi He. unfold attempt. apply wp_try. apply wp_dispatch_attempt; [done|done|]. intros [[l d]| | |] more Hm Hd; try done.
  assert (ready f k (h ++ more) (dispatch_id d)) as Hr by (split; [by rewrite effects_app, He, Hm|by apply (Hd l)]). cbn [fst snd].
  apply wp_try. apply wp_no_effect; [apply quiet_reserve|]. intros [rs| | |] more1 Hm1; try done. apply (ready_app _ _ _ more1) in Hr; [|done].
  apply wp_try. apply wp_no_effect; [apply quiet_bind_resources|]. intros [b| | |] more2 Hm2; try done. apply (ready_app _ _ _ more2) in Hr; [|done].
  apply wp_try. apply wp_perform_attempt; [done|]. intros [x| | |] h'; try done. apply wp_no_effect; [quiet|done].
Qed.

Lemma run_accepted_wp f k admits lc (i : OperationIntent Datum ContentId) (g : OperationGrant Datum ContentId) w :
  lc_fence lc = Some f -> intent_id i = k -> wp (once f k) (run_accepted admits lc i g w) (fun _ _ => True) [].
Proof using jlaws laws.
  intros Hf Hi. unfold run_accepted. apply wp_try. apply wp_no_effect; [apply quiet_validate_clock|]. intros [u| | |] h0 Hh0; try done. cbn [app].
  apply wp_bind. apply wp_no_effect; [by apply quiet_call|]. intros perf h1 Hh1. apply wp_bind. apply wp_no_effect; [by apply quiet_call|]. intros obs h2 Hh2.
  wp_lift. destruct (content_id perf); try done. wp_lift. destruct (content_id obs); try done. destruct (same_datum perf obs); [done|].
  apply wp_try. apply wp_no_effect; [by apply quiet_journal, quiet_call|]. intros [s| | |] h3 Hh3; try done.
  wp_lift. destruct (project s) as [m| | |]; try done. wp_lift. destruct (existing_record _ _ _ _ _ _) as [[v|r]| | |]; try done.
  apply wp_try. apply wp_no_effect; [apply quiet_observe|]. intros [o| | |] h4 Hh4; try done.
  wp_lift. destruct (recovery _ _ _ _) as [[v|]| | |]; try done; [apply wp_no_effect; [apply quiet_persist_outcome|done]|].
  apply attempt_wp; [done|done|]. rewrite !effects_app. by rewrite Hh0, Hh1, Hh2, Hh3, Hh4.
Qed.

(** ** Runs against one journal *)

(** The publications of a run that were acknowledged are in the journal. *)
Definition acknowledged h (s : Snapshot) : Prop := forall head objects (e : Entry), existT (CPublish head objects e) (Ok tt) ∈ h -> e ∈ entries s.

Lemma once_effects f k tr : (forall tr1 c (x : Answer c) tr2, tr = tr1 ++ existT c x :: tr2 -> once f k tr1 c) ->
  effects tr = [] \/ exists id, effects tr = [id] /\ dispatched f k tr id.
Proof.
  induction tr as [|[c x] tr IH] using rev_ind; intros Ho; [by left|].
  destruct IH as [He|(id & He & Hd)].
  { intros tr1 c' x' tr2 ->. apply (Ho tr1 c' x' (tr2 ++ [existT c x])). by rewrite <- app_assoc. }
  - pose proof (Ho tr c x [] eq_refl) as Hc. unfold once in Hc. rewrite effects_app, He. unfold effects. cbn. destruct (effect c) as [id|]; [right|by left].
    exists id. split; [done|]. destruct Hc as [_ Hc]. by apply dispatched_mono.
  - pose proof (Ho tr c x [] eq_refl) as Hc. unfold once in Hc. rewrite effects_app, He. unfold effects. cbn.
    destruct (effect c) as [id'|]; [by destruct Hc as [Hc _]; rewrite He in Hc|]. right. exists id. split; [done|by apply dispatched_mono].
Qed.

Lemma lease_id_inj (l l' : OperationLease Datum ContentId) : datum_content_id (lease_datum l) = Ok (lease_id l) ->
  datum_content_id (lease_datum l') = Ok (lease_id l') -> lease_id l = lease_id l' -> fence l = fence l'.
Proof using laws.
  intros H1 H2 Heq. rewrite <- Heq in H2. pose proof (content_id_same _ _ _ H1 H2) as Hs. unfold lease_datum, lease_fields_datum, node in Hs.
  destruct (lease_clock l), (lease_clock l'); cbn [app fmap list_fmap fst snd] in Hs;
    try (apply same_tag in Hs; by apply (inj2 symbol_qualified) in Hs as [_ ?]).
  - same_node Hs. match goal with Hx : same (u64_datum (fence _)) _ |- _ => exact (u64_datum_inj _ _ Hx) end.
  - same_node Hs. match goal with Hx : same (u64_datum (fence _)) _ |- _ => exact (u64_datum_inj _ _ Hx) end.
Qed.

(** A dispatch identity tells the fence. *)
Lemma dispatched_fence f f' k k' h h' id : dispatched f k h id -> dispatched f' k' h' id -> f = f'.
Proof using laws.
  intros (d & l & ids & Hid & Hv & _ & Hl & Hf & Hc & _) (d' & l' & ids' & Hid' & Hv' & _ & Hl' & Hf' & Hc' & _).
  assert (dispatch_lease d = dispatch_lease d') as Heq.
  { pose proof (codec_identity _ _ _ _ (dispatch_codec (JournalError := JournalError)) d Hv) as H1.
    pose proof (codec_identity _ _ _ _ (dispatch_codec (JournalError := JournalError)) d' Hv') as H2. rewrite Hid in H1. rewrite Hid' in H2.
    pose proof (content_id_same _ _ _ H1 H2) as Hs. unfold dispatch_datum, fenced_dispatch_datum, node in Hs. cbn [fmap list_fmap fst snd] in Hs. same_node Hs.
    by apply id_datum_same. }
  rewrite <- Hf, <- Hf'. apply lease_id_inj; [done..|congruence].
Qed.

Lemma snapshot_datum_content (s : Snapshot) id (x : Datum) : snapshot_datum s id = (Ok x : Result _) -> datum_content_id x = Ok id.
Proof using jlaws.
  unfold snapshot_datum. intros Hs%ok_or_Ok. unfold snapshot_lookup in Hs. apply fmap_Some in Hs as ([id' x'] & Hf & ->). apply find_some in Hf as [Hin Hb].
  apply bool_decide_eq_true in Hb. cbn in Hb |- *. subst id'. apply (snapshot_content s). by apply list_elem_of_In.
Qed.

(** A durable dispatch is one of the record of its operation. *)
Lemma dispatched_recorded f k h (s : Snapshot) (m : BTreeMap ContentId (OperationLifecycleRecord Datum ContentId)) id : acknowledged h s ->
  project s = (Ok m : Result _) -> dispatched f k h id -> exists r, m !! k = Some r /\ id ∈ dispatch_id <$> dispatches r.
Proof using jlaws laws.
  intros Hack Hp (d & l & ids & Hid & Hv & Hop & _ & _ & _ & (head & objects & e & Hin & Hk & Hpay)).
  destruct (projected_dispatch (entries s) (snapshot_datum s) m e id ids) as (k' & r & d' & Hr & Hd' & Hid'); [apply snapshot_ascending|
    intros; by eapply (snapshot_datum_content s)|exact Hp|by eapply Hack|by apply bool_decide_eq_true|exact Hpay|].
  assert (lifecycle_inv (JournalError := JournalError) k' r) as Hi by (eapply projected_inv; [apply snapshot_ascending|exact Hp|exact Hr]).
  destruct (inv_dispatch_valid k' r d' Hi Hd') as [Hv' Hop']. destruct (dispatch_id_inj d d' Hv Hv') as [Heq _]; [congruence|].
  exists r. split; [congruence|]. apply list_elem_of_fmap. exists d'. by split.
Qed.

(** A run of the engine, complete or not. *)
Record Run := {
  run_admits : nat;
  run_lc : OperationLifecycle;
  run_intent : OperationIntent Datum ContentId;
  run_grant : OperationGrant Datum ContentId;
  run_window : LeaseWindow Datum;
  run_trace : list event;
}.

Definition genuine (s : Snapshot) (x : Run) : Prop :=
  is_Some (lc_fence (run_lc x)) /\ runs (run_accepted (run_admits x) (run_lc x) (run_intent x) (run_grant x) (run_window x)) (run_trace x) /\
  acknowledged (run_trace x) s.

Lemma run_effects x f : lc_fence (run_lc x) = Some f -> runs (run_accepted (run_admits x) (run_lc x) (run_intent x) (run_grant x) (run_window x)) (run_trace x) ->
  effects (run_trace x) = [] \/ exists id, effects (run_trace x) = [id] /\ dispatched f (intent_id (run_intent x)) (run_trace x) id.
Proof using jlaws laws.
  intros Hf Hr. apply once_effects. intros tr1 c y tr2 Heq. exact (wp_runs _ _ _ [] _ (run_accepted_wp f _ _ _ _ _ _ Hf eq_refl) Hr tr1 c y tr2 Heq).
Qed.

(** The effects of an operation across runs. *)
Definition all_effects (rs : list Run) (k : ContentId) : list ContentId :=
  filter (fun x => intent_id (run_intent x) = k) rs ≫= fun x => effects (run_trace x).

Lemma all_effects_recorded (rs : list Run) (s : Snapshot) (m : BTreeMap ContentId (OperationLifecycleRecord Datum ContentId)) k r :
  NoDup ((fun x => lc_fence (run_lc x)) <$> rs) -> Forall (genuine s) rs -> project s = (Ok m : Result _) -> m !! k = Some r ->
  NoDup (all_effects rs k) /\ all_effects rs k ⊆ dispatch_id <$> dispatches r.
Proof using jlaws laws.
  intros Hnd Hg Hp Hr. unfold all_effects. 
  assert (Hx : forall x, x ∈ filter (fun x => intent_id (run_intent x) = k) rs -> exists f, lc_fence (run_lc x) = Some f /\ x ∈ rs /\ acknowledged (run_trace x) s /\
    (effects (run_trace x) = [] \/ exists id, effects (run_trace x) = [id] /\ dispatched f k (run_trace x) id)).
  { intros x [Hk Hin]%list_elem_of_filter. eapply Forall_forall in Hg as ([f Hf] & Hruns & Ha); [|exact Hin]. exists f. split_and!; [done..|].
    rewrite <- Hk. by apply run_effects. }
  split.
  - apply NoDup_bind.
    + intros x y id Hxin Hyin Hidx Hidy. destruct (Hx x Hxin) as (f & Hf & Hxr & _ & Hef). destruct (Hx y Hyin) as (f' & Hf' & Hyr & _ & Hef').
      destruct Hef as [E|(i1 & E & Hd)]; rewrite E in Hidx; [by apply elem_of_nil in Hidx|]. apply list_elem_of_singleton in Hidx as ->.
      destruct Hef' as [E'|(i2 & E' & Hd')]; rewrite E' in Hidy; [by apply elem_of_nil in Hidy|]. apply list_elem_of_singleton in Hidy as ->.
      pose proof (dispatched_fence _ _ _ _ _ _ _ Hd Hd') as Hff. apply list_elem_of_lookup in Hxr as [i Hi], Hyr as [j Hj].
      assert (i = j) as ->; [|congruence]. eapply (NoDup_lookup _ i j (Some f) Hnd); rewrite list_lookup_fmap; [by rewrite Hi; cbn; f_equal|rewrite Hj; cbn; congruence].
    + intros x Hxin. destruct (Hx x Hxin) as (f & _ & _ & _ & [->|(id & -> & _)]); [constructor|apply NoDup_singleton].
    + apply NoDup_filter. by eapply NoDup_fmap_1.
  - intros id (x & Hid & Hxin)%list_elem_of_bind. destruct (Hx x Hxin) as (f & _ & _ & Ha & [E|(id' & E & Hd)]); rewrite E in Hid; [by apply elem_of_nil in Hid|].
    apply list_elem_of_singleton in Hid as ->. destruct (dispatched_recorded f k _ s m id' Ha Hp Hd) as (r' & Hr' & Hin). congruence.
Qed.

(** Within one run, crashed or not, the effect of the operation happens at
    most once, and only after the journal acknowledged the dispatch it is of,
    which carries the fence of the run's writer. *)
Theorem effect_after_dispatch x f tr1 ev tr2 id : lc_fence (run_lc x) = Some f ->
  runs (run_accepted (run_admits x) (run_lc x) (run_intent x) (run_grant x) (run_window x)) (run_trace x) ->
  run_trace x = tr1 ++ ev :: tr2 -> effect (projT1 ev) = Some id -> effects tr1 = [] /\ dispatched f (intent_id (run_intent x)) tr1 id.
Proof using jlaws laws.
  intros Hf Hr Heq He. destruct ev as [c y]. pose proof (wp_runs _ _ _ [] _ (run_accepted_wp f _ _ _ _ _ _ Hf eq_refl) Hr tr1 c y tr2 Heq) as Ho.
  unfold once in Ho. cbn in He. by rewrite He in Ho.
Qed.

(** C7: Across any number of runs under writers with distinct fences, each
    crashed anywhere or complete, interleaved in any way, the effects of an
    operation are no more than the dispatches of its record in a journal that has
    every acknowledged entry; an operation that must run exactly once has at most
    one effect. *)
Theorem effects_bounded rs (s : Snapshot) (m : BTreeMap ContentId (OperationLifecycleRecord Datum ContentId)) k r :
  NoDup ((fun x => lc_fence (run_lc x)) <$> rs) -> Forall (genuine s) rs -> project s = (Ok m : Result _) -> m !! k = Some r ->
  length (all_effects rs k) <= length (dispatches r) /\ (replay_policy (r_intent r) = ExactlyOnce -> length (all_effects rs k) <= 1).
Proof using jlaws laws.
  intros Hnd Hg Hp Hr. destruct (all_effects_recorded rs s m k r Hnd Hg Hp Hr) as [Hn Hs].
  assert (length (all_effects rs k) <= length (dispatches r)) as Hle.
  { rewrite <- (length_fmap dispatch_id). apply NoDup_incl_length; [by apply NoDup_ListNoDup|]. intros y Hy. by apply list_elem_of_In, Hs, list_elem_of_In. }
  split; [done|]. intros Hx. destruct (projected_inv (JournalError := JournalError) (entries s) (snapshot_datum s) m k r (snapshot_ascending s) Hp Hr) as [_ _ [_ _ He] _ _].
  specialize (He Hx). lia.
Qed.
End EngineOnce.

(** ** Conclusions that the projector accepts

    What the engine concludes from an observation ([conclusion] after an attempt,
    [recovery] before one) is an outcome the projector accepts, but for one case:
    the effect was not seen, nothing is in custody, no cancellation was requested,
    and the last lease is not shown to be over.  There the engine concludes
    [Uncertain], which the projector takes only for an idempotent operation under
    a live lease. *)

Section Conclusion.
Context {Datum Symbol ContentId JournalError : Type} `{KernelDatum Datum Symbol ContentId} {laws : KernelDatumLaws Datum Symbol ContentId}.
#[local] Set Default Proof Using "Type".
Abbreviation Result A := (Res (OperationError Datum JournalError) A).
Implicit Types (r : OperationLifecycleRecord Datum ContentId) (o : OperationObservation Datum ContentId) (w : LeaseWindow Datum).

(** The observed value and the intended one have a meaning. *)
Definition meaningful r o : Prop :=
  same (intended_result (r_intent r)) (intended_result (r_intent r)) /\ (forall value e, response o = NotSatisfied value e -> same value value).

(** The case the projector refuses. *)
Definition undecided r o : bool :=
  is_not_satisfied (response o) && is_empty (reservations r) && is_empty (preparations r) && negb (is_some (cancellation r)) &&
  negb (last_is (fun l => expired_as_of l (observation_clock o) (observed_at o)) (leases r)) &&
  (bool_decide (replay_policy (r_intent r) <> Idempotent) ||
   negb (last_is (fun l => same_optional_datum (lease_clock l) (observation_clock o) && is_live_at l (observed_at o)) (leases r))).

Definition acceptable r o (v : OperationOutcome Datum ContentId) : Prop := outcome_justified r o v = (Ok tt : Result _).

Lemma refuse_if_iff b what : refuse_if b what = (Ok tt : Result unit) <-> b = false.
Proof. by destruct b. Qed.

Lemma step_same : bool_decide (ObservationPersisted <> ObservationPersisted) = false.
Proof. done. Qed.

Lemma conclusion_acceptable r o : meaningful r o -> last_step r = ObservationPersisted -> dispatches r <> [] ->
  acceptable r o (conclusion (r_intent r) r o) <-> undecided r o = false.
Proof.
  intros [Hi Hv] Hs Hd. unfold acceptable, conclusion, undecided. destruct (response o) as [v e|v e|x|a b] eqn:Hr; cbn [is_not_satisfied andb].
  - cbn [outcome_justified]. rewrite Hr, refuse_if_iff, bool_decide_false by naive_solver. cbn. rewrite (proj2 (is_empty_false _)) by done. by split.
  - specialize (Hv v e eq_refl). destruct (is_some (cancellation r)) eqn:Hc, (is_empty (reservations r)) eqn:Hre, (is_empty (preparations r)) eqn:Hp;
      cbn [orb negb andb]; try (cbn [outcome_justified]; rewrite Hr, Hs, Hre, Hp, Hc, step_same; by split).
    destruct (last_is (fun l => expired_as_of l (observation_clock o) (observed_at o)) (leases r)) eqn:He; cbn [negb andb]; cbn [outcome_justified];
      rewrite Hr, ?Hs, Hre, Hp, Hc.
    + rewrite Hi, Hv, He, (proj2 (is_empty_false _)) by done. by split.
    + rewrite step_same. cbn [orb negb andb is_not_satisfied refuse_if rbind]. by rewrite refuse_if_iff.
  - cbn [outcome_justified]. rewrite Hr, Hs, step_same. by split.
  - cbn [outcome_justified]. rewrite Hr, Hs, step_same. by split.
Qed.

Lemma recovery_acceptable w r o v : meaningful r o -> last_step r = ObservationPersisted ->
  recovery (r_intent r) w r o = (Ok (Some v) : Result _) -> acceptable r o v <-> undecided r o = false.
Proof.
  intros [Hi Hv] Hs. unfold acceptable, recovery, undecided. destruct (response o) as [x e|x e|x|a b] eqn:Hr; cbn [is_not_satisfied andb].
  - intros [= <-]. destruct (dispatches r) eqn:Hd; cbn [is_empty outcome_justified]; rewrite Hr, Hd, refuse_if_iff, bool_decide_false by naive_solver; by split.
  - specialize (Hv x e eq_refl). destruct (is_some (cancellation r)) eqn:Hc.
    { intros [= <-]. cbn [outcome_justified]. rewrite Hr, Hs, Hc, step_same. cbn. rewrite andb_false_r. by split. }
    destruct (is_empty (dispatches r)) eqn:Hd; [done|]. destruct (is_empty (reservations r)) eqn:Hre, (is_empty (preparations r)) eqn:Hp; cbn [orb negb andb];
      try (intros [= <-]; cbn [outcome_justified]; rewrite Hr, Hs, Hre, Hp, Hc, step_same; by split).
    destruct (last_is (fun l => expired_as_of l (observation_clock o) (observed_at o)) (leases r)) eqn:He; cbn [negb andb].
    + case_decide; [|by destruct (last_is (fun l => (w_acquired_at w <? expires_at l)%N) (leases r))]. intros [= <-]. cbn [outcome_justified]. rewrite Hr, Hre, Hp, Hc, Hi, Hv, He, Hd. by split.
    + intros [= <-]. cbn [outcome_justified]. rewrite Hr, Hs, Hre, Hp, Hc, step_same. cbn [orb negb andb is_not_satisfied refuse_if rbind]. by rewrite refuse_if_iff.
  - intros [= <-]. cbn [outcome_justified]. rewrite Hr, Hs, step_same. by split.
  - intros [= <-]. cbn [outcome_justified]. rewrite Hr, Hs, step_same. by split.
Qed.

(** The projector accepts what the engine concludes from an observation,
    after an attempt or on recovery, unless the effect was not seen, nothing is in
    custody or cancelled and the last lease is not shown to be over, and the
    operation is not an idempotent one under a live lease: then the engine
    concludes [Uncertain] and the projector refuses it. *)
Theorem conclusions_accepted r o : meaningful r o -> last_step r = ObservationPersisted ->
  (dispatches r <> [] -> acceptable r o (conclusion (r_intent r) r o) <-> undecided r o = false) /\
  (forall w v, recovery (r_intent r) w r o = (Ok (Some v) : Result _) -> acceptable r o v <-> undecided r o = false).
Proof. intros Hm Hs. split; [by apply conclusion_acceptable|]. intros w v. by apply recovery_acceptable. Qed.
End Conclusion.
