(* ===== verification/OperationService.v ===== *)
(** * The direct operation service

    crates/sim-lib-operation-gate/src/operation_service.rs: an operation whose
    intent, dispatch and receipt are journaled around one call of its performer,
    without leases or observation.  [service_project] reads a journal back; what
    [execute] calls outside is a [ServiceCall] whose answer is arbitrary. *)

From stdpp Require Import strings.
From S2P Require Import Prelude BTree KernelDatum OperationWire OperationData OperationCodec LifecycleRecord LifecycleInvariant LifecycleHistory LifecycleEngine LifecycleOnce.

#[global] Instance operation_intent_eq_dec `{EqDecision Datum, EqDecision ContentId} : EqDecision (OperationIntent Datum ContentId).
Proof. solve_decision. Defined.

#[global] Instance operation_grant_eq_dec `{EqDecision Datum, EqDecision ContentId} : EqDecision (OperationGrant Datum ContentId).
Proof. solve_decision. Defined.

Section Service.
Context {Datum Symbol ContentId JournalError Entry Snapshot Object : Type}.
Context `{KernelDatum Datum Symbol ContentId} {ord : OrdKey ContentId} `{EqDecision Datum}.
Context {journal : JournalData Entry Snapshot Object Datum Symbol ContentId JournalError} {writer : JournalWriter Entry Object Datum Symbol ContentId JournalError}.
#[local] Open Scope engine_scope.
Abbreviation Result A := (Res (OperationError Datum JournalError) A).

(** ** Records and their states *)

Inductive DurableOperationState :=
| DurableIntent (intent : ContentId)
| DurableDispatch (intent dispatch : ContentId)
| DurableReceipt (dispatch receipt : ContentId).

(** [Projection], and [OperationRecord] with the same fields. *)
Record Projection := {
  p_intent : OperationIntent Datum ContentId;
  p_grant : OperationGrant Datum ContentId;
  p_dispatch : option (OperationDispatch ContentId);
  p_attempt : option (OperationAttempt ContentId);
  p_receipt : option (PerformerReceipt Datum ContentId);
}.

(** The last case is [unreachable!]. *)
Definition projection_state (p : Projection) : Result DurableOperationState :=
  match p_dispatch p, p_receipt p with
  | Some d, Some r => Ok (DurableReceipt (od_id d) (pr_id r))
  | Some d, None => Ok (DurableDispatch (intent_id (p_intent p)) (od_id d))
  | None, None => Ok (DurableIntent (intent_id (p_intent p)))
  | None, Some _ => Panic
  end.

(** ** Projecting a journal *)

Abbreviation Projections := (BTreeMap ContentId Projection).
Implicit Types (m : Projections) (e : Entry) (s : Snapshot).

Inductive ServiceEvent :=
| SvIntent (i : OperationIntent Datum ContentId) (g : OperationGrant Datum ContentId)
| SvDispatch (d : OperationDispatch ContentId) (a : OperationAttempt ContentId)
| SvReceipt (r : PerformerReceipt Datum ContentId).

Definition require_payload_count e (expected : nat) : Result unit :=
  if decide (length (entry_payloads e) <> expected) then Err (NonCanonical "operation event payloads") else Ok tt.

Definition service_datum s (id : ContentId) : Result Datum := ok_or (NonCanonical "missing operation payload") (snapshot_lookup s id).

Definition service_decode (datum : ContentId -> Result Datum) e : Result (option ServiceEvent) :=
  if is_kind e "intent-persisted" then
    let? _ := require_payload_count e 2 in
    match entry_payloads e with
    | p :: q :: _ => let? x := datum p in let? i := intent_from_datum x in let? y := datum q in let? g := grant_from_datum y in Ok (Some (SvIntent i g))
    | _ => Panic
    end
  else if is_kind e "dispatched" then
    let? _ := require_payload_count e 2 in
    match entry_payloads e with
    | p :: q :: _ => let? x := datum p in let? d := direct_dispatch_from_datum x in let? y := datum q in let? a := attempt_from_datum y in Ok (Some (SvDispatch d a))
    | _ => Panic
    end
  else if is_kind e "receipt-persisted" then
    let? _ := require_payload_count e 1 in
    match entry_payloads e with
    | p :: _ => let? x := datum p in let? r := performer_receipt_from_datum x in Ok (Some (SvReceipt r))
    | _ => Panic
    end
  else Ok None.

(** [values_mut().find]: the first operation with the dispatch. *)
Definition find_projection m (dispatch : ContentId) : option (ContentId * Projection) :=
  List.find (fun kp => match p_dispatch kp.2 with Some d => bool_decide (od_id d = dispatch) | None => false end) (map_entries m).

Definition service_apply m (ev : ServiceEvent) : Result Projections :=
  match ev with
  | SvIntent i g =>
    if decide (grant_operation g <> intent_id i) then Err GrantMismatch
    else match m !! intent_id i with
      | Some _ => Err DuplicateIntent
      | None => Ok (<[intent_id i := {| p_intent := i; p_grant := g; p_dispatch := None; p_attempt := None; p_receipt := None |}]> m)
      end
  | SvDispatch d a =>
    let? p := ok_or (InvalidTransition "dispatch before intent") (m !! od_operation d) in
    if decide (is_Some (p_dispatch p) \/ od_grant d <> grant_id (p_grant p) \/ attempt_operation a <> intent_id (p_intent p) \/ od_attempt d <> attempt_id a)
    then Err (InvalidTransition "conflicting dispatch")
    else Ok (<[od_operation d := {| p_intent := p_intent p; p_grant := p_grant p; p_dispatch := Some d; p_attempt := Some a; p_receipt := p_receipt p |}]> m)
  | SvReceipt r =>
    let? kp := ok_or (InvalidTransition "receipt before dispatch") (find_projection m (pr_dispatch r)) in
    match p_receipt kp.2 with
    | Some _ => Err (InvalidTransition "duplicate receipt")
    | None =>
      Ok (<[kp.1 := {| p_intent := p_intent kp.2; p_grant := p_grant kp.2; p_dispatch := p_dispatch kp.2; p_attempt := p_attempt kp.2; p_receipt := Some r |}]> m)
    end
  end.

Definition service_entry (datum : ContentId -> Result Datum) m e : Result Projections :=
  let? ev := service_decode datum e in
  match ev with Some ev => service_apply m ev | None => Ok m end.

Fixpoint service_from (datum : ContentId -> Result Datum) m (l : list Entry) : Result Projections :=
  match l with
  | [] => Ok m
  | e :: l => let? m := service_entry datum m e in service_from datum m l
  end.

Definition service_project s : Result Projections := service_from (service_datum s) ∅ (entries s).

(** ** The service *)

Inductive ServiceCall :=
| SAcquire
| SSnapshot
| SHead
| SPublish (fence : N) (head : option (N * ContentId)) (objects : list Object) (e : Entry)
| SPerform (d : OperationDispatch ContentId).

(** [SPerform] answers [PerformerResponse]: a raw receipt, or none. *)
Definition ServiceAnswer (c : ServiceCall) : Type :=
  match c with
  | SAcquire => Res JournalError N
  | SSnapshot => Res JournalError Snapshot
  | SHead => Res JournalError (option (N * ContentId))
  | SPublish _ _ _ _ => Res JournalError unit
  | SPerform _ => option Datum
  end.

Abbreviation M A := (Prog ServiceAnswer (Result A)).

Definition pure {A} (r : Result A) : M A := Ret r.

(** A call to the journal, its error converted by [?]. *)
Definition journaled {A} (p : Prog ServiceAnswer (Res JournalError A)) : M A := pbind p (fun r => Ret (map_err Journal_ r)).

(** [self.lease]: the fence of the journal lease, once resumed. *)
Definition service_resume : M (option N) := do? f := journaled (ask SAcquire) in pure (Ok (Some f)).

Definition service_record (operation : ContentId) : M (option Projection) :=
  do? s := journaled (ask SSnapshot) in
  do? m := pure (service_project s) in
  pure (Ok (m !! operation)).

Definition service_state (operation : ContentId) : M (option DurableOperationState) :=
  do? p := service_record operation in
  match p with
  | Some p => do? st := pure (projection_state p) in pure (Ok (Some st))
  | None => pure (Ok None)
  end.

Definition service_append (lease : option N) (kind : string) (datums : list Datum) : M unit :=
  do? fence := pure (ok_or NotResumed lease) in
  do? objects := pure (objects_of datums) in
  do? expected := journaled (ask SHead) in
  do? sequence := pure (next_sequence expected) in
  let e := entry_new sequence (snd <$> expected) (symbol_qualified "operation" kind) (object_id <$> objects) in
  do? _ := journaled (ask (SPublish fence expected objects e)) in
  pure (Ok tt).

(** What the record of an operation says before it is executed: the state to
    return, or whether the intent is still to be made durable. *)
Definition service_existing m (i : OperationIntent Datum ContentId) (g : OperationGrant Datum ContentId) : Result (DurableOperationState + bool) :=
  match m !! intent_id i with
  | Some p =>
    if decide (p_intent p <> i) then Err ContradictoryIntent
    else if decide (is_Some (p_dispatch p)) then let? st := projection_state p in Ok (inl st)
    else if decide (p_grant p <> g) then Err GrantMismatch
    else Ok (inr false)
  | None => Ok (inr true)
  end.

(** The dispatch, its effect and its receipt. *)
Definition service_dispatch (lease : option N) (i : OperationIntent Datum ContentId) (g : OperationGrant Datum ContentId) (a : OperationAttempt ContentId) :
    M DurableOperationState :=
  do? d := pure (new_direct_dispatch (intent_id i) (grant_id g) (attempt_id a)) in
  do? _ := service_append lease "dispatched" [direct_dispatch_datum d; attempt_datum a] in
  do response := ask (SPerform d) in
  match response with
  | None => pure (Ok (DurableDispatch (intent_id i) (od_id d)))
  | Some raw =>
    do? r := pure (new_performer_receipt (od_id d) raw) in
    do? _ := service_append lease "receipt-persisted" [performer_receipt_datum r] in
    pure (Ok (DurableReceipt (od_id d) (pr_id r)))
  end.

Definition service_execute (lease : option N) (i : OperationIntent Datum ContentId) (g : OperationGrant Datum ContentId) (a : OperationAttempt ContentId) :
    M DurableOperationState :=
  do? _ := pure (ok_or NotResumed lease) in
  do? _ := pure (intent_verify i) in
  do? _ := pure (grant_verify g) in
  do? _ := pure (attempt_verify a) in
  if decide (grant_operation g <> intent_id i) then pure (Err GrantMismatch)
  else if decide (attempt_operation a <> intent_id i) then pure (Err AttemptMismatch)
  else
    do? s := journaled (ask SSnapshot) in
    do? m := pure (service_project s) in
    do? found := pure (service_existing m i g) in
    match found with
    | inl st => pure (Ok st)
    | inr new =>
      do? _ := (if new : bool then service_append lease "intent-persisted" [intent_datum i; grant_datum g] else pure (Ok tt)) in
      service_dispatch lease i g a
    end.
End Service.
#[global] Arguments Projection : clear implicits.
#[global] Arguments DurableOperationState : clear implicits.

(** ** What the direct operation service promises

    Over any journal that [service_project] accepts a record only grows, and no
    operation is dispatched twice ([service_dispatches]).  A run of
    [service_execute] performs at most once and after its dispatch was
    acknowledged; so across runs an operation is performed at most once. *)

Section History.
Context {Datum Symbol ContentId JournalError Entry Snapshot Object : Type}.
Context `{KernelDatum Datum Symbol ContentId} {laws : KernelDatumLaws Datum Symbol ContentId} {ord : OrdKey ContentId}.
Context {journal : JournalData Entry Snapshot Object Datum Symbol ContentId JournalError}.
#[local] Set Default Proof Using "Type".
Abbreviation Result A := (Res (OperationError Datum JournalError) A).
Abbreviation Projections := (BTreeMap ContentId (Projection Datum ContentId)).
Implicit Types (m : Projections) (p : Projection Datum ContentId) (e : Entry) (datum : ContentId -> Result Datum).

(** ** Records *)

(** The parts of a record name each other. *)
Record bound (k : ContentId) p : Prop := {
  bound_intent : intent_id (p_intent p) = k;
  bound_grant : grant_operation (p_grant p) = k;
  bound_dispatch : forall d, p_dispatch p = Some d -> od_operation d = k /\ od_grant d = grant_id (p_grant p) /\
    exists a, p_attempt p = Some a /\ attempt_operation a = k /\ od_attempt d = attempt_id a;
  bound_valid : forall d, p_dispatch p = Some d -> direct_dispatch_valid (JournalError := JournalError) d;
  bound_receipt : forall r, p_receipt p = Some r -> exists d, p_dispatch p = Some d /\ pr_dispatch r = od_id d;
}.

(** What is in a record stays. *)
Record grows p p' : Prop := {
  grows_intent : p_intent p' = p_intent p;
  grows_grant : p_grant p' = p_grant p;
  grows_dispatch : forall d, p_dispatch p = Some d -> p_dispatch p' = Some d /\ p_attempt p' = p_attempt p;
  grows_receipt : forall r, p_receipt p = Some r -> p_receipt p' = Some r;
}.

#[global] Instance grows_preorder : PreOrder grows.
Proof.
  split; [by intros p; split|]. intros p q r [] []. split; [congruence..| |naive_solver].
  intros d Hd. destruct (grows_dispatch0 d Hd) as [H1 H2]. destruct (grows_dispatch1 d H1) as [-> H3]. split; [done|congruence].
Qed.

Definition all_bound m : Prop := forall k p, m !! k = Some p -> bound k p.

Definition all_grow m m' : Prop := forall k p, m !! k = Some p -> exists p', m' !! k = Some p' /\ grows p p'.

#[local] Instance all_grow_preorder : PreOrder all_grow.
Proof.
  split; [intros m k p Hp; by exists p|]. intros m1 m2 m3 H1 H2 k p Hp. destruct (H1 k p Hp) as (p2 & Hp2 & G1). destruct (H2 k p2 Hp2) as (p3 & Hp3 & G2).
  exists p3. split; [done|by etrans].
Qed.

Lemma all_grow_insert m k p p' : m !! k = Some p -> grows p p' -> all_grow m (<[k := p']> m).
Proof.
  intros Hp Hg k' q Hq. destruct (decide (k = k')) as [<-|Hne]; [|exists q; by rewrite lookup_insert_ne].
  exists p'. rewrite lookup_insert_eq. naive_solver.
Qed.

Lemma all_grow_inserted m m' k p : all_grow (<[k := p]> m) m' -> exists p', m' !! k = Some p' /\ grows p p'.
Proof. intros Hg. apply Hg. apply lookup_insert_eq. Qed.

Lemma all_bound_insert m k p : all_bound m -> bound k p -> all_bound (<[k := p]> m).
Proof. intros Hm Hp k' q. rewrite lookup_insert_Some. naive_solver. Qed.

Lemma find_projection_Some m id k p : find_projection m id = Some (k, p) -> m !! k = Some p /\ exists d, p_dispatch p = Some d /\ od_id d = id.
Proof.
  unfold find_projection. intros [Hin Hb]%find_some. apply list_elem_of_In, elem_of_map_entries in Hin. split; [done|]. cbn in Hb.
  destruct (p_dispatch p) as [d|]; [|done]. apply bool_decide_eq_true in Hb. by exists d.
Qed.

(** Dispatches and receipts are read as well-formed values. *)
Definition event_valid (ev : ServiceEvent (Datum := Datum) (ContentId := ContentId)) : Prop :=
  match ev with SvDispatch d _ => direct_dispatch_valid (JournalError := JournalError) d | SvReceipt r => performer_receipt_valid (JournalError := JournalError) r | _ => True end.

Lemma service_apply_spec m ev m' : event_valid ev -> all_bound m -> service_apply m ev = (Ok m' : Result _) -> all_bound m' /\ all_grow m m'.
Proof.
  intros Hv Hm Ha. destruct ev as [i g|d a|r]; cbn in Ha.
  - destruct (decide _) as [|Hg%dec_stable]; [done|]. destruct (m !! intent_id i) as [|] eqn:Hi; [done|]. injection Ha as <-. split.
    + apply all_bound_insert; [done|]. by split.
    + intros k p Hp. exists p. split; [|done]. rewrite lookup_insert_ne; [done|]. by intros <-; congruence.
  - apply rbind_Ok in Ha as (p & Hp & Ha). apply ok_or_Ok in Hp. destruct (decide _) as [|Hn]; [done|]. injection Ha as <-.
    destruct (Hm _ _ Hp) as [Bi Bg Bd Bv Br]. assert (p_dispatch p = None) as Hd.
    { destruct (p_dispatch p) as [x|]; [|done]. destruct Hn. left. by exists x. }
    split.
    + apply all_bound_insert; [done|]. split; cbn; [done|done| |by intros ? [= <-]|].
      * intros d' [= <-]. split; [done|]. split; [apply dec_stable; tauto|]. exists a. split; [done|]. rewrite <- Bi. split; apply dec_stable; tauto.
      * intros r Hr. destruct (Br r Hr) as (x & Hx & _). congruence.
    + eapply all_grow_insert; [exact Hp|]. split; cbn; [done|done| |done]. intros x Hx. congruence.
  - apply rbind_Ok in Ha as ([k p] & Hf & Ha). apply ok_or_Ok, find_projection_Some in Hf as (Hp & d & Hd & Hid). cbn in Ha.
    destruct (p_receipt p) as [|] eqn:Hr; [done|]. injection Ha as <-. destruct (Hm _ _ Hp) as [Bi Bg Bd Bv Br]. split.
    + apply all_bound_insert; [done|]. split; cbn; [done..|]. intros r' [= <-]. by exists d.
    + eapply all_grow_insert; [exact Hp|]. split; cbn; [done|done|done|congruence].
Qed.

(** The event of an entry: its first payload is the one that names it. *)
Definition event_id (ev : ServiceEvent (Datum := Datum) (ContentId := ContentId)) : ContentId :=
  match ev with SvIntent i _ => intent_id i | SvDispatch d _ => od_id d | SvReceipt r => pr_id r end.

Lemma service_decode_spec datum e ev : service_decode datum e = Ok (Some ev) ->
  event_valid ev /\ exists id ids d, entry_payloads e = id :: ids /\ datum id = Ok d /\ datum_content_id d = Ok (event_id ev).
Proof using laws.
  unfold service_decode. intros He. repeat match type of He with (if ?b then _ else _) = _ => destruct b end; [..|done];
    apply rbind_Ok in He as (_ & _ & He); destruct (entry_payloads e) as [|id ids]; try done.
  - destruct ids as [|q ids]; [done|]. apply rbind_Ok in He as (x & Hx & (i & Hi & (y & _ & (g & _ & [= <-])%rbind_Ok)%rbind_Ok)%rbind_Ok).
    apply (codec_sound _ _ _ _ intent_codec) in Hi as (_ & _ & ?). split; [done|]. by exists id, (q :: ids), x.
  - destruct ids as [|q ids]; [done|]. apply rbind_Ok in He as (x & Hx & (d & Hd & (y & _ & (a & _ & [= <-])%rbind_Ok)%rbind_Ok)%rbind_Ok).
    apply (codec_sound _ _ _ _ direct_dispatch_codec) in Hd as (? & _ & ?). split; [done|]. by exists id, (q :: ids), x.
  - apply rbind_Ok in He as (x & Hx & (r & Hr & [= <-])%rbind_Ok).
    apply (codec_sound _ _ _ _ performer_receipt_codec) in Hr as (? & _ & ?). split; [done|]. by exists id, ids, x.
Qed.

Lemma service_entry_spec datum m e m' : all_bound m -> service_entry datum m e = Ok m' -> all_bound m' /\ all_grow m m'.
Proof using laws.
  intros Hm He. apply rbind_Ok in He as ([ev|] & Hev & He); [|injection He as <-; by split].
  apply service_decode_spec in Hev as [Hv _]. by eapply service_apply_spec.
Qed.

Lemma service_from_spec datum l : forall m m', all_bound m -> service_from datum m l = Ok m' -> all_bound m' /\ all_grow m m'.
Proof using laws.
  induction l as [|e l IH]; intros m m' Hm Hl; cbn in Hl; [injection Hl as <-; by split|].
  apply rbind_Ok in Hl as (m1 & He & Hl). destruct (service_entry_spec _ _ _ _ Hm He) as [Hb Hg]. destruct (IH _ _ Hb Hl) as [? ?].
  split; [done|by etrans].
Qed.

Lemma service_from_app datum m l l' m' : service_from datum m (l ++ l') = Ok m' <-> exists m1, service_from datum m l = Ok m1 /\ service_from datum m1 l' = Ok m'.
Proof.
  revert m. induction l as [|e l IH]; intros m; [cbn; naive_solver|]. cbn [app service_from]. destruct (service_entry datum m e); cbn [rbind]; [apply IH|naive_solver..].
Qed.

Lemma all_bound_empty : all_bound ∅.
Proof. intros k p. by rewrite lookup_empty. Qed.

Lemma bound_state k p : bound k p -> exists st, projection_state p = (Ok st : Result _).
Proof.
  intros [_ _ _ _ Br]. unfold projection_state. destruct (p_receipt p) as [r|]; [|destruct (p_dispatch p); by eexists].
  destruct (Br r eq_refl) as (d & -> & _). by eexists.
Qed.

(** Over any journal that the service accepts, the intent, grant, attempt,
    dispatch and receipt of a record name each other and its state can be told; a
    longer journal keeps what the record holds. *)
Theorem service_history l1 l2 datum m1 m2 k p : service_from datum ∅ l1 = Ok m1 -> service_from datum ∅ (l1 ++ l2) = Ok m2 -> m1 !! k = Some p ->
  bound k p /\ (exists st, projection_state p = (Ok st : Result _)) /\ exists p', m2 !! k = Some p' /\ grows p p'.
Proof using laws.
  intros H1 H2 Hp. destruct (service_from_spec _ _ _ _ all_bound_empty H1) as [Hb _]. apply service_from_app in H2 as (m & Hm & H2).
  assert (m = m1) as -> by congruence. split; [by apply Hb|]. split; [by eapply bound_state, Hb|].
  destruct (service_from_spec _ _ _ _ Hb H2) as [_ Hg]. by apply Hg.
Qed.

(** ** No operation is dispatched twice *)

Definition dispatched_operation datum e : option ContentId :=
  match service_decode datum e with Ok (Some (SvDispatch d _)) => Some (od_operation d) | _ => None end.

Definition has_dispatch m k : Prop := exists p d, m !! k = Some p /\ p_dispatch p = Some d.

Lemma all_grow_dispatch m m' k : all_grow m m' -> has_dispatch m k -> has_dispatch m' k.
Proof. intros Hg (p & d & Hp & Hd). destruct (Hg k p Hp) as (p' & Hp' & [_ _ G _]). exists p', d. split; [done|]. by apply G. Qed.

Lemma service_dispatches datum l : forall m m', all_bound m -> service_from datum m l = Ok m' ->
  NoDup (omap (dispatched_operation datum) l) /\ forall k, k ∈ omap (dispatched_operation datum) l -> ~ has_dispatch m k /\ has_dispatch m' k.
Proof using laws.
  induction l as [|e l IH]; intros m m' Hm Hl; [split; [constructor|by intros k ?%elem_of_nil]|]. cbn in Hl. apply rbind_Ok in Hl as (m1 & He & Hl).
  destruct (service_entry_spec _ _ _ _ Hm He) as [Hb Hg]. destruct (IH m1 m' Hb Hl) as [Hn Hk].
  assert (omap (dispatched_operation datum) (e :: l) = option_list (dispatched_operation datum e) ++ omap (dispatched_operation datum) l) as ->
    by (cbn; by destruct (dispatched_operation datum e)).
  assert (forall k, k ∈ omap (dispatched_operation datum) l -> ~ has_dispatch m k /\ has_dispatch m' k) as Hrest.
  { intros k Hin. destruct (Hk k Hin) as [H1 H2]. split; [|done]. intros Hd. apply H1. by eapply all_grow_dispatch. }
  apply rbind_Ok in He as (ev & Hev & He). unfold dispatched_operation at 1 3. rewrite Hev. destruct ev as [[i g|d a|r]|]; [done| |done|done]. cbn in He |- *.
  apply rbind_Ok in He as (p & Hp & He). apply ok_or_Ok in Hp. destruct (decide _) as [|Hno]; [done|]. injection He as <-.
  assert (has_dispatch (<[od_operation d:={| p_intent := p_intent p; p_grant := p_grant p; p_dispatch := Some d; p_attempt := Some a; p_receipt := p_receipt p |}]> m)
    (od_operation d)) as Hd by (eexists _, d; by rewrite lookup_insert_eq).
  split.
  - constructor; [|done]. intros Hin. by destruct (Hk _ Hin) as [[] _].
  - intros k [->|Hin]%elem_of_cons; [|by apply Hrest]. split; [|by eapply all_grow_dispatch; [eapply service_from_spec|]].
    intros (p' & d' & Hp' & Hd'). apply Hno. left. exists d'. congruence.
Qed.
End History.

(** ** The direct service performs an operation at most once

    A run of [service_execute] performs at most once, after its dispatch was
    acknowledged, and what it returns is in the journal.  The journal keeps every
    acknowledged entry, and [service_project] accepts one dispatch of an
    operation: across runs an operation is performed at most once. *)

(** Runs that end, with their result. *)
Fixpoint ends {Call} {Answer : Call -> Type} {A} (p : Prog Answer A) (tr : list {c : Call & Answer c}) (a : A) : Prop :=
  match p with
  | Ret b => tr = [] /\ b = a
  | Ask c k => exists x tr', tr = existT c x :: tr' /\ ends (k x) tr' a
  end.

Lemma wp_ends {Call} {Answer : Call -> Type} {A} pre (p : Prog Answer A) Q a : forall h tr, wp pre p Q h -> ends p tr a -> Q a (h ++ tr).
Proof.
  induction p as [b|c k IH]; intros h tr Hw He; cbn in *; [destruct He as [-> ->]; by rewrite app_nil_r|].
  destruct He as (x & tr' & -> & He). destruct Hw as [_ Hw]. rewrite cons_middle, app_assoc. by eapply IH.
Qed.

Section Once.
Context {Datum Symbol ContentId JournalError Entry Snapshot Object : Type}.
Context `{KernelDatum Datum Symbol ContentId} {laws : KernelDatumLaws Datum Symbol ContentId} {ord : OrdKey ContentId} `{EqDecision Datum}.
Context {journal : JournalData Entry Snapshot Object Datum Symbol ContentId JournalError} {writer : JournalWriter Entry Object Datum Symbol ContentId JournalError}.
Context {jlaws : JournalLaws Entry Snapshot Object Datum Symbol ContentId JournalError}.
#[local] Set Default Proof Using "Type".
Abbreviation Result A := (Res (OperationError Datum JournalError) A).
Abbreviation Call := (ServiceCall (ContentId := ContentId) (Entry := Entry) (Object := Object)).
Abbreviation Answer := (ServiceAnswer (Datum := Datum) (ContentId := ContentId) (JournalError := JournalError) (Entry := Entry) (Object := Object) (Snapshot := Snapshot)).
Abbreviation event := {c : Call & Answer c}.
Abbreviation M A := (Prog Answer (Result A)).
Abbreviation Projections := (BTreeMap ContentId (Projection Datum ContentId)).
Implicit Types (h tr : list event) (d : OperationDispatch ContentId) (i : OperationIntent Datum ContentId) (e : Entry) (s : Snapshot) (m : Projections).

(** ** What a run did *)

Definition performed (ev : event) : option ContentId := match projT1 ev with SPerform d => Some (od_id d) | _ => None end.

Definition performs h : list ContentId := omap performed h.

Definition acknowledged_entry (ev : event) : option Entry :=
  match ev with
  | existT c x =>
    match c return Answer c -> option Entry with
    | SPublish _ _ _ e => fun x => match x with Ok _ => Some e | _ => None end
    | _ => fun _ => None
    end x
  end.

Definition acks h : list Entry := omap acknowledged_entry h.

(** An acknowledged entry of a kind whose first payload is [id]. *)
Definition durable h (kind : string) (id : ContentId) : Prop :=
  exists e ids, e ∈ acks h /\ entry_kind e = symbol_qualified "operation" kind /\ entry_payloads e = id :: ids.

Lemma durable_app h h' kind id : durable h kind id -> durable (h ++ h') kind id.
Proof. intros (e & ids & He & ?). exists e, ids. split; [|done]. unfold acks. rewrite omap_app. apply elem_of_app. by left. Qed.

Lemma performs_app h h' : performs (h ++ h') = performs h ++ performs h'.
Proof. apply omap_app. Qed.

(** A dispatch of the operation that is durable before it is performed. *)
Definition service_once i h (c : Call) : Prop :=
  match c with
  | SPerform d => performs h = [] /\ od_operation d = intent_id i /\ direct_dispatch_valid (JournalError := JournalError) d /\ durable h "dispatched" (od_id d)
  | _ => True
  end.

(** ** Appending *)

Lemma wp_service_append i lease kind (x : Datum) (l : list Datum) (Q : Result unit -> list event -> Prop) h :
  (forall r more, performs more = [] -> (r = Ok tt -> exists id, datum_content_id x = Ok id /\ durable (h ++ more) kind id) -> Q r (h ++ more)) ->
  wp (service_once i) (service_append lease kind (x :: l)) Q h.
Proof using jlaws.
  intros HQ. assert (Hno : forall r more, performs more = [] -> r <> Ok tt -> Q r (h ++ more)) by (intros r more Hm Hr; by apply HQ).
  assert (Hnow : forall r, r <> Ok tt -> Q r h) by (intros r Hr; specialize (Hno r [] eq_refl Hr); by rewrite app_nil_r in Hno).
  unfold service_append. apply wp_try. destruct lease as [f|]; cbn [ok_or pure wp]; [|by apply Hnow].
  apply wp_try. cbn [pure wp]. destruct (objects_of (x :: l)) as [objects| | |] eqn:Eo; try by apply Hnow. apply objects_of_ids in Eo.
  apply wp_try. unfold journaled at 1, ask at 1. cbn [pbind wp]. split; [done|]. intros hd. destruct hd as [hd| | |]; cbn [map_err]; try by apply Hno.
  apply wp_try. cbn [pure wp]. destruct (next_sequence hd) as [n| | |]; try by apply Hno.
  apply wp_try. unfold journaled at 1, ask at 1. cbn [pbind wp]. split; [done|]. intros y. destruct y as [u| | |]; cbn [map_err]; rewrite <- app_assoc; try by apply Hno.
  apply HQ; [done|]. intros _. inversion Eo as [|? id ? ids Hid Hids Hl Hr]; subst. exists id. split; [done|].
  eexists _, ids. split; [unfold acks; rewrite !omap_app; apply elem_of_app; right; cbn; apply list_elem_of_singleton; reflexivity|].
  rewrite entry_new_kind, entry_new_payloads. split; [done|]. by destruct (object_id <$> objects); simplify_eq.
Qed.

(** ** What a run returns *)

(** The state was recorded before the run, or this run made it durable. *)
Definition told i h (st : DurableOperationState ContentId) : Prop :=
  (performs h = [] /\ exists s m p, existT SSnapshot (Ok s) ∈ h /\ service_project s = (Ok m : Result _) /\ m !! intent_id i = Some p /\
     p_intent p = i /\ is_Some (p_dispatch p) /\ projection_state p = (Ok st : Result _)) \/
  (exists d, performs h = [od_id d] /\ od_operation d = intent_id i /\ direct_dispatch_valid (JournalError := JournalError) d /\ durable h "dispatched" (od_id d) /\
     (st = DurableDispatch (intent_id i) (od_id d) \/
      exists r, performer_receipt_valid (JournalError := JournalError) r /\ pr_dispatch r = od_id d /\ durable h "receipt-persisted" (pr_id r) /\ st = DurableReceipt (od_id d) (pr_id r))).

Definition told_Ok i (r : Result (DurableOperationState ContentId)) h : Prop := match r with Ok st => told i h st | _ => True end.

Lemma new_direct_dispatch_valid o g a d : new_direct_dispatch o g a = (Ok d : Result _) -> direct_dispatch_valid (JournalError := JournalError) d /\ od_operation d = o.
Proof. intros Hn. pose proof Hn as Hd. unfold new_direct_dispatch in Hn. apply rbind_Ok in Hn as (id & _ & Heq). by injection Heq as <-. Qed.

Lemma new_performer_receipt_valid o (x : Datum) r : new_performer_receipt o x = (Ok r : Result _) -> performer_receipt_valid (JournalError := JournalError) r /\ pr_dispatch r = o.
Proof. intros Hn. pose proof Hn as Hd. unfold new_performer_receipt in Hn. apply rbind_Ok in Hn as (id & _ & Heq). by injection Heq as <-. Qed.

Lemma service_dispatch_wp lease i (g : OperationGrant Datum ContentId) a h : performs h = [] ->
  wp (service_once i) (service_dispatch lease i g a) (told_Ok i) h.
Proof using jlaws laws.
  intros Hh. unfold service_dispatch. apply wp_try. cbn [pure wp]. destruct (new_direct_dispatch _ _ _) as [d| | |] eqn:Ed; try done.
  apply new_direct_dispatch_valid in Ed as [Hv Hop]. apply wp_try, wp_service_append. intros [[]| | |] more Hm Hd; try done.
  destruct (Hd eq_refl) as (id & Hid & Hdur). rewrite (codec_identity _ _ _ _ direct_dispatch_codec d Hv) in Hid. injection Hid as <-.
  apply wp_bind. unfold ask. cbn [wp]. split; [split_and!; try done; by rewrite performs_app, Hh, Hm|]. intros y.
  assert (performs ((h ++ more) ++ [existT (SPerform d) y]) = [od_id d]) as Hp by by rewrite !performs_app, Hh, Hm.
  destruct y as [raw|].
  - apply wp_try. cbn [pure wp]. destruct (new_performer_receipt _ _) as [r| | |] eqn:Er; try done. apply new_performer_receipt_valid in Er as [Hrv Hrd].
    apply wp_try, wp_service_append. intros [[]| | |] more' Hm' Hd'; try done. destruct (Hd' eq_refl) as (id & Hid & Hdur').
    rewrite (codec_identity _ _ _ _ performer_receipt_codec r Hrv) in Hid. injection Hid as <-. cbn [pure wp told_Ok]. right. exists d.
    split_and!; [by rewrite performs_app, Hm', app_nil_r|done|done|by do 2 apply durable_app|]. right. by exists r.
  - cbn [pure wp told_Ok]. right. exists d. split_and!; try done; [by apply durable_app|by left].
Qed.

Lemma service_execute_wp lease i (g : OperationGrant Datum ContentId) a : wp (service_once i) (service_execute lease i g a) (told_Ok i) [].
Proof using jlaws laws.
  unfold service_execute. apply wp_try. cbn [pure wp]. destruct (ok_or NotResumed lease); try done. apply wp_try. cbn [pure wp]. destruct (intent_verify i); try done.
  apply wp_try. cbn [pure wp]. destruct (grant_verify g); try done. apply wp_try. cbn [pure wp]. destruct (attempt_verify a); try done.
  case_decide; [done|]. case_decide; [done|]. apply wp_try. unfold journaled at 1, ask at 1. cbn [pbind wp app]. split; [done|]. intros s. destruct s as [s| | |]; try done.
  cbn [map_err]. apply wp_try. cbn [pure wp]. destruct (service_project s) as [m| | |] eqn:Em; try done.
  apply wp_try. cbn [pure wp]. destruct (service_existing m i g) as [[st|new]| | |] eqn:Ex; try done.
  - cbn [pure wp told_Ok]. left. split; [done|]. unfold service_existing in Ex. destruct (m !! intent_id i) as [p|] eqn:Hp; [|done]. case_decide as Hi; [done|].
    case_decide as Hd; [|by case_decide]. apply rbind_Ok in Ex as (st' & Hst & [= <-]).
    exists s, m, p. split_and!; try done. by apply list_elem_of_singleton.
  - apply wp_try. destruct new; [|cbn [pure wp]; by apply service_dispatch_wp].
    apply wp_service_append. intros [[]| | |] more Hm _; try done. apply service_dispatch_wp. by rewrite performs_app, Hm.
Qed.

(** ** Acknowledged entries in a journal *)

Lemma is_kind_other (e : Entry) kind kind' : entry_kind e = symbol_qualified "operation" kind -> kind <> kind' -> is_kind e kind' = false.
Proof using laws. intros He Hk. unfold is_kind. apply bool_decide_eq_false. rewrite He. by intros [_ ?]%(inj2 symbol_qualified). Qed.

Lemma decode_dispatch (datum : ContentId -> Result Datum) e ev : entry_kind e = symbol_qualified "operation" "dispatched" -> service_decode datum e = Ok ev ->
  exists d a, ev = Some (SvDispatch d a).
Proof using laws.
  intros Hk. unfold service_decode. rewrite (is_kind_other _ _ "intent-persisted" Hk) by done. unfold is_kind at 1. rewrite Hk, bool_decide_true by done.
  intros He. apply rbind_Ok in He as (_ & _ & He). destruct (entry_payloads e) as [|x [|y l]]; try done.
  apply rbind_Ok in He as (? & _ & (d & _ & (? & _ & (a & _ & [= <-])%rbind_Ok)%rbind_Ok)%rbind_Ok). by exists d, a.
Qed.

Lemma decode_receipt (datum : ContentId -> Result Datum) e ev : entry_kind e = symbol_qualified "operation" "receipt-persisted" -> service_decode datum e = Ok ev ->
  exists r, ev = Some (SvReceipt r).
Proof using laws.
  intros Hk. unfold service_decode. rewrite (is_kind_other _ _ "intent-persisted" Hk), (is_kind_other _ _ "dispatched" Hk) by done.
  unfold is_kind at 1. rewrite Hk, bool_decide_true by done. intros He. apply rbind_Ok in He as (_ & _ & He). destruct (entry_payloads e) as [|x l]; [done|].
  apply rbind_Ok in He as (? & _ & (r & _ & [= <-])%rbind_Ok). by exists r.
Qed.

Lemma service_datum_content s id (x : Datum) : service_datum s id = (Ok x : Result _) -> datum_content_id x = Ok id.
Proof using jlaws.
  unfold service_datum. intros Hs%ok_or_Ok. apply (snapshot_datum_content (JournalError := JournalError) s). unfold snapshot_datum. by rewrite Hs.
Qed.

(** The event of an entry of an accepted journal, between the records before and
    after it. *)
Lemma service_project_split s m e : service_project s = (Ok m : Result _) -> e ∈ entries s ->
  exists m1 m2, all_bound (JournalError := JournalError) m1 /\ all_bound (JournalError := JournalError) m2 /\ service_entry (service_datum s) m1 e = Ok m2 /\ all_grow m2 m.
Proof using laws.
  intros Hp Hin. apply list_elem_of_split in Hin as (l1 & l2 & Hl). unfold service_project in Hp. rewrite Hl in Hp. apply service_from_app in Hp as (m1 & H1 & H2).
  cbn [service_from] in H2. apply rbind_Ok in H2 as (m2 & He & H2). destruct (service_from_spec _ _ _ _ all_bound_empty H1) as [B1 _].
  destruct (service_entry_spec _ _ _ _ B1 He) as [B2 _]. exists m1, m2. split_and!; try done. by eapply service_from_spec.
Qed.

Lemma event_payload s e id ids (ev : ServiceEvent) : entry_payloads e = id :: ids -> service_decode (service_datum s) e = (Ok (Some ev) : Result _) -> event_id ev = id.
Proof using jlaws laws.
  intros Hp He. apply service_decode_spec in He as (_ & id' & ids' & x & Hp' & Hx & Hid). rewrite Hp in Hp'. injection Hp' as <- <-. apply service_datum_content in Hx. congruence.
Qed.

Lemma recorded_dispatch s m e id ids : service_project s = (Ok m : Result _) -> e ∈ entries s -> entry_kind e = symbol_qualified "operation" "dispatched" ->
  entry_payloads e = id :: ids -> exists p d, m !! od_operation d = Some p /\ p_dispatch p = Some d /\ od_id d = id /\
    direct_dispatch_valid (JournalError := JournalError) d /\ dispatched_operation (service_datum s) e = Some (od_operation d).
Proof using jlaws laws.
  intros Hp Hin Hk Hpay. destruct (service_project_split _ _ _ Hp Hin) as (m1 & m2 & B1 & B2 & He & Hg). apply rbind_Ok in He as (ev & Hev & He).
  destruct (decode_dispatch _ _ _ Hk Hev) as (d & a & ->). pose proof (event_payload _ _ _ _ _ Hpay Hev) as Hid. pose proof (service_decode_spec _ _ _ Hev) as [Hv _].
  cbn in He, Hid, Hv. apply rbind_Ok in He as (p & _ & He). destruct (decide _); [done|]. injection He as <-. apply all_grow_inserted in Hg as (p' & Hp' & [_ _ G _]).
    exists p', d. split_and!; [done|by apply G|done|done|]. unfold dispatched_operation. by rewrite Hev.
Qed.

Lemma direct_dispatch_inj d d' : direct_dispatch_valid (JournalError := JournalError) d -> direct_dispatch_valid (JournalError := JournalError) d' ->
  od_id d = od_id d' -> od_operation d = od_operation d'.
Proof using laws.
  intros Hd Hd' Heq. pose proof (codec_identity _ _ _ _ direct_dispatch_codec d Hd) as H1. pose proof (codec_identity _ _ _ _ direct_dispatch_codec d' Hd') as H2.
  rewrite <- Heq in H2. pose proof (content_id_same _ _ _ H1 H2) as Hs. unfold direct_dispatch_datum, direct_dispatch_fields_datum, node in Hs.
  cbn [fmap list_fmap fst snd] in Hs. same_node Hs. by apply id_datum_same.
Qed.

Lemma performer_receipt_inj (r r' : PerformerReceipt Datum ContentId) : performer_receipt_valid (JournalError := JournalError) r ->
  performer_receipt_valid (JournalError := JournalError) r' -> pr_id r = pr_id r' -> pr_dispatch r = pr_dispatch r'.
Proof using laws.
  intros Hd Hd' Heq. pose proof (codec_identity _ _ _ _ performer_receipt_codec r Hd) as H1. pose proof (codec_identity _ _ _ _ performer_receipt_codec r' Hd') as H2.
  rewrite <- Heq in H2. pose proof (content_id_same _ _ _ H1 H2) as Hs. unfold performer_receipt_datum, performer_receipt_fields_datum, node in Hs.
  cbn [fmap list_fmap fst snd] in Hs. same_node Hs. by apply id_datum_same.
Qed.

(** The receipt of a dispatch is in the record of its operation. *)
Lemma recorded_receipt s m e ids d (r : PerformerReceipt Datum ContentId) : service_project s = (Ok m : Result _) -> e ∈ entries s ->
  entry_kind e = symbol_qualified "operation" "receipt-persisted" -> entry_payloads e = pr_id r :: ids -> performer_receipt_valid (JournalError := JournalError) r ->
  direct_dispatch_valid (JournalError := JournalError) d -> pr_dispatch r = od_id d ->
  exists p, m !! od_operation d = Some p /\ pr_id <$> p_receipt p = Some (pr_id r).
Proof using jlaws laws.
  intros Hp Hin Hk Hpay Hrv Hdv Hrd. destruct (service_project_split _ _ _ Hp Hin) as (m1 & m2 & B1 & B2 & He & Hg). apply rbind_Ok in He as (ev & Hev & He).
  destruct (decode_receipt _ _ _ Hk Hev) as (r' & ->). pose proof (event_payload _ _ _ _ _ Hpay Hev) as Hid. pose proof (service_decode_spec _ _ _ Hev) as [Hv _].
  cbn in He, Hid, Hv. apply rbind_Ok in He as ([k p] & Hf & He). apply ok_or_Ok, find_projection_Some in Hf as (Hk1 & d' & Hd' & Hdi). cbn in He.
  destruct (p_receipt p); [done|]. injection He as <-. pose proof (performer_receipt_inj _ _ Hv Hrv Hid) as Hrr.
  destruct (B1 _ _ Hk1) as [_ _ Bd Bv _]. assert (od_operation d = k) as ->.
  { rewrite <- (proj1 (Bd _ Hd')). apply direct_dispatch_inj; [done|by apply Bv|congruence]. }
  apply all_grow_inserted in Hg as (p' & Hp' & [_ _ _ G]). exists p'. split; [done|]. cbn in G. rewrite (G r' eq_refl). cbn. by f_equal.
Qed.

(** ** Runs against one journal *)

(** A run of the service, complete or not. *)
Record ServiceRun := {
  sr_lease : option N;
  sr_intent : OperationIntent Datum ContentId;
  sr_grant : OperationGrant Datum ContentId;
  sr_attempt : OperationAttempt ContentId;
  sr_trace : list event;
}.

Definition service_run (x : ServiceRun) : M (DurableOperationState ContentId) := service_execute (sr_lease x) (sr_intent x) (sr_grant x) (sr_attempt x).

Definition all_performs (rs : list ServiceRun) (k : ContentId) : list ContentId :=
  filter (fun x => intent_id (sr_intent x) = k) rs ≫= fun x => performs (sr_trace x).

Lemma service_run_once x tr1 c (y : Answer c) tr2 : runs (service_run x) (sr_trace x) -> sr_trace x = tr1 ++ existT c y :: tr2 -> service_once (sr_intent x) tr1 c.
Proof using jlaws laws. intros Hr Heq. exact (wp_runs _ _ _ [] _ (service_execute_wp _ _ _ _) Hr tr1 c y tr2 Heq). Qed.

(** A performance has its dispatch among the acknowledged entries. *)
Lemma service_run_performs x : runs (service_run x) (sr_trace x) ->
  performs (sr_trace x) = [] \/ exists d, performs (sr_trace x) = [od_id d] /\ od_operation d = intent_id (sr_intent x) /\
    direct_dispatch_valid (JournalError := JournalError) d /\ durable (sr_trace x) "dispatched" (od_id d).
Proof using jlaws laws.
  intros Hr. assert (Ho : forall tr1 c (y : Answer c) tr2, sr_trace x = tr1 ++ existT c y :: tr2 -> service_once (sr_intent x) tr1 c)
    by (intros; by eapply service_run_once). clear Hr. revert Ho. generalize (sr_trace x) as tr. induction tr as [|[c y] tr IH] using rev_ind; intros Ho; [by left|].
  assert (service_once (sr_intent x) tr c) as Hc by by eapply (Ho tr c y []).
  destruct IH as [He|(d & He & H1 & H2 & Hd)].
  - intros tr1 c' y' tr2 ->. apply (Ho tr1 c' y' (tr2 ++ [existT c y])). by rewrite <- app_assoc.
  - rewrite performs_app, He. destruct c; try by left. right. destruct Hc as (_ & H1 & H2 & H3). eexists. split_and!; [done..|]. by apply durable_app.
  - rewrite performs_app, He. destruct c; try (right; exists d; split_and!; try done; by apply durable_app). destruct Hc as [Hc _]. congruence.
Qed.

(** The dispatch entries of an operation. *)
Definition dispatch_entries (datum : ContentId -> Result Datum) (k : ContentId) (l : list Entry) : list ContentId := filter (.= k) (omap (dispatched_operation datum) l).

Lemma dispatch_entries_app (datum : ContentId -> Result Datum) k l l' : dispatch_entries datum k (l ++ l') = dispatch_entries datum k l ++ dispatch_entries datum k l'.
Proof. unfold dispatch_entries. by rewrite omap_app, filter_app. Qed.

Lemma dispatch_entries_submseteq (datum : ContentId -> Result Datum) k l l' : l ⊆+ l' -> length (dispatch_entries datum k l) <= length (dispatch_entries datum k l').
Proof.
  intros [l2 Hl]%submseteq_Permutation. assert (dispatch_entries datum k l' ≡ₚ dispatch_entries datum k (l ++ l2)) as ->.
  { unfold dispatch_entries. by rewrite Hl. }
  rewrite dispatch_entries_app, length_app. lia.
Qed.

Lemma dispatch_entries_once s m k : service_project s = (Ok m : Result _) -> length (dispatch_entries (service_datum s) k (entries s)) <= 1.
Proof using laws.
  intros Hp. destruct (service_dispatches _ _ _ _ all_bound_empty Hp) as [Hn _]. unfold dispatch_entries.
  assert (filter (.= k) (omap (dispatched_operation (service_datum s)) (entries s)) ⊆+ [k]) as Hsub; [|by apply submseteq_length in Hsub].
  apply NoDup_submseteq; [by apply NoDup_filter|]. intros k' [-> _]%list_elem_of_filter. by apply list_elem_of_singleton.
Qed.

Lemma run_performs_entries x s m : runs (service_run x) (sr_trace x) -> acks (sr_trace x) ⊆ entries s -> service_project s = (Ok m : Result _) ->
  length (performs (sr_trace x)) <= length (dispatch_entries (service_datum s) (intent_id (sr_intent x)) (acks (sr_trace x))).
Proof using jlaws laws.
  intros Hr Ha Hp. destruct (service_run_performs x Hr) as [->|(d & -> & Hop & Hv & (e & ids & He & Hk & Hpay))]; [cbn; lia|].
  destruct (recorded_dispatch s m e _ _ Hp (Ha _ He) Hk Hpay) as (p & d' & _ & _ & Hid & Hv' & Hdo). apply (direct_dispatch_inj _ _ Hv') in Hid; [|done].
  assert (intent_id (sr_intent x) ∈ dispatch_entries (service_datum s) (intent_id (sr_intent x)) (acks (sr_trace x))) as Hin.
  { apply list_elem_of_filter. split; [done|]. apply list_elem_of_omap. exists e. split; [done|]. rewrite Hdo. congruence. }
  destruct (dispatch_entries _ _ _); [by apply elem_of_nil in Hin|cbn; lia].
Qed.

Lemma all_performs_entries (rs : list ServiceRun) s m k : Forall (fun x => runs (service_run x) (sr_trace x)) rs ->
  (rs ≫= fun x => acks (sr_trace x)) ⊆ entries s -> service_project s = (Ok m : Result _) ->
  length (all_performs rs k) <= length (dispatch_entries (service_datum s) k (rs ≫= fun x => acks (sr_trace x))).
Proof using jlaws laws.
  intros Hr. unfold all_performs. induction Hr as [|x rs Hx _ IH]; intros Ha Hp; [cbn; lia|]. rewrite bind_cons in Ha. rewrite bind_cons, dispatch_entries_app, length_app, filter_cons.
  specialize (IH ltac:(set_solver) Hp). case_decide as Hk; [|lia]. rewrite bind_cons, length_app. subst k.
  pose proof (run_performs_entries x s m Hx ltac:(set_solver) Hp). lia.
Qed.


(** The record has reached the state. *)
Definition reached (st : DurableOperationState ContentId) (p : Projection Datum ContentId) : Prop :=
  match st with
  | DurableIntent i => intent_id (p_intent p) = i
  | DurableDispatch i d => intent_id (p_intent p) = i /\ od_id <$> p_dispatch p = Some d
  | DurableReceipt d r => od_id <$> p_dispatch p = Some d /\ pr_id <$> p_receipt p = Some r
  end.

(** A state that an execution returns is true: either the operation was
    dispatched before, nothing is performed and the state is the recorded one, or
    it was performed once and any accepted journal with the acknowledged entries
    of the run has a record of the operation that reached the state. *)
Theorem service_state_true x st s m : ends (service_run x) (sr_trace x) (Ok st) -> acks (sr_trace x) ⊆ entries s -> service_project s = (Ok m : Result _) ->
  (performs (sr_trace x) = [] /\ exists s' m' p, existT SSnapshot (Ok s') ∈ sr_trace x /\ service_project s' = (Ok m' : Result _) /\
     m' !! intent_id (sr_intent x) = Some p /\ p_intent p = sr_intent x /\ is_Some (p_dispatch p) /\ projection_state p = (Ok st : Result _)) \/
  (length (performs (sr_trace x)) = 1 /\ exists p, m !! intent_id (sr_intent x) = Some p /\ reached st p).
Proof using jlaws laws.
  intros He Ha Hp. pose proof (wp_ends _ _ _ _ _ _ (service_execute_wp _ _ _ _) He) as [Ht|(d & Hper & Hop & Hv & (e & ids & Hin & Hk & Hpay) & Hst)]; [by left|right].
  cbn [app] in *. split; [by rewrite Hper|]. destruct (recorded_dispatch s m e _ _ Hp (Ha _ Hin) Hk Hpay) as (p & d' & Hm & Hd & Hid & Hv' & _).
  assert (od_operation d' = od_operation d) as Hoo by by apply direct_dispatch_inj. rewrite Hoo in Hm. exists p. split; [by rewrite <- Hop|].
  destruct (service_from_spec _ _ _ _ all_bound_empty Hp) as [Hb _]. pose proof (bound_intent _ _ (Hb _ _ Hm)) as Hi.
  destruct Hst as [->|(r & Hrv & Hrd & (e' & ids' & Hin' & Hk' & Hpay') & ->)]; cbn [reached].
  - rewrite Hd, Hi. cbn. by rewrite Hid.
  - rewrite Hd. cbn. split; [by rewrite Hid|]. destruct (recorded_receipt s m e' ids' d r Hp (Ha _ Hin') Hk' Hpay' Hrv Hv Hrd) as (p' & Hp' & Hr). congruence.
Qed.
End Once.
