(* ===== verification/ApprovalGate.v ===== *)
(** * The approval gate

    crates/sim-lib-operation-gate/src/lib.rs: [guard_operation], which resolves an
    effect under a declaration and performs it only with the approval its mode
    asks for.  The kernel's references, capabilities, effects and the resolution
    of effects are outside the repository: [GResolve] answers a replayed result,
    or that the effect is to be performed, and then [GResolved] answers what
    becomes of the performer's result.  The verifier, the approval use, the sink
    and the performer are calls with arbitrary answers. *)

From stdpp Require Import strings.
From S2P Require Import Prelude LifecycleEngine LifecycleOnce.

(** ** Declarations and approvals *)

Inductive ExecutionMode := Observation | Recorded | Reviewed.

Inductive ApprovalDecision := Approve | Deny.

Inductive SinkFailurePolicy := FailClosed | PreserveResult.

#[global] Instance execution_mode_eq_dec : EqDecision ExecutionMode.
Proof. solve_decision. Defined.

#[global] Instance approval_decision_eq_dec : EqDecision ApprovalDecision.
Proof. solve_decision. Defined.

Section Gate.
Context {Ref CapabilityName Effect Error : Type} `{EqDecision Ref} `{EqDecision CapabilityName} (requires : Effect -> list CapabilityName).
#[local] Open Scope engine_scope.

Record OperationDeclaration := { decl_operation : string; decl_subject : Ref; decl_capability : CapabilityName; decl_mode : ExecutionMode }.

Record Approval := { approval_id : string; approval_subject : Ref; decision : ApprovalDecision }.

Record GateRecord := {
  gr_operation : string;
  gr_subject : Ref;
  gr_capability : CapabilityName;
  gr_mode : ExecutionMode;
  gr_approval : option string;
  gr_result : Ref;
}.

(** The approval presented and the sink policy; the adapters are calls. *)
Record GateContext := { gc_approval : option Approval; gc_sink_failure : SinkFailurePolicy }.

(** [Error::Eval] with the message of the gate, or an error of what it calls. *)
Inductive GateError :=
| OmitsCapability (operation : string) (capability : CapabilityName)
| RequiresApproval (operation : string)
| SubjectMismatch (approval operation : string)
| NotApproved (approval : string)
| Foreign (e : Error).

Abbreviation Result A := (Res GateError A).

(** ** Calls *)

Inductive GateCall :=
| GResolve (e : Effect)
| GVerify (a : Approval)
| GConsume (a : Approval)
| GPerform (e : Effect)
| GRecord (r : GateRecord)
| GResolved (r : Result Ref).

Inductive Resolution := Replayed (r : Result Ref) | ToPerform (e : Effect).

Definition GateAnswer (c : GateCall) : Type :=
  match c with
  | GResolve _ => Resolution
  | GVerify _ | GConsume _ | GRecord _ => Result unit
  | GPerform _ | GResolved _ => Result Ref
  end.

Abbreviation M A := (Prog GateAnswer (Result A)).
Implicit Types (decl : OperationDeclaration) (gc : GateContext) (e : Effect).

(** The approval that the mode asks for, verified and consumed. *)
Definition approve decl gc : M (option string) :=
  match decl_mode decl with
  | Observation | Recorded => Ret (Ok None)
  | Reviewed =>
    match gc_approval gc with
    | None => Ret (Err (RequiresApproval (decl_operation decl)))
    | Some a =>
      if decide (approval_subject a <> decl_subject decl) then Ret (Err (SubjectMismatch (approval_id a) (decl_operation decl)))
      else if decide (decision a <> Approve) then Ret (Err (NotApproved (approval_id a)))
      else
        do? _ := ask (GVerify a) in
        do? _ := ask (GConsume a) in
        Ret (Ok (Some (approval_id a)))
    end
  end.

(** The performer given to [resolve_effect]. *)
Definition perform_guarded decl gc e : M Ref :=
  do? approval := approve decl gc in
  do? result := ask (GPerform e) in
  do recorded := ask (GRecord {| gr_operation := decl_operation decl; gr_subject := decl_subject decl; gr_capability := decl_capability decl;
                                 gr_mode := decl_mode decl; gr_approval := approval; gr_result := result |}) in
  match recorded, gc_sink_failure gc with
  | Ok _, _ => Ret (Ok result)
  | Err _, PreserveResult => Ret (Ok result)
  | Err error, FailClosed => Ret (Err error)
  | Panic, _ => Ret Panic
  | NoFuel, _ => Ret NoFuel
  end.

Definition guard_operation decl e gc : M Ref :=
  if negb (existsb (fun c => bool_decide (c = decl_capability decl)) (requires e)) then
    Ret (Err (OmitsCapability (decl_operation decl) (decl_capability decl)))
  else
    do resolution := ask (GResolve e) in
    match resolution with
    | Replayed r => Ret r
    | ToPerform e => do r := perform_guarded decl gc e in ask (GResolved r)
    end.

(** ** Calls before a call *)

Abbreviation event := {c : GateCall & GateAnswer c}.
Implicit Types (h tr : list event).

Definition event_performs (ev : event) : option Effect := match projT1 ev with GPerform e => Some e | _ => None end.

Definition performances tr : list Effect := omap event_performs tr.

(** Approvals whose use was granted. *)
Definition event_consumes (ev : event) : option Approval :=
  match ev with
  | existT c x =>
    match c return GateAnswer c -> option Approval with
    | GConsume a => fun x => match x with Ok _ => Some a | _ => None end
    | _ => fun _ => None
    end x
  end.

Definition consumed tr : list Approval := omap event_consumes tr.

(** The approval is one of the declaration's subject, and says yes. *)
Definition approves decl gc (a : Approval) : Prop := gc_approval gc = Some a /\ approval_subject a = decl_subject decl /\ decision a = Approve.

(** What has been granted before the performance. *)
Definition granted decl gc h : Prop :=
  match decl_mode decl with
  | Observation | Recorded => consumed h = []
  | Reviewed => exists a, approves decl gc a /\ existT (GVerify a) (Ok tt) ∈ h /\ consumed h = [a]
  end.

(** The record of a performance. *)
Definition record_of_performance decl gc h (r : GateRecord) : Prop :=
  (exists e, @existT GateCall GateAnswer (GPerform e) (Ok (gr_result r)) ∈ h) /\ gr_operation r = decl_operation decl /\ gr_subject r = decl_subject decl /\
  gr_capability r = decl_capability decl /\ gr_mode r = decl_mode decl /\ gr_approval r = head (approval_id <$> consumed h).

Definition guarded decl gc (e : Effect) h (c : GateCall) : Prop :=
  match c with
  | GResolve e' => e' = e /\ decl_capability decl ∈ requires e /\ h = []
  | GVerify a => decl_mode decl = Reviewed /\ approves decl gc a /\ performances h = [] /\ consumed h = []
  | GConsume a => decl_mode decl = Reviewed /\ approves decl gc a /\ existT (GVerify a) (Ok tt) ∈ h /\ performances h = [] /\ consumed h = []
  | GPerform e' => existT (GResolve e) (ToPerform e') ∈ h /\ granted decl gc h /\ performances h = []
  | GRecord r => length (performances h) = 1 /\ record_of_performance decl gc h r
  | GResolved _ => True
  end.

(** ** Proofs *)

Lemma consumed_app h h' : consumed (h ++ h') = consumed h ++ consumed h'.
Proof using Type. apply omap_app. Qed.

Lemma performances_app h h' : performances (h ++ h') = performances h ++ performances h'.
Proof using Type. apply omap_app. Qed.

Lemma approve_wp decl gc e0 h (Q : Result (option string) -> list event -> Prop) : performances h = [] -> consumed h = [] ->
  (forall r more, performances more = [] ->
     (forall id, r = Ok id -> granted decl gc (h ++ more) /\ id = head (approval_id <$> consumed (h ++ more))) -> Q r (h ++ more)) ->
  wp (guarded decl gc e0) (approve decl gc) Q h.
Proof using Type.
  intros Hp Hc HQ. assert (Hno : forall r, (forall id, r <> Ok id) -> Q r h).
  { intros r Hr. rewrite <- (app_nil_r h). apply HQ; [done|]. intros id Hid. by destruct (Hr id). }
  unfold approve. destruct (decl_mode decl) eqn:Em; cbn [wp].
  1, 2: rewrite <- (app_nil_r h); apply HQ; [done|]; rewrite app_nil_r; intros id [= <-]; split; [|by rewrite Hc]; unfold granted; by rewrite Em.
  destruct (gc_approval gc) as [a|] eqn:Ea; cbn [wp]; [|by apply Hno]. case_decide as Hs; cbn [wp]; [by apply Hno|]. case_decide as Hd; cbn [wp]; [by apply Hno|].
  apply wp_try. unfold ask at 1. cbn [wp]. split; [done|]. intros v. destruct v as [[]| | |]; try by (apply HQ; [done|]; intros ? [=]).
  apply wp_try. unfold ask at 1. cbn [wp]. split.
  { cbn [guarded]. rewrite performances_app, consumed_app, Hp, Hc. split_and!; try done. apply elem_of_app. right. by apply list_elem_of_singleton. }
  intros u. rewrite <- app_assoc. destruct u as [[]| | |]; try by (apply HQ; [done|]; intros ? [=]).
  cbn [wp]. apply HQ; [done|]. intros id [= <-]. rewrite consumed_app, Hc. split; [|done]. unfold granted. rewrite Em. exists a. split; [done|].
  split; [apply elem_of_app; right; by left|]. by rewrite consumed_app, Hc.
Qed.

Lemma perform_guarded_wp decl gc e0 e h : performances h = [] -> consumed h = [] -> existT (GResolve e0) (ToPerform e) ∈ h ->
  wp (guarded decl gc e0) (perform_guarded decl gc e) (fun _ _ => True) h.
Proof using Type.
  intros Hp Hc Hr. unfold perform_guarded. apply wp_try, approve_wp; [done|done|]. intros [id| | |] more Hm Hg; try done.
  destruct (Hg id eq_refl) as [Hgr Hid]. apply wp_try. unfold ask at 1. cbn [wp]. split.
  { split_and!; [apply elem_of_app; by left|done|by rewrite performances_app, Hp, Hm]. }
  intros x. destruct x as [result| | |]; try done. apply wp_bind. unfold ask at 1. cbn [wp].
  split; [|intros [u| | |]; destruct (gc_sink_failure gc); done]. split; [by rewrite !performances_app, Hp, Hm|].
  split_and!; try done; [exists e; cbn; apply elem_of_app; right; by apply list_elem_of_singleton|]. cbn. rewrite Hid, (consumed_app _ [_]). cbn. by rewrite app_nil_r.
Qed.

Lemma guard_operation_wp decl e gc : wp (guarded decl gc e) (guard_operation decl e gc) (fun _ _ => True) [].
Proof using Type.
  unfold guard_operation. destruct (existsb _ _) eqn:Ex; cbn [negb]; [|done]. apply existsb_exists in Ex as (c & Hin & Hc). apply bool_decide_eq_true in Hc as ->.
  apply wp_bind. unfold ask at 1. cbn [wp]. split; [split_and!; [done|by apply list_elem_of_In|done]|]. intros [r|e']; [done|]. apply wp_bind.
  eapply wp_mono; [|apply (perform_guarded_wp decl gc e e'); [done|done|by apply list_elem_of_singleton]]. intros r h _ _. by split.
Qed.

(** ** Runs *)

Record GateRun := { gt_declaration : OperationDeclaration; gt_effect : Effect; gt_context : GateContext; gt_trace : list event }.

Definition gate_run (x : GateRun) : Prop := runs (guard_operation (gt_declaration x) (gt_effect x) (gt_context x)) (gt_trace x).

Lemma gate_run_guarded x tr1 c (y : GateAnswer c) tr2 : gate_run x -> gt_trace x = tr1 ++ existT c y :: tr2 -> guarded (gt_declaration x) (gt_context x) (gt_effect x) tr1 c.
Proof using Type. intros Hr Heq. exact (wp_runs _ _ _ [] _ (guard_operation_wp _ _ _) Hr tr1 c y tr2 Heq). Qed.

(** A run of a reviewed operation performs once at most, on a granted approval. *)
Lemma reviewed_performances x : gate_run x -> decl_mode (gt_declaration x) = Reviewed ->
  performances (gt_trace x) = [] \/
  (length (performances (gt_trace x)) = 1 /\ exists a, approves (gt_declaration x) (gt_context x) a /\ a ∈ consumed (gt_trace x)).
Proof using Type.
  intros Hr Hm. assert (Ho : forall tr1 c (y : GateAnswer c) tr2, gt_trace x = tr1 ++ existT c y :: tr2 -> guarded (gt_declaration x) (gt_context x) (gt_effect x) tr1 c)
    by (intros; by eapply gate_run_guarded).
  clear Hr. revert Ho. generalize (gt_trace x) as tr. induction tr as [|[c y] tr IH] using rev_ind; intros Ho; [by left|].
  assert (guarded (gt_declaration x) (gt_context x) (gt_effect x) tr c) as Hc by by eapply (Ho tr c y []). rewrite performances_app.
  destruct IH as [He|(He & a & Ha & Hin)].
  - intros tr1 c' y' tr2 ->. apply (Ho tr1 c' y' (tr2 ++ [existT c y])). by rewrite <- app_assoc.
  - rewrite He. destruct c; try by left. right. split; [done|]. destruct Hc as (_ & Hg & _). unfold granted in Hg. rewrite Hm in Hg. destruct Hg as (a & Ha & _ & Hcs).
    exists a. split; [done|]. rewrite consumed_app, Hcs. by left.
  - right. destruct c; try (split; [by rewrite app_nil_r|exists a; split; [done|]; rewrite consumed_app; apply elem_of_app; by left]).
    destruct Hc as (_ & _ & Hno). by rewrite Hno in He.
Qed.

(** The performances of reviewed operations under an approval. *)
Definition under_approval (id : string) (x : GateRun) : Prop :=
  decl_mode (gt_declaration x) = Reviewed /\ approval_id <$> gc_approval (gt_context x) = Some id.

#[global] Instance under_approval_dec id x : Decision (under_approval id x).
Proof. unfold under_approval. apply _. Defined.

Lemma reviewed_bound id (rs : list GateRun) : Forall gate_run rs ->
  length (filter (under_approval id) rs ≫= fun x => performances (gt_trace x)) <=
  length (filter (.= id) (rs ≫= fun x => approval_id <$> consumed (gt_trace x))).
Proof using Type.
  induction 1 as [|x rs Hx _ IH]; [cbn; lia|]. rewrite bind_cons, filter_app, length_app, filter_cons. case_decide as Hu; [|lia]. rewrite bind_cons, length_app.
  destruct Hu as [Hm Hid]. destruct (reviewed_performances x Hx Hm) as [->|(-> & a & (Ha & _) & Hin)]; [cbn; lia|]. rewrite Ha in Hid. injection Hid as Hid.
  assert (id ∈ filter (.= id) (approval_id <$> consumed (gt_trace x))) as Hf.
  { apply list_elem_of_filter. split; [done|]. apply list_elem_of_fmap. by exists a. }
  destruct (filter _ (approval_id <$> consumed _)); [by apply elem_of_nil in Hf|cbn in *; lia].
Qed.

(** C13: An effect is performed only when it requires the declared capability and
    was not replayed, at most once per run, and for a reviewed operation only
    after the approval of exactly its subject was verified and its use granted; a
    record follows the performance it tells of.  When each approval is granted one
    use, all reviewed runs under it perform at most once. *)
Theorem guard_performs_approved (rs : list GateRun) id : Forall gate_run rs -> NoDup (rs ≫= fun x => approval_id <$> consumed (gt_trace x)) ->
  length (filter (under_approval id) rs ≫= fun x => performances (gt_trace x)) <= 1 /\
  (forall x tr1 c y tr2, x ∈ rs -> gt_trace x = tr1 ++ existT c y :: tr2 -> guarded (gt_declaration x) (gt_context x) (gt_effect x) tr1 c).
Proof using Type.
  intros Hr Hn. split.
  - etrans; [by apply reviewed_bound|]. assert (filter (.= id) (rs ≫= fun x => approval_id <$> consumed (gt_trace x)) ⊆+ [id]) as Hs; [|by apply submseteq_length in Hs].
    apply NoDup_submseteq; [by apply NoDup_filter|]. intros i [-> _]%list_elem_of_filter. by apply list_elem_of_singleton.
  - intros x tr1 c y tr2 Hx Heq. eapply gate_run_guarded; [|exact Heq]. by eapply Forall_forall in Hr.
Qed.
End Gate.
