(* ===== verification/OperationSamples.v ===== *)
(** * Sample operations

    Journals over the trees of [DatumSamples]: an idempotent operation whose first
    attempt is seen to fail and whose second succeeds, and one with custody and a
    clock that is released. *)

From stdpp Require Import strings countable.
From S2P Require Import Prelude BTree KernelDatum DatumSamples OperationWire OperationData OperationCodec LifecycleRecord LifecycleInvariant LifecycleHistory LifecycleEngine LifecycleOnce OperationService ApprovalGate.

(** Trees in the order of their encodings. *)
Definition tree_le (s t : tree) : Prop := (encode s <= encode t)%positive.

#[export] Instance tree_le_dec : RelDecision tree_le.
Proof. intros s t. unfold tree_le. apply _. Defined.

#[export] Instance tree_le_po : PartialOrder tree_le.
Proof.
  unfold tree_le. split; [split|]; [intros t; lia|intros x y z; lia|]. intros x y Hxy Hyx. apply (inj encode). lia.
Qed.

#[export] Instance tree_le_total : Total tree_le.
Proof. intros x y. unfold tree_le. lia. Qed.

#[export] Instance tree_ord : OrdKey tree := {| ord_le := tree_le |}.

Record sample_entry := { se_sequence : N; se_kind : tree; se_payloads : list tree }.

(** Verified snapshots: entries with growing sequence numbers. *)
Record sample_snapshot := { ss_entries : list sample_entry; ss_ascending : bool_decide (StronglySorted N.lt (se_sequence <$> ss_entries)) = true }.

#[export] Instance sample_journal_data : JournalData sample_entry sample_snapshot tree tree tree tree unit := {|
  entry_sequence := se_sequence;
  entry_previous := fun e => if decide (se_sequence e = 0%N) then None else Some d_nil;
  entry_kind := se_kind;
  entry_payloads := se_payloads;
  entry_id := fun _ => d_nil;
  entries := ss_entries;
  head_sequence_entry := fun s => (fun e => (se_sequence e, d_nil)) <$> last (ss_entries s);
  datums := fun s => (fun t => (t, t)) <$> remove_dups (ss_entries s ≫= se_payloads);
  object_id := fun t => t;
  object_datum := fun t => t;
  object_verify := fun _ => Ok tt;
|}.

#[export] Instance sample_journal_writer : JournalWriter sample_entry tree tree tree tree unit := {|
  object_from_datum := Ok;
  entry_new := fun n _ k l => {| se_sequence := n; se_kind := k; se_payloads := l |};
|}.

#[export] Instance sample_journal_laws : JournalLaws sample_entry sample_snapshot tree tree tree tree unit.
Proof.
  split; try done.
  - intros s id d Hin. cbn in Hin. apply list_elem_of_fmap in Hin as (t & [= -> ->] & _). done.
  - intros s. pose proof (ss_ascending s) as Ha. by apply bool_decide_eq_true in Ha.
Qed.

Abbreviation Result A := (Res (OperationError tree unit) A).

Definition get {A} (default : A) (r : Result A) : A := match r with Ok a => a | _ => default end.

Definition sample_intent (p : ReplayPolicy) : OperationIntent tree tree := {| intent_id := intent_fields_datum "copy" d_nil (d_bool true) p;
  intent_operation := "copy"; target := d_nil; intended_result := d_bool true; replay_policy := p |}.

Definition op : tree := intent_id (sample_intent Idempotent).

Definition sample_grant : OperationGrant tree tree := get {| grant_id := d_nil; grant_operation := d_nil; capability := ""; authority := d_nil |} (new_grant op "fs" d_nil).

Definition no_lease : OperationLease tree tree := {| lease_id := d_nil; lease_operation := d_nil; holder := d_nil; lease_clock := None; fence := 0; acquired_at := 0; expires_at := 0 |}.

Definition sample_lease (fence acquired expires : N) (clock : option tree) : OperationLease tree tree :=
  get no_lease (let? l := new_lease op d_nil fence acquired expires in lease_in_clock l clock).

Definition sample_attempt (n : N) : OperationAttempt tree := get {| attempt_id := d_nil; attempt_operation := d_nil; ordinal := 0 |} (new_attempt op n).

Definition sample_dispatch (n : N) (l : OperationLease tree tree) : FencedDispatch tree tree :=
  get {| dispatch_id := d_nil; dispatch_operation := d_nil; dispatch_grant := d_nil; dispatch_attempt := d_nil; dispatch_lease := d_nil; performer := d_nil |}
    (new_dispatch op (grant_id sample_grant) (attempt_id (sample_attempt n)) (lease_id l) (d_string "performer")).

Definition sample_observation (d : option tree) (r : PostconditionResponse tree) (prep : option (LifecyclePreparation tree tree)) (rel : option (LifecycleRelease tree))
    (clock : option tree) (at_ : N) : OperationObservation tree tree :=
  get {| observation_id := d_nil; observation_operation := d_nil; observer := d_nil; response := r; observation_dispatch := None; observation_receipt := None;
         observation_preparation := None; observation_release := None; observation_clock := None; observation_reservation := None;
         last_durable_step := IntentPersisted; observed_at := 0; evidence := d_nil |}
    (new_observation {| rq_operation := op; rq_target := d_nil; rq_expected := d_bool true; rq_dispatch := d; rq_receipt := None; rq_preparation := prep;
       rq_reservation := None; rq_release := rel; rq_clock := clock; rq_last_durable_step := DispatchPersisted; rq_observed_at := at_ |} (d_string "observer") r).

Definition sample_outcome (o : OperationObservation tree tree) (v : OperationOutcome tree tree) : IdentifiedOutcome tree tree :=
  get {| outcome_id := d_nil; outcome_operation := d_nil; outcome_observation := d_nil; outcome_value := v |} (new_outcome op (observation_id o) v).

Definition entry (n : N) (kind : string) (payloads : list tree) : sample_entry :=
  {| se_sequence := n; se_kind := symbol_qualified "operation" kind; se_payloads := payloads |}.

(** An operation that is retried. *)
Definition first_lease := sample_lease 1 0 10 None.
Definition second_lease := sample_lease 2 10 20 None.
Definition first_dispatch := sample_dispatch 0 first_lease.
Definition second_dispatch := sample_dispatch 1 second_lease.
Definition failed := sample_observation (Some (dispatch_id first_dispatch)) (NotSatisfied (d_bool false) d_nil) None None None 12.
Definition succeeded := sample_observation (Some (dispatch_id second_dispatch)) (Satisfied (d_bool true) d_nil) None None None 15.

Definition retried_journal : list sample_entry :=
  [entry 0 "lifecycle-intent-persisted" [intent_datum (sample_intent Idempotent); grant_datum sample_grant];
   entry 1 "lifecycle-lease-acquired" [lease_datum first_lease];
   entry 2 "lifecycle-dispatch-persisted" [dispatch_datum first_dispatch; attempt_datum (sample_attempt 0)];
   entry 3 "lifecycle-observation-persisted" [stored_datum failed];
   entry 4 "lifecycle-lease-acquired" [lease_datum second_lease];
   entry 5 "lifecycle-dispatch-persisted" [dispatch_datum second_dispatch; attempt_datum (sample_attempt 1)];
   entry 6 "lifecycle-observation-persisted" [stored_datum succeeded];
   entry 7 "lifecycle-outcome-persisted" [outcome_datum (sample_outcome succeeded (Verified (evidence succeeded)))]].

Definition projected (l : list sample_entry) : Result (BTreeMap tree (OperationLifecycleRecord tree tree)) := project_entries l Ok.

Definition record_of (l : list sample_entry) : OperationLifecycleRecord tree tree :=
  match projected l with Ok m => default (new_record (sample_intent Idempotent) sample_grant 0) (m !! op) | _ => new_record (sample_intent Idempotent) sample_grant 0 end.

(** An operation prepared, released and cancelled while it runs. *)
Definition clock_lease := sample_lease 1 0 10 (Some (d_string "boot")).
Definition clock_dispatch := sample_dispatch 0 clock_lease.

Definition sample_preparation : LifecyclePreparation tree tree :=
  get {| preparation_id := d_nil; preparation_dispatch := d_nil; binding := d_nil; preparation_reservation := None |}
    (new_preparation (dispatch_id clock_dispatch) (d_string "slot")).

Definition sample_release : LifecycleRelease tree :=
  get {| release_id := d_nil; release_dispatch := d_nil; release_preparation := d_nil; release_lease := d_nil |}
    (new_release (dispatch_id clock_dispatch) (preparation_id sample_preparation) (lease_id clock_lease)).

Definition sample_cancellation : LifecycleCancellation tree tree :=
  get {| cancellation_id := d_nil; cancellation_operation := d_nil; cancellation_grant := d_nil; reason := d_nil |}
    (new_cancellation op (grant_id sample_grant) (d_string "stop")).

Definition released := sample_observation (Some (dispatch_id clock_dispatch)) (Satisfied (d_bool true) d_nil) (Some sample_preparation) (Some sample_release)
  (Some (d_string "boot")) 5.

Definition released_journal : list sample_entry :=
  [entry 0 "lifecycle-intent-persisted" [intent_datum (sample_intent Idempotent); grant_datum sample_grant];
   entry 1 "lifecycle-lease-acquired" [lease_datum clock_lease];
   entry 2 "lifecycle-dispatch-persisted" [dispatch_datum clock_dispatch; attempt_datum (sample_attempt 0)];
   entry 3 "lifecycle-preparation-persisted" [preparation_datum sample_preparation];
   entry 4 "lifecycle-release-intent-persisted" [release_datum sample_release]].

Definition after_release : list sample_entry :=
  [entry 5 "lifecycle-cancellation-intent-persisted" [cancellation_datum sample_cancellation];
   entry 6 "lifecycle-observation-persisted" [stored_datum released];
   entry 7 "lifecycle-outcome-persisted" [outcome_datum (sample_outcome released (Verified (evidence released)))]].

(** A projection that is accepted, with the record of the operation. *)
Lemma projected_Ok l : match projected l with Ok m => bool_decide (is_Some (m !! op)) | _ => false end = true ->
  exists m, project_entries l Ok = (Ok m : Result _) /\ m !! op = Some (record_of l).
Proof.
  unfold record_of, projected. destruct (project_entries l Ok) as [m| | |]; try done. intros [r Hr]%bool_decide_eq_true. exists m. by rewrite Hr.
Qed.

Lemma sample_ascending (l : list sample_entry) : bool_decide (StronglySorted N.lt (se_sequence <$> l)) = true -> StronglySorted N.lt (entry_sequence <$> l).
Proof. by intros ?%bool_decide_eq_true. Qed.

(** ** Witnesses *)

Lemma attempts_justified_witness : exists m, project_entries retried_journal Ok = (Ok m : Result _) /\ m !! op = Some (record_of retried_journal) /\
  ordinal <$> attempts (record_of retried_journal) = [0%N; 1%N] /\ negative_evidence (record_of retried_journal) first_dispatch.
Proof.
  destruct (projected_Ok retried_journal) as (m & Hm & Hr); [vm_compute; reflexivity|]. exists m. split; [exact Hm|]. split; [exact Hr|].
  assert (StronglySorted N.lt (entry_sequence <$> retried_journal)) as Ha by (apply sample_ascending; vm_compute; reflexivity).
  destruct (attempts_justified retried_journal Ok m op (record_of retried_journal) Ha Hm Hr) as (_ & Ho & _ & Hn).
  split; [rewrite Ho; vm_compute; reflexivity|]. apply (Hn 0 first_dispatch second_dispatch); vm_compute; reflexivity.
Defined.

Lemma leases_never_overlap_witness : exists m, project_entries retried_journal Ok = (Ok m : Result _) /\ m !! op = Some (record_of retried_journal) /\
  is_live_at first_lease 9 = true /\ is_live_at second_lease 9 = false.
Proof.
  destruct (projected_Ok retried_journal) as (m & Hm & Hr); [vm_compute; reflexivity|]. exists m. split; [exact Hm|]. split; [exact Hr|].
  assert (StronglySorted N.lt (entry_sequence <$> retried_journal)) as Ha by (apply sample_ascending; vm_compute; reflexivity).
  split; [vm_compute; reflexivity|]. 
  assert (leases (record_of retried_journal) !! 0 = Some first_lease) as H0 by (vm_compute; reflexivity).
  assert (leases (record_of retried_journal) !! 1 = Some second_lease) as H1 by (vm_compute; reflexivity).
  destruct (leases_never_overlap retried_journal Ok m op (record_of retried_journal) 0 1 first_lease second_lease 9 Ha Hm Hr H0 H1) as (_ & _ & Hl); [lia|].
  apply Hl. vm_compute. reflexivity.
Defined.

Lemma outcomes_justified_witness : exists m o, project_entries (released_journal ++ after_release) Ok = (Ok m : Result _) /\
  m !! op = Some (record_of (released_journal ++ after_release)) /\ last (observations (record_of (released_journal ++ after_release))) = Some o /\
  is_satisfied (response o) = true.
Proof.
  destruct (projected_Ok (released_journal ++ after_release)) as (m & Hm & Hr); [vm_compute; reflexivity|]. exists m.
  assert (StronglySorted N.lt (entry_sequence <$> released_journal ++ after_release)) as Ha by (apply sample_ascending; vm_compute; reflexivity).
  destruct (outcomes_justified (released_journal ++ after_release) Ok m op (record_of (released_journal ++ after_release))
    (sample_outcome released (Verified (evidence released))) Ha Hm Hr) as (o & Ho & _ & _ & Hv & _); [vm_compute; reflexivity|].
  exists o. split; [exact Hm|]. split; [exact Hr|]. by split.
Defined.

Lemma custody_bound_witness : exists m, project_entries released_journal Ok = (Ok m : Result _) /\ m !! op = Some (record_of released_journal) /\
  custody_inv (record_of released_journal) /\ releases (record_of released_journal) = [sample_release].
Proof.
  destruct (projected_Ok released_journal) as (m & Hm & Hr); [vm_compute; reflexivity|]. exists m. split; [exact Hm|]. split; [exact Hr|].
  assert (StronglySorted N.lt (entry_sequence <$> released_journal)) as Ha by (apply sample_ascending; vm_compute; reflexivity).
  split; [exact (custody_bound released_journal Ok m op (record_of released_journal) Ha Hm Hr)|]. vm_compute. reflexivity.
Defined.

Lemma journal_extends_witness : exists m1 m2 r', project_entries released_journal Ok = (Ok m1 : Result _) /\
  project_entries (released_journal ++ after_release) Ok = (Ok m2 : Result _) /\ m2 !! op = Some r' /\ extends (record_of released_journal) r'.
Proof.
  destruct (projected_Ok released_journal) as (m1 & Hm1 & Hr1); [vm_compute; reflexivity|].
  destruct (projected_Ok (released_journal ++ after_release)) as (m2 & Hm2 & Hr2); [vm_compute; reflexivity|].
  assert (StronglySorted N.lt (entry_sequence <$> released_journal ++ after_release)) as Ha by (apply sample_ascending; vm_compute; reflexivity).
  destruct (journal_extends released_journal after_release Ok m1 m2 op (record_of released_journal) Ha Hm1 Hm2 Hr1) as (r' & Hr' & He).
  exists m1, m2, r'. split; [exact Hm1|]. split; [exact Hm2|]. by split.
Defined.

Lemma dispatch_names_operation_witness : exists m, project_entries released_journal Ok = (Ok m : Result _) /\
  find_dispatch m (dispatch_id clock_dispatch) = Some (op, record_of released_journal).
Proof.
  destruct (projected_Ok released_journal) as (m & Hm & Hr); [vm_compute; reflexivity|]. exists m. split; [exact Hm|].
  assert (StronglySorted N.lt (entry_sequence <$> released_journal)) as Ha by (apply sample_ascending; vm_compute; reflexivity).
  assert (is_Some (find_dispatch m (dispatch_id clock_dispatch))) as [[k' r'] Hf].
  { assert (match projected released_journal with Ok m => bool_decide (is_Some (find_dispatch m (dispatch_id clock_dispatch))) | _ => false end = true) as Hx
      by (vm_compute; reflexivity). unfold projected in Hx. rewrite Hm in Hx. by apply bool_decide_eq_true in Hx. }
  destruct (dispatch_names_operation released_journal Ok m op (record_of released_journal) k' r' clock_dispatch Ha Hm Hr) as (-> & -> & _); [|exact Hf|exact Hf].
  assert (dispatches (record_of released_journal) = [clock_dispatch]) as -> by (vm_compute; reflexivity). by apply list_elem_of_singleton.
Defined.

Lemma operation_data_round_trip_witness : observation_from_datum (stored_datum released) = (Ok released : Result _) /\
  lease_from_datum (lease_datum clock_lease) = (Ok clock_lease : Result _).
Proof.
  destruct (operation_data_round_trip (Datum := tree) (Symbol := tree) (ContentId := tree) (JournalError := unit)) as (_ & _ & (Hl & _) & _ & Ho & _).
  split; [apply (codec_round_trip _ _ _ _ Ho)|apply (codec_round_trip _ _ _ _ Hl)].
  - split_and!; try (vm_compute; (reflexivity || discriminate)).
    + intros c Hc. vm_compute in Hc. injection Hc as <-. vm_compute. reflexivity.
    + intros _. vm_compute. by eexists.
  - split_and!; vm_compute; (reflexivity || discriminate).
Defined.

(** ** A run of the engine

    A journal that acknowledges every entry over its head, a performer that
    returns a receipt, and an observer that sees the effect once it was
    dispatched. *)

Abbreviation SampleCall := (Call (Datum := tree) (ContentId := tree) (JournalError := unit) (Entry := sample_entry) (Object := tree)).
Abbreviation SampleAnswer := (Answer (Datum := tree) (ContentId := tree) (JournalError := unit) (Entry := sample_entry) (Object := tree) (Snapshot := sample_snapshot)).

Definition extend_snapshot (s : sample_snapshot) (e : sample_entry) : option sample_snapshot :=
  match decide (bool_decide (StronglySorted N.lt (se_sequence <$> ss_entries s ++ [e])) = true) with
  | left H => Some {| ss_entries := ss_entries s ++ [e]; ss_ascending := H |}
  | right _ => None
  end.

Definition reply (c : SampleCall) (s : sample_snapshot) : SampleAnswer c * sample_snapshot :=
  match c return SampleAnswer c * sample_snapshot with
  | CAcquire => (Ok 1%N, s)
  | CSnapshot => (Ok s, s)
  | CPublish _ _ e => match extend_snapshot s e with Some s' => (Ok tt, s') | None => (Err tt, s) end
  | CPublishThen _ _ _ => (false, s)
  | CPublishEnd => (Err tt, s)
  | CClock => (Err InvalidLease, s)
  | CPerformerIdentity => (d_string "performer", s)
  | CObserverIdentity => (d_string "observer", s)
  | CObserve rq => (match rq_dispatch rq with Some _ => Satisfied (d_bool true) d_nil | None => NotSatisfied (d_bool false) d_nil end, s)
  | CPlanReservation _ => (Ok None, s)
  | CPrepareReserved _ _ => (Err InvalidLease, s)
  | CPrepare _ => (Ok None, s)
  | CAcknowledgementFailed _ _ => (Ok tt, s)
  | CPerform _ => (Some (d_string "receipt"), s)
  | CPerformPrepared _ _ => (Done (Ok None), s)
  | CAdmitted _ => (Done (Ok None), s)
  | CAction _ => (tt, s)
  | CRequestStop => (tt, s)
  end.

(** The first [n] calls of a program: it crashes after them. *)
Fixpoint drive {A} (n : nat) (p : Prog SampleAnswer A) (s : sample_snapshot) : list {c : SampleCall & SampleAnswer c} * sample_snapshot :=
  match p, n with
  | Ret _, _ | _, 0 => ([], s)
  | Ask c k, Datatypes.S n => let r := reply c s in let d := drive n (k r.1) r.2 in (existT c r.1 :: d.1, d.2)
  end.

Lemma drive_runs {A} (p : Prog SampleAnswer A) : forall n s, runs p (drive n p s).1.
Proof. induction p as [a|c k IH]; intros [|n] s; cbn; [done|done|by left|]. right. eexists _, _. split; [done|apply IH]. Qed.

Lemma reply_grows (c : SampleCall) s : ss_entries s `prefix_of` ss_entries (reply c s).2.
Proof.
  destruct c; cbn; try done. unfold extend_snapshot. case_decide; cbn; [by apply prefix_app_r|done].
Qed.

Lemma drive_grows {A} (p : Prog SampleAnswer A) : forall n s, ss_entries s `prefix_of` ss_entries (drive n p s).2.
Proof. induction p as [a|c k IH]; intros [|n] s; cbn; [done..|]. etrans; [apply reply_grows|apply IH]. Qed.

(** The entry whose publication an event acknowledges. *)
Definition acknowledges (ev : {c : SampleCall & SampleAnswer c}) : option sample_entry :=
  match ev with
  | existT c x =>
    match c return SampleAnswer c -> option sample_entry with
    | CPublish _ _ e => fun x => match x with Ok _ => Some e | _ => None end
    | _ => fun _ => None
    end x
  end.

Lemma reply_acknowledges (c : SampleCall) s e : acknowledges (existT c (reply c s).1) = Some e -> e ∈ ss_entries (reply c s).2.
Proof.
  destruct c; cbn; try done. unfold extend_snapshot. case_decide; cbn; [|done]. intros [= ->]. apply elem_of_app. right. by apply list_elem_of_singleton.
Qed.

Lemma drive_acknowledged {A} (p : Prog SampleAnswer A) : forall n s, acknowledged (drive n p s).1 (drive n p s).2.
Proof.
  induction p as [a|c k IH]; intros [|n] s head objects e Hin; cbn in Hin; [by apply elem_of_nil in Hin..|]. apply elem_of_cons in Hin as [Heq|Hin]; [|by eapply IH].
  apply (f_equal acknowledges) in Heq. symmetry in Heq. cbn. destruct (drive_grows (k (reply c s).1) n (reply c s).2) as [more Hm]. rewrite Hm.
  apply elem_of_app. left. by apply reply_acknowledges.
Qed.

(** The operation is accepted; one run performs it. *)
Definition accepted_journal : sample_snapshot :=
  {| ss_entries := [entry 0 "lifecycle-intent-persisted" [intent_datum (sample_intent Idempotent); grant_datum sample_grant]]; ss_ascending := eq_refl |}.

Definition sample_window : LeaseWindow tree := {| w_holder := d_nil; w_clock := None; w_acquired_at := 0; w_expires_at := 10 |}.

Definition sample_lifecycle : OperationLifecycle := {| lc_fence := Some 1%N; lc_clock := false |}.

Definition sample_program : Prog SampleAnswer (Result (OperationOutcome tree tree)) :=
  run_accepted 1 sample_lifecycle (sample_intent Idempotent) sample_grant sample_window.

(** It crashes right after it performed. *)
Definition performed := drive 14 sample_program accepted_journal.

Definition sample_run : Run (Entry := sample_entry) (Snapshot := sample_snapshot) (Object := tree) (JournalError := unit) :=
  {| run_admits := 1; run_lc := sample_lifecycle; run_intent := sample_intent Idempotent; run_grant := sample_grant; run_window := sample_window;
     run_trace := performed.1 |}.

Lemma effect_after_dispatch_witness : exists tr1 ev id, performed.1 = tr1 ++ [ev] /\ effect (projT1 ev) = Some id /\ effects tr1 = [] /\
  dispatched 1 (intent_id (sample_intent Idempotent)) tr1 id.
Proof.
  assert (exists ev id, performed.1 = take 13 performed.1 ++ [ev] /\ effect (projT1 ev) = Some id) as (ev & id & Heq & He).
  { assert (is_some (last performed.1 ≫= fun ev => effect (projT1 ev)) = true) as Hs by (vm_compute; reflexivity).
    destruct (last performed.1) as [ev|] eqn:El; [|discriminate Hs].
    cbn in Hs. apply is_some_true in Hs as [id Hid]. exists ev, id. split; [|exact Hid].
    apply last_snoc_Some in El as [l El]. assert (length performed.1 = 14) as Hlen by (vm_compute; reflexivity).
    rewrite El in Hlen |- *. rewrite length_app in Hlen. cbn in Hlen. rewrite take_app_length' by lia. done. }
  destruct (effect_after_dispatch sample_run 1 (take 13 performed.1) ev [] id eq_refl (drive_runs sample_program 14 accepted_journal) Heq He) as [Hn Hd].
  exists (take 13 performed.1), ev, id. split; [exact Heq|]. split; [exact He|]. by split.
Defined.

Lemma effects_bounded_witness : exists m r, project performed.2 = (Ok m : Result _) /\ m !! op = Some r /\
  length (all_effects [sample_run] op) = 1 /\ length (all_effects [sample_run] op) <= length (dispatches r).
Proof.
  assert (exists m r, project performed.2 = (Ok m : Result _) /\ m !! op = Some r) as (m & r & Hm & Hr).
  { assert (match (project performed.2 : Result _) with Ok m => is_some (m !! op) | _ => false end = true) as Hx by (vm_compute; reflexivity).
    destruct (project performed.2) as [m| | |]; try discriminate Hx. apply is_some_true in Hx as [r Hr]. by exists m, r. }
  exists m, r. split; [exact Hm|]. split; [exact Hr|]. split; [vm_compute; reflexivity|].
  apply (effects_bounded [sample_run] performed.2 m op r); [apply NoDup_singleton| |exact Hm|exact Hr].
  apply Forall_singleton. split; [by eexists|]. split; [exact (drive_runs sample_program 14 accepted_journal)|exact (drive_acknowledged sample_program 14 accepted_journal)].
Defined.

(** An operation that must run once, seen not to have succeeded while its lease
    is live. *)
Definition waiting_record : OperationLifecycleRecord tree tree :=
  MkRecord (sample_intent ExactlyOnce) sample_grant [first_lease] [sample_attempt 0] [first_dispatch] [] [] [] None []
    [sample_observation (Some (dispatch_id first_dispatch)) (NotSatisfied (d_bool false) d_nil) None None None 5] None ObservationPersisted 3 (Some 3%N).

Definition waiting : OperationObservation tree tree :=
  sample_observation (Some (dispatch_id first_dispatch)) (NotSatisfied (d_bool false) d_nil) None None None 5.

Lemma conclusions_accepted_witness : conclusion (sample_intent ExactlyOnce) waiting_record waiting = Uncertain ObservationPersisted /\
  ~ acceptable (JournalError := unit) waiting_record waiting (conclusion (sample_intent ExactlyOnce) waiting_record waiting).
Proof.
  split; [vm_compute; reflexivity|]. assert (meaningful waiting_record waiting) as Hm.
  { split; [vm_compute; reflexivity|]. intros value e Hv. vm_compute in Hv. injection Hv as <- <-. vm_compute. reflexivity. }
  destruct (conclusions_accepted (JournalError := unit) waiting_record waiting Hm eq_refl) as [Hc _]. intros Ha. apply Hc in Ha; [|discriminate].
  vm_compute in Ha. discriminate Ha.
Defined.

(** ** Sample runs of the service and of the gate

    A service that crashes between the performance and its receipt and is
    executed again, over the journals of [OperationSamples]; and two runs of a
    reviewed operation under one approval. *)

(** ** Driving programs *)

Section Drive.
Context {Call State : Type} {Answer : Call -> Type} (reply : forall c, State -> Answer c * State).

(** The first [n] calls of a program, the state after them, and the result when
    it has ended. *)
Fixpoint drive_with {A} (n : nat) (p : Prog Answer A) (s : State) : list {c : Call & Answer c} * State * option A :=
  match p, n with
  | Ret a, _ => ([], s, Some a)
  | Ask _ _, 0 => ([], s, None)
  | Ask c k, S n => let r := reply c s in let d := drive_with n (k r.1) r.2 in (existT c r.1 :: d.1.1, d.1.2, d.2)
  end.

Lemma drive_with_runs {A} (p : Prog Answer A) : forall n s, runs p (drive_with n p s).1.1.
Proof. induction p as [a|c k IH]; intros [|n] s; cbn; [done|done|by left|]. right. eexists _, _. split; [done|apply IH]. Qed.

Lemma drive_with_ends {A} (p : Prog Answer A) a : forall n s, (drive_with n p s).2 = Some a -> ends p (drive_with n p s).1.1 a.
Proof. induction p as [b|c k IH]; intros [|n] s; cbn; [by intros [= ->]..|done|]. intros Hn. eexists _, _. split; [done|by apply IH]. Qed.
End Drive.

(** ** The service *)

Abbreviation ServiceCalls := (ServiceCall (ContentId := tree) (Entry := sample_entry) (Object := tree)).
Abbreviation ServiceAnswers := (ServiceAnswer (Datum := tree) (ContentId := tree) (JournalError := unit) (Entry := sample_entry) (Object := tree) (Snapshot := sample_snapshot)).

Definition service_reply (c : ServiceCalls) (s : sample_snapshot) : ServiceAnswers c * sample_snapshot :=
  match c return ServiceAnswers c * sample_snapshot with
  | SAcquire => (Ok 1%N, s)
  | SSnapshot => (Ok s, s)
  | SHead => (Ok (head_sequence_entry s), s)
  | SPublish _ _ _ e => match extend_snapshot s e with Some s' => (Ok tt, s') | None => (Err tt, s) end
  | SPerform _ => (Some (d_string "receipt"), s)
  end.

Definition empty_journal : sample_snapshot := {| ss_entries := []; ss_ascending := eq_refl |}.

Definition execute_sample : Prog ServiceAnswers (Result (DurableOperationState tree)) :=
  service_execute (Some 1%N) (sample_intent Idempotent) sample_grant (sample_attempt 0).

(** The first run is cut after its performance. *)
Definition crashed_drive := drive_with service_reply 6 execute_sample empty_journal.
Definition second_drive := drive_with service_reply 20 execute_sample crashed_drive.1.2.
Definition whole_drive := drive_with service_reply 20 execute_sample empty_journal.

Definition service_sample (d : list {c : ServiceCalls & ServiceAnswers c} * sample_snapshot * option (Result (DurableOperationState tree))) : ServiceRun :=
  {| sr_lease := Some 1%N; sr_intent := sample_intent Idempotent; sr_grant := sample_grant; sr_attempt := sample_attempt 0; sr_trace := d.1.1 |}.

Definition service_accepts (s : sample_snapshot) : bool := match service_project s with Ok _ => true | _ => false end.

Lemma service_accepted s : service_accepts s = true -> exists m, service_project s = (Ok m : Result _).
Proof. unfold service_accepts. destruct (service_project s) as [m| | |]; try done. by exists m. Qed.


Definition final_state : DurableOperationState tree := match whole_drive.2 with Some (Ok st) => st | _ => DurableIntent d_nil end.

Lemma service_state_true_witness : match final_state with DurableReceipt _ _ => True | _ => False end /\
  exists m p, service_project whole_drive.1.2 = (Ok m : Result _) /\ m !! op = Some p /\ reached final_state p.
Proof.
  split; [vm_compute; exact I|]. destruct (service_accepted whole_drive.1.2) as [m Hm]; [vm_compute; reflexivity|].
  destruct (service_state_true (service_sample whole_drive) final_state whole_drive.1.2 m) as [[Hno _]|(_ & p & Hp & Hr)].
  - apply drive_with_ends. vm_compute. reflexivity.
  - assert ((acks (sr_trace (service_sample whole_drive)) : list sample_entry) = entries whole_drive.1.2) as -> by (vm_compute; reflexivity). done.
  - exact Hm.
  - exfalso. vm_compute in Hno. discriminate.
  - exists m, p. split; [exact Hm|]. split; [exact Hp|exact Hr].
Defined.

Definition dispatched_entries : list sample_entry := take 2 (entries whole_drive.1.2).
Definition receipt_entries : list sample_entry := drop 2 (entries whole_drive.1.2).

Lemma service_from_accepted (l : list sample_entry) :
  match service_from Ok ∅ l with Ok m => bool_decide (is_Some (m !! op)) | _ => false end = true ->
  exists m p, service_from Ok ∅ l = (Ok m : Result _) /\ m !! op = Some p.
Proof. destruct (service_from Ok ∅ l) as [m| | |]; try done. intros [p Hp]%bool_decide_eq_true. by exists m, p. Qed.

Lemma service_history_witness : exists m1 m2 p p', service_from Ok ∅ dispatched_entries = (Ok m1 : Result _) /\
  service_from Ok ∅ (dispatched_entries ++ receipt_entries) = (Ok m2 : Result _) /\ m1 !! op = Some p /\ m2 !! op = Some p' /\ grows p p'.
Proof.
  destruct (service_from_accepted dispatched_entries) as (m1 & p & E1 & Hp); [vm_compute; reflexivity|].
  destruct (service_from_accepted (dispatched_entries ++ receipt_entries)) as (m2 & q & E2 & _); [vm_compute; reflexivity|].
  destruct (service_history dispatched_entries receipt_entries Ok m1 m2 op p E1 E2 Hp) as (_ & _ & p' & Hp' & Hg).
  exists m1, m2, p, p'. split; [exact E1|]. split; [exact E2|]. split; [exact Hp|]. split; [exact Hp'|exact Hg].
Defined.

(** ** The gate *)

Abbreviation GateCalls := (GateCall (Ref := nat) (CapabilityName := nat) (Effect := list nat) (Error := unit)).
Abbreviation GateAnswers := (GateAnswer (Ref := nat) (CapabilityName := nat) (Effect := list nat) (Error := unit)).

Abbreviation GateResult := (Res (GateError (CapabilityName := nat) (Error := unit)) nat).

(** Every approval is good for one use. *)
Definition gate_reply (c : GateCalls) (used : list string) : GateAnswers c * list string :=
  match c return GateAnswers c * list string with
  | GResolve e => (ToPerform e, used)
  | GVerify _ => (Ok tt, used)
  | GConsume a => if decide (approval_id a ∈ used) then (Err (Foreign tt), used) else (Ok tt, approval_id a :: used)
  | GPerform _ => (Ok 7, used)
  | GRecord _ => (Ok tt, used)
  | GResolved r => (r, used)
  end.

Definition sample_declaration : OperationDeclaration (Ref := nat) (CapabilityName := nat) :=
  {| decl_operation := "write"; decl_subject := 3; decl_capability := 1; decl_mode := Reviewed |}.

Definition sample_gate : GateContext (Ref := nat) :=
  {| gc_approval := Some {| approval_id := "a1"; approval_subject := 3; decision := Approve |}; gc_sink_failure := FailClosed |}.

Definition guard_sample : Prog GateAnswers GateResult := guard_operation id sample_declaration [1] sample_gate.

Definition first_guard := drive_with gate_reply 10 guard_sample [].
Definition second_guard := drive_with gate_reply 10 guard_sample first_guard.1.2.

Definition gate_sample (d : list {c : GateCalls & GateAnswers c} * list string * option GateResult) : GateRun (Ref := nat) (CapabilityName := nat) (Effect := list nat) (Error := unit) :=
  {| gt_declaration := sample_declaration; gt_effect := [1]; gt_context := sample_gate; gt_trace := d.1.1 |}.

Lemma guard_performs_approved_witness :
  length (filter (under_approval "a1") [gate_sample first_guard; gate_sample second_guard] ≫= fun x => performances (gt_trace x)) <= 1 /\
  first_guard.2 = Some (Ok 7) /\ second_guard.2 = Some (Err (Foreign tt)).
Proof.
  split; [|split; vm_compute; reflexivity].
  apply (guard_performs_approved id [gate_sample first_guard; gate_sample second_guard] "a1").
  - apply Forall_cons. split; [exact (drive_with_runs gate_reply guard_sample 10 [])|].
    apply Forall_singleton. exact (drive_with_runs gate_reply guard_sample 10 first_guard.1.2).
  - vm_compute. repeat constructor; set_solver.
Defined.
