(* ===== verification/JvmTypes.v ===== *)
(** * Verification types and frames of the JVM profile

    crates/sim-lib-lang-jvm/src/verifier/types.rs, frame.rs and the lattice
    instances of environment_tests.rs: the types the verifier assigns to locals
    and operands, typed frames of slots in which a category-2 value takes two,
    and their joins.  On frames of one shape in which no half of a category-2
    value stands alone the join satisfies the laws of the dataflow engine. *)

From stdpp Require Import strings.
From S2P Require Import Prelude Lattice.

(** ** Types *)

Inductive VerificationTypeWidth := Category1 | Category2.

Inductive ReferenceType :=
| RtObject
| RtClass (name : string)
| RtArray (descriptor : string).

Inductive VerificationType :=
| VBottom | VInt | VFloat | VLong | VDouble | VNull
| VReference (r : ReferenceType)
| VUninitializedThis
| VUninitialized (site : N)
| VUnusable.

#[global] Instance width_eq_dec : EqDecision VerificationTypeWidth.
Proof. solve_decision. Defined.

#[global] Instance reference_eq_dec : EqDecision ReferenceType.
Proof. solve_decision. Defined.

#[global] Instance type_eq_dec : EqDecision VerificationType.
Proof. solve_decision. Defined.

Definition vtype_width (t : VerificationType) : option VerificationTypeWidth :=
  match t with
  | VLong | VDouble => Some Category2
  | VInt | VFloat | VNull | VReference _ | VUninitializedThis | VUninitialized _ => Some Category1
  | VBottom | VUnusable => None
  end.

Definition join_reference (left_ right_ : ReferenceType) : ReferenceType := if decide (left_ = right_) then left_ else RtObject.

Definition type_join (left_ right_ : VerificationType) : VerificationType :=
  match left_, right_ with
  | VBottom, value | value, VBottom => value
  | VUnusable, _ | _, VUnusable => VUnusable
  | _, _ =>
    if decide (left_ = right_) then left_
    else
      match left_, right_ with
      | VNull, VReference r | VReference r, VNull => VReference r
      | VReference a, VReference b => VReference (join_reference a b)
      | _, _ => VUnusable
      end
  end.

Definition type_less_equal (a b : VerificationType) : bool := bool_decide (type_join a b = b).

(** ** Frames *)

Inductive VerificationSlot :=
| SUnusable
| SValue (value : VerificationType)
| SCategory2Tail.

Inductive FrameKind := Locals | OperandStack.

Inductive FrameError := OutOfBounds | TruncatedCategory2 | WrongKind.

Inductive VerificationFrame :=
| FBottom (kind : FrameKind) (capacity : nat)
| FReachable (kind : FrameKind) (slots : list VerificationSlot).

Record VerificationState := { vs_locals : VerificationFrame; vs_stack : VerificationFrame }.

#[global] Instance slot_eq_dec : EqDecision VerificationSlot.
Proof. solve_decision. Defined.

#[global] Instance kind_eq_dec : EqDecision FrameKind.
Proof. solve_decision. Defined.

#[global] Instance frame_eq_dec : EqDecision VerificationFrame.
Proof. solve_decision. Defined.

#[global] Instance state_eq_dec : EqDecision VerificationState.
Proof. solve_decision. Defined.

Implicit Types (t : VerificationType) (f g : VerificationFrame) (slots : list VerificationSlot).

Definition new_frame (kind : FrameKind) (capacity : nat) : VerificationFrame := FReachable kind (replicate capacity SUnusable).

Definition frame_kind f : FrameKind := match f with FBottom k _ | FReachable k _ => k end.

Definition frame_capacity f : nat := match f with FBottom _ n => n | FReachable _ slots => length slots end.

Definition frame_get f (index : nat) : option VerificationType :=
  match f with
  | FReachable _ slots => match slots !! index with Some (SValue value) => Some value | _ => None end
  | FBottom _ _ => None
  end.

Definition normalized_slots f : option (list VerificationSlot) := match f with FReachable _ slots => Some slots | FBottom _ _ => None end.

Definition is_category2 (s : option VerificationSlot) : bool :=
  match s with Some (SValue value) => bool_decide (vtype_width value = Some Category2) | _ => false end.

(** The index is in range where this is used. *)
Definition invalidate_value_at slots (index : nat) : list VerificationSlot :=
  let slots := if is_category2 (slots !! index) && (index + 1 <? length slots)%nat then <[index + 1 := SUnusable]> slots else slots in
  <[index := SUnusable]> slots.

Definition set_local f (index : nat) (value : VerificationType) : Res FrameError VerificationFrame :=
  match f with
  | FBottom _ _ => Err OutOfBounds
  | FReachable kind slots =>
    if decide (kind <> Locals) then Err WrongKind
    else
      let? w := ok_or OutOfBounds (vtype_width value) in
      if (length slots <=? index)%nat then Err OutOfBounds
      else if bool_decide (w = Category2) && (length slots <=? index + 1)%nat then Err TruncatedCategory2
      else
        let overwrote_tail := bool_decide (slots !! index = Some SCategory2Tail) in
        let slots := invalidate_value_at slots index in
        let slots := if (0 <? index)%nat && overwrote_tail then invalidate_value_at slots (index - 1) else slots in
        let slots := <[index := SValue value]> slots in
        let slots := if decide (w = Category2) then <[index + 1 := SCategory2Tail]> (invalidate_value_at slots (index + 1)) else slots in
        Ok (FReachable kind slots)
  end.

(** [iter().position(..).unwrap_or(len)]. *)
Fixpoint first_unusable slots : nat :=
  match slots with
  | [] => 0
  | SUnusable :: _ => 0
  | _ :: slots => S (first_unusable slots)
  end.

Definition frame_push f (value : VerificationType) : Res FrameError VerificationFrame :=
  match f with
  | FBottom _ _ => Err OutOfBounds
  | FReachable kind slots =>
    if decide (kind <> OperandStack) then Err WrongKind
    else
      match vtype_width value with
      | None => Err OutOfBounds
      | Some w =>
        let width := match w with Category1 => 1 | Category2 => 2 end in
        let start := first_unusable slots in
        if (length slots <? start + width)%nat then Err TruncatedCategory2
        else
          let slots := <[start := SValue value]> slots in
          Ok (FReachable kind (if decide (width = 2) then <[start + 1 := SCategory2Tail]> slots else slots))
      end
  end.

Definition type_width t : nat := (if decide (vtype_width t = Some Category2) then 1 else 0) + 1.

(** [stack_values]: the values of the slots, bottom first. *)
Definition slots_values slots : list VerificationType := omap (fun s => match s with SValue value => Some value | _ => None end) slots.

Definition frame_values f : list VerificationType := match normalized_slots f with Some slots => slots_values slots | None => [] end.

Fixpoint push_values f (values : list VerificationType) : Res FrameError VerificationFrame :=
  match values with
  | [] => Ok f
  | value :: values => let? f := frame_push f value in push_values f values
  end.

Definition stack_from_values (capacity : nat) (values : list VerificationType) : Res FrameError VerificationFrame :=
  push_values (new_frame OperandStack capacity) values.

(** ** Joins *)

Definition slot_join (a b : VerificationSlot) : VerificationSlot :=
  match a, b with
  | SValue a, SValue b => SValue (type_join a b)
  | SCategory2Tail, SCategory2Tail => SCategory2Tail
  | _, _ => SUnusable
  end.

(** One turn of the loop of [normalize_category2]. *)
Definition normalize_at slots (index : nat) : list VerificationSlot :=
  let head_ := is_category2 (slots !! index) in
  let valid_head := head_ && bool_decide (slots !! (index + 1) = Some SCategory2Tail) in
  let valid_tail := (0 <? index)%nat && is_category2 (slots !! (index - 1)) in
  if head_ && negb valid_head || bool_decide (slots !! index = Some SCategory2Tail) && negb valid_tail
  then <[index := SUnusable]> slots else slots.

Definition normalize_category2 slots : list VerificationSlot := foldl normalize_at slots (seq 0 (length slots)).

Definition frame_join f g : VerificationFrame :=
  if bool_decide (frame_kind f <> frame_kind g) || bool_decide (frame_capacity f <> frame_capacity g)
  then new_frame (frame_kind f) (Nat.max (frame_capacity f) (frame_capacity g))
  else
    match normalized_slots f, normalized_slots g with
    | None, _ => g
    | _, None => f
    | Some l, Some r => FReachable (frame_kind f) (normalize_category2 (zip_with slot_join l r))
    end.

(** [size_of] of the types, which the language leaves open. *)
Class FrameLayout := { size_of_type : N; size_of_slot : N; size_of_frame : N; size_of_state : N }.

Section Instances.
Context `{FrameLayout}.

#[global] Instance type_lattice : JoinSemilattice VerificationType := {
  lattice_eq_dec := _;
  lattice_size := fun _ => size_of_type;
  bottom _ := VBottom;
  join := type_join;
  less_equal := type_less_equal;
}.

Definition frame_size f : N := (size_of_frame + N.of_nat (frame_capacity f) * size_of_slot)%N.

#[global] Instance frame_lattice : JoinSemilattice VerificationFrame := {
  lattice_eq_dec := _;
  lattice_size := frame_size;
  bottom f := FBottom (frame_kind f) (frame_capacity f);
  join := frame_join;
  less_equal f g := bool_decide (frame_join f g = g);
}.

#[global] Instance state_lattice : JoinSemilattice VerificationState := {
  lattice_eq_dec := _;
  lattice_size := fun s => (size_of_state + frame_size (vs_locals s) + frame_size (vs_stack s))%N;
  bottom s := {| vs_locals := bottom (vs_locals s); vs_stack := bottom (vs_stack s) |};
  join a b := {| vs_locals := join (vs_locals a) (vs_locals b); vs_stack := join (vs_stack a) (vs_stack b) |};
  less_equal a b := less_equal (vs_locals a) (vs_locals b) && less_equal (vs_stack a) (vs_stack b);
}.
End Instances.

(** ** Laws of the type join *)

Lemma type_join_idem t : type_join t t = t.
Proof. destruct t; cbn; try done; by rewrite decide_True. Qed.

Lemma type_join_comm a b : type_join a b = type_join b a.
Proof. destruct a, b; cbn; try done; repeat case_decide; simplify_eq; try done; unfold join_reference; repeat case_decide; congruence. Qed.

(** What a join above the bottom is. *)
Definition type_le a b : Prop :=
  a = b \/ a = VBottom \/ b = VUnusable \/ (a = VNull /\ exists r, b = VReference r) \/ ((exists r, a = VReference r) /\ b = VReference RtObject).

Lemma type_join_le a b : type_join a b = b <-> type_le a b.
Proof.
  unfold type_le. split.
  - destruct a, b; cbn; intros Hj; try (by left); try (by right; left); try (by right; right; left); try done;
      try (repeat case_decide; simplify_eq; tauto || naive_solver); unfold join_reference in *; repeat case_decide; simplify_eq; naive_solver.
  - intros [->|[->|[->|[[-> [r ->]]|[[r ->] ->]]]]]; [apply type_join_idem|by destruct b|by destruct a|done|].
    cbn. case_decide; [congruence|]. unfold join_reference. case_decide; congruence.
Qed.

Lemma type_le_trans a b c : type_le a b -> type_le b c -> type_le a c.
Proof. unfold type_le. naive_solver. Qed.

Lemma type_le_antisym a b : type_le a b -> type_le b a -> a = b.
Proof. unfold type_le. naive_solver. Qed.

Lemma type_join_ub a b : type_le a (type_join a b).
Proof.
  unfold type_le. destruct a, b; cbn; try (by auto); repeat case_decide; simplify_eq; try (by auto); try naive_solver; unfold join_reference; repeat case_decide; naive_solver.
Qed.

Lemma type_join_lub a b c : type_le a c -> type_le b c -> type_le (type_join a b) c.
Proof.
  unfold type_le. intros [->|[->|[->|[[-> [r ->]]|[[r ->] ->]]]]]; [| |by auto| |].
  - intros [->|[->|[->|[[-> [r ->]]|[[r ->] ->]]]]]; [rewrite type_join_idem; by auto|rewrite type_join_comm; by auto|by auto|by left|].
    left. cbn. case_decide; [done|]. unfold join_reference. by case_decide.
  - done.
  - intros [->|[->|[Hc|[[-> [r' Hc]]|[[r' ->] Hc]]]]]; simplify_eq; [by left|by right; right; right; left; eauto|by cbn; right; right; right; left; eauto|].
    cbn. right; right; right; right. eauto.
  - intros [->|[->|[Hc|[[-> [r' Hc]]|[[r' ->] Hc]]]]]; simplify_eq; cbn; [|by right; right; right; right; eauto|by right; right; right; right; eauto|].
    + case_decide; [by left; f_equal; congruence|]. unfold join_reference. case_decide; left; congruence.
    + case_decide; right; right; right; right; eauto.
Qed.

Lemma type_join_assoc a b c : type_join (type_join a b) c = type_join a (type_join b c).
Proof.
  assert (Hub : forall a b, type_le b (type_join a b)) by (intros; rewrite type_join_comm; apply type_join_ub).
  apply type_le_antisym; repeat apply type_join_lub; eauto using type_le_trans, type_join_ub.
Qed.

(** ** Well-formed slots *)

Record slots_wf slots : Prop := {
  sw_head : forall i t, slots !! i = Some (SValue t) -> vtype_width t = Some Category2 -> slots !! S i = Some SCategory2Tail;
  sw_tail : forall i, slots !! i = Some SCategory2Tail -> exists j t, i = S j /\ slots !! j = Some (SValue t) /\ vtype_width t = Some Category2;
  sw_bottom : forall i, slots !! i <> Some (SValue VBottom);
}.

Lemma is_category2_spec s : is_category2 s = true <-> exists t, s = Some (SValue t) /\ vtype_width t = Some Category2.
Proof. destruct s as [[]|]; cbn; try naive_solver. rewrite bool_decide_eq_true. naive_solver. Qed.

(** Without loose heads only loose tails are changed. *)
Definition normal_slot (previous : option VerificationSlot) (s : VerificationSlot) : VerificationSlot :=
  match s with SCategory2Tail => if is_category2 previous then s else SUnusable | _ => s end.

Definition before slots (i : nat) : option VerificationSlot := match i with 0 => None | S j => slots !! j end.

Lemma normalize_turns slots k : (forall i, is_category2 (slots !! i) = true -> slots !! S i = Some SCategory2Tail) ->
  let l := foldl normalize_at slots (seq 0 k) in
  length l = length slots /\ forall i, l !! i = if decide (i < k) then normal_slot (before slots i) <$> slots !! i else slots !! i.
Proof.
  intros Hh. induction k as [|k [Hl IH]]; cbn zeta; [split; [done|intros i; by rewrite decide_False by lia]|].
  rewrite seq_S, foldl_app, Nat.add_0_l. cbn [foldl]. set (l := foldl normalize_at slots (seq 0 k)) in *.
  assert (Hk : l !! k = slots !! k) by (rewrite IH, decide_False by lia; done).
  assert (Hk1 : l !! (k + 1) = slots !! S k) by (rewrite IH, decide_False by lia; f_equal; lia).
  assert (Hp : (0 <? k)%nat && is_category2 (l !! (k - 1)) = is_category2 (before slots k)).
  { destruct k as [|k]; [done|]. cbn [before]. replace (0 <? S k)%nat with true by done. rewrite andb_true_l. replace (S k - 1) with k by lia.
    rewrite IH, decide_True by lia. destruct (slots !! k) as [[]|]; cbn; try done. by destruct (is_category2 _). }
  assert (normalize_at l k = if decide (k < length slots) then <[k := default SUnusable (normal_slot (before slots k) <$> slots !! k)]> l else l) as ->.
  { unfold normalize_at. cbn zeta. rewrite Hp, Hk, Hk1. destruct (is_category2 (slots !! k)) eqn:Ec.
    - rewrite (Hh k Ec), (bool_decide_true (Some SCategory2Tail = _)) by done. apply is_category2_spec in Ec as (t & Es & Hw). rewrite Es. cbn.
      rewrite bool_decide_false by done. cbn. rewrite decide_True by by eapply lookup_lt_Some. symmetry. apply list_insert_id. by rewrite Hk.
    - cbn. destruct (slots !! k) as [s|] eqn:Es.
      + rewrite decide_True by by eapply lookup_lt_Some. destruct s; cbn.
        * symmetry. by apply list_insert_id.
        * symmetry. by apply list_insert_id.
        * destruct (is_category2 (before slots k)); cbn; [symmetry; by apply list_insert_id|done].
      + rewrite decide_False by (by apply lookup_ge_None in Es; lia). done. }
  split; [case_decide; [by rewrite length_insert|done]|]. intros i. case_decide as Hkl.
  - destruct (decide (i = k)) as [->|Hne].
    + rewrite list_lookup_insert_eq, decide_True by lia. destruct (slots !! k) eqn:Es; [done|]. apply lookup_ge_None in Es. lia.
    + rewrite list_lookup_insert_ne, IH by done. destruct (decide (i < k)), (decide (i < S k)); try lia; done.
  - rewrite IH. destruct (decide (i < k)), (decide (i < S k)); try lia; try done. replace i with k by lia. by rewrite lookup_ge_None_2 by lia.
Qed.

Lemma normalize_lookup slots : (forall i, is_category2 (slots !! i) = true -> slots !! S i = Some SCategory2Tail) ->
  length (normalize_category2 slots) = length slots /\ forall i, normalize_category2 slots !! i = normal_slot (before slots i) <$> slots !! i.
Proof.
  intros Hh. destruct (normalize_turns slots (length slots) Hh) as [Hl Hi]. split; [done|]. intros i. unfold normalize_category2. rewrite Hi.
  case_decide as Hlt; [done|]. by rewrite lookup_ge_None_2 by lia.
Qed.

(** A join of types is of category 2 only when both are the same. *)
Lemma type_join_category2 a b : vtype_width (type_join a b) = Some Category2 -> a <> VBottom -> b <> VBottom -> a = b.
Proof. destruct a, b; cbn; try done; repeat case_decide; done. Qed.

Lemma type_join_bottom a b : type_join a b = VBottom -> a = VBottom /\ b = VBottom.
Proof. destruct a, b; cbn; try done; repeat case_decide; done. Qed.

(** ** The join of slots *)

Definition slots_join (l r : list VerificationSlot) : list VerificationSlot := normalize_category2 (zip_with slot_join l r).

(** The slot of a join, by the slots at and before it. *)
Definition joined_slot (p q : option VerificationSlot) (a b : VerificationSlot) : VerificationSlot :=
  match a, b with SCategory2Tail, SCategory2Tail => if decide (p = q) then SCategory2Tail else SUnusable | _, _ => slot_join a b end.

Lemma zip_lookup l r i : zip_with slot_join l r !! i = match l !! i, r !! i with Some a, Some b => Some (slot_join a b) | _, _ => None end.
Proof. rewrite lookup_zip_with. by destruct (l !! i), (r !! i). Qed.

Lemma slot_join_category2 l r i : slots_wf l -> slots_wf r -> is_category2 (zip_with slot_join l r !! i) = true ->
  exists t, l !! i = Some (SValue t) /\ r !! i = Some (SValue t) /\ vtype_width t = Some Category2.
Proof.
  intros Hl Hr (t & Ht & Hw)%is_category2_spec. rewrite zip_lookup in Ht. destruct (l !! i) as [a|] eqn:El; [|done]. destruct (r !! i) as [b|] eqn:Er; [|done].
  injection Ht as Ht. destruct a as [|a|], b as [|b|]; try done. injection Ht as <-. pose proof (type_join_category2 a b Hw) as Heq.
  assert (a = b) as ->; [|exists b; by rewrite type_join_idem in Hw]. apply Heq; intros ->; [by eapply (sw_bottom _ Hl)|by eapply (sw_bottom _ Hr)].
Qed.

Lemma slots_join_lookup l r : slots_wf l -> slots_wf r -> length l = length r ->
  length (slots_join l r) = length l /\
  forall i, slots_join l r !! i = match l !! i, r !! i with Some a, Some b => Some (joined_slot (before l i) (before r i) a b) | _, _ => None end.
Proof.
  intros Hl Hr Hlen. destruct (normalize_lookup (zip_with slot_join l r)) as [Hn Hi].
  { intros i (t & E1 & E2 & Hw)%slot_join_category2; [|done..]. by rewrite zip_lookup, (sw_head _ Hl i t), (sw_head _ Hr i t). }
  split; [unfold slots_join; rewrite Hn, length_zip_with; lia|]. intros i. unfold slots_join. rewrite Hi, zip_lookup.
  destruct (l !! i) as [a|] eqn:El, (r !! i) as [b|] eqn:Er; try done. cbn. f_equal. destruct a, b; try done. cbn.
  destruct (sw_tail _ Hl i El) as (j & t & -> & Hj & Hw). destruct (sw_tail _ Hr _ Er) as (j' & t' & [= <-] & Hj' & Hw'). cbn. rewrite zip_lookup, Hj, Hj'. cbn.
  destruct (decide (t = t')) as [->|Hne].
  - rewrite type_join_idem, bool_decide_true, decide_True by done. done.
  - rewrite decide_False by congruence. case_bool_decide as Hc; [|done]. apply type_join_category2 in Hc; [done|..]; by intros ->.
Qed.

Lemma slots_join_wf l r : slots_wf l -> slots_wf r -> length l = length r -> slots_wf (slots_join l r).
Proof.
  intros Hl Hr Hlen. destruct (slots_join_lookup l r Hl Hr Hlen) as [_ Hi]. split.
  - intros i t. rewrite !Hi. destruct (l !! i) as [a|] eqn:El, (r !! i) as [b|] eqn:Er; try done. intros [= Ht] Hw. destruct a as [|a|], b as [|b|]; try done.
    + injection Ht as <-. apply type_join_category2 in Hw as Hab; [subst b|intros ->; by eapply (sw_bottom _ Hl)|intros ->; by eapply (sw_bottom _ Hr)].
      rewrite type_join_idem in Hw. rewrite (sw_head _ Hl i a), (sw_head _ Hr i a) by done. cbn. by rewrite El, Er, decide_True.
    + cbn in Ht. by case_decide.
  - intros i. rewrite Hi. destruct (l !! i) as [a|] eqn:El, (r !! i) as [b|] eqn:Er; try done. intros [= Ht]. destruct a, b; try done. cbn in Ht. case_decide as Hb; [|done].
    destruct (sw_tail _ Hl i El) as (j & t & -> & Hj & Hw). cbn in Hb. exists j, t. split; [done|]. rewrite Hi, Hj, <- Hb, Hj. cbn. by rewrite type_join_idem.
  - intros i. rewrite Hi. destruct (l !! i) as [a|] eqn:El, (r !! i) as [b|] eqn:Er; try done. intros [= Ht]. destruct a as [|a|], b as [|b|]; try done; cbn in Ht; [|by case_decide].
    injection Ht as [-> ->]%type_join_bottom. by eapply (sw_bottom _ Hl).
Qed.

Lemma slots_join_idem l : slots_wf l -> slots_join l l = l.
Proof.
  intros Hl. destruct (slots_join_lookup l l Hl Hl eq_refl) as [_ Hi]. apply list_eq. intros i. rewrite Hi. destruct (l !! i) as [[]|]; try done; cbn.
  - by rewrite type_join_idem.
  - by rewrite decide_True.
Qed.

Lemma slots_join_comm l r : slots_wf l -> slots_wf r -> length l = length r -> slots_join l r = slots_join r l.
Proof.
  intros Hl Hr Hlen. destruct (slots_join_lookup l r Hl Hr Hlen) as [_ H1]. destruct (slots_join_lookup r l Hr Hl (eq_sym Hlen)) as [_ H2].
  apply list_eq. intros i. rewrite H1, H2. destruct (l !! i) as [[]|], (r !! i) as [[]|]; try done; cbn.
  - by rewrite type_join_comm.
  - destruct (decide _), (decide _); congruence.
Qed.

(** Three tails stay a tail exactly when their heads agree. *)
Lemma joined_tails l r i : slots_wf l -> slots_wf r -> length l = length r -> l !! i = Some SCategory2Tail -> r !! i = Some SCategory2Tail ->
  (before l i = before r i /\ slots_join l r !! i = Some SCategory2Tail /\ before (slots_join l r) i = before l i) \/
  (before l i <> before r i /\ slots_join l r !! i = Some SUnusable).
Proof.
  intros Hl Hr Hlen El Er. destruct (slots_join_lookup l r Hl Hr Hlen) as [_ Hi]. rewrite Hi, El, Er. cbn. case_decide as Hb; [left|by right].
  split; [done|]. split; [done|]. destruct (sw_tail _ Hl i El) as (j & t & -> & Hj & _). cbn in *. rewrite Hi, Hj, <- Hb, Hj. cbn. by rewrite type_join_idem.
Qed.

Lemma slot_join_assoc a b c : slot_join (slot_join a b) c = slot_join a (slot_join b c).
Proof. destruct a, b, c; cbn; try done. by rewrite type_join_assoc. Qed.

Lemma slots_join_assoc l r c : slots_wf l -> slots_wf r -> slots_wf c -> length l = length r -> length r = length c ->
  slots_join (slots_join l r) c = slots_join l (slots_join r c).
Proof.
  intros Hl Hr Hc H1 H2. pose proof (slots_join_wf l r Hl Hr H1) as Hlr. pose proof (slots_join_wf r c Hr Hc H2) as Hrc.
  destruct (slots_join_lookup l r Hl Hr H1) as [L1 I1]. destruct (slots_join_lookup r c Hr Hc H2) as [L2 I2].
  destruct (slots_join_lookup (slots_join l r) c Hlr Hc ltac:(lia)) as [_ I3]. destruct (slots_join_lookup l (slots_join r c) Hl Hrc ltac:(lia)) as [_ I4].
  apply list_eq. intros i. rewrite I3, I4. specialize (I1 i). specialize (I2 i).
  destruct (l !! i) as [a|] eqn:Ea, (r !! i) as [b|] eqn:Eb, (c !! i) as [d|] eqn:Ed; rewrite ?I1, ?I2; try done. f_equal.
  destruct a, b, d; cbn; try done; try (by rewrite type_join_assoc); try (by case_decide).
  destruct (joined_tails l r i Hl Hr H1 Ea Eb) as [(B1 & J1 & P1)|(B1 & J1)]; destruct (joined_tails r c i Hr Hc H2 Eb Ed) as [(B2 & J2 & P2)|(B2 & J2)].
  - rewrite P1, P2, (decide_True (P := before l i = before r i)), (decide_True (P := before r i = before c i)) by done. cbn. by rewrite !decide_True by congruence.
  - rewrite P1, (decide_True (P := before l i = before r i)), (decide_False (P := before r i = before c i)) by done. cbn. by rewrite decide_False by congruence.
  - rewrite P2, (decide_False (P := before l i = before r i)), (decide_True (P := before r i = before c i)) by done. done.
  - by rewrite (decide_False (P := before l i = before r i)), (decide_False (P := before r i = before c i)) by done.
Qed.

(** ** Frames and states of one shape *)

Definition frame_ok (kind : FrameKind) (capacity : nat) f : Prop :=
  match f with
  | FBottom k n => k = kind /\ n = capacity
  | FReachable k slots => k = kind /\ length slots = capacity /\ slots_wf slots
  end.

Lemma frame_ok_shape k n f : frame_ok k n f -> frame_kind f = k /\ frame_capacity f = n.
Proof. destruct f; cbn; naive_solver. Qed.

Lemma frame_join_ok k n f g : frame_ok k n f -> frame_ok k n g -> frame_ok k n (frame_join f g).
Proof.
  intros Hf Hg. destruct (frame_ok_shape _ _ _ Hf), (frame_ok_shape _ _ _ Hg). unfold frame_join. rewrite !bool_decide_false by (by intros []; congruence). cbn.
  destruct f, g; cbn in *; try done. destruct Hf as (-> & Hl & Hw), Hg as (_ & Hl' & Hw'). split; [done|]. fold (slots_join slots slots0).
  split; [|by apply slots_join_wf; [..|congruence]]. destruct (slots_join_lookup slots slots0 Hw Hw') as [-> _]; congruence.
Qed.

(** The join of frames of one shape. *)
Lemma frame_join_shape k n f g : frame_ok k n f -> frame_ok k n g ->
  frame_join f g = match f, g with FBottom _ _, _ => g | _, FBottom _ _ => f | FReachable _ l, FReachable _ r => FReachable k (slots_join l r) end.
Proof.
  intros Hf Hg. destruct (frame_ok_shape _ _ _ Hf) as [Hk ?], (frame_ok_shape _ _ _ Hg). unfold frame_join. rewrite !bool_decide_false by (by intros []; congruence). cbn.
  destruct f, g; cbn in *; try done. by rewrite Hk.
Qed.

Section FrameLaws.
Context `{FrameLayout} (k : FrameKind) (n : nat).

Lemma frame_laws : LawsOn (frame_ok k n) (FBottom k n).
Proof.
  assert (Hb : frame_ok k n (FBottom k n)) by done.
  assert (Hidem : forall f, frame_ok k n f -> frame_join f f = f).
  { intros f Hf. rewrite (frame_join_shape k n) by done. destruct f; [done|]. destruct Hf as (-> & _ & Hw). by rewrite slots_join_idem. }
  assert (Hcomm : forall f g, frame_ok k n f -> frame_ok k n g -> frame_join f g = frame_join g f).
  { intros f g Hf Hg. rewrite !(frame_join_shape k n) by done. destruct f, g; cbn in *; [naive_solver|done..|].
    destruct Hf as (-> & Hl & Hw), Hg as (_ & Hl' & Hw'). by rewrite slots_join_comm by (done || congruence). }
  split; cbn; unfold less_equal, join; cbn.
  - exact Hidem.
  - intros a Ha. apply bool_decide_true. by rewrite (frame_join_shape k n).
  - intros a Ha. by rewrite (frame_join_shape k n).
  - intros a Ha. rewrite (frame_join_shape k n) by done. destruct a; [|done]. by destruct Ha as [-> ->].
  - intros a Ha. apply bool_decide_true. by apply Hidem.
  - exact Hcomm.
  - intros a b _ _. apply bool_decide_eq_true.
  - intros a b Ha Hb' H1%bool_decide_eq_true H2%bool_decide_eq_true. rewrite <- H1, Hcomm by done. symmetry. done.
  - intros a b c Ha Hb' Hc. rewrite (frame_join_shape k n (frame_join a b) c), (frame_join_shape k n a (frame_join b c)) by eauto using frame_join_ok. rewrite (frame_join_shape k n a b), (frame_join_shape k n b c) by done.
    destruct a, b, c; cbn in *; try done. destruct Ha as (-> & ? & ?), Hb' as (_ & ? & ?), Hc as (_ & ? & ?). by rewrite slots_join_assoc by (done || congruence).
Qed.
End FrameLaws.

(** ** Height *)

Definition type_height t : nat :=
  match t with VBottom => 0 | VNull => 1 | VReference r => if decide (r = RtObject) then 3 else 2 | VUnusable => 4 | _ => 3 end.

Definition slot_height (s : VerificationSlot) : nat := match s with SValue t => type_height t | SCategory2Tail => 0 | SUnusable => 5 end.

Definition frame_height f : nat := match f with FBottom _ _ => 0 | FReachable _ slots => S (sum_list_with slot_height slots) end.

Definition state_height (s : VerificationState) : nat := frame_height (vs_locals s) + frame_height (vs_stack s).

Lemma type_height_le a b : type_le a b -> type_height a <= type_height b /\ (type_height a = type_height b -> a = b).
Proof.
  unfold type_le. intros [->|[->|[->|[[-> [r ->]]|[[r ->] ->]]]]]; [done|destruct b|destruct a| |]; unfold type_height; repeat case_decide; split; try lia; try (intros; simplify_eq; done || lia).
Qed.

Lemma sum_strict (l r : list VerificationSlot) :
  Forall2 (fun a b => slot_height a <= slot_height b /\ (slot_height a = slot_height b -> a = b)) l r ->
  sum_list_with slot_height l <= sum_list_with slot_height r /\ (sum_list_with slot_height l = sum_list_with slot_height r -> l = r).
Proof. induction 1 as [|a b l r [H1 H2] _ [IH1 IH2]]; cbn; [done|]. split; [lia|]. intros Heq. rewrite H2, IH2 by lia. done. Qed.

Lemma slots_height l r : slots_wf l -> slots_wf r -> length l = length r -> slots_join l r = r ->
  Forall2 (fun a b => slot_height a <= slot_height b /\ (slot_height a = slot_height b -> a = b)) l r.
Proof.
  intros Hl Hr Hlen Hj. destruct (slots_join_lookup l r Hl Hr Hlen) as [_ Hi]. rewrite Hj in Hi. apply Forall2_same_length_lookup_2; [done|].
  intros i a b Ea Eb. specialize (Hi i). rewrite Ea, Eb in Hi. injection Hi as Hi. destruct a as [|a|], b as [|b|]; cbn in *; try done.
  - split; [|intros Hc]; destruct a; cbn in *; try case_decide; lia.
  - injection Hi as Hi. symmetry in Hi. apply type_join_le, type_height_le in Hi as [? Hh]. split; [done|]. intros Heq. f_equal. by apply Hh.
  - split; lia.
Qed.

Lemma slot_sum_max slots : sum_list_with slot_height slots <= 5 * length slots.
Proof. induction slots as [|s slots IH]; cbn [sum_list_with length]; [lia|]. assert (slot_height s <= 5); [|lia]. destruct s as [|t|]; cbn; try lia. destruct t; cbn; try case_decide; lia. Qed.

Lemma frame_height_le k n f g : frame_ok k n f -> frame_ok k n g -> frame_join f g = g ->
  frame_height f <= frame_height g <= 5 * n + 1 /\ (frame_height f = frame_height g -> f = g).
Proof.
  intros Hf Hg. rewrite (frame_join_shape k n) by done. destruct f as [|k1 l], g as [|k2 r]; cbn in *.
  - intros _. destruct Hf as [-> ->], Hg as [-> ->]. split; [lia|done].
  - intros _. destruct Hg as (-> & <- & _). pose proof (slot_sum_max r). split; [lia|done].
  - done.
  - destruct Hf as (-> & Hl & Hw), Hg as (-> & <- & Hw'). intros [= Hj]. destruct (sum_strict l r) as [H1 H2]; [by apply slots_height|].
    pose proof (slot_sum_max r). split; [lia|]. intros [= Heq]. by rewrite H2.
Qed.

Section StateLaws.
Context `{FrameLayout} (nl ns : nat).

Definition state_ok (s : VerificationState) : Prop := frame_ok Locals nl (vs_locals s) /\ frame_ok OperandStack ns (vs_stack s).

Definition bottom_state : VerificationState := {| vs_locals := FBottom Locals nl; vs_stack := FBottom OperandStack ns |}.

(** C35: On states of one method's shape in which no half of a category-2 value
    stands alone the join is a semilattice with the unreachable state as bottom,
    keeps the shape, and has chains of at most five steps per slot and one per
    frame. *)
Theorem verification_lattice : LawsOn state_ok bottom_state /\ (forall a b, state_ok a -> state_ok b -> state_ok (join a b)) /\
  (forall a b, state_ok a -> state_ok b -> less_equal a b = true -> a <> b -> state_height a < state_height b <= 5 * (nl + ns) + 2).
Proof.
  pose proof (frame_laws Locals nl) as HL. pose proof (frame_laws OperandStack ns) as HS. split; [|split].
  - split; cbn -[less_equal]; unfold less_equal; cbn; unfold state_ok.
    + intros [] [? ?]. cbn in *. f_equal; [by apply HL|by apply HS].
    + intros a [Ha Hb]. apply andb_true_intro. split; [by apply HL|by apply HS].
    + intros [] [? ?]. cbn in *. f_equal; [by apply HL|by apply HS].
    + intros [] [? ?]. cbn in *. f_equal; [by apply HL|by apply HS].
    + intros a [Ha Hb]. apply andb_true_intro. split; [by apply HL|by apply HS].
    + intros a b [] []. f_equal; [by apply HL|by apply HS].
    + intros [a1 a2] [b1 b2] _ _. rewrite andb_true_iff, !bool_decide_eq_true. cbn. split; [by intros [-> ->]|by intros [= -> ->]].
    + intros [a1 a2] [b1 b2] [] [] [E1 E2]%andb_prop [E3 E4]%andb_prop. cbn in *. f_equal; [by apply (laws_antisym _ _ HL)|by apply (laws_antisym _ _ HS)].
    + intros [a1 a2] [b1 b2] [c1 c2] [] [] []. cbn in *. f_equal; [by apply (laws_assoc _ _ HL)|by apply (laws_assoc _ _ HS)].
  - intros a b [] []. split; by apply frame_join_ok.
  - intros [a1 a2] [b1 b2] [Ha1 Ha2] [Hb1 Hb2] Hle Hne. unfold less_equal in Hle. cbn in Hle. apply andb_prop in Hle as [H1%bool_decide_eq_true H2%bool_decide_eq_true].
    cbn in *. destruct (frame_height_le _ _ _ _ Ha1 Hb1 H1) as [? E1]. destruct (frame_height_le _ _ _ _ Ha2 Hb2 H2) as [? E2]. unfold state_height. cbn.
    assert (frame_height a1 <> frame_height b1 \/ frame_height a2 <> frame_height b2); [|lia].
    destruct (decide (frame_height a1 = frame_height b1)) as [Hx|]; [|by left]. right. intros Hy. apply Hne. by rewrite (E1 Hx), (E2 Hy).
Qed.
End StateLaws.
