(* ===== verification/JvmCode.v ===== *)
(** * Prepared code of the JVM profile

    crates/sim-lib-lang-jvm/src/value.rs, code/model.rs, code/prepare.rs,
    verifier_rules_generated.rs and driver.rs: run-time values, the opcodes in
    the order of the generated tables, decoded and prepared instructions, and the
    preparation that lowers decoded code into frozen machine code.  The class-file
    codec is outside the repository: decoded code is an argument, and what its
    manifest says about an opcode is a parameter.  The targets of a prepared
    operand are the branch targets that the code was frozen with. *)

From stdpp Require Import gmap strings.
From S2P Require Import Prelude BTree MachineStack MachineCode MachineFrame ManagedNode JvmTypes.

(** ** Values *)

Inductive PrimitiveCategory := CInt | CFloat | CLong | CDouble.

Definition category_width (c : PrimitiveCategory) : nat := match c with CInt | CFloat => 1 | CLong | CDouble => 2 end.

Inductive ReturnCategory := CVoid | CPrimitive (c : PrimitiveCategory) | CReference.

Definition return_width (c : ReturnCategory) : nat := match c with CVoid => 0 | CPrimitive c => category_width c | CReference => 1 end.

(** [JvmReference]: the null reference is [None]. *)
Definition JvmReference := option ManagedId.

(** Integers are signed, floats are their bits; [K] are kernel values. *)
Inductive JvmValue (K : Type) :=
| Int (i : Z)
| Float (bits : Z)
| Long (i : Z)
| Double (bits : Z)
| Reference (r : JvmReference)
| Kernel (v : K).
Arguments Int {K}.
Arguments Float {K}.
Arguments Long {K}.
Arguments Double {K}.
Arguments Reference {K}.
Arguments Kernel {K}.

Definition logical_width {K} (v : JvmValue K) : nat :=
  match v with Long _ | Double _ => 2 | Int _ | Float _ | Reference _ | Kernel _ => 1 end.

#[export] Instance jvm_value_width K : ValueWidthPolicy (JvmValue K) := logical_width.

#[export] Instance visit_reference : ManagedRootSource ManagedId JvmReference := fun St r visit st =>
  match r with Some id => visit st id | None => (st, true) end.

#[export] Instance visit_jvm_value K : ManagedRootSource ManagedId (JvmValue K) := fun St v visit st =>
  match v with Reference r => visit_managed_roots r visit st | _ => (st, true) end.

(** ** Opcodes *)

Inductive Opcode :=
| Nop | AconstNull | IconstM1 | Iconst0 | Iconst1 | Iconst2 | Iconst3 | Iconst4 | Iconst5 | Lconst0 | Lconst1 | Fconst0 | Fconst1 | Fconst2 | Dconst0
| Dconst1 | Bipush | Sipush | Ldc | LdcW | Ldc2W | Iload | Lload | Fload | Dload | Aload | Iload0 | Iload1 | Iload2 | Iload3 | Lload0 | Lload1
| Lload2 | Lload3 | Fload0 | Fload1 | Fload2 | Fload3 | Dload0 | Dload1 | Dload2 | Dload3 | Aload0 | Aload1 | Aload2 | Aload3 | Iaload | Laload
| Faload | Daload | Aaload | Baload | Caload | Saload | Istore | Lstore | Fstore | Dstore | Astore | Istore0 | Istore1 | Istore2 | Istore3 | Lstore0
| Lstore1 | Lstore2 | Lstore3 | Fstore0 | Fstore1 | Fstore2 | Fstore3 | Dstore0 | Dstore1 | Dstore2 | Dstore3 | Astore0 | Astore1 | Astore2 | Astore3
| Iastore | Lastore | Fastore | Dastore | Aastore | Bastore | Castore | Sastore | Pop | Pop2 | Dup | DupX1 | DupX2 | Dup2 | Dup2X1 | Dup2X2 | Swap
| Iadd | Ladd | Fadd | Dadd | Isub | Lsub | Fsub | Dsub | Imul | Lmul | Fmul | Dmul | Idiv | Ldiv | Fdiv | Ddiv | Irem | Lrem | Frem | Drem | Ineg
| Lneg | Fneg | Dneg | Ishl | Lshl | Ishr | Lshr | Iushr | Lushr | Iand | Land | Ior | Lor | Ixor | Lxor | Iinc | I2l | I2f | I2d | L2i | L2f | L2d
| F2i | F2l | F2d | D2i | D2l | D2f | I2b | I2c | I2s | Lcmp | Fcmpl | Fcmpg | Dcmpl | Dcmpg | Ifeq | Ifne | Iflt | Ifge | Ifgt | Ifle | IfIcmpeq
| IfIcmpne | IfIcmplt | IfIcmpge | IfIcmpgt | IfIcmple | IfAcmpeq | IfAcmpne | Goto | Jsr | Ret | Tableswitch | Lookupswitch | Ireturn | Lreturn
| Freturn | Dreturn | Areturn | Return | Getstatic | Putstatic | Getfield | Putfield | Invokevirtual | Invokespecial | Invokestatic | Invokeinterface
| Invokedynamic | New | Newarray | Anewarray | Arraylength | Athrow | Checkcast | Instanceof | Monitorenter | Monitorexit | Wide | Multianewarray
| Ifnull | Ifnonnull | GotoW | JsrW | Breakpoint | ReservedCB | ReservedCC | ReservedCD | ReservedCE | ReservedCF | ReservedD0 | ReservedD1
| ReservedD2 | ReservedD3 | ReservedD4 | ReservedD5 | ReservedD6 | ReservedD7 | ReservedD8 | ReservedD9 | ReservedDA | ReservedDB | ReservedDC
| ReservedDD | ReservedDE | ReservedDF | ReservedE0 | ReservedE1 | ReservedE2 | ReservedE3 | ReservedE4 | ReservedE5 | ReservedE6 | ReservedE7
| ReservedE8 | ReservedE9 | ReservedEA | ReservedEB | ReservedEC | ReservedED | ReservedEE | ReservedEF | ReservedF0 | ReservedF1 | ReservedF2
| ReservedF3 | ReservedF4 | ReservedF5 | ReservedF6 | ReservedF7 | ReservedF8 | ReservedF9 | ReservedFA | ReservedFB | ReservedFC | ReservedFD
| Impdep1 | Impdep2.

(** The opcodes in the order of their bytes. *)
Definition OPCODES : list Opcode :=
  [Nop; AconstNull; IconstM1; Iconst0; Iconst1; Iconst2; Iconst3; Iconst4; Iconst5; Lconst0; Lconst1; Fconst0; Fconst1; Fconst2; Dconst0; Dconst1
   ; Bipush; Sipush; Ldc; LdcW; Ldc2W; Iload; Lload; Fload; Dload; Aload; Iload0; Iload1; Iload2; Iload3; Lload0; Lload1; Lload2; Lload3; Fload0
   ; Fload1; Fload2; Fload3; Dload0; Dload1; Dload2; Dload3; Aload0; Aload1; Aload2; Aload3; Iaload; Laload; Faload; Daload; Aaload; Baload; Caload
   ; Saload; Istore; Lstore; Fstore; Dstore; Astore; Istore0; Istore1; Istore2; Istore3; Lstore0; Lstore1; Lstore2; Lstore3; Fstore0; Fstore1; Fstore2
   ; Fstore3; Dstore0; Dstore1; Dstore2; Dstore3; Astore0; Astore1; Astore2; Astore3; Iastore; Lastore; Fastore; Dastore; Aastore; Bastore; Castore
   ; Sastore; Pop; Pop2; Dup; DupX1; DupX2; Dup2; Dup2X1; Dup2X2; Swap; Iadd; Ladd; Fadd; Dadd; Isub; Lsub; Fsub; Dsub; Imul; Lmul; Fmul; Dmul; Idiv
   ; Ldiv; Fdiv; Ddiv; Irem; Lrem; Frem; Drem; Ineg; Lneg; Fneg; Dneg; Ishl; Lshl; Ishr; Lshr; Iushr; Lushr; Iand; Land; Ior; Lor; Ixor; Lxor; Iinc
   ; I2l; I2f; I2d; L2i; L2f; L2d; F2i; F2l; F2d; D2i; D2l; D2f; I2b; I2c; I2s; Lcmp; Fcmpl; Fcmpg; Dcmpl; Dcmpg; Ifeq; Ifne; Iflt; Ifge; Ifgt; Ifle
   ; IfIcmpeq; IfIcmpne; IfIcmplt; IfIcmpge; IfIcmpgt; IfIcmple; IfAcmpeq; IfAcmpne; Goto; Jsr; Ret; Tableswitch; Lookupswitch; Ireturn; Lreturn
   ; Freturn; Dreturn; Areturn; Return; Getstatic; Putstatic; Getfield; Putfield; Invokevirtual; Invokespecial; Invokestatic; Invokeinterface
   ; Invokedynamic; New; Newarray; Anewarray; Arraylength; Athrow; Checkcast; Instanceof; Monitorenter; Monitorexit; Wide; Multianewarray; Ifnull
   ; Ifnonnull; GotoW; JsrW; Breakpoint; ReservedCB; ReservedCC; ReservedCD; ReservedCE; ReservedCF; ReservedD0; ReservedD1; ReservedD2; ReservedD3
   ; ReservedD4; ReservedD5; ReservedD6; ReservedD7; ReservedD8; ReservedD9; ReservedDA; ReservedDB; ReservedDC; ReservedDD; ReservedDE; ReservedDF
   ; ReservedE0; ReservedE1; ReservedE2; ReservedE3; ReservedE4; ReservedE5; ReservedE6; ReservedE7; ReservedE8; ReservedE9; ReservedEA; ReservedEB
   ; ReservedEC; ReservedED; ReservedEE; ReservedEF; ReservedF0; ReservedF1; ReservedF2; ReservedF3; ReservedF4; ReservedF5; ReservedF6; ReservedF7
   ; ReservedF8; ReservedF9; ReservedFA; ReservedFB; ReservedFC; ReservedFD; Impdep1; Impdep2].

(** [opcode as u8]. *)
Definition opcode_byte (o : Opcode) : nat :=
  match o with
  | Nop => 0 | AconstNull => 1 | IconstM1 => 2 | Iconst0 => 3 | Iconst1 => 4 | Iconst2 => 5 | Iconst3 => 6 | Iconst4 => 7 | Iconst5 => 8
  | Lconst0 => 9 | Lconst1 => 10 | Fconst0 => 11 | Fconst1 => 12 | Fconst2 => 13 | Dconst0 => 14 | Dconst1 => 15 | Bipush => 16 | Sipush => 17
  | Ldc => 18 | LdcW => 19 | Ldc2W => 20 | Iload => 21 | Lload => 22 | Fload => 23 | Dload => 24 | Aload => 25 | Iload0 => 26 | Iload1 => 27
  | Iload2 => 28 | Iload3 => 29 | Lload0 => 30 | Lload1 => 31 | Lload2 => 32 | Lload3 => 33 | Fload0 => 34 | Fload1 => 35 | Fload2 => 36
  | Fload3 => 37 | Dload0 => 38 | Dload1 => 39 | Dload2 => 40 | Dload3 => 41 | Aload0 => 42 | Aload1 => 43 | Aload2 => 44 | Aload3 => 45
  | Iaload => 46 | Laload => 47 | Faload => 48 | Daload => 49 | Aaload => 50 | Baload => 51 | Caload => 52 | Saload => 53 | Istore => 54
  | Lstore => 55 | Fstore => 56 | Dstore => 57 | Astore => 58 | Istore0 => 59 | Istore1 => 60 | Istore2 => 61 | Istore3 => 62 | Lstore0 => 63
  | Lstore1 => 64 | Lstore2 => 65 | Lstore3 => 66 | Fstore0 => 67 | Fstore1 => 68 | Fstore2 => 69 | Fstore3 => 70 | Dstore0 => 71 | Dstore1 => 72
  | Dstore2 => 73 | Dstore3 => 74 | Astore0 => 75 | Astore1 => 76 | Astore2 => 77 | Astore3 => 78 | Iastore => 79 | Lastore => 80 | Fastore => 81
  | Dastore => 82 | Aastore => 83 | Bastore => 84 | Castore => 85 | Sastore => 86 | Pop => 87 | Pop2 => 88 | Dup => 89 | DupX1 => 90 | DupX2 => 91
  | Dup2 => 92 | Dup2X1 => 93 | Dup2X2 => 94 | Swap => 95 | Iadd => 96 | Ladd => 97 | Fadd => 98 | Dadd => 99 | Isub => 100 | Lsub => 101
  | Fsub => 102 | Dsub => 103 | Imul => 104 | Lmul => 105 | Fmul => 106 | Dmul => 107 | Idiv => 108 | Ldiv => 109 | Fdiv => 110 | Ddiv => 111
  | Irem => 112 | Lrem => 113 | Frem => 114 | Drem => 115 | Ineg => 116 | Lneg => 117 | Fneg => 118 | Dneg => 119 | Ishl => 120 | Lshl => 121
  | Ishr => 122 | Lshr => 123 | Iushr => 124 | Lushr => 125 | Iand => 126 | Land => 127 | Ior => 128 | Lor => 129 | Ixor => 130 | Lxor => 131
  | Iinc => 132 | I2l => 133 | I2f => 134 | I2d => 135 | L2i => 136 | L2f => 137 | L2d => 138 | F2i => 139 | F2l => 140 | F2d => 141 | D2i => 142
  | D2l => 143 | D2f => 144 | I2b => 145 | I2c => 146 | I2s => 147 | Lcmp => 148 | Fcmpl => 149 | Fcmpg => 150 | Dcmpl => 151 | Dcmpg => 152
  | Ifeq => 153 | Ifne => 154 | Iflt => 155 | Ifge => 156 | Ifgt => 157 | Ifle => 158 | IfIcmpeq => 159 | IfIcmpne => 160 | IfIcmplt => 161
  | IfIcmpge => 162 | IfIcmpgt => 163 | IfIcmple => 164 | IfAcmpeq => 165 | IfAcmpne => 166 | Goto => 167 | Jsr => 168 | Ret => 169
  | Tableswitch => 170 | Lookupswitch => 171 | Ireturn => 172 | Lreturn => 173 | Freturn => 174 | Dreturn => 175 | Areturn => 176 | Return => 177
  | Getstatic => 178 | Putstatic => 179 | Getfield => 180 | Putfield => 181 | Invokevirtual => 182 | Invokespecial => 183 | Invokestatic => 184
  | Invokeinterface => 185 | Invokedynamic => 186 | New => 187 | Newarray => 188 | Anewarray => 189 | Arraylength => 190 | Athrow => 191
  | Checkcast => 192 | Instanceof => 193 | Monitorenter => 194 | Monitorexit => 195 | Wide => 196 | Multianewarray => 197 | Ifnull => 198
  | Ifnonnull => 199 | GotoW => 200 | JsrW => 201 | Breakpoint => 202 | ReservedCB => 203 | ReservedCC => 204 | ReservedCD => 205 | ReservedCE => 206
  | ReservedCF => 207 | ReservedD0 => 208 | ReservedD1 => 209 | ReservedD2 => 210 | ReservedD3 => 211 | ReservedD4 => 212 | ReservedD5 => 213
  | ReservedD6 => 214 | ReservedD7 => 215 | ReservedD8 => 216 | ReservedD9 => 217 | ReservedDA => 218 | ReservedDB => 219 | ReservedDC => 220
  | ReservedDD => 221 | ReservedDE => 222 | ReservedDF => 223 | ReservedE0 => 224 | ReservedE1 => 225 | ReservedE2 => 226 | ReservedE3 => 227
  | ReservedE4 => 228 | ReservedE5 => 229 | ReservedE6 => 230 | ReservedE7 => 231 | ReservedE8 => 232 | ReservedE9 => 233 | ReservedEA => 234
  | ReservedEB => 235 | ReservedEC => 236 | ReservedED => 237 | ReservedEE => 238 | ReservedEF => 239 | ReservedF0 => 240 | ReservedF1 => 241
  | ReservedF2 => 242 | ReservedF3 => 243 | ReservedF4 => 244 | ReservedF5 => 245 | ReservedF6 => 246 | ReservedF7 => 247 | ReservedF8 => 248
  | ReservedF9 => 249 | ReservedFA => 250 | ReservedFB => 251 | ReservedFC => 252 | ReservedFD => 253 | Impdep1 => 254 | Impdep2 => 255
  end.

Lemma opcode_byte_spec o : OPCODES !! opcode_byte o = Some o.
Proof. by destruct o. Qed.

#[global] Instance opcode_byte_inj : Inj eq eq opcode_byte.
Proof. intros a b Hab. pose proof (opcode_byte_spec a) as Ha. rewrite Hab, opcode_byte_spec in Ha. congruence. Qed.

#[global] Instance opcode_eq_dec : EqDecision Opcode.
Proof. intros a b. destruct (decide (opcode_byte a = opcode_byte b)) as [Heq|Hne]; [left; by apply opcode_byte_inj|right; by intros ->]. Defined.

Inductive PreparedDispatchFamily := FStorage | FNumeric | FControl | FObject.

Definition PREPARED_DISPATCH : list (option PreparedDispatchFamily) :=
  replicate 96 (Some FStorage) ++ replicate 36 (Some FNumeric) ++ [Some FStorage] ++ replicate 20 (Some FNumeric) ++ replicate 15 (Some FControl) ++
  replicate 2 None ++ replicate 8 (Some FControl) ++ replicate 18 (Some FObject) ++ [Some FStorage; Some FObject] ++ replicate 3 (Some FControl) ++ replicate 55 None.

(** What the manifest of the codec says about an opcode. *)
Class OpcodeManifest := { opcode_mnemonic : Opcode -> string; opcode_control : Opcode -> string }.

(** ** Decoded code *)

Inductive InstructionOperand :=
| OImmediate (z : Z) | OLocal (slot : nat) | OConstant (index : N) | OBranch (displacement : Z)
| OTableLow (z : Z) | OTableHigh (z : Z) | OLookupKey (z : Z) | OCount (n : N) | ODimensions (n : N) | OArrayType (n : N).

Record Instruction := { in_opcode : Opcode; in_wide : bool; in_operands : list InstructionOperand }.

(** [DecodedCode] of the codec: located instructions, and the instruction at an
    offset. *)
Record DecodedInstruction := { di_id : N; di_offset : N; di_instruction : Instruction }.

Record DecodedCode := { dc_instructions : list DecodedInstruction; dc_offsets : gmap N N }.

Record CodeException := { ce_start_pc : N; ce_end_pc : N; ce_handler_pc : N; ce_catch_type : N }.

(** ** Prepared instructions *)

Inductive JvmSlotKind := CategoryOne | CategoryTwo | KReference.

#[global] Instance slot_kind_eq_dec : EqDecision JvmSlotKind.
Proof. solve_decision. Defined.

Definition slot_kind_width (k : JvmSlotKind) : nat := match k with CategoryOne | KReference => 1 | CategoryTwo => 2 end.

Record RootEffect := { re_removed : nat; re_added : nat }.

Record JvmInstructionSemantics := { sem_pops : list JvmSlotKind; sem_pushes : list JvmSlotKind; sem_safepoint : bool }.

Definition sem_input_width (s : JvmInstructionSemantics) : nat := sum_list_with slot_kind_width (sem_pops s).

Definition sem_output_width (s : JvmInstructionSemantics) : nat := sum_list_with slot_kind_width (sem_pushes s).

Definition sem_root_effect (s : JvmInstructionSemantics) : RootEffect :=
  {| re_removed := length (filter (fun k => k = KReference) (sem_pops s)); re_added := length (filter (fun k => k = KReference) (sem_pushes s)) |}.

(** Layouts of a shuffle: widths of the topmost values, and the values put back. *)
Abbreviation shuffle_choices := (list (list nat * list nat)).

Inductive PreparedJvmOperands :=
| PNone
| PImmediate (z : Z)
| PConstantSite (index : N)
| PLocal (slot : nat)
| PIncrement (slot : nat) (amount : Z)
| PDirect (target : N)
| PTable (low : Z) (default_ : N) (targets : list N)
| PLookup (default_ : N) (pairs : list (Z * N))
| PShuffle (choices : shuffle_choices)
| POther (operands : list InstructionOperand).

Record PreparedCatchEntry := { pc_row : nat; pc_start : N; pc_end : option N; pc_handler : N; pc_catch_type : N }.

Inductive PreparedValueGuarantee := GInt | GFloat | GLong | GDouble | GNull | GReference (r : ReferenceType) | GUninitialized.

Record PreparedVerificationGuarantee := {
  pg_stack_width : nat;
  pg_local_width : nat;
  pg_stack : list PreparedValueGuarantee;
  pg_locals : list (nat * PreparedValueGuarantee);
  pg_targets : list N;
  pg_handlers : list PreparedCatchEntry;
}.

Inductive PreparedMicroOp := Checked | Verified (g : PreparedVerificationGuarantee).

(** [ClassSpaceRevision]. *)
Record ClassSpaceRevision := { rev_loader : N; rev_number : N }.

#[global] Instance revision_eq_dec : EqDecision ClassSpaceRevision.
Proof. solve_decision. Defined.

Record PreparedCodeIdentity := { ident_content : list N; ident_revision : ClassSpaceRevision }.

Definition identity_matches (i : PreparedCodeIdentity) (code : list N) (revision : ClassSpaceRevision) : bool :=
  bool_decide (ident_content i = code) && bool_decide (ident_revision i = revision).

Record PreparedJvmInstruction := {
  pi_id : N;
  pi_opcode : Opcode;
  pi_dispatch : PreparedDispatchFamily;
  pi_instruction : Instruction;
  pi_input_width : nat;
  pi_output_width : nat;
  pi_root_effect : RootEffect;
  pi_operands : PreparedJvmOperands;
  pi_work_charge : nat;
  pi_code_identity : option PreparedCodeIdentity;
  pi_handler_membership : list PreparedCatchEntry;
  pi_handler_entries : list nat;
  pi_micro_op : PreparedMicroOp;
}.

#[export] Instance prepared_jvm_policy : InstructionPolicy PreparedJvmInstruction N := pi_id.

Definition shuffle_descriptor (o : Opcode) : option shuffle_choices :=
  match o with
  | Pop => Some [([1], [])]
  | Pop2 => Some [([2], []); ([1; 1], [])]
  | Dup => Some [([1], [0; 0])]
  | DupX1 => Some [([1; 1], [1; 0; 1])]
  | DupX2 => Some [([2; 1], [1; 0; 1]); ([1; 1; 1], [2; 0; 1; 2])]
  | Dup2 => Some [([2], [0; 0]); ([1; 1], [0; 1; 0; 1])]
  | Dup2X1 => Some [([1; 2], [1; 0; 1]); ([1; 1; 1], [1; 2; 0; 1; 2])]
  | Dup2X2 => Some [([2; 2], [1; 0; 1]); ([1; 1; 2], [2; 0; 1; 2]); ([2; 1; 1], [1; 2; 0; 1; 2]); ([1; 1; 1; 1], [2; 3; 0; 1; 2; 3])]
  | Swap => Some [([1; 1], [1; 0])]
  | _ => None
  end.

(** ** Preparation *)

Definition u32_max : Z := 4294967295.

Section Prepare.
Context {Origin SourceId CodecError ClassDefinitionId Dependency : Type} `{KernelOrigin Origin SourceId} `{OpcodeManifest} `{EqDecision ClassDefinitionId}.

(** The origin of a byte range, and the codec's check of the handler table. *)
Context (byte_origin : SourceId -> nat -> nat -> Origin).
Context (validate_exception_handlers : DecodedCode -> nat -> list (N * N * N) -> Res CodecError unit).

Inductive PreparationError :=
| Classfile (e : CodecError)
| InvalidTarget (offset : N)
| MissingInstructionPolicy (opcode : Opcode) (mnemonic : string) (offset : N)
| UnsupportedOpcode (opcode : Opcode) (offset : N)
| BranchOffsetOverflow (instruction offset : N) (displacement : Z)
| Machine (e : CodeError N).

Implicit Types (decoded : DecodedCode) (located : DecodedInstruction).

(** The instruction a displacement leads to. *)
Definition displaced decoded located (displacement : Z) : Res PreparationError N :=
  let offset := (Z.of_N (di_offset located) + displacement)%Z in
  if ((0 <=? offset) && (offset <=? u32_max))%Z then ok_or (InvalidTarget (Z.to_N offset)) (dc_offsets decoded !! Z.to_N offset)
  else Err (BranchOffsetOverflow (di_id located) (di_offset located) displacement).

(** A fallible [map] collected into a [Result]. *)
Fixpoint collect {E A B} (f : A -> Res E B) (l : list A) : Res E (list B) :=
  match l with
  | [] => Ok []
  | x :: l => let? y := f x in let? ys := collect f l in Ok (y :: ys)
  end.

Definition branch_of (o : InstructionOperand) : option Z := match o with OBranch d => Some d | _ => None end.

Definition targets_for_instruction decoded located : Res PreparationError (list N) :=
  collect (displaced decoded located) (omap branch_of (in_operands (di_instruction located))).

(** [chunks_exact(2)] with the pairs of a lookup switch; [None] when a chunk is no
    such pair. *)
Fixpoint lookup_chunks (l : list InstructionOperand) : option (list (Z * Z)) :=
  match l with
  | [] | [_] => Some []
  | OLookupKey key :: OBranch d :: l => cons (key, d) <$> lookup_chunks l
  | _ => None
  end.

Definition table_target decoded located (o : InstructionOperand) : Res PreparationError N :=
  match o with OBranch d => displaced decoded located d | _ => Panic end.

Definition prepare_lookup decoded located (d : Z) (rest : list InstructionOperand) : Res PreparationError PreparedJvmOperands :=
  match lookup_chunks rest with
  | Some pairs =>
    let? pairs := collect (fun kd : Z * Z => let? t := displaced decoded located kd.2 in Ok (kd.1, t)) pairs in
    let? default_ := displaced decoded located d in
    Ok (PLookup default_ pairs)
  | None => Ok (POther (in_operands (di_instruction located)))
  end.

Definition prepare_operands decoded located : Res PreparationError PreparedJvmOperands :=
  let opcode := in_opcode (di_instruction located) in
  match in_operands (di_instruction located) with
  | [] => Ok (match shuffle_descriptor opcode with Some choices => PShuffle choices | None => PNone end)
  | [OImmediate z] => Ok (PImmediate z)
  | [OConstant index] => Ok (PConstantSite index)
  | [OLocal slot] => Ok (PLocal slot)
  | [OLocal slot; OImmediate amount] => Ok (PIncrement slot amount)
  | [OBranch d] => if decide (opcode <> Lookupswitch) then let? t := displaced decoded located d in Ok (PDirect t) else prepare_lookup decoded located d []
  | OBranch d :: OTableLow low :: OTableHigh _ :: rest =>
    let? default_ := displaced decoded located d in
    let? targets := collect (table_target decoded located) rest in
    Ok (PTable low default_ targets)
  | OBranch d :: rest => prepare_lookup decoded located d rest
  | operands => Ok (POther operands)
  end.

(** ** Guarantees of the verifier *)

Record ClassVerificationProof := {
  cp_owner : ClassDefinitionId;
  cp_owner_revision : ClassSpaceRevision;
  cp_policy : N;
  cp_structural : N;
  cp_methods : list (string * N);
  cp_dependencies : list Dependency;
  cp_identity : N;
}.

Record VerificationPreparation := {
  vp_proof : ClassVerificationProof;
  vp_owner : ClassDefinitionId;
  vp_revision : ClassSpaceRevision;
  vp_policy : N;
  vp_structural : N;
  vp_method : string;
  vp_method_proof : N;
  vp_frames : list (N * VerificationState);
}.

Definition value_guarantee (t : VerificationType) : option PreparedValueGuarantee :=
  match t with
  | VInt => Some GInt | VFloat => Some GFloat | VLong => Some GLong | VDouble => Some GDouble | VNull => Some GNull
  | VReference r => Some (GReference r)
  | VUninitializedThis | VUninitialized _ => Some GUninitialized
  | VBottom | VUnusable => None
  end.

Definition frame_guarantees (f : VerificationFrame) : option (list (nat * PreparedValueGuarantee)) :=
  match f with
  | FBottom _ _ => None
  | FReachable _ _ =>
    mapM (fun st : nat * VerificationType => pair st.1 <$> value_guarantee st.2) (omap (fun slot => pair slot <$> frame_get f slot) (seq 0 (frame_capacity f)))
  end.

Definition lower_guarantee (state : VerificationState) (targets : list N) (handlers : list PreparedCatchEntry) : option PreparedVerificationGuarantee :=
  match frame_guarantees (vs_stack state), frame_guarantees (vs_locals state) with
  | Some stack, Some locals =>
    Some {| pg_stack_width := sum_list_with (fun x : nat * PreparedValueGuarantee => match x.2 with GLong | GDouble => 2 | _ => 1 end) stack;
            pg_local_width := frame_capacity (vs_locals state);
            pg_stack := stack.*2; pg_locals := locals; pg_targets := targets; pg_handlers := handlers |}
  | _, _ => None
  end.

Definition select_micro_op (verification : option VerificationPreparation) (instruction : N) (targets : list N) (handlers : list PreparedCatchEntry) : PreparedMicroOp :=
  match verification with
  | None => Checked
  | Some v =>
    let proof := vp_proof v in
    let exact := bool_decide (cp_owner proof = vp_owner v) && bool_decide (cp_owner_revision proof = vp_revision v) && bool_decide (cp_policy proof = vp_policy v) &&
      bool_decide (cp_structural proof = vp_structural v) && existsb (fun m => bool_decide (m.1 = vp_method v) && bool_decide (m.2 = vp_method_proof v)) (cp_methods proof) in
    if negb exact then Checked
    else
      match List.find (fun f => bool_decide (f.1 = instruction)) (vp_frames v) with
      | None => Checked
      | Some (_, state) => match lower_guarantee state targets handlers with Some g => Verified g | None => Checked end
      end
  end.

(** ** Lowering *)

Definition handler_membership decoded (table : list CodeException) located : Res PreparationError (list PreparedCatchEntry) :=
  collect (fun re : nat * CodeException =>
    let? start_ := expect (dc_offsets decoded !! ce_start_pc re.2) in
    let? handler := expect (dc_offsets decoded !! ce_handler_pc re.2) in
    Ok {| pc_row := re.1; pc_start := start_; pc_end := dc_offsets decoded !! ce_end_pc re.2; pc_handler := handler; pc_catch_type := ce_catch_type re.2 |})
    (filter (fun re : nat * CodeException => (ce_start_pc re.2 <= di_offset located)%N /\ (di_offset located < ce_end_pc re.2)%N) (imap pair table)).

Definition handler_entries (table : list CodeException) located : list nat :=
  omap (fun re : nat * CodeException => if decide (ce_handler_pc re.2 = di_offset located) then Some re.1 else None) (imap pair table).

(** The targets handed to [freeze]. *)
Definition byte_targets (source : SourceId) located : Res PreparationError (list (BranchTarget N SourceId)) :=
  collect (fun d =>
    let target := (Z.of_N (di_offset located) + d)%Z in
    if (0 <=? target)%Z then Ok {| bt_from := di_id located; bt_to := ToByte source (Z.to_nat target) |}
    else Err (BranchOffsetOverflow (di_id located) (di_offset located) d)) (omap branch_of (in_operands (di_instruction located))).

Definition prepare_instruction (semantics : Opcode -> option JvmInstructionSemantics) decoded (code_length : nat) (table : list CodeException) (source : SourceId)
    (identity : option PreparedCodeIdentity) (verification : option VerificationPreparation) (index : nat) located :
    Res PreparationError (LocatedInstruction PreparedJvmInstruction N Origin * list (BranchTarget N SourceId)) :=
  let opcode := in_opcode (di_instruction located) in
  let? dispatch := ok_or (UnsupportedOpcode opcode (di_offset located)) (mjoin (PREPARED_DISPATCH !! opcode_byte opcode)) in
  let? sem := ok_or (MissingInstructionPolicy opcode (opcode_mnemonic opcode) (di_offset located)) (semantics opcode) in
  let end_ := match dc_instructions decoded !! S index with Some next => N.to_nat (di_offset next) | None => code_length end in
  let? membership := handler_membership decoded table located in
  let? operands := prepare_operands decoded located in
  let? instruction_targets := targets_for_instruction decoded located in
  let prepared := {|
    pi_id := di_id located; pi_opcode := opcode; pi_dispatch := dispatch; pi_instruction := di_instruction located;
    pi_input_width := sem_input_width sem; pi_output_width := sem_output_width sem; pi_root_effect := sem_root_effect sem;
    pi_operands := operands; pi_work_charge := 1; pi_code_identity := identity;
    pi_handler_membership := membership; pi_handler_entries := handler_entries table located;
    pi_micro_op := select_micro_op verification (di_id located) instruction_targets membership |} in
  let has_backward_edge := existsb (fun o => match branch_of o with Some d => (d <? 0)%Z | None => false end) (in_operands (di_instruction located)) in
  let? targets := byte_targets source located in
  Ok ({| li_instruction := prepared; li_id := di_id located; li_location := Bytes (byte_origin source (N.to_nat (di_offset located)) end_);
         li_safepoint := sem_safepoint sem || has_backward_edge; li_coverage := None |}, targets).

Definition prepare_code_inner (semantics : Opcode -> option JvmInstructionSemantics) decoded (code_length : nat) (table : list CodeException) (source : SourceId)
    (identity : option PreparedCodeIdentity) (verification : option VerificationPreparation) :
    Res PreparationError (LocatedCode PreparedJvmInstruction N Origin) :=
  let? _ := map_err Classfile (validate_exception_handlers decoded code_length ((fun e => (ce_start_pc e, ce_end_pc e, ce_handler_pc e)) <$> table)) in
  let? lowered := collect (fun il : nat * DecodedInstruction => prepare_instruction semantics decoded code_length table source identity verification il.1 il.2)
    (imap pair (dc_instructions decoded)) in
  map_err Machine (freeze lowered.*1 (concat lowered.*2) []).

Definition prepare_code semantics decoded code_length table source := prepare_code_inner semantics decoded code_length table source None None.

Definition prepare_code_bound semantics decoded (code : list N) table source (revision : ClassSpaceRevision) :=
  prepare_code_inner semantics decoded (length code) table source (Some {| ident_content := code; ident_revision := revision |}) None.

Definition prepare_code_verified semantics decoded (code : list N) table source (v : VerificationPreparation) :=
  prepare_code_inner semantics decoded (length code) table source (Some {| ident_content := code; ident_revision := vp_revision v |}) (Some v).
End Prepare.

(** ** Branch targets of prepared code

    crates/sim-lib-lang-jvm/src/code/prepare.rs computes the targets of a branch
    twice: as instructions, through the decoded offsets, and as byte positions
    that freezing resolves.  On frozen code the two agree, and every target an
    operand names has a cursor. *)

Lemma collect_ok {E A B} (g : A -> Res E B) (l : list A) r : collect g l = Ok r <-> Forall2 (fun x y => g x = Ok y) l r.
Proof.
  revert r. induction l as [|x l IH]; intros r; cbn [collect]; [split; [by intros [= <-]|by intros ->%Forall2_nil_inv_l]|]. split.
  - intros Hc. res_inv. subst r. constructor; [done|]. by apply IH.
  - intros (y & r' & Hy & Hr & ->)%Forall2_cons_inv_l. rewrite Hy. cbn [rbind]. apply IH in Hr as ->. done.
Qed.

(** ** Targets of one instruction in a frozen table *)

Section Targets.
Context {I Id Origin SourceId : Type} `{OrdKey Id} `{KernelOrigin Origin SourceId} `{InstructionPolicy I Id}.
Implicit Types (ts : list (BranchTarget Id SourceId)) (cs : list nat) (from : Id).
Implicit Types (lowered : list (LocatedInstruction I Id Origin * list (BranchTarget Id SourceId))).

Lemma targets_from_app from ts ts' cs cs' : length ts = length cs -> targets_from from (ts ++ ts') (cs ++ cs') = targets_from from ts cs ++ targets_from from ts' cs'.
Proof. intros Hl. unfold targets_from. rewrite zip_with_app by done. by rewrite filter_app, fmap_app. Qed.

Lemma targets_from_all from ts cs : length ts = length cs -> Forall (fun t => bt_from t = from) ts -> targets_from from ts cs = cs.
Proof.
  revert cs. induction ts as [|t ts IH]; intros [|c cs] Hl Hf; try done. apply Forall_cons in Hf as [Ht Hf]. unfold targets_from. cbn [zip_with]. rewrite filter_cons, decide_True by done.
  cbn. f_equal. apply IH; [by injection Hl|done].
Qed.

Lemma targets_from_none from ts cs : Forall (fun t => bt_from t <> from) ts -> targets_from from ts cs = [].
Proof.
  revert cs. induction ts as [|t ts IH]; intros [|c cs] Hf; try done. apply Forall_cons in Hf as [Ht Hf]. unfold targets_from. cbn [zip_with]. rewrite filter_cons, decide_False by done.
  by apply IH.
Qed.

(** The targets of an instruction are its own part of the table. *)
Lemma targets_from_concat (R : BranchTarget Id SourceId -> nat -> Prop) lowered cs k lo : Forall2 R (concat lowered.*2) cs ->
  Forall (fun lo => Forall (fun t => bt_from t = li_id lo.1) lo.2) lowered -> NoDup (li_id <$> lowered.*1) -> lowered !! k = Some lo ->
  Forall2 R lo.2 (targets_from (li_id lo.1) (concat lowered.*2) cs).
Proof.
  revert cs k. induction lowered as [|x lowered IH]; intros cs k HR Hf Hnd Hk; [done|]. rewrite fmap_cons in HR |- *. cbn [concat] in HR |- *.
  apply Forall2_app_inv_l in HR as (cs1 & cs2 & HR1 & HR2 & ->). apply Forall_cons in Hf as [Hx Hf]. rewrite !fmap_cons in Hnd. apply NoDup_cons in Hnd as [Hni Hnd].
  rewrite targets_from_app by by eapply Forall2_length. destruct k as [|k]; cbn in Hk.
  - injection Hk as ->. rewrite targets_from_all; [|by eapply Forall2_length|done]. rewrite targets_from_none; [by rewrite app_nil_r|].
    apply Forall_concat, Forall_fmap. eapply Forall_impl; [apply Forall_and; split; [exact Hf|apply Forall_forall; intros y Hy; exact Hy]|].
    intros y [Hy Hin]. eapply Forall_impl; [exact Hy|]. intros t -> Heq. apply Hni. rewrite <- Heq, <- list_fmap_compose. apply list_elem_of_fmap. by exists y.
  - rewrite targets_from_none; [by eapply IH|]. eapply Forall_impl; [exact Hx|]. intros t -> Heq. apply Hni. rewrite Heq, <- list_fmap_compose. apply list_elem_of_fmap.
    exists lo. split; [done|]. by eapply list_elem_of_lookup_2.
Qed.

(** A target names one instruction. *)
Lemma points_to_unique (ins : list (LocatedInstruction I Id Origin)) target i j : Located ins -> points_to ins target i -> points_to ins target j -> i = j.
Proof.
  intros HL (x & Hx & Dx) (y & Hy & Dy). assert (Hne : forall k z, ins !! k = Some z -> range_start z < range_end z).
  { intros k z Hz. pose proof (located_each _ HL) as Hf. rewrite Forall_forall in Hf. by destruct (Hf z (list_elem_of_lookup_2 _ _ _ Hz)). }
  pose proof (Hne _ _ Hx). pose proof (Hne _ _ Hy). destruct target as [id|source p|source p]; cbn in Dx, Dy.
  - eapply (NoDup_lookup _ i j id (located_ids _ HL)); rewrite list_lookup_fmap; [rewrite Hx|rewrite Hy]; cbn; by f_equal.
  - destruct Dx as [Ax Sx], Dy as [Ay Sy]. eapply (located_position ins i j x y source Byte p); try done; lia.
  - destruct Dx as [Ax Sx], Dy as [Ay Sy]. eapply (located_position ins i j x y source Token p); try done; lia.
Qed.

Lemma freeze_tables (ins : list (LocatedInstruction I Id Origin)) ts code : freeze ins ts [] = Ok code ->
  lc_instructions code = ins /\ Located ins /\ cursor_table ins (lc_cursors code) /\
  exists cs, Forall2 (target_ok ins) ts cs /\ forall from, branch_targets code from = targets_from from ts cs.
Proof.
  unfold freeze. destruct ins as [|x ins']; [done|]. set (ins := x :: ins'). intros Hf. res_inv. subst code. cbn [lc_instructions lc_cursors lc_targets branch_targets].
  rename select (check_instructions _ _ _ _ = _) into Hc. rename select (freeze_targets _ _ _ _ = _) into Ht.
  pose proof (check_instructions_spec ins [] ∅) as Hspec. cbn [app length] in Hspec. rewrite Hc in Hspec. destruct Hspec as [HL HT].
  { split; [constructor|constructor|]. intros ? ? ? ?. by rewrite lookup_nil. }
  { intros id i. rewrite lookup_empty. split; [done|]. intros (? & Hn & _). by rewrite lookup_nil in Hn. }
  split; [done|]. split; [done|]. split; [done|]. pose proof (freeze_targets_spec _ _ ts HL HT ∅) as Hspec. rewrite Ht in Hspec. destruct Hspec as (cs & Hcs & Hfrom).
  exists cs. split; [done|]. intros from. unfold branch_targets. cbn. by rewrite Hfrom, lookup_empty.
Qed.
End Targets.

(** ** Prepared code *)

Section Linked.
Context {Origin SourceId CodecError ClassDefinitionId Dependency : Type} `{KernelOrigin Origin SourceId} `{OpcodeManifest} `{EqDecision ClassDefinitionId}.
Context (byte_origin : SourceId -> nat -> nat -> Origin).
Context (validate_exception_handlers : DecodedCode -> nat -> list (N * N * N) -> Res CodecError unit).
Context (semantics : Opcode -> option JvmInstructionSemantics) (decoded : DecodedCode) (code_length : nat) (table : list CodeException) (source : SourceId).
Context (identity : option PreparedCodeIdentity) (verification : option (VerificationPreparation (ClassDefinitionId:=ClassDefinitionId) (Dependency:=Dependency))).

(** An origin of a byte range is in its source and begins where it says. *)
Class ByteOrigin : Prop := {
  byte_origin_source : forall src a b, origin_source (byte_origin src a b) = src;
  byte_origin_start : forall src a b, origin_start (byte_origin src a b) = a;
}.

(** The codec indexes every instruction by its offset. *)
Definition DecodedIndexed : Prop :=
  forall offset id, dc_offsets decoded !! offset = Some id <-> exists d, d ∈ dc_instructions decoded /\ di_offset d = offset /\ di_id d = id.

Abbreviation lower := (prepare_instruction (Origin:=Origin) (CodecError:=CodecError) byte_origin semantics decoded code_length table source identity verification).
Abbreviation prepare := (prepare_code_inner (Origin:=Origin) byte_origin validate_exception_handlers semantics decoded code_length table source identity verification).

(** What preparation makes of a decoded instruction. *)
Record PreparedFrom (located : DecodedInstruction) (i : PreparedJvmInstruction) : Prop := {
  pf_id : pi_id i = di_id located;
  pf_instruction : pi_instruction i = di_instruction located;
  pf_opcode : pi_opcode i = in_opcode (di_instruction located);
  pf_operands : prepare_operands (CodecError:=CodecError) decoded located = Ok (pi_operands i);
  pf_dispatch : PREPARED_DISPATCH !! opcode_byte (pi_opcode i) = Some (Some (pi_dispatch i));
}.

Lemma lower_inv index d l ts : lower index d = Ok (l, ts) ->
  PreparedFrom d (li_instruction l) /\ is_Some (semantics (pi_opcode (li_instruction l))) /\ li_id l = di_id d /\ (exists end_, li_location l = Bytes (byte_origin source (N.to_nat (di_offset d)) end_)) /\
  byte_targets (CodecError:=CodecError) source d = Ok ts /\ exists ids, targets_for_instruction (CodecError:=CodecError) decoded d = Ok ids.
Proof. unfold prepare_instruction. intros Hp. res_inv. simplify_eq. cbn -[PREPARED_DISPATCH]. rename select (mjoin _ = _) into Hdisp. split_and!; eauto. split; try done. cbn -[PREPARED_DISPATCH]. destruct (PREPARED_DISPATCH !! _) as [[]|]; cbn in Hdisp; congruence. Qed.

(** The lowered instructions of frozen code. *)
Lemma prepare_lowered code : prepare = Ok code -> exists lowered,
  (forall k d, dc_instructions decoded !! k = Some d -> exists lo, lowered !! k = Some lo /\ lower k d = Ok lo) /\
  (forall k lo, lowered !! k = Some lo -> exists d, dc_instructions decoded !! k = Some d /\ lower k d = Ok lo) /\
  freeze lowered.*1 (concat lowered.*2) [] = Ok code.
Proof.
  unfold prepare_code_inner. intros Hp. res_inv. rename select (collect _ _ = _) into Hc. rename select (list _) into lowered. apply collect_ok in Hc. exists lowered. split_and!.
  - intros k d Hk. destruct (Forall2_lookup_l _ _ _ k (k, d) Hc) as (lo & Hlo & Hok); [by rewrite list_lookup_imap, Hk|]. eauto.
  - intros k lo Hk. destruct (Forall2_lookup_r _ _ _ k lo Hc Hk) as ([k' d] & Hkd & Hok). rewrite list_lookup_imap in Hkd.
    destruct (dc_instructions decoded !! k) as [d'|]; [|done]. cbn in Hkd. simplify_eq. eauto.
  - by destruct (freeze _ _ _); simplify_eq/=.
Qed.

Lemma byte_targets_from d ts : byte_targets (CodecError:=CodecError) source d = Ok ts ->
  Forall2 (fun disp t => bt_from t = di_id d /\ (0 <= Z.of_N (di_offset d) + disp)%Z /\ bt_to t = ToByte source (Z.to_nat (Z.of_N (di_offset d) + disp)))
    (omap branch_of (in_operands (di_instruction d))) ts.
Proof.
  intros Ht%collect_ok. eapply Forall2_impl; [exact Ht|]. cbn. intros disp t Hok. destruct (Z.leb_spec 0 (Z.of_N (di_offset d) + disp)); [|done]. by injection Hok as <-.
Qed.

Context {Hbyte : ByteOrigin} (Hindexed : DecodedIndexed).

(** The instruction a displacement leads to is the one at that byte. *)
Lemma displaced_points lowered d disp id c : (forall k d, dc_instructions decoded !! k = Some d -> exists lo, lowered !! k = Some lo /\ lower k d = Ok lo) ->
  Located lowered.*1 -> displaced (CodecError:=CodecError) decoded d disp = Ok id -> points_to lowered.*1 (ToByte source (Z.to_nat (Z.of_N (di_offset d) + disp))) c ->
  points_to (SourceId:=SourceId) lowered.*1 (ToInstruction id) c.
Proof using Type Hbyte Hindexed.
  intros Hlow HL Hd Hc. unfold displaced in Hd. destruct (_ && _) eqn:Hr; [|done]. apply andb_true_iff in Hr as [Hr _]. apply Z.leb_le in Hr.
  destruct (dc_offsets decoded !! _) as [id'|] eqn:Ho; [|done]. injection Hd as ->. apply Hindexed in Ho as (d' & [k Hk]%list_elem_of_lookup & Hoff & <-).
  destruct (Hlow k d' Hk) as ([l ts] & Hl & (Hpf & _ & Hid & (end_ & Hloc) & _)%lower_inv).
  assert (Hlk : lowered.*1 !! k = Some l) by by rewrite list_lookup_fmap, Hl.
  assert (Hpk : points_to lowered.*1 (ToByte source (Z.to_nat (Z.of_N (di_offset d) + disp))) k).
  { exists l. split; [done|]. cbn. unfold addressed, range_unit, range_start. rewrite Hloc. cbn. rewrite byte_origin_source, byte_origin_start, Hoff. split; [done|]. lia. }
  rewrite (points_to_unique _ _ _ _ HL Hc Hpk). exists l. split; [done|]. cbn. by rewrite Hid.
Qed.

(** The frozen targets of an instruction are the cursors of the
    instructions its displacements lead to, in the order of its operands. *)
Theorem prepared_targets code c l : prepare = Ok code -> lc_instructions code !! c = Some l ->
  exists d ids, dc_instructions decoded !! c = Some d /\ PreparedFrom d (li_instruction l) /\ is_Some (semantics (pi_opcode (li_instruction l))) /\ li_id l = pi_id (li_instruction l) /\
    targets_for_instruction (CodecError:=CodecError) decoded d = Ok ids /\
    Forall2 (fun id t => code_cursor code id = Some t) ids (branch_targets code (li_id l)).
Proof using Type Hbyte Hindexed.
  intros (lowered & Hdl & Hld & (Hins & HL & HT & cs & Hcs & Hfrom)%freeze_tables)%prepare_lowered Hl. rewrite Hins, list_lookup_fmap in Hl.
  destruct (lowered !! c) as [[l' ts]|] eqn:Hlo; [|done]. injection Hl as ->. destruct (Hld _ _ Hlo) as (d & Hd & (Hpf & Hsem & Hid & _ & Hts & ids & Hids)%lower_inv).
  exists d, ids. split; [done|]. split; [done|]. split; [done|]. split; [by rewrite Hid, (pf_id _ _ Hpf)|]. split; [done|]. rewrite Hfrom.
  pose proof (targets_from_concat (target_ok lowered.*1) lowered cs c (l, ts) Hcs) as Hown. cbn [fst snd] in Hown.
  apply byte_targets_from in Hts. assert (Forall2 (target_ok lowered.*1) ts (targets_from (li_id l) (concat lowered.*2) cs)) as Hok.
  { apply Hown; [|apply (located_ids _ HL)|done]. apply Forall_forall. intros [l2 ts2] [k Hk]%list_elem_of_lookup.
    destruct (Hld _ _ Hk) as (d2 & _ & (_ & _ & Hid2 & _ & Hts2%byte_targets_from & _)%lower_inv). cbn. rewrite Hid2. eapply Forall2_Forall_r; [exact Hts2|].
    apply Forall_true. by intros disp t [-> _]. }
  apply collect_ok in Hids. apply Forall2_same_length_lookup_2.
  { by rewrite <- (Forall2_length _ _ _ Hids), (Forall2_length _ _ _ Hts), (Forall2_length _ _ _ Hok). }
  intros k id t Hk Ht. destruct (Forall2_lookup_r _ _ _ _ _ Hids Hk) as (disp & Hdisp & Hdis). destruct (Forall2_lookup_l _ _ _ _ _ Hts Hdisp) as (bt & Hbt & _ & _ & Hto).
  destruct (Forall2_lookup_l _ _ _ _ _ Hok Hbt) as (t' & Ht' & _ & Hpt). pose proof (eq_trans (eq_sym Ht) Ht') as [= <-]. rewrite Hto in Hpt.
  apply HT. by eapply displaced_points.
Qed.
End Linked.
