(* ===== verification/JvmExecute.v ===== *)
(** * Execution of JVM instructions

    crates/sim-lib-lang-jvm/src/execution.rs, numeric.rs and control.rs: constants,
    locals and stack operations over the machine's slots and stack, arithmetic at
    its width and in IEEE floats, branches, switches and returns. *)

From stdpp Require Import gmap strings.
From Stdlib Require Import SpecFloat.
From S2P Require Import Prelude BTree MachineStack MachineShuffle MachineSlots MachineCode JvmTypes JvmCode.

(** ** Machine integers *)

Definition wrap (bits : Z) (z : Z) : Z := (((z + 2 ^ (bits - 1)) mod 2 ^ bits) - 2 ^ (bits - 1))%Z.

(** [as u32], [as u16] and the like. *)
Definition unsigned (bits : Z) (z : Z) : Z := (z mod 2 ^ bits)%Z.

Definition int_min (bits : Z) : Z := (- 2 ^ (bits - 1))%Z.

Definition int_max (bits : Z) : Z := (2 ^ (bits - 1) - 1)%Z.

(** ** Floats

    Binary32 has a precision of 24 bits and the exponent bound 128, binary64 53
    and 1024.  The sign and payload of a NaN result are left open by the language;
    here it is the positive quiet NaN. *)

Record FloatFormat := { ff_prec : Z; ff_emax : Z; ff_exponent_bits : Z }.

Definition F32 : FloatFormat := {| ff_prec := 24; ff_emax := 128; ff_exponent_bits := 8 |}.

Definition F64 : FloatFormat := {| ff_prec := 53; ff_emax := 1024; ff_exponent_bits := 11 |}.

Definition ff_mantissa_bits (f : FloatFormat) : Z := (ff_prec f - 1)%Z.

Definition ff_emin (f : FloatFormat) : Z := SpecFloat.emin (ff_prec f) (ff_emax f).

Definition from_bits (f : FloatFormat) (bits : Z) : spec_float :=
  let mw := ff_mantissa_bits f in
  let mantissa := (bits mod 2 ^ mw)%Z in
  let exponent := (Z.shiftr bits mw mod 2 ^ ff_exponent_bits f)%Z in
  let sign := Z.testbit bits (mw + ff_exponent_bits f) in
  if (exponent =? 2 ^ ff_exponent_bits f - 1)%Z then (if (mantissa =? 0)%Z then S754_infinity sign else S754_nan)
  else
    let m := if (exponent =? 0)%Z then mantissa else (mantissa + 2 ^ mw)%Z in
    match m with
    | Zpos p => S754_finite sign p (if (exponent =? 0)%Z then ff_emin f else exponent + ff_emin f - 1)
    | _ => S754_zero sign
    end.

Definition to_bits (f : FloatFormat) (x : spec_float) : Z :=
  let mw := ff_mantissa_bits f in
  let sign (s : bool) := if s then (2 ^ (mw + ff_exponent_bits f))%Z else 0%Z in
  let infinite := ((2 ^ ff_exponent_bits f - 1) * 2 ^ mw)%Z in
  match x with
  | S754_zero s => sign s
  | S754_infinity s => (sign s + infinite)%Z
  | S754_nan => (infinite + 2 ^ (mw - 1))%Z
  | S754_finite s m e =>
    if (Zpos m <? 2 ^ mw)%Z then (sign s + Zpos m)%Z
    else (sign s + (e - ff_emin f + 1) * 2 ^ mw + (Zpos m - 2 ^ mw))%Z
  end.

Definition signed_mantissa (s : bool) (m : positive) : Z := if s then Zneg m else Zpos m.

(** An integer as a float, and a float in another format. *)
Definition float_of_int (f : FloatFormat) (z : Z) : spec_float := binary_normalize (ff_prec f) (ff_emax f) z 0 false.

Definition float_convert (f : FloatFormat) (x : spec_float) : spec_float :=
  match x with S754_finite s m e => binary_normalize (ff_prec f) (ff_emax f) (signed_mantissa s m) e s | _ => x end.

(** The remainder of a truncating division, with the sign of the dividend. *)
Definition float_rem (f : FloatFormat) (a b : spec_float) : spec_float :=
  match a, b with
  | S754_nan, _ | _, S754_nan | S754_infinity _, _ | _, S754_zero _ => S754_nan
  | S754_zero _, _ | _, S754_infinity _ => a
  | S754_finite sa ma ea, S754_finite _ mb eb =>
    let e := Z.min ea eb in
    match (Z.shiftl (Zpos ma) (ea - e) mod Z.shiftl (Zpos mb) (eb - e))%Z with
    | Zpos r => binary_normalize (ff_prec f) (ff_emax f) (signed_mantissa sa r) e sa
    | _ => S754_zero sa
    end
  end.

Definition float_is_nan (x : spec_float) : bool := match x with S754_nan => true | _ => false end.

Definition float_lt (a b : spec_float) : bool := match SFcompare a b with Some Lt => true | _ => false end.

Definition float_le (a b : spec_float) : bool := match SFcompare a b with Some (Lt | Eq) => true | _ => false end.

(** [trunc] as an integer; infinities and NaN do not reach it. *)
Definition float_trunc (x : spec_float) : Z :=
  match x with S754_finite s m e => (if s then - Z.shiftl (Zpos m) e else Z.shiftl (Zpos m) e)%Z | _ => 0%Z end.

Definition float_cmp (a b : spec_float) (nan_high : bool) : Z :=
  if float_is_nan a || float_is_nan b then (if nan_high then 1 else -1)%Z
  else if float_lt b a then 1%Z
  else if float_lt a b then (-1)%Z
  else 0%Z.

(** [float_to_i32] and [float_to_i64]. *)
Definition float_to_int (bits : Z) (v : spec_float) : Z :=
  if float_is_nan v then 0%Z
  else if float_le (float_of_int F64 (int_max bits)) v then int_max bits
  else if float_le v (float_of_int F64 (int_min bits)) then int_min bits
  else float_trunc v.

(** ** Numeric instructions *)

Section Execute.
Context {K T Origin SourceId : Type} `{KernelOrigin Origin SourceId}.
Abbreviation value := (JvmValue K).
Abbreviation operands_t := (UnitStack (JvmValue K)).
Implicit Types (s : UnitStack (JvmValue K)) (o : Opcode) (i : PreparedJvmInstruction).

Record JvmWorkReceipt := { wr_instruction : N; wr_charged : nat }.

Definition receipt i : JvmWorkReceipt := {| wr_instruction := pi_id i; wr_charged := pi_work_charge i |}.

Inductive NumericExecutionError :=
| NCategory (opcode : Opcode)
| NStack (e : StackError)
| NArithmetic (t : T).

Definition expect_i o (v : value) : Res NumericExecutionError Z := match v with Int x => Ok x | _ => Err (NCategory o) end.

Definition expect_l o (v : value) : Res NumericExecutionError Z := match v with Long x => Ok x | _ => Err (NCategory o) end.

Definition expect_f o (v : value) : Res NumericExecutionError Z := match v with Float x => Ok x | _ => Err (NCategory o) end.

Definition expect_d o (v : value) : Res NumericExecutionError Z := match v with Double x => Ok x | _ => Err (NCategory o) end.

Definition f32 (bits : Z) : spec_float := from_bits F32 bits.

Definition f64 (bits : Z) : spec_float := from_bits F64 bits.

(** [f64::from] of a float. *)
Definition widened (bits : Z) : spec_float := float_convert F64 (f32 bits).

Definition ints o (op : Z -> Z -> Z) (l r : value) : Res NumericExecutionError value :=
  let? a := expect_i o l in let? b := expect_i o r in Ok (Int (op a b)).

Definition longs o (op : Z -> Z -> Z) (l r : value) : Res NumericExecutionError value :=
  let? a := expect_l o l in let? b := expect_l o r in Ok (Long (op a b)).

Definition floats o (op : spec_float -> spec_float -> spec_float) (l r : value) : Res NumericExecutionError value :=
  let? a := expect_f o l in let? b := expect_f o r in Ok (Float (to_bits F32 (op (f32 a) (f32 b)))).

Definition doubles o (op : spec_float -> spec_float -> spec_float) (l r : value) : Res NumericExecutionError value :=
  let? a := expect_d o l in let? b := expect_d o r in Ok (Double (to_bits F64 (op (f64 a) (f64 b)))).

(** A shift: the distance is taken first, modulo the width. *)
Definition shift_distance o (mask : Z) (r : value) : Res NumericExecutionError Z := let? b := expect_i o r in Ok (Z.land (unsigned 32 b) mask).

Definition binary (arithmetic_throwable : Res NumericExecutionError T) o (l r : value) : Res NumericExecutionError value :=
  match o with
  | Iadd => ints o (fun a b => wrap 32 (a + b)) l r
  | Isub => ints o (fun a b => wrap 32 (a - b)) l r
  | Imul => ints o (fun a b => wrap 32 (a * b)) l r
  | Ladd => longs o (fun a b => wrap 64 (a + b)) l r
  | Lsub => longs o (fun a b => wrap 64 (a - b)) l r
  | Lmul => longs o (fun a b => wrap 64 (a * b)) l r
  | Fadd => floats o (SFadd 24 128) l r
  | Fsub => floats o (SFsub 24 128) l r
  | Fmul => floats o (SFmul 24 128) l r
  | Fdiv => floats o (SFdiv 24 128) l r
  | Frem => floats o (float_rem F32) l r
  | Dadd => doubles o (SFadd 53 1024) l r
  | Dsub => doubles o (SFsub 53 1024) l r
  | Dmul => doubles o (SFmul 53 1024) l r
  | Ddiv => doubles o (SFdiv 53 1024) l r
  | Drem => doubles o (float_rem F64) l r
  | Idiv | Irem =>
    let? a := expect_i o l in
    let? b := expect_i o r in
    if (b =? 0)%Z then let? t := arithmetic_throwable in Err (NArithmetic t)
    else Ok (Int (if decide (o = Idiv) then wrap 32 (Z.quot a b) else Z.rem a b))
  | Ldiv | Lrem =>
    let? a := expect_l o l in
    let? b := expect_l o r in
    if (b =? 0)%Z then let? t := arithmetic_throwable in Err (NArithmetic t)
    else Ok (Long (if decide (o = Ldiv) then wrap 64 (Z.quot a b) else Z.rem a b))
  | Iand => ints o Z.land l r
  | Ior => ints o Z.lor l r
  | Ixor => ints o Z.lxor l r
  | Land => longs o Z.land l r
  | Lor => longs o Z.lor l r
  | Lxor => longs o Z.lxor l r
  | Ishl => let? b := shift_distance o 31 r in let? a := expect_i o l in Ok (Int (wrap 32 (Z.shiftl a b)))
  | Ishr => let? b := shift_distance o 31 r in let? a := expect_i o l in Ok (Int (Z.shiftr a b))
  | Iushr => let? b := shift_distance o 31 r in let? a := expect_i o l in Ok (Int (wrap 32 (Z.shiftr (unsigned 32 a) b)))
  | Lshl => let? b := shift_distance o 63 r in let? a := expect_l o l in Ok (Long (wrap 64 (Z.shiftl a b)))
  | Lshr => let? b := shift_distance o 63 r in let? a := expect_l o l in Ok (Long (Z.shiftr a b))
  | Lushr => let? b := shift_distance o 63 r in let? a := expect_l o l in Ok (Long (wrap 64 (Z.shiftr (unsigned 64 a) b)))
  | Lcmp => let? a := expect_l o l in let? b := expect_l o r in Ok (Int (match (a ?= b)%Z with Lt => -1 | Eq => 0 | Gt => 1 end))
  | Fcmpl | Fcmpg => let? a := expect_f o l in let? b := expect_f o r in Ok (Int (float_cmp (widened a) (widened b) (bool_decide (o = Fcmpg))))
  | Dcmpl | Dcmpg => let? a := expect_d o l in let? b := expect_d o r in Ok (Int (float_cmp (f64 a) (f64 b) (bool_decide (o = Dcmpg))))
  | _ => Err (NCategory o)
  end.

(** The instructions with one operand; [None] for the others. *)
Definition unary o (v : value) : option (Res NumericExecutionError value) :=
  match o with
  | Ineg => Some (let? x := expect_i o v in Ok (Int (wrap 32 (- x))))
  | Lneg => Some (let? x := expect_l o v in Ok (Long (wrap 64 (- x))))
  | Fneg => Some (let? x := expect_f o v in Ok (Float (Z.lxor x (Z.shiftl 1 31))))
  | Dneg => Some (let? x := expect_d o v in Ok (Double (Z.lxor x (Z.shiftl 1 63))))
  | I2l => Some (let? x := expect_i o v in Ok (Long x))
  | I2f => Some (let? x := expect_i o v in Ok (Float (to_bits F32 (float_of_int F32 x))))
  | I2d => Some (let? x := expect_i o v in Ok (Double (to_bits F64 (float_of_int F64 x))))
  | L2i => Some (let? x := expect_l o v in Ok (Int (wrap 32 x)))
  | L2f => Some (let? x := expect_l o v in Ok (Float (to_bits F32 (float_of_int F32 x))))
  | L2d => Some (let? x := expect_l o v in Ok (Double (to_bits F64 (float_of_int F64 x))))
  | F2i => Some (let? x := expect_f o v in Ok (Int (float_to_int 32 (widened x))))
  | F2l => Some (let? x := expect_f o v in Ok (Long (float_to_int 64 (widened x))))
  | F2d => Some (let? x := expect_f o v in Ok (Double (to_bits F64 (widened x))))
  | D2i => Some (let? x := expect_d o v in Ok (Int (float_to_int 32 (f64 x))))
  | D2l => Some (let? x := expect_d o v in Ok (Long (float_to_int 64 (f64 x))))
  | D2f => Some (let? x := expect_d o v in Ok (Float (to_bits F32 (float_convert F32 (f64 x)))))
  | I2b => Some (let? x := expect_i o v in Ok (Int (wrap 8 x)))
  | I2c => Some (let? x := expect_i o v in Ok (Int (unsigned 16 x)))
  | I2s => Some (let? x := expect_i o v in Ok (Int (wrap 16 x)))
  | _ => None
  end.

(** What was popped before an error stays popped. *)
Definition execute_numeric_instruction (arithmetic_throwable : Res NumericExecutionError T) i s : Res NumericExecutionError JvmWorkReceipt * operands_t :=
  let o := pi_opcode i in
  let finish (r : Res NumericExecutionError value) s :=
    match r with
    | Ok v => match map_err NStack (stack_push s v) with Ok s => (Ok (receipt i), s) | Err e => (Err e, s) | Panic => (Panic, s) | NoFuel => (NoFuel, s) end
    | Err e => (Err e, s)
    | Panic => (Panic, s)
    | NoFuel => (NoFuel, s)
    end in
  match map_err NStack (stack_pop s) with
  | Ok (right_, s) =>
    match unary o right_ with
    | Some r => finish r s
    | None =>
      match map_err NStack (stack_pop s) with
      | Ok (left_, s) => finish (binary arithmetic_throwable o left_ right_) s
      | Err e => (Err e, s)
      | Panic => (Panic, s)
      | NoFuel => (NoFuel, s)
      end
    end
  | Err e => (Err e, s)
  | Panic => (Panic, s)
  | NoFuel => (NoFuel, s)
  end.

(** ** Constants, locals and the stack *)

Inductive ExecutionError :=
| EMalformed (opcode : Opcode)
| ELocal (e : SlotError)
| EStack (e : StackError)
| EShuffle (e : ShuffleError)
| ECategory (opcode : Opcode)
| EConstant (index : N).

Inductive Expected := XInt | XLong | XFloat | XDouble | XReference.

Definition require_category o (v : value) (x : Expected) : Res ExecutionError unit :=
  match x, v with
  | XInt, Int _ | XLong, Long _ | XFloat, Float _ | XDouble, Double _ | XReference, Reference _ => Ok tt
  | _, _ => Err (ECategory o)
  end.

(** [opcode as u8 - first as u8] when it is less than four. *)
Definition offset_from (first_ : Opcode) o : option nat :=
  if ((opcode_byte first_ <=? opcode_byte o) && (opcode_byte o - opcode_byte first_ <? 4))%nat then Some (opcode_byte o - opcode_byte first_) else None.

Definition local_families (load : bool) : list (Opcode * Expected) :=
  if load then [(Iload0, XInt); (Lload0, XLong); (Fload0, XFloat); (Dload0, XDouble); (Aload0, XReference)]
  else [(Istore0, XInt); (Lstore0, XLong); (Fstore0, XFloat); (Dstore0, XDouble); (Astore0, XReference)].

Definition implicit_local o (load : bool) : option (Expected * option nat) :=
  head (omap (fun fx : Opcode * Expected => (fun k => (fx.2, Some k)) <$> offset_from fx.1 o) (local_families load)).

(** The accesses with the slot as an operand. *)
Definition explicit_local o (load : bool) : option Expected :=
  match load, o with
  | true, Iload | false, Istore => Some XInt
  | true, Lload | false, Lstore => Some XLong
  | true, Fload | false, Fstore => Some XFloat
  | true, Dload | false, Dstore => Some XDouble
  | true, Aload | false, Astore => Some XReference
  | _, _ => None
  end.

Definition local_access o (operands : PreparedJvmOperands) (load : bool) : Res ExecutionError (option (nat * Expected)) :=
  match match explicit_local o load with Some x => Some (x, None) | None => implicit_local o load end with
  | None => Ok None
  | Some (x, Some slot) => match operands with PNone => Ok (Some (slot, x)) | _ => Err (EMalformed o) end
  | Some (x, None) => match operands with PLocal slot => Ok (Some (slot, x)) | _ => Err (EMalformed o) end
  end.

(** [stack.visit_values] collects the widths, bottom first. *)
Definition execute_shuffle o (choices : shuffle_choices) s : Res ExecutionError operands_t :=
  let widths := logical_width <$> stack_values s in
  match List.find (fun io => bool_decide (io.1 `suffix_of` widths)) choices with
  | None => Err (EMalformed o)
  | Some (input, output) =>
    let prefix := length widths - length input in
    let groups := seq 0 prefix ++ (Nat.add prefix <$> output) in
    let starts := group_starts 0 widths in
    let? units := collect (fun g => let? st := expect (starts !! g) in let? w := expect (widths !! g) in Ok (seq st w)) groups in
    let? plan := map_err EShuffle (new_plan widths (concat units)) in
    map_err EShuffle (execute plan s)
  end.

(** The constant an instruction pushes; the resolver may refuse its index. *)
Definition constant_value (resolve : N -> Res ExecutionError value) i : Res ExecutionError (option value) :=
  let o := pi_opcode i in
  match o with
  | AconstNull => Ok (Some (Reference None))
  | IconstM1 => Ok (Some (Int (-1)))
  | Iconst0 | Iconst1 | Iconst2 | Iconst3 | Iconst4 | Iconst5 => Ok (Some (Int (Z.of_nat (opcode_byte o) - Z.of_nat (opcode_byte Iconst0))))
  | Lconst0 | Lconst1 => Ok (Some (Long (Z.of_nat (opcode_byte o - opcode_byte Lconst0))))
  | Fconst0 | Fconst1 | Fconst2 => Ok (Some (Float (to_bits F32 (float_of_int F32 (Z.of_nat (opcode_byte o - opcode_byte Fconst0))))))
  | Dconst0 | Dconst1 => Ok (Some (Double (to_bits F64 (float_of_int F64 (Z.of_nat (opcode_byte o - opcode_byte Dconst0))))))
  | Bipush | Sipush => match pi_operands i with PImmediate z => Ok (Some (Int z)) | _ => Err (EMalformed o) end
  | Ldc | LdcW | Ldc2W =>
    match pi_operands i with
    | PConstantSite index =>
      match resolve index with
      | Ok v => if decide (logical_width v = if decide (o = Ldc2W) then 2 else 1) then Ok (Some v) else Err (ECategory o)
      | Err _ => Err (EConstant index)
      | Panic => Panic
      | NoFuel => NoFuel
      end
    | _ => Err (EMalformed o)
    end
  | _ => Ok None
  end.

Definition is_shuffle o : bool := match o with Pop | Pop2 | Dup | DupX1 | DupX2 | Dup2 | Dup2X1 | Dup2X2 | Swap => true | _ => false end.

Abbreviation frame_t := (SlotFile (JvmValue K) * UnitStack (JvmValue K))%type.

(** A result, with the frame it leaves. *)
Definition settle i (frame : frame_t) (r : Res ExecutionError frame_t) : Res ExecutionError JvmWorkReceipt * frame_t :=
  match r with
  | Ok frame => (Ok (receipt i), frame)
  | Err e => (Err e, frame)
  | Panic => (Panic, frame)
  | NoFuel => (NoFuel, frame)
  end.

Definition execute_load i (f : SlotFile (JvmValue K)) s (slot : nat) (x : Expected) : Res ExecutionError frame_t :=
  let? v := map_err ELocal (slot_load f slot) in
  let? _ := require_category (pi_opcode i) v x in
  let? s := map_err EStack (stack_push s v) in
  Ok (f, s).

(** The value is popped only once the store is known to fit. *)
Definition execute_store i (f : SlotFile (JvmValue K)) s (slot : nat) (x : Expected) : Res ExecutionError JvmWorkReceipt * frame_t :=
  match (let? v := map_err EStack (stack_top s) in
         let? _ := require_category (pi_opcode i) v x in
         match checked_index_add slot (logical_width v) with
         | Some end_ => if (slot_limit f <? end_)%nat then Err (ELocal (SlotOverflow slot (logical_width v) (slot_limit f))) else Ok tt
         | None => Err (ELocal (SlotOverflow slot (logical_width v) (slot_limit f)))
         end) with
  | Ok _ =>
    match map_err EStack (stack_pop s) with
    | Ok (v, s) => settle i (f, s) (let? f := map_err ELocal (slot_store f slot v) in Ok (f, s))
    | r => settle i (f, s) (let? _ := r in Panic)
    end
  | Err e => (Err e, (f, s))
  | Panic => (Panic, (f, s))
  | NoFuel => (NoFuel, (f, s))
  end.

Definition execute_increment i (f : SlotFile (JvmValue K)) s : Res ExecutionError frame_t :=
  match pi_operands i with
  | PIncrement slot amount =>
    let? v := map_err ELocal (slot_load f slot) in
    match v with
    | Int x => let? f := map_err ELocal (slot_store f slot (Int (wrap 32 (x + amount)))) in Ok (f, s)
    | _ => Err (ECategory (pi_opcode i))
    end
  | _ => Err (EMalformed (pi_opcode i))
  end.

Definition execute_storage_instruction (resolve : N -> Res ExecutionError value) i (f : SlotFile (JvmValue K)) s : Res ExecutionError JvmWorkReceipt * frame_t :=
  let o := pi_opcode i in
  let fallback :=
    if decide (o = Iinc) then settle i (f, s) (execute_increment i f s)
    else if is_shuffle o then
      settle i (f, s) (match pi_operands i with PShuffle choices => let? s := execute_shuffle o choices s in Ok (f, s) | _ => Err (EMalformed o) end)
    else (Err (EMalformed o), (f, s)) in
  match constant_value resolve i with
  | Ok (Some v) => settle i (f, s) (let? s := map_err EStack (stack_push s v) in Ok (f, s))
  | Ok None =>
    match local_access o (pi_operands i) true with
    | Ok (Some (slot, x)) => settle i (f, s) (execute_load i f s slot x)
    | Ok None =>
      match local_access o (pi_operands i) false with
      | Ok (Some (slot, x)) => execute_store i f s slot x
      | Ok None => fallback
      | r => settle i (f, s) (let? _ := r in Panic)
      end
    | r => settle i (f, s) (let? _ := r in Panic)
    end
  | r => settle i (f, s) (let? _ := r in Panic)
  end.

(** ** Control flow *)

Abbreviation code_t := (LocatedCode PreparedJvmInstruction N Origin).
Implicit Types (code : code_t).

Inductive JvmControlOutcome :=
| COContinue (cursor : CodeCursor) (r : JvmWorkReceipt)
| COReturn (v : option value) (r : JvmWorkReceipt)
| COInterrupted (instruction : N) (cursor : CodeCursor).

Inductive JvmControlErrorKind := CMalformed | CStack (e : StackError) | CCategory | CMissingFallthrough.

Record JvmControlError := { ctl_instruction : N; ctl_location : SourceLocation Origin; ctl_kind : JvmControlErrorKind }.

Abbreviation located_t := (LocatedInstruction PreparedJvmInstruction N Origin).

Definition control_error (located : located_t) (kind : JvmControlErrorKind) : JvmControlError :=
  {| ctl_instruction := li_id located; ctl_location := li_location located; ctl_kind := kind |}.

Definition only_target (targets : list CodeCursor) : option CodeCursor := match targets with [t] => Some t | _ => None end.

Definition direct_target code i : option CodeCursor := match pi_operands i with PDirect t => code_cursor code t | _ => None end.

Definition peek_int s (located : located_t) : Res JvmControlError Z :=
  let? v := map_err (fun e => control_error located (CStack e)) (stack_top s) in
  match v with Int x => Ok x | _ => Err (control_error located CCategory) end.

Definition peek_reference s (located : located_t) : Res JvmControlError JvmReference :=
  let? v := map_err (fun e => control_error located (CStack e)) (stack_top s) in
  match v with Reference r => Ok r | _ => Err (control_error located CCategory) end.

(** The two topmost values. *)
Definition two_values {A} (pick : value -> value -> option A) s (located : located_t) : Res JvmControlError A :=
  let values := stack_values s in
  if (length values <? 2)%nat then Err (control_error located (CStack (StackUnderflow (stack_depth s))))
  else
    match drop (length values - 2) values with
    | [l; r] => ok_or (control_error located CCategory) (pick l r)
    | _ => Err (control_error located CCategory)
    end.

Definition two_ints s located : Res JvmControlError (Z * Z) := two_values (fun l r => match l, r with Int a, Int b => Some (a, b) | _, _ => None end) s located.

Definition two_references s located : Res JvmControlError (JvmReference * JvmReference) :=
  two_values (fun l r => match l, r with Reference a, Reference b => Some (a, b) | _, _ => None end) s located.

Definition table_cursor code (operands : PreparedJvmOperands) (key : Z) : Res JvmControlError (option CodeCursor) :=
  match operands with
  | PTable low default_ targets =>
    let index := (key - low)%Z in
    let? target := if ((0 <=? index) && (index <? Z.of_nat (length targets)))%Z then expect (targets !! Z.to_nat index) else Ok default_ in
    Ok (code_cursor code target)
  | _ => Ok None
  end.

(** The loop of [binary_search_by_key]: the last position in [base, base + size)
    whose key is not greater. *)
Fixpoint search_base (fuel : nat) (pairs : list (Z * N)) (key : Z) (base size : nat) : nat :=
  match fuel with
  | O => base
  | S fuel =>
    if (size <=? 1)%nat then base
    else
      let half := size / 2 in
      let mid := base + half in
      let base := match pairs !! mid with Some (k, _) => if (key <? k)%Z then base else mid | None => base end in
      search_base fuel pairs key base (size - half)
  end.

Definition binary_search (pairs : list (Z * N)) (key : Z) : option N :=
  match pairs !! search_base (length pairs) pairs key 0 (length pairs) with
  | Some (k, t) => if (k =? key)%Z then Some t else None
  | None => None
  end.

Definition lookup_cursor code (operands : PreparedJvmOperands) (key : Z) : option CodeCursor :=
  match operands with
  | PLookup default_ pairs => code_cursor code (default default_ (binary_search pairs key))
  | _ => None
  end.

Definition int_condition o (x : Z) : bool :=
  match o with
  | Ifeq => x =? 0 | Ifne => negb (x =? 0) | Iflt => x <? 0 | Ifge => 0 <=? x | Ifgt => 0 <? x | _ => x <=? 0
  end%Z.

Definition icmp_condition o (l r : Z) : bool :=
  match o with
  | IfIcmpeq => l =? r | IfIcmpne => negb (l =? r) | IfIcmplt => l <? r | IfIcmpge => r <=? l | IfIcmpgt => r <? l | _ => l <=? r
  end%Z.

(** [operands.pop().expect(..)]. *)
Definition popped s : Res JvmControlError operands_t := match stack_pop s with Ok (_, s) => Ok s | _ => Panic end.

Definition return_value o (v : value) : bool :=
  match o, v with
  | Ireturn, Int _ | Lreturn, Long _ | Freturn, Float _ | Dreturn, Double _ | Areturn, Reference _ => true
  | _, _ => false
  end.

(** The selected cursor and what is left of the operands; every check comes
    before the first pop. *)
Definition select_cursor code (cursor : CodeCursor) (located : located_t) s : Res JvmControlError (CodeCursor * operands_t) :=
  let i := li_instruction located in
  let o := pi_opcode i in
  let malformed := control_error located CMalformed in
  let direct := ok_or malformed (direct_target code i) in
  let fallthrough := ok_or (control_error located CMissingFallthrough) (code_next code cursor) in
  match o with
  | Goto | GotoW => let? t := ok_or malformed (only_target (branch_targets code (pi_id i))) in Ok (t, s)
  | Ifeq | Ifne | Iflt | Ifge | Ifgt | Ifle =>
    let? t := direct in let? next := fallthrough in let? x := peek_int s located in
    let? s := popped s in
    Ok (if int_condition o x then t else next, s)
  | IfIcmpeq | IfIcmpne | IfIcmplt | IfIcmpge | IfIcmpgt | IfIcmple =>
    let? t := direct in let? next := fallthrough in let? lr := two_ints s located in
    let? s := popped s in let? s := popped s in
    Ok (if icmp_condition o lr.1 lr.2 then t else next, s)
  | IfAcmpeq | IfAcmpne =>
    let? t := direct in let? next := fallthrough in let? lr := two_references s located in
    let? s := popped s in let? s := popped s in
    Ok (if eqb (bool_decide (o = IfAcmpeq)) (bool_decide (lr.1 = lr.2)) then t else next, s)
  | Ifnull | Ifnonnull =>
    let? t := direct in let? next := fallthrough in let? r := peek_reference s located in
    let? s := popped s in
    Ok (if eqb (bool_decide (o = Ifnull)) (bool_decide (r = None)) then t else next, s)
  | Tableswitch =>
    let? key := peek_int s located in
    let? t := table_cursor code (pi_operands i) key in let? t := ok_or malformed t in
    let? s := popped s in
    Ok (t, s)
  | Lookupswitch =>
    let? key := peek_int s located in
    let? t := ok_or malformed (lookup_cursor code (pi_operands i) key) in
    let? s := popped s in
    Ok (t, s)
  | _ => Err malformed
  end.

Definition is_return o : bool := match o with Ireturn | Lreturn | Freturn | Dreturn | Areturn | Return => true | _ => false end.

Definition execute_return code (located : located_t) s : Res JvmControlError (option value * operands_t) :=
  let i := li_instruction located in
  let o := pi_opcode i in
  match pi_operands i, branch_targets code (pi_id i) with
  | PNone, [] =>
    if decide (o = Return) then Ok (None, s)
    else
      let? v := map_err (fun e => control_error located (CStack e)) (stack_top s) in
      if return_value o v then match stack_pop s with Ok (v, s) => Ok (Some v, s) | _ => Panic end
      else Err (control_error located CCategory)
  | _, _ => Err (control_error located CMalformed)
  end.

Definition execute_control_instruction code (cursor : CodeCursor) s (interrupt_requested : bool) : Res JvmControlError (JvmControlOutcome * operands_t) :=
  let? located := code_instruction code cursor in
  let i := li_instruction located in
  if interrupt_requested && li_safepoint located then Ok (COInterrupted (pi_id i) cursor, s)
  else if is_return (pi_opcode i) then let? (v, s) := execute_return code located s in Ok (COReturn v (receipt i), s)
  else let? (t, s) := select_cursor code cursor located s in Ok (COContinue t (receipt i), s).
End Execute.
