(* ===== verification/JvmVerify.v ===== *)
(** * The JVM verifier

    crates/sim-lib-lang-jvm/src/verifier/frame.rs, stack_map.rs and
    initialization.rs: the transfer of each instruction on typed frames, method
    descriptors and the entry frame, and handler entries. *)

From stdpp Require Import gmap strings.
From Stdlib Require Import Ascii String.
From S2P Require Import Prelude BTree Lattice DataflowGraph MachineCode JvmTypes JvmCode JvmExecute.

(** Without [DynamicBootstrap], which only the transfer of [invokedynamic]
    reports. *)
Inductive VerificationTransferKind :=
| TMalformedPreparedInput
| TLocalBounds
| TStackBounds
| TCategory
| TReturnType
| TConstant (index : N)
| TUninitializedUse
| TIllegalConstructorReceiver
| TInitializationMerge
| TUninitializedHandlerEntry
| TFieldStaticness
| TMemberAccess
| TProtectedMemberAccess
| TMemoryType
| TArrayType
| TInvocationType
| TInvocationStaticness
| TInvocationOwnerKind
| TSignaturePolymorphic.

Record VerificationTransferError := { te_instruction : N; te_offset : nat; te_opcode : Opcode; te_kind : VerificationTransferKind }.

Implicit Types (i : PreparedJvmInstruction) (o : Opcode) (st : VerificationState) (offset : nat) (operands : list InstructionOperand).

(** [fail] of the transfers. *)
Definition located_failure {A} i offset (r : Res VerificationTransferKind A) : Res VerificationTransferError A :=
  map_err (fun kind => {| te_instruction := pi_id i; te_offset := offset; te_opcode := pi_opcode i; te_kind := kind |}) r.

Definition require (b : bool) (kind : VerificationTransferKind) : Res VerificationTransferKind unit := if b then Ok tt else Err kind.

Definition with_locals st f : VerificationState := {| vs_locals := f; vs_stack := vs_stack st |}.

Definition with_stack st f : VerificationState := {| vs_locals := vs_locals st; vs_stack := f |}.

Definition pushed st (t : VerificationType) : Res VerificationTransferKind VerificationState :=
  let? stack := map_err (fun _ => TStackBounds) (frame_push (vs_stack st) t) in Ok (with_stack st stack).

Definition restacked st (values : list VerificationType) : Res VerificationTransferKind VerificationState :=
  let? stack := map_err (fun _ => TStackBounds) (stack_from_values (frame_capacity (vs_stack st)) values) in Ok (with_stack st stack).

(** ** Constants, locals and the stack *)

Definition constant_operands_valid o operands : bool :=
  match o, operands with
  | (Bipush | Sipush), [OImmediate _] => true
  | (Bipush | Sipush), _ => false
  | (Ldc | LdcW | Ldc2W), [OConstant _] => true
  | (Ldc | LdcW | Ldc2W), _ => false
  | _, [] => true
  | _, _ => false
  end.

Definition require_verification_category (t : VerificationType) (x : Expected) : bool :=
  match x, t with
  | XInt, VInt | XLong, VLong | XFloat, VFloat | XDouble, VDouble
  | XReference, (VNull | VReference _ | VUninitializedThis | VUninitialized _) => true
  | _, _ => false
  end.

Definition verifier_implicit_local o (load : bool) : option (Expected * option nat) := implicit_local o load.

Definition verifier_local_access o operands (load : bool) : Res VerificationTransferKind (option (nat * Expected)) :=
  match match explicit_local o load with Some x => Some (x, None) | None => verifier_implicit_local o load end with
  | None => Ok None
  | Some (x, Some slot) => match operands with [] => Ok (Some (slot, x)) | _ => Err TMalformedPreparedInput end
  | Some (x, None) => match operands with [OLocal slot] => Ok (Some (slot, x)) | _ => Err TMalformedPreparedInput end
  end.

(** The type of a constant. *)
Definition constant_type (resolve : N -> option VerificationType) o operands : Res VerificationTransferKind (option VerificationType) :=
  match o with
  | AconstNull => Ok (Some VNull)
  | IconstM1 | Iconst0 | Iconst1 | Iconst2 | Iconst3 | Iconst4 | Iconst5 | Bipush | Sipush => Ok (Some VInt)
  | Lconst0 | Lconst1 => Ok (Some VLong)
  | Fconst0 | Fconst1 | Fconst2 => Ok (Some VFloat)
  | Dconst0 | Dconst1 => Ok (Some VDouble)
  | Ldc | LdcW | Ldc2W =>
    match operands with
    | [OConstant index] =>
      let? t := ok_or (TConstant index) (resolve index) in
      let? _ := require (bool_decide (type_width t = if decide (o = Ldc2W) then 2 else 1)) (TConstant index) in
      Ok (Some t)
    | _ => Err TMalformedPreparedInput
    end
  | _ => Ok None
  end.

Definition transfer_shuffle i st (choices : shuffle_choices) : Res VerificationTransferKind VerificationState :=
  let? _ := require (match in_operands (pi_instruction i) with [] => true | _ => false end) TMalformedPreparedInput in
  let values := frame_values (vs_stack st) in
  let widths := type_width <$> values in
  match List.find (fun io => bool_decide (io.1 `suffix_of` widths)) choices with
  | None => Err (if (sum_list widths <? pi_input_width i)%nat then TStackBounds else TCategory)
  | Some (input, output) =>
    let prefix := length values - length input in
    let? shuffled := collect (fun index => expect (values !! (prefix + index))) output in
    restacked st (take prefix values ++ shuffled)
  end.

Definition transfer_load st (slot : nat) (x : Expected) : Res VerificationTransferKind VerificationState :=
  let? t := ok_or TLocalBounds (frame_get (vs_locals st) slot) in
  let? _ := require (require_verification_category t x) TCategory in
  pushed st t.

Definition transfer_store st (slot : nat) (x : Expected) : Res VerificationTransferKind VerificationState :=
  let values := frame_values (vs_stack st) in
  let? t := ok_or TStackBounds (last values) in
  let? _ := require (require_verification_category t x) TCategory in
  let? locals := map_err (fun _ => TLocalBounds) (set_local (vs_locals st) slot t) in
  restacked (with_locals st locals) (removelast values).

Definition transfer_increment st operands : Res VerificationTransferKind VerificationState :=
  match operands with
  | [OLocal slot; OImmediate _] =>
    let? t := ok_or TLocalBounds (frame_get (vs_locals st) slot) in
    let? _ := require (bool_decide (t = VInt)) TCategory in
    Ok st
  | _ => Err TMalformedPreparedInput
  end.

Definition transfer_storage (resolve : N -> option VerificationType) i st : Res VerificationTransferKind VerificationState :=
  let o := pi_opcode i in
  let operands := in_operands (pi_instruction i) in
  if decide (o = Nop) then match operands with [] => Ok st | _ => Err TMalformedPreparedInput end
  else
    let? constant := constant_type resolve o operands in
    match constant with
    | Some t => let? _ := require (constant_operands_valid o operands) TMalformedPreparedInput in pushed st t
    | None =>
      let? load := verifier_local_access o operands true in
      match load with
      | Some (slot, x) => transfer_load st slot x
      | None =>
        let? store := verifier_local_access o operands false in
        match store with
        | Some (slot, x) => transfer_store st slot x
        | None =>
          if decide (o = Iinc) then transfer_increment st operands
          else match shuffle_descriptor o with Some choices => transfer_shuffle i st choices | None => Err TMalformedPreparedInput end
        end
      end
    end.

Definition transfer_storage_instruction (resolve : N -> option VerificationType) i offset st : Res VerificationTransferError VerificationState :=
  located_failure i offset (transfer_storage resolve i st).

(** ** Numbers *)

Definition numeric_signature o : option (list VerificationType * VerificationType) :=
  match o with
  | Iadd | Isub | Imul | Idiv | Irem | Iand | Ior | Ixor | Ishl | Ishr | Iushr => Some ([VInt; VInt], VInt)
  | Ladd | Lsub | Lmul | Ldiv | Lrem | Land | Lor | Lxor => Some ([VLong; VLong], VLong)
  | Lshl | Lshr | Lushr => Some ([VLong; VInt], VLong)
  | Fadd | Fsub | Fmul | Fdiv | Frem => Some ([VFloat; VFloat], VFloat)
  | Dadd | Dsub | Dmul | Ddiv | Drem => Some ([VDouble; VDouble], VDouble)
  | Ineg | I2b | I2c | I2s => Some ([VInt], VInt)
  | Lneg => Some ([VLong], VLong)
  | Fneg => Some ([VFloat], VFloat)
  | Dneg => Some ([VDouble], VDouble)
  | I2l => Some ([VInt], VLong)
  | I2f => Some ([VInt], VFloat)
  | I2d => Some ([VInt], VDouble)
  | L2i => Some ([VLong], VInt)
  | L2f => Some ([VLong], VFloat)
  | L2d => Some ([VLong], VDouble)
  | F2i => Some ([VFloat], VInt)
  | F2l => Some ([VFloat], VLong)
  | F2d => Some ([VFloat], VDouble)
  | D2i => Some ([VDouble], VInt)
  | D2l => Some ([VDouble], VLong)
  | D2f => Some ([VDouble], VFloat)
  | Lcmp => Some ([VLong; VLong], VInt)
  | Fcmpl | Fcmpg => Some ([VFloat; VFloat], VInt)
  | Dcmpl | Dcmpg => Some ([VDouble; VDouble], VInt)
  | _ => None
  end.

Definition transfer_numeric i st : Res VerificationTransferKind VerificationState :=
  if decide (pi_opcode i = Iinc) then transfer_storage (fun _ => None) i st
  else
    let? _ := require (match in_operands (pi_instruction i) with [] => true | _ => false end) TMalformedPreparedInput in
    let? sig := ok_or TMalformedPreparedInput (numeric_signature (pi_opcode i)) in
    let values := frame_values (vs_stack st) in
    let? _ := require (length sig.1 <=? length values)%nat TStackBounds in
    let split := length values - length sig.1 in
    let? _ := require (bool_decide (drop split values = sig.1)) TCategory in
    restacked st (take split values ++ [sig.2]).

Definition transfer_numeric_instruction i offset st : Res VerificationTransferError VerificationState := located_failure i offset (transfer_numeric i st).

(** ** Branches and returns *)

Inductive VerificationReturnType := RtVoid | RtValue (t : VerificationType).

Definition verification_category_matches (actual wanted : VerificationType) : bool :=
  match wanted with
  | VReference _ => match actual with VNull | VReference _ => true | _ => false end
  | _ => bool_decide (actual = wanted)
  end.

Definition is_branch (x : InstructionOperand) : bool := match x with OBranch _ => true | _ => false end.

(** [chunks_exact(2)] all being a key and a branch, the length being even. *)
Fixpoint lookup_pairs_valid operands : bool :=
  match operands with
  | [] => true
  | OLookupKey _ :: OBranch _ :: rest => lookup_pairs_valid rest
  | _ => false
  end.

Definition control_operands_valid o operands : bool :=
  match o with
  | Ifeq | Ifne | Iflt | Ifge | Ifgt | Ifle | IfIcmpeq | IfIcmpne | IfIcmplt | IfIcmpge | IfIcmpgt | IfIcmple | IfAcmpeq | IfAcmpne | Goto | Ifnull | Ifnonnull | GotoW =>
    match operands with [OBranch _] => true | _ => false end
  | Tableswitch =>
    match operands with
    | OBranch _ :: OTableLow low :: OTableHigh high :: rest => (high - low + 1 =? Z.of_nat (length rest))%Z && forallb is_branch rest
    | _ => false
    end
  | Lookupswitch => match operands with OBranch _ :: rest => lookup_pairs_valid rest | _ => false end
  | Ireturn | Lreturn | Freturn | Dreturn | Areturn | Return => match operands with [] => true | _ => false end
  | _ => false
  end.

Definition control_inputs o : option (list VerificationType) :=
  match o with
  | Ifeq | Ifne | Iflt | Ifge | Ifgt | Ifle | Tableswitch | Lookupswitch => Some [VInt]
  | IfIcmpeq | IfIcmpne | IfIcmplt | IfIcmpge | IfIcmpgt | IfIcmple => Some [VInt; VInt]
  | IfAcmpeq | IfAcmpne => Some [VReference RtObject; VReference RtObject]
  | Ifnull | Ifnonnull => Some [VReference RtObject]
  | Goto | GotoW => Some []
  | Ireturn => Some [VInt]
  | Lreturn => Some [VLong]
  | Freturn => Some [VFloat]
  | Dreturn => Some [VDouble]
  | Areturn => Some [VReference RtObject]
  | Return => Some []
  | _ => None
  end.

Definition is_uninitialized (t : VerificationType) : bool := match t with VUninitialized _ | VUninitializedThis => true | _ => false end.

Definition frame_has_uninitialized (f : VerificationFrame) : bool :=
  match normalized_slots f with
  | Some slots => existsb (fun s => match s with SValue t => is_uninitialized t | _ => false end) slots
  | None => false
  end.

Definition transfer_control (return_type : VerificationReturnType) i st : Res VerificationTransferKind VerificationState :=
  let o := pi_opcode i in
  let? expected := ok_or TMalformedPreparedInput (control_inputs o) in
  let? _ := require (control_operands_valid o (in_operands (pi_instruction i))) TMalformedPreparedInput in
  let values := frame_values (vs_stack st) in
  let? _ := require (length expected <=? length values)%nat TStackBounds in
  let split := length values - length expected in
  let? _ := require (forallb (fun aw => verification_category_matches aw.1 aw.2) (zip (drop split values) expected)) TCategory in
  if is_return o then
    let? actual := if decide (o = Return) then Ok None else let? t := expect (last values) in Ok (Some t) in
    let? _ := require (negb (frame_has_uninitialized (vs_locals st) || frame_has_uninitialized (vs_stack st))) TUninitializedUse in
    let? _ := require (match actual, return_type with
                       | None, RtVoid => true
                       | Some t, RtValue declared => type_less_equal t declared
                       | _, _ => false
                       end) TReturnType in
    restacked st (take split values)
  else restacked st (take split values).

Definition transfer_control_instruction (return_type : VerificationReturnType) i offset st : Res VerificationTransferError VerificationState :=
  located_failure i offset (transfer_control return_type i st).

(** ** Descriptors

    A descriptor is a string of bytes; positions are byte offsets. *)

Inductive StackMapExpansionError :=
| InvalidDescriptor (descriptor : string) (offset : nat)
| LocalsWidth (offset : option N) (width limit : nat)
| StackWidth (offset : N) (width limit : nat)
| ChopUnderflow (offset : N) (requested available : nat)
| AppendCount (offset : N) (declared actual : nat)
| InvalidClass (offset : N) (constant_pool_index : N)
| OffsetOverflow
| NotInstructionBoundary (offset : N).

Implicit Types (d : string).

Definition byte_at d (cursor : nat) : option ascii := String.get cursor d.

(** The position of the next semicolon from [start] on. *)
Fixpoint find_semicolon (fuel : nat) d (start : nat) : option nat :=
  match fuel with
  | O => None
  | S fuel => match byte_at d start with Some c => if (c =? ";")%char then Some start else find_semicolon fuel d (S start) | None => None end
  end.

Definition is_primitive (c : ascii) : bool := existsb (fun x => (x =? c)%char) ["B"; "C"; "D"; "F"; "I"; "J"; "S"; "Z"]%char.

Definition is_int_family (c : ascii) : bool := existsb (fun x => (x =? c)%char) ["B"; "C"; "I"; "S"; "Z"]%char.

(** The end of a class name that begins after the [L] at [cursor]; it may not be
    empty. *)
Definition class_end d (start cursor : nat) : Res StackMapExpansionError nat :=
  let? end_ := ok_or (InvalidDescriptor d start) (find_semicolon (String.length d) d (cursor + 1)) in
  if (end_ =? cursor + 1)%nat then Err (InvalidDescriptor d start) else Ok end_.

Fixpoint skip_brackets (fuel : nat) d (cursor : nat) : nat :=
  match fuel with
  | O => cursor
  | S fuel => match byte_at d cursor with Some c => if (c =? "[")%char then skip_brackets fuel d (S cursor) else cursor | None => cursor end
  end.

Definition parse_descriptor_type d (start : nat) : Res StackMapExpansionError (VerificationType * nat) :=
  match byte_at d start with
  | None => Err (InvalidDescriptor d start)
  | Some c =>
    if is_int_family c then Ok (VInt, start + 1)
    else if (c =? "F")%char then Ok (VFloat, start + 1)
    else if (c =? "J")%char then Ok (VLong, start + 1)
    else if (c =? "D")%char then Ok (VDouble, start + 1)
    else if (c =? "L")%char then
      let? end_ := class_end d start start in
      Ok (VReference (RtClass (String.substring (start + 1) (end_ - (start + 1)) d)), end_ + 1)
    else if (c =? "[")%char then
      let cursor := skip_brackets (String.length d) d start in
      match byte_at d cursor with
      | Some c =>
        let? cursor := if is_primitive c then Ok cursor else if (c =? "L")%char then class_end d start cursor else Err (InvalidDescriptor d start) in
        Ok (VReference (RtArray (String.substring start (cursor + 1 - start) d)), cursor + 1)
      | None => Err (InvalidDescriptor d start)
      end
    else Err (InvalidDescriptor d start)
  end.

Record InitialFrameInput := { if_declaring_class : string; if_method_name : string; if_descriptor : string; if_is_static : bool; if_max_locals : nat; if_max_stack : nat }.

(** The arguments up to the closing parenthesis. *)
Fixpoint parse_arguments (fuel : nat) d (cursor : nat) : Res StackMapExpansionError (list VerificationType * nat) :=
  match fuel with
  | O => NoFuel
  | S fuel =>
    match byte_at d cursor with
    | None => Err (InvalidDescriptor d cursor)
    | Some c =>
      if (c =? ")")%char then Ok ([], cursor)
      else
        let? (t, cursor) := parse_descriptor_type d cursor in
        let? (ts, cursor) := parse_arguments fuel d cursor in
        Ok (t :: ts, cursor)
    end
  end.

Definition verification_width (values : list VerificationType) : nat :=
  sum_list_with (fun t => match vtype_width t with Some Category2 => 2 | _ => 1 end) values.

Definition is_ascii d : bool := forallb (fun c => (nat_of_ascii c <? 128)%nat) (String.list_ascii_of_string d).

Definition derive_initial_locals (input : InitialFrameInput) : Res StackMapExpansionError (list VerificationType) :=
  let d := if_descriptor input in
  let receiver :=
    if if_is_static input then []
    else [if String.eqb (if_method_name input) "<init>" then VUninitializedThis else VReference (RtClass (if_declaring_class input))] in
  match is_ascii d, byte_at d 0 with
  | true, Some "("%char =>
    let? (arguments, cursor) := parse_arguments (S (String.length d)) d 1 in
    let cursor := cursor + 1 in
    let? cursor :=
      match byte_at d cursor with
      | None => Err (InvalidDescriptor d cursor)
      | Some c => if (c =? "V")%char then Ok (cursor + 1) else let? (_, cursor) := parse_descriptor_type d cursor in Ok cursor
      end in
    if decide (cursor <> String.length d) then Err (InvalidDescriptor d cursor)
    else
      let locals := receiver ++ arguments in
      let w := verification_width locals in
      if (if_max_locals input <? w)%nat then Err (LocalsWidth None w (if_max_locals input)) else Ok locals
  | _, _ => Err (InvalidDescriptor d 0)
  end.

(** The loop of [VerificationState::initial]; a refused slot aborts. *)
Fixpoint set_locals f (slot : nat) (values : list VerificationType) : Res StackMapExpansionError VerificationFrame :=
  match values with
  | [] => Ok f
  | t :: values => match set_local f slot t with Ok f => set_locals f (slot + type_width t) values | _ => Panic end
  end.

Definition initial_state (input : InitialFrameInput) : Res StackMapExpansionError VerificationState :=
  let? values := derive_initial_locals input in
  let? locals := set_locals (new_frame Locals (if_max_locals input)) 0 values in
  Ok {| vs_locals := locals; vs_stack := new_frame OperandStack (if_max_stack input) |}.

(** ** Allocation and construction *)

Record VerificationConstructor := { ctor_owner : string; ctor_name : string; ctor_descriptor : string; ctor_receiver : VerificationType }.

Definition constant_operand operands : bool := match operands with [OConstant _] => true | _ => false end.

Definition transfer_new i st : Res VerificationTransferKind VerificationState :=
  let? _ := require (bool_decide (pi_opcode i = New) && constant_operand (in_operands (pi_instruction i))) TMalformedPreparedInput in
  pushed st (VUninitialized (pi_id i)).

(** A malformed descriptor gives [None]. *)
Definition descriptor_arguments d : Res VerificationTransferKind (option (list VerificationType)) :=
  match byte_at d 0 with
  | Some "("%char =>
    match parse_arguments (S (String.length d)) d 1 with
    | Ok (ts, _) => Ok (Some ts)
    | Err _ => Ok None
    | Panic => Panic
    | NoFuel => NoFuel
    end
  | _ => Ok None
  end.

Definition replace_type (from to t : VerificationType) : VerificationType := if decide (t = from) then to else t.

Definition replace_alias f (from to : VerificationType) : VerificationFrame :=
  match f with
  | FReachable k slots => FReachable k ((fun s => match s with SValue t => SValue (replace_type from to t) | _ => s end) <$> slots)
  | FBottom _ _ => f
  end.

Definition transfer_constructor (c : VerificationConstructor) i st : Res VerificationTransferKind VerificationState :=
  let? _ := require (bool_decide (pi_opcode i = Invokespecial) && constant_operand (in_operands (pi_instruction i))) TMalformedPreparedInput in
  let? _ := require (String.eqb (ctor_name c) "<init>") TIllegalConstructorReceiver in
  let? arguments := descriptor_arguments (ctor_descriptor c) in
  let? arguments := ok_or TMalformedPreparedInput arguments in
  let values := frame_values (vs_stack st) in
  let? _ := require (length arguments + 1 <=? length values)%nat TStackBounds in
  let receiver_index := length values - length arguments - 1 in
  let? _ := require (forallb (fun aw => verification_category_matches aw.1 aw.2) (zip (drop (receiver_index + 1) values) arguments)) TCategory in
  let? receiver := expect (values !! receiver_index) in
  let? _ := require (bool_decide (receiver = ctor_receiver c) && is_uninitialized receiver) TIllegalConstructorReceiver in
  let initialized := VReference (RtClass (ctor_owner c)) in
  let values := replace_type receiver initialized <$> take receiver_index values in
  restacked {| vs_locals := replace_alias (vs_locals st) receiver initialized; vs_stack := replace_alias (vs_stack st) receiver initialized |} values.

(** ** Merges and handler entries *)

Definition slots_agree (a b : VerificationSlot) : bool :=
  match a, b with
  | SValue a, SValue b => eqb (is_uninitialized a) (is_uninitialized b) && (negb (is_uninitialized a) || bool_decide (a = b))
  | _, _ => true
  end.

Definition reject_initialization_conflict f g : bool :=
  match normalized_slots f, normalized_slots g with
  | Some l, Some r => forallb (fun ab => slots_agree ab.1 ab.2) (zip l r)
  | _, _ => true
  end.

Definition join_initialization_states a b : Res VerificationTransferKind VerificationState :=
  let? _ := require (reject_initialization_conflict (vs_locals a) (vs_locals b)) TInitializationMerge in
  let? _ := require (reject_initialization_conflict (vs_stack a) (vs_stack b)) TInitializationMerge in
  Ok {| vs_locals := frame_join (vs_locals a) (vs_locals b); vs_stack := frame_join (vs_stack a) (vs_stack b) |}.

Definition handler_entry_state st (exception : ReferenceType) : Res VerificationTransferKind VerificationState :=
  let? _ := require (negb (frame_has_uninitialized (vs_locals st) || frame_has_uninitialized (vs_stack st))) TUninitializedHandlerEntry in
  let? stack := map_err (fun _ => TStackBounds) (frame_push (new_frame OperandStack (frame_capacity (vs_stack st))) (VReference exception)) in
  Ok {| vs_locals := vs_locals st; vs_stack := stack |}.
