(* ===== verification/JvmSound.v ===== *)
(** * Soundness of the JVM verifier

    What crates/sim-lib-lang-jvm/src/verifier promises to execution.rs, numeric.rs
    and control.rs: when the transfer of an instruction accepts a typed frame and
    a run-time frame conforms to it, the instruction runs without a category,
    bounds or stack error and leaves a frame that conforms to the transferred
    one. *)

From stdpp Require Import gmap strings.
From Stdlib Require Import SpecFloat.
From S2P Require Import Prelude BTree Lattice MachineStack MachineShuffle MachineSlots MachineCode ManagedNode JvmTypes JvmCode JvmExecute JvmVerify.

(** ** Ranges of integers *)

Definition in_range (bits : Z) (z : Z) : Prop := (int_min bits <= z <= int_max bits)%Z.

Lemma wrap_range bits z : (0 < bits)%Z -> in_range bits (wrap bits z).
Proof.
  intros Hb. unfold in_range, wrap, int_min, int_max. pose proof (Z.mod_pos_bound (z + 2 ^ (bits - 1)) (2 ^ bits) ltac:(lia)).
  assert (2 ^ bits = 2 * 2 ^ (bits - 1))%Z by (rewrite <- Z.pow_succ_r by lia; f_equal; lia). lia.
Qed.

(** A number is in range when the bits from the sign bit on agree. *)
Lemma range_bits n z : (0 <= n)%Z -> in_range (n + 1) z <-> (Z.shiftr z n = 0 \/ Z.shiftr z n = -1)%Z.
Proof.
  intros Hn. unfold in_range, int_min, int_max. replace (n + 1 - 1)%Z with n by lia. rewrite Z.shiftr_div_pow2 by done.
  assert (0 < 2 ^ n)%Z as Hp by lia. pose proof (Z.div_mod z (2 ^ n) ltac:(lia)). pose proof (Z.mod_pos_bound z (2 ^ n) Hp). nia.
Qed.

(** Bitwise operations stay in range. *)
Lemma bitwise_range (op : Z -> Z -> Z) bits a b : (0 < bits)%Z -> (forall x y k, Z.shiftr (op x y) k = op (Z.shiftr x k) (Z.shiftr y k)) ->
  (op 0 0 = 0 \/ op 0 0 = -1)%Z -> (op 0 (-1) = 0 \/ op 0 (-1) = -1)%Z -> (op (-1) 0 = 0 \/ op (-1) 0 = -1)%Z -> (op (-1) (-1) = 0 \/ op (-1) (-1) = -1)%Z ->
  in_range bits a -> in_range bits b -> in_range bits (op a b).
Proof. intros Hn Hop H1 H2 H3 H4. replace bits with (bits - 1 + 1)%Z by lia. rewrite !range_bits, Hop by lia. intros [->| ->] [->| ->]; done. Qed.

Lemma land_range bits a b : (0 < bits)%Z -> in_range bits a -> in_range bits b -> in_range bits (Z.land a b).
Proof. intros Hn. apply bitwise_range; try done; [apply Z.shiftr_land|cbn; auto..]. Qed.

Lemma lor_range bits a b : (0 < bits)%Z -> in_range bits a -> in_range bits b -> in_range bits (Z.lor a b).
Proof. intros Hn. apply bitwise_range; try done; [apply Z.shiftr_lor|cbn; auto..]. Qed.

Lemma lxor_range bits a b : (0 < bits)%Z -> in_range bits a -> in_range bits b -> in_range bits (Z.lxor a b).
Proof. intros Hn. apply bitwise_range; try done; [apply Z.shiftr_lxor|cbn; auto..]. Qed.

Lemma shiftr_range bits a k : (0 < bits)%Z -> (0 <= k)%Z -> in_range bits a -> in_range bits (Z.shiftr a k).
Proof.
  intros Hb Hk. unfold in_range, int_min, int_max. rewrite Z.shiftr_div_pow2 by done. intros [Hl Hu].
  assert (0 < 2 ^ k)%Z as Hp by lia. pose proof (Z.div_mod a (2 ^ k) ltac:(lia)). pose proof (Z.mod_pos_bound a (2 ^ k) Hp). split; nia.
Qed.

Lemma rem_range bits a b : (0 < bits)%Z -> in_range bits a -> b <> 0%Z -> in_range bits (Z.rem a b).
Proof.
  unfold in_range, int_min, int_max. intros Hbits [Hl Hu] Hb. assert (0 < 2 ^ (bits - 1))%Z by lia. destruct (Z.le_gt_cases 0 a) as [Ha|Ha].
  - pose proof (Z.rem_bound_pos a (Z.abs b) ltac:(lia) ltac:(lia)). pose proof (Z.rem_le a (Z.abs b) ltac:(lia) ltac:(lia)). rewrite Z.rem_abs_r in * by done. lia.
  - pose proof (Z.rem_bound_pos (-a) (Z.abs b) ltac:(lia) ltac:(lia)). pose proof (Z.rem_le (-a) (Z.abs b) ltac:(lia) ltac:(lia)).
    rewrite Z.rem_abs_r, Z.rem_opp_l in * by done. lia.
Qed.

(** ** Ranges of floats

    The mantissa fits the precision and the exponent its range. *)

Definition float_fits (f : FloatFormat) (x : spec_float) : Prop :=
  match x with S754_finite _ m e => (Zpos m < 2 ^ ff_prec f /\ ff_emin f <= e <= ff_emax f - ff_prec f)%Z | _ => True end.

Lemma digits_bound p : (Zpos p < 2 ^ Zpos (digits2_pos p))%Z.
Proof.
  induction p as [p IH|p IH|]; cbn [digits2_pos]; [| |done];
    rewrite Pos2Z.inj_succ, Z.pow_succ_r by lia; lia.
Qed.

Lemma shr_1_half mrs : (0 <= shr_m mrs)%Z -> shr_m (shr_1 mrs) = (shr_m mrs / 2)%Z.
Proof.
  destruct mrs as [[|[p|p|]|p] r s]; cbn [shr_m shr_1]; intros; try lia; try done;
    [apply (Z.div_unique_pos _ _ _ 1)|apply (Z.div_unique_pos _ _ _ 0)]; lia.
Qed.

Lemma shr_1_nonpos mrs : (shr_m mrs <= 0)%Z -> (shr_m (shr_1 mrs) <= 0)%Z.
Proof. destruct mrs as [[|[p|p|]|[p|p|]] r s]; cbn; lia. Qed.

Lemma shr_iter p mrs : (0 <= shr_m mrs)%Z -> shr_m (SpecFloat.iter_pos shr_1 p mrs) = (shr_m mrs / 2 ^ Zpos p)%Z.
Proof.
  assert (Hd : forall a n, (0 <= a)%Z -> (0 <= a / 2 ^ Zpos n)%Z) by (intros; apply Z.div_pos; lia).
  revert mrs. induction p as [p IH|p IH|]; intros mrs Hm; cbn [SpecFloat.iter_pos].
  - pose proof (shr_1_half mrs Hm) as H1. assert (0 <= shr_m (shr_1 mrs))%Z by (rewrite H1; apply Z.div_pos; lia).
    rewrite !IH, H1, !Z.div_div by (rewrite ?IH; auto; lia). f_equal. rewrite <- !Z.pow_add_r, <- Z.pow_succ_r by lia. f_equal. lia.
  - rewrite !IH, Z.div_div by (rewrite ?IH; auto; lia). f_equal. rewrite <- Z.pow_add_r by lia. f_equal. lia.
  - by apply shr_1_half.
Qed.

Lemma shr_iter_nonpos p mrs : (shr_m mrs <= 0)%Z -> (shr_m (SpecFloat.iter_pos shr_1 p mrs) <= 0)%Z.
Proof. revert mrs. induction p; intros; cbn [SpecFloat.iter_pos]; eauto using shr_1_nonpos. Qed.

(** A shift to the exponent of a format leaves a mantissa of its precision. *)
Lemma shr_fexp_fits prec emax m e l mrs e' p : (0 < prec)%Z -> shr_fexp prec emax m e l = (mrs, e') -> shr_m mrs = Zpos p ->
  (Zpos p < 2 ^ prec /\ emin prec emax <= e')%Z.
Proof.
  intros Hprec Hs Hp. unfold shr_fexp, shr in Hs. assert (Hl : shr_m (shr_record_of_loc m l) = m) by by destruct l as [|[]].
  destruct m as [|q|q]; cbn [Zdigits2] in Hs.
  - exfalso. repeat case_match; simplify_eq; [rewrite Hl in Hp; lia|rewrite shr_iter in Hp by lia; rewrite Hl in Hp; by rewrite Z.div_0_l in Hp by lia|rewrite Hl in Hp; lia].
  - pose proof (digits_bound q) as Hq. remember (fexp prec emax (Zpos (digits2_pos q) + e) - e)%Z as n eqn:Hn. unfold fexp in Hn.
    destruct n as [|k|k]; injection Hs as <- <-.
    1,3: rewrite Hl in Hp; injection Hp as <-; split; [|lia]; eapply Z.lt_le_trans; [done|]; apply Z.pow_le_mono_r; lia.
    rewrite shr_iter, Hl in Hp by lia. split; [|lia]. rewrite <- Hp. apply Z.div_lt_upper_bound; [lia|].
    rewrite <- Z.pow_add_r by lia. eapply Z.lt_le_trans; [done|]. apply Z.pow_le_mono_r; lia.
  - exfalso. repeat case_match; simplify_eq; try (rewrite Hl in Hp; lia).
    match type of Hp with shr_m (SpecFloat.iter_pos shr_1 ?k ?r) = _ => pose proof (shr_iter_nonpos k r ltac:(rewrite Hl; lia)) end. lia.
Qed.

Lemma round_aux_fits f sx mx ex lx : (0 < ff_prec f)%Z -> float_fits f (binary_round_aux (ff_prec f) (ff_emax f) sx mx ex lx).
Proof.
  intros Hprec. unfold binary_round_aux. destruct (shr_fexp _ _ mx ex lx) as [mrs' e']. destruct (shr_fexp _ _ _ e' loc_Exact) as [mrs e] eqn:Hs.
  destruct (shr_m mrs) as [|p|p] eqn:Hp; try done. destruct (Z.leb_spec e (ff_emax f - ff_prec f)); [|done].
  destruct (shr_fexp_fits _ _ _ _ _ _ _ _ Hprec Hs Hp). cbn. unfold ff_emin. lia.
Qed.

Lemma normalize_fits f m e s : (0 < ff_prec f)%Z -> float_fits f (binary_normalize (ff_prec f) (ff_emax f) m e s).
Proof. intros Hprec. destruct m as [|m|m]; [done|..]; cbn; unfold binary_round; destruct (shl_align _ _ _); by apply round_aux_fits. Qed.

(** The formats in use. *)
Definition standard_format (f : FloatFormat) : Prop := f = F32 \/ f = F64.

Definition float_bits (f : FloatFormat) : Z := (ff_mantissa_bits f + ff_exponent_bits f + 1)%Z.

Definition bits_fit (f : FloatFormat) (b : Z) : Prop := (0 <= b < 2 ^ float_bits f)%Z.

(** Numbers of a concrete format. *)
Ltac format_lia Hf :=
  destruct Hf as [->| ->]; unfold float_bits, ff_mantissa_bits, ff_emin, emin in *; cbn [ff_prec ff_emax ff_exponent_bits F32 F64] in *; lia.

Lemma standard_prec f : standard_format f -> (0 < ff_prec f)%Z.
Proof. by intros [->| ->]. Qed.

Lemma from_bits_fits f b : standard_format f -> float_fits f (from_bits f b).
Proof.
  intros Hf. unfold from_bits. cbn zeta.
  pose proof (Z.mod_pos_bound b (2 ^ ff_mantissa_bits f) ltac:(format_lia Hf)) as Hm.
  pose proof (Z.mod_pos_bound (Z.shiftr b (ff_mantissa_bits f)) (2 ^ ff_exponent_bits f) ltac:(format_lia Hf)) as He.
  set (m := (b mod 2 ^ ff_mantissa_bits f)%Z) in *. set (e := (Z.shiftr b (ff_mantissa_bits f) mod 2 ^ ff_exponent_bits f)%Z) in *. clearbody m e.
  destruct (Z.eqb_spec e (2 ^ ff_exponent_bits f - 1)); [by case_match|]. destruct (Z.eqb_spec e 0).
  - destruct m; try done. unfold float_fits. format_lia Hf.
  - case_match eqn:E; try done. unfold float_fits. rewrite <- E. format_lia Hf.
Qed.

Lemma to_bits_fit f x : standard_format f -> float_fits f x -> bits_fit f (to_bits f x).
Proof.
  intros Hf Hx. unfold bits_fit, to_bits. cbn zeta. destruct x as [s|s| |s m e]; [destruct s; format_lia Hf..|format_lia Hf|].
  destruct Hx as (Hm & He). destruct (Z.ltb_spec (Zpos m) (2 ^ ff_mantissa_bits f)); destruct s; format_lia Hf.
Qed.

Lemma convert_fits f x : standard_format f -> float_fits f (float_convert f x).
Proof. intros Hf. destruct x; try done. by apply normalize_fits, standard_prec. Qed.

Lemma of_int_fits f z : standard_format f -> float_fits f (float_of_int f z).
Proof. intros. by apply normalize_fits, standard_prec. Qed.

Lemma add_fits f x y : standard_format f -> float_fits f x -> float_fits f y -> float_fits f (SFadd (ff_prec f) (ff_emax f) x y).
Proof. intros Hf%standard_prec Hx Hy. destruct x as [[]|[]| |], y as [[]|[]| |]; try done. by apply normalize_fits. Qed.

Lemma sub_fits f x y : standard_format f -> float_fits f x -> float_fits f y -> float_fits f (SFsub (ff_prec f) (ff_emax f) x y).
Proof. intros Hf%standard_prec Hx Hy. destruct x as [[]|[]| |], y as [[]|[]| |]; try done. by apply normalize_fits. Qed.

Lemma mul_fits f x y : standard_format f -> float_fits f (SFmul (ff_prec f) (ff_emax f) x y).
Proof. intros Hf%standard_prec. destruct x, y; try done. by apply round_aux_fits. Qed.

Lemma div_fits f x y : standard_format f -> float_fits f (SFdiv (ff_prec f) (ff_emax f) x y).
Proof. intros Hf%standard_prec. destruct x, y; try done. unfold SFdiv. destruct (SFdiv_core_binary _ _ _ _ _ _) as [[]]. by apply round_aux_fits. Qed.

Lemma rem_fits f x y : standard_format f -> float_fits f x -> float_fits f (float_rem f x y).
Proof. intros Hf%standard_prec Hx. destruct x, y; try done. unfold float_rem. case_match; try done. by apply normalize_fits. Qed.

Lemma shiftl_mono (m : positive) e e' : (e <= e')%Z -> (Z.shiftl (Zpos m) e <= Z.shiftl (Zpos m) e')%Z.
Proof.
  intros He. replace (Z.shiftl (Zpos m) e') with (Z.shiftl (Z.shiftl (Zpos m) e') 0) by done. replace e' with (e + (e' - e))%Z by lia.
  destruct (Z.le_gt_cases 0 e) as [H0|H0].
  - rewrite Z.shiftl_0_r, !Z.shiftl_mul_pow2 by lia. apply Z.mul_le_mono_nonneg_l; [lia|]. apply Z.pow_le_mono_r; lia.
  - rewrite Z.shiftl_0_r. destruct (Z.le_gt_cases 0 (e + (e' - e))) as [H1|H1].
    + transitivity (Zpos m); [|rewrite Z.shiftl_mul_pow2 by done; nia]. replace e with (- (- e))%Z at 1 by lia.
      rewrite Z.shiftl_opp_r, Z.shiftr_div_pow2 by lia. apply Z.div_le_upper_bound; nia.
    + replace e with (- (- e))%Z at 1 by lia. replace (e + (e' - e))%Z with (- (- e'))%Z by lia.
      rewrite !Z.shiftl_opp_r, !Z.shiftr_div_pow2 by lia. apply Z.div_le_compat_l; [lia|]. split; [lia|]. apply Z.pow_le_mono_r; lia.
Qed.

(** Finite floats of one sign that are not ordered as asked. *)
Lemma float_le_max M E m e : float_le (S754_finite false M E) (S754_finite false m e) = false -> (e < E \/ e = E /\ Zpos m < Zpos M)%Z.
Proof.
  unfold float_le, SFcompare. destruct (Z.compare_spec E e) as [->|?|?]; [|done|by left].
  change (Pos.compare_cont Eq M m) with (M ?= m)%positive. destruct (Pos.compare_spec M m); try done. intros _. right. lia.
Qed.

Lemma float_le_min M E m e : float_le (S754_finite true m e) (S754_finite true M E) = false -> (e < E \/ e = E /\ Zpos m < Zpos M)%Z.
Proof.
  unfold float_le, SFcompare. destruct (Z.compare_spec e E) as [->|?|?]; [|by left|done].
  change (Pos.compare_cont Eq m M) with (m ?= M)%positive. destruct (Pos.compare_spec m M); try done. intros _. right. lia.
Qed.

(** A mantissa of 53 bits below a threshold, truncated. *)
Lemma truncated_below m e E M bound : (Zpos m < 2 ^ 53)%Z -> (e < E \/ e = E /\ Zpos m < Zpos M)%Z ->
  (forall m, Zpos m < 2 ^ 53 -> Z.shiftl (Zpos m) (E - 1) <= bound)%Z -> (forall m, Zpos m < Zpos M -> Z.shiftl (Zpos m) E <= bound)%Z ->
  (0 <= Z.shiftl (Zpos m) e <= bound)%Z.
Proof.
  intros Hm Hc H1 H2. split; [by apply Z.shiftl_nonneg|]. destruct Hc as [He|[-> HM]]; [|by apply H2].
  transitivity (Z.shiftl (Zpos m) (E - 1)); [apply shiftl_mono; lia|by apply H1].
Qed.

Lemma saturated Mx Ex Mn En lo hi s m e : (Zpos m < 2 ^ 53)%Z -> (lo <= 0 <= hi)%Z ->
  (forall m, Zpos m < 2 ^ 53 -> Z.shiftl (Zpos m) (Ex - 1) <= hi)%Z -> (forall m, Zpos m < Zpos Mx -> Z.shiftl (Zpos m) Ex <= hi)%Z ->
  (forall m, Zpos m < 2 ^ 53 -> Z.shiftl (Zpos m) (En - 1) <= - lo)%Z -> (forall m, Zpos m < Zpos Mn -> Z.shiftl (Zpos m) En <= - lo)%Z ->
  let v := S754_finite s m e in
  (lo <= (if float_le (S754_finite false Mx Ex) v then hi else if float_le v (S754_finite true Mn En) then lo else float_trunc v) <= hi)%Z.
Proof.
  intros Hm H0 Hx1 Hx2 Hn1 Hn2. cbn zeta. destruct s; cbn [float_trunc].
  - replace (float_le (S754_finite false Mx Ex) _) with false by done. destruct (float_le _ _) eqn:Hle; [lia|]. apply float_le_min in Hle.
    pose proof (truncated_below m e En Mn (- lo) Hm Hle Hn1 Hn2). lia.
  - destruct (float_le _ _) eqn:Hle; [lia|]. apply float_le_max in Hle. replace (float_le _ (S754_finite true Mn En)) with false by done.
    pose proof (truncated_below m e Ex Mx hi Hm Hle Hx1 Hx2). lia.
Qed.

Lemma shiftl_down m k bound : (Zpos m < (bound + 1) * 2 ^ Zpos k)%Z -> (Z.shiftl (Zpos m) (Zneg k) <= bound)%Z.
Proof.
  intros Hm. change (Zneg k) with (- Zpos k)%Z. rewrite Z.shiftl_opp_r, Z.shiftr_div_pow2 by done. apply Z.lt_succ_r, Z.div_lt_upper_bound; lia.
Qed.

(** The conversion to an integer is within the integer's range. *)
Lemma float_to_int_range bits v : bits = 32%Z \/ bits = 64%Z -> float_fits F64 v -> in_range bits (float_to_int bits v).
Proof.
  intros Hb Hv. unfold float_to_int. destruct v as [s|s| |s m e]; cbn [float_is_nan]; [destruct Hb as [->| ->]; try destruct s; done..|].
  destruct Hv as [Hm _]. change (ff_prec F64) with 53%Z in Hm. unfold in_range. destruct Hb as [->| ->].
  - change (float_of_int F64 (int_max 32)) with (S754_finite false 9007199250546688 (-22)).
    change (float_of_int F64 (int_min 32)) with (S754_finite true 4503599627370496 (-21)).
    change (int_min 32) with (-2147483648)%Z. change (int_max 32) with 2147483647%Z.
    apply saturated; try done; intros x Hx; apply shiftl_down; lia.
  - change (float_of_int F64 (int_max 64)) with (S754_finite false 4503599627370496 11).
    change (float_of_int F64 (int_min 64)) with (S754_finite true 4503599627370496 11).
    change (int_min 64) with (-9223372036854775808)%Z. change (int_max 64) with 9223372036854775807%Z.
    apply saturated; try done; intros x Hx; rewrite Z.shiftl_mul_pow2 by done; lia.
Qed.

(** ** Values and types

    [instance_of] says which objects a reference type admits. *)

Section Sound.
Context {K T Origin SourceId : Type} `{KernelOrigin Origin SourceId}.
Context (instance_of : ReferenceType -> ManagedId -> Prop).
Implicit Types (v : JvmValue K) (t : VerificationType) (o : Opcode) (i : PreparedJvmInstruction).
Implicit Types (thrown : Res (NumericExecutionError (T:=T)) T).

Definition value_typed v t : Prop :=
  match v, t with
  | Int x, VInt => in_range 32 x
  | Long x, VLong => in_range 64 x
  | Float b, VFloat => bits_fit F32 b
  | Double b, VDouble => bits_fit F64 b
  | Reference None, (VNull | VReference _) => True
  | Reference (Some id), VReference r => instance_of r id
  | Reference (Some _), (VUninitializedThis | VUninitialized _) => True
  | _, _ => False
  end.

Lemma typed_width v t : value_typed v t -> logical_width v = type_width t /\ vtype_width t = Some (if decide (type_width t = 2) then Category2 else Category1).
Proof. destruct v as [| | | |[]|], t; done. Qed.

Lemma typed_category o v t x : require_verification_category t x = true -> value_typed v t -> require_category o v x = Ok tt.
Proof. destruct x, t, v as [| | | |[]|]; done. Qed.

(** ** Arithmetic *)

Lemma typed_int v : value_typed v VInt -> exists x, v = Int x /\ in_range 32 x.
Proof. destruct v as [| | | |[]|]; try done. eauto. Qed.

Lemma typed_long v : value_typed v VLong -> exists x, v = Long x /\ in_range 64 x.
Proof. destruct v as [| | | |[]|]; try done. eauto. Qed.

Lemma typed_float v : value_typed v VFloat -> exists x, v = Float x /\ bits_fit F32 x.
Proof. destruct v as [| | | |[]|]; try done. eauto. Qed.

Lemma typed_double v : value_typed v VDouble -> exists x, v = Double x /\ bits_fit F64 x.
Proof. destruct v as [| | | |[]|]; try done. eauto. Qed.

Lemma distance_bound b n : (0 <= n)%Z -> (0 <= Z.land (unsigned 32 b) (Z.ones n))%Z.
Proof. intros. rewrite Z.land_ones by done. apply Z.mod_pos_bound. lia. Qed.

Lemma range_widen x : in_range 32 x -> in_range 64 x.
Proof. unfold in_range, int_min, int_max. cbn. lia. Qed.

Lemma unsigned_range x : in_range 32 (unsigned 16 x).
Proof. unfold in_range, unsigned, int_min, int_max. pose proof (Z.mod_pos_bound x (2 ^ 16) ltac:(done)). lia. Qed.

Lemma narrow_range bits x : (0 < bits <= 32)%Z -> in_range 32 (wrap bits x).
Proof.
  intros Hb. pose proof (wrap_range bits x ltac:(lia)) as Hw. unfold in_range, int_min, int_max in *.
  pose proof (Z.pow_le_mono_r 2 (bits - 1) (32 - 1) ltac:(lia) ltac:(lia)). lia.
Qed.

Lemma compare_range (c : comparison) : in_range 32 (match c with Lt => -1 | Eq => 0 | Gt => 1 end).
Proof. by destruct c. Qed.

Lemma float_cmp_range a b h : in_range 32 (float_cmp a b h).
Proof. unfold float_cmp. repeat case_match; done. Qed.

Lemma bits_shiftr n x : (0 <= n)%Z -> (0 <= x < 2 ^ n)%Z <-> Z.shiftr x n = 0%Z.
Proof.
  intros Hn. rewrite Z.shiftr_div_pow2 by done. assert (0 < 2 ^ n)%Z as Hp by lia. split; [apply Z.div_small|].
  pose proof (Z.div_mod x (2 ^ n) ltac:(lia)). pose proof (Z.mod_pos_bound x (2 ^ n) Hp). nia.
Qed.

Lemma negate_fits f x : standard_format f -> bits_fit f x -> bits_fit f (Z.lxor x (Z.shiftl 1 (float_bits f - 1))).
Proof.
  intros Hf. unfold bits_fit. rewrite !bits_shiftr by format_lia Hf. intros Hx. rewrite Z.shiftr_lxor, Hx, Z.lxor_0_l.
  apply bits_shiftr; [format_lia Hf|]. rewrite Z.shiftl_1_l. split; [format_lia Hf|]. apply Z.pow_lt_mono_r; format_lia Hf.
Qed.

Lemma f32_standard : standard_format F32.
Proof. by left. Qed.

Lemma f64_standard : standard_format F64.
Proof. by right. Qed.

Lemma negate_f32 x : bits_fit F32 x -> bits_fit F32 (Z.lxor x (Z.shiftl 1 31)).
Proof. apply (negate_fits F32), f32_standard. Qed.

Lemma negate_f64 x : bits_fit F64 x -> bits_fit F64 (Z.lxor x (Z.shiftl 1 63)).
Proof. apply (negate_fits F64), f64_standard. Qed.

Lemma widened_fits x : float_fits F64 (widened x).
Proof. apply convert_fits, f64_standard. Qed.

#[local] Hint Resolve f32_standard f64_standard negate_f32 negate_f64 widened_fits range_widen unsigned_range float_cmp_range : jvm.
#[local] Hint Resolve wrap_range land_range lor_range lxor_range shiftr_range rem_range narrow_range compare_range distance_bound : jvm.
#[local] Hint Resolve to_bits_fit from_bits_fits convert_fits of_int_fits float_to_int_range rem_fits : jvm.
#[local] Hint Extern 1 (float_fits ?f (SFadd _ _ _ _)) => apply (add_fits f) : jvm.
#[local] Hint Extern 1 (float_fits ?f (SFsub _ _ _ _)) => apply (sub_fits f) : jvm.
#[local] Hint Extern 1 (float_fits ?f (SFmul _ _ _ _)) => apply (mul_fits f) : jvm.
#[local] Hint Extern 1 (float_fits ?f (SFdiv _ _ _ _)) => apply (div_fits f) : jvm.
#[local] Hint Extern 1 (_ < _)%Z => lia : jvm.
#[local] Hint Extern 1 (_ < _ <= _)%Z => lia : jvm.
#[local] Hint Unfold f32 f64 widened : jvm.

Ltac typed_values :=
  repeat match goal with
  | H : value_typed _ VInt |- _ => apply typed_int in H as (? & -> & ?)
  | H : value_typed _ VLong |- _ => apply typed_long in H as (? & -> & ?)
  | H : value_typed _ VFloat |- _ => apply typed_float in H as (? & -> & ?)
  | H : value_typed _ VDouble |- _ => apply typed_double in H as (? & -> & ?)
  end.

(** A unary instruction on a value of its type gives one of its result type. *)
Lemma unary_typed o a r v : numeric_signature o = Some ([a], r) -> value_typed v a -> exists v', unary (T:=T) o v = Some (Ok v') /\ value_typed v' r.
Proof.
  destruct o; try done; cbn [numeric_signature]; intros [= <- <-] Hv; typed_values; (eexists; split; [reflexivity|]); cbn [value_typed]; auto with jvm.
Qed.

Definition is_division o : bool := match o with Idiv | Irem | Ldiv | Lrem => true | _ => false end.

Definition is_zero v : bool := match v with Int x | Long x => (x =? 0)%Z | _ => false end.

(** A binary instruction gives a value of its result type, unless it divides by
    zero, which throws. *)
Lemma binary_typed thrown o a b r l v : numeric_signature o = Some ([a; b], r) -> value_typed l a -> value_typed v b ->
  unary (T:=T) o v = None /\
  if is_division o && is_zero v then binary thrown o l v = (let? x := thrown in Err (NArithmetic x))
  else exists v', binary thrown o l v = Ok v' /\ value_typed v' r.
Proof.
  destruct o; try done; cbn [numeric_signature]; intros [= <- <- <-] Hl Hv; typed_values; (split; [done|]); cbn [is_division is_zero andb].
  all: try (eexists; split; [reflexivity|]; cbn [value_typed]; auto with jvm; fail).
  1-4: destruct (Z.eqb_spec x 0) as [->|Hx]; [done|]; unfold binary; cbn [expect_i expect_l rbind]; destruct (Z.eqb_spec x 0); [done|].
  1-4: eexists; split; [reflexivity|]; first [rewrite decide_True by done|rewrite decide_False by done]; cbn [value_typed]; auto with jvm.
  - eexists; split; [reflexivity|]. apply shiftr_range; [lia|apply (distance_bound x 5); lia|done].
  - eexists; split; [reflexivity|]. apply shiftr_range; [lia|apply (distance_bound x 6); lia|done].
Qed.

(** ** Typed operand stacks *)

Definition type_slots t : list VerificationSlot := SValue t :: (if decide (type_width t = 2) then [SCategory2Tail] else []).

(** The slots of a stack of types: packed, the rest unusable. *)
Definition stack_slots (capacity : nat) (ts : list VerificationType) : list VerificationSlot :=
  let slots := concat (type_slots <$> ts) in slots ++ replicate (capacity - length slots) SUnusable.

Definition types_width (ts : list VerificationType) : nat := sum_list_with type_width ts.

Lemma length_type_slots t : length (type_slots t) = type_width t.
Proof. unfold type_slots, type_width. by repeat case_decide. Qed.

Lemma length_packed ts : length (concat (type_slots <$> ts)) = types_width ts.
Proof. induction ts as [|t ts IH]; [done|]. rewrite fmap_cons. cbn [concat]. by rewrite length_app, length_type_slots, IH. Qed.

Lemma types_width_app ts us : types_width (ts ++ us) = types_width ts + types_width us.
Proof. apply sum_list_with_app. Qed.

Lemma types_width_one t : types_width [t] = type_width t.
Proof. unfold types_width. cbn. lia. Qed.

Lemma stack_slots_length n ts : types_width ts <= n -> length (stack_slots n ts) = n.
Proof. intros. unfold stack_slots. rewrite length_app, length_replicate, length_packed. lia. Qed.

Lemma slots_values_app l l' : slots_values (l ++ l') = slots_values l ++ slots_values l'.
Proof. apply omap_app. Qed.

Lemma stack_slots_values n ts : slots_values (stack_slots n ts) = ts.
Proof.
  unfold stack_slots. cbn zeta. rewrite slots_values_app. transitivity (ts ++ []); [|apply app_nil_r]. f_equal.
  - induction ts as [|t ts IH]; [done|]. rewrite fmap_cons. cbn [concat]. rewrite slots_values_app, IH. unfold type_slots. by case_decide.
  - generalize (n - length (concat (type_slots <$> ts))) as k. induction k; [done|]. by cbn.
Qed.

Lemma first_unusable_packed ts l : first_unusable (concat (type_slots <$> ts) ++ l) = types_width ts + first_unusable l.
Proof.
  induction ts as [|t ts IH]; [done|]. rewrite fmap_cons. cbn [concat]. rewrite <- app_assoc.
  unfold types_width. cbn [sum_list_with]. fold (types_width ts). rewrite <- Nat.add_assoc, <- IH, <- length_type_slots. unfold type_slots. case_decide; done.
Qed.

Lemma first_unusable_replicate k : first_unusable (replicate k SUnusable) = 0.
Proof. by destruct k. Qed.

(** A push succeeds exactly when the type has a width and it fits. *)
Lemma frame_push_slots n ts t : types_width ts <= n ->
  frame_push (FReachable OperandStack (stack_slots n ts)) t =
    match vtype_width t with
    | None => Err OutOfBounds
    | Some _ => if decide (types_width ts + type_width t <= n) then Ok (FReachable OperandStack (stack_slots n (ts ++ [t]))) else Err TruncatedCategory2
    end.
Proof.
  intros Hn. unfold frame_push. rewrite decide_False by naive_solver. destruct (vtype_width t) as [w|] eqn:Hw; [|done].
  assert (Hfirst : first_unusable (stack_slots n ts) = types_width ts) by (unfold stack_slots; by rewrite first_unusable_packed, first_unusable_replicate, Nat.add_0_r).
  rewrite Hfirst, stack_slots_length by done.
  assert (type_width t = match w with Category1 => 1 | Category2 => 2 end) as Htw by (unfold type_width; rewrite Hw; by destruct w).
  rewrite <- Htw. destruct (Nat.ltb_spec n (types_width ts + type_width t)), (decide (types_width ts + type_width t <= n)); try lia; [done|]. do 2 f_equal.
  unfold stack_slots. cbn zeta. rewrite !length_packed, fmap_app, concat_app. cbn [fmap list_fmap concat]. rewrite app_nil_r.
  rewrite types_width_app, types_width_one, <- app_assoc. pose proof (length_packed ts) as Hlen.
  replace (n - types_width ts) with (type_width t + (n - (types_width ts + type_width t))) by lia. remember (n - (types_width ts + type_width t)) as k eqn:Hk.
  unfold type_slots at 4. destruct (decide (type_width t = 2)) as [->|Hne].
  - rewrite !insert_app_r_alt by lia. rewrite !Hlen. replace (types_width ts + 1 - types_width ts) with 1 by lia. by rewrite Nat.sub_diag.
  - replace (type_width t) with 1 by (destruct w; lia). rewrite insert_app_r_alt by lia. by rewrite Hlen, Nat.sub_diag.
Qed.

Lemma push_values_slots n us ts f : types_width ts <= n -> push_values (FReachable OperandStack (stack_slots n ts)) us = Ok f ->
  f = FReachable OperandStack (stack_slots n (ts ++ us)) /\ types_width (ts ++ us) <= n.
Proof.
  revert ts. induction us as [|t us IH]; intros ts Hn; cbn [push_values]; [intros [= <-]; by rewrite app_nil_r|]. rewrite frame_push_slots by done.
  destruct (vtype_width t); [|done]. case_decide; [|done]. cbn [rbind]. intros Hp. apply IH in Hp; [|rewrite types_width_app, types_width_one; lia].
  by rewrite <- app_assoc in Hp.
Qed.

Lemma stack_from_values_slots n ts f : stack_from_values n ts = Ok f -> f = FReachable OperandStack (stack_slots n ts) /\ types_width ts <= n.
Proof.
  unfold stack_from_values, new_frame. intros Hp. replace (replicate n SUnusable) with (stack_slots n []) in Hp by (unfold stack_slots; cbn; by rewrite Nat.sub_0_r).
  apply push_values_slots in Hp; [done|cbn; lia].
Qed.

(** ** Conforming stacks *)

Implicit Types (s : UnitStack (JvmValue K)) (ts : list VerificationType) (st : VerificationState).

Record StackTyped s ts : Prop := {
  st_inv : StackInv s;
  st_values : Forall2 value_typed (stack_values s) ts;
  st_limit : (N.of_nat (stack_limit s) <= usize_max)%N;
}.

Definition StackConforms (f : VerificationFrame) s : Prop := exists ts, f = FReachable OperandStack (stack_slots (stack_limit s) ts) /\ StackTyped s ts.

Lemma typed_total s ts : StackTyped s ts -> stack_depth s = types_width ts /\ types_width ts <= stack_limit s.
Proof.
  intros [[Hd Hl _] Hv _]. assert (total_width (stack_values s) = types_width ts) as Hw; [|lia]. clear -Hv. unfold total_width, types_width.
  induction Hv as [|v t vs ts Hvt _ IH]; [done|]. cbn [sum_list_with]. rewrite IH. f_equal. apply (typed_width v t Hvt).
Qed.

Lemma push_typed s ts v t : StackTyped s ts -> value_typed v t -> types_width (ts ++ [t]) <= stack_limit s ->
  exists s', stack_push s v = Ok s' /\ StackTyped s' (ts ++ [t]) /\ stack_limit s' = stack_limit s.
Proof.
  intros Hs Hv Hw. destruct (typed_total s ts Hs) as [Hd _]. destruct (typed_width v t Hv) as [Hvw _]. rewrite types_width_app, types_width_one in Hw.
  pose proof (st_limit _ _ Hs) as Hlim. destruct (stack_push s v) as [s'| | |] eqn:Hp.
  - exists s'. split; [done|]. pose proof (push_inv _ _ _ (st_inv _ _ Hs) Hp) as Hinv. unfold stack_push in Hp. repeat case_match; simplify_eq/=. split; [|done].
    split; cbn; [done|apply Forall2_app; [apply (st_values _ _ Hs)|by repeat constructor]|done].
  - exfalso. revert Hp. unfold stack_push. change (width v) with (logical_width v). rewrite Hvw, Hd. rewrite decide_False by (unfold type_width; lia). unfold checked_index_add.
    destruct (N.ltb_spec usize_max (N.of_nat (types_width ts) + N.of_nat (type_width t))); [lia|]. destruct (Nat.leb_spec (types_width ts + type_width t) (stack_limit s)); [done|lia].
  - unfold stack_push in Hp. repeat case_match; done.
  - unfold stack_push in Hp. repeat case_match; done.
Qed.

Lemma pop_typed s ts t : StackTyped s (ts ++ [t]) ->
  exists v s', stack_values s = stack_values s' ++ [v] /\ stack_top s = Ok v /\ stack_pop s = Ok (v, s') /\ value_typed v t /\ StackTyped s' ts /\ stack_limit s' = stack_limit s.
Proof.
  intros [Hinv Hv Hl]. destruct (pop_cases s Hinv) as [[He _]|(l & v & s' & Hs & Hp & Hs' & _ & Hlim & Hinv')].
  - rewrite He in Hv. apply Forall2_nil_inv_l in Hv. by destruct ts.
  - rewrite Hs in Hv. apply Forall2_app_inv_r in Hv as (l1 & l2 & H1 & H2 & Heq). apply Forall2_cons_inv_r in H2 as (v' & l3 & Hvt & Hnil & ->).
    apply Forall2_nil_inv_r in Hnil as ->. apply app_inj_tail in Heq as [-> ->]. exists v', s'. rewrite Hs'.
    split_and!; try done; [unfold stack_top; by rewrite Hs, last_snoc|]. split; [done|by rewrite Hs'|by rewrite Hlim].
Qed.

Lemma conforms_values st s : StackConforms (vs_stack st) s -> frame_capacity (vs_stack st) = stack_limit s /\ StackTyped s (frame_values (vs_stack st)).
Proof.
  intros (ts & -> & Hs). destruct (typed_total s ts Hs). split; [by apply stack_slots_length|]. unfold frame_values. cbn. by rewrite stack_slots_values.
Qed.

Lemma restacked_slots st ts st' : restacked st ts = Ok st' ->
  vs_locals st' = vs_locals st /\ vs_stack st' = FReachable OperandStack (stack_slots (frame_capacity (vs_stack st)) ts) /\ types_width ts <= frame_capacity (vs_stack st).
Proof.
  unfold restacked. destruct (stack_from_values _ _) as [f| | |] eqn:Hf; try done. intros [= <-]. by apply stack_from_values_slots in Hf as [-> ?].
Qed.

Lemma pushed_slots st s t st' : StackConforms (vs_stack st) s -> pushed st t = Ok st' ->
  vs_locals st' = vs_locals st /\ vs_stack st' = FReachable OperandStack (stack_slots (stack_limit s) (frame_values (vs_stack st) ++ [t])) /\
  types_width (frame_values (vs_stack st) ++ [t]) <= stack_limit s.
Proof.
  intros (ts & Hst & Hs) Hp. unfold pushed in Hp. rewrite Hst in Hp |- *. destruct (typed_total s ts Hs). rewrite frame_push_slots in Hp by done.
  destruct (vtype_width t); [|done]. case_decide; [|done]. injection Hp as <-. unfold frame_values. cbn. by rewrite stack_slots_values, types_width_app, types_width_one.
Qed.

Lemma push_conforms st s v t st' : StackConforms (vs_stack st) s -> value_typed v t -> pushed st t = Ok st' ->
  exists s', stack_push s v = Ok s' /\ StackConforms (vs_stack st') s' /\ vs_locals st' = vs_locals st.
Proof.
  intros Hs Hv Hp. destruct (pushed_slots _ _ _ _ Hs Hp) as (Hl & Hst & Hw). destruct (conforms_values _ _ Hs) as [_ Ht].
  destruct (push_typed _ _ _ _ Ht Hv Hw) as (s' & Hpush & Hs' & Hlim). exists s'. split; [done|]. split; [|done]. rewrite Hst, <- Hlim. by eexists.
Qed.

(** ** Setting a typed local *)

Implicit Types (slots l : list VerificationSlot) (k j : nat).

Lemma invalidate_length l k : length (invalidate_value_at l k) = length l.
Proof. unfold invalidate_value_at. rewrite length_insert. case_match; [apply length_insert|done]. Qed.

Lemma invalidate_lookup l k j : k < length l ->
  invalidate_value_at l k !! j = if decide (j = k) then Some SUnusable else if decide (j = S k /\ is_category2 (l !! k) = true /\ j < length l) then Some SUnusable else l !! j.
Proof.
  intros Hk. unfold invalidate_value_at. case_decide as Hj; [subst j; apply list_lookup_insert_eq; case_match; rewrite ?length_insert; done|].
  rewrite list_lookup_insert_ne by done. rewrite Nat.add_1_r. case_decide as Hc.
  - destruct Hc as (-> & -> & Hlt). destruct (Nat.ltb_spec (S k) (length l)); [|lia]. by apply list_lookup_insert_eq.
  - destruct (is_category2 (l !! k)); [|done]. destruct (Nat.ltb_spec (S k) (length l)); [|done]. apply list_lookup_insert_ne. naive_solver.
Qed.

(** The slots after a typed local is set: an overwritten half takes the other half
    with it. *)
Definition after_set slots k t j : option VerificationSlot :=
  if decide (j = k) then Some (SValue t)
  else if decide (j = S k /\ type_width t = 2) then Some SCategory2Tail
  else if decide (S j = k /\ slots !! k = Some SCategory2Tail) then Some SUnusable
  else if decide (j = S k /\ is_category2 (slots !! k) = true) then Some SUnusable
  else if decide (j = S (S k) /\ type_width t = 2 /\ is_category2 (slots !! S k) = true) then Some SUnusable
  else slots !! j.

Ltac slot_cases :=
  repeat case_decide; try done; exfalso; destruct_and?;
  repeat match goal with H : ~ (_ /\ _) |- _ => apply not_and_l in H; destruct H end; congruence || lia || (subst; congruence).

Lemma set_local_lookup slots k t vf : slots_wf slots -> set_local (FReachable Locals slots) k t = Ok vf ->
  exists slots', vf = FReachable Locals slots' /\ length slots' = length slots /\ k + type_width t <= length slots /\ is_Some (vtype_width t) /\
    forall j, j < length slots -> slots' !! j = after_set slots k t j.
Proof.
  intros Hwf. unfold set_local. rewrite decide_False by naive_solver. destruct (vtype_width t) as [w|] eqn:Hw; [|done]. cbn [ok_or rbind].
  destruct (Nat.leb_spec (length slots) k) as [|Hk]; [done|].
  assert (Htw : type_width t = match w with Category1 => 1 | Category2 => 2 end) by (unfold type_width; rewrite Hw; by destruct w).
  set (l1 := invalidate_value_at slots k). assert (Hl1 : length l1 = length slots) by apply invalidate_length.
  set (l2 := if (0 <? k)%nat && _ then _ else _). 
  assert (Hl2 : length l2 = length slots) by (unfold l2; match goal with |- context [if ?b then _ else _] => destruct b end; [rewrite invalidate_length|]; done).
  assert (Hlook2 : forall j, j < length slots -> j <> k -> l2 !! j = if decide (S j = k /\ slots !! k = Some SCategory2Tail) then Some SUnusable else
     if decide (j = S k /\ is_category2 (slots !! k) = true) then Some SUnusable else slots !! j).
  { intros j Hj Hjk. unfold l2. destruct (decide (slots !! k = Some SCategory2Tail)) as [Ht|Ht].
    - destruct (sw_tail _ Hwf k Ht) as (p & u & -> & Hp & Hu). rewrite bool_decide_true by done. cbn [Nat.ltb Nat.leb andb Nat.sub]. rewrite Nat.sub_0_r.
      rewrite invalidate_lookup by lia. rewrite Ht. unfold l1. rewrite (invalidate_lookup slots (S p) j), Ht by lia. cbn [is_category2]. slot_cases.
    - rewrite bool_decide_false, andb_false_r by done. unfold l1. rewrite invalidate_lookup by lia. slot_cases. }
  clearbody l2. clear l1 Hl1. destruct w; cbn [bool_decide andb]; rewrite ?bool_decide_false by done; cbn [andb].
  - rewrite (decide_False (P := Category1 = Category2)) by done. intros [= <-]. exists (<[k := SValue t]> l2).
    split_and!; [done|by rewrite length_insert|lia|done|]. intros j Hj. unfold after_set.
    destruct (decide (j = k)) as [->|Hne]; [apply list_lookup_insert_eq; lia|]. rewrite list_lookup_insert_ne, Hlook2 by done.
    slot_cases.
  - rewrite bool_decide_true, decide_True, Nat.add_1_r by done. destruct (Nat.leb_spec (length slots) (S k)) as [|Hk1]; [done|]. intros [= <-].
    eexists. split; [done|]. rewrite length_insert, invalidate_length, length_insert. split_and!; [done|lia|done|]. intros j Hj. unfold after_set.
    destruct (decide (j = S k)) as [->|Hne1].
    { rewrite list_lookup_insert_eq by (rewrite invalidate_length, length_insert; lia). slot_cases. }
    assert (is_category2 (<[k := SValue t]> l2 !! S k) = is_category2 (slots !! S k)) as Hin.
    { rewrite list_lookup_insert_ne, Hlook2 by lia. rewrite (decide_False (P := S (S k) = k /\ _)) by lia.
      destruct (decide (S k = S k /\ is_category2 (slots !! k) = true)) as [[_ (u & Hu & Hcu)%is_category2_spec]|]; [|done].
      by rewrite (sw_head _ Hwf k u Hu Hcu). }
    rewrite list_lookup_insert_ne, invalidate_lookup, Hin, length_insert, Hl2 by (rewrite ?length_insert; lia).
    destruct (decide (j = k)) as [->|Hne]; [rewrite list_lookup_insert_eq by lia; slot_cases|].
    rewrite list_lookup_insert_ne, Hlook2 by lia. slot_cases.
Qed.

(** A value that stays was there before, beside what is set. *)
Lemma after_set_value slots k t j u : slots_wf slots -> j <> k -> after_set slots k t j = Some (SValue u) ->
  slots !! j = Some (SValue u) /\ (j + type_width u <= k \/ k + type_width t <= j).
Proof.
  intros Hwf Hne. unfold after_set. rewrite decide_False by done. case_decide as Hc1; [done|]. case_decide as Hc2; [done|]. intros Ha.
  repeat case_decide; simplify_eq. split; [done|].
  assert (Hu : type_width u = 2 -> S j <> k).
  { intros Hu <-. apply Hc2. split; [done|]. apply (sw_head _ Hwf j u Ha). unfold type_width in Hu. by case_decide. }
  assert (Ht : type_width t = 2 -> j <> S k) by (intros Ht ->; by apply Hc1).
  assert (type_width u = 1 \/ type_width u = 2) by (unfold type_width; case_decide; auto).
  assert (type_width t = 1 \/ type_width t = 2) by (unfold type_width; case_decide; auto). lia.
Qed.

Lemma type_width_category2 t : is_Some (vtype_width t) -> type_width t = 2 <-> vtype_width t = Some Category2.
Proof. intros [w Hw]. unfold type_width. case_decide; naive_solver. Qed.

Lemma after_set_wf slots slots' k t : slots_wf slots -> length slots' = length slots -> k + type_width t <= length slots -> is_Some (vtype_width t) ->
  (forall j, j < length slots -> slots' !! j = after_set slots k t j) -> slots_wf slots'.
Proof.
  intros Hwf Hlen Hk Ht Hlook. assert (Hs : forall j x, slots' !! j = Some x -> after_set slots k t j = Some x /\ j < length slots).
  { intros j x Hj. assert (j < length slots) by (rewrite <- Hlen; by eapply lookup_lt_Some). split; [by rewrite <- Hlook|done]. }
  split.
  - intros j u [Hj Hjl]%Hs Hu. destruct (decide (j = k)) as [->|Hne].
    + unfold after_set in Hj. rewrite decide_True in Hj by done. injection Hj as <-. apply type_width_category2 in Hu as Hw; [|done]. rewrite Hlook by lia.
      unfold after_set. rewrite decide_False, decide_True by lia. done.
    + destruct (after_set_value _ _ _ _ _ Hwf Hne Hj) as [Hju Hsep]. pose proof (sw_head _ Hwf j u Hju Hu) as Htail.
      assert (S j < length slots) by by eapply lookup_lt_Some. rewrite Hlook by done. assert (type_width u = 2) by (apply type_width_category2; [by rewrite Hu|done]).
      unfold after_set. rewrite !decide_False; [done|..]; try lia.
      intros [<- Hkt]. destruct (sw_tail _ Hwf _ Hkt) as (q & ? & [= <-] & Hq & _). congruence.
  - intros j [Hj Hjl]%Hs. unfold after_set in Hj. case_decide as Hjk; [done|]. case_decide as Hc1.
    + destruct Hc1 as [-> Hw]. exists k, t. split; [done|]. rewrite Hlook by lia. unfold after_set. rewrite decide_True by done. split; [done|]. by apply type_width_category2.
    + case_decide as Hc2; [done|]. case_decide as Hc3; [done|]. case_decide as Hc4; [done|]. destruct (sw_tail _ Hwf j Hj) as (q & u & -> & Hq & Hu).
      assert (Hcq : is_category2 (slots !! q) = true) by (apply is_category2_spec; eauto).
      exists q, u. split; [done|]. split; [|done]. rewrite Hlook by lia. unfold after_set. rewrite !decide_False; [done|..].
      * intros (-> & Hw & Hc). apply is_category2_spec in Hc as (u' & Hu' & Hcu'). pose proof (sw_head _ Hwf _ _ Hu' Hcu'). congruence.
      * intros (-> & Hc). apply is_category2_spec in Hc as (u' & Hu' & Hcu'). pose proof (sw_head _ Hwf _ _ Hu' Hcu'). congruence.
      * intros [<- _]. done.
      * intros [-> Hw]. by apply Hc4.
      * intros ->. by apply Hc3.
  - intros j [Hj _]%Hs. destruct (decide (j = k)) as [->|Hne].
    + unfold after_set in Hj. rewrite decide_True in Hj by done. injection Hj as ->. by destruct Ht.
    + apply after_set_value in Hj as [Hj _]; [|done..]. by eapply (sw_bottom _ Hwf).
Qed.

(** ** Conforming locals

    A local of a usable type holds a value of it. *)

Implicit Types (f : SlotFile (JvmValue K)).

Record LocalsConform (vf : VerificationFrame) f slots (a : gmap nat (JvmValue K)) : Prop := {
  lc_frame : vf = FReachable Locals slots;
  lc_wf : slots_wf slots;
  lc_implements : Implements (length slots) a f;
  lc_limit : (N.of_nat (length slots) <= usize_max)%N;
  lc_typed : forall k t, slots !! k = Some (SValue t) -> t <> VUnusable -> exists v, a !! k = Some v /\ value_typed v t;
}.

Definition Conforms st f s : Prop := (exists slots a, LocalsConform (vs_locals st) f slots a) /\ StackConforms (vs_stack st) s.

(** A typed store is possible and keeps the locals conforming. *)
Lemma store_conforms slots vf f a k t v vf' : LocalsConform vf f slots a -> value_typed v t -> set_local vf k t = Ok vf' ->
  k + logical_width v <= slot_limit f /\ exists f' slots' a', slot_store f k v = Ok f' /\ LocalsConform vf' f' slots' a'.
Proof.
  intros [-> Hwf HI Hlim Hty] Hv Hset. destruct (set_local_lookup _ _ _ _ Hwf Hset) as (slots' & -> & Hlen & Hk & Ht & Hlook).
  destruct (typed_width v t Hv) as [Hvw _]. unfold slot_limit. rewrite Hvw, (im_occupancy_len _ _ _ HI). split; [done|].
  destruct (store_implements _ _ _ k v HI) as (f' & Hf' & HI'); [change (logical_width v <> 0); rewrite Hvw; unfold type_width; lia|change (k + logical_width v <= length slots); lia|done|].
  exists f', slots'. eexists. split; [done|]. rewrite <- Hlen in HI', Hlim. split; [done|by eapply after_set_wf|exact HI'|done|].
  intros j u Hj Hu. assert (j < length slots) by (rewrite <- Hlen; by eapply lookup_lt_Some). rewrite Hlook in Hj by done. destruct (decide (j = k)) as [->|Hne].
  - unfold after_set in Hj. rewrite decide_True in Hj by done. injection Hj as <-. exists v. split; [apply lookup_insert_eq|done].
  - apply after_set_value in Hj as [Hj Hsep]; [|done..]. destruct (Hty j u Hj Hu) as (w & Hw & Hwu). exists w. split; [|done].
    rewrite lookup_insert_ne by done. apply map_lookup_filter_Some. split; [done|]. cbn. destruct (typed_width w u Hwu) as [Hww _].
    destruct (extents_meet _ _ _ _) eqn:Hm; [|done]. apply extents_meet_spec in Hm. change (width w) with (logical_width w) in Hm. change (width v) with (logical_width v) in Hm. lia.
Qed.

Lemma require_ok b kind u : require b kind = Ok u -> b = true.
Proof. by destruct b. Qed.

(** ** Arithmetic is sound *)

Definition divides_by_zero i s : bool := is_division (pi_opcode i) && match last (stack_values s) with Some v => is_zero v | None => false end.

Lemma signature_shape o ins out : numeric_signature o = Some (ins, out) -> (exists a, ins = [a]) \/ (exists a b, ins = [a; b]).
Proof. destruct o; try done; intros [= <- <-]; eauto. Qed.

Lemma unary_not_division o a out : numeric_signature o = Some ([a], out) -> is_division o = false.
Proof. by destruct o. Qed.

(** The pushed result completes the transferred stack. *)
Lemma result_conforms st s s' ts v t st' : stack_limit s' = stack_limit s -> frame_capacity (vs_stack st) = stack_limit s ->
  StackTyped s' ts -> value_typed v t -> restacked st (ts ++ [t]) = Ok st' ->
  exists s'', stack_push s' v = Ok s'' /\ StackConforms (vs_stack st') s'' /\ vs_locals st' = vs_locals st.
Proof.
  intros Hlim Hcap Hs Hv (Hl & Hst & Hw)%restacked_slots. rewrite Hcap, <- Hlim in Hst, Hw. destruct (push_typed _ _ _ _ Hs Hv Hw) as (s'' & Hp & Hs'' & Hlim'').
  exists s''. split; [done|]. split; [|done]. rewrite Hst, <- Hlim''. by eexists.
Qed.

Lemma transfer_numeric_inv i st st' : pi_opcode i <> Iinc -> transfer_numeric i st = Ok st' ->
  exists ts ins out, numeric_signature (pi_opcode i) = Some (ins, out) /\ frame_values (vs_stack st) = ts ++ ins /\ restacked st (ts ++ [out]) = Ok st'.
Proof.
  intros Hinc. unfold transfer_numeric. rewrite decide_False by done. intros Htr. res_inv.
  match goal with H : numeric_signature _ = Some ?x |- _ => destruct x as [ins out] end. cbn [fst snd] in *. eexists _, ins, out. split; [done|]. split; [|eassumption].
  match goal with H : require _ TCategory = _ |- _ => apply require_ok, bool_decide_eq_true_1 in H end. by etrans; [symmetry; apply take_drop|f_equal].
Qed.

Lemma numeric_step thrown i st st' f s : pi_opcode i <> Iinc -> Conforms st f s -> transfer_numeric i st = Ok st' ->
  if divides_by_zero i s then exists s', execute_numeric_instruction thrown i s = ((let? x := thrown in Err (NArithmetic x)), s')
  else exists s', execute_numeric_instruction thrown i s = (Ok (receipt i), s') /\ Conforms st' f s'.
Proof.
  intros Hinc [Hlocals Hs] Htr. destruct (conforms_values _ _ Hs) as [Hcap Hvals]. destruct (transfer_numeric_inv _ _ _ Hinc Htr) as (ts & ins & out & Hsig & Hts & Hre).
  rewrite Hts in Hvals. unfold divides_by_zero, execute_numeric_instruction. destruct (signature_shape _ _ _ Hsig) as [[a ->]|(a & b & ->)].
  - destruct (pop_typed _ _ _ Hvals) as (v & s1 & _ & _ & -> & Hv & Hs1 & Hl1). rewrite (unary_not_division _ _ _ Hsig). cbn [andb map_err].
    destruct (unary_typed _ _ _ _ Hsig Hv) as (v' & -> & Hv'). destruct (result_conforms _ _ _ _ _ _ _ Hl1 Hcap Hs1 Hv' Hre) as (s2 & -> & Hs2 & Hloc).
    exists s2. split; [done|]. split; [by rewrite Hloc|done].
  - change [a; b] with ([a] ++ [b]) in Hvals. rewrite app_assoc in Hvals.
    destruct (pop_typed _ _ _ Hvals) as (v & s1 & Hsv & _ & -> & Hv & Hs1 & Hl1). destruct (pop_typed _ _ _ Hs1) as (l & s2 & _ & _ & Hp2 & Hl & Hs2 & Hl2).
    destruct (binary_typed thrown _ _ _ _ _ _ Hsig Hl Hv) as [Hu Hb]. cbn [map_err]. rewrite Hsv, last_snoc, Hu, Hp2. cbn [map_err].
    destruct (is_division (pi_opcode i) && is_zero v); [exists s2; rewrite Hb; by destruct thrown|]. destruct Hb as (v' & -> & Hv').
    destruct (result_conforms _ _ _ _ _ _ _ (eq_trans Hl2 Hl1) Hcap Hs2 Hv' Hre) as (s3 & -> & Hs3 & Hloc). exists s3. split; [done|]. split; [by rewrite Hloc|done].
Qed.

(** ** Shuffles *)

Lemma group_starts_lookup widths base g : g < length widths -> group_starts base widths !! g = Some (base + sum_list (take g widths)).
Proof.
  revert base g. induction widths as [|w widths IH]; intros base [|g] Hg; cbn in *; try lia; [by rewrite Nat.add_0_r|]. rewrite IH by lia. f_equal. lia.
Qed.

(** Values staged by their types. *)
Lemma stage_typed vs ts groups us : Forall2 value_typed vs ts -> Forall2 (fun g u => ts !! g = Some u) groups us -> forall staged before_,
  StackTyped staged before_ -> types_width (before_ ++ us) <= stack_limit staged ->
  exists s', stage vs groups staged = Ok s' /\ StackTyped s' (before_ ++ us) /\ stack_limit s' = stack_limit staged.
Proof.
  intros Hl Hg. induction Hg as [|g u groups us Hgu _ IH]; intros staged before_ Hs Hw; cbn [stage].
  - exists staged. by rewrite app_nil_r.
  - destruct (Forall2_lookup_r _ _ _ _ _ Hl Hgu) as (v & Hv & Hvu). rewrite Hv. cbn [expect rbind]. rewrite (cons_middle u before_ us), app_assoc in Hw |- *.
    destruct (push_typed staged before_ v u Hs Hvu) as (s1 & -> & Hs1 & Hl1); [rewrite types_width_app in Hw; lia|]. cbn [map_err rbind]. rewrite <- Hl1 in Hw |- *. by apply IH.
Qed.

Lemma typed_widths s ts : StackTyped s ts -> logical_width <$> stack_values s = type_width <$> ts.
Proof. intros [_ Hv _]. induction Hv as [|v t vs ts Hvt _ IH]; [done|]. rewrite !fmap_cons, IH. f_equal. apply (typed_width v t Hvt). Qed.

Lemma new_stack_typed limit : (N.of_nat limit <= usize_max)%N -> StackTyped (new_stack (V:=JvmValue K) limit) [].
Proof. intros. split; [apply new_stack_inv|constructor|done]. Qed.

(** The plan of whole groups moves the values the groups name. *)
Lemma groups_sound s ts groups us : StackTyped s ts -> Forall2 (fun g u => ts !! g = Some u) groups us -> types_width us <= stack_limit s ->
  let widths := type_width <$> ts in
  exists s', (let? units := collect (fun g => let? start := expect (group_starts 0 widths !! g) in let? w := expect (widths !! g) in Ok (seq start w)) groups in
    let? plan := map_err EShuffle (new_plan widths (concat units)) in map_err EShuffle (execute plan s)) = Ok s' /\ StackTyped s' us /\ stack_limit s' = stack_limit s.
Proof.
  intros Hs Hg Hw. cbn zeta. rewrite (proj2 (collect_ok _ groups (group_range (type_width <$> ts) <$> groups))).
  2: { clear Hw. induction Hg as [|g u groups us Hgu _ IH]; [constructor|]. rewrite fmap_cons. constructor; [|done].
       rewrite group_starts_lookup by (rewrite length_fmap; by eapply lookup_lt_Some). unfold group_range. by rewrite list_lookup_fmap, Hgu. }
  cbn [rbind]. rewrite (proj2 (new_plan_spec _ _ {| input_widths := type_width <$> ts; output_groups := groups |})).
  2: { split; [apply Forall_fmap, Forall_true; intros; unfold compose, type_width; lia|]. exists groups. split; [|done]. rewrite length_fmap.
       eapply Forall2_Forall_l; [done|]. apply Forall_true. intros u g Hgu. by eapply lookup_lt_Some. }
  cbn [map_err rbind]. unfold execute. cbn [input_widths output_groups].
  destruct (proj2 (first_mismatch_None 0 (type_width <$> ts) (stack_values s))) as [Hm Hlen]; [by rewrite <- (typed_widths _ _ Hs)|]. rewrite Hm, decide_True by done.
  destruct (stage_typed _ _ _ _ (st_values _ _ Hs) Hg (new_stack (stack_limit s)) [] (new_stack_typed _ (st_limit _ _ Hs)) Hw) as (s' & -> & Hs' & Hl).
  by exists s'.
Qed.

Lemma take_groups ts n : n <= length ts -> Forall2 (fun g u => ts !! g = Some u) (seq 0 n) (take n ts).
Proof.
  intros Hn. apply Forall2_same_length_lookup_2; [rewrite length_seq, length_take; lia|]. intros k g u Hg Hu. apply lookup_seq in Hg as [-> ?].
  by apply lookup_take_Some in Hu as [Hu _].
Qed.

Lemma shuffle_sound i o st s st' choices : StackConforms (vs_stack st) s -> transfer_shuffle i st choices = Ok st' ->
  exists s', execute_shuffle o choices s = Ok s' /\ StackConforms (vs_stack st') s' /\ vs_locals st' = vs_locals st.
Proof.
  intros Hs Htr. destruct (conforms_values _ _ Hs) as [Hcap Hvals]. set (ts := frame_values (vs_stack st)) in *.
  unfold transfer_shuffle in Htr. fold ts in Htr. unfold execute_shuffle. cbn zeta. rewrite (typed_widths _ _ Hvals). res_inv.
  destruct (List.find _ choices) as [[input output]|] eqn:Hfind; [|done]. res_inv. rewrite length_fmap.
  match goal with Hc : collect _ output = Ok ?r |- _ => rename r into shuffled; apply collect_ok in Hc; rename Hc into Hsh end.
  destruct (restacked_slots _ _ _ Htr) as (Hloc & Hst & Hw). rewrite Hcap in Hst, Hw.
  destruct (groups_sound s ts (seq 0 (length ts - length input) ++ (Nat.add (length ts - length input) <$> output)) (take (length ts - length input) ts ++ shuffled))
    as (s' & Hok & Hs' & Hlim); [done| |done|].
  - apply Forall2_app; [apply take_groups; lia|]. apply Forall2_fmap_l. eapply Forall2_impl; [done|]. intros g u Hg. by apply expect_Ok in Hg.
  - exists s'. split; [exact Hok|]. split; [|done]. rewrite Hst, <- Hlim. by eexists.
Qed.

Lemma located_ok {A} i offset (r : Res VerificationTransferKind A) x : located_failure i offset r = Ok x -> r = Ok x.
Proof. destruct r; try done. by intros [= ->]. Qed.

(** C34: An accepted arithmetic instruction runs on a conforming frame: a
    division by zero throws, and otherwise the result leaves a frame that conforms
    to the transferred one, its integers wrapped to their width. *)
Theorem numeric_sound thrown i offset st st' f s : pi_opcode i <> Iinc -> Conforms st f s -> transfer_numeric_instruction i offset st = Ok st' ->
  if divides_by_zero i s then exists s', execute_numeric_instruction thrown i s = ((let? x := thrown in Err (NArithmetic x)), s')
  else exists s', execute_numeric_instruction thrown i s = (Ok (receipt i), s') /\ Conforms st' f s'.
Proof. intros Hi HC Htr%located_ok. by eapply numeric_step. Qed.

(** ** Storage is sound *)

Context {CodecError : Type}.
Abbreviation PreparedFrom := (PreparedFrom (CodecError:=CodecError)).

(** An immediate operand of the codec is a signed 32-bit number. *)
Definition operand_in_range (x : InstructionOperand) : Prop := match x with OImmediate z => in_range 32 z | _ => True end.

(** When the resolver gives a constant a value, it is of the type the verifier
    has for the constant. *)
Definition ConstantsTyped (types : N -> option VerificationType) (resolve : N -> Res ExecutionError (JvmValue K)) : Prop :=
  forall index t, types index = Some t -> match resolve index with Ok v => value_typed v t | Err _ => True | _ => False end.

(** The resolver refused the constant of the instruction. *)
Definition unresolved (types : N -> option VerificationType) (resolve : N -> Res ExecutionError (JvmValue K)) i (e : ExecutionError) : Prop :=
  exists index t refusal, pi_operands i = PConstantSite index /\ types index = Some t /\ resolve index = Err refusal /\ e = EConstant index.

Lemma float_constant (fmt : FloatFormat) z : standard_format fmt -> bits_fit fmt (to_bits fmt (float_of_int fmt z)).
Proof. intros. by apply to_bits_fit, of_int_fits. Qed.

Lemma constant_sound types resolve decoded located i t : ConstantsTyped types resolve -> PreparedFrom decoded located i ->
  Forall operand_in_range (in_operands (di_instruction located)) ->
  constant_type types (pi_opcode i) (in_operands (pi_instruction i)) = Ok (Some t) -> constant_operands_valid (pi_opcode i) (in_operands (pi_instruction i)) = true ->
  match constant_value resolve i with Ok (Some v) => value_typed v t | Err e => unresolved types resolve i e | _ => False end.
Proof.
  intros Hres [_ Hi Ho Hp _] Hr. rewrite Hi. unfold prepare_operands in Hp. rewrite <- Ho in Hp. unfold constant_value. cbn zeta.
  destruct (pi_opcode i) eqn:Hop; try done; cbn [constant_type]; intros Ht Hv; simplify_eq.
  all: try (first [done|apply float_constant; auto with jvm]; fail).
  1-2: destruct (in_operands _) as [|[z| | | | | | | | |] []]; try done; injection Hp as <-; by apply Forall_cons in Hr as [Hz _].
  all: destruct (in_operands _) as [|[| |index| | | | | | |] []]; try done; injection Hp as Hp; rewrite <- Hp; res_inv.
  all: match goal with Hr' : require _ _ = Ok _ |- _ => apply require_ok, bool_decide_eq_true_1 in Hr'; rename Hr' into Hwidth end.
  all: subst; match goal with Hx : ?g ?n = Some _, Hc : ConstantsTyped ?g _ |- _ => pose proof (Hc _ _ Hx) as Hvt; destruct (resolve n) as [v|e| |] eqn:Hv'; try done end.
  all: try (destruct (typed_width v _ Hvt) as [Hw _]; rewrite decide_True by congruence; done).
  all: eexists _, _, _; by split_and!.
Qed.

Lemma constant_absent types (resolve : N -> Res ExecutionError (JvmValue K)) i operands : constant_type types (pi_opcode i) operands = Ok None -> constant_value resolve i = Ok None.
Proof. unfold constant_value, constant_type. destruct (pi_opcode i); try done; intros Hc; repeat case_match; res_inv; done. Qed.

(** The local an access names. *)
Lemma access_sound decoded located i load r : PreparedFrom decoded located i -> verifier_local_access (pi_opcode i) (in_operands (pi_instruction i)) load = Ok r ->
  local_access (pi_opcode i) (pi_operands i) load = Ok r.
Proof.
  intros [_ Hi Ho Hp _]. rewrite Hi. unfold prepare_operands in Hp. rewrite <- Ho in Hp. unfold verifier_local_access, local_access, verifier_implicit_local.
  destruct (match explicit_local (pi_opcode i) load with Some x => _ | None => _ end) as [[x [slot|]]|] eqn:Ha; [| |by intros [= <-]].
  - destruct (in_operands _) as [|[] []]; try done. assert (shuffle_descriptor (pi_opcode i) = None) as Hn by (destruct (pi_opcode i), load; try done; discriminate Ha).
    rewrite Hn in Hp. injection Hp as <-. by intros [= <-].
  - destruct (in_operands _) as [|[|slot| | | | | | | |] []]; try done. injection Hp as <-. by intros [= <-].
Qed.

Lemma load_value vf f slots a k t : LocalsConform vf f slots a -> frame_get vf k = Some t -> t <> VUnusable -> exists v, slot_load f k = Ok v /\ value_typed v t.
Proof.
  intros [-> _ HI _ Hty] Hg Ht. cbn in Hg. destruct (slots !! k) as [[]|] eqn:Hk; simplify_eq. destruct (Hty k t Hk Ht) as (v & Hv & Hvt). exists v. split; [|done].
  unfold slot_load. rewrite (im_value _ _ _ HI k) by by eapply lookup_lt_Some. cbn. by rewrite Hv.
Qed.

Lemma category_usable t x : require_verification_category t x = true -> t <> VUnusable.
Proof. by destruct x, t. Qed.

Lemma load_sound i st st' f s slot x : Conforms st f s -> transfer_load st slot x = Ok st' ->
  exists s', execute_load i f s slot x = Ok (f, s') /\ Conforms st' f s'.
Proof.
  intros [(slots & a & HL) Hs] Htr. unfold transfer_load in Htr. res_inv. rename select (require _ _ = _) into Hcat. apply require_ok in Hcat.
  destruct (load_value _ _ _ _ _ _ HL ltac:(eassumption) (category_usable _ _ Hcat)) as (v & Hv & Hvt). unfold execute_load. rewrite Hv. cbn [map_err rbind].
  rewrite (typed_category _ _ _ _ Hcat Hvt). cbn [rbind]. destruct (push_conforms _ _ _ _ _ Hs Hvt Htr) as (s' & -> & Hs' & Hloc).
  exists s'. split; [done|]. split; [|done]. rewrite Hloc. eauto.
Qed.

Lemma store_sound i st st' f s slot x : Conforms st f s -> transfer_store st slot x = Ok st' ->
  exists f' s', execute_store i f s slot x = (Ok (receipt i), (f', s')) /\ Conforms st' f' s'.
Proof.
  intros [(slots & a & HL) Hs] Htr. destruct (conforms_values _ _ Hs) as [Hcap Hvals]. unfold transfer_store in Htr. res_inv.
  rename select (require _ _ = _) into Hcat. apply require_ok in Hcat. rename select (last _ = Some _) into Hlast. apply last_Some in Hlast as [ts Hts].
  rewrite Hts in Hvals, Htr. rewrite removelast_last in Htr. destruct (pop_typed _ _ _ Hvals) as (v & s1 & _ & Htop & Hpop & Hvt & Hs1 & Hl1).
  match goal with Hm : map_err _ (set_local _ _ _) = Ok _ |- _ => destruct (set_local _ _ _) as [vf'| | |] eqn:Hset; try done; injection Hm as -> end.
  destruct (store_conforms _ _ _ _ _ _ _ _ HL Hvt Hset) as (Hfit & f' & slots' & a' & Hst & HL'). unfold execute_store. rewrite Htop. cbn [map_err rbind].
  rewrite (typed_category _ _ _ _ Hcat Hvt). cbn [rbind]. unfold checked_index_add.
  assert (slot_limit f = length slots) as Hlim by (unfold slot_limit; apply (im_occupancy_len _ _ _ (lc_implements _ _ _ _ HL))). pose proof (lc_limit _ _ _ _ HL).
  destruct (N.ltb_spec usize_max (N.of_nat slot + N.of_nat (logical_width v))); [lia|]. destruct (Nat.ltb_spec (slot_limit f) (slot + logical_width v)); [lia|].
  rewrite Hpop. cbn [map_err rbind settle]. rewrite Hst. exists f', s1. split; [done|]. apply restacked_slots in Htr as (Hloc & Hstk & _). cbn in Hloc, Hstk.
  split; [rewrite Hloc; eauto|]. rewrite Hstk, Hcap, <- Hl1. by eexists.
Qed.

(** Setting an integer where there is one. *)
Lemma set_same slots k : slots !! k = Some (SValue VInt) -> set_local (FReachable Locals slots) k VInt = Ok (FReachable Locals slots).
Proof.
  intros Hk. unfold set_local. rewrite decide_False by naive_solver. cbn [vtype_width ok_or rbind]. assert (k < length slots) by by eapply lookup_lt_Some.
  destruct (Nat.leb_spec (length slots) k); [lia|]. rewrite bool_decide_false by done. cbn [andb]. rewrite Hk, bool_decide_false, andb_false_r by done.
  rewrite decide_False by done. unfold invalidate_value_at. rewrite Hk. cbn. rewrite bool_decide_false by done. cbn. rewrite list_insert_insert_eq, list_insert_id by done. done.
Qed.

Lemma increment_sound decoded located i st st' f s : PreparedFrom decoded located i -> Conforms st f s -> transfer_increment st (in_operands (pi_instruction i)) = Ok st' ->
  exists f', execute_increment i f s = Ok (f', s) /\ Conforms st' f' s.
Proof.
  intros [_ Hi Ho Hp _] [(slots & a & HL) Hs] Htr. rewrite Hi in Htr. unfold prepare_operands in Hp. unfold transfer_increment in Htr.
  destruct (in_operands _) as [|[|slot| | | | | | | |] [|[amount| | | | | | | | |] []]]; try done. injection Hp as Hp. unfold execute_increment. rewrite <- Hp. res_inv. subst st'.
  rename select (require _ _ = _) into Hc. apply require_ok, bool_decide_eq_true_1 in Hc as ->. rename select (frame_get _ _ = _) into Hg.
  destruct (load_value _ _ _ _ _ _ HL Hg ltac:(done)) as (v & -> & (y & -> & Hy)%typed_int). cbn [map_err rbind].
  assert (Hset : set_local (vs_locals st) slot VInt = Ok (vs_locals st)).
  { rewrite (lc_frame _ _ _ _ HL) in Hg |- *. apply set_same. cbn in Hg. by destruct (slots !! slot) as [[]|]; simplify_eq. }
  destruct (store_conforms _ _ _ _ _ VInt (Int (wrap 32 (y + amount))) _ HL (wrap_range 32 (y + amount) ltac:(lia)) Hset) as (_ & f' & slots' & a' & -> & HL').
  exists f'. split; [done|]. split; [eauto|done].
Qed.

Lemma settle_ok i f s (r : Res ExecutionError (SlotFile (JvmValue K) * UnitStack (JvmValue K))) f' s' : r = Ok (f', s') -> settle i (f, s) r = (Ok (receipt i), (f', s')).
Proof. by intros ->. Qed.

(** What an accepted storage instruction may give. *)
Definition stored types resolve i st' f s (r : Res ExecutionError JvmWorkReceipt * (SlotFile (JvmValue K) * UnitStack (JvmValue K))) : Prop :=
  match r with
  | (Ok x, (f', s')) => x = receipt i /\ Conforms st' f' s'
  | (Err e, frame) => unresolved types resolve i e /\ frame = (f, s)
  | _ => False
  end.

Lemma storage_step types resolve decoded located i st st' f s :
  ConstantsTyped types resolve -> PreparedFrom decoded located i -> Forall operand_in_range (in_operands (di_instruction located)) -> pi_opcode i <> Nop ->
  Conforms st f s -> transfer_storage types i st = Ok st' ->
  stored types resolve i st' f s (execute_storage_instruction resolve i f s).
Proof.
  intros Hres Hpf Hr Hnop HC Htr. unfold transfer_storage in Htr. cbn zeta in Htr. rewrite decide_False in Htr by done. unfold execute_storage_instruction. cbn zeta.
  destruct (constant_type _ _ _) as [[t|]| | |] eqn:Hconst; try done; cbn [rbind] in Htr.
  { res_inv. rename select (require _ _ = _) into Hv. apply require_ok in Hv. pose proof (constant_sound _ _ _ _ _ _ Hres Hpf Hr Hconst Hv) as Hvt.
    destruct (constant_value resolve i) as [[v|]|e| |]; [|done|by split|done..]. destruct HC as [HL Hs]. destruct (push_conforms _ _ _ _ _ Hs Hvt Htr) as (s' & Hp & Hs' & Hloc). rewrite (settle_ok i f s _ f s') by by rewrite Hp. split; [done|].
    split; [by rewrite Hloc|done]. }
  rewrite (constant_absent _ resolve _ _ Hconst). destruct (verifier_local_access _ _ true) as [load| | |] eqn:Hload; try done; cbn [rbind] in Htr.
  rewrite (access_sound _ _ _ _ _ Hpf Hload). destruct load as [[slot x]|].
  { destruct (load_sound i _ _ _ _ _ _ HC Htr) as (s' & Hl & HC'). by rewrite (settle_ok i f s _ _ _ Hl). }
  destruct (verifier_local_access _ _ false) as [store| | |] eqn:Hstore; try done; cbn [rbind] in Htr.
  rewrite (access_sound _ _ _ _ _ Hpf Hstore). destruct store as [[slot x]|].
  { destruct (store_sound i _ _ _ _ _ _ HC Htr) as (f' & s' & -> & HC'). done. }
  destruct (decide (pi_opcode i = Iinc)) as [Hinc|Hinc].
  { destruct (increment_sound _ _ _ _ _ _ _ Hpf HC Htr) as (f' & Hf & HC'). by rewrite (settle_ok i f s _ _ _ Hf). }
  destruct (shuffle_descriptor (pi_opcode i)) as [choices|] eqn:Hsh; [|done]. assert (is_shuffle (pi_opcode i) = true) as -> by (by destruct (pi_opcode i)).
  assert (pi_operands i = PShuffle choices) as ->.
  { destruct Hpf as [_ Hi Ho Hp _]. unfold transfer_shuffle in Htr. rewrite Hi in Htr. unfold prepare_operands in Hp. destruct (in_operands _); [|done].
    rewrite <- Ho, Hsh in Hp. by injection Hp. }
  destruct HC as [HL Hs]. destruct (shuffle_sound i (pi_opcode i) _ _ _ _ Hs Htr) as (s' & Hex & Hs' & Hloc). rewrite (settle_ok i f s _ f s') by by rewrite Hex. split; [done|].
  split; [by rewrite Hloc|done].
Qed.

(** C33: An accepted load, store, constant, increment or stack instruction other
    than [nop] runs on a conforming frame and leaves one that conforms to the
    transferred frame, when values that the resolver of pool constants returns are
    of the types that the verifier has for them; the only error is that the
    resolver refused the constant of the instruction, and then the frame is as it
    was. *)
Theorem storage_sound types resolve decoded located i offset st st' f s :
  ConstantsTyped types resolve -> PreparedFrom decoded located i -> Forall operand_in_range (in_operands (di_instruction located)) -> pi_opcode i <> Nop ->
  Conforms st f s -> transfer_storage_instruction types i offset st = Ok st' ->
  stored types resolve i st' f s (execute_storage_instruction resolve i f s).
Proof. intros Hres Hpf Hr Hn HC Htr%located_ok. by eapply storage_step. Qed.

(** ** Control flow is sound *)

(** The targets of prepared operands, in the order of the decoded ones. *)
Definition operand_ids (operands : PreparedJvmOperands) : list N :=
  match operands with
  | PDirect t => [t]
  | PTable _ default_ ts => default_ :: ts
  | PLookup default_ pairs => default_ :: pairs.*2
  | _ => []
  end.

Definition is_switch o : bool := match o with Tableswitch | Lookupswitch => true | _ => false end.

(** The operands a control instruction is prepared with. *)
Definition control_shape o (operands : PreparedJvmOperands) : Prop :=
  match operands with
  | PNone => is_return o = true
  | PDirect _ => is_return o = false /\ is_switch o = false
  | PTable _ _ _ => o = Tableswitch
  | PLookup _ _ => o = Lookupswitch
  | _ => False
  end.

Lemma table_targets decoded d rest ids ids' : forallb is_branch rest = true -> collect (table_target (CodecError:=CodecError) decoded d) rest = Ok ids ->
  collect (displaced (CodecError:=CodecError) decoded d) (omap branch_of rest) = Ok ids' -> ids = ids'.
Proof.
  revert ids ids'. induction rest as [|x rest IH]; intros ids ids'; cbn [forallb collect omap list_omap]; [by intros _ [= <-] [= <-]|]. intros [Hx Hr]%andb_true_iff.
  destruct x; try done. cbn [table_target branch_of collect]. intros H1 H2. res_inv. subst. f_equal; [congruence|]. by eapply IH.
Qed.

Lemma lookup_pairs_chunks rest : lookup_pairs_valid rest = true -> is_Some (lookup_chunks rest).
Proof.
  induction rest as [rest IH] using (induction_ltof1 _ (@length _)). unfold ltof in IH. destruct rest as [|x [|y rest]]; [cbn; eauto|by destruct x|].
  destruct x; try done. destruct y; try done. cbn. intros Hv. destruct (IH rest ltac:(cbn; lia) Hv) as [ps ->]. eauto.
Qed.

Lemma lookup_targets decoded d rest pairs lowered ids : lookup_pairs_valid rest = true -> lookup_chunks rest = Some pairs ->
  collect (fun kd : Z * Z => let? target := displaced (CodecError:=CodecError) decoded d kd.2 in Ok (kd.1, target)) pairs = Ok lowered ->
  collect (displaced (CodecError:=CodecError) decoded d) (omap branch_of rest) = Ok ids -> lowered.*2 = ids.
Proof.
  revert pairs lowered ids. induction rest as [rest IH] using (induction_ltof1 _ (@length _)). unfold ltof in IH. intros pairs lowered ids.
  destruct rest as [|x [|y rest]]; [cbn; by intros _ [= <-] [= <-] [= <-]|by destruct x|]. destruct x; try done. destruct y; try done.
  cbn [lookup_pairs_valid lookup_chunks omap list_omap branch_of]. intros Hv Hc. destruct (lookup_chunks rest) as [ps|] eqn:Hps; [|done]. cbn in Hc. injection Hc as <-.
  cbn [collect fst snd]. intros H1 H2. res_inv. subst. cbn [fmap list_fmap snd]. f_equal; [congruence|]. eapply (IH rest); [cbn; lia|done..].
Qed.

Lemma direct_operand decoded d o disp operands ids : is_return o = false -> is_switch o = false ->
  (if decide (o <> Lookupswitch) then let? target := displaced (CodecError:=CodecError) decoded d disp in Ok (PDirect target) else prepare_lookup decoded d disp []) = Ok operands ->
  collect (displaced (CodecError:=CodecError) decoded d) [disp] = Ok ids -> control_shape o operands /\ operand_ids operands = ids.
Proof.
  intros Hr Hs Hp Ht. rewrite decide_True in Hp by by intros ->. cbn [collect] in Ht. destruct (displaced _ _ _); try done. injection Hp as <-. injection Ht as <-. done.
Qed.

Lemma operand_targets decoded d i ids : PreparedFrom decoded d i -> targets_for_instruction (CodecError:=CodecError) decoded d = Ok ids ->
  control_operands_valid (pi_opcode i) (in_operands (pi_instruction i)) = true -> control_shape (pi_opcode i) (pi_operands i) /\ operand_ids (pi_operands i) = ids.
Proof.
  intros [_ Hi Ho Hp _] Ht Hv. rewrite Hi in Hv. unfold targets_for_instruction in Ht. unfold prepare_operands in Hp. rewrite <- Ho in Hp.
  generalize dependent (pi_operands i). intros operands Hp. destruct (pi_opcode i) eqn:Hop; try discriminate Hv; cbn [control_operands_valid] in Hv.
  all: destruct (in_operands (di_instruction d)) as [|[| | |disp|low|high| | | |] rest] eqn:Hops; try discriminate Hv.
  all: try (cbn in Hp, Ht; injection Hp as <-; injection Ht as <-; done).
  all: try (destruct rest; [|discriminate Hv]).
  all: try (eapply direct_operand; [done|done|exact Hp|exact Ht]; fail).
  - destruct rest as [|[] [|[] rest]]; try discriminate Hv. apply andb_true_iff in Hv as [_ Hb].
    cbn [omap list_omap branch_of collect] in Ht. res_inv. subst. split; [done|]. cbn. f_equal; [congruence|]. by eapply table_targets.
  - assert (prepare_lookup (CodecError:=CodecError) decoded d disp rest = Ok operands) as Hl.
    { destruct rest as [|x rest]; [rewrite decide_False in Hp by naive_solver; exact Hp|]. destruct x; try discriminate Hv; exact Hp. }
    clear Hp. unfold prepare_lookup in Hl. assert (exists pairs, lookup_chunks rest = Some pairs) as [pairs Hpairs].
    { by apply lookup_pairs_chunks. }
    rewrite Hpairs in Hl. cbn [omap list_omap branch_of collect] in Ht. res_inv. subst. split; [done|]. cbn. f_equal; [congruence|]. by eapply lookup_targets.
Qed.

Implicit Types (located : LocatedInstruction PreparedJvmInstruction N Origin) (code : LocatedCode PreparedJvmInstruction N Origin).

(** A reference of any initialized type. *)
Definition reference_type t : bool := match t with VNull | VReference _ => true | _ => false end.

Lemma typed_reference v t : value_typed v t -> reference_type t = true -> exists r, v = Reference r.
Proof. destruct v as [| | | |[]|], t; try done; eauto. Qed.

Lemma popped_typed s ts t : StackTyped s (ts ++ [t]) -> exists s', popped (Origin:=Origin) s = Ok s' /\ StackTyped s' ts /\ stack_limit s' = stack_limit s.
Proof. intros (v & s' & _ & _ & Hp & _ & Hs' & Hl)%pop_typed. exists s'. unfold popped. by rewrite Hp. Qed.

Lemma peek_int_typed s ts located : StackTyped s (ts ++ [VInt]) -> exists x, peek_int s located = Ok x.
Proof. intros (v & s' & _ & Ht & _ & (x & -> & _)%typed_int & _)%pop_typed. exists x. unfold peek_int. by rewrite Ht. Qed.

Lemma peek_reference_typed s ts t located : StackTyped s (ts ++ [t]) -> reference_type t = true -> exists r, peek_reference s located = Ok r.
Proof. intros (v & s' & _ & Ht & _ & Hv & _)%pop_typed Hr. destruct (typed_reference _ _ Hv Hr) as [r ->]. exists r. unfold peek_reference. by rewrite Ht. Qed.

Lemma two_values_typed {A} (pick : JvmValue K -> JvmValue K -> option A) s ts t u located : StackTyped s (ts ++ [t; u]) ->
  (forall v w, value_typed v t -> value_typed w u -> is_Some (pick v w)) -> exists x, two_values pick s located = Ok x.
Proof.
  intros Hs Hpick. change [t; u] with ([t] ++ [u]) in Hs. rewrite app_assoc in Hs. destruct (pop_typed _ _ _ Hs) as (w & s1 & Hw & _ & _ & Hwt & Hs1 & _).
  destruct (pop_typed _ _ _ Hs1) as (v & s2 & Hv & _ & _ & Hvt & _). rewrite Hv, <- app_assoc in Hw. cbn in Hw. unfold two_values. rewrite Hw, length_app. cbn [length].
  destruct (Nat.ltb_spec (length (stack_values s2) + 2) 2); [lia|]. rewrite Nat.add_sub, drop_app_length. destruct (Hpick v w Hvt Hwt) as [x ->]. by exists x.
Qed.

Lemma two_ints_typed s ts located : StackTyped s (ts ++ [VInt; VInt]) -> exists x, two_ints s located = Ok x.
Proof. intros Hs. eapply two_values_typed; [exact Hs|]. intros v w (x & -> & _)%typed_int (y & -> & _)%typed_int. eauto. Qed.

Lemma two_references_typed s ts t u located : StackTyped s (ts ++ [t; u]) -> reference_type t = true -> reference_type u = true -> exists x, two_references s located = Ok x.
Proof.
  intros Hs Ht Hu. eapply two_values_typed; [exact Hs|]. intros v w Hv Hw. destruct (typed_reference _ _ Hv Ht) as [x ->], (typed_reference _ _ Hw Hu) as [y ->]. eauto.
Qed.

Lemma popped_two s ts t u : StackTyped s (ts ++ [t; u]) ->
  exists s1 s2, popped (Origin:=Origin) s = Ok s1 /\ popped (Origin:=Origin) s1 = Ok s2 /\ StackTyped s2 ts /\ stack_limit s2 = stack_limit s.
Proof.
  intros Hs. change [t; u] with ([t] ++ [u]) in Hs. rewrite app_assoc in Hs. destruct (popped_typed _ _ _ Hs) as (s1 & H1 & Hs1 & Hl1).
  destruct (popped_typed _ _ _ Hs1) as (s2 & H2 & Hs2 & Hl2). exists s1, s2. split_and!; [done|done|done|congruence].
Qed.

(** ** Selected cursors *)

(** Every target of the operands has a cursor among the frozen targets. *)
Definition operands_linked code i : Prop := Forall2 (fun id c => code_cursor code id = Some c) (operand_ids (pi_operands i)) (branch_targets code (pi_id i)).

Lemma linked_cursor code i id : operands_linked code i -> id ∈ operand_ids (pi_operands i) -> exists c, code_cursor code id = Some c /\ c ∈ branch_targets code (pi_id i).
Proof.
  intros HL [k Hk]%list_elem_of_lookup. destruct (Forall2_lookup_l _ _ _ _ _ HL Hk) as (c & Hc & Hcur). exists c. split; [done|]. by eapply list_elem_of_lookup_2.
Qed.

Lemma table_cursor_linked code i key : operands_linked code i -> control_shape (pi_opcode i) (pi_operands i) -> pi_opcode i = Tableswitch ->
  exists c, table_cursor code (pi_operands i) key = Ok (Some c) /\ c ∈ branch_targets code (pi_id i).
Proof.
  intros HL Hsh Ho. pose proof (linked_cursor code i) as Hc. rewrite Ho in Hsh. destruct (pi_operands i) as [| | | | | |low default_ ts| | |] eqn:Hops; try done; try (by destruct Hsh).
  unfold table_cursor. destruct ((0 <=? key - low) && (key - low <? Z.of_nat (length ts)))%Z eqn:Hin.
  - apply andb_true_iff in Hin as [H1%Z.leb_le H2%Z.ltb_lt]. destruct (lookup_lt_is_Some_2 ts (Z.to_nat (key - low))) as [id Hid]; [lia|]. rewrite Hid. cbn [expect rbind].
    destruct (Hc id HL) as (c & -> & Hin); [cbn; right; by eapply list_elem_of_lookup_2|]. eauto.
  - cbn [rbind]. destruct (Hc default_ HL) as (c & -> & Hin'); [cbn; left|]. eauto.
Qed.

Lemma lookup_cursor_linked code i key : operands_linked code i -> control_shape (pi_opcode i) (pi_operands i) -> pi_opcode i = Lookupswitch ->
  exists c, lookup_cursor code (pi_operands i) key = Some c /\ c ∈ branch_targets code (pi_id i).
Proof.
  intros HL Hsh Ho. pose proof (linked_cursor code i) as Hc. rewrite Ho in Hsh. destruct (pi_operands i) as [| | | | | | |default_ pairs| |] eqn:Hops; try done; try (by destruct Hsh).
  unfold lookup_cursor. apply Hc; [done|]. cbn. destruct (binary_search pairs key) as [id|] eqn:Hb; [|left]. cbn. right. unfold binary_search in Hb.
  destruct (pairs !! _) as [[k id']|] eqn:Hk; [|done]. case_match; [|done]. injection Hb as <-. apply list_elem_of_fmap. exists (k, id'). split; [done|]. by eapply list_elem_of_lookup_2.
Qed.

Lemma direct_target_linked code i : operands_linked code i -> control_shape (pi_opcode i) (pi_operands i) -> is_return (pi_opcode i) = false -> is_switch (pi_opcode i) = false ->
  exists c, direct_target code i = Some c /\ branch_targets code (pi_id i) = [c].
Proof.
  unfold operands_linked, direct_target. intros HL Hsh Hr Hs. destruct (pi_operands i) as [| | | | |id| | | |] eqn:Hops; try done; cbn in Hsh;
    [congruence| |rewrite Hsh in Hs; done|rewrite Hsh in Hs; done]. cbn in HL. apply Forall2_cons_inv_l in HL as (c & l & Hc & Hnil & Heq).
  apply Forall2_nil_inv_l in Hnil as ->. exists c. by split.
Qed.

Lemma transfer_control_inv rt i st st' : transfer_control rt i st = Ok st' ->
  exists ts actual expected, control_inputs (pi_opcode i) = Some expected /\ control_operands_valid (pi_opcode i) (in_operands (pi_instruction i)) = true /\
    frame_values (vs_stack st) = ts ++ actual /\ Forall2 (fun a w => verification_category_matches a w = true) actual expected /\ restacked st ts = Ok st' /\
    (is_return (pi_opcode i) = true -> match (if decide (pi_opcode i = Return) then None else last (ts ++ actual)), rt with
      | None, RtVoid => True | Some t, RtValue declared => type_less_equal t declared = true | _, _ => False end).
Proof.
  unfold transfer_control. cbn zeta. intros Htr. res_inv. rename select (control_inputs _ = _) into Hin. rename select (list VerificationType) into expected.
  rename select (require (control_operands_valid _ _) _ = _) into Hv. rename select (require (forallb _ _) _ = _) into Hcat. rename select (require (_ <=? _)%nat _ = _) into Hlen.
  apply require_ok in Hv, Hcat, Hlen. apply Nat.leb_le in Hlen. set (values := frame_values (vs_stack st)) in *. set (k := length values - length expected) in *.
  exists (take k values), (drop k values), expected. split; [done|]. split; [done|]. split; [by rewrite take_drop|]. split.
  { assert (length (drop k values) = length expected) as Hl by (rewrite length_drop; lia). clearbody k. clear -Hcat Hl. revert expected Hl Hcat.
    induction (drop k values) as [|a l IH]; intros [|w expected] Hl Hcat; try done. cbn in Hcat. apply andb_true_iff in Hcat as [H1 H2]. constructor; [done|]. apply IH; [by injection Hl|done]. }
  rewrite take_drop. destruct (is_return (pi_opcode i)); [|by split]. res_inv. split; [done|]. intros _.
  rename select (require (match _ with Some _ => _ | None => _ end) _ = _) into Hrt. apply require_ok in Hrt.
  destruct (decide (pi_opcode i = Return)); [simplify_eq; by destruct rt|]. res_inv. subst. rename select (last values = _) into Hlast. rewrite Hlast. by destruct rt.
Qed.

Lemma category_exact a w : (forall r, w <> VReference r) -> verification_category_matches a w = true -> a = w.
Proof. intros Hw Hm. destruct w; try (by apply bool_decide_eq_true_1 in Hm). exfalso. by eapply Hw. Qed.

Lemma category_reference a r : verification_category_matches a (VReference r) = true -> reference_type a = true.
Proof. by destruct a. Qed.

(** The branches that may fall through. *)
Definition is_conditional o : bool := match control_inputs o with Some (_ :: _) => negb (is_return o) && negb (is_switch o) | _ => false end.

Definition fallthrough_missing code (cursor : CodeCursor) located (e : JvmControlError (Origin:=Origin)) : Prop :=
  e = control_error located CMissingFallthrough /\ is_conditional (pi_opcode (li_instruction located)) = true /\ code_next code cursor = None.

(** A successor of an instruction. *)
Definition successor code (cursor : CodeCursor) located (c : CodeCursor) : Prop :=
  c ∈ branch_targets code (pi_id (li_instruction located)) \/ is_conditional (pi_opcode (li_instruction located)) = true /\ code_next code cursor = Some c.

(** What a selection may give. *)
Definition selected code cursor located s ts (r : Res (JvmControlError (Origin:=Origin)) (CodeCursor * UnitStack (JvmValue K))) : Prop :=
  match r with
  | Ok (c, s') => successor code cursor located c /\ StackTyped s' ts /\ stack_limit s' = stack_limit s
  | Err e => fallthrough_missing code cursor located e
  | _ => False
  end.

Lemma chosen code cursor located (b : bool) c c' : c ∈ branch_targets code (pi_id (li_instruction located)) -> is_conditional (pi_opcode (li_instruction located)) = true ->
  code_next code cursor = Some c' -> successor code cursor located (if b then c else c').
Proof. unfold successor. destruct b; auto. Qed.

(** A branch that tests the topmost value, and one that tests two. *)
Lemma branch_one {A} code cursor located s ts t c (peek : Res (JvmControlError (Origin:=Origin)) A) (condition : A -> bool) :
  c ∈ branch_targets code (pi_id (li_instruction located)) -> is_conditional (pi_opcode (li_instruction located)) = true -> (exists x, peek = Ok x) -> StackTyped s (ts ++ [t]) ->
  selected code cursor located s ts (let? target := ok_or (control_error located CMalformed) (Some c) in
    let? next := ok_or (control_error located CMissingFallthrough) (code_next code cursor) in
    let? x := peek in let? s := popped s in Ok (if condition x then target else next, s)).
Proof.
  intros Hc Hcond [x ->] Hs. cbn [ok_or rbind]. destruct (code_next code cursor) as [c'|] eqn:Hn; [|done]. cbn [ok_or rbind].
  destruct (popped_typed _ _ _ Hs) as (s1 & -> & Hs1 & Hl1). cbn [rbind selected]. split; [by apply chosen|done].
Qed.

Lemma branch_two {A} code cursor located s ts t u c (peek : Res (JvmControlError (Origin:=Origin)) A) (condition : A -> bool) :
  c ∈ branch_targets code (pi_id (li_instruction located)) -> is_conditional (pi_opcode (li_instruction located)) = true -> (exists x, peek = Ok x) -> StackTyped s (ts ++ [t; u]) ->
  selected code cursor located s ts (let? target := ok_or (control_error located CMalformed) (Some c) in
    let? next := ok_or (control_error located CMissingFallthrough) (code_next code cursor) in
    let? x := peek in let? s := popped s in let? s := popped s in Ok (if condition x then target else next, s)).
Proof.
  intros Hc Hcond [x ->] Hs. cbn [ok_or rbind]. destruct (code_next code cursor) as [c'|] eqn:Hn; [|done]. cbn [ok_or rbind].
  destruct (popped_two _ _ _ _ Hs) as (s1 & s2 & -> & H2 & Hs2 & Hl2). cbn [rbind]. rewrite H2. cbn [rbind selected]. split; [by apply chosen|done].
Qed.

(** The types of the inputs, by their number. *)
Ltac inputs Hcat :=
  repeat match type of Hcat with
  | Forall2 _ _ (_ :: _) => let Hm := fresh "Hm" in apply Forall2_cons_inv_r in Hcat as (? & ? & Hm & Hcat & ->)
  | Forall2 _ _ [] => apply Forall2_nil_inv_r in Hcat as ->
  end;
  repeat match goal with
  | Hm : verification_category_matches _ VInt = true |- _ => apply category_exact in Hm as ->; [|done]
  | Hm : verification_category_matches _ (VReference _) = true |- _ => apply category_reference in Hm
  end.

Lemma select_sound code cursor located s ts actual expected : let i := li_instruction located in
  operands_linked code i -> control_shape (pi_opcode i) (pi_operands i) -> is_return (pi_opcode i) = false -> control_inputs (pi_opcode i) = Some expected ->
  Forall2 (fun a w => verification_category_matches a w = true) actual expected -> StackTyped s (ts ++ actual) ->
  selected code cursor located s ts (select_cursor code cursor located s).
Proof.
  intros i HL Hsh Hret Hin Hcat Hs. unfold select_cursor. fold i. cbn zeta. pose proof (table_cursor_linked code i) as Htab. pose proof (lookup_cursor_linked code i) as Hlook.
  destruct (is_switch (pi_opcode i)) eqn:Hsw.
  - destruct (pi_opcode i) eqn:Ho; try discriminate Hsw; injection Hin as <-; inputs Hcat; destruct (peek_int_typed _ _ located Hs) as [key ->];
      destruct (popped_typed _ _ _ Hs) as (s1 & Hp & Hs1 & Hl1); cbn [rbind].
    + destruct (Htab key HL Hsh eq_refl) as (c & -> & Hc). cbn [rbind ok_or]. rewrite Hp. split; [by left|done].
    + destruct (Hlook key HL Hsh eq_refl) as (c & -> & Hc). cbn [rbind ok_or]. rewrite Hp. split; [by left|done].
  - destruct (direct_target_linked code i HL Hsh Hret Hsw) as (c & Hd & Hb). assert (Hc : c ∈ branch_targets code (pi_id i)) by (rewrite Hb; left).
    rewrite Hd. destruct (pi_opcode i) eqn:Ho; try discriminate Hin; try discriminate Hret; try discriminate Hsw; injection Hin as <-; inputs Hcat.
    all: try (rewrite app_nil_r in Hs; rewrite Hb; cbn [only_target ok_or rbind selected]; split; [left; exact Hc|done]; fail).
    all: first [eapply (branch_one _ _ _ _ _ _ _ (peek_int s located)); [exact Hc|by fold i; rewrite Ho|by eapply peek_int_typed|exact Hs]
               |eapply (branch_one _ _ _ _ _ _ _ (peek_reference s located)); [exact Hc|by fold i; rewrite Ho|by eapply peek_reference_typed|exact Hs]
               |eapply (branch_two _ _ _ _ _ _ _ _ (two_ints s located)); [exact Hc|by fold i; rewrite Ho|by eapply two_ints_typed|exact Hs]
               |eapply (branch_two _ _ _ _ _ _ _ _ (two_references s located)); [exact Hc|by fold i; rewrite Ho|by eapply two_references_typed|exact Hs]].
Qed.

(** ** Returns *)

(** Every object is an instance of the root class. *)
Context (object_root : forall r id, instance_of r id -> instance_of RtObject id).

Definition returned (rt : VerificationReturnType) (v : option (JvmValue K)) : Prop :=
  match rt, v with RtVoid, None => True | RtValue t, Some v => value_typed v t | _, _ => False end.

Lemma subtype_typed v t declared : value_typed v t -> type_less_equal t declared = true -> declared <> VUnusable -> value_typed v declared.
Proof using Type object_root.
  intros Hv Hle%bool_decide_eq_true_1%type_join_le Hd. destruct Hle as [->|[->|[->|[[-> [r ->]]|[[r ->] ->]]]]]; try done; destruct v as [| | | |[]|]; try done. by eapply object_root.
Qed.

Lemma return_value_typed o w a v : is_return o = true -> control_inputs o = Some [w] -> verification_category_matches a w = true -> value_typed v a -> return_value o v = true.
Proof.
  intros Hr Hin Hm Hv. destruct o; try discriminate Hr; try discriminate Hin; injection Hin as <-;
    first [apply category_exact in Hm as ->; [|done]|apply category_reference in Hm]; destruct v as [| | | |[]|]; try done; by destruct a.
Qed.

Lemma return_inputs o expected : is_return o = true -> control_inputs o = Some expected -> (o = Return /\ expected = []) \/ (o <> Return /\ exists w, expected = [w]).
Proof. intros Hr Hin. destruct o; try discriminate Hr; injection Hin as <-; eauto. Qed.

Lemma return_sound code located rt s ts actual expected : let i := li_instruction located in
  operands_linked code i -> control_shape (pi_opcode i) (pi_operands i) -> is_return (pi_opcode i) = true -> control_inputs (pi_opcode i) = Some expected ->
  Forall2 (fun a w => verification_category_matches a w = true) actual expected -> StackTyped s (ts ++ actual) -> rt <> RtValue VUnusable ->
  match (if decide (pi_opcode i = Return) then None else last (ts ++ actual)), rt with
  | None, RtVoid => True | Some t, RtValue declared => type_less_equal t declared = true | _, _ => False end ->
  exists result s', execute_return code located s = Ok (result, s') /\ returned rt result /\ StackTyped s' ts /\ stack_limit s' = stack_limit s.
Proof using Type object_root.
  intros i HL Hsh Hret Hin Hcat Hs Hrt Htype. unfold execute_return. fold i. cbn zeta. unfold operands_linked in HL.
  destruct (pi_operands i) eqn:Hops; try done; cbn in Hsh; try (destruct Hsh; congruence); try (rewrite Hsh in Hret; done). cbn in HL. apply Forall2_nil_inv_l in HL as ->.
  destruct (return_inputs _ _ Hret Hin) as [[Hr ->]|[Hr [w ->]]].
  - rewrite decide_True in Htype by done. rewrite decide_True by done. inputs Hcat. rewrite app_nil_r in Hs. exists None, s. split; [done|]. by destruct rt.
  - rewrite decide_False in Htype by done. rewrite decide_False by done. inputs Hcat. rewrite last_snoc in Htype. destruct rt as [|declared]; [done|].
    destruct (pop_typed _ _ _ Hs) as (v & s1 & _ & -> & -> & Hv & Hs1 & Hl1). cbn [map_err rbind].
    match goal with Hm : verification_category_matches ?a w = true |- _ => rewrite (return_value_typed _ _ _ _ Hret Hin Hm Hv) end.
    exists (Some v), s1. split; [done|]. split; [|done]. cbn. eapply subtype_typed; [done|done|by intros ->].
Qed.

(** ** The theorem *)

Context {ClassDefinitionId Dependency : Type} `{OpcodeManifest} `{EqDecision ClassDefinitionId}.
Context (byte_origin : SourceId -> nat -> nat -> Origin) {Hbyte : ByteOrigin byte_origin}.
Context (validate_exception_handlers : DecodedCode -> nat -> list (N * N * N) -> Res CodecError unit).

Lemma control_step semantics decoded code_length table source identity
    (verification : option (VerificationPreparation (ClassDefinitionId:=ClassDefinitionId) (Dependency:=Dependency))) code cursor located rt st st' f s :
  DecodedIndexed decoded ->
  prepare_code_inner byte_origin validate_exception_handlers semantics decoded code_length table source identity verification = Ok code ->
  lc_instructions code !! cursor = Some located -> rt <> RtValue VUnusable ->
  Conforms st f s -> transfer_control rt (li_instruction located) st = Ok st' ->
  let i := li_instruction located in
  match execute_control_instruction code cursor s false with
  | Ok (COContinue c r, s') => r = receipt i /\ successor code cursor located c /\ Conforms st' f s'
  | Ok (COReturn result r, s') => r = receipt i /\ returned rt result /\ Conforms st' f s'
  | Err e => fallthrough_missing code cursor located e
  | _ => False
  end.
Proof using Type object_root Hbyte.
  intros Hidx Hprep Hl Hrt [HLoc Hs] Htr i. destruct (prepared_targets _ _ _ _ _ _ _ _ _ Hidx _ _ _ Hprep Hl) as (d & ids & _ & Hpf & _ & Hid & Hids & Htargets).
  destruct (transfer_control_inv _ _ _ _ Htr) as (ts & actual & expected & Hin & Hv & Hvals & Hcat & Hre & Hret). destruct (conforms_values _ _ Hs) as [Hcap Hst].
  rewrite Hvals in Hst. destruct (restacked_slots _ _ _ Hre) as (Hloc' & Hstk & _). rewrite Hcap in Hstk.
  destruct (operand_targets _ _ _ _ Hpf Hids Hv) as [Hsh Hops]. assert (HL : operands_linked code i) by (unfold operands_linked, i; by rewrite Hops, <- Hid).
  assert (Hconf : forall s', StackTyped s' ts -> stack_limit s' = stack_limit s -> Conforms st' f s').
  { intros s' Hs' Hlim. split; [by rewrite Hloc'|]. rewrite Hstk, <- Hlim. by eexists. }
  unfold execute_control_instruction, code_instruction. rewrite Hl. cbn [expect rbind andb]. fold i. destruct (is_return (pi_opcode i)) eqn:Hr.
  - destruct (return_sound code located rt s ts actual expected HL Hsh Hr Hin Hcat Hst Hrt (Hret Hr)) as (result & s' & -> & Hres & Hs' & Hlim). cbn [rbind]. auto.
  - pose proof (select_sound code cursor located s ts actual expected HL Hsh Hr Hin Hcat Hst) as Hsel. destruct (select_cursor code cursor located s) as [[c s']|e| |]; try done.
    cbn [rbind]. destruct Hsel as (Hc & Hs' & Hlim). auto.
Qed.

(** C32: An accepted control instruction of prepared code runs on a conforming
    frame.  At a safepoint with an interrupt requested it stops before changing
    anything; otherwise it continues at one of its frozen targets or at the next
    instruction, or returns a value of the declared type, and what is left of the
    frame conforms.  The only error is that a conditional branch at the end of the
    code has no instruction to fall through to, which the transfer does not
    check. *)
Theorem control_sound semantics decoded code_length table source identity
    (verification : option (VerificationPreparation (ClassDefinitionId:=ClassDefinitionId) (Dependency:=Dependency))) code cursor located offset rt st st' f s interrupt :
  DecodedIndexed decoded ->
  prepare_code_inner byte_origin validate_exception_handlers semantics decoded code_length table source identity verification = Ok code ->
  lc_instructions code !! cursor = Some located -> rt <> RtValue VUnusable ->
  Conforms st f s -> transfer_control_instruction rt (li_instruction located) offset st = Ok st' ->
  let i := li_instruction located in
  match execute_control_instruction code cursor s interrupt with
  | Ok (COInterrupted id c, s') => interrupt = true /\ li_safepoint located = true /\ id = pi_id i /\ c = cursor /\ s' = s
  | Ok (COContinue c r, s') => interrupt && li_safepoint located = false /\ r = receipt i /\ successor code cursor located c /\ Conforms st' f s'
  | Ok (COReturn result r, s') => interrupt && li_safepoint located = false /\ r = receipt i /\ returned rt result /\ Conforms st' f s'
  | Err e => fallthrough_missing code cursor located e
  | _ => False
  end.
Proof using Type object_root Hbyte.
  intros Hidx Hprep Hl Hrt HC Htr%located_ok i. pose proof (control_step _ _ _ _ _ _ _ _ _ _ _ _ _ f s Hidx Hprep Hl Hrt HC Htr) as Hc. cbn zeta in Hc. revert Hc.
  unfold execute_control_instruction, code_instruction. rewrite Hl. cbn [expect rbind andb]. destruct (interrupt && li_safepoint located) eqn:Hi.
  - intros _. apply andb_true_iff in Hi as [-> ->]. done.
  - fold i. destruct (is_return (pi_opcode i)); [destruct (execute_return code located s) as [[v s']|e| |]|destruct (select_cursor code cursor located s) as [[c s']|e| |]]; cbn [rbind]; tauto.
Qed.
End Sound.
