(* ===== verification/JvmRun.v ===== *)
(** * The production driver of the JVM profile

    crates/sim-lib-lang-jvm/src/dispatch.rs and driver.rs: the opcodes the
    surface prepares, the dispatch of a prepared instruction by its family, and
    one step of the production policy.  On code with an assignment of typed frames
    that the verifier's transfers respect and in which states flow along edges
    without losing stack depth, a run from a conforming frame has no typed error:
    it goes on, returns a value of the declared type, or aborts at a division by
    zero. *)

From stdpp Require Import gmap strings relations.
From S2P Require Import Prelude BTree Lattice MachineStack MachineSlots MachineCode MachineDriver ManagedNode JvmTypes JvmCode JvmExecute JvmVerify JvmSound.

(** ** The surface *)

(** [SurfacePolicy::semantics]. *)
Definition surface_semantics (o : Opcode) : option JvmInstructionSemantics :=
  let one := [CategoryOne] in
  let two := [CategoryOne; CategoryOne] in
  let entry (pops pushes : list JvmSlotKind) := Some {| sem_pops := pops; sem_pushes := pushes; sem_safepoint := false |} in
  match o with
  | Iload | Iload0 | Iload1 | Iload2 | Iload3 => entry [] one
  | Istore | Istore0 | Istore1 | Istore2 | Istore3 => entry one []
  | Iinc => entry [] []
  | IconstM1 | Iconst0 | Iconst1 | Iconst2 | Iconst3 | Iconst4 | Iconst5 | Bipush | Sipush => entry [] one
  | Iadd | Isub | Imul | Idiv | Irem => entry two one
  | Ineg | I2b | I2c | I2s => entry one one
  | Ireturn => entry one []
  | Return | Goto | GotoW => entry [] []
  | Ifeq | Ifne | Iflt | Ifge | Ifgt | Ifle => entry one []
  | IfIcmpeq | IfIcmpne | IfIcmplt | IfIcmpge | IfIcmpgt | IfIcmple => entry two []
  | _ => None
  end.

Inductive SurfaceOpcodeDisposition := Handler (family : PreparedDispatchFamily) | PreparationRefusal.

Definition surface_opcode_disposition (o : Opcode) : Res unit SurfaceOpcodeDisposition :=
  let? row := expect (PREPARED_DISPATCH !! opcode_byte o) in
  Ok (match row, surface_semantics o with Some family, Some _ => Handler family | _, _ => PreparationRefusal end).

(** ** One step *)

(** The messages of [JvmInvocationError::Resource] and [Admission] in the driver. *)
Inductive JvmInvocationError {T Origin : Type} :=
| PreparedStorage (e : ExecutionError)
| PreparedNumeric (e : NumericExecutionError (T:=T))
| PreparedControl (e : JvmControlError (Origin:=Origin))
| NoFallthrough (family : PreparedDispatchFamily)
| ObjectNotInstalled (o : Opcode).
Arguments JvmInvocationError : clear implicits.

Definition dispatch_prepared {A} (storage numeric control object : PreparedJvmInstruction -> A) (i : PreparedJvmInstruction) : A :=
  match pi_dispatch i with
  | FStorage => storage i
  | FNumeric => numeric i
  | FControl => control i
  | FObject => object i
  end.

Section Step.
Context {K T Origin SourceId : Type} `{KernelOrigin Origin SourceId}.
Abbreviation code_t := (LocatedCode PreparedJvmInstruction N Origin).

(** [DriveFrame]: the lease holds the locals and operands until the method
    returns. *)
Record DriveFrame := { df_lease : option (SlotFile (JvmValue K) * UnitStack (JvmValue K)); df_cursor : CodeCursor }.

Abbreviation outcome_t := (StepOutcome DriveFrame (option (JvmValue K)) Empty_set unit unit).

Implicit Types (code : code_t) (frame : DriveFrame) (i : PreparedJvmInstruction).

Definition fall_through code frame (family : PreparedDispatchFamily) : Res (JvmInvocationError T Origin) outcome_t :=
  let? next := ok_or (NoFallthrough family) (code_next code (df_cursor frame)) in Ok (StepContinue next).

Definition step_storage code frame i : Res (JvmInvocationError T Origin) outcome_t * DriveFrame :=
  match df_lease frame with
  | None => (Panic, frame)
  | Some (locals, operands) =>
    let '(r, lease) := execute_storage_instruction (fun index => Err (EConstant index)) i locals operands in
    let frame := {| df_lease := Some lease; df_cursor := df_cursor frame |} in
    ((let? _ := map_err PreparedStorage r in fall_through code frame FStorage), frame)
  end.

(** The closure that would allocate the exception panics. *)
Definition step_numeric code frame i : Res (JvmInvocationError T Origin) outcome_t * DriveFrame :=
  match df_lease frame with
  | None => (Panic, frame)
  | Some (locals, operands) =>
    let '(r, operands) := execute_numeric_instruction Panic i operands in
    let frame := {| df_lease := Some (locals, operands); df_cursor := df_cursor frame |} in
    ((let? _ := map_err PreparedNumeric r in fall_through code frame FNumeric), frame)
  end.

Definition step_control code frame i : Res (JvmInvocationError T Origin) outcome_t * DriveFrame :=
  match df_lease frame with
  | None => (Panic, frame)
  | Some (locals, operands) =>
    match map_err PreparedControl (execute_control_instruction code (df_cursor frame) operands false) with
    | Ok (COContinue cursor _, operands) => (Ok (StepContinue cursor), {| df_lease := Some (locals, operands); df_cursor := df_cursor frame |})
    | Ok (COReturn v _, _) => (Ok (StepReturn v), {| df_lease := None; df_cursor := df_cursor frame |})
    | Ok (COInterrupted _ _, operands) => (Ok (StepInterrupt tt), {| df_lease := Some (locals, operands); df_cursor := df_cursor frame |})
    | Err e => (Err e, frame)
    | Panic => (Panic, frame)
    | NoFuel => (NoFuel, frame)
    end
  end.

Definition step_object frame i : Res (JvmInvocationError T Origin) outcome_t * DriveFrame := (Err (ObjectNotInstalled (pi_opcode i)), frame).

(** [ProductionPolicy::dispatch]. *)
Definition production_dispatch code frame i : Res (JvmInvocationError T Origin) outcome_t * DriveFrame :=
  dispatch_prepared (step_storage code frame) (step_numeric code frame) (step_control code frame) (step_object frame) i.
End Step.

(** ** Flow between frames *)

Section Flow.
Context {K : Type} (instance_of : ReferenceType -> ManagedId -> Prop).
Context (object_root : forall r id, instance_of r id -> instance_of RtObject id).
Abbreviation typed := (value_typed (K:=K) instance_of).
Implicit Types (ts us : list VerificationType) (a b : VerificationState) (slots : list VerificationSlot).

(** The types of a stack. *)
Definition stack_of (f : VerificationFrame) (n : nat) ts : Prop := f = FReachable OperandStack (stack_slots n ts) /\ types_width ts <= n.

(** State [a] flows into [b]: [b] absorbs it in the join, both stacks have one
    depth, and the stack of [b] has no unusable entry.  The last two conditions
    are those of the JVM specification on merged frames; the verifier's own join
    does not check them ([dropped_depth_accepted] in JvmSamples). *)
Record Flows a b : Prop := {
  fl_locals : frame_join (vs_locals a) (vs_locals b) = vs_locals b;
  fl_stack : frame_join (vs_stack a) (vs_stack b) = vs_stack b;
  fl_capacity : frame_capacity (vs_locals a) = frame_capacity (vs_locals b);
  fl_wf : exists slots, vs_locals b = FReachable Locals slots /\ slots_wf slots;
  fl_depth : exists n ts us, stack_of (vs_stack a) n ts /\ stack_of (vs_stack b) n us /\ types_width ts = types_width us /\ VUnusable ∉ us /\
    Forall (fun t => is_Some (vtype_width t)) (ts ++ us);
}.

Lemma join_le_typed v t u : typed v t -> type_join t u = u -> u <> VUnusable -> typed v u.
Proof using Type object_root. intros Hv Hj Hu. eapply subtype_typed; [done|exact Hv|by apply bool_decide_eq_true_2|done]. Qed.

(** A join that gives the right frame back. *)
Lemma absorbed_slots kind l r : slots_wf l -> slots_wf r -> length l = length r -> frame_join (FReachable kind l) (FReachable kind r) = FReachable kind r ->
  forall k u, r !! k = Some (SValue u) -> exists t, l !! k = Some (SValue t) /\ type_join t u = u.
Proof.
  intros Hl Hr Hlen. unfold frame_join. cbn [frame_kind frame_capacity normalized_slots]. rewrite bool_decide_false by naive_solver. cbn [orb].
  rewrite bool_decide_false by naive_solver. intros [= Hj]. intros k u Hk. destruct (slots_join_lookup l r Hl Hr Hlen) as [_ Hlook]. unfold slots_join in Hlook.
  specialize (Hlook k). rewrite Hj, Hk in Hlook. destruct (l !! k) as [x|]; [|done]. injection Hlook as Hx. destruct x; try done. injection Hx as Hx. eauto.
Qed.

Lemma wf_cons t slots : is_Some (vtype_width t) -> slots_wf slots -> slots_wf (type_slots t ++ slots).
Proof.
  intros Ht [Hh Htl Hb]. assert (t <> VBottom) by (intros ->; by destruct Ht). unfold type_slots. case_decide as Hw; cbn [app].
  - apply type_width_category2 in Hw; [|done]. split.
    + intros [|[|k]] u Hk Hu; cbn in *; [done|done|by eapply Hh].
    + intros [|[|k]] Hk; cbn in *; [done|by exists 0, t|]. destruct (Htl k Hk) as (j & u & -> & Hj & Hu). by exists (S (S j)), u.
    + intros [|[|k]] Hk; cbn in *; [naive_solver|done|by eapply Hb].
  - split.
    + intros [|k] u Hk Hu; cbn in *; [|by eapply Hh]. injection Hk as ->. by apply type_width_category2 in Hu.
    + intros [|k] Hk; cbn in *; [done|]. destruct (Htl k Hk) as (j & u & -> & Hj & Hu). by exists (S j), u.
    + intros [|k] Hk; cbn in *; [naive_solver|by eapply Hb].
Qed.

Lemma unusable_wf n : slots_wf (replicate n SUnusable).
Proof. split; intros *; intros [? _]%lookup_replicate_1; done. Qed.

Lemma packed_wf n ts : Forall (fun t => is_Some (vtype_width t)) ts -> slots_wf (stack_slots n ts).
Proof.
  intros Hts. unfold stack_slots. cbn zeta. generalize (n - length (concat (type_slots <$> ts))) as k. intros k.
  induction Hts as [|t ts Ht _ IH]; [apply unusable_wf|]. rewrite fmap_cons. cbn [concat]. rewrite <- app_assoc. by apply wf_cons.
Qed.

Lemma join_width t u : type_join t u = u -> u <> VUnusable -> is_Some (vtype_width t) -> type_width t = type_width u.
Proof. intros Hj%type_join_le Hu Ht. destruct Hj as [->|[->|[->|[[-> [r ->]]|[[r ->] ->]]]]]; try done. by destruct Ht. Qed.

(** Stacks of one depth whose slots are absorbed agree value by value. *)
Lemma absorbed_types ts us l r : Forall (fun t => is_Some (vtype_width t)) ts -> VUnusable ∉ us -> types_width ts = types_width us ->
  (forall k u, (concat (type_slots <$> us) ++ r) !! k = Some (SValue u) -> k < types_width us -> exists t, (concat (type_slots <$> ts) ++ l) !! k = Some (SValue t) /\ type_join t u = u) ->
  Forall2 (fun t u => type_join t u = u) ts us.
Proof.
  revert ts. induction us as [|u us IH]; intros [|t ts] Hts Hus Hw Hk; [constructor|unfold types_width, type_width in Hw; cbn in Hw; lia|unfold types_width, type_width in Hw; cbn in Hw; lia|].
  apply Forall_cons in Hts as [Ht Hts]. apply not_elem_of_cons in Hus as [Hu Hus].
  assert (type_join t u = u) as Htu. { destruct (Hk 0 u) as (t' & Ht' & Hj); [done|unfold types_width, type_width; cbn; lia|]. cbn in Ht'. by injection Ht' as ->. }
  pose proof (join_width t u Htu ltac:(done) Ht) as Hwidth. constructor; [done|]. apply IH; [done|done|unfold types_width in *; cbn in Hw; lia|].
  intros k w Hw' Hlt. destruct (Hk (type_width u + k) w) as (t' & Ht' & Hj).
  - rewrite fmap_cons. cbn [concat]. rewrite <- app_assoc, lookup_app_r by (rewrite length_type_slots; lia). by rewrite length_type_slots, Nat.add_comm, Nat.add_sub.
  - unfold types_width in *. cbn. lia.
  - exists t'. split; [|done]. rewrite fmap_cons in Ht'. cbn [concat] in Ht'. rewrite <- app_assoc, lookup_app_r in Ht' by (rewrite length_type_slots; lia).
    by rewrite length_type_slots, Hwidth, Nat.add_comm, Nat.add_sub in Ht'.
Qed.

(** What conforms to a state conforms to every state it flows into. *)
Lemma flows_conform a b f s : Conforms (K:=K) instance_of a f s -> Flows a b -> Conforms instance_of b f s.
Proof using Type object_root.
  intros [(slots & m & HL) (ts0 & Hst & Hs)] [Hfl Hfs Hcap (slots' & Hb & Hwf) (n & ts & us & [Ha Hn] & [Hbs Hn'] & Hw & Hun & Hall)]. split.
  - rewrite (lc_frame _ _ _ _ _ HL), Hb in Hfl, Hcap. cbn in Hcap. pose proof (absorbed_slots _ _ _ (lc_wf _ _ _ _ _ HL) Hwf Hcap Hfl) as Habs.
    exists slots', m. rewrite Hb. split; [done|done|rewrite <- Hcap; apply (lc_implements _ _ _ _ _ HL)|rewrite <- Hcap; apply (lc_limit _ _ _ _ _ HL)|].
    intros k u Hk Hu. destruct (Habs k u Hk) as (t & Ht & Hj). destruct (decide (t = VUnusable)) as [->|Hne]; [by destruct u|].
    destruct (lc_typed _ _ _ _ _ HL k t Ht Hne) as (v & Hv & Hvt). exists v. split; [done|]. by eapply join_le_typed.
  - apply Forall_app in Hall as [Hats Haus].
    assert (stack_slots n ts = stack_slots (stack_limit s) ts0) as Heq by congruence. destruct (typed_total _ _ _ Hs) as [_ Hlim].
    assert (ts = ts0) as <- by (apply (f_equal slots_values) in Heq; by rewrite !stack_slots_values in Heq).
    assert (n = stack_limit s) as -> by (apply (f_equal length) in Heq; by rewrite !stack_slots_length in Heq).
    rewrite Ha, Hbs in Hfs. pose proof (absorbed_slots OperandStack (stack_slots (stack_limit s) ts) (stack_slots (stack_limit s) us) (packed_wf _ _ Hats) (packed_wf _ _ Haus) ltac:(by rewrite !stack_slots_length) Hfs) as Habs.
    assert (Forall2 (fun t u => type_join t u = u) ts us) as Hall by (eapply absorbed_types; [done|done|done|]; intros k u Hk _; by apply Habs).
    exists us. split; [done|]. destruct Hs as [Hinv Hv Hl]. split; [done| |done]. clear -Hv Hall Hun object_root. revert us Hall Hun.
    induction Hv as [|v t vs ts Hvt _ IH]; intros us Hall Hun; [by apply Forall2_nil_inv_l in Hall as ->|]. apply Forall2_cons_inv_l in Hall as (u & us' & Hj & Hall & ->).
    apply not_elem_of_cons in Hun as [Hu Hun]. constructor; [by eapply join_le_typed|by apply IH].
Qed.
End Flow.

(** ** Verified runs *)

Section Run.
Context {K T Origin SourceId : Type} `{KernelOrigin Origin SourceId}.
Context (instance_of : ReferenceType -> ManagedId -> Prop) (object_root : forall r id, instance_of r id -> instance_of RtObject id).
Context {CodecError ClassDefinitionId Dependency : Type} `{OpcodeManifest} `{EqDecision ClassDefinitionId}.
Context (byte_origin : SourceId -> nat -> nat -> Origin) {Hbyte : ByteOrigin byte_origin}.
Context (validate_exception_handlers : DecodedCode -> nat -> list (N * N * N) -> Res CodecError unit).
Abbreviation code_t := (LocatedCode PreparedJvmInstruction N Origin).
Abbreviation frame_t := (DriveFrame (K:=K)).
Implicit Types (code : code_t) (rt : VerificationReturnType) (frame : frame_t) (located : LocatedInstruction PreparedJvmInstruction N Origin).

(** The transfer of an instruction, by its family. *)
Definition transfer_instruction rt (i : PreparedJvmInstruction) st : Res VerificationTransferKind VerificationState :=
  dispatch_prepared (fun i => transfer_storage (fun _ => None) i st) (fun i => transfer_numeric i st) (fun i => transfer_control rt i st) (fun _ => Err TMalformedPreparedInput) i.

Definition continues_next (i : PreparedJvmInstruction) : bool :=
  match pi_dispatch i with FStorage | FNumeric => true | FControl => is_conditional (pi_opcode i) | FObject => false end.

(** An assignment of typed frames to the instructions of a method that every
    transfer respects. *)
Record WellTyped rt code (types : CodeCursor -> option VerificationState) : Prop := {
  wt_domain : forall c st, types c = Some st -> c < code_len code;
  wt_transfer : forall c located st, lc_instructions code !! c = Some located -> types c = Some st -> exists st',
    transfer_instruction rt (li_instruction located) st = Ok st' /\
    (forall c', c' ∈ branch_targets code (pi_id (li_instruction located)) -> exists st'', types c' = Some st'' /\ Flows st' st'') /\
    (continues_next (li_instruction located) = true -> exists c' st'', code_next code c = Some c' /\ types c' = Some st'' /\ Flows st' st'');
}.

(** One step that goes on. *)
Inductive run_step code : frame_t -> frame_t -> Prop :=
| run_continue frame located c frame' : lc_instructions code !! df_cursor frame = Some located ->
    production_dispatch (T:=T) code frame (li_instruction located) = (Ok (StepContinue c), frame') ->
    run_step code frame {| df_lease := df_lease frame'; df_cursor := c |}.

Definition frame_typed (types : CodeCursor -> option VerificationState) frame : Prop :=
  exists f s st, df_lease frame = Some (f, s) /\ types (df_cursor frame) = Some st /\ Conforms instance_of st f s.

(** What one step of a typed frame may give. *)
Definition step_sound rt types frame (i : PreparedJvmInstruction) (r : Res (JvmInvocationError T Origin) (StepOutcome frame_t (option (JvmValue K)) Empty_set unit unit) * frame_t) : Prop :=
  match r with
  | (Ok (StepContinue c), frame') => frame_typed types {| df_lease := df_lease frame'; df_cursor := c |}
  | (Ok (StepReturn v), frame') => returned instance_of rt v /\ df_lease frame' = None
  | (Panic, _) => exists f s, df_lease frame = Some (f, s) /\ divides_by_zero i s = true
  | _ => False
  end.

Lemma surface_opcode o : is_Some (surface_semantics o) -> o <> Nop.
Proof. intros [x Hx] ->. done. Qed.

Lemma numeric_opcode o : PREPARED_DISPATCH !! opcode_byte o = Some (Some FNumeric) -> o <> Iinc.
Proof. by intros Hd ->. Qed.

Context (decoded : DecodedCode) (code_length : nat) (table : list CodeException) (source : SourceId) (identity : option PreparedCodeIdentity).
Context (verification : option (VerificationPreparation (ClassDefinitionId:=ClassDefinitionId) (Dependency:=Dependency))).
Context (rt : VerificationReturnType) (types : CodeCursor -> option VerificationState) (code : code_t).
Context (Hindexed : DecodedIndexed decoded) (Hoperands : Forall (fun d => Forall operand_in_range (in_operands (di_instruction d))) (dc_instructions decoded)).
Context (Hprepared : prepare_code_inner byte_origin validate_exception_handlers surface_semantics decoded code_length table source identity verification = Ok code).
Context (Hreturn : rt <> RtValue VUnusable) (Htyped : WellTyped rt code types).

Lemma next_typed frame i f s st' family : (exists c' st'', code_next code (df_cursor frame) = Some c' /\ types c' = Some st'' /\ Flows st' st'') ->
  Conforms instance_of st' f s ->
  step_sound rt types frame i (fall_through (T:=T) code {| df_lease := Some (f, s); df_cursor := df_cursor frame |} family, {| df_lease := Some (f, s); df_cursor := df_cursor frame |}).
Proof using Type object_root.
  intros (c' & st'' & Hn & Ht & Hf) HC. unfold fall_through. cbn [df_cursor]. rewrite Hn. cbn. exists f, s, st''. split; [done|]. split; [done|]. by eapply flows_conform.
Qed.

Lemma run_step_sound frame located : frame_typed types frame -> lc_instructions code !! df_cursor frame = Some located ->
  step_sound rt types frame (li_instruction located) (production_dispatch code frame (li_instruction located)).
Proof using All.
  intros (f & s & st & Hlease & Hst & HC) Hl. destruct (prepared_targets _ _ _ _ _ _ _ _ _ Hindexed _ _ _ Hprepared Hl) as (d & ids & Hd & Hpf & Hsem & _).
  destruct (wt_transfer _ _ _ Htyped _ _ _ Hl Hst) as (st' & Htr & Hbranch & Hnext). set (i := li_instruction located) in *.
  unfold production_dispatch, transfer_instruction, dispatch_prepared, continues_next in *. destruct (pi_dispatch i) eqn:Hfam; [| | |done].
  - unfold step_storage. rewrite Hlease. rewrite Forall_forall in Hoperands.
    pose proof (storage_step instance_of (CodecError:=CodecError) (fun _ => None) (fun index => Err (EConstant index)) decoded d i st st' f s) as Hsto.
    destruct (execute_storage_instruction _ i f s) as [[x|e| |] [f' s']]; cbn [stored] in Hsto;
      (destruct Hsto as [Hx HC']; [done|done|apply Hoperands; by eapply list_elem_of_lookup_2|by apply surface_opcode|done|done|]) || (exfalso; apply Hsto; [done|done|apply Hoperands; by eapply list_elem_of_lookup_2|by apply surface_opcode|done|done]);
      [|by destruct Hx as (index & t & rf & _ & Ht & _)].
    cbn [map_err rbind]. eapply next_typed; [by apply Hnext|done].
  - unfold step_numeric. rewrite Hlease. assert (Hop : pi_opcode i <> Iinc) by (apply numeric_opcode; rewrite (pf_dispatch _ _ _ Hpf); by rewrite Hfam).
    pose proof (numeric_step (T:=T) instance_of Panic i st st' f s Hop HC Htr) as Hnum. destruct (divides_by_zero i s) eqn:Hz.
    + destruct Hnum as (s' & ->). cbn. eauto.
    + destruct Hnum as (s' & -> & HC'). cbn [map_err rbind]. eapply next_typed; [by apply Hnext|done].
  - unfold step_control. rewrite Hlease.
    pose proof (control_step instance_of object_root byte_origin validate_exception_handlers _ _ _ _ _ _ _ _ _ _ rt _ _ f s Hindexed Hprepared Hl Hreturn HC Htr) as Hctl.
    cbn zeta in Hctl. destruct (execute_control_instruction code (df_cursor frame) s false) as [[[c r|v r|x y] s']|e| |]; cbn [map_err]; try done.
    + destruct Hctl as (_ & Hsucc & HC'). cbn. destruct Hsucc as [Hin|[Hcond Hn]].
      * destruct (Hbranch c Hin) as (st'' & Ht & Hf). exists f, s', st''. split; [done|]. split; [done|]. by eapply flows_conform.
      * destruct (Hnext Hcond) as (c' & st'' & Hn' & Ht & Hf). assert (c' = c) as -> by congruence. exists f, s', st''. split; [done|]. split; [done|]. by eapply flows_conform.
    + destruct Hctl as (_ & Hret & _). done.
    + destruct Hctl as (_ & Hcond & Hn). destruct (Hnext Hcond) as (c' & st'' & Hn' & _). congruence.
Qed.

(** C24: A run of prepared code from a conforming frame, when the instructions
    have typed frames that the verifier's transfers respect and that flow into
    each other with one stack depth and no unusable stack entry (which the
    verifier's join alone does not ensure), has no typed error: every frame it
    reaches conforms to the assignment, and its next step goes on, returns a value
    of the declared type and gives the lease up, or is a division by zero, at
    which the driver aborts the host instead of raising the guest exception
    ([division_aborts]). *)
Theorem verified_run start frame : frame_typed types start -> rtc (run_step code) start frame ->
  frame_typed types frame /\ exists located, lc_instructions code !! df_cursor frame = Some located /\
    step_sound rt types frame (li_instruction located) (production_dispatch code frame (li_instruction located)).
Proof using All.
  intros Hstart Hrun. assert (frame_typed types frame) as Hframe.
  { induction Hrun as [|x y z Hxy _ IH]; [done|]. apply IH. destruct Hxy as [x located c x' Hl Hd]. pose proof (run_step_sound x located Hstart Hl) as Hs. by rewrite Hd in Hs. }
  split; [done|]. destruct Hframe as (f & s & st & Hlease & Hst & HC) eqn:E. destruct (lookup_lt_is_Some_2 (lc_instructions code) (df_cursor frame)) as [located Hl].
  { by eapply (wt_domain _ _ _ Htyped). }
  exists located. split; [done|]. by apply run_step_sound.
Qed.
End Run.
