(* ===== verification/JvmGraph.v ===== *)
(** * The verifier's dataflow graph of a method

    crates/sim-lib-lang-jvm/src/verifier/graph.rs and the table of rules in
    verifier_rules_generated.rs: prepared code as a graph of the dataflow engine,
    one node per instruction and one edge per branch target, fall-through and
    exception handler.  A graph is built exactly for code without subroutines in
    which nothing falls off the end, its edges are those of each instruction in
    order, and every step of the production driver follows one of them. *)

From stdpp Require Import gmap strings.
From S2P Require Import Prelude BTree Lattice DataflowGraph MachineStack MachineSlots MachineCode MachineDriver ManagedNode JvmTypes JvmCode JvmExecute JvmVerify JvmSound JvmRun.

(** ** Rule families *)

Inductive VerifierRuleFamily := ConstantsLocalsStack | NumericConversion | ControlReturn | ObjectArrayField | ExplicitRefusal.

(** The families of the 256 rules, in the order of the opcodes. *)
Definition VERIFIER_RULES : list VerifierRuleFamily :=
  replicate 96 ConstantsLocalsStack ++ replicate 36 NumericConversion ++ [ConstantsLocalsStack] ++ replicate 20 NumericConversion ++ replicate 15 ControlReturn ++
  replicate 2 ExplicitRefusal ++ replicate 8 ControlReturn ++ replicate 18 ObjectArrayField ++ [ConstantsLocalsStack; ObjectArrayField] ++ replicate 3 ControlReturn ++
  replicate 55 ExplicitRefusal.

Definition verifier_rule (o : Opcode) : option VerifierRuleFamily := VERIFIER_RULES !! opcode_byte o.

(** ** Nodes and edges *)

Inductive ThrowCapability := NeverThrows | MayThrow.

#[global] Instance throw_capability_eq_dec : EqDecision ThrowCapability.
Proof. solve_decision. Defined.

Record VerificationNodeLocation := { vn_offset : nat; vn_end : nat; vn_throw_capability : ThrowCapability }.

Inductive VerificationEdgeClass := EFallthrough | EBranch | EExceptional (row : nat) (catch_type : N).

(** The source instruction and the ordinal among its edges, in that order. *)
Definition VerificationEdgeId : Type := N * nat.

#[export] Instance edge_id_ord : OrdKey VerificationEdgeId := prod_ord.

Abbreviation VerificationGraph := (DataflowGraph N VerificationEdgeId VerificationNodeLocation VerificationEdgeClass).

Inductive VerificationGraphError :=
| IllegalFallthrough (instruction : N) (offset : nat)
| LegacySubroutine (instruction : N) (offset : nat)
| Graph (e : GraphBuildError N VerificationEdgeId).

Definition throw_capability (o : Opcode) : ThrowCapability :=
  match o with
  | Iaload | Laload | Faload | Daload | Aaload | Baload | Caload | Saload | Iastore | Lastore | Fastore | Dastore | Aastore | Bastore | Castore | Sastore
  | Idiv | Ldiv | Irem | Lrem | Getstatic | Putstatic | Getfield | Putfield | Invokevirtual | Invokespecial | Invokestatic | Invokeinterface | Invokedynamic
  | New | Newarray | Anewarray | Arraylength | Athrow | Checkcast | Monitorenter | Monitorexit | Multianewarray => MayThrow
  | _ => NeverThrows
  end.

Section Graph.
Context {Origin SourceId : Type} `{KernelOrigin Origin SourceId} `{OpcodeManifest}.
Context `{FingerprintValue (gmap N (Node N VerificationNodeLocation) * gmap VerificationEdgeId (Edge VerificationEdgeId N VerificationEdgeClass))}.
Abbreviation code_t := (LocatedCode PreparedJvmInstruction N Origin).
Abbreviation located_t := (LocatedInstruction PreparedJvmInstruction N Origin).
Abbreviation edge_t := (EdgeSpec VerificationEdgeId N VerificationEdgeClass).
Implicit Types (code : code_t) (located : located_t).

Definition byte_range (l : SourceLocation Origin) : nat * nat :=
  match l with Bytes origin | Tokens origin _ _ => (origin_start origin, origin_end origin) end.

(** [successors(Some(entry), next)]; each turn goes one instruction on. *)
Fixpoint cursors_from (fuel : nat) code (cursor : CodeCursor) : list CodeCursor :=
  cursor :: match fuel, code_next code cursor with S fuel, Some next => cursors_from fuel code next | _, _ => [] end.

Definition cursors code : list CodeCursor := cursors_from (code_len code) code (code_entry code).

(** The controls after which the next instruction may run. *)
Definition falls_through (o : Opcode) : bool := bool_decide (opcode_control o ∈ ["fallthrough"; "conditional-branch"; "invoke"]%string).

Definition is_legacy (o : Opcode) : bool := match o with Jsr | JsrW | Ret => true | _ => false end.

Definition instruction_offset located : nat := (byte_range (li_location located)).1.

(** One turn of the loop of [validate_graph_policy]. *)
Definition validate_cursor code (cursor : CodeCursor) : Res VerificationGraphError unit :=
  let? located := code_instruction code cursor in
  let o := pi_opcode (li_instruction located) in
  if is_legacy o then Err (LegacySubroutine (li_id located) (instruction_offset located))
  else match code_next code cursor with
       | None => if falls_through o then Err (IllegalFallthrough (li_id located) (instruction_offset located)) else Ok tt
       | Some _ => Ok tt
       end.

Definition validate_graph_policy code : Res VerificationGraphError unit := let? _ := collect (validate_cursor code) (cursors code) in Ok tt.

Definition node_spec code (cursor : CodeCursor) : Res VerificationGraphError (NodeSpec N VerificationNodeLocation) :=
  let? located := code_instruction code cursor in
  let '(offset, end_) := byte_range (li_location located) in
  Ok {| spec_id := li_id located;
        spec_location := {| vn_offset := offset; vn_end := end_; vn_throw_capability := throw_capability (pi_opcode (li_instruction located)) |};
        spec_boundary := Internal |}.

(** The id of the instruction at a cursor. *)
Definition cursor_id code (cursor : CodeCursor) : Res VerificationGraphError N :=
  let? located := code_instruction code cursor in Ok (li_id located).

(** The targets of an instruction with their classes, in the order of [push]. *)
Definition cursor_targets code (cursor : CodeCursor) located : Res VerificationGraphError (list (N * VerificationEdgeClass)) :=
  let i := li_instruction located in
  let? branches := collect (fun target => let? id := cursor_id code target in Ok (id, EBranch)) (branch_targets code (li_id located)) in
  let? next :=
    if falls_through (pi_opcode i) then
      let? next := ok_or (IllegalFallthrough (li_id located) (instruction_offset located)) (code_next code cursor) in
      let? id := cursor_id code next in
      Ok [(id, EFallthrough)]
    else Ok [] in
  let handlers :=
    if decide (throw_capability (pi_opcode i) = MayThrow)
    then (fun h => (pc_handler h, EExceptional (pc_row h) (pc_catch_type h))) <$> pi_handler_membership i
    else [] in
  Ok (branches ++ next ++ handlers).

Definition edge_spec (source : N) (ordinal : nat) (t : N * VerificationEdgeClass) : edge_t :=
  {| espec_id := (source, ordinal); espec_source := source; espec_target := t.1; espec_class := Custom t.2; espec_direction := Forward |}.

Definition cursor_edges code (cursor : CodeCursor) : Res VerificationGraphError (list edge_t) :=
  let? located := code_instruction code cursor in
  let? targets := cursor_targets code cursor located in
  Ok (imap (edge_spec (li_id located)) targets).

Definition graph_edges code : Res VerificationGraphError (list edge_t) :=
  let? edges := collect (cursor_edges code) (cursors code) in Ok (concat edges).

(** [nodes] and [edges] of the adapter; the latter expects its result. *)
Definition verification_adapter code : Res VerificationGraphError LocatedGraphAdapter :=
  let? nodes := collect (node_spec code) (cursors code) in
  match graph_edges code with
  | Ok edges => Ok {| adapter_nodes := nodes; adapter_edges := edges |}
  | Err _ | Panic => Panic
  | NoFuel => NoFuel
  end.

Definition build_verification_graph code : Res VerificationGraphError VerificationGraph :=
  let? _ := validate_graph_policy code in
  let? a := verification_adapter code in
  map_err Graph (build_graph a).
End Graph.

(** ** Code that freezing has linked *)

Section Linked.
Context {Origin SourceId : Type} `{KernelOrigin Origin SourceId} `{OpcodeManifest}.
Abbreviation code_t := (LocatedCode PreparedJvmInstruction N Origin).
Abbreviation located_t := (LocatedInstruction PreparedJvmInstruction N Origin).
Implicit Types (code : code_t) (l : located_t).

(** What the graph needs of frozen code: every target and handler is an
    instruction of it. *)
Record Linked code : Prop := {
  lk_nonempty : lc_instructions code <> [];
  lk_ids : NoDup (li_id <$> lc_instructions code);
  lk_cursors : cursor_table (lc_instructions code) (lc_cursors code);
  lk_targets : forall c l t, lc_instructions code !! c = Some l -> t ∈ branch_targets code (li_id l) -> is_Some (lc_instructions code !! t);
  lk_handlers : forall c l h, lc_instructions code !! c = Some l -> h ∈ pi_handler_membership (li_instruction l) -> is_Some (code_cursor code (pc_handler h));
}.

Lemma code_next_lookup code c : code_next code c = None -> lc_instructions code !! S c = None.
Proof. unfold code_next. destruct (Nat.ltb_spec (c + 1) (length (lc_instructions code))); [done|]. intros _. apply lookup_ge_None_2. lia. Qed.

Lemma code_next_Some code c c' : code_next code c = Some c' <-> c' = S c /\ is_Some (lc_instructions code !! S c).
Proof.
  unfold code_next. rewrite lookup_lt_is_Some. destruct (Nat.ltb_spec (c + 1) (length (lc_instructions code))); rewrite Nat.add_1_r in *; split; [intros [= <-]; auto|by intros [-> _]|done|lia].
Qed.

Lemma cursors_from_seq fuel code c : c < code_len code -> code_len code - c <= S fuel -> cursors_from fuel code c = seq c (code_len code - c).
Proof.
  unfold code_len. revert c. induction fuel as [|fuel IH]; intros c Hc Hf; cbn [cursors_from].
  - replace (length (lc_instructions code) - c) with 1 by lia. done.
  - destruct (code_next code c) as [c'|] eqn:Hn.
    + apply code_next_Some in Hn as [-> Hn%lookup_lt_is_Some]. rewrite IH by lia. by replace (length (lc_instructions code) - c) with (S (length (lc_instructions code) - S c)) by lia.
    + apply code_next_lookup, lookup_ge_None_1 in Hn. replace (length (lc_instructions code) - c) with 1 by lia. done.
Qed.

Lemma cursors_seq code : lc_instructions code <> [] -> cursors code = seq 0 (code_len code).
Proof.
  intros Hne. unfold cursors, code_entry. rewrite cursors_from_seq; rewrite ?Nat.sub_0_r; [done| |lia]. unfold code_len. by destruct (lc_instructions code); [|cbn; lia].
Qed.

Lemma cursor_located code c : c ∈ seq 0 (code_len code) -> exists l, lc_instructions code !! c = Some l.
Proof. intros [_ Hc]%elem_of_seq. apply lookup_lt_is_Some_2. unfold code_len in Hc. lia. Qed.
End Linked.

(** A fallible [map] whose first refusal is known. *)
Lemma collect_safe {E A B} (g : A -> Res E B) (l : list A) : (forall x, x ∈ l -> safe (g x)) -> safe (collect g l).
Proof. induction l as [|x l IH]; intros Hg; [done|]. apply safe_rbind; [apply Hg; left|]. intros y _. apply safe_rbind; [|done]. apply IH. intros z Hz. apply Hg. by right. Qed.

Lemma collect_total {E A B} (g : A -> Res E B) (l : list A) : (forall x, x ∈ l -> exists y, g x = Ok y) -> exists ys, collect g l = Ok ys.
Proof.
  induction l as [|x l IH]; intros Hg; [by exists []|]. destruct (Hg x ltac:(left)) as [y Hy]. destruct IH as [ys Hys]; [intros; apply Hg; by right|].
  exists (y :: ys). cbn. by rewrite Hy, Hys.
Qed.

Lemma collect_first {E A B} (g : A -> Res E B) (l : list A) : (forall x, x ∈ l -> safe (g x)) ->
  match collect g l with
  | Ok ys => Forall2 (fun x y => g x = Ok y) l ys
  | Err e => exists k x, l !! k = Some x /\ g x = Err e /\ forall j y, j < k -> l !! j = Some y -> exists z, g y = Ok z
  | _ => False
  end.
Proof.
  induction l as [|x l IH]; intros Hg; cbn [collect]; [done|]. pose proof (Hg x ltac:(left)) as Hx. destruct (g x) as [y|e| |] eqn:Hgx; try done; cbn [rbind].
  - specialize (IH ltac:(intros; apply Hg; by right)). destruct (collect g l) as [ys|e| |]; try done; cbn [rbind]; [by constructor|].
    destruct IH as (k & z & Hk & Hz & Hb). exists (S k), z. split_and!; [done..|]. intros [|j] w Hj Hw; [injection Hw as <-; eauto|]. eapply Hb; [|done]. lia.
  - exists 0, x. split_and!; [done..|]. lia.
Qed.

(** ** The built graph *)

Section Built.
Context {Origin SourceId : Type} `{KernelOrigin Origin SourceId} `{OpcodeManifest}.
Context `{FingerprintValue (gmap N (Node N VerificationNodeLocation) * gmap VerificationEdgeId (Edge VerificationEdgeId N VerificationEdgeClass))}.
Abbreviation code_t := (LocatedCode PreparedJvmInstruction N Origin).
Abbreviation located_t := (LocatedInstruction PreparedJvmInstruction N Origin).
Implicit Types (code : code_t) (l : located_t) (g : VerificationGraph).

(** Where control may go after the instruction [l] at [c]. *)
Inductive flow code (c : CodeCursor) l : CodeCursor -> VerificationEdgeClass -> Prop :=
| flow_branch c' : c' ∈ branch_targets code (li_id l) -> flow code c l c' EBranch
| flow_next c' : falls_through (pi_opcode (li_instruction l)) = true -> code_next code c = Some c' -> flow code c l c' EFallthrough
| flow_handler h c' : throw_capability (pi_opcode (li_instruction l)) = MayThrow -> h ∈ pi_handler_membership (li_instruction l) ->
    code_cursor code (pc_handler h) = Some c' -> flow code c l c' (EExceptional (pc_row h) (pc_catch_type h)).

(** The nodes of a graph are the instructions, its edges their flow. *)
Record GraphOf code g : Prop := {
  go_wf : graph_wf g;
  go_nodes : forall id n, g_nodes g !! id = Some n <-> exists c l, lc_instructions code !! c = Some l /\ li_id l = id /\
    n = {| node_id := id; node_boundary := Internal;
           node_location := {| vn_offset := (byte_range (li_location l)).1; vn_end := (byte_range (li_location l)).2;
                               vn_throw_capability := throw_capability (pi_opcode (li_instruction l)) |} |};
  go_edges : forall c l c' l' class, lc_instructions code !! c = Some l -> lc_instructions code !! c' = Some l' ->
    flow code c l c' class <-> exists id e, g_edges g !! id = Some e /\ id.1 = li_id l /\ edge_source e = li_id l /\ edge_target e = li_id l' /\ edge_class e = Custom class;
  go_forward : forall id e, g_edges g !! id = Some e -> edge_direction e = Forward;
}.

(** An instruction the policy of the graph admits. *)
Definition admitted code (c : CodeCursor) l : Prop :=
  is_legacy (pi_opcode (li_instruction l)) = false /\ (code_next code c = None -> falls_through (pi_opcode (li_instruction l)) = false).

Lemma same_located code (c : nat) l l' : lc_instructions code !! c = Some l -> lc_instructions code !! c = Some l' -> l = l'.
Proof. intros Hl Hl'. congruence. Qed.

Lemma instruction_ok {E} code (c : nat) l : lc_instructions code !! c = Some l <-> code_instruction (E:=E) code c = Ok l.
Proof. unfold code_instruction. by rewrite expect_Ok. Qed.

Lemma cursor_id_ok code c l : lc_instructions code !! c = Some l -> cursor_id code c = Ok (li_id l).
Proof. intros Hl. unfold cursor_id, code_instruction. by rewrite Hl. Qed.

Lemma id_unique code c c' l l' : Linked code -> lc_instructions code !! c = Some l -> lc_instructions code !! c' = Some l' -> li_id l = li_id l' -> c = c' /\ l = l'.
Proof.
  intros HL Hl Hl' Hid. assert (c = c') as <-; [|split; congruence]. eapply (NoDup_lookup _ c c' (li_id l) (lk_ids _ HL)); rewrite list_lookup_fmap; [by rewrite Hl|by rewrite Hl', Hid].
Qed.

Lemma cursor_id_iff code c c' l' : Linked code -> lc_instructions code !! c' = Some l' -> cursor_id code c = Ok (li_id l') <-> c = c'.
Proof.
  intros HL Hl'. split; [|intros ->; by apply cursor_id_ok]. unfold cursor_id, code_instruction. destruct (lc_instructions code !! c) as [l|] eqn:Hl; [|done]. cbn. intros [= Hid].
  by eapply id_unique.
Qed.

(** A list of targets among the instructions, given by a relation. *)
Definition targets_are code (ts : list (N * VerificationEdgeClass)) (R : CodeCursor -> VerificationEdgeClass -> Prop) : Prop :=
  Forall (fun t => t.1 ∈ li_id <$> lc_instructions code) ts /\
  forall c' l' class, lc_instructions code !! c' = Some l' -> (li_id l', class) ∈ ts <-> R c' class.

Lemma targets_are_app code ts us R Q : targets_are code ts R -> targets_are code us Q -> targets_are code (ts ++ us) (fun c class => R c class \/ Q c class).
Proof. intros [Ht HR] [Hu HQ]. split; [by rewrite Forall_app|]. intros c' l' class Hl'. by rewrite elem_of_app, (HR _ _ _ Hl'), (HQ _ _ _ Hl'). Qed.

Lemma located_id code c l : lc_instructions code !! c = Some l -> li_id l ∈ li_id <$> lc_instructions code.
Proof. intros Hl. apply list_elem_of_fmap. exists l. split; [done|]. by eapply list_elem_of_lookup_2. Qed.

Lemma branch_part code c l : Linked code -> lc_instructions code !! c = Some l ->
  exists ts, collect (fun target => let? id := cursor_id code target in Ok (id, EBranch)) (branch_targets code (li_id l)) = Ok ts /\
    targets_are code ts (fun c' class => class = EBranch /\ c' ∈ branch_targets code (li_id l)).
Proof.
  intros HL Hl. destruct (collect_total (fun target => let? id := cursor_id code target in Ok (id, EBranch)) (branch_targets code (li_id l))) as [bs Hbs].
  { intros t Ht. destruct (lk_targets _ HL _ _ _ Hl Ht) as [lt Hlt]. rewrite (cursor_id_ok _ _ _ Hlt). eexists. done. }
  exists bs. split; [done|]. apply collect_ok in Hbs. split.
  - apply Forall_forall. intros t [k Hk]%list_elem_of_lookup. destruct (Forall2_lookup_r _ _ _ _ _ Hbs Hk) as (x & Hx%list_elem_of_lookup_2 & Hok).
    destruct (lk_targets _ HL _ _ _ Hl Hx) as [lx Hlx]. rewrite (cursor_id_ok _ _ _ Hlx) in Hok. injection Hok as <-. by eapply located_id.
  - intros c' l' class Hl'. split.
    + intros [k Hk]%list_elem_of_lookup. destruct (Forall2_lookup_r _ _ _ _ _ Hbs Hk) as (t & Ht & Hok). destruct (cursor_id code t) eqn:Hc; try done. injection Hok as -> <-.
      apply cursor_id_iff with (2 := Hl') in Hc as ->; [|done]. split; [done|]. by eapply list_elem_of_lookup_2.
    + intros [-> [k Hk]%list_elem_of_lookup]. destruct (Forall2_lookup_l _ _ _ _ _ Hbs Hk) as (b & Hbk & Hok). rewrite (cursor_id_ok _ _ _ Hl') in Hok. injection Hok as <-.
      by eapply list_elem_of_lookup_2.
Qed.

Lemma next_part code c l : Linked code -> lc_instructions code !! c = Some l -> admitted code c l ->
  exists ts, (if falls_through (pi_opcode (li_instruction l))
    then let? next := ok_or (IllegalFallthrough (li_id l) (instruction_offset l)) (code_next code c) in let? id := cursor_id code next in Ok [(id, EFallthrough)] else Ok []) = Ok ts /\
    targets_are code ts (fun c' class => class = EFallthrough /\ falls_through (pi_opcode (li_instruction l)) = true /\ code_next code c = Some c').
Proof.
  intros HL Hl [_ Hfall]. destruct (falls_through _); [|exists []; split; [done|]; split; [done|]; intros; split; [by intros ?%elem_of_nil|naive_solver]].
  destruct (code_next code c) as [next|] eqn:Hnext; [|by specialize (Hfall eq_refl)]. apply code_next_Some in Hnext as [-> [ln Hln]]. cbn [ok_or rbind]. rewrite (cursor_id_ok _ _ _ Hln).
  exists [(li_id ln, EFallthrough)]. split; [done|]. split; [constructor; [by eapply located_id|done]|]. intros c' l' class Hl'. rewrite list_elem_of_singleton. split.
  - intros [= Hi ->]. split_and!; [done..|]. by destruct (id_unique _ _ _ _ _ HL Hl' Hln Hi) as [-> _].
  - intros (-> & _ & [= <-]). by rewrite (same_located _ _ _ _ Hl' Hln).
Qed.

Lemma handler_part code c l : Linked code -> lc_instructions code !! c = Some l ->
  targets_are code (if decide (throw_capability (pi_opcode (li_instruction l)) = MayThrow)
    then (fun h => (pc_handler h, EExceptional (pc_row h) (pc_catch_type h))) <$> pi_handler_membership (li_instruction l) else [])
    (fun c' class => throw_capability (pi_opcode (li_instruction l)) = MayThrow /\
      exists h, h ∈ pi_handler_membership (li_instruction l) /\ code_cursor code (pc_handler h) = Some c' /\ class = EExceptional (pc_row h) (pc_catch_type h)).
Proof.
  intros HL Hl. case_decide as Hm; [|split; [done|]; intros c' l' class _; split; [by intros ?%elem_of_nil|by intros [? _]]]. split.
  - apply Forall_fmap, Forall_forall. intros h Hh. destruct (lk_handlers _ HL _ _ _ Hl Hh) as [ch Hch].
    apply (lk_cursors _ HL) in Hch as (x & Hx & Hxid). cbn. rewrite <- Hxid. by eapply located_id.
  - intros c' l' class Hl'. rewrite list_elem_of_fmap. split.
    + intros (h & [= Hi ->] & Hin). split; [done|]. exists h. split_and!; [done| |done]. apply (lk_cursors _ HL). eauto.
    + intros (_ & h & Hin & (x & Hx & Hxid)%(lk_cursors _ HL) & ->). exists h. split; [|done]. by rewrite <- Hxid, (same_located _ _ _ _ Hx Hl').
Qed.

Lemma cursor_targets_ok code c l : Linked code -> lc_instructions code !! c = Some l -> admitted code c l ->
  exists ts, cursor_targets code c l = Ok ts /\ targets_are code ts (flow code c l).
Proof.
  intros HL Hl Hadm. unfold cursor_targets. destruct (branch_part _ _ _ HL Hl) as (bs & -> & Hb), (next_part _ _ _ HL Hl Hadm) as (ns & Hns & Hn). cbn [rbind]. rewrite Hns. cbn [rbind].
  eexists. split; [done|]. destruct (targets_are_app _ _ _ _ _ Hb (targets_are_app _ _ _ _ _ Hn (handler_part _ _ _ HL Hl))) as [Hin Hiff]. split; [done|].
  intros c' l' class Hl'. rewrite (Hiff _ _ _ Hl'). split.
  - intros [[-> Hc]|[(-> & Hf & Hc)|(Hm & h & Hh & Hc & ->)]]; [by apply flow_branch|by apply flow_next|by eapply flow_handler].
  - intros Hflow. destruct Hflow as [c' Hc|c' Hf Hc|h c' Hm Hh Hc]; eauto 10.
Qed.

(** ** Declarations of the adapter *)

(** The targets of every instruction. *)
Lemma all_targets code : Linked code -> (forall c l, lc_instructions code !! c = Some l -> admitted code c l) ->
  exists xs : list (located_t * list (N * VerificationEdgeClass)), xs.*1 = lc_instructions code /\
    (forall c x, xs !! c = Some x -> cursor_targets code c x.1 = Ok x.2 /\ targets_are code x.2 (flow code c x.1)) /\
    graph_edges code = Ok (concat ((fun x => imap (edge_spec (li_id x.1)) x.2) <$> xs)).
Proof.
  intros HL Hadm. destruct (collect_total (fun c => let? l := code_instruction code c in let? ts := cursor_targets code c l in Ok (l, ts)) (seq 0 (code_len code))) as [xs Hxs].
  { intros c [l Hl]%cursor_located. rewrite (proj1 (instruction_ok _ _ _) Hl). cbn [rbind]. destruct (cursor_targets_ok _ _ _ HL Hl (Hadm _ _ Hl)) as (ts & -> & _). cbn. eauto. }
  apply collect_ok in Hxs. assert (Hat : forall c x, xs !! c = Some x -> lc_instructions code !! c = Some x.1 /\ cursor_targets code c x.1 = Ok x.2).
  { intros c x Hx. destruct (Forall2_lookup_r _ _ _ _ _ Hxs Hx) as (c' & [-> _]%lookup_seq & Hok). cbn [Nat.add] in Hok.
    destruct (code_instruction code c) as [l| | |] eqn:Hl; try done. apply instruction_ok in Hl. cbn [rbind] in Hok. destruct (cursor_targets code c l) eqn:Ht; try done. by injection Hok as <-. }
  exists xs. split; [|split].
  - apply list_eq_same_length with (length xs); [rewrite <- (Forall2_length _ _ _ Hxs), length_seq; done|by rewrite length_fmap|].
    intros c l l' Hc Hl Hl'. rewrite list_lookup_fmap in Hl. destruct (xs !! c) as [x|] eqn:Hx; [|done]. injection Hl as <-. destruct (Hat _ _ Hx) as [Hl _]. by eapply same_located.
  - intros c x Hx. destruct (Hat _ _ Hx) as [Hl Ht]. split; [done|]. destruct (cursor_targets_ok _ _ _ HL Hl (Hadm _ _ Hl)) as (ts & Hts & Hare). rewrite Ht in Hts. by injection Hts as <-.
  - unfold graph_edges. rewrite cursors_seq by apply HL.
    assert (collect (cursor_edges code) (seq 0 (code_len code)) = Ok ((fun x => imap (edge_spec (li_id x.1)) x.2) <$> xs)) as ->; [|done].
    apply collect_ok, Forall2_fmap_r. eapply Forall2_impl; [exact Hxs|]. cbn beta. intros c x Hok. cbn. unfold cursor_edges. destruct (code_instruction code c) as [l| | |]; try done. cbn [rbind] in *.
    destruct (cursor_targets code c l); try done. cbn [rbind] in *. by injection Hok as <-.
Qed.

Lemma edge_declared (xs : list (located_t * list (N * VerificationEdgeClass))) e :
  e ∈ concat ((fun x => imap (edge_spec (li_id x.1)) x.2) <$> xs) <-> exists c x k t, xs !! c = Some x /\ x.2 !! k = Some t /\ e = edge_spec (li_id x.1) k t.
Proof.
  rewrite list_elem_of_In, in_concat. setoid_rewrite <- list_elem_of_In. split.
  - intros (es & (x & -> & [c Hc]%list_elem_of_lookup)%list_elem_of_fmap & [k Hk]%list_elem_of_lookup). rewrite list_lookup_imap in Hk. destruct (x.2 !! k) as [t|] eqn:Ht; [|done].
    injection Hk as <-. by exists c, x, k, t.
  - intros (c & x & k & t & Hc & Hk & ->). exists (imap (edge_spec (li_id x.1)) x.2). split; [apply list_elem_of_fmap; exists x; split; [done|by eapply list_elem_of_lookup_2]|].
    apply (list_elem_of_lookup_2 _ k). by rewrite list_lookup_imap, Hk.
Qed.

Lemma edge_ids (xs : list (located_t * list (N * VerificationEdgeClass))) : NoDup (li_id <$> xs.*1) ->
  NoDup (espec_id <$> concat ((fun x => imap (edge_spec (li_id x.1)) x.2) <$> xs)).
Proof.
  induction xs as [|x xs IH]; [constructor|]. rewrite !fmap_cons. intros [Hni Hnd]%NoDup_cons. cbn [concat]. rewrite fmap_app. apply NoDup_app. split_and!; [| |by apply IH].
  - apply NoDup_alt. intros i j id Hi Hj. rewrite list_lookup_fmap, list_lookup_imap in Hi, Hj. destruct (x.2 !! i), (x.2 !! j); try done. cbn in Hi, Hj. congruence.
  - intros id (e & -> & [i Hi]%list_elem_of_lookup)%list_elem_of_fmap (e' & Hid & (c & y & k & t & Hy & _ & ->)%edge_declared)%list_elem_of_fmap.
    rewrite list_lookup_imap in Hi. destruct (x.2 !! i); [|done]. injection Hi as <-. injection Hid as Hid _. apply Hni. rewrite Hid, <- list_fmap_compose. apply list_elem_of_fmap.
    exists y. split; [done|]. by eapply list_elem_of_lookup_2.
Qed.

Lemma paired_at {A} code (xs : list (located_t * A)) (c : nat) : xs.*1 = lc_instructions code ->
  (forall l, lc_instructions code !! c = Some l -> exists x, xs !! c = Some x /\ x.1 = l) /\ (forall x, xs !! c = Some x -> lc_instructions code !! c = Some x.1).
Proof. intros <-. rewrite list_lookup_fmap. destruct (xs !! c) as [x|]; split; try done; [intros l [= <-]; eauto|by intros ? [= ->]]. Qed.

(** The declared nodes. *)
Definition instruction_node l : NodeSpec N VerificationNodeLocation :=
  {| spec_id := li_id l; spec_boundary := Internal;
     spec_location := {| vn_offset := (byte_range (li_location l)).1; vn_end := (byte_range (li_location l)).2; vn_throw_capability := throw_capability (pi_opcode (li_instruction l)) |} |}.

Lemma node_specs code : Linked code -> collect (node_spec code) (cursors code) = Ok (instruction_node <$> lc_instructions code).
Proof.
  intros HL. rewrite cursors_seq by apply HL. apply collect_ok, Forall2_same_length_lookup_2; [by rewrite length_seq, length_fmap|].
  intros k c n [-> _]%lookup_seq Hn. rewrite list_lookup_fmap in Hn. cbn [Nat.add]. destruct (lc_instructions code !! k) as [l|] eqn:Hl; [|done]. injection Hn as <-.
  unfold node_spec. rewrite (proj1 (instruction_ok _ _ _) Hl). cbn [rbind]. unfold instruction_node. by destruct (byte_range (li_location l)).
Qed.

Lemma declarations_valid code xs : Linked code -> xs.*1 = lc_instructions code -> (forall c x, xs !! c = Some x -> targets_are code x.2 (flow code c x.1)) ->
  valid_declarations (instruction_node <$> lc_instructions code) (concat ((fun x => imap (edge_spec (li_id x.1)) x.2) <$> xs)).
Proof.
  intros HL Hxs Hts. assert (Hids : spec_id <$> (instruction_node <$> lc_instructions code) = li_id <$> lc_instructions code) by by rewrite <- list_fmap_compose. split.
  - pose proof (lk_nonempty _ HL). by destruct (lc_instructions code).
  - rewrite Hids. apply HL.
  - intros e (c & x & k & t & Hc & Hk & ->)%edge_declared. rewrite Hids. cbn. split.
    + rewrite <- Hxs, <- list_fmap_compose. apply list_elem_of_fmap. exists x. split; [done|]. by eapply list_elem_of_lookup_2.
    + destruct (Hts _ _ Hc) as [Hin _]. rewrite Forall_forall in Hin. by eapply Hin, list_elem_of_lookup_2.
  - apply edge_ids. rewrite Hxs. apply HL.
  - intros n (l & -> & _)%list_elem_of_fmap. done.
  - intros n (l & -> & _)%list_elem_of_fmap. done.
Qed.

Lemma built_graph code : Linked code -> (forall c l, lc_instructions code !! c = Some l -> admitted code c l) ->
  exists g, (let? a := verification_adapter code in map_err Graph (build_graph a)) = Ok g /\ GraphOf code g.
Proof.
  intros HL Hadm. destruct (all_targets code HL Hadm) as (xs & Hxs & Hts & Hedges). unfold verification_adapter. rewrite (node_specs _ HL), Hedges. cbn [rbind]. unfold build_graph. cbn [adapter_nodes adapter_edges].
  pose proof (declarations_valid _ _ HL Hxs (fun c x Hx => proj2 (Hts c x Hx))) as Hv. set (nodes := instruction_node <$> lc_instructions code) in *. set (edges := concat _) in *.
  destruct (build nodes edges) as [g|e| |] eqn:Hb; [|destruct (build_cases nodes edges) as [[_ Hok]|[Hno _]]; [congruence|done]..].
  exists g. split; [done|]. pose proof (build_wf _ _ _ Hb) as Hwf. apply build_cases_Ok in Hb as [_ ->]. split; [done|..]; cbn [frozen_graph g_nodes g_edges].
  - intros id n. rewrite (declared_nodes_entry _ _ _ (valid_node_ids _ _ Hv)). split.
    + intros (sp & (l & -> & [c Hc]%list_elem_of_lookup)%list_elem_of_fmap & -> & ->). by exists c, l.
    + intros (c & l & Hl & <- & ->). exists (instruction_node l). split; [|done]. apply list_elem_of_fmap. exists l. split; [done|]. by eapply list_elem_of_lookup_2.
  - intros c l c' l' class Hl Hl'. setoid_rewrite (declared_edges_entry _ _ _ (valid_edge_ids _ _ Hv)).
    assert (exists x, xs !! c = Some x /\ x.1 = l) as (x & Hx & <-) by by eapply paired_at.
    destruct (Hts _ _ Hx) as [_ [_ Hflow]]. rewrite <- (Hflow _ _ _ Hl'). split.
    + intros [k Hk]%list_elem_of_lookup. exists (li_id x.1, k), (freeze_edge (edge_spec (li_id x.1) k (li_id l', class))). split_and!; [|done..].
      eexists. split; [apply edge_declared; by eauto 10|done].
    + intros (id & e & (sp & (c2 & y & k & t & Hy & Hk & ->)%edge_declared & -> & ->) & _ & Hsrc & Htgt & Hcl). cbn in Hsrc, Htgt, Hcl. injection Hcl as Hcl.
      assert (lc_instructions code !! c2 = Some y.1) as Hl2 by by eapply paired_at. destruct (id_unique _ _ _ _ _ HL Hl2 Hl Hsrc) as [-> _].
      assert (y = x) as -> by (pose proof (eq_trans (eq_sym Hy) Hx) as Heq; by injection Heq). apply (list_elem_of_lookup_2 _ k). rewrite Hk. f_equal. destruct t. cbn in *. congruence.
  - intros id e (sp & (c & x & k & t & _ & _ & ->)%edge_declared & _ & ->)%(declared_edges_entry _ _ _ (valid_edge_ids _ _ Hv)). done.
Qed.

Lemma validate_cursor_cases code c l : lc_instructions code !! c = Some l ->
  match validate_cursor code c with
  | Ok _ => admitted code c l
  | Err (LegacySubroutine id offset) => id = li_id l /\ offset = instruction_offset l /\ is_legacy (pi_opcode (li_instruction l)) = true
  | Err (IllegalFallthrough id offset) => id = li_id l /\ offset = instruction_offset l /\ is_legacy (pi_opcode (li_instruction l)) = false /\
      code_next code c = None /\ falls_through (pi_opcode (li_instruction l)) = true
  | _ => False
  end.
Proof.
  intros Hl. unfold validate_cursor, admitted. rewrite (proj1 (instruction_ok _ _ _) Hl). cbn [rbind]. destruct (is_legacy _); [done|]. destruct (code_next code c); [done|]. by destruct (falls_through _).
Qed.

Lemma validate_total code c : c ∈ seq 0 (code_len code) -> safe (validate_cursor code c).
Proof. intros [l Hl]%cursor_located. pose proof (validate_cursor_cases _ _ _ Hl). by destruct (validate_cursor code c) as [|[]| |]. Qed.

(** A refusal of the policy: the first instruction it does not admit. *)
Definition refused code (e : VerificationGraphError) : Prop :=
  exists c l, lc_instructions code !! c = Some l /\ (forall c' l', c' < c -> lc_instructions code !! c' = Some l' -> admitted code c' l') /\
  match e with
  | LegacySubroutine id offset => id = li_id l /\ offset = instruction_offset l /\ is_legacy (pi_opcode (li_instruction l)) = true
  | IllegalFallthrough id offset => id = li_id l /\ offset = instruction_offset l /\ is_legacy (pi_opcode (li_instruction l)) = false /\
      code_next code c = None /\ falls_through (pi_opcode (li_instruction l)) = true
  | Graph _ => False
  end.

Lemma policy_outcome code : Linked code ->
  match validate_graph_policy code with Ok _ => forall c l, lc_instructions code !! c = Some l -> admitted code c l | Err e => refused code e | _ => False end.
Proof.
  intros HL. unfold validate_graph_policy. rewrite cursors_seq by apply HL.
  pose proof (collect_first (validate_cursor code) (seq 0 (code_len code)) (validate_total code)) as Hfirst. destruct (collect _ _) as [us|e| |]; cbn [rbind]; [| |done..].
  - intros c l Hl. pose proof (validate_cursor_cases _ _ _ Hl) as Hv. pose proof (lookup_lt_Some _ _ _ Hl) as Hlt.
    destruct (Forall2_lookup_l _ _ _ c c Hfirst) as (u & _ & Hu); [by apply lookup_seq|]. by rewrite Hu in Hv.
  - destruct Hfirst as (k & c & [-> Hk]%lookup_seq & He & Hbefore). cbn [Nat.add] in *. destruct (lookup_lt_is_Some_2 (lc_instructions code) k Hk) as [l Hl].
    pose proof (validate_cursor_cases _ _ _ Hl) as Hv. rewrite He in Hv. exists k, l. split; [done|]. split; [|by destruct e].
    intros c' l' Hlt Hl'. pose proof (validate_cursor_cases _ _ _ Hl') as Hv'. destruct (Hbefore c' c' Hlt) as [u Hu]; [apply lookup_seq; split; [done|by eapply Nat.lt_trans]|]. by rewrite Hu in Hv'.
Qed.
End Built.

(** ** Prepared code *)

Section Prepared.
Context {Origin SourceId CodecError ClassDefinitionId Dependency : Type} `{KernelOrigin Origin SourceId} `{OpcodeManifest} `{EqDecision ClassDefinitionId}.
Context `{FingerprintValue (gmap N (Node N VerificationNodeLocation) * gmap VerificationEdgeId (Edge VerificationEdgeId N VerificationEdgeClass))}.
Context (byte_origin : SourceId -> nat -> nat -> Origin) {Hbyte : ByteOrigin byte_origin}.
Context (validate_exception_handlers : DecodedCode -> nat -> list (N * N * N) -> Res CodecError unit).
Context (semantics : Opcode -> option JvmInstructionSemantics) (decoded : DecodedCode) (code_length : nat) (table : list CodeException) (source : SourceId).
Context (identity : option PreparedCodeIdentity) (verification : option (VerificationPreparation (ClassDefinitionId:=ClassDefinitionId) (Dependency:=Dependency))).
Abbreviation lower := (prepare_instruction (Origin:=Origin) (CodecError:=CodecError) byte_origin semantics decoded code_length table source identity verification).
Abbreviation prepare := (prepare_code_inner (Origin:=Origin) byte_origin validate_exception_handlers semantics decoded code_length table source identity verification).
Implicit Types (code : LocatedCode PreparedJvmInstruction N Origin) (l : LocatedInstruction PreparedJvmInstruction N Origin).

Lemma lowered_handlers index d l ts h : lower index d = Ok (l, ts) -> h ∈ pi_handler_membership (li_instruction l) -> exists offset, dc_offsets decoded !! offset = Some (pc_handler h).
Proof.
  unfold prepare_instruction. intros Hp. res_inv. simplify_eq. cbn. rename select (handler_membership _ _ _ = _) into Hm. apply collect_ok in Hm.
  intros [k Hk]%list_elem_of_lookup. destruct (Forall2_lookup_r _ _ _ _ _ Hm Hk) as ([row e] & _ & Hok). cbn in Hok. res_inv. subst h. cbn. eauto.
Qed.

Lemma prepared_linked code : DecodedIndexed decoded -> prepare = Ok code -> Linked code.
Proof using Type Hbyte.
  intros Hidx Hp. destruct (prepare_lowered _ _ _ _ _ _ _ _ _ _ Hp) as (lowered & Hdl & Hld & Hf). destruct (freeze_tables _ _ _ Hf) as (Hins & HL & HT & _).
  split.
  - unfold freeze in Hf. rewrite Hins. by destruct (lowered.*1).
  - rewrite Hins. apply HL.
  - by rewrite Hins.
  - intros c l t Hl Ht. destruct (prepared_targets byte_origin validate_exception_handlers semantics decoded code_length table source identity verification Hidx code c l Hp Hl) as (d & ids & _ & _ & _ & _ & _ & Hids).
    apply list_elem_of_lookup in Ht as [k Hk]. destruct (Forall2_lookup_r _ _ _ _ _ Hids Hk) as (id & _ & Hc). apply HT in Hc as (x & Hx & _). rewrite Hins. by exists x.
  - intros c l h Hl Hh. rewrite Hins in Hl. apply list_lookup_fmap_Some in Hl as ([l' ts] & -> & Hlo). destruct (Hld _ _ Hlo) as (d & _ & Hlow).
    destruct (lowered_handlers _ _ _ _ _ Hlow Hh) as (offset & (d' & [k Hk]%list_elem_of_lookup & _ & Hid)%Hidx). destruct (Hdl _ _ Hk) as ([l2 ts2] & Hl2 & (_ & _ & Hid2 & _)%lower_inv).
    exists k. apply HT. exists l2. split; [by rewrite list_lookup_fmap, Hl2|]. by rewrite Hid2.
Qed.

Lemma accepted_graph code g : DecodedIndexed decoded -> prepare = Ok code -> build_verification_graph code = Ok g ->
  (forall c l, lc_instructions code !! c = Some l -> admitted code c l) /\ GraphOf code g.
Proof using Type Hbyte.
  intros Hidx Hp Hb. pose proof (prepared_linked _ Hidx Hp) as HL. pose proof (policy_outcome _ HL) as Hpol. unfold build_verification_graph in Hb.
  destruct (validate_graph_policy code); try done. cbn [rbind] in Hb. destruct (built_graph _ HL Hpol) as (g' & Hg' & HG). rewrite Hg' in Hb. by injection Hb as <-.
Qed.

(** C26: The verification graph of prepared code is built exactly when no
    instruction is a subroutine call or return and the last one does not fall
    through; its nodes are then the instructions, and its edges lead from each to
    its branch targets, to the next instruction when it falls through, and to its
    handlers when it may throw.  A refusal names the first instruction at fault. *)
Theorem verification_graph_exact code : DecodedIndexed decoded -> prepare = Ok code ->
  match build_verification_graph code with
  | Ok g => (forall c l, lc_instructions code !! c = Some l -> admitted code c l) /\ GraphOf code g
  | Err e => refused code e
  | _ => False
  end.
Proof using Type Hbyte.
  intros Hidx Hp. pose proof (prepared_linked _ Hidx Hp) as HL. pose proof (policy_outcome _ HL) as Hpol. unfold build_verification_graph.
  destruct (validate_graph_policy code) as [|e| |]; try done. cbn [rbind]. destruct (built_graph _ HL Hpol) as (g & -> & HG). done.
Qed.
End Prepared.

(** ** Runs follow the graph *)

Section Follows.
Context {K T Origin SourceId CodecError ClassDefinitionId Dependency : Type} `{KernelOrigin Origin SourceId} `{OpcodeManifest} `{EqDecision ClassDefinitionId}.
Context `{FingerprintValue (gmap N (Node N VerificationNodeLocation) * gmap VerificationEdgeId (Edge VerificationEdgeId N VerificationEdgeClass))}.
Context (byte_origin : SourceId -> nat -> nat -> Origin) {Hbyte : ByteOrigin byte_origin}.
Context (validate_exception_handlers : DecodedCode -> nat -> list (N * N * N) -> Res CodecError unit).
Abbreviation code_t := (LocatedCode PreparedJvmInstruction N Origin).
Implicit Types (code : code_t) (l : LocatedInstruction PreparedJvmInstruction N Origin) (g : VerificationGraph) (frame : DriveFrame (K:=K)) (i : PreparedJvmInstruction).
Implicit Types (decoded : DecodedCode) (d : DecodedInstruction).

(** What the manifest says of the opcodes the surface prepares: those that go on
    with the next instruction are listed as such. *)
Definition ManifestFlows : Prop := forall o dispatch, is_Some (surface_semantics o) -> PREPARED_DISPATCH !! opcode_byte o = Some (Some dispatch) ->
  (dispatch = FStorage \/ dispatch = FNumeric \/ is_conditional o = true) -> falls_through o = true.

Lemma lookup_chunks_targets decoded d rest pairs lowered ids id : lookup_chunks rest = Some pairs ->
  collect (fun kd : Z * Z => let? target := displaced (CodecError:=CodecError) decoded d kd.2 in Ok (kd.1, target)) pairs = Ok lowered ->
  collect (displaced (CodecError:=CodecError) decoded d) (omap branch_of rest) = Ok ids -> id ∈ lowered.*2 -> id ∈ ids.
Proof.
  revert pairs lowered ids. induction rest as [rest IH] using (induction_ltof1 _ (@length _)). unfold ltof in IH. intros pairs lowered ids.
  destruct rest as [|x [|y rest]]; [cbn; intros [= <-] [= <-] _ ?%elem_of_nil; done|cbn [lookup_chunks]; intros Hc; destruct x; injection Hc as <-; cbn; intros [= <-] _ ?%elem_of_nil; done|].
  destruct x; try done. destruct y; try done. cbn [lookup_chunks omap list_omap branch_of]. destruct (lookup_chunks rest) as [ps|] eqn:Hps; [|done]. intros Hc. cbn in Hc. injection Hc as <-.
  cbn [collect fst snd]. intros Hlow Hall. res_inv. subst. cbn [fmap list_fmap snd]. intros [->|Hin]%elem_of_cons; [apply elem_of_cons; left; congruence|]. apply elem_of_cons. right.
  eapply (IH rest); [cbn; lia|done..].
Qed.

Lemma table_target_ids decoded d rest ts ids : collect (table_target (CodecError:=CodecError) decoded d) rest = Ok ts ->
  collect (displaced (CodecError:=CodecError) decoded d) (omap branch_of rest) = Ok ids -> ts = ids.
Proof.
  intros Ht. eapply table_targets; [|exact Ht]. apply collect_ok in Ht. clear -Ht. induction Ht as [|x y rest ts Hx _ IH]; [done|]. destruct x; try done.
Qed.

(** Every target a prepared operand names is one of the decoded targets. *)
Lemma operand_ids_targets decoded d i ids id : PreparedFrom (CodecError:=CodecError) decoded d i -> targets_for_instruction (CodecError:=CodecError) decoded d = Ok ids ->
  id ∈ operand_ids (pi_operands i) -> id ∈ ids.
Proof.
  intros [_ _ _ Hp _] Ht Hin. unfold targets_for_instruction in Ht. unfold prepare_operands in Hp.
  assert (Hlook : forall disp rest, in_operands (di_instruction d) = OBranch disp :: rest -> prepare_lookup (CodecError:=CodecError) decoded d disp rest = Ok (pi_operands i) -> id ∈ ids).
  { intros disp rest Hops Hl. rewrite Hops in Ht. cbn [omap list_omap branch_of collect] in Ht. unfold prepare_lookup in Hl. destruct (lookup_chunks rest) as [pairs|] eqn:Hc; [|injection Hl as Hl; rewrite <- Hl in Hin; by apply elem_of_nil in Hin].
    res_inv. rename select (PLookup _ _ = _) into Heq. rewrite <- Heq in Hin. subst ids. cbn in Hin. apply elem_of_cons. apply elem_of_cons in Hin as [->|Hin]; [left; congruence|right; by eapply lookup_chunks_targets]. }
  destruct (in_operands (di_instruction d)) as [|x rest] eqn:Hops; [injection Hp as Hp; rewrite <- Hp in Hin; destruct (shuffle_descriptor _); by apply elem_of_nil in Hin|].
  destruct x as [z|slot|index|disp|z|z|z|n|n|n]; try (destruct rest as [|y [|]]; [| |]; try destruct y; injection Hp as Hp; rewrite <- Hp in Hin; by apply elem_of_nil in Hin).
  destruct rest as [|y rest]; [case_decide; [|by eapply Hlook]|destruct y; try by eapply Hlook].
  - cbn [omap list_omap branch_of collect] in Ht. res_inv. rename select (PDirect _ = _) into Heq. rewrite <- Heq in Hin. subst ids. cbn in Hin. apply list_elem_of_singleton in Hin as ->. apply elem_of_cons. left. congruence.
  - destruct rest as [|y rest]; [by eapply Hlook|]. destruct y; try by eapply Hlook. cbn [omap list_omap branch_of collect] in Ht. res_inv. rename select (PTable _ _ _ = _) into Heq. rewrite <- Heq in Hin. subst ids.
    cbn in Hin. apply elem_of_cons. apply elem_of_cons in Hin as [->|Hin]; [left; congruence|right]. rename select (collect (table_target _ _) _ = _) into Htab. rename select (collect (displaced _ _) _ = _) into Hall.
    by rewrite <- (table_target_ids _ _ _ _ _ Htab Hall).
Qed.

(** The cursor of a target a prepared operand names is a branch target. *)
Definition operands_frozen code i : Prop := forall id c, id ∈ operand_ids (pi_operands i) -> code_cursor code id = Some c -> c ∈ branch_targets code (pi_id i).

Lemma direct_frozen code i c : operands_frozen code i -> direct_target code i = Some c -> c ∈ branch_targets code (pi_id i).
Proof. unfold direct_target. intros Hf Hd. destruct (pi_operands i) eqn:Hops; try done. eapply Hf; [|exact Hd]. rewrite Hops. left. Qed.

Lemma table_frozen code i key c : operands_frozen code i -> table_cursor code (pi_operands i) key = Ok (Some c) -> c ∈ branch_targets code (pi_id i).
Proof.
  unfold table_cursor. intros Hf Ht. destruct (pi_operands i) as [| | | | | |low default_ ts| | |] eqn:Hops; try done. res_inv. rename select (code_cursor _ _ = _) into Hc.
  eapply Hf; [|exact Hc]. rewrite Hops. cbn. destruct (_ && _); [|simplify_eq; left]. res_inv. right. by eapply list_elem_of_lookup_2.
Qed.

Lemma lookup_frozen code i key c : operands_frozen code i -> lookup_cursor code (pi_operands i) key = Some c -> c ∈ branch_targets code (pi_id i).
Proof.
  unfold lookup_cursor. intros Hf Ht. destruct (pi_operands i) as [| | | | | | |default_ pairs| |] eqn:Hops; try done. eapply Hf; [|exact Ht]. rewrite Hops. cbn.
  destruct (binary_search pairs key) as [id|] eqn:Hb; [|left]. cbn. right. unfold binary_search in Hb. destruct (pairs !! _) as [[k id']|] eqn:Hk; [|done]. case_match; [|done]. injection Hb as <-.
  apply list_elem_of_fmap. exists (k, id'). split; [done|]. by eapply list_elem_of_lookup_2.
Qed.

Lemma only_target_in (ts : list CodeCursor) c : only_target ts = Some c -> c ∈ ts.
Proof. destruct ts as [|x []]; try done. intros [= ->]. left. Qed.

Lemma select_successor code cursor l s c s' : operands_frozen code (li_instruction l) -> select_cursor (K:=K) code cursor l s = Ok (c, s') -> successor code cursor l c.
Proof.
  intros Hf Hs. unfold select_cursor in Hs. cbn zeta in Hs.
  destruct (pi_opcode (li_instruction l)) eqn:Ho; try discriminate Hs; res_inv; simplify_eq; try (left; first [by apply only_target_in|by eapply table_frozen|by eapply lookup_frozen]).
  all: match goal with |- successor _ _ _ (if ?b then _ else _) => destruct b end; [left; by apply direct_frozen|right; by rewrite Ho].
Qed.

(** A result that is not the refusal of a missing next instruction. *)
Definition not_missing {A} (r : Res (JvmControlError (Origin:=Origin)) A) : Prop := match r with Err e => ctl_kind e <> CMissingFallthrough | _ => True end.

Lemma not_missing_bind {A B} (r : Res (JvmControlError (Origin:=Origin)) A) (f : A -> Res (JvmControlError (Origin:=Origin)) B) :
  not_missing r -> (forall x, not_missing (f x)) -> not_missing (let? x := r in f x).
Proof. intros Hr Hf. destruct r; [apply Hf|done..]. Qed.

Lemma not_missing_malformed {A} l (o : option A) : not_missing (ok_or (control_error l CMalformed) o).
Proof. by destruct o. Qed.

Lemma not_missing_popped (s : UnitStack (JvmValue K)) : not_missing (popped s).
Proof. unfold popped. by destruct (stack_pop s) as [[]| | |]. Qed.

Lemma not_missing_peek_int (s : UnitStack (JvmValue K)) l : not_missing (peek_int s l).
Proof. unfold peek_int. destruct (stack_top s) as [[]| | |]; done. Qed.

Lemma not_missing_peek_reference (s : UnitStack (JvmValue K)) l : not_missing (peek_reference s l).
Proof. unfold peek_reference. destruct (stack_top s) as [[]| | |]; done. Qed.

Lemma not_missing_two {A} (pick : JvmValue K -> JvmValue K -> option A) s l : not_missing (two_values pick s l).
Proof. unfold two_values. destruct (_ <? _)%nat; [done|]. destruct (drop _ _) as [|x [|y []]]; try done. by destruct (pick x y). Qed.

Lemma not_missing_table code operands key : not_missing (table_cursor code operands key).
Proof. unfold table_cursor. destruct operands; try done. destruct (_ && _); [|done]. by destruct (_ !! _). Qed.

Lemma select_missing code cursor l s : is_Some (code_next code cursor) \/ is_conditional (pi_opcode (li_instruction l)) = false -> not_missing (select_cursor (K:=K) code cursor l s).
Proof.
  intros Hn. unfold select_cursor. cbn zeta. pose proof (@not_missing_malformed). pose proof not_missing_popped. pose proof not_missing_peek_int. pose proof not_missing_peek_reference.
  pose proof (@not_missing_two) as Htwo. pose proof not_missing_table.
  destruct (pi_opcode (li_instruction l)); try done; unfold two_ints, two_references; repeat first [done|solve [auto]|destruct Hn as [[c ->]|Hn]; done|apply not_missing_bind; intros].
Qed.

(** Control passes along an edge that is no exceptional one. *)
Definition graph_step g (a b : N) : Prop :=
  exists id e class, g_edges g !! id = Some e /\ edge_source e = a /\ edge_target e = b /\ edge_class e = Custom class /\ (class = EBranch \/ class = EFallthrough).

Context (decoded : DecodedCode) (code_length : nat) (table : list CodeException) (source : SourceId) (identity : option PreparedCodeIdentity).
Context (verification : option (VerificationPreparation (ClassDefinitionId:=ClassDefinitionId) (Dependency:=Dependency))).
Context (code : code_t) (g : VerificationGraph) (Hindexed : DecodedIndexed decoded) (Hmanifest : ManifestFlows).
Context (Hprepared : prepare_code_inner byte_origin validate_exception_handlers surface_semantics decoded code_length table source identity verification = Ok code).

(** What a step may give: it passes along an edge, and never lacks a next
    instruction. *)
Definition step_in_graph l (r : Res (JvmInvocationError T Origin) (StepOutcome (DriveFrame (K:=K)) (option (JvmValue K)) Empty_set unit unit)) : Prop :=
  match r with
  | Ok (StepContinue c) => exists l', lc_instructions code !! c = Some l' /\ graph_step g (li_id l) (li_id l')
  | Err (NoFallthrough _) => False
  | Err (PreparedControl e) => ctl_kind e <> CMissingFallthrough
  | _ => True
  end.

Section Built.
Context (Hgraph : GraphOf code g) (Hadmitted : forall c l, lc_instructions code !! c = Some l -> admitted code c l).

Lemma flow_step c l c' class : lc_instructions code !! c = Some l -> is_Some (lc_instructions code !! c') -> flow code c l c' class -> class = EBranch \/ class = EFallthrough ->
  exists l', lc_instructions code !! c' = Some l' /\ graph_step g (li_id l) (li_id l').
Proof using Type Hgraph.
  intros Hl [l' Hl'] Hflow Hc. exists l'. split; [done|]. apply (go_edges _ _ Hgraph _ _ _ _ _ Hl Hl') in Hflow as (id & e & He & _ & Hs & Ht & Hcl). by exists id, e, class.
Qed.

Lemma fall_step c l : lc_instructions code !! c = Some l -> falls_through (pi_opcode (li_instruction l)) = true ->
  exists c' l', code_next code c = Some c' /\ lc_instructions code !! c' = Some l' /\ graph_step g (li_id l) (li_id l').
Proof using Type Hgraph Hadmitted.
  intros Hl Hf. destruct (code_next code c) as [c'|] eqn:Hn; [|destruct (Hadmitted _ _ Hl) as [_ Hno]; by rewrite Hno in Hf]. pose proof Hn as [-> Hs]%code_next_Some.
  destruct (flow_step c l (S c) EFallthrough Hl Hs) as (l' & Hl' & Hg); [by apply flow_next|by right|]. by exists (S c), l'.
Qed.

Lemma step_follows frame l : lc_instructions code !! df_cursor frame = Some l -> step_in_graph l (production_dispatch (T:=T) code frame (li_instruction l)).1.
Proof using All.
  intros Hl. destruct (prepared_targets byte_origin validate_exception_handlers surface_semantics _ _ _ _ _ _ Hindexed _ _ _ Hprepared Hl) as (d & ids & Hd & Hpf & Hsem & Hid & Hids & Hcs).
  pose proof (prepared_linked _ _ _ _ _ _ _ _ _ _ Hindexed Hprepared) as HL. pose proof (Hmanifest _ _ Hsem (pf_dispatch _ _ _ Hpf)) as Hman.
  set (i := li_instruction l) in *. unfold production_dispatch, dispatch_prepared. destruct (pi_dispatch i) eqn:Hfam.
  - unfold step_storage. destruct (df_lease frame) as [[f s]|]; [|done]. destruct (execute_storage_instruction _ _ _ _) as [[r|e| |] lease]; try done. cbn [map_err rbind fst]. unfold fall_through. cbn [df_cursor].
    destruct (fall_step _ _ Hl (Hman ltac:(auto))) as (c' & l' & -> & Hl' & Hg). cbn. eauto.
  - unfold step_numeric. destruct (df_lease frame) as [[f s]|]; [|done]. destruct (execute_numeric_instruction _ _ _) as [[r|e| |] lease]; try done. cbn [map_err rbind fst]. unfold fall_through. cbn [df_cursor].
    destruct (fall_step _ _ Hl (Hman ltac:(auto))) as (c' & l' & -> & Hl' & Hg). cbn. eauto.
  - unfold step_control. destruct (df_lease frame) as [[f s]|]; [|done]. unfold execute_control_instruction. rewrite (proj1 (instruction_ok _ _ _) Hl). cbn [rbind andb]. fold i.
    destruct (is_return (pi_opcode i)) eqn:Hret.
    { unfold execute_return. cbn zeta. fold i. destruct (pi_operands i), (branch_targets code (pi_id i)); try done. case_decide; [done|]. destruct (stack_top s) as [v| | |]; try done. cbn [map_err rbind].
      destruct (return_value _ v); [|done]. by destruct (stack_pop s) as [[]| | |]. }
    assert (operands_frozen code i) as Hfrozen.
    { intros id c Hin Hc. pose proof (operand_ids_targets _ _ _ _ _ Hpf Hids Hin) as [k Hk]%list_elem_of_lookup. destruct (Forall2_lookup_l _ _ _ _ _ Hcs Hk) as (c2 & Hc2 & Hcur).
      assert (c2 = c) as -> by congruence. rewrite <- Hid. by eapply list_elem_of_lookup_2. }
    pose proof (select_missing code (df_cursor frame) l s) as Hmiss. pose proof (select_successor code (df_cursor frame) l s) as Hsucc. fold i in Hmiss, Hsucc.
    assert (Hn : is_Some (code_next code (df_cursor frame)) \/ is_conditional (pi_opcode i) = false).
    { destruct (is_conditional (pi_opcode i)) eqn:Hc; [left|by right]. destruct (fall_step _ _ Hl (Hman ltac:(auto))) as (c' & l' & -> & _). by eexists. }
    specialize (Hmiss Hn). destruct (select_cursor code (df_cursor frame) l s) as [[c s']|e| |]; cbn [rbind map_err]; try done. cbn.
    destruct (Hsucc c s' Hfrozen eq_refl) as [Hin|[Hc Hnx]].
    + fold i in Hin. rewrite <- Hid in Hin. eapply flow_step; [exact Hl|by eapply (lk_targets _ HL)|by apply flow_branch|by left].
    + destruct (fall_step _ _ Hl (Hman ltac:(auto))) as (c' & l' & Hn' & Hl' & Hg). assert (c' = c) as -> by congruence. eauto.
  - done.
Qed.
End Built.

(** C25: On code whose verification graph is built, every run of the production
    driver is a path of the graph along branches and fall-throughs, and no step of
    it lacks a next instruction. *)
Theorem runs_follow_graph start frame l : build_verification_graph code = Ok g -> lc_instructions code !! df_cursor start = Some l -> rtc (run_step (T:=T) code) start frame ->
  exists l', lc_instructions code !! df_cursor frame = Some l' /\ rtc (graph_step g) (li_id l) (li_id l') /\ step_in_graph l' (production_dispatch code frame (li_instruction l')).1.
Proof using All.
  intros Hb Hl Hrun. destruct (accepted_graph byte_origin validate_exception_handlers surface_semantics _ _ _ _ _ _ code g Hindexed Hprepared Hb) as [Hadm Hg].
  revert l Hl. induction Hrun as [x|x y z Hxy _ IH]; intros l Hl.
  - exists l. split; [done|]. split; [done|]. by apply step_follows.
  - destruct Hxy as [x located c x' Hlx Hd]. rewrite Hl in Hlx. injection Hlx as <-. pose proof (step_follows Hg Hadm x l Hl) as Hs. rewrite Hd in Hs. destruct Hs as (l1 & Hl1 & Hstep).
    destruct (IH l1 Hl1) as (l' & Hl' & Hpath & Hend). exists l'. split; [done|]. split; [by eapply rtc_l|done].
Qed.
End Follows.
