(* ===== verification/JvmEnvironment.v ===== *)
(** * Class hierarchy queries of the JVM verifier

    crates/sim-lib-lang-jvm/src/verifier/environment.rs and the descriptors of
    types.rs: a view of a loader's class space that answers whether one reference
    type is assignable to another and joins verification types, within a budget of
    consulted classes and a bound on recorded dependencies.  The class space may
    change while a query runs: a loader is the sequence of class spaces that
    successive reads see.  Class spaces are what class_space/loader.rs defines.

    The answers are compared with the rules of the JVM specification (4.10.1.2)
    that the code refers to: [jvms] states them, [missed] the pairs that the code
    refuses all the same. *)

From stdpp Require Import gmap strings relations.
From Stdlib Require Import Ascii String.
From S2P Require Import Prelude JvmTypes JvmCode.

(** ** Loaded classes *)

(** What is read of a [ClassDefinition]: its identity and content, the declared
    superclass followed by the interfaces, and the access flags. *)
Record ClassDefinitionId := { cd_loader : N; cd_binary_name : string; cd_content_key : N }.

#[global] Instance class_definition_id_eq_dec : EqDecision ClassDefinitionId.
Proof. solve_decision. Defined.

Record ClassDefinition := { cd_id : ClassDefinitionId; cd_content : list N; cd_direct_parents : list string; cd_access_flags : N }.

Definition is_interface (c : ClassDefinition) : bool := negb (N.land (cd_access_flags c) 512 =? 0)%N.

(** The contents of a loader at one time. *)
Record ClassSpace := { sp_revision : ClassSpaceRevision; sp_definitions : gmap string ClassDefinition }.

(** ** Defining classes *)

Inductive DefineError := ExceedsAllowance | Undecodable | DuplicateDefinition (name : string).

(** FNV-1a at 64 bits. *)
Definition content_key (bytes : list N) : N :=
  fold_left (fun hash byte => (N.lxor hash byte * 1099511628211) mod 18446744073709551616)%N bytes 14695981039346656037%N.

Section Define.
Context {Shell : Type} (loader_id : N) (max_classfile_bytes : nat).

(** Decoding a class file under the name it has to declare, and the metadata,
    literals and resolution records of the decoded class. *)
Context (decode_named_class : string -> list N -> option Shell) (class_metadata : Shell -> option (list string * N)).

Definition new_loader : ClassSpace := {| sp_revision := {| rev_loader := loader_id; rev_number := 0 |}; sp_definitions := ∅ |}.

Definition define_decoded (space : ClassSpace) (binary_name : string) (bytes : list N) : Res DefineError ClassDefinition * ClassSpace :=
  if (max_classfile_bytes <? length bytes)%nat then (Err ExceedsAllowance, space)
  else
    match decode_named_class binary_name bytes with
    | None => (Err Undecodable, space)
    | Some shell =>
      match sp_definitions space !! binary_name with
      | Some existing => if decide (cd_content existing = bytes) then (Ok existing, space) else (Err (DuplicateDefinition binary_name), space)
      | None =>
        match class_metadata shell with
        | None => (Err Undecodable, space)
        | Some (parents, flags) =>
          let definition := {| cd_id := {| cd_loader := loader_id; cd_binary_name := binary_name; cd_content_key := content_key bytes |};
                               cd_content := bytes; cd_direct_parents := parents; cd_access_flags := flags |} in
          (Ok definition,
           {| sp_revision := {| rev_loader := rev_loader (sp_revision space); rev_number := (rev_number (sp_revision space) + 1) mod 18446744073709551616 |};
              sp_definitions := <[binary_name := definition]> (sp_definitions space) |})
        end
      end
    end.

Definition defines (space space' : ClassSpace) : Prop := exists name bytes, space' = (define_decoded space name bytes).2.
End Define.

(** A class space that a loader reached by defining classes. *)
Definition Loaded (space : ClassSpace) : Prop :=
  exists (Shell : Type) loader_id bound (decode : string -> list N -> option Shell) metadata, rtc (defines loader_id bound decode metadata) (new_loader loader_id) space.

(** A loaded class is found under its own name. *)
Definition Named (space : ClassSpace) : Prop := forall name c, sp_definitions space !! name = Some c -> cd_binary_name (cd_id c) = name.

Lemma loaded_named space : Loaded space -> Named space.
Proof.
  intros (Shell & id & bound & decode & metadata & Hsteps). assert (Named (new_loader id)) as Hnew by (intros name c; cbn; by rewrite lookup_empty).
  induction Hsteps as [|x y z (name & bytes & ->) _ IH]; [done|]. apply IH. unfold define_decoded. destruct (_ <? _)%nat; [done|]. destruct (decode name bytes) as [shell|]; [|done].
  destruct (sp_definitions x !! name) as [e|]; [by case_decide|]. destruct (metadata shell) as [[parents flags]|]; [|done].
  intros n c. cbn. intros [[<- <-]|[_ Hc]]%lookup_insert_Some; [done|by apply Hnew].
Qed.

Inductive VerificationQueryError :=
| QInvalidDescriptor (descriptor : string)
| QNotLoaded (name : string)
| QConcurrentRevision (before after : ClassSpaceRevision)
| QLineageLimit (limit : nat)
| QDependencyLimit (limit : nat).

Record VerificationDependency := { vd_class : ClassDefinition; vd_revision : ClassSpaceRevision }.

(** ** Descriptors *)

Definition is_primitive_descriptor (d : string) : bool :=
  match d with
  | String c EmptyString => existsb (fun x => (x =? c)%char) ["B"; "C"; "D"; "F"; "I"; "J"; "S"; "Z"]%char
  | _ => false
  end.

(** [strip_prefix] of one character. *)
Definition strip_char (c : ascii) (d : string) : option string :=
  match d with String x rest => if (x =? c)%char then Some rest else None | EmptyString => None end.

(** [strip_suffix(';')]. *)
Fixpoint strip_semicolon (d : string) : option string :=
  match d with
  | EmptyString => None
  | String c EmptyString => if (c =? ";")%char then Some EmptyString else None
  | String c rest => String c <$> strip_semicolon rest
  end.

Definition descriptor_reference (d : string) : Res VerificationQueryError ReferenceType :=
  match strip_char "[" d with
  | Some _ => Ok (RtArray d)
  | None =>
    match strip_char "L" d with
    | Some name => match strip_semicolon name with Some name => Ok (RtClass name) | None => Err (QInvalidDescriptor d) end
    | None => Err (QInvalidDescriptor d)
    end
  end.

Definition reference_descriptor (r : ReferenceType) : string :=
  match r with
  | RtObject => "Ljava/lang/Object;"
  | RtClass name => String "L" (name ++ ";")
  | RtArray d => d
  end%string.

(** ** Queries *)

(** What a running query changes: the recorded dependencies, how many reads of
    the loader were made, and what is left of the budget. *)
Record Query := { q_dependencies : list VerificationDependency; q_reads : nat; q_remaining : nat }.

Definition QM (A : Type) : Type := Query -> Res VerificationQueryError A * Query.

Definition qret {A} (x : A) : QM A := fun q => (Ok x, q).

Definition qlift {A} (r : Res VerificationQueryError A) : QM A := fun q => (r, q).

Definition qbind {A B} (m : QM A) (k : A -> QM B) : QM B := fun q =>
  match m q with
  | (Ok x, q) => k x q
  | (Err e, q) => (Err e, q)
  | (Panic, q) => (Panic, q)
  | (NoFuel, q) => (NoFuel, q)
  end.

Declare Scope query_scope.
Delimit Scope query_scope with query.

Notation "'query?' x := m 'in' k" := (qbind m (fun x => k)) (at level 200, x pattern, m at level 100, k at level 200) : query_scope.

#[local] Open Scope query_scope.

Section Environment.
Context (loader : nat -> ClassSpace) (dependency_limit : nat).

(** The next read of the loader. *)
Definition read_space : QM ClassSpace := fun q =>
  (Ok (loader (q_reads q)), {| q_dependencies := q_dependencies q; q_reads := S (q_reads q); q_remaining := q_remaining q |}).

Definition record_dependency (d : VerificationDependency) : QM unit := fun q =>
  if existsb (fun x => bool_decide (cd_id (vd_class x) = cd_id (vd_class d))) (q_dependencies q) then (Ok tt, q)
  else if (length (q_dependencies q) =? dependency_limit)%nat then (Err (QDependencyLimit dependency_limit), q)
  else (Ok tt, {| q_dependencies := q_dependencies q ++ [d]; q_reads := q_reads q; q_remaining := q_remaining q |}).

(** Two reads of the revision around the lookup. *)
Definition observe (name : string) : QM ClassDefinition :=
  query? before := read_space in
  query? space := read_space in
  query? definition := qlift (ok_or (QNotLoaded name) (sp_definitions space !! name)) in
  query? after := read_space in
  if decide (sp_revision before <> sp_revision after) then qlift (Err (QConcurrentRevision (sp_revision before) (sp_revision after)))
  else
    query? _ := record_dependency {| vd_class := definition; vd_revision := sp_revision after |} in
    qret definition.

(** [if *remaining == 0 { return Err(..) } *remaining -= 1]. *)
Definition charge_node (limit : nat) : QM unit := fun q =>
  match q_remaining q with
  | O => (Err (QLineageLimit limit), q)
  | S n => (Ok tt, {| q_dependencies := q_dependencies q; q_reads := q_reads q; q_remaining := n |})
  end.

(** The loop over the parents. *)
Fixpoint any_parent (reaches : string -> QM bool) (parents : list string) : QM bool :=
  match parents with
  | [] => qret false
  | p :: parents => query? b := reaches p in if b : bool then qret true else any_parent reaches parents
  end.

(** Each level charges a node. *)
Fixpoint lineage_reaches (fuel : nat) (name expected : string) (limit : nat) : QM bool :=
  match fuel with
  | O => fun q => (NoFuel, q)
  | S fuel =>
    query? _ := charge_node limit in
    query? class := observe name in
    if String.eqb (cd_binary_name (cd_id class)) expected then qret true
    else any_parent (fun p => lineage_reaches fuel p expected limit) (cd_direct_parents class)
  end.

(** Fuel for a traversal within the budget. *)
Definition lineage (name expected : string) (limit : nat) : QM bool := fun q => lineage_reaches (S (q_remaining q)) name expected limit q.

(** [array_assignable] strips one dimension of both. *)
Fixpoint reference_reaches (fuel : nat) (actual expected : ReferenceType) (limit : nat) : QM bool :=
  match fuel with
  | O => fun q => (NoFuel, q)
  | S fuel =>
    if decide (actual = expected \/ expected = RtObject) then qret true
    else
      match actual, expected with
      | RtClass a, RtClass e => lineage a e limit
      | RtArray _, RtClass e => qret (String.eqb e "java/lang/Cloneable" || String.eqb e "java/io/Serializable")
      | RtArray a, RtArray e =>
        match strip_char "[" a, strip_char "[" e with
        | Some a, Some e =>
          if is_primitive_descriptor a || is_primitive_descriptor e then qret (String.eqb a e)
          else
            query? a := qlift (descriptor_reference a) in
            query? e := qlift (descriptor_reference e) in
            reference_reaches fuel a e limit
        | _, _ => qret false
        end
      | _, _ => qret false
      end
  end.

(** Fuel for the dimensions of an array. *)
Definition dimensions (r : ReferenceType) : nat := match r with RtArray d => S (String.length d) | _ => 1 end.

Definition references (actual expected : ReferenceType) (limit : nat) : QM bool := reference_reaches (dimensions actual) actual expected limit.

Inductive VerificationJoinRule := AssignableInput | CommonSuperclass | UnrelatedInterfaces | ArrayComponents.

Record VerificationTypeJoin := { tj_value : VerificationType; tj_rule : option VerificationJoinRule }.

Definition joined (r : ReferenceType) (rule : VerificationJoinRule) : VerificationTypeJoin := {| tj_value := VReference r; tj_rule := Some rule |}.

(** The walk up the superclasses of the left class. *)
Fixpoint common_superclass (fuel : nat) (b current : string) (limit : nat) : QM VerificationTypeJoin :=
  match fuel with
  | O => fun q => (NoFuel, q)
  | S fuel =>
    query? reached := lineage b current limit in
    if reached : bool then qret (joined (RtClass current) CommonSuperclass)
    else
      query? _ := charge_node limit in
      query? class := observe current in
      match cd_direct_parents class with
      | [] => qret (joined RtObject CommonSuperclass)
      | parent :: _ => common_superclass fuel b parent limit
      end
  end.

(** Two classes neither of which reaches the other. *)
Definition join_classes (a b : string) (limit : nat) : QM VerificationTypeJoin :=
  query? ac := observe a in
  query? bc := observe b in
  if is_interface ac && is_interface bc then qret (joined RtObject UnrelatedInterfaces)
  else fun q => common_superclass (S (q_remaining q)) b a limit q.

Fixpoint join_references (fuel : nat) (left right : ReferenceType) (limit : nat) : QM VerificationTypeJoin :=
  match fuel with
  | O => fun q => (NoFuel, q)
  | S fuel =>
    query? forth := references left right limit in
    if forth : bool then qret (joined right AssignableInput)
    else
      query? back := references right left limit in
      if back : bool then qret (joined left AssignableInput)
      else
        match left, right with
        | RtArray a, RtArray b =>
          match strip_char "[" a, strip_char "[" b with
          | Some ac, Some bc =>
            if is_primitive_descriptor ac || is_primitive_descriptor bc then qret (joined RtObject CommonSuperclass)
            else
              query? ac := qlift (descriptor_reference ac) in
              query? bc := qlift (descriptor_reference bc) in
              query? j := join_references fuel ac bc limit in
              match tj_value j with
              | VReference r => qret (joined (RtArray (String "[" (reference_descriptor r))) ArrayComponents)
              | _ => qret (joined RtObject CommonSuperclass)
              end
          | _, _ => fun q => (Panic, q)
          end
        | RtClass a, RtClass b => join_classes a b limit
        | _, _ => qret (joined RtObject CommonSuperclass)
        end
  end.

Definition join_types_inner (left right : VerificationType) (limit : nat) : QM VerificationTypeJoin :=
  let plain t := qret {| tj_value := t; tj_rule := None |} in
  match left, right with
  | VBottom, t | t, VBottom => plain t
  | VUnusable, _ | _, VUnusable => plain VUnusable
  | _, _ =>
    if decide (left = right) then plain left
    else
      match left, right with
      | VNull, VReference r | VReference r, VNull => plain (VReference r)
      | VReference a, VReference b => join_references (dimensions a) a b limit
      | _, _ => plain VUnusable
      end
  end.

(** ** The public queries *)

Record VerificationQueryEvidence := { ev_dependencies : list ClassDefinitionId; ev_node_limit : nat; ev_nodes_used : nat }.

Record VerificationQuery (A : Type) := { vq_value : A; vq_evidence : VerificationQueryEvidence }.

Record VerificationQueryFailure := { vf_error : VerificationQueryError; vf_evidence : VerificationQueryEvidence }.

(** The environment between queries: the dependencies and the reads so far. *)
Record VerificationEnvironment := { ve_dependencies : list VerificationDependency; ve_reads : nat }.

Definition new_environment : VerificationEnvironment := {| ve_dependencies := []; ve_reads := 0 |}.

Definition start_query (env : VerificationEnvironment) (node_limit : nat) : Query :=
  {| q_dependencies := ve_dependencies env; q_reads := ve_reads env; q_remaining := node_limit |}.

Definition end_query (q : Query) : VerificationEnvironment := {| ve_dependencies := q_dependencies q; ve_reads := q_reads q |}.

Definition query_evidence (start limit : nat) (q : Query) : VerificationQueryEvidence :=
  {| ev_dependencies := (fun d => cd_id (vd_class d)) <$> drop start (q_dependencies q); ev_node_limit := limit; ev_nodes_used := limit - q_remaining q |}.

(** A query with its evidence, on success and on refusal. *)
Definition with_evidence {A} (env : VerificationEnvironment) (node_limit : nat) (m : QM A) : Res VerificationQueryFailure (VerificationQuery A) * VerificationEnvironment :=
  let '(r, q) := m (start_query env node_limit) in
  let evidence := query_evidence (length (ve_dependencies env)) node_limit q in
  (match r with
   | Ok x => Ok {| vq_value := x; vq_evidence := evidence |}
   | Err e => Err {| vf_error := e; vf_evidence := evidence |}
   | Panic => Panic
   | NoFuel => NoFuel
   end, end_query q).

(** [true] is [Assignable]. *)
Definition reference_assignability (env : VerificationEnvironment) (actual expected : ReferenceType) (node_limit : nat) :
    Res VerificationQueryFailure (VerificationQuery bool) * VerificationEnvironment :=
  with_evidence env node_limit (references actual expected node_limit).

Definition join_types (env : VerificationEnvironment) (left right : VerificationType) (node_limit : nat) :
    Res VerificationQueryFailure (VerificationQuery VerificationTypeJoin) * VerificationEnvironment :=
  with_evidence env node_limit (join_types_inner left right node_limit).

Definition is_assignable (env : VerificationEnvironment) (actual expected : string) (node_limit : nat) : Res VerificationQueryError bool * VerificationEnvironment :=
  let '(r, q) := lineage actual expected node_limit (start_query env node_limit) in (r, end_query q).

Definition environment_class (env : VerificationEnvironment) (name : string) : Res VerificationQueryError ClassDefinition * VerificationEnvironment :=
  let '(r, q) := observe name (start_query env 0) in (r, end_query q).
End Environment.

(** ** What every query keeps *)

Section Keeps.
Context (loader : nat -> ClassSpace) (dependency_limit : nat).

Definition dependency_ids (ds : list VerificationDependency) : list ClassDefinitionId := (fun d => cd_id (vd_class d)) <$> ds.

(** A dependency was read under the revision it is recorded with. *)
Definition observed (d : VerificationDependency) : Prop :=
  exists n name, sp_definitions (loader (S n)) !! name = Some (vd_class d) /\ sp_revision (loader n) = vd_revision d /\ sp_revision (loader (S (S n))) = vd_revision d.

(** Dependencies are appended, without duplicates and within the limit, and the
    budget only shrinks. *)
Record evolves (q q' : Query) : Prop := {
  ev_appended : exists ds, q_dependencies q' = q_dependencies q ++ ds /\ Forall observed ds;
  ev_distinct : NoDup (dependency_ids (q_dependencies q)) -> NoDup (dependency_ids (q_dependencies q'));
  ev_bounded : length (q_dependencies q) <= dependency_limit -> length (q_dependencies q') <= dependency_limit;
  ev_budget : q_remaining q' <= q_remaining q;
}.

#[export] Instance evolves_preorder : PreOrder evolves.
Proof.
  split.
  - intros q. split; [by exists []; rewrite app_nil_r|done..].
  - intros x y z [(ds & Hds & Ho) Hd Hb Hr] [(es & Hes & Ho') Hd' Hb' Hr']. split; [|auto..|lia]. exists (ds ++ es). split; [by rewrite Hes, Hds, app_assoc|by rewrite Forall_app].
Qed.

Definition keeps {A} (m : QM A) : Prop := forall q, evolves q (m q).2.

Lemma keeps_ret {A} (x : A) : keeps (qret x).
Proof. intros q. reflexivity. Qed.

Lemma keeps_lift {A} (r : Res VerificationQueryError A) : keeps (qlift r).
Proof. intros q. reflexivity. Qed.

Lemma keeps_bind {A B} (m : QM A) (k : A -> QM B) : keeps m -> (forall x, keeps (k x)) -> keeps (qbind m k).
Proof. intros Hm Hk q. unfold qbind. pose proof (Hm q) as Hq. destruct (m q) as [[x| | |] q']; [|done..]. etrans; [exact Hq|apply Hk]. Qed.

Lemma keeps_charge limit : keeps (charge_node limit).
Proof. intros q. unfold charge_node. destruct (q_remaining q) eqn:Hr; [reflexivity|]. split; cbn; [by exists []; rewrite app_nil_r|done..|lia]. Qed.

Lemma recorded_none (d : VerificationDependency) ds :
  existsb (fun x => bool_decide (cd_id (vd_class x) = cd_id (vd_class d))) ds = false <-> cd_id (vd_class d) ∉ dependency_ids ds.
Proof.
  unfold dependency_ids. rewrite list_elem_of_fmap. split.
  - intros He (x & Hx & Hin). apply not_true_iff_false in He. apply He, existsb_exists. exists x. rewrite <- list_elem_of_In. split; [done|by apply bool_decide_eq_true].
  - intros Hni. apply not_true_iff_false. intros (x & Hx%list_elem_of_In & Heq%bool_decide_eq_true)%existsb_exists. apply Hni. by exists x.
Qed.

Lemma keeps_observe name : keeps (observe loader dependency_limit name).
Proof.
  intros [ds n r]. unfold observe, read_space, qbind, qlift, qret. cbn. destruct (sp_definitions (loader (S n)) !! name) as [c|] eqn:Hc; cbn; [|split; cbn; [by exists []; rewrite app_nil_r|done..]].
  case_decide as Hrev; [split; cbn; [by exists []; rewrite app_nil_r|done..]|].
  unfold record_dependency. cbn. destruct (existsb _ ds) eqn:He; cbn; [split; cbn; [by exists []; rewrite app_nil_r|done..]|].
  destruct (Nat.eqb_spec (length ds) dependency_limit); [split; cbn; [by exists []; rewrite app_nil_r|done..]|]. apply (recorded_none {| vd_class := c; vd_revision := sp_revision (loader (S (S n))) |}) in He. cbn in He. split; cbn.
  - eexists. split; [done|]. constructor; [|done]. by exists n, name.
  - unfold dependency_ids. rewrite fmap_app. intros Hnd. apply NoDup_app. split_and!; [done| |apply NoDup_singleton]. intros x Hx ->%list_elem_of_singleton. by apply He.
  - rewrite length_app. cbn. lia.
  - done.
Qed.

Lemma keeps_any reaches parents : (forall p, keeps (reaches p)) -> keeps (any_parent reaches parents).
Proof. intros Hr. induction parents as [|p parents IH]; [apply keeps_ret|]. apply keeps_bind; [apply Hr|]. intros []; [apply keeps_ret|done]. Qed.

Lemma keeps_lineage fuel name expected limit : keeps (lineage_reaches loader dependency_limit fuel name expected limit).
Proof.
  revert name. induction fuel as [|fuel IH]; intros name; [intros q; reflexivity|]. cbn [lineage_reaches]. apply keeps_bind; [apply keeps_charge|]. intros _.
  apply keeps_bind; [apply keeps_observe|]. intros c. destruct (String.eqb _ _); [apply keeps_ret|]. apply keeps_any. intros p. apply IH.
Qed.

Lemma keeps_references fuel a e limit : keeps (reference_reaches loader dependency_limit fuel a e limit).
Proof.
  revert a e. induction fuel as [|fuel IH]; intros a e; [intros q; reflexivity|]. cbn [reference_reaches]. case_decide; [apply keeps_ret|].
  destruct a as [|a|a], e as [|e|e]; try apply keeps_ret; [intros q; apply keeps_lineage|].
  destruct (strip_char "[" a), (strip_char "[" e); try apply keeps_ret. destruct (_ || _); [apply keeps_ret|]. apply keeps_bind; [apply keeps_lift|]. intros ra. apply keeps_bind; [apply keeps_lift|done].
Qed.

Lemma keeps_superclass fuel b current limit : keeps (common_superclass loader dependency_limit fuel b current limit).
Proof.
  revert current. induction fuel as [|fuel IH]; intros current; [intros q; reflexivity|]. cbn [common_superclass]. apply keeps_bind; [intros q; apply keeps_lineage|]. intros []; [apply keeps_ret|].
  apply keeps_bind; [apply keeps_charge|]. intros _. apply keeps_bind; [apply keeps_observe|]. intros c. destruct (cd_direct_parents c); [apply keeps_ret|apply IH].
Qed.

Lemma keeps_join fuel a b limit : keeps (join_references loader dependency_limit fuel a b limit).
Proof.
  revert a b. induction fuel as [|fuel IH]; intros a b; [intros q; reflexivity|]. cbn [join_references]. apply keeps_bind; [apply keeps_references|]. intros []; [apply keeps_ret|].
  apply keeps_bind; [apply keeps_references|]. intros []; [apply keeps_ret|]. destruct a as [|a|a], b as [|b|b]; try apply keeps_ret.
  - apply keeps_bind; [apply keeps_observe|]. intros ac. apply keeps_bind; [apply keeps_observe|]. intros bc. destruct (_ && _); [apply keeps_ret|]. intros q. apply keeps_superclass.
  - destruct (strip_char "[" a), (strip_char "[" b); try (intros q; reflexivity). destruct (_ || _); [apply keeps_ret|]. apply keeps_bind; [apply keeps_lift|]. intros ra.
    apply keeps_bind; [apply keeps_lift|]. intros rb. apply keeps_bind; [apply IH|]. intros j. destruct (tj_value j); apply keeps_ret.
Qed.

Lemma keeps_join_types l r limit : keeps (join_types_inner loader dependency_limit l r limit).
Proof. unfold join_types_inner. destruct l, r; try case_decide; first [apply keeps_ret|apply keeps_join]. Qed.
End Keeps.

(** ** Answers over a class space that does not change *)

Section Answers.
Context (loader : nat -> ClassSpace) (dependency_limit : nat) (space : ClassSpace).
Context (Hstable : forall n, loader n = space) (Hnamed : Named space).
Abbreviation definitions := (sp_definitions space).

(** The declared lineage of a loaded class. *)
Inductive reaches : string -> string -> Prop :=
| reaches_self name : is_Some (definitions !! name) -> reaches name name
| reaches_parent name c p m : definitions !! name = Some c -> p ∈ cd_direct_parents c -> reaches p m -> reaches name m.

(** What the queries decide. *)
Inductive assignable : ReferenceType -> ReferenceType -> Prop :=
| assignable_refl r : assignable r r
| assignable_object r : assignable r RtObject
| assignable_class a e : reaches a e -> assignable (RtClass a) (RtClass e)
| assignable_library d e : e = "java/lang/Cloneable"%string \/ e = "java/io/Serializable"%string -> assignable (RtArray d) (RtClass e)
| assignable_array a e a' e' ra re : strip_char "[" a = Some a' -> strip_char "[" e = Some e' -> descriptor_reference a' = Ok ra -> descriptor_reference e' = Ok re ->
    assignable ra re -> assignable (RtArray a) (RtArray e).

(** The rules of the specification for assigning one reference type to another.
    A class is assignable to what it declares, its superclasses and their
    interfaces, and to any interface; the root is also the class named
    java/lang/Object. *)
Inductive jvms : ReferenceType -> ReferenceType -> Prop :=
| jvms_refl r : jvms r r
| jvms_object r : jvms r RtObject
| jvms_root r : jvms r (RtClass "java/lang/Object")
| jvms_class a e : reaches a e -> jvms (RtClass a) (RtClass e)
| jvms_interface r e c : match r with RtArray _ => False | _ => True end -> definitions !! e = Some c -> is_interface c = true -> jvms r (RtClass e)
| jvms_library d e : e = "java/lang/Cloneable"%string \/ e = "java/io/Serializable"%string -> jvms (RtArray d) (RtClass e)
| jvms_array a e a' e' ra re : strip_char "[" a = Some a' -> strip_char "[" e = Some e' -> descriptor_reference a' = Ok ra -> descriptor_reference e' = Ok re ->
    jvms ra re -> jvms (RtArray a) (RtArray e).

(** A type that is not the class [e], nor declares it. *)
Definition undeclared (r : ReferenceType) (e : string) : Prop :=
  match r with RtClass a => a <> e /\ ~ reaches a e | _ => True end.

(** What the specification admits and the queries refuse: the named root class
    and undeclared interfaces as targets, and arrays of such components. *)
Inductive missed : ReferenceType -> ReferenceType -> Prop :=
| missed_root r : undeclared r "java/lang/Object" -> missed r (RtClass "java/lang/Object")
| missed_interface r e c : match r with RtArray _ => False | _ => True end -> undeclared r e -> definitions !! e = Some c -> is_interface c = true -> missed r (RtClass e)
| missed_array a e a' e' ra re : a <> e -> strip_char "[" a = Some a' -> strip_char "[" e = Some e' -> descriptor_reference a' = Ok ra -> descriptor_reference e' = Ok re ->
    missed ra re -> missed (RtArray a) (RtArray e).

Lemma assignable_jvms a e : assignable a e -> jvms a e.
Proof. induction 1; by econstructor. Qed.

Lemma missed_jvms a e : missed a e -> jvms a e.
Proof. induction 1; by econstructor. Qed.

Lemma assignable_not_missed a e : assignable a e -> ~ missed a e.
Proof.
  induction 1 as [r|r|a e Hr|d e He|a e a' e' ra re Ha He Hra Hre _ IH]; intros Hm.
  - inversion Hm as [? Hu|? ? ? ? Hu|]; subst; [| |done]; by destruct Hu.
  - inversion Hm.
  - inversion Hm as [? Hu|? ? ? ? Hu|]; subst; by destruct Hu as [_ Hu].
  - inversion Hm; subst; [by destruct He|done].
  - inversion Hm; subst. apply IH. congruence.
Qed.

(** [b] decides whether [a] may be assigned to [e]. *)
Lemma jvms_decided (b : bool) a e : (b = true <-> assignable a e) -> (b = true <-> jvms a e /\ ~ missed a e).
Proof.
  intros Hb. rewrite Hb. split; [intros Ha; split; [by apply assignable_jvms|by apply assignable_not_missed]|]. intros [Hj Hm].
  destruct b; [by apply Hb|]. exfalso. assert (~ assignable a e) as Hn by (intros Ha; by apply Hb in Ha). clear Hb. induction Hj as [r|r|r|a e Hr|r e c Hr Hc Hi|d e He|a e a' e' ra re Ha He Hra Hre _ IH].
  - apply Hn. constructor.
  - apply Hn. constructor.
  - apply Hm, missed_root. destruct r as [|a|d]; try done. split; [intros ->; apply Hn; constructor|intros Hr; by apply Hn, assignable_class].
  - by apply Hn, assignable_class.
  - apply Hm. eapply missed_interface; try done. destruct r as [|a|d]; try done. split; [intros ->; apply Hn; constructor|intros Hr'; by apply Hn, assignable_class].
  - by apply Hn, assignable_library.
  - destruct (decide (a = e)) as [->|Hne]; [apply Hn; constructor|]. apply IH; [intros Hm'; apply Hm; by eapply missed_array|intros Ha'; apply Hn; by eapply assignable_array].
Qed.

(** Why a query is refused. *)
Definition refusal (limit : nat) (e : VerificationQueryError) (q : Query) : Prop :=
  match e with
  | QInvalidDescriptor d => descriptor_reference d = Err (QInvalidDescriptor d)
  | QNotLoaded name => definitions !! name = None
  | QConcurrentRevision _ _ => False
  | QLineageLimit l => l = limit /\ q_remaining q = 0
  | QDependencyLimit l => l = dependency_limit /\ length (q_dependencies q) = dependency_limit
  end.

(** When a query may abort. *)
Context (aborts : Prop).

(** With less than [budget] nodes left, a query returns an answer in [P] or is
    refused for a reason. *)
Definition answers {A} (limit budget : nat) (m : QM A) (P : A -> Prop) : Prop := forall q, q_remaining q < budget ->
  match m q with
  | (Ok x, q') => P x /\ q_remaining q' <= q_remaining q
  | (Err e, q') => refusal limit e q'
  | (Panic, _) => aborts
  | (NoFuel, _) => False
  end.

Lemma answers_ret {A} limit budget (x : A) (P : A -> Prop) : P x -> answers limit budget (qret x) P.
Proof. intros HP q _. by split. Qed.

Lemma answers_bind {A B} limit budget (m : QM A) (k : A -> QM B) (P : A -> Prop) (Q : B -> Prop) :
  answers limit budget m P -> (forall x, P x -> answers limit budget (k x) Q) -> answers limit budget (qbind m k) Q.
Proof.
  intros Hm Hk q Hq. unfold qbind. specialize (Hm q Hq). destruct (m q) as [[x|e| |] q']; try done. destruct Hm as [HP Hr]. specialize (Hk x HP q' ltac:(lia)).
  destruct (k x q') as [[y|e| |] q'']; try done. destruct Hk as [HQ Hr']. split; [done|lia].
Qed.

Lemma answers_impl {A} limit budget (m : QM A) (P Q : A -> Prop) : (forall x, P x -> Q x) -> answers limit budget m P -> answers limit budget m Q.
Proof. intros HPQ Hm q Hq. specialize (Hm q Hq). destruct (m q) as [[]]; naive_solver. Qed.

Lemma answers_charge {A} limit budget (k : unit -> QM A) (Q : A -> Prop) : answers limit budget (k tt) Q -> answers limit (S budget) (qbind (charge_node limit) k) Q.
Proof.
  intros Hk [ds n r] Hq. cbn in Hq. unfold qbind, charge_node. cbn [q_remaining]. destruct r as [|r]; [done|]. specialize (Hk {| q_dependencies := ds; q_reads := n; q_remaining := r |}). cbn in Hk |- *.
  destruct (k tt _) as [[]]; try (apply Hk; lia). destruct Hk as [HQ Hr]; [lia|]. split; [done|lia].
Qed.

Lemma answers_observe limit budget name : answers limit budget (observe loader dependency_limit name) (fun c => definitions !! name = Some c).
Proof using Type Hstable.
  intros [ds n r] _. unfold observe, read_space, qbind, qlift, qret. cbn. rewrite !Hstable. destruct (definitions !! name) as [c|] eqn:Hc; [|done]. cbn. rewrite decide_False by by intros [].
  unfold record_dependency. cbn. destruct (existsb _ ds); [done|]. by destruct (Nat.eqb_spec (length ds) dependency_limit).
Qed.

Lemma descriptor_refused d e : descriptor_reference d = Err e -> e = QInvalidDescriptor d.
Proof. unfold descriptor_reference. destruct (strip_char "[" d); [done|]. destruct (strip_char "L" d) as [name|]; [|by intros [= <-]]. by destruct (strip_semicolon name); intros [= <-]. Qed.

Lemma answers_descriptor limit budget d : answers limit budget (qlift (descriptor_reference d)) (fun r => descriptor_reference d = Ok r).
Proof.
  intros q _. unfold qlift. destruct (descriptor_reference d) as [r|e| |] eqn:Hd; [done|by rewrite (descriptor_refused _ _ Hd) in Hd |- *|..];
    unfold descriptor_reference in Hd; repeat case_match; done.
Qed.

Lemma answers_any limit budget f parents (R : string -> Prop) : (forall p, p ∈ parents -> answers limit budget (f p) (fun b => b = true <-> R p)) ->
  answers limit budget (any_parent f parents) (fun b => b = true <-> exists p, p ∈ parents /\ R p).
Proof.
  induction parents as [|p parents IH]; intros Hf; cbn [any_parent].
  - apply answers_ret. split; [done|]. by intros (p & ?%elem_of_nil & _).
  - eapply answers_bind; [apply Hf; left|]. intros [] Hp.
    + apply answers_ret. split; [|done]. intros _. exists p. split; [left|by apply Hp].
    + eapply answers_impl; [|apply IH; intros p' Hp'; apply Hf; by right]. intros b ->. split; [intros (p' & Hin & HR); exists p'; split; [by right|done]|].
      intros (p' & [->|Hin]%elem_of_cons & HR); [by apply Hp in HR|eauto].
Qed.

Lemma answers_lineage limit fuel name expected : answers limit fuel (lineage_reaches loader dependency_limit fuel name expected limit) (fun b => b = true <-> reaches name expected).
Proof using Type Hstable Hnamed.
  revert name. induction fuel as [|fuel IH]; intros name; [intros q Hq; lia|]. cbn [lineage_reaches]. apply answers_charge. eapply answers_bind; [apply answers_observe|]. intros c Hc. cbn beta in Hc.
  rewrite (Hnamed _ _ Hc). destruct (String.eqb_spec name expected) as [->|Hne].
  - apply answers_ret. split; [|done]. intros _. apply reaches_self. by eexists.
  - eapply answers_impl; [|apply (answers_any _ _ _ _ (fun p => reaches p expected)); intros p _; apply IH]. intros b ->. split.
    + intros (p & Hp & Hr). by eapply reaches_parent.
    + intros Hr. inversion Hr as [|? c' p m Hc' Hp Hr' E1 E2]; subst; [done|]. rewrite Hc in Hc'. injection Hc' as <-. eauto.
Qed.

Lemma answers_walk limit budget name expected : answers limit budget (lineage loader dependency_limit name expected limit) (fun b => b = true <-> reaches name expected).
Proof using Type Hstable Hnamed. intros q _. unfold lineage. apply (answers_lineage limit (S (q_remaining q)) name expected q). lia. Qed.

Lemma strip_inj c a b x : strip_char c a = Some x -> strip_char c b = Some x -> a = b.
Proof. destruct a as [|p a], b as [|q b]; try done. cbn. destruct (Ascii.eqb_spec p c) as [->|], (Ascii.eqb_spec q c) as [->|]; try done. congruence. Qed.

Lemma strip_length c a x : strip_char c a = Some x -> String.length a = S (String.length x).
Proof. destruct a as [|p a]; [done|]. cbn. destruct (p =? c)%char; [|done]. by intros [= ->]. Qed.

Lemma primitive_refused d : is_primitive_descriptor d = true -> exists e, descriptor_reference d = Err e.
Proof.
  destruct d as [|c [|c' d]]; try done. intros Hc. unfold descriptor_reference. cbn [strip_char]. destruct (Ascii.eqb_spec c "[") as [->|_]; [done|].
  destruct (c =? "L")%char; eauto.
Qed.

Lemma descriptor_dimensions a a' ra fuel : strip_char "[" a = Some a' -> descriptor_reference a' = Ok ra -> dimensions (RtArray a) <= S fuel -> dimensions ra <= fuel.
Proof.
  intros Ha Hra Hf. pose proof (strip_length _ _ _ Ha) as Hl. cbn in Hf. unfold descriptor_reference in Hra. destruct (strip_char "[" a'); [injection Hra as <-; cbn; lia|].
  destruct (strip_char "L" a') as [n|]; [|done]. destruct (strip_semicolon n); [|done]. injection Hra as <-. cbn. lia.
Qed.

Lemma answers_references limit budget fuel a e : dimensions a <= fuel ->
  answers limit budget (reference_reaches loader dependency_limit fuel a e limit) (fun b => b = true <-> assignable a e).
Proof using Type Hstable Hnamed.
  revert a e. induction fuel as [|fuel IH]; intros a e Hf; [destruct a; cbn in Hf; lia|]. cbn [reference_reaches]. case_decide as Heq.
  { apply answers_ret. split; [|done]. intros _. destruct Heq as [->| ->]; constructor. }
  destruct a as [|a|a], e as [|e|e]; try (by exfalso; apply Heq; auto);
    try (apply answers_ret; split; [done|]; intros Ha; inversion Ha; subst; by exfalso; apply Heq; auto).
  - eapply answers_impl; [|apply answers_walk]. intros b ->. split; [by constructor|]. intros Ha. inversion Ha; subst; [by exfalso; apply Heq; auto|done].
  - apply answers_ret. rewrite orb_true_iff, !String.eqb_eq. split; [by constructor|]. intros Ha. inversion Ha; subst; done.
  - destruct (strip_char "[" a) as [a'|] eqn:Ha; [|apply answers_ret; split; [done|]; intros Has; inversion Has; subst; [by exfalso; apply Heq; auto|congruence]].
    destruct (strip_char "[" e) as [e'|] eqn:He; [|apply answers_ret; split; [done|]; intros Has; inversion Has; subst; [by exfalso; apply Heq; auto|congruence]].
    destruct (is_primitive_descriptor a' || is_primitive_descriptor e') eqn:Hprim.
    + apply answers_ret. rewrite String.eqb_eq. split; [intros ->; exfalso; apply Heq; left; f_equal; by eapply strip_inj|]. intros Has. inversion Has; subst; [by exfalso; apply Heq; auto|]. simplify_eq.
      apply orb_true_iff in Hprim as [[x Hx]%primitive_refused|[x Hx]%primitive_refused]; congruence.
    + eapply answers_bind; [apply answers_descriptor|]. intros ra Hra. eapply answers_bind; [apply answers_descriptor|]. intros re Hre. cbn beta in Hra, Hre.
      pose proof (descriptor_dimensions _ _ _ _ Ha Hra Hf) as Hd.
      eapply answers_impl; [|by apply IH]. intros b ->. split; [intros Has; by eapply assignable_array|]. intros Has. inversion Has; subst; [by exfalso; apply Heq; auto|]. simplify_eq. congruence.
Qed.

(** ** Joins *)

(** The first superclass of a class that [b] reaches. *)
Inductive first_common (b : string) : string -> option string -> Prop :=
| common_here c : reaches b c -> first_common b c (Some c)
| common_up c d p rest r : ~ reaches b c -> definitions !! c = Some d -> cd_direct_parents d = p :: rest -> first_common b p r -> first_common b c r
| common_top c d : ~ reaches b c -> definitions !! c = Some d -> cd_direct_parents d = [] -> first_common b c None.

Lemma reaches_loaded a b : reaches a b -> is_Some (definitions !! b).
Proof. by induction 1. Qed.

Lemma first_common_reached b c m : first_common b c (Some m) -> reaches b m /\ reaches c m.
Proof.
  intros Hf. remember (Some m) as r eqn:Hr. induction Hf as [c Hb|c d p rest r Hn Hc Hp _ IH|]; [|destruct (IH Hr) as [Hb Hm]|done].
  - injection Hr as ->. split; [done|]. apply reaches_self. by eapply reaches_loaded.
  - split; [done|]. eapply reaches_parent; [done| |done]. rewrite Hp. left.
Qed.

Definition common_type (m : option string) : ReferenceType := match m with Some c => RtClass c | None => RtObject end.

Lemma answers_superclass limit fuel b current : answers limit fuel (common_superclass loader dependency_limit fuel b current limit)
  (fun j => exists m, first_common b current m /\ j = joined (common_type m) CommonSuperclass).
Proof using Type Hstable Hnamed.
  revert current. induction fuel as [|fuel IH]; intros current; [intros q Hq; lia|]. cbn [common_superclass]. eapply answers_bind; [apply answers_walk|]. intros [] Hb.
  - apply answers_ret. exists (Some current). split; [|done]. by apply common_here, Hb.
  - assert (~ reaches b current) as Hn by (intros Hr; by apply Hb in Hr). apply answers_charge. eapply answers_bind; [apply answers_observe|]. intros c Hc. cbn beta in Hc.
    destruct (cd_direct_parents c) as [|p rest] eqn:Hp; [apply answers_ret; exists None; split; [by eapply common_top|done]|].
    eapply answers_impl; [|apply IH]. intros j (m & Hm & ->). exists m. split; [by eapply common_up|done].
Qed.

(** An array type begins with a bracket. *)
Definition array_named (r : ReferenceType) : Prop := match r with RtArray d => is_Some (strip_char "[" d) | _ => True end.

Lemma descriptor_named d r : descriptor_reference d = Ok r -> array_named r.
Proof. unfold descriptor_reference. destruct (strip_char "[" d) eqn:Hd; [intros [= <-]; cbn; by rewrite Hd|]. destruct (strip_char "L" d) as [n|]; [|done]. destruct (strip_semicolon n); [|done]. by intros [= <-]. Qed.

Lemma semicolon_strip n : strip_semicolon (n ++ ";") = Some n.
Proof. induction n as [|c n IH]; [done|]. destruct n as [|c' n]; [done|]. change (String c <$> strip_semicolon (String c' n ++ ";") = Some (String c (String c' n))). by rewrite IH. Qed.

(** The descriptor of a type that is no root names the type. *)
Lemma descriptor_round_trip r : array_named r -> descriptor_reference (reference_descriptor r) = Ok (match r with RtObject => RtClass "java/lang/Object" | _ => r end).
Proof. destruct r as [|n|d]; cbn; [done|intros _|intros [x Hx]]; unfold descriptor_reference; cbn; [by rewrite semicolon_strip|by rewrite Hx]. Qed.

(** The superclasses of a class. *)
Inductive superclass : string -> string -> Prop :=
| superclass_self a : superclass a a
| superclass_up a d p rest m : definitions !! a = Some d -> cd_direct_parents d = p :: rest -> superclass p m -> superclass a m.

(** The first common superclass is below every superclass of [a] that [b] reaches. *)
Lemma first_common_least b a r m : first_common b a r -> superclass a m -> reaches b m -> exists c, r = Some c /\ superclass c m.
Proof.
  intros Hf. induction Hf as [c Hb|c d p rest r Hn Hc Hp _ IH|c d Hn Hc Hp]; intros Hs Hr.
  - by exists c.
  - inversion Hs as [|? d' p' rest' m' Hc' Hp' Hs']; subst; [done|]. rewrite Hc in Hc'. injection Hc' as <-. rewrite Hp in Hp'. injection Hp' as <- <-. by apply IH.
  - inversion Hs as [|? d' p' rest' m' Hc' Hp' Hs']; subst; [done|]. rewrite Hc in Hc'. injection Hc' as <-. by rewrite Hp in Hp'.
Qed.

(** What the join of two reference types is. *)
Inductive reference_join : ReferenceType -> ReferenceType -> VerificationTypeJoin -> Prop :=
| join_right a b : assignable a b -> reference_join a b (joined b AssignableInput)
| join_left a b : ~ assignable a b -> assignable b a -> reference_join a b (joined a AssignableInput)
| join_interfaces a b ac bc : ~ assignable (RtClass a) (RtClass b) -> ~ assignable (RtClass b) (RtClass a) -> definitions !! a = Some ac -> definitions !! b = Some bc ->
    is_interface ac = true -> is_interface bc = true -> reference_join (RtClass a) (RtClass b) (joined RtObject UnrelatedInterfaces)
| join_superclass a b ac bc m : ~ assignable (RtClass a) (RtClass b) -> ~ assignable (RtClass b) (RtClass a) -> definitions !! a = Some ac -> definitions !! b = Some bc ->
    ~ (is_interface ac = true /\ is_interface bc = true) -> first_common b a m -> reference_join (RtClass a) (RtClass b) (joined (common_type m) CommonSuperclass)
| join_components a b a' b' ra rb j r : ~ assignable (RtArray a) (RtArray b) -> ~ assignable (RtArray b) (RtArray a) -> strip_char "[" a = Some a' -> strip_char "[" b = Some b' ->
    descriptor_reference a' = Ok ra -> descriptor_reference b' = Ok rb -> reference_join ra rb j -> tj_value j = VReference r ->
    reference_join (RtArray a) (RtArray b) (joined (RtArray (String "[" (reference_descriptor r))) ArrayComponents)
| join_primitives a b a' b' : ~ assignable (RtArray a) (RtArray b) -> ~ assignable (RtArray b) (RtArray a) -> strip_char "[" a = Some a' -> strip_char "[" b = Some b' ->
    is_primitive_descriptor a' = true \/ is_primitive_descriptor b' = true -> reference_join (RtArray a) (RtArray b) (joined RtObject CommonSuperclass)
| join_kinds a b : ~ assignable a b -> ~ assignable b a -> match a, b with RtClass _, RtClass _ | RtArray _, RtArray _ => False | _, _ => True end ->
    reference_join a b (joined RtObject CommonSuperclass).

(** The join is above both, by the rules of the specification. *)
Lemma reference_join_above a b j : reference_join a b j -> exists r, tj_value j = VReference r /\ jvms a r /\ jvms b r /\ (array_named a -> array_named b -> array_named r).
Proof.
  induction 1 as [a b Ha|a b _ Hb|a b ac bc _ _ _ _ _ _|a b ac bc m _ _ _ _ _ Hm|a b a' b' ra rb j r _ _ Ha Hb Hra Hrb _ (r' & Hr' & Hja & Hjb & Hn) Hr|a b a' b'|a b]; try (exists RtObject; split_and!; by try constructor).
  - exists b. split_and!; [done|by apply assignable_jvms|constructor|done].
  - exists a. split_and!; [done|constructor|by apply assignable_jvms|done].
  - exists (common_type m). split; [done|]. destruct m as [c|]; [|split_and!; by try constructor]. apply first_common_reached in Hm as [Hb Ha]. by split_and!; [apply jvms_class..|].
  - rewrite Hr in Hr'. injection Hr' as <-. specialize (Hn (descriptor_named _ _ Hra) (descriptor_named _ _ Hrb)). pose proof (descriptor_round_trip r Hn) as Hd. eexists. split; [done|].
    split_and!; [eapply jvms_array; [exact Ha|done|exact Hra|exact Hd|]|eapply jvms_array; [exact Hb|done|exact Hrb|exact Hd|]|by eexists]; by destruct r; [apply jvms_root|..].
Qed.

Lemma answers_classes limit budget a b : ~ assignable (RtClass a) (RtClass b) -> ~ assignable (RtClass b) (RtClass a) ->
  answers limit budget (join_classes loader dependency_limit a b limit) (reference_join (RtClass a) (RtClass b)).
Proof using Type Hstable Hnamed.
  intros Hn Hn'. unfold join_classes. eapply answers_bind; [apply answers_observe|]. intros ac Hac. eapply answers_bind; [apply answers_observe|]. intros bc Hbc. cbn beta in Hac, Hbc.
  destruct (is_interface ac && is_interface bc) eqn:Hi; [apply andb_true_iff in Hi as [Hia Hib]; apply answers_ret; by eapply join_interfaces|].
  intros q Hq. pose proof (answers_superclass limit (S (q_remaining q)) b a q ltac:(lia)) as Hs. destruct (common_superclass _ _ _ _ _ _ q) as [[j|e| |] q']; try done. destruct Hs as [(m & Hm & ->) Hr]. split; [|done].
  eapply join_superclass; try done. intros [Hia Hib]. by rewrite Hia, Hib in Hi.
Qed.

Lemma answers_join limit budget fuel a b : dimensions a <= fuel -> (~ (array_named a /\ array_named b) -> aborts) ->
  answers limit budget (join_references loader dependency_limit fuel a b limit) (reference_join a b).
Proof using Type Hstable Hnamed.
  revert a b. induction fuel as [|fuel IH]; intros a b Hf Hab; [destruct a; cbn in Hf; lia|]. cbn [join_references].
  eapply answers_bind; [by apply answers_references|]. intros [] Hforth; [by apply answers_ret, join_right, Hforth|].
  assert (~ assignable a b) as Hn by (intros Has; by apply Hforth in Has).
  eapply answers_bind; [by apply answers_references|]. intros [] Hback; [by apply answers_ret, join_left, Hback|].
  assert (~ assignable b a) as Hn' by (intros Has; by apply Hback in Has).
  destruct a as [|a|a], b as [|b|b]; try (by apply answers_ret, join_kinds); [by apply answers_classes|].
  destruct (strip_char "[" a) as [a'|] eqn:Ha; [|intros q _; apply Hab; intros [[x Hx] _]; cbn in Hx; congruence].
  destruct (strip_char "[" b) as [b'|] eqn:Hb; [|intros q _; apply Hab; intros [_ [x Hx]]; cbn in Hx; congruence].
  destruct (is_primitive_descriptor a' || is_primitive_descriptor b') eqn:Hp; [apply orb_true_iff in Hp; apply answers_ret; by eapply join_primitives|].
  eapply answers_bind; [apply answers_descriptor|]. intros ra Hra. eapply answers_bind; [apply answers_descriptor|]. intros rb Hrb. cbn beta in Hra, Hrb.
  eapply answers_bind; [apply IH; [exact (descriptor_dimensions _ _ _ _ Ha Hra Hf)|intros Hnn; exfalso; apply Hnn; split; by eapply descriptor_named]|].
  intros j Hj. destruct (reference_join_above _ _ _ Hj) as (r & Hr & _). rewrite Hr. apply answers_ret. by eapply join_components.
Qed.

(** The order of verification types that joins go up in. *)
Definition type_below (t u : VerificationType) : Prop :=
  t = VBottom \/ u = VUnusable \/ t = u \/ (t = VNull /\ exists r, u = VReference r) \/ (exists a b, t = VReference a /\ u = VReference b /\ jvms a b).

Definition type_named (t : VerificationType) : Prop := match t with VReference r => array_named r | _ => True end.

(** What the join of two types is. *)
Definition type_join_is (left right : VerificationType) (j : VerificationTypeJoin) : Prop :=
  let plain t := j = {| tj_value := t; tj_rule := None |} in
  match left, right with
  | VBottom, t | t, VBottom => plain t
  | VUnusable, _ | _, VUnusable => plain VUnusable
  | VNull, VReference r | VReference r, VNull => plain (VReference r)
  | VReference a, VReference b => a = b /\ plain (VReference a) \/ a <> b /\ reference_join a b j
  | _, _ => left = right /\ plain left \/ left <> right /\ plain VUnusable
  end.

Definition types_joined (left right : VerificationType) (j : VerificationTypeJoin) : Prop :=
  type_join_is left right j /\ type_below left (tj_value j) /\ type_below right (tj_value j) /\
  forall a b r m, left = VReference (RtClass a) -> right = VReference (RtClass b) -> tj_rule j = Some CommonSuperclass -> tj_value j = VReference r ->
    superclass a m -> reaches b m -> exists c, r = RtClass c /\ superclass c m.

Lemma types_joined_intro left right j : type_join_is left right j -> types_joined left right j.
Proof.
  intros Hj. split; [done|]. split; [|split].
  - unfold type_below. destruct left, right; cbn in Hj; try (by destruct Hj as [[_ ->]|[_ ->]]; cbn; eauto 10); try (by subst; cbn; eauto 10).
    destruct Hj as [[_ ->]|[_ Hj]]; [cbn; eauto 10|]. destruct (reference_join_above _ _ _ Hj) as (x & -> & ? & _). eauto 10.
  - unfold type_below. destruct left, right; cbn in Hj; try (by destruct Hj as [[Hlr ->]|[_ ->]]; cbn; eauto 10); try (by subst; cbn; eauto 10).
    destruct Hj as [[-> ->]|[_ Hj]]; [cbn; eauto 10|]. destruct (reference_join_above _ _ _ Hj) as (x & -> & _ & ? & _). eauto 10.
  - intros a b r m -> -> Hrule Hv Hs Hr. cbn in Hj. destruct Hj as [[_ ->]|[_ Hj]]; [done|].
    inversion Hj as [| | |? ? ? ? m' ? ? ? ? ? Hm| | |? ? ? ? Hk]; subst; cbn in *; try done. injection Hv as <-.
    destruct (first_common_least _ _ _ _ Hm Hs Hr) as (c & -> & Hc). by exists c.
Qed.

Lemma answers_join_types limit budget left right : (~ (type_named left /\ type_named right) -> aborts) ->
  answers limit budget (join_types_inner loader dependency_limit left right limit) (types_joined left right).
Proof using Type Hstable Hnamed.
  intros Hab. eapply answers_impl; [apply types_joined_intro|]. unfold join_types_inner. destruct left, right; try (case_decide as Heq; [try discriminate Heq|]);
    try (apply answers_ret; cbn; subst; try injection Heq as ->; try done; auto; fail).
  eapply answers_impl; [|by apply answers_join]. intros j Hj. cbn. right. split; [congruence|done].
Qed.
End Answers.

(** ** The theorems *)

Section Theorems.
Context (loader : nat -> ClassSpace) (dependency_limit : nat) (space : ClassSpace).
Implicit Types (env : VerificationEnvironment).

(** The environment after a query and the evidence of the query. *)
Record Accounted env (node_limit : nat) (env' : VerificationEnvironment) (ev : VerificationQueryEvidence) : Prop := {
  ac_new : exists ds, ve_dependencies env' = ve_dependencies env ++ ds /\ ev_dependencies ev = dependency_ids ds /\ Forall (observed loader) ds;
  ac_distinct : NoDup (dependency_ids (ve_dependencies env)) -> NoDup (dependency_ids (ve_dependencies env'));
  ac_bounded : length (ve_dependencies env) <= dependency_limit -> length (ve_dependencies env') <= dependency_limit;
  ac_limit : ev_node_limit ev = node_limit;
  ac_used : ev_nodes_used ev <= node_limit;
}.

(** Every refusal says why. *)
Definition failure_true env' (node_limit : nat) (f : VerificationQueryFailure) : Prop :=
  match vf_error f with
  | QInvalidDescriptor d => descriptor_reference d = Err (QInvalidDescriptor d)
  | QNotLoaded name => sp_definitions space !! name = None
  | QConcurrentRevision _ _ => False
  | QLineageLimit l => l = node_limit /\ ev_nodes_used (vf_evidence f) = node_limit
  | QDependencyLimit l => l = dependency_limit /\ length (ve_dependencies env') = dependency_limit
  end.

Lemma evidence_accounted {A} env node_limit (m : QM A) : keeps loader dependency_limit m ->
  Accounted env node_limit (end_query (m (start_query env node_limit)).2) (query_evidence (length (ve_dependencies env)) node_limit (m (start_query env node_limit)).2).
Proof.
  intros Hk. destruct (Hk (start_query env node_limit)) as [(ds & Hds & Ho) Hd Hb Hr]. cbn in *. split; try done; [|cbn; lia].
  exists ds. split; [done|]. split; [|done]. unfold query_evidence. cbn. by rewrite Hds, drop_app_length.
Qed.

(** A query that [answers] does so with its evidence. *)
Lemma with_evidence_spec {A} aborts env node_limit (m : QM A) (P : A -> Prop) : keeps loader dependency_limit m -> answers dependency_limit space aborts node_limit (S node_limit) m P ->
  let '(r, env') := with_evidence env node_limit m in
  match r with
  | Ok v => P (vq_value _ v) /\ Accounted env node_limit env' (vq_evidence _ v)
  | Err f => failure_true env' node_limit f /\ Accounted env node_limit env' (vf_evidence f)
  | Panic => aborts
  | NoFuel => False
  end.
Proof.
  intros Hk Ha. unfold with_evidence. pose proof (evidence_accounted env node_limit m Hk) as Hev. specialize (Ha (start_query env node_limit) ltac:(cbn; lia)).
  destruct (m (start_query env node_limit)) as [[x|e| |] q']; try done; cbn in *; split; try done; [apply Ha|].
  unfold failure_true, refusal in *. cbn. destruct e; try done. destruct Ha as [-> ->]. split; [done|lia].
Qed.

Lemma assignability_answer env actual expected node_limit : (forall n, loader n = space) -> Loaded space ->
  match (reference_assignability loader dependency_limit env actual expected node_limit).1 with Ok v => vq_value _ v = true <-> assignable space actual expected | Err _ => True | _ => False end.
Proof.
  intros Hs Hn%loaded_named. unfold reference_assignability. pose proof (with_evidence_spec False env node_limit (references loader dependency_limit actual expected node_limit) (fun b => b = true <-> assignable space actual expected)
    (keeps_references _ _ _ _ _ _) ltac:(by apply answers_references)) as Hw. destruct (with_evidence _ _ _) as [[v|f| |] env']; try done. apply Hw.
Qed.

(** C28: Over a class space that a loader defined and that does not change during
    the query, a query for assignability ends within its budget; it answers yes
    exactly for the pairs that the rules of JVMS 4.10.1.2 admit, except for the
    ones it misses: a type that does not declare it to the class named
    java/lang/Object or to an interface, and arrays of such components.  A refusal
    is true of the class space or of a limit that was reached; the evidence lists
    the classes newly depended on, which stay distinct and within the limit. *)
Theorem reference_assignability_spec env actual expected node_limit : (forall n, loader n = space) -> Loaded space ->
  let '(r, env') := reference_assignability loader dependency_limit env actual expected node_limit in
  match r with
  | Ok v => (vq_value _ v = true <-> jvms space actual expected /\ ~ missed space actual expected) /\ Accounted env node_limit env' (vq_evidence _ v)
  | Err f => failure_true env' node_limit f /\ Accounted env node_limit env' (vf_evidence f)
  | _ => False
  end.
Proof.
  intros Hs Hn%loaded_named. pose proof (with_evidence_spec False env node_limit (references loader dependency_limit actual expected node_limit) (fun b => b = true <-> jvms space actual expected /\ ~ missed space actual expected)
    (keeps_references _ _ _ _ _ _)) as Hw. unfold reference_assignability. destruct (with_evidence _ _ _) as [[v|f| |] env']; apply Hw; (eapply answers_impl; [intros b; apply jvms_decided|by apply answers_references]).
Qed.

(** C29: Over a class space that a loader defined and that does not change during
    the query, a join of two verification types ends within its budget.  Bottom is
    neutral, unusable absorbs, null joins to the reference, unlike types are
    unusable; of two references it is the one that the other is assignable to, for
    arrays the array of the joined components, for unrelated interfaces the root,
    and for other classes the first superclass of the left one that the right one
    reaches, or the root.  The join is above both types by the rules of
    JVMS 4.10.1.2, and below every superclass of the left class that the right
    class reaches.  It aborts only on an array descriptor without a bracket. *)
Theorem join_types_spec env left right node_limit : (forall n, loader n = space) -> Loaded space ->
  let '(r, env') := join_types loader dependency_limit env left right node_limit in
  match r with
  | Ok v => types_joined space left right (vq_value _ v) /\ Accounted env node_limit env' (vq_evidence _ v)
  | Err f => failure_true env' node_limit f /\ Accounted env node_limit env' (vf_evidence f)
  | Panic => ~ (type_named left /\ type_named right)
  | NoFuel => False
  end.
Proof.
  intros Hs Hn%loaded_named. pose proof (with_evidence_spec (~ (type_named left /\ type_named right)) env node_limit (join_types_inner loader dependency_limit left right node_limit) (types_joined space left right) (keeps_join_types _ _ _ _ _)) as Hw.
  unfold join_types. destruct (with_evidence _ _ _) as [[v|f| |] env']; apply Hw; by apply answers_join_types.
Qed.
End Theorems.
