(* ===== verification/JvmHeap.v ===== *)
(** * The JVM heap

    crates/sim-lib-lang-jvm/src/managed.rs: the object graph of the JVM profile,
    composed from managed nodes that carry a role and the tracing collector.  A
    table says which edges a role may have; [collect_from] collects with the live
    roots of a machine source. *)

From stdpp Require Import relations.
From S2P Require Import Prelude BTree MachineFrame ManagedNode ManagedArena ControlJobs GcCollector GcMarking GcCollect.

(** ** Roles and edges *)

Inductive JvmRole :=
| RObject | RArray | RClassMirror | RLoader | RStatics | RString | RPrimitiveBox | RThrowable | RMonitor | RPreparedMethod | RCache.

Inductive JvmEdge :=
| EField | EElement | EClass | EDefiningLoader | EStaticStorage | ESupertype | EMethod | EDefinedClass | EStaticValue | EStringStorage
| ECause | ESuppressed | EDetailMessage | EMonitoredObject | EDeclaringClass | EMethodDependency | EDerivedEntry.

#[global] Instance jvm_role_eq_dec : EqDecision JvmRole.
Proof. solve_decision. Defined.

#[global] Instance jvm_edge_eq_dec : EqDecision JvmEdge.
Proof. solve_decision. Defined.

Record JvmRoleEdges := { re_role : JvmRole; re_strong : list JvmEdge; re_weak : list JvmEdge; re_ephemeron : list JvmEdge }.

Definition JVM_ROLE_EDGE_TABLE : list JvmRoleEdges :=
  [{| re_role := RObject; re_strong := [EField; EClass]; re_weak := []; re_ephemeron := [] |};
   {| re_role := RArray; re_strong := [EElement; EClass]; re_weak := []; re_ephemeron := [] |};
   {| re_role := RClassMirror; re_strong := [EDefiningLoader; EStaticStorage; ESupertype; EMethod]; re_weak := []; re_ephemeron := [] |};
   {| re_role := RLoader; re_strong := [EDefinedClass]; re_weak := []; re_ephemeron := [] |};
   {| re_role := RStatics; re_strong := [EStaticValue]; re_weak := []; re_ephemeron := [] |};
   {| re_role := RString; re_strong := [EStringStorage; EClass]; re_weak := []; re_ephemeron := [] |};
   {| re_role := RPrimitiveBox; re_strong := [EClass]; re_weak := []; re_ephemeron := [] |};
   {| re_role := RThrowable; re_strong := [ECause; ESuppressed; EDetailMessage; EClass]; re_weak := []; re_ephemeron := [] |};
   {| re_role := RMonitor; re_strong := []; re_weak := [EMonitoredObject]; re_ephemeron := [] |};
   {| re_role := RPreparedMethod; re_strong := [EDeclaringClass; EMethodDependency]; re_weak := []; re_ephemeron := [] |};
   {| re_role := RCache; re_strong := []; re_weak := []; re_ephemeron := [EDerivedEntry] |}].

(** [role as usize]. *)
Definition role_index (r : JvmRole) : nat :=
  match r with
  | RObject => 0 | RArray => 1 | RClassMirror => 2 | RLoader => 3 | RStatics => 4 | RString => 5
  | RPrimitiveBox => 6 | RThrowable => 7 | RMonitor => 8 | RPreparedMethod => 9 | RCache => 10
  end.

(** [&JVM_ROLE_EDGE_TABLE[role as usize]]. *)
Definition policy {E} (r : JvmRole) : Res E JvmRoleEdges := expect (JVM_ROLE_EDGE_TABLE !! role_index r).

Inductive JvmGraphError :=
| GArena (e : ArenaError)
| InvalidEdge (role : JvmRole) (edge : JvmEdge)
| GAllocation (e : EdgeAllocationError)
| GStrongMutation (e : EdgeMutationError).

(** The conversions of [?]; an insertion of a weak edge or an ephemeron only
    reports allocation failures, the rest is [unreachable!]. *)
Definition from_strong {A} (r : Res EdgeMutationError A) : Res JvmGraphError A :=
  match r with
  | Ok x => Ok x
  | Err (EdgeAllocation e) => Err (GAllocation e)
  | Err e => Err (GStrongMutation e)
  | Panic => Panic
  | NoFuel => NoFuel
  end.

Definition from_weak {A} (r : Res EdgeMutationError A) : Res JvmGraphError A :=
  match r with
  | Ok x => Ok x
  | Err (EdgeAllocation e) => Err (GAllocation e)
  | Err _ | Panic => Panic
  | NoFuel => NoFuel
  end.

Definition from_ephemeron {A} (r : Res EphemeronMutationError A) : Res JvmGraphError A :=
  match r with
  | Ok x => Ok x
  | Err (EntryAllocation e) => Err (GAllocation e)
  | Err _ | Panic => Panic
  | NoFuel => NoFuel
  end.

(** ** The heap *)

Abbreviation Node := (ManagedNode JvmRole).
Definition JvmHeap := ManagedHeap Node.
Implicit Types (h : JvmHeap) (n : Node).

(** [EdgeLimits::DEFAULT]. *)
Definition default_limits : EdgeLimits :=
  let cap := N.to_nat 65536 in {| lim_total := cap; lim_strong := cap; lim_weak := cap; lim_ephemeron := cap |}.

Definition new_heap (cap : nat) (limits : CollectionLimits) : Res ArenaError JvmHeap := heap_tracing cap limits.

(** The heap of the command surface. *)
Definition surface_default : Res ArenaError JvmHeap :=
  match new_heap (N.to_nat 4096) {| l_objects := 4096; l_edges := 16384; l_stack := 4096; l_work := 65536; l_clears := 4096; l_finalizers := 0 |} with
  | Ok h => Ok h
  | NoFuel => NoFuel
  | _ => Panic
  end.

Definition live_len h : nat := size (a_objects (h_arena h)).

Definition jvm_allocate h (role : JvmRole) : Res ArenaError (ManagedId * JvmHeap) := heap_allocate h (with_edge_limits role default_limits).

Definition jvm_root h (id : ManagedId) : Res ArenaError (RootedHandle * JvmHeap) := heap_root h id.

Definition jvm_release_root h (r : RootedHandle) : Res ArenaError (ManagedId * JvmHeap) := heap_release_root h r.

(** [get_mut] advances the mutation epoch; what is written through it replaces
    the node. *)
Definition jvm_get_mut h (owner : ManagedId) : Res ArenaError (Node * JvmHeap) :=
  let? a := arena_modify (h_arena h) owner (fun o => o) in
  let? n := expect (a_objects a !! owner) in
  Ok (n, with_arena h a).

Definition jvm_put h (owner : ManagedId) (n : Node) : JvmHeap :=
  with_arena h (set_objects (h_arena h) (a_next_id (h_arena h)) (<[owner := n]> (a_objects (h_arena h)))).

(** A write of [owner] by a fallible operation on its node; when that fails the
    epoch has advanced. *)
Definition jvm_write {A} h (owner : ManagedId) (f : Node -> Res JvmGraphError (A * Node)) : Res JvmGraphError A * JvmHeap :=
  match jvm_get_mut h owner with
  | Ok (n, h) =>
    match f n with
    | Ok (x, n') => (Ok x, jvm_put h owner n')
    | Err e => (Err e, h)
    | Panic => (Panic, h)
    | NoFuel => (NoFuel, h)
    end
  | Err e => (Err (GArena e), h)
  | Panic => (Panic, h)
  | NoFuel => (NoFuel, h)
  end.

(** [self.heap.get(handle)?] before a write. *)
Definition checked_live {A} h (ids : list ManagedId) (k : Res JvmGraphError A * JvmHeap) : Res JvmGraphError A * JvmHeap :=
  match List.find (fun id => match a_objects (h_arena h) !! id with Some _ => false | None => true end) ids with
  | Some id => (Err (GArena (StaleHandle id)), h)
  | None => k
  end.

Definition jvm_strong h (owner : ManagedId) (edge : JvmEdge) (target : ManagedId) : Res JvmGraphError EdgeId * JvmHeap :=
  checked_live h [target] (jvm_write h owner (fun n =>
    let? p := policy (n_role n) in
    if negb (bool_decide (edge ∈ re_strong p)) then Err (InvalidEdge (n_role n) edge) else from_strong (insert_strong n target))).

Definition jvm_replace_strong h (owner : ManagedId) (edge : EdgeId) (expected replacement : ManagedId) : Res JvmGraphError unit * JvmHeap :=
  checked_live h [replacement] (jvm_write h owner (fun n => let? n := from_strong (replace_strong n edge expected replacement) in Ok (tt, n))).

Definition jvm_remove_strong h (owner : ManagedId) (edge : EdgeId) (expected : ManagedId) : Res JvmGraphError unit * JvmHeap :=
  jvm_write h owner (fun n => let? (_, n) := from_strong (remove_strong n edge expected) in Ok (tt, n)).

Definition jvm_weak h (owner : ManagedId) (edge : JvmEdge) (target : ManagedId) : Res JvmGraphError EdgeId * JvmHeap :=
  checked_live h [target] (jvm_write h owner (fun n =>
    let? p := policy (n_role n) in
    if negb (bool_decide (edge ∈ re_weak p)) then Err (InvalidEdge (n_role n) edge) else from_weak (insert_weak n target))).

Definition jvm_ephemeron h (owner : ManagedId) (edge : JvmEdge) (key value : ManagedId) : Res JvmGraphError EdgeId * JvmHeap :=
  checked_live h [key; value] (jvm_write h owner (fun n =>
    let? p := policy (n_role n) in
    if negb (bool_decide (edge ∈ re_ephemeron p)) then Err (InvalidEdge (n_role n) edge) else from_ephemeron (insert_ephemeron n key value))).

Definition jvm_collect h : Res CollectionError CollectionReceipt * JvmHeap :=
  let '(r, h) := heap_collect h in
  (let? x := r in expect x, h).

(** The temporary roots of a collection, registered in the order of the source;
    on an error those registered so far stay. *)
Fixpoint register_roots h (ids : list ManagedId) : Res CollectionError (list RootedHandle) * JvmHeap :=
  match ids with
  | [] => (Ok [], h)
  | id :: ids =>
    match let? handle := arena_handle (h_arena h) id in jvm_root h handle with
    | Ok (r, h) => let '(rs, h) := register_roots h ids in (rmap (cons r) rs, h)
    | Err e => (Err (CArena e), h)
    | Panic => (Panic, h)
    | NoFuel => (NoFuel, h)
    end
  end.

Fixpoint release_roots h (rs : list RootedHandle) : Res CollectionError unit * JvmHeap :=
  match rs with
  | [] => (Ok tt, h)
  | r :: rs =>
    match jvm_release_root h r with
    | Ok (_, h) => release_roots h rs
    | _ => (Panic, h)
    end
  end.

(** The check that the source visited everything is only made by debug builds. *)
Definition collect_from `{ManagedRootSource ManagedId Src} h (source : Src) : Res CollectionError CollectionReceipt * JvmHeap :=
  let identities := (visit_managed_roots source (fun l id => (l ++ [id], true)) []).1 in
  match register_roots h identities with
  | (Ok temporary, h) =>
    let '(result, h) := jvm_collect h in
    match release_roots h (rev temporary) with
    | (Ok _, h) => (result, h)
    | (_, h) => (Panic, h)
    end
  | (Err e, h) => (Err e, h)
  | (Panic, h) => (Panic, h)
  | (NoFuel, h) => (NoFuel, h)
  end.

(** ** Invariants *)

(** Monitors only have weak edges, caches only ephemerons, and the other roles
    only retaining edges. *)
Definition edge_allowed (r : JvmRole) (x : EdgeSnapshot) : Prop :=
  match r, x with
  | RMonitor, Weak _ _ | RCache, Ephemeron _ _ _ => True
  | RMonitor, _ | RCache, _ => False
  | _, Strong _ _ => True
  | _, _ => False
  end.

Record heap_ok h : Prop := {
  ho_arena : ArenaInv (h_arena h);
  ho_kept : a_kept_alive (h_arena h) = ∅;
  ho_policy : exists limits, h_policy h = Tracing limits;
  ho_allowed : forall id n x, a_objects (h_arena h) !! id = Some n -> x ∈ edge_snapshot n -> edge_allowed (n_role n) x;
  ho_closed : forall id n x t, a_objects (h_arena h) !! id = Some n -> x ∈ edge_snapshot n -> t ∈ edge_targets x -> is_Some (a_objects (h_arena h) !! t);
}.

Lemma policy_spec {E} r : exists p, policy r = (Ok p : Res E _) /\ re_role p = r.
Proof. destruct r; by eexists. Qed.

(** What the table admits is what the roles may have. *)
Lemma policy_allowed {E} r p e t k v edge : policy r = (Ok p : Res E _) ->
  (edge ∈ re_strong p -> edge_allowed r (Strong e t)) /\ (edge ∈ re_weak p -> edge_allowed r (Weak e t)) /\ (edge ∈ re_ephemeron p -> edge_allowed r (Ephemeron e k v)).
Proof. destruct r; intros [= <-]; cbn; split_and!; (done || intros ?%elem_of_nil; done). Qed.

Lemma new_heap_ok cap limits h : new_heap cap limits = Ok h -> heap_ok h.
Proof.
  intros Hn. apply rbind_Ok in Hn as (c & _ & [= <-]). split; cbn; [apply new_arena_inv|done|by eexists|by intros; simplify_map_eq..].
Qed.

Lemma jvm_allocate_ok h role id h' : heap_ok h -> jvm_allocate h role = Ok (id, h') -> heap_ok h'.
Proof.
  intros [Ha Hk Hp He Hc] Hs. apply rbind_Ok in Hs as ([id0 a'] & Hs & [= <- <-]).
  pose proof (arena_step_inv _ _ Ha (step_allocate _ _ _ _ Hs)) as [Ha' _]. unfold arena_allocate in Hs. case_match; [done|].
  apply rbind_Ok in Hs as (next & _ & (a1 & ->%advance_Ok & [= <- <-])%rbind_Ok). split; cbn in *; try done.
  - intros id n x. rewrite lookup_insert_Some. intros [[<- <-]|[_ Hn]]; [|by eapply He]. rewrite elem_of_edge_snapshot. by destruct x.
  - intros id n x t. rewrite lookup_insert_Some. intros [[<- <-]|[_ Hn]] Hx Ht.
    + rewrite elem_of_edge_snapshot in Hx. by destruct x.
    + apply lookup_insert_is_Some'. right. by eapply Hc.
Qed.

Lemma jvm_root_ok h id r h' : heap_ok h -> jvm_root h id = Ok (r, h') -> heap_ok h'.
Proof.
  intros [Ha Hk Hp He Hc] Hs. apply rbind_Ok in Hs as ([r0 a'] & Hs & [= <- <-]).
  pose proof (arena_step_inv _ _ Ha (step_root _ _ _ _ Hs)) as [Ha' _]. unfold arena_root in Hs.
  apply rbind_Ok in Hs as (n & _ & (next & _ & (a1 & ->%advance_Ok & [= <- <-])%rbind_Ok)%rbind_Ok). by split.
Qed.

Lemma jvm_release_root_ok h r id h' : heap_ok h -> jvm_release_root h r = Ok (id, h') -> heap_ok h'.
Proof.
  intros [Ha Hk Hp He Hc] Hs. apply rbind_Ok in Hs as ([r0 a'] & Hs & [= <- <-]).
  pose proof (arena_step_inv _ _ Ha (step_release_root _ _ _ _ Hs)) as [Ha' _]. unfold arena_release_root in Hs.
  destruct (a_roots _ !! _); [|done]. case_decide; [|done]. apply rbind_Ok in Hs as (a1 & ->%advance_Ok & [= <- <-]). by split.
Qed.

(** A write that keeps the role and adds only admitted edges to live nodes. *)
Definition keeps_edges h (n n' : Node) : Prop :=
  n_role n' = n_role n /\ forall x, x ∈ edge_snapshot n' ->
    x ∈ edge_snapshot n \/ edge_allowed (n_role n) x /\ forall t, t ∈ edge_targets x -> is_Some (a_objects (h_arena h) !! t).

Lemma jvm_get_mut_spec h owner n h1 : jvm_get_mut h owner = Ok (n, h1) ->
  a_objects (h_arena h) !! owner = Some n /\ h1 = with_arena h (set_epoch (h_arena h) (a_epoch (h_arena h) + 1)%N) /\
  forall n', arena_modify (h_arena h) owner (fun _ => n') = Ok (h_arena (jvm_put h1 owner n')).
Proof.
  intros Hs. apply rbind_Ok in Hs as (a & Hm & (n0 & Hn%expect_Ok & [= <- <-])%rbind_Ok). unfold arena_modify in *.
  destruct (a_objects (h_arena h) !! owner) as [n1|] eqn:Ho; [|done]. apply rbind_Ok in Hm as (a1 & He & (n2 & Hn2%expect_Ok & [= <-])%rbind_Ok).
  pose proof (advance_Ok _ _ He) as ->. cbn in *. rewrite Ho in Hn2. injection Hn2 as <-. rewrite lookup_insert_eq in Hn. injection Hn as <-. split; [done|].
  split; [|intros n'; rewrite He; cbn; rewrite Ho; cbn; unfold jvm_put; cbn; by rewrite insert_insert_eq].
  unfold with_arena, set_objects, set_epoch. cbn. f_equal. f_equal. by apply insert_id.
Qed.

Lemma jvm_write_ok {A} h owner (f : Node -> Res JvmGraphError (A * Node)) : heap_ok h ->
  (forall n x n', a_objects (h_arena h) !! owner = Some n -> f n = Ok (x, n') -> keeps_edges h n n') -> heap_ok (jvm_write h owner f).2.
Proof.
  intros Hok Hf. unfold jvm_write. destruct (jvm_get_mut h owner) as [[n h1]| | |] eqn:Eg; [|done..]. apply jvm_get_mut_spec in Eg as (Hn & -> & Hput).
  assert (heap_ok (with_arena h (set_epoch (h_arena h) (a_epoch (h_arena h) + 1)%N))) as H1.
  { destruct Hok as [Ha Hk Hp He Hc]. split; cbn; try done. destruct Ha as [? ? ? ? Hkept]. split; cbn; try done. rewrite Hk. by intros; simplify_map_eq. }
  destruct (f n) as [[x n']| | |] eqn:Ef; [|done..]. destruct (Hf n x n' Hn Ef) as [Hrole Hedges].
  destruct Hok as [Ha Hk Hp He Hc]. destruct (arena_step_inv _ _ Ha (step_modify _ _ _ _ (Hput n'))) as [Ha' _].
  assert (Hlive : forall t, is_Some (a_objects (h_arena h) !! t) -> is_Some (<[owner := n']> (a_objects (h_arena h)) !! t))
    by (intros t Ht; apply lookup_insert_is_Some'; by right).
  split; cbn in *; try done.
  - intros id m y. rewrite lookup_insert_Some. intros [[<- <-]|[_ Hm]] Hy; [|by eapply He]. rewrite Hrole. destruct (Hedges y Hy) as [Ho|[Hal _]]; [by eapply He|done].
  - intros id m y t. rewrite lookup_insert_Some. intros [[<- <-]|[_ Hm]] Hy Ht; apply Hlive; [|by eapply Hc]. destruct (Hedges y Hy) as [Ho|[_ Hl]]; [by eapply Hc|by apply Hl].
Qed.

Lemma checked_live_ok {A} h ids (k : Res JvmGraphError A * JvmHeap) : heap_ok h ->
  (Forall (fun id => is_Some (a_objects (h_arena h) !! id)) ids -> heap_ok k.2) -> heap_ok (checked_live h ids k).2.
Proof.
  intros Hok Hk. unfold checked_live. destruct (List.find _ ids) as [id|] eqn:Ef; [done|]. apply Hk. apply Forall_forall. intros id Hin.
  apply list_elem_of_In, (find_none _ _ Ef id) in Hin. destruct (a_objects (h_arena h) !! id); [by eexists|done].
Qed.

Lemma insert_strong_edges n target e n' : insert_strong n target = Ok (e, n') -> n_role n' = n_role n /\ forall x, x ∈ edge_snapshot n' -> x ∈ edge_snapshot n \/ x = Strong e target.
Proof.
  intros Hs. apply rbind_Ok in Hs as (_ & _ & ([e' edges] & _ & [= <- <-])%rbind_Ok). split; [done|]. intros x. rewrite !elem_of_edge_snapshot.
  destruct x as [i t|i t|i k v]; cbn; [|by left..]. rewrite lookup_insert_Some. intros [[<- <-]|[_ ?]]; [by right|by left].
Qed.

Lemma insert_weak_edges n target e n' : insert_weak n target = Ok (e, n') -> n_role n' = n_role n /\ forall x, x ∈ edge_snapshot n' -> x ∈ edge_snapshot n \/ x = Weak e target.
Proof.
  intros Hs. apply rbind_Ok in Hs as (_ & _ & ([e' edges] & _ & [= <- <-])%rbind_Ok). split; [done|]. intros x. rewrite !elem_of_edge_snapshot.
  destruct x as [i t|i t|i k v]; cbn; [by left| |by left]. rewrite lookup_insert_Some. intros [[<- <-]|[_ ?]]; [by right|by left].
Qed.

Lemma insert_ephemeron_edges n key value e n' : insert_ephemeron n key value = Ok (e, n') ->
  n_role n' = n_role n /\ forall x, x ∈ edge_snapshot n' -> x ∈ edge_snapshot n \/ x = Ephemeron e key value.
Proof.
  intros Hs. apply rbind_Ok in Hs as (_ & _ & ([e' edges] & _ & [= <- <-])%rbind_Ok). split; [done|]. intros x. rewrite !elem_of_edge_snapshot.
  destruct x as [i t|i t|i k v]; cbn; [by left|by left|]. rewrite lookup_insert_Some. intros [[<- [= -> ->]]|[_ ?]]; [by right|by left].
Qed.

Lemma from_strong_Ok {A} (r : Res EdgeMutationError A) x : from_strong r = Ok x <-> r = Ok x.
Proof. destruct r as [|[]| |]; naive_solver. Qed.

Lemma from_weak_Ok {A} (r : Res EdgeMutationError A) x : from_weak r = Ok x <-> r = Ok x.
Proof. destruct r as [|[]| |]; naive_solver. Qed.

Lemma from_ephemeron_Ok {A} (r : Res EphemeronMutationError A) x : from_ephemeron r = Ok x <-> r = Ok x.
Proof. destruct r as [|[]| |]; naive_solver. Qed.

Lemma jvm_strong_ok h owner edge target : heap_ok h -> heap_ok (jvm_strong h owner edge target).2.
Proof.
  intros Hok. apply checked_live_ok; [done|]. intros Hl. rewrite Forall_singleton in Hl. apply jvm_write_ok; [done|]. intros n x n' Hn Hf. apply rbind_Ok in Hf as (p & Hp & Hf).
  destruct (bool_decide _) eqn:Eb; [|done]. apply bool_decide_eq_true in Eb. apply from_strong_Ok, insert_strong_edges in Hf as [Hr Hx]. split; [done|].
  intros y [Hy| ->]%Hx; [by left|right]. split; [by apply (policy_allowed _ p _ _ 0%N 0%N edge Hp)|]. intros t ->%list_elem_of_singleton. exact Hl.
Qed.

Lemma jvm_weak_ok h owner edge target : heap_ok h -> heap_ok (jvm_weak h owner edge target).2.
Proof.
  intros Hok. apply checked_live_ok; [done|]. intros Hl. rewrite Forall_singleton in Hl. apply jvm_write_ok; [done|]. intros n x n' Hn Hf. apply rbind_Ok in Hf as (p & Hp & Hf).
  destruct (bool_decide _) eqn:Eb; [|done]. apply bool_decide_eq_true in Eb. apply from_weak_Ok, insert_weak_edges in Hf as [Hr Hx]. split; [done|].
  intros y [Hy| ->]%Hx; [by left|right]. split; [by apply (policy_allowed _ p _ _ 0%N 0%N edge Hp)|]. intros t ->%list_elem_of_singleton. exact Hl.
Qed.

Lemma jvm_ephemeron_ok h owner edge key value : heap_ok h -> heap_ok (jvm_ephemeron h owner edge key value).2.
Proof.
  intros Hok. apply checked_live_ok; [done|]. intros Hl. apply jvm_write_ok; [done|]. intros n x n' Hn Hf. apply rbind_Ok in Hf as (p & Hp & Hf).
  destruct (bool_decide _) eqn:Eb; [|done]. apply bool_decide_eq_true in Eb. apply from_ephemeron_Ok, insert_ephemeron_edges in Hf as [Hr Hx]. split; [done|].
  intros y [Hy| ->]%Hx; [by left|right]. split; [by apply (policy_allowed _ p _ 0%N _ _ edge Hp)|]. intros t Ht. by eapply Forall_forall in Hl.
Qed.

Lemma jvm_replace_strong_ok h owner edge expected replacement : heap_ok h -> heap_ok (jvm_replace_strong h owner edge expected replacement).2.
Proof.
  intros Hok. apply checked_live_ok; [done|]. intros Hl. rewrite Forall_singleton in Hl. apply jvm_write_ok; [done|]. intros n x n' Hn Hf.
  apply rbind_Ok in Hf as (n1 & Hf%from_strong_Ok & [= _ <-]). unfold replace_strong in Hf. destruct (other_kind _ _ _); [done|].
  apply rbind_Ok in Hf as (t & Ht%ok_or_Ok & Hf). case_decide; [|done]. injection Hf as <-. split; [done|]. intros y. rewrite !elem_of_edge_snapshot.
  destruct y as [i t'|i t'|i k v]; cbn; [|by left..]. rewrite lookup_insert_Some. intros [[<- <-]|[_ ?]]; [right|by left].
  split; [|by intros ? ->%list_elem_of_singleton]. pose proof (ho_allowed _ Hok owner n (Strong edge t) Hn) as Hal. rewrite elem_of_edge_snapshot in Hal. by apply Hal.
Qed.

Lemma jvm_remove_strong_ok h owner edge expected : heap_ok h -> heap_ok (jvm_remove_strong h owner edge expected).2.
Proof.
  intros Hok. apply jvm_write_ok; [done|]. intros n x n' Hn Hf. apply rbind_Ok in Hf as ([t n1] & Hf%from_strong_Ok & [= _ <-]).
  unfold remove_strong in Hf. destruct (other_kind _ _ _); [done|]. apply rbind_Ok in Hf as (t' & Ht%ok_or_Ok & Hf). case_decide; [|done]. injection Hf as _ <-.
  split; [done|]. intros y. rewrite !elem_of_edge_snapshot. left. destruct y; cbn in *; [|done..]. by apply lookup_delete_Some in H0 as [_ ?].
Qed.

(** ** Collections *)

(** Nodes with the roles they had. *)
Definition same_roles (m m' : BTreeMap N Node) : Prop := forall id n', m' !! id = Some n' -> exists n, m !! id = Some n /\ n_role n' = n_role n.

#[local] Instance same_roles_preorder : PreOrder same_roles.
Proof.
  split; [intros m id n Hn; by exists n|]. intros m1 m2 m3 H1 H2 id n (n2 & Hn2 & ->)%H2. apply H1 in Hn2 as (n1 & Hn1 & ->). by exists n1.
Qed.

Lemma clear_weak_role n e t : n_role (node_clear_weak n e t).2 = n_role n.
Proof. unfold node_clear_weak. destruct (n_weak n !! e); [case_decide|]; done. Qed.

Lemma clear_ephemeron_role n e k v : n_role (node_clear_ephemeron n e k v).2 = n_role n.
Proof. unfold node_clear_ephemeron. destruct (n_ephemerons n !! e); [case_decide|]; done. Qed.

Lemma same_roles_insert (m : BTreeMap N Node) id n n' : m !! id = Some n -> n_role n' = n_role n -> same_roles m (<[id := n']> m).
Proof. intros Hn Hr k x. rewrite lookup_insert_Some. intros [[<- <-]|[_ Hx]]; [by exists n|by exists x]. Qed.

Lemma clear_weak_entries_roles l : forall m : BTreeMap N Node, same_roles m (clear_weak_entries l m).2.
Proof.
  induction l as [|[[o e] t] l IH]; intros m; cbn [clear_weak_entries]; [done|]. destruct (m !! o) as [n|] eqn:Ho; [|apply IH].
  cbn [clear_weak_edge node_object]. pose proof (clear_weak_role n e t) as Hr. destruct (node_clear_weak n e t) as [d n']. cbn in Hr.
  specialize (IH (<[o := n']> m)). destruct (clear_weak_entries l (<[o := n']> m)) as [c m']. cbn. etrans; [|exact IH]. by eapply same_roles_insert.
Qed.

Lemma clear_ephemeron_entries_roles l : forall m : BTreeMap N Node, same_roles m (clear_ephemeron_entries l m).2.
Proof.
  induction l as [|[[[o e] k] v] l IH]; intros m; cbn [clear_ephemeron_entries]; [done|]. destruct (m !! o) as [n|] eqn:Ho; [|apply IH].
  cbn [clear_ephemeron_edge node_object]. pose proof (clear_ephemeron_role n e k v) as Hr. destruct (node_clear_ephemeron n e k v) as [d n']. cbn in Hr.
  specialize (IH (<[o := n']> m)). destruct (clear_ephemeron_entries l (<[o := n']> m)) as [c m']. cbn. etrans; [|exact IH]. by eapply same_roles_insert.
Qed.

(** What a collection leaves alone. *)
Record collect_frame (a a' : ManagedArena Node) : Prop := {
  cf_roles : same_roles (a_objects a) (a_objects a');
  cf_kept : a_kept_alive a = ∅ -> a_kept_alive a' = ∅;
  cf_epoch : (a_epoch a <= a_epoch a' <= a_epoch a + 1)%N;
}.

Lemma collect_frame_refl a : collect_frame a a.
Proof. split; [done|done|lia]. Qed.

Lemma apply_collection_frame (a : ManagedArena Node) e w ep swept r a' : apply_collection_at_epoch a e w ep swept = Ok (r, a') -> collect_frame a a'.
Proof.
  unfold apply_collection_at_epoch. case_decide; [|done]. intros Hs. apply rbind_Ok in Hs as (_ & _ & (a1 & Ha & Hs)%rbind_Ok).
  assert (a1 = a \/ a1 = set_epoch a (a_epoch a + 1)%N) as Ha1.
  { revert Ha. destruct w, ep, (filter _ swept); first [intros [= <-]; by left|intros ?%advance_Ok; by right]. }
  destruct (clear_weak_entries w (a_objects a1)) as [cw m1] eqn:E1. destruct (clear_ephemeron_entries ep m1) as [ce m2] eqn:E2. injection Hs as _ <-.
  split; cbn.
  - intros id n' Hn. apply sweep_objects_lookup in Hn as [Hn _].
    pose proof (clear_ephemeron_entries_roles ep m1) as H2. rewrite E2 in H2. apply H2 in Hn as (n1 & Hn1 & Hr1).
    pose proof (clear_weak_entries_roles w (a_objects a1)) as H1. rewrite E1 in H1. apply H1 in Hn1 as (n0 & Hn0 & Hr0).
    exists n0. split; [by destruct Ha1 as [->| ->]|congruence].
  - intros Hk. assert (a_kept_alive a1 = ∅) as -> by by destruct Ha1 as [->| ->]. apply map_filter_empty.
  - destruct Ha1 as [->| ->]; cbn; lia.
Qed.

Lemma collect_frames limits (a : ManagedArena Node) : collect_frame a (collect limits a).2.
Proof.
  unfold collect, collect_with_finalization, safepoint. destruct (ok_or _ _) as [next| | |]; cbn; [|apply collect_frame_refl..].
  assert (Hs : collect_frame a (set_safepoint a next)) by (split; [done|done|cbn; lia]).
  destruct (plan_collection _ limits) as [p| | |]; cbn; [|done..]. unfold apply_plan.
  match goal with |- context [match ?x with Ok _ => _ | _ => _ end] => destruct x as [[mu a']| | |] eqn:E end; cbn; [|done..].
  apply rbind_Ok in E as (_ & _ & (_ & _ & E%map_err_Ok)%rbind_Ok). apply apply_collection_frame in E.
  assert (collect_frame a a') as Hf by (destruct E; split; cbn in *; done). by destruct (enqueue_records _ _ _ _) as [[] ?].
Qed.

(** In a heap, everything reachable is live. *)
Lemma heap_reachable_live h id : heap_ok h -> reachable (take_snapshot (h_arena h)) id -> is_Some (a_objects (h_arena h) !! id).
Proof.
  intros Hok. induction 1 as [id Hr|id n e t _ _ Hn Hx|id n e k v _ _ Hn Hx _ _].
  - cbn in Hr. destruct Hr as [Hr|Hr].
    + unfold map_values in Hr. apply list_elem_of_fmap in Hr as ([r id'] & -> & Hin%elem_of_map_entries). by eapply (ai_roots _ (ho_arena _ Hok)).
    + unfold kept_at in Hr. rewrite (ho_kept _ Hok) in Hr. apply list_elem_of_omap in Hr as ([i e] & Hin%elem_of_map_entries & _). by simplify_map_eq.
  - eapply (ho_closed _ Hok); [exact Hn|exact Hx|]. by apply list_elem_of_singleton.
  - eapply (ho_closed _ Hok); [exact Hn|exact Hx|]. right. by apply list_elem_of_singleton.
Qed.

(** A refusal of a collection: a limit was passed, or a counter is used up. *)
Definition limit_refusal h (e : CollectionError) : Prop :=
  match e with
  | CLimit r => (fr_limit r < fr_required r)%N
  | CArena e => e = IdentityExhausted /\ ((usize_max <= a_next_safepoint (h_arena h))%N \/ (usize_max <= a_epoch (h_arena h))%N)
  end.

Definition collected h h' : Prop :=
  (forall id, is_Some (a_objects (h_arena h') !! id) <-> reachable (take_snapshot (h_arena h)) id) /\
  (forall id n', a_objects (h_arena h') !! id = Some n' -> exists n, a_objects (h_arena h) !! id = Some n /\ n_role n' = n_role n /\
     forall x, x ∈ edge_snapshot n' <-> x ∈ edge_snapshot n /\ survives (take_snapshot (h_arena h)) x).

Lemma jvm_collect_cases h : heap_ok h ->
  match jvm_collect h with
  | (Ok _, h') => heap_ok h' /\ collected h h' /\ a_roots (h_arena h') = a_roots (h_arena h) /\ (a_epoch (h_arena h') <= a_epoch (h_arena h) + 1)%N
  | (Err e, h') => heap_ok h' /\ a_objects (h_arena h') = a_objects (h_arena h) /\ a_roots (h_arena h') = a_roots (h_arena h) /\
      (a_epoch (h_arena h') <= a_epoch (h_arena h) + 1)%N /\ limit_refusal h e
  | _ => False
  end.
Proof.
  intros Hok. destruct (ho_policy _ Hok) as [limits Hl]. unfold jvm_collect, heap_collect. rewrite Hl.
  pose proof (collect_frames limits (h_arena h)) as [Froles Fkept Fep]. unfold collect in *.
  assert (QueueInv (new_queues 0 : JobQueues RuntimeJobClass unit)) as HQ by by apply new_queues_inv.
  pose proof (collection_atomic (fun _ => tt) (h_arena h) default_registry (new_queues 0) limits (ho_arena _ Hok) HQ) as Hat.
  destruct (collect_with_finalization _ limits _) as [r [[a' g'] q']] eqn:Ec. cbn in Froles, Fkept, Fep. destruct r as [r|e| |]; [|cbn in Hat|done..]; cbn.
  - apply collection_exact in Ec; [|apply Hok|done]. split_and!; [|split; [apply Ec|]|apply Ec|lia].
    + split; cbn; [apply Ec|by apply Fkept, Hok|by eexists| |apply Ec].
      intros id n' x Hn' Hx. destruct (ce_edges _ _ _ _ _ _ _ _ Ec id n' Hn') as (n & Hn & He). destruct (Froles id n' Hn') as (n0 & Hn0 & ->).
      assert (n0 = n) as -> by congruence. eapply (ho_allowed _ Hok); [exact Hn|]. by apply He.
    + cbn. intros id n' Hn'. destruct (ce_edges _ _ _ _ _ _ _ _ Ec id n' Hn') as (n & Hn & He). exists n. split; [done|]. split; [|done].
      destruct (Froles id n' Hn') as (n0 & Hn0 & ->). congruence.
  - destruct Hat as (Ha' & _ & _ & Hr). assert (limit_refusal h e) as Hlr.
    { destruct e as [fr|[]]; cbn in Hr |- *; try done; [by destruct Hr|]. destruct Hr as [Hre Hn]. apply (heap_reachable_live h) in Hre as [? ?]; [congruence|done]. }
    assert (a_objects a' = a_objects (h_arena h) /\ a_roots a' = a_roots (h_arena h)) as [Ho Hro] by by destruct Ha' as [->| ->].
    split_and!; [|done|done|cbn; lia|done]. destruct Hok as [HA Hk Hp He Hc]. split; cbn; rewrite ?Ho; try done; [|by apply Fkept].
    destruct HA. by destruct Ha' as [->| ->].
Qed.

(** ** Histories *)

Inductive heap_step : JvmHeap -> JvmHeap -> Prop :=
| hs_allocate h role id h' : jvm_allocate h role = Ok (id, h') -> heap_step h h'
| hs_root h id r h' : jvm_root h id = Ok (r, h') -> heap_step h h'
| hs_release h r id h' : jvm_release_root h r = Ok (id, h') -> heap_step h h'
| hs_strong h owner edge target : heap_step h (jvm_strong h owner edge target).2
| hs_replace h owner edge expected replacement : heap_step h (jvm_replace_strong h owner edge expected replacement).2
| hs_remove h owner edge expected : heap_step h (jvm_remove_strong h owner edge expected).2
| hs_weak h owner edge target : heap_step h (jvm_weak h owner edge target).2
| hs_ephemeron h owner edge key value : heap_step h (jvm_ephemeron h owner edge key value).2
| hs_collect h : heap_step h (jvm_collect h).2.

Lemma heap_step_ok h h' : heap_ok h -> heap_step h h' -> heap_ok h'.
Proof.
  intros Hok Hs. destruct Hs; eauto using jvm_allocate_ok, jvm_root_ok, jvm_release_root_ok, jvm_strong_ok, jvm_replace_strong_ok, jvm_remove_strong_ok,
    jvm_weak_ok, jvm_ephemeron_ok.
  pose proof (jvm_collect_cases h Hok) as Hc. destruct (jvm_collect h) as [[] h']; [apply Hc..|done|done].
Qed.

Lemma heap_steps_ok h h' : heap_ok h -> rtc heap_step h h' -> heap_ok h'.
Proof. intros Hok Hs. revert Hok. induction Hs; eauto using heap_step_ok. Qed.

Lemma from_weak_insert n target : from_weak (insert_weak n target) <> (Panic : Res JvmGraphError _).
Proof. unfold insert_weak, admit_edge, allocate_edge. repeat case_match; cbn; try done; destruct (n_edges n); cbn in *; done. Qed.

(** C36: Over any history of a JVM heap, monitors have only weak edges, caches
    only ephemerons and the other roles only retaining edges; no edge dangles;
    roots name live nodes and the cap holds.  So whatever is reachable is live,
    and a collection is refused only at one of its limits or when a counter is
    used up. *)
Theorem jvm_heap_history cap limits h0 h : new_heap cap limits = Ok h0 -> rtc heap_step h0 h ->
  heap_ok h /\ (forall id, reachable (take_snapshot (h_arena h)) id -> is_Some (a_objects (h_arena h) !! id)) /\
  match jvm_collect h with (Ok _, h') => collected h h' | (Err e, h') => a_objects (h_arena h') = a_objects (h_arena h) /\ limit_refusal h e | _ => False end.
Proof.
  intros Hn Hs. assert (heap_ok h) as Hok by (eapply heap_steps_ok; [by eapply new_heap_ok|done]). split; [done|].
  split; [intros id; by apply heap_reachable_live|]. pose proof (jvm_collect_cases h Hok) as Hc. destruct (jvm_collect h) as [[] h']; [apply Hc| |done|done].
  by destruct Hc as (_ & ? & _ & _ & ?).
Qed.

(** ** Collecting with the roots of a source *)

Definition add_roots (m : BTreeMap N ManagedId) (rs : list RootedHandle) : BTreeMap N ManagedId := foldl (fun m r => <[rh_root r := rh_handle r]> m) m rs.

Fixpoint fresh_roots (m : BTreeMap N ManagedId) (rs : list RootedHandle) : Prop :=
  match rs with [] => True | r :: rs => m !! rh_root r = None /\ fresh_roots (<[rh_root r := rh_handle r]> m) rs end.

Lemma fresh_roots_snoc rs r : forall m, fresh_roots m (rs ++ [r]) <-> fresh_roots m rs /\ add_roots m rs !! rh_root r = None.
Proof. induction rs as [|r' rs IH]; intros m; cbn; [tauto|]. rewrite IH. tauto. Qed.

Lemma add_roots_snoc m rs r : add_roots m (rs ++ [r]) = <[rh_root r := rh_handle r]> (add_roots m rs).
Proof. unfold add_roots. by rewrite foldl_snoc. Qed.

Lemma elem_of_roots (m : BTreeMap N ManagedId) id : id ∈ map_values m <-> exists r, m !! r = Some id.
Proof.
  unfold map_values. rewrite list_elem_of_fmap. split; [intros ([r id'] & -> & Hr%elem_of_map_entries); by exists r|].
  intros [r Hr]. exists (r, id). by rewrite elem_of_map_entries.
Qed.

(** The roots with those registered for the collection. *)
Lemma add_roots_values rs : forall m id, fresh_roots m rs -> id ∈ map_values (add_roots m rs) <-> id ∈ map_values m ++ (rh_handle <$> rs).
Proof.
  induction rs as [|r rs IH]; intros m id; cbn; [by rewrite app_nil_r|]. intros [Hn Hf]. fold (add_roots (<[rh_root r := rh_handle r]> m) rs). rewrite (IH _ id Hf).
  rewrite !elem_of_app, elem_of_cons, !elem_of_roots. split.
  - intros [[k Hk]|Hr]; [|tauto]. apply lookup_insert_Some in Hk as [[<- <-]|[_ Hk]]; [by right; left|]. left. by exists k.
  - intros [[k Hk]|[->|Hr]]; [| |tauto]; left; [exists k|exists (rh_root r); by rewrite lookup_insert_eq]. rewrite lookup_insert_ne; [done|]. intros Heq. congruence.
Qed.

(** Counters with room for [n] more roots. *)
Definition has_room h (n : nat) : Prop :=
  (a_epoch (h_arena h) + N.of_nat n <= usize_max)%N /\ (a_next_root (h_arena h) + N.of_nat n <= usize_max)%N.

Lemma register_roots_cases ids : forall h, heap_ok h -> has_room h (length ids) ->
  match register_roots h ids with
  | (Ok rs, h') => heap_ok h' /\ rh_handle <$> rs = ids /\ a_objects (h_arena h') = a_objects (h_arena h) /\
      a_roots (h_arena h') = add_roots (a_roots (h_arena h)) rs /\ fresh_roots (a_roots (h_arena h)) rs /\
      a_epoch (h_arena h') = (a_epoch (h_arena h) + N.of_nat (length ids))%N /\ a_next_safepoint (h_arena h') = a_next_safepoint (h_arena h)
  | (Err e, h') => heap_ok h' /\ a_objects (h_arena h') = a_objects (h_arena h) /\ exists rs pre id post, ids = pre ++ id :: post /\ rh_handle <$> rs = pre /\
      a_objects (h_arena h) !! id = None /\ e = CArena (StaleHandle id) /\ a_roots (h_arena h') = add_roots (a_roots (h_arena h)) rs
  | _ => False
  end.
Proof.
  induction ids as [|id ids IH]; intros h Hok [Hr1 Hr2]; cbn [register_roots]; [split_and!; try done; cbn; lia|].
  cbn [length] in Hr1, Hr2. unfold arena_handle. destruct (a_objects (h_arena h) !! id) as [n|] eqn:Hn; cbn [rbind].
  - unfold jvm_root, heap_root, arena_root, arena_get. rewrite Hn. cbn [ok_or rbind]. unfold checked_add.
    destruct (N.ltb_spec usize_max (a_next_root (h_arena h) + 1)); [lia|]. cbn [ok_or rbind]. unfold advance_mutation_epoch, checked_add.
    destruct (N.ltb_spec usize_max (a_epoch (h_arena h) + 1)); [lia|]. cbn [ok_or rbind].
    set (r := {| rh_root := a_next_root (h_arena h); rh_handle := id |}). set (h1 := with_arena h _).
    assert (jvm_root h id = Ok (r, h1)) as Hroot.
    { unfold jvm_root, heap_root, arena_root, arena_get, advance_mutation_epoch, checked_add. rewrite Hn. cbn [ok_or rbind].
      rewrite (proj2 (N.ltb_ge _ _)) by lia. cbn [ok_or rbind]. by rewrite (proj2 (N.ltb_ge _ _)) by lia. }
    assert (heap_ok h1) as Hok1 by by eapply jvm_root_ok.
    assert (a_roots (h_arena h) !! a_next_root (h_arena h) = None) as Hfr.
    { apply eq_None_not_Some. intros Hs%(ai_root_ids _ (ho_arena _ Hok)). lia. }
    assert (has_room h1 (length ids)) as Hroom by (split; cbn; lia). specialize (IH h1 Hok1 Hroom).
    destruct (register_roots h1 ids) as [[rs|e| |] h2]; cbn [rmap rbind]; [| |done|done].
    + destruct IH as (H1 & H2 & H3 & H4 & H5 & H6 & H7). split_and!; [done|cbn; by rewrite H2|done|exact H4|by split|cbn in *; lia|done].
    + destruct IH as (H1 & H2 & rs & pre & bad & post & -> & H3 & H4 & H5 & H6). split; [done|]. split; [done|].
      exists (r :: rs), (id :: pre), bad, post. split_and!; [done|cbn; by rewrite H3|done|done|done].
  - split; [done|]. split; [done|]. exists [], [], id, ids. done.
Qed.

Lemma release_roots_cases rs : forall h m, heap_ok h -> a_roots (h_arena h) = add_roots m rs -> fresh_roots m rs ->
  (a_epoch (h_arena h) + N.of_nat (length rs) <= usize_max)%N -> exists h', release_roots h (rev rs) = (Ok tt, h') /\ heap_ok h' /\
    a_objects (h_arena h') = a_objects (h_arena h) /\ a_roots (h_arena h') = m.
Proof.
  induction rs as [|r rs IH] using rev_ind; intros h m Hok Hr Hf He; [by exists h|]. rewrite rev_app_distr. cbn [rev app release_roots].
  rewrite add_roots_snoc in Hr. apply fresh_roots_snoc in Hf as [Hf Hn]. rewrite length_app in He. cbn [length] in He.
  unfold jvm_release_root, heap_release_root, arena_release_root. rewrite Hr, lookup_insert_eq, decide_True by done. unfold advance_mutation_epoch, checked_add.
  rewrite (proj2 (N.ltb_ge _ _)) by lia. cbn [ok_or rbind]. set (h1 := with_arena h _).
  assert (jvm_release_root h r = Ok (rh_handle r, h1)) as Hrel.
  { unfold jvm_release_root, heap_release_root, arena_release_root. rewrite Hr, lookup_insert_eq, decide_True by done. unfold advance_mutation_epoch, checked_add.
    by rewrite (proj2 (N.ltb_ge _ _)) by lia. }
  assert (heap_ok h1) as Hok1 by by eapply jvm_release_root_ok.
  destruct (IH h1 m Hok1) as (h' & Hh & Ho & Hob & Hro); [|done|cbn; lia|by exists h'].
  cbn. rewrite Hr. by rewrite delete_insert_id.
Qed.

(** Liveness from the roots of the heap and further ones. *)
Definition snapshot_with h (ids : list ManagedId) : TraceSnapshot Node :=
  {| ts_roots := map_values (a_roots (h_arena h)) ++ ids; ts_kept_alive := []; ts_objects := a_objects (h_arena h); ts_epoch := a_epoch (h_arena h) |}.

Lemma reachable_mono (s s' : TraceSnapshot Node) : ts_objects s = ts_objects s' ->
  (forall id, id ∈ ts_roots s \/ id ∈ ts_kept_alive s -> id ∈ ts_roots s' \/ id ∈ ts_kept_alive s') -> forall id, reachable s id -> reachable s' id.
Proof.
  intros Ho Hr id. induction 1 as [id Hid|id n e t _ IH Hn Hx|id n e k v _ IH Hn Hx _ IHk].
  - apply reach_root. by apply Hr.
  - eapply reach_strong; [exact IH| |exact Hx]. by rewrite <- Ho.
  - eapply reach_ephemeron; [exact IH| |exact Hx|exact IHk]. by rewrite <- Ho.
Qed.

Lemma registered_reachable h h1 rs ids : heap_ok h1 -> a_objects (h_arena h1) = a_objects (h_arena h) -> a_roots (h_arena h1) = add_roots (a_roots (h_arena h)) rs ->
  fresh_roots (a_roots (h_arena h)) rs -> rh_handle <$> rs = ids -> forall id, reachable (take_snapshot (h_arena h1)) id <-> reachable (snapshot_with h ids) id.
Proof.
  intros Hok Ho Hr Hf Hids id. assert (Hk : kept_at (h_arena h1) (a_epoch (h_arena h1)) = []).
  { unfold kept_at. rewrite (ho_kept _ Hok). destruct (map_entries ∅) as [|[k v] l] eqn:E; [done|]. assert ((k, v) ∈ map_entries (∅ : BTreeMap N N)) as Hx by (rewrite E; by left). apply elem_of_map_entries in Hx. by simplify_map_eq. }
  split; apply reachable_mono; cbn; try done; intros id'; rewrite Hk, Hr, add_roots_values, Hids by done; tauto.
Qed.

(** What a collection with further roots did. *)
Definition collected_with h ids h' : Prop :=
  (forall id, is_Some (a_objects (h_arena h') !! id) <-> reachable (snapshot_with h ids) id) /\
  (forall id n', a_objects (h_arena h') !! id = Some n' -> exists n, a_objects (h_arena h) !! id = Some n /\ n_role n' = n_role n /\
     forall x, x ∈ edge_snapshot n' <-> x ∈ edge_snapshot n /\ survives (snapshot_with h ids) x).

Lemma survives_ext (s s' : TraceSnapshot Node) x : (forall id, reachable s id <-> reachable s' id) -> survives s x <-> survives s' x.
Proof. intros He. destruct x; cbn; [done|apply He..]. Qed.

Section Source.
Context `{ManagedRootSource ManagedId Src}.

(** The identities a source publishes. *)
Definition identities (source : Src) : list ManagedId := (visit_managed_roots source (fun l id => (l ++ [id], true)) []).1.

(** A collection with the live roots of a machine source keeps exactly what
    is reachable from the roots of the heap and the source, and restores the
    roots.  At a limit nothing has changed but counters.  When the source
    publishes a dead identity the collection is refused, and the roots registered
    before it stay registered. *)
Theorem jvm_collect_from_exact h (source : Src) : heap_ok h -> has_room h (2 * length (identities source) + 2) ->
  match collect_from h source with
  | (Ok _, h') => heap_ok h' /\ collected_with h (identities source) h' /\ a_roots (h_arena h') = a_roots (h_arena h)
  | (Err e, h') => heap_ok h' /\ a_objects (h_arena h') = a_objects (h_arena h) /\
      (a_roots (h_arena h') = a_roots (h_arena h) /\ Forall (fun id => is_Some (a_objects (h_arena h) !! id)) (identities source) /\
         match e with CLimit r => (fr_limit r < fr_required r)%N | CArena e => e = IdentityExhausted /\ (usize_max <= a_next_safepoint (h_arena h))%N end \/
       exists rs id, a_objects (h_arena h) !! id = None /\ e = CArena (StaleHandle id) /\ (rh_handle <$> rs) ++ [id] `prefix_of` identities source /\
         a_roots (h_arena h') = add_roots (a_roots (h_arena h)) rs)
  | _ => False
  end.
Proof.
  intros Hok [Hr1 Hr2]. unfold collect_from. fold (identities source). set (ids := identities source) in *.
  pose proof (register_roots_cases ids h Hok) as Hreg. destruct (register_roots h ids) as [[rs|e| |] h1]; [| |apply Hreg; split; lia..].
  2: { destruct Hreg as (H1 & H2 & rs & pre & id & post & Hids & Hp & Hn & He & Hro); [split; lia|]. split; [done|]. split; [done|]. right. exists rs, id.
       split_and!; [done|done| |done]. rewrite Hp, Hids. exists post. by rewrite <- app_assoc. }
  destruct Hreg as (Hok1 & Hids & Ho1 & Hro1 & Hf & He1 & Hs1); [split; lia|]. pose proof (registered_reachable h h1 rs ids Hok1 Ho1 Hro1 Hf Hids) as Hre.
  assert (Hlen : length rs = length ids) by (rewrite <- Hids; by rewrite length_fmap).
  pose proof (jvm_collect_cases h1 Hok1) as Hc. destruct (jvm_collect h1) as [[r|e| |] h2]; [| |done|done].
  - destruct Hc as (Hok2 & [Hlive Hedges] & Hro2 & He2). destruct (release_roots_cases rs h2 (a_roots (h_arena h)) Hok2) as (h' & -> & Hok' & Hob' & Hro');
      [congruence|done|lia|]. split; [done|]. split; [|done]. split; intros id; rewrite Hob'.
    + rewrite Hlive. apply Hre.
    + intros n' Hn'. destruct (Hedges id n' Hn') as (n & Hn & Hrole & Hx). exists n. split; [congruence|]. split; [done|]. intros x. rewrite Hx.
      by rewrite (survives_ext _ _ x Hre).
  - destruct Hc as (Hok2 & Hob2 & Hro2 & He2 & Hlr). destruct (release_roots_cases rs h2 (a_roots (h_arena h)) Hok2) as (h' & -> & Hok' & Hob' & Hro');
      [congruence|done|lia|]. split; [done|]. split; [congruence|]. left. split; [done|]. split.
    + apply Forall_forall. intros id Hin. rewrite <- Ho1. apply (heap_reachable_live h1); [done|]. apply Hre. apply reach_root. left. cbn. apply elem_of_app. by right.
    + destruct e as [fr|e]; [done|]. cbn in Hlr. rewrite Hs1 in Hlr. destruct Hlr as [-> [?|?]]; [done|]. split; [done|]. lia.
Qed.
End Source.
