(* ===== verification/JvmLanes.v ===== *)
(** * Monitors and class initialization of the JVM profile

    crates/sim-lib-lang-jvm/src/monitor.rs and initialization.rs: the reentrant
    monitors of one execution lane, released by the cleanups of the frames that
    entered them, and the resumable sequence of actions that initializes a class
    once. *)

From stdpp Require Import gmap strings relations.
From S2P Require Import Prelude BTree MachineFrame MachineDriver ManagedNode ManagedArena GcCollector GcMarking JvmHeap.

Module Monitor.

(** ** Monitors *)

Record MonitorRecord := { mr_owner : N; mr_recursion : nat }.

Record Acquisition := { acq_object : ManagedId; acq_lane : N; acq_live : bool }.

Record MonitorState := { ms_records : gmap N MonitorRecord; ms_acquisitions : list Acquisition; ms_releases : list ManagedId }.

(** The condition of [MonitorError]. *)
Inductive MonitorError := IllegalMonitorState.

Implicit Types (s : MonitorState) (lane : N) (object : ManagedId) (token : nat).

Definition new_table : MonitorState := {| ms_records := ∅; ms_acquisitions := []; ms_releases := [] |}.

Definition recursion s object : nat := match ms_records s !! object with Some r => mr_recursion r | None => 0 end.

(** An acquisition is released once; the [expect] and the subtraction abort. *)
Definition release_token token s : Res MonitorError MonitorState :=
  match ms_acquisitions s !! token with
  | None => Ok s
  | Some a =>
    if negb (acq_live a) then Ok s
    else
      let? r := expect (ms_records s !! acq_object a) in
      if decide (mr_recursion r = 0) then Panic
      else
        let n := mr_recursion r - 1 in
        Ok {| ms_records := if decide (n = 0) then delete (acq_object a) (ms_records s)
                            else <[acq_object a := {| mr_owner := mr_owner r; mr_recursion := n |}]> (ms_records s);
              ms_acquisitions := <[token := {| acq_object := acq_object a; acq_lane := acq_lane a; acq_live := false |}]> (ms_acquisitions s);
              ms_releases := ms_releases s ++ [acq_object a] |}
  end.

(** The callback that [enter] registers. *)
Definition release_cleanup {U} token : U -> Res MonitorError MonitorState -> Res MonitorError MonitorState := fun _ w => let? s := w in release_token token s.

(** [debug_assertions] says whether the owner is checked. *)
Definition enter {U} (debug_assertions : bool) lane object s (cleanups : CleanupStack U (Res MonitorError MonitorState)) :
    Res MonitorError (MonitorState * CleanupStack U (Res MonitorError MonitorState)) :=
  let r := default {| mr_owner := lane; mr_recursion := 0 |} (ms_records s !! object) in
  if debug_assertions && negb (bool_decide (mr_owner r = lane)) then Panic
  else
    Ok ({| ms_records := <[object := {| mr_owner := mr_owner r; mr_recursion := Datatypes.S (mr_recursion r) |}]> (ms_records s);
           ms_acquisitions := ms_acquisitions s ++ [{| acq_object := object; acq_lane := lane; acq_live := true |}];
           ms_releases := ms_releases s |},
        cleanup_push cleanups (release_cleanup (length (ms_acquisitions s)))).

(** The newest live acquisition of an object by a lane. *)
Definition newest s lane object : option nat :=
  fst <$> List.find (fun ta => acq_live ta.2 && bool_decide (acq_object ta.2 = object) && bool_decide (acq_lane ta.2 = lane)) (rev (imap pair (ms_acquisitions s))).

Definition exit lane object s : Res MonitorError MonitorState :=
  let? token := ok_or IllegalMonitorState (newest s lane object) in release_token token s.

#[export] Instance visit_monitors : ManagedRootSource ManagedId MonitorState := fun St s visit st =>
  visit_managed_roots (acq_object <$> filter (fun a => acq_live a = true) (ms_acquisitions s)) visit st.

(** ** Balance *)

Definition live_of object (a : Acquisition) : Prop := acq_live a = true /\ acq_object a = object.

#[local] Instance live_of_dec object a : Decision (live_of object a).
Proof. unfold live_of. apply _. Defined.

Definition live_count object s : nat := length (filter (live_of object) (ms_acquisitions s)).

Record mon_inv s : Prop := {
  mi_count : forall o, recursion s o = live_count o s;
  mi_records : forall o r, ms_records s !! o = Some r -> mr_recursion r <> 0;
  mi_releases : ms_releases s ≡ₚ acq_object <$> filter (fun a => acq_live a = false) (ms_acquisitions s);
}.

Lemma new_table_inv : mon_inv new_table.
Proof. split; cbn; [done|by intros; simplify_map_eq|done]. Qed.

Lemma enter_inv {U} debug lane object s (c : CleanupStack U _) s' c' : mon_inv s -> enter debug lane object s c = Ok (s', c') -> mon_inv s'.
Proof.
  intros [Hc Hr Hp] He. unfold enter in He. destruct (debug && _); [done|]. injection He as <- _. specialize (Hc object) as Hco. split; cbn.
  - intros o. specialize (Hc o). unfold recursion, live_count in *. cbn. rewrite filter_app, length_app, filter_cons, filter_nil. unfold live_of at 2. cbn.
    destruct (decide (object = o)) as [->|Hne].
    + rewrite lookup_insert_eq, decide_True by done. cbn. destruct (ms_records s !! o) as [r|]; cbn in *; lia.
    + rewrite lookup_insert_ne by done. rewrite decide_False by (by intros [_ ?]). cbn. lia.
  - intros o r. rewrite lookup_insert_Some. intros [[<- <-]|[_ Ho]]; [done|by eapply Hr].
  - rewrite filter_app, fmap_app. cbn. by rewrite app_nil_r.
Qed.

(** Killing one acquisition in a list. *)
Definition killed (a : Acquisition) : Acquisition := {| acq_object := acq_object a; acq_lane := acq_lane a; acq_live := false |}.

Lemma kill_counts l token a : l !! token = Some a -> acq_live a = true ->
  (forall o, length (filter (live_of o) l) = length (filter (live_of o) (<[token := killed a]> l)) + if decide (acq_object a = o) then 1 else 0) /\
  acq_object <$> filter (fun a => acq_live a = false) (<[token := killed a]> l) ≡ₚ acq_object a :: (acq_object <$> filter (fun a => acq_live a = false) l).
Proof.
  intros Hl Hlive. rewrite (insert_take_drop l token (killed a)) by by eapply lookup_lt_Some. pose proof (take_drop_middle l token a Hl) as Hs.
  revert Hs. generalize (take token l), (drop (Datatypes.S token) l). intros l1 l2 <-. split.
  - intros o. rewrite !filter_app, !filter_cons, !length_app. rewrite (decide_False (P := live_of o (killed a))) by (by intros [? _]).
    destruct (decide (acq_object a = o)); [rewrite decide_True by done|rewrite decide_False by (by intros [_ ?])]; cbn; lia.
  - rewrite !filter_app, !filter_cons, !fmap_app. cbn. rewrite (decide_False (P := acq_live a = false)) by congruence. rewrite (decide_True (P := false = false)) by done. cbn. by rewrite <- Permutation_middle.
Qed.

(** A release of a live acquisition kills it; any other release does nothing. *)
Lemma release_token_spec token s : mon_inv s -> exists s', release_token token s = Ok s' /\ mon_inv s' /\
  match ms_acquisitions s !! token with
  | Some a => if acq_live a then ms_acquisitions s' = <[token := killed a]> (ms_acquisitions s) /\ ms_releases s' = ms_releases s ++ [acq_object a] else s' = s
  | None => s' = s
  end.
Proof.
  intros Hi. unfold release_token. destruct (ms_acquisitions s !! token) as [a|] eqn:Ha; [|by exists s]. destruct (acq_live a) eqn:Hl; cbn [negb]; [|by exists s].
  destruct Hi as [Hc Hr Hp]. destruct (kill_counts _ _ _ Ha Hl) as [Hk Hd].
  assert (live_count (acq_object a) s <> 0) as Hpos by (unfold live_count; rewrite Hk, decide_True by done; lia).
  pose proof (Hc (acq_object a)) as Hca. unfold recursion in Hca. destruct (ms_records s !! acq_object a) as [r|] eqn:Er; [|lia]. cbn [expect rbind].
  rewrite decide_False by by eapply Hr. eexists. split; [done|]. cbn. split; [|done]. split; cbn.
  - intros o. unfold live_count. cbn. specialize (Hc o). specialize (Hk o). unfold live_count, recursion in *. cbn.
    destruct (decide (acq_object a = o)) as [<-|Hne]; [rewrite Er in Hc|].
    + case_decide; [rewrite lookup_delete_eq; fold (killed a); lia|]. rewrite lookup_insert_eq. cbn. fold (killed a). lia.
    + fold (killed a). case_decide; [rewrite lookup_delete_ne by done|rewrite lookup_insert_ne by done]; lia.
  - intros o r'. case_decide as Hz; [rewrite lookup_delete_Some|rewrite lookup_insert_Some]; [intros [_ ?]; by eapply Hr|].
    intros [[_ <-]|[_ ?]]; [done|by eapply Hr].
  - fold (killed a). rewrite Hd, Hp. by rewrite <- Permutation_cons_append.
Qed.

(** ** Exits *)

Definition holds lane object (a : Acquisition) : Prop := acq_live a = true /\ acq_object a = object /\ acq_lane a = lane.

Lemma newest_spec s lane object :
  match newest s lane object with
  | Some t => (exists a, ms_acquisitions s !! t = Some a /\ holds lane object a) /\
      forall t' a, t < t' -> ms_acquisitions s !! t' = Some a -> ~ holds lane object a
  | None => forall t a, ms_acquisitions s !! t = Some a -> ~ holds lane object a
  end.
Proof.
  unfold newest. generalize (ms_acquisitions s) as l. induction l as [|a l IH] using rev_ind; [done|].
  rewrite imap_app, rev_app_distr. cbn [imap rev app List.find fst snd]. rewrite Nat.add_0_r. destruct (_ && _ && _) eqn:Em; cbn [fmap option_fmap option_map fst].
  - apply andb_prop in Em as [[Hl Ho%bool_decide_eq_true]%andb_prop Hln%bool_decide_eq_true]. split.
    + exists a. rewrite lookup_app_r, Nat.sub_diag by lia. done.
    + intros t' a' Hlt Ht'%lookup_lt_Some. rewrite length_app in Ht'. cbn in Ht'. lia.
  - assert (~ holds lane object a) as Hno.
    { intros (Hl & Ho & Hln). rewrite Hl, (bool_decide_true _ Ho), (bool_decide_true _ Hln) in Em. done. }
    destruct (fst <$> List.find _ (rev (imap pair l))) as [t|].
    + destruct IH as [(x & Hx & Hh) Hlater]. split; [exists x; split; [by apply lookup_app_l_Some|done]|]. intros t' a' Hlt Ha'.
      apply lookup_app_Some in Ha' as [Ha'|[_ Ha']]; [by eapply Hlater|]. apply list_lookup_singleton_Some in Ha' as [_ <-]. done.
    + intros t a' Ha'. apply lookup_app_Some in Ha' as [Ha'|[_ Ha']]; [by eapply IH|]. apply list_lookup_singleton_Some in Ha' as [_ <-]. done.
Qed.

(** The cleanups of a frame that entered the acquisitions [tokens], oldest
    first. *)
Definition frame_cleanups {U} (tokens : list nat) : CleanupStack U (Res MonitorError MonitorState) := release_cleanup <$> tokens.

(** What is left of an acquisition when the frame has gone. *)
Definition after_frame (tokens : list nat) (t : nat) (a : Acquisition) : Acquisition := if decide (t ∈ tokens) then killed a else a.

(** The objects of the live acquisitions of the frame, newest first. *)
Definition released_objects s (tokens : list nat) : list ManagedId :=
  omap (fun t => match ms_acquisitions s !! t with Some a => if acq_live a then Some (acq_object a) else None | None => None end) (rev tokens).

Lemma killed_idem a : acq_live a = false -> killed a = a.
Proof. destruct a. cbn. by intros ->. Qed.

Lemma unwind_frame {U} (tokens : list nat) (reason : U) : forall s, mon_inv s -> NoDup tokens ->
  exists s', unwind (frame_cleanups tokens) reason (Ok s) = Ok s' /\ mon_inv s' /\
    ms_acquisitions s' = imap (after_frame tokens) (ms_acquisitions s) /\ ms_releases s' = ms_releases s ++ released_objects s tokens.
Proof.
  induction tokens as [|t tokens IH] using rev_ind; intros s Hi Hn.
  { exists s. split_and!; [done|done| |by rewrite app_nil_r]. symmetry. apply list_eq. intros i. rewrite list_lookup_imap. by destruct (_ !! i). }
  unfold frame_cleanups. rewrite fmap_app. cbn [fmap list_fmap]. fold (cleanup_push (U := U) (release_cleanup <$> tokens) (release_cleanup t)).
  rewrite unwind_push. change (release_cleanup t reason (Ok s)) with (release_token t s). destruct (release_token_spec t s Hi) as (s1 & Hr & Hi1 & Hspec). rewrite Hr.
  apply NoDup_app in Hn as (Hn & Hnt & _). destruct (IH s1 Hi1 Hn) as (s' & Hu & Hi' & Ha & Hrel). exists s'. split; [exact Hu|]. split; [done|].
  assert (t ∉ tokens) as Hnin by (intros Hin; by apply (Hnt t Hin), list_elem_of_singleton).
  assert (forall i, i <> t -> ms_acquisitions s1 !! i = ms_acquisitions s !! i) as Hsame.
  { intros i Hi2. destruct (ms_acquisitions s !! t) as [a|]; [|by rewrite Hspec]. destruct (acq_live a); [|by rewrite Hspec]. destruct Hspec as [-> _]. by rewrite list_lookup_insert_ne. }
  split.
  - rewrite Ha. apply list_eq. intros i. rewrite !list_lookup_imap. destruct (decide (i = t)) as [->|Hne].
    + destruct (ms_acquisitions s !! t) as [a|] eqn:Et; [|by rewrite Hspec, Et]. cbn. unfold after_frame. rewrite (decide_True (P := t ∈ tokens ++ [t])) by set_solver.
      destruct (acq_live a) eqn:El; [destruct Hspec as [-> _]; rewrite list_lookup_insert_eq by by eapply lookup_lt_Some|rewrite Hspec, Et]; cbn;
        rewrite decide_False by done; [done|by rewrite killed_idem].
    + rewrite Hsame by done. destruct (ms_acquisitions s !! i); [|done]. cbn. unfold after_frame. f_equal. apply decide_ext. set_solver.
  - rewrite Hrel. unfold released_objects. rewrite rev_app_distr. cbn [rev app omap list_omap]. 
    assert (omap (fun t => match ms_acquisitions s1 !! t with Some a => if acq_live a then Some (acq_object a) else None | None => None end) (rev tokens) =
      omap (fun t => match ms_acquisitions s !! t with Some a => if acq_live a then Some (acq_object a) else None | None => None end) (rev tokens)) as ->.
    { apply list_omap_ext, Forall_Forall2_diag, Forall_forall. intros i Hin%list_elem_of_In%in_rev%list_elem_of_In. rewrite Hsame; [done|]. by intros ->. }
    destruct (ms_acquisitions s !! t) as [a|]; [|by rewrite Hspec]. destruct (acq_live a); [|by rewrite Hspec]. destruct Hspec as [_ ->]. by rewrite <- app_assoc.
Qed.

(** ** Histories

    The table, the cleanups that the open frames have registered, and the frame
    in which each acquisition was made. *)

Section Histories.
Context {U : Type} (debug : bool).
Abbreviation cleanups := (CleanupStack U (Res MonitorError MonitorState)).

Record World := { w_table : MonitorState; w_frames : gmap N cleanups; w_entered : list N }.

Definition new_world : World := {| w_table := new_table; w_frames := ∅; w_entered := [] |}.

(** Frames are opened, enter monitors, and are unwound for some reason; exits may
    come from any of them. *)
Inductive mon_step : World -> World -> Prop :=
| mon_open f w : w_frames w !! f = None -> f ∉ w_entered w ->
    mon_step w {| w_table := w_table w; w_frames := <[f := []]> (w_frames w); w_entered := w_entered w |}
| mon_enter f lane object w c s' c' : w_frames w !! f = Some c -> enter debug lane object (w_table w) c = Ok (s', c') ->
    mon_step w {| w_table := s'; w_frames := <[f := c']> (w_frames w); w_entered := w_entered w ++ [f] |}
| mon_exit lane object w s' : exit lane object (w_table w) = Ok s' ->
    mon_step w {| w_table := s'; w_frames := w_frames w; w_entered := w_entered w |}
| mon_unwind f (reason : U) w c s' : w_frames w !! f = Some c -> unwind c reason (Ok (w_table w)) = Ok s' ->
    mon_step w {| w_table := s'; w_frames := delete f (w_frames w); w_entered := w_entered w |}.

(** The acquisitions made in a frame, oldest first. *)
Definition tokens_of (f : N) (entered : list N) : list nat := fst <$> filter (fun tf => tf.2 = f) (imap pair entered).

Lemma elem_of_tokens f entered t : t ∈ tokens_of f entered <-> entered !! t = Some f.
Proof.
  unfold tokens_of. rewrite list_elem_of_fmap. setoid_rewrite list_elem_of_filter. setoid_rewrite elem_of_lookup_imap. split.
  - intros ([t' f'] & -> & Hf & i & x & [= -> ->] & Hx). cbn in *. by subst.
  - intros Ht. exists (t, f). split; [done|]. split; [done|]. by exists t, f.
Qed.

Lemma tokens_snoc f entered f' : tokens_of f (entered ++ [f']) = tokens_of f entered ++ (if decide (f' = f) then [length entered] else []).
Proof.
  unfold tokens_of. rewrite imap_app, filter_app, fmap_app. cbn [imap]. rewrite filter_cons, filter_nil. cbn. rewrite Nat.add_0_r. by case_decide.
Qed.

Lemma tokens_NoDup f entered : NoDup (tokens_of f entered).
Proof.
  induction entered as [|f' entered IH] using rev_ind; [constructor|]. rewrite tokens_snoc. apply NoDup_app. split; [done|]. case_decide; [|split; [by intros ? ? ?%elem_of_nil|constructor]].
  split; [|apply NoDup_singleton]. intros t Ht%elem_of_tokens%lookup_lt_Some ->%list_elem_of_singleton. lia.
Qed.

(** An open frame has registered the release of each of its acquisitions, and
    live acquisitions are those of open frames. *)
Record world_inv w : Prop := {
  wi_table : mon_inv (w_table w);
  wi_length : length (w_entered w) = length (ms_acquisitions (w_table w));
  wi_frames : forall f c, w_frames w !! f = Some c -> c = frame_cleanups (tokens_of f (w_entered w));
  wi_live : forall t a, ms_acquisitions (w_table w) !! t = Some a -> acq_live a = true -> exists f, w_entered w !! t = Some f /\ is_Some (w_frames w !! f);
}.

Lemma enter_cleanups lane object s (c c' : cleanups) s' : enter debug lane object s c = Ok (s', c') ->
  ms_acquisitions s' = ms_acquisitions s ++ [{| acq_object := object; acq_lane := lane; acq_live := true |}] /\ c' = c ++ [release_cleanup (length (ms_acquisitions s))].
Proof. unfold enter. destruct (debug && _); [done|]. by intros [= <- <-]. Qed.

Lemma mon_step_inv w w' : world_inv w -> mon_step w w' -> world_inv w'.
Proof.
  intros [Ht Hlen Hfr Hlive] Hs. destruct Hs as [f w Hf Hn|f lane object w c s' c' Hf He|lane object w s' He|f reason w c s' Hf Hu]; cbn [w_table w_frames w_entered] in *.
  - split; cbn [w_table w_frames w_entered]; [done|done| |].
    + intros f' c. rewrite lookup_insert_Some. intros [[<- <-]|[_ Hc]]; [|by apply Hfr]. assert (tokens_of f (w_entered w) = []) as ->; [|done].
      destruct (tokens_of f (w_entered w)) as [|t l] eqn:E; [done|]. exfalso. apply Hn. apply (list_elem_of_lookup_2 _ t), elem_of_tokens. rewrite E. left.
    + intros t a Ha Hl. destruct (Hlive t a Ha Hl) as (f' & Hf' & Ho). exists f'. split; [done|]. apply lookup_insert_is_Some'. by right.
  - pose proof (enter_inv _ _ _ _ _ _ _ Ht He) as Ht'. apply enter_cleanups in He as [Ha ->]. split; cbn [w_table w_frames w_entered]; [done| | |].
    + rewrite Ha, !length_app, Hlen. done.
    + intros f' c0. rewrite tokens_snoc, lookup_insert_Some. unfold frame_cleanups. intros [[<- <-]|[Hne Hc]].
      * rewrite decide_True by done. rewrite (Hfr _ _ Hf), Hlen. unfold frame_cleanups. by rewrite fmap_app.
      * rewrite decide_False by done. rewrite app_nil_r. by apply Hfr.
    + intros t a. rewrite Ha, lookup_app_Some. intros [Hold|[Hge Hnew]] Hl.
      * destruct (Hlive t a Hold Hl) as (f' & Hf' & Ho). exists f'. split; [by apply lookup_app_l_Some|]. apply lookup_insert_is_Some'. by right.
      * apply list_lookup_singleton_Some in Hnew as [H0 _]. exists f. split; [|rewrite lookup_insert_eq; by eexists]. rewrite lookup_app_r by lia. replace (t - length (w_entered w)) with 0 by lia. done.
  - unfold exit in He. apply rbind_Ok in He as (t & _ & He). destruct (release_token_spec t (w_table w) Ht) as (s'' & Hr & Hi & Hsp). assert (s'' = s') as -> by congruence.
    assert (length (ms_acquisitions s') = length (ms_acquisitions (w_table w)) /\ forall i a, ms_acquisitions s' !! i = Some a -> acq_live a = true -> ms_acquisitions (w_table w) !! i = Some a) as [Hl Hsub].
    { destruct (ms_acquisitions (w_table w) !! t) as [a|] eqn:Ea; [|by rewrite Hsp]. destruct (acq_live a); [|by rewrite Hsp]. destruct Hsp as [-> _]. split; [apply length_insert|].
      intros i a'. rewrite list_lookup_insert_Some. intros [(_ & <- & _)|[_ ?]]; done. }
    split; cbn [w_table w_frames w_entered]; [done|by rewrite Hl|done|]. intros i a Hi' Hlv. by apply (Hlive i a); [apply Hsub|].
  - rewrite (Hfr _ _ Hf) in Hu. destruct (unwind_frame (tokens_of f (w_entered w)) reason (w_table w) Ht (tokens_NoDup _ _)) as (s'' & Hu' & Hi & Ha & _). assert (s'' = s') as -> by congruence.
    split; cbn [w_table w_frames w_entered]; [done|by rewrite Ha, length_imap| |].
    + intros f' c'. rewrite lookup_delete_Some. intros [_ Hc]. by apply Hfr.
    + intros t a. rewrite Ha, list_lookup_imap. destruct (ms_acquisitions (w_table w) !! t) as [a0|] eqn:Ea; [|done]. cbn. unfold after_frame. case_decide as Hin; intros [= <-] Hl; [done|]. rewrite elem_of_tokens in Hin.
      destruct (Hlive t a0 Ea Hl) as (f' & Hf' & Ho). exists f'. split; [done|]. rewrite lookup_delete_ne; [done|]. congruence.
Qed.

Lemma mon_steps_inv w w' : world_inv w -> rtc mon_step w w' -> world_inv w'.
Proof. intros Hi Hs. revert Hi. induction Hs; eauto using mon_step_inv. Qed.

Lemma new_world_inv : world_inv new_world.
Proof. split; cbn; [apply new_table_inv|done|by intros; simplify_map_eq|done]. Qed.

(** C37: Over any history of frames that enter and exit monitors and are unwound,
    the recursion count of an object is the number of its live acquisitions, which
    are all of open frames, and every acquisition is released at most once; an exit
    releases the newest live acquisition of its lane, and fails exactly when there
    is none; unwinding an open frame with the cleanups that entering has
    registered releases exactly the acquisitions made in it that are still live,
    newest first, and no other. *)
Theorem monitor_balance w : rtc mon_step new_world w ->
  (forall o, recursion (w_table w) o = live_count o (w_table w)) /\
  ms_releases (w_table w) ≡ₚ acq_object <$> filter (fun a => acq_live a = false) (ms_acquisitions (w_table w)) /\
  (forall t a, ms_acquisitions (w_table w) !! t = Some a -> acq_live a = true -> exists f, w_entered w !! t = Some f /\ is_Some (w_frames w !! f)) /\
  (forall lane object, match exit lane object (w_table w) with
    | Ok s' => exists t a, ms_acquisitions (w_table w) !! t = Some a /\ holds lane object a /\
        (forall t' a', t < t' -> ms_acquisitions (w_table w) !! t' = Some a' -> ~ holds lane object a') /\
        ms_acquisitions s' = <[t := killed a]> (ms_acquisitions (w_table w)) /\ ms_releases s' = ms_releases (w_table w) ++ [object]
    | Err _ => forall t a, ms_acquisitions (w_table w) !! t = Some a -> ~ holds lane object a
    | _ => False
    end) /\
  (forall f c reason, w_frames w !! f = Some c -> exists s', unwind c reason (Ok (w_table w)) = Ok s' /\
    ms_acquisitions s' = imap (fun t a => if decide (w_entered w !! t = Some f) then killed a else a) (ms_acquisitions (w_table w)) /\
    ms_releases s' = ms_releases (w_table w) ++ released_objects (w_table w) (tokens_of f (w_entered w)) /\ (forall o, recursion s' o = live_count o s')).
Proof.
  intros Hs. apply (mon_steps_inv new_world) in Hs; [|apply new_world_inv]. destruct Hs as [Hi Hlen Hfr Hlive]. split_and!; [apply Hi|apply Hi|done| |].
  - intros lane object. unfold exit. pose proof (newest_spec (w_table w) lane object) as Hnw. destruct (newest _ lane object) as [t|]; cbn [ok_or rbind]; [|done].
    destruct Hnw as [(a & Ha & Hh) Hl]. destruct (release_token_spec t _ Hi) as (s' & -> & _ & Hsp). rewrite Ha in Hsp. destruct Hh as (Hlv & Ho & Hln). rewrite Hlv in Hsp.
    exists t, a. rewrite <- Ho. destruct Hsp. split_and!; try done. rewrite Ho. done.
  - intros f c reason Hf. rewrite (Hfr _ _ Hf). destruct (unwind_frame (tokens_of f (w_entered w)) reason _ Hi (tokens_NoDup _ _)) as (s' & Hu & Hi' & Ha & Hr). exists s'.
    split_and!; [done| |done|apply Hi']. rewrite Ha. apply imap_ext. intros t a _. unfold after_frame. apply decide_ext, elem_of_tokens.
Qed.
End Histories.
End Monitor.

Module Initialization.
Section Initialization.
Context {Raised : Type}.

(** ** Plans *)

Inductive InitializationAction :=
| InstallStaticConstants
| InitializeSuperclass (name : string)
| InitializeSuperinterface (name : string)
| InvokeClassInitializer.

Record InitializationPlan := { plan_class : string; plan_actions : list InitializationAction }.

Inductive InitializationError :=
| PlanLimit (required limit : nat)
| LaneBusy
| NoPendingAction
| AlreadyComplete
| Graph (e : JvmGraphError).

Definition new_plan (class : string) (superclass : option string) (interfaces : list string) (has_initializer : bool) (max_actions : nat) :
    Res InitializationError InitializationPlan :=
  let actions := [InstallStaticConstants] ++ match superclass with Some s => [InitializeSuperclass s] | None => [] end ++
    (InitializeSuperinterface <$> interfaces) ++ (if has_initializer then [InvokeClassInitializer] else []) in
  if (max_actions <? length actions)%nat then Err (PlanLimit (length actions) max_actions) else Ok {| plan_class := class; plan_actions := actions |}.

(** ** The state of a class *)

Inductive ClassInitializationState :=
| Uninitialized
| Initializing (lane : N) (cursor : nat)
| Initialized
| Erroneous.

Inductive InitializationResume :=
| RAction (a : InitializationAction)
| RReentrant
| RInitialized
| RErroneous (failure : Raised).

Record ClassInitialization := {
  ci_plan : InitializationPlan;
  ci_mirror : ManagedId;
  ci_state : ClassInitializationState;
  ci_pending : bool;
  ci_failure : option Raised;
  ci_failure_root : option RootedHandle;
}.

Implicit Types (c : ClassInitialization) (lane : N).

Definition new_initialization (plan : InitializationPlan) (mirror : ManagedId) : ClassInitialization :=
  {| ci_plan := plan; ci_mirror := mirror; ci_state := Uninitialized; ci_pending := false; ci_failure := None; ci_failure_root := None |}.

Definition with_state c (st : ClassInitializationState) (pending : bool) : ClassInitialization :=
  {| ci_plan := ci_plan c; ci_mirror := ci_mirror c; ci_state := st; ci_pending := pending; ci_failure := ci_failure c; ci_failure_root := ci_failure_root c |}.

(** The next action, or the end of the plan. *)
Definition issue c (cursor : nat) : InitializationResume * ClassInitialization :=
  match plan_actions (ci_plan c) !! cursor with
  | Some a => (RAction a, with_state c (ci_state c) true)
  | None => (RInitialized, with_state c Initialized (ci_pending c))
  end.

Definition resume lane c : Res InitializationError (InitializationResume * ClassInitialization) :=
  match ci_state c with
  | Uninitialized => Ok (issue (with_state c (Initializing lane 0) (ci_pending c)) 0)
  | Initializing owner cursor =>
    if decide (owner = lane) then if ci_pending c then Ok (RReentrant, c) else Ok (issue c cursor) else Err LaneBusy
  | Initialized => Ok (RInitialized, c)
  | Erroneous => let? f := expect (ci_failure c) in Ok (RErroneous f, c)
  end.

Definition complete_action lane c : Res InitializationError ClassInitialization :=
  match ci_state c with
  | Initializing owner cursor =>
    if decide (owner <> lane) then Err LaneBusy
    else if negb (ci_pending c) then Err NoPendingAction
    else Ok (with_state c (Initializing lane (Datatypes.S cursor)) false)
  | _ => Err AlreadyComplete
  end.

(** The wrapper of an abrupt completion, with its cause, under a root. *)
Definition wrap_failure (heap : JvmHeap) (original : ManagedId) : Res InitializationError RootedHandle * JvmHeap :=
  match jvm_allocate heap RThrowable with
  | Ok (wrapper, heap) =>
    match jvm_strong heap wrapper ECause original with
    | (Ok _, heap) =>
      match jvm_root heap wrapper with
      | Ok (root, heap) => (Ok root, heap)
      | Err e => (Err (Graph (GArena e)), heap)
      | Panic => (Panic, heap)
      | NoFuel => (NoFuel, heap)
      end
    | (Err e, heap) => (Err (Graph e), heap)
    | (Panic, heap) => (Panic, heap)
    | (NoFuel, heap) => (NoFuel, heap)
    end
  | Err e => (Err (Graph (GArena e)), heap)
  | Panic => (Panic, heap)
  | NoFuel => (NoFuel, heap)
  end.

Definition fail (heap : JvmHeap) lane (original : ManagedId) (original_raised : Raised) (wrap : Raised -> Raised) c :
    Res InitializationError Raised * ClassInitialization * JvmHeap :=
  match ci_state c with
  | Initializing owner _ =>
    if decide (owner = lane) then
      match wrap_failure heap original with
      | (Ok root, heap) =>
        let raised := wrap original_raised in
        (Ok raised, {| ci_plan := ci_plan c; ci_mirror := ci_mirror c; ci_state := Erroneous; ci_pending := false;
                       ci_failure := Some raised; ci_failure_root := Some root |}, heap)
      | (Err e, heap) => (Err e, c, heap)
      | (Panic, heap) => (Panic, c, heap)
      | (NoFuel, heap) => (NoFuel, c, heap)
      end
    else (Err LaneBusy, c, heap)
  | _ => (Err AlreadyComplete, c, heap)
  end.

(** [failure_root.take()] comes first. *)
Definition release_failure (heap : JvmHeap) c : Res InitializationError unit * ClassInitialization * JvmHeap :=
  match ci_failure_root c with
  | None => (Ok tt, c, heap)
  | Some root =>
    let c := {| ci_plan := ci_plan c; ci_mirror := ci_mirror c; ci_state := ci_state c; ci_pending := ci_pending c; ci_failure := ci_failure c; ci_failure_root := None |} in
    match jvm_release_root heap root with
    | Ok (_, heap) => (Ok tt, c, heap)
    | Err e => (Err (Graph (GArena e)), c, heap)
    | Panic => (Panic, c, heap)
    | NoFuel => (NoFuel, c, heap)
    end
  end.

Record InitializationSnapshot := { snap_class : string; snap_state : ClassInitializationState; snap_action_count : nat }.

Definition initialization_snapshot c : InitializationSnapshot :=
  {| snap_class := plan_class (ci_plan c); snap_state := ci_state c; snap_action_count := length (plan_actions (ci_plan c)) |}.

#[export] Instance visit_initialization : ManagedRootSource ManagedId ClassInitialization := fun St c visit st =>
  let '(st, more) := visit st (ci_mirror c) in
  if negb more then (st, false) else match ci_failure_root c with Some r => visit st (rh_handle r) | None => (st, true) end.

(** ** Histories

    A heap, the class, the log of completed actions with who completed them, and
    the throwable that made the initialization fail. *)

Abbreviation log := (list (N * option InitializationAction)).

Record World := { w_heap : JvmHeap; w_class : ClassInitialization; w_log : log; w_cause : option ManagedId }.

(** What the rest of the program does with the heap: it does not have the root of
    the failure, and does not write to the wrapper under it. *)
Inductive other_step (failure : option RootedHandle) : JvmHeap -> JvmHeap -> Prop :=
| os_allocate h role id h' : jvm_allocate h role = Ok (id, h') -> other_step failure h h'
| os_root h id r h' : jvm_root h id = Ok (r, h') -> other_step failure h h'
| os_release h r id h' : (forall f, failure = Some f -> rh_root r <> rh_root f) -> jvm_release_root h r = Ok (id, h') -> other_step failure h h'
| os_strong h owner edge target : (forall f, failure = Some f -> owner <> rh_handle f) -> other_step failure h (jvm_strong h owner edge target).2
| os_replace h owner edge expected replacement : (forall f, failure = Some f -> owner <> rh_handle f) -> other_step failure h (jvm_replace_strong h owner edge expected replacement).2
| os_remove h owner edge expected : (forall f, failure = Some f -> owner <> rh_handle f) -> other_step failure h (jvm_remove_strong h owner edge expected).2
| os_weak h owner edge target : (forall f, failure = Some f -> owner <> rh_handle f) -> other_step failure h (jvm_weak h owner edge target).2
| os_ephemeron h owner edge key value : (forall f, failure = Some f -> owner <> rh_handle f) -> other_step failure h (jvm_ephemeron h owner edge key value).2
| os_collect h : other_step failure h (jvm_collect h).2.

(** The action that the cursor is at. *)
Definition current_action c : option InitializationAction :=
  match ci_state c with Initializing _ cursor => plan_actions (ci_plan c) !! cursor | _ => None end.

(** Any lane may call any operation at any time. *)
Inductive init_step : World -> World -> Prop :=
| is_resume lane w r c' : resume lane (w_class w) = Ok (r, c') ->
    init_step w {| w_heap := w_heap w; w_class := c'; w_log := w_log w; w_cause := w_cause w |}
| is_complete lane w c' : complete_action lane (w_class w) = Ok c' ->
    init_step w {| w_heap := w_heap w; w_class := c'; w_log := w_log w ++ [(lane, current_action (w_class w))]; w_cause := w_cause w |}
| is_fail lane original r wrap w x c' heap' : fail (w_heap w) lane original r wrap (w_class w) = (x, c', heap') ->
    init_step w {| w_heap := heap'; w_class := c'; w_log := w_log w; w_cause := match x with Ok _ => Some original | _ => w_cause w end |}
| is_release w x c' heap' : release_failure (w_heap w) (w_class w) = (x, c', heap') ->
    init_step w {| w_heap := heap'; w_class := c'; w_log := w_log w; w_cause := w_cause w |}
| is_heap w h' : other_step (ci_failure_root (w_class w)) (w_heap w) h' ->
    init_step w {| w_heap := h'; w_class := w_class w; w_log := w_log w; w_cause := w_cause w |}.

(** The first [n] actions of the plan, done by one lane. *)
Definition done_by lane (p : InitializationPlan) (n : nat) : log := (fun a => (lane, Some a)) <$> take n (plan_actions p).

Record init_inv (p : InitializationPlan) c (l : log) : Prop := {
  ii_plan : ci_plan c = p;
  ii_pending : ci_pending c = true -> exists lane cursor, ci_state c = Initializing lane cursor /\ cursor < length (plan_actions p);
  ii_log : match ci_state c with
    | Uninitialized => l = []
    | Initializing lane cursor => cursor <= length (plan_actions p) /\ l = done_by lane p cursor
    | Initialized => exists lane, l = done_by lane p (length (plan_actions p))
    | Erroneous => exists lane cursor, cursor <= length (plan_actions p) /\ l = done_by lane p cursor
    end;
  ii_failure : is_Some (ci_failure c) <-> ci_state c = Erroneous;
}.

Lemma new_initialization_inv p mirror : init_inv p (new_initialization p mirror) [].
Proof. split; cbn; try done. Qed.

Lemma resume_inv p lane c l r c' : init_inv p c l -> resume lane c = Ok (r, c') -> init_inv p c' l.
Proof.
  intros [Hp Hpe Hl Hf] Hr. unfold resume in Hr. destruct (ci_state c) as [|owner cursor| |] eqn:Es; cbn in Hl.
  - destruct (ci_pending c) eqn:Epe; [by destruct Hpe as (? & ? & ? & _)|]. unfold issue in Hr. cbn in Hr. rewrite Hp in Hr.
    destruct (plan_actions p !! 0) as [a|] eqn:Ea; injection Hr as <- <-.
    + split; cbn; [done| |by split; [lia|]|by rewrite Hf]. intros _. exists lane, 0. split; [done|]. by eapply lookup_lt_Some.
    + apply lookup_ge_None in Ea. split; cbn; [done|done| |by rewrite Hf]. exists lane. subst l. unfold done_by. by destruct (plan_actions p); cbn in *; [|lia].
  - case_decide as Hlane; [subst owner|done]. destruct (ci_pending c) eqn:Epe; [injection Hr as <- <-; split; rewrite ?Es; try done; by rewrite Epe|].
    destruct Hl as [Hc Hl]. unfold issue in Hr. rewrite Hp in Hr. destruct (plan_actions p !! cursor) as [a|] eqn:Ea; injection Hr as <- <-.
    + split; cbn; rewrite ?Es; [done| |done|by rewrite Hf]. intros _. exists lane, cursor. split; [done|]. by eapply lookup_lt_Some.
    + apply lookup_ge_None in Ea. split; cbn; [done|by rewrite Epe| |rewrite Hf; by split]. exists lane. subst l. unfold done_by. by rewrite !take_ge by lia.
  - injection Hr as <- <-. by split; rewrite ?Es.
  - apply rbind_Ok in Hr as (f & _ & [= <- <-]). by split; rewrite ?Es.
Qed.

(** Exactly what a completion does. *)
Lemma complete_cases p lane c l : init_inv p c l ->
  match complete_action lane c with
  | Ok c' => exists n a, ci_state c = Initializing lane n /\ ci_pending c = true /\ plan_actions p !! n = Some a /\ c' = with_state c (Initializing lane (Datatypes.S n)) false
  | Err LaneBusy => exists owner n, ci_state c = Initializing owner n /\ owner <> lane
  | Err NoPendingAction => exists n, ci_state c = Initializing lane n /\ ci_pending c = false
  | Err AlreadyComplete => forall owner n, ci_state c <> Initializing owner n
  | _ => False
  end.
Proof.
  intros [Hp Hpe Hl Hf]. unfold complete_action. destruct (ci_state c) as [|owner n| |] eqn:Es; try done. case_decide as Ho; [by exists owner, n|]. subst owner.
  destruct (ci_pending c) eqn:Epe; cbn [negb]; [|by exists n]. destruct (Hpe eq_refl) as (lane' & n' & [= <- <-] & Hlt). destruct (lookup_lt_is_Some_2 _ _ Hlt) as [a Ha]. by exists n, a.
Qed.

Lemma complete_inv p lane c l c' : init_inv p c l -> complete_action lane c = Ok c' -> init_inv p c' (l ++ [(lane, current_action c)]).
Proof.
  intros Hi Hc. pose proof (complete_cases p lane c l Hi) as Hcc. rewrite Hc in Hcc. destruct Hcc as (n & a & Hs & _ & Ha & ->). destruct Hi as [Hp Hpe Hl Hf]. unfold current_action. rewrite Hs in Hl |- *.
  rewrite Hp, Ha. destruct Hl as [Hle ->]. split; cbn; [done|done| |rewrite Hf, Hs; by split].
  split; [by apply lookup_lt_Some in Ha|]. unfold done_by. rewrite (take_S_r _ _ _ Ha), fmap_app. done.
Qed.

Lemma fail_cases heap lane original r wrap c x c' heap' : fail heap lane original r wrap c = (x, c', heap') ->
  c' = c \/ (exists cursor root, ci_state c = Initializing lane cursor /\ wrap_failure heap original = (Ok root, heap') /\ x = Ok (wrap r) /\
    c' = {| ci_plan := ci_plan c; ci_mirror := ci_mirror c; ci_state := Erroneous; ci_pending := false; ci_failure := Some (wrap r); ci_failure_root := Some root |}).
Proof.
  unfold fail. destruct (ci_state c) as [|owner cursor| |]; try (intros [= <- <- <-]; by left). case_decide as Hl; [subst owner|intros [= <- <- <-]; by left].
  destruct (wrap_failure heap original) as [[root| | |] h] eqn:Ew; intros [= <- <- <-]; try (by left). right. by exists cursor, root.
Qed.

Lemma release_failure_cases heap c x c' heap' : release_failure heap c = (x, c', heap') ->
  ci_plan c' = ci_plan c /\ ci_state c' = ci_state c /\ ci_pending c' = ci_pending c /\ ci_failure c' = ci_failure c.
Proof. unfold release_failure. destruct (ci_failure_root c); [|by intros [= <- <- <-]]. by destruct (jvm_release_root _ _) as [[? ?]| | |]; intros [= <- <- <-]. Qed.

Lemma init_step_inv p w w' : init_inv p (w_class w) (w_log w) -> init_step w w' -> init_inv p (w_class w') (w_log w').
Proof.
  intros Hi Hs. destruct Hs as [lane w r c' Hr|lane w c' Hc|lane original r wrap w x c' heap' Hf|w x c' heap' Hf|w h' _]; cbn in *.
  - by eapply resume_inv.
  - by eapply complete_inv.
  - apply fail_cases in Hf as [->|(cursor & root & Hst & _ & _ & ->)]; [done|]. destruct Hi as [Hp Hpe Hl Hff]. split; cbn; [done|done| |by split].
    rewrite Hst in Hl. destruct Hl. by exists lane, cursor.
  - apply release_failure_cases in Hf as (H1 & H2 & H3 & H4). destruct Hi as [Hp Hpe Hl Hff]. split; rewrite ?H1, ?H2, ?H3, ?H4; done.
  - done.
Qed.

(** What later steps keep. *)
Definition keeps (p : InitializationPlan) c (l : log) c' (l' : log) : Prop :=
  match ci_state c with
  | Uninitialized => True
  | Initializing lane cursor => l `prefix_of` l' /\ (exists n, l' = done_by lane p n) /\ ci_state c' <> Uninitialized /\
      forall lane' n, ci_state c' = Initializing lane' n -> lane' = lane /\ cursor <= n
  | Initialized => ci_state c' = Initialized /\ l' = l
  | Erroneous => ci_state c' = Erroneous /\ ci_failure c' = ci_failure c /\ l' = l
  end.

Lemma keeps_same p c l c' : init_inv p c l -> ci_state c' = ci_state c -> ci_failure c' = ci_failure c -> keeps p c l c' l.
Proof.
  intros [Hp Hpe Hl Hf] Hs Hfa. unfold keeps. rewrite Hs, Hfa. destruct (ci_state c) as [|lane cursor| |]; try done. destruct Hl as [_ Hl].
  split; [done|]. split; [by exists cursor|]. split; [done|]. by intros ?? [= -> ->].
Qed.

Lemma init_step_keeps p w w' : init_inv p (w_class w) (w_log w) -> init_step w w' -> keeps p (w_class w) (w_log w) (w_class w') (w_log w').
Proof.
  intros Hi Hs. pose proof (init_step_inv p w w' Hi Hs) as [_ _ Hl' _]. pose proof Hi as [Hp Hpe Hl Hf].
  destruct Hs as [lane w r c' Hr|lane w c' Hc|lane original r wrap w x c' heap' Hff|w x c' heap' Hff|w h' _]; cbn in *.
  - unfold resume in Hr. unfold keeps. destruct (ci_state (w_class w)) as [|owner cursor| |] eqn:Es; [done| | |].
    + destruct Hl as [Hc Hl]. split; [done|]. split; [by exists cursor|]. case_decide; [subst owner|done]. destruct (ci_pending _); [injection Hr as <- <-; rewrite Es; by split; [|intros ?? [= -> ->]]|].
      unfold issue in Hr. destruct (plan_actions _ !! cursor); injection Hr as <- <-; cbn; rewrite ?Es; (split; [done|]); [by intros ?? [= -> ->]|done].
    + by injection Hr as <- <-.
    + by apply rbind_Ok in Hr as (f & _ & [= <- <-]).
  - pose proof (complete_cases p lane _ _ Hi) as Hcc. rewrite Hc in Hcc. destruct Hcc as (n & a & Hst & _ & _ & ->). unfold keeps. rewrite Hst. cbn in *.
    destruct Hl' as [_ Hl']. split; [by eexists|]. split; [by exists (Datatypes.S n)|]. split; [done|]. intros ?? [= -> <-]. split; [done|lia].
  - apply fail_cases in Hff as [->|(cursor & root & Hst & _ & _ & ->)]; [by apply keeps_same|]. unfold keeps. rewrite Hst in *. destruct Hl as [_ Hl]. split; [done|]. split; [by exists cursor|]. by split.
  - apply release_failure_cases in Hff as (H1 & H2 & H3 & H4). by apply keeps_same.
  - by apply keeps_same.
Qed.

Lemma init_steps p w w' : init_inv p (w_class w) (w_log w) -> rtc init_step w w' -> init_inv p (w_class w') (w_log w').
Proof. intros Hi Hs. revert Hi. induction Hs; eauto using init_step_inv. Qed.

Lemma init_steps_keep p w w' : init_inv p (w_class w) (w_log w) -> rtc init_step w w' -> ci_state (w_class w) <> Uninitialized ->
  keeps p (w_class w) (w_log w) (w_class w') (w_log w').
Proof.
  intros Hi Hs. revert Hi. induction Hs as [w|w1 w2 w3 Hst Hs IH]; intros Hi Hne; [by apply keeps_same|].
  pose proof (init_step_keeps _ _ _ Hi Hst) as Hk. pose proof (init_step_inv _ _ _ Hi Hst) as Hi2. unfold keeps in Hk. destruct (ci_state (w_class w1)) as [|lane cursor| |] eqn:E1; [done|..].
  + destruct Hk as (Hpre & [n Hn] & Hne2 & Hst2). specialize (IH Hi2 Hne2). unfold keeps in *. rewrite E1. destruct (ci_state (w_class w2)) as [|lane2 cursor2| |] eqn:E2; [done|..].
    * destruct (Hst2 lane2 cursor2 eq_refl) as [-> Hc]. destruct IH as (Hpre3 & Hn3 & Hne3 & Hst3). split; [by etrans|]. split; [done|]. split; [done|].
      intros lane' m Hm. destruct (Hst3 lane' m Hm). split; [done|lia].
    * destruct IH as [-> ->]. split; [done|]. split; [by exists n|]. by split.
    * destruct IH as (-> & _ & ->). split; [done|]. split; [by exists n|]. by split.
  + destruct Hk as [E2 El]. unfold keeps in *. rewrite E1. rewrite E2 in IH. destruct (IH Hi2 ltac:(done)) as [-> ->]. by rewrite El.
  + destruct Hk as (E2 & Hf & El). unfold keeps in *. rewrite E1. rewrite E2 in IH. destruct (IH Hi2 ltac:(done)) as (-> & -> & ->). by rewrite Hf, El.
Qed.

(** ** The retained failure *)

(** A root names a wrapper with a strong edge to the cause. *)
Record retained (h : JvmHeap) (root : RootedHandle) (cause : ManagedId) : Prop := {
  rt_root : a_roots (h_arena h) !! rh_root root = Some (rh_handle root);
  rt_edge : exists n e, a_objects (h_arena h) !! rh_handle root = Some n /\ Strong e cause ∈ edge_snapshot n;
}.

Lemma retained_reachable h root cause : retained h root cause -> reachable (take_snapshot (h_arena h)) cause.
Proof.
  intros [Hr (n & e & Hn & Hx)]. eapply reach_strong; [apply reach_root; left; cbn; apply elem_of_roots; by eexists|exact Hn|exact Hx].
Qed.

Lemma wrap_failure_ok heap original : heap_ok heap -> heap_ok (wrap_failure heap original).2.
Proof.
  intros Hok. unfold wrap_failure. destruct (jvm_allocate heap RThrowable) as [[wrapper h1]| | |] eqn:Ea; try done.
  pose proof (jvm_strong_ok h1 wrapper ECause original (jvm_allocate_ok _ _ _ _ Hok Ea)) as Hok2. destruct (jvm_strong h1 wrapper ECause original) as [[e| | |] h2]; try done. cbn in Hok2.
  destruct (jvm_root h2 wrapper) as [[r h3]| | |] eqn:Er; try done. by eapply jvm_root_ok.
Qed.

Lemma wrap_failure_spec heap original root heap' : wrap_failure heap original = (Ok root, heap') -> retained heap' root original.
Proof.
  intros Hw. unfold wrap_failure in Hw. destruct (jvm_allocate heap RThrowable) as [[wrapper h1]| | |] eqn:Ea; try done.
  destruct (jvm_strong h1 wrapper ECause original) as [[e| | |] h2] eqn:Es; try done. destruct (jvm_root h2 wrapper) as [[r h3]| | |] eqn:Er; try done. injection Hw as <- <-.
  assert (exists n, a_objects (h_arena h2) !! wrapper = Some n /\ Strong e original ∈ edge_snapshot n) as (n & Hn & Hx).
  { unfold jvm_strong, checked_live in Es. destruct (List.find _ _); [done|]. unfold jvm_write in Es. destruct (jvm_get_mut h1 wrapper) as [[n0 h0]| | |]; try done.
    destruct (let? p := policy (n_role n0) in _) as [[e' n1]| | |] eqn:Ef; try done. injection Es as -> <-. cbn. rewrite lookup_insert_eq. exists n1. split; [done|].
    apply rbind_Ok in Ef as (p & _ & Ef). destruct (negb _); [done|]. apply from_strong_Ok in Ef. unfold insert_strong in Ef.
    apply rbind_Ok in Ef as (_ & _ & ([e'' edges] & _ & [= -> <-])%rbind_Ok). apply elem_of_edge_snapshot. cbn. by rewrite lookup_insert_eq. }
  unfold jvm_root, heap_root in Er. apply rbind_Ok in Er as ([r' a'] & Er & [= <- <-]). unfold arena_root in Er.
  apply rbind_Ok in Er as (? & _ & (next & _ & (a1 & ->%advance_Ok & [= <- <-])%rbind_Ok)%rbind_Ok). split; cbn; [apply lookup_insert_eq|by exists n, e].
Qed.

(** A write changes at most its owner, and no root. *)
Lemma jvm_write_frame {A} h owner (f : Node -> Res JvmGraphError (A * Node)) :
  a_roots (h_arena (jvm_write h owner f).2) = a_roots (h_arena h) /\ forall id, id <> owner -> a_objects (h_arena (jvm_write h owner f).2) !! id = a_objects (h_arena h) !! id.
Proof.
  unfold jvm_write. destruct (jvm_get_mut h owner) as [[n h1]| | |] eqn:Eg; [|done..]. apply jvm_get_mut_spec in Eg as (_ & -> & _).
  destruct (f n) as [[x n']| | |]; [|done..]. cbn. split; [done|]. intros id Hid. by rewrite lookup_insert_ne.
Qed.

Lemma retained_write {A} h root cause owner (f : Node -> Res JvmGraphError (A * Node)) : owner <> rh_handle root -> retained h root cause -> retained (jvm_write h owner f).2 root cause.
Proof. intros Ho [Hr (n & e & Hn & Hx)]. destruct (jvm_write_frame h owner f) as [Hroots Hobj]. split; [by rewrite Hroots|]. exists n, e. by rewrite Hobj. Qed.

Lemma retained_checked {A} h root cause ids (k : Res JvmGraphError A * JvmHeap) : retained h root cause -> retained k.2 root cause -> retained (checked_live h ids k).2 root cause.
Proof. intros Hh Hk. unfold checked_live. by destruct (List.find _ _). Qed.

Lemma retained_other h h' root cause : heap_ok h -> other_step (Some root) h h' -> retained h root cause -> retained h' root cause.
Proof.
  intros Hok Hs Hret. pose proof Hret as [Hr (n & e & Hn & Hx)]. pose proof (ho_arena _ Hok) as Ha.
  destruct Hs as [h role id h' Hs|h id r h' Hs|h r id h' Hne Hs|h owner edge target Hne|h owner edge expected replacement Hne|h owner edge expected Hne|h owner edge target Hne|h owner edge key value Hne|h].
  - apply rbind_Ok in Hs as ([id0 a'] & Hs & [= <- <-]). unfold arena_allocate in Hs. case_match; [done|].
    apply rbind_Ok in Hs as (next & _ & (a1 & ->%advance_Ok & [= <- <-])%rbind_Ok). split; cbn; [done|]. exists n, e. rewrite lookup_insert_ne; [done|].
    intros Heq. pose proof (ai_ids _ Ha (rh_handle root) ltac:(by eexists)). lia.
  - apply rbind_Ok in Hs as ([r0 a'] & Hs & [= <- <-]). unfold arena_root in Hs.
    apply rbind_Ok in Hs as (? & _ & (next & _ & (a1 & ->%advance_Ok & [= <- <-])%rbind_Ok)%rbind_Ok). split; cbn; [|by exists n, e]. rewrite lookup_insert_ne; [done|].
    intros Heq. pose proof (ai_root_ids _ Ha (rh_root root) ltac:(by eexists)). lia.
  - apply rbind_Ok in Hs as ([r0 a'] & Hs & [= <- <-]). unfold arena_release_root in Hs. destruct (a_roots _ !! rh_root r); [|done]. case_decide; [|done].
    apply rbind_Ok in Hs as (a1 & ->%advance_Ok & [= <- <-]). split; cbn; [|by exists n, e]. rewrite lookup_delete_ne; [done|]. by apply Hne.
  - apply retained_checked; [done|]. apply retained_write; [by apply Hne|done].
  - apply retained_checked; [done|]. apply retained_write; [by apply Hne|done].
  - apply retained_write; [by apply Hne|done].
  - apply retained_checked; [done|]. apply retained_write; [by apply Hne|done].
  - apply retained_checked; [done|]. apply retained_write; [by apply Hne|done].
  - pose proof (jvm_collect_cases h Hok) as Hc. destruct (jvm_collect h) as [[r|er| |] h']; [| |done..]; cbn.
    + destruct Hc as (_ & [Hlive Hkeep] & Hroots & _). split; [by rewrite Hroots|].
      assert (reachable (take_snapshot (h_arena h)) (rh_handle root)) as [n' Hn']%Hlive by (apply reach_root; left; cbn; apply elem_of_roots; by eexists).
      destruct (Hkeep _ _ Hn') as (n0 & Hn0 & _ & He). exists n', e. split; [done|]. apply He. split; [|done]. congruence.
    + destruct Hc as (_ & Ho & Hroots & _). split; rewrite ?Ho, ?Hroots; [done|by exists n, e].
Qed.

(** The failure is rooted only in a failed class, and its cause is retained. *)
Record cause_inv w : Prop := {
  cv_heap : heap_ok (w_heap w);
  cv_root : forall root, ci_failure_root (w_class w) = Some root -> ci_state (w_class w) = Erroneous /\ exists cause, w_cause w = Some cause /\ retained (w_heap w) root cause;
}.

Lemma other_step_heap f h h' : other_step f h h' -> heap_step h h'.
Proof. intros Hs. destruct Hs; by econstructor. Qed.

Lemma resume_root lane c r c' : resume lane c = Ok (r, c') -> ci_failure_root c' = ci_failure_root c /\ (ci_state c = Erroneous -> ci_state c' = Erroneous).
Proof.
  unfold resume, issue. destruct (ci_state c) as [|owner cursor| |] eqn:Es; intros Hr.
  - destruct (_ !! _); by injection Hr as <- <-.
  - case_decide; [|done]. destruct (ci_pending c); [by injection Hr as <- <-|]. destruct (_ !! _); by injection Hr as <- <-.
  - by injection Hr as <- <-.
  - by apply rbind_Ok in Hr as (f & _ & [= <- <-]).
Qed.

Lemma fail_heap_ok heap lane original r wrap c : heap_ok heap -> heap_ok (fail heap lane original r wrap c).2.
Proof.
  intros Hok. unfold fail. destruct (ci_state c); try done. case_decide; [|done]. pose proof (wrap_failure_ok heap original Hok) as Hw. by destruct (wrap_failure heap original) as [[] ?].
Qed.

Lemma cause_step w w' : cause_inv w -> init_step w w' -> cause_inv w'.
Proof.
  intros [Hok Hroot] Hs. destruct Hs as [lane w r c' Hr|lane w c' Hc|lane original r wrap w x c' heap' Hf|w x c' heap' Hf|w h' Ho]; cbn in *.
  - apply resume_root in Hr as [Hr He]. split; cbn; [done|]. rewrite Hr. intros root Hro. destruct (Hroot root Hro) as [Hst ?]. auto.
  - split; cbn; [done|]. unfold complete_action in Hc. destruct (ci_state (w_class w)) as [|owner cursor| |]; try done. case_decide; [done|]. destruct (negb _); [done|].
    injection Hc as <-. cbn. intros root Hro. by destruct (Hroot root Hro) as [? _].
  - pose proof (fail_heap_ok (w_heap w) lane original r wrap (w_class w) Hok) as Hok'. rewrite Hf in Hok'. split; cbn; [done|]. pose proof Hf as Hf2. apply fail_cases in Hf as [->|(cursor & root & Hst & Hw & -> & ->)].
    + intros root Hro. destruct (Hroot root Hro) as [Hst (cause & Hca & Hre)]. unfold fail in Hf2. rewrite Hst in Hf2. injection Hf2 as <- <-. eauto.
    + intros root' [= <-]. split; [done|]. exists original. split; [done|]. by eapply wrap_failure_spec.
  - unfold release_failure in Hf. destruct (ci_failure_root (w_class w)) as [root|] eqn:Er; [|injection Hf as <- <- <-; split; cbn; [done|by rewrite Er]].
    destruct (jvm_release_root (w_heap w) root) as [[id h']| | |] eqn:Ej; injection Hf as <- <- <-; split; cbn; try done. by eapply jvm_release_root_ok.
  - split; cbn; [eapply heap_step_ok, other_step_heap; done|]. intros root Hro. destruct (Hroot root Hro) as [Hst (cause & Hca & Hre)]. rewrite Hro in Ho. split; [done|].
    exists cause. split; [done|]. by eapply retained_other.
Qed.

Lemma cause_steps w w' : cause_inv w -> rtc init_step w w' -> cause_inv w'.
Proof. intros Hi Hs. revert Hi. induction Hs; eauto using cause_step. Qed.

Definition new_world (heap : JvmHeap) (p : InitializationPlan) (mirror : ManagedId) : World :=
  {| w_heap := heap; w_class := new_initialization p mirror; w_log := []; w_cause := None |}.

(** C38: Over any history in which any lane may call any operation of a class
    initialization, one lane completes the actions of the plan in order, each once,
    and all of them before the class is initialized; another lane that asks or
    tries to complete is refused meanwhile.  Both ends are permanent: an
    initialized class stays so, a failed one gives the same failure for ever; and
    whatever the rest of the program does to the heap, collections included, short
    of releasing the root of the failure or writing to its wrapper, the throwable
    that caused a failure is reachable while the failure is rooted. *)
Theorem initialization_once heap p mirror w : heap_ok heap -> rtc init_step (new_world heap p mirror) w ->
  (exists lane n, w_log w = done_by lane p n /\ (ci_state (w_class w) = Initialized -> n = length (plan_actions p))) /\
  (forall w', rtc init_step w w' -> ci_state (w_class w) <> Uninitialized -> keeps p (w_class w) (w_log w) (w_class w') (w_log w')) /\
  (forall lane, match resume lane (w_class w) with
    | Ok (RAction a, c') => exists n, ci_state c' = Initializing lane n /\ plan_actions p !! n = Some a /\ w_log w = done_by lane p n
    | Ok (RErroneous f, _) => ci_failure (w_class w) = Some f
    | Ok (RInitialized, c') => ci_state c' = Initialized
    | Ok (RReentrant, _) => exists n, ci_state (w_class w) = Initializing lane n
    | Err e => e = LaneBusy /\ exists owner n, ci_state (w_class w) = Initializing owner n /\ owner <> lane
    | _ => False
    end) /\
  (forall lane, match complete_action lane (w_class w) with
    | Ok c' => exists n a, ci_state (w_class w) = Initializing lane n /\ ci_pending (w_class w) = true /\ plan_actions p !! n = Some a /\
        c' = with_state (w_class w) (Initializing lane (Datatypes.S n)) false
    | Err LaneBusy => exists owner n, ci_state (w_class w) = Initializing owner n /\ owner <> lane
    | Err NoPendingAction => exists n, ci_state (w_class w) = Initializing lane n /\ ci_pending (w_class w) = false
    | Err AlreadyComplete => forall owner n, ci_state (w_class w) <> Initializing owner n
    | _ => False
    end) /\
  (forall root, ci_failure_root (w_class w) = Some root -> exists cause, w_cause w = Some cause /\ reachable (take_snapshot (h_arena (w_heap w))) cause).
Proof.
  intros Hok Hs. pose proof (init_steps p (new_world heap p mirror) w (new_initialization_inv p mirror) Hs) as Hi. pose proof Hi as [Hp Hpe Hl Hf]. split_and!.
  - destruct (ci_state (w_class w)) as [|lane n| |]; [exists 0%N, 0; by rewrite Hl|destruct Hl as [_ ->]; by exists lane, n|destruct Hl as [lane ->]; by exists lane, (length (plan_actions p))|].
    destruct Hl as (lane & n & _ & ->). by exists lane, n.
  - intros w' Hs' Hne. by apply init_steps_keep.
  - intros lane. unfold resume. destruct (ci_state (w_class w)) as [|owner n| |] eqn:Es.
    + unfold issue. cbn. rewrite Hp. destruct (plan_actions p !! 0) as [a|] eqn:Ea; cbn; [|done]. exists 0. by rewrite Hl.
    + case_decide as Ho; [subst owner|split; [done|by exists owner, n]]. destruct (ci_pending (w_class w)); [by exists n|]. unfold issue. rewrite Hp.
      destruct (plan_actions p !! n) as [a|] eqn:Ea; cbn; [|done]. exists n. rewrite Es. by destruct Hl.
    + done.
    + destruct (proj2 Hf eq_refl) as [f Hff]. by rewrite Hff.
  - intros lane. by eapply complete_cases.
  - intros root Hroot. apply cause_steps in Hs as [_ Hc]; [|by split]. destruct (Hc root Hroot) as [_ (cause & Hca & Hre)]. exists cause. split; [done|]. by eapply retained_reachable.
Qed.
End Initialization.
End Initialization.
