(* ===== verification/JvmMethod.v ===== *)
(** * Proofs of methods of the JVM verifier

    crates/sim-lib-lang-jvm/src/verifier/stack_map.rs, method_proof.rs and
    class_proof.rs: declared stack maps are expanded and anchored to instructions,
    the states that the dataflow engine has converged to are checked against them,
    and a method proof is sealed from a completion proof of the engine, with the
    catch types and the entry states of exception handlers checked. *)

From stdpp Require Import gmap strings.
From Stdlib Require Import Ascii String.
From S2P Require Import Prelude BTree ManagedNode ManagedArena GcCollector JvmHeap Lattice DataflowGraph Budget DataflowEngine Completion QueryEngine MachineStack MachineCode JvmTypes JvmCode JvmExecute JvmVerify JvmGraph JvmEnvironment.

(** ** Declared stack maps *)

(** The codec's verification types and frames. *)
Inductive ClassfileVerificationType :=
| CfTop | CfInteger | CfFloat | CfDouble | CfLong | CfNull | CfUninitializedThis | CfObject (index : N) | CfUninitialized (offset : N).

Inductive StackMapFrame :=
| SmSame (frame_type : N)
| SmSameLocalsOneStack (frame_type : N) (stack : ClassfileVerificationType)
| SmSameLocalsOneStackExtended (offset_delta : N) (stack : ClassfileVerificationType)
| SmChop (frame_type offset_delta : N)
| SmSameExtended (offset_delta : N)
| SmAppend (frame_type offset_delta : N) (locals : list ClassfileVerificationType)
| SmFull (offset_delta : N) (locals stack : list ClassfileVerificationType).

Record ExpandedStackMapFrame := { xf_offset : N; xf_instruction : N; xf_locals : list VerificationType; xf_stack : list VerificationType }.

(** A subtraction of tags, which aborts when it would go below zero. *)
Definition tag_sub (a b : N) : Res StackMapExpansionError N := if (a <? b)%N then Panic else Ok (a - b)%N.

Definition frame_offset_delta (f : StackMapFrame) : Res StackMapExpansionError N :=
  match f with
  | SmSame frame_type => Ok frame_type
  | SmSameLocalsOneStack frame_type _ => tag_sub frame_type 64
  | SmSameLocalsOneStackExtended delta _ | SmChop _ delta | SmSameExtended delta | SmAppend _ delta _ | SmFull delta _ _ => Ok delta
  end.

Section StackMaps.
Context {Origin SourceId : Type} `{KernelOrigin Origin SourceId}.
Context (resolve_class : N -> option ReferenceType).
Implicit Types (code : LocatedCode PreparedJvmInstruction N Origin).

Definition convert_classfile_type (offset : N) (t : ClassfileVerificationType) : Res StackMapExpansionError VerificationType :=
  match t with
  | CfTop => Ok VUnusable
  | CfInteger => Ok VInt
  | CfFloat => Ok VFloat
  | CfDouble => Ok VDouble
  | CfLong => Ok VLong
  | CfNull => Ok VNull
  | CfUninitializedThis => Ok VUninitializedThis
  | CfObject index => let? r := ok_or (InvalidClass offset index) (resolve_class index) in Ok (VReference r)
  | CfUninitialized new_offset => Ok (VUninitialized new_offset)
  end.

(** The instruction that begins at a byte. *)
Definition instruction_at_offset code (wanted : N) : Res StackMapExpansionError (option N) :=
  let? located := collect (fun c => code_instruction code c) (cursors code) in
  Ok (li_id <$> List.find (fun l => bool_decide (instruction_offset l = N.to_nat wanted)) located).

(** [checked_add] in [u32]. *)
Definition u32_add (a b : N) : option N := if (a + b <? 4294967296)%N then Some (a + b)%N else None.

Definition next_offset (previous : option N) (delta : N) : Res StackMapExpansionError N :=
  match previous with
  | None => Ok delta
  | Some p => ok_or OffsetOverflow (o ← u32_add p delta; u32_add o 1)
  end.

(** The locals and the stack a frame declares, from the locals before it. *)
Definition declared_values (offset : N) (locals : list VerificationType) (f : StackMapFrame) :
    Res StackMapExpansionError (list VerificationType * list VerificationType) :=
  match f with
  | SmSame _ | SmSameExtended _ => Ok (locals, [])
  | SmSameLocalsOneStack _ t | SmSameLocalsOneStackExtended _ t => let? t := convert_classfile_type offset t in Ok (locals, [t])
  | SmChop frame_type _ =>
    let? count := tag_sub 251 frame_type in
    let count := N.to_nat count in
    if (length locals <? count)%nat then Err (ChopUnderflow offset count (length locals)) else Ok (take (length locals - count) locals, [])
  | SmAppend frame_type _ appended =>
    let? declared := tag_sub frame_type 251 in
    let declared := N.to_nat declared in
    if decide (declared <> length appended) then Err (AppendCount offset declared (length appended))
    else let? ts := collect (convert_classfile_type offset) appended in Ok (locals ++ ts, [])
  | SmFull _ complete complete_stack =>
    let? locals := collect (convert_classfile_type offset) complete in
    let? stack := collect (convert_classfile_type offset) complete_stack in
    Ok (locals, stack)
  end.

Definition expand_frame (input : InitialFrameInput) code (previous : option N) (locals : list VerificationType) (f : StackMapFrame) :
    Res StackMapExpansionError ExpandedStackMapFrame :=
  let? delta := frame_offset_delta f in
  let? offset := next_offset previous delta in
  let? (locals, stack) := declared_values offset locals f in
  let locals_width := verification_width locals in
  if (if_max_locals input <? locals_width)%nat then Err (LocalsWidth (Some offset) locals_width (if_max_locals input))
  else
    let stack_width := verification_width stack in
    if (if_max_stack input <? stack_width)%nat then Err (StackWidth offset stack_width (if_max_stack input))
    else
      let? found := instruction_at_offset code offset in
      let? instruction := ok_or (NotInstructionBoundary offset) found in
      Ok {| xf_offset := offset; xf_instruction := instruction; xf_locals := locals; xf_stack := stack |}.

(** The loop over the frames. *)
Fixpoint expand_frames (input : InitialFrameInput) code (previous : option N) (locals : list VerificationType) (frames : list StackMapFrame) :
    Res StackMapExpansionError (list ExpandedStackMapFrame) :=
  match frames with
  | [] => Ok []
  | f :: frames =>
    let? x := expand_frame input code previous locals f in
    let? xs := expand_frames input code (Some (xf_offset x)) (xf_locals x) frames in
    Ok (x :: xs)
  end.

Definition expand_stack_map_table (table : list StackMapFrame) (input : InitialFrameInput) code : Res StackMapExpansionError (list ExpandedStackMapFrame) :=
  let? locals := derive_initial_locals input in
  expand_frames input code None locals table.
End StackMaps.

(** ** Constraints of target frames *)

Inductive StackMapConstraintError := SmMissing (instruction : N) | SmNotAssignable (instruction : N) | SmMissingInference (instruction : N).

(** The loop that fills the locals of a declared frame. *)
Fixpoint declared_locals (f : VerificationFrame) (slot : nat) (values : list VerificationType) : option VerificationFrame :=
  match values with
  | [] => Some f
  | t :: values => match set_local f slot t with Ok f => declared_locals f (slot + type_width t) values | _ => None end
  end.

Definition expanded_state (f : ExpandedStackMapFrame) (max_locals max_stack : nat) : option VerificationState :=
  locals ← declared_locals (new_frame Locals max_locals) 0 (xf_locals f);
  match stack_from_values max_stack (xf_stack f) with
  | Ok stack => Some {| vs_locals := locals; vs_stack := stack |}
  | _ => None
  end.

Section Constraints.
Context `{FrameLayout}.

(** A target of a branch or of an exceptional edge. *)
Definition is_target_edge (e : Edge VerificationEdgeId N VerificationEdgeClass) : bool :=
  match edge_class e with Custom EBranch | Custom (EExceptional _ _) => true | _ => false end.

Definition target_instructions (g : VerificationGraph) : BTreeSet N :=
  list_to_set (edge_target <$> filter (fun e => is_target_edge e = true) (map_values (g_edges g))).

(** [collect] into a map: the last declaration of an instruction counts. *)
Definition declared_frames (declarations : list ExpandedStackMapFrame) : BTreeMap N ExpandedStackMapFrame :=
  foldl (fun m f => <[xf_instruction f := f]> m) ∅ declarations.

Definition check_target (version : N) (inferred : BTreeMap N VerificationState) (declared : BTreeMap N ExpandedStackMapFrame) (max_locals max_stack : nat) (instruction : N) :
    Res StackMapConstraintError unit :=
  match declared !! instruction with
  | None => if (51 <=? version)%N then Err (SmMissing instruction) else Ok tt
  | Some frame =>
    let? state := ok_or (SmMissingInference instruction) (inferred !! instruction) in
    let? declared_state := ok_or (SmNotAssignable instruction) (expanded_state frame max_locals max_stack) in
    if negb (less_equal (vs_locals state) (vs_locals declared_state)) || negb (less_equal (vs_stack state) (vs_stack declared_state)) ||
       negb (length (frame_values (vs_stack state)) =? length (frame_values (vs_stack declared_state)))%nat
    then Err (SmNotAssignable instruction) else Ok tt
  end.

Definition check_stack_map_constraints (version : N) (g : VerificationGraph) (inferred : BTreeMap N VerificationState) (declarations : list ExpandedStackMapFrame) (max_locals max_stack : nat) :
    Res StackMapConstraintError unit :=
  let? _ := collect (check_target version inferred (declared_frames declarations) max_locals max_stack) (set_keys (target_instructions g)) in Ok tt.
End Constraints.

(** ** Sealing a method *)

Inductive UnreachableHandlerPolicy := Report | Refuse.

Record MethodVerificationProof := {
  mp_fixpoint : N;
  mp_dependencies : list ClassDefinitionId;
  mp_dependency_observations : list (Observation ClassDefinitionId);
  mp_unreachable_handlers : list nat;
}.

Inductive MethodVerificationError :=
| IncompleteFixpoint (e : CompletionProofMismatch)
| UnresolvedCatchType (row : nat) (catch_type : N)
| CatchTypeNotThrowable (row : nat) (catch_type : N)
| CatchTypeQuery (row : nat) (error : VerificationQueryError)
| ExceptionalFrame (row : nat) (instruction : N)
| TargetConstraint (e : StackMapConstraintError)
| UnreachableHandler (row : nat).

Definition throwable : ReferenceType := RtClass "java/lang/Throwable".

Section Seal.
Context `{FrameLayout} `{!ProofFingerprints N VerificationEdgeId VerificationEdgeClass VerificationState} `{FingerprintValue ClassDefinitionId}.
Context (loader : nat -> ClassSpace) (dependency_limit : nat).
Context (catch_class : N -> option ReferenceType) (lineage_limit : nat).
Abbreviation solution_t := (DataflowSolution N VerificationEdgeId VerificationEdgeClass VerificationState).
Abbreviation proof_t := (DataflowCompletionProof N VerificationEdgeId VerificationEdgeClass VerificationState).
Abbreviation edge_t := (Edge VerificationEdgeId N VerificationEdgeClass).
Implicit Types (g : VerificationGraph) (sol : solution_t) (env : VerificationEnvironment).

(** The type a handler catches, and the environment after the query. *)
Definition caught_type (row : nat) (catch_type : N) env : Res MethodVerificationError ReferenceType * VerificationEnvironment :=
  if (catch_type =? 0)%N then (Ok throwable, env)
  else
    match catch_class catch_type with
    | None => (Err (UnresolvedCatchType row catch_type), env)
    | Some caught =>
      let '(r, env) := reference_assignability loader dependency_limit env caught throwable lineage_limit in
      (match r with
       | Ok v => if vq_value _ v then Ok caught else Err (CatchTypeNotThrowable row catch_type)
       | Err f => Err (CatchTypeQuery row (vf_error f))
       | Panic => Panic
       | NoFuel => NoFuel
       end, env)
    end.

(** The check of a handler entered from a reachable instruction. *)
Definition check_handler_entry g sol (e : edge_t) (row : nat) (source : VerificationState) (exception : ReferenceType) : Res MethodVerificationError unit :=
  let? _ := expect (graph_node g (edge_source e)) in
  let failure := ExceptionalFrame row (edge_target e) in
  let? expected := map_err (fun _ => failure) (handler_entry_state source exception) in
  let? actual := ok_or failure (sol_states sol !! edge_target e) in
  if negb (less_equal expected actual) then Err failure else Ok tt.

(** The loop over the edges, with the declared and the reached rows. *)
Fixpoint check_handlers g sol (edges : list edge_t) (declared reached : BTreeSet nat) env : Res MethodVerificationError (BTreeSet nat * BTreeSet nat) * VerificationEnvironment :=
  match edges with
  | [] => (Ok (declared, reached), env)
  | e :: edges =>
    match edge_class e with
    | Custom (EExceptional row catch_type) =>
      let declared := {[row]} ∪ declared in
      match caught_type row catch_type env with
      | (Ok exception, env) =>
        match sol_states sol !! edge_source e with
        | None => check_handlers g sol edges declared reached env
        | Some source =>
          match normalized_slots (vs_locals source) with
          | None => check_handlers g sol edges declared reached env
          | Some _ =>
            match check_handler_entry g sol e row source exception with
            | Ok _ => check_handlers g sol edges declared ({[row]} ∪ reached) env
            | Err x => (Err x, env)
            | Panic => (Panic, env)
            | NoFuel => (NoFuel, env)
            end
          end
        end
      | (Err x, env) => (Err x, env)
      | (Panic, env) => (Panic, env)
      | (NoFuel, env) => (NoFuel, env)
      end
    | _ => check_handlers g sol edges declared reached env
    end
  end.

Definition dependency_observation (d : VerificationDependency) : Observation ClassDefinitionId :=
  observation_read (cd_id (vd_class d)) (rev_number (vd_revision d)) (incremental_fingerprint (cd_id (vd_class d))).

Definition seal_method_verification (proof : proof_t) g (transfer : AdmittedTransfer (S:=VerificationState)) (bottom : VerificationState) (seeds : BTreeMap N VerificationState) (budgets : QueryBudgets)
    env (classfile_version : N) (declarations : list ExpandedStackMapFrame) (max_locals max_stack : nat) (policy : UnreachableHandlerPolicy) :
    Res MethodVerificationError MethodVerificationProof * VerificationEnvironment :=
  match (let? sol := map_err IncompleteFixpoint (present g transfer bottom budgets seeds proof) in
         let? _ := map_err TargetConstraint (check_stack_map_constraints classfile_version g (sol_states sol) declarations max_locals max_stack) in
         Ok sol) with
  | Ok sol =>
    let '(r, env) := check_handlers g sol (map_values (g_edges g)) ∅ ∅ env in
    ((let? (declared, reached) := r in
      let unreachable := set_keys (declared ∖ reached) in
      match policy, unreachable with
      | Refuse, row :: _ => Err (UnreachableHandler row)
      | _, _ => Ok {| mp_fixpoint := proof_identity proof; mp_dependencies := dependency_ids (ve_dependencies env);
                      mp_dependency_observations := dependency_observation <$> ve_dependencies env; mp_unreachable_handlers := unreachable |}
      end), env)
  | Err e => (Err e, env)
  | Panic => (Panic, env)
  | NoFuel => (NoFuel, env)
  end.
End Seal.

(** ** Expansion *)

Section Expansion.
Context {Origin SourceId : Type} `{KernelOrigin Origin SourceId}.
Context (resolve_class : N -> option ReferenceType).
Implicit Types (code : LocatedCode PreparedJvmInstruction N Origin) (d : string).

Lemma find_semicolon_after fuel d start end_ : find_semicolon fuel d start = Some end_ -> start <= end_.
Proof. revert start. induction fuel as [|fuel IH]; intros start; cbn; [done|]. destruct (byte_at d start); [|done]. destruct (_ =? _)%char; [by intros [= ->]|]. intros Hs%IH. lia. Qed.

Lemma class_end_after d start cursor : match class_end d start cursor with Ok end_ => cursor < end_ | Err _ => True | _ => False end.
Proof.
  unfold class_end. destruct (find_semicolon _ d _) as [e|] eqn:Hf; cbn; [|done]. apply find_semicolon_after in Hf. destruct (e =? cursor + 1)%nat; [done|lia].
Qed.

Lemma skip_brackets_after fuel d cursor : cursor <= skip_brackets fuel d cursor.
Proof. revert cursor. induction fuel as [|fuel IH]; intros cursor; cbn; [done|]. destruct (byte_at d cursor); [|done]. destruct (_ =? _)%char; [|done]. specialize (IH (S cursor)). lia. Qed.

(** A parsed type ends after it began. *)
Lemma parse_type_after d start : match parse_descriptor_type d start with Ok (_, next) => start < next | Err _ => True | _ => False end.
Proof.
  unfold parse_descriptor_type. destruct (byte_at d start) as [c|]; [|done]. destruct (is_int_family c); [lia|]. do 3 (destruct (_ =? _)%char; [lia|]). destruct (_ =? _)%char.
  - pose proof (class_end_after d start start) as Hc. destruct (class_end d start start); cbn; try done. lia.
  - destruct (_ =? _)%char; [|done]. pose proof (skip_brackets_after (String.length d) d start) as Hs. destruct (byte_at d _) as [c'|]; [|done].
    destruct (is_primitive c'); [cbn; lia|]. destruct (_ =? _)%char; [|done]. pose proof (class_end_after d start (skip_brackets (String.length d) d start)) as Hc.
    destruct (class_end _ _ _); cbn; try done. lia.
Qed.

Lemma get_beyond d n : String.length d <= n -> byte_at d n = None.
Proof. unfold byte_at. revert n. induction d as [|c d IH]; intros [|n] Hn; cbn in *; try done; [lia|]. apply IH. lia. Qed.

Lemma get_within d n c : byte_at d n = Some c -> n < String.length d.
Proof. intros Hg. destruct (decide (String.length d <= n)) as [Hn|Hn]; [|lia]. by rewrite (get_beyond _ _ Hn) in Hg. Qed.

Lemma parse_arguments_total fuel d cursor : 0 < fuel -> String.length d < cursor + fuel -> safe (parse_arguments fuel d cursor).
Proof.
  revert cursor. induction fuel as [|fuel IH]; intros cursor Hpos Hf; cbn [parse_arguments]; [lia|].
  destruct (byte_at d cursor) as [c|] eqn:Hc; [|done]. apply get_within in Hc. destruct (_ =? _)%char; [done|]. pose proof (parse_type_after d cursor) as Ht.
  destruct (parse_descriptor_type d cursor) as [[t next]| | |]; try done. cbn [rbind]. specialize (IH next ltac:(lia) ltac:(lia)). by destruct (parse_arguments fuel d next) as [[]| | |].
Qed.

Lemma parse_type_safe d start : safe (parse_descriptor_type d start).
Proof. pose proof (parse_type_after d start) as Ht. by destruct (parse_descriptor_type d start) as [[]| | |]. Qed.

(** A guard on one character. *)
Lemma safe_open {A} (c : ascii) (r : Res StackMapExpansionError A) e : safe r -> safe (match c with "("%char => r | _ => Err e end).
Proof. intros Hr. by destruct c as [[] [] [] [] [] [] [] []]. Qed.

Lemma initial_locals_safe input : safe (derive_initial_locals input).
Proof.
  unfold derive_initial_locals. cbn zeta. destruct (is_ascii _); [|done]. destruct (byte_at _ 0) as [c|]; [|done]. apply safe_open. apply safe_rbind; [apply parse_arguments_total; lia|].
  intros [ts cursor] _. apply safe_rbind.
  - destruct (byte_at _ _) as [c'|]; [|done]. destruct (_ =? _)%char; [done|]. apply safe_rbind; [apply parse_type_safe|]. by intros [t next] _.
  - intros next _. case_decide; [done|]. by destruct (_ <? _)%nat.
Qed.

(** Tags within the ranges of the format. *)
Definition tags_valid (f : StackMapFrame) : Prop :=
  match f with
  | SmSameLocalsOneStack frame_type _ => (64 <= frame_type)%N
  | SmChop frame_type _ => (frame_type <= 251)%N
  | SmAppend frame_type _ _ => (251 <= frame_type)%N
  | _ => True
  end.

Lemma tag_sub_safe a b : (b <= a)%N -> safe (tag_sub a b).
Proof. intros Hab. unfold tag_sub. by destruct (N.ltb_spec a b); [lia|]. Qed.

Lemma convert_safe offset t : safe (convert_classfile_type resolve_class offset t).
Proof. destruct t as [| | | | | | |index|]; try done. cbn. by destruct (resolve_class index). Qed.

Lemma declared_values_safe offset locals f : tags_valid f -> safe (declared_values resolve_class offset locals f).
Proof.
  assert (Hall : forall ts, safe (collect (convert_classfile_type resolve_class offset) ts)) by (intros ts; apply collect_safe; intros; apply convert_safe). intros Hf. destruct f; cbn in Hf; try done; cbn [declared_values].
  - apply safe_rbind; [apply convert_safe|done].
  - apply safe_rbind; [apply convert_safe|done].
  - apply safe_rbind; [by apply tag_sub_safe|]. intros count _. by destruct (_ <? _)%nat.
  - apply safe_rbind; [by apply tag_sub_safe|]. intros count _. case_decide; [done|]. apply safe_rbind; [apply Hall|done].
  - apply safe_rbind; [apply Hall|]. intros ls _. apply safe_rbind; [apply Hall|done].
Qed.

(** An instruction of the code begins where the frame says. *)
Definition anchored code (input : InitialFrameInput) (x : ExpandedStackMapFrame) : Prop :=
  (exists c l, lc_instructions code !! c = Some l /\ li_id l = xf_instruction x /\ instruction_offset l = N.to_nat (xf_offset x)) /\
  verification_width (xf_locals x) <= if_max_locals input /\ verification_width (xf_stack x) <= if_max_stack input.

Lemma instructions_collected code : lc_instructions code <> [] -> collect (E:=StackMapExpansionError) (fun c => code_instruction code c) (cursors code) = Ok (lc_instructions code).
Proof.
  intros Hne. rewrite cursors_seq by done. apply collect_ok, Forall2_same_length_lookup_2; [by rewrite length_seq|]. intros k c l [-> _]%lookup_seq Hl. by apply instruction_ok.
Qed.

Lemma expand_frame_outcome input code previous locals f : lc_instructions code <> [] -> tags_valid f ->
  match expand_frame resolve_class input code previous locals f with
  | Ok x => anchored code input x /\ (forall p, previous = Some p -> (p < xf_offset x)%N)
  | Err _ => True
  | _ => False
  end.
Proof.
  intros Hne Hf. unfold expand_frame. assert (safe (frame_offset_delta f)) as Hd by (destruct f; try done; by apply tag_sub_safe). destruct (frame_offset_delta f) as [delta| | |]; try done. cbn [rbind].
  assert (match next_offset previous delta with Ok o => forall p, previous = Some p -> (p < o)%N | Err _ => True | _ => False end) as Ho.
  { unfold next_offset, u32_add. destruct previous as [p|]; [|done]. destruct (_ <? _)%N; cbn; [|done]. destruct (_ <? _)%N; cbn; [|done]. intros q [= <-]. lia. }
  destruct (next_offset previous delta) as [offset| | |]; try done. cbn [rbind]. pose proof (declared_values_safe offset locals f Hf) as Hv. destruct (declared_values _ _ _ _) as [[ls st]| | |]; try done. cbn [rbind].
  destruct (Nat.ltb_spec (if_max_locals input) (verification_width ls)); [done|]. destruct (Nat.ltb_spec (if_max_stack input) (verification_width st)); [done|].
  unfold instruction_at_offset. rewrite instructions_collected by done. cbn [rbind]. destruct (List.find _ _) as [l|] eqn:Hl; [|done]. cbn.
  apply List.find_some in Hl as [[c Hc]%list_elem_of_In%list_elem_of_lookup Hoff%bool_decide_eq_true]. split; [|done]. split; [by exists c, l|done].
Qed.

Lemma expand_frames_outcome input code previous locals table : lc_instructions code <> [] -> Forall tags_valid table ->
  match expand_frames resolve_class input code previous locals table with
  | Ok xs => length xs = length table /\ Forall (anchored code input) xs /\ StronglySorted (fun x y => (xf_offset x < xf_offset y)%N) xs /\
      (forall p, previous = Some p -> Forall (fun x => (p < xf_offset x)%N) xs)
  | Err _ => True
  | _ => False
  end.
Proof.
  intros Hne Ht. revert previous locals. induction Ht as [|f table Hf _ IH]; intros previous locals; cbn [expand_frames]; [split_and!; constructor|].
  pose proof (expand_frame_outcome input code previous locals f Hne Hf) as Hx. destruct (expand_frame _ _ _ _ _ _) as [x| | |]; try done. destruct Hx as [Ha Hp]. cbn [rbind].
  specialize (IH (Some (xf_offset x)) (xf_locals x)). destruct (expand_frames _ _ _ _ _ _) as [xs| | |]; try done. destruct IH as (Hl & Hxs & Hs & Hgt). cbn [rbind]. specialize (Hgt _ eq_refl).
  split_and!; [cbn; lia|by constructor|by constructor|]. intros p Hpp. constructor; [by apply Hp|]. eapply Forall_impl; [exact Hgt|]. cbn. intros y Hy. specialize (Hp p Hpp). lia.
Qed.

(** Expanding a stack map table always ends, without aborting when its tags
    are in their ranges; it gives one frame per entry, at strictly increasing
    offsets, each at the beginning of an instruction of the code and within the
    limits of the method. *)
Theorem stack_maps_expanded table input code : lc_instructions code <> [] -> Forall tags_valid table ->
  match expand_stack_map_table resolve_class table input code with
  | Ok xs => length xs = length table /\ Forall (anchored code input) xs /\ StronglySorted (fun x y => (xf_offset x < xf_offset y)%N) xs
  | Err _ => True
  | _ => False
  end.
Proof.
  intros Hne Ht. unfold expand_stack_map_table. pose proof (initial_locals_safe input) as Hi. destruct (derive_initial_locals input) as [locals| | |]; try done. cbn [rbind].
  pose proof (expand_frames_outcome input code None locals table Hne Ht) as He. destruct (expand_frames _ _ _ _ _ _); try done. naive_solver.
Qed.
End Expansion.

(** ** Constraints *)

Section ConstraintsProof.
Context `{FrameLayout}.
Implicit Types (g : VerificationGraph).

(** The constraint on one target. *)
Definition target_satisfied (version : N) (inferred : BTreeMap N VerificationState) (declarations : list ExpandedStackMapFrame) (max_locals max_stack : nat) (instruction : N) : Prop :=
  match last (filter (fun f => xf_instruction f = instruction) declarations) with
  | None => (version < 51)%N
  | Some frame => exists state declared, inferred !! instruction = Some state /\ expanded_state frame max_locals max_stack = Some declared /\
      less_equal (vs_locals state) (vs_locals declared) = true /\ less_equal (vs_stack state) (vs_stack declared) = true /\
      length (frame_values (vs_stack state)) = length (frame_values (vs_stack declared))
  end.

(** A branch or an exceptional edge leads to the instruction. *)
Definition is_target g (instruction : N) : Prop := exists id e, g_edges g !! id = Some e /\ is_target_edge e = true /\ edge_target e = instruction.

Lemma elem_of_map_values {V} (m : BTreeMap VerificationEdgeId V) v : v ∈ map_values m <-> exists k, m !! k = Some v.
Proof. unfold map_values. rewrite list_elem_of_fmap. setoid_rewrite <- elem_of_map_entries. split; [intros ([k x] & -> & Hin); eauto|intros [k Hin]; by exists (k, v)]. Qed.

Lemma target_instructions_spec g instruction : instruction ∈ target_instructions g <-> is_target g instruction.
Proof.
  unfold target_instructions, is_target. rewrite elem_of_list_to_set, list_elem_of_fmap. setoid_rewrite list_elem_of_filter. setoid_rewrite elem_of_map_values. naive_solver.
Qed.

Lemma declared_frames_from declarations (m : BTreeMap N ExpandedStackMapFrame) instruction :
  foldl (fun m f => <[xf_instruction f := f]> m) m declarations !! instruction =
  match last (filter (fun f => xf_instruction f = instruction) declarations) with Some f => Some f | None => m !! instruction end.
Proof.
  revert m. induction declarations as [|f declarations IH] using rev_ind; intros m; [done|]. rewrite foldl_snoc, filter_app, filter_cons, filter_nil. case_decide as Hf.
  - by rewrite last_snoc, Hf, lookup_insert_eq.
  - rewrite app_nil_r, lookup_insert_ne by done. apply IH.
Qed.

Lemma check_target_outcome version inferred declarations max_locals max_stack instruction :
  match check_target version inferred (declared_frames declarations) max_locals max_stack instruction with
  | Ok _ => target_satisfied version inferred declarations max_locals max_stack instruction
  | Err (SmMissing i) => i = instruction /\ (51 <= version)%N /\ forall f, f ∈ declarations -> xf_instruction f <> instruction
  | Err (SmMissingInference i) => i = instruction /\ inferred !! instruction = None
  | Err (SmNotAssignable i) => i = instruction /\ ~ target_satisfied version inferred declarations max_locals max_stack instruction
  | _ => False
  end.
Proof.
  unfold check_target, target_satisfied. unfold declared_frames. rewrite declared_frames_from, lookup_empty. destruct (last _) as [frame|] eqn:Hlast.
  - destruct (inferred !! instruction) as [state|]; [|done]. cbn [ok_or rbind]. destruct (expanded_state _ _ _) as [declared|]; cbn [ok_or rbind]; [|naive_solver].
    destruct (less_equal (vs_locals state) (vs_locals declared)) eqn:Hl; cbn [negb orb]; [|split; [done|]; intros (? & ? & [= <-] & [= <-] & Hc & _); congruence].
    destruct (less_equal (vs_stack state) (vs_stack declared)) eqn:Hs; cbn [negb orb]; [|split; [done|]; intros (? & ? & [= <-] & [= <-] & _ & Hc & _); congruence].
    destruct (Nat.eqb_spec (length (frame_values (vs_stack state))) (length (frame_values (vs_stack declared)))); cbn [negb]; [by eauto 10|]. split; [done|]. by intros (? & ? & [= <-] & [= <-] & _ & _ & Hc).
  - destruct (N.leb_spec 51 version); [|done]. split; [done|]. split; [done|]. intros f Hf Hfi. apply last_None in Hlast.
    eapply (elem_of_nil f). rewrite <- Hlast. by apply list_elem_of_filter.
Qed.

Lemma constraints_outcome version g inferred declarations max_locals max_stack :
  match check_stack_map_constraints version g inferred declarations max_locals max_stack with
  | Ok _ => forall i, is_target g i -> target_satisfied version inferred declarations max_locals max_stack i
  | Err e => exists i, is_target g i /\ check_target version inferred (declared_frames declarations) max_locals max_stack i = Err e
  | _ => False
  end.
Proof.
  unfold check_stack_map_constraints. pose proof (collect_first (check_target version inferred (declared_frames declarations) max_locals max_stack) (set_keys (target_instructions g))) as Hf.
  specialize (Hf ltac:(intros i _; pose proof (check_target_outcome version inferred declarations max_locals max_stack i); by destruct (check_target _ _ _ _ _ _) as [|[]| |])).
  destruct (collect _ _) as [us|e| |]; cbn [rbind]; try done.
  - intros i Hi%target_instructions_spec%elem_of_set_keys%list_elem_of_lookup. destruct Hi as [k Hk]. destruct (Forall2_lookup_l _ _ _ _ _ Hf Hk) as (u & _ & Hu).
    pose proof (check_target_outcome version inferred declarations max_locals max_stack i) as Ho. by rewrite Hu in Ho.
  - destruct Hf as (k & i & Hk%list_elem_of_lookup_2%elem_of_set_keys%target_instructions_spec & He & _). eauto.
Qed.

(** The stack map constraints hold exactly when every target of a branch or
    of a handler either has a declared frame that the inferred state is below, at
    the same depth, or lacks one in a class file that need not have it; a refusal
    names a target and what is wrong with it. *)
Theorem constraints_checked version g inferred declarations max_locals max_stack :
  match check_stack_map_constraints version g inferred declarations max_locals max_stack with
  | Ok _ => forall i, is_target g i -> target_satisfied version inferred declarations max_locals max_stack i
  | Err (SmMissing i) => is_target g i /\ (51 <= version)%N /\ forall f, f ∈ declarations -> xf_instruction f <> i
  | Err (SmMissingInference i) => is_target g i /\ inferred !! i = None
  | Err (SmNotAssignable i) => is_target g i /\ ~ target_satisfied version inferred declarations max_locals max_stack i
  | _ => False
  end.
Proof.
  pose proof (constraints_outcome version g inferred declarations max_locals max_stack) as Ho. destruct (check_stack_map_constraints _ _ _ _ _ _) as [|e| |]; try done.
  destruct Ho as (i & Hi & He). pose proof (check_target_outcome version inferred declarations max_locals max_stack i) as Hc. rewrite He in Hc. destruct e; destruct Hc as [-> Hc]; done.
Qed.
End ConstraintsProof.

(** ** What a sealed method shows *)

Section Sealed.
Context `{FrameLayout} `{!ProofFingerprints N VerificationEdgeId VerificationEdgeClass VerificationState} `{FingerprintValue ClassDefinitionId}.
Context (loader : nat -> ClassSpace) (dependency_limit : nat) (space : ClassSpace) (Hstable : forall n, loader n = space) (Hloaded : Loaded space).
Context (catch_class : N -> option ReferenceType) (lineage_limit : nat).
Abbreviation solution_t := (DataflowSolution N VerificationEdgeId VerificationEdgeClass VerificationState).
Abbreviation edge_t := (Edge VerificationEdgeId N VerificationEdgeClass).
Implicit Types (g : VerificationGraph) (sol : solution_t) (env : VerificationEnvironment) (e : edge_t).

(** What a handler with this catch type catches. *)
Definition catches (catch_type : N) (r : ReferenceType) : Prop :=
  (catch_type = 0%N /\ r = throwable) \/ (catch_type <> 0%N /\ catch_class catch_type = Some r /\ assignable space r throwable).

(** An edge enters the handler of a row from an instruction that is reached. *)
Definition entered sol e (row : nat) (catch_type : N) (source : VerificationState) : Prop :=
  edge_class e = Custom (EExceptional row catch_type) /\ sol_states sol !! edge_source e = Some source /\ is_Some (normalized_slots (vs_locals source)).

(** The handler's state is above its entry state from the source. *)
Definition handler_typed sol e (catch_type : N) (source : VerificationState) : Prop :=
  exists exception expected actual, catches catch_type exception /\ handler_entry_state source exception = Ok expected /\
    sol_states sol !! edge_target e = Some actual /\ less_equal expected actual = true.

Lemma caught_type_ok row catch_type env r env' : caught_type loader dependency_limit catch_class lineage_limit row catch_type env = (Ok r, env') -> catches catch_type r.
Proof using Type Hstable Hloaded.
  unfold caught_type, catches. destruct (N.eqb_spec catch_type 0) as [->|Hct]; [intros [= <- _]; auto|]. destruct (catch_class catch_type) as [c|]; [|done].
  pose proof (assignability_answer loader dependency_limit space env c throwable lineage_limit Hstable Hloaded) as Ha. destruct (reference_assignability _ _ _ _ _ _) as [[v|f| |] env2]; try done.
  destruct (vq_value _ v) eqn:Hv; [|done]. intros [= <- _]. right. split_and!; [done..|]. by apply Ha.
Qed.

(** What the loop over the edges has established. *)
Record HandlersChecked sol (edges : list edge_t) (declared reached declared' reached' : BTreeSet nat) : Prop := {
  hc_declared : forall row, row ∈ declared' <-> row ∈ declared \/ exists e ct, e ∈ edges /\ edge_class e = Custom (EExceptional row ct);
  hc_reached : forall row, row ∈ reached' <-> row ∈ reached \/ exists e ct source, e ∈ edges /\ entered sol e row ct source;
  hc_typed : forall e row ct, e ∈ edges -> edge_class e = Custom (EExceptional row ct) -> (exists r, catches ct r) /\ forall source, entered sol e row ct source -> handler_typed sol e ct source;
}.

Lemma checked_none sol declared reached : HandlersChecked sol [] declared reached declared reached.
Proof. split; [intros row; split; [auto|]; intros [|(? & ? & ?%elem_of_nil & _)]; done|intros row; split; [auto|]; intros [|(? & ? & ? & ?%elem_of_nil & _)]; done|]. by intros ? ? ? ?%elem_of_nil. Qed.

(** One more edge in front. *)
Lemma rows_cons {A} (Q : edge_t -> A -> Prop) e edges : (exists e' x, e' ∈ e :: edges /\ Q e' x) <-> (exists x, Q e x) \/ exists e' x, e' ∈ edges /\ Q e' x.
Proof.
  split; [intros (e' & x & [->|Hin]%elem_of_cons & HQ); [left; by exists x|right; by exists e', x]|].
  intros [[x HQ]|(e' & x & Hin & HQ)]; [exists e, x; split; [left|done]|exists e', x; split; [by right|done]].
Qed.

Lemma entered_cons sol e edges row : (exists e' ct source, e' ∈ e :: edges /\ entered sol e' row ct source) <->
  (exists ct source, entered sol e row ct source) \/ exists e' ct source, e' ∈ edges /\ entered sol e' row ct source.
Proof.
  split.
  - intros (e' & ct & s & [->|Hin]%elem_of_cons & Hen); [left; by exists ct, s|right; by exists e', ct, s].
  - intros [(ct & s & Hen)|(e' & ct & s & Hin & Hen)]; [exists e, ct, s; split; [left|done]|exists e', ct, s; split; [by right|done]].
Qed.

Lemma entered_row sol e row ct row' ct' source : edge_class e = Custom (EExceptional row ct) -> entered sol e row' ct' source -> row' = row /\ ct' = ct.
Proof. intros Hc (Hc' & _). rewrite Hc in Hc'. by injection Hc' as <- <-. Qed.

Lemma checked_skip sol e edges declared reached declared' reached' : (forall row ct, edge_class e <> Custom (EExceptional row ct)) ->
  HandlersChecked sol edges declared reached declared' reached' -> HandlersChecked sol (e :: edges) declared reached declared' reached'.
Proof.
  intros Hc [Hd Hr Ht]. split.
  - intros row. rewrite Hd, rows_cons. split; [intros []; auto|]. intros [|[[ct He]|]]; [auto|by apply Hc in He|auto].
  - intros row. rewrite Hr, entered_cons. split; [intros []; auto|]. intros [|[(ct & s & He & _)|]]; [auto|by apply Hc in He|auto].
  - intros e' row ct [->|Hin]%elem_of_cons He; [by apply Hc in He|by apply Ht].
Qed.

Lemma declared_cons e row ct edges (declared declared' : BTreeSet nat) row' : edge_class e = Custom (EExceptional row ct) ->
  (row' ∈ declared' <-> row' ∈ {[row]} ∪ declared \/ exists e ct, e ∈ edges /\ edge_class e = Custom (EExceptional row' ct)) ->
  row' ∈ declared' <-> row' ∈ declared \/ exists e' ct, e' ∈ e :: edges /\ edge_class e' = Custom (EExceptional row' ct).
Proof.
  intros Hc ->. rewrite elem_of_union, elem_of_singleton, rows_cons. split; [intros [[->|]|]; eauto|]. intros [|[[ct' He]|]]; [auto| |auto]. rewrite Hc in He. injection He as <- _. auto.
Qed.

Lemma checked_unreached sol e row ct edges declared reached declared' reached' : edge_class e = Custom (EExceptional row ct) -> (exists r, catches ct r) ->
  (forall source, ~ entered sol e row ct source) -> HandlersChecked sol edges ({[row]} ∪ declared) reached declared' reached' -> HandlersChecked sol (e :: edges) declared reached declared' reached'.
Proof.
  intros Hc Hcatch Hno [Hd Hr Ht]. split.
  - intros row'. by eapply declared_cons.
  - intros row'. rewrite Hr, entered_cons. split; [intros []; auto|]. intros [|[(ct' & s & Hen)|]]; [auto| |auto]. destruct (entered_row _ _ _ _ _ _ _ Hc Hen) as [-> ->]. by apply Hno in Hen.
  - intros e' row' ct' [->|Hin]%elem_of_cons He; [|by apply Ht]. rewrite Hc in He. injection He as <- <-. split; [done|]. intros s Hs. by apply Hno in Hs.
Qed.

Lemma checked_reached sol e row ct source edges declared reached declared' reached' : entered sol e row ct source -> (exists r, catches ct r) -> handler_typed sol e ct source ->
  HandlersChecked sol edges ({[row]} ∪ declared) ({[row]} ∪ reached) declared' reached' -> HandlersChecked sol (e :: edges) declared reached declared' reached'.
Proof.
  intros Hen Hcatch Htyped [Hd Hr Ht]. pose proof Hen as (Hc & Hs & _). split.
  - intros row'. by eapply declared_cons.
  - intros row'. rewrite Hr, elem_of_union, elem_of_singleton, entered_cons. split; [intros [[->|]|]; eauto|]. intros [|[(ct' & s & Hen')|]]; [auto| |auto].
    destruct (entered_row _ _ _ _ _ _ _ Hc Hen') as [-> _]. auto.
  - intros e' row' ct' [->|Hin]%elem_of_cons He; [|by apply Ht]. rewrite Hc in He. injection He as <- <-. split; [done|]. intros s (_ & Hs' & _). rewrite Hs in Hs'. by injection Hs' as <-.
Qed.

Lemma handler_entry_ok g sol e row ct source exception : check_handler_entry g sol e row source exception = Ok tt -> catches ct exception -> handler_typed sol e ct source.
Proof.
  unfold check_handler_entry. intros Hc Hcatch. res_inv. destruct (negb _) eqn:Hle; [done|]. apply negb_false_iff in Hle.
  rename select (map_err _ _ = _) into Hh. destruct (handler_entry_state source exception) as [expected| | |] eqn:Hs; try done. injection Hh as ->.
  eexists _, _, _. split_and!; done.
Qed.

Lemma check_handlers_ok g sol edges declared reached env declared' reached' env' :
  check_handlers loader dependency_limit catch_class lineage_limit g sol edges declared reached env = (Ok (declared', reached'), env') -> HandlersChecked sol edges declared reached declared' reached'.
Proof using Type Hstable Hloaded.
  revert declared reached env. induction edges as [|e edges IH]; intros declared reached env; cbn [check_handlers]; [intros [= <- <- _]; apply checked_none|].
  destruct (edge_class e) as [| |[| |row ct]] eqn:Hc; try (intros Hk%IH; apply checked_skip; [by rewrite Hc|done]).
  destruct (caught_type _ _ _ _ row ct env) as [[exception| | |] env2] eqn:Hcaught; try done. apply caught_type_ok in Hcaught as Hcatch.
  destruct (sol_states sol !! edge_source e) as [source|] eqn:Hs; [|intros Hk%IH; eapply checked_unreached; [done|by eexists| |done]; intros s (_ & Hs' & _); congruence].
  destruct (normalized_slots (vs_locals source)) as [slots|] eqn:Hn; [|intros Hk%IH; eapply checked_unreached; [done|by eexists| |done]; intros s (_ & Hs' & [x Hx]); congruence].
  destruct (check_handler_entry g sol e row source exception) as [[]| | |] eqn:He; try done. intros Hk%IH. eapply checked_reached; [|by eexists|by eapply handler_entry_ok|done]. by split_and!; [..|eexists].
Qed.

(** C27: Over a class space that a loader defined and that does not change while
    the method is sealed, a method is sealed only from a completion proof of
    exactly its graph, policy, budgets and seeds whose states satisfy the stack map
    constraints, in which every handler catches throwables and its state is above
    its entry state from each instruction that reaches it; the proof lists the
    handlers that none reaches, which are none when they are to be refused. *)
Theorem method_sealed proof g transfer bottom seeds budgets env version declarations max_locals max_stack policy p env' :
  seal_method_verification loader dependency_limit catch_class lineage_limit proof g transfer bottom seeds budgets env version declarations max_locals max_stack policy = (Ok p, env') ->
  exists sol, present g transfer bottom budgets seeds proof = Ok sol /\ mp_fixpoint p = proof_identity proof /\
    (forall i, is_target g i -> target_satisfied version (sol_states sol) declarations max_locals max_stack i) /\
    (forall id e row ct, g_edges g !! id = Some e -> edge_class e = Custom (EExceptional row ct) ->
      (exists r, catches ct r) /\ forall source, entered sol e row ct source -> handler_typed sol e ct source) /\
    (forall row, row ∈ mp_unreachable_handlers p <-> (exists id e ct, g_edges g !! id = Some e /\ edge_class e = Custom (EExceptional row ct)) /\
      forall id e ct source, g_edges g !! id = Some e -> ~ entered sol e row ct source) /\
    (policy = Refuse -> mp_unreachable_handlers p = []) /\
    mp_dependencies p = dependency_ids (ve_dependencies env').
Proof using Type Hstable Hloaded.
  unfold seal_method_verification. destruct (present _ _ _ _ _ _) as [sol| | |] eqn:Hp; try done. cbn [map_err rbind].
  pose proof (constraints_outcome version g (sol_states sol) declarations max_locals max_stack) as Hcon. destruct (check_stack_map_constraints _ _ _ _ _ _); try done. cbn [map_err rbind].
  destruct (check_handlers _ _ _ _ _ _ _ _ _ _) as [[[declared reached]| | |] env2] eqn:Hh; try done. apply check_handlers_ok in Hh as [Hd Hr Ht]. cbn [rbind].
  setoid_rewrite elem_of_map_values in Hd. setoid_rewrite elem_of_map_values in Hr. setoid_rewrite elem_of_map_values in Ht. intros Hok.
  assert (mp_unreachable_handlers p = set_keys (declared ∖ reached) /\ (policy = Refuse -> mp_unreachable_handlers p = []) /\ mp_fixpoint p = proof_identity proof /\
    mp_dependencies p = dependency_ids (ve_dependencies env') ) as (Hun & Href & Hfix & Hdep).
  { destruct policy; [injection Hok as <- <-; by split_and!|]. destruct (set_keys (declared ∖ reached)) eqn:Hk; [|done]. injection Hok as <- <-. by split_and!. }
  exists sol. split_and!; try done; [intros id e row ct He; apply Ht; eauto|].
  intros row. rewrite Hun, elem_of_set_keys, elem_of_difference, Hd, Hr. split.
  - intros [[[]%not_elem_of_empty|(e & ct & [id He] & Hc)] Hno]. split; [eauto|]. intros id' e' ct' source He' Hen. apply Hno. right. eauto 10.
  - intros [(id & e & ct & He & Hc) Hno]. split; [right; eauto|]. intros [[]%not_elem_of_empty|(e' & ct' & source & [id' He'] & Hen)]. by eapply Hno.
Qed.
End Sealed.

(** ** Proofs of classes *)

#[export] Instance string_ord : OrdKey string := {| ord_le := String.le |}.

(** The fields of an identity in the order they are compared. *)
Definition class_key (id : ClassDefinitionId) : N * (string * N) := (cd_loader id, (cd_binary_name id, cd_content_key id)).

Inductive ClassVerificationError := DuplicateMethod (method : string).

Section Classes.
Context `{FingerprintValue ClassDefinitionId} `{FingerprintValue (ClassDefinitionId * N * N * list (string * N) * list (ClassDefinitionId * option N))}.
Abbreviation observation_t := (Observation ClassDefinitionId).
Abbreviation class_proof := (ClassVerificationProof (ClassDefinitionId:=ClassDefinitionId) (Dependency:=observation_t)).
Abbreviation observations := (BTreeMap (N * (string * N)) observation_t).

Definition insert_observation (m : observations) (o : observation_t) : observations := <[class_key (obs_key o) := o]> m.

(** The loop over the methods. *)
Fixpoint seal_methods (methods : list (string * MethodVerificationProof)) (identities : list (string * N)) (dependencies : observations) : Res ClassVerificationError (list (string * N) * observations) :=
  match methods with
  | [] => Ok (identities, dependencies)
  | (method, p) :: methods =>
    if existsb (fun i => String.eqb i.1 method) identities then Err (DuplicateMethod method)
    else seal_methods methods (identities ++ [(method, mp_fixpoint p)]) (foldl insert_observation dependencies (mp_dependency_observations p))
  end.

Definition seal_class_verification (owner : ClassDefinitionId) (owner_revision : ClassSpaceRevision) (policy structural : N) (methods : list (string * MethodVerificationProof)) : Res ClassVerificationError class_proof :=
  let own := observation_read owner (rev_number owner_revision) (incremental_fingerprint owner) in
  let? (identities, dependencies) := seal_methods methods [] {[class_key owner := own]} in
  let identities := merge_sort ord_le identities in
  let dependencies := map_values dependencies in
  Ok {| cp_owner := owner; cp_owner_revision := owner_revision; cp_policy := policy; cp_structural := structural; cp_methods := identities; cp_dependencies := dependencies;
        cp_identity := incremental_fingerprint (owner, policy, structural, identities, (fun o => (obs_key o, obs_fingerprint o)) <$> dependencies) |}.

(** *** The cache

    An entry holds its class weakly; the definitions that are still held
    elsewhere are those [alive]. *)
Record ClassProofCacheEntry := { pe_owner : N; pe_request : N; pe_proof : class_proof; pe_managed_proof : ManagedId }.

Abbreviation cache_t := (BTreeMap (N * (string * N)) ClassProofCacheEntry).

Definition retain_live (alive : N -> bool) (cache : cache_t) : cache_t := filter (fun ke => alive (pe_owner ke.2) = true) cache.

Definition cache_lookup (alive : N -> bool) (cache : cache_t) (owner : ClassDefinitionId) (request : N) (current : ClassDefinitionId -> option N) : option class_proof * cache_t :=
  let cache := retain_live alive cache in
  (match cache !! class_key owner with
   | None => None
   | Some e =>
     if negb (pe_request e =? request)%N || existsb (fun o => negb (bool_decide (current (obs_key o) = obs_fingerprint o))) (cp_dependencies (pe_proof e)) then None
     else Some (pe_proof e)
   end, cache).

(** The managed entry is allocated before the ephemeron is attached. *)
Definition cache_insert (h : JvmHeap) (handle owner_handle : ManagedId) (cache : cache_t) (definition : N) (owner : ClassDefinitionId) (request : N) (proof : class_proof) :
    Res JvmGraphError class_proof * (JvmHeap * cache_t) :=
  match jvm_allocate h RCache with
  | Ok (managed, h) =>
    let '(r, h) := jvm_ephemeron h handle EDerivedEntry owner_handle managed in
    match r with
    | Ok _ => (Ok proof, (h, <[class_key owner := {| pe_owner := definition; pe_request := request; pe_proof := proof; pe_managed_proof := managed |}]> cache))
    | Err e => (Err e, (h, cache))
    | Panic => (Panic, (h, cache))
    | NoFuel => (NoFuel, (h, cache))
    end
  | Err e => (Err (GArena e), (h, cache))
  | Panic => (Panic, (h, cache))
  | NoFuel => (NoFuel, (h, cache))
  end.

Definition cache_live_len (alive : N -> bool) (cache : cache_t) : nat * cache_t := let cache := retain_live alive cache in (size cache, cache).

(** *** Classes are sealed exactly *)

Implicit Types (methods : list (string * MethodVerificationProof)).

Definition method_identities methods : list (string * N) := (fun mp => (mp.1, mp_fixpoint mp.2)) <$> methods.

Definition method_observations methods : list observation_t := concat ((fun mp => mp_dependency_observations mp.2) <$> methods).

Lemma class_key_inj id id' : class_key id = class_key id' -> id = id'.
Proof. destruct id, id'. by intros [= -> -> ->]. Qed.

Lemma identity_absent (ids : list (string * N)) method : existsb (fun i => String.eqb i.1 method) ids = false <-> method ∉ ids.*1.
Proof.
  rewrite list_elem_of_fmap. split.
  - intros He (i & -> & Hin). apply not_true_iff_false in He. apply He, existsb_exists. exists i. rewrite <- list_elem_of_In. split; [done|apply String.eqb_refl].
  - intros Hni. apply not_true_iff_false. intros (i & Hi%list_elem_of_In & Heq%String.eqb_eq)%existsb_exists. apply Hni. by exists i.
Qed.

Lemma seal_methods_outcome methods ids dependencies : NoDup ids.*1 ->
  match seal_methods methods ids dependencies with
  | Ok (ids', dependencies') => NoDup (ids.*1 ++ methods.*1) /\ ids' = ids ++ method_identities methods /\ dependencies' = foldl insert_observation dependencies (method_observations methods)
  | Err (DuplicateMethod m) => ~ NoDup (ids.*1 ++ methods.*1) /\ m ∈ methods.*1
  | _ => False
  end.
Proof.
  revert ids dependencies. induction methods as [|[m p] methods IH]; intros ids dependencies Hnd; cbn [seal_methods]; [by rewrite !app_nil_r|]. rewrite fmap_cons. cbn [fst].
  destruct (existsb _ ids) eqn:He.
  - split; [|left]. intros (_ & Hdis & _)%NoDup_app. eapply not_false_iff_true; [exact He|]. apply identity_absent. intros Hin. by destruct (Hdis m Hin ltac:(left)).
  - apply identity_absent in He. specialize (IH (ids ++ [(m, mp_fixpoint p)]) (foldl insert_observation dependencies (mp_dependency_observations p))).
    assert (NoDup (ids ++ [(m, mp_fixpoint p)]).*1) as Hnd'. { rewrite fmap_app. apply NoDup_app. split_and!; [done| |apply NoDup_singleton]. by intros x Hx ->%list_elem_of_singleton. }
    specialize (IH Hnd'). rewrite fmap_app, <- app_assoc in IH. destruct (seal_methods _ _ _) as [[ids' deps']|[m']| |]; try done.
    + destruct IH as (Hall & -> & ->). split_and!; [done|by rewrite <- app_assoc|]. unfold method_observations. rewrite fmap_cons. cbn [concat]. by rewrite foldl_app.
    + destruct IH as [Hno Hin]. split; [done|by right].
Qed.

Lemma observations_lookup (l : list observation_t) (m : observations) key :
  foldl insert_observation m l !! key = match last (filter (fun o => class_key (obs_key o) = key) l) with Some o => Some o | None => m !! key end.
Proof.
  revert m. induction l as [|o l IH] using rev_ind; intros m; [done|]. rewrite foldl_snoc, filter_app, filter_cons, filter_nil. unfold insert_observation at 1. case_decide as Ho.
  - by rewrite last_snoc, Ho, lookup_insert_eq.
  - rewrite app_nil_r, lookup_insert_ne by done. apply IH.
Qed.

Definition own_observation (owner : ClassDefinitionId) (revision : ClassSpaceRevision) : observation_t := observation_read owner (rev_number revision) (incremental_fingerprint owner).

Definition class_observations (owner : ClassDefinitionId) (revision : ClassSpaceRevision) methods : observations :=
  foldl insert_observation {[class_key owner := own_observation owner revision]} (method_observations methods).

(** One observation per class, from the owner or a method. *)
Lemma class_observations_spec owner revision methods key o : class_observations owner revision methods !! key = Some o ->
  key = class_key (obs_key o) /\ (o = own_observation owner revision \/ o ∈ method_observations methods).
Proof.
  unfold class_observations. rewrite observations_lookup. destruct (last _) as [o'|] eqn:Hl.
  - intros [= <-]. apply last_Some_elem_of, list_elem_of_filter in Hl as [<- Hin]. auto.
  - intros [<- <-]%lookup_singleton_Some. auto.
Qed.

Lemma class_observations_dom owner revision methods id : is_Some (class_observations owner revision methods !! class_key id) <-> id = owner \/ id ∈ obs_key <$> method_observations methods.
Proof.
  unfold class_observations. rewrite observations_lookup, list_elem_of_fmap. destruct (last _) as [o|] eqn:Hl.
  - apply last_Some_elem_of, list_elem_of_filter in Hl as [Hk%class_key_inj Hin]. split; [intros _; right; by exists o|by eexists].
  - apply last_None in Hl. split.
    + intros [o Ho]. apply lookup_singleton_Some in Ho as [Hk%class_key_inj _]. auto.
    + intros [->|(o & -> & Hin)]; [rewrite lookup_singleton_eq; by eexists|]. exfalso. eapply (elem_of_nil o). rewrite <- Hl. by apply list_elem_of_filter.
Qed.

Lemma seal_class_outcome owner revision policy structural methods :
  match seal_class_verification owner revision policy structural methods with
  | Ok p => NoDup methods.*1 /\ cp_owner p = owner /\ cp_methods p = merge_sort ord_le (method_identities methods) /\ cp_dependencies p = map_values (class_observations owner revision methods)
  | Err (DuplicateMethod m) => ~ NoDup methods.*1 /\ m ∈ methods.*1
  | _ => False
  end.
Proof.
  unfold seal_class_verification. pose proof (seal_methods_outcome methods [] {[class_key owner := own_observation owner revision]} ltac:(constructor)) as Ho. cbn [app fmap list_fmap] in Ho.
  fold (own_observation owner revision). destruct (seal_methods _ _ _) as [[ids deps]|[m]| |]; cbn [rbind]; try done. destruct Ho as (Hnd & -> & ->). done.
Qed.

(** The observations of a class agree on each class they observe. *)
Definition Consistent (owner : ClassDefinitionId) (revision : ClassSpaceRevision) methods : Prop :=
  forall o o', o ∈ own_observation owner revision :: method_observations methods -> o' ∈ own_observation owner revision :: method_observations methods -> obs_key o = obs_key o' -> o = o'.

Lemma method_observations_perm methods methods' : methods ≡ₚ methods' -> method_observations methods ≡ₚ method_observations methods'.
Proof. intros Hp. unfold method_observations. by rewrite Hp. Qed.

Lemma observation_in owner revision methods o : o = own_observation owner revision \/ o ∈ method_observations methods -> o ∈ own_observation owner revision :: method_observations methods.
Proof. intros [->|]; [left|by right]. Qed.

Lemma class_observations_perm owner revision methods methods' : Consistent owner revision methods -> methods ≡ₚ methods' -> class_observations owner revision methods = class_observations owner revision methods'.
Proof.
  intros Hc Hp. pose proof (method_observations_perm _ _ Hp) as Hobs. apply map_eq. intros key.
  destruct (class_observations owner revision methods !! key) as [o|] eqn:Ho, (class_observations owner revision methods' !! key) as [o'|] eqn:Ho'; [| | |done].
  - apply class_observations_spec in Ho as [-> Hin], Ho' as [Hk%class_key_inj Hin']. rewrite <- Hobs in Hin'. f_equal. apply Hc; [by apply observation_in..|done].
  - apply class_observations_spec in Ho as Hs. destruct Hs as [-> _]. assert (is_Some (class_observations owner revision methods !! class_key (obs_key o))) as Hd%class_observations_dom by by eexists.
    rewrite Hobs in Hd. apply (class_observations_dom owner revision methods') in Hd as [x Hx]. congruence.
  - apply class_observations_spec in Ho' as Hs. destruct Hs as [-> _]. assert (is_Some (class_observations owner revision methods' !! class_key (obs_key o'))) as Hd%class_observations_dom by by eexists.
    rewrite <- Hobs in Hd. apply (class_observations_dom owner revision methods) in Hd as [x Hx]. congruence.
Qed.

Lemma merge_sort_perm `{OrdKey A} (l l' : list A) : l ≡ₚ l' -> merge_sort ord_le l = merge_sort ord_le l'.
Proof. intros Hp. apply (StronglySorted_unique ord_le); [apply StronglySorted_merge_sort; apply _..|]. by rewrite !merge_sort_Permutation. Qed.

Lemma seal_class_perm owner revision policy structural methods methods' : NoDup methods.*1 -> Consistent owner revision methods -> methods ≡ₚ methods' ->
  seal_class_verification owner revision policy structural methods = seal_class_verification owner revision policy structural methods'.
Proof.
  intros Hnd Hc Hp. assert (NoDup methods'.*1) as Hnd' by by rewrite <- Hp. unfold seal_class_verification. fold (own_observation owner revision).
  pose proof (seal_methods_outcome methods [] {[class_key owner := own_observation owner revision]} ltac:(constructor)) as Ho.
  pose proof (seal_methods_outcome methods' [] {[class_key owner := own_observation owner revision]} ltac:(constructor)) as Ho'. cbn [app fmap list_fmap] in Ho, Ho'.
  destruct (seal_methods methods _ _) as [[ids deps]|[m]| |]; try done; [|by destruct Ho]. destruct (seal_methods methods' _ _) as [[ids' deps']|[m]| |]; try done; [|by destruct Ho'].
  destruct Ho as (_ & -> & ->), Ho' as (_ & -> & ->). cbn [rbind]. fold (class_observations owner revision methods) (class_observations owner revision methods').
  rewrite <- (class_observations_perm _ _ _ _ Hc Hp), (merge_sort_perm (method_identities methods) (method_identities methods')); [done|]. unfold method_identities. by rewrite Hp.
Qed.

(** C30: A class proof is sealed exactly when no two methods share a name; it has
    the methods in order and one observation for the class and for each class that
    a method observed; and when the observations agree, its content, the identity
    included, does not depend on the order in which the methods were proved. *)
Theorem class_sealed owner revision policy structural methods :
  match seal_class_verification owner revision policy structural methods with
  | Ok p => NoDup methods.*1 /\ StronglySorted ord_le (cp_methods p) /\ cp_methods p ≡ₚ method_identities methods /\
      NoDup (obs_key <$> cp_dependencies p) /\ (forall id, id ∈ obs_key <$> cp_dependencies p <-> id = owner \/ id ∈ obs_key <$> method_observations methods) /\
      (forall o, o ∈ cp_dependencies p -> o = own_observation owner revision \/ o ∈ method_observations methods) /\
      (Consistent owner revision methods -> forall methods', methods ≡ₚ methods' -> seal_class_verification owner revision policy structural methods' = Ok p)
  | Err (DuplicateMethod m) => ~ NoDup methods.*1 /\ m ∈ methods.*1
  | _ => False
  end.
Proof.
  pose proof (seal_class_outcome owner revision policy structural methods) as Ho. destruct (seal_class_verification owner revision policy structural methods) as [p|[m]| |] eqn:Hs; try done.
  destruct Ho as (Hnd & Hown & Hm & Hd). rewrite Hm, Hd.
  assert (Hval : forall o, o ∈ map_values (class_observations owner revision methods) <-> exists key, class_observations owner revision methods !! key = Some o).
  { intros o. unfold map_values. rewrite list_elem_of_fmap. setoid_rewrite <- elem_of_map_entries. split; [intros ([k x] & -> & Hin); eauto|intros [k Hin]; by exists (k, o)]. }
  split_and!; [done|apply StronglySorted_merge_sort; apply _|apply merge_sort_Permutation|..].
  - assert (obs_key <$> map_values (class_observations owner revision methods) = (fun k => {| cd_loader := k.1; cd_binary_name := k.2.1; cd_content_key := k.2.2 |}) <$> map_keys (class_observations owner revision methods)) as ->.
    { rewrite <- map_entries_keys. unfold map_values. rewrite <- !list_fmap_compose. apply list_fmap_ext. intros i [k o] Hi%list_elem_of_lookup_2%elem_of_map_entries.
      apply class_observations_spec in Hi as [-> _]. cbn. by destruct (obs_key o). }
    apply NoDup_fmap_2; [|apply set_keys_NoDup]. intros [a [b c]] [a' [b' c']] [= -> -> ->]. done.
  - intros id. rewrite <- (class_observations_dom owner revision methods), list_elem_of_fmap. setoid_rewrite Hval. split.
    + intros (o & -> & key & Ho). apply class_observations_spec in Ho as Hk. destruct Hk as [-> _]. by eexists.
    + intros [o Ho]. exists o. split; [|by eexists]. apply class_observations_spec in Ho as [Hk%class_key_inj _]. done.
  - intros o [key Ho]%Hval. by apply class_observations_spec in Ho as [_ ?].
  - intros Hc methods' Hp. rewrite <- Hs. symmetry. by apply seal_class_perm.
Qed.
(** *** The cache over a history *)

(** What the uses of a cache have done to it. *)
Inductive cache_event := Inserted (owner : ClassDefinitionId) (definition request : N) (proof : class_proof) | Swept (alive : N -> bool) | Untouched.

Inductive cache_step : JvmHeap * cache_t -> cache_event -> JvmHeap * cache_t -> Prop :=
| cs_insert h cache handle owner_handle definition owner request proof sealed st :
    cache_insert h handle owner_handle cache definition owner request proof = (Ok sealed, st) -> cache_step (h, cache) (Inserted owner definition request proof) st
| cs_refused h cache handle owner_handle definition owner request proof e st :
    cache_insert h handle owner_handle cache definition owner request proof = (Err e, st) -> cache_step (h, cache) Untouched st
| cs_lookup h cache alive owner request current r cache' : cache_lookup alive cache owner request current = (r, cache') -> cache_step (h, cache) (Swept alive) (h, cache')
| cs_live_len h cache alive n cache' : cache_live_len alive cache = (n, cache') -> cache_step (h, cache) (Swept alive) (h, cache').

(** A history from a new cache, its last event at the end. *)
Inductive cache_run (h : JvmHeap) : list cache_event -> JvmHeap * cache_t -> Prop :=
| cr_new : cache_run h [] (h, ∅)
| cr_step events st ev st' : cache_run h events st -> cache_step st ev st' -> cache_run h (events ++ [ev]) st'.

(** An event after which the entry of a class with this definition is kept. *)
Definition keeps_entry (owner : ClassDefinitionId) (definition : N) (ev : cache_event) : Prop :=
  match ev with Inserted owner' _ _ _ => owner' <> owner | Swept alive => alive definition = true | Untouched => True end.

(** The last insertion for a class, whose definition no sweep has found dead. *)
Definition held (events : list cache_event) (owner : ClassDefinitionId) (definition request : N) (proof : class_proof) : Prop :=
  exists before after, events = before ++ Inserted owner definition request proof :: after /\ Forall (keeps_entry owner definition) after.

Lemma held_snoc events ev owner definition request proof :
  held (events ++ [ev]) owner definition request proof <-> ev = Inserted owner definition request proof \/ (held events owner definition request proof /\ keeps_entry owner definition ev).
Proof.
  unfold held. split.
  - intros (before & after & Heq & Hk). destruct after as [|x after] using rev_ind; [apply app_inj_tail in Heq as [_ ->]; by left|].
    clear IHafter. rewrite app_comm_cons, app_assoc in Heq. apply app_inj_tail in Heq as [-> <-]. apply Forall_app in Hk as [Hk Hx]. right.
    apply Forall_inv in Hx. split; [by exists before, after|done].
  - intros [->|[(before & after & -> & Hk) Hev]]; [by exists events, []|]. exists before, (after ++ [ev]). split; [by rewrite <- app_assoc|]. apply Forall_app. split; [done|]. by apply Forall_singleton.
Qed.

Definition entry_of (definition request : N) (proof : class_proof) (e : ClassProofCacheEntry) : Prop := pe_owner e = definition /\ pe_request e = request /\ pe_proof e = proof.

(** The cache holds what its history does. *)
Definition cache_exact (events : list cache_event) (cache : cache_t) : Prop := forall owner definition request proof,
  (exists e, cache !! class_key owner = Some e /\ entry_of definition request proof e) <-> held events owner definition request proof.

Lemma retain_live_lookup alive (cache : cache_t) key e : retain_live alive cache !! key = Some e <-> cache !! key = Some e /\ alive (pe_owner e) = true.
Proof. unfold retain_live. by rewrite map_lookup_filter_Some. Qed.

Lemma exact_swept events cache alive : cache_exact events cache -> cache_exact (events ++ [Swept alive]) (retain_live alive cache).
Proof.
  unfold cache_exact. intros He owner definition request proof. rewrite held_snoc, <- He. setoid_rewrite retain_live_lookup. cbn. split.
  - intros (e & [Hk Ha] & Hof). right. pose proof Hof as [<- _]. eauto.
  - intros [|[(e & Hk & Hof) Ha]]; [done|]. exists e. pose proof Hof as [-> _]. done.
Qed.

Lemma exact_untouched events cache : cache_exact events cache -> cache_exact (events ++ [Untouched]) cache.
Proof. unfold cache_exact. intros He owner definition request proof. rewrite held_snoc, <- He. cbn. split; [auto|]. by intros [|[? _]]. Qed.

Lemma exact_inserted events cache owner e : cache_exact events cache -> cache_exact (events ++ [Inserted owner (pe_owner e) (pe_request e) (pe_proof e)]) (<[class_key owner := e]> cache).
Proof.
  unfold cache_exact. intros He owner' definition request proof. rewrite held_snoc, <- He. cbn. setoid_rewrite lookup_insert_Some. unfold entry_of. split.
  - intros (e' & [[Hk%class_key_inj <-]|[Hne Hk]] & Hof); [left; destruct Hof as (-> & -> & ->); by rewrite Hk|right]. split; [eauto|]. intros ->. done.
  - intros [[= -> <- <- <-]|[(e' & Hk & Hof) Hne]]; [exists e; auto|]. exists e'. split; [|done]. right. split; [|done]. by intros ?%class_key_inj.
Qed.

Lemma insert_outcome h handle owner_handle cache definition owner request proof :
  match cache_insert h handle owner_handle cache definition owner request proof with
  | (Ok sealed, (_, cache')) => sealed = proof /\ exists e, entry_of definition request proof e /\ cache' = <[class_key owner := e]> cache
  | (_, (_, cache')) => cache' = cache
  end.
Proof.
  unfold cache_insert. destruct (jvm_allocate h RCache) as [[managed h2]| | |]; try done. destruct (jvm_ephemeron _ _ _ _ _) as [[u| | |] h3]; try done. split; [done|]. by eexists {| pe_managed_proof := managed |}.
Qed.

Lemma cache_run_exact h events st : cache_run h events st -> cache_exact events st.2.
Proof.
  induction 1 as [|events st ev st' _ IH Hs]; [intros owner definition request proof; split; [intros (e & He & _); cbn in He; by rewrite lookup_empty in He|intros (before & after & Heq & _); by destruct before]|].
  destruct Hs as [h0 cache handle oh definition owner request proof sealed st Hi|h0 cache handle oh definition owner request proof e st Hi|h0 cache alive owner request current r cache' Hl|h0 cache alive n cache' Hl].
  - pose proof (insert_outcome h0 handle oh cache definition owner request proof) as Ho. rewrite Hi in Ho. destruct st as [h' cache']. destruct Ho as (_ & e & (<- & <- & <-) & ->). by apply exact_inserted.
  - pose proof (insert_outcome h0 handle oh cache definition owner request proof) as Ho. rewrite Hi in Ho. destruct st as [h' cache']. subst cache'. by apply exact_untouched.
  - unfold cache_lookup in Hl. injection Hl as _ <-. by apply exact_swept.
  - unfold cache_live_len in Hl. injection Hl as _ <-. by apply exact_swept.
Qed.

(** C31: Over any history of insertions, lookups and sweeps, a lookup returns
    exactly the proof that was last inserted for the class, when the request is
    the same, its definition has been alive at every sweep since and is now, and
    each class the proof observed still has the fingerprint it had. *)
Theorem class_cache_exact h events st alive owner request current proof : cache_run h events st ->
  (cache_lookup alive st.2 owner request current).1 = Some proof <->
  exists definition, held events owner definition request proof /\ alive definition = true /\ Forall (fun o => current (obs_key o) = obs_fingerprint o) (cp_dependencies proof).
Proof.
  intros Hrun%cache_run_exact. unfold cache_exact in Hrun. unfold cache_lookup. cbn [fst].
  assert (Hcur : forall p : class_proof, existsb (fun o => negb (bool_decide (current (obs_key o) = obs_fingerprint o))) (cp_dependencies p) = false <->
    Forall (fun o => current (obs_key o) = obs_fingerprint o) (cp_dependencies p)).
  { intros p. rewrite Forall_forall, <- not_true_iff_false, existsb_exists. setoid_rewrite <- list_elem_of_In. setoid_rewrite negb_true_iff. setoid_rewrite bool_decide_eq_false. split; [|naive_solver].
    intros Hno o Ho. destruct (decide (current (obs_key o) = obs_fingerprint o)); [done|]. exfalso. eauto. }
  setoid_rewrite <- Hcur. setoid_rewrite <- (Hrun owner). split.
  - destruct (retain_live alive st.2 !! class_key owner) as [e|] eqn:He; [|done]. apply retain_live_lookup in He as [He Ha]. destruct (N.eqb_spec (pe_request e) request) as [<-|]; [|done].
    cbn [negb orb]. destruct (existsb _ _) eqn:Hex; [done|]. intros [= <-]. exists (pe_owner e). split; [by exists e|done].
  - intros (definition & (e & He & <- & <- & <-) & Ha & Hex). assert (retain_live alive st.2 !! class_key owner = Some e) as -> by by apply retain_live_lookup.
    by rewrite N.eqb_refl, Hex.
Qed.
End Classes.
