(* ===== verification/JvmSamples.v ===== *)
(** * Samples of the JVM profile

    Concrete heaps, monitor tables and class initializations, verified
    instructions, a verified loop with its graph, a class space and a method with a
    handler at which the theorems about them hold, and
    inputs that show where the verifier and the instructions disagree. *)

From stdpp Require Import gmap strings relations.
From S2P Require Import Prelude BTree Lattice DataflowGraph Budget DataflowEngine Completion QueryEngine MachineStack MachineSlots MachineCode MachineFrame MachineDriver ManagedNode ManagedArena GcCollector GcMarking JvmTypes JvmCode JvmExecute JvmVerify JvmSound JvmRun JvmHeap JvmLanes JvmGraph JvmEnvironment JvmMethod.

(** ** A heap

    A rooted object with its class mirror, a monitor of the object, and a cache
    that maps the mirror to the object. *)

Definition jvm_limits : CollectionLimits :=
  {| l_objects := 64; l_edges := 64; l_stack := 64; l_work := 64; l_clears := 64; l_finalizers := 64 |}.

Definition empty_heap : JvmHeap := {| h_arena := new_arena 8; h_policy := Tracing jvm_limits |}.

Definition is_ok {E A} (r : Res E A) : bool := match r with Ok _ => true | _ => false end.

Definition get {E A} (d : A) (r : Res E A) : A := match r with Ok x => x | _ => d end.

Lemma is_ok_get {E A} (d : A) (r : Res E A) : is_ok r = true -> r = Ok (get d r).
Proof. by destruct r. Qed.

Definition allocated (h : JvmHeap) (role : JvmRole) : JvmHeap := (get (0%N, h) (jvm_allocate h role)).2.

Definition rooted (h : JvmHeap) (id : ManagedId) : JvmHeap := (get ({| rh_root := 0; rh_handle := 0 |}, h) (jvm_root h id)).2.

Lemma allocated_step h role : is_ok (jvm_allocate h role) = true -> heap_step h (allocated h role).
Proof.
  intros Ho. apply (is_ok_get (0%N, h)) in Ho. unfold allocated. destruct (get _ _) as [id h'] eqn:E. cbn. by eapply hs_allocate.
Qed.

Lemma rooted_step h id : is_ok (jvm_root h id) = true -> heap_step h (rooted h id).
Proof.
  intros Ho. apply (is_ok_get ({| rh_root := 0; rh_handle := 0 |}, h)) in Ho. unfold rooted. destruct (get _ _) as [r h'] eqn:E. cbn. by eapply hs_root.
Qed.

Definition heap1 : JvmHeap := allocated (allocated (allocated (allocated empty_heap RObject) RClassMirror) RMonitor) RCache.

Definition ids_of (h : JvmHeap) : list ManagedId := (map_entries (a_objects (h_arena h))).*1.

Definition kinds_of (h : JvmHeap) : list (ManagedId * JvmRole) := (fun x : ManagedId * Node => (x.1, n_role x.2)) <$> map_entries (a_objects (h_arena h)).

Definition roots_of (h : JvmHeap) : list ManagedId := map_values (a_roots (h_arena h)).

Definition heap2 : JvmHeap := (jvm_strong heap1 0 EClass 1).2.

Definition heap3 : JvmHeap := (jvm_weak heap2 2 EMonitoredObject 0).2.

Definition heap4 : JvmHeap := (jvm_ephemeron heap3 3 EDerivedEntry 1 0).2.

Definition sample_heap : JvmHeap := rooted heap4 0.

Lemma sample_heap_steps : rtc heap_step empty_heap sample_heap.
Proof.
  do 4 (eapply rtc_l; [apply allocated_step; vm_compute; reflexivity|]). fold heap1. eapply rtc_l; [apply hs_strong|]. eapply rtc_l; [apply hs_weak|].
  eapply rtc_l; [apply hs_ephemeron|]. eapply rtc_l; [|apply rtc_refl]. apply rooted_step. vm_compute. reflexivity.
Qed.

(** The table is consulted: an object has no weak edges, a monitor no retaining
    ones. *)
Example edges_refused :
  (jvm_weak sample_heap 0 EMonitoredObject 1).1 = Err (InvalidEdge RObject EMonitoredObject) /\
  (jvm_strong sample_heap 2 EField 1).1 = Err (InvalidEdge RMonitor EField) /\ (jvm_strong sample_heap 0 EField 9).1 = Err (GArena (StaleHandle 9)).
Proof. by vm_compute. Qed.

(** The monitor and the cache are garbage. *)
Lemma jvm_heap_history_witness : heap_ok sample_heap /\ kinds_of (jvm_collect sample_heap).2 = [(0%N, RObject); (1%N, RClassMirror)] /\
  collected sample_heap (jvm_collect sample_heap).2.
Proof.
  assert (kinds_of (jvm_collect sample_heap).2 = [(0%N, RObject); (1%N, RClassMirror)]) as Hk by (vm_compute; reflexivity).
  assert (is_ok (jvm_collect sample_heap).1 = true) as Ho by (vm_compute; reflexivity).
  destruct (jvm_heap_history 8 jvm_limits empty_heap sample_heap eq_refl sample_heap_steps) as (Hok & _ & Hc). split; [exact Hok|]. split; [exact Hk|].
  destruct (jvm_collect sample_heap) as [[] h']; [exact Hc|discriminate Ho..].
Defined.

Lemma sample_heap_ok : heap_ok sample_heap.
Proof. eapply heap_steps_ok; [|apply sample_heap_steps]. by apply (new_heap_ok 8 jvm_limits). Qed.

(** A machine that holds the monitor and the cache keeps both. *)
Lemma jvm_collect_from_exact_witness : ids_of (collect_from sample_heap [2%N; 3%N]).2 = [0%N; 1%N; 2%N; 3%N] /\
  collected_with sample_heap [2%N; 3%N] (collect_from sample_heap [2%N; 3%N]).2 /\ roots_of (collect_from sample_heap [2%N; 3%N]).2 = [0%N].
Proof.
  assert (ids_of (collect_from sample_heap [2%N; 3%N]).2 = [0%N; 1%N; 2%N; 3%N]) as Hi by (vm_compute; reflexivity).
  assert (is_ok (collect_from sample_heap [2%N; 3%N]).1 = true) as Ho by (vm_compute; reflexivity).
  assert (has_room sample_heap (2 * length (identities [2%N; 3%N]) + 2)) as Hr by (split; vm_compute; discriminate).
  pose proof (jvm_collect_from_exact sample_heap [2%N; 3%N] sample_heap_ok Hr) as Hc. split; [exact Hi|].
  destruct (collect_from sample_heap [2%N; 3%N]) as [[] h']; [|discriminate Ho..]. destruct Hc as (_ & Hc & Hro). split; [exact Hc|].
  unfold roots_of. cbn [snd]. rewrite Hro. vm_compute. reflexivity.
Defined.

(** A dead identity behind a live one refuses the collection and leaves a root of
    the live one, which nothing can release any more. *)
Example collect_from_leaks_roots : (collect_from sample_heap [2%N; 9%N]).1 = Err (CArena (StaleHandle 9)) /\
  roots_of (collect_from sample_heap [2%N; 9%N]).2 = [0%N; 2%N].
Proof. by vm_compute. Qed.

(** ** Monitors

    Lane 0 enters object 5 twice and object 6 once, and exits object 5. *)

Abbreviation monitor_world := (Monitor.World (U := unit)).

Definition opened (f : N) (w : monitor_world) : monitor_world :=
  {| Monitor.w_table := Monitor.w_table w; Monitor.w_frames := <[f := []]> (Monitor.w_frames w); Monitor.w_entered := Monitor.w_entered w |}.

Definition frame_of (f : N) (w : monitor_world) : CleanupStack unit (Res Monitor.MonitorError Monitor.MonitorState) := match Monitor.w_frames w !! f with Some c => c | None => [] end.

Definition entered (f lane : N) (object : ManagedId) (w : monitor_world) : monitor_world :=
  let '(s, c) := get (Monitor.w_table w, []) (Monitor.enter true lane object (Monitor.w_table w) (frame_of f w)) in
  {| Monitor.w_table := s; Monitor.w_frames := <[f := c]> (Monitor.w_frames w); Monitor.w_entered := Monitor.w_entered w ++ [f] |}.

Lemma entered_step f lane object w : is_Some (Monitor.w_frames w !! f) -> is_ok (Monitor.enter true lane object (Monitor.w_table w) (frame_of f w)) = true ->
  Monitor.mon_step true w (entered f lane object w).
Proof.
  intros [c Hc] Ho. unfold entered. assert (frame_of f w = c) as Hf by (unfold frame_of; by rewrite Hc). rewrite Hf in Ho |- *. apply (is_ok_get (Monitor.w_table w, [])) in Ho. destruct (get _ _) as [s' c'] eqn:E. eapply Monitor.mon_enter; [exact Hc|exact Ho].
Qed.

(** Frame 1 enters object 5 twice, frame 2 enters object 6. *)
Definition sample_monitors : monitor_world := entered 2 0 6 (opened 2 (entered 1 0 5 (entered 1 0 5 (opened 1 Monitor.new_world)))).

Lemma sample_monitors_steps : rtc (Monitor.mon_step true) Monitor.new_world sample_monitors.
Proof.
  eapply rtc_l; [apply (Monitor.mon_open true 1%N); [reflexivity|by apply not_elem_of_nil]|].
  eapply rtc_l; [apply (entered_step 1 0 5); [by eexists|vm_compute; reflexivity]|]. eapply rtc_l; [apply (entered_step 1 0 5); [by eexists|vm_compute; reflexivity]|].
  eapply rtc_l; [apply (Monitor.mon_open true 2%N); [reflexivity|apply (bool_decide_unpack _); vm_compute; exact I]|].
  eapply rtc_l; [apply (entered_step 2 0 6); [by eexists|vm_compute; reflexivity]|]. apply rtc_refl.
Qed.

(** The first frame is unwound. *)
Lemma monitor_balance_witness : Monitor.recursion (Monitor.w_table sample_monitors) 5 = 2 /\ exists c, Monitor.w_frames sample_monitors !! 1%N = Some c /\
  exists s', unwind c () (Ok (Monitor.w_table sample_monitors)) = Ok s' /\ Monitor.ms_releases s' = [5%N; 5%N] /\ Monitor.recursion s' 5 = 0 /\ Monitor.recursion s' 6 = 1.
Proof.
  destruct (Monitor.monitor_balance true sample_monitors sample_monitors_steps) as (H1 & _ & _ & _ & Hf). split; [rewrite H1; vm_compute; reflexivity|].
  eexists. split; [reflexivity|]. destruct (Hf 1%N _ () eq_refl) as (s' & Hu & Ha & Hr & H2). exists s'. split; [exact Hu|]. split; [rewrite Hr; vm_compute; reflexivity|].
  rewrite !H2. unfold Monitor.live_count. rewrite Ha. split; vm_compute; reflexivity.
Defined.

Example exit_without_entry : Monitor.exit 1 5 (Monitor.w_table sample_monitors) = Err Monitor.IllegalMonitorState.
Proof. by vm_compute. Qed.

(** ** Class initialization *)

Definition sample_plan : Initialization.InitializationPlan :=
  get {| Initialization.plan_class := "" ; Initialization.plan_actions := [] |} (Initialization.new_plan "B" (Some "A") ["I"] true 4).

Definition started (lane : N) (c : Initialization.ClassInitialization (Raised := string)) : Initialization.ClassInitialization :=
  (get (Initialization.RInitialized, c) (Initialization.resume lane c)).2.

Definition completed (lane : N) (c : Initialization.ClassInitialization (Raised := string)) : Initialization.ClassInitialization :=
  get c (Initialization.complete_action lane c).

Definition half_done : Initialization.ClassInitialization :=
  started 7 (completed 7 (started 7 (Initialization.new_initialization sample_plan 1%N))).

Definition half_done_world : Initialization.World :=
  {| Initialization.w_heap := sample_heap; Initialization.w_class := half_done; Initialization.w_log := [(7%N, Some Initialization.InstallStaticConstants)]; Initialization.w_cause := None |}.

Lemma half_done_steps : rtc Initialization.init_step (Initialization.new_world sample_heap sample_plan 1%N) half_done_world.
Proof.
  eapply rtc_l; [eapply (Initialization.is_resume 7%N); vm_compute; reflexivity|].
  eapply rtc_l; [eapply (Initialization.is_complete 7%N); vm_compute; reflexivity|].
  eapply rtc_l; [eapply (Initialization.is_resume 7%N); vm_compute; reflexivity|]. apply rtc_refl.
Qed.

(** The superclass is being initialized, and lane 8 is refused. *)
Lemma initialization_once_witness : Initialization.complete_action 8 half_done = Err Initialization.LaneBusy /\
  exists owner n, Initialization.ci_state half_done = Initialization.Initializing owner n /\ owner <> 8%N.
Proof.
  split; [vm_compute; reflexivity|].
  destruct (Initialization.initialization_once sample_heap sample_plan 1%N half_done_world) as (_ & _ & Hr & _); [eapply heap_steps_ok; [|apply sample_heap_steps]; by apply (new_heap_ok 8 jvm_limits)|apply half_done_steps|].
  exact (proj2 (Hr 8%N)).
Defined.

(** A failure is permanent and roots its cause. *)
Example failure_rooted :
  let '(r, c, h) := Initialization.fail sample_heap 7 1%N "cause" (fun r => "wrapped " +:+ r) half_done in
  r = Ok "wrapped cause" /\ Initialization.resume 8 c = Ok (Initialization.RErroneous "wrapped cause", c) /\ roots_of h = [0%N; 4%N].
Proof. by vm_compute. Qed.

(** ** Verified instructions

    Frames without locals and with two stack units; references are of every type. *)

Abbreviation sample_value := (JvmValue unit).

Definition any_instance : ReferenceType -> ManagedId -> Prop := fun _ _ => True.

Abbreviation conforms := (Conforms (K:=unit) any_instance).

Definition sample_stack (values : list sample_value) (depth : nat) : UnitStack sample_value := {| stack_values := values; stack_depth := depth; stack_limit := 2 |}.

Definition sample_state (ts : list VerificationType) : VerificationState := {| vs_locals := new_frame Locals 0; vs_stack := FReachable OperandStack (stack_slots 2 ts) |}.

Lemma sample_conforms ts values depth : StackInv (sample_stack values depth) -> Forall2 (value_typed any_instance) values ts ->
  conforms (sample_state ts) (new_slots 0) (sample_stack values depth).
Proof.
  intros Hinv Hv. split.
  - exists [], ∅. split; [done| |apply new_slots_implements|done|done]. split; intros; by rewrite lookup_nil in *.
  - exists ts. split; [done|]. by split.
Qed.

Definition sample_instruction (o : Opcode) (operands : list InstructionOperand) (prepared : PreparedJvmOperands) : PreparedJvmInstruction := {|
  pi_id := 0; pi_opcode := o; pi_dispatch := FStorage; pi_instruction := {| in_opcode := o; in_wide := false; in_operands := operands |};
  pi_input_width := 0; pi_output_width := 0; pi_root_effect := {| re_removed := 0; re_added := 0 |}; pi_operands := prepared; pi_work_charge := 1;
  pi_code_identity := None; pi_handler_membership := []; pi_handler_entries := []; pi_micro_op := Checked |}.

Lemma two_ints_inv a b : StackInv (sample_stack [Int a; Int b] 2).
Proof. split; [done|cbn; lia|by repeat constructor]. Qed.

Lemma two_ints_conform a b : in_range 32 a -> in_range 32 b -> conforms (sample_state [VInt; VInt]) (new_slots 0) (sample_stack [Int a; Int b] 2).
Proof. intros Ha Hb. apply sample_conforms; [apply two_ints_inv|]. constructor; [done|]. constructor; [done|constructor]. Qed.

(** An addition that wraps around. *)
Lemma numeric_sound_witness : exists s',
  execute_numeric_instruction (T:=unit) (Ok tt) (sample_instruction Iadd [] PNone) (sample_stack [Int 2147483647; Int 1] 2) = (Ok (receipt (sample_instruction Iadd [] PNone)), s') /\
  conforms (sample_state [VInt]) (new_slots 0) s'.
Proof.
  apply (numeric_sound any_instance (Ok tt) (sample_instruction Iadd [] PNone) 0 (sample_state [VInt; VInt]) (sample_state [VInt]) (new_slots 0) (sample_stack [Int 2147483647; Int 1] 2)).
  - discriminate.
  - apply two_ints_conform; done.
  - vm_compute. reflexivity.
Defined.

Example addition_wraps : (execute_numeric_instruction (T:=unit) (Ok tt) (sample_instruction Iadd [] PNone) (sample_stack [Int 2147483647; Int 1] 2)).2 = sample_stack [Int (-2147483648)] 1.
Proof. vm_compute. reflexivity. Qed.

(** A [swap] of two values, prepared from decoded code. *)
Definition swap_decoded : DecodedInstruction := {| di_id := 0; di_offset := 0; di_instruction := {| in_opcode := Swap; in_wide := false; in_operands := [] |} |}.

Definition swap_instruction : PreparedJvmInstruction := sample_instruction Swap [] (PShuffle [([1; 1], [1; 0])]).

Definition empty_code : DecodedCode := {| dc_instructions := []; dc_offsets := ∅ |}.

Lemma storage_sound_witness : stored any_instance (fun _ => None) (fun n => Err (EConstant n)) swap_instruction (sample_state [VInt; VInt]) (new_slots 0) (sample_stack [Int 1; Int 2] 2)
  (execute_storage_instruction (fun n => Err (EConstant n)) swap_instruction (new_slots 0) (sample_stack [Int 1; Int 2] 2)).
Proof.
  apply (storage_sound any_instance (CodecError:=unit) (fun _ => None) (fun n => Err (EConstant n)) empty_code swap_decoded swap_instruction 0
    (sample_state [VInt; VInt]) (sample_state [VInt; VInt]) (new_slots 0) (sample_stack [Int 1; Int 2] 2)).
  - discriminate.
  - split; reflexivity.
  - constructor.
  - discriminate.
  - apply two_ints_conform; done.
  - vm_compute. reflexivity.
Defined.

(** A conditional branch over a [goto], ending in a return. *)
Record JvmOrigin := { jo_source : string; jo_start : nat; jo_end : nat }.

#[export] Instance jvm_origin : KernelOrigin JvmOrigin string := {| origin_source := jo_source; origin_start := jo_start; origin_end := jo_end |}.

Definition jvm_byte_origin (source : string) (start_ end_ : nat) : JvmOrigin := {| jo_source := source; jo_start := start_; jo_end := end_ |}.

#[export] Instance jvm_byte_origin_ok : ByteOrigin jvm_byte_origin.
Proof. by split. Qed.

(** How control leaves an opcode, as the manifest of the opcodes lists it. *)
Definition sample_control (o : Opcode) : string :=
  match o with
  | Ireturn | Lreturn | Freturn | Dreturn | Areturn | Return => "return"
  | Goto | GotoW | Jsr | JsrW | Ret => "branch"
  | Tableswitch | Lookupswitch => "switch"
  | Athrow => "throw"
  | Invokevirtual | Invokespecial | Invokestatic | Invokeinterface | Invokedynamic => "invoke"
  | _ => if is_conditional o then "conditional-branch" else "fallthrough"
  end.

#[export] Instance sample_manifest : OpcodeManifest := {| opcode_mnemonic := fun _ => EmptyString; opcode_control := sample_control |}.

Definition decoded_at (id offset : N) (o : Opcode) (operands : list InstructionOperand) : DecodedInstruction :=
  {| di_id := id; di_offset := offset; di_instruction := {| in_opcode := o; in_wide := false; in_operands := operands |} |}.

Definition branching_code : DecodedCode := {|
  dc_instructions := [decoded_at 0 0 Ifeq [OBranch 6]; decoded_at 1 3 Goto [OBranch (-3)]; decoded_at 2 6 Return []];
  dc_offsets := <[0%N := 0%N]> (<[3%N := 1%N]> (<[6%N := 2%N]> ∅)) |}.

Lemma branching_indexed : DecodedIndexed branching_code.
Proof.
  intros offset id. cbn [dc_offsets branching_code]. rewrite !lookup_insert_Some, lookup_empty. split.
  - intros [[<- <-]|[_ [[<- <-]|[_ [[<- <-]|[_ ?]]]]]]; [| | |done]; eexists; [split; [left|done]|split; [right; left|done]|split; [right; right; left|done]].
  - intros (d & Hd & <- & <-). cbn in Hd. set_unfold in Hd. destruct Hd as [->|[->|[->|?]]]; cbn; naive_solver.
Qed.

Definition plain_semantics (o : Opcode) : option JvmInstructionSemantics := Some {| sem_pops := []; sem_pushes := []; sem_safepoint := false |}.

Definition prepared_branching : Res (PreparationError (CodecError:=unit)) (LocatedCode PreparedJvmInstruction N JvmOrigin) :=
  prepare_code_inner (ClassDefinitionId:=N) (Dependency:=unit) jvm_byte_origin (fun _ _ _ => Ok tt) plain_semantics branching_code 7 [] "Main"%string None None.

Definition empty_located : LocatedCode PreparedJvmInstruction N JvmOrigin := {| lc_instructions := []; lc_cursors := ∅; lc_targets := ∅; lc_regions := [] |}.

Definition branching : LocatedCode PreparedJvmInstruction N JvmOrigin := get empty_located prepared_branching.

Lemma branching_prepared : prepared_branching = Ok branching.
Proof. apply is_ok_get. vm_compute. reflexivity. Qed.

Definition located_at (k : nat) : LocatedInstruction PreparedJvmInstruction N JvmOrigin :=
  default {| li_instruction := swap_instruction; li_id := 0%N; li_location := Bytes (jvm_byte_origin "Main" 0 1); li_safepoint := false; li_coverage := None |}
    (lc_instructions branching !! k).

Lemma one_int_conform a : in_range 32 a -> conforms (sample_state [VInt]) (new_slots 0) (sample_stack [Int a] 1).
Proof. intros Ha. apply sample_conforms; [split; [done|cbn; lia|by repeat constructor]|]. constructor; [done|constructor]. Qed.

Lemma control_sound_witness :
  match execute_control_instruction branching 0 (sample_stack [Int 0] 1) false with
  | Ok (COInterrupted id c, s') => false = true /\ li_safepoint (located_at 0) = true /\ id = pi_id (li_instruction (located_at 0)) /\ c = 0 /\ s' = sample_stack [Int 0] 1
  | Ok (COContinue c r, s') => false && li_safepoint (located_at 0) = false /\ r = receipt (li_instruction (located_at 0)) /\
      successor branching 0 (located_at 0) c /\ conforms (sample_state []) (new_slots 0) s'
  | Ok (COReturn result r, s') => false && li_safepoint (located_at 0) = false /\ r = receipt (li_instruction (located_at 0)) /\ returned any_instance RtVoid result /\ conforms (sample_state []) (new_slots 0) s'
  | Err e => fallthrough_missing branching 0 (located_at 0) e
  | _ => False
  end.
Proof.
  apply (control_sound any_instance (CodecError:=unit) (fun _ _ _ => I) jvm_byte_origin (fun _ _ _ => Ok tt) (ClassDefinitionId:=N) (Dependency:=unit) plain_semantics branching_code 7 [] "Main"%string None None
    branching 0 (located_at 0) 0 RtVoid (sample_state [VInt]) (sample_state []) (new_slots 0) (sample_stack [Int 0] 1) false).
  - apply branching_indexed.
  - apply branching_prepared.
  - vm_compute. reflexivity.
  - discriminate.
  - apply one_int_conform. done.
  - vm_compute. reflexivity.
Defined.

(** The branch is taken on zero and falls through otherwise. *)
Example branch_taken : match execute_control_instruction branching 0 (sample_stack [Int 0] 1) false with Ok (COContinue c _, _) => Some c | _ => None end = Some 2.
Proof. vm_compute. reflexivity. Qed.

Example branch_not_taken : match execute_control_instruction branching 0 (sample_stack [Int 5] 1) false with Ok (COContinue c _, _) => Some c | _ => None end = Some 1.
Proof. vm_compute. reflexivity. Qed.

(** ** A verified loop

    [while (local0 != 0) {}; return;] *)

Definition loop_code : DecodedCode := {|
  dc_instructions := [decoded_at 0 0 Iload0 []; decoded_at 1 1 Ifeq [OBranch 6]; decoded_at 2 4 Goto [OBranch (-4)]; decoded_at 3 7 Return []];
  dc_offsets := <[0%N := 0%N]> (<[1%N := 1%N]> (<[4%N := 2%N]> (<[7%N := 3%N]> ∅))) |}.

Lemma loop_indexed : DecodedIndexed loop_code.
Proof.
  intros offset id. cbn [dc_offsets loop_code]. rewrite !lookup_insert_Some, lookup_empty. split.
  - intros [[<- <-]|[_ [[<- <-]|[_ [[<- <-]|[_ [[<- <-]|[_ ?]]]]]]]]; [| | | |done]; eexists;
      [split; [left|done]|split; [right; left|done]|split; [right; right; left|done]|split; [right; right; right; left|done]].
  - intros (d & Hd & <- & <-). cbn in Hd. set_unfold in Hd. destruct Hd as [->|[->|[->|[->|?]]]]; cbn; naive_solver.
Qed.

Definition prepared_loop : Res (PreparationError (CodecError:=unit)) (LocatedCode PreparedJvmInstruction N JvmOrigin) :=
  prepare_code_inner (ClassDefinitionId:=N) (Dependency:=unit) jvm_byte_origin (fun _ _ _ => Ok tt) surface_semantics loop_code 8 [] "Main"%string None None.

Definition loop : LocatedCode PreparedJvmInstruction N JvmOrigin := get empty_located prepared_loop.

Lemma loop_prepared : prepared_loop = Ok loop.
Proof. apply is_ok_get. vm_compute. reflexivity. Qed.

Definition loop_state (ts : list VerificationType) : VerificationState :=
  {| vs_locals := FReachable Locals [SValue VInt]; vs_stack := FReachable OperandStack (stack_slots 1 ts) |}.

Definition loop_types (c : CodeCursor) : option VerificationState :=
  match c with 0 | 2 | 3 => Some (loop_state []) | 1 => Some (loop_state [VInt]) | _ => None end.

Lemma loop_locals_wf : slots_wf [SValue VInt].
Proof. split; [intros [|k] t; cbn; [by intros [= <-]|done]|intros [|k]; done|intros [|k]; done]. Qed.

Lemma loop_flows ts : ts = [] \/ ts = [VInt] -> Flows (loop_state ts) (loop_state ts).
Proof.
  intros Hts. split; [done|by destruct Hts as [->| ->]|done|by exists [SValue VInt]; split; [|apply loop_locals_wf]|].
  exists 1, ts, ts. destruct Hts as [->| ->]; split_and!; try done; try (split; [done|cbn; lia]); [by intros ?%elem_of_nil|by intros ?%list_elem_of_singleton|].
  by repeat constructor.
Qed.

Lemma loop_targets : branch_targets loop 0%N = [] /\ branch_targets loop 1%N = [3] /\ branch_targets loop 2%N = [0] /\ branch_targets loop 3%N = [].
Proof. vm_compute. repeat split. Qed.

Lemma loop_next : code_next loop 0 = Some 1 /\ code_next loop 1 = Some 2.
Proof. vm_compute. split; reflexivity. Qed.

Lemma loop_well_typed : WellTyped RtVoid loop loop_types.
Proof.
  destruct loop_targets as (T0 & T1 & T2 & T3), loop_next as [N0 N1]. split.
  - intros [|[|[|[|c]]]] st Hc; cbn in Hc; try done; vm_compute; lia.
  - intros c located st Hl Hc. vm_compute in Hl. destruct c as [|[|[|[|c]]]]; [..|done]; injection Hl as <-; injection Hc as <-; cbn [li_instruction pi_id].
    + exists (loop_state [VInt]). split; [vm_compute; reflexivity|]. rewrite T0. split; [by intros ? ?%elem_of_nil|]. intros _. exists 1, (loop_state [VInt]).
      split; [done|]. split; [done|]. apply loop_flows; auto.
    + exists (loop_state []). split; [vm_compute; reflexivity|]. rewrite T1. split.
      * intros c' ->%list_elem_of_singleton. exists (loop_state []). split; [done|]. apply loop_flows; auto.
      * intros _. exists 2, (loop_state []). split; [done|]. split; [done|]. apply loop_flows; auto.
    + exists (loop_state []). split; [vm_compute; reflexivity|]. rewrite T2. split; [|done]. intros c' ->%list_elem_of_singleton. exists (loop_state []). split; [done|]. apply loop_flows; auto.
    + exists (loop_state []). split; [vm_compute; reflexivity|]. rewrite T3. split; [by intros ? ?%elem_of_nil|done].
Qed.

Definition loop_slots (x : Z) : SlotFile sample_value := {| slot_values := [Some (Int x)]; occupancy := [Some {| span_start := 0; span_width := 1 |}] |}.

Definition loop_start (x : Z) : DriveFrame (K:=unit) := {| df_lease := Some (loop_slots x, new_stack 1); df_cursor := 0 |}.

Lemma loop_slots_implement x : Implements 1 {[0 := Int x]} (loop_slots x).
Proof.
  destruct (store_implements 1 ∅ (new_slots 1) 0 (Int x : sample_value) (new_slots_implements 1)) as (f' & Hf & HI); [done|done|done|]. vm_compute in Hf. injection Hf as <-. exact HI.
Qed.

Lemma loop_start_typed x : in_range 32 x -> frame_typed any_instance loop_types (loop_start x).
Proof.
  intros Hx. exists (loop_slots x), (new_stack 1), (loop_state []). split; [done|]. split; [done|]. split.
  - exists [SValue VInt], {[0 := Int x]}. split; [done|apply loop_locals_wf|apply loop_slots_implement|done|].
    intros [|k] t Hk _; [|done]. injection Hk as <-. exists (Int x). split; [apply lookup_singleton_eq|done].
  - exists []. split; [done|]. apply new_stack_typed. done.
Qed.

(** Two steps into the loop. *)
Definition loop_second : DriveFrame (K:=unit) := {| df_lease := Some (loop_slots 5, new_stack 1); df_cursor := 2 |}.

Definition loop_located (k : nat) : LocatedInstruction PreparedJvmInstruction N JvmOrigin := default (located_at 0) (lc_instructions loop !! k).

Definition loop_frame (values : list sample_value) (depth cursor : nat) : DriveFrame (K:=unit) :=
  {| df_lease := Some (loop_slots 5, {| stack_values := values; stack_depth := depth; stack_limit := 1 |}); df_cursor := cursor |}.

Lemma loop_runs : rtc (run_step (T:=unit) loop) (loop_start 5) loop_second.
Proof.
  apply (rtc_l _ _ (loop_frame [Int 5] 1 1)).
  - apply (run_continue (T:=unit) loop (loop_start 5) (loop_located 0) 1 (loop_frame [Int 5] 1 0)); vm_compute; reflexivity.
  - apply rtc_once. apply (run_continue (T:=unit) loop (loop_frame [Int 5] 1 1) (loop_located 1) 2 (loop_frame [] 0 1)); vm_compute; reflexivity.
Qed.

Lemma verified_run_witness : frame_typed any_instance loop_types loop_second /\ exists located, lc_instructions loop !! 2 = Some located /\
  step_sound (T:=unit) any_instance RtVoid loop_types loop_second (li_instruction located) (production_dispatch loop loop_second (li_instruction located)).
Proof.
  apply (verified_run (T:=unit) any_instance (fun _ _ _ => I) (CodecError:=unit) (ClassDefinitionId:=N) (Dependency:=unit) jvm_byte_origin (fun _ _ _ => Ok tt)
    loop_code 8 [] "Main"%string None None RtVoid loop_types loop) with (start := loop_start 5).
  - apply loop_indexed.
  - repeat constructor.
  - apply loop_prepared.
  - discriminate.
  - apply loop_well_typed.
  - apply loop_start_typed. done.
  - apply loop_runs.
Defined.

(** ** The graph of the loop *)

#[local] Instance sample_graph_fingerprint :
    FingerprintValue (gmap N (DataflowGraph.Node N VerificationNodeLocation) * gmap VerificationEdgeId (Edge VerificationEdgeId N VerificationEdgeClass)) :=
  fun ne => (N.of_nat (size ne.1) + 100 * N.of_nat (size ne.2))%N.

Lemma sample_manifest_flows : ManifestFlows.
Proof. intros o dispatch Hs Hd Hf. destruct o; try (vm_compute; reflexivity); exfalso; destruct Hs as [x Hs]; try discriminate Hs; vm_compute in Hd; injection Hd as <-; by destruct Hf as [|[]]. Qed.

Definition empty_graph : VerificationGraph := {| g_nodes := ∅; g_edges := ∅; g_predecessors := ∅; g_successors := ∅; g_fingerprint := 0%N |}.

Definition loop_graph : VerificationGraph := get empty_graph (build_verification_graph loop).

Lemma loop_built : build_verification_graph loop = Ok loop_graph.
Proof. apply is_ok_get. vm_compute. reflexivity. Qed.

Lemma verification_graph_exact_witness : exists g, build_verification_graph loop = Ok g /\ (forall c l, lc_instructions loop !! c = Some l -> admitted loop c l) /\ GraphOf loop g.
Proof.
  exists loop_graph. split; [apply loop_built|].
  pose proof (verification_graph_exact (CodecError:=unit) (ClassDefinitionId:=N) (Dependency:=unit) jvm_byte_origin (fun _ _ _ => Ok tt) surface_semantics loop_code 8 [] "Main"%string None None loop
    loop_indexed loop_prepared) as Hg. rewrite loop_built in Hg. exact Hg.
Defined.

Lemma runs_follow_graph_witness : exists l', lc_instructions loop !! 2 = Some l' /\ rtc (graph_step loop_graph) 0%N (li_id l') /\
  step_in_graph (T:=unit) loop loop_graph l' (production_dispatch loop loop_second (li_instruction l')).1.
Proof.
  apply (runs_follow_graph (T:=unit) (CodecError:=unit) (ClassDefinitionId:=N) (Dependency:=unit) jvm_byte_origin (fun _ _ _ => Ok tt) loop_code 8 [] "Main"%string None None loop loop_graph
    loop_indexed sample_manifest_flows loop_prepared (loop_start 5) loop_second (loop_located 0)).
  - apply loop_built.
  - vm_compute. reflexivity.
  - apply loop_runs.
Defined.

(** ** A class space

    Two classes with a common superclass, an interface, and an exception, as a
    loader defines them. *)

Definition sample_metadata (name : string) : option (list string * N) :=
  snd <$> find (fun x => String.eqb x.1 name)
    [("java/lang/Object", ([], 33)); ("java/lang/Throwable", (["java/lang/Object"], 33)); ("Oops", (["java/lang/Throwable"], 33)); ("Base", (["java/lang/Object"], 33));
     ("Left", (["Base"], 33)); ("Right", (["Base"], 33)); ("Shape", (["java/lang/Object"], 1537))]%string%N.

Abbreviation sample_define := (define_decoded 0 16 (fun name _ => Some name) sample_metadata).

Definition define_all (files : list (string * list N)) (space : ClassSpace) : ClassSpace :=
  fold_left (fun space f => (sample_define space f.1 f.2).2) files space.

Definition sample_space : ClassSpace :=
  define_all [("java/lang/Object", [1]); ("java/lang/Throwable", [2]); ("Oops", [3]); ("Base", [4]); ("Left", [5]); ("Right", [6]); ("Shape", [7])]%string%N (new_loader 0).

Lemma sample_loaded : Loaded sample_space.
Proof.
  exists string, 0%N, 16, (fun name _ => Some name), sample_metadata. unfold sample_space. generalize (new_loader 0). generalize ([("java/lang/Object", [1]); ("java/lang/Throwable", [2]);
    ("Oops", [3]); ("Base", [4]); ("Left", [5]); ("Right", [6]); ("Shape", [7])]%string%N). intros files. induction files as [|[name bytes] files IH]; intros space; [apply rtc_refl|].
  eapply rtc_l; [by exists name, bytes|apply IH].
Qed.

Definition answer {E A} (r : Res E (VerificationQuery A)) : option A := match r with Ok v => Some (vq_value _ v) | _ => None end.

Lemma reference_assignability_spec_witness :
  answer (reference_assignability (fun _ => sample_space) 8 new_environment (RtClass "Left") (RtClass "Base") 8).1 = Some true /\
  let '(r, env') := reference_assignability (fun _ => sample_space) 8 new_environment (RtClass "Left") (RtClass "Base") 8 in
  match r with
  | Ok v => (vq_value _ v = true <-> jvms sample_space (RtClass "Left") (RtClass "Base") /\ ~ missed sample_space (RtClass "Left") (RtClass "Base")) /\ Accounted (fun _ => sample_space) 8 new_environment 8 env' (vq_evidence _ v)
  | Err f => failure_true 8 sample_space env' 8 f /\ Accounted (fun _ => sample_space) 8 new_environment 8 env' (vf_evidence f)
  | _ => False
  end.
Proof.
  split; [vm_compute; reflexivity|].
  apply (reference_assignability_spec (fun _ => sample_space) 8 sample_space new_environment (RtClass "Left") (RtClass "Base") 8 (fun _ => eq_refl) sample_loaded).
Defined.

Lemma join_types_spec_witness :
  tj_value <$> answer (join_types (fun _ => sample_space) 8 new_environment (VReference (RtClass "Left")) (VReference (RtClass "Right")) 32).1 = Some (VReference (RtClass "Base")) /\
  let '(r, env') := join_types (fun _ => sample_space) 8 new_environment (VReference (RtClass "Left")) (VReference (RtClass "Right")) 32 in
  match r with
  | Ok v => types_joined sample_space (VReference (RtClass "Left")) (VReference (RtClass "Right")) (vq_value _ v) /\ Accounted (fun _ => sample_space) 8 new_environment 32 env' (vq_evidence _ v)
  | Err f => failure_true 8 sample_space env' 32 f /\ Accounted (fun _ => sample_space) 8 new_environment 32 env' (vf_evidence f)
  | Panic => ~ (type_named (VReference (RtClass "Left")) /\ type_named (VReference (RtClass "Right")))
  | NoFuel => False
  end.
Proof.
  split; [vm_compute; reflexivity|].
  apply (join_types_spec (fun _ => sample_space) 8 sample_space new_environment (VReference (RtClass "Left")) (VReference (RtClass "Right")) 32 (fun _ => eq_refl) sample_loaded).
Defined.

(** An array is no instance of its root class when the class is named, as the
    descriptors of fields and methods name it. *)
Lemma array_not_object :
  descriptor_reference "Ljava/lang/Object;" = Ok (RtClass "java/lang/Object") /\
  answer (reference_assignability (fun _ => sample_space) 8 new_environment (RtArray "[I") (RtClass "java/lang/Object") 8).1 = Some false.
Proof. vm_compute. split; reflexivity. Qed.

(** Nor is a class an instance of an interface that it does not declare, though
    the rules for verification admit it. *)
Lemma undeclared_interface_refused :
  jvms sample_space (RtClass "Left") (RtClass "Shape") /\
  answer (reference_assignability (fun _ => sample_space) 8 new_environment (RtClass "Left") (RtClass "Shape") 8).1 = Some false.
Proof. split; [by eapply jvms_interface; vm_compute|vm_compute; reflexivity]. Qed.

(** Nor are two arrays instances of the type they are joined to. *)
Lemma array_join_not_assignable :
  tj_value <$> answer (join_types (fun _ => sample_space) 8 new_environment (VReference (RtArray "[[I")) (VReference (RtArray "[LLeft;")) 8).1 = Some (VReference (RtArray "[Ljava/lang/Object;")) /\
  answer (reference_assignability (fun _ => sample_space) 8 new_environment (RtArray "[[I") (RtArray "[Ljava/lang/Object;") 8).1 = Some false.
Proof. vm_compute. split; reflexivity. Qed.

(** ** A method with a handler *)

Definition guarded_code : DecodedCode := {|
  dc_instructions := [decoded_at 0 0 Iload0 []; decoded_at 1 1 Iload0 []; decoded_at 2 2 Idiv []; decoded_at 3 3 Istore0 []; decoded_at 4 4 Return []; decoded_at 5 5 Return []];
  dc_offsets := <[0%N := 0%N]> (<[1%N := 1%N]> (<[2%N := 2%N]> (<[3%N := 3%N]> (<[4%N := 4%N]> (<[5%N := 5%N]> ∅))))) |}.

Definition guarded : LocatedCode PreparedJvmInstruction N JvmOrigin :=
  get empty_located (prepare_code_inner (CodecError:=unit) (ClassDefinitionId:=N) (Dependency:=unit) jvm_byte_origin (fun _ _ _ => Ok tt) surface_semantics guarded_code 6
    [{| ce_start_pc := 2; ce_end_pc := 3; ce_handler_pc := 5; ce_catch_type := 7 |}] "Main"%string None None).

Definition guarded_graph : VerificationGraph := get empty_graph (build_verification_graph guarded).

Definition sample_input : InitialFrameInput := {| if_declaring_class := "Main"; if_method_name := "run"; if_descriptor := "(I)V"; if_is_static := true; if_max_locals := 1; if_max_stack := 2 |}.

Definition sample_classes (index : N) : option ReferenceType := if (index =? 7)%N then Some (RtClass "Oops") else None.

Definition sample_table : list StackMapFrame := [SmSame 3; SmFull 1 [CfInteger] []].

Lemma stack_maps_expanded_witness : exists xs, expand_stack_map_table sample_classes sample_table sample_input guarded = Ok xs /\
  xf_instruction <$> xs = [3; 5]%N /\ length xs = length sample_table /\ Forall (anchored guarded sample_input) xs /\ StronglySorted (fun x y => (xf_offset x < xf_offset y)%N) xs.
Proof.
  assert (Hne : lc_instructions guarded <> []) by (vm_compute; discriminate).
  pose proof (stack_maps_expanded sample_classes sample_table sample_input guarded Hne ltac:(repeat constructor)) as Hx.
  eexists. split; [vm_compute; reflexivity|]. split; [reflexivity|]. vm_compute in Hx. exact Hx.
Defined.

#[local] Instance sample_layout : FrameLayout := {| size_of_type := 8; size_of_slot := 8; size_of_frame := 32; size_of_state := 64 |}.

#[local] Instance sample_state_fingerprint : FingerprintValue VerificationState := fun s => N.of_nat (length (frame_values (vs_stack s))).

#[local] Instance sample_proof_fingerprints : ProofFingerprints N VerificationEdgeId VerificationEdgeClass VerificationState := {|
  fp_state := sample_state_fingerprint;
  fp_boundaries := fun l => N.of_nat (length l);
  fp_limits := fun l => let '(w, o, d, m, e) := l in (w + o + d + m + e)%N;
  fp_seeds := fun m => N.of_nat (size m);
  fp_identity := fun i => let '(_, g, l, p, _, _, d, obs, _, _) := i in (g + l + p + d + N.of_nat (length obs))%N;
|}.

#[local] Instance sample_class_fingerprint : FingerprintValue ClassDefinitionId := cd_content_key.

(** The policy that leaves every state as it is. *)
Definition identity_transfer : AdmittedTransfer (S:=VerificationState) :=
  {| admitted_policy := {| policy_fingerprint := 1; policy_size := 1; policy_transfer := fun s => s |}; admitted_fingerprint := 1; admitted_policy_size := 1 |}.

Definition entry_state : VerificationState := {| vs_locals := FReachable Locals [SValue VInt]; vs_stack := new_frame OperandStack 2 |}.

Definition unreached_state : VerificationState := bottom entry_state.

Definition sample_seeds : BTreeMap N VerificationState := {[0%N := entry_state]}.

Abbreviation sample_proof_t := (DataflowCompletionProof N VerificationEdgeId VerificationEdgeClass VerificationState).

Definition empty_proof : sample_proof_t := {|
  proof_identity := 0; proof_graph := 0; proof_lattice := 0; proof_policy := 0; proof_boundaries := 0; proof_limits := 0; proof_dependencies := 0; proof_nodes := ∅; proof_seeds := ∅; proof_observations := [];
  proof_solution := {| sol_states := ∅; sol_events := []; sol_causes := ∅; sol_usage := usage_default |} |}.

Definition sample_budgets : QueryBudgets := unlimited.

Definition proof_of (g : VerificationGraph) : sample_proof_t := get empty_proof (solve_proven g identity_transfer unreached_state sample_budgets sample_seeds 64).

Definition sealed (g : VerificationGraph) (version : N) (declarations : list ExpandedStackMapFrame) : Res MethodVerificationError MethodVerificationProof * VerificationEnvironment :=
  seal_method_verification (fun _ => sample_space) 8 sample_classes 8 (proof_of g) g identity_transfer unreached_state sample_seeds sample_budgets new_environment version declarations 1 2 Refuse.

Definition guarded_declarations : list ExpandedStackMapFrame := get [] (expand_stack_map_table sample_classes sample_table sample_input guarded).

Definition no_method : MethodVerificationProof := {| mp_fixpoint := 0; mp_dependencies := []; mp_dependency_observations := []; mp_unreachable_handlers := [] |}.

Definition guarded_proof : MethodVerificationProof := get no_method (sealed guarded_graph 52 guarded_declarations).1.

Definition guarded_environment : VerificationEnvironment := (sealed guarded_graph 52 guarded_declarations).2.

Lemma guarded_sealed :
  seal_method_verification (fun _ => sample_space) 8 sample_classes 8 (proof_of guarded_graph) guarded_graph identity_transfer unreached_state sample_seeds sample_budgets new_environment 52 guarded_declarations 1 2 Refuse =
  (Ok guarded_proof, guarded_environment).
Proof. vm_compute. reflexivity. Qed.

Lemma method_sealed_witness : exists sol, present guarded_graph identity_transfer unreached_state sample_budgets sample_seeds (proof_of guarded_graph) = Ok sol /\
  forall id e row ct, g_edges guarded_graph !! id = Some e -> edge_class e = Custom (EExceptional row ct) ->
    (exists r, catches sample_space sample_classes ct r) /\ forall source, JvmMethod.entered sol e row ct source -> handler_typed sample_space sample_classes sol e ct source.
Proof.
  destruct (method_sealed (fun _ => sample_space) 8 sample_space (fun _ => eq_refl) sample_loaded sample_classes 8 (proof_of guarded_graph) guarded_graph identity_transfer unreached_state sample_seeds sample_budgets
    new_environment 52 guarded_declarations 1 2 Refuse guarded_proof guarded_environment guarded_sealed) as (sol & Hp & _ & _ & Hh & _). exists sol. split; [exact Hp|exact Hh].
Defined.

(** The handler is entered, at a state above its entry state. *)
Example handler_edge : exists id e, g_edges guarded_graph !! id = Some e /\ edge_class e = Custom (EExceptional 0 7).
Proof. exists (2%N, 1%nat). vm_compute. eauto. Qed.

(** The policy of the engine is one function of states for all instructions: a
    method whose first instruction the verifier's transfer refuses is sealed. *)
Definition adding_code : DecodedCode := {| dc_instructions := [decoded_at 0 0 Iadd []; decoded_at 1 1 Return []]; dc_offsets := <[0%N := 0%N]> (<[1%N := 1%N]> ∅) |}.

Definition adding : LocatedCode PreparedJvmInstruction N JvmOrigin :=
  get empty_located (prepare_code_inner (CodecError:=unit) (ClassDefinitionId:=N) (Dependency:=unit) jvm_byte_origin (fun _ _ _ => Ok tt) surface_semantics adding_code 2 [] "Main"%string None None).

Lemma sealed_without_transfer :
  is_ok (sealed (get empty_graph (build_verification_graph adding)) 52 []).1 = true /\
  match lc_instructions adding !! 0 with Some l => is_ok (transfer_numeric (li_instruction l) entry_state) | None => true end = false.
Proof. vm_compute. split; reflexivity. Qed.

(** ** A cache of class proofs *)

#[local] Instance sample_sealed_fingerprint : FingerprintValue (ClassDefinitionId * N * N * list (string * N) * list (ClassDefinitionId * option N)) := fun x => let '(_, p, s, _, _) := x in (p + s)%N.

Definition sample_owner : ClassDefinitionId := {| cd_loader := 0; cd_binary_name := "Left"; cd_content_key := content_key [5%N] |}.

Definition sample_revision : ClassSpaceRevision := sp_revision sample_space.

Definition left_proof := get {| cp_owner := sample_owner; cp_owner_revision := sample_revision; cp_policy := 0; cp_structural := 0; cp_methods := []; cp_dependencies := []; cp_identity := 0 |}
  (seal_class_verification sample_owner sample_revision 1 2 [("run", guarded_proof)]%string).

Definition proof_entered := cache_insert sample_heap 3 1 ∅ 5 sample_owner 9 left_proof.

Lemma proof_entered_ok : cache_insert sample_heap 3 1 ∅ 5 sample_owner 9 left_proof = (Ok left_proof, proof_entered.2).
Proof.
  assert (is_ok proof_entered.1 = true) as Ho by (vm_compute; reflexivity). unfold proof_entered in *. pose proof (insert_outcome sample_heap 3 1 ∅ 5 sample_owner 9 left_proof) as Hout.
  destruct (cache_insert _ _ _ _ _ _ _ _) as [[p| | |] [h' cache']]; try discriminate Ho. by destruct Hout as [-> _].
Qed.

Lemma proof_entered_run : cache_run sample_heap ([] ++ [Inserted sample_owner 5 9 left_proof]) proof_entered.2.
Proof. exact (cr_step sample_heap [] _ _ _ (cr_new sample_heap) (cs_insert sample_heap ∅ 3 1 5 sample_owner 9 left_proof left_proof proof_entered.2 proof_entered_ok)). Qed.

Lemma class_cache_exact_witness : (cache_lookup (fun _ => true) proof_entered.2.2 sample_owner 9 (fun id => Some (cd_content_key id))).1 = Some left_proof.
Proof.
  apply (class_cache_exact sample_heap ([] ++ [Inserted sample_owner 5 9 left_proof]) proof_entered.2 (fun _ => true) sample_owner 9 (fun id => Some (cd_content_key id)) left_proof proof_entered_run).
  exists 5%N. split; [exists [], []; split; [reflexivity|constructor]|]. split; [reflexivity|]. vm_compute. repeat constructor.
Defined.

(** A class that has changed since, a dead one and another request miss. *)
Example class_cache_misses :
  (cache_lookup (fun _ => true) proof_entered.2.2 sample_owner 9 (fun id => Some (1 + cd_content_key id)%N)).1 = None /\
  (cache_lookup (fun _ => false) proof_entered.2.2 sample_owner 9 (fun id => Some (cd_content_key id))).1 = None /\
  (cache_lookup (fun _ => true) proof_entered.2.2 sample_owner 8 (fun id => Some (cd_content_key id))).1 = None.
Proof. by vm_compute. Qed.

(** ** What the verifier lets through

    Two stacks of different depth join to their common part, which the run-time
    stack of the deeper path does not conform to: the next store finds a value of
    another category. *)

Definition deep_stack : VerificationFrame := FReachable OperandStack (stack_slots 3 [VInt; VLong]).

Definition shallow_stack : VerificationFrame := FReachable OperandStack (stack_slots 3 [VInt]).

Lemma join_drops_depth : frame_join deep_stack shallow_stack = shallow_stack.
Proof. vm_compute. reflexivity. Qed.

Definition store_instruction : PreparedJvmInstruction := sample_instruction Istore0 [] PNone.

Lemma dropped_depth_accepted :
  let st := {| vs_locals := new_frame Locals 1; vs_stack := frame_join deep_stack shallow_stack |} in
  is_ok (transfer_storage (fun _ => None) store_instruction st) = true /\
  (execute_storage_instruction (fun n => Err (EConstant n)) store_instruction (new_slots 1)
    {| stack_values := [Int 1; Long 2] : list sample_value; stack_depth := 3; stack_limit := 3 |}).1 = Err (ECategory Istore0).
Proof. vm_compute. split; reflexivity. Qed.

(** A [nop] is accepted by the verifier and refused by the dispatch. *)
Lemma nop_refused :
  let st := sample_state [] in
  transfer_storage (fun _ => None) (sample_instruction Nop [] PNone) st = Ok st /\
  (execute_storage_instruction (fun n => Err (EConstant n)) (sample_instruction Nop [] PNone) (new_slots 0) (sample_stack [] 0)).1 = Err (EMalformed Nop).
Proof. vm_compute. split; reflexivity. Qed.

(** A division by zero stops the host: the driver has no exception to throw. *)
Lemma division_aborts :
  (step_numeric (T:=unit) loop {| df_lease := Some (new_slots 0, sample_stack [Int 1; Int 0] 2); df_cursor := 0 |} (sample_instruction Idiv [] PNone)).1 = Panic.
Proof. vm_compute. reflexivity. Qed.
